(* ===== verification/_CoqProject ===== *)
-Q . S2P
Prelude.v
VersionRepr.v
VersionOrder.v
CacheKey.v
VersionParser.v
VersionDisplay.v
VersionRecord.v
Specifier.v
SpecifierParser.v
SpecifierErrors.v
Ranges.v
RangeCanonical.v
Normalize.v
Cursor.v
PythonTags.v
PlatformTags.v
Tags.v
DistExtension.v
WheelTag.v
WheelFilename.v
DistFilename.v
OnceMap.v
RangeSet.v
Stateful.v
MarkerEdges.v
MarkerTypes.v
RangeInstances.v
MarkerAlgebra.v
MarkerStore.v
MarkerOps.v
MarkerConj.v
MarkerTree.v
MarkerRestrict.v
MarkerPython.v
MarkerVersion.v
MarkerExpr.v
MarkerDnf.v
MarkerPaths.v
MarkerTheorems.v
MarkerTests.v
MarkerParser.v
MarkerComparison.v
MarkerText.v
MarkerRoundtrip.v
MarkerWitness.v
MarkerTextWitness.v
Requirement.v
RequirementParse.v
RequirementRoundtrip.v
RequirementWitness.v
RequiresPython.v
RequiresPythonTheorems.v
RequiresPythonMarkers.v
RequiresPythonWheels.v
RequiresPythonWitness.v
PythonRequirement.v
CacheControl.v
CachePolicy.v
CachePolicyTheorems.v
CachePolicyWitness.v
PrioritizedDist.v
PrioritizedMarkers.v
PrioritizedTheorems.v
PrioritizedWitness.v
UniversalMarker.v
UniversalTheorems.v
UniversalNormal.v
UniversalWitness.v
