(* ===== verification/Prelude.v ===== *)
(** * A verification development for uv, the Python package manager

    uv resolves and installs Python packages.  Every decision of its resolver is
    taken on a few data types with demanding contracts: versions and version
    specifiers (PEP 440), package names (PEP 503), the compatibility tags of wheels
    (PEP 425), environment markers and requirements (PEP 508), Python requirements
    and the file names of distributions.  Its tasks share their work through a
    run-once map, and its HTTP client keeps a cache of responses (RFC 9111).  This
    library models the code that defines them as executable functions and proves
    what the rest of the program relies on.

    ** Parts of the program and files

    - [Prelude.v]: machine integers, panics ([outcome]) and errors ([result]),
      three-way comparisons and their laws ([OrdLaws], [OrdEq]), bytes, UTF-8,
      decimal numerals, stable sorting, tactics and the hint database [uv].
    - [VersionRepr.v] (crates/uv-pep440/src/version.rs): [Version] in its two
      representations, [VersionSmall] packed into a [u64] and [VersionFull];
      every getter and setter, trimming, and [Version::bump].
    - [VersionOrder.v] (version.rs): [Ord], [PartialEq], [Hash] and [CacheKey].
      Hashers are modelled by the sequence of writes they receive.
    - [CacheKey.v] (crates/uv-cache-key: cache_key.rs, digest.rs): the trait
      [CacheKey], its implementations for the standard types, digests and cache
      names.
    - [VersionParser.v] (version.rs): [Parser], with its fast path and its error
      values, as a state-and-error monad over the cursor of the parser.
    - [VersionDisplay.v] (version.rs): [Display] of versions.
    - [VersionRecord.v]: lemmas on versions seen as records, shared by the files
      on specifiers and ranges.
    - [Specifier.v] (version.rs, version_specifier.rs): [Operator],
      [VersionSpecifier], [VersionSpecifiers] and [TildeVersionSpecifier].
    - [SpecifierParser.v] (version_specifier.rs): their parsers, printers and
      error spans.  [SpecifierErrors.v]: the texts of the errors of versions and
      specifiers.
    - [Ranges.v] (version_ranges.rs): conversion of specifiers to the ranges of
      the solver, with PEP 440 and with release-only semantics.
    - [RangeCanonical.v] (version_ranges.rs): sentinel bounds and their
      successors, canonical ranges, [LowerBound] and [UpperBound].
    - [Normalize.v] (crates/uv-normalize): package, extra and group names,
      [DistInfoName], [PipGroupName].
    - [PythonTags.v], [PlatformTags.v] (crates/uv-platform-tags: language_tag.rs,
      abi_tag.rs, platform_tag.rs, platform.rs): the three components of a wheel
      tag, their parsers and printers.
    - [Tags.v] (tags.rs, platform.rs): the tags an interpreter accepts, their
      priorities, and the compatibility of a wheel.
    - [DistExtension.v], [WheelTag.v], [WheelFilename.v], [DistFilename.v]
      (crates/uv-distribution-filename): extensions of paths; build tags, wheel
      tags in their two representations and the tag lines of [WHEEL] files; wheel
      file names; source distributions, egg-info names and [DistFilename].
    - [OnceMap.v] (crates/uv-once-map): the run-once map as atomic steps of
      concurrent tasks under any schedule.
    - [RangeSet.v]: the interface of the third-party [version_ranges::Ranges<T>]
      that the marker algebra works with, stated on the positions of a line, and
      an instance.  [Stateful.v]: the state-and-panic monad of the operations on
      the interner, with a specification triple ([runs]) and its rules.
    - [MarkerTypes.v] (crates/uv-pep508/src/marker: tree.rs, lowering.rs,
      environment.rs): marker values, operators, expressions, decision variables,
      environments.
    - [MarkerEdges.v], [MarkerAlgebra.v] (algebra.rs): node identifiers, edges,
      and every operation of the interner: creation of nodes, expressions,
      conjunction, disjunction, disjointness, restriction, removal of extras,
      Python bounds.  [MarkerTree.v] (tree.rs): [MarkerTree::kind], evaluation.
      [MarkerDnf.v] (simplify.rs, tree.rs): disjunctive normal form and display.
    - [MarkerStore.v], [RangeInstances.v], [MarkerOps.v], [MarkerConj.v],
      [MarkerRestrict.v], [MarkerPython.v], [MarkerVersion.v], [MarkerExpr.v],
      [MarkerPaths.v]: meaning and invariant of the interner, and the proofs of
      the operations; [MarkerTheorems.v] states the contract of [MarkerTree], and
      [MarkerWitness.v] applies it to a concrete interner.  [MarkerTests.v] derives
      from it how a marker that is built from expressions tests the environment.
    - [Cursor.v] (crates/uv-pep508/src: cursor.rs, lib.rs): the cursor of the
      PEP 508 parsers, and errors with their underlined span.
    - [MarkerParser.v] (marker/parse.rs): the parser of markers, over the cursor,
      the reported warnings and the interner.  [MarkerComparison.v] and [MarkerText.v]
      are the grammar of comparisons and of markers that it reads, [MarkerRoundtrip.v] the way from a marker to its text and back, and
      [MarkerTextWitness.v] applies both to the concrete interner.
    - [Requirement.v] (crates/uv-pep508/src: lib.rs, verbatim_url.rs, origin.rs):
      requirements, with their parser on the same cursor and interner, display,
      cache key and setters.  [RequirementParse.v] shows that the parser is total,
      [RequirementRoundtrip.v] relates text and requirement, and
      [RequirementWitness.v] has concrete requirements.
    - [RequiresPython.v] (crates/uv-distribution-types/src/requires_python.rs): the
      Python versions a project supports, as specifiers and as a range; splitting,
      narrowing and intersecting them, their marker, the markers simplified for
      them, and the test whether a wheel can be of use.  The theorems are in
      [RequiresPythonTheorems.v], [RequiresPythonMarkers.v] and
      [RequiresPythonWheels.v], concrete cases in [RequiresPythonWitness.v].
    - [PythonRequirement.v] (crates/uv-resolver/src/python_requirement.rs): the
      Python requirement of a fork of the resolver, with the marker of its target.
    - [PrioritizedDist.v] (crates/uv-distribution-types/src: prioritized_distribution.rs,
      and the records of lib.rs, file.rs, index_url.rs and resolved.rs that it holds):
      the wheels and the source distribution of a version, the one to use, and the
      markers that wheels imply.  [PrioritizedMarkers.v] has the meaning of those
      markers, [PrioritizedTheorems.v] that of the choice, and
      [PrioritizedWitness.v] a concrete version.
    - [UniversalMarker.v] (crates/uv-resolver/src/universal_marker.rs, with the items of
      crates/uv-pypi-types/src/conflicts.rs): the markers on the edges of a universal
      resolution, in which the extras, groups and projects that conflict are encoded
      as extras.  [UniversalTheorems.v] has their meaning, [UniversalNormal.v] that of
      the functions on their normal form, [UniversalWitness.v] two concrete extras.
    - [CacheControl.v] (crates/uv-client/src/httpcache/control.rs): the parser of
      [Cache-Control] values, an iterator over directives.  [CachePolicy.v]
      (httpcache/mod.rs): what is stored with a response, its age and lifetime, and
      the decisions before a request and after a response; theorems in
      [CachePolicyTheorems.v], a concrete exchange in [CachePolicyWitness.v].

    They build on each other as the crates do: versions are the values of
    specifiers, specifiers become ranges, ranges label the edges of markers,
    markers are parsed as part of requirements and simplified for a
    [RequiresPython], which also reads the tags of wheel names; the tags of a wheel
    imply markers, and the distributions of a version join them; universal markers
    are markers with the extras of conflicts.

    A definition carries the name of the Rust function it translates, with the
    type as a prefix where names clash ([small_set_post] is
    [VersionSmall::set_post], [from_env] is [Tags::from_env]).  A [u8], [u16] or
    [u64] is a [Z]; where the source can leave the width the operation says so
    ([shl64], [checked_add], [add64]).  A function that can panic returns an
    [outcome]; a Rust [Result] is a [result].  A [str] is a list of characters
    when the code looks at characters and a list of bytes when it looks at bytes;
    [utf8] relates the two.  Setters that take [&mut self] return the new value.

    ** Code outside the repository

    Third-party code is an interface: a class of operations and a class of laws
    that state its documentation, with one instance that shows they can be
    satisfied.  [Scanner] is unscanny's cursor, [RangeOps] and [SegmentOps] are
    [version_ranges::Ranges], [Flags] is the [bitflags!] macro, [Memchr] and
    [MemchrIter] are [memchr::memchr] and its iterator, [SeaHash] is the hasher of
    the seahash crate, [Papaya] is [papaya::HashMap], [Notify] is
    [tokio::sync::Notify], and [CharWidth] is the width of a character in the
    unicode-width crate.  [Alphabetic] is [char::is_alphabetic], of which only the
    ASCII part is used.  [RangeSet] is [version_ranges::Ranges] again, for the edges
    of markers and for Python ranges ([RangeSetBounds], [RangeSetValues]); [Pep508Url]
    is the trait of the URLs of requirements, [ProcessEnv] the environment of the
    process, [StdText] the quoting of text by the standard library.  [HeaderMap] is
    [http::HeaderMap], [HeaderValues] are the conversions of [http::HeaderValue] and
    [HttpDates] the dates of jiff; the clock is an argument.  The theorems hold for
    every instance of the laws.

    ** What the theorems show

    - Representation: the packed version is a refinement of the plain record
      under any sequence of setters ([setters_refine_record]) and keeps its bit
      layout ([packed_invariant]).
    - Order: the comparison of packed versions as integers is the
      component-wise one ([cmp_fast_is_slow]); the order is total and transitive
      ([cmp_total_order]), and hashing agrees with equality ([hash_respects_eq]);
      cache keys lose nothing ([cache_key_injective]); [bump] increases
      ([bump_increases]).
    - Text: no input makes a parser panic ([parse_never_panics],
      [specifiers_parse_total], [platform_tag_roundtrip]), the fast path changes
      nothing ([fast_path_agrees]), printing and parsing round-trip for versions,
      specifier lists, names and tags, and error spans are exact
      ([specifiers_error_span]).
    - Specifiers: membership respects equality of versions, [~=] is its
      definition, negation complements, sorting normalises, and the specifiers of
      an interval are the interval ([contains_respects_eq], [tilde_is_pair],
      [negate_complements], [from_unsorted_normalises],
      [release_only_bounds_exact]).
    - Ranges: the range the solver works with is the set the specifiers describe
      ([ranges_match_contains], [ranges_lose_nothing],
      [release_ranges_match_contains]); canonical ranges have the same members
      ([canonicalize_keeps_members], [sentinel_successor_least]).
    - Names: validation is the normalisation of the specification
      ([validate_is_pep503], [normalized_names_stable]).
    - Tags: the tags of an interpreter are distinct and ordered by priority
      ([env_tags_prioritised]), and the test of a wheel finds its best tag
      ([wheel_compatibility]).
    - Markers: the states of the interner are those reached by its operations
      ([MarkerExpr.reachable]); in all of them the decision diagrams are ordered,
      reduced, tiled and shared ([reachable_diagrams_are_reduced]).  In them every
      operation returns, and evaluates to what it says: single expressions
      ([expression_evaluates]), conjunction, disjunction, negation, implication
      ([and_evaluates], [or_implies_negate_evaluate]), disjointness
      ([is_disjoint_sound]), restriction and the operations on extras
      ([restrict_agrees], [without_extras_exact], [simplify_extras_exact]),
      Python ranges ([simplify_python_agrees], [complexify_simplify_roundtrip]), and
      the normal form that is printed ([dnf_evaluates], [top_level_extra_required]).  Evaluation follows
      one path of the diagram and never panics ([evaluate_terminates]).
    - Text of markers: no text makes the parser panic, and the spans of its errors
      are on character boundaries ([parse_markers_total]); every text of the
      grammar is parsed to a marker that evaluates to the meaning of the text
      ([grammar_evaluates]); printing a marker and parsing the text gives a marker
      that evaluates alike ([marker_text_roundtrip]).
    - Requirements: no text makes the parser panic, what it returns is in normal
      form and its errors can be displayed ([requirement_parse_total]); printing a
      requirement and parsing the text gives it back ([requirement_roundtrip]).
    - Python requirements: intersection, split and narrowing say what they do to the
      supported releases ([intersection_supports], [split_partitions],
      [narrow_intersects]); the marker of a requirement is its range, markers
      simplified for it agree within it, and those on strings and Python versions can
      be expanded again ([requires_python_markers]); no wheel that a supported
      interpreter can install is dropped, for an upper bound of at most three segments
      ([compatible_wheels_kept]); the resolver keeps the marker of its target in
      step with the target ([python_requirement_invariant]).
    - Distributions of a version: after any insertions the best wheel, the hashes and
      the markers are those of the files inserted ([insertions_choose_best]), and what
      is returned is the best file that can be installed ([get_returns_best]); the
      marker of a wheel is what its tags say ([implied_markers_evaluate]).
    - Universal markers: items are encoded as names without ambiguity
      ([conflict_item_roundtrip]); the marker of the declared conflicts holds when no
      two conflicting items are active ([conflicts_exclude_pairs]); the operations keep
      the PEP 508 part free of extras and above the marker, and all but [and] keep it
      exact ([universal_operations]),
      assumptions about an item are exact ([assume_item_exact]), unifying inferences
      changes nothing where one of them applies ([unify_inferences_sound]), the
      conflict that remains in an environment is exact
      ([conflict_for_environment_exact]), and extras are resolved by substituting
      the conditions under which they are active ([resolve_extras_substitutes]).
    - HTTP cache: [Cache-Control] values mean what their grammar says
      ([cache_control_parsed]); a plain response is served for exactly its
      [max-age] ([response_served_for_max_age]), only under the conditions of
      [may_be_served] ([served_only_if_allowed]) and for the requests it varies to
      ([vary_selects]); freshness only expires ([freshness_only_expires]) until the
      response is validated ([validated_response_fresh_again]).
    - Cache keys: the keys of composite values are unambiguous
      ([cache_keys_unambiguous]), digests and cache names have their form
      ([digest_is_hash], [cache_name_wellformed]).
    - File names: which names are wheels ([wheel_accepts]), that no name makes the
      parsers panic, that parsing with a hint is parsing ([wheel_from_hint_agrees]),
      and that printing and parsing round-trip ([wheel_filename_roundtrip],
      [dist_filename_roundtrip], [source_dist_roundtrip], [build_tag_roundtrip]);
      what is printed is safe as a path component ([wheel_text_safe]) and cache
      keys are short ([wheel_cache_key_bounded]); tag lines ([expanded_tag_parsed],
      [expanded_compatible_ranked], [splitter_is_split_terminator]).
    - Concurrency: under every schedule without removals a job is started once
      ([job_started_once]), no waiter panics ([once_map_never_panics]) and none is
      forgotten ([waiters_are_served]).
    - Where the code departs from its documentation or from itself, a theorem
      shows it on a concrete input ([greater_than_disagrees],
      [bounding_specifiers_drop_epoch], [star_specifiers_equal_but_differ],
      [dist_info_name_garbles], [illumos_suffix_twice], [small_suffix_limits],
      [min_version_is_not_least], [complexify_misordered],
      [python_version_never], [star_bound_untrimmed],
      [top_level_extra_name_of_disjunction], [cache_key_collision],
      [trailing_dot_accepted], [splitter_size_hint_too_small],
      [expanded_combines_lines], [remove_panics_waiter],
      [operator_before_parenthesis], [quote_not_escaped], [empty_error_panics],
      [archive_span_empty], [semicolon_after_url_accepted], [comment_without_space],
      [narrow_wider_range], [fourth_segment_drops_wheel],
      [prerelease_bound_excludes_release], [min_fresh_not_served],
      [repeated_directive_served], [unreadable_expires_served], [yank_reason_lost],
      [later_excluded_preferred], [from_source_ignores_compatibility],
      [py37_marker_too_narrow], [fat_machines], [stored_max_stale_used],
      [conflict_of_true], [and_keeps_pep508]).

    The theorems on markers have these limits:
    - conjunction also forgets markers that only hold where two known-incompatible
      conditions do, so its equation is for environments without such a pair
      ([possible]);
    - the meaning of an expression is for those that are lowered exactly ([expr_ok]):
      [python_version != 'X.Y.Z.*'] and lists of [python_version] with a third segment
      are lowered to FALSE ([python_version_never]), and [===], [~=] on strings and
      invalid names have none.  It is for environments in which [platform_system]
      and [sys_platform] name the same platform ([platforms_agree]);
    - a [marker] has no [extras] or [dependency_groups] variable with an invalid name.
      The parser reports such a name and builds a variable for it, at which evaluation
      stops with [false] ([evaluate_terminates] covers it), so that the connectives
      say nothing of it;
    - complexification is a step of the interner ([reachable]) for markers without
      variables after the Python version in the order of variables only.  On others,
      those with extras or substring tests, the code builds diagrams that are not
      ordered ([complexify_misordered]), and nothing is said of the states after it;
    - the normal form, and what is built on it (text, resolved extras, remaining
      conflicts), is for markers whose own diagram is [printable]: version ranges end
      in trimmed releases ([star_bound_untrimmed] otherwise), and string values are kept
      by lowering and, for keys without an order, told apart by equality;
    - the round trip through text is for markers with normal names and without a single
      quote in their values ([quotable]) that fail in some release environment, and
      compares the markers in release environments.

    [wf] marks the versions on which the order is defined (numbers in range,
    sentinels used as the code uses them), [real] those without sentinels and
    with all numbers below [u64::MAX], and [canonical] those the parser returns;
    [canonical] implies [real], and [real] implies [wf].

    ** Fuel

    The loops of the version parser over release segments and local segments take
    one more step than the length of the input, and every step consumes a byte;
    the theorems on the parser show that the fuel never runs out (running out is a
    panic).  The splitter takes a step per delimiter and two more
    ([splitter_fuel]); [splitter_is_split_terminator] shows that this is enough.
    Numbers are printed with twenty digits of fuel, enough for a [u64].
    A recursion of the marker algebra moves to a decision variable further down
    the order, so the number of nodes plus one ([enough]) bounds its depth; the
    theorems show that the operations return with it.  The parser of markers
    recurses on a parenthesis and loops on an operator, each of which takes a
    character: two more than the length of the text ([parser_fuel]) is enough,
    which [parse_markers_total] shows.  The loops of the requirement parser over
    extras, specifiers and URLs take a character per step, and have the length of
    the rest of the text and one more ([requirement_parse_total]).  The inner loop
    of the [Cache-Control] parser has the bytes of a header value and the iterator
    those of all values, since a directive has at least one byte
    ([cache_control_parsed]).  All other recursion is structural.

    ** What is not modelled

    Serialisation (serde, rkyv, schemas), [Debug], the messages of the log, the
    texts of warnings and of [pretty], and the sharing of [Arc] (values are copied
    on write).  The
    marker interner is behind one lock that an operation holds from start to end,
    so its operations are atomic here.  Canonical URLs sit on the third-party URL
    type.  The depth of the call stack is not modelled: parentheses nested very
    deeply overflow it.  The resolver itself is driven by the third-party pubgrub
    solver and by asynchronous fetches, and the clients around the HTTP cache by
    third-party HTTP libraries: neither has a counterpart here, nor have the command
    line, settings, I/O, subprocesses, archives and operating-system bindings of the
    other crates. *)

From Stdlib Require Import ZArith Lia String Ascii.
From Stdlib Require Import Sorting.Sorted Sorting.Permutation.
From stdpp Require Import base list.

#[global] Set Default Goal Selector "!".
Open Scope Z_scope.

Declare Scope uv_scope.
Delimit Scope uv_scope with uv.
Open Scope uv_scope.

(** ** Machine integers

    Rust's unsigned integers are [Z] with the width written out where the
    source can leave it.  [<<] on a [u64] drops the bits shifted out, [!] is the
    complement within 64 bits, and the [checked_*] methods return [None] on
    overflow.  Plain [+] panics on overflow ([add64]). *)

Definition u8_max : Z := 255.
Definition u16_max : Z := 65535.
Definition u64_max : Z := 18446744073709551615.

Definition is_u64 (n : Z) : Prop := 0 <= n <= u64_max.
Definition is_u8 (n : Z) : Prop := 0 <= n <= u8_max.

Definition shl64 (n k : Z) : Z := Z.land (Z.shiftl n k) u64_max.
Definition not64 (n : Z) : Z := Z.lxor n u64_max.

Definition checked_add (max a b : Z) : option Z :=
  if a + b <=? max then Some (a + b) else None.
Definition checked_mul (max a b : Z) : option Z :=
  if a * b <=? max then Some (a * b) else None.
Definition checked_sub (a b : Z) : option Z :=
  if b <=? a then Some (a - b) else None.
(** [u8::wrapping_sub] *)
Definition wrapping_sub8 (a b : Z) : Z := (a - b) mod 256.

(** ** Outcomes

    [outcome] is a computation that may panic; [result] is Rust's [Result]. *)

Inductive outcome (A : Type) : Type :=
| Ret (a : A)
| Panic.
Arguments Ret {A} a.
Arguments Panic {A}.

Inductive result (A E : Type) : Type :=
| Ok (a : A)
| Err (e : E).
Arguments Ok {A E} a.
Arguments Err {A E} e.

Definition obind {A B} (m : outcome A) (k : A -> outcome B) : outcome B :=
  match m with Ret a => k a | Panic => Panic end.

Notation "'let!' x ':=' e 'in' k" := (obind e (fun x => k))
  (at level 10, x name, e at level 100, k at level 200) : uv_scope.

Definition outcome_map {A B} (f : A -> B) (m : outcome A) : outcome B :=
  match m with Ret a => Ret (f a) | Panic => Panic end.

(** [Option::is_none] and [Option::is_some]. *)
Definition is_none {A} (o : option A) : bool :=
  match o with None => true | Some _ => false end.
Definition is_some {A} (o : option A) : bool := negb (is_none o).

(** [Option::unwrap] and [expect]. *)
Definition unwrap {A} (o : option A) : outcome A :=
  match o with Some a => Ret a | None => Panic end.

(** [assert!] and [debug_assert!]. *)
Definition assert {A} (b : bool) (k : outcome A) : outcome A :=
  if b then k else Panic.

(** [a + b] on [u64]. *)
Definition add64 (a b : Z) : outcome Z := unwrap (checked_add u64_max a b).

(** ** Orderings

    [std::cmp::Ordering] is [comparison]; [then_with], the order of slices and
    the order of [Option] are those of the standard library. *)

Definition then_with (c d : comparison) : comparison :=
  match c with Eq => d | _ => c end.

Fixpoint list_cmp {A} (cmp : A -> A -> comparison) (l k : list A) : comparison :=
  match l, k with
  | [], [] => Eq
  | [], _ :: _ => Lt
  | _ :: _, [] => Gt
  | x :: l', y :: k' => then_with (cmp x y) (list_cmp cmp l' k')
  end.

Definition option_cmp {A} (cmp : A -> A -> comparison) (a b : option A) : comparison :=
  match a, b with
  | None, None => Eq
  | None, Some _ => Lt
  | Some _, None => Gt
  | Some x, Some y => cmp x y
  end.

Definition is_eq (c : comparison) : bool := match c with Eq => true | _ => false end.
Definition is_lt (c : comparison) : bool := match c with Lt => true | _ => false end.
Definition is_le (c : comparison) : bool := match c with Gt => false | _ => true end.
Definition is_gt (c : comparison) : bool := match c with Gt => true | _ => false end.
Definition is_ge (c : comparison) : bool := match c with Lt => false | _ => true end.

(** What [impl Ord] promises: reversing the arguments reverses the answer, and
    [<=] is transitive.  Equality of the order may be coarser than [=]. *)
Class OrdLaws {A} (cmp : A -> A -> comparison) : Prop := {
  ord_sym : forall x y, cmp x y = CompOpp (cmp y x);
  ord_le_trans : forall x y z, cmp x y <> Gt -> cmp y z <> Gt -> cmp x z <> Gt;
}.

(** An order whose equality is [=]. *)
Class OrdEq {A} (cmp : A -> A -> comparison) : Prop := {
  ord_eq : forall x y, cmp x y = Eq -> x = y;
}.

Arguments ord_sym {A} cmp {_} x y.
Arguments ord_le_trans {A} cmp {_} x y z.
Arguments ord_eq {A} cmp {_} x y.

(** ** Bounds: [std::ops::Bound] *)

Inductive BoundOf (T : Type) : Type :=
| Included (v : T)
| Excluded (v : T)
| Unbounded.
Arguments Included {T} v.
Arguments Excluded {T} v.
Arguments Unbounded {T}.

(** ** Bytes

    A string is its list of bytes, a byte is a [Z].  [bs] turns a literal into
    bytes. *)

Definition byte_of_ascii (c : ascii) : Z := Z.of_N (N_of_ascii c).

Fixpoint bs (s : string) : list Z :=
  match s with
  | EmptyString => []
  | String c s' => byte_of_ascii c :: bs s'
  end.

Definition is_ascii_digit (b : Z) : bool := (48 <=? b) && (b <=? 57).
Definition is_ascii_upper (b : Z) : bool := (65 <=? b) && (b <=? 90).
Definition is_ascii_lower (b : Z) : bool := (97 <=? b) && (b <=? 122).
Definition is_ascii_alphanumeric (b : Z) : bool :=
  is_ascii_digit b || is_ascii_upper b || is_ascii_lower b.
(** [u8::is_ascii_whitespace]: space, tab, LF, FF, CR. *)
Definition is_ascii_whitespace (b : Z) : bool :=
  (b =? 32) || (b =? 9) || (b =? 10) || (b =? 12) || (b =? 13).
Definition to_ascii_lowercase (b : Z) : Z := if is_ascii_upper b then b + 32 else b.
Definition to_ascii_uppercase (b : Z) : Z := if is_ascii_lower b then b - 32 else b.
Definition eq_ignore_ascii_case (a b : Z) : bool :=
  to_ascii_lowercase a =? to_ascii_lowercase b.

(** Equality of byte strings. *)
Definition bytes_eqb (a b : list Z) : bool := is_eq (list_cmp Z.compare a b).

(** ** Lists *)

Fixpoint take_while {A} (p : A -> bool) (l : list A) : list A :=
  match l with
  | [] => []
  | x :: l' => if p x then x :: take_while p l' else []
  end.

Fixpoint drop_while {A} (p : A -> bool) (l : list A) : list A :=
  match l with
  | [] => []
  | x :: l' => if p x then drop_while p l' else l
  end.

(** [iter.zip(other.chain(repeat(0))).all(eq)]: [l] is a prefix of [k] padded
    with zeros. *)
Fixpoint prefix_padded (l k : list Z) : bool :=
  match l, k with
  | [], _ => true
  | x :: l', [] => (x =? 0) && prefix_padded l' []
  | x :: l', y :: k' => (x =? y) && prefix_padded l' k'
  end.

(** [rev().skip_while(|x| x == 0)], read back in order. *)
Definition trim_zeros (l : list Z) : list Z := rev (drop_while (Z.eqb 0) (rev l)).

(** [slice::sort_by], which is stable. *)
Fixpoint insert_by {A} (cmp : A -> A -> comparison) (x : A) (l : list A) : list A :=
  match l with
  | [] => [x]
  | y :: l' => if is_gt (cmp x y) then y :: insert_by cmp x l' else x :: l
  end.

Definition sort_by {A} (cmp : A -> A -> comparison) (l : list A) : list A :=
  foldr (insert_by cmp) [] l.

(** ** Decimal numerals *)

Fixpoint digits_fuel (fuel : nat) (n : Z) (acc : list Z) : list Z :=
  match fuel with
  | O => acc
  | S f =>
      let acc' := (48 + n mod 10) :: acc in
      if n / 10 =? 0 then acc' else digits_fuel f (n / 10) acc'
  end.

(** [Display] of a [u64]: at most twenty digits, since [2^64 < 10^20]. *)
Definition show_u64 (n : Z) : list Z := digits_fuel 20 n [].


(** ** Characters *)

Definition is_char (c : Z) : Prop := 0 <= c <= 1114111.

(** [char::is_whitespace]: the Unicode property [White_Space]. *)
Definition is_whitespace (c : Z) : bool :=
  ((9 <=? c) && (c <=? 13)) || (c =? 32) || (c =? 133) || (c =? 160) || (c =? 5760)
  || ((8192 <=? c) && (c <=? 8202)) || (c =? 8232) || (c =? 8233) || (c =? 8239) || (c =? 8287)
  || (c =? 12288).

(** [char::encode_utf8] *)
Definition utf8_char (c : Z) : list Z :=
  if c <? 128 then [c]
  else if c <? 2048 then [192 + c / 64; 128 + c mod 64]
  else if c <? 65536 then [224 + c / 4096; 128 + (c / 64) mod 64; 128 + c mod 64]
  else [240 + c / 262144; 128 + (c / 4096) mod 64; 128 + (c / 64) mod 64; 128 + c mod 64].

Definition utf8 (s : list Z) : list Z := flat_map utf8_char s.

(** [s.len()], in bytes. *)
Definition str_len (s : list Z) : nat := length (utf8 s).

(** [s.split_at(i)] for a byte offset [i]. *)
Fixpoint str_split_at (s : list Z) (i : nat) : outcome (list Z * list Z) :=
  match i with
  | O => Ret ([], s)
  | _ =>
      match s with
      | [] => Panic
      | c :: s' =>
          let n := length (utf8_char c) in
          if Nat.leb n i then
            let! p := str_split_at s' (i - n) in Ret (c :: p.1, p.2)
          else Panic
      end
  end.

Definition slice_to (s : list Z) (i : nat) : outcome (list Z) := outcome_map fst (str_split_at s i).
Definition slice_from (s : list Z) (i : nat) : outcome (list Z) := outcome_map snd (str_split_at s i).
Definition slice (s : list Z) (i j : nat) : outcome (list Z) :=
  let! s' := slice_to s j in slice_from s' i.
Definition bytes_from (l : list Z) (i : nat) : outcome (list Z) :=
  if Nat.leb i (length l) then Ret (drop i l) else Panic.

(** [str::split] on one character. *)
Fixpoint split_on (sep : Z) (s : list Z) : list (list Z) :=
  match s with
  | [] => [[]]
  | c :: s' =>
      if c =? sep then [] :: split_on sep s'
      else match split_on sep s' with
           | [] => [[c]]
           | part :: parts => (c :: part) :: parts
           end
  end.

Lemma split_on_none sep a : Forall (fun c => c <> sep) a -> split_on sep a = [a].
Proof.
  induction 1 as [|c a Hc Ha IH]; cbn [split_on]; [done|].
  rewrite (proj2 (Z.eqb_neq _ _)) by done. by rewrite IH.
Qed.

Lemma split_on_app sep a b : Forall (fun c => c <> sep) a ->
  split_on sep (a ++ sep :: b) = a :: split_on sep b.
Proof.
  induction 1 as [|c a Hc Ha IH]; cbn [app split_on]; [by rewrite Z.eqb_refl|].
  rewrite (proj2 (Z.eqb_neq _ _)) by done. by rewrite IH.
Qed.

Lemma split_on_nonempty sep s : split_on sep s <> [].
Proof. destruct s as [|c s]; cbn; [done|]. destruct (c =? sep); [done|]. by destruct (split_on sep s). Qed.

(** The text of parts between separators. *)
Fixpoint join_on (sep : Z) (parts : list (list Z)) : list Z :=
  match parts with
  | [] => []
  | [p] => p
  | p :: ps => p ++ sep :: join_on sep ps
  end.

Lemma join_split sep s : join_on sep (split_on sep s) = s.
Proof.
  induction s as [|c s IH]; [done|]. cbn [split_on]. pose proof (split_on_nonempty sep s) as Hne.
  destruct (Z.eqb_spec c sep) as [->|Hc].
  - destruct (split_on sep s) as [|p ps]; [done|]. cbn [join_on app]. by rewrite <- IH.
  - destruct (split_on sep s) as [|p [|p' ps]]; [done|by rewrite <- IH|]. by rewrite <- IH.
Qed.

(** [str::strip_prefix], [str::strip_suffix] and [str::split_once]. *)
Fixpoint strip_prefix (prefix s : list Z) : option (list Z) :=
  match prefix, s with
  | [], _ => Some s
  | a :: prefix', b :: s' => if a =? b then strip_prefix prefix' s' else None
  | _ :: _, [] => None
  end.

Definition strip_suffix (suffix s : list Z) : option (list Z) :=
  option_map (@rev Z) (strip_prefix (rev suffix) (rev s)).

Fixpoint split_once (sep : Z) (s : list Z) : option (list Z * list Z) :=
  match s with
  | [] => None
  | c :: s' =>
      if c =? sep then Some ([], s')
      else option_map (fun p => (c :: p.1, p.2)) (split_once sep s')
  end.

(** [str::parse] for an unsigned integer type with the given maximum: an
    optional [+], then digits, failing on overflow. *)
Fixpoint parse_digits (max : Z) (s : list Z) (n : Z) : option Z :=
  match s with
  | [] => Some n
  | c :: s' =>
      if is_ascii_digit c then
        match checked_mul max n 10 with
        | None => None
        | Some m =>
            match checked_add max m (c - 48) with
            | None => None
            | Some m' => parse_digits max s' m'
            end
        end
      else None
  end.

Definition parse_uint (max : Z) (s : list Z) : option Z :=
  let digits := match s with c :: _ :: _ => if c =? 43 then tail s else s | _ => s end in
  match digits with
  | [] => None
  | _ => parse_digits max digits 0
  end.

(** ** Automation

    [cmp_norm] turns the comparisons on [Z] among the hypotheses into
    (in)equalities; [bool_norm] does the same for boolean tests. *)

Create HintDb uv.

Ltac cmp_norm :=
  repeat match goal with
  | H : (_ ?= _) = Eq |- _ => apply Z.compare_eq_iff in H; subst
  | H : (_ ?= _) = Lt |- _ => apply Z.compare_lt_iff in H
  | H : (_ ?= _) = Gt |- _ => apply Z.compare_gt_iff in H
  end.

Ltac bool_norm :=
  repeat match goal with
  | H : _ && _ = true |- _ => apply andb_prop in H; destruct H
  | H : _ || _ = false |- _ => apply orb_false_elim in H; destruct H
  | H : negb _ = true |- _ => apply negb_true_iff in H
  | H : negb _ = false |- _ => apply negb_false_iff in H
  | H : (_ =? _) = true |- _ => apply Z.eqb_eq in H
  | H : (_ =? _) = false |- _ => apply Z.eqb_neq in H
  | H : (_ <=? _) = true |- _ => apply Z.leb_le in H
  | H : (_ <=? _) = false |- _ => apply Z.leb_gt in H
  | H : (_ <? _) = true |- _ => apply Z.ltb_lt in H
  | H : (_ <? _) = false |- _ => apply Z.ltb_ge in H
  end.

(** ** Lemmas on orderings *)

Section ord_facts.
Context {A : Type} (cmp : A -> A -> comparison) `{!OrdLaws cmp}.

Lemma ord_refl x : cmp x x = Eq.
Proof. pose proof (ord_sym cmp x x) as H. by destruct (cmp x x). Qed.

Lemma ord_gt_lt x y : cmp x y = Gt <-> cmp y x = Lt.
Proof. rewrite (ord_sym cmp x y). by destruct (cmp y x). Qed.

Lemma ord_le_ge x y : cmp x y <> Gt <-> cmp y x <> Lt.
Proof. by rewrite ord_gt_lt. Qed.

Lemma ord_lt_le_trans x y z : cmp x y = Lt -> cmp y z <> Gt -> cmp x z = Lt.
Proof.
  intros Hxy Hyz. destruct (cmp x z) eqn:Hxz; [exfalso|done|exfalso].
  - apply (ord_le_trans cmp y z x); [done| |by apply ord_gt_lt].
    rewrite (ord_sym cmp z x), Hxz. done.
  - apply (ord_le_trans cmp x y z); [by rewrite Hxy|done|done].
Qed.

Lemma ord_le_lt_trans x y z : cmp x y <> Gt -> cmp y z = Lt -> cmp x z = Lt.
Proof.
  intros Hxy Hyz. destruct (cmp x z) eqn:Hxz; [exfalso|done|exfalso].
  - apply (ord_le_trans cmp z x y); [|done|by apply ord_gt_lt].
    rewrite (ord_sym cmp z x), Hxz. done.
  - apply (ord_le_trans cmp x y z); [done|by rewrite Hyz|done].
Qed.

Lemma ord_lt_trans x y z : cmp x y = Lt -> cmp y z = Lt -> cmp x z = Lt.
Proof. intros H1 H2. apply (ord_lt_le_trans x y z); [done|by rewrite H2]. Qed.

Lemma ord_eq_sym x y : cmp x y = Eq -> cmp y x = Eq.
Proof. rewrite (ord_sym cmp y x). by intros ->. Qed.

(** Elements that compare equal are interchangeable. *)
Lemma ord_eq_l x y z : cmp x y = Eq -> cmp x z = cmp y z.
Proof.
  intros H. pose proof (ord_eq_sym _ _ H) as H'.
  destruct (cmp y z) eqn:Hyz.
  - pose proof (ord_eq_sym _ _ Hyz) as Hzy.
    destruct (cmp x z) eqn:Hxz; [done|exfalso|exfalso].
    + apply (ord_le_trans cmp z y x); [by rewrite Hzy|by rewrite H'|by apply ord_gt_lt].
    + apply (ord_le_trans cmp x y z); [by rewrite H|by rewrite Hyz|done].
  - apply (ord_le_lt_trans x y z); [by rewrite H|done].
  - apply ord_gt_lt. apply (ord_lt_le_trans z y x); [by apply ord_gt_lt|by rewrite H'].
Qed.

Lemma ord_eq_r x y z : cmp x y = Eq -> cmp z x = cmp z y.
Proof. intros H. rewrite (ord_sym cmp z x), (ord_sym cmp z y). f_equal. by apply ord_eq_l. Qed.

Lemma ord_eq_trans x y z : cmp x y = Eq -> cmp y z = Eq -> cmp x z = Eq.
Proof. intros H1 H2. by rewrite (ord_eq_l x y z H1). Qed.
End ord_facts.

#[export] Instance Z_compare_laws : OrdLaws Z.compare.
Proof.
  split.
  - intros x y. apply Z.compare_antisym.
  - intros x y z H1 H2 H3. apply Z.compare_gt_iff in H3.
    apply H1. apply Z.compare_gt_iff. destruct (Z.compare_spec y z); [lia|lia|congruence].
Qed.

#[export] Instance Z_compare_eq : OrdEq Z.compare.
Proof. split. intros x y. apply Z.compare_eq_iff. Qed.

#[export] Instance option_cmp_laws {A} (cmp : A -> A -> comparison) `{!OrdLaws cmp} :
  OrdLaws (option_cmp cmp).
Proof.
  split.
  - intros [x|] [y|]; simpl; [apply (ord_sym cmp)|done|done|done].
  - intros [x|] [y|] [z|]; simpl; try congruence. apply (ord_le_trans cmp).
Qed.

#[export] Instance option_cmp_eq {A} (cmp : A -> A -> comparison) `{!OrdEq cmp} :
  OrdEq (option_cmp cmp).
Proof. split. intros [x|] [y|]; simpl; try congruence. intros H. f_equal. by apply (ord_eq _). Qed.

Lemma then_with_opp c d : CompOpp (then_with c d) = then_with (CompOpp c) (CompOpp d).
Proof. by destruct c. Qed.

(** Lexicographic composition of two orders. *)
Definition pair_cmp {A B} (ca : A -> A -> comparison) (cb : B -> B -> comparison)
    (x y : A * B) : comparison :=
  then_with (ca x.1 y.1) (cb x.2 y.2).

#[export] Instance pair_cmp_laws {A B} (ca : A -> A -> comparison) (cb : B -> B -> comparison)
    `{!OrdLaws ca} `{!OrdLaws cb} : OrdLaws (pair_cmp ca cb).
Proof.
  split.
  - intros [x1 x2] [y1 y2]. unfold pair_cmp; simpl.
    by rewrite then_with_opp, <- (ord_sym ca), <- (ord_sym cb).
  - intros [x1 x2] [y1 y2] [z1 z2]. unfold pair_cmp; simpl. intros H1 H2.
    destruct (ca x1 y1) eqn:E1; simpl in H1; [| |congruence].
    + rewrite (ord_eq_l ca _ _ z1 E1).
      destruct (ca y1 z1) eqn:E2; simpl in *; [|congruence|congruence].
      by apply (ord_le_trans cb x2 y2 z2).
    + assert (Hz : ca x1 z1 = Lt).
      { apply (ord_lt_le_trans ca x1 y1 z1); [done|]. by destruct (ca y1 z1). }
      by rewrite Hz.
Qed.

#[export] Instance pair_cmp_eq {A B} (ca : A -> A -> comparison) (cb : B -> B -> comparison)
    `{!OrdEq ca} `{!OrdEq cb} : OrdEq (pair_cmp ca cb).
Proof.
  split. intros [x1 x2] [y1 y2]. unfold pair_cmp; simpl.
  destruct (ca x1 y1) eqn:E; simpl; try congruence. intros H.
  by rewrite (ord_eq ca _ _ E), (ord_eq cb _ _ H).
Qed.

#[export] Instance list_cmp_laws {A} (cmp : A -> A -> comparison) `{!OrdLaws cmp} :
  OrdLaws (list_cmp cmp).
Proof.
  split.
  - intros l. induction l as [|x l IH]; intros [|y k]; simpl; [done|done|done|].
    by rewrite then_with_opp, <- (ord_sym cmp), <- IH.
  - intros l. induction l as [|x l IH]; intros [|y k] [|z m]; simpl; try congruence.
    intros H1 H2. destruct (cmp x y) eqn:E1; simpl in H1; [| |congruence].
    + rewrite (ord_eq_l cmp _ _ z E1).
      destruct (cmp y z) eqn:E2; simpl in *; [|congruence|congruence]. by apply (IH k m).
    + assert (Hz : cmp x z = Lt).
      { apply (ord_lt_le_trans cmp x y z); [done|]. by destruct (cmp y z). }
      by rewrite Hz.
Qed.

#[export] Instance list_cmp_eq {A} (cmp : A -> A -> comparison) `{!OrdEq cmp} :
  OrdEq (list_cmp cmp).
Proof.
  split. intros l. induction l as [|x l IH]; intros [|y k]; simpl; try congruence.
  destruct (cmp x y) eqn:E; simpl; try congruence. intros H.
  by rewrite (ord_eq cmp _ _ E), (IH _ H).
Qed.

(** An order read off a key is lawful. *)
Lemma key_laws {A K} (cmp : K -> K -> comparison) (f : A -> K) `{!OrdLaws cmp} :
  OrdLaws (fun x y => cmp (f x) (f y)).
Proof. split; [intros; apply (ord_sym cmp)|intros x y z; apply (ord_le_trans cmp)]. Qed.

Lemma bytes_eqb_eq a b : bytes_eqb a b = true <-> a = b.
Proof.
  unfold bytes_eqb. split.
  - destruct (list_cmp Z.compare a b) eqn:E; [|done|done]. intros _. by apply (ord_eq _).
  - intros ->. by rewrite ord_refl by apply _.
Qed.

(** ** Lemmas on lists *)

Lemma forallb_Forall {A} (f : A -> bool) l : forallb f l = true <-> Forall (fun x => f x = true) l.
Proof.
  rewrite forallb_forall, Forall_forall. split; intros H x Hx; apply H; by apply list_elem_of_In.
Qed.

Lemma take_drop_while {A} (p : A -> bool) l : take_while p l ++ drop_while p l = l.
Proof. induction l as [|x l IH]; simpl; [done|]. destruct (p x); simpl; [by rewrite IH|done]. Qed.

Lemma take_while_all {A} (p : A -> bool) l : Forall (fun x => p x = true) (take_while p l).
Proof.
  induction l as [|x l IH]; simpl; [constructor|].
  destruct (p x) eqn:E; by constructor.
Qed.

(** A maximal run of [p] at the head of a list is what [take_while] returns. *)
Definition stops {A} (p : A -> bool) (l : list A) : Prop :=
  match l with [] => True | x :: _ => p x = false end.

Lemma drop_while_stops {A} (p : A -> bool) l : stops p (drop_while p l).
Proof. induction l as [|x l IH]; simpl; [done|]. by destruct (p x) eqn:E. Qed.

Lemma take_while_app {A} (p : A -> bool) l k :
  Forall (fun x => p x = true) l -> stops p k -> take_while p (l ++ k) = l.
Proof.
  intros Hl Hk. induction Hl as [|x l Hx Hl IH]; simpl.
  - destruct k as [|y k]; [done|]. simpl in *. by rewrite Hk.
  - by rewrite Hx, IH.
Qed.

Lemma drop_while_app {A} (p : A -> bool) l k :
  Forall (fun x => p x = true) l -> stops p k -> drop_while p (l ++ k) = k.
Proof.
  intros Hl Hk. induction Hl as [|x l Hx Hl IH]; simpl.
  - destruct k as [|y k]; [done|]. simpl in *. by rewrite Hk.
  - by rewrite Hx.
Qed.

Lemma take_while_stops {A} (p : A -> bool) l : stops p l -> take_while p l = [].
Proof. destruct l as [|x l]; simpl; [done|]. by intros ->. Qed.

Lemma drop_while_id {A} (p : A -> bool) l : stops p l -> drop_while p l = l.
Proof. destruct l as [|x l]; simpl; [done|]. by intros ->. Qed.

Lemma trim_zeros_snoc_0 l : trim_zeros (l ++ [0]) = trim_zeros l.
Proof. unfold trim_zeros. by rewrite rev_app_distr. Qed.

Lemma trim_zeros_snoc l n : n <> 0 -> trim_zeros (l ++ [n]) = l ++ [n].
Proof.
  intros Hn. unfold trim_zeros. rewrite rev_app_distr. cbn [rev app drop_while].
  destruct (Z.eqb_spec 0 n) as [E|_]; [lia|]. simpl. by rewrite rev_involutive.
Qed.

Lemma trim_zeros_nil : trim_zeros [] = [].
Proof. done. Qed.

Lemma trim_zeros_cons x l :
  trim_zeros (x :: l) = if (x =? 0) && is_eq (list_cmp Z.compare (trim_zeros l) [])
                        then [] else x :: trim_zeros l.
Proof.
  induction l as [|y l IH] using rev_ind.
  - unfold trim_zeros. cbn [rev app drop_while list_cmp is_eq].
    rewrite (Z.eqb_sym 0 x). by destruct (x =? 0).
  - rewrite app_comm_cons. destruct (decide (y = 0)) as [->|Hy].
    + by rewrite !trim_zeros_snoc_0.
    + rewrite !trim_zeros_snoc by done. destruct l; by rewrite andb_false_r.
Qed.

(** ** Stable sorting *)

Section sorting.
Context {A : Type} (cmp : A -> A -> comparison) `{!OrdLaws cmp}.

Let le x y := cmp x y <> Gt.

Lemma insert_by_perm x l : Permutation (x :: l) (insert_by cmp x l).
Proof.
  induction l as [|y l IH]; simpl; [done|].
  destruct (cmp x y); simpl; [done|done|].
  by rewrite perm_swap, IH.
Qed.

Lemma sort_by_perm l : Permutation l (sort_by cmp l).
Proof. induction l as [|x l IH]; simpl; [done|]. by rewrite <- insert_by_perm, <- IH. Qed.

Lemma insert_by_hdrel y x l : le y x -> HdRel le y l -> HdRel le y (insert_by cmp x l).
Proof.
  intros Hyx Hl. destruct l as [|z l]; simpl; [by constructor|].
  inv Hl. destruct (cmp x z); by constructor.
Qed.

Lemma insert_by_sorted x l : Sorted le l -> Sorted le (insert_by cmp x l).
Proof.
  induction l as [|y l IH]; intros Hs; simpl; [by repeat constructor|].
  inv Hs. destruct (cmp x y) eqn:E; simpl.
  1,2: constructor; [by constructor|constructor; unfold le; by rewrite E].
  constructor; [by apply IH|]. apply insert_by_hdrel; [|done].
  unfold le. by rewrite (ord_sym cmp), E.
Qed.

Lemma sort_by_sorted l : Sorted le (sort_by cmp l).
Proof. induction l as [|x l IH]; simpl; [constructor|]. by apply insert_by_sorted. Qed.

Lemma sort_by_id l : Sorted le l -> sort_by cmp l = l.
Proof.
  induction l as [|x l IH]; intros Hs; simpl; [done|]. inv Hs. rewrite IH by done.
  destruct l as [|y l]; simpl; [done|].
  match goal with H : HdRel _ _ _ |- _ => inv H end.
  unfold le in *. by destruct (cmp x y).
Qed.
End sorting.

(** ** Decimal numerals *)

Definition decimal_from (m : Z) (l : list Z) : Z :=
  fold_left (fun n b => 10 * n + (b - 48)) l m.

Lemma decimal_from_app m l k : decimal_from m (l ++ k) = decimal_from (decimal_from m l) k.
Proof. apply fold_left_app. Qed.

Lemma decimal_from_mono n ds : 0 <= n -> Forall (fun b => is_ascii_digit b = true) ds ->
  n <= decimal_from n ds.
Proof.
  intros Hn Hd. revert n Hn. induction Hd as [|b ds Hb Hd IH]; intros n Hn; [simpl; lia|].
  unfold is_ascii_digit in Hb. bool_norm. cbn. etrans; [|apply IH; lia]. lia.
Qed.

Lemma digits_fuel_spec fuel n acc :
  0 <= n < 10 ^ Z.of_nat fuel -> fuel <> O ->
  exists ds, digits_fuel fuel n acc = ds ++ acc /\ ds <> [] /\
    Forall (fun b => is_ascii_digit b = true) ds /\
    decimal_from 0 ds = n.
Proof.
  revert n acc. induction fuel as [|f IH]; intros n acc Hn Hf; [done|].
  assert (Hmod : 0 <= n mod 10 < 10) by (apply Z.mod_pos_bound; lia).
  assert (Hdig : is_ascii_digit (48 + n mod 10) = true).
  { unfold is_ascii_digit. apply andb_true_intro. split; apply Z.leb_le; lia. }
  pose proof (Z.div_mod n 10) as Hdm. cbn [digits_fuel].
  destruct (Z.eqb_spec (n / 10) 0) as [E|E].
  - exists [48 + n mod 10]. repeat split; [done| |].
    + by repeat constructor.
    + cbn. lia.
  - rewrite Nat2Z.inj_succ, Z.pow_succ_r in Hn by lia.
    assert (Hdiv : 0 <= n / 10 < 10 ^ Z.of_nat f).
    { split; [apply Z.div_pos; lia|apply Z.div_lt_upper_bound; lia]. }
    destruct (IH (n / 10) ((48 + n mod 10) :: acc)) as (ds & -> & Hne & Hds & Hval);
      [done|destruct f; [simpl in Hdiv; lia|done]|].
    exists (ds ++ [48 + n mod 10]). repeat split.
    + by rewrite <- app_assoc.
    + by destruct ds.
    + apply Forall_app. by repeat constructor.
    + rewrite decimal_from_app, Hval. cbn. lia.
Qed.

Lemma show_u64_spec n : is_u64 n ->
  show_u64 n <> [] /\ Forall (fun b => is_ascii_digit b = true) (show_u64 n) /\
  decimal_from 0 (show_u64 n) = n.
Proof.
  intros Hn. unfold is_u64, u64_max in Hn. unfold show_u64.
  destruct (digits_fuel_spec 20 n []) as (ds & -> & ?); [|done|by rewrite app_nil_r].
  change (10 ^ Z.of_nat 20) with 100000000000000000000. lia.
Qed.

Lemma show_u64_inj n m : is_u64 n -> is_u64 m -> show_u64 n = show_u64 m -> n = m.
Proof.
  intros Hn Hm H. destruct (show_u64_spec n Hn) as (_ & _ & <-).
  destruct (show_u64_spec m Hm) as (_ & _ & <-). by rewrite H.
Qed.

(** ** Characters *)

Lemma utf8_app a b : utf8 (a ++ b) = utf8 a ++ utf8 b.
Proof. apply flat_map_app. Qed.

Lemma str_len_ge s : (length s <= str_len s)%nat.
Proof.
  unfold str_len. induction s as [|c s IH]; [done|]. cbn [utf8 flat_map]. fold (utf8 s). rewrite length_app.
  assert (1 <= length (utf8_char c))%nat.
  { unfold utf8_char. destruct (c <? 128), (c <? 2048), (c <? 65536); cbn; lia. }
  cbn [length]. lia.
Qed.

Lemma utf8_char_length c : (1 <= length (utf8_char c))%nat.
Proof. pose proof (str_len_ge [c]) as H. unfold str_len, utf8 in H. cbn [flat_map] in H. rewrite app_nil_r in H. done. Qed.

Lemma str_len_app a b : str_len (a ++ b) = (str_len a + str_len b)%nat.
Proof. unfold str_len. by rewrite utf8_app, length_app. Qed.

Lemma str_split_at_app a b : str_split_at (a ++ b) (str_len a) = Ret (a, b).
Proof.
  induction a as [|c a IH]; [by destruct b|].
  pose proof (utf8_char_length c) as Hc.
  assert (E : str_len (c :: a) = (length (utf8_char c) + str_len a)%nat).
  { change (c :: a) with ([c] ++ a). rewrite str_len_app. f_equal. unfold str_len, utf8. cbn [flat_map]. by rewrite app_nil_r. }
  rewrite E. cbn [app]. destruct (length (utf8_char c) + str_len a)%nat as [|i] eqn:Ei; [lia|].
  cbn [str_split_at]. rewrite <- Ei. destruct (Nat.leb_spec (length (utf8_char c)) (length (utf8_char c) + str_len a)); [|lia].
  replace (_ + _ - _)%nat with (str_len a) by lia. by rewrite IH.
Qed.

Lemma str_len_cons_ascii c a : 0 <= c < 128 -> str_len (c :: a) = S (str_len a).
Proof. intros H. unfold str_len. cbn [utf8 flat_map]. unfold utf8_char. by destruct (Z.ltb_spec c 128); [|lia]. Qed.

Lemma slice_to_app a b : slice_to (a ++ b) (str_len a) = Ret a.
Proof. unfold slice_to. by rewrite str_split_at_app. Qed.

Lemma slice_from_app a b : slice_from (a ++ b) (str_len a) = Ret b.
Proof. unfold slice_from. by rewrite str_split_at_app. Qed.

Lemma str_split_at_Ret s i a b : str_split_at s i = Ret (a, b) -> s = a ++ b.
Proof.
  revert i a b. induction s as [|c s IH]; intros [|i] a b; cbn [str_split_at]; [by intros [= <- <-]|done|by intros [= <- <-]|].
  destruct (Nat.leb _ _); [|done]. destruct (str_split_at s _) as [[a' b']|] eqn:E; [|done]. cbn [obind].
  intros [= <- <-]. cbn. f_equal. by eapply IH.
Qed.

Lemma utf8_u8 l : Forall is_char l -> Forall is_u8 (utf8 l).
Proof.
  induction 1 as [|c l Hc Hl IH]; [constructor|]. cbn [utf8 flat_map]. fold (utf8 l).
  apply Forall_app. split; [|done]. unfold is_char in Hc. unfold utf8_char, is_u8, u8_max.
  destruct (Z.ltb_spec c 128); [repeat constructor; lia|].
  destruct (Z.ltb_spec c 2048); [repeat constructor; Z.div_mod_to_equations; lia|].
  destruct (Z.ltb_spec c 65536); repeat constructor; Z.div_mod_to_equations; lia.
Qed.

(** ASCII text is its own encoding. *)
Lemma utf8_ascii l : Forall (fun c => 0 <= c < 128) l -> utf8 l = l.
Proof.
  induction 1 as [|c l Hc Hl IH]; [done|]. cbn [utf8 flat_map]. fold (utf8 l). rewrite IH.
  unfold utf8_char. by destruct (Z.ltb_spec c 128); [|lia].
Qed.

Lemma utf8_ascii_inv l : Forall (fun b => b < 128) (utf8 l) -> utf8 l = l.
Proof.
  induction l as [|c l IH]; [done|]. cbn [utf8 flat_map]. fold (utf8 l). rewrite Forall_app. intros [Hc Hl].
  rewrite IH by done. unfold utf8_char in *. destruct (Z.ltb_spec c 128); [done|]. exfalso.
  destruct (Z.ltb_spec c 2048); [|destruct (Z.ltb_spec c 65536)]; inv Hc; Z.div_mod_to_equations; lia.
Qed.

(** ** Splitting and parsing text *)

Lemma strip_prefix_app p s : strip_prefix p (p ++ s) = Some s.
Proof. induction p as [|a p IH]; [done|]. cbn. by rewrite Z.eqb_refl. Qed.

Lemma strip_prefix_Some p s r : strip_prefix p s = Some r <-> s = p ++ r.
Proof.
  split; [|intros ->; apply strip_prefix_app]. revert s.
  induction p as [|a p IH]; intros [|b s]; cbn; try done; [congruence..|].
  destruct (Z.eqb_spec a b) as [->|]; [|done]. by intros ->%IH.
Qed.

Lemma strip_suffix_app p s : strip_suffix p (s ++ p) = Some s.
Proof. unfold strip_suffix. rewrite rev_app_distr, strip_prefix_app. cbn. by rewrite rev_involutive. Qed.

Lemma strip_suffix_Some p s r : strip_suffix p s = Some r <-> s = r ++ p.
Proof.
  split; [|intros ->; apply strip_suffix_app]. unfold strip_suffix.
  destruct (strip_prefix (rev p) (rev s)) as [x|] eqn:E; [|done]. intros [= <-].
  apply strip_prefix_Some in E. rewrite <- (rev_involutive s), E, rev_app_distr. by rewrite rev_involutive.
Qed.

Lemma split_once_app sep a b : Forall (fun c => c <> sep) a -> split_once sep (a ++ sep :: b) = Some (a, b).
Proof.
  induction 1 as [|c a Hc _ IH]; cbn; [by rewrite Z.eqb_refl|].
  apply Z.eqb_neq in Hc. by rewrite Hc, IH.
Qed.

Lemma split_once_Some sep s a b : split_once sep s = Some (a, b) ->
  s = a ++ sep :: b /\ Forall (fun c => c <> sep) a.
Proof.
  revert a. induction s as [|c s IH]; intros a; [done|]. cbn.
  destruct (Z.eqb_spec c sep) as [->|Hc]; [by intros [= <- <-]|].
  destruct (split_once sep s) as [[x y]|]; [|done]. cbn. intros [= <- <-].
  destruct (IH x eq_refl) as [-> Hx]. split; [done|by constructor].
Qed.

Lemma parse_digits_decimal max s n : 0 <= n -> Forall (fun b => is_ascii_digit b = true) s ->
  decimal_from n s <= max -> parse_digits max s n = Some (decimal_from n s).
Proof.
  intros Hn Hs. revert n Hn. induction Hs as [|c s Hc Hs IH]; intros n Hn; [done|]. cbn [parse_digits].
  rewrite Hc. change (decimal_from n (c :: s)) with (decimal_from (10 * n + (c - 48)) s). intros Hm.
  assert (Hd : 48 <= c <= 57) by (unfold is_ascii_digit in Hc; bool_norm; lia).
  pose proof (decimal_from_mono (10 * n + (c - 48)) s ltac:(lia) Hs) as Hge.
  unfold checked_mul, checked_add. destruct (Z.leb_spec (n * 10) max); [|lia].
  destruct (Z.leb_spec (n * 10 + (c - 48)) max); [|lia].
  rewrite IH; [by rewrite (Z.mul_comm n)|lia|by rewrite (Z.mul_comm n)].
Qed.

Lemma parse_digits_bound max s n m : 0 <= n <= max -> parse_digits max s n = Some m ->
  0 <= m <= max /\ m < (n + 1) * 10 ^ Z.of_nat (length s).
Proof.
  revert n. induction s as [|c s IH]; intros n Hn; [cbn; intros [= <-]; lia|]. cbn [parse_digits length].
  destruct (is_ascii_digit c) eqn:Hc; [|done]. unfold is_ascii_digit in Hc. bool_norm.
  unfold checked_mul, checked_add. destruct (Z.leb_spec (n * 10) max); [|done].
  destruct (Z.leb_spec (n * 10 + (c - 48)) max); [|done]. intros [Hm Hlt]%IH; [|lia].
  split; [done|]. rewrite Nat2Z.inj_succ, Z.pow_succ_r by lia. nia.
Qed.

(** Printing a number and parsing the text gives it back. *)
Lemma parse_uint_show max n : 0 <= n <= max -> max <= u64_max -> parse_uint max (show_u64 n) = Some n.
Proof.
  intros Hn Hmax. destruct (show_u64_spec n) as (Hne & Hd & Hv); [unfold is_u64; lia|].
  unfold parse_uint. destruct (show_u64 n) as [|c s] eqn:E; [done|].
  assert (Hc : (c =? 43) = false).
  { inv Hd. unfold is_ascii_digit in *. bool_norm. apply Z.eqb_neq. lia. }
  rewrite Hc. assert (Hs : parse_digits max (c :: s) 0 = Some n).
  { rewrite parse_digits_decimal; [by rewrite Hv|lia|done|lia]. }
  by destruct s.
Qed.

Lemma parse_uint_bound max s n : 0 <= max -> parse_uint max s = Some n ->
  0 <= n <= max /\ n < 10 ^ Z.of_nat (length s).
Proof.
  intros Hmax. unfold parse_uint. set (d := match s with _ :: _ :: _ => _ | _ => _ end).
  assert (Hd : (length d <= length s)%nat).
  { unfold d. destruct s as [|c [|c' s]]; [done..|]. destruct (c =? 43); cbn; lia. }
  destruct d as [|c d'] eqn:E; [done|]. intros [H Hlt]%parse_digits_bound; [|lia]. split; [done|].
  eapply Z.lt_le_trans; [exact Hlt|]. rewrite Z.mul_1_l. apply Z.pow_le_mono_r; lia.
Qed.

(** The text of a small number. *)
Lemma show_u64_digit n : 0 <= n <= 9 -> show_u64 n = [48 + n].
Proof.
  intros H. unfold show_u64. cbn [digits_fuel]. rewrite Z.mod_small by lia.
  by rewrite (Z.div_small n 10) by lia.
Qed.

Lemma show_u64_two n : 0 <= n <= 99 -> (1 <= length (show_u64 n) <= 2)%nat.
Proof.
  intros H. unfold show_u64. cbn [digits_fuel]. destruct (Z.eqb_spec (n / 10) 0); [cbn; lia|].
  assert (E : n / 10 / 10 = 0) by (rewrite Z.div_div by lia; apply Z.div_small; lia).
  rewrite E. cbn. lia.
Qed.

Lemma show_u64_ascii n : is_u64 n -> Forall (fun c => 0 <= c < 128) (show_u64 n).
Proof.
  intros H. destruct (show_u64_spec n H) as (_ & Hd & _). eapply Forall_impl; [done|].
  intros c Hc. unfold is_ascii_digit in Hc. bool_norm. lia.
Qed.

(** ** Membership in mapped lists *)

Lemma elem_of_flat_map {A B} (f : A -> list B) (l : list A) y : y ∈ flat_map f l <-> exists x, x ∈ l /\ y ∈ f x.
Proof.
  rewrite list_elem_of_In, in_flat_map. by setoid_rewrite <- list_elem_of_In.
Qed.

Lemma elem_of_map {A B} (f : A -> B) (l : list A) y : y ∈ map f l <-> exists x, y = f x /\ x ∈ l.
Proof.
  rewrite list_elem_of_In, in_map_iff. setoid_rewrite <- list_elem_of_In. naive_solver.
Qed.
