(* ===== verification/VersionRepr.v ===== *)
(** * Versions: the packed and the full representation

    Models the data types of [crates/uv-pep440/src/version.rs] and every
    operation on them that does not parse, print or compare: [VersionSmall] (a
    version packed into a [u64]), [VersionFull], and [Version], which holds one
    or the other and falls back from the small to the full form whenever a
    setter of the small form refuses a value.

    The abstract meaning of a [Version] is the [VersionFull] it expands to,
    [make_full].  The theorems show that every setter of [Version] is a field
    update of that record, whatever the representation, and that the packed form
    keeps its invariant [small_ok].

    [debug_assert!]s of [with_min] and [with_max] are modelled as panics, as is
    integer overflow; the [debug_assert!]s inside [VersionSmall] and the
    [unreachable!] arm of [Version::release] are ruled out by [small_ok]. *)

From Stdlib Require Import ZArith Lia.
From stdpp Require Import base list.
From S2P Require Import Prelude.
Open Scope Z_scope.

(** ** Data *)

Inductive PrereleaseKind := Alpha | Beta | Rc.

Record Prerelease := mkPre { pre_kind : PrereleaseKind; pre_number : Z }.

Inductive LocalSegment :=
| LString (s : list Z)
| LNumber (n : Z).

(** [LocalVersion], and [LocalVersionSlice], which borrows one. *)
Inductive LocalVersion :=
| Segments (l : list LocalSegment)
| LMax.

Definition local_empty : LocalVersion := Segments [].

(** [LocalVersion::is_empty] and [LocalVersionSlice::is_empty]. *)
Definition local_is_empty (l : LocalVersion) : bool :=
  match l with Segments [] => true | _ => false end.

Record VersionSmall := mkSmall { repr : Z; len : Z }.

Record VersionFull := mkFull {
  f_epoch : Z;
  f_release : list Z;
  f_pre : option Prerelease;
  f_post : option Z;
  f_dev : option Z;
  f_local : LocalVersion;
  f_min : option Z;
  f_max : option Z;
}.

Inductive Version :=
| Small (small : VersionSmall)
| Full (full : VersionFull).

#[export] Instance PrereleaseKind_eq_dec : EqDecision PrereleaseKind.
Proof. solve_decision. Defined.
#[export] Instance Prerelease_eq_dec : EqDecision Prerelease.
Proof. solve_decision. Defined.
#[export] Instance LocalSegment_eq_dec : EqDecision LocalSegment.
Proof. solve_decision. Defined.
#[export] Instance LocalVersion_eq_dec : EqDecision LocalVersion.
Proof. solve_decision. Defined.
#[export] Instance VersionFull_eq_dec : EqDecision VersionFull.
Proof. solve_decision. Defined.

(** ** The packed representation *)

Definition SUFFIX_MIN : Z := 0.
Definition SUFFIX_DEV : Z := 1.
Definition SUFFIX_PRE_ALPHA : Z := 2.
Definition SUFFIX_PRE_BETA : Z := 3.
Definition SUFFIX_PRE_RC : Z := 4.
Definition SUFFIX_NONE : Z := 5.
Definition SUFFIX_LOCAL : Z := 6.
Definition SUFFIX_POST : Z := 7.
Definition SUFFIX_MAX : Z := 8.

Definition SUFFIX_RELEASE_MASK : Z := 0xFFFFFFFFFF000000.
Definition SUFFIX_VERSION_MASK : Z := 0x000FFFFF.
Definition SUFFIX_VERSION_BIT_LEN : Z := 20.
Definition SUFFIX_KIND_MASK : Z := 15.

Definition small_new : VersionSmall :=
  mkSmall (shl64 SUFFIX_NONE SUFFIX_VERSION_BIT_LEN) 0.

Definition small_epoch (s : VersionSmall) : Z := 0.

Definition small_set_epoch (s : VersionSmall) (value : Z) : VersionSmall * bool :=
  if negb (value =? 0) then (s, false) else (s, true).

Definition small_clear_release (s : VersionSmall) : VersionSmall :=
  mkSmall (Z.land (repr s) (not64 SUFFIX_RELEASE_MASK)) 0.

Definition small_push_release (s : VersionSmall) (n : Z) : VersionSmall * bool :=
  if len s =? 0 then
    if u16_max <? n then (s, false)
    else (mkSmall (Z.lor (repr s) (shl64 n 48)) 1, true)
  else
    if u8_max <? n then (s, false)
    else if 4 <=? len s then (s, false)
    else
      let shift := 48 - len s * 8 in
      (mkSmall (Z.lor (repr s) (shl64 n shift)) (len s + 1), true).

Definition small_suffix_kind (s : VersionSmall) : Z :=
  Z.land (Z.shiftr (repr s) SUFFIX_VERSION_BIT_LEN) SUFFIX_KIND_MASK.

Definition small_suffix_version (s : VersionSmall) : Z :=
  Z.land (repr s) SUFFIX_VERSION_MASK.

Definition small_set_suffix_version (s : VersionSmall) (value : Z) : VersionSmall :=
  let r := Z.land (repr s) (not64 SUFFIX_VERSION_MASK) in
  mkSmall (Z.lor r value) (len s).

Definition small_set_suffix_kind (s : VersionSmall) (kind : Z) : VersionSmall :=
  let r := Z.land (repr s) (not64 (shl64 SUFFIX_KIND_MASK SUFFIX_VERSION_BIT_LEN)) in
  let s' := mkSmall (Z.lor r (shl64 kind SUFFIX_VERSION_BIT_LEN)) (len s) in
  if (kind =? SUFFIX_NONE) || (kind =? SUFFIX_LOCAL)
  then small_set_suffix_version s' 0 else s'.

Definition small_post (s : VersionSmall) : option Z :=
  if small_suffix_kind s =? SUFFIX_POST then Some (small_suffix_version s) else None.

Definition small_set_post (s : VersionSmall) (value : option Z) : VersionSmall * bool :=
  let suffix_kind := small_suffix_kind s in
  if negb ((suffix_kind =? SUFFIX_NONE) || (suffix_kind =? SUFFIX_POST))
  then (s, is_none value)
  else match value with
    | None => (small_set_suffix_kind s SUFFIX_NONE, true)
    | Some number =>
        if SUFFIX_VERSION_MASK <? number then (s, false)
        else (small_set_suffix_version (small_set_suffix_kind s SUFFIX_POST) number, true)
    end.

Definition small_pre (s : VersionSmall) : option Prerelease :=
  let kind := small_suffix_kind s in
  let number := small_suffix_version s in
  if kind =? SUFFIX_PRE_ALPHA then Some (mkPre Alpha number)
  else if kind =? SUFFIX_PRE_BETA then Some (mkPre Beta number)
  else if kind =? SUFFIX_PRE_RC then Some (mkPre Rc number)
  else None.

Definition small_set_pre (s : VersionSmall) (value : option Prerelease) : VersionSmall * bool :=
  let suffix_kind := small_suffix_kind s in
  if negb ((suffix_kind =? SUFFIX_NONE) || (suffix_kind =? SUFFIX_PRE_ALPHA)
           || (suffix_kind =? SUFFIX_PRE_BETA) || (suffix_kind =? SUFFIX_PRE_RC))
  then (s, is_none value)
  else match value with
    | None => (small_set_suffix_kind s SUFFIX_NONE, true)
    | Some (mkPre kind number) =>
        if SUFFIX_VERSION_MASK <? number then (s, false)
        else
          let s' := match kind with
            | Alpha => small_set_suffix_kind s SUFFIX_PRE_ALPHA
            | Beta => small_set_suffix_kind s SUFFIX_PRE_BETA
            | Rc => small_set_suffix_kind s SUFFIX_PRE_RC
            end in
          (small_set_suffix_version s' number, true)
    end.

Definition small_dev (s : VersionSmall) : option Z :=
  if small_suffix_kind s =? SUFFIX_DEV then Some (small_suffix_version s) else None.

Definition small_set_dev (s : VersionSmall) (value : option Z) : VersionSmall * bool :=
  let suffix_kind := small_suffix_kind s in
  if negb ((suffix_kind =? SUFFIX_NONE) || (suffix_kind =? SUFFIX_DEV))
  then (s, is_none value)
  else match value with
    | None => (small_set_suffix_kind s SUFFIX_NONE, true)
    | Some number =>
        if SUFFIX_VERSION_MASK <? number then (s, false)
        else (small_set_suffix_version (small_set_suffix_kind s SUFFIX_DEV) number, true)
    end.

Definition small_min (s : VersionSmall) : option Z :=
  if small_suffix_kind s =? SUFFIX_MIN then Some (small_suffix_version s) else None.

Definition small_set_min (s : VersionSmall) (value : option Z) : VersionSmall * bool :=
  let suffix_kind := small_suffix_kind s in
  if negb ((suffix_kind =? SUFFIX_NONE) || (suffix_kind =? SUFFIX_MIN))
  then (s, is_none value)
  else match value with
    | None => (small_set_suffix_kind s SUFFIX_NONE, true)
    | Some number =>
        if SUFFIX_VERSION_MASK <? number then (s, false)
        else (small_set_suffix_version (small_set_suffix_kind s SUFFIX_MIN) number, true)
    end.

Definition small_max (s : VersionSmall) : option Z :=
  if small_suffix_kind s =? SUFFIX_MAX then Some (small_suffix_version s) else None.

Definition small_set_max (s : VersionSmall) (value : option Z) : VersionSmall * bool :=
  let suffix_kind := small_suffix_kind s in
  if negb ((suffix_kind =? SUFFIX_NONE) || (suffix_kind =? SUFFIX_MAX))
  then (s, is_none value)
  else match value with
    | None => (small_set_suffix_kind s SUFFIX_NONE, true)
    | Some number =>
        if SUFFIX_VERSION_MASK <? number then (s, false)
        else (small_set_suffix_version (small_set_suffix_kind s SUFFIX_MAX) number, true)
    end.

(** [VersionSmall::local] and [local_slice]. *)
Definition small_local (s : VersionSmall) : LocalVersion :=
  if small_suffix_kind s =? SUFFIX_LOCAL then LMax else local_empty.

Definition small_set_local (s : VersionSmall) (value : LocalVersion) : VersionSmall * bool :=
  let suffix_kind := small_suffix_kind s in
  if negb ((suffix_kind =? SUFFIX_NONE) || (suffix_kind =? SUFFIX_LOCAL))
  then (s, local_is_empty value)
  else match value with
    | LMax => (small_set_suffix_kind s SUFFIX_LOCAL, true)
    | Segments [] => (small_set_suffix_kind s SUFFIX_NONE, true)
    | Segments _ => (s, false)
    end.

(** The release segments of the packed form, by [len]. *)
Definition small_release (s : VersionSmall) : list Z :=
  let r0 := Z.land (Z.shiftr (repr s) 48) 0xFFFF in
  let r1 := Z.land (Z.shiftr (repr s) 40) 0xFF in
  let r2 := Z.land (Z.shiftr (repr s) 32) 0xFF in
  let r3 := Z.land (Z.shiftr (repr s) 24) 0xFF in
  match len s with
  | 0 => []
  | 1 => [r0]
  | 2 => [r0; r1]
  | 3 => [r0; r1; r2]
  | 4 => [r0; r1; r2; r3]
  | _ => [] (* [unreachable!]: [small_ok] bounds [len] by four *)
  end.

(** ** Accessors of [Version] *)

Definition epoch (v : Version) : Z :=
  match v with Small s => small_epoch s | Full f => f_epoch f end.
Definition release (v : Version) : list Z :=
  match v with Small s => small_release s | Full f => f_release f end.
Definition pre (v : Version) : option Prerelease :=
  match v with Small s => small_pre s | Full f => f_pre f end.
Definition post (v : Version) : option Z :=
  match v with Small s => small_post s | Full f => f_post f end.
Definition dev (v : Version) : option Z :=
  match v with Small s => small_dev s | Full f => f_dev f end.
Definition local (v : Version) : LocalVersion :=
  match v with Small s => small_local s | Full f => f_local f end.
Definition vmin (v : Version) : option Z :=
  match v with Small s => small_min s | Full f => f_min f end.
Definition vmax (v : Version) : option Z :=
  match v with Small s => small_max s | Full f => f_max f end.

Definition is_pre (v : Version) : bool := is_some (pre v).
Definition is_dev (v : Version) : bool := is_some (dev v).
Definition is_post (v : Version) : bool := is_some (post v).
Definition is_local (v : Version) : bool := negb (local_is_empty (local v)).
Definition any_prerelease (v : Version) : bool := is_pre v || is_dev v.
Definition is_stable (v : Version) : bool := negb (is_pre v) && negb (is_dev v).

(** ** Updates of [Version] *)

(** [Version::make_full], as the record it leaves in place. *)
Definition make_full (v : Version) : VersionFull :=
  match v with
  | Small s =>
      mkFull (small_epoch s) (small_release s) (small_pre s) (small_post s)
             (small_dev s) (small_local s) (small_min s) (small_max s)
  | Full f => f
  end.

Definition set_f_epoch (f : VersionFull) (x : Z) : VersionFull :=
  mkFull x (f_release f) (f_pre f) (f_post f) (f_dev f) (f_local f) (f_min f) (f_max f).
Definition set_f_release (f : VersionFull) (x : list Z) : VersionFull :=
  mkFull (f_epoch f) x (f_pre f) (f_post f) (f_dev f) (f_local f) (f_min f) (f_max f).
Definition set_f_pre (f : VersionFull) (x : option Prerelease) : VersionFull :=
  mkFull (f_epoch f) (f_release f) x (f_post f) (f_dev f) (f_local f) (f_min f) (f_max f).
Definition set_f_post (f : VersionFull) (x : option Z) : VersionFull :=
  mkFull (f_epoch f) (f_release f) (f_pre f) x (f_dev f) (f_local f) (f_min f) (f_max f).
Definition set_f_dev (f : VersionFull) (x : option Z) : VersionFull :=
  mkFull (f_epoch f) (f_release f) (f_pre f) (f_post f) x (f_local f) (f_min f) (f_max f).
Definition set_f_local (f : VersionFull) (x : LocalVersion) : VersionFull :=
  mkFull (f_epoch f) (f_release f) (f_pre f) (f_post f) (f_dev f) x (f_min f) (f_max f).
Definition set_f_min (f : VersionFull) (x : option Z) : VersionFull :=
  mkFull (f_epoch f) (f_release f) (f_pre f) (f_post f) (f_dev f) (f_local f) x (f_max f).
Definition set_f_max (f : VersionFull) (x : option Z) : VersionFull :=
  mkFull (f_epoch f) (f_release f) (f_pre f) (f_post f) (f_dev f) (f_local f) (f_min f) x.

(** The shape every setter of [Version] has: try the packed form, and fall back
    to a field of the full form when it returns [false]. *)
Definition try_small (v : Version) (small : VersionSmall -> VersionSmall * bool)
    (full : VersionFull -> VersionFull) : Version :=
  match v with
  | Small s =>
      let '(s', ok) := small s in
      if ok then Small s' else Full (full (make_full (Small s')))
  | Full f => Full (full f)
  end.

Definition push_release (v : Version) (n : Z) : Version :=
  try_small v (fun s => small_push_release s n)
              (fun f => set_f_release f (f_release f ++ [n])).

Definition clear_release (v : Version) : Version :=
  match v with
  | Small s => Small (small_clear_release s)
  | Full f => Full (set_f_release f [])
  end.

Definition with_release (v : Version) (release_numbers : list Z) : outcome Version :=
  let v' := fold_left push_release release_numbers (clear_release v) in
  assert (negb (is_eq (list_cmp Z.compare (release v') []))) (Ret v').

(** [Version::new] *)
Definition version_new (release_numbers : list Z) : outcome Version :=
  with_release (Small small_new) release_numbers.

Definition with_epoch (v : Version) (value : Z) : Version :=
  try_small v (fun s => small_set_epoch s value) (fun f => set_f_epoch f value).
Definition with_pre (v : Version) (value : option Prerelease) : Version :=
  try_small v (fun s => small_set_pre s value) (fun f => set_f_pre f value).
Definition with_post (v : Version) (value : option Z) : Version :=
  try_small v (fun s => small_set_post s value) (fun f => set_f_post f value).
Definition with_dev (v : Version) (value : option Z) : Version :=
  try_small v (fun s => small_set_dev s value) (fun f => set_f_dev f value).

Definition without_local (v : Version) : Version :=
  try_small v (fun s => small_set_local s local_empty) (fun f => set_f_local f local_empty).

Definition with_local_segments (v : Version) (value : list LocalSegment) : Version :=
  match value with
  | [] => without_local v
  | _ => Full (set_f_local (make_full v) (Segments value))
  end.

Definition with_local (v : Version) (value : LocalVersion) : Version :=
  match value with
  | Segments segments => with_local_segments v segments
  | LMax => try_small v (fun s => small_set_local s LMax) (fun f => set_f_local f value)
  end.

Definition with_min (v : Version) (value : option Z) : outcome Version :=
  assert (negb (is_pre v)) (assert (negb (is_dev v)) (Ret
    (try_small v (fun s => small_set_min s value) (fun f => set_f_min f value)))).

Definition with_max (v : Version) (value : option Z) : outcome Version :=
  assert (negb (is_post v)) (assert (negb (is_dev v)) (Ret
    (try_small v (fun s => small_set_max s value) (fun f => set_f_max f value)))).

(** [release.chain(repeat(0)).take(precision)] *)
Definition pad_release (precision : nat) (l : list Z) : list Z :=
  take precision (l ++ replicate precision 0).

Definition only_release_at_precision (v : Version) (precision : nat) : outcome (option Version) :=
  let r := pad_release precision (release v) in
  match r with
  | [] => Ret None
  | _ => let! w := version_new r in Ret (Some (with_epoch w (epoch v)))
  end.

Definition only_release (v : Version) : outcome Version := version_new (release v).
Definition only_minor_release (v : Version) : outcome Version := version_new (take 2 (release v)).

(** [iter().rposition(|segment| segment != 0)] *)
Fixpoint rposition_nonzero (l : list Z) : option nat :=
  match l with
  | [] => None
  | x :: l' =>
      match rposition_nonzero l' with
      | Some i => Some (S i)
      | None => if x =? 0 then None else Some O
      end
  end.

Definition only_release_trimmed (v : Version) : outcome Version :=
  match rposition_nonzero (release v) with
  | Some last_non_zero =>
      if Nat.eqb (last_non_zero + 1) (length (release v))
         && (epoch v =? 0) && is_none (pre v) && is_none (post v) && is_none (dev v)
         && local_is_empty (local v) && is_none (vmin v) && is_none (vmax v)
      then Ret v
      else version_new (take (last_non_zero + 1) (release v))
  | None => version_new [0]
  end.

(** [while let Some(0) = release.last() { release.pop(); }] is [trim_zeros]. *)
Definition without_trailing_zeros (v : Version) : outcome Version :=
  with_release v (trim_zeros (release v)).

(** ** [Version::bump] *)

Inductive BumpCommand :=
| BumpRelease (index : nat) (value : option Z)
| BumpPrerelease (kind : PrereleaseKind) (value : option Z)
| MakeStable
| BumpPost (value : option Z)
| BumpDev (value : option Z).

Definition nth_or_0 (l : list Z) (i : nat) : Z := default 0 (l !! i).

(** The new release vector: entries before [index] kept, the entry at [index]
    set or incremented, the rest zeroed. *)
Definition bump_release_vec (old_parts : list Z) (index : nat) (value : option Z)
    : outcome (list Z) :=
  let n := Nat.max (length old_parts) (index + 1) in
  let! x := (match value with
             | Some value => Ret value
             | None => add64 (nth_or_0 old_parts index) 1
             end) in
  Ret (map (fun i => match Nat.compare i index with
                     | Lt => nth_or_0 old_parts i
                     | Eq => x
                     | Gt => 0
                     end) (seq 0 n)).

Definition bump (v : Version) (b : BumpCommand) : outcome Version :=
  let full := make_full v in
  match b with
  | BumpRelease index value =>
      let full := set_f_dev (set_f_post (set_f_pre full None) None) None in
      let! r := bump_release_vec (f_release full) index value in
      Ret (Full (set_f_release full r))
  | MakeStable => Ret (Full (set_f_dev (set_f_post (set_f_pre full None) None) None))
  | BumpPrerelease kind value =>
      let full := set_f_dev (set_f_post full None) None in
      match value with
      | Some value => Ret (Full (set_f_pre full (Some (mkPre kind value))))
      | None =>
          match f_pre full with
          | Some p =>
              if bool_decide (pre_kind p = kind) then
                let! n := add64 (pre_number p) 1 in
                Ret (Full (set_f_pre full (Some (mkPre kind n))))
              else Ret (Full (set_f_pre full (Some (mkPre kind 1))))
          | None => Ret (Full (set_f_pre full (Some (mkPre kind 1))))
          end
      end
  | BumpPost value =>
      let full := set_f_dev full None in
      match value, f_post full with
      | Some value, _ => Ret (Full (set_f_post full (Some value)))
      | None, Some p => let! n := add64 p 1 in Ret (Full (set_f_post full (Some n)))
      | None, None => Ret (Full (set_f_post full (Some 1)))
      end
  | BumpDev value =>
      match value, f_dev full with
      | Some value, _ => Ret (Full (set_f_dev full (Some value)))
      | None, Some d => let! n := add64 d 1 in Ret (Full (set_f_dev full (Some n)))
      | None, None => Ret (Full (set_f_dev full (Some 1)))
      end
  end.

(** ** The invariant of the packed form

    A decidable reading of the layout the comment on [VersionSmall] describes:
    the value is a [u64], the suffix kind is one of the nine constants, a kind
    without a number has number zero, there are at most four segments, and the
    bits of absent segments are zero. *)
Definition small_ok (s : VersionSmall) : bool :=
  (0 <=? repr s) && (repr s <=? u64_max)
  && (small_suffix_kind s <=? SUFFIX_MAX)
  && implb ((small_suffix_kind s =? SUFFIX_NONE) || (small_suffix_kind s =? SUFFIX_LOCAL))
           (small_suffix_version s =? 0)
  && (0 <=? len s) && (len s <=? 4)
  && implb (len s <=? 0) (Z.land (Z.shiftr (repr s) 48) 0xFFFF =? 0)
  && implb (len s <=? 1) (Z.land (Z.shiftr (repr s) 40) 0xFF =? 0)
  && implb (len s <=? 2) (Z.land (Z.shiftr (repr s) 32) 0xFF =? 0)
  && implb (len s <=? 3) (Z.land (Z.shiftr (repr s) 24) 0xFF =? 0).

Definition version_ok (v : Version) : bool :=
  match v with Small s => small_ok s | Full _ => true end.

(** The layout as arithmetic. *)
Definition pack (a b c d k n : Z) : Z :=
  a * 2 ^ 48 + b * 2 ^ 40 + c * 2 ^ 32 + d * 2 ^ 24 + k * 2 ^ 20 + n.

Record layout (s : VersionSmall) (a b c d k n : Z) : Prop := {
  lay_repr : repr s = pack a b c d k n;
  lay_a : 0 <= a <= 65535;
  lay_b : 0 <= b <= 255;
  lay_c : 0 <= c <= 255;
  lay_d : 0 <= d <= 255;
  lay_k : 0 <= k <= 8;
  lay_n : 0 <= n <= 1048575;
  lay_plain : k = 5 \/ k = 6 -> n = 0;
  lay_len : 0 <= len s <= 4;
  lay_a0 : len s <= 0 -> a = 0;
  lay_b0 : len s <= 1 -> b = 0;
  lay_c0 : len s <= 2 -> c = 0;
  lay_d0 : len s <= 3 -> d = 0;
}.

(** ** Bit fields as arithmetic

    Bitwise operations split at a bit position: the part above and the part
    below are operated on separately. *)

Lemma testbit_cat h l k i : 0 <= k -> 0 <= l < 2 ^ k -> 0 <= i ->
  Z.testbit (h * 2 ^ k + l) i = if i <? k then Z.testbit l i else Z.testbit h (i - k).
Proof.
  intros Hk Hl Hi. destruct (Z.ltb_spec i k).
  - rewrite <- (Z.mod_pow2_bits_low (h * 2 ^ k + l) k i) by lia.
    by rewrite Z.add_comm, Z.mod_add, Z.mod_small by lia.
  - replace i with (i - k + k) at 1 by lia. rewrite <- Z.div_pow2_bits by lia.
    by rewrite Z.div_add_l, Z.div_small, Z.add_0_r by lia.
Qed.

Lemma land_cat h l h' l' k : 0 <= k -> 0 <= l < 2 ^ k -> 0 <= l' < 2 ^ k ->
  Z.land (h * 2 ^ k + l) (h' * 2 ^ k + l') = Z.land h h' * 2 ^ k + Z.land l l'.
Proof.
  intros Hk Hl Hl'. assert (Hll : 0 <= Z.land l l' < 2 ^ k).
  { rewrite <- (Z.mod_small l (2 ^ k)), <- Z.land_ones by lia.
    rewrite (Z.land_comm l), <- Z.land_assoc, Z.land_comm, Z.land_ones by lia.
    apply Z.mod_pos_bound. lia. }
  apply Z.bits_inj'. intros i Hi.
  rewrite Z.land_spec, !testbit_cat by lia. destruct (i <? k); by rewrite Z.land_spec.
Qed.

Lemma lor_cat h l h' l' k : 0 <= k -> 0 <= l < 2 ^ k -> 0 <= l' < 2 ^ k ->
  Z.lor (h * 2 ^ k + l) (h' * 2 ^ k + l') = Z.lor h h' * 2 ^ k + Z.lor l l'.
Proof.
  intros Hk Hl Hl'. assert (Hll : 0 <= Z.lor l l' < 2 ^ k).
  { assert (E : Z.lor l l' mod 2 ^ k = Z.lor l l').
    { rewrite <- Z.land_ones, Z.land_lor_distr_l, !Z.land_ones by lia.
      by rewrite !Z.mod_small by lia. }
    rewrite <- E. apply Z.mod_pos_bound. lia. }
  apply Z.bits_inj'. intros i Hi.
  rewrite Z.lor_spec, !testbit_cat by lia. destruct (i <? k); by rewrite Z.lor_spec.
Qed.

(** Reading a field: shift right, mask with [2^w - 1]. *)
Lemma field_read x k w : 0 <= k -> 0 <= w ->
  Z.land (Z.shiftr x k) (Z.ones w) = (x / 2 ^ k) mod 2 ^ w.
Proof. intros. by rewrite Z.land_ones, Z.shiftr_div_pow2 by lia. Qed.

(** Clearing the [w] bits at position [k] of a 64-bit value whose parts are
    [h], [f], [l]. *)
Lemma field_clear h f l k w : 0 <= k -> 0 <= w -> k + w <= 64 ->
  0 <= h < 2 ^ (64 - k - w) -> 0 <= f < 2 ^ w -> 0 <= l < 2 ^ k ->
  Z.land ((h * 2 ^ w + f) * 2 ^ k + l)
         ((Z.ones (64 - k - w) * 2 ^ w + 0) * 2 ^ k + Z.ones k)
  = (h * 2 ^ w + 0) * 2 ^ k + l.
Proof.
  intros Hk Hw Hkw Hh Hf Hl.
  assert (0 <= Z.ones k < 2 ^ k) by (rewrite Z.ones_equiv; lia).
  rewrite land_cat by lia. rewrite land_cat by lia.
  rewrite !Z.land_ones, Z.land_0_r, !Z.mod_small by lia. done.
Qed.

(** Writing [x] into a field that is zero. *)
Lemma field_write h x l k w : 0 <= k -> 0 <= w -> 0 <= x < 2 ^ w -> 0 <= l < 2 ^ k ->
  Z.lor ((h * 2 ^ w + 0) * 2 ^ k + l) ((0 * 2 ^ w + x) * 2 ^ k + 0)
  = (h * 2 ^ w + x) * 2 ^ k + l.
Proof.
  intros Hk Hw Hx Hl. rewrite lor_cat by lia. rewrite lor_cat by lia.
  by rewrite !Z.lor_0_r, Z.lor_0_l.
Qed.

Lemma shl64_small n k : 0 <= k -> 0 <= n -> n * 2 ^ k < 2 ^ 64 -> shl64 n k = n * 2 ^ k.
Proof.
  intros. unfold shl64. change u64_max with (Z.ones 64).
  rewrite Z.land_ones, Z.shiftl_mul_pow2, Z.mod_small by lia. done.
Qed.

#[local] Ltac Zify.zify_post_hook ::= Z.div_mod_to_equations.

Lemma small_ok_layout s : small_ok s = true <->
  exists a b c d k n, layout s a b c d k n.
Proof.
  unfold small_ok, small_suffix_kind, small_suffix_version.
  change 0xFFFF with (Z.ones 16). change 0xFF with (Z.ones 8).
  change SUFFIX_KIND_MASK with (Z.ones 4). change SUFFIX_VERSION_MASK with (Z.ones 20).
  rewrite !field_read, Z.land_ones by done. unfold SUFFIX_VERSION_BIT_LEN, u64_max,
    SUFFIX_MAX, SUFFIX_NONE, SUFFIX_LOCAL.
  split.
  - intros H.
    exists (repr s / 2 ^ 48 mod 2 ^ 16), (repr s / 2 ^ 40 mod 2 ^ 8), (repr s / 2 ^ 32 mod 2 ^ 8),
      (repr s / 2 ^ 24 mod 2 ^ 8), (repr s / 2 ^ 20 mod 2 ^ 4), (repr s mod 2 ^ 20).
    split; unfold pack; lia.
  - intros (a & b & c & d & k & n & [-> ? ? ? ? ? ? ? ? ? ? ? ?]). unfold pack. lia.
Qed.

(** ** Operations of the packed form on the layout *)

Lemma set_suffix_version_pack a b c d k n l x :
  0 <= a <= 65535 -> 0 <= b <= 255 -> 0 <= c <= 255 -> 0 <= d <= 255 ->
  0 <= k <= 8 -> 0 <= n <= 1048575 -> 0 <= x <= 1048575 ->
  small_set_suffix_version (mkSmall (pack a b c d k n) l) x = mkSmall (pack a b c d k x) l.
Proof.
  intros. unfold small_set_suffix_version. cbn [repr len]. f_equal.
  set (h := (a * 2 ^ 24 + b * 2 ^ 16 + c * 2 ^ 8 + d) * 2 ^ 4 + k).
  assert (0 <= h < 2 ^ 44) by (unfold h; lia).
  replace (pack a b c d k n) with ((h * 2 ^ 20 + n) * 2 ^ 0 + 0) by (unfold pack, h; lia).
  change (not64 SUFFIX_VERSION_MASK)
    with ((Z.ones (64 - 0 - 20) * 2 ^ 20 + 0) * 2 ^ 0 + Z.ones 0).
  rewrite field_clear by lia.
  replace x with ((0 * 2 ^ 20 + x) * 2 ^ 0 + 0) at 1 by lia.
  rewrite field_write by lia. unfold pack, h. lia.
Qed.

Section layout.
Context (a b c d k n l : Z).
Context (Ha : 0 <= a <= 65535) (Hb : 0 <= b <= 255) (Hc : 0 <= c <= 255)
        (Hd : 0 <= d <= 255) (Hk : 0 <= k <= 8) (Hn : 0 <= n <= 1048575).

Let hi := a * 2 ^ 24 + b * 2 ^ 16 + c * 2 ^ 8 + d.

Local Lemma pack_kind k' n' : pack a b c d k' n' = (hi * 2 ^ 4 + k') * 2 ^ 20 + n'.
Proof using. unfold pack, hi. lia. Qed.

Lemma set_suffix_kind_pack k' : 0 <= k' <= 8 ->
  small_set_suffix_kind (mkSmall (pack a b c d k n) l) k' =
  mkSmall (pack a b c d k' (if (k' =? SUFFIX_NONE) || (k' =? SUFFIX_LOCAL) then 0 else n)) l.
Proof using Ha Hb Hc Hd Hk Hn.
  intros Hk'. unfold small_set_suffix_kind. cbn [repr len].
  assert (0 <= hi < 2 ^ 40) by (unfold hi; lia).
  assert (E : Z.lor (Z.land (pack a b c d k n)
                       (not64 (shl64 SUFFIX_KIND_MASK SUFFIX_VERSION_BIT_LEN)))
                    (shl64 k' SUFFIX_VERSION_BIT_LEN) = pack a b c d k' n).
  { change (not64 _) with ((Z.ones (64 - 20 - 4) * 2 ^ 4 + 0) * 2 ^ 20 + Z.ones 20).
    change SUFFIX_VERSION_BIT_LEN with 20.
    rewrite !pack_kind, field_clear, shl64_small by lia.
    replace (k' * 2 ^ 20) with ((0 * 2 ^ 4 + k') * 2 ^ 20 + 0) by lia.
    by rewrite field_write by lia. }
  rewrite E. destruct (_ || _); [|done]. by apply set_suffix_version_pack.
Qed.

Lemma clear_release_pack :
  small_clear_release (mkSmall (pack a b c d k n) l) = mkSmall (pack 0 0 0 0 k n) 0.
Proof using Ha Hb Hc Hd Hk Hn.
  unfold small_clear_release. cbn [repr]. f_equal.
  change (not64 SUFFIX_RELEASE_MASK) with (0 * 2 ^ 24 + Z.ones 24).
  replace (pack a b c d k n) with (hi * 2 ^ 24 + (k * 2 ^ 20 + n)) by (unfold pack, hi; lia).
  assert (Z.ones 24 = 2 ^ 24 - 1) by done.
  rewrite land_cat by lia. rewrite Z.land_0_r, Z.land_ones, Z.mod_small by lia.
  unfold pack. lia.
Qed.

Lemma suffix_kind_pack : small_suffix_kind (mkSmall (pack a b c d k n) l) = k.
Proof using Ha Hb Hc Hd Hk Hn.
  unfold small_suffix_kind. cbn [repr]. change SUFFIX_KIND_MASK with (Z.ones 4).
  change SUFFIX_VERSION_BIT_LEN with 20. rewrite field_read by done. unfold pack. lia.
Qed.

Lemma suffix_version_pack : small_suffix_version (mkSmall (pack a b c d k n) l) = n.
Proof using Ha Hb Hc Hd Hk Hn.
  unfold small_suffix_version. cbn [repr]. change SUFFIX_VERSION_MASK with (Z.ones 20).
  rewrite Z.land_ones by done. unfold pack. lia.
Qed.

Lemma release_pack : 0 <= l <= 4 ->
  small_release (mkSmall (pack a b c d k n) l) = take (Z.to_nat l) [a; b; c; d].
Proof using Ha Hb Hc Hd Hk Hn.
  intros Hl. unfold small_release. cbn [repr len].
  change 0xFFFF with (Z.ones 16). change 0xFF with (Z.ones 8).
  rewrite !field_read by done.
  replace (pack a b c d k n / 2 ^ 48 mod 2 ^ 16) with a by (unfold pack; lia).
  replace (pack a b c d k n / 2 ^ 40 mod 2 ^ 8) with b by (unfold pack; lia).
  replace (pack a b c d k n / 2 ^ 32 mod 2 ^ 8) with c by (unfold pack; lia).
  replace (pack a b c d k n / 2 ^ 24 mod 2 ^ 8) with d by (unfold pack; lia).
  assert (l = 0 \/ l = 1 \/ l = 2 \/ l = 3 \/ l = 4) as Hcases by lia.
  by destruct Hcases as [->|[->|[->|[->| ->]]]].
Qed.
End layout.

(** What the packed form stands for. *)
Definition packed_view (l a b c d k n : Z) : VersionFull :=
  mkFull 0 (take (Z.to_nat l) [a; b; c; d])
    (if k =? 2 then Some (mkPre Alpha n) else if k =? 3 then Some (mkPre Beta n)
     else if k =? 4 then Some (mkPre Rc n) else None)
    (if k =? 7 then Some n else None)
    (if k =? 1 then Some n else None)
    (if k =? 6 then LMax else local_empty)
    (if k =? 0 then Some n else None)
    (if k =? 8 then Some n else None).

Lemma layout_view s a b c d k n : layout s a b c d k n ->
  make_full (Small s) = packed_view (len s) a b c d k n.
Proof.
  intros [Hr]. destruct s as [r l]. cbn [repr len] in *. subst r.
  unfold make_full, packed_view, small_epoch, small_pre, small_post, small_dev, small_local,
    small_min, small_max.
  by rewrite suffix_kind_pack, suffix_version_pack, release_pack.
Qed.

Lemma layout_intro a b c d k n l :
  0 <= a <= 65535 -> 0 <= b <= 255 -> 0 <= c <= 255 -> 0 <= d <= 255 ->
  0 <= k <= 8 -> 0 <= n <= 1048575 -> (k = 5 \/ k = 6 -> n = 0) -> 0 <= l <= 4 ->
  (l <= 0 -> a = 0) -> (l <= 1 -> b = 0) -> (l <= 2 -> c = 0) -> (l <= 3 -> d = 0) ->
  layout (mkSmall (pack a b c d k n) l) a b c d k n.
Proof. done. Qed.

(** A setter of the packed form implements [upd]: it keeps the invariant, it
    performs [upd] when it returns [true], and it changes nothing otherwise. *)
Definition setter_spec (set : VersionSmall -> VersionSmall * bool)
    (upd : VersionFull -> VersionFull) : Prop :=
  forall s, small_ok s = true ->
    small_ok (set s).1 = true /\
    ((set s).2 = true -> make_full (Small (set s).1) = upd (make_full (Small s))) /\
    ((set s).2 = false -> (set s).1 = s).

(** Splits on the nine suffix kinds. *)
Ltac kind_cases k :=
  let H := fresh in
  assert (k = 0 \/ k = 1 \/ k = 2 \/ k = 3 \/ k = 4 \/ k = 5 \/ k = 6 \/ k = 7 \/ k = 8)
    as H by lia;
  destruct H as [->|[->|[->|[->|[->|[->|[->|[->| ->]]]]]]]].

Ltac suffix_setter :=
  match goal with
  | |- small_ok (mkSmall (pack ?a ?b ?c ?d ?k ?n) ?l) = true /\ _ =>
      let L := fresh "L" in
      assert (L : layout (mkSmall (pack a b c d k n) l) a b c d k n)
        by (apply layout_intro; lia);
      split; [apply small_ok_layout; eauto 10|];
      split; [intros _|done];
      by rewrite (layout_view _ _ _ _ _ _ _ L)
  end.

Ltac setter_start s :=
  let Hok := fresh "Hok" in let L := fresh "L" in let HV := fresh "HV" in
  let Hr := fresh "Hr" in
  intros s Hok; pose proof Hok as L;
  apply small_ok_layout in L as (a & b & c & d & k & n & L);
  pose proof (layout_view _ _ _ _ _ _ _ L) as HV; rewrite HV;
  destruct s as [r l]; destruct L as [Hr ? ? ? ? ? ? ? ? ? ? ? ?];
  cbn [repr len] in *; subst r.

Ltac setter_solve :=
  rewrite ?suffix_kind_pack by lia;
  match goal with
  | HV : make_full _ = packed_view _ _ _ _ _ ?k _ |- _ => kind_cases k
  end;
  cbn - [pack small_ok small_set_suffix_kind small_set_suffix_version Z.ltb make_full
         packed_view];
  try (split; [done|]; split; [first [discriminate | intros _; by match goal with E : make_full _ = _ |- _ => rewrite E end]|done]);
  unfold SUFFIX_MIN, SUFFIX_DEV, SUFFIX_PRE_ALPHA, SUFFIX_PRE_BETA, SUFFIX_PRE_RC, SUFFIX_NONE,
    SUFFIX_LOCAL, SUFFIX_POST, SUFFIX_MAX;
  rewrite ?set_suffix_kind_pack by lia;
  cbn - [pack small_ok small_set_suffix_version Z.ltb make_full packed_view];
  rewrite ?set_suffix_version_pack by lia;
  try suffix_setter.

Lemma set_epoch_spec x : setter_spec (fun s => small_set_epoch s x) (fun f => set_f_epoch f x).
Proof.
  intros s Hok. unfold small_set_epoch. destruct (Z.eqb_spec x 0) as [->|Hx]; simpl.
  - split; [done|]. by split.
  - split; [done|]. by split.
Qed.

Lemma set_post_spec x : (forall m, x = Some m -> 0 <= m) ->
  setter_spec (fun s => small_set_post s x) (fun f => set_f_post f x).
Proof.
  intros Hx. setter_start s. unfold small_set_post.
  destruct x as [m|]; [specialize (Hx m eq_refl)|]; [|setter_solve].
  destruct (Z.ltb_spec SUFFIX_VERSION_MASK m) as [Hm|Hm]; unfold SUFFIX_VERSION_MASK in Hm;
    setter_solve.
Qed.

Lemma set_pre_spec x : (forall p, x = Some p -> 0 <= pre_number p) ->
  setter_spec (fun s => small_set_pre s x) (fun f => set_f_pre f x).
Proof.
  intros Hx. setter_start s. unfold small_set_pre.
  destruct x as [[kind m]|]; [specialize (Hx _ eq_refl); cbn [pre_number] in Hx|]; [|setter_solve].
  destruct (Z.ltb_spec SUFFIX_VERSION_MASK m) as [Hm|Hm]; unfold SUFFIX_VERSION_MASK in Hm;
    destruct kind; setter_solve.
Qed.

Lemma set_dev_spec x : (forall m, x = Some m -> 0 <= m) ->
  setter_spec (fun s => small_set_dev s x) (fun f => set_f_dev f x).
Proof.
  intros Hx. setter_start s. unfold small_set_dev.
  destruct x as [m|]; [specialize (Hx m eq_refl)|]; [|setter_solve].
  destruct (Z.ltb_spec SUFFIX_VERSION_MASK m) as [Hm|Hm]; unfold SUFFIX_VERSION_MASK in Hm;
    setter_solve.
Qed.

Lemma set_min_spec x : (forall m, x = Some m -> 0 <= m) ->
  setter_spec (fun s => small_set_min s x) (fun f => set_f_min f x).
Proof.
  intros Hx. setter_start s. unfold small_set_min.
  destruct x as [m|]; [specialize (Hx m eq_refl)|]; [|setter_solve].
  destruct (Z.ltb_spec SUFFIX_VERSION_MASK m) as [Hm|Hm]; unfold SUFFIX_VERSION_MASK in Hm;
    setter_solve.
Qed.

Lemma set_max_spec x : (forall m, x = Some m -> 0 <= m) ->
  setter_spec (fun s => small_set_max s x) (fun f => set_f_max f x).
Proof.
  intros Hx. setter_start s. unfold small_set_max.
  destruct x as [m|]; [specialize (Hx m eq_refl)|]; [|setter_solve].
  destruct (Z.ltb_spec SUFFIX_VERSION_MASK m) as [Hm|Hm]; unfold SUFFIX_VERSION_MASK in Hm;
    setter_solve.
Qed.

Lemma set_local_spec x : setter_spec (fun s => small_set_local s x) (fun f => set_f_local f x).
Proof. setter_start s. unfold small_set_local. destruct x as [[|seg segs]|]; setter_solve. Qed.

(** Writing the next segment of the release into its zero byte. *)
Lemma write_segment r r' h x low pos w : 0 <= pos -> 0 <= w -> pos + w <= 64 ->
  0 <= x < 2 ^ w -> 0 <= low < 2 ^ pos ->
  r = (h * 2 ^ w + 0) * 2 ^ pos + low -> r' = (h * 2 ^ w + x) * 2 ^ pos + low ->
  Z.lor r (shl64 x pos) = r'.
Proof.
  intros Hpos Hw H64 Hx Hlow -> ->. rewrite shl64_small; [|lia|lia|].
  - replace (x * 2 ^ pos) with ((0 * 2 ^ w + x) * 2 ^ pos + 0) by lia.
    by apply field_write.
  - apply Z.lt_le_trans with (2 ^ w * 2 ^ pos).
    + apply Z.mul_lt_mono_pos_r; lia.
    + rewrite <- Z.pow_add_r by lia. apply Z.pow_le_mono_r; lia.
Qed.

Lemma push_release_spec x : 0 <= x ->
  setter_spec (fun s => small_push_release s x) (fun f => set_f_release f (f_release f ++ [x])).
Proof.
  intros Hx. setter_start s. unfold small_push_release, u16_max, u8_max. cbn [repr len].
  set (s := {| repr := pack a b c d k n; len := l |}) in *.
  assert (Hno : forall upd, small_ok (s, false).1 = true /\
    ((s, false).2 = true -> make_full (Small (s, false).1) = upd) /\
    ((s, false).2 = false -> (s, false).1 = s)) by done.
  assert (Hyes : forall a' b' c' d' l',  layout (mkSmall (pack a' b' c' d' k n) l') a' b' c' d' k n ->
    take (Z.to_nat l') [a'; b'; c'; d'] = take (Z.to_nat l) [a; b; c; d] ++ [x] ->
    small_ok (mkSmall (pack a' b' c' d' k n) l', true).1 = true /\
    (true = true -> make_full (Small (mkSmall (pack a' b' c' d' k n) l')) =
       set_f_release (packed_view l a b c d k n) (f_release (packed_view l a b c d k n) ++ [x])) /\
    (true = false -> mkSmall (pack a' b' c' d' k n) l' = s)).
  { intros a' b' c' d' l' L E. split; [apply small_ok_layout; eauto 10|]. split; [|done].
    intros _. rewrite (layout_view _ _ _ _ _ _ _ L). unfold packed_view, set_f_release.
    cbn [len f_release f_epoch f_pre f_post f_dev f_local f_min f_max]. by rewrite E. }
  assert (l = 0 \/ l = 1 \/ l = 2 \/ l = 3 \/ l = 4) as Hl by lia.
  subst s. destruct Hl as [->|[->|[->|[->| ->]]]];
    cbn - [pack small_ok Z.ltb make_full packed_view shl64 Z.lor];
    match goal with |- context[?m <? x] => destruct (Z.ltb_spec m x); [by apply Hno|] end;
    try by apply Hno.
  - rewrite (write_segment _ (pack x b c d k n) 0 x (k * 2 ^ 20 + n) 48 16)
      by (first [done | unfold pack; lia]).
    apply Hyes; [apply layout_intro; lia|done].
  - rewrite (write_segment _ (pack a x c d k n) a x (k * 2 ^ 20 + n) 40 8)
      by (first [done | unfold pack; lia]).
    apply Hyes; [apply layout_intro; lia|done].
  - rewrite (write_segment _ (pack a b x d k n) (a * 2 ^ 8 + b) x (k * 2 ^ 20 + n) 32 8)
      by (first [done | unfold pack; lia]).
    apply Hyes; [apply layout_intro; lia|done].
  - rewrite (write_segment _ (pack a b c x k n) (a * 2 ^ 16 + b * 2 ^ 8 + c) x (k * 2 ^ 20 + n) 24 8)
      by (first [done | unfold pack; lia]).
    apply Hyes; [apply layout_intro; lia|done].
Qed.

(** ** The setters of [Version] are record updates *)

Lemma try_small_view v set upd : setter_spec set upd -> version_ok v = true ->
  make_full (try_small v set upd) = upd (make_full v) /\
  version_ok (try_small v set upd) = true.
Proof.
  intros Hset Hv. destruct v as [s|f]; [|done]. specialize (Hset s Hv) as (Hok & Hyes & Hno).
  cbn [try_small]. destruct (set s) as [s' [|]]; cbn [fst snd] in *.
  - by rewrite Hyes.
  - by rewrite Hno.
Qed.

Definition nonneg_opt (x : option Z) : Prop := forall m, x = Some m -> 0 <= m.

Lemma with_epoch_view v x : version_ok v = true ->
  make_full (with_epoch v x) = set_f_epoch (make_full v) x /\ version_ok (with_epoch v x) = true.
Proof. intros. apply try_small_view; [apply set_epoch_spec|done]. Qed.

Lemma with_pre_view v x : version_ok v = true -> (forall p, x = Some p -> 0 <= pre_number p) ->
  make_full (with_pre v x) = set_f_pre (make_full v) x /\ version_ok (with_pre v x) = true.
Proof. intros. apply try_small_view; [by apply set_pre_spec|done]. Qed.

Lemma with_post_view v x : version_ok v = true -> nonneg_opt x ->
  make_full (with_post v x) = set_f_post (make_full v) x /\ version_ok (with_post v x) = true.
Proof. intros. apply try_small_view; [by apply set_post_spec|done]. Qed.

Lemma with_dev_view v x : version_ok v = true -> nonneg_opt x ->
  make_full (with_dev v x) = set_f_dev (make_full v) x /\ version_ok (with_dev v x) = true.
Proof. intros. apply try_small_view; [by apply set_dev_spec|done]. Qed.

Lemma without_local_view v : version_ok v = true ->
  make_full (without_local v) = set_f_local (make_full v) local_empty /\
  version_ok (without_local v) = true.
Proof. intros. apply try_small_view; [apply set_local_spec|done]. Qed.

Lemma with_local_view v x : version_ok v = true ->
  make_full (with_local v x) = set_f_local (make_full v) x /\ version_ok (with_local v x) = true.
Proof.
  intros Hv. destruct x as [[|seg segs]|]; cbn [with_local with_local_segments].
  - by apply without_local_view.
  - done.
  - apply try_small_view; [apply set_local_spec|done].
Qed.

Lemma pre_view v : pre v = f_pre (make_full v).
Proof. by destruct v. Qed.
Lemma post_view v : post v = f_post (make_full v).
Proof. by destruct v. Qed.
Lemma dev_view v : dev v = f_dev (make_full v).
Proof. by destruct v. Qed.
Lemma epoch_view v : epoch v = f_epoch (make_full v).
Proof. by destruct v. Qed.
Lemma release_view v : release v = f_release (make_full v).
Proof. by destruct v. Qed.
Lemma local_view v : local v = f_local (make_full v).
Proof. by destruct v. Qed.
Lemma vmin_view v : vmin v = f_min (make_full v).
Proof. by destruct v. Qed.
Lemma vmax_view v : vmax v = f_max (make_full v).
Proof. by destruct v. Qed.

Lemma with_min_view v x : version_ok v = true -> nonneg_opt x ->
  pre v = None -> dev v = None ->
  exists w, with_min v x = Ret w /\ make_full w = set_f_min (make_full v) x /\
            version_ok w = true.
Proof.
  intros Hv Hx Hp Hd. unfold with_min, is_pre, is_dev. rewrite Hp, Hd. simpl. eexists.
  split; [done|]. apply try_small_view; [by apply set_min_spec|done].
Qed.

Lemma with_max_view v x : version_ok v = true -> nonneg_opt x ->
  post v = None -> dev v = None ->
  exists w, with_max v x = Ret w /\ make_full w = set_f_max (make_full v) x /\
            version_ok w = true.
Proof.
  intros Hv Hx Hp Hd. unfold with_max, is_post, is_dev. rewrite Hp, Hd. simpl. eexists.
  split; [done|]. apply try_small_view; [by apply set_max_spec|done].
Qed.

Lemma clear_release_view v : version_ok v = true ->
  make_full (clear_release v) = set_f_release (make_full v) [] /\
  version_ok (clear_release v) = true.
Proof.
  intros Hv. destruct v as [s|f]; [|done]. cbn [clear_release version_ok] in *.
  apply small_ok_layout in Hv as (a & b & c & d & k & n & L).
  rewrite (layout_view _ _ _ _ _ _ _ L). destruct s as [r l].
  destruct L as [Hr ? ? ? ? ? ? ? ? ? ? ? ?]. cbn [repr len] in *. subst r.
  rewrite clear_release_pack by done.
  assert (L' : layout (mkSmall (pack 0 0 0 0 k n) 0) 0 0 0 0 k n) by (apply layout_intro; lia).
  split; [by rewrite (layout_view _ _ _ _ _ _ _ L')|]. apply small_ok_layout. eauto 10.
Qed.

Lemma push_release_view v x : version_ok v = true -> 0 <= x ->
  make_full (push_release v x) = set_f_release (make_full v) (f_release (make_full v) ++ [x]) /\
  version_ok (push_release v x) = true.
Proof.
  intros Hv Hx. unfold push_release.
  exact (try_small_view v _ _ (push_release_spec x Hx) Hv).
Qed.

Lemma push_all_view rs v : version_ok v = true -> Forall (fun x => 0 <= x) rs ->
  make_full (fold_left push_release rs v) =
    set_f_release (make_full v) (f_release (make_full v) ++ rs) /\
  version_ok (fold_left push_release rs v) = true.
Proof.
  revert v. induction rs as [|x rs IH]; intros v Hv Hrs; simpl.
  - rewrite app_nil_r. split; [|done]. by destruct (make_full v).
  - inv Hrs. destruct (push_release_view v x) as [E Hok]; [done|done|].
    destruct (IH (push_release v x)) as [-> ?]; [done|done|]. split; [|done].
    rewrite E. unfold set_f_release. simpl. by rewrite <- app_assoc.
Qed.

Lemma with_release_view v rs : version_ok v = true -> Forall (fun x => 0 <= x) rs -> rs <> [] ->
  exists w, with_release v rs = Ret w /\ make_full w = set_f_release (make_full v) rs /\
            version_ok w = true.
Proof.
  intros Hv Hrs Hne. unfold with_release.
  destruct (clear_release_view v Hv) as [E1 Hok1].
  destruct (push_all_view rs (clear_release v) Hok1 Hrs) as [E2 Hok2].
  exists (fold_left push_release rs (clear_release v)).
  rewrite release_view, E2, E1. cbn [f_release set_f_release app].
  split; [by destruct rs|done].
Qed.

Lemma with_release_nil v : version_ok v = true -> with_release v [] = Panic.
Proof.
  intros Hv. unfold with_release. cbn [fold_left].
  by rewrite release_view, (proj1 (clear_release_view v Hv)).
Qed.

(** The record [Version::new] builds. *)
Definition plain_full (rs : list Z) : VersionFull :=
  mkFull 0 rs None None None local_empty None None.

Lemma version_new_view rs : Forall (fun x => 0 <= x) rs -> rs <> [] ->
  exists w, version_new rs = Ret w /\ make_full w = plain_full rs /\ version_ok w = true.
Proof.
  intros Hrs Hne.
  destruct (with_release_view (Small small_new) rs) as (w & ? & ? & ?); [done|done|done|].
  by exists w.
Qed.

(** ** Sequences of setters

    The public setters of [Version], and what each does to the record. *)

Inductive setter :=
| SetRelease (rs : list Z)
| SetEpoch (x : Z)
| SetPre (x : option Prerelease)
| SetPost (x : option Z)
| SetDev (x : option Z)
| SetLocal (x : LocalVersion)
| SetMin (x : option Z)
| SetMax (x : option Z).

Definition run_setter (v : Version) (op : setter) : outcome Version :=
  match op with
  | SetRelease rs => with_release v rs
  | SetEpoch x => Ret (with_epoch v x)
  | SetPre x => Ret (with_pre v x)
  | SetPost x => Ret (with_post v x)
  | SetDev x => Ret (with_dev v x)
  | SetLocal x => Ret (with_local v x)
  | SetMin x => with_min v x
  | SetMax x => with_max v x
  end.

Definition spec_setter (f : VersionFull) (op : setter) : outcome VersionFull :=
  match op with
  | SetRelease [] => Panic
  | SetRelease rs => Ret (set_f_release f rs)
  | SetEpoch x => Ret (set_f_epoch f x)
  | SetPre x => Ret (set_f_pre f x)
  | SetPost x => Ret (set_f_post f x)
  | SetDev x => Ret (set_f_dev f x)
  | SetLocal x => Ret (set_f_local f x)
  | SetMin x => assert (is_none (f_pre f)) (assert (is_none (f_dev f)) (Ret (set_f_min f x)))
  | SetMax x => assert (is_none (f_post f)) (assert (is_none (f_dev f)) (Ret (set_f_max f x)))
  end.

Fixpoint run_all {S} (step : S -> setter -> outcome S) (s : S) (ops : list setter) : outcome S :=
  match ops with
  | [] => Ret s
  | op :: ops' => let! s' := step s op in run_all step s' ops'
  end.

(** The arguments are unsigned. *)
Definition setter_nonneg (op : setter) : Prop :=
  match op with
  | SetRelease rs => Forall (fun x => 0 <= x) rs
  | SetEpoch x => 0 <= x
  | SetPre x => forall p, x = Some p -> 0 <= pre_number p
  | SetPost x | SetDev x | SetMin x | SetMax x => nonneg_opt x
  | SetLocal _ => True
  end.

Lemma run_setter_refines v op : version_ok v = true -> setter_nonneg op ->
  (exists w, run_setter v op = Ret w /\ version_ok w = true /\
             spec_setter (make_full v) op = Ret (make_full w)) \/
  (run_setter v op = Panic /\ spec_setter (make_full v) op = Panic).
Proof.
  intros Hv Hop. destruct op as [rs|x|x|x|x|x|x|x]; cbn [run_setter spec_setter] in *.
  - destruct rs as [|r rs]; [right; by rewrite with_release_nil|left].
    destruct (with_release_view v (r :: rs)) as (w & -> & <- & ?); [done|done|done|]. by exists w.
  - left. destruct (with_epoch_view v x) as [<- ?]; [done|]. by eexists.
  - left. destruct (with_pre_view v x) as [<- ?]; [done|done|]. by eexists.
  - left. destruct (with_post_view v x) as [<- ?]; [done|done|]. by eexists.
  - left. destruct (with_dev_view v x) as [<- ?]; [done|done|]. by eexists.
  - left. destruct (with_local_view v x) as [<- ?]; [done|]. by eexists.
  - rewrite <- pre_view, <- dev_view.
    destruct (pre v) eqn:Hp; [right; unfold with_min, is_pre; by rewrite Hp|].
    destruct (dev v) eqn:Hd; [right; unfold with_min, is_pre, is_dev; by rewrite Hp, Hd|].
    destruct (with_min_view v x) as (w & -> & <- & ?); [done..|]. left. by exists w.
  - rewrite <- post_view, <- dev_view.
    destruct (post v) eqn:Hp; [right; unfold with_max, is_post; by rewrite Hp|].
    destruct (dev v) eqn:Hd; [right; unfold with_max, is_post, is_dev; by rewrite Hp, Hd|].
    destruct (with_max_view v x) as (w & -> & <- & ?); [done..|]. left. by exists w.
Qed.

Lemma run_all_refines ops v : version_ok v = true -> Forall setter_nonneg ops ->
  outcome_map make_full (run_all run_setter v ops) = run_all spec_setter (make_full v) ops.
Proof.
  revert v. induction ops as [|op ops IH]; intros v Hv Hops; [done|]. inv Hops. simpl.
  destruct (run_setter_refines v op) as [(w & -> & Hw & ->)|[-> ->]]; [done|done| |done].
  simpl. by apply IH.
Qed.

Lemma run_all_ok ops v w : version_ok v = true -> Forall setter_nonneg ops ->
  run_all run_setter v ops = Ret w -> version_ok w = true.
Proof.
  revert v. induction ops as [|op ops IH]; intros v Hv Hops; simpl; [congruence|]. inv Hops.
  destruct (run_setter_refines v op) as [(w' & -> & Hw & _)|[-> _]]; [done|done| |done].
  simpl. by apply IH.
Qed.

(** ** Truncating operations *)

Lemma rposition_nonzero_None l : rposition_nonzero l = None <-> trim_zeros l = [].
Proof.
  induction l as [|x l IH]; [done|]. rewrite trim_zeros_cons. cbn [rposition_nonzero].
  destruct (rposition_nonzero l) as [i|] eqn:E.
  - destruct (trim_zeros l) eqn:T; [by specialize (proj2 IH eq_refl)|]. by rewrite andb_false_r.
  - rewrite (proj1 IH) by done. destruct (Z.eqb_spec x 0); by split.
Qed.

Lemma rposition_nonzero_Some l i : rposition_nonzero l = Some i ->
  take (i + 1) l = trim_zeros l /\ (i < length l)%nat /\ trim_zeros l <> [].
Proof.
  revert i. induction l as [|x l IH]; intros i; [done|]. rewrite trim_zeros_cons.
  cbn [rposition_nonzero]. destruct (rposition_nonzero l) as [j|] eqn:E.
  - intros [= <-]. destruct (IH j eq_refl) as (Ht & Hj & Hne).
    destruct (trim_zeros l) eqn:T; [done|]. rewrite andb_false_r.
    split; [|split; [simpl; lia|done]]. simpl. by rewrite Ht.
  - rewrite (proj1 (rposition_nonzero_None l) E).
    destruct (Z.eqb_spec x 0) as [|Hx]; [done|]. intros [= <-]. simpl.
    by split; [|split; [lia|]].
Qed.

Lemma trim_zeros_forall (P : Z -> Prop) l : Forall P l -> Forall P (trim_zeros l).
Proof.
  induction l as [|x l IH]; intros H; [done|]. inv H. rewrite trim_zeros_cons.
  destruct (_ && _); [done|]. constructor; [done|]. by apply IH.
Qed.

Lemma only_release_view v : Forall (fun x => 0 <= x) (release v) -> release v <> [] ->
  exists w, only_release v = Ret w /\ make_full w = plain_full (release v) /\
            version_ok w = true.
Proof. apply version_new_view. Qed.

(** [only_release_trimmed] keeps the release up to its last non-zero segment,
    and gives [0] for an all-zero release, on both of its paths. *)
Lemma only_release_trimmed_view v :
  version_ok v = true -> Forall (fun x => 0 <= x) (release v) ->
  exists w, only_release_trimmed v = Ret w /\
    make_full w = plain_full (match trim_zeros (release v) with [] => [0] | r => r end) /\
    version_ok w = true.
Proof.
  intros Hv Hr. unfold only_release_trimmed.
  destruct (rposition_nonzero (release v)) as [i|] eqn:E.
  - apply rposition_nonzero_Some in E as (Ht & Hi & Hne).
    replace (match trim_zeros (release v) with [] => [0] | z :: l => z :: l end)
      with (trim_zeros (release v)) by (by destruct (trim_zeros (release v))).
    destruct (_ && _) eqn:C.
    + exists v. split; [done|]. split; [|done].
      repeat (apply andb_prop in C as [C ?]).
      apply Nat.eqb_eq in C. rewrite <- Ht, C, firstn_all.
      rewrite release_view, epoch_view, pre_view, post_view, dev_view, local_view, vmin_view,
        vmax_view in *.
      destruct (make_full v) as [e r p po de lo mi ma].
      cbn [f_epoch f_release f_pre f_post f_dev f_local f_min f_max] in *.
      bool_norm. subst e. destruct p, po, de, mi, ma; try done.
      by destruct lo as [[]|].
    + rewrite Ht. destruct (version_new_view (trim_zeros (release v))) as (w & ? & ? & ?);
        [by apply trim_zeros_forall|done|]. by exists w.
  - rewrite (proj1 (rposition_nonzero_None _) E). by apply version_new_view; [repeat constructor|].
Qed.

Lemma pad_release_length n l : length (pad_release n l) = n.
Proof. unfold pad_release. rewrite length_take, length_app, length_replicate. lia. Qed.

Lemma pad_release_nonneg n l : Forall (fun x => 0 <= x) l -> Forall (fun x => 0 <= x) (pad_release n l).
Proof.
  intros H. apply Forall_take, Forall_app. split; [done|]. by apply Forall_replicate.
Qed.

(** ** Properties of the representation *)

(** C7: any sequence of [with_*] setters applied to a [Version], in either
    representation, is the same sequence of field updates of the record it
    expands to, panics included: the packed form never loses, clamps or mixes
    up a component, and falls back to the full form whenever it would. *)
Theorem setters_refine_record v ops :
  version_ok v = true -> Forall setter_nonneg ops ->
  outcome_map make_full (run_all run_setter v ops) = run_all spec_setter (make_full v) ops.
Proof. intros. by apply run_all_refines. Qed.

(** Falling back from the packed form: a post-release set after a pre-release. *)
Lemma setters_refine_record_witness :
  let v := Small (mkSmall (pack 1 2 3 0 5 0) 3) in
  let ops := [SetPre (Some (mkPre Rc 4)); SetPost (Some 5); SetRelease [70000]; SetMax (Some 0)] in
  outcome_map make_full (run_all run_setter v ops) = run_all spec_setter (make_full v) ops.
Proof.
  apply (setters_refine_record (Small (mkSmall (pack 1 2 3 0 5 0) 3))
    [SetPre (Some (mkPre Rc 4)); SetPost (Some 5); SetRelease [70000]; SetMax (Some 0)]).
  - vm_compute. reflexivity.
  - repeat constructor; simpl; try lia.
    + intros p [= <-]. simpl. lia.
    + intros m [= <-]. lia.
    + intros m [= <-]. lia.
Defined.

(** The layout invariant of the packed [u64] (suffix kind at most
    [SUFFIX_MAX], no number on a plain or local-sentinel suffix, at most four
    segments, absent segments zero) holds of [Version::new] and is kept by every
    sequence of setters, so the [debug_assert!]s of [VersionSmall] hold and the
    [unreachable!] arm of [Version::release] is not reached. *)
Theorem packed_invariant ops v :
  Forall setter_nonneg ops -> run_all run_setter (Small small_new) ops = Ret v ->
  version_ok v = true /\
  forall s, v = Small s -> small_suffix_kind s <= SUFFIX_MAX /\ 0 <= len s <= 4 /\
                           length (small_release s) = Z.to_nat (len s).
Proof.
  intros Hops Hrun. assert (Hok : version_ok v = true).
  { apply (run_all_ok ops (Small small_new)); [vm_compute; reflexivity|done|done]. }
  split; [done|]. intros s ->. cbn [version_ok] in Hok.
  apply small_ok_layout in Hok as (a & b & c & d & k & n & L).
  destruct s as [r l]. destruct L as [Hr ? ? ? ? ? ? ? ? ? ? ? ?]. cbn [repr len] in *. subst r.
  rewrite suffix_kind_pack, release_pack by lia. change SUFFIX_MAX with 8.
  rewrite length_take. cbn [length]. lia.
Qed.

Lemma packed_invariant_witness :
  exists v, run_all run_setter (Small small_new) [SetRelease [2024; 1; 0]; SetDev (Some 7)] = Ret v
    /\ version_ok v = true.
Proof.
  eexists. split; [vm_compute; reflexivity|].
  refine (proj1 (packed_invariant [SetRelease [2024; 1; 0]; SetDev (Some 7)] _ _ _)).
  - repeat constructor; try lia. intros m [= <-]. lia.
  - vm_compute. reflexivity.
Defined.

(** The documentation of [VersionSmall] says that the small form is limited
    to pre-release numbers below 64 and to post and dev numbers below 255; the
    setters accept every number up to [0xFFFFF]. *)
Theorem small_suffix_limits s m :
  small_ok s = true -> small_suffix_kind s = SUFFIX_NONE -> 0 <= m ->
  (small_set_pre s (Some (mkPre Alpha m))).2 = (m <=? 0xFFFFF) /\
  (small_set_post s (Some m)).2 = (m <=? 0xFFFFF) /\
  (small_set_dev s (Some m)).2 = (m <=? 0xFFFFF).
Proof.
  intros _ Hk Hm. unfold small_set_pre, small_set_post, small_set_dev. rewrite Hk. cbn.
  change SUFFIX_VERSION_MASK with 0xFFFFF.
  rewrite Z.leb_antisym. by destruct (0xFFFFF <? m).
Qed.

Lemma small_suffix_limits_witness : (small_set_pre small_new (Some (mkPre Alpha 5000))).2 = true.
Proof.
  rewrite (proj1 (small_suffix_limits small_new 5000 eq_refl eq_refl ltac:(lia))). reflexivity.
Defined.
