(* ===== verification/VersionOrder.v ===== *)
(** * Versions: ordering, equality and hashing

    Models the [Ord], [PartialEq], [Hash] and [CacheKey] implementations of
    [Version], [LocalVersionSlice] and [LocalSegment] in
    [crates/uv-pep440/src/version.rs], with [compare_release] and
    [sortable_tuple].

    A [key] of a version is its epoch, its release without trailing zeros and
    its sortable tuple.  The theorems show that [cmp] is the lexicographic order
    of the keys, on both of its paths (comparing packed [u64]s and comparing
    component by component), so that it is a total preorder; and that equal
    versions feed the hasher the same writes. *)

From Stdlib Require Import ZArith Lia.
From stdpp Require Import base list.
From S2P Require Import Prelude.
From S2P Require Import VersionRepr.
Open Scope Z_scope.

(** ** Local versions *)

(** [impl Ord for LocalSegment] *)
Definition segment_cmp (a b : LocalSegment) : comparison :=
  match a, b with
  | LNumber n1, LNumber n2 => n1 ?= n2
  | LString s1, LString s2 => list_cmp Z.compare s1 s2
  | LNumber _, LString _ => Gt
  | LString _, LNumber _ => Lt
  end.

(** [impl Ord for LocalVersionSlice] *)
Definition local_cmp (a b : LocalVersion) : comparison :=
  match a, b with
  | Segments lv1, Segments lv2 => list_cmp segment_cmp lv1 lv2
  | Segments _, LMax => Lt
  | LMax, Segments _ => Gt
  | LMax, LMax => Eq
  end.

(** ** Versions *)

(** The loop of [compare_release] over two padded sequences. *)
Fixpoint zip_cmp (l k : list Z) : comparison :=
  match l, k with
  | x :: l', y :: k' => match x ?= y with Lt => Lt | Gt => Gt | Eq => zip_cmp l' k' end
  | _, _ => Eq
  end.

Definition compare_release (this other : list Z) : comparison :=
  if Nat.eqb (length this) (length other) then list_cmp Z.compare this other
  else
    let n := Nat.max (length this) (length other) in
    zip_cmp (pad_release n this) (pad_release n other).

(** [(u64, u64, Option<u64>, u64, LocalVersionSlice)], ordered
    lexicographically. *)
Definition SortTuple : Type := Z * (Z * (option Z * (Z * LocalVersion))).

Definition tuple_cmp : SortTuple -> SortTuple -> comparison :=
  pair_cmp Z.compare (pair_cmp Z.compare
    (pair_cmp (option_cmp Z.compare) (pair_cmp Z.compare local_cmp))).

Definition sortable_tuple (v : Version) : SortTuple :=
  let post := if is_some (vmax v) then Some u64_max else post v in
  match pre v, post, dev v, vmin v with
  | _, post, _, Some n => (0, (0, (post, (n, local v))))
  | None, None, Some n, None => (1, (0, (None, (n, local v))))
  | Some (mkPre Alpha n), post, dev, None => (2, (n, (post, (default u64_max dev, local v))))
  | Some (mkPre Beta n), post, dev, None => (3, (n, (post, (default u64_max dev, local v))))
  | Some (mkPre Rc n), post, dev, None => (4, (n, (post, (default u64_max dev, local v))))
  | None, None, None, None => (5, (0, (None, (0, local v))))
  | None, Some post, dev, None => (6, (0, (Some post, (default u64_max dev, local v))))
  end.

Definition cmp_slow (v w : Version) : comparison :=
  match epoch v ?= epoch w with
  | Lt => Lt
  | Gt => Gt
  | Eq =>
      match compare_release (release v) (release w) with
      | Lt => Lt
      | Gt => Gt
      | Eq => tuple_cmp (sortable_tuple v) (sortable_tuple w)
      end
  end.

(** [impl Ord for Version] *)
Definition cmp (v w : Version) : comparison :=
  match v, w with
  | Small small1, Small small2 => repr small1 ?= repr small2
  | _, _ => cmp_slow v w
  end.

(** [impl PartialEq for Version] *)
Definition version_eq (v w : Version) : bool := is_eq (cmp v w).

(** ** Hashing

    A hasher is the sequence of writes it receives, which is all that [Hash] and
    [CacheKey] implementations determine. *)

Inductive write :=
| WriteU8 (x : Z)
| WriteU16 (x : Z)
| WriteU32 (x : Z)
| WriteU64 (x : Z)
| WriteU128 (x : Z)
| WriteI8 (x : Z)
| WriteI16 (x : Z)
| WriteI32 (x : Z)
| WriteI64 (x : Z)
| WriteI128 (x : Z)
| WriteUsize (x : nat)
| WriteIsize (x : Z)
| WriteBytes (l : list Z).

(** [str::hash]: the bytes, then [0xff]. *)
Definition hash_str (s : list Z) : list write := [WriteBytes s; WriteU8 255].

(** Derived [Hash]: the discriminant, then the fields. *)
Definition hash_option_u64 (o : option Z) : list write :=
  match o with
  | None => [WriteIsize 0]
  | Some x => [WriteIsize 1; WriteU64 x]
  end.

Definition kind_discriminant (k : PrereleaseKind) : Z :=
  match k with Alpha => 0 | Beta => 1 | Rc => 2 end.

Definition hash_prerelease (o : option Prerelease) : list write :=
  match o with
  | None => [WriteIsize 0]
  | Some p => [WriteIsize 1; WriteIsize (kind_discriminant (pre_kind p)); WriteU64 (pre_number p)]
  end.

Definition hash_segment (s : LocalSegment) : list write :=
  match s with
  | LString s => WriteIsize 0 :: hash_str s
  | LNumber n => [WriteIsize 1; WriteU64 n]
  end.

Definition hash_local (l : LocalVersion) : list write :=
  match l with
  | Segments segs => WriteIsize 0 :: WriteUsize (length segs) :: flat_map hash_segment segs
  | LMax => [WriteIsize 1]
  end.

(** [impl Hash for Version] *)
Definition version_hash (v : Version) : list write :=
  WriteU64 (epoch v)
  :: map WriteU64 (drop_while (Z.eqb 0) (rev (release v)))
  ++ hash_prerelease (pre v) ++ hash_option_u64 (dev v) ++ hash_option_u64 (post v)
  ++ hash_local (local v).

(** [impl CacheKey for LocalSegment] *)
Definition cache_key_segment (s : LocalSegment) : list write :=
  match s with
  | LString s => WriteU8 0 :: hash_str s
  | LNumber n => [WriteU8 1; WriteU64 n]
  end.

(** [impl CacheKey for LocalVersionSlice] *)
Definition cache_key_local (l : LocalVersion) : list write :=
  match l with
  | Segments segs => WriteU8 0 :: WriteUsize (length segs) :: flat_map cache_key_segment segs
  | LMax => [WriteU8 1]
  end.

Definition cache_key_option (o : option Z) : list write :=
  match o with
  | Some x => [WriteU8 1; WriteU64 x]
  | None => [WriteU8 0]
  end.

(** [impl CacheKey for Version] *)
Definition version_cache_key (v : Version) : list write :=
  WriteU64 (epoch v)
  :: WriteUsize (length (release v))
  :: map WriteU64 (release v)
  ++ (match pre v with
      | Some p =>
          [WriteU8 1; WriteU8 (kind_discriminant (pre_kind p)); WriteU64 (pre_number p)]
      | None => [WriteU8 0]
      end)
  ++ cache_key_option (post v) ++ cache_key_option (dev v) ++ cache_key_local (local v).

(** ** Well-formed versions

    Every component is a [u64], a [max] sentinel is [Some(0)] (the only value uv
    sets), [min] is not combined with a pre- or dev-release and [max] not with a
    post- or dev-release (the [debug_assert!]s of [with_min] and [with_max]). *)

Definition u64b (n : Z) : bool := (0 <=? n) && (n <=? u64_max).
Definition opt_all (p : Z -> bool) (o : option Z) : bool :=
  match o with Some x => p x | None => true end.

Definition full_wf (f : VersionFull) : bool :=
  u64b (f_epoch f) && forallb u64b (f_release f)
  && match f_pre f with Some p => u64b (pre_number p) | None => true end
  && opt_all u64b (f_post f) && opt_all u64b (f_dev f) && opt_all u64b (f_min f)
  && opt_all (Z.eqb 0) (f_max f)
  && implb (is_some (f_min f)) (is_none (f_pre f) && is_none (f_dev f) && is_none (f_max f))
  && implb (is_some (f_max f)) (is_none (f_post f) && is_none (f_dev f)).

Definition wf (v : Version) : bool := version_ok v && full_wf (make_full v).

(** Versions that can be written down: no sentinel of any kind, and the numbers
    that take part in comparisons are below [u64::MAX], as [parse_number]
    guarantees. *)
Definition below_max (n : Z) : bool := (0 <=? n) && (n <? u64_max).

Definition full_real (f : VersionFull) : bool :=
  below_max (f_epoch f) && forallb below_max (f_release f)
  && negb (is_eq (list_cmp Z.compare (f_release f) []))
  && match f_pre f with Some p => below_max (pre_number p) | None => true end
  && opt_all below_max (f_post f) && opt_all below_max (f_dev f)
  && is_none (f_min f) && is_none (f_max f)
  && match f_local f with
     | Segments l => forallb (fun s => match s with LNumber n => u64b n | LString _ => true end) l
     | LMax => false
     end.

Definition real (v : Version) : bool := version_ok v && full_real (make_full v).

(** ** Keys *)

Definition Key : Type := Z * (list Z * SortTuple).

Definition key (v : Version) : Key := (epoch v, (trim_zeros (release v), sortable_tuple v)).

Definition key_cmp : Key -> Key -> comparison :=
  pair_cmp Z.compare (pair_cmp (list_cmp Z.compare) tuple_cmp).

#[export] Instance segment_cmp_laws : OrdLaws segment_cmp.
Proof.
  split.
  - intros [s|n] [s'|n']; simpl; [apply (ord_sym _)|done|done|apply (ord_sym _)].
  - intros [s|n] [s'|n'] [s''|n'']; simpl; try congruence; apply (ord_le_trans _).
Qed.

#[export] Instance segment_cmp_eq : OrdEq segment_cmp.
Proof.
  split. intros [s|n] [s'|n']; simpl; try congruence; intros H; f_equal; by apply (ord_eq _).
Qed.

#[export] Instance local_cmp_laws : OrdLaws local_cmp.
Proof.
  split.
  - intros [l|] [k|]; simpl; [apply (ord_sym _)|done|done|done].
  - intros [l|] [k|] [m|]; simpl; try congruence; apply (ord_le_trans _).
Qed.

#[export] Instance local_cmp_eq : OrdEq local_cmp.
Proof. split. intros [l|] [k|]; simpl; try congruence. intros H. f_equal. by apply (ord_eq _). Qed.

#[export] Instance tuple_cmp_laws : OrdLaws tuple_cmp.
Proof. apply _. Qed.
#[export] Instance tuple_cmp_eq : OrdEq tuple_cmp.
Proof. apply _. Qed.
#[export] Instance key_cmp_laws : OrdLaws key_cmp.
Proof. apply _. Qed.
#[export] Instance key_cmp_eq : OrdEq key_cmp.
Proof. apply _. Qed.

(** ** Releases

    [compare_release] is the lexicographic order of the releases without their
    trailing zeros. *)

(** Comparison of two sequences extended by zeros. *)
Fixpoint pad_cmp (l k : list Z) : comparison :=
  match l with
  | [] => (fix go k := match k with [] => Eq | y :: k' => then_with (0 ?= y) (go k') end) k
  | x :: l' =>
      match k with
      | [] => then_with (x ?= 0) (pad_cmp l' [])
      | y :: k' => then_with (x ?= y) (pad_cmp l' k')
      end
  end.

Lemma pad_cmp_nil_r l : pad_cmp l [] = CompOpp (pad_cmp [] l).
Proof.
  induction l as [|x l IH]; [done|]. cbn [pad_cmp] in *.
  by rewrite IH, then_with_opp, <- Z.compare_antisym.
Qed.

Lemma pad_cmp_nil_l k : Forall (fun x => 0 <= x) k ->
  pad_cmp [] k = list_cmp Z.compare [] (trim_zeros k).
Proof.
  induction k as [|y k IH]; intros H; [done|]. inv H. rewrite trim_zeros_cons.
  cbn [pad_cmp]. cbn [pad_cmp] in IH. rewrite IH by done.
  destruct (Z.compare_spec 0 y); [subst y|..]; [by destruct (trim_zeros k)| |lia].
  destruct (Z.eqb_spec y 0); [lia|done].
Qed.

Lemma pad_cmp_trim l k : Forall (fun x => 0 <= x) l -> Forall (fun x => 0 <= x) k ->
  pad_cmp l k = list_cmp Z.compare (trim_zeros l) (trim_zeros k).
Proof.
  revert k. induction l as [|x l IH]; intros k Hl Hk; [by apply pad_cmp_nil_l|].
  destruct k as [|y k].
  - rewrite pad_cmp_nil_r, pad_cmp_nil_l by done. by destruct (trim_zeros (x :: l)).
  - inv Hl. inv Hk. cbn [pad_cmp]. rewrite IH by done. rewrite !trim_zeros_cons.
    destruct (trim_zeros l) as [|x' tl], (trim_zeros k) as [|y' tk];
      rewrite ?andb_false_r, ?andb_true_r; cbn [list_cmp is_eq].
    + destruct (Z.eqb_spec x 0), (Z.eqb_spec y 0); cbn [list_cmp];
        destruct (Z.compare_spec x y); try lia; done.
    + destruct (Z.eqb_spec x 0); cbn [list_cmp]; destruct (Z.compare_spec x y); try lia; done.
    + destruct (Z.eqb_spec y 0); cbn [list_cmp]; destruct (Z.compare_spec x y); try lia; done.
    + done.
Qed.

Lemma zip_cmp_pad n l k : (length l <= n)%nat -> (length k <= n)%nat ->
  zip_cmp (l ++ replicate (n - length l) 0) (k ++ replicate (n - length k) 0) = pad_cmp l k.
Proof.
  revert l k. induction n as [|n IH]; intros l k Hl Hk.
  - by destruct l, k; simpl in *; try lia.
  - destruct l as [|x l], k as [|y k]; simpl length in *; rewrite ?Nat.sub_succ.
    + simpl. specialize (IH [] [] ltac:(simpl; lia) ltac:(simpl; lia)). simpl in IH.
      by rewrite Nat.sub_0_r in IH.
    + specialize (IH [] k ltac:(simpl; lia) ltac:(lia)). rewrite Nat.sub_0_r in *.
      cbn [replicate app zip_cmp pad_cmp] in *. rewrite IH. by destruct (0 ?= y).
    + specialize (IH l [] ltac:(lia) ltac:(simpl; lia)). rewrite Nat.sub_0_r in *.
      cbn [replicate app zip_cmp pad_cmp] in *. rewrite IH. by destruct (x ?= 0).
    + cbn [app zip_cmp pad_cmp]. rewrite IH by lia. by destruct (x ?= y).
Qed.

Lemma pad_release_eq n l : (length l <= n)%nat ->
  pad_release n l = l ++ replicate (n - length l) 0.
Proof.
  intros H. unfold pad_release. rewrite take_app_ge by done. f_equal.
  rewrite take_replicate. f_equal. lia.
Qed.

Lemma list_cmp_pad l k : length l = length k -> list_cmp Z.compare l k = pad_cmp l k.
Proof.
  revert k. induction l as [|x l IH]; intros [|y k] H; simpl in *; try lia; [done|].
  by rewrite IH by lia.
Qed.

Lemma compare_release_pad l k : compare_release l k = pad_cmp l k.
Proof.
  unfold compare_release. destruct (Nat.eqb_spec (length l) (length k)).
  - by apply list_cmp_pad.
  - rewrite !pad_release_eq by lia. apply zip_cmp_pad; lia.
Qed.

Lemma compare_release_trim l k : Forall (fun x => 0 <= x) l -> Forall (fun x => 0 <= x) k ->
  compare_release l k = list_cmp Z.compare (trim_zeros l) (trim_zeros k).
Proof. intros. rewrite compare_release_pad. by apply pad_cmp_trim. Qed.

(** ** The slow path *)

Lemma forallb_nonneg (p : Z -> bool) l : (forall x, p x = true -> 0 <= x) ->
  forallb p l = true -> Forall (fun x => 0 <= x) l.
Proof.
  intros Hp H. apply Forall_forall. intros x Hx. apply Hp.
  apply forallb_forall with (x := x) in H; [done|by apply list_elem_of_In].
Qed.

Lemma u64b_iff n : u64b n = true <-> 0 <= n <= u64_max.
Proof. unfold u64b. rewrite andb_true_iff, !Z.leb_le. done. Qed.

Lemma below_max_iff n : below_max n = true <-> 0 <= n < u64_max.
Proof. unfold below_max. rewrite andb_true_iff, Z.leb_le, Z.ltb_lt. done. Qed.

Record wf_facts (v : Version) : Prop := {
  wf_ok : version_ok v = true;
  wf_epoch : 0 <= epoch v <= u64_max;
  wf_release : Forall (fun x => 0 <= x) (release v);
  wf_pre : forall p, pre v = Some p -> 0 <= pre_number p <= u64_max;
  wf_post : forall n, post v = Some n -> 0 <= n <= u64_max;
  wf_dev : forall n, dev v = Some n -> 0 <= n <= u64_max;
  wf_min : forall n, vmin v = Some n -> 0 <= n <= u64_max;
  wf_max : forall n, vmax v = Some n -> n = 0;
  wf_min_alone : is_some (vmin v) = true -> pre v = None /\ dev v = None /\ vmax v = None;
  wf_max_alone : is_some (vmax v) = true -> post v = None /\ dev v = None;
}.

Lemma wf_elim v : wf v = true -> wf_facts v.
Proof.
  unfold wf. intros [Hok Hf]%andb_prop. unfold full_wf in Hf.
  rewrite <- epoch_view, <- release_view, <- pre_view, <- post_view, <- dev_view, <- vmin_view,
    <- vmax_view in Hf.
  do 8 (apply andb_prop in Hf as [Hf ?]). split; try done.
  - by apply u64b_iff.
  - apply (forallb_nonneg u64b); [|done]. intros x Hx. apply u64b_iff in Hx. lia.
  - intros p E. rewrite E in *. by apply u64b_iff.
  - intros n E. rewrite E in *. by apply u64b_iff.
  - intros n E. rewrite E in *. by apply u64b_iff.
  - intros n E. rewrite E in *. by apply u64b_iff.
  - intros n E. rewrite E in *. cbn [opt_all] in *. bool_norm. lia.
  - intros E. rewrite E in *. cbn [implb] in *. bool_norm.
    by destruct (pre v), (dev v), (vmax v).
  - intros E. rewrite E in *. cbn [implb] in *. bool_norm. by destruct (post v), (dev v).
Qed.

Lemma cmp_slow_key v w : wf v = true -> wf w = true ->
  cmp_slow v w = key_cmp (key v) (key w).
Proof.
  intros Hv%wf_elim Hw%wf_elim. unfold cmp_slow, key_cmp, key, pair_cmp at 1 2. cbn [fst snd].
  rewrite compare_release_trim by (apply wf_release; done).
  destruct (epoch v ?= epoch w); [|done|done]. cbn [then_with].
  by destruct (list_cmp Z.compare (trim_zeros (release v)) (trim_zeros (release w))).
Qed.

(** ** The fast path *)

Lemma pack_cmp a b c d k n a' b' c' d' k' n' :
  0 <= a <= 65535 -> 0 <= b <= 255 -> 0 <= c <= 255 -> 0 <= d <= 255 ->
  0 <= k <= 8 -> 0 <= n <= 1048575 ->
  0 <= a' <= 65535 -> 0 <= b' <= 255 -> 0 <= c' <= 255 -> 0 <= d' <= 255 ->
  0 <= k' <= 8 -> 0 <= n' <= 1048575 ->
  (pack a b c d k n ?= pack a' b' c' d' k' n') =
  then_with (list_cmp Z.compare [a; b; c; d] [a'; b'; c'; d'])
            (then_with (k ?= k') (n ?= n')).
Proof.
  intros. cbn [list_cmp]. unfold pack.
  destruct (Z.compare_spec a a'); cbn [then_with]; [|apply Z.compare_lt_iff; lia|apply Z.compare_gt_iff; lia].
  destruct (Z.compare_spec b b'); cbn [then_with]; [|apply Z.compare_lt_iff; lia|apply Z.compare_gt_iff; lia].
  destruct (Z.compare_spec c c'); cbn [then_with]; [|apply Z.compare_lt_iff; lia|apply Z.compare_gt_iff; lia].
  destruct (Z.compare_spec d d'); cbn [then_with]; [|apply Z.compare_lt_iff; lia|apply Z.compare_gt_iff; lia].
  destruct (Z.compare_spec k k'); cbn [then_with]; [|apply Z.compare_lt_iff; lia|apply Z.compare_gt_iff; lia].
  destruct (Z.compare_spec n n'); [apply Z.compare_eq_iff; lia|apply Z.compare_lt_iff; lia|apply Z.compare_gt_iff; lia].
Qed.

(** The sortable tuple of a packed version. *)
Definition packed_tuple (k n : Z) : SortTuple :=
  if k =? 0 then (0, (0, (None, (n, local_empty))))
  else if k =? 1 then (1, (0, (None, (n, local_empty))))
  else if k =? 2 then (2, (n, (None, (u64_max, local_empty))))
  else if k =? 3 then (3, (n, (None, (u64_max, local_empty))))
  else if k =? 4 then (4, (n, (None, (u64_max, local_empty))))
  else if k =? 5 then (5, (0, (None, (0, local_empty))))
  else if k =? 6 then (5, (0, (None, (0, LMax))))
  else if k =? 7 then (6, (0, (Some n, (u64_max, local_empty))))
  else (6, (0, (Some u64_max, (u64_max, local_empty)))).

Lemma sortable_tuple_packed s a b c d k n : layout s a b c d k n ->
  sortable_tuple (Small s) = packed_tuple k n.
Proof.
  intros L. pose proof (layout_view _ _ _ _ _ _ _ L) as HV. destruct L.
  unfold sortable_tuple. rewrite pre_view, post_view, dev_view, vmin_view, vmax_view, local_view, HV.
  by kind_cases k.
Qed.

Lemma packed_tuple_cmp k n k' n' :
  0 <= k <= 8 -> 0 <= n <= 1048575 -> (k = 5 \/ k = 6 \/ k = 8 -> n = 0) ->
  0 <= k' <= 8 -> 0 <= n' <= 1048575 -> (k' = 5 \/ k' = 6 \/ k' = 8 -> n' = 0) ->
  tuple_cmp (packed_tuple k n) (packed_tuple k' n') = then_with (k ?= k') (n ?= n').
Proof.
  intros Hk Hn Hp Hk' Hn' Hp'. unfold tuple_cmp, pair_cmp.
  kind_cases k; kind_cases k'; cbn - [Z.compare u64_max]; try done;
    rewrite ?Z.compare_refl; cbn - [Z.compare u64_max];
    try (rewrite (Hp ltac:(lia)), (Hp' ltac:(lia)); done);
    try (destruct (n ?= n'); done);
    unfold u64_max; match goal with |- context[?x ?= ?y] => destruct (Z.compare_spec x y) end; 
    try lia; done.
Qed.

Lemma trim_zeros_take l a b c d :
  0 <= l <= 4 -> (l <= 0 -> a = 0) -> (l <= 1 -> b = 0) -> (l <= 2 -> c = 0) -> (l <= 3 -> d = 0) ->
  trim_zeros (take (Z.to_nat l) [a; b; c; d]) = trim_zeros [a; b; c; d].
Proof.
  intros Hl Ha Hb Hc Hd.
  assert (l = 0 \/ l = 1 \/ l = 2 \/ l = 3 \/ l = 4) as Hcases by lia.
  destruct Hcases as [->|[->|[->|[->| ->]]]].
  - rewrite (Ha ltac:(lia)), (Hb ltac:(lia)), (Hc ltac:(lia)), (Hd ltac:(lia)). done.
  - rewrite (Hb ltac:(lia)), (Hc ltac:(lia)), (Hd ltac:(lia)).
    change [a; 0; 0; 0] with ((([a] ++ [0]) ++ [0]) ++ [0]). by rewrite !trim_zeros_snoc_0.
  - rewrite (Hc ltac:(lia)), (Hd ltac:(lia)).
    change [a; b; 0; 0] with (([a; b] ++ [0]) ++ [0]). by rewrite !trim_zeros_snoc_0.
  - rewrite (Hd ltac:(lia)).
    change [a; b; c; 0] with ([a; b; c] ++ [0]). by rewrite !trim_zeros_snoc_0.
  - done.
Qed.

Lemma repr_cmp_key s1 s2 : wf (Small s1) = true -> wf (Small s2) = true ->
  (repr s1 ?= repr s2) = key_cmp (key (Small s1)) (key (Small s2)).
Proof.
  intros W1%wf_elim W2%wf_elim.
  destruct (proj1 (small_ok_layout s1) (wf_ok _ W1)) as (a & b & c & d & k & n & L1).
  destruct (proj1 (small_ok_layout s2) (wf_ok _ W2)) as (a' & b' & c' & d' & k' & n' & L2).
  pose proof (layout_view _ _ _ _ _ _ _ L1) as V1. pose proof (layout_view _ _ _ _ _ _ _ L2) as V2.
  pose proof (wf_max _ W1) as M1. pose proof (wf_max _ W2) as M2.
  rewrite vmax_view, V1 in M1. rewrite vmax_view, V2 in M2.
  unfold key, key_cmp, pair_cmp at 1 2. cbn [fst snd epoch small_epoch].
  rewrite (sortable_tuple_packed _ _ _ _ _ _ _ L1), (sortable_tuple_packed _ _ _ _ _ _ _ L2).
  rewrite !release_view, V1, V2. cbn [f_release packed_view].
  destruct L1 as [-> ? ? ? ? ? ? Hp ? ? ? ? ?], L2 as [-> ? ? ? ? ? ? Hp' ? ? ? ? ?].
  rewrite !trim_zeros_take, <- compare_release_trim, packed_tuple_cmp by
    first [lia | done | repeat constructor; lia
          | intros [?|[?|?]]; [apply Hp; by left|apply Hp; by right|subst k; by apply M1]
          | intros [?|[?|?]]; [apply Hp'; by left|apply Hp'; by right|subst k'; by apply M2]].
  cbn [Z.compare then_with]. by apply pack_cmp.
Qed.

Lemma cmp_key v w : wf v = true -> wf w = true -> cmp v w = key_cmp (key v) (key w).
Proof.
  intros Hv Hw. destruct v as [s1|f1], w as [s2|f2]; [by apply repr_cmp_key|..];
    by apply cmp_slow_key.
Qed.

Lemma version_eq_key v w : wf v = true -> wf w = true ->
  version_eq v w = true <-> key v = key w.
Proof.
  intros Hv Hw. unfold version_eq. rewrite cmp_key by done. split.
  - destruct (key_cmp (key v) (key w)) eqn:E; [|done|done]. intros _. by apply (ord_eq key_cmp).
  - intros ->. by rewrite (ord_refl key_cmp).
Qed.

(** ** Real versions *)

Record real_facts (v : Version) : Prop := {
  real_ok : version_ok v = true;
  real_epoch : 0 <= epoch v < u64_max;
  real_release : Forall (fun x => 0 <= x < u64_max) (release v);
  real_nonempty : release v <> [];
  real_pre : forall p, pre v = Some p -> 0 <= pre_number p < u64_max;
  real_post : forall n, post v = Some n -> 0 <= n < u64_max;
  real_dev : forall n, dev v = Some n -> 0 <= n < u64_max;
  real_min : vmin v = None;
  real_max : vmax v = None;
  real_local : exists l, local v = Segments l /\
    Forall (fun s => match s with LNumber n => 0 <= n <= u64_max | LString _ => True end) l;
}.

Lemma real_elim v : real v = true -> real_facts v.
Proof.
  unfold real. intros [Hok Hf]%andb_prop. unfold full_real in Hf.
  rewrite <- epoch_view, <- release_view, <- pre_view, <- post_view, <- dev_view, <- vmin_view,
    <- vmax_view, <- local_view in Hf.
  do 8 (apply andb_prop in Hf as [Hf ?]). split; try done.
  - by apply below_max_iff.
  - apply Forall_forall. intros x Hx%list_elem_of_In. apply below_max_iff.
    match goal with H : forallb below_max _ = true |- _ => rewrite forallb_forall in H; auto end.
  - intros E. by rewrite E in *.
  - intros p E. rewrite E in *. by apply below_max_iff.
  - intros n E. rewrite E in *. by apply below_max_iff.
  - intros n E. rewrite E in *. by apply below_max_iff.
  - by destruct (vmin v).
  - by destruct (vmax v).
  - destruct (local v) as [l|]; [|done]. exists l. split; [done|]. apply Forall_forall.
    intros s Hs%list_elem_of_In.
    match goal with H : forallb _ l = true |- _ => rewrite forallb_forall in H; specialize (H s Hs) end.
    destruct s; [done|]. by apply u64b_iff.
Qed.

Lemma below_max_u64b n : below_max n = true -> u64b n = true.
Proof. rewrite below_max_iff, u64b_iff. lia. Qed.

Lemma real_wf v : real v = true -> wf v = true.
Proof.
  intros Hr. pose proof (real_elim v Hr) as R. unfold wf, full_wf.
  rewrite <- epoch_view, <- release_view, <- pre_view, <- post_view, <- dev_view, <- vmin_view,
    <- vmax_view. rewrite (real_ok _ R), (real_min _ R), (real_max _ R). cbn [is_some is_none negb implb opt_all].
  rewrite !andb_true_r. cbn [andb].
  destruct R as [_ He Hrel _ Hpre Hpost Hdev _ _ _].
  apply andb_true_intro; split; [apply andb_true_intro; split; [apply andb_true_intro; split; [apply andb_true_intro; split|]|]|].
  - apply u64b_iff. lia.
  - apply forallb_forall. intros x Hx%list_elem_of_In. rewrite Forall_forall in Hrel.
    apply u64b_iff. specialize (Hrel x Hx). lia.
  - destruct (pre v) as [p|]; [|done]. apply u64b_iff. specialize (Hpre p eq_refl). lia.
  - destruct (post v) as [p|]; [|done]. apply u64b_iff. specialize (Hpost p eq_refl). lia.
  - destruct (dev v) as [p|]; [|done]. apply u64b_iff. specialize (Hdev p eq_refl). lia.
Qed.

(** The tuple of a real version. *)
Lemma sortable_tuple_real v : real_facts v ->
  sortable_tuple v =
  match pre v with
  | Some p => (kind_discriminant (pre_kind p) + 2,
               (pre_number p, (post v, (default u64_max (dev v), local v))))
  | None =>
      match post v, dev v with
      | None, Some n => (1, (0, (None, (n, local v))))
      | None, None => (5, (0, (None, (0, local v))))
      | Some p, d => (6, (0, (Some p, (default u64_max d, local v))))
      end
  end.
Proof.
  intros [? ? ? ? ? ? ? Hmin Hmax ?]. unfold sortable_tuple. rewrite Hmin, Hmax.
  cbn [is_some is_none negb]. by destruct (pre v) as [[[] ?]|], (post v), (dev v).
Qed.

Lemma dev_default_inj v w : real_facts v -> real_facts w ->
  default u64_max (dev v) = default u64_max (dev w) -> dev v = dev w.
Proof.
  intros Rv Rw. pose proof (real_dev _ Rv) as Hv. pose proof (real_dev _ Rw) as Hw.
  destruct (dev v) as [n|], (dev w) as [m|]; cbn [from_option id]; intros E; subst; try done.
  - specialize (Hv _ eq_refl). lia.
  - specialize (Hw _ eq_refl). lia.
Qed.

(** The tuple determines the suffix: no two different suffixes collide. *)
Lemma sortable_tuple_inj v w : real_facts v -> real_facts w ->
  sortable_tuple v = sortable_tuple w ->
  pre v = pre w /\ post v = post w /\ dev v = dev w /\ local v = local w.
Proof.
  intros Rv Rw. rewrite !sortable_tuple_real by done.
  pose proof (dev_default_inj v w Rv Rw) as Hd.
  destruct (pre v) as [[k1 n1]|], (pre w) as [[k2 n2]|]; cbn [pre_kind pre_number].
  - intros [= Hk Hn Hp Hdev Hl]. rewrite Hn, Hp, Hl, (Hd Hdev).
    destruct k1, k2; try done; cbn in Hk; lia.
  - destruct (post w), (dev w), k1; intros [= ]; done.
  - destruct (post v), (dev v), k2; intros [= ]; done.
  - destruct (post v) as [p1|], (post w) as [p2|].
    + intros [= -> Hdev ->]. by rewrite (Hd Hdev).
    + by destruct (dev w); intros [= ].
    + by destruct (dev v); intros [= ].
    + destruct (dev v), (dev w); intros [= ]; by subst.
Qed.

(** ** Injectivity of cache keys *)

Lemma cache_key_option_inj a b l k :
  cache_key_option a ++ l = cache_key_option b ++ k -> a = b /\ l = k.
Proof. destruct a, b; simpl; intros [= ]; by subst. Qed.

Lemma cache_key_segments_inj l k a b : length l = length k ->
  flat_map cache_key_segment l ++ a = flat_map cache_key_segment k ++ b -> l = k /\ a = b.
Proof.
  revert k. induction l as [|s l IH]; intros [|t k] Hlen; simpl in *; try lia; [done|].
  rewrite <- !app_assoc. destruct s, t; simpl; intros [= ]; subst;
    destruct (IH k) as [-> ->]; auto with lia.
Qed.

Lemma cache_key_local_inj a b : cache_key_local a = cache_key_local b -> a = b.
Proof.
  destruct a as [l|], b as [k|]; simpl; intros [= ]; [|done].
  destruct (cache_key_segments_inj l k [] []) as [-> _]; [done| |done].
  by rewrite !app_nil_r.
Qed.

Lemma write_release_inj (l k : list Z) (a b : list write) : length l = length k ->
  map WriteU64 l ++ a = map WriteU64 k ++ b -> l = k /\ a = b.
Proof.
  revert k. induction l as [|x l IH]; intros [|y k] Hlen; simpl in *; try lia; [done|].
  intros [= -> H]. destruct (IH k) as [-> ->]; auto with lia.
Qed.

(** ** Comparing padded releases segment by segment *)

Lemma nth_or_0_nil i : nth_or_0 [] i = 0.
Proof. by destruct i. Qed.

Lemma pad_cmp_Lt l k i : (forall j, (j < i)%nat -> nth_or_0 l j = nth_or_0 k j) ->
  nth_or_0 l i < nth_or_0 k i -> pad_cmp l k = Lt.
Proof.
  revert l k. induction i as [|i IH]; intros l k Heq Hlt.
  - destruct l as [|x l], k as [|y k]; cbn in Hlt; cbn [pad_cmp]; try lia;
      by rewrite (proj2 (Z.compare_lt_iff _ _)) by lia.
  - pose proof (Heq O ltac:(lia)) as H0.
    assert (IH' : forall l' k', (forall j, nth_or_0 l (S j) = nth_or_0 l' j) ->
      (forall j, nth_or_0 k (S j) = nth_or_0 k' j) -> pad_cmp l' k' = Lt).
    { intros l' k' El Ek. apply IH; [intros j Hj|by rewrite <- El, <- Ek].
      rewrite <- El, <- Ek. apply Heq. lia. }
    destruct l as [|x l], k as [|y k]; unfold nth_or_0 in H0; cbn in H0; cbn [pad_cmp].
    + rewrite !nth_or_0_nil in Hlt. lia.
    + subst y. rewrite Z.compare_refl. apply (IH' [] k); intros; by rewrite ?nth_or_0_nil.
    + subst x. rewrite Z.compare_refl. apply (IH' l []); intros; by rewrite ?nth_or_0_nil.
    + subst y. rewrite Z.compare_refl. by apply (IH' l k).
Qed.

Lemma bump_vec_nth old i x j : (j <= i)%nat ->
  nth_or_0 (map (fun i' => match Nat.compare i' i with
                           | Lt => nth_or_0 old i' | Eq => x | Gt => 0 end)
             (seq 0 (Nat.max (length old) (i + 1)))) j =
  if Nat.eqb j i then x else nth_or_0 old j.
Proof.
  intros Hj. unfold nth_or_0 at 1. rewrite list_lookup_fmap, lookup_seq_lt by lia. cbn.
  destruct (Nat.eqb_spec j i) as [->|Hne]; [by rewrite Nat.compare_refl|].
  by rewrite (proj2 (Nat.compare_lt_iff j i)) by lia.
Qed.

(** ** Properties of the ordering *)

(** C6: comparing two packed versions as [u64]s gives the answer of the
    component-by-component comparison [cmp_slow]. *)
Theorem cmp_fast_is_slow s1 s2 : wf (Small s1) = true -> wf (Small s2) = true ->
  cmp (Small s1) (Small s2) = cmp_slow (Small s1) (Small s2).
Proof. intros. by rewrite cmp_key, cmp_slow_key. Qed.

Lemma cmp_fast_is_slow_witness :
  cmp (Small (mkSmall (pack 1 0 0 0 4 1) 2)) (Small (mkSmall (pack 1 0 0 0 7 3) 3)) =
  cmp_slow (Small (mkSmall (pack 1 0 0 0 4 1) 2)) (Small (mkSmall (pack 1 0 0 0 7 3) 3)).
Proof. apply (cmp_fast_is_slow (mkSmall _ _) (mkSmall _ _)); vm_compute; reflexivity. Defined.

(** C3: [Ord for Version] is a total preorder on well-formed versions (packed,
    full, or one of each): swapping the arguments swaps the answer, [<=] is
    transitive, and versions compare equal exactly when their epoch, their
    release up to trailing zeros, and their sortable tuple agree. *)
Theorem cmp_total_order u v w : wf u = true -> wf v = true -> wf w = true ->
  cmp u v = CompOpp (cmp v u) /\
  (cmp u v <> Gt -> cmp v w <> Gt -> cmp u w <> Gt) /\
  (version_eq u v = true <->
   epoch u = epoch v /\ trim_zeros (release u) = trim_zeros (release v) /\
   sortable_tuple u = sortable_tuple v).
Proof.
  intros Hu Hv Hw. rewrite version_eq_key, !cmp_key by done.
  split; [apply (ord_sym key_cmp)|]. split; [apply (ord_le_trans key_cmp)|].
  unfold key. split; [by intros [= ]|by intros (-> & -> & ->)].
Qed.

Lemma cmp_total_order_witness :
  let u := Small (mkSmall (pack 1 0 0 0 5 0) 1) in
  let v := Full (mkFull 0 [1; 0] None None None local_empty None None) in
  let w := Full (mkFull 0 [1] None (Some 2) (Some 1) (Segments [LNumber 3]) None None) in
  cmp u v = CompOpp (cmp v u) /\
  (cmp u v <> Gt -> cmp v w <> Gt -> cmp u w <> Gt) /\
  (version_eq u v = true <->
   epoch u = epoch v /\ trim_zeros (release u) = trim_zeros (release v) /\
   sortable_tuple u = sortable_tuple v).
Proof. cbv zeta. apply cmp_total_order; vm_compute; reflexivity. Defined.

(** [Hash] agrees with [PartialEq]: versions that compare equal feed the
    hasher the same sequence of writes, even when they differ in trailing zeros
    or in representation. *)
Theorem hash_respects_eq v w : real v = true -> real w = true ->
  version_eq v w = true -> version_hash v = version_hash w.
Proof.
  intros Hv Hw E. apply version_eq_key in E; [|by apply real_wf..].
  unfold key in E. injection E as He Hr Ht. unfold version_hash.
  destruct (sortable_tuple_inj v w) as (-> & -> & -> & ->); [by apply real_elim..|done|].
  rewrite He. do 3 f_equal. unfold trim_zeros in Hr.
  by rewrite <- (rev_involutive (drop_while _ (rev (release v)))), Hr, rev_involutive.
Qed.

Lemma hash_respects_eq_witness :
  version_hash (Small (mkSmall (pack 1 0 0 0 7 3) 3)) =
  version_hash (Full (mkFull 0 [1] None (Some 3) None local_empty None None)).
Proof. apply hash_respects_eq; vm_compute; reflexivity. Defined.

(** The [CacheKey] of a version loses nothing: two versions with the same
    sequence of writes have the same epoch, release (trailing zeros included),
    pre-, post- and dev-release and local version. *)
Theorem cache_key_injective v w : version_cache_key v = version_cache_key w ->
  epoch v = epoch w /\ release v = release w /\ pre v = pre w /\ post v = post w /\
  dev v = dev w /\ local v = local w.
Proof.
  unfold version_cache_key. intros [= He Hlen H].
  apply write_release_inj in H as [Hr H]; [|done].
  assert (Hp : pre v = pre w /\
    cache_key_option (post v) ++ cache_key_option (dev v) ++ cache_key_local (local v) =
    cache_key_option (post w) ++ cache_key_option (dev w) ++ cache_key_local (local w)).
  { destruct (pre v) as [[k n]|], (pre w) as [[k' n']|]; simpl in H; injection H; [|done..].
    intros E -> Hk. split; [|done]. by destruct k, k'. }
  destruct Hp as [Hp H']. apply cache_key_option_inj in H' as [Hpo H'].
  apply cache_key_option_inj in H' as [Hd H']. by apply cache_key_local_inj in H'.
Qed.

Lemma cache_key_injective_witness :
  let v := Small (mkSmall (pack 1 2 0 0 4 1) 3) in
  release v = release (Full (mkFull 0 [1; 2; 0] (Some (mkPre Rc 1)) None None local_empty None None)).
Proof.
  exact (proj1 (proj2 (cache_key_injective (Small (mkSmall (pack 1 2 0 0 4 1) 3))
    (Full (mkFull 0 [1; 2; 0] (Some (mkPre Rc 1)) None None local_empty None None))
    ltac:(vm_compute; reflexivity)))).
Defined.

(** The bumps that increment an existing place. *)
Definition incrementing (v : Version) (b : BumpCommand) : bool :=
  match b with
  | BumpRelease _ None | BumpPost None => true
  | BumpPrerelease kind None =>
      match pre v with Some p => bool_decide (pre_kind p = kind) | None => false end
  | _ => false
  end.

Lemma add64_below n : 0 <= n < u64_max -> add64 n 1 = Ret (n + 1).
Proof.
  intros H. unfold add64, checked_add. destruct (Z.leb_spec (n + 1) u64_max); [done|lia].
Qed.

Lemma cmp_full_lt v f : epoch v = f_epoch f ->
  compare_release (release v) (f_release f) = Lt \/
  (compare_release (release v) (f_release f) = Eq /\
   tuple_cmp (sortable_tuple v) (sortable_tuple (Full f)) = Lt) ->
  cmp v (Full f) = Lt.
Proof.
  intros He H. assert (cmp v (Full f) = cmp_slow v (Full f)) as -> by (by destruct v).
  unfold cmp_slow. cbn [epoch release]. rewrite He, Z.compare_refl.
  by destruct H as [->|[-> ->]].
Qed.

Lemma compare_release_refl l : compare_release l l = Eq.
Proof. unfold compare_release. rewrite Nat.eqb_refl. apply (ord_refl _). Qed.

Lemma bump_release_increases v i : real v = true ->
  exists w, bump v (BumpRelease i None) = Ret w /\ cmp v w = Lt.
Proof.
  intros R%real_elim. cbn [bump]. rewrite <- ?pre_view, <- ?post_view.
  unfold bump_release_vec. cbn [f_release set_f_dev set_f_post set_f_pre].
  rewrite <- release_view.
  assert (Hi : 0 <= nth_or_0 (release v) i < u64_max).
  { unfold nth_or_0. destruct (release v !! i) as [y|] eqn:E; cbn; [|by unfold u64_max].
    apply list_elem_of_lookup_2 in E. pose proof (real_release _ R) as Hr.
    rewrite Forall_forall in Hr. by apply Hr. }
  rewrite add64_below by done. cbn [obind]. eexists. split; [done|].
  apply cmp_full_lt; [by rewrite epoch_view|left]. cbn [f_release set_f_release].
  rewrite compare_release_pad. apply (pad_cmp_Lt _ _ i).
  + intros j Hj. rewrite bump_vec_nth by lia. by destruct (Nat.eqb_spec j i); [lia|].
  + rewrite bump_vec_nth, Nat.eqb_refl by lia. lia.
Qed.

Lemma bump_prerelease_increases v kind : real v = true ->
  incrementing v (BumpPrerelease kind None) = true ->
  exists w, bump v (BumpPrerelease kind None) = Ret w /\ cmp v w = Lt.
Proof.
  intros R%real_elim Hb. pose proof (sortable_tuple_real v R) as Ht. cbn [bump]. rewrite <- ?pre_view, <- ?post_view.
  cbn [incrementing f_pre set_f_dev set_f_post] in *. rewrite <- pre_view.
  pose proof (real_pre _ R) as Hp. destruct (pre v) as [[k n]|] eqn:E; [|done].
  cbn [pre_kind pre_number] in *. rewrite Hb. specialize (Hp _ eq_refl). cbn in Hp.
  rewrite add64_below by done. cbn [obind]. eexists. split; [done|].
  apply cmp_full_lt; [by rewrite epoch_view|right]. cbn [f_release set_f_pre set_f_dev set_f_post].
  rewrite <- release_view, compare_release_refl. split; [done|]. rewrite Ht.
  apply bool_decide_eq_true in Hb as <-. unfold sortable_tuple.
  cbn [vmax pre f_pre set_f_pre set_f_dev set_f_post f_post f_dev vmin dev post local f_max f_min f_local].
  rewrite <- vmin_view, <- vmax_view, (real_min _ R), (real_max _ R). cbn [is_some is_none negb].
  unfold tuple_cmp, pair_cmp. destruct k; cbn [kind_discriminant fst snd];
    rewrite Z.compare_refl, (proj2 (Z.compare_lt_iff n (n + 1))) by lia; done.
Qed.

Lemma bump_post_increases v : real v = true ->
  exists w, bump v (BumpPost None) = Ret w /\ cmp v w = Lt.
Proof.
  intros R%real_elim. pose proof (sortable_tuple_real v R) as Ht. cbn [bump]. rewrite <- ?pre_view, <- ?post_view.
  cbn [f_post set_f_dev]. rewrite <- post_view.
  assert (Hbump : exists m, (match post v with
     | Some p => let! n := add64 p 1 in Ret (Full (set_f_post (set_f_dev (make_full v) None) (Some n)))
     | None => Ret (Full (set_f_post (set_f_dev (make_full v) None) (Some 1))) end)
     = Ret (Full (set_f_post (set_f_dev (make_full v) None) (Some m))) /\
     option_cmp Z.compare (post v) (Some m) = Lt).
  { pose proof (real_post _ R) as Hp. destruct (post v) as [p|]; [|by exists 1].
    specialize (Hp _ eq_refl). exists (p + 1). rewrite add64_below by done.
    split; [done|]. cbn. apply Z.compare_lt_iff. lia. }
  destruct Hbump as (m & -> & Hm). eexists. split; [done|].
  apply cmp_full_lt; [by rewrite epoch_view|right]. cbn [f_release set_f_post set_f_dev].
  rewrite <- release_view, compare_release_refl. split; [done|]. rewrite Ht.
  unfold sortable_tuple.
  cbn [vmax pre f_pre set_f_pre set_f_dev set_f_post f_post f_dev vmin dev post local f_max f_min f_local].
  rewrite <- vmin_view, <- vmax_view, <- pre_view, (real_min _ R), (real_max _ R).
  cbn [is_some is_none negb].
  unfold tuple_cmp, pair_cmp. destruct (pre v) as [[[] n]|]; cbn [kind_discriminant fst snd pre_kind pre_number];
    rewrite ?Z.compare_refl; cbn [then_with]; rewrite ?Hm; try done.
  destruct (post v) as [p|], (dev v); cbn [fst snd] in *; rewrite ?Z.compare_refl; cbn [then_with];
    by rewrite ?Hm.
Qed.

(** Bumping a release segment, an existing pre-release of the same kind, or
    the post-release of a parsed version neither overflows nor panics, and gives
    a strictly greater version. *)
Theorem bump_increases v b : real v = true -> incrementing v b = true ->
  exists w, bump v b = Ret w /\ cmp v w = Lt.
Proof.
  intros R Hb. destruct b as [i [x|]|kind [x|]| |[x|]|[x|]]; try done.
  - by apply bump_release_increases.
  - by apply bump_prerelease_increases.
  - by apply bump_post_increases.
Qed.

Lemma bump_increases_witness :
  exists w, bump (Small (mkSmall (pack 1 2 0 0 4 1) 2)) (BumpRelease 4 None) = Ret w /\
            cmp (Small (mkSmall (pack 1 2 0 0 4 1) 2)) w = Lt.
Proof. apply bump_increases; vm_compute; reflexivity. Defined.
