(* ===== verification/CacheKey.v ===== *)
(** * Cache keys and digests

    Models [crates/uv-cache-key]: the trait [CacheKey] of [cache_key.rs] with its
    implementations, and the digests and names of [digest.rs].

    A [CacheKeyHasher] is modelled by the sequence of writes it receives; the hash
    function [SeaHasher] behind it is third-party code, a function of the writes
    with 64-bit results ([SeaHash]).  What makes a key usable is that it can be
    read back: no key is the beginning of the key of another value, so that the
    fields of a structure can be written one after the other
    ([PrefixFree]). *)

From Stdlib Require Import ZArith Lia String.
From stdpp Require Import base list.
From S2P Require Import Prelude.
From S2P Require Import VersionOrder.

Open Scope Z_scope.

(** ** The trait *)

Class CacheKey (A : Type) := cache_key : A -> list write.

(** [CacheKey::cache_key_slice] *)
Definition cache_key_slice {A} `{CacheKey A} (data : list A) : list write := flat_map cache_key data.

(** A key followed by anything determines the value and what follows it. *)
Class PrefixFree (A : Type) `{CacheKey A} : Prop := {
  key_inj : forall (x y : A) l k, cache_key x ++ l = cache_key y ++ k -> x = y /\ l = k;
}.

(** ** Implementations *)

(** The integer types.  A newtype keeps the width apart. *)
Inductive IntWidth := U8 | U16 | U32 | U64 | U128 | I8 | I16 | I32 | I64 | I128 | Isize.

Record RustInt (w : IntWidth) := mkInt { int_value : Z }.
Arguments mkInt {w} int_value.
Arguments int_value {w} r.

Definition write_int (w : IntWidth) (n : Z) : write :=
  match w with
  | U8 => WriteU8 n | U16 => WriteU16 n | U32 => WriteU32 n | U64 => WriteU64 n | U128 => WriteU128 n
  | I8 => WriteI8 n | I16 => WriteI16 n | I32 => WriteI32 n | I64 => WriteI64 n | I128 => WriteI128 n
  | Isize => WriteIsize n
  end.

#[export] Instance int_key w : CacheKey (RustInt w) := fun n => [write_int w (int_value n)].
#[export] Instance usize_key : CacheKey nat := fun n => [WriteUsize n].
#[export] Instance bool_key : CacheKey bool := fun b => [WriteU8 (if b then 1 else 0)].

(** [char] *)
Record RustChar := mkChar { char_value : Z }.
#[export] Instance char_key : CacheKey RustChar := fun c => [WriteU32 (char_value c)].

(** [str], [String] and [Url]: [Hash for str] on the bytes of the text. *)
Record RustStr := mkStr { str_bytes : list Z }.
#[export] Instance str_key : CacheKey RustStr := fun s => hash_str (str_bytes s).

(** Tuples: the fields in order. *)
#[export] Instance unit_key : CacheKey unit := fun _ => [].
#[export] Instance tuple_key {A B} `{CacheKey A} `{CacheKey B} : CacheKey (A * B) := fun p => cache_key p.1 ++ cache_key p.2.

#[export] Instance option_key {A} `{CacheKey A} : CacheKey (option A) :=
  fun o => match o with
           | None => [WriteUsize 0]
           | Some value => WriteUsize 1 :: cache_key value
           end.

(** Slices and [Vec] *)
#[export] Instance list_key {A} `{CacheKey A} : CacheKey (list A) :=
  fun l => WriteUsize (length l) :: cache_key_slice l.

(** [BTreeSet]: its elements in ascending order. *)
Record BTreeSet (A : Type) := mkSet { set_items : list A }.
Arguments mkSet {A} set_items.
Arguments set_items {A} b.
#[export] Instance set_key {A} `{CacheKey A} : CacheKey (BTreeSet A) :=
  fun s => WriteUsize (length (set_items s)) :: flat_map cache_key (set_items s).

(** [BTreeMap]: its entries in ascending order of the keys. *)
Record BTreeMap (K V : Type) := mkMap { map_entries : list (K * V) }.
Arguments mkMap {K V} map_entries.
Arguments map_entries {K V} b.
#[export] Instance map_key {K V} `{CacheKey K} `{CacheKey V} : CacheKey (BTreeMap K V) :=
  fun m => WriteUsize (length (map_entries m)) :: flat_map (fun e => cache_key e.1 ++ cache_key e.2) (map_entries m).

(** ** digest.rs *)

(** [SeaHasher]: a 64-bit function of what is written to it. *)
Class SeaHash := sea_hash : list write -> Z.
Class SeaHashLaws `{SeaHash} : Prop := { sea_hash_u64 : forall l, is_u64 (sea_hash l) }.

(** An instance, to show that the law can be met: a polynomial hash of the writes
    modulo [2^64]. *)
Definition write_code (w : write) : Z :=
  match w with
  | WriteU8 x | WriteU16 x | WriteU32 x | WriteU64 x | WriteU128 x
  | WriteI8 x | WriteI16 x | WriteI32 x | WriteI64 x | WriteI128 x | WriteIsize x => x
  | WriteUsize x => Z.of_nat x
  | WriteBytes l => fold_left (fun h b => (h * 31 + b) mod (u64_max + 1)) l 7
  end.
#[export] Instance polynomial_hash : SeaHash :=
  fun l => fold_left (fun h w => (h * 1099511628211 + write_code w) mod (u64_max + 1)) l 7.
#[export] Instance polynomial_hash_laws : SeaHashLaws.
Proof.
  split. intros l. unfold sea_hash, polynomial_hash. assert (H : is_u64 7) by (unfold is_u64, u64_max; lia).
  revert H. generalize 7 as h. induction l as [|w l IH]; intros h Hh; [done|]. cbn [fold_left]. apply IH.
  pose proof (Z.mod_pos_bound (h * 1099511628211 + write_code w) (u64_max + 1)). unfold is_u64, u64_max in *. lia.
Qed.

(** [u64::to_le_bytes] *)
Definition to_le_bytes (num : Z) : list Z := map (fun i => Z.land (Z.shiftr num (8 * i)) 255) [0; 1; 2; 3; 4; 5; 6; 7].

(** [hex::encode]: two lower-case digits per byte. *)
Definition hex_digit (d : Z) : Z := if d <? 10 then 48 + d else 87 + d.
Definition hex_encode (bytes : list Z) : list Z := flat_map (fun b => [hex_digit (b / 16); hex_digit (b mod 16)]) bytes.

(** [to_hex] *)
Definition to_hex (num : Z) : list Z := hex_encode (to_le_bytes num).

(** [cache_digest] *)
Definition cache_digest `{SeaHash} {A} `{CacheKey A} (hashable : A) : list Z := to_hex (sea_hash (cache_key hashable)).

(** [hash_digest], on the writes of [Hash::hash]. *)
Definition hash_digest `{SeaHash} (hash : list write) : list Z := to_hex (sea_hash hash).

(** The loop of [cache_name], with the text written so far and [dash]. *)
Fixpoint cache_name_loop (bytes normalized : list Z) (dash : bool) : list Z :=
  match bytes with
  | [] => normalized
  | c :: bytes' =>
      if is_ascii_alphanumeric c then cache_name_loop bytes' (normalized ++ [to_ascii_lowercase c]) false
      else if negb dash then cache_name_loop bytes' (normalized ++ [45]) true
      else cache_name_loop bytes' normalized dash
  end.

Definition is_hex_lower (c : Z) : bool := is_ascii_digit c || ((97 <=? c) && (c <=? 102)).

(** [name.get(..limit)]: [None] when [limit] is beyond the end or inside a
    character. *)
Fixpoint str_get_to (s : list Z) (limit : nat) : option (list Z) :=
  match limit, s with
  | O, _ => Some []
  | _, [] => None
  | _, c :: s' =>
      let n := length (utf8_char c) in
      if Nat.leb n limit then option_map (cons c) (str_get_to s' (limit - n)) else None
  end.

(** [cache_name]; [max_len] is [None] for [usize::MAX], which no text reaches. *)
Definition cache_name (name : list Z) (max_len : option nat) : option (list Z) :=
  if forallb is_hex_lower (utf8 name) then
    match name with
    | [] => None
    | _ =>
        match max_len with
        | None => Some name
        | Some limit => Some (default name (str_get_to name limit))
        end
    end
  else
    let bytes := match max_len with None => utf8 name | Some limit => take limit (utf8 name) end in
    let normalized := cache_name_loop bytes [] false in
    let normalized := match last normalized with Some 45 => removelast normalized | _ => normalized end in
    match normalized with [] => None | _ => Some normalized end.

(** ** Keys can be read back *)

#[export] Instance int_free w : PrefixFree (RustInt w).
Proof. split. intros [x] [y] l k. unfold cache_key, int_key. destruct w; cbn; by intros [= -> ->]. Qed.

#[export] Instance usize_free : PrefixFree nat.
Proof. split. intros x y l k. by intros [= -> ->]. Qed.

#[export] Instance str_free : PrefixFree RustStr.
Proof. split. intros [x] [y] l k. by intros [= -> ->]. Qed.

#[export] Instance bool_free : PrefixFree bool.
Proof. split. intros [] [] l k; cbn; by intros [= ->]. Qed.

#[export] Instance char_free : PrefixFree RustChar.
Proof. split. intros [x] [y] l k. by intros [= -> ->]. Qed.

#[export] Instance unit_free : PrefixFree unit.
Proof. by split; intros [] []. Qed.

#[export] Instance pair_free {A B} `{PrefixFree A} `{PrefixFree B} : PrefixFree (A * B).
Proof.
  split. intros [a b] [a' b'] l k. unfold cache_key, tuple_key. cbn [fst snd]. rewrite <- !app_assoc.
  intros [-> E]%key_inj. by apply key_inj in E as [-> ->].
Qed.

#[export] Instance option_free {A} `{PrefixFree A} : PrefixFree (option A).
Proof.
  split. intros [x|] [y|] l k; unfold cache_key, option_key; cbn [app]; intros [= E]; [|by subst].
  by apply key_inj in E as [-> ->].
Qed.

(** Sequences of keys of the same number of values. *)
Lemma flat_key_inj {A} (f : A -> list write) : (forall x y l k, f x ++ l = f y ++ k -> x = y /\ l = k) ->
  forall xs ys l k, length xs = length ys -> flat_map f xs ++ l = flat_map f ys ++ k -> xs = ys /\ l = k.
Proof.
  intros Hf. induction xs as [|x xs IH]; intros [|y ys] l k Hl; try done. cbn [flat_map].
  rewrite <- !app_assoc. intros [-> E]%Hf. apply IH in E as [-> ->]; [done|by injection Hl].
Qed.

#[export] Instance list_free {A} `{PrefixFree A} : PrefixFree (list A).
Proof.
  split. intros xs ys l k. unfold cache_key, list_key, cache_key_slice. cbn [app]. intros [= Hl E].
  apply flat_key_inj in E; [done| |done]. apply key_inj.
Qed.

#[export] Instance set_free {A} `{PrefixFree A} : PrefixFree (BTreeSet A).
Proof.
  split. intros [xs] [ys] l k. unfold cache_key, set_key. cbn [app set_items]. intros [= Hl E].
  apply flat_key_inj in E as [-> ->]; [done|apply key_inj|done].
Qed.

#[export] Instance map_free {K V} `{PrefixFree K} `{PrefixFree V} : PrefixFree (BTreeMap K V).
Proof.
  split. intros [xs] [ys] l k. unfold cache_key, map_key. cbn [app map_entries]. intros [= Hl E].
  apply flat_key_inj in E as [-> ->]; [done| |done].
  intros x y l' k' E'. by apply (key_inj (A := K * V) x y l' k').
Qed.

(** ** Digests: lemmas *)

Lemma to_le_bytes_range num : Forall is_u8 (to_le_bytes num) /\ length (to_le_bytes num) = 8%nat.
Proof.
  split; [|done]. unfold to_le_bytes. apply Forall_forall. intros b (i & -> & _)%elem_of_map.
  unfold is_u8, u8_max. change 255 with (Z.ones 8). rewrite Z.land_ones by lia.
  pose proof (Z.mod_pos_bound (Z.shiftr num (8 * i)) (2 ^ 8)). change (Z.ones 8) with 255. lia.
Qed.

(** The number back from its bytes. *)
Lemma to_le_bytes_value num : is_u64 num ->
  fold_right (fun b acc => b + 256 * acc) 0 (to_le_bytes num) = num.
Proof.
  intros H. unfold is_u64, u64_max in H. unfold to_le_bytes. cbn [map fold_right].
  change 255 with (Z.ones 8). rewrite !Z.land_ones, !Z.shiftr_div_pow2 by lia.
  change (2 ^ 8) with 256. cbn [Z.mul Pos.mul Z.pow Z.pow_pos Pos.iter]. Z.div_mod_to_equations. lia.
Qed.

Lemma hex_digit_inj a b : 0 <= a < 16 -> 0 <= b < 16 -> hex_digit a = hex_digit b -> a = b.
Proof. unfold hex_digit. destruct (Z.ltb_spec a 10), (Z.ltb_spec b 10); lia. Qed.

Lemma hex_digit_lower d : 0 <= d < 16 -> is_hex_lower (hex_digit d) = true.
Proof. unfold is_hex_lower, hex_digit, is_ascii_digit. destruct (Z.ltb_spec d 10); lia. Qed.

Lemma hex_encode_inj a b : Forall is_u8 a -> Forall is_u8 b -> hex_encode a = hex_encode b -> a = b.
Proof.
  intros Ha. revert b. induction Ha as [|x a Hx _ IH]; intros b Hb; destruct Hb as [|y b Hy Hb]; try done.
  cbn [hex_encode flat_map app]. fold (hex_encode a) (hex_encode b). intros [= E1 E2 E3].
  unfold is_u8, u8_max in *. apply hex_digit_inj in E1; [|Z.div_mod_to_equations; lia..].
  apply hex_digit_inj in E2; [|Z.div_mod_to_equations; lia..]. f_equal; [Z.div_mod_to_equations; lia|by apply IH].
Qed.

Lemma to_hex_inj a b : is_u64 a -> is_u64 b -> to_hex a = to_hex b -> a = b.
Proof.
  intros Ha Hb E. apply hex_encode_inj in E; [|apply to_le_bytes_range..].
  by rewrite <- (to_le_bytes_value a), <- (to_le_bytes_value b), E.
Qed.

Lemma to_hex_text num : length (to_hex num) = 16%nat /\ Forall (fun c => is_hex_lower c = true) (to_hex num).
Proof.
  split; [done|]. destruct (to_le_bytes_range num) as [H _]. unfold to_hex. induction H as [|b l Hb _ IH]; [constructor|].
  cbn [hex_encode flat_map app]. unfold is_u8, u8_max in Hb.
  constructor; [apply hex_digit_lower; Z.div_mod_to_equations; lia|].
  constructor; [apply hex_digit_lower; Z.div_mod_to_equations; lia|done].
Qed.

(** ** Cache names: lemmas *)

(** The loop on what it writes. *)
Fixpoint squeeze (dash : bool) (bytes : list Z) : list Z :=
  match bytes with
  | [] => []
  | c :: bytes' =>
      if is_ascii_alphanumeric c then to_ascii_lowercase c :: squeeze false bytes'
      else if dash then squeeze true bytes' else 45 :: squeeze true bytes'
  end.

Lemma cache_name_loop_squeeze bytes acc dash : cache_name_loop bytes acc dash = acc ++ squeeze dash bytes.
Proof.
  revert acc dash. induction bytes as [|c bytes IH]; intros acc dash; cbn; [by rewrite app_nil_r|].
  destruct (is_ascii_alphanumeric c); [by rewrite IH, <- app_assoc|]. destruct dash; cbn; rewrite IH; [done|].
  by rewrite <- app_assoc.
Qed.

(** Lower-case letters and digits, with single dashes between them (and perhaps
    one in front). *)
Fixpoint dashed (after_dash : bool) (l : list Z) : bool :=
  match l with
  | [] => true
  | c :: l' =>
      if is_ascii_lower c || is_ascii_digit c then dashed false l'
      else (c =? 45) && negb after_dash && dashed true l'
  end.

Lemma lowercase_alnum c : is_ascii_alphanumeric c = true ->
  is_ascii_lower (to_ascii_lowercase c) || is_ascii_digit (to_ascii_lowercase c) = true.
Proof.
  unfold to_ascii_lowercase, is_ascii_alphanumeric, is_ascii_digit, is_ascii_upper, is_ascii_lower.
  destruct (Z.leb_spec 65 c), (Z.leb_spec c 90); cbn; lia.
Qed.

Lemma squeeze_dashed dash bytes : dashed dash (squeeze dash bytes) = true.
Proof.
  revert dash. induction bytes as [|c bytes IH]; intros dash; [done|]. cbn.
  destruct (is_ascii_alphanumeric c) eqn:E; [cbn; by rewrite lowercase_alnum|]. destruct dash; cbn; apply IH.
Qed.

Lemma squeeze_length dash bytes : (length (squeeze dash bytes) <= length bytes)%nat.
Proof.
  revert dash. induction bytes as [|c bytes IH]; intros dash; [done|]. cbn.
  destruct (is_ascii_alphanumeric c); [cbn; specialize (IH false); lia|].
  destruct dash; cbn; specialize (IH true); lia.
Qed.

Lemma squeeze_id dash l : dashed dash l = true -> squeeze dash l = l.
Proof.
  revert dash. induction l as [|c l IH]; intros dash; [done|]. cbn.
  destruct (is_ascii_lower c || is_ascii_digit c) eqn:E.
  - intros H. assert (is_ascii_alphanumeric c = true) as ->.
    { unfold is_ascii_alphanumeric. unfold is_ascii_lower, is_ascii_digit, is_ascii_upper in *. lia. }
    rewrite IH by done. f_equal. unfold to_ascii_lowercase, is_ascii_lower, is_ascii_digit, is_ascii_upper in *.
    destruct (Z.leb_spec 65 c), (Z.leb_spec c 90); cbn; lia.
  - intros [[Ec Hd]%andb_prop Hl]%andb_prop. apply Z.eqb_eq in Ec as ->. destruct dash; [done|]. cbn. by rewrite IH.
Qed.

Lemma dashed_prefix after_dash l k : dashed after_dash (l ++ k) = true -> dashed after_dash l = true.
Proof.
  revert after_dash. induction l as [|c l IH]; intros d; [done|]. cbn.
  destruct (is_ascii_lower c || is_ascii_digit c); [apply IH|].
  intros [H1 H2]%andb_prop. rewrite H1. cbn. by apply IH.
Qed.

Lemma dashed_last after_dash l : dashed after_dash (l ++ [45]) = true -> last l <> Some 45.
Proof.
  destruct l as [|y l _] using rev_ind; [done|]. rewrite last_snoc. intros H [= ->]. revert after_dash H.
  induction l as [|c l IH]; intros d; cbn; [by destruct d|].
  destruct (is_ascii_lower c || is_ascii_digit c); [apply IH|]. intros [_ H]%andb_prop. by apply IH in H.
Qed.

Lemma hex_dashed l after_dash : forallb is_hex_lower l = true -> dashed after_dash l = true.
Proof.
  revert after_dash. induction l as [|c l IH]; intros d; [done|]. cbn. intros [Hc Hl]%andb_prop.
  assert (is_ascii_lower c || is_ascii_digit c = true) as ->.
  { unfold is_hex_lower, is_ascii_lower, is_ascii_digit in *. lia. }
  by apply IH.
Qed.

Lemma dashed_ascii after_dash l : dashed after_dash l = true -> Forall (fun c => 0 <= c < 128) l.
Proof.
  revert after_dash. induction l as [|c l IH]; intros d; [constructor|]. cbn.
  destruct (is_ascii_lower c || is_ascii_digit c) eqn:E.
  - intros H. constructor; [|by apply (IH false)]. unfold is_ascii_lower, is_ascii_digit in E. lia.
  - intros [[->%Z.eqb_eq _]%andb_prop H]%andb_prop. constructor; [lia|by apply (IH true)].
Qed.

Lemma str_get_ascii s limit : Forall (fun c => 0 <= c < 128) s ->
  str_get_to s limit = if Nat.leb limit (length s) then Some (take limit s) else None.
Proof.
  intros H. revert limit. induction H as [|c s Hc _ IH]; intros [|limit]; [done..|]. cbn [str_get_to take length].
  unfold utf8_char. destruct (Z.ltb_spec c 128); [|lia]. cbn [length Nat.leb Nat.sub]. rewrite Nat.sub_0_r, IH.
  by destruct (Nat.leb limit (length s)).
Qed.

Lemma hex_ascii s : forallb is_hex_lower (utf8 s) = true -> utf8 s = s /\ Forall (fun c => 0 <= c < 128) s.
Proof.
  intros H. apply (hex_dashed _ false), dashed_ascii in H. assert (E : utf8 s = s).
  { apply utf8_ascii_inv. eapply Forall_impl; [exact H|]. cbn. lia. }
  by rewrite E in H.
Qed.

(** A name in normal form is left alone. *)
Lemma cache_name_id out : out <> [] -> dashed false out = true -> last out <> Some 45 -> cache_name out None = Some out.
Proof.
  intros Hn Hd Hl. unfold cache_name. destruct (forallb is_hex_lower (utf8 out)); [by destruct out|].
  rewrite utf8_ascii by (by apply (dashed_ascii false)). rewrite cache_name_loop_squeeze, squeeze_id by done. cbn [app].
  destruct (last out) as [z|] eqn:El; [|by destruct out].
  assert (Hz : z <> 45) by congruence. destruct z as [|p|p]; [by destruct out| |by destruct out].
  repeat (destruct p as [p|p|]; try (by destruct out)).
Qed.

(** ** Properties *)

(** The keys of integers, text, tuples, options, sequences, sets and maps can
    be read back: values of a composite type with equal keys are equal, also when
    other writes follow, so that no two values share a cache entry through the
    concatenation of their fields. *)
Theorem cache_keys_unambiguous {K V} `{PrefixFree K} `{PrefixFree V}
    (x y : BTreeMap K (option V) * list (V * bool) * BTreeSet RustStr) l k :
  cache_key x ++ l = cache_key y ++ k -> x = y /\ l = k.
Proof. apply key_inj. Qed.

(** A digest is sixteen lower-case hexadecimal digits, and determines the
    64-bit hash it is made from. *)
Theorem digest_is_hash `{SeaHashLaws} {A} `{CacheKey A} (x y : A) :
  length (cache_digest x) = 16%nat /\ Forall (fun c => is_hex_lower c = true) (cache_digest x) /\
  (cache_digest x = cache_digest y <-> sea_hash (cache_key x) = sea_hash (cache_key y)).
Proof.
  unfold cache_digest. destruct (to_hex_text (sea_hash (cache_key x))) as [Hl Ht]. split; [done|]. split; [done|].
  split; [|by intros ->]. apply to_hex_inj; apply sea_hash_u64.
Qed.

(** A cache name is a non-empty text of lower-case letters and digits with
    single dashes, not at the end, no longer than the limit, and a name of that
    form is its own cache name. *)
Theorem cache_name_wellformed name max_len out : cache_name name max_len = Some out -> max_len <> Some 0%nat ->
  out <> [] /\ dashed false out = true /\ last out <> Some 45 /\
  (forall limit, max_len = Some limit -> (length out <= limit)%nat) /\ cache_name out None = Some out.
Proof.
  intros E Hm. enough (H : out <> [] /\ dashed false out = true /\ last out <> Some 45 /\
    (forall limit, max_len = Some limit -> (length out <= limit)%nat)).
  { destruct H as (H1 & H2 & H3 & H4). split_and!; try done. by apply cache_name_id. }
  unfold cache_name in E. destruct (forallb is_hex_lower (utf8 name)) eqn:Eh.
  - destruct (hex_ascii name Eh) as [Eu Ha]. rewrite Eu in Eh. destruct name as [|c name]; [done|].
    remember (c :: name) as t eqn:Et. assert (Hout : out <> [] /\ (exists rest, t = out ++ rest) /\
      (forall limit, max_len = Some limit -> (length out <= limit)%nat)).
    { destruct max_len as [limit|]; injection E as <-.
      - rewrite str_get_ascii by done. destruct (Nat.leb_spec limit (length t)); cbn [from_option id].
        + split; [|split].
          * destruct limit as [|limit]; [done|]. by subst t.
          * exists (drop limit t). by rewrite take_drop.
          * intros ? [= <-]. rewrite length_take. lia.
        + split; [by subst t|]. split; [exists []; by rewrite app_nil_r|]. intros ? [= <-]. lia.
      - split; [by subst t|]. split; [|done]. exists []. by rewrite app_nil_r. }
    destruct Hout as (Hn & (rest & ->) & Hlen). rewrite forallb_app in Eh. apply andb_prop in Eh as [Eh _].
    split; [done|]. split; [by apply hex_dashed|]. split; [|done].
    apply forallb_Forall in Eh. destruct out as [|z out _] using rev_ind; [done|]. rewrite last_snoc.
    apply Forall_app in Eh as [_ Ez]. inv Ez. by intros [= ->].
  - set (bytes := match max_len with None => _ | Some _ => _ end) in E. rewrite cache_name_loop_squeeze in E. cbn [app] in E.
    assert (Hb : forall limit, max_len = Some limit -> (length (squeeze false bytes) <= limit)%nat).
    { intros limit ->. etransitivity; [apply squeeze_length|]. unfold bytes. rewrite length_take. lia. }
    pose proof (squeeze_dashed false bytes) as Hd. revert E Hb Hd. generalize (squeeze false bytes) as t. intros t E Hb Hd.
    destruct t as [|z t _] using rev_ind; [done|]. rewrite last_snoc, removelast_last in E.
    destruct (decide (z = 45)) as [-> | Hz].
    + destruct t as [|c t]; [done|]. injection E as <-. split; [done|]. split; [by apply dashed_prefix in Hd|].
      split; [by apply dashed_last in Hd|]. intros limit Hl. specialize (Hb limit Hl). rewrite length_app in Hb. lia.
    + assert (Eout : Some (t ++ [z]) = Some out).
      { destruct z as [|p|p]; [by destruct t| |by destruct t]. repeat (destruct p as [p|p|]; try (by destruct t)). }
      injection Eout as <-. split; [by destruct t|]. split; [done|]. rewrite last_snoc. split; [congruence|done].
Qed.

Lemma cache_name_wellformed_witness : cache_name (bs "Foo__Bar.baz") (Some 8%nat) = Some (bs "foo-bar") /\
  dashed false (bs "foo-bar") = true.
Proof.
  split; [reflexivity|].
  exact (proj1 (proj2 (cache_name_wellformed (bs "Foo__Bar.baz") (Some 8%nat) (bs "foo-bar") eq_refl ltac:(discriminate)))).
Defined.

Lemma cache_keys_unambiguous_witness :
  cache_key (mkMap [(mkStr (bs "a"), Some (mkInt 1 : RustInt U8))], [(mkInt 2 : RustInt U8, true)], mkSet [mkStr (bs "b")]) ++ [WriteU8 0] =
  cache_key (mkMap [(mkStr (bs "a"), Some (mkInt 1 : RustInt U8))], [(mkInt 2 : RustInt U8, true)], mkSet [mkStr (bs "b")]) ++ [WriteU8 0] /\
  [WriteU8 0] = [WriteU8 0].
Proof.
  split; [reflexivity|].
  exact (proj2 (cache_keys_unambiguous
    (mkMap [(mkStr (bs "a"), Some (mkInt 1 : RustInt U8))], [(mkInt 2 : RustInt U8, true)], mkSet [mkStr (bs "b")])
    (mkMap [(mkStr (bs "a"), Some (mkInt 1 : RustInt U8))], [(mkInt 2 : RustInt U8, true)], mkSet [mkStr (bs "b")])
    [WriteU8 0] [WriteU8 0] eq_refl)).
Defined.

Lemma digest_is_hash_witness : length (cache_digest (mkStr (bs "py3-none-any"))) = 16%nat.
Proof. exact (proj1 (digest_is_hash (mkStr (bs "py3-none-any")) (mkStr []))). Defined.
