(* ===== verification/VersionParser.v ===== *)
(** * Versions: the parser

    Models [Parser], [ReleaseNumbers], [StringSet], [ByteSet] and [parse_u64] of
    [crates/uv-pep440/src/version.rs], and the [FromStr] implementations of
    [Version] and [VersionPattern] built on them.

    The parser is a state monad over [Parser] whose result is a value, an error
    or a panic: [assert!], [expect], slicing and indexing out of range are
    panics, and so is running out of the fuel of the two loops (one unit per
    byte of input, and every iteration consumes at least one byte).  The
    theorems show that no input makes the parser panic, that what it returns is
    a real version, and that the numeric fast path agrees with the general
    parser. *)

From Stdlib Require Import ZArith Lia String.
From stdpp Require Import base list.
From S2P Require Import Prelude.
From S2P Require Import VersionRepr.
From S2P Require Import VersionOrder.
Open Scope Z_scope.

(** ** Errors *)

Inductive ErrorKind :=
| Wildcard
| InvalidDigit (got : Z)
| NumberTooBig (bytes : list Z)
| NoLeadingNumber
| NoLeadingReleaseNumber
| LocalEmpty (precursor : Z)
| UnexpectedEnd (version remaining : list Z).

Inductive PatternErrorKind :=
| PVersion (err : ErrorKind)
| WildcardNotTrailing.

Record VersionPattern := mkPattern { vp_version : Version; vp_wildcard : bool }.

(** ** Numbers *)

(** The loop of [parse_u64]; [all] is the slice, for the error. *)
Fixpoint parse_u64_loop (all bytes : list Z) (n : Z) : result Z ErrorKind :=
  match bytes with
  | [] => Ok n
  | byte :: rest =>
      match checked_sub byte 48 with
      | None => Err (InvalidDigit byte)
      | Some digit =>
          if 9 <? digit then Err (InvalidDigit byte)
          else
            match checked_mul u64_max n 10 with
            | None => Err (NumberTooBig all)
            | Some n' =>
                match checked_add u64_max n' digit with
                | None => Err (NumberTooBig all)
                | Some n'' => parse_u64_loop all rest n''
                end
            end
      end
  end.

Definition parse_u64 (bytes : list Z) : result Z ErrorKind := parse_u64_loop bytes bytes 0.

(** ** Sets of bytes and strings *)

(** [ByteSet]: the table as its indicator function. *)
Definition ByteSet : Type := Z -> bool.

Definition byteset_new (bytes : list Z) : ByteSet :=
  fun b => existsb (fun x => (b =? to_ascii_uppercase x) || (b =? to_ascii_lowercase x)) bytes.

Definition byteset_starts_with (set : ByteSet) (haystack : list Z) : option Z :=
  match haystack with
  | [] => None
  | byte :: _ => if set byte then Some byte else None
  end.

Definition starts_with_ignore_ascii_case (needle haystack : list Z) : bool :=
  Nat.leb (length needle) (length haystack)
  && forallb (fun '(b1, b2) => eq_ignore_ascii_case b1 b2) (combine needle haystack).

Record StringSet := mkStringSet { ss_first_byte : ByteSet; ss_strings : list (list Z) }.

(** The first bytes go into an array of twenty bytes, zero where unused. *)
Definition stringset_new (strings : list (list Z)) : StringSet :=
  let firsts := map (fun s => hd 0 s) strings in
  mkStringSet (byteset_new (firsts ++ replicate (20 - length firsts) 0)) strings.

Fixpoint find_prefix (strings : list (list Z)) (first_byte : Z) (haystack : list Z) (i : nat)
    : option nat :=
  match strings with
  | [] => None
  | bytes :: rest =>
      if eq_ignore_ascii_case (hd 0 bytes) first_byte
         && starts_with_ignore_ascii_case bytes haystack
      then Some i
      else find_prefix rest first_byte haystack (S i)
  end.

Definition stringset_starts_with (set : StringSet) (haystack : list Z) : option nat :=
  match byteset_starts_with (ss_first_byte set) haystack with
  | None => None
  | Some first_byte => find_prefix (ss_strings set) first_byte haystack 0
  end.

(** ** [ReleaseNumbers] *)

Inductive ReleaseNumbers :=
| RInline (numbers : list Z) (len : nat)
| RVec (numbers : list Z).

Definition release_numbers_new : ReleaseNumbers := RInline [0; 0; 0; 0] 0.

Definition release_numbers_push (r : ReleaseNumbers) (n : Z) : outcome ReleaseNumbers :=
  match r with
  | RInline numbers len =>
      assert (Nat.leb len 4)
        (if Nat.eqb len 4 then Ret (RVec (numbers ++ [n]))
         else Ret (RInline (<[len := n]> numbers) (len + 1)))
  | RVec numbers => Ret (RVec (numbers ++ [n]))
  end.

Definition release_numbers_as_slice (r : ReleaseNumbers) : list Z :=
  match r with
  | RInline numbers len => take len numbers
  | RVec vec => vec
  end.

(** ** Parser state *)

Record Parser := mkParser {
  p_v : list Z;
  p_i : nat;
  p_epoch : Z;
  p_release : ReleaseNumbers;
  p_pre : option Prerelease;
  p_post : option Z;
  p_dev : option Z;
  p_local : list LocalSegment;
  p_wildcard : bool;
}.

Definition parser_new (version : list Z) : Parser :=
  mkParser version 0 0 release_numbers_new None None None [] false.

Definition set_i (x : nat) (p : Parser) : Parser :=
  mkParser (p_v p) x (p_epoch p) (p_release p) (p_pre p) (p_post p) (p_dev p) (p_local p) (p_wildcard p).
Definition set_epoch (x : Z) (p : Parser) : Parser :=
  mkParser (p_v p) (p_i p) x (p_release p) (p_pre p) (p_post p) (p_dev p) (p_local p) (p_wildcard p).
Definition set_release (x : ReleaseNumbers) (p : Parser) : Parser :=
  mkParser (p_v p) (p_i p) (p_epoch p) x (p_pre p) (p_post p) (p_dev p) (p_local p) (p_wildcard p).
Definition set_pre (x : option Prerelease) (p : Parser) : Parser :=
  mkParser (p_v p) (p_i p) (p_epoch p) (p_release p) x (p_post p) (p_dev p) (p_local p) (p_wildcard p).
Definition set_post (x : option Z) (p : Parser) : Parser :=
  mkParser (p_v p) (p_i p) (p_epoch p) (p_release p) (p_pre p) x (p_dev p) (p_local p) (p_wildcard p).
Definition set_dev (x : option Z) (p : Parser) : Parser :=
  mkParser (p_v p) (p_i p) (p_epoch p) (p_release p) (p_pre p) (p_post p) x (p_local p) (p_wildcard p).
Definition set_local (x : list LocalSegment) (p : Parser) : Parser :=
  mkParser (p_v p) (p_i p) (p_epoch p) (p_release p) (p_pre p) (p_post p) (p_dev p) x (p_wildcard p).
Definition set_wildcard (x : bool) (p : Parser) : Parser :=
  mkParser (p_v p) (p_i p) (p_epoch p) (p_release p) (p_pre p) (p_post p) (p_dev p) (p_local p) x.

(** ** The parser monad *)

Inductive presult (A : Type) :=
| POk (a : A) (p : Parser)
| PErr (e : PatternErrorKind)
| PPanic.
Arguments POk {A} a p.
Arguments PErr {A} e.
Arguments PPanic {A}.

Definition P (A : Type) : Type := Parser -> presult A.

Definition pret {A} (a : A) : P A := fun p => POk a p.
Definition pbind {A B} (m : P A) (k : A -> P B) : P B :=
  fun p => match m p with POk a p' => k a p' | PErr e => PErr e | PPanic => PPanic end.
Definition pfail {A} (e : PatternErrorKind) : P A := fun _ => PErr e.
Definition gets {A} (f : Parser -> A) : P A := fun p => POk (f p) p.
Definition modify (f : Parser -> Parser) : P unit := fun p => POk tt (f p).
Definition plift {A} (m : outcome A) : P A :=
  fun p => match m with Ret a => POk a p | Panic => PPanic end.
(** [result?] *)
Definition ptry {A} (r : result A ErrorKind) : P A :=
  match r with Ok a => pret a | Err e => pfail (PVersion e) end.

Notation "'let*' x ':=' m 'in' k" := (pbind m (fun x => k))
  (at level 10, x name, m at level 100, k at level 200) : uv_scope.

Definition is_done : P bool := gets (fun p => Nat.leb (length (p_v p)) (p_i p)).

(** [&self.v[self.i..]] *)
Definition rest_of_input : P (list Z) :=
  let* p := gets id in
  plift (assert (Nat.leb (p_i p) (length (p_v p))) (Ret (drop (p_i p) (p_v p)))).

Definition bump_while (predicate : Z -> bool) : P (list Z) :=
  let* r := rest_of_input in
  let taken := take_while predicate r in
  let* _ := modify (fun p => set_i (p_i p + length taken)%nat p) in
  pret taken.

Definition bump_if (string : list Z) : P bool :=
  let* done := is_done in
  if done : bool then pret false
  else
    let* r := rest_of_input in
    if starts_with_ignore_ascii_case string r then
      let* _ := modify (fun p => set_i (p_i p + length string)%nat p) in
      pret true
    else pret false.

Definition bump_if_string_set (set : StringSet) : P (option nat) :=
  let* r := rest_of_input in
  match stringset_starts_with set r with
  | None => pret None
  | Some index =>
      let* found := plift (unwrap (ss_strings set !! index)) in
      let* _ := modify (fun p => set_i (p_i p + length found)%nat p) in
      pret (Some index)
  end.

Definition bump_if_byte_set (set : ByteSet) : P (option Z) :=
  let* r := rest_of_input in
  match byteset_starts_with set r with
  | None => pret None
  | Some found =>
      let* _ := modify (fun p => set_i (p_i p + 1)%nat p) in
      pret (Some found)
  end.

Definition unbump : P unit :=
  let* i := gets p_i in
  match i with
  | O => plift Panic
  | S i' => modify (set_i i')
  end.

Definition reset (offset : nat) : P unit :=
  let* n := gets (fun p => length (p_v p)) in
  let* _ := plift (assert (Nat.leb offset n) (Ret tt)) in
  modify (set_i offset).

Definition parse_number : P (option Z) :=
  let* digits := bump_while is_ascii_digit in
  match digits with
  | [] => pret None
  | _ =>
      let* n := ptry (parse_u64 digits) in
      if n =? u64_max then pfail (PVersion (NumberTooBig digits))
      else pret (Some n)
  end.

Definition push_number (n : Z) : P unit :=
  let* r := gets p_release in
  let* r' := plift (release_numbers_push r n) in
  modify (set_release r').

Definition ok_or {A} (e : ErrorKind) (o : option A) : P A :=
  match o with Some a => pret a | None => pfail (PVersion e) end.

(** ** Components of a version *)

Definition SEPARATOR : ByteSet := byteset_new (bs "._-").

Definition parse_epoch_and_initial_release : P unit :=
  let* o := parse_number in
  let* first_number := ok_or NoLeadingNumber o in
  let* bang := bump_if (bs "!") in
  let* first_release_number :=
    (if bang : bool then
       let* _ := modify (set_epoch first_number) in
       let* o' := parse_number in
       ok_or NoLeadingReleaseNumber o'
     else pret first_number) in
  push_number first_release_number.

Fixpoint parse_rest_of_release (fuel : nat) : P unit :=
  match fuel with
  | O => plift Panic
  | S f =>
      let* dot := bump_if (bs ".") in
      if dot : bool then
        let* o := parse_number in
        match o with
        | None => unbump
        | Some n => let* _ := push_number n in parse_rest_of_release f
        end
      else pret tt
  end.

Definition parse_wildcard : P bool :=
  let* star := bump_if (bs ".*") in
  if negb star then pret false
  else
    let* done := is_done in
    if negb done then pfail WildcardNotTrailing
    else
      let* _ := modify (set_wildcard true) in
      pret true.

Definition PRE_SPELLINGS : StringSet :=
  stringset_new (map bs ["alpha"; "beta"; "preview"; "pre"; "rc"; "a"; "b"; "c"]%string).
Definition PRE_MAP : list PrereleaseKind := [Alpha; Beta; Rc; Rc; Rc; Alpha; Beta; Rc].

Definition parse_pre : P unit :=
  let* oldpos := gets p_i in
  let* _ := bump_if_byte_set SEPARATOR in
  let* o := bump_if_string_set PRE_SPELLINGS in
  match o with
  | None => reset oldpos
  | Some spelling =>
      let* kind := plift (unwrap (PRE_MAP !! spelling)) in
      let* _ := bump_if_byte_set SEPARATOR in
      let* number := parse_number in
      modify (set_pre (Some (mkPre kind (default 0 number))))
  end.

Definition POST_SPELLINGS : StringSet := stringset_new (map bs ["post"; "rev"; "r"]%string).

(** The second half of [parse_post], after the implicit form [-N]. *)
Definition parse_post_spelled (oldpos : nat) : P unit :=
  let* _ := bump_if_byte_set SEPARATOR in
  let* o := bump_if_string_set POST_SPELLINGS in
  match o with
  | None => reset oldpos
  | Some _ =>
      let* _ := bump_if_byte_set SEPARATOR in
      let* number := parse_number in
      modify (set_post (Some (default 0 number)))
  end.

Definition parse_post : P unit :=
  let* oldpos := gets p_i in
  let* dash := bump_if (bs "-") in
  if dash : bool then
    let* o := parse_number in
    match o with
    | Some n => modify (set_post (Some n))
    | None => let* _ := reset oldpos in parse_post_spelled oldpos
    end
  else parse_post_spelled oldpos.

Definition parse_dev : P unit :=
  let* oldpos := gets p_i in
  let* _ := bump_if_byte_set SEPARATOR in
  let* dev := bump_if (bs "dev") in
  if negb dev then reset oldpos
  else
    let* _ := bump_if_byte_set SEPARATOR in
    let* number := parse_number in
    modify (set_dev (Some (default 0 number))).

Definition local_segment (first : list Z) : LocalSegment :=
  match parse_u64 first with
  | Ok number => LNumber number
  | Err _ => LString (map to_ascii_lowercase first)
  end.

Fixpoint parse_local_loop (fuel : nat) (precursor : Z) : P unit :=
  match fuel with
  | O => plift Panic
  | S f =>
      let* first := bump_while is_ascii_alphanumeric in
      match first with
      | [] => pfail (PVersion (LocalEmpty precursor))
      | _ =>
          let* _ := modify (fun p => set_local (p_local p ++ [local_segment first]) p) in
          let* o := bump_if_byte_set SEPARATOR in
          match o with
          | None => pret tt
          | Some byte => parse_local_loop f byte
          end
      end
  end.

Definition parse_local (fuel : nat) : P unit :=
  let* plus := bump_if (bs "+") in
  if negb plus then pret tt else parse_local_loop fuel 43.

Definition into_pattern : P VersionPattern :=
  let* p := gets id in
  let r := release_numbers_as_slice (p_release p) in
  let* _ := plift (assert (Nat.ltb 0 (length r)) (Ret tt)) in
  let* v := plift (version_new r) in
  pret (mkPattern
    (with_local (with_dev (with_post (with_pre (with_epoch v (p_epoch p)) (p_pre p)) (p_post p))
                          (p_dev p))
                (Segments (p_local p)))
    (p_wildcard p)).

(** ** The fast path *)

Definition from_fast_release (release : list Z) (len : Z) : VersionPattern :=
  let r i := nth_or_0 release i in
  mkPattern (Small (mkSmall
    (Z.lor (Z.lor (Z.lor (Z.lor (shl64 (r 0%nat) 48) (shl64 (r 1%nat) 40)) (shl64 (r 2%nat) 32))
                  (shl64 (r 3%nat) 24))
           (shl64 SUFFIX_NONE SUFFIX_VERSION_BIT_LEN)) len)) false.

(** [*release.get_mut(len)? = cur] *)
Definition fast_store (release : list Z) (len : nat) (cur : Z) : option (list Z) :=
  if Nat.ltb len (length release) then Some (<[len := cur]> release) else None.

Fixpoint parse_fast_loop (bytes : list Z) (prev_digit : bool) (cur : Z) (release : list Z)
    (len : nat) : option VersionPattern :=
  match bytes with
  | [] =>
      if negb prev_digit then None
      else
        match fast_store release len cur with
        | None => None
        | Some release' => Some (from_fast_release release' (Z.of_nat len + 1))
        end
  | byte :: rest =>
      if byte =? 46 then
        if negb prev_digit then None
        else
          match fast_store release len cur with
          | None => None
          | Some release' => parse_fast_loop rest false 0 release' (len + 1)
          end
      else
        match checked_sub byte 48 with
        | None => None
        | Some digit =>
            if 9 <? digit then None
            else
              match checked_mul u8_max cur 10 with
              | None => None
              | Some c =>
                  match checked_add u8_max c digit with
                  | None => None
                  | Some c' => parse_fast_loop rest true c' release len
                  end
              end
        end
  end.

(** [major.minor.patch] with one digit each. *)
Definition parse_fast_xyz (v : list Z) : option VersionPattern :=
  match v with
  | [a; d1; b; d2; c] =>
      if (d1 =? 46) && (d2 =? 46) then
        let major := wrapping_sub8 a 48 in
        let minor := wrapping_sub8 b 48 in
        let patch := wrapping_sub8 c 48 in
        if (major <=? 9) && (minor <=? 9) && (patch <=? 9)
        then Some (from_fast_release [major; minor; patch; 0] 3)
        else None
      else None
  | _ => None
  end.

Definition parse_fast (v : list Z) : option VersionPattern :=
  match parse_fast_xyz v with
  | Some vpat => Some vpat
  | None => parse_fast_loop v false 0 [0; 0; 0; 0] 0
  end.

(** ** Entry points *)

(** [Parser::parse_pattern] after the fast path has declined. *)
Definition parse_pattern_general (fuel : nat) : P VersionPattern :=
  let* _ := bump_while is_ascii_whitespace in
  let* _ := bump_if (bs "v") in
  let* _ := parse_epoch_and_initial_release in
  let* _ := parse_rest_of_release fuel in
  let* wildcard := parse_wildcard in
  if wildcard : bool then into_pattern
  else
    let* _ := parse_pre in
    let* _ := parse_post in
    let* _ := parse_dev in
    let* _ := parse_local fuel in
    let* _ := bump_while is_ascii_whitespace in
    let* done := is_done in
    if negb done then
      let* p := gets id in
      pfail (PVersion (UnexpectedEnd (take (p_i p) (p_v p)) (drop (p_i p) (p_v p))))
    else into_pattern.

Definition run {A} (m : P A) (p : Parser) : outcome (result A PatternErrorKind) :=
  match m p with POk a _ => Ret (Ok a) | PErr e => Ret (Err e) | PPanic => Panic end.

Definition general_pattern (version : list Z) : outcome (result VersionPattern PatternErrorKind) :=
  run (parse_pattern_general (S (length version))) (parser_new version).

(** [VersionPattern::from_str]: [Parser::new(version).parse_pattern()] *)
Definition parse_pattern (version : list Z) : outcome (result VersionPattern PatternErrorKind) :=
  match parse_fast version with
  | Some vpat => Ret (Ok vpat)
  | None => general_pattern version
  end.

(** [Version::from_str]: [Parser::new(version).parse()] *)
Definition version_from_str (version : list Z) : outcome (result Version ErrorKind) :=
  let! r := parse_pattern version in
  Ret (match r with
       | Ok vpat => if vp_wildcard vpat then Err Wildcard else Ok (vp_version vpat)
       | Err (PVersion err) => Err err
       | Err WildcardNotTrailing => Err Wildcard
       end).

(** ** Numbers: lemmas *)

Lemma parse_u64_loop_digits all ds n : Forall (fun b => is_ascii_digit b = true) ds -> 0 <= n ->
  parse_u64_loop all ds n =
  if decimal_from n ds <=? u64_max then Ok (decimal_from n ds)
  else match ds with [] => Ok n | _ => Err (NumberTooBig all) end.
Proof.
  intros Hds. revert n. induction Hds as [|b ds Hb Hds IH]; intros n Hn.
  - simpl. by destruct (n <=? u64_max).
  - unfold is_ascii_digit in Hb. bool_norm. cbn [parse_u64_loop]. unfold checked_sub.
    destruct (Z.leb_spec 48 b); [|lia]. destruct (Z.ltb_spec 9 (b - 48)); [lia|].
    assert (Hmono : forall m k, 0 <= k -> Forall (fun b => is_ascii_digit b = true) m ->
              k <= decimal_from k m).
    { intros m. induction m as [|c m IHm]; intros k Hk Hm; [simpl; lia|]. inv Hm.
      unfold is_ascii_digit in *. bool_norm. cbn.
      etrans; [|apply IHm; [lia|done]]. lia. }
    change (decimal_from n (b :: ds)) with (decimal_from (10 * n + (b - 48)) ds).
    pose proof (Hmono ds (10 * n + (b - 48)) ltac:(lia) Hds) as Hm.
    unfold checked_mul, checked_add.
    destruct (Z.leb_spec (n * 10) u64_max).
    + destruct (Z.leb_spec (n * 10 + (b - 48)) u64_max).
      * rewrite IH by lia. replace (n * 10 + (b - 48)) with (10 * n + (b - 48)) by lia.
        destruct (Z.leb_spec (decimal_from (10 * n + (b - 48)) ds) u64_max); [done|].
        destruct ds; [simpl in *; lia|done].
      * destruct (Z.leb_spec (decimal_from (10 * n + (b - 48)) ds) u64_max); [lia|done].
    + destruct (Z.leb_spec (decimal_from (10 * n + (b - 48)) ds) u64_max); [lia|done].
Qed.

Lemma parse_u64_digits ds : Forall (fun b => is_ascii_digit b = true) ds ->
  decimal_from 0 ds <= u64_max -> parse_u64 ds = Ok (decimal_from 0 ds).
Proof.
  intros Hds Hle. unfold parse_u64. rewrite parse_u64_loop_digits by (done || lia).
  by destruct (Z.leb_spec (decimal_from 0 ds) u64_max); [|lia].
Qed.

Lemma parse_u64_loop_range all ds n m : 0 <= n <= u64_max ->
  parse_u64_loop all ds n = Ok m -> 0 <= m <= u64_max.
Proof.
  revert n. induction ds as [|b ds IH]; intros n Hn; cbn [parse_u64_loop]; [by intros [= <-]|].
  unfold checked_sub, checked_mul, checked_add.
  destruct (Z.leb_spec 48 b); [|done]. destruct (9 <? b - 48); [done|].
  destruct (n * 10 <=? u64_max); [|done].
  destruct (Z.leb_spec (n * 10 + (b - 48)) u64_max); [|done]. apply IH. lia.
Qed.

Lemma parse_u64_range ds m : parse_u64 ds = Ok m -> 0 <= m <= u64_max.
Proof. apply parse_u64_loop_range. by unfold u64_max. Qed.

(** Lower-casing does not turn a non-number into a number. *)
Lemma parse_u64_loop_lower all all' ds n :
  (exists e, parse_u64_loop all ds n = Err e) ->
  exists e, parse_u64_loop all' (map to_ascii_lowercase ds) n = Err e.
Proof.
  revert n. induction ds as [|b ds IH]; intros n; cbn [parse_u64_loop map]; [by intros []|].
  unfold to_ascii_lowercase at 1, is_ascii_upper.
  destruct (Z.leb_spec 65 b), (Z.leb_spec b 90); cbn [andb].
  - intros _. unfold checked_sub. destruct (Z.leb_spec 48 (b + 32)); [|lia].
    destruct (Z.ltb_spec 9 (b + 32 - 48)); [|lia]. eauto.
  - destruct (checked_sub b 48); [|eauto]. destruct (9 <? z); [eauto|].
    destruct (checked_mul u64_max n 10); [|eauto]. destruct (checked_add u64_max z0 z); eauto.
  - destruct (checked_sub b 48); [|eauto]. destruct (9 <? z); [eauto|].
    destruct (checked_mul u64_max n 10); [|eauto]. destruct (checked_add u64_max z0 z); eauto.
  - lia.
Qed.

(** A segment as the parser produces it: a number, or lower-case alphanumerics
    that do not form a [u64]. *)
Definition segment_canonical (s : LocalSegment) : bool :=
  match s with
  | LNumber n => u64b n
  | LString s =>
      negb (is_eq (list_cmp Z.compare s []))
      && forallb (fun b => is_ascii_digit b || is_ascii_lower b) s
      && match parse_u64 s with Ok _ => false | Err _ => true end
  end.

Lemma local_segment_canonical first : first <> [] ->
  Forall (fun b => is_ascii_alphanumeric b = true) first ->
  segment_canonical (local_segment first) = true.
Proof.
  intros Hne Hf. unfold local_segment. destruct (parse_u64 first) as [n|e] eqn:E; cbn.
  - apply u64b_iff. by eapply parse_u64_range.
  - destruct (parse_u64_loop_lower first (map to_ascii_lowercase first) first 0) as [e' E']; [eauto|].
    unfold parse_u64. rewrite E', andb_true_r. apply andb_true_intro. split; [by destruct first|].
    apply forallb_forall. intros b Hb%list_elem_of_In. apply list_elem_of_fmap in Hb as (c & -> & Hc).
    rewrite Forall_forall in Hf. specialize (Hf c Hc).
    unfold is_ascii_alphanumeric, to_ascii_lowercase, is_ascii_digit, is_ascii_upper, is_ascii_lower in *.
    destruct ((65 <=? c) && (c <=? 90)) eqn:U; lia.
Qed.

(** ** [ReleaseNumbers]: lemmas *)

Definition release_numbers_ok (r : ReleaseNumbers) : Prop :=
  match r with
  | RInline numbers len => length numbers = 4%nat /\ (len <= 4)%nat
  | RVec _ => True
  end.

Lemma release_numbers_push_spec r n : release_numbers_ok r ->
  exists r', release_numbers_push r n = Ret r' /\ release_numbers_ok r' /\
             release_numbers_as_slice r' = release_numbers_as_slice r ++ [n].
Proof.
  destruct r as [numbers len|numbers]; cbn; [|by eauto].
  intros [Hlen Hle]. rewrite (proj2 (Nat.leb_le _ _)) by done. cbn.
  destruct (Nat.eqb_spec len 4) as [->|Hne].
  - eexists. split; [done|]. split; [done|]. by rewrite take_ge by lia.
  - eexists. split; [done|]. cbn. split; [rewrite length_insert; lia|].
    rewrite Nat.add_1_r, (take_S_r _ _ n).
    + by rewrite take_insert_ge by lia.
    + apply list_lookup_insert_eq. lia.
Qed.

(** ** Partial-correctness-free reasoning: [wp m Q p] says that [m] does not
    panic from [p] and that [Q] holds if it returns a value. *)

Definition wp {A} (m : P A) (Q : A -> Parser -> Prop) (p : Parser) : Prop :=
  match m p with POk a p' => Q a p' | PErr _ => True | PPanic => False end.

Lemma wp_bind {A B} (m : P A) (k : A -> P B) Q p :
  wp m (fun a => wp (k a) Q) p -> wp (pbind m k) Q p.
Proof. unfold wp, pbind. by destruct (m p). Qed.

Lemma wp_conseq {A} (m : P A) (Q R : A -> Parser -> Prop) p :
  wp m Q p -> (forall a p', Q a p' -> R a p') -> wp m R p.
Proof. unfold wp. destruct (m p); auto. Qed.

Lemma wp_step {A B} (m : P A) (k : A -> P B) Q R p :
  wp m R p -> (forall a p', R a p' -> wp (k a) Q p') -> wp (pbind m k) Q p.
Proof. intros H1 H2. apply wp_bind. by eapply wp_conseq. Qed.

Lemma wp_gets {A} (f : Parser -> A) (Q : A -> Parser -> Prop) p : Q (f p) p -> wp (gets f) Q p.
Proof. done. Qed.
Lemma wp_modify f (Q : unit -> Parser -> Prop) p : Q tt (f p) -> wp (modify f) Q p.
Proof. done. Qed.
Lemma wp_ret {A} (a : A) (Q : A -> Parser -> Prop) p : Q a p -> wp (pret a) Q p.
Proof. done. Qed.
Lemma wp_fail {A} e (Q : A -> Parser -> Prop) p : wp (pfail e) Q p.
Proof. done. Qed.

#[export] Hint Resolve wp_ret wp_fail wp_modify wp_gets : uv.

(** The position stays inside the input. *)
Definition in_range (p : Parser) : Prop := (p_i p <= length (p_v p))%nat.

(** [p'] is [p] moved forward. *)
Definition moved (p p' : Parser) : Prop :=
  exists j, p' = set_i j p /\ (p_i p <= j <= length (p_v p))%nat.

Lemma moved_refl p : in_range p -> moved p p.
Proof. intros H. exists (p_i p). split; [by destruct p|]. unfold in_range in H. lia. Qed.

Lemma moved_trans p q r : moved p q -> moved q r -> moved p r.
Proof. intros (j & -> & Hj) (k & -> & Hk). exists k. cbn in *. split; [done|lia]. Qed.

Lemma moved_in_range p q : moved p q -> in_range q.
Proof. intros (j & -> & Hj). unfold in_range. cbn. lia. Qed.

Lemma rest_of_input_run p : in_range p -> rest_of_input p = POk (drop (p_i p) (p_v p)) p.
Proof.
  intros H. unfold rest_of_input, pbind, gets, plift, id.
  by rewrite (proj2 (Nat.leb_le _ _)) by done.
Qed.

Lemma wp_rest_of_input (Q : list Z -> Parser -> Prop) p :
  in_range p -> Q (drop (p_i p) (p_v p)) p -> wp rest_of_input Q p.
Proof. intros H HQ. unfold wp. by rewrite rest_of_input_run. Qed.

Lemma take_while_length {A} (f : A -> bool) l : (length (take_while f l) <= length l)%nat.
Proof. induction l as [|x l IH]; simpl; [lia|]. destruct (f x); simpl; lia. Qed.

Lemma bump_while_spec f p : in_range p ->
  wp (bump_while f) (fun taken p' => moved p p' /\ taken = take_while f (drop (p_i p) (p_v p)) /\
                       p_i p' = (p_i p + length taken)%nat) p.
Proof.
  intros H. unfold bump_while. apply wp_bind, wp_rest_of_input; [done|].
  apply wp_bind, wp_modify, wp_ret. split; [|done].
  eexists. split; [done|]. pose proof (take_while_length f (drop (p_i p) (p_v p))) as L.
  rewrite length_drop in L. unfold in_range in H. lia.
Qed.

Lemma starts_with_length s l : starts_with_ignore_ascii_case s l = true -> (length s <= length l)%nat.
Proof. unfold starts_with_ignore_ascii_case. intros [H _]%andb_prop. by apply Nat.leb_le. Qed.

Lemma bump_if_spec s p : in_range p ->
  wp (bump_if s) (fun b p' => moved p p' /\
     p_i p' = (if b : bool then p_i p + length s else p_i p)%nat) p.
Proof.
  intros H. unfold bump_if. apply wp_bind, wp_gets.
  destruct (Nat.leb_spec (length (p_v p)) (p_i p)); [by apply wp_ret; split; [apply moved_refl|]|].
  apply wp_bind, wp_rest_of_input; [done|].
  destruct (starts_with_ignore_ascii_case s _) eqn:E; [|by apply wp_ret; split; [apply moved_refl|]].
  apply wp_bind, wp_modify, wp_ret. split; [|done]. eexists. split; [done|].
  apply starts_with_length in E. rewrite length_drop in E. lia.
Qed.

Lemma bump_if_byte_set_spec set p : in_range p ->
  wp (bump_if_byte_set set) (fun o p' => moved p p' /\ (o <> None -> p_i p < p_i p')%nat) p.
Proof.
  intros H. unfold bump_if_byte_set. apply wp_bind, wp_rest_of_input; [done|].
  destruct (drop (p_i p) (p_v p)) as [|b l] eqn:E; cbn [byteset_starts_with];
    [by apply wp_ret; split; [apply moved_refl|]|].
  destruct (set b); [|by apply wp_ret; split; [apply moved_refl|]].
  apply wp_bind, wp_modify, wp_ret. split; [|cbn; lia]. eexists. split; [done|].
  apply (f_equal length) in E. rewrite length_drop in E. simpl in E. lia.
Qed.

Lemma find_prefix_spec strings b l i j : find_prefix strings b l i = Some j ->
  exists s, strings !! (j - i)%nat = Some s /\ starts_with_ignore_ascii_case s l = true /\ (i <= j)%nat.
Proof.
  revert i. induction strings as [|s strings IH]; intros i; cbn [find_prefix]; [done|].
  destruct (_ && _) eqn:E.
  - intros [= ->]. rewrite Nat.sub_diag. apply andb_prop in E as [_ E]. eauto.
  - intros (s' & Hs & Hp & Hij)%IH. exists s'. split; [|split; [done|lia]].
    by replace (j - i)%nat with (S (j - S i)) by lia.
Qed.

Lemma bump_if_string_set_spec set p : in_range p ->
  wp (bump_if_string_set set) (fun o p' => moved p p' /\
    forall j, o = Some j -> (j < length (ss_strings set))%nat) p.
Proof.
  intros H. unfold bump_if_string_set. apply wp_bind, wp_rest_of_input; [done|].
  destruct (stringset_starts_with set _) as [j|] eqn:E; [|by apply wp_ret; split; [apply moved_refl|]].
  unfold stringset_starts_with in E. destruct (byteset_starts_with _ _) as [b|]; [|done].
  apply find_prefix_spec in E as (s & Hs & Hp & _). rewrite Nat.sub_0_r in Hs. rewrite Hs.
  apply starts_with_length in Hp. rewrite length_drop in Hp.
  apply wp_bind. cbn. split.
  - eexists. split; [done|]. unfold in_range in H. lia.
  - intros ? [= <-]. by eapply lookup_lt_Some.
Qed.

Lemma reset_spec o p : (o <= length (p_v p))%nat ->
  wp (reset o) (fun _ p' => p' = set_i o p) p.
Proof.
  intros H. unfold reset. apply wp_bind, wp_gets. apply wp_bind.
  unfold wp, plift, assert. by rewrite (proj2 (Nat.leb_le _ _)) by done.
Qed.

Lemma parse_number_spec p : in_range p ->
  wp parse_number (fun o p' => moved p p' /\ forall n, o = Some n -> 0 <= n < u64_max) p.
Proof.
  intros H. unfold parse_number. eapply wp_step; [by apply bump_while_spec|].
  intros ds p' (Hm & _ & _). destruct ds as [|d ds]; [by apply wp_ret|].
  apply wp_bind. unfold ptry. destruct (parse_u64 (d :: ds)) as [n|e] eqn:E; [|by apply wp_fail].
  apply parse_u64_range in E. apply wp_ret.
  destruct (Z.eqb_spec n u64_max); [by apply wp_fail|]. apply wp_ret. split; [done|].
  intros ? [= <-]. lia.
Qed.

(** ** The invariant of the parser *)

Record pinv (p : Parser) : Prop := {
  pi_range : in_range p;
  pi_release_ok : release_numbers_ok (p_release p);
  pi_release : Forall (fun x => 0 <= x < u64_max) (release_numbers_as_slice (p_release p));
  pi_epoch : 0 <= p_epoch p < u64_max;
  pi_pre : forall x, p_pre p = Some x -> 0 <= pre_number x < u64_max;
  pi_post : forall n, p_post p = Some n -> 0 <= n < u64_max;
  pi_dev : forall n, p_dev p = Some n -> 0 <= n < u64_max;
  pi_local : Forall (fun s => segment_canonical s = true) (p_local p);
}.

(** What every component parser guarantees: the invariant, the same input, a
    position at least where it was, and no release segment lost. *)
Definition advanced (p p' : Parser) : Prop :=
  pinv p' /\ p_v p' = p_v p /\ (p_i p <= p_i p')%nat /\
  (release_numbers_as_slice (p_release p) <> [] -> release_numbers_as_slice (p_release p') <> []).

Lemma advanced_refl p : pinv p -> advanced p p.
Proof. done. Qed.

Lemma advanced_trans p q r : advanced p q -> advanced q r -> advanced p r.
Proof. intros (?&E&?&?) (?&E'&?&?). split; [done|]. rewrite E', E. split; [done|]. split; [lia|auto]. Qed.

Lemma pinv_set_i j p : pinv p -> (j <= length (p_v p))%nat -> pinv (set_i j p).
Proof. intros [] H. by split. Qed.

Lemma moved_advanced p p' : pinv p -> moved p p' -> advanced p p'.
Proof.
  intros Hp (j & -> & Hj). split; [apply pinv_set_i; [done|lia]|]. cbn. split; [done|].
  split; [lia|done].
Qed.

Lemma parser_new_inv v : pinv (parser_new v).
Proof.
  split; cbn; unfold in_range, u64_max; cbn; try done; lia.
Qed.

Lemma pre_map_total j : (j < length (ss_strings PRE_SPELLINGS))%nat -> exists k, PRE_MAP !! j = Some k.
Proof. intros H. by apply lookup_lt_is_Some_2. Qed.

Lemma push_number_spec n p : pinv p -> 0 <= n < u64_max ->
  wp (push_number n) (fun _ p' => advanced p p' /\
    release_numbers_as_slice (p_release p') <> [] /\ p_i p' = p_i p) p.
Proof.
  intros Hp Hn. destruct (release_numbers_push_spec (p_release p) n (pi_release_ok _ Hp))
    as (r' & E & Hok & Hs).
  unfold wp, push_number, pbind, gets, plift. rewrite E. cbn.
  assert (Hne : release_numbers_as_slice r' <> []) by (rewrite Hs; by intros [_ ?]%app_nil).
  split; [|done]. split; [|by split]. destruct Hp. split; try done. cbn. rewrite Hs.
  apply Forall_app. split; [done|]. by apply Forall_singleton.
Qed.

Lemma parse_epoch_spec p : pinv p ->
  wp parse_epoch_and_initial_release (fun _ p' => advanced p p' /\
    release_numbers_as_slice (p_release p') <> []) p.
Proof.
  intros Hp. unfold parse_epoch_and_initial_release.
  eapply wp_step; [by apply parse_number_spec, pi_range|]. intros o p1 [M1 Hn].
  destruct o as [n|]; [|by apply wp_bind]. specialize (Hn n eq_refl). apply wp_bind. cbn [ok_or].
  apply wp_ret. pose proof (moved_advanced _ _ Hp M1) as A1.
  eapply wp_step; [by apply bump_if_spec, (moved_in_range _ _ M1)|]. intros bang p2 [M2 _].
  pose proof (advanced_trans _ _ _ A1 (moved_advanced _ _ (proj1 A1) M2)) as A2.
  apply (wp_step _ _ _ (fun m p' => advanced p p' /\ 0 <= m < u64_max)).
  - destruct bang; [|by apply wp_ret].
    apply wp_bind, wp_modify. set (p3 := set_epoch n p2).
    assert (A3 : advanced p p3). { destruct A2 as [[] ?]. split; [by split|done]. }
    eapply wp_step; [by apply parse_number_spec, pi_range, (proj1 A3)|]. intros o p4 [M4 Hm].
    destruct o as [m|]; [|done]. apply wp_ret. split; [|by apply Hm].
    exact (advanced_trans _ _ _ A3 (moved_advanced _ _ (proj1 A3) M4)).
  - intros m p3 [A3 Hm]. eapply wp_conseq; [apply push_number_spec; [apply A3|done]|].
    intros _ p4 (A4 & Hne & _). split; [by eapply advanced_trans|done].
Qed.

Lemma parse_rest_of_release_spec fuel p : pinv p -> (length (p_v p) - p_i p < fuel)%nat ->
  wp (parse_rest_of_release fuel) (fun _ p' => advanced p p') p.
Proof.
  revert p. induction fuel as [|f IH]; intros p Hp Hf; [lia|]. cbn [parse_rest_of_release].
  eapply wp_step; [by apply bump_if_spec, pi_range|]. intros dot p1 [M1 Hi1].
  pose proof (moved_advanced _ _ Hp M1) as A1. destruct dot; [|by apply wp_ret].
  cbn in Hi1. eapply wp_step; [by apply parse_number_spec, pi_range, (proj1 A1)|].
  intros o p2 [M2 Hn]. pose proof (advanced_trans _ _ _ A1 (moved_advanced _ _ (proj1 A1) M2)) as A2.
  assert (Hi2 : (p_i p1 <= p_i p2)%nat) by (destruct M2 as (j & -> & ?); cbn; lia).
  destruct o as [n|].
  - eapply wp_step; [apply push_number_spec; [apply A2|by apply Hn]|]. intros _ p3 (A3 & _ & Hi3).
    pose proof (advanced_trans _ _ _ A2 A3) as A3'.
    eapply wp_conseq; [apply IH; [apply A3|]|].
    + destruct A3' as (I3 & -> & _ & _). destruct M1 as (j & -> & Hj). cbn in *. lia.
    + intros ? p4 A4. by eapply advanced_trans.
  - unfold unbump. apply wp_bind, wp_gets. destruct (p_i p2) as [|i] eqn:Ei; [lia|].
    apply wp_modify. destruct A2 as (I2 & Ev & Hle & Hr). split; [|split; [done|split; [cbn; lia|done]]].
    apply pinv_set_i; [done|]. pose proof (pi_range _ I2) as R. unfold in_range in R. lia.
Qed.

(** [parse_pre], [parse_post] and [parse_dev] either restore the position or
    set their component. *)
Lemma reset_advanced p p1 : pinv p -> moved p p1 ->
  wp (reset (p_i p)) (fun _ p' => advanced p p') p1.
Proof.
  intros Hp (j & -> & Hj). eapply wp_conseq; [apply reset_spec; cbn; lia|]. intros _ ? ->.
  split; [|cbn; split; [done|split; [lia|done]]]. change (set_i (p_i p) (set_i j p)) with (set_i (p_i p) p).
  apply pinv_set_i; [done|lia].
Qed.

Lemma default_below (o : option Z) : (forall n, o = Some n -> 0 <= n < u64_max) ->
  0 <= default 0 o < u64_max.
Proof. intros H. destruct o as [n|]; [by apply H|]. cbn. by unfold u64_max. Qed.

Lemma parse_pre_spec p : pinv p -> wp parse_pre (fun _ p' => advanced p p') p.
Proof.
  intros Hp. unfold parse_pre. apply wp_bind, wp_gets.
  eapply wp_step; [by apply bump_if_byte_set_spec, pi_range|]. intros _ p1 [M1 _].
  eapply wp_step; [by apply bump_if_string_set_spec, (moved_in_range _ _ M1)|].
  intros o p2 [M2 Ho]. pose proof (moved_trans _ _ _ M1 M2) as M12.
  destruct o as [j|]; [|by apply reset_advanced].
  destruct (pre_map_total j) as [k E]; [by apply Ho|]. rewrite E. apply wp_bind. cbn.
  eapply wp_step; [by apply bump_if_byte_set_spec, (moved_in_range _ _ M12)|]. intros _ p3 [M3 _].
  pose proof (moved_trans _ _ _ M12 M3) as M123.
  eapply wp_step; [by apply parse_number_spec, (moved_in_range _ _ M123)|]. intros n p4 [M4 Hn].
  apply wp_modify. destruct (moved_advanced _ _ Hp (moved_trans _ _ _ M123 M4)) as [[] ?].
  split; [split; try done|done]. cbn. intros x [= <-]. by apply default_below.
Qed.

Lemma parse_post_spelled_spec p p0 : pinv p -> moved p p0 ->
  wp (parse_post_spelled (p_i p)) (fun _ p' => advanced p p') p0.
Proof.
  intros Hp M0. unfold parse_post_spelled.
  eapply wp_step; [by apply bump_if_byte_set_spec, (moved_in_range _ _ M0)|]. intros _ p1 [M1 _].
  pose proof (moved_trans _ _ _ M0 M1) as M01.
  eapply wp_step; [by apply bump_if_string_set_spec, (moved_in_range _ _ M01)|].
  intros o p2 [M2 _]. pose proof (moved_trans _ _ _ M01 M2) as M12.
  destruct o as [j|]; [|by apply reset_advanced].
  eapply wp_step; [by apply bump_if_byte_set_spec, (moved_in_range _ _ M12)|]. intros _ p3 [M3 _].
  pose proof (moved_trans _ _ _ M12 M3) as M123.
  eapply wp_step; [by apply parse_number_spec, (moved_in_range _ _ M123)|]. intros n p4 [M4 Hn].
  apply wp_modify. destruct (moved_advanced _ _ Hp (moved_trans _ _ _ M123 M4)) as [[] ?].
  split; [split; try done|done]. cbn. intros x [= <-]. by apply default_below.
Qed.

Lemma parse_post_spec p : pinv p -> wp parse_post (fun _ p' => advanced p p') p.
Proof.
  intros Hp. unfold parse_post. apply wp_bind, wp_gets.
  eapply wp_step; [by apply bump_if_spec, pi_range|]. intros dash p1 [M1 _].
  destruct dash; [|by apply parse_post_spelled_spec].
  eapply wp_step; [by apply parse_number_spec, (moved_in_range _ _ M1)|]. intros o p2 [M2 Hn].
  pose proof (moved_trans _ _ _ M1 M2) as M12. destruct o as [n|].
  - apply wp_modify. destruct (moved_advanced _ _ Hp M12) as [[] ?].
    by split; [split|].
  - destruct M12 as (j & -> & Hj).
    eapply wp_step; [apply reset_spec; cbn; lia|]. intros ? ? ->.
    apply parse_post_spelled_spec; [done|]. exists (p_i p). split; [done|lia].
Qed.

Lemma parse_dev_spec p : pinv p -> wp parse_dev (fun _ p' => advanced p p') p.
Proof.
  intros Hp. unfold parse_dev. apply wp_bind, wp_gets.
  eapply wp_step; [by apply bump_if_byte_set_spec, pi_range|]. intros _ p1 [M1 _].
  eapply wp_step; [by apply bump_if_spec, (moved_in_range _ _ M1)|]. intros dev p2 [M2 _].
  pose proof (moved_trans _ _ _ M1 M2) as M12. destruct dev; [|by apply reset_advanced].
  cbn [negb]. eapply wp_step; [by apply bump_if_byte_set_spec, (moved_in_range _ _ M12)|].
  intros _ p3 [M3 _]. pose proof (moved_trans _ _ _ M12 M3) as M123.
  eapply wp_step; [by apply parse_number_spec, (moved_in_range _ _ M123)|]. intros n p4 [M4 Hn].
  apply wp_modify. destruct (moved_advanced _ _ Hp (moved_trans _ _ _ M123 M4)) as [[] ?].
  split; [split; try done|done]. cbn. intros x [= <-]. by apply default_below.
Qed.

Lemma parse_local_loop_spec fuel c p : pinv p -> (length (p_v p) - p_i p < fuel)%nat ->
  wp (parse_local_loop fuel c) (fun _ p' => advanced p p') p.
Proof.
  revert c p. induction fuel as [|f IH]; intros c p Hp Hf; [lia|]. cbn [parse_local_loop].
  eapply wp_step; [by apply bump_while_spec, pi_range|]. intros first p1 (M1 & Ef & Hi1).
  pose proof (moved_advanced _ _ Hp M1) as A1.
  destruct first as [|b first]; [by apply wp_fail|]. apply wp_bind, wp_modify.
  set (p2 := set_local _ p1).
  assert (A2 : advanced p p2).
  { destruct A1 as [[] ?]. split; [split; try done|done]. cbn. apply Forall_app. split; [done|].
    repeat constructor. apply local_segment_canonical; [done|]. rewrite Ef. apply take_while_all. }
  eapply wp_step; [by apply bump_if_byte_set_spec, pi_range, (proj1 A2)|]. intros o p3 [M3 Hi3].
  pose proof (advanced_trans _ _ _ A2 (moved_advanced _ _ (proj1 A2) M3)) as A3.
  destruct o as [b'|]; [|by apply wp_ret].
  eapply wp_conseq; [apply IH; [apply A3|]|].
  - destruct A3 as (I3 & Ev & _). specialize (Hi3 ltac:(done)). change (p_i p2) with (p_i p1) in Hi3.
    pose proof (pi_range _ I3) as R. unfold in_range in R. rewrite Ev in *. lia.
  - intros ? p4 A4. by eapply advanced_trans.
Qed.

Lemma parse_local_spec fuel p : pinv p -> (length (p_v p) < fuel)%nat ->
  wp (parse_local fuel) (fun _ p' => advanced p p') p.
Proof.
  intros Hp Hf. unfold parse_local. eapply wp_step; [by apply bump_if_spec, pi_range|].
  intros plus p1 [M1 _]. pose proof (moved_advanced _ _ Hp M1) as A1.
  destruct plus; cbn [negb]; [|by apply wp_ret].
  eapply wp_conseq; [apply parse_local_loop_spec; [apply A1|]|].
  - destruct A1 as (_ & -> & _). lia.
  - intros ? p2 A2. by eapply advanced_trans.
Qed.

(** ** The result of a parse *)

(** Versions as the parser produces them. *)
Definition full_canonical (f : VersionFull) : bool :=
  full_real f
  && match f_local f with Segments l => forallb segment_canonical l | LMax => false end.

Definition canonical (v : Version) : bool := version_ok v && full_canonical (make_full v).

Lemma canonical_real v : canonical v = true -> real v = true.
Proof.
  unfold canonical, real, full_canonical. intros [H1 [H2 _]%andb_prop]%andb_prop. by rewrite H1, H2.
Qed.

Definition parsed_full (p : Parser) : VersionFull :=
  mkFull (p_epoch p) (release_numbers_as_slice (p_release p)) (p_pre p) (p_post p) (p_dev p)
         (Segments (p_local p)) None None.

Lemma Forall_below_nonneg l : Forall (fun x => 0 <= x < u64_max) l -> Forall (fun x => 0 <= x) l.
Proof. intros H. eapply Forall_impl; [exact H|]. simpl. lia. Qed.

Lemma into_pattern_run p : pinv p -> release_numbers_as_slice (p_release p) <> [] ->
  exists v, into_pattern p = POk (mkPattern v (p_wildcard p)) p /\
            make_full v = parsed_full p /\ version_ok v = true.
Proof.
  intros Hp Hne. unfold into_pattern, pbind, gets, id, plift, pret.
  destruct (version_new_view (release_numbers_as_slice (p_release p))) as (v0 & -> & V0 & O0);
    [by apply Forall_below_nonneg, pi_release|done|].
  assert (Nat.ltb 0 (length (release_numbers_as_slice (p_release p))) = true) as ->.
  { apply Nat.ltb_lt. destruct (release_numbers_as_slice (p_release p)); [done|simpl; lia]. }
  cbn [assert].
  destruct (with_epoch_view v0 (p_epoch p) O0) as [V1 O1].
  destruct (with_pre_view (with_epoch v0 (p_epoch p)) (p_pre p) O1) as [V2 O2].
  { intros x E. pose proof (pi_pre _ Hp _ E). lia. }
  destruct (with_post_view (with_pre (with_epoch v0 (p_epoch p)) (p_pre p)) (p_post p) O2) as [V3 O3].
  { intros x E. pose proof (pi_post _ Hp _ E). lia. }
  destruct (with_dev_view _ (p_dev p) O3) as [V4 O4].
  { intros x E. pose proof (pi_dev _ Hp _ E). lia. }
  destruct (with_local_view _ (Segments (p_local p)) O4) as [V5 O5].
  eexists. split; [done|]. split; [|exact O5]. by rewrite V5, V4, V3, V2, V1, V0.
Qed.

Lemma parsed_full_canonical p : pinv p -> release_numbers_as_slice (p_release p) <> [] ->
  full_canonical (parsed_full p) = true.
Proof.
  intros [? ? Hr He Hpre Hpost Hdev Hl] Hne.
  unfold full_canonical, full_real, parsed_full. cbn [f_epoch f_release f_pre f_post f_dev f_local f_min f_max].
  rewrite (proj2 (below_max_iff _) He).
  assert (forallb below_max (release_numbers_as_slice (p_release p)) = true) as ->.
  { apply forallb_Forall. eapply Forall_impl; [exact Hr|]. intros x. by apply below_max_iff. }
  assert (is_eq (list_cmp Z.compare (release_numbers_as_slice (p_release p)) []) = false) as ->
    by (by destruct (release_numbers_as_slice (p_release p))).
  assert ((match p_pre p with Some p0 => below_max (pre_number p0) | None => true end) = true) as ->.
  { destruct (p_pre p); [|done]. by apply below_max_iff, Hpre. }
  assert (opt_all below_max (p_post p) = true) as ->.
  { destruct (p_post p); [|done]. by apply below_max_iff, Hpost. }
  assert (opt_all below_max (p_dev p) = true) as ->.
  { destruct (p_dev p); [|done]. by apply below_max_iff, Hdev. }
  cbn [negb andb is_none]. apply andb_true_intro. split; apply forallb_Forall; [|done].
  eapply Forall_impl; [exact Hl|]. by intros [s|n].
Qed.

(** [into_pattern] depends on the parsed components only. *)
Definition rebuild (f : VersionFull) : outcome Version :=
  let! v := version_new (f_release f) in
  Ret (with_local (with_dev (with_post (with_pre (with_epoch v (f_epoch f)) (f_pre f)) (f_post f))
                            (f_dev f)) (f_local f)).

(** No component but epoch and release. *)
Definition plain (f : VersionFull) : bool :=
  is_none (f_pre f) && is_none (f_post f) && is_none (f_dev f) && local_is_empty (f_local f).

(** What the parser promises of a pattern it returns. *)
Definition pattern_ok (vp : VersionPattern) : Prop :=
  canonical (vp_version vp) = true /\
  rebuild (make_full (vp_version vp)) = Ret (vp_version vp) /\
  (vp_wildcard vp = true -> plain (make_full (vp_version vp)) = true).

Definition suffixes (p : Parser) := (p_pre p, p_post p, p_dev p, p_local p).

(** [into_pattern] at the end of a parse. *)
Lemma into_pattern_spec p : pinv p -> release_numbers_as_slice (p_release p) <> [] ->
  (p_wildcard p = true -> suffixes p = (None, None, None, [])) ->
  wp into_pattern (fun vp _ => pattern_ok vp) p.
Proof.
  intros Hp Hne Hw. destruct (into_pattern_run p Hp Hne) as (v & E & V & O).
  unfold wp. rewrite E. unfold pattern_ok, canonical. cbn [vp_version vp_wildcard]. rewrite O, V.
  split; [by apply parsed_full_canonical|]. split.
  - unfold into_pattern, pbind, gets, id, plift, pret in E. unfold rebuild, parsed_full.
    cbn [f_release f_epoch f_pre f_post f_dev f_local].
    destruct (assert _ _); [|done]. destruct (version_new _) as [v0|]; [|done].
    cbn [obind]. by injection E as <-.
  - intros W. specialize (Hw W). unfold suffixes in Hw. injection Hw as E1 E2 E3 E4.
    unfold plain, parsed_full. cbn. by rewrite E1, E2, E3, E4.
Qed.

(** ** Frames: what a component parser leaves alone *)

Definition frame {A X} (f : Parser -> X) (m : P A) : Prop :=
  forall p a p', m p = POk a p' -> f p' = f p.

Section frames.
Context {X : Type} (f : Parser -> X).

Lemma frame_bind {A B} (m : P A) (k : A -> P B) :
  frame f m -> (forall a, frame f (k a)) -> frame f (pbind m k).
Proof.
  intros Hm Hk p b p'. unfold pbind. destruct (m p) as [a q| |] eqn:E; [|done|done].
  intros H. rewrite (Hk a q b p' H). by eapply Hm.
Qed.

Lemma frame_pret {A} (a : A) : frame f (pret a).
Proof. by intros p b p' [= _ <-]. Qed.
Lemma frame_pfail {A} e : frame f (@pfail A e).
Proof. done. Qed.
Lemma frame_gets {A} (g : Parser -> A) : frame f (gets g).
Proof. by intros p b p' [= _ <-]. Qed.
Lemma frame_plift {A} (m : outcome A) : frame f (plift m).
Proof. intros p b p'. unfold plift. by destruct m; [intros [= _ <-]|]. Qed.
Lemma frame_ptry {A} (r : result A ErrorKind) : frame f (ptry r).
Proof. destruct r; [apply frame_pret|apply frame_pfail]. Qed.
Lemma frame_ok_or {A} e (o : option A) : frame f (ok_or e o).
Proof. destruct o; [apply frame_pret|apply frame_pfail]. Qed.
Lemma frame_modify g : (forall p, f (g p) = f p) -> frame f (modify g).
Proof. intros H p b p' [= _ <-]. apply H. Qed.

Lemma frame_wp {A} (m : P A) Q p : frame f m -> wp m Q p -> wp m (fun a p' => Q a p' /\ f p' = f p) p.
Proof. intros Hf. unfold wp. specialize (Hf p). destruct (m p); [|done|done]. eauto. Qed.
End frames.

#[export] Hint Resolve frame_pret frame_pfail frame_gets frame_plift frame_ptry frame_ok_or : uv.

(** Frames of a composite parser, by its structure. *)
Ltac frame_tac :=
  repeat first
    [ progress cbv zeta
    | simple apply frame_bind; [|intros ?]
    | progress auto with uv
    | simple apply frame_modify; intros ?; reflexivity
    | match goal with |- frame _ (match ?x with _ => _ end) => destruct x end
    | match goal with |- frame _ (if ?x then _ else _) => destruct x end ].

Lemma frame_bump_while {X} (f : Parser -> X) g : (forall i p, f (set_i i p) = f p) -> frame f (bump_while g).
Proof. intros H. unfold bump_while, rest_of_input. frame_tac. by apply frame_modify. Qed.
Lemma frame_bump_if {X} (f : Parser -> X) s : (forall i p, f (set_i i p) = f p) -> frame f (bump_if s).
Proof. intros H. unfold bump_if, is_done, rest_of_input. frame_tac. by apply frame_modify. Qed.
Lemma frame_bump_set {X} (f : Parser -> X) s : (forall i p, f (set_i i p) = f p) -> frame f (bump_if_byte_set s).
Proof. intros H. unfold bump_if_byte_set, rest_of_input. frame_tac. by apply frame_modify. Qed.
Lemma frame_bump_strings {X} (f : Parser -> X) s : (forall i p, f (set_i i p) = f p) -> frame f (bump_if_string_set s).
Proof. intros H. unfold bump_if_string_set, rest_of_input. frame_tac. by apply frame_modify. Qed.
Lemma frame_reset {X} (f : Parser -> X) o : (forall i p, f (set_i i p) = f p) -> frame f (reset o).
Proof. intros H. unfold reset. frame_tac. by apply frame_modify. Qed.
Lemma frame_parse_number {X} (f : Parser -> X) : (forall i p, f (set_i i p) = f p) -> frame f parse_number.
Proof. intros H. unfold parse_number. frame_tac. by apply frame_bump_while. Qed.

#[export] Hint Resolve frame_bump_while frame_bump_if frame_bump_set frame_bump_strings frame_reset
  frame_parse_number : uv.

Lemma parse_wildcard_spec p : pinv p ->
  wp parse_wildcard (fun _ p' => advanced p p') p.
Proof.
  intros Hp. unfold parse_wildcard. eapply wp_step; [by apply bump_if_spec, pi_range|].
  intros star p1 [M1 _]. pose proof (moved_advanced _ _ Hp M1) as A1.
  destruct star; [|by apply wp_ret]. cbn [negb]. apply wp_bind, wp_gets.
  destruct (Nat.leb _ _); [|by apply wp_fail]. cbn [negb]. apply wp_bind, wp_modify, wp_ret.
  destruct A1 as [[] ?]. by split; [split|].
Qed.

(** Sequencing a component parser after [p]. *)
Lemma wp_advance {A B} (m : P A) (k : A -> P B) Q p0 p :
  advanced p0 p -> wp m (fun _ p' => advanced p p') p ->
  (forall a p', advanced p0 p' -> wp (k a) Q p') -> wp (pbind m k) Q p.
Proof.
  intros H Hm Hk. eapply wp_step; [exact Hm|]. intros a p' H'. apply Hk. by eapply advanced_trans.
Qed.

Lemma bump_while_advanced f p : pinv p -> wp (bump_while f) (fun _ p' => advanced p p') p.
Proof.
  intros Hp. eapply wp_conseq; [by apply bump_while_spec, pi_range|].
  intros ? ? [M _]. by apply moved_advanced.
Qed.

Lemma bump_if_advanced s p : pinv p -> wp (bump_if s) (fun _ p' => advanced p p') p.
Proof.
  intros Hp. eapply wp_conseq; [by apply bump_if_spec, pi_range|].
  intros ? ? [M _]. by apply moved_advanced.
Qed.

Lemma frame_release {X} (f : Parser -> X) fuel : (forall i p, f (set_i i p) = f p) ->
  (forall r p, f (set_release r p) = f p) -> frame f (parse_rest_of_release fuel).
Proof.
  intros H1 H2. induction fuel as [|n IH]; cbn [parse_rest_of_release]; [auto with uv|].
  unfold push_number, unbump. frame_tac; by apply frame_modify.
Qed.

Lemma frame_epoch {X} (f : Parser -> X) : (forall i p, f (set_i i p) = f p) ->
  (forall r p, f (set_release r p) = f p) -> (forall e p, f (set_epoch e p) = f p) ->
  frame f parse_epoch_and_initial_release.
Proof.
  intros H1 H2 H3. unfold parse_epoch_and_initial_release, push_number. frame_tac; by apply frame_modify.
Qed.

Lemma frame_suffixes :
  frame p_wildcard parse_pre /\ frame p_wildcard parse_post /\ frame p_wildcard parse_dev /\
  (forall fuel, frame p_wildcard (parse_local fuel)).
Proof.
  unfold parse_pre, parse_post, parse_post_spelled, parse_dev. split; [frame_tac|]. split; [frame_tac|].
  split; [frame_tac|]. intros fuel. unfold parse_local. frame_tac. generalize 43.
  induction fuel as [|n IH]; intros c; cbn [parse_local_loop]; frame_tac.
Qed.

Lemma parse_wildcard_false p p' : parse_wildcard p = POk false p' -> p_wildcard p' = p_wildcard p.
Proof.
  unfold parse_wildcard. intros E.
  assert (F : frame p_wildcard (bump_if (bs ".*"))) by auto with uv.
  unfold pbind at 1 in E. destruct (bump_if (bs ".*") p) as [b q| |] eqn:Eb; [|done|done].
  destruct b; cbn [negb] in E; [|injection E as <-; by eapply F].
  unfold pbind in E. cbn in E. by destruct (Nat.leb _ _).
Qed.

Lemma frame_wildcard : frame suffixes parse_wildcard.
Proof. unfold parse_wildcard, is_done. frame_tac. Qed.

Lemma parse_wildcard_frame p : pinv p ->
  wp parse_wildcard (fun b p' => advanced p p' /\ suffixes p' = suffixes p /\
                                 (b = false -> p_wildcard p' = p_wildcard p)) p.
Proof.
  intros H. pose proof (parse_wildcard_spec p H) as W. pose proof (frame_wildcard p) as F.
  pose proof (parse_wildcard_false p) as N. unfold wp in *.
  destruct (parse_wildcard p) as [b p'| |]; [|done|done]. split; [done|]. split; [by eapply F|].
  intros ->. by apply N.
Qed.

(** After the release, when there is no wildcard. *)
Lemma pattern_suffix_spec version p3 p5 :
  advanced p3 p5 -> release_numbers_as_slice (p_release p3) <> [] -> p_v p3 = version ->
  p_wildcard p5 = false ->
  wp (let* _ := parse_pre in
      let* _ := parse_post in
      let* _ := parse_dev in
      let* _ := parse_local (S (length version)) in
      let* _ := bump_while is_ascii_whitespace in
      let* done := is_done in
      if negb done then
        let* p := gets id in
        pfail (PVersion (UnexpectedEnd (take (p_i p) (p_v p)) (drop (p_i p) (p_v p))))
      else into_pattern) (fun vp _ => pattern_ok vp) p5.
Proof.
  intros A5 Hne Hv F5. destruct frame_suffixes as (Fpre & Fpost & Fdev & Flocal).
  eapply wp_step; [apply (frame_wp p_wildcard); [done|apply parse_pre_spec, A5]|].
  intros ? p6 [A6 F6]. pose proof (advanced_trans _ _ _ A5 A6) as B6.
  eapply wp_step; [apply (frame_wp p_wildcard); [done|apply parse_post_spec, A6]|].
  intros ? p7 [A7 F7]. pose proof (advanced_trans _ _ _ B6 A7) as B7.
  eapply wp_step; [apply (frame_wp p_wildcard); [done|apply parse_dev_spec, A7]|].
  intros ? p8 [A8 F8]. pose proof (advanced_trans _ _ _ B7 A8) as B8.
  eapply wp_step; [apply (frame_wp p_wildcard); [done|apply parse_local_spec; [apply A8|]]|].
  { destruct B8 as (_ & -> & _). rewrite Hv. lia. }
  intros ? p9 [A9 F9]. pose proof (advanced_trans _ _ _ B8 A9) as B9.
  eapply wp_step; [apply (frame_wp p_wildcard); [by auto with uv|apply bump_while_advanced, A9]|].
  intros ? pa [Aa Fa]. pose proof (advanced_trans _ _ _ B9 Aa) as Ba.
  apply wp_bind, wp_gets. destruct (Nat.leb _ _); cbn [negb]; [|by apply wp_bind].
  apply into_pattern_spec; [apply Ba|by apply Ba|]. by rewrite Fa, F9, F8, F7, F6, F5.
Qed.

Lemma parse_pattern_general_spec version :
  wp (parse_pattern_general (S (length version))) (fun vp _ => pattern_ok vp)
     (parser_new version).
Proof.
  pose proof (parser_new_inv version) as H0. pose proof (advanced_refl _ H0) as A0.
  assert (Hv : forall p', advanced (parser_new version) p' -> p_v p' = version) by (by intros ? (_ & -> & _)).
  unfold parse_pattern_general.
  assert (Hstart : suffixes (parser_new version) = (None, None, None, []) /\
    p_wildcard (parser_new version) = false) by done.
  eapply wp_step; [apply (frame_wp (fun p => (suffixes p, p_wildcard p))); [by auto with uv|by apply bump_while_advanced]|].
  intros ? p1 [A1 F1]. eapply wp_step; [apply (frame_wp (fun p => (suffixes p, p_wildcard p)));
    [by auto with uv|by apply bump_if_advanced, (proj1 A1)]|].
  intros ? p2 [A2 F2]. eapply wp_step; [apply (frame_wp (fun p => (suffixes p, p_wildcard p)));
    [by apply frame_epoch|by apply parse_epoch_spec, (proj1 A2)]|].
  intros ? p3 [[B3 N3] F3]. pose proof (advanced_trans _ _ _ A1 (advanced_trans _ _ _ A2 B3)) as A3.
  pose proof (advanced_refl _ (proj1 B3)) as C3.
  eapply wp_step; [apply (frame_wp (fun p => (suffixes p, p_wildcard p)));
    [by apply frame_release|apply parse_rest_of_release_spec; [apply A3|]]|].
  { rewrite Hv by done. lia. }
  intros ? p4 [A4 F4]. pose proof (advanced_trans _ _ _ C3 A4) as C4.
  assert (F : suffixes p4 = (None, None, None, []) /\ p_wildcard p4 = false).
  { rewrite F3, F2, F1 in F4. split; [exact (f_equal fst F4)|exact (f_equal snd F4)]. }
  eapply wp_step; [apply parse_wildcard_frame, C4|]. intros w p5 (A & Fw & Wf).
  pose proof (advanced_trans _ _ _ C4 A) as A5.
  destruct w; [apply into_pattern_spec; [apply A5|by apply A5|rewrite Fw; tauto]|].
  apply (pattern_suffix_spec version p3); [done|done|by apply Hv|]. rewrite Wf by done. apply F.
Qed.

(** ** Running the parser on a given input

    [at_ p rest]: the unread input is [rest].  The lemmas give the exact result
    of each primitive on an input of a known shape. *)

Definition at_ (p : Parser) (rest : list Z) : Prop :=
  in_range p /\ drop (p_i p) (p_v p) = rest.

Definition adv (n : nat) (p : Parser) : Parser := set_i (p_i p + n)%nat p.

Lemma at_adv p a b : at_ p (a ++ b) -> at_ (adv (length a) p) b.
Proof.
  intros [Hr Hd]. unfold at_, in_range, adv in *. cbn.
  pose proof (f_equal length Hd) as L. rewrite length_drop, length_app in L.
  split; [lia|]. by rewrite <- drop_drop, Hd, drop_app_length.
Qed.

Lemma rest_of_input_at p r : at_ p r -> rest_of_input p = POk r p.
Proof. intros [H <-]. by apply rest_of_input_run. Qed.

Lemma is_done_at p r : at_ p r -> is_done p = POk (match r with [] => true | _ => false end) p.
Proof.
  intros [Hr Hd]. unfold is_done, gets. f_equal. apply (f_equal length) in Hd.
  rewrite length_drop in Hd. unfold in_range in Hr. destruct r; simpl in Hd.
  - apply Nat.leb_le. lia.
  - apply Nat.leb_gt. lia.
Qed.

Lemma bump_while_at f p a b : at_ p (a ++ b) -> Forall (fun x => f x = true) a -> stops f b ->
  bump_while f p = POk a (adv (length a) p).
Proof.
  intros H Ha Hb. unfold bump_while, pbind. rewrite (rest_of_input_at p _ H).
  by rewrite take_while_app.
Qed.

Lemma eq_ignore_ascii_case_refl b : eq_ignore_ascii_case b b = true.
Proof. apply Z.eqb_refl. Qed.

Lemma starts_with_app s r : starts_with_ignore_ascii_case s (s ++ r) = true.
Proof.
  unfold starts_with_ignore_ascii_case. rewrite length_app.
  rewrite (proj2 (Nat.leb_le _ _)) by lia. cbn [andb].
  induction s as [|b s IH]; simpl; [done|]. by rewrite eq_ignore_ascii_case_refl.
Qed.

Lemma bump_if_yes s p r : s <> [] -> at_ p (s ++ r) -> bump_if s p = POk true (adv (length s) p).
Proof.
  intros Hs H. unfold bump_if, pbind. rewrite (is_done_at p _ H).
  destruct s as [|b s]; [done|]. cbn [app]. rewrite (rest_of_input_at p _ H).
  change (b :: s ++ r) with ((b :: s) ++ r). by rewrite starts_with_app.
Qed.

Lemma bump_if_no s p r : at_ p r -> starts_with_ignore_ascii_case s r = false ->
  bump_if s p = POk false p.
Proof.
  intros H Hs. unfold bump_if, pbind. rewrite (is_done_at p _ H). destruct r; [done|].
  rewrite (rest_of_input_at p _ H). by rewrite Hs.
Qed.

(** A literal does not match an input whose first byte differs from its own. *)
Lemma starts_with_head c s r :
  stops (eq_ignore_ascii_case c) r -> starts_with_ignore_ascii_case (c :: s) r = false.
Proof.
  destruct r as [|b r]; [done|]. cbn [stops]. intros E. unfold starts_with_ignore_ascii_case.
  cbn [length combine forallb]. rewrite E. apply andb_false_r.
Qed.

Lemma starts_with_one c b r :
  starts_with_ignore_ascii_case [c] (b :: r) = eq_ignore_ascii_case c b.
Proof. unfold starts_with_ignore_ascii_case. cbn [length combine forallb Nat.leb andb]. apply andb_true_r. Qed.

Lemma eq_ignore_punct c b : is_ascii_upper c || is_ascii_lower c = false ->
  eq_ignore_ascii_case c b = true -> b = c.
Proof.
  unfold eq_ignore_ascii_case, to_ascii_lowercase, is_ascii_upper, is_ascii_lower. intros Hc E.
  destruct ((65 <=? c) && (c <=? 90)) eqn:U1, ((65 <=? b) && (b <=? 90)) eqn:U2; lia.
Qed.

(** A digit matches only itself. *)
Lemma eq_ignore_digit c b : is_ascii_digit c = false -> is_ascii_digit b = true ->
  eq_ignore_ascii_case c b = false.
Proof.
  unfold eq_ignore_ascii_case, to_ascii_lowercase, is_ascii_upper, is_ascii_digit. intros Hc E.
  destruct ((65 <=? c) && (c <=? 90)) eqn:U1, ((65 <=? b) && (b <=? 90)) eqn:U2; lia.
Qed.

Lemma parse_number_some p ds r : at_ p (ds ++ r) -> ds <> [] ->
  Forall (fun b => is_ascii_digit b = true) ds -> stops is_ascii_digit r ->
  decimal_from 0 ds < u64_max ->
  parse_number p = POk (Some (decimal_from 0 ds)) (adv (length ds) p).
Proof.
  intros H Hne Hds Hr Hlt. unfold parse_number. unfold pbind at 1.
  rewrite (bump_while_at _ _ _ _ H Hds Hr). destruct ds as [|d ds]; [done|].
  unfold pbind, ptry. rewrite parse_u64_digits by (done || lia). cbn [pret].
  by destruct (Z.eqb_spec (decimal_from 0 (d :: ds)) u64_max); [lia|].
Qed.

Lemma parse_number_none p r : at_ p r -> stops is_ascii_digit r ->
  parse_number p = POk None p.
Proof.
  intros H Hr. unfold parse_number, pbind at 1.
  rewrite (bump_while_at _ p [] r H) by (done || constructor). cbn. unfold adv.
  rewrite Nat.add_0_r. by destruct p.
Qed.

Lemma push_number_at n p : release_numbers_ok (p_release p) ->
  exists r', push_number n p = POk tt (set_release r' p) /\ release_numbers_ok r' /\
    release_numbers_as_slice r' = release_numbers_as_slice (p_release p) ++ [n].
Proof.
  intros H. destruct (release_numbers_push_spec (p_release p) n H) as (r' & E & Hok & Hs).
  exists r'. unfold push_number, pbind, gets, plift. by rewrite E.
Qed.

(** The text of a release, as segments of digits. *)
Definition release_text (segs : list (list Z)) : list Z :=
  match segs with
  | [] => []
  | s :: segs' => s ++ flat_map (fun s => 46 :: s) segs'
  end.

(** A segment: digits whose value is accepted. *)
Definition segment_text (s : list Z) : Prop :=
  s <> [] /\ Forall (fun b => is_ascii_digit b = true) s /\ decimal_from 0 s < u64_max.

(** What may follow a release: no digit, and no dot followed by a digit. *)
Definition release_end (r : list Z) : Prop :=
  match r with
  | [] => True
  | b :: r' => is_ascii_digit b = false /\ (b = 46 -> stops is_ascii_digit r')
  end.

Lemma release_end_stops r : release_end r -> stops is_ascii_digit r.
Proof. by destruct r; [|intros [? _]]. Qed.

Lemma release_tail_stops segs r : release_end r ->
  stops is_ascii_digit (flat_map (fun s => 46 :: s) segs ++ r).
Proof. intros H. destruct segs; simpl; [by apply release_end_stops|done]. Qed.

Lemma parse_rest_of_release_at segs fuel p r :
  at_ p (flat_map (fun s => 46 :: s) segs ++ r) -> Forall segment_text segs -> release_end r ->
  (length segs < fuel)%nat -> release_numbers_ok (p_release p) ->
  exists r', parse_rest_of_release fuel p =
      POk tt (set_release r' (adv (length (flat_map (fun s => 46 :: s) segs)) p)) /\
    release_numbers_ok r' /\
    release_numbers_as_slice r' = release_numbers_as_slice (p_release p) ++ map (decimal_from 0) segs.
Proof.
  revert fuel p. induction segs as [|s segs IH]; intros fuel p H Hs Hr Hf Hok;
    (destruct fuel as [|f]; [simpl in Hf; lia|]); cbn [parse_rest_of_release];
    change (bs ".") with [46].
  - exists (p_release p). rewrite app_nil_r. split; [|done]. cbn [flat_map app length] in *.
    unfold adv, set_release. rewrite Nat.add_0_r. cbn [set_i p_i].
    transitivity (POk tt p); [|by destruct p].
    unfold pbind at 1. destruct (starts_with_ignore_ascii_case [46] r) eqn:E.
    + destruct r as [|b r]; [done|].
      rewrite starts_with_one in E. apply eq_ignore_punct in E as ->; [|done].
      rewrite (bump_if_yes [46] p r ltac:(done) H). unfold pbind.
      rewrite (parse_number_none _ r (at_adv p [46] r H)) by (by apply Hr).
      unfold unbump, pbind, gets, adv. cbn [p_i set_i length]. rewrite Nat.add_1_r. by destruct p.
    + by rewrite (bump_if_no _ _ _ H E).
  - inv Hs. match goal with H : segment_text s |- _ => destruct H as (Hne & Hd & Hlt) end.
    cbn [flat_map app] in H. rewrite <- app_assoc in H.
    unfold pbind at 1. rewrite (bump_if_yes [46] p _ ltac:(done) H).
    pose proof (at_adv p [46] _ H) as H1. unfold pbind at 1.
    rewrite (parse_number_some _ _ _ H1 Hne Hd (release_tail_stops _ _ Hr) Hlt).
    pose proof (at_adv _ _ _ H1) as H2. unfold pbind at 1.
    change (length [46]) with 1%nat in *.
    destruct (push_number_at (decimal_from 0 s) (adv (length s) (adv 1 p))) as (r1 & -> & Hok1 & Hs1);
      [done|].
    destruct (IH f (set_release r1 (adv (length s) (adv 1 p)))) as (r' & -> & Hok' & Hs');
      [done|done|done|simpl in Hf; lia|done|].
    exists r'. split; [|split; [done|]].
    + f_equal. cbn [flat_map length app]. rewrite length_app. unfold adv, set_release, set_i. cbn.
      f_equal. lia.
    + rewrite Hs'. cbn [p_release set_release]. rewrite Hs1, <- app_assoc. done.
Qed.

(** [parse_pattern_general] after the release. *)
Definition pattern_tail (fuel : nat) : P VersionPattern :=
  let* wildcard := parse_wildcard in
  if wildcard : bool then into_pattern
  else
    let* _ := parse_pre in
    let* _ := parse_post in
    let* _ := parse_dev in
    let* _ := parse_local fuel in
    let* _ := bump_while is_ascii_whitespace in
    let* done := is_done in
    if negb done then
      let* p := gets id in
      pfail (PVersion (UnexpectedEnd (take (p_i p) (p_v p)) (drop (p_i p) (p_v p))))
    else into_pattern.

Lemma parse_pattern_general_eq fuel p :
  parse_pattern_general fuel p =
  (let* _ := bump_while is_ascii_whitespace in
   let* _ := bump_if (bs "v") in
   let* _ := parse_epoch_and_initial_release in
   let* _ := parse_rest_of_release fuel in
   pattern_tail fuel) p.
Proof. reflexivity. Qed.

Lemma at_new v : at_ (parser_new v) v.
Proof. split; [unfold in_range; cbn; lia|]. done. Qed.

Lemma at_adv_0 p r : at_ p r -> adv 0 p = p.
Proof. intros _. unfold adv. rewrite Nat.add_0_r. by destruct p. Qed.

(** An input that starts with a digit has no leading whitespace and no [v]. *)
Lemma digit_head ds r : segment_text ds ->
  stops is_ascii_whitespace (ds ++ r) /\ starts_with_ignore_ascii_case (bs "v") (ds ++ r) = false.
Proof.
  intros (Hne & Hd & _). destruct ds as [|d ds]; [done|]. inv Hd. cbn [app].
  split.
  - cbn [stops]. unfold is_ascii_digit, is_ascii_whitespace in *. lia.
  - change (bs "v") with [118]. apply starts_with_head. cbn [stops].
    by apply eq_ignore_digit.
Qed.

(** The first number and the epoch. *)
Definition epoch_text (e : option (list Z)) : list Z :=
  match e with Some es => es ++ [33] | None => [] end.
Definition epoch_value (e : option (list Z)) : Z :=
  match e with Some es => decimal_from 0 es | None => 0 end.

Lemma stops_bang r : stops (Z.eqb 33) r -> starts_with_ignore_ascii_case (bs "!") r = false.
Proof.
  intros H. change (bs "!") with [33]. apply starts_with_head.
  destruct r as [|b r]; [done|]. cbn [stops] in *.
  destruct (eq_ignore_ascii_case 33 b) eqn:E; [|done].
  apply eq_ignore_punct in E; [|done]. subst b. done.
Qed.

Lemma parse_epoch_at e s p r :
  at_ p (epoch_text e ++ s ++ r) -> segment_text s -> (forall es, e = Some es -> segment_text es) ->
  stops is_ascii_digit r -> stops (Z.eqb 33) r -> release_numbers_ok (p_release p) ->
  p_epoch p = 0 ->
  exists p', parse_epoch_and_initial_release p = POk tt p' /\ at_ p' r /\
    p_v p' = p_v p /\ p_epoch p' = epoch_value e /\ release_numbers_ok (p_release p') /\
    release_numbers_as_slice (p_release p') =
      release_numbers_as_slice (p_release p) ++ [decimal_from 0 s] /\
    p_pre p' = p_pre p /\ p_post p' = p_post p /\ p_dev p' = p_dev p /\
    p_local p' = p_local p /\ p_wildcard p' = p_wildcard p.
Proof.
  intros H (Hne & Hd & Hlt) He Hr Hbang Hok Hep. unfold parse_epoch_and_initial_release.
  change (bs "!") with [33]. destruct e as [es|]; cbn [epoch_text app] in H.
  - destruct (He es eq_refl) as (Hne' & Hd' & Hlt'). rewrite <- app_assoc in H.
    unfold pbind at 1. rewrite (parse_number_some p es _ H Hne' Hd' ltac:(done) Hlt').
    pose proof (at_adv _ _ _ H) as H1. unfold pbind at 1. cbn [ok_or pret]. unfold pbind at 1.
    rewrite (bump_if_yes [33] _ (s ++ r) ltac:(done) H1). pose proof (at_adv _ [33] _ H1) as H2.
    unfold pbind. cbn [modify].
    set (p2 := set_epoch _ _). assert (H2' : at_ p2 (s ++ r)) by done.
    rewrite (parse_number_some p2 s r H2' Hne Hd Hr Hlt). cbn [ok_or pret].
    destruct (push_number_at (decimal_from 0 s) (adv (length s) p2)) as (r' & -> & Hok' & Hs'); [done|].
    eexists. split; [done|]. split; [exact (at_adv _ _ _ H2')|]. done.
  - unfold pbind at 1. rewrite (parse_number_some p s _ H Hne Hd Hr Hlt).
    pose proof (at_adv _ _ _ H) as H1. unfold pbind at 1. cbn [ok_or pret]. unfold pbind at 1.
    rewrite (bump_if_no [33] _ r H1 (stops_bang _ Hbang)). unfold pbind. cbn [pret].
    destruct (push_number_at (decimal_from 0 s) (adv (length s) p)) as (r' & -> & Hok' & Hs'); [done|].
    eexists. split; [done|]. split; [done|]. cbn. by rewrite Hep.
Qed.

Lemma head_run e segs suffix version fuel :
  version = epoch_text e ++ release_text segs ++ suffix ->
  segs <> [] -> Forall segment_text segs -> (forall es, e = Some es -> segment_text es) ->
  release_end suffix -> stops (Z.eqb 33) suffix -> (length segs < fuel)%nat ->
  exists p, parse_pattern_general fuel (parser_new version) = pattern_tail fuel p /\
    at_ p suffix /\ p_v p = version /\ p_epoch p = epoch_value e /\
    release_numbers_ok (p_release p) /\
    release_numbers_as_slice (p_release p) = map (decimal_from 0) segs /\
    p_pre p = None /\ p_post p = None /\ p_dev p = None /\ p_local p = [] /\ p_wildcard p = false.
Proof.
  intros Ev Hne Hs He Hr Hbang Hf. destruct segs as [|s segs]; [done|].
  apply Forall_cons in Hs as [Hst Hs]. cbn [release_text] in Ev. set (p0 := parser_new version).
  assert (Hat : at_ p0 version) by apply at_new.
  assert (Hhead : stops is_ascii_whitespace version /\ starts_with_ignore_ascii_case (bs "v") version = false).
  { rewrite Ev. destruct e as [es|]; cbn [epoch_text app]; rewrite <- !app_assoc;
      apply digit_head; auto. }
  destruct Hhead as [Hws Hv]. rewrite parse_pattern_general_eq. unfold pbind at 1.
  rewrite (bump_while_at _ p0 [] version Hat) by (done || constructor).
  change (length (@nil Z)) with O. rewrite (at_adv_0 p0 _ Hat). unfold pbind at 1. rewrite (bump_if_no _ _ _ Hat Hv). unfold pbind at 1.
  assert (Hat' : at_ p0 (epoch_text e ++ s ++ flat_map (fun s => 46 :: s) segs ++ suffix)).
  { rewrite <- app_assoc in Ev. by rewrite <- Ev. }
  destruct (parse_epoch_at e s p0 _ Hat') as (p1 & -> & H1 & Ev1 & Ee1 & Ok1 & Es1 & Fp & Fpo & Fd & Fl & Fw).
  { done. } { done. } { by apply release_tail_stops. }
  { destruct segs; cbn; [done|done]. } { cbn. lia. } { done. }
  unfold pbind at 1.
  destruct (parse_rest_of_release_at segs fuel p1 suffix) as (r' & -> & Ok' & Es');
    [done|done|done|simpl in Hf; lia|done|].
  eexists. split; [done|].
  split; [exact (at_adv _ _ _ H1)|]. cbn. rewrite Es', Es1. done.
Qed.

(** ** Absent and present components *)

(** [starts_with_ignore_ascii_case] by recursion on the needle. *)
Fixpoint prefix_ci (needle haystack : list Z) : bool :=
  match needle, haystack with
  | [], _ => true
  | _ :: _, [] => false
  | c :: s, b :: r => eq_ignore_ascii_case c b && prefix_ci s r
  end.

Lemma starts_with_ci s r : starts_with_ignore_ascii_case s r = prefix_ci s r.
Proof.
  unfold starts_with_ignore_ascii_case. revert r. induction s as [|c s IH]; intros [|b r]; try done.
  cbn [length Nat.leb combine forallb prefix_ci]. rewrite <- IH. by destruct (eq_ignore_ascii_case c b), (Nat.leb _ _).
Qed.

(** The input after an optional separator. *)
Definition skip_sep (r : list Z) : list Z :=
  match r with b :: r' => if SEPARATOR b then r' else r | [] => [] end.

Lemma bump_separator p r : at_ p r ->
  exists o k, bump_if_byte_set SEPARATOR p = POk o (adv k p) /\ at_ (adv k p) (skip_sep r).
Proof.
  intros H. unfold bump_if_byte_set, pbind. rewrite (rest_of_input_at p r H).
  destruct r as [|b r]; cbn [byteset_starts_with skip_sep].
  - exists None, O. by rewrite (at_adv_0 p _ H).
  - destruct (SEPARATOR b) eqn:E.
    + exists (Some b), 1%nat. split; [done|]. exact (at_adv p [b] r H).
    + exists None, O. by rewrite (at_adv_0 p _ H).
Qed.

Lemma bump_separator_none p r : at_ p r -> stops SEPARATOR r ->
  bump_if_byte_set SEPARATOR p = POk None p.
Proof.
  intros H Hr. unfold bump_if_byte_set, pbind. rewrite (rest_of_input_at p r H).
  destruct r as [|b r]; cbn [byteset_starts_with stops] in *; [done|]. by rewrite Hr.
Qed.

Lemma bump_string_none set p r : at_ p r -> stringset_starts_with set r = None ->
  bump_if_string_set set p = POk None p.
Proof.
  intros H E. unfold bump_if_string_set, pbind. by rewrite (rest_of_input_at p r H), E.
Qed.

Lemma bump_string_some set p r j s : at_ p r -> stringset_starts_with set r = Some j ->
  ss_strings set !! j = Some s -> bump_if_string_set set p = POk (Some j) (adv (length s) p).
Proof.
  intros H E Hs. unfold bump_if_string_set, pbind. rewrite (rest_of_input_at p r H), E.
  unfold plift. by rewrite Hs.
Qed.

Lemma reset_adv p k r : at_ p r -> reset (p_i p) (adv k p) = POk tt p.
Proof.
  intros [Hr _]. unfold reset, pbind, gets, plift, assert, modify. cbn [p_v adv set_i].
  rewrite (proj2 (Nat.leb_le _ _)) by exact Hr. by destruct p.
Qed.

Lemma parse_pre_no p r : at_ p r -> stringset_starts_with PRE_SPELLINGS (skip_sep r) = None ->
  parse_pre p = POk tt p.
Proof.
  intros H E. unfold parse_pre, pbind, gets.
  destruct (bump_separator p r H) as (o & k & -> & H1).
  rewrite (bump_string_none _ _ _ H1 E). by eapply reset_adv.
Qed.

Lemma parse_post_no p r : at_ p r -> starts_with_ignore_ascii_case (bs "-") r = false ->
  stringset_starts_with POST_SPELLINGS (skip_sep r) = None -> parse_post p = POk tt p.
Proof.
  intros H Hd E. unfold parse_post, pbind at 1 2, gets. rewrite (bump_if_no _ _ _ H Hd).
  unfold parse_post_spelled, pbind. destruct (bump_separator p r H) as (o & k & -> & H1).
  rewrite (bump_string_none _ _ _ H1 E). by eapply reset_adv.
Qed.

Lemma parse_dev_no p r : at_ p r -> starts_with_ignore_ascii_case (bs "dev") (skip_sep r) = false ->
  parse_dev p = POk tt p.
Proof.
  intros H E. unfold parse_dev, pbind, gets. destruct (bump_separator p r H) as (o & k & -> & H1).
  rewrite (bump_if_no _ _ _ H1 E). by eapply reset_adv.
Qed.

Lemma parse_local_no fuel p r : at_ p r -> starts_with_ignore_ascii_case (bs "+") r = false ->
  parse_local fuel p = POk tt p.
Proof. intros H E. unfold parse_local, pbind. by rewrite (bump_if_no _ _ _ H E). Qed.

Lemma parse_wildcard_no p r : at_ p r -> starts_with_ignore_ascii_case (bs ".*") r = false ->
  parse_wildcard p = POk false p.
Proof. intros H E. unfold parse_wildcard, pbind. by rewrite (bump_if_no _ _ _ H E). Qed.

(** At the end of the input every optional component is absent. *)
Lemma pattern_tail_end fuel p : at_ p [] -> pattern_tail fuel p = into_pattern p.
Proof.
  intros H. unfold pattern_tail, pbind.
  rewrite (parse_wildcard_no p [] H), (parse_pre_no p [] H), (parse_post_no p [] H),
    (parse_dev_no p [] H), (parse_local_no fuel p [] H) by done.
  rewrite (bump_while_at _ p [] [] H) by done. change (length (@nil Z)) with O.
  rewrite (at_adv_0 p _ H). by rewrite (is_done_at p _ H).
Qed.

(** ** The fast path agrees with the general parser *)

Lemma lor_high_low h l k : 0 <= k -> 0 <= l < 2 ^ k -> Z.lor (h * 2 ^ k) l = h * 2 ^ k + l.
Proof.
  intros Hk Hl. pose proof (lor_cat h 0 0 l k Hk ltac:(lia) Hl) as E.
  rewrite !Z.add_0_r, Z.mul_0_l, Z.add_0_l, Z.lor_0_r, Z.lor_0_l in E. exact E.
Qed.

Lemma from_fast_release_pack a b c d l :
  0 <= a <= 255 -> 0 <= b <= 255 -> 0 <= c <= 255 -> 0 <= d <= 255 ->
  from_fast_release [a; b; c; d] l = mkPattern (Small (mkSmall (pack a b c d 5 0) l)) false.
Proof.
  intros Ha Hb Hc Hd. unfold from_fast_release, nth_or_0. cbn [lookup list_lookup from_option id default].
  change (shl64 SUFFIX_NONE SUFFIX_VERSION_BIT_LEN) with (5 * 2 ^ 20).
  rewrite !shl64_small by lia. do 3 f_equal.
  rewrite <- !Z.lor_assoc.
  rewrite (lor_high_low d (5 * 2 ^ 20) 24) by lia.
  rewrite (lor_high_low c (d * 2 ^ 24 + 5 * 2 ^ 20) 32) by lia.
  rewrite (lor_high_low b (c * 2 ^ 32 + (d * 2 ^ 24 + 5 * 2 ^ 20)) 40) by lia.
  rewrite (lor_high_low a _ 48) by lia. unfold pack. lia.
Qed.

(** A packed version is determined by the record it stands for. *)
Lemma small_view_inj s s' : small_ok s = true -> small_ok s' = true ->
  make_full (Small s) = make_full (Small s') -> s = s'.
Proof.
  intros Hs Hs' E.
  destruct (proj1 (small_ok_layout s) Hs) as (a & b & c & d & k & n & L).
  destruct (proj1 (small_ok_layout s') Hs') as (a' & b' & c' & d' & k' & n' & L').
  rewrite (layout_view _ _ _ _ _ _ _ L), (layout_view _ _ _ _ _ _ _ L') in E.
  destruct s as [r l], s' as [r' l'].
  destruct L as [Hr ? ? ? ? ? ? Hpl ? ? ? ? ?], L' as [Hr' ? ? ? ? ? ? Hpl' ? ? ? ? ?].
  cbn [repr len] in *. subst r r'. unfold packed_view in E.
  injection E as Er Ep Epo Ed El Emi Ema.
  assert (l = l') as <-.
  { apply (f_equal length) in Er. rewrite !length_take in Er. cbn [length] in Er. lia. }
  assert (Hrel : a = a' /\ b = b' /\ c = c' /\ d = d').
  { assert (l = 0 \/ l = 1 \/ l = 2 \/ l = 3 \/ l = 4) as Hl by lia.
    destruct Hl as [->|[->|[->|[->| ->]]]]; cbn in Er; inversion Er; subst; lia. }
  destruct Hrel as (-> & -> & -> & ->).
  assert (Hkn : k = k' /\ n = n').
  { kind_cases k; kind_cases k'; cbn in *; try discriminate; split; try done; try congruence; lia. }
  by destruct Hkn as [-> ->].
Qed.

Lemma fast_store_pad done cur : (length done <= 4)%nat ->
  fast_store (done ++ replicate (4 - length done) 0) (length done) cur =
  if Nat.ltb (length done) 4
  then Some ((done ++ [cur]) ++ replicate (4 - length (done ++ [cur])) 0) else None.
Proof.
  intros H. unfold fast_store. rewrite length_app, length_replicate.
  replace (length done + (4 - length done))%nat with 4%nat by lia.
  destruct (Nat.ltb_spec (length done) 4); [|done]. f_equal.
  rewrite length_app. cbn [length]. replace (4 - length done)%nat with (S (4 - (length done + 1))) by lia.
  rewrite <- app_assoc, insert_app_r_alt, Nat.sub_diag by lia. done.
Qed.

Lemma parse_fast_loop_spec bytes prev cur done vp :
  (length done <= 4)%nat -> 0 <= cur <= 255 ->
  parse_fast_loop bytes prev cur (done ++ replicate (4 - length done) 0) (length done) = Some vp ->
  exists ds segs, bytes = ds ++ flat_map (fun s => 46 :: s) segs /\
    Forall (fun b => is_ascii_digit b = true) ds /\ (prev = false -> ds <> []) /\
    decimal_from cur ds <= 255 /\
    Forall (fun s => s <> [] /\ Forall (fun b => is_ascii_digit b = true) s /\
                     decimal_from 0 s <= 255) segs /\
    let all := done ++ decimal_from cur ds :: map (decimal_from 0) segs in
    (length all <= 4)%nat /\
    vp = from_fast_release (all ++ replicate (4 - length all) 0) (Z.of_nat (length all)).
Proof.
  revert prev cur done. induction bytes as [|b bytes IH]; intros prev cur done Hd Hc;
    cbn [parse_fast_loop].
  - destruct prev; [|done]. cbn [negb]. rewrite fast_store_pad by done.
    destruct (Nat.ltb_spec (length done) 4); [|done]. intros [= <-].
    exists [], []. cbn [flat_map app map decimal_from fold_left]. repeat split; try done; try lia.
    + rewrite length_app. cbn. lia.
    + f_equal. rewrite length_app. cbn. lia.
  - destruct (Z.eqb_spec b 46) as [->|Hb].
    + destruct prev; [|done]. cbn [negb]. rewrite fast_store_pad by done.
      destruct (Nat.ltb_spec (length done) 4); [|done].
      replace (length done + 1)%nat with (length (done ++ [cur])) by (by rewrite length_app).
      intros (ds & segs & -> & Hds & Hne & Hle & Hsegs & Hlen & ->)%IH;
        [|rewrite length_app; simpl; lia|lia].
      assert (Eapp : forall l, (done ++ [cur]) ++ l = done ++ cur :: l) by (intros; by rewrite <- app_assoc).
      cbv zeta in Hlen. rewrite Eapp in *.
      exists [], (ds :: segs). cbn [flat_map app map decimal_from fold_left].
      split; [done|]. split; [constructor|]. split; [done|]. split; [lia|].
      split; [|done]. constructor; [|done]. split; [by apply Hne|done].
    + unfold checked_sub. destruct (Z.leb_spec 48 b); [|done].
      destruct (Z.ltb_spec 9 (b - 48)); [done|]. unfold checked_mul, checked_add, u8_max.
      destruct (Z.leb_spec (cur * 10) 255); [|done].
      destruct (Z.leb_spec (cur * 10 + (b - 48)) 255); [|done].
      intros (ds & segs & -> & Hds & _ & Hle & Hsegs & Hlen & ->)%IH; [|done|lia].
      exists (b :: ds), segs.
      replace (decimal_from cur (b :: ds)) with (decimal_from (cur * 10 + (b - 48)) ds)
        by (unfold decimal_from; cbn [fold_left]; f_equal; lia).
      split; [done|]. split; [|by repeat split]. constructor; [|done].
      unfold is_ascii_digit. lia.
Qed.

(** What the fast path recognises and returns. *)
Lemma parse_fast_spec v vp : Forall is_u8 v -> parse_fast v = Some vp ->
  exists segs, v = release_text segs /\ segs <> [] /\ (length segs <= 4)%nat /\
    Forall (fun s => s <> [] /\ Forall (fun b => is_ascii_digit b = true) s /\
                     decimal_from 0 s <= 255) segs /\
    vp = from_fast_release (map (decimal_from 0) segs ++ replicate (4 - length segs) 0)
                           (Z.of_nat (length segs)).
Proof.
  intros Hv. unfold parse_fast. destruct (parse_fast_xyz v) as [vp'|] eqn:E.
  - intros [= ->]. unfold parse_fast_xyz in E.
    destruct v as [|a [|d1 [|b [|d2 [|c [|]]]]]]; try done.
    destruct (Z.eqb_spec d1 46) as [->|]; [|done]. destruct (Z.eqb_spec d2 46) as [->|]; [|done].
    cbn [andb] in E. unfold wrapping_sub8 in E.
    rewrite !Forall_cons in Hv. destruct Hv as (Ha & _ & Hb & _ & Hc & _). unfold is_u8, u8_max in *.
    destruct (Z.leb_spec ((a - 48) mod 256) 9), (Z.leb_spec ((b - 48) mod 256) 9),
      (Z.leb_spec ((c - 48) mod 256) 9); cbn [andb] in E; try done. injection E as <-.
    assert (H48 : forall x, 0 <= x <= 255 -> (x - 48) mod 256 <= 9 ->
                  (x - 48) mod 256 = x - 48 /\ 48 <= x <= 57).
    { intros x Hx Hm. Z.div_mod_to_equations. lia. }
    destruct (H48 a) as [Ea ?]; [done|done|]. destruct (H48 b) as [Eb ?]; [done|done|].
    destruct (H48 c) as [Ec ?]; [done|done|]. rewrite Ea, Eb, Ec.
    exists [[a]; [b]; [c]]. repeat split; try done; [simpl; lia|].
    assert (Hd : forall x, 48 <= x <= 57 -> [x] <> [] /\
      Forall (fun b => is_ascii_digit b = true) [x] /\ decimal_from 0 [x] <= 255).
    { intros x Hx. split; [done|]. split; [|cbn; lia]. constructor; [|constructor].
      unfold is_ascii_digit. lia. }
    apply Forall_cons; split; [by apply Hd|]. apply Forall_cons; split; [by apply Hd|].
    apply Forall_singleton. by apply Hd.
  - intros H. destruct (parse_fast_loop_spec v false 0 [] vp) as
      (ds & segs & -> & Hd & Hne & Hle & Hs & Hlen & ->); [simpl; lia|lia|exact H|].
    cbn [app length] in *. rewrite length_map in *.
    exists (ds :: segs). repeat split; try done. constructor; [|done]. split; [by apply Hne|done].
Qed.

(** Setting the defaults on a packed version keeps it packed. *)
Lemma defaults_small s : exists s',
  with_local (with_dev (with_post (with_pre (with_epoch (Small s) 0) None) None) None) (Segments []) =
  Small s'.
Proof.
  unfold with_local, with_local_segments, without_local, with_dev, with_post, with_pre, with_epoch.
  cbn [try_small small_set_epoch Z.eqb negb].
  unfold small_set_pre. destruct (negb _); cbn [is_none try_small];
    unfold small_set_post; destruct (negb _); cbn [is_none try_small];
    unfold small_set_dev; destruct (negb _); cbn [is_none try_small];
    unfold small_set_local; destruct (negb _); cbn [local_is_empty local_empty try_small]; by eexists.
Qed.

Lemma version_new_small rs : rs <> [] -> (length rs <= 4)%nat -> Forall (fun x => 0 <= x <= 255) rs ->
  exists s, version_new rs = Ret (Small s).
Proof.
  intros Hne Hlen Hrs.
  assert (H : exists s, fold_left push_release rs (clear_release (Small small_new)) = Small s).
  { destruct rs as [|a [|b [|c [|d [|]]]]]; try done; simpl in Hlen; try lia;
      rewrite !Forall_cons in Hrs; cbn [fold_left clear_release]; unfold push_release, small_push_release;
      cbn [try_small small_clear_release len Z.eqb]; unfold u16_max, u8_max;
      repeat (match goal with
       | |- context[?m <? ?x] => destruct (Z.ltb_spec m x); [lia|]
       end; cbn [try_small len Z.eqb Z.leb Z.add Pos.add Pos.compare Pos.compare_cont Z.compare]);
      by eexists. }
  destruct H as [s Hs]. destruct (version_new_view rs) as (w & E & _); [|done|].
  { eapply Forall_impl; [exact Hrs|]. simpl. lia. }
  exists s. rewrite E. unfold version_new, with_release in E. rewrite Hs in E.
  unfold assert in E. by destruct (negb _); [injection E as <-|].
Qed.

Lemma small_is_pack s a b c d l : small_ok s = true ->
  0 <= a <= 255 -> 0 <= b <= 255 -> 0 <= c <= 255 -> 0 <= d <= 255 ->
  1 <= l <= 4 -> (l <= 1 -> b = 0) -> (l <= 2 -> c = 0) -> (l <= 3 -> d = 0) ->
  make_full (Small s) = plain_full (take (Z.to_nat l) [a; b; c; d]) ->
  s = mkSmall (pack a b c d 5 0) l.
Proof.
  intros Hs Ha Hb Hc Hd Hl Hb0 Hc0 Hd0 HV.
  assert (L : layout (mkSmall (pack a b c d 5 0) l) a b c d 5 0) by (apply layout_intro; lia).
  apply small_view_inj; [done|apply small_ok_layout; eauto 10|].
  by rewrite HV, (layout_view _ _ _ _ _ _ _ L).
Qed.

(** One unit of fuel per byte is enough for the segments of a release. *)
Lemma release_text_length segs : Forall (fun s => s <> []) segs ->
  (length segs <= length (release_text segs))%nat.
Proof.
  intros H. assert (L : forall l, (length l <= length (flat_map (fun s => 46%Z :: s) l))%nat).
  { intros l. induction l as [|s l IH]; cbn [flat_map length app]; [lia|]. rewrite length_app. lia. }
  destruct segs as [|s segs]; [done|]. apply Forall_cons in H as [Hs _].
  cbn [release_text length]. rewrite length_app. specialize (L segs). destruct s; [done|].
  cbn [length]. lia.
Qed.

Lemma fast_agrees v vp : Forall is_u8 v -> parse_fast v = Some vp ->
  general_pattern v = Ret (Ok vp).
Proof.
  intros Hv Hfast. destruct (parse_fast_spec v vp Hv Hfast) as (segs & Ev & Hne & Hlen & Hs & ->).
  destruct (head_run None segs [] v (S (length v))) as
    (p & Erun & Hat & Epv & Ee & Hok & Esl & Fp & Fpo & Fd & Fl & Fw).
  { cbn. by rewrite app_nil_r. } { done. }
  { eapply Forall_impl; [exact Hs|]. intros s (? & ? & ?). repeat split; [done|done|].
    unfold u64_max. lia. } { done. } { done. } { done. }
  { rewrite Ev. apply Nat.lt_succ_r, release_text_length. eapply Forall_impl; [exact Hs|]. by intros ? []. }
  unfold general_pattern, run. rewrite Erun, (pattern_tail_end _ _ Hat).
  set (rs := map (decimal_from 0) segs) in *.
  assert (Hrs : Forall (fun x => 0 <= x <= 255) rs).
  { apply Forall_fmap. eapply Forall_impl; [exact Hs|]. intros s (_ & Hd & Hle). cbn. split; [|done].
    apply (decimal_from_mono 0 s); [lia|done]. }
  assert (Hrsne : rs <> []) by (by destruct segs).
  assert (Hrslen : (length rs <= 4)%nat) by (unfold rs; by rewrite length_map).
  unfold into_pattern, pbind, gets, id, plift, pret. rewrite Esl, Ee, Fp, Fpo, Fd, Fl, Fw. cbn [epoch_value].
  assert (Nat.ltb 0 (length rs) = true) as -> by (destruct rs; [done|reflexivity]). cbn [assert].
  destruct (version_new_small rs Hrsne Hrslen Hrs) as [s0 E0].
  destruct (version_new_view rs) as (w & E & V & O); [by eapply Forall_impl; [exact Hrs|]; simpl; lia|done|].
  rewrite E0 in *. injection E as <-.
  destruct (defaults_small s0) as [s1 E1]. rewrite E1. do 2 f_equal.
  destruct (with_epoch_view (Small s0) 0 O) as [V1 O1].
  destruct (with_pre_view _ None O1 ltac:(done)) as [V2 O2].
  destruct (with_post_view _ None O2 ltac:(done)) as [V3 O3].
  destruct (with_dev_view _ None O3 ltac:(done)) as [V4 O4].
  destruct (with_local_view _ (Segments []) O4) as [V5 O5].
  rewrite V4, V3, V2, V1, V in V5. rewrite E1 in V5, O5. clear - V5 O5 Hrs Hrsne Hrslen Hlen Hne Esl.
  assert (length segs = length rs) as -> by (unfold rs; by rewrite length_map).
  destruct rs as [|a [|b [|c [|d [|]]]]]; try done; simpl in Hrslen; try lia; cbn [app replicate length Nat.sub Z.of_nat];
    rewrite ?Forall_cons in Hrs; rewrite from_fast_release_pack by lia; f_equal; f_equal;
    (apply small_is_pack; [done|lia|lia|lia|lia|lia|lia|lia|lia|by rewrite V5]).
Qed.

Lemma parse_pattern_is_general v : Forall is_u8 v -> parse_pattern v = general_pattern v.
Proof.
  intros Hv. unfold parse_pattern. destruct (parse_fast v) as [vp|] eqn:E; [|done].
  by rewrite (fast_agrees v vp).
Qed.

Lemma general_pattern_total v : exists r, general_pattern v = Ret r /\
  forall vp, r = Ok vp -> pattern_ok vp.
Proof.
  pose proof (parse_pattern_general_spec v) as H. unfold wp in H. unfold general_pattern, run.
  destruct (parse_pattern_general (S (length v)) (parser_new v)) as [vp p|e|]; [..|done].
  - eexists. split; [done|]. by intros ? [= <-].
  - eexists. by split.
Qed.

(** [MIN_VERSION] *)
Definition MIN_VERSION : outcome Version :=
  let! r := version_from_str (bs "0a0.dev0") in
  match r with Ok v => Ret v | Err _ => Panic end.

(** ** Properties of the parser *)

(** C17: no byte string makes the version parser panic (no failed assertion, no
    slice or index out of range, no loop that does not terminate), and every
    version it accepts is canonical: a non-empty release, every number below
    [u64::MAX], no [min]/[max]/local sentinel, a layout-conforming packed form,
    and lower-case alphanumeric local segments that are not numbers. *)
Theorem parse_never_panics version : Forall is_u8 version ->
  exists r, parse_pattern version = Ret r /\
    forall vp, r = Ok vp -> canonical (vp_version vp) = true.
Proof.
  intros Hv. rewrite parse_pattern_is_general by done.
  destruct (general_pattern_total version) as (r & E & H). exists r. split; [done|].
  intros vp Hr. by destruct (H vp Hr).
Qed.

Lemma parse_never_panics_witness :
  exists r, parse_pattern (bs "1!2.0rc1.post2.dev3+Ubuntu.01") = Ret r /\
    forall vp, r = Ok vp -> canonical (vp_version vp) = true.
Proof.
  apply parse_never_panics. repeat constructor; vm_compute; discriminate.
Defined.

(** C18: the numeric fast path [parse_fast] is an optimisation only: on every
    byte string, trying it first gives exactly the result (version, packed bits
    and errors included) of the general parser alone. *)
Theorem fast_path_agrees version : Forall is_u8 version ->
  parse_pattern version = general_pattern version.
Proof. intros Hv. by apply parse_pattern_is_general. Qed.

Lemma fast_path_agrees_witness : parse_pattern (bs "007.20.0") = general_pattern (bs "007.20.0").
Proof. apply fast_path_agrees. repeat constructor; vm_compute; discriminate. Defined.

(** [MIN_VERSION] ([0a0.dev0], documented as the minimum version that can be
    represented) is not minimal: [0.dev0] parses, and compares less. *)
Theorem min_version_is_not_least :
  exists v m, version_from_str (bs "0.dev0") = Ret (Ok v) /\ MIN_VERSION = Ret m /\ cmp v m = Lt.
Proof. eexists _, _. split; [vm_compute; reflexivity|]. split; [vm_compute; reflexivity|]. reflexivity. Qed.
