(* ===== verification/VersionDisplay.v ===== *)
(** * Versions: printing, and the round trip through the parser

    Models the [Display] implementations of [Version], [PrereleaseKind],
    [LocalVersionSlice] and [LocalSegment] in
    [crates/uv-pep440/src/version.rs].  The main theorem is that a printed
    version parses back to the version, component by component (trailing zeros
    included), for every version the parser can produce. *)

From Stdlib Require Import ZArith Lia String.
From stdpp Require Import base list.
From S2P Require Import Prelude.
From S2P Require Import VersionRepr.
From S2P Require Import VersionOrder.
From S2P Require Import VersionParser.
Open Scope Z_scope.

(** ** Printing *)

Definition display_kind (k : PrereleaseKind) : list Z :=
  match k with Alpha => bs "a" | Beta => bs "b" | Rc => bs "rc" end.

Definition display_prerelease (p : Prerelease) : list Z :=
  display_kind (pre_kind p) ++ show_u64 (pre_number p).

Definition display_segment (s : LocalSegment) : list Z :=
  match s with LString s => s | LNumber n => show_u64 n end.

(** [impl Display for LocalVersionSlice]: a dot before every segment but the
    first. *)
Fixpoint display_segments (l : list LocalSegment) : list Z :=
  match l with
  | [] => []
  | [s] => display_segment s
  | s :: l' => display_segment s ++ bs "." ++ display_segments l'
  end.

Definition display_local (l : LocalVersion) : list Z :=
  match l with Segments l => display_segments l | LMax => bs "[max]" end.

Definition display_release (r : list Z) : list Z :=
  match r with
  | [] => []
  | first :: rest => show_u64 first ++ flat_map (fun n => bs "." ++ show_u64 n) rest
  end.

(** [impl Display for Version] *)
Definition version_display (v : Version) : list Z :=
  (if negb (epoch v =? 0) then show_u64 (epoch v) ++ bs "!" else [])
  ++ display_release (release v)
  ++ (match pre v with Some p => display_prerelease p | None => [] end)
  ++ (match post v with Some n => bs ".post" ++ show_u64 n | None => [] end)
  ++ (match dev v with Some n => bs ".dev" ++ show_u64 n | None => [] end)
  ++ (if negb (local_is_empty (local v))
      then match local v with
           | Segments _ => bs "+" ++ display_local (local v)
           | LMax => bs "+"
           end
      else []).

(** ** Parsing what was printed *)

Definition pre_text (o : option Prerelease) : list Z :=
  match o with Some p => display_prerelease p | None => [] end.
Definition post_text (o : option Z) : list Z :=
  match o with Some n => bs ".post" ++ show_u64 n | None => [] end.
Definition dev_text (o : option Z) : list Z :=
  match o with Some n => bs ".dev" ++ show_u64 n | None => [] end.
Definition local_text (l : list LocalSegment) : list Z :=
  match l with [] => [] | _ => bs "+" ++ display_segments l end.

Lemma show_segment_text n : 0 <= n < u64_max -> segment_text (show_u64 n).
Proof.
  intros Hn. destruct (show_u64_spec n) as (H1 & H2 & H3); [unfold is_u64; lia|].
  split; [done|]. split; [done|]. rewrite H3. lia.
Qed.

Lemma show_decimal n : 0 <= n <= u64_max -> decimal_from 0 (show_u64 n) = n.
Proof. intros Hn. by apply show_u64_spec. Qed.

Lemma parse_number_show p n r : at_ p (show_u64 n ++ r) -> 0 <= n < u64_max ->
  stops is_ascii_digit r ->
  parse_number p = POk (Some n) (adv (length (show_u64 n)) p).
Proof.
  intros H Hn Hr. destruct (show_segment_text n Hn) as (Hne & Hd & Hlt).
  rewrite (parse_number_some p _ r H Hne Hd Hr Hlt), show_decimal by lia. done.
Qed.

(** The first byte of a printed number is one of the ten digits. *)
Lemma show_head n : 0 <= n < u64_max -> exists d ds, show_u64 n = d :: ds /\
  (d = 48 \/ d = 49 \/ d = 50 \/ d = 51 \/ d = 52 \/ d = 53 \/ d = 54 \/ d = 55 \/ d = 56 \/ d = 57).
Proof.
  intros Hn. destruct (show_segment_text n Hn) as (Hne & Hd & _).
  destruct (show_u64 n) as [|d ds]; [done|]. exists d, ds. split; [done|].
  inv Hd. unfold is_ascii_digit in *. lia.
Qed.

Lemma stops_sep_show n r : 0 <= n < u64_max -> stops SEPARATOR (show_u64 n ++ r).
Proof.
  intros Hn. destruct (show_head n Hn) as (d & ds & -> & Hd). cbn [app stops].
  by destruct Hd as [->|[->|[->|[->|[->|[->|[->|[->|[->| ->]]]]]]]]].
Qed.

Lemma adv_adv j k p : adv j (adv k p) = adv (k + j) p.
Proof. unfold adv, set_i. cbn. f_equal. lia. Qed.

Lemma adv_set_pre k x p : adv k (set_pre x p) = set_pre x (adv k p).
Proof. done. Qed.
Lemma adv_set_post k x p : adv k (set_post x p) = set_post x (adv k p).
Proof. done. Qed.
Lemma adv_set_dev k x p : adv k (set_dev x p) = set_dev x (adv k p).
Proof. done. Qed.

Lemma set_pre_none p : p_pre p = None -> set_pre None (adv 0 p) = p.
Proof. intros E. unfold set_pre, adv, set_i. cbn. rewrite Nat.add_0_r, <- E. by destruct p. Qed.
Lemma set_post_none p : p_post p = None -> set_post None (adv 0 p) = p.
Proof. intros E. unfold set_post, adv, set_i. cbn. rewrite Nat.add_0_r, <- E. by destruct p. Qed.
Lemma set_dev_none p : p_dev p = None -> set_dev None (adv 0 p) = p.
Proof. intros E. unfold set_dev, adv, set_i. cbn. rewrite Nat.add_0_r, <- E. by destruct p. Qed.

(** The spelling the printer uses is found, and nothing longer is. *)
Lemma pre_spelling k n r : 0 <= n < u64_max ->
  exists j, stringset_starts_with PRE_SPELLINGS (display_kind k ++ show_u64 n ++ r) = Some j /\
    ss_strings PRE_SPELLINGS !! j = Some (display_kind k) /\ PRE_MAP !! j = Some k.
Proof.
  intros Hn. destruct (show_head n Hn) as (d & ds & -> & Hd).
  destruct k; [exists 5%nat|exists 6%nat|exists 4%nat]; (split; [|done]);
    unfold stringset_starts_with, PRE_SPELLINGS, stringset_new;
    cbn [ss_first_byte ss_strings map find_prefix display_kind];
    destruct Hd as [->|[->|[->|[->|[->|[->|[->|[->|[->| ->]]]]]]]]];
    cbn [bs app byteset_starts_with]; rewrite ?starts_with_ci; reflexivity.
Qed.

Lemma parse_pre_at p o r : at_ p (pre_text o ++ r) -> p_pre p = None ->
  (forall x, o = Some x -> 0 <= pre_number x < u64_max) ->
  stringset_starts_with PRE_SPELLINGS (skip_sep r) = None -> stops is_ascii_digit r ->
  exists k, parse_pre p = POk tt (set_pre o (adv k p)) /\ at_ (adv k p) r.
Proof.
  intros H Hp Ho Hno Hr. destruct o as [[kind n]|]; cbn [pre_text] in H.
  - specialize (Ho _ eq_refl). cbn in Ho. unfold display_prerelease in H. cbn [pre_kind pre_number] in H.
    rewrite <- app_assoc in H. destruct (pre_spelling kind n r Ho) as (j & Ej & Hs & Hk).
    unfold parse_pre. unfold pbind at 1. cbn [gets]. unfold pbind at 1.
    rewrite (bump_separator_none p _ H) by (by destruct kind). unfold pbind at 1.
    rewrite (bump_string_some _ _ _ _ _ H Ej Hs). pose proof (at_adv _ _ _ H) as H1.
    unfold pbind, plift. rewrite Hk. cbn [unwrap].
    rewrite (bump_separator_none _ _ H1) by (by apply stops_sep_show).
    rewrite (parse_number_show _ n r H1 Ho Hr). pose proof (at_adv _ _ _ H1) as H2.
    rewrite adv_adv in *. eexists. split; [reflexivity|done].
  - exists O. rewrite (parse_pre_no p r H Hno), (set_pre_none p Hp). split; [done|].
    by rewrite (at_adv_0 p r H).
Qed.

Lemma post_spelling n r : 0 <= n < u64_max ->
  stringset_starts_with POST_SPELLINGS (bs "post" ++ show_u64 n ++ r) = Some O.
Proof.
  intros Hn. destruct (show_head n Hn) as (d & ds & -> & Hd).
  unfold stringset_starts_with, POST_SPELLINGS, stringset_new.
  cbn [ss_first_byte ss_strings map find_prefix bs app byteset_starts_with].
  rewrite ?starts_with_ci. reflexivity.
Qed.

(** A dot is consumed as a separator. *)
Lemma bump_dot p r : at_ p (46 :: r) ->
  bump_if_byte_set SEPARATOR p = POk (Some 46) (adv 1 p) /\ at_ (adv 1 p) r.
Proof.
  intros H. split; [|exact (at_adv p [46] r H)].
  unfold bump_if_byte_set, pbind. by rewrite (rest_of_input_at p _ H).
Qed.

Lemma parse_post_at p o r : at_ p (post_text o ++ r) -> p_post p = None ->
  (forall n, o = Some n -> 0 <= n < u64_max) ->
  starts_with_ignore_ascii_case (bs "-") r = false ->
  stringset_starts_with POST_SPELLINGS (skip_sep r) = None -> stops is_ascii_digit r ->
  exists k, parse_post p = POk tt (set_post o (adv k p)) /\ at_ (adv k p) r.
Proof.
  intros H Hp Ho Hdash Hno Hr. destruct o as [n|]; cbn [post_text] in H.
  - specialize (Ho _ eq_refl). rewrite <- app_assoc in H.
    change (bs ".post" ++ show_u64 n ++ r) with (46 :: bs "post" ++ show_u64 n ++ r) in H.
    unfold parse_post. unfold pbind at 1. cbn [gets]. unfold pbind at 1.
    rewrite (bump_if_no _ _ _ H) by (by apply starts_with_head).
    unfold parse_post_spelled. unfold pbind at 1. destruct (bump_dot p _ H) as [-> H1].
    unfold pbind at 1. rewrite (bump_string_some _ _ _ _ (bs "post") H1 (post_spelling n r Ho)) by done.
    pose proof (at_adv _ (bs "post") _ H1) as H2. unfold pbind.
    rewrite (bump_separator_none _ _ H2) by (by apply stops_sep_show).
    rewrite (parse_number_show _ n r H2 Ho Hr). pose proof (at_adv _ _ _ H2) as H3.
    rewrite !adv_adv in *. eexists. split; [reflexivity|done].
  - exists O. rewrite (parse_post_no p r H Hdash Hno), (set_post_none p Hp). split; [done|].
    by rewrite (at_adv_0 p r H).
Qed.

Lemma parse_dev_at p o r : at_ p (dev_text o ++ r) -> p_dev p = None ->
  (forall n, o = Some n -> 0 <= n < u64_max) ->
  starts_with_ignore_ascii_case (bs "dev") (skip_sep r) = false -> stops is_ascii_digit r ->
  exists k, parse_dev p = POk tt (set_dev o (adv k p)) /\ at_ (adv k p) r.
Proof.
  intros H Hp Ho Hno Hr. destruct o as [n|]; cbn [dev_text] in H.
  - specialize (Ho _ eq_refl). rewrite <- app_assoc in H.
    change (bs ".dev" ++ show_u64 n ++ r) with (46 :: bs "dev" ++ show_u64 n ++ r) in H.
    unfold parse_dev. unfold pbind at 1. cbn [gets]. unfold pbind at 1.
    destruct (bump_dot p _ H) as [-> H1]. unfold pbind at 1.
    rewrite (bump_if_yes (bs "dev") _ _ ltac:(done) H1). pose proof (at_adv _ (bs "dev") _ H1) as H2.
    unfold pbind. cbn [negb]. rewrite (bump_separator_none _ _ H2) by (by apply stops_sep_show).
    rewrite (parse_number_show _ n r H2 Ho Hr). pose proof (at_adv _ _ _ H2) as H3.
    rewrite !adv_adv in *. eexists. split; [reflexivity|done].
  - exists O. rewrite (parse_dev_no p r H Hno), (set_dev_none p Hp). split; [done|].
    by rewrite (at_adv_0 p r H).
Qed.

(** ** Local segments *)

Lemma display_segment_spec s : segment_canonical s = true ->
  display_segment s <> [] /\ Forall (fun b => is_ascii_alphanumeric b = true) (display_segment s) /\
  local_segment (display_segment s) = s.
Proof.
  destruct s as [s|n]; cbn [segment_canonical display_segment]; intros H.
  - apply andb_prop in H as [[Hne Hs]%andb_prop Hnum]. apply forallb_Forall in Hs.
    split; [by destruct s|]. split.
    + eapply Forall_impl; [exact Hs|]. cbn. intros b. unfold is_ascii_alphanumeric.
      destruct (is_ascii_digit b), (is_ascii_upper b), (is_ascii_lower b); done.
    + unfold local_segment. destruct (parse_u64 s); [done|]. f_equal.
      clear - Hs. induction Hs as [|b s Hb Hs IH]; [done|]. cbn [map]. rewrite IH. f_equal.
      unfold to_ascii_lowercase, is_ascii_upper, is_ascii_digit, is_ascii_lower in *.
      destruct ((65 <=? b) && (b <=? 90)) eqn:E; lia.
  - apply u64b_iff in H. destruct (show_u64_spec n H) as (Hne & Hd & Hv). split; [done|]. split.
    + eapply Forall_impl; [exact Hd|]. cbn. intros b Hb. unfold is_ascii_alphanumeric. by rewrite Hb.
    + unfold local_segment. rewrite parse_u64_digits by (done || lia). by rewrite Hv.
Qed.

Lemma parse_local_loop_at l fuel c p : l <> [] -> Forall (fun s => segment_canonical s = true) l ->
  at_ p (display_segments l) -> (length l <= fuel)%nat ->
  exists k, parse_local_loop fuel c p = POk tt (set_local (p_local p ++ l) (adv k p)) /\ at_ (adv k p) [].
Proof.
  revert fuel c p. induction l as [|s l IH]; intros fuel c p Hne Hl H Hf; [done|].
  apply Forall_cons in Hl as [Hs Hl]. destruct fuel as [|f]; [simpl in Hf; lia|].
  destruct (display_segment_spec s Hs) as (Hsn & Hsa & Hseg). cbn [parse_local_loop].
  destruct l as [|s' l].
  - cbn [display_segments] in H. rewrite <- (app_nil_r (display_segment s)) in H.
    unfold pbind at 1. rewrite (bump_while_at _ _ _ _ H Hsa) by done.
    pose proof (at_adv _ _ _ H) as H1. destruct (display_segment s) as [|b bs'] eqn:E; [done|].
    rewrite <- E in *. exists (length (display_segment s)). split; [|done].
    unfold pbind. cbn [modify]. rewrite Hseg. by rewrite (bump_separator_none _ []).
  - change (display_segments (s :: s' :: l)) with (display_segment s ++ 46 :: display_segments (s' :: l)) in H.
    unfold pbind at 1. rewrite (bump_while_at _ _ _ _ H Hsa) by done.
    pose proof (at_adv _ _ _ H) as H1. destruct (display_segment s) as [|b bs'] eqn:E; [done|].
    rewrite <- E in *. unfold pbind. cbn [modify]. rewrite Hseg.
    set (p1 := set_local _ _). assert (H1' : at_ p1 (46 :: display_segments (s' :: l))) by done.
    destruct (bump_dot p1 _ H1') as [-> H2].
    destruct (IH f 46 (adv 1 p1)) as (k & -> & H3); [done|done|done|simpl in *; lia|].
    exists (length (display_segment s) + 1 + k)%nat. unfold p1 in *. split.
    + unfold set_local, adv, set_i. cbn. rewrite <- app_assoc, !Nat.add_assoc. done.
    + unfold at_, in_range, adv, set_i, set_local in *. cbn in *. by rewrite !Nat.add_assoc.
Qed.

Lemma parse_local_at l fuel p : Forall (fun s => segment_canonical s = true) l ->
  at_ p (local_text l) -> (length l <= fuel)%nat -> p_local p = [] ->
  exists k, parse_local fuel p = POk tt (set_local l (adv k p)) /\ at_ (adv k p) [].
Proof.
  intros Hl H Hf Hp. destruct l as [|s l].
  - exists O. rewrite (parse_local_no fuel p _ H) by done. split; [|by rewrite (at_adv_0 p _ H)].
    rewrite (at_adv_0 p _ H). unfold set_local. rewrite <- Hp. by destruct p.
  - cbn [local_text] in H. unfold parse_local, pbind.
    rewrite (bump_if_yes (bs "+") _ _ ltac:(done) H). cbn [negb].
    pose proof (at_adv _ (bs "+") _ H) as H1.
    destruct (parse_local_loop_at (s :: l) fuel 43 _ ltac:(done) Hl H1 Hf) as (k & -> & H2).
    rewrite adv_adv in *. eexists. split; [|exact H2]. cbn [p_local adv set_i]. by rewrite Hp.
Qed.

(** ** Boundaries between components

    None of the optional components is found where a later one starts. *)

Lemma local_boundary l : let r := local_text l in
  stops is_ascii_digit r /\ starts_with_ignore_ascii_case (bs "-") r = false /\
  starts_with_ignore_ascii_case (bs ".*") r = false /\
  stringset_starts_with PRE_SPELLINGS (skip_sep r) = None /\
  stringset_starts_with POST_SPELLINGS (skip_sep r) = None /\
  starts_with_ignore_ascii_case (bs "dev") (skip_sep r) = false /\
  release_end r /\ stops (Z.eqb 33) r.
Proof. cbv zeta. rewrite !starts_with_ci. by destruct l. Qed.

Lemma dev_boundary o l : let r := dev_text o ++ local_text l in
  stops is_ascii_digit r /\ starts_with_ignore_ascii_case (bs "-") r = false /\
  starts_with_ignore_ascii_case (bs ".*") r = false /\
  stringset_starts_with PRE_SPELLINGS (skip_sep r) = None /\
  stringset_starts_with POST_SPELLINGS (skip_sep r) = None /\
  release_end r /\ stops (Z.eqb 33) r.
Proof. cbv zeta. rewrite !starts_with_ci. destruct o; cbn [dev_text]; [by rewrite <- app_assoc|by destruct l]. Qed.

Lemma post_boundary o d l : let r := post_text o ++ dev_text d ++ local_text l in
  stops is_ascii_digit r /\ starts_with_ignore_ascii_case (bs ".*") r = false /\
  stringset_starts_with PRE_SPELLINGS (skip_sep r) = None /\
  release_end r /\ stops (Z.eqb 33) r.
Proof.
  cbv zeta. destruct o as [n|].
  - cbn [post_text]. rewrite <- app_assoc, starts_with_ci. split; [done|]. split; [done|].
    split; [|done].
    change (skip_sep (bs ".post" ++ show_u64 n ++ dev_text d ++ local_text l))
      with (bs "post" ++ show_u64 n ++ dev_text d ++ local_text l).
    unfold stringset_starts_with, PRE_SPELLINGS, stringset_new.
    cbn [ss_first_byte ss_strings map find_prefix bs app byteset_starts_with].
    rewrite ?starts_with_ci. reflexivity.
  - cbn [post_text app]. by destruct (dev_boundary d l) as (? & ? & ? & ? & ? & ? & ?).
Qed.

Lemma pre_boundary x o d l : let r := pre_text x ++ post_text o ++ dev_text d ++ local_text l in
  starts_with_ignore_ascii_case (bs ".*") r = false /\ release_end r /\ stops (Z.eqb 33) r.
Proof.
  cbv zeta. destruct x as [[k n]|].
  - cbn [pre_text]. unfold display_prerelease. rewrite <- app_assoc, starts_with_ci. by destruct k.
  - cbn [pre_text app]. by destruct (post_boundary o d l) as (? & ? & ? & ? & ?).
Qed.

Lemma pbind_ok {A B} (m : P A) (k : A -> P B) p a p' : m p = POk a p' -> pbind m k p = k a p'.
Proof. intros E. unfold pbind. by rewrite E. Qed.

(** The optional components of a printed version are read back. *)
Lemma pattern_tail_at fuel p x o d l :
  at_ p (pre_text x ++ post_text o ++ dev_text d ++ local_text l) ->
  p_pre p = None -> p_post p = None -> p_dev p = None -> p_local p = [] ->
  (forall y, x = Some y -> 0 <= pre_number y < u64_max) ->
  (forall n, o = Some n -> 0 <= n < u64_max) -> (forall n, d = Some n -> 0 <= n < u64_max) ->
  Forall (fun s => segment_canonical s = true) l -> (length l <= fuel)%nat ->
  exists k, let q := set_local l (set_dev d (set_post o (set_pre x (adv k p)))) in
    pattern_tail fuel p = into_pattern q /\ at_ q [].
Proof.
  intros H Fp Fo Fd Fl Hx Ho Hd Hl Hf. unfold pattern_tail.
  destruct (pre_boundary x o d l) as (B1 & _ & _).
  rewrite (pbind_ok _ _ _ _ _ (parse_wildcard_no p _ H B1)).
  destruct (post_boundary o d l) as (B2 & _ & B3 & _ & _).
  destruct (parse_pre_at p x _ H Fp Hx B3 B2) as (k1 & E1 & H1). rewrite (pbind_ok _ _ _ _ _ E1).
  set (p1 := set_pre x (adv k1 p)) in *.
  assert (H1' : at_ p1 (post_text o ++ dev_text d ++ local_text l)) by exact H1.
  destruct (dev_boundary d l) as (B4 & B5 & _ & _ & B6 & _ & _).
  destruct (parse_post_at p1 o _ H1' Fo Ho B5 B6 B4) as (k2 & E2 & H2). rewrite (pbind_ok _ _ _ _ _ E2).
  set (p2 := set_post o (adv k2 p1)) in *.
  assert (H2' : at_ p2 (dev_text d ++ local_text l)) by exact H2.
  destruct (local_boundary l) as (B7 & _ & _ & _ & _ & B8 & _ & _).
  destruct (parse_dev_at p2 d _ H2' Fd Hd B8 B7) as (k3 & E3 & H3). rewrite (pbind_ok _ _ _ _ _ E3).
  set (p3 := set_dev d (adv k3 p2)) in *. assert (H3' : at_ p3 (local_text l)) by exact H3.
  destruct (parse_local_at l fuel p3 Hl H3' Hf Fl) as (k4 & E4 & H4). rewrite (pbind_ok _ _ _ _ _ E4).
  set (p4 := set_local l (adv k4 p3)) in *. assert (H4' : at_ p4 []) by exact H4.
  rewrite (pbind_ok _ _ _ _ _ (bump_while_at is_ascii_whitespace p4 [] [] H4' (Forall_nil_2 _) I)).
  change (length (@nil Z)) with O. rewrite (at_adv_0 _ _ H4'), (pbind_ok _ _ _ _ _ (is_done_at _ _ H4')).
  exists (k1 + k2 + k3 + k4)%nat.
  assert (E : p4 = set_local l (set_dev d (set_post o (set_pre x (adv (k1 + k2 + k3 + k4) p))))).
  { unfold p4, p3, p2, p1. repeat rewrite ?adv_set_dev, ?adv_set_post, ?adv_set_pre, ?adv_adv. by rewrite !Nat.add_assoc. }
  cbv zeta. rewrite <- E. by split.
Qed.

(** ** A printed version as the parser sees it *)

Definition display_epoch (v : Version) : option (list Z) :=
  if epoch v =? 0 then None else Some (show_u64 (epoch v)).

Lemma display_release_text r : display_release r = release_text (map show_u64 r).
Proof.
  destruct r as [|x r]; [done|]. cbn [display_release release_text map]. f_equal.
  induction r as [|y r IH]; [done|]. cbn [flat_map map]. rewrite IH. done.
Qed.

Lemma version_display_text v l : local v = Segments l ->
  version_display v = epoch_text (display_epoch v) ++ release_text (map show_u64 (release v)) ++
    pre_text (pre v) ++ post_text (post v) ++ dev_text (dev v) ++ local_text l.
Proof.
  intros E. unfold version_display, display_epoch. rewrite E, display_release_text.
  f_equal; [by destruct (epoch v =? 0)|]. do 4 f_equal. by destruct l.
Qed.

Lemma canonical_local v : canonical v = true ->
  exists l, local v = Segments l /\ Forall (fun s => segment_canonical s = true) l.
Proof.
  unfold canonical, full_canonical. intros [_ [_ H]%andb_prop]%andb_prop. rewrite <- local_view in H.
  destruct (local v) as [l|]; [|done]. exists l. split; [done|]. by apply forallb_Forall.
Qed.

(** The bytes a version is printed with: letters, digits, [.], [!] and [+]. *)
Definition version_byte (b : Z) : Prop := is_ascii_alphanumeric b = true \/ b = 46 \/ b = 33 \/ b = 43.

(** Visible ASCII without commas and dashes. *)
Definition text_byte (b : Z) : Prop := 33 <= b <= 126 /\ b <> 44 /\ b <> 45 /\ b <> 59.

Lemma version_byte_text b : version_byte b -> text_byte b.
Proof. unfold version_byte, text_byte, is_ascii_alphanumeric, is_ascii_digit, is_ascii_upper, is_ascii_lower. lia. Qed.

Lemma show_version_byte n : 0 <= n <= u64_max -> Forall version_byte (show_u64 n).
Proof.
  intros H. destruct (show_u64_spec n H) as (_ & Hd & _). eapply Forall_impl; [exact Hd|].
  intros c Hc. left. unfold is_ascii_alphanumeric. by rewrite Hc.
Qed.

Lemma version_byte_lit l : forallb (fun b => is_ascii_alphanumeric b || (b =? 46) || (b =? 33) || (b =? 43)) l = true ->
  Forall version_byte l.
Proof. intros H%forallb_Forall. eapply Forall_impl; [exact H|]. intros b. unfold version_byte. cbn. destruct (is_ascii_alphanumeric b); lia. Qed.

Lemma segments_version_bytes l : Forall (fun s => segment_canonical s = true) l -> Forall version_byte (display_segments l).
Proof.
  assert (S : forall s, segment_canonical s = true -> Forall version_byte (display_segment s)).
  { intros s Hs. destruct (display_segment_spec s Hs) as (_ & H & _). eapply Forall_impl; [exact H|]. by left. }
  intros H. induction H as [|s l Hs Hl IH]; [constructor|]. destruct l as [|s' l]; [by apply S|].
  change (display_segments (s :: s' :: l)) with (display_segment s ++ bs "." ++ display_segments (s' :: l)).
  rewrite !Forall_app. split; [by apply S|]. split; [by apply version_byte_lit|done].
Qed.

Lemma version_display_chars v : canonical v = true -> Forall version_byte (version_display v).
Proof.
  intros H. destruct (real_elim v (canonical_real v H)) as [_ He Hr _ Hp Ho Hd _ _ _].
  destruct (canonical_local v H) as (l & El & Hl). rewrite (version_display_text v l El), !Forall_app.
  repeat split.
  - unfold display_epoch. destruct (epoch v =? 0); [constructor|]. cbn [epoch_text].
    apply Forall_app. split; [apply show_version_byte; lia|by apply version_byte_lit].
  - rewrite <- display_release_text. destruct Hr as [|x r Hx Hr]; [constructor|]. cbn [display_release].
    apply Forall_app. split; [apply show_version_byte; lia|]. induction Hr as [|y r Hy Hr IH]; [constructor|].
    cbn [flat_map]. rewrite !Forall_app. repeat split; [by apply version_byte_lit|apply show_version_byte; lia|done].
  - destruct (pre v) as [[k n]|]; [|constructor]. specialize (Hp _ eq_refl). apply Forall_app.
    split; [destruct k; by apply version_byte_lit|apply show_version_byte; cbn in *; lia].
  - destruct (post v) as [n|]; [|constructor]. specialize (Ho _ eq_refl). apply Forall_app.
    split; [by apply version_byte_lit|apply show_version_byte; lia].
  - destruct (dev v) as [n|]; [|constructor]. specialize (Hd _ eq_refl). apply Forall_app.
    split; [by apply version_byte_lit|apply show_version_byte; lia].
  - destruct l as [|s l]; [constructor|]. unfold local_text. apply Forall_app.
    split; [by apply version_byte_lit|by apply segments_version_bytes].
Qed.

Lemma version_display_bytes v : canonical v = true -> Forall text_byte (version_display v).
Proof. intros H. eapply Forall_impl; [by apply version_display_chars|]. apply version_byte_text. Qed.

Lemma text_u8 l : Forall text_byte l -> Forall is_u8 l.
Proof. intros H. eapply Forall_impl; [exact H|]. unfold text_byte, is_u8, u8_max. cbn. lia. Qed.

Lemma version_display_u8 v : canonical v = true -> Forall is_u8 (version_display v).
Proof. intros H. by apply text_u8, version_display_bytes. Qed.

(** A printed version starts with a digit. *)
Lemma version_display_head v : canonical v = true ->
  exists d r, version_display v = d :: r /\ is_ascii_digit d = true.
Proof.
  intros H. pose proof (real_elim v (canonical_real v H)) as R.
  assert (S : forall n r, 0 <= n <= u64_max -> exists d r', show_u64 n ++ r = d :: r' /\ is_ascii_digit d = true).
  { intros n r Hn. destruct (show_u64_spec n Hn) as (Hne & Hd & _). destruct (show_u64 n) as [|d ds]; [done|].
    inv Hd. by exists d, (ds ++ r). }
  pose proof (real_epoch _ R) as He. pose proof (real_release _ R) as Hr. pose proof (real_nonempty _ R) as Hne.
  unfold version_display. destruct (negb _).
  - rewrite <- app_assoc. apply S. lia.
  - cbn [app]. destruct Hr as [|x l Hx Hl]; [done|]. cbn [display_release]. rewrite <- app_assoc. apply S. lia.
Qed.

Lemma display_segments_length l : Forall (fun s => segment_canonical s = true) l ->
  (length l <= length (display_segments l))%nat.
Proof.
  intros H. induction H as [|s l Hs Hl IH]; [done|].
  destruct (display_segment_spec s Hs) as (Hne & _). destruct (display_segment s) as [|b t] eqn:E; [done|].
  destruct l as [|s' l].
  - cbn [display_segments]. rewrite E. simpl. lia.
  - change (display_segments (s :: s' :: l)) with (display_segment s ++ bs "." ++ display_segments (s' :: l)).
    rewrite E, !length_app. simpl in *. lia.
Qed.

(** The record a version stands for. *)
Lemma canonical_full v l : canonical v = true -> local v = Segments l ->
  make_full v = mkFull (epoch v) (release v) (pre v) (post v) (dev v) (Segments l) None None.
Proof.
  intros H El. destruct (real_elim v (canonical_real v H)) as [_ _ _ _ _ _ _ Hmin Hmax _].
  rewrite epoch_view, release_view, pre_view, post_view, dev_view. rewrite local_view in El.
  rewrite vmin_view in Hmin. rewrite vmax_view in Hmax. destruct (make_full v). cbn in *. congruence.
Qed.

Lemma map_decimal_show r : Forall (fun x => 0 <= x < u64_max) r ->
  map (decimal_from 0) (map show_u64 r) = r.
Proof.
  intros H. induction H as [|x r Hx Hr IH]; [done|]. cbn [map]. rewrite IH, show_decimal by lia. done.
Qed.

Lemma printed_release v : real_facts v -> Forall segment_text (map show_u64 (release v)).
Proof.
  intros R. apply Forall_fmap. eapply Forall_impl; [apply (real_release _ R)|]. intros x. apply show_segment_text.
Qed.

Lemma printed_epoch v : real_facts v ->
  (forall es, display_epoch v = Some es -> segment_text es) /\ epoch_value (display_epoch v) = epoch v.
Proof.
  intros R. pose proof (real_epoch _ R) as He. unfold display_epoch. destruct (Z.eqb_spec (epoch v) 0) as [->|_].
  - done.
  - split; [intros ? [= <-]; by apply show_segment_text|]. cbn. apply show_decimal. lia.
Qed.

(** One unit of fuel per byte covers the release and the local segments. *)
Lemma printed_lengths v l : real_facts v -> local v = Segments l ->
  Forall (fun s => segment_canonical s = true) l ->
  (length (map show_u64 (release v)) <= length (version_display v))%nat /\
  (length l <= length (version_display v))%nat.
Proof.
  intros R El Hl. rewrite (version_display_text v l El), !length_app. split.
  - pose proof (release_text_length (map show_u64 (release v))) as L. lapply L; [lia|].
    eapply Forall_impl; [apply printed_release, R|]. by intros ? [].
  - pose proof (display_segments_length l Hl) as L. destruct l; simpl in *; lia.
Qed.

Lemma general_pattern_display v : canonical v = true ->
  exists w, general_pattern (version_display v) = Ret (Ok (mkPattern w false)) /\
    make_full w = make_full v /\ version_ok w = true.
Proof.
  intros H. pose proof (real_elim v (canonical_real v H)) as R.
  destruct (canonical_local v H) as (l & El & Hl). destruct (printed_epoch v R) as [He Ee].
  destruct (printed_lengths v l R El Hl) as [L1 L2].
  destruct (pre_boundary (pre v) (post v) (dev v) l) as (_ & B1 & B2).
  destruct (head_run (display_epoch v) (map show_u64 (release v)) _ (version_display v)
    (S (length (version_display v))) (version_display_text v l El)) as
    (p & Erun & Hat & Epv & Eep & Hok & Esl & Fp & Fpo & Fd & Fl & Fw);
    [by destruct (release v) eqn:?; [destruct (real_nonempty _ R)|]|by apply printed_release|done|done|done|lia|].
  destruct (pattern_tail_at (S (length (version_display v))) p (pre v) (post v) (dev v) l Hat Fp Fpo Fd Fl
    (real_pre _ R) (real_post _ R) (real_dev _ R) Hl ltac:(lia)) as (k & Etail & Hend).
  cbv zeta in *. set (q := set_local l _) in *. rewrite map_decimal_show in Esl by apply (real_release _ R).
  destruct (into_pattern_run q) as (w & Ew & Vw & Ow).
  { split; cbn [q p_release p_epoch p_pre p_post p_dev p_local set_local set_dev set_post set_pre adv set_i].
    - apply Hend.
    - done.
    - rewrite Esl. apply (real_release _ R).
    - rewrite Eep, Ee. apply (real_epoch _ R).
    - apply (real_pre _ R).
    - apply (real_post _ R).
    - apply (real_dev _ R).
    - done. }
  { cbn. rewrite Esl. apply (real_nonempty _ R). }
  exists w. unfold general_pattern, run. rewrite Erun, Etail, Ew. cbn [q p_wildcard set_local set_dev set_post set_pre adv set_i].
  rewrite Fw. split; [done|]. split; [|done]. rewrite Vw, (canonical_full v l H El). unfold parsed_full. cbn.
  by rewrite Esl, Eep, Ee.
Qed.

(** Versions as the parser builds them: canonical, and with the representation
    (packed or not) that [into_pattern] chooses for their components. *)
Definition parsed (v : Version) : Prop := canonical v = true /\ rebuild (make_full v) = Ret v.

Lemma pattern_of_display v vp : parsed v -> general_pattern (version_display v) = Ret (Ok vp) ->
  make_full (vp_version vp) = make_full v -> vp_version vp = v.
Proof.
  intros [_ Hb] E V. destruct (general_pattern_total (version_display v)) as (r & E' & Hr).
  rewrite E in E'. injection E' as <-. destruct (Hr vp eq_refl) as (_ & Hb' & _).
  rewrite V in Hb'. congruence.
Qed.

Lemma parse_pattern_display v : parsed v ->
  parse_pattern (version_display v) = Ret (Ok (mkPattern v false)).
Proof.
  intros Hp. destruct (general_pattern_display v (proj1 Hp)) as (w & E & V & _).
  rewrite parse_pattern_is_general by (apply version_display_u8, Hp).
  pose proof (pattern_of_display v _ Hp E V) as W. cbn in W. by subst w.
Qed.

Lemma parse_pattern_parsed s vp : Forall is_u8 s -> parse_pattern s = Ret (Ok vp) ->
  parsed (vp_version vp) /\ (vp_wildcard vp = true -> plain (make_full (vp_version vp)) = true).
Proof.
  intros Hs. rewrite parse_pattern_is_general by done. intros E.
  destruct (general_pattern_total s) as (r & E' & Hr). rewrite E in E'. injection E' as <-.
  destruct (Hr vp eq_refl) as (? & ? & ?). by split; [split|].
Qed.

Lemma from_str_parsed s v : Forall is_u8 s -> version_from_str s = Ret (Ok v) -> parsed v.
Proof.
  intros Hs. unfold version_from_str. destruct (parse_pattern s) as [r|] eqn:E; [|done]. cbn [obind].
  intros [= H]. destruct r as [vp|[e|]]; [|done|done]. destruct (vp_wildcard vp); [done|].
  injection H as <-. by destruct (parse_pattern_parsed s vp Hs E).
Qed.

Lemma version_total s : Forall is_char s -> exists r, version_from_str (utf8 s) = Ret r.
Proof.
  intros Hs. unfold version_from_str. rewrite parse_pattern_is_general by (by apply utf8_u8).
  destruct (general_pattern_total (utf8 s)) as (r & -> & _). by eexists.
Qed.

(** Everything the program reads of a version is a function of its record. *)
Lemma display_full v w : make_full v = make_full w -> version_display v = version_display w.
Proof.
  intros E. unfold version_display.
  by rewrite !epoch_view, !release_view, !pre_view, !post_view, !dev_view, !local_view, E.
Qed.

Lemma display_injective v w : canonical v = true -> canonical w = true ->
  version_display v = version_display w -> make_full v = make_full w.
Proof.
  intros Hv Hw E. destruct (general_pattern_display v Hv) as (v' & Ev & <- & _).
  destruct (general_pattern_display w Hw) as (w' & Ew & <- & _). rewrite E, Ew in Ev. congruence.
Qed.

(** ** Wildcards *)

Lemma plain_suffix v : canonical v = true -> plain (make_full v) = true ->
  pre v = None /\ post v = None /\ dev v = None /\ local v = Segments [].
Proof.
  intros Hc H. unfold plain in H. rewrite <- pre_view, <- post_view, <- dev_view, <- local_view in H.
  apply andb_prop in H as [[[H1 H2]%andb_prop H3]%andb_prop H4].
  destruct (pre v), (post v), (dev v); try done. destruct (canonical_local v Hc) as (l & El & _).
  rewrite El in *. by destruct l.
Qed.

(** [.*] after a printed release is read as a wildcard. *)
Lemma general_pattern_star v : canonical v = true -> plain (make_full v) = true ->
  exists w, general_pattern (version_display v ++ bs ".*") = Ret (Ok (mkPattern w true)) /\
    make_full w = make_full v.
Proof.
  intros H Hpl. pose proof (real_elim v (canonical_real v H)) as R.
  destruct (plain_suffix v H Hpl) as (Ep & Eo & Ed & El). destruct (printed_epoch v R) as [He Ee].
  destruct (printed_lengths v [] R El ltac:(constructor)) as [L1 _].
  pose proof (version_display_text v [] El) as T. rewrite Ep, Eo, Ed in T. cbn [pre_text post_text dev_text local_text app] in T.
  rewrite app_nil_r in T. set (text := version_display v ++ bs ".*").
  destruct (head_run (display_epoch v) (map show_u64 (release v)) (bs ".*") text (S (length text))) as
    (p & Erun & Hat & Epv & Eep & Hok & Esl & Fp & Fpo & Fd & Fl & Fw);
    [unfold text; by rewrite T, <- app_assoc
    |by destruct (release v) eqn:?; [destruct (real_nonempty _ R)|]|by apply printed_release|done
    |done|done|unfold text; rewrite length_app; lia|].
  rewrite map_decimal_show in Esl by apply (real_release _ R).
  set (q := set_wildcard true (adv 2 p)).
  assert (Etail : pattern_tail (S (length text)) p = into_pattern q).
  { unfold pattern_tail. rewrite (pbind_ok _ _ p true q); [done|]. unfold parse_wildcard.
    rewrite (pbind_ok _ _ _ _ _ (bump_if_yes (bs ".*") p [] ltac:(done) Hat)). cbn [negb].
    pose proof (at_adv p (bs ".*") [] Hat) as H1. by rewrite (pbind_ok _ _ _ _ _ (is_done_at _ _ H1)). }
  destruct (into_pattern_run q) as (w & Ew & Vw & Ow).
  { split; cbn [q p_release p_epoch p_pre p_post p_dev p_local set_wildcard adv set_i];
      rewrite ?Esl, ?Eep, ?Ee, ?Fp, ?Fpo, ?Fd, ?Fl; try done.
    - apply (at_adv p (bs ".*") [] Hat).
    - apply (real_release _ R).
    - apply (real_epoch _ R). }
  { cbn. rewrite Esl. apply (real_nonempty _ R). }
  exists w. unfold general_pattern, run. fold text. rewrite Erun, Etail, Ew. split; [done|].
  rewrite Vw, (canonical_full v [] H El). unfold parsed_full. cbn. by rewrite Esl, Eep, Ee, Fp, Fpo, Fd, Fl, Ep, Eo, Ed.
Qed.

Lemma parse_pattern_star v : parsed v -> plain (make_full v) = true ->
  parse_pattern (version_display v ++ bs ".*") = Ret (Ok (mkPattern v true)).
Proof.
  intros Hp Hpl. destruct (general_pattern_star v (proj1 Hp) Hpl) as (w & E & V).
  rewrite parse_pattern_is_general.
  - destruct (general_pattern_total (version_display v ++ bs ".*")) as (r & E' & Hr).
    rewrite E in E'. injection E' as <-. destruct (Hr _ eq_refl) as (_ & Hb & _). cbn in Hb.
    rewrite V, (proj2 Hp) in Hb. by injection Hb as ->.
  - apply Forall_app. split; [apply version_display_u8, Hp|by repeat constructor].
Qed.

(** ** Properties of printing *)

(** C16: printing a version the parser accepted and parsing the text again gives
    back the same version: the same epoch, release (trailing zeros included),
    pre-, post- and dev-release and local segments, and the same packed or
    unpacked representation. *)
Theorem display_roundtrip s v : Forall is_u8 s -> version_from_str s = Ret (Ok v) ->
  version_from_str (version_display v) = Ret (Ok v).
Proof.
  intros Hs Hv. apply from_str_parsed in Hv; [|done]. unfold version_from_str.
  by rewrite (parse_pattern_display v Hv).
Qed.

Lemma display_roundtrip_witness : exists v,
  version_from_str (bs " v1!02.0-alpha_3.r4_dev+Ubuntu-01") = Ret (Ok v) /\
  version_from_str (version_display v) = Ret (Ok v).
Proof.
  eexists. split; [vm_compute; reflexivity|].
  apply (display_roundtrip (bs " v1!02.0-alpha_3.r4_dev+Ubuntu-01"));
    [repeat constructor; vm_compute; discriminate|vm_compute; reflexivity].
Defined.
