(* ===== verification/VersionRecord.v ===== *)
(** * Versions: reasoning on records

    Lemmas that the specifiers and the ranges share: the order as a function of
    the record a version stands for, the comparison of releases up to trailing
    zeros, prefixes of releases, and how the setters act on real versions. *)

From Stdlib Require Import ZArith Lia String.
From stdpp Require Import base list.
From S2P Require Import Prelude.
From S2P Require Import VersionRepr.
From S2P Require Import VersionOrder.
Open Scope Z_scope.

(** ** The order on records *)

Definition full_tuple (f : VersionFull) : SortTuple := sortable_tuple (Full f).

Definition full_cmp (f g : VersionFull) : comparison :=
  then_with (f_epoch f ?= f_epoch g)
    (then_with (pad_cmp (f_release f) (f_release g)) (tuple_cmp (full_tuple f) (full_tuple g))).

Lemma sortable_tuple_full v : sortable_tuple v = full_tuple (make_full v).
Proof.
  unfold full_tuple, sortable_tuple. cbn [pre post dev vmin vmax local].
  by rewrite <- pre_view, <- post_view, <- dev_view, <- vmin_view, <- vmax_view, <- local_view.
Qed.

Lemma cmp_full v w : wf v = true -> wf w = true -> cmp v w = full_cmp (make_full v) (make_full w).
Proof.
  intros Hv Hw. rewrite cmp_key, <- cmp_slow_key by done. unfold cmp_slow, full_cmp.
  rewrite compare_release_pad, !sortable_tuple_full, <- !epoch_view, <- !release_view.
  by destruct (epoch v ?= epoch w), (pad_cmp (release v) (release w)).
Qed.

Lemma cmp_laws_on v w u : wf v = true -> wf w = true -> wf u = true ->
  cmp v w = CompOpp (cmp w v) /\ (cmp v w <> Gt -> cmp w u <> Gt -> cmp v u <> Gt) /\
  (cmp v w = Eq -> cmp v u = cmp w u /\ cmp u v = cmp u w).
Proof.
  intros Hv Hw Hu. rewrite !cmp_key by done. split; [apply (ord_sym key_cmp)|].
  split; [apply (ord_le_trans key_cmp)|]. intros E.
  split; [by apply (ord_eq_l key_cmp)|by apply (ord_eq_r key_cmp)].
Qed.

(** Real versions that compare equal agree on everything but trailing zeros. *)
Lemma real_eq_components v w : real v = true -> real w = true -> cmp v w = Eq ->
  epoch v = epoch w /\ trim_zeros (release v) = trim_zeros (release w) /\
  pre v = pre w /\ post v = post w /\ dev v = dev w /\ local v = local w.
Proof.
  intros Hv Hw E. rewrite cmp_key in E by (by apply real_wf). apply (ord_eq key_cmp) in E.
  injection E as E1 E2 E3. split; [done|]. split; [done|].
  by apply sortable_tuple_inj; [apply real_elim..|].
Qed.

(** ** Releases up to trailing zeros *)

Definition nonneg (l : list Z) : Prop := Forall (fun x => 0 <= x) l.

Lemma real_nonneg v : real v = true -> nonneg (release v).
Proof.
  intros H. eapply Forall_impl; [apply (real_release _ (real_elim v H))|]. simpl. lia.
Qed.

Lemma pad_cmp_refl l : pad_cmp l l = Eq.
Proof. rewrite <- compare_release_pad. apply compare_release_refl. Qed.

Lemma pad_cmp_sym l k : pad_cmp l k = CompOpp (pad_cmp k l).
Proof.
  revert k. induction l as [|x l IH]; intros k.
  - rewrite pad_cmp_nil_r. by rewrite CompOpp_involutive.
  - destruct k as [|y k]; [by rewrite pad_cmp_nil_r|]. cbn [pad_cmp].
    by rewrite IH, then_with_opp, <- Z.compare_antisym.
Qed.

Lemma pad_cmp_Eq_trim l k : nonneg l -> nonneg k -> pad_cmp l k = Eq ->
  trim_zeros l = trim_zeros k.
Proof. intros Hl Hk. rewrite pad_cmp_trim by done. apply (ord_eq (list_cmp Z.compare)). Qed.

Lemma pad_cmp_trim_l l l' k : nonneg l -> nonneg l' -> nonneg k ->
  trim_zeros l = trim_zeros l' -> pad_cmp l k = pad_cmp l' k.
Proof. intros. rewrite !pad_cmp_trim by done. congruence. Qed.

Lemma pad_cmp_nil_nonneg l : nonneg l -> pad_cmp l [] <> Lt.
Proof.
  induction 1 as [|x l Hx Hl IH]; [done|]. cbn [pad_cmp].
  destruct (Z.compare_spec x 0); [done|lia|done].
Qed.

Lemma pad_cmp_nil_zero k p : nonneg k -> pad_cmp [] k <> Lt -> p `prefix_of` k -> prefix_padded p [] = true.
Proof.
  intros Hk. revert p. induction Hk as [|y k Hy Hk IH]; intros p Hc [q Hq].
  - by destruct p.
  - destruct p as [|x p]; [done|]. cbn [app] in Hq. injection Hq as <- ->.
    cbn [pad_cmp] in Hc. cbn [prefix_padded]. destruct (Z.compare_spec 0 y) as [<-|?|?]; [|done|lia].
    cbn [Z.eqb andb]. apply IH; [done|by exists q].
Qed.

Lemma prefix_padded_trim p r : prefix_padded p r = prefix_padded p (trim_zeros r).
Proof.
  revert r. induction p as [|x p IH]; intros r; [by destruct r, (trim_zeros _)|].
  destruct r as [|y r]; [done|]. rewrite trim_zeros_cons.
  destruct (Z.eqb_spec y 0) as [->|Hy]; cbn [andb].
  - destruct (trim_zeros r) as [|z t] eqn:E; cbn [list_cmp is_eq prefix_padded]; rewrite IH, E; [|done].
    by rewrite (Z.eqb_sym x 0).
  - cbn [prefix_padded]. by rewrite IH.
Qed.

(** The releases that start with [p.m] (zeros implied) are those from [p.m] up
    to but excluding [p.(m+1)]. *)
Lemma prefix_padded_interval p m r : nonneg r -> 0 <= m ->
  prefix_padded (p ++ [m]) r = is_ge (pad_cmp r (p ++ [m])) && is_lt (pad_cmp r (p ++ [m + 1])).
Proof.
  intros Hr Hm. revert r Hr. induction p as [|x p IH]; intros r Hr.
  - destruct r as [|y r]; cbn [app prefix_padded pad_cmp].
    + destruct (Z.compare_spec 0 m), (Z.compare_spec 0 (m + 1)); destruct (Z.eqb_spec m 0); subst; cbn; try lia; done.
    + inv Hr. assert (Hn : pad_cmp r [] <> Lt) by (by apply pad_cmp_nil_nonneg).
      destruct (Z.compare_spec y m), (Z.compare_spec y (m + 1)), (Z.eqb_spec m y); subst; cbn; try lia; try done;
        by destruct (pad_cmp r []).
  - destruct r as [|y r]; cbn [app prefix_padded pad_cmp].
    + change ((fix go k := match k with [] => Eq | y :: k' => then_with (0 ?= y) (go k') end) (p ++ [m]))
        with (pad_cmp [] (p ++ [m])).
      change ((fix go k := match k with [] => Eq | y :: k' => then_with (0 ?= y) (go k') end) (p ++ [m + 1]))
        with (pad_cmp [] (p ++ [m + 1])).
      destruct (Z.compare_spec 0 x), (Z.eqb_spec x 0); subst; cbn; try lia; try done. by apply IH.
    + inv Hr. destruct (Z.compare_spec y x), (Z.eqb_spec x y); subst; cbn; try lia; try done. by apply IH.
Qed.

(** ** Setters on real versions *)

Lemma real_intro v f : make_full v = f -> version_ok v = true -> full_real f = true -> real v = true.
Proof. intros <- Ho Hf. unfold real. by rewrite Ho, Hf. Qed.

Lemma without_local_real v : real v = true -> real (without_local v) = true /\
  make_full (without_local v) = set_f_local (make_full v) local_empty.
Proof.
  intros H. unfold real in H. apply andb_prop in H as [Ho Hf].
  destruct (without_local_view v Ho) as [V O]. split; [|done].
  apply (real_intro _ _ V O). unfold full_real in *. cbn in *.
  rewrite !andb_true_iff in *. tauto.
Qed.

(** A new version is a real one. *)
Lemma version_new_real rs : Forall (fun x => 0 <= x < u64_max) rs -> rs <> [] ->
  exists w, version_new rs = Ret w /\ make_full w = plain_full rs /\ real w = true.
Proof.
  intros Hrs Hne. destruct (version_new_view rs) as (w & E & V & O); [|done|].
  { eapply Forall_impl; [exact Hrs|]. simpl. lia. }
  exists w. split; [done|]. split; [done|]. apply (real_intro _ _ V O). unfold full_real, plain_full. cbn.
  assert (forallb below_max rs = true) as ->.
  { apply forallb_forall. intros x Hx%list_elem_of_In. rewrite Forall_forall in Hrs. by apply below_max_iff, Hrs. }
  by destruct rs.
Qed.

Lemma with_dev_real v n : real v = true -> 0 <= n < u64_max -> real (with_dev v (Some n)) = true /\
  make_full (with_dev v (Some n)) = set_f_dev (make_full v) (Some n).
Proof.
  intros H Hn. unfold real in H. apply andb_prop in H as [Ho Hf].
  destruct (with_dev_view v (Some n) Ho) as [V O]; [intros ? [= <-]; lia|]. split; [|done].
  apply (real_intro _ _ V O). apply below_max_iff in Hn. unfold full_real in *. cbn [set_f_dev set_f_epoch f_epoch f_release f_pre f_post f_dev f_local f_min f_max opt_all] in *.
  rewrite !andb_true_iff in *. tauto.
Qed.

Lemma with_epoch_real v n : real v = true -> 0 <= n < u64_max -> real (with_epoch v n) = true /\
  make_full (with_epoch v n) = set_f_epoch (make_full v) n.
Proof.
  intros H Hn. unfold real in H. apply andb_prop in H as [Ho Hf].
  destruct (with_epoch_view v n Ho) as [V O]. split; [|done].
  apply (real_intro _ _ V O). apply below_max_iff in Hn. unfold full_real in *. cbn [set_f_dev set_f_epoch f_epoch f_release f_pre f_post f_dev f_local f_min f_max opt_all] in *.
  rewrite !andb_true_iff in *. tauto.
Qed.

(** A version without pre-, post- and dev-release. *)
Definition final (v : Version) : bool := is_none (pre v) && is_none (post v) && is_none (dev v).

Lemma final_tuple v : real v = true -> final v = true -> sortable_tuple v = (5, (0, (None, (0, local v)))).
Proof.
  intros H F. rewrite sortable_tuple_real by (by apply real_elim). unfold final in F.
  by destruct (pre v), (post v), (dev v).
Qed.

(** Final versions with the same local version are ordered by epoch and release. *)
Lemma cmp_final v w : real v = true -> real w = true -> final v = true -> final w = true ->
  local v = local w ->
  cmp v w = then_with (epoch v ?= epoch w) (pad_cmp (release v) (release w)).
Proof.
  intros Hv Hw Fv Fw El. rewrite cmp_full by (by apply real_wf). unfold full_cmp.
  rewrite <- !epoch_view, <- !release_view, <- !sortable_tuple_full, !final_tuple, El, (ord_refl tuple_cmp) by done.
  by destruct (pad_cmp _ _).
Qed.

(** ** Bounds given by a release *)

Lemma pad_cmp_app p a b : pad_cmp (p ++ a) (p ++ b) = pad_cmp a b.
Proof. induction p as [|x p IH]; [done|]. cbn [app pad_cmp]. by rewrite Z.compare_refl. Qed.

Lemma pad_cmp_le_trans a b c : nonneg a -> nonneg b -> nonneg c ->
  pad_cmp a b <> Gt -> pad_cmp b c <> Gt -> pad_cmp a c <> Gt.
Proof. intros Ha Hb Hc. rewrite !pad_cmp_trim by done. apply (ord_le_trans (list_cmp Z.compare)). Qed.

(** The record of a release with an epoch and nothing else. *)
Definition bare (e : Z) (rs : list Z) : VersionFull := mkFull e rs None None None local_empty None None.

Lemma bare_tuple e rs : full_tuple (bare e rs) = (5, (0, (None, (0, local_empty)))).
Proof. done. Qed.

Lemma local_cmp_empty l : local_cmp l local_empty <> Lt.
Proof. by destruct l as [[|]|]. Qed.

(** Every real suffix is at least [.dev0]. *)
Lemma dev0_least v : real v = true ->
  tuple_cmp (sortable_tuple v) (1, (0, (None, (0, local_empty)))) <> Lt.
Proof.
  intros H. pose proof (real_elim v H) as R. rewrite sortable_tuple_real by done.
  pose proof (real_dev _ R) as Hd. unfold tuple_cmp, pair_cmp.
  destruct (pre v) as [[k n]|]; [by destruct k|]. destruct (post v); [done|].
  destruct (dev v) as [n|]; [|done]. specialize (Hd n eq_refl). cbn -[local_cmp].
  destruct (Z.compare_spec n 0); [|lia|done]. cbn -[local_cmp]. apply local_cmp_empty.
Qed.

(** No suffix that is not a pre-release is below the final release. *)
Lemma final_below v : real v = true -> any_prerelease v = false ->
  tuple_cmp (sortable_tuple v) (5, (0, (None, (0, local_empty)))) <> Lt.
Proof.
  intros H Hp. pose proof (real_elim v H) as R. rewrite sortable_tuple_real by done.
  unfold any_prerelease, is_pre, is_dev in Hp. unfold tuple_cmp, pair_cmp.
  destruct (pre v); [done|]. destruct (dev v); [by rewrite orb_true_r in Hp|]. destruct (post v); [done|].
  cbn -[local_cmp]. apply local_cmp_empty.
Qed.

Lemma with_dev_wf v n : wf v = true -> vmin v = None -> vmax v = None -> 0 <= n <= u64_max ->
  wf (with_dev v (Some n)) = true /\ make_full (with_dev v (Some n)) = set_f_dev (make_full v) (Some n).
Proof.
  intros H Hmin Hmax Hn. unfold wf in *. apply andb_prop in H as [Ho Hf].
  destruct (with_dev_view v (Some n) Ho) as [V O]; [intros ? [= <-]; lia|]. split; [|done].
  rewrite O, V. apply u64b_iff in Hn. rewrite vmin_view in Hmin. rewrite vmax_view in Hmax. unfold full_wf in *.
  cbn [set_f_dev f_epoch f_release f_pre f_post f_dev f_local f_min f_max opt_all] in *.
  rewrite Hmin, Hmax in *. rewrite !andb_true_iff in *. tauto.
Qed.

(** ** The order without the local version *)

Definition BaseTuple : Type := Z * (Z * (option Z * Z)).

Definition base_tuple (f : VersionFull) : BaseTuple :=
  let '(a, (b, (c, (d, _)))) := full_tuple f in (a, (b, (c, d))).

Definition base_tuple_cmp : BaseTuple -> BaseTuple -> comparison :=
  pair_cmp Z.compare (pair_cmp Z.compare (pair_cmp (option_cmp Z.compare) Z.compare)).

(** The comparison of two records up to their local versions. *)
Definition base_cmp (f g : VersionFull) : comparison :=
  then_with (f_epoch f ?= f_epoch g)
    (then_with (pad_cmp (f_release f) (f_release g)) (base_tuple_cmp (base_tuple f) (base_tuple g))).

Lemma full_tuple_base f :
  full_tuple f = let '(a, (b, (c, d))) := base_tuple f in (a, (b, (c, (d, f_local f)))).
Proof.
  unfold base_tuple. destruct f as [e r p o d l mi ma]. unfold full_tuple, sortable_tuple. cbn.
  by destruct mi, p as [[[] ?]|], ma, o, d.
Qed.

Lemma full_cmp_base f g : full_cmp f g = then_with (base_cmp f g) (local_cmp (f_local f) (f_local g)).
Proof.
  unfold full_cmp, base_cmp. rewrite (full_tuple_base f), (full_tuple_base g).
  destruct (base_tuple f) as (a & b & c & d), (base_tuple g) as (a' & b' & c' & d').
  unfold tuple_cmp, base_tuple_cmp, pair_cmp. cbn [fst snd].
  destruct (f_epoch f ?= f_epoch g), (pad_cmp _ _), (a ?= a'), (b ?= b'), (option_cmp _ c c'), (d ?= d'); done.
Qed.

Lemma base_tuple_local f l : base_tuple (set_f_local f l) = base_tuple f.
Proof.
  unfold base_tuple. destruct f as [e r p o d k mi ma]. unfold full_tuple, sortable_tuple. cbn.
  by destruct mi, p as [[[] ?]|], ma, o, d.
Qed.

Lemma base_cmp_local f g l : base_cmp (set_f_local f l) g = base_cmp f g /\ base_cmp f (set_f_local g l) = base_cmp f g.
Proof. unfold base_cmp. rewrite !base_tuple_local. done. Qed.

Lemma base_cmp_refl f : base_cmp f f = Eq.
Proof.
  unfold base_cmp. rewrite Z.compare_refl, pad_cmp_refl. unfold base_tuple_cmp.
  apply (ord_refl (pair_cmp Z.compare (pair_cmp Z.compare (pair_cmp (option_cmp Z.compare) Z.compare)))).
Qed.

(** The base tuple of a real version. *)
Lemma base_tuple_real v : real v = true ->
  base_tuple (make_full v) =
  match pre v with
  | Some p => (kind_discriminant (pre_kind p) + 2, (pre_number p, (post v, default u64_max (dev v))))
  | None =>
      match post v, dev v with
      | None, Some n => (1, (0, (None, n)))
      | None, None => (5, (0, (None, 0)))
      | Some p, d => (6, (0, (Some p, default u64_max d)))
      end
  end.
Proof.
  intros H. unfold base_tuple. rewrite <- sortable_tuple_full, sortable_tuple_real by (by apply real_elim).
  by destruct (pre v), (post v), (dev v).
Qed.

(** A final version without local version is an epoch and a release. *)
Lemma final_bare t : real t = true -> final t = true -> local t = local_empty ->
  make_full t = bare (epoch t) (release t).
Proof.
  intros Ht Hf El. destruct (real_elim t Ht) as [_ _ _ _ _ _ _ Hmin Hmax _]. unfold final in Hf.
  rewrite epoch_view, release_view, pre_view, post_view, dev_view, local_view, vmin_view, vmax_view in *.
  destruct (make_full t) as [? ? p o d ? ? ?]. cbn in *. unfold bare. destruct p, o, d; try done. congruence.
Qed.
