(* ===== verification/Specifier.v ===== *)
(** * Version specifiers: operators, membership, bounds

    Models [Operator] of [crates/uv-pep440/src/version.rs] and
    [VersionSpecifier], [VersionSpecifiers] and [TildeVersionSpecifier] of
    [crates/uv-pep440/src/version_specifier.rs], apart from parsing and printing
    (see the specifier parser).

    The theorems: membership does not depend on how the candidate is written;
    [~= V.N] is [>= V.N, == V.*]; [~=] agrees with its bounding specifiers where
    there is no epoch; negating an operator complements its set where no
    pre-, post- or dev-release is involved; sorting normalises a list of
    specifiers. *)

From Stdlib Require Import ZArith Lia String Sorting.Permutation Sorting.Sorted.
From stdpp Require Import base list sets.
From S2P Require Import Prelude.
From S2P Require Import VersionRepr.
From S2P Require Import VersionOrder.
From S2P Require Import VersionParser.
From S2P Require Import VersionDisplay.
From S2P Require Import VersionRecord.
Open Scope Z_scope.

(** ** Operators *)

Inductive Operator :=
| Equal
| EqualStar
| ExactEqual
| NotEqual
| NotEqualStar
| TildeEqual
| LessThan
| LessThanEqual
| GreaterThan
| GreaterThanEqual.

#[export] Instance Operator_eq_dec : EqDecision Operator.
Proof. solve_decision. Defined.

(** Derived [Ord] and [Hash] use the position of the constructor. *)
Definition op_index (o : Operator) : Z :=
  match o with
  | Equal => 0
  | EqualStar => 1
  | ExactEqual => 2
  | NotEqual => 3
  | NotEqualStar => 4
  | TildeEqual => 5
  | LessThan => 6
  | LessThanEqual => 7
  | GreaterThan => 8
  | GreaterThanEqual => 9
  end.

Definition op_cmp (a b : Operator) : comparison := op_index a ?= op_index b.
Definition op_eqb (a b : Operator) : bool := op_index a =? op_index b.

Definition negate (o : Operator) : option Operator :=
  match o with
  | Equal => Some NotEqual
  | EqualStar => Some NotEqualStar
  | ExactEqual => Some NotEqual
  | NotEqual => Some Equal
  | NotEqualStar => Some EqualStar
  | TildeEqual => None
  | LessThan => Some GreaterThanEqual
  | LessThanEqual => Some GreaterThan
  | GreaterThan => Some LessThanEqual
  | GreaterThanEqual => Some LessThan
  end.

Definition is_local_compatible (o : Operator) : bool :=
  negb (match o with
        | GreaterThan | GreaterThanEqual | LessThan | LessThanEqual | TildeEqual | EqualStar
        | NotEqualStar => true
        | _ => false
        end).

Definition to_star (o : Operator) : option Operator :=
  match o with Equal => Some EqualStar | NotEqual => Some NotEqualStar | _ => None end.

Definition is_star (o : Operator) : bool :=
  match o with EqualStar | NotEqualStar => true | _ => false end.

Definition as_str (o : Operator) : list Z :=
  match o with
  | Equal => bs "=="
  | EqualStar => bs "=="
  | ExactEqual => bs "==="
  | NotEqual => bs "!="
  | NotEqualStar => bs "!="
  | TildeEqual => bs "~="
  | LessThan => bs "<"
  | LessThanEqual => bs "<="
  | GreaterThan => bs ">"
  | GreaterThanEqual => bs ">="
  end.

(** [Operator::from_str]; the error carries the text. *)
Definition operator_from_str (s : list Z) : result Operator (list Z) :=
  if bytes_eqb s (bs "==") then Ok Equal
  else if bytes_eqb s (bs "===") then Ok ExactEqual
  else if bytes_eqb s (bs "!=") then Ok NotEqual
  else if bytes_eqb s (bs "~=") then Ok TildeEqual
  else if bytes_eqb s (bs "<") then Ok LessThan
  else if bytes_eqb s (bs "<=") then Ok LessThanEqual
  else if bytes_eqb s (bs ">") then Ok GreaterThan
  else if bytes_eqb s (bs ">=") then Ok GreaterThanEqual
  else Err s.

(** ** Specifiers *)

Record VersionSpecifier := mkSpec { operator : Operator; spec_version : Version }.

(** [impl PartialEq for VersionSpecifier] *)
Definition spec_eq (a b : VersionSpecifier) : bool :=
  if negb (op_eqb (operator a) (operator b)) then false
  else if op_eqb (operator a) TildeEqual
          && negb (Nat.eqb (length (release (spec_version a))) (length (release (spec_version b))))
  then false
  else version_eq (spec_version a) (spec_version b).

(** [impl Hash for VersionSpecifier] *)
Definition spec_hash (s : VersionSpecifier) : list write :=
  WriteIsize (op_index (operator s))
  :: (if op_eqb (operator s) TildeEqual then [WriteUsize (length (release (spec_version s)))] else [])
  ++ version_hash (spec_version s).

(** [impl Ord for VersionSpecifier] *)
Definition spec_cmp (a b : VersionSpecifier) : comparison :=
  then_with (op_cmp (operator a) (operator b))
    (then_with (cmp (spec_version a) (spec_version b))
      (if op_eqb (operator a) TildeEqual
       then Nat.compare (length (release (spec_version a))) (length (release (spec_version b)))
       else Eq)).

Inductive BuildErrorKind :=
| OperatorLocalCombo (operator : Operator) (version : Version)
| OperatorWithStar (operator : Operator)
| CompatibleRelease.

Definition from_version (operator : Operator) (version : Version)
    : result VersionSpecifier BuildErrorKind :=
  if is_local version && negb (is_local_compatible operator)
  then Err (OperatorLocalCombo operator version)
  else if op_eqb operator TildeEqual && Nat.ltb (length (release version)) 2
  then Err CompatibleRelease
  else Ok (mkSpec operator version).

Definition from_pattern (operator : Operator) (version_pattern : VersionPattern)
    : result VersionSpecifier BuildErrorKind :=
  if vp_wildcard version_pattern then
    match to_star operator with
    | Some starop => from_version starop (vp_version version_pattern)
    | None => Err (OperatorWithStar operator)
    end
  else from_version operator (vp_version version_pattern).

Definition spec_only_release (s : VersionSpecifier) : outcome VersionSpecifier :=
  outcome_map (mkSpec (operator s)) (only_release (spec_version s)).
Definition spec_only_minor_release (s : VersionSpecifier) : outcome VersionSpecifier :=
  outcome_map (mkSpec (operator s)) (only_minor_release (spec_version s)).

Definition equals_version (v : Version) := mkSpec Equal v.
Definition equals_star_version (v : Version) := mkSpec EqualStar v.
Definition not_equals_star_version (v : Version) := mkSpec NotEqualStar v.
Definition not_equals_version (v : Version) := mkSpec NotEqual v.
Definition greater_than_equal_version (v : Version) := mkSpec GreaterThanEqual v.
Definition greater_than_version (v : Version) := mkSpec GreaterThan v.
Definition less_than_equal_version (v : Version) := mkSpec LessThanEqual v.
Definition less_than_version (v : Version) := mkSpec LessThan v.

Definition spec_any_prerelease (s : VersionSpecifier) : bool := any_prerelease (spec_version s).

(** ** Membership *)

(** The candidate as it is compared: its local version is ignored unless the
    specifier has one. *)
Definition candidate (this version : Version) : Version :=
  if local_is_empty (local this) && negb (local_is_empty (local version))
  then without_local version else version.

(** [this.iter().zip(other).all(eq)] *)
Definition zip_all_eq (l k : list Z) : bool := forallb (fun '(x, y) => x =? y) (combine l k).

Definition contains_equal_star (this other : Version) : bool :=
  (epoch this =? epoch other) && prefix_padded (release this) (release other).

Definition contains_tilde_equal (this other : Version) : outcome bool :=
  assert (Nat.ltb 1 (length (release this)))
    (Ret (if negb (epoch this =? epoch other) then false
          else if negb (zip_all_eq (take (length (release this) - 1) (release this)) (release other))
          then false
          else is_ge (cmp other this))).

Definition contains_greater_than (this other : Version) : bool :=
  if epoch this <? epoch other then true
  else if is_eq (compare_release (release this) (release other))
          && (negb (is_post this) && is_post other)
  then false
  else if is_eq (compare_release (release this) (release other)) && is_local other
  then false
  else is_gt (cmp other this).

Definition contains_less_than (this other : Version) : bool :=
  if epoch other <? epoch this then true
  else if negb (any_prerelease this) && any_prerelease other
          && is_ge (cmp other (with_dev this (Some 0)))
  then false
  else is_lt (cmp other this).

(** [VersionSpecifier::contains] *)
Definition contains (s : VersionSpecifier) (version : Version) : outcome bool :=
  let this := spec_version s in
  let other := candidate this version in
  match operator s with
  | Equal => Ret (version_eq other this)
  | EqualStar => Ret (contains_equal_star this other)
  | ExactEqual => Ret (bytes_eqb (version_display this) (version_display version))
  | NotEqual => Ret (negb (version_eq this other))
  | NotEqualStar => Ret (negb (epoch this =? epoch other)
                         || negb (prefix_padded (release this) (release other)))
  | TildeEqual => contains_tilde_equal this other
  | GreaterThan => Ret (contains_greater_than this other)
  | GreaterThanEqual => Ret (is_ge (cmp other this))
  | LessThan => Ret (contains_less_than this other)
  | LessThanEqual => Ret (is_le (cmp other this))
  end.

Definition has_lower_bound (s : VersionSpecifier) : bool :=
  match operator s with
  | Equal | EqualStar | ExactEqual | TildeEqual | GreaterThan | GreaterThanEqual => true
  | LessThanEqual | LessThan | NotEqualStar | NotEqual => false
  end.

(** ** Specifiers from bounds *)

Abbreviation Bound := (BoundOf Version).

Definition result_unwrap {A E} (r : result A E) : outcome A :=
  match r with Ok a => Ret a | Err _ => Panic end.

Definition from_lower_bound (bound : Bound) : outcome (option VersionSpecifier) :=
  match bound with
  | Included version => outcome_map Some (result_unwrap (from_version GreaterThanEqual version))
  | Excluded version => outcome_map Some (result_unwrap (from_version GreaterThan version))
  | Unbounded => Ret None
  end.

Definition from_upper_bound (bound : Bound) : outcome (option VersionSpecifier) :=
  match bound with
  | Included version => outcome_map Some (result_unwrap (from_version LessThanEqual version))
  | Excluded version => outcome_map Some (result_unwrap (from_version LessThan version))
  | Unbounded => Ret None
  end.

Definition option_list {A} (o : option A) : list A := match o with Some a => [a] | None => [] end.

(** The pair of bounds as specifiers. *)
Definition from_bounds_pair (lower upper : Bound) : outcome (list VersionSpecifier) :=
  let! b1 := from_lower_bound lower in
  let! b2 := from_upper_bound upper in
  Ret (option_list b1 ++ option_list b2).

(** [VersionSpecifier::from_release_only_bounds] *)
Definition from_release_only_bounds (lower upper : Bound) : outcome (list VersionSpecifier) :=
  match lower, upper with
  | Included v1, Included v2 =>
      if version_eq v1 v2 then Ret [equals_version v1] else from_bounds_pair lower upper
  | Included v1, Excluded v2 =>
      let! t1 := only_release_trimmed v1 in
      match release t1 with
      | [major] =>
          let! t2 := only_release_trimmed v2 in
          if bytes_eqb (release t2) [major; 1] then
            let! version := version_new [major; 0] in
            Ret [equals_star_version version]
          else from_bounds_pair lower upper
      | [major; minor] =>
          let! t2 := only_release_trimmed v2 in
          let! next := add64 minor 1 in
          if bytes_eqb (release t2) [major; next] then
            let! version := version_new [major; minor] in
            Ret [equals_star_version version]
          else from_bounds_pair lower upper
      | _ => from_bounds_pair lower upper
      end
  | _, _ => from_bounds_pair lower upper
  end.

(** ** Lists of specifiers *)

Definition VersionSpecifiers : Type := list VersionSpecifier.

Definition specifiers_empty : VersionSpecifiers := [].

(** [self.iter().all(|specifier| specifier.contains(version))] *)
Fixpoint specifiers_contain (l : VersionSpecifiers) (version : Version) : outcome bool :=
  match l with
  | [] => Ret true
  | s :: l' =>
      let! b := contains s version in
      if b : bool then specifiers_contain l' version else Ret false
  end.

Definition unsorted_cmp (a b : VersionSpecifier) : comparison :=
  then_with (cmp (spec_version a) (spec_version b)) (op_cmp (operator a) (operator b)).

Definition from_unsorted (specifiers : list VersionSpecifier) : VersionSpecifiers :=
  sort_by unsorted_cmp specifiers.

(** [(from..to).map(|minor| not_equals_star_version(Version::new([major, minor])))] *)
Fixpoint star_gaps (major minor : Z) (count : nat) : outcome (list VersionSpecifier) :=
  match count with
  | O => Ret []
  | S n =>
      let! v := version_new [major; minor] in
      let! rest := star_gaps major (minor + 1) n in
      Ret (not_equals_star_version v :: rest)
  end.

(** The specifiers for the hole between two intervals. *)
Definition gap_specifiers (next lower : Bound) : outcome (list VersionSpecifier) :=
  match next, lower with
  | Excluded prev, Excluded low =>
      if version_eq prev low then Ret [not_equals_version prev] else Ret []
  | Excluded prev, Included low =>
      let! prev := only_release_trimmed prev in
      let! low := only_release_trimmed low in
      match release prev, release low with
      | [major], [lower_major; lower_minor] =>
          if major =? lower_major then star_gaps major 0 (Z.to_nat lower_minor) else Ret []
      | [major; minor], [lower_major; lower_minor] =>
          if (major =? lower_major) && (minor <? lower_minor)
          then star_gaps major minor (Z.to_nat (lower_minor - minor)) else Ret []
      | _, _ => Ret []
      end
  | _, _ => Ret []
  end.

(** The loop over the intervals: the last upper bound and the specifiers. *)
Fixpoint gaps_loop (next : Bound) (specifiers : list VersionSpecifier) (bounds : list (Bound * Bound))
    : outcome (Bound * list VersionSpecifier) :=
  match bounds with
  | [] => Ret (next, specifiers)
  | (lower, upper) :: bounds' =>
      let! gap := gap_specifiers next lower in
      gaps_loop upper (specifiers ++ gap) bounds'
  end.

(** [VersionSpecifiers::from_release_only_bounds] *)
Definition specifiers_from_release_only_bounds (bounds : list (Bound * Bound))
    : outcome VersionSpecifiers :=
  match bounds with
  | [] => Ret specifiers_empty
  | (start, next) :: rest =>
      let! r := gaps_loop next [] rest in
      let! ends := from_release_only_bounds start r.1 in
      Ret (from_unsorted (r.2 ++ ends))
  end.

(** ** [TildeVersionSpecifier] *)

Record TildeVersionSpecifier := mkTilde { tilde_inner : VersionSpecifier }.

Definition tilde_new (s : VersionSpecifier) : option TildeVersionSpecifier :=
  if negb (op_eqb (operator s) TildeEqual) then None
  else if Nat.ltb (length (release (spec_version s))) 2 || Nat.ltb 3 (length (release (spec_version s)))
  then None
  else if any_prerelease (spec_version s) || is_local (spec_version s) || is_post (spec_version s)
  then None
  else Some (mkTilde s).

Definition has_patch (t : TildeVersionSpecifier) : bool :=
  Nat.eqb (length (release (spec_version (tilde_inner t)))) 3.

Definition bounding_specifiers (t : TildeVersionSpecifier)
    : outcome (VersionSpecifier * VersionSpecifier) :=
  let r := release (spec_version (tilde_inner t)) in
  let! upper :=
    (if has_patch t then
       let! r0 := unwrap (r !! 0%nat) in
       let! r1 := unwrap (r !! 1%nat) in
       let! next := add64 r1 1 in
       version_new [r0; next]
     else
       let! r0 := unwrap (r !! 0%nat) in
       let! next := add64 r0 1 in
       version_new [next]) in
  Ret (greater_than_equal_version (spec_version (tilde_inner t)), less_than_version upper).

Definition with_patch_version (t : TildeVersionSpecifier) (patch : Z)
    : outcome TildeVersionSpecifier :=
  let r := release (spec_version (tilde_inner t)) in
  let r := if has_patch t then removelast r else r in
  let! v := version_new (r ++ [patch]) in
  let! s := result_unwrap (from_version TildeEqual v) in
  unwrap (tilde_new s).

(** ** Well-formed specifiers *)

(** A specifier as [from_version] accepts it. *)
Definition spec_valid (s : VersionSpecifier) : bool :=
  implb (is_local (spec_version s)) (is_local_compatible (operator s))
  && implb (op_eqb (operator s) TildeEqual) (Nat.ltb 1 (length (release (spec_version s)))).

Definition spec_real (s : VersionSpecifier) : bool := real (spec_version s) && spec_valid s.

(** ** Lemmas on operators and candidates *)

Lemma op_index_inj a b : op_index a = op_index b -> a = b.
Proof. by destruct a, b. Qed.

Lemma op_eqb_eq a b : op_eqb a b = true <-> a = b.
Proof. unfold op_eqb. rewrite Z.eqb_eq. split; [apply op_index_inj|by intros ->]. Qed.

Lemma from_version_ok o v s : from_version o v = Ok s -> s = mkSpec o v /\ spec_valid s = true.
Proof.
  unfold from_version, spec_valid. destruct (is_local v) eqn:El, (is_local_compatible o) eqn:Ec;
    cbn [andb negb implb]; try done;
  (destruct (op_eqb o TildeEqual) eqn:Et; cbn [andb];
    [destruct (Nat.ltb_spec (length (release v)) 2); [done|]|]; intros [= <-]; split; try done;
    cbn [operator spec_version]; rewrite El, Et, ?Ec; cbn [implb andb]; try done;
    apply Nat.ltb_lt; lia).
Qed.

(** The facts about a candidate that membership depends on. *)
Lemma candidate_record this v : real v = true ->
  real (candidate this v) = true /\
  make_full (candidate this v) =
    if local_is_empty (local this) then set_f_local (make_full v) local_empty else make_full v.
Proof.
  intros H. unfold candidate. destruct (local_is_empty (local this)); cbn [andb]; [|done].
  destruct (local_is_empty (local v)) eqn:E; cbn [negb]; [|by apply without_local_real].
  split; [done|]. rewrite local_view in E. destruct (make_full v) as [? ? ? ? ? l ? ?]. cbn in *.
  by destruct l as [[|]|].
Qed.

Lemma candidate_same this v : real v = true ->
  epoch (candidate this v) = epoch v /\ release (candidate this v) = release v /\
  pre (candidate this v) = pre v /\ post (candidate this v) = post v /\
  dev (candidate this v) = dev v.
Proof.
  intros H. destruct (candidate_record this v H) as [_ E].
  rewrite !epoch_view, !release_view, !pre_view, !post_view, !dev_view, E.
  by destruct (local_is_empty (local this)).
Qed.

Lemma candidate_local this v : real v = true -> local_is_empty (local this) = true ->
  is_local (candidate this v) = false.
Proof.
  intros H E. destruct (candidate_record this v H) as [_ R]. unfold is_local.
  rewrite local_view, R, E. done.
Qed.

Lemma full_tuple_set_local f l :
  full_tuple (set_f_local f l) =
  let '(a, (b, (c, (d, _)))) := full_tuple f in (a, (b, (c, (d, l)))).
Proof.
  destruct f as [? ? p o d ? mi ma]. unfold full_tuple, sortable_tuple. cbn.
  by destruct mi, p as [[[] ?]|], ma, o, d.
Qed.

Lemma candidate_eq this v w : real v = true -> real w = true -> cmp v w = Eq ->
  cmp (candidate this v) (candidate this w) = Eq.
Proof.
  intros Hv Hw E. destruct (candidate_record this v Hv) as [Rv Ev], (candidate_record this w Hw) as [Rw Ew].
  rewrite cmp_full in * by (by apply real_wf). rewrite Ev, Ew.
  destruct (local_is_empty (local this)); [|done]. unfold full_cmp in *. cbn [f_epoch f_release set_f_local].
  destruct (f_epoch (make_full v) ?= f_epoch (make_full w)); [|done|done].
  destruct (pad_cmp _ _); [|done|done]. cbn [then_with] in *. apply (ord_eq tuple_cmp) in E.
  rewrite !full_tuple_set_local, E. apply (ord_refl tuple_cmp).
Qed.

(** ** Compatible releases *)

Lemma zip_all_prefix p r : prefix_padded p r = true -> zip_all_eq p r = true.
Proof.
  revert r. induction p as [|x p IH]; intros [|y r]; try done. unfold zip_all_eq.
  cbn [prefix_padded combine forallb]. intros [-> H]%andb_prop. by apply IH.
Qed.

Lemma zip_prefix_all p q r : nonneg (p ++ q) -> pad_cmp r (p ++ q) <> Lt -> zip_all_eq p r = true ->
  prefix_padded p r = true.
Proof.
  revert r. induction p as [|x p IH]; intros r Hn Hc Hz; [by destruct r|]. destruct r as [|y r].
  - apply (pad_cmp_nil_zero ((x :: p) ++ q)); [done|done|by exists q].
  - unfold zip_all_eq in Hz. cbn [combine forallb] in Hz. apply andb_prop in Hz as [Hx Hz].
    cbn [app prefix_padded]. rewrite Hx. apply Z.eqb_eq in Hx as ->. cbn [app pad_cmp] in Hc.
    rewrite Z.compare_refl in Hc. inv Hn. by apply IH.
Qed.

(** Without padding the test is the same, because the order test follows. *)
Lemma tilde_equal_prefix this other : real this = true -> real other = true ->
  (1 < length (release this))%nat ->
  contains_tilde_equal this other =
  Ret ((epoch this =? epoch other)
       && prefix_padded (take (length (release this) - 1) (release this)) (release other)
       && is_ge (cmp other this)).
Proof.
  intros Ht Ho Hl. unfold contains_tilde_equal.
  rewrite (proj2 (Nat.ltb_lt _ _)) by done. cbn [assert]. f_equal.
  destruct (Z.eqb_spec (epoch this) (epoch other)) as [He|]; cbn [negb andb]; [|done].
  set (p := take _ _). destruct (prefix_padded p (release other)) eqn:Ep.
  - by rewrite (zip_all_prefix _ _ Ep).
  - cbn [andb]. destruct (zip_all_eq p (release other)) eqn:Ez; cbn [negb]; [|done].
    destruct (is_ge (cmp other this)) eqn:Eg; [|done]. exfalso.
    rewrite <- not_true_iff_false in Ep. apply Ep.
    apply (zip_prefix_all p (drop (length (release this) - 1) (release this))); [..|done].
    + unfold p. rewrite take_drop. by apply real_nonneg.
    + unfold p. rewrite take_drop. intros E. rewrite cmp_full in Eg by (by apply real_wf).
      unfold full_cmp in Eg. rewrite <- !epoch_view, <- !release_view, He, Z.compare_refl, E in Eg. done.
Qed.

Lemma spec_real_elim s : spec_real s = true -> real (spec_version s) = true /\
  (is_local_compatible (operator s) = false -> local_is_empty (local (spec_version s)) = true) /\
  (operator s = TildeEqual -> (1 < length (release (spec_version s)))%nat).
Proof.
  unfold spec_real, spec_valid, is_local. intros [Hr [H1 H2]%andb_prop]%andb_prop. split; [done|]. split.
  - intros E. rewrite E in H1. by destruct (local_is_empty _).
  - intros E. rewrite E in H2. cbn in H2. by apply Nat.ltb_lt.
Qed.

(** Candidates that compare equal are treated alike. *)
Lemma contains_equal_candidates s v w : spec_real s = true -> operator s <> ExactEqual ->
  real v = true -> real w = true -> cmp v w = Eq -> contains s v = contains s w.
Proof.
  intros Hs Ho Hv Hw E. destruct (spec_real_elim s Hs) as (Ht & _ & Hl).
  pose proof (candidate_eq (spec_version s) v w Hv Hw E) as Ec.
  destruct (candidate_record (spec_version s) v Hv) as [Rv _], (candidate_record (spec_version s) w Hw) as [Rw _].
  unfold contains. set (this := spec_version s) in *. set (a := candidate this v) in *. set (b := candidate this w) in *.
  destruct (real_eq_components a b Rv Rw Ec) as (E1 & E2 & E3 & E4 & E5 & E6).
  destruct (cmp_laws_on a b this (real_wf _ Rv) (real_wf _ Rw) (real_wf _ Ht)) as (_ & _ & C).
  destruct (C Ec) as [C1 C2]. clear C.
  assert (Ep : forall p, prefix_padded p (release a) = prefix_padded p (release b)).
  { intros p. by rewrite prefix_padded_trim, E2, <- prefix_padded_trim. }
  assert (Er : compare_release (release this) (release a) = compare_release (release this) (release b)).
  { rewrite !compare_release_trim by (by apply real_nonneg). by rewrite E2. }
  destruct (operator s); cbn -[cmp]; unfold version_eq, contains_equal_star, contains_greater_than, contains_less_than, is_local, is_post, any_prerelease, is_pre, is_dev;
    rewrite ?Ep, ?Er, ?C1, ?C2, ?E1, ?E3, ?E4, ?E5, ?E6; try done.
  - rewrite !tilde_equal_prefix by auto. by rewrite E1, Ep, C1.
  - destruct (with_dev_real this 0 Ht) as [Hd _]; [done|].
    destruct (cmp_laws_on a b (with_dev this (Some 0)) (real_wf _ Rv) (real_wf _ Rw) (real_wf _ Hd)) as (_ & _ & C).
    by rewrite (proj1 (C Ec)).
Qed.

(** A valid specifier never panics. *)
Lemma contains_total s v : spec_real s = true -> real v = true -> exists b, contains s v = Ret b.
Proof.
  intros Hs Hv. destruct (spec_real_elim s Hs) as (Ht & _ & Hl). unfold contains.
  destruct (operator s); try (by eexists).
  rewrite tilde_equal_prefix; [by eexists|done|by apply candidate_record|auto].
Qed.

(** ** Properties of membership *)

(** Membership depends on the version and not on how it is written: a
    specifier other than [===] treats two versions that compare equal ([1.0] and
    [1.0.0], packed or not) in the same way, and never panics. *)
Theorem contains_respects_eq s v w : spec_real s = true -> operator s <> ExactEqual ->
  real v = true -> real w = true -> version_eq v w = true ->
  exists b, contains s v = Ret b /\ contains s w = Ret b.
Proof.
  intros Hs Ho Hv Hw E. destruct (contains_total s v Hs Hv) as [b Hb]. exists b. split; [done|].
  rewrite <- Hb. symmetry. apply contains_equal_candidates; try done.
  unfold version_eq in E. by destruct (cmp v w).
Qed.

Lemma contains_respects_eq_witness :
  exists b, contains (mkSpec TildeEqual (Full (mkFull 0 [1; 0; 0] None None None local_empty None None)))
              (Full (mkFull 0 [1] None (Some 1) None local_empty None None)) = Ret b /\
            contains (mkSpec TildeEqual (Full (mkFull 0 [1; 0; 0] None None None local_empty None None)))
              (Full (mkFull 0 [1; 0; 0; 0] None (Some 1) None local_empty None None)) = Ret b.
Proof. apply contains_respects_eq; done. Defined.

(** The compatible-release clause is its PEP 440 definition: for every
    candidate, [~= V.N] gives the conjunction of [>= V.N] and [== V.*], where
    [V] keeps the epoch. *)
Theorem tilde_is_pair v w : spec_real (mkSpec TildeEqual v) = true -> real w = true ->
  exists prefix a b, only_release_at_precision v (length (release v) - 1) = Ret (Some prefix) /\
    contains (mkSpec GreaterThanEqual v) w = Ret a /\
    contains (mkSpec EqualStar prefix) w = Ret b /\
    contains (mkSpec TildeEqual v) w = Ret (a && b).
Proof.
  intros Hs Hw. destruct (spec_real_elim _ Hs) as (Hv & Hloc & Hl). cbn [operator spec_version] in *.
  specialize (Hl eq_refl). specialize (Hloc eq_refl). pose proof (real_elim v Hv) as R.
  set (n := (length (release v) - 1)%nat). set (p := take n (release v)).
  assert (Ep : pad_release n (release v) = p) by (unfold pad_release, p; apply take_app_le; lia).
  assert (Hp : p <> []). { intros E. apply (f_equal length) in E. unfold p in E. rewrite length_take in E. simpl in E. lia. }
  destruct (version_new_real p) as (w0 & E0 & V0 & R0);
    [unfold p; apply Forall_take, (real_release _ R)|done|].
  destruct (with_epoch_real w0 (epoch v) R0 (real_epoch _ R)) as [R1 V1]. rewrite V0 in V1.
  exists (with_epoch w0 (epoch v)). do 2 eexists.
  split. { unfold only_release_at_precision. rewrite Ep. destruct p; [done|]. by rewrite E0. }
  split; [reflexivity|]. split; [reflexivity|]. cbn [contains operator spec_version].
  destruct (candidate_record v w Hw) as [Rc Vc].
  assert (Ec : candidate (with_epoch w0 (epoch v)) w = candidate v w).
  { unfold candidate. rewrite (local_view (with_epoch _ _)), V1, Hloc. done. }
  rewrite Ec, tilde_equal_prefix by done. unfold contains_equal_star.
  rewrite (epoch_view (with_epoch _ _)), (release_view (with_epoch _ _)), V1. cbn. f_equal. apply andb_comm.
Qed.

Lemma tilde_is_pair_witness :
  let v := Full (mkFull 1 [2; 4; 1] None None None local_empty None None) in
  let w := Full (mkFull 1 [2; 4; 9] None None None local_empty None None) in
  exists prefix a b, only_release_at_precision v (length (release v) - 1) = Ret (Some prefix) /\
    contains (mkSpec GreaterThanEqual v) w = Ret a /\
    contains (mkSpec EqualStar prefix) w = Ret b /\
    contains (mkSpec TildeEqual v) w = Ret (a && b).
Proof. cbv zeta. apply tilde_is_pair; done. Defined.

(** ** Exclusive upper bounds *)

(** [< V] with a final [V] admits exactly the versions of lower epoch or
    release: no pre-release of [V] itself. *)
Lemma less_than_bare this other e rs : wf this = true -> make_full this = bare e rs ->
  real other = true ->
  contains_less_than this other =
  is_lt (then_with (epoch other ?= e) (pad_cmp (release other) rs)).
Proof.
  intros Hw Ht Ho. unfold contains_less_than. rewrite (epoch_view this), Ht. cbn [f_epoch bare].
  assert (any_prerelease this = false) as ->.
  { unfold any_prerelease, is_pre, is_dev. by rewrite pre_view, dev_view, Ht. }
  cbn [negb andb].
  destruct (with_dev_wf this 0 Hw) as [Hw' Ht']; [by rewrite vmin_view, Ht|by rewrite vmax_view, Ht|by unfold u64_max|].
  rewrite !cmp_full, Ht, Ht' by (done || by apply real_wf). rewrite Ht. unfold full_cmp.
  rewrite <- !epoch_view, <- !release_view, <- !sortable_tuple_full.
  cbn [bare set_f_dev f_epoch f_release].
  destruct (Z.compare_spec (epoch other) e), (Z.ltb_spec (epoch other) e); try lia; cbn [then_with]; try done.
  2: by destruct (any_prerelease other).
  destruct (pad_cmp (release other) rs); cbn [then_with]; try done.
  - change (is_lt Eq) with false. pose proof (dev0_least other Ho) as D.
    change (full_tuple {| f_epoch := e; f_release := rs; f_pre := None; f_post := None; f_dev := Some 0;
      f_local := local_empty; f_min := None; f_max := None |}) with
      (1, (0, (@None Z, (0, local_empty)))).
    destruct (any_prerelease other) eqn:Ep; cbn [andb].
    + by destruct (tuple_cmp (sortable_tuple other) _) eqn:E.
    + pose proof (final_below other Ho Ep) as F.
      change (is_lt (tuple_cmp (sortable_tuple other) (5, (0, (None, (0, local_empty))))) = false).
      clear D. by destruct (tuple_cmp (sortable_tuple other) _).
  - by destruct (any_prerelease other).
  - by destruct (any_prerelease other).
Qed.

(** ** Bounding specifiers *)

(** The release of a compatible-release specifier: a prefix, its last number and
    the number that [~=] leaves free. *)
Lemma tilde_release_split (rs : list Z) : (2 <= length rs <= 3)%nat -> exists p m k,
  rs = p ++ [m; k] /\ take (length rs - 1) rs = p ++ [m] /\
  (p = [] /\ length rs = 2%nat \/ exists x, p = [x] /\ length rs = 3%nat).
Proof.
  intros H. destruct rs as [|a [|b [|c [|]]]]; simpl in H; try lia.
  - exists [], a, b. split; [done|]. split; [done|]. by left.
  - exists [a], b, c. split; [done|]. split; [done|]. right. by exists a.
Qed.

Lemma tilde_new_elim s t : tilde_new s = Some t -> spec_real s = true ->
  tilde_inner t = s /\ operator s = TildeEqual /\ (2 <= length (release (spec_version s)) <= 3)%nat /\
  local_is_empty (local (spec_version s)) = true /\ final (spec_version s) = true.
Proof.
  unfold tilde_new. intros H _. destruct (op_eqb (operator s) TildeEqual) eqn:Eo; [|done]. cbn [negb] in H.
  apply op_eqb_eq in Eo.
  destruct (Nat.ltb_spec (length (release (spec_version s))) 2), (Nat.ltb_spec 3 (length (release (spec_version s))));
    cbn [orb] in H; try done.
  destruct (any_prerelease (spec_version s)) eqn:E1, (is_local (spec_version s)) eqn:E2, (is_post (spec_version s)) eqn:E3;
    cbn [orb] in H; try done. injection H as <-. repeat split; try done; try lia.
  - unfold is_local in E2. by destruct (local_is_empty _).
  - unfold any_prerelease, is_pre, is_dev, is_post in *. unfold final.
    by destruct (pre _), (post _), (dev _).
Qed.

(** The upper bound computed from [p.m.k] is [p.(m+1)]. *)
Lemma bounding_upper t p m k : release (spec_version (tilde_inner t)) = p ++ [m; k] ->
  (p = [] /\ length (release (spec_version (tilde_inner t))) = 2%nat \/
   exists x, p = [x] /\ length (release (spec_version (tilde_inner t))) = 3%nat) ->
  Forall (fun x => 0 <= x < u64_max) (p ++ [m; k]) ->
  exists upper, bounding_specifiers t =
      Ret (mkSpec GreaterThanEqual (spec_version (tilde_inner t)), mkSpec LessThan upper) /\
    make_full upper = bare 0 (p ++ [m + 1]) /\ wf upper = true.
Proof.
  intros E Hp Hr. unfold bounding_specifiers, has_patch. rewrite E.
  assert (Hm : 0 <= m < u64_max) by (rewrite Forall_app, !Forall_cons in Hr; tauto).
  destruct (version_new_view (p ++ [m + 1])) as (w & Ew & Vw & Ow).
  { rewrite Forall_app in *. destruct Hr as [Hr _]. split; [|constructor; [lia|done]].
    eapply Forall_impl; [exact Hr|]. simpl. lia. }
  { by destruct p. }
  exists w. split; [|split; [done|]].
  - destruct Hp as [[-> _]|(x & -> & _)]; cbn [app length Nat.eqb list_lookup unwrap obind lookup];
      rewrite add64_below by done; cbn [obind app] in *; by rewrite Ew.
  - unfold wf. rewrite Ow, Vw. unfold full_wf, plain_full. cbn. rewrite !andb_true_r.
    apply forallb_forall. intros x Hx%list_elem_of_In. apply u64b_iff. rewrite Forall_app in Hr.
    destruct Hr as [Hr _]. rewrite Forall_forall in Hr.
    apply elem_of_app in Hx as [Hx|Hx%list_elem_of_singleton]; [specialize (Hr x Hx)|]; lia.
Qed.

(** Above [p.m.k] a release is above [p.m]. *)
Lemma pad_cmp_drop_last r p m k : nonneg r -> nonneg (p ++ [m; k]) ->
  pad_cmp r (p ++ [m; k]) <> Lt -> pad_cmp r (p ++ [m]) <> Lt.
Proof.
  intros Hr Hp H. rewrite pad_cmp_sym in *. unfold nonneg in *.
  assert (Hk : pad_cmp (p ++ [m]) (p ++ [m; k]) <> Gt).
  { rewrite pad_cmp_app. cbn [pad_cmp]. rewrite Z.compare_refl. cbn [then_with]. rewrite !Forall_app, !Forall_cons in Hp.
    destruct (Z.compare_spec 0 k); [done|done|exfalso]. destruct Hp as (_ & _ & ? & _). lia. }
  assert (pad_cmp (p ++ [m]) r <> Gt); [|by destruct (pad_cmp (p ++ [m]) r)].
  apply (pad_cmp_le_trans _ (p ++ [m; k])); [|done|done|done|by destruct (pad_cmp (p ++ [m; k]) r)].
  apply Forall_app in Hp as [Hp Hm]. inv Hm. apply Forall_app. split; [done|]. by constructor.
Qed.

(** Without an epoch, the two bounding specifiers of [~=] (for instance
    [>=3.13.1] and [<3.14] for [~=3.13.1]) contain exactly the versions the
    specifier contains; computing them neither overflows nor panics. *)
Theorem bounding_specifiers_exact s t w : tilde_new s = Some t -> spec_real s = true ->
  epoch (spec_version s) = 0 -> real w = true ->
  exists lower upper b, bounding_specifiers t = Ret (lower, upper) /\
    contains s w = Ret b /\ specifiers_contain [lower; upper] w = Ret b.
Proof.
  intros Hn Hs He Hw. destruct (tilde_new_elim s t Hn Hs) as (Et & Eo & Hlen & Hloc & Hfin).
  destruct (spec_real_elim s Hs) as (Hv & _ & _). pose proof (real_elim _ Hv) as R.
  destruct (tilde_release_split _ Hlen) as (p & m & k & Er & Etake & Hp). rewrite <- Et in Er, Hp.
  destruct (bounding_upper t p m k Er Hp) as (upper & Eb & Vu & Wu); [rewrite <- Er, Et; apply (real_release _ R)|].
  rewrite Et in *. destruct s as [op v]. cbn [operator spec_version] in *. subst op.
  do 3 eexists. split; [done|]. unfold contains. cbn [operator spec_version].
  destruct (candidate_record v w Hw) as [Rc _]. rewrite tilde_equal_prefix by (done || lia). split; [done|].
  cbn [specifiers_contain contains operator spec_version obind].
  assert (candidate upper w = candidate v w) as ->.
  { unfold candidate. by rewrite (local_view upper), Vu, Hloc. }
  rewrite (less_than_bare upper _ 0 (p ++ [m + 1]) Wu Vu Rc), Etake, He. set (other := candidate v w) in *.
  pose proof (real_nonneg _ Rc) as Nr. pose proof (real_epoch _ (real_elim _ Rc)) as Hep.
  pose proof (real_nonneg _ Hv) as Nv. rewrite Er in Nv.
  rewrite prefix_padded_interval by (done || unfold nonneg in Nv; rewrite !Forall_app, !Forall_cons in Nv; tauto).
  rewrite cmp_full by (by apply real_wf). unfold full_cmp.
  rewrite <- !epoch_view, <- !release_view, He, Er.
  destruct (Z.compare_spec (epoch other) 0), (Z.eqb_spec 0 (epoch other)); try lia; cbn [andb then_with is_ge is_lt]; [|done].
  pose proof (pad_cmp_drop_last (release other) p m k Nr Nv) as Hd.
  destruct (pad_cmp (release other) (p ++ [m])), (pad_cmp (release other) (p ++ [m + 1])),
    (pad_cmp (release other) (p ++ [m; k])), (tuple_cmp _ _); cbn; try done; by destruct Hd.
Qed.

Lemma bounding_specifiers_exact_witness :
  let s := mkSpec TildeEqual (Full (mkFull 0 [3; 13; 1] None None None local_empty None None)) in
  let w := Full (mkFull 0 [3; 14] (Some (mkPre Alpha 1)) None None local_empty None None) in
  exists lower upper b, bounding_specifiers (mkTilde s) = Ret (lower, upper) /\
    contains s w = Ret b /\ specifiers_contain [lower; upper] w = Ret b.
Proof. cbv zeta. apply bounding_specifiers_exact; done. Defined.

(** With an epoch, the bounding specifiers lose it in the upper bound:
    [~=1!3.13] contains [1!3.14], and its bounding specifiers [>=1!3.13] and
    [<4] do not. *)
Theorem bounding_specifiers_drop_epoch :
  let s := mkSpec TildeEqual (Full (mkFull 1 [3; 13] None None None local_empty None None)) in
  let w := Full (mkFull 1 [3; 14] None None None local_empty None None) in
  exists lower upper, tilde_new s = Some (mkTilde s) /\
    bounding_specifiers (mkTilde s) = Ret (lower, upper) /\
    contains s w = Ret true /\ specifiers_contain [lower; upper] w = Ret false.
Proof. do 2 eexists. repeat split; vm_compute; reflexivity. Qed.

(** ** Negation *)

(** When the negated operator is the complement: always for [==] and [!=] (with
    or without star), for the order operators when the candidate has no
    pre-release ([<], [>=]) or no post-release ([>], [<=]). *)
Definition negatable (o : Operator) (w : Version) : bool :=
  match o with
  | Equal | NotEqual | EqualStar | NotEqualStar => true
  | LessThan | GreaterThanEqual => negb (any_prerelease w)
  | GreaterThan | LessThanEqual => negb (is_post w)
  | ExactEqual | TildeEqual => false
  end.

Lemma less_than_stable this other : wf this = true -> wf other = true -> any_prerelease other = false ->
  contains_less_than this other = is_lt (cmp other this).
Proof.
  intros Hv Ho Hp. unfold contains_less_than. rewrite Hp, andb_false_r. cbn [andb].
  destruct (Z.ltb_spec (epoch other) (epoch this)) as [H|]; [|done]. rewrite cmp_full by done.
  unfold full_cmp. rewrite <- !epoch_view. by rewrite (proj2 (Z.compare_lt_iff _ _) H).
Qed.

Lemma greater_than_not_post this other : wf this = true -> wf other = true -> is_post other = false ->
  is_local other = false -> contains_greater_than this other = is_gt (cmp other this).
Proof.
  intros Hv Ho Hp Hl. unfold contains_greater_than. rewrite Hp, Hl, !andb_false_r.
  destruct (Z.ltb_spec (epoch this) (epoch other)) as [H|]; [|done]. rewrite cmp_full by done.
  unfold full_cmp. rewrite <- !epoch_view. by rewrite (proj2 (Z.compare_gt_iff _ _)) by lia.
Qed.

Lemma candidate_flags this w : real w = true ->
  any_prerelease (candidate this w) = any_prerelease w /\ is_post (candidate this w) = is_post w.
Proof.
  intros H. destruct (candidate_same this w H) as (_ & _ & E1 & E2 & E3).
  unfold any_prerelease, is_pre, is_dev, is_post. by rewrite E1, E2, E3.
Qed.

(** [Operator::negate] gives the opposite meaning: a version is contained
    in the negated specifier exactly when it is not contained in the specifier,
    for every operator with an exact negation and every candidate to which the
    pre- and post-release exceptions of [<] and [>] do not apply. *)
Theorem negate_complements o o' v w : negate o = Some o' -> negatable o w = true ->
  spec_real (mkSpec o v) = true -> real w = true ->
  exists b, contains (mkSpec o v) w = Ret b /\ contains (mkSpec o' v) w = Ret (negb b).
Proof.
  intros Hn Hg Hs Hw. destruct (spec_real_elim _ Hs) as (Hv & Hl & _). cbn [operator spec_version] in *.
  destruct (candidate_record v w Hw) as [Rc _]. destruct (candidate_flags v w Hw) as [F1 F2].
  destruct (cmp_laws_on (candidate v w) v v) as (Hsym & _ & _); [by apply real_wf..|].
  assert (Hloc : is_local_compatible o = false -> is_local (candidate v w) = false).
  { intros E. apply candidate_local; auto. }
  destruct o; try done; injection Hn as <-; eexists; (split; [reflexivity|]);
    unfold contains; cbn [operator spec_version negatable] in *; f_equal.
  - unfold version_eq. rewrite Hsym. by destruct (cmp v (candidate v w)).
  - unfold contains_equal_star. by rewrite negb_andb.
  - rewrite negb_involutive. unfold version_eq. rewrite Hsym. by destruct (cmp v (candidate v w)).
  - unfold contains_equal_star. by rewrite negb_orb, !negb_involutive.
  - rewrite less_than_stable; [|by apply real_wf..|rewrite F1; by destruct (any_prerelease w)].
    by destruct (cmp _ _).
  - rewrite greater_than_not_post; [|by apply real_wf..|rewrite F2; by destruct (is_post w)|auto].
    by destruct (cmp _ _).
  - rewrite greater_than_not_post; [|by apply real_wf..|rewrite F2; by destruct (is_post w)|auto].
    by destruct (cmp _ _).
  - rewrite less_than_stable; [|by apply real_wf..|rewrite F1; by destruct (any_prerelease w)].
    by destruct (cmp _ _).
Qed.

Lemma negate_complements_witness :
  let v := Full (mkFull 0 [1; 4] None None None local_empty None None) in
  let w := Full (mkFull 0 [1; 4] (Some (mkPre Rc 1)) None None (Segments [LNumber 2]) None None) in
  exists b, contains (mkSpec GreaterThan v) w = Ret b /\
            contains (mkSpec LessThanEqual v) w = Ret (negb b).
Proof. cbv zeta. apply (negate_complements GreaterThan); done. Defined.

(** ** Equality, order and hash of specifiers *)

Definition spec_key (s : VersionSpecifier) : Z * (Key * Z) :=
  (op_index (operator s), (key (spec_version s),
    if op_eqb (operator s) TildeEqual then Z.of_nat (length (release (spec_version s))) else 0)).

Definition spec_key_cmp : Z * (Key * Z) -> Z * (Key * Z) -> comparison :=
  pair_cmp Z.compare (pair_cmp key_cmp Z.compare).

#[export] Instance spec_key_cmp_laws : OrdLaws spec_key_cmp.
Proof. apply _. Qed.
#[export] Instance spec_key_cmp_eq : OrdEq spec_key_cmp.
Proof. apply _. Qed.

Lemma spec_cmp_key a b : wf (spec_version a) = true -> wf (spec_version b) = true ->
  spec_cmp a b = spec_key_cmp (spec_key a) (spec_key b).
Proof.
  intros Ha Hb. unfold spec_cmp, spec_key_cmp, pair_cmp, op_cmp. cbn [spec_key fst snd].
  rewrite cmp_key by done. destruct (op_index (operator a) ?= op_index (operator b)) eqn:E; [|done|done].
  apply Z.compare_eq, op_index_inj in E. rewrite E. cbn [then_with]. f_equal.
  destruct (op_eqb (operator b) TildeEqual); [|done]. by rewrite Nat2Z.inj_compare.
Qed.

Lemma spec_eq_cmp a b : spec_eq a b = is_eq (spec_cmp a b).
Proof.
  unfold spec_eq, spec_cmp, op_cmp, op_eqb at 1, version_eq.
  destruct (Z.compare_spec (op_index (operator a)) (op_index (operator b))) as [E|E|E].
  - rewrite E, Z.eqb_refl. cbn [negb then_with]. destruct (op_eqb (operator a) TildeEqual); cbn [andb].
    + destruct (Nat.eqb_spec (length (release (spec_version a))) (length (release (spec_version b)))) as [->|Hne];
        cbn [negb]; [rewrite Nat.compare_refl; by destruct (cmp _ _)|].
      destruct (Nat.compare_spec (length (release (spec_version a))) (length (release (spec_version b))));
        [done|by destruct (cmp _ _)..].
    + by destruct (cmp _ _).
  - destruct (Z.eqb_spec (op_index (operator a)) (op_index (operator b))); [lia|done].
  - destruct (Z.eqb_spec (op_index (operator a)) (op_index (operator b))); [lia|done].
Qed.

Lemma same_length_trim l k : nonneg l -> nonneg k -> length l = length k ->
  trim_zeros l = trim_zeros k -> l = k.
Proof.
  intros Hl Hk Hlen E. apply (ord_eq (list_cmp Z.compare)). rewrite list_cmp_pad by done.
  rewrite pad_cmp_trim, E by done. apply (ord_refl _).
Qed.

Lemma with_dev_eq v w n : real v = true -> real w = true -> 0 <= n < u64_max -> cmp v w = Eq ->
  cmp (with_dev v (Some n)) (with_dev w (Some n)) = Eq.
Proof.
  intros Hv Hw Hn E. destruct (real_eq_components v w Hv Hw E) as (E1 & E2 & E3 & E4 & _ & E6).
  destruct (with_dev_real v n Hv Hn) as [Rv Vv], (with_dev_real w n Hw Hn) as [Rw Vw].
  rewrite cmp_full, Vv, Vw by (by apply real_wf). unfold full_cmp. cbn [f_epoch f_release set_f_dev].
  rewrite <- !epoch_view, <- !release_view, E1, Z.compare_refl, pad_cmp_trim, E2, (ord_refl _) by (by apply real_nonneg).
  cbn [then_with].
  assert (full_tuple (set_f_dev (make_full v) (Some n)) = full_tuple (set_f_dev (make_full w) (Some n))) as ->;
    [|apply (ord_refl tuple_cmp)].
  rewrite (pre_view v), (pre_view w) in E3. rewrite (post_view v), (post_view w) in E4. rewrite (local_view v), (local_view w) in E6.
  pose proof (real_min _ (real_elim v Hv)) as M1. pose proof (real_min _ (real_elim w Hw)) as M2.
  pose proof (real_max _ (real_elim v Hv)) as M3. pose proof (real_max _ (real_elim w Hw)) as M4.
  rewrite vmin_view in M1, M2. rewrite vmax_view in M3, M4.
  unfold full_tuple, sortable_tuple. cbn [pre post dev vmin vmax local set_f_dev f_pre f_post f_dev f_min f_max f_local].
  by rewrite E3, E4, E6, M1, M2, M3, M4.
Qed.

Lemma spec_eq_elim a b : spec_eq a b = true ->
  operator a = operator b /\ cmp (spec_version a) (spec_version b) = Eq /\
  (operator a = TildeEqual -> length (release (spec_version a)) = length (release (spec_version b))).
Proof.
  unfold spec_eq. destruct (op_eqb (operator a) (operator b)) eqn:E; cbn [negb]; [|done].
  apply op_eqb_eq in E. destruct (op_eqb (operator a) TildeEqual) eqn:Et; cbn [andb].
  - destruct (Nat.eqb_spec (length (release (spec_version a))) (length (release (spec_version b)))); cbn [negb]; [|done].
    unfold version_eq. by destruct (cmp _ _).
  - unfold version_eq. intros H. split; [done|]. split; [by destruct (cmp _ _)|].
    intros E'. rewrite E' in Et. done.
Qed.

(** Specifiers that are equal (as [PartialEq] has it) contain the same
    versions, for every operator but the wildcard and [===] ones. *)
Theorem equal_specifiers_same_set a b w : spec_real a = true -> spec_real b = true ->
  spec_eq a b = true -> is_star (operator a) = false -> operator a <> ExactEqual ->
  real w = true -> contains a w = contains b w.
Proof.
  intros Ha Hb E Hst Hex Hw. destruct (spec_eq_elim a b E) as (Eo & Ec & Elen).
  destruct (spec_real_elim a Ha) as (Ra & _ & La), (spec_real_elim b Hb) as (Rb & _ & Lb).
  destruct (real_eq_components _ _ Ra Rb Ec) as (E1 & E2 & E3 & E4 & E5 & E6).
  unfold contains. assert (candidate (spec_version b) w = candidate (spec_version a) w) as ->
    by (unfold candidate; by rewrite E6).
  destruct (candidate_record (spec_version a) w Hw) as [Rc _]. set (other := candidate _ w) in *.
  destruct (cmp_laws_on _ _ other (real_wf _ Ra) (real_wf _ Rb) (real_wf _ Rc)) as (_ & _ & C).
  destruct (C Ec) as [C1 C2]. rewrite <- Eo. unfold version_eq.
  destruct (operator a) eqn:Eop; try done; rewrite ?C1, ?C2; try done.
  - rewrite !tilde_equal_prefix by auto.
    assert (release (spec_version a) = release (spec_version b)) as ->
      by (apply same_length_trim; auto using real_nonneg). by rewrite E1, C2.
  - unfold contains_less_than. rewrite E1, C2. unfold any_prerelease, is_pre, is_dev. rewrite E3, E5.
    pose proof (with_dev_eq _ _ 0 Ra Rb ltac:(done) Ec) as Ed.
    destruct (with_dev_real _ 0 Ra ltac:(done)) as [Da _], (with_dev_real _ 0 Rb ltac:(done)) as [Db _].
    destruct (cmp_laws_on _ _ other (real_wf _ Da) (real_wf _ Db) (real_wf _ Rc)) as (_ & _ & D).
    by rewrite (proj2 (D Ed)).
  - unfold contains_greater_than, is_post. rewrite E1, C2, E4.
    by rewrite !compare_release_trim, E2 by (by apply real_nonneg).
Qed.

Lemma equal_specifiers_same_set_witness :
  let a := mkSpec LessThan (Full (mkFull 0 [1; 4] None None None local_empty None None)) in
  let b := mkSpec LessThan (Full (mkFull 0 [1; 4; 0] None None None local_empty None None)) in
  let w := Full (mkFull 0 [1; 4] (Some (mkPre Beta 2)) None None local_empty None None) in
  contains a w = contains b w.
Proof. cbv zeta. apply equal_specifiers_same_set; done. Defined.

(** For the wildcard operators, trailing zeros are significant but
    [PartialEq] ignores them: [==1.*] and [==1.0.*] are equal specifiers with
    equal hashes, and only the first contains [1.5]. *)
Theorem star_specifiers_equal_but_differ :
  let a := mkSpec EqualStar (Full (mkFull 0 [1] None None None local_empty None None)) in
  let b := mkSpec EqualStar (Full (mkFull 0 [1; 0] None None None local_empty None None)) in
  let w := Full (mkFull 0 [1; 5] None None None local_empty None None) in
  spec_eq a b = true /\ spec_cmp a b = Eq /\ spec_hash a = spec_hash b /\
  contains a w = Ret true /\ contains b w = Ret false.
Proof. repeat split. Qed.

Lemma version_hash_eq v w : real v = true -> real w = true -> cmp v w = Eq ->
  version_hash v = version_hash w.
Proof.
  intros Hv Hw E. destruct (real_eq_components v w Hv Hw E) as (E1 & E2 & E3 & E4 & E5 & E6).
  unfold version_hash. rewrite E1, E3, E4, E5, E6. do 3 f_equal. unfold trim_zeros in E2.
  by rewrite <- (rev_involutive (drop_while _ (rev (release v)))), E2, rev_involutive.
Qed.

(** [Ord], [PartialEq] and [Hash] of specifiers agree: the order is total
    and transitive, two specifiers are equal exactly when they compare equal,
    and equal specifiers feed the hasher the same writes. *)
Theorem spec_order_consistent a b c : real (spec_version a) = true -> real (spec_version b) = true ->
  real (spec_version c) = true ->
  spec_cmp a b = CompOpp (spec_cmp b a) /\
  (spec_cmp a b <> Gt -> spec_cmp b c <> Gt -> spec_cmp a c <> Gt) /\
  (spec_eq a b = true <-> spec_cmp a b = Eq) /\
  (spec_eq a b = true -> spec_hash a = spec_hash b).
Proof.
  intros Ha Hb Hc. rewrite !spec_eq_cmp. split; [|split; [|split]].
  - rewrite !spec_cmp_key by (by apply real_wf). apply (ord_sym spec_key_cmp).
  - rewrite !spec_cmp_key by (by apply real_wf). apply (ord_le_trans spec_key_cmp).
  - by destruct (spec_cmp a b).
  - rewrite <- spec_eq_cmp. intros E. destruct (spec_eq_elim a b E) as (Eo & Ec & El).
    unfold spec_hash. rewrite (version_hash_eq _ _ Ha Hb Ec), <- Eo.
    destruct (op_eqb (operator a) TildeEqual) eqn:Et; [|done]. apply op_eqb_eq in Et. by rewrite El.
Qed.

Lemma spec_order_consistent_witness :
  let a := mkSpec TildeEqual (Full (mkFull 0 [1; 4] None None None local_empty None None)) in
  let b := mkSpec TildeEqual (Full (mkFull 0 [1; 4; 0] None None None local_empty None None)) in
  let c := mkSpec LessThan (Full (mkFull 0 [1] None None None local_empty None None)) in
  spec_cmp a b = CompOpp (spec_cmp b a) /\
  (spec_cmp a b <> Gt -> spec_cmp b c <> Gt -> spec_cmp a c <> Gt) /\
  (spec_eq a b = true <-> spec_cmp a b = Eq) /\
  (spec_eq a b = true -> spec_hash a = spec_hash b).
Proof. cbv zeta. apply spec_order_consistent; done. Defined.

(** ** Sorting *)

Definition unsorted_key (s : VersionSpecifier) : Key * Z := (key (spec_version s), op_index (operator s)).
Definition unsorted_key_cmp : Key * Z -> Key * Z -> comparison := pair_cmp key_cmp Z.compare.

#[export] Instance unsorted_key_cmp_laws : OrdLaws unsorted_key_cmp.
Proof. apply _. Qed.
#[export] Instance unsorted_key_cmp_eq : OrdEq unsorted_key_cmp.
Proof. apply _. Qed.

Lemma unsorted_cmp_key a b : wf (spec_version a) = true -> wf (spec_version b) = true ->
  unsorted_cmp a b = unsorted_key_cmp (unsorted_key a) (unsorted_key b).
Proof. intros Ha Hb. unfold unsorted_cmp. by rewrite cmp_key. Qed.

Lemma insert_by_ext {A} (c d : A -> A -> comparison) x l : (forall y, y ∈ l -> c x y = d x y) ->
  insert_by c x l = insert_by d x l.
Proof.
  intros H. induction l as [|y l IH]; [done|]. cbn [insert_by]. rewrite (H y) by set_solver.
  rewrite IH; [done|]. set_solver.
Qed.

(** Sorting real specifiers is sorting by key. *)
Lemma from_unsorted_key l : Forall (fun s => wf (spec_version s) = true) l ->
  from_unsorted l = sort_by (fun a b => unsorted_key_cmp (unsorted_key a) (unsorted_key b)) l.
Proof.
  intros H. unfold from_unsorted. induction H as [|s l Hs Hl IH]; [done|].
  cbn [sort_by foldr]. fold (sort_by unsorted_cmp l).
  fold (sort_by (fun a b => unsorted_key_cmp (unsorted_key a) (unsorted_key b)) l). rewrite IH.
  apply insert_by_ext. intros y Hy. rewrite <- IH in Hy. apply unsorted_cmp_key; [done|].
  rewrite Forall_forall in Hl. apply Hl. by rewrite (sort_by_perm unsorted_cmp l).
Qed.

(** Two sorted lists with the same elements are pointwise equivalent. *)
Lemma sorted_perm_keys {A K} (f : A -> K) (c : K -> K -> comparison) `{!OrdLaws c} `{!OrdEq c} l k :
  StronglySorted (fun x y => c (f x) (f y) <> Gt) l -> StronglySorted (fun x y => c (f x) (f y) <> Gt) k ->
  Permutation (map f l) (map f k) -> map f l = map f k.
Proof.
  revert k. induction l as [|x l IH]; intros k Hl Hk P.
  - apply Permutation_nil_l in P. by rewrite <- P.
  - destruct k as [|y k]; [by apply Permutation_nil_r in P|]. cbn [map] in *.
    apply StronglySorted_inv in Hl as [Hl Hx], Hk as [Hk Hy].
    assert (Exy : f x = f y).
    { apply (ord_eq c). rewrite Forall_forall in Hx, Hy.
      assert (H1 : f x ∈ f y :: map f k) by (rewrite <- P; constructor).
      assert (H2 : f y ∈ f x :: map f l) by (rewrite P; constructor).
      apply elem_of_cons in H1 as [->|H1]; [apply (ord_refl c)|].
      apply elem_of_cons in H2 as [->|H2]; [apply (ord_refl c)|].
      apply list_elem_of_fmap in H1 as (z & Ez & Hz). apply list_elem_of_fmap in H2 as (z' & Ez' & Hz').
      specialize (Hx z' Hz'). specialize (Hy z Hz). rewrite <- Ez' in Hx. rewrite <- Ez in Hy.
      rewrite (ord_sym c) in Hy. by destruct (c (f x) (f y)). }
    rewrite Exy in *. f_equal. apply IH; [done|done|]. by apply Permutation_cons_inv in P.
Qed.

Lemma specifiers_contain_all l v : Forall (fun s => spec_real s = true) l -> real v = true ->
  exists bl, Forall2 (fun s b => contains s v = Ret b) l bl /\ specifiers_contain l v = Ret (forallb id bl).
Proof.
  intros Hl Hv. induction Hl as [|s l Hs Hl (bl & Hb & IH)]; [by exists []|].
  destruct (contains_total s v Hs Hv) as [b Eb]. exists (b :: bl). split; [by constructor|].
  cbn [specifiers_contain]. rewrite Eb. cbn [obind forallb id]. by destruct b.
Qed.

Lemma specifiers_contain_iff l v : Forall (fun s => spec_real s = true) l -> real v = true ->
  exists b, specifiers_contain l v = Ret b /\ (b = true <-> Forall (fun s => contains s v = Ret true) l).
Proof.
  intros Hl Hv. destruct (specifiers_contain_all l v Hl Hv) as (bl & Hb & ->).
  eexists. split; [done|]. rewrite forallb_Forall. clear Hl. induction Hb as [|s b l bl Hs Hb IH]; [done|].
  rewrite !Forall_cons, <- IH, Hs. unfold id. split; intros [E ?]; split; congruence.
Qed.

Lemma sorted_unsorted_cmp l : Forall (fun s => wf (spec_version s) = true) l ->
  Sorted (fun a b => unsorted_key_cmp (unsorted_key a) (unsorted_key b) <> Gt) l ->
  Sorted (fun a b => unsorted_cmp a b <> Gt) l.
Proof.
  intros W S. induction S as [|a m Sm IH Hd]; [constructor|]. apply Forall_cons in W as [Ha Wm].
  constructor; [by apply IH|]. destruct Hd as [|b m Hd]; constructor. apply Forall_cons in Wm as [Hb _].
  by rewrite unsorted_cmp_key.
Qed.

(** Sorting normalises: it permutes the specifiers into ascending order, any
    two orderings of the same specifiers become lists of the same operators with
    equal versions, and the set of versions contained does not change. *)
Theorem from_unsorted_normalises l k v : Forall (fun s => spec_real s = true) l ->
  Permutation l k -> real v = true ->
  Permutation l (from_unsorted l) /\
  Sorted (fun a b => unsorted_cmp a b <> Gt) (from_unsorted l) /\
  map unsorted_key (from_unsorted l) = map unsorted_key (from_unsorted k) /\
  (exists b, specifiers_contain l v = Ret b /\ specifiers_contain (from_unsorted k) v = Ret b).
Proof.
  intros Hl P Hv. set (kc := fun a b => unsorted_key_cmp (unsorted_key a) (unsorted_key b)).
  assert (OrdLaws kc) by apply (key_laws unsorted_key_cmp unsorted_key).
  assert (W : forall l', Forall (fun s => spec_real s = true) l' -> Forall (fun s => wf (spec_version s) = true) l').
  { intros l' H'. eapply Forall_impl; [exact H'|]. intros s Hs. by apply real_wf, spec_real_elim. }
  assert (Hk : Forall (fun s => spec_real s = true) k) by (by rewrite <- P).
  pose proof (from_unsorted_key l (W l Hl)) as El. pose proof (from_unsorted_key k (W k Hk)) as Ek. fold kc in El, Ek.
  assert (Pl : Permutation l (from_unsorted l)) by apply sort_by_perm.
  assert (Pk : Permutation k (from_unsorted k)) by apply sort_by_perm.
  split; [done|]. split; [|split].
  - assert (S : Sorted (fun a b => kc a b <> Gt) (from_unsorted l)) by (rewrite El; by apply sort_by_sorted).
    assert (Wl : Forall (fun s => wf (spec_version s) = true) (from_unsorted l)) by (rewrite <- Pl; auto).
    by apply sorted_unsorted_cmp.
  - assert (Tr : Transitive (fun a b => kc a b <> Gt)).
    { intros a b c. apply (ord_le_trans kc). }
    apply (sorted_perm_keys unsorted_key unsorted_key_cmp).
    + apply Sorted_StronglySorted; [done|]. rewrite El. by apply sort_by_sorted.
    + apply Sorted_StronglySorted; [done|]. rewrite Ek. by apply sort_by_sorted.
    + by rewrite <- Pl, <- Pk, P.
  - assert (Hk' : Forall (fun s => spec_real s = true) (from_unsorted k)) by (by rewrite <- Pk).
    destruct (specifiers_contain_iff l v Hl Hv) as (b & E1 & I1).
    destruct (specifiers_contain_iff _ v Hk' Hv) as (b' & E2 & I2).
    exists b. split; [done|]. rewrite E2. f_equal. rewrite <- Pk, <- P in I2.
    apply eq_true_iff_eq. by rewrite I1, I2.
Qed.

Lemma from_unsorted_normalises_witness :
  let v14 := Full (mkFull 0 [1; 4; 4] None None None local_empty None None) in
  let l := [mkSpec GreaterThanEqual v14; mkSpec LessThanEqual v14] in
  let k := [mkSpec LessThanEqual v14; mkSpec GreaterThanEqual v14] in
  Permutation l (from_unsorted l) /\
  Sorted (fun a b => unsorted_cmp a b <> Gt) (from_unsorted l) /\
  map unsorted_key (from_unsorted l) = map unsorted_key (from_unsorted k) /\
  (exists b, specifiers_contain l v14 = Ret b /\ specifiers_contain (from_unsorted k) v14 = Ret b).
Proof.
  cbv zeta. apply from_unsorted_normalises; [by repeat constructor|apply perm_swap|done].
Defined.

(** ** Specifiers from release-only bounds *)

Lemma rposition_trim l : match rposition_nonzero l with
  | Some i => trim_zeros l = take (i + 1) l /\ trim_zeros l <> []
  | None => trim_zeros l = [] end.
Proof.
  induction l as [|x l IH]; [done|]. cbn [rposition_nonzero]. rewrite trim_zeros_cons.
  destruct (rposition_nonzero l) as [i|].
  - destruct IH as [IH Hne]. destruct (trim_zeros l); [done|]. rewrite andb_false_r. split; [|done].
    cbn [Nat.add take]. by rewrite IH.
  - rewrite IH. cbn [list_cmp is_eq]. rewrite andb_true_r. by destruct (x =? 0).
Qed.

(** A version with a release, no epoch and nothing else. *)
Definition release_only (v : Version) : bool :=
  real v && final v && (epoch v =? 0) && local_is_empty (local v).

Lemma release_only_elim v : release_only v = true ->
  real v = true /\ final v = true /\ epoch v = 0 /\ local v = local_empty.
Proof.
  unfold release_only. intros [[[H1 H2]%andb_prop H3%Z.eqb_eq]%andb_prop H4]%andb_prop.
  repeat split; try done. by destruct (local v) as [[|]|].
Qed.

Lemma only_release_trimmed_real v : release_only v = true ->
  exists t, only_release_trimmed v = Ret t /\
    release t = match trim_zeros (release v) with [] => [0] | l => l end.
Proof.
  intros (Hv & _ & _ & _)%release_only_elim. unfold only_release_trimmed.
  pose proof (rposition_trim (release v)) as P. destruct (rposition_nonzero (release v)) as [i|].
  - destruct P as [P Hne]. assert (Hm : match trim_zeros (release v) with [] => [0] | l => l end = trim_zeros (release v))
      by (by destruct (trim_zeros (release v))). rewrite Hm.
    destruct (Nat.eqb_spec (i + 1) (length (release v))) as [El|_]; cbn [andb].
    + destruct (_ && _); [exists v; split; [done|]; by rewrite P, El, firstn_all|].
      destruct (version_new_real (take (i + 1) (release v))) as (w & -> & V & _);
        [apply Forall_take, (real_release _ (real_elim v Hv))|by rewrite <- P|].
      exists w. split; [done|]. by rewrite release_view, V, P.
    + destruct (version_new_real (take (i + 1) (release v))) as (w & -> & V & _);
        [apply Forall_take, (real_release _ (real_elim v Hv))|by rewrite <- P|].
      exists w. split; [done|]. by rewrite release_view, V, P.
  - rewrite P. by eexists.
Qed.

Definition bound_all (p : Version -> bool) (b : Bound) : bool :=
  match b with Included v | Excluded v => p v | Unbounded => true end.

(** Membership of a version in an interval. *)
Definition above (lower : Bound) (w : Version) : bool :=
  match lower with Included v => is_ge (cmp w v) | Excluded v => is_gt (cmp w v) | Unbounded => true end.
Definition below (upper : Bound) (w : Version) : bool :=
  match upper with Included v => is_le (cmp w v) | Excluded v => is_lt (cmp w v) | Unbounded => true end.

Lemma candidate_no_local this w : local w = local_empty -> candidate this w = w.
Proof. intros E. unfold candidate. rewrite E, andb_false_r. done. Qed.

Lemma final_flags w : final w = true -> any_prerelease w = false /\ is_post w = false.
Proof.
  unfold final, any_prerelease, is_pre, is_dev, is_post. by destruct (pre w), (post w), (dev w).
Qed.

Lemma from_bounds_pair_exact lower upper w : bound_all release_only lower = true ->
  bound_all release_only upper = true -> release_only w = true ->
  exists l, from_bounds_pair lower upper = Ret l /\
    specifiers_contain l w = Ret (above lower w && below upper w).
Proof.
  intros Hl Hu Hw. destruct (release_only_elim w Hw) as (Rw & Fw & _ & Lw).
  destruct (final_flags w Fw) as [F1 F2]. assert (F3 : is_local w = false) by (unfold is_local; by rewrite Lw).
  assert (OK : forall o v, release_only v = true -> o <> TildeEqual -> from_version o v = Ok (mkSpec o v)).
  { intros o v (_ & _ & _ & El)%release_only_elim Ho. unfold from_version, is_local. rewrite El. by destruct o. }
  assert (R : forall v, release_only v = true -> wf v = true) by (intros v Hv; by apply real_wf, release_only_elim).
  unfold from_bounds_pair.
  destruct lower as [a|a|], upper as [b|b|]; cbn [bound_all from_lower_bound from_upper_bound] in *;
    rewrite ?OK by done; cbn [result_unwrap outcome_map obind option_list app]; eexists; (split; [reflexivity|]);
    cbn [specifiers_contain contains operator spec_version obind above below]; rewrite ?candidate_no_local by done;
    rewrite ?greater_than_not_post, ?less_than_stable by auto; rewrite ?andb_true_r; cbn [andb];
    repeat match goal with |- context [if ?b then _ else _] => destruct b end; done.
Qed.

Lemma trim_zeros_idem l : trim_zeros (trim_zeros l) = trim_zeros l.
Proof.
  induction l as [|x l IH] using rev_ind; [done|]. destruct (decide (x = 0)) as [->|Hx].
  - by rewrite trim_zeros_snoc_0.
  - rewrite (trim_zeros_snoc l x Hx). by apply trim_zeros_snoc.
Qed.

(** The trimmed version compares like the original. *)
Lemma trimmed_cmp v t r : release_only v = true -> only_release_trimmed v = Ret t -> nonneg r ->
  pad_cmp r (release v) = pad_cmp r (release t) /\ Forall (fun x => 0 <= x < u64_max) (release t).
Proof.
  intros Hv Ht Hr. destruct (release_only_elim v Hv) as (Rv & _). pose proof (real_release _ (real_elim v Rv)) as Hb.
  destruct (only_release_trimmed_real v Hv) as (t' & E & Et). rewrite Ht in E. injection E as <-.
  assert (Hf : Forall (fun x => 0 <= x < u64_max) (release t)).
  { rewrite Et. destruct (trim_zeros (release v)) as [|x l] eqn:El; [by constructor|]. rewrite <- El.
    pose proof (rposition_trim (release v)) as P. destruct (rposition_nonzero (release v)); [|by rewrite P].
    destruct P as [-> _]. by apply Forall_take. }
  split; [|done]. rewrite !pad_cmp_trim; [|done|eapply Forall_impl; [exact Hf|simpl; lia]|done|by apply real_nonneg].
  f_equal. rewrite Et. destruct (trim_zeros (release v)) eqn:El; [done|]. rewrite <- El. by rewrite trim_zeros_idem.
Qed.

(** [== p.m.*] for release-only candidates. *)
Lemma star_interval w p m : release_only w = true -> Forall (fun x => 0 <= x < u64_max) (p ++ [m]) ->
  exists s, version_new (p ++ [m]) = Ret s /\
    contains (equals_star_version s) w =
    Ret (is_ge (pad_cmp (release w) (p ++ [m])) && is_lt (pad_cmp (release w) (p ++ [m + 1]))).
Proof.
  intros Hw Hp. destruct (release_only_elim w Hw) as (Rw & _ & Ew & Lw).
  destruct (version_new_real (p ++ [m]) Hp) as (s & E & V & R); [by destruct p|]. exists s. split; [done|].
  unfold contains. cbn [operator spec_version equals_star_version]. rewrite candidate_no_local by done.
  unfold contains_equal_star. rewrite (epoch_view s), (release_view s), V, Ew. cbn [f_epoch f_release plain_full Z.eqb andb].
  rewrite prefix_padded_interval; [done|by apply real_nonneg|]. rewrite Forall_app, Forall_singleton in Hp. lia.
Qed.

Lemma cmp_release_only v w : release_only v = true -> release_only w = true ->
  cmp v w = pad_cmp (release v) (release w).
Proof.
  intros (Rv & Fv & Ev & Lv)%release_only_elim (Rw & Fw & Ew & Lw)%release_only_elim.
  rewrite cmp_final by congruence. by rewrite Ev, Ew.
Qed.

(** The two recognised shapes of a half-open interval of one minor version. *)
Lemma star_bounds_exact v1 v2 t1 t2 p m w : release_only v1 = true -> release_only v2 = true ->
  release_only w = true -> only_release_trimmed v1 = Ret t1 -> only_release_trimmed v2 = Ret t2 ->
  (forall r, pad_cmp r (release t1) = pad_cmp r (p ++ [m])) -> release t2 = p ++ [m + 1] ->
  Forall (fun x => 0 <= x < u64_max) (p ++ [m]) ->
  exists s, version_new (p ++ [m]) = Ret s /\
    specifiers_contain [equals_star_version s] w = Ret (above (Included v1) w && below (Excluded v2) w).
Proof.
  intros H1 H2 Hw E1 E2 P1 P2 Hp. destruct (star_interval w p m Hw Hp) as (s & Es & Ec). exists s. split; [done|].
  pose proof (real_nonneg w (proj1 (release_only_elim w Hw))) as Nw.
  cbn [specifiers_contain above below]. rewrite Ec, !cmp_release_only by done. cbn [obind].
  rewrite (proj1 (trimmed_cmp v1 t1 _ H1 E1 Nw)), (proj1 (trimmed_cmp v2 t2 _ H2 E2 Nw)), P1, P2.
  by destruct (_ && _).
Qed.

Lemma pad_cmp_snoc_0 r x : pad_cmp r [x] = pad_cmp r [x; 0].
Proof.
  by destruct r as [|a [|b r]].
Qed.

(** The specifiers of an interval of releases contain its releases. *)
Lemma release_bounds_exact lower upper w : bound_all release_only lower = true ->
  bound_all release_only upper = true -> release_only w = true ->
  exists l, from_release_only_bounds lower upper = Ret l /\
    specifiers_contain l w = Ret (above lower w && below upper w).
Proof.
  intros Hl Hu Hw. pose proof (from_bounds_pair_exact lower upper w Hl Hu Hw) as D.
  destruct (release_only_elim w Hw) as (Rw & _ & _ & Lw).
  destruct lower as [v1|v1|], upper as [v2|v2|]; try exact D; cbn [bound_all from_release_only_bounds] in *.
  - destruct (version_eq v1 v2) eqn:E; [|exact D]. eexists. split; [done|].
    cbn [specifiers_contain contains operator spec_version equals_version obind above below].
    rewrite candidate_no_local by done. unfold version_eq in *.
    destruct (cmp_laws_on v1 v2 w) as (_ & _ & C);
      [by apply real_wf, release_only_elim..|by apply real_wf|].
    destruct (C ltac:(by destruct (cmp v1 v2))) as [_ ->]. by destruct (cmp w v2).
  - destruct (only_release_trimmed_real v1 Hl) as (t1 & E1 & _), (only_release_trimmed_real v2 Hu) as (t2 & E2 & _).
    destruct (trimmed_cmp v1 t1 [] Hl E1 ltac:(constructor)) as [_ F1].
    rewrite E1. cbn [obind]. destruct (release t1) as [|a [|b [|]]] eqn:Er; try exact D; rewrite E2; cbn [obind].
    + destruct (bytes_eqb (release t2) [a; 1]) eqn:Eb; [|exact D]. apply bytes_eqb_eq in Eb.
      destruct (star_bounds_exact v1 v2 t1 t2 [a] 0 w) as (s & Es & Ec); try done.
      { intros r. rewrite Er. apply pad_cmp_snoc_0. } { inv F1. constructor; [done|]. by constructor. }
      cbn [app] in Es. rewrite Es. by eexists.
    + rewrite !Forall_cons in F1. rewrite add64_below by tauto. cbn [obind].
      destruct (bytes_eqb (release t2) [a; b + 1]) eqn:Eb; [|exact D]. apply bytes_eqb_eq in Eb.
      destruct (star_bounds_exact v1 v2 t1 t2 [a] b w) as (s & Es & Ec); try done.
      { intros r. by rewrite Er. } { cbn [app]. rewrite !Forall_cons. tauto. }
      cbn [app] in Es. rewrite Es. by eexists.
Qed.

(** For release-only bounds, the specifiers of an interval ([== V] for a
    point, [== V.*] for one minor version, otherwise one specifier per bound)
    contain exactly the release-only versions of the interval; building them
    does not panic. *)
Theorem release_only_bounds_exact lower upper w : bound_all release_only lower = true ->
  bound_all release_only upper = true -> release_only w = true ->
  exists l, from_release_only_bounds lower upper = Ret l /\
    specifiers_contain l w = Ret (above lower w && below upper w).
Proof. apply release_bounds_exact. Qed.

Lemma release_only_bounds_exact_witness :
  let v1 := Full (mkFull 0 [3; 7; 0] None None None local_empty None None) in
  let v2 := Full (mkFull 0 [3; 8] None None None local_empty None None) in
  let w := Full (mkFull 0 [3; 7; 12] None None None local_empty None None) in
  exists l, from_release_only_bounds (Included v1) (Excluded v2) = Ret l /\
    specifiers_contain l w = Ret (above (Included v1) w && below (Excluded v2) w).
Proof. cbv zeta. apply release_only_bounds_exact; done. Defined.

(** Sorting a sorted list changes nothing. *)
Lemma from_unsorted_idem l : Forall (fun s => wf (spec_version s) = true) l ->
  from_unsorted (from_unsorted l) = from_unsorted l.
Proof.
  intros W. assert (W' : Forall (fun s => wf (spec_version s) = true) (from_unsorted l)).
  { unfold from_unsorted. by rewrite <- (sort_by_perm unsorted_cmp l). }
  rewrite (from_unsorted_key _ W'). apply sort_by_id. rewrite (from_unsorted_key l W).
  apply sort_by_sorted. apply (key_laws unsorted_key_cmp unsorted_key).
Qed.
