(* ===== verification/SpecifierParser.v ===== *)
(** * Version specifiers: parsing and printing

    Models [FromStr] and [Display] of [VersionSpecifier] and [VersionSpecifiers]
    in [crates/uv-pep440/src/version_specifier.rs], with their errors.

    A [&str] is the list of its characters (Unicode scalar values), [utf8] its
    bytes.  The parser reads it through [unscanny::Scanner], a third-party
    cursor: the class [Scanner] has the operations the code calls and the class
    [ScannerLaws] the behaviour its documentation promises, in terms of the text
    that remains ([after]). *)

From Stdlib Require Import ZArith Lia String.
From stdpp Require Import base list.
From S2P Require Import Prelude.
From S2P Require Import VersionRepr.
From S2P Require Import VersionOrder.
From S2P Require Import VersionParser.
From S2P Require Import VersionDisplay.
From S2P Require Import VersionRecord.
From S2P Require Import Specifier.
Open Scope Z_scope.

(** ** The scanner *)

Class Scanner (S : Type) := {
  scanner_new : list Z -> S;
  eat_while : (Z -> bool) -> S -> list Z * S;
  scanner_done : S -> bool;
  scanner_after : S -> list Z;
}.

Class ScannerLaws (S : Type) `{Scanner S} : Prop := {
  after_new : forall s, scanner_after (scanner_new s) = s;
  eat_while_eaten : forall p sc, (eat_while p sc).1 = take_while p (scanner_after sc);
  eat_while_after : forall p sc, scanner_after (eat_while p sc).2 = drop_while p (scanner_after sc);
  done_after : forall sc, scanner_done sc = is_eq (list_cmp Z.compare (scanner_after sc) []);
}.

(** ** Errors *)

Inductive ParseErrorKind :=
| InvalidOperator (got : list Z)
| InvalidVersion (err : PatternErrorKind)
| InvalidSpecifier (err : BuildErrorKind)
| MissingOperator (version_pattern : option VersionPattern)
| MissingVersion
| InvalidTrailing (trail : list Z).

Record VersionSpecifiersParseError := mkSpecifiersError {
  spe_err : ParseErrorKind;
  spe_line : list Z;
  spe_start : nat;
  spe_end : nat;
}.

(** ** Parsing *)

Definition is_op_char (c : Z) : bool :=
  (c =? 61) || (c =? 33) || (c =? 126) || (c =? 60) || (c =? 62).

Section parsing.
Context {S : Type} `{Scanner S}.

(** [VersionSpecifier::from_str] *)
Definition specifier_from_str (spec : list Z) : outcome (result VersionSpecifier ParseErrorKind) :=
  let s := scanner_new spec in
  let '(_, s) := eat_while is_whitespace s in
  let '(operator, s) := eat_while is_op_char s in
  match operator with
  | [] =>
      let '(_, s) := eat_while is_whitespace s in
      let '(version, s) := eat_while (fun c => negb (is_whitespace c)) s in
      let! r := parse_pattern (utf8 version) in
      Ret (Err (MissingOperator (match r with Ok vpat => Some vpat | Err _ => None end)))
  | _ =>
      match operator_from_str operator with
      | Err got => Ret (Err (InvalidOperator got))
      | Ok operator =>
          let '(_, s) := eat_while is_whitespace s in
          let '(version, s) := eat_while (fun c => negb (is_whitespace c)) s in
          match version with
          | [] => Ret (Err MissingVersion)
          | _ =>
              let! r := parse_pattern (utf8 version) in
              match r with
              | Err err => Ret (Err (InvalidVersion err))
              | Ok vpat =>
                  match from_pattern operator vpat with
                  | Err err => Ret (Err (InvalidSpecifier err))
                  | Ok version_specifier =>
                      let '(_, s) := eat_while is_whitespace s in
                      if negb (scanner_done s) then Ret (Err (InvalidTrailing (scanner_after s)))
                      else Ret (Ok version_specifier)
                  end
              end
          end
      end
  end.

(** The loop of [parse_version_specifiers]. *)
Fixpoint parse_specifiers_loop (spec : list Z) (parts : list (list Z)) (start : nat)
    (version_ranges : list VersionSpecifier)
    : outcome (result (list VersionSpecifier) VersionSpecifiersParseError) :=
  match parts with
  | [] => Ret (Ok version_ranges)
  | part :: parts' =>
      let! r := specifier_from_str part in
      match r with
      | Err err => Ret (Err (mkSpecifiersError err spec start (start + length (utf8 part))))
      | Ok version_range =>
          parse_specifiers_loop spec parts' (start + length (utf8 part) + 1)
            (version_ranges ++ [version_range])
      end
  end.

Definition parse_version_specifiers (spec : list Z) :=
  parse_specifiers_loop spec (split_on 44 spec) 0 [].

(** [VersionSpecifiers::from_str] *)
Definition specifiers_from_str (s : list Z)
    : outcome (result VersionSpecifiers VersionSpecifiersParseError) :=
  let separator_count := length (List.filter (Z.eqb 44) (utf8 s)) in
  if Nat.eqb separator_count 0 then
    match s with
    | [] => Ret (Ok specifiers_empty)
    | _ =>
        let! r := specifier_from_str s in
        Ret (match r with
             | Ok specifier => Ok [specifier]
             | Err err => Err (mkSpecifiersError err s 0 (length (utf8 s)))
             end)
    end
  else
    let! r := parse_version_specifiers s in
    Ret (match r with Ok l => Ok (from_unsorted l) | Err e => Err e end).
End parsing.

(** ** Printing *)

(** [impl Display for VersionSpecifier] *)
Definition specifier_display (s : VersionSpecifier) : list Z :=
  if op_eqb (operator s) EqualStar || op_eqb (operator s) NotEqualStar
  then as_str (operator s) ++ version_display (spec_version s) ++ bs ".*"
  else as_str (operator s) ++ version_display (spec_version s).

(** [impl Display for VersionSpecifiers] *)
Fixpoint specifiers_display_rest (l : VersionSpecifiers) : list Z :=
  match l with
  | [] => []
  | s :: l' => bs ", " ++ specifier_display s ++ specifiers_display_rest l'
  end.

Definition specifiers_display (l : VersionSpecifiers) : list Z :=
  match l with
  | [] => []
  | s :: l' => specifier_display s ++ specifiers_display_rest l'
  end.

(** [impl Display for VersionOperatorBuildError] *)
Definition missing_operator_display (version_pattern : option VersionPattern) : outcome (list Z) :=
  let text := bs "Unexpected end of version specifier, expected operator" in
  match version_pattern with
  | None => Ret text
  | Some vpat =>
      let! s := result_unwrap (from_pattern Equal vpat) in
      Ret (text ++ bs ". Did you mean `" ++ specifier_display s ++ bs "`?")
  end.

(** The bytes [line[..start]] and [line[start..end]] that
    [impl Display for VersionSpecifiersParseError] measures; slicing outside the
    line or backwards panics. *)
Definition error_span (e : VersionSpecifiersParseError) : outcome (list Z * list Z) :=
  let line := utf8 (spe_line e) in
  assert (Nat.leb (spe_start e) (spe_end e) && Nat.leb (spe_end e) (length line))
    (Ret (take (spe_start e) line, take (spe_end e - spe_start e) (drop (spe_start e) line))).

(** ** The scanner on the remaining text

    The simplest lawful scanner is the remaining text itself, and every lawful
    scanner gives the same parser. *)

#[export] Instance text_scanner : Scanner (list Z) := {
  scanner_new s := s;
  eat_while p s := (take_while p s, drop_while p s);
  scanner_done s := is_eq (list_cmp Z.compare s []);
  scanner_after s := s;
}.

#[export] Instance text_scanner_laws : ScannerLaws (list Z).
Proof. by split. Qed.

Section scanner_independence.
Context {S : Type} `{ScannerLaws S}.

Lemma eat_while_step p (sc : S) t : scanner_after sc = t ->
  exists sc', eat_while p sc = (take_while p t, sc') /\ scanner_after sc' = drop_while p t.
Proof.
  intros <-. destruct (eat_while p sc) as [x sc'] eqn:E. exists sc'. split.
  - f_equal. by rewrite <- (eat_while_eaten p sc), E.
  - by rewrite <- (eat_while_after p sc), E.
Qed.

Lemma specifier_from_str_text spec :
  specifier_from_str (S := S) spec = specifier_from_str (S := list Z) spec.
Proof.
  unfold specifier_from_str. cbn [eat_while scanner_new scanner_done scanner_after text_scanner].
  destruct (eat_while_step is_whitespace (scanner_new spec) spec) as (s1 & -> & A1); [apply after_new|].
  destruct (eat_while_step is_op_char s1 _ A1) as (s2 & -> & A2).
  destruct (eat_while_step is_whitespace s2 _ A2) as (s3 & -> & A3).
  destruct (eat_while_step (fun c => negb (is_whitespace c)) s3 _ A3) as (s4 & -> & A4).
  destruct (eat_while_step is_whitespace s4 _ A4) as (s5 & -> & A5).
  by rewrite done_after, A5.
Qed.

Lemma parse_specifiers_loop_text spec parts start l :
  parse_specifiers_loop (S := S) spec parts start l = parse_specifiers_loop (S := list Z) spec parts start l.
Proof.
  revert start l. induction parts as [|part parts IH]; intros start l; [done|].
  cbn [parse_specifiers_loop]. rewrite specifier_from_str_text.
  destruct (specifier_from_str part) as [[s|e]|]; [|done|done]. cbn [obind]. apply IH.
Qed.

Lemma specifiers_from_str_text s :
  specifiers_from_str (S := S) s = specifiers_from_str (S := list Z) s.
Proof.
  unfold specifiers_from_str, parse_version_specifiers.
  rewrite specifier_from_str_text, parse_specifiers_loop_text. done.
Qed.
End scanner_independence.

(** ** Text *)

Lemma utf8_text l : Forall text_byte l -> utf8 l = l.
Proof.
  induction 1 as [|b l Hb Hl IH]; [done|]. cbn [utf8 flat_map]. fold (utf8 l). rewrite IH.
  unfold text_byte in Hb. unfold utf8_char. by destruct (Z.ltb_spec b 128); [|lia].
Qed.

Lemma Forall_take_while {A} (P : A -> Prop) p l : Forall P l -> Forall P (take_while p l).
Proof. intros H. rewrite <- (take_drop_while p l) in H. by apply Forall_app in H as [? _]. Qed.
Lemma Forall_drop_while {A} (P : A -> Prop) p l : Forall P l -> Forall P (drop_while p l).
Proof. intros H. rewrite <- (take_drop_while p l) in H. by apply Forall_app in H as [_ ?]. Qed.

#[export] Hint Resolve Forall_take_while Forall_drop_while utf8_u8 : uv.

(** ** What the parser returns *)

(** A specifier as parsing produces it. *)
Definition spec_parsed (s : VersionSpecifier) : Prop :=
  parsed (spec_version s) /\ spec_valid s = true /\
  (is_star (operator s) = true -> plain (make_full (spec_version s)) = true).

Lemma spec_parsed_real s : spec_parsed s -> spec_real s = true.
Proof. intros ([Hc _] & Hv & _). unfold spec_real. by rewrite Hv, (canonical_real _ Hc). Qed.

Lemma operator_from_str_base t o : operator_from_str t = Ok o -> is_star o = false.
Proof.
  unfold operator_from_str. repeat (destruct (bytes_eqb t _); [by intros [= <-]|]). done.
Qed.

Lemma from_pattern_parsed o vp s : is_star o = false -> parsed (vp_version vp) ->
  (vp_wildcard vp = true -> plain (make_full (vp_version vp)) = true) ->
  from_pattern o vp = Ok s -> spec_parsed s.
Proof.
  intros Ho Hp Hw. unfold from_pattern. destruct (vp_wildcard vp).
  - destruct (to_star o) as [so|]; [|done]. intros [-> Hv]%from_version_ok.
    split; [done|]. split; [done|]. auto.
  - intros [-> Hv]%from_version_ok. split; [done|]. split; [done|]. cbn [operator]. congruence.
Qed.

Lemma parse_pattern_total s : Forall is_u8 s -> exists r, parse_pattern s = Ret r.
Proof.
  intros H. rewrite parse_pattern_is_general by done. destruct (general_pattern_total s) as (r & -> & _). eauto.
Qed.

Lemma specifier_from_str_total spec : Forall is_char spec ->
  exists r, specifier_from_str spec = Ret r /\ forall s, r = Ok s -> spec_parsed s.
Proof.
  intros Hc. unfold specifier_from_str. cbn [eat_while scanner_new scanner_done scanner_after text_scanner].
  set (t1 := drop_while is_whitespace spec). set (o := take_while is_op_char t1).
  set (t2 := drop_while is_whitespace (drop_while is_op_char t1)).
  set (t := take_while (fun c => negb (is_whitespace c)) t2). set (t3 := drop_while is_whitespace _).
  assert (Ht : Forall is_u8 (utf8 t)) by (unfold t, t2, t1; auto 10 with uv).
  destruct (parse_pattern_total (utf8 t) Ht) as [r Er]. rewrite Er. cbn [obind].
  destruct o as [|c o']; [by eexists|].
  destruct (operator_from_str (c :: o')) as [op|e] eqn:Eo; [|by eexists].
  destruct t as [|x t'] eqn:Et; [by eexists|]. rewrite <- Et in *.
  destruct r as [vp|e]; [|by eexists].
  destruct (from_pattern op vp) as [s|e] eqn:Es; [|by eexists].
  destruct (negb _); eexists; (split; [done|]); [done|]. intros ? [= <-].
  destruct (parse_pattern_parsed _ _ Ht Er) as [Hp Hw].
  eapply from_pattern_parsed; [by eapply operator_from_str_base|exact Hp|exact Hw|exact Es].
Qed.

(** ** Parsing what was printed *)

(** The operator and the wildcard flag a printed specifier is read with. *)
Definition base_operator (o : Operator) : Operator :=
  match o with EqualStar => Equal | NotEqualStar => NotEqual | _ => o end.

Definition version_text (s : VersionSpecifier) : list Z :=
  version_display (spec_version s) ++ (if is_star (operator s) then bs ".*" else []).

Lemma specifier_display_text s : specifier_display s = as_str (operator s) ++ version_text s.
Proof.
  unfold specifier_display, version_text. destruct (operator s); cbn; rewrite ?app_nil_r; done.
Qed.

Lemma version_text_bytes s : spec_parsed s -> Forall text_byte (version_text s).
Proof.
  intros ([Hc _] & _ & _). apply Forall_app. split; [by apply version_display_bytes|].
  destruct (is_star _); [by repeat constructor|constructor].
Qed.

Lemma version_text_pattern s : spec_parsed s ->
  parse_pattern (utf8 (version_text s)) = Ret (Ok (mkPattern (spec_version s) (is_star (operator s)))).
Proof.
  intros H. rewrite utf8_text by (by apply version_text_bytes). destruct H as (Hp & _ & Hs).
  unfold version_text. destruct (is_star (operator s)); [by apply parse_pattern_star; auto|].
  rewrite app_nil_r. by apply parse_pattern_display.
Qed.

Lemma version_text_head s : spec_parsed s ->
  exists d r, version_text s = d :: r /\ is_ascii_digit d = true.
Proof.
  intros ([Hc _] & _). destruct (version_display_head _ Hc) as (d & r & E & Hd).
  unfold version_text. rewrite E. by eexists _, _.
Qed.

Lemma spec_valid_from_version o v : spec_valid (mkSpec o v) = true -> from_version o v = Ok (mkSpec o v).
Proof.
  unfold spec_valid, from_version. cbn [operator spec_version]. intros [H1 H2]%andb_prop.
  destruct (is_local v), (is_local_compatible o); try done; cbn [negb andb];
    (destruct (op_eqb o TildeEqual); cbn [andb implb] in *; [|done]);
    apply Nat.ltb_lt in H2; by destruct (Nat.ltb_spec (length (release v)) 2); [lia|].
Qed.

Lemma from_pattern_base s : spec_parsed s ->
  from_pattern (base_operator (operator s)) (mkPattern (spec_version s) (is_star (operator s))) = Ok s.
Proof.
  intros (_ & Hv & _). destruct s as [o v]. unfold from_pattern. cbn [vp_wildcard vp_version operator spec_version] in *.
  destruct o; cbn [is_star base_operator to_star]; by apply spec_valid_from_version.
Qed.

Lemma text_not_space l : Forall text_byte l -> Forall (fun c => negb (is_whitespace c) = true) l.
Proof.
  intros H. eapply Forall_impl; [exact H|]. unfold text_byte, is_whitespace. cbn. intros c Hc.
  apply negb_true_iff. lia.
Qed.

Lemma specifier_text_spaced ws s ws' : spec_parsed s -> Forall (fun c => is_whitespace c = true) ws -> Forall (fun c => is_whitespace c = true) ws' ->
  specifier_from_str (ws ++ specifier_display s ++ ws') = Ret (Ok s).
Proof.
  intros Hs Hws Hws'. rewrite specifier_display_text, <- app_assoc. destruct (version_text_head s Hs) as (d & r & Et & Hd).
  unfold is_ascii_digit in Hd.
  assert (Hop : Forall (fun c => is_op_char c = true) (as_str (operator s))) by (destruct (operator s); by repeat constructor).
  assert (Hsp : stops is_whitespace (as_str (operator s) ++ version_text s ++ ws')) by (by destruct (operator s)).
  assert (Hdig : stops is_op_char (version_text s ++ ws')).
  { rewrite Et. cbn. unfold is_op_char. lia. }
  assert (Hdig' : stops is_whitespace (version_text s ++ ws')).
  { rewrite Et. cbn. unfold is_whitespace. lia. }
  unfold specifier_from_str. cbn [eat_while scanner_new scanner_done scanner_after text_scanner].
  rewrite (drop_while_app _ _ _ Hws Hsp), (take_while_app _ _ _ Hop Hdig), (drop_while_app _ _ _ Hop Hdig).
  rewrite (drop_while_id _ _ Hdig').
  pose proof (text_not_space _ (version_text_bytes s Hs)) as Hns.
  assert (Hend : stops (fun c => negb (is_whitespace c)) ws') by (destruct Hws' as [|x l Hx]; [done|]; cbn; by rewrite Hx).
  assert (Hdrop : drop_while is_whitespace ws' = []) by (rewrite <- (app_nil_r ws'); by rewrite drop_while_app).
  rewrite (take_while_app _ _ ws' Hns Hend), (drop_while_app _ _ ws' Hns Hend), Hdrop.
  assert (Eop : operator_from_str (as_str (operator s)) = Ok (base_operator (operator s))) by (by destruct (operator s)).
  rewrite Eop, (version_text_pattern s Hs). cbn [obind]. rewrite (from_pattern_base s Hs).
  assert (Hne : as_str (operator s) <> []) by (by destruct (operator s)). rewrite Et.
  by destruct (as_str (operator s)).
Qed.

Lemma specifier_text_roundtrip ws s : spec_parsed s -> Forall (fun c => is_whitespace c = true) ws ->
  specifier_from_str (ws ++ specifier_display s) = Ret (Ok s).
Proof. intros Hs Hws. rewrite <- (app_nil_r (specifier_display s)). by apply specifier_text_spaced. Qed.

(** ** Lists *)

Lemma specifier_display_bytes s : spec_parsed s -> Forall text_byte (specifier_display s).
Proof.
  intros H. rewrite specifier_display_text. apply Forall_app. split; [|by apply version_text_bytes].
  destruct (operator s); by repeat constructor.
Qed.

Lemma no_comma l : Forall text_byte l -> Forall (fun c => c <> 44) l.
Proof. intros H. eapply Forall_impl; [exact H|]. by intros c (_ & ? & _). Qed.

(** The parts between the commas of a printed list. *)
Lemma split_display s l : spec_parsed s -> Forall spec_parsed l ->
  split_on 44 (specifier_display s ++ specifiers_display_rest l) =
  specifier_display s :: map (fun x => 32 :: specifier_display x) l.
Proof.
  intros Hs Hl. assert (G : forall a, Forall (fun c => c <> 44) a ->
    split_on 44 (a ++ specifiers_display_rest l) = a :: map (fun x => 32 :: specifier_display x) l);
    [|apply G, no_comma, specifier_display_bytes, Hs].
  induction Hl as [|x l Hx Hl IH]; intros a Ha.
  - rewrite app_nil_r. by apply split_on_none.
  - change (specifiers_display_rest (x :: l)) with (44 :: (32 :: specifier_display x) ++ specifiers_display_rest l).
    rewrite split_on_app by done. cbn [map]. f_equal. apply IH. constructor; [done|].
    by apply no_comma, specifier_display_bytes.
Qed.

Lemma parse_loop_display spec l start acc : Forall spec_parsed l ->
  parse_specifiers_loop spec (map (fun x => 32 :: specifier_display x) l) start acc = Ret (Ok (acc ++ l)).
Proof.
  intros Hl. revert start acc. induction Hl as [|x l Hx Hl IH]; intros start acc; cbn [map parse_specifiers_loop].
  - by rewrite app_nil_r.
  - pose proof (specifier_text_roundtrip [32] x Hx) as E. cbn [app] in E.
    rewrite E by (by repeat constructor). cbn [obind]. rewrite IH. by rewrite <- app_assoc.
Qed.

Lemma display_rest_utf8 l : Forall spec_parsed l ->
  utf8 (specifiers_display_rest l) = specifiers_display_rest l.
Proof.
  induction 1 as [|x l Hx Hl IH]; [done|]. cbn [specifiers_display_rest]. rewrite !utf8_app, IH.
  by rewrite (utf8_text _ (specifier_display_bytes x Hx)).
Qed.

Lemma filter_comma l : Forall text_byte l -> List.filter (Z.eqb 44) l = [].
Proof.
  induction 1 as [|b l (_ & Hb & _) Hl IH]; [done|]. cbn [List.filter].
  by destruct (Z.eqb_spec 44 b); [congruence|].
Qed.

Lemma specifiers_text_roundtrip l : Forall spec_parsed l -> from_unsorted l = l ->
  specifiers_from_str (specifiers_display l) = Ret (Ok l).
Proof.
  intros Hl Hsort. unfold specifiers_from_str, specifiers_display. destruct Hl as [|s l Hs Hl]; [done|].
  rewrite utf8_app, display_rest_utf8, (utf8_text _ (specifier_display_bytes s Hs)) by done.
  rewrite List.filter_app, (filter_comma _ (specifier_display_bytes s Hs)). destruct Hl as [|x l Hx Hl].
  - cbn [specifiers_display_rest List.filter app length Nat.eqb]. rewrite app_nil_r.
    pose proof (specifier_text_roundtrip [] s Hs ltac:(constructor)) as E. cbn [app] in E. rewrite E.
    by destruct (specifier_display s) eqn:Ed; [rewrite specifier_display_text in Ed; destruct (operator s)|].
  - change (specifiers_display_rest (x :: l)) with (44 :: 32 :: specifier_display x ++ specifiers_display_rest l) at 1.
    cbn [List.filter Z.eqb Pos.eqb app length Nat.eqb].
    unfold parse_version_specifiers. rewrite split_display by (done || by constructor).
    cbn [parse_specifiers_loop]. pose proof (specifier_text_roundtrip [] s Hs ltac:(constructor)) as E. cbn [app] in E.
    rewrite E. cbn [obind app]. rewrite parse_loop_display by (by constructor). cbn [obind app]. by rewrite Hsort.
Qed.

(** ** Lists: what the parser returns *)

Lemma split_on_chars sep s : Forall is_char s -> Forall (Forall is_char) (split_on sep s).
Proof.
  induction 1 as [|c s Hc Hs IH]; cbn [split_on]; [by repeat constructor|].
  destruct (c =? sep); [by constructor|]. destruct IH as [|p ps Hp Hps].
  - apply Forall_singleton. by constructor.
  - constructor; [by constructor|done].
Qed.

(** The span of an error covers the part that failed. *)
Definition span_ok (spec : list Z) (e : VersionSpecifiersParseError) : Prop :=
  spe_line e = spec /\ exists before part after,
    utf8 spec = before ++ utf8 part ++ after /\ length before = spe_start e /\
    spe_end e = (spe_start e + length (utf8 part))%nat /\
    specifier_from_str part = Ret (Err (spe_err e)).

Lemma parse_loop_spec spec before parts start acc :
  Forall (Forall is_char) parts -> Forall spec_parsed acc ->
  (parts = [] \/ utf8 spec = before ++ utf8 (join_on 44 parts)) -> length before = start ->
  exists r, parse_specifiers_loop spec parts start acc = Ret r /\
    (forall l, r = Ok l -> Forall spec_parsed l) /\ (forall e, r = Err e -> span_ok spec e).
Proof.
  revert before start acc. induction parts as [|p ps IH]; intros before start acc Hc Ha Hspec Hlen;
    cbn [parse_specifiers_loop].
  - eexists. split; [done|]. split; [by intros ? [= <-]|done].
  - apply Forall_cons in Hc as [Hp Hps]. destruct Hspec as [|Hspec]; [done|].
    destruct (specifier_from_str_total p Hp) as (r & Er & Hr). rewrite Er. cbn [obind].
    assert (Hsplit : exists after, utf8 spec = before ++ utf8 p ++ after).
    { destruct ps as [|p' ps]; cbn [join_on] in Hspec; [exists []; by rewrite app_nil_r|].
      rewrite utf8_app in Hspec. eauto. }
    destruct r as [s|e].
    + apply (IH (before ++ utf8 p ++ [44])); [done|apply Forall_app; split; [done|by constructor; auto]| |].
      * destruct ps as [|p' ps]; [by left|right]. rewrite Hspec. cbn [join_on]. rewrite utf8_app. cbn [utf8 flat_map].
        change (utf8_char 44) with [44]. by rewrite <- !app_assoc.
      * rewrite !length_app. cbn. lia.
    + eexists. split; [done|]. split; [done|]. intros ? [= <-]. split; [done|].
      destruct Hsplit as [after Hs]. exists before, p, after. by repeat split.
Qed.

Lemma specifiers_from_str_spec s : Forall is_char s ->
  exists r, specifiers_from_str s = Ret r /\
    (forall l, r = Ok l -> Forall spec_parsed l /\ from_unsorted l = l) /\
    (forall e, r = Err e -> span_ok s e).
Proof.
  intros Hc. unfold specifiers_from_str. destruct (Nat.eqb _ 0).
  - destruct s as [|c s]; [eexists; split; [done|]; split; [by intros ? [= <-]|done]|].
    destruct (specifier_from_str_total _ Hc) as (r & Er & Hr). rewrite Er. cbn [obind].
    eexists. split; [done|]. destruct r as [x|e].
    + split; [|done]. intros ? [= <-]. split; [constructor; auto|done].
    + split; [done|]. intros ? [= <-]. split; [done|]. exists [], (c :: s), [].
      rewrite app_nil_r. by repeat split.
  - unfold parse_version_specifiers.
    destruct (parse_loop_spec s [] (split_on 44 s) 0 []) as (r & -> & Hok & Herr);
      [by apply split_on_chars|constructor|right; by rewrite join_split|done|].
    cbn [obind]. eexists. split; [done|]. destruct r as [l|e].
    + split; [|done]. intros ? [= <-]. specialize (Hok l eq_refl).
      pose proof (sort_by_perm unsorted_cmp l) as P. split; [unfold from_unsorted; by rewrite <- P|].
      apply from_unsorted_idem. eapply Forall_impl; [exact Hok|]. intros x Hx.
      by apply real_wf, spec_real_elim, spec_parsed_real.
    + split; [done|]. intros ? [= <-]. by apply Herr.
Qed.

(** ** Properties of parsing *)

Section properties.
Context {S : Type} `{ScannerLaws S}.

(** Parsing a specifier list never panics, whatever the text, and every
    specifier it returns is one that [from_version] accepts, with a version the
    version parser built; lists come back sorted. *)
Theorem specifiers_parse_total s : Forall is_char s ->
  exists r, specifiers_from_str (S := S) s = Ret r /\
    forall l, r = Ok l -> Forall (fun x => spec_real x = true) l /\ from_unsorted l = l.
Proof.
  intros Hc. rewrite specifiers_from_str_text. destruct (specifiers_from_str_spec s Hc) as (r & Er & Hok & _).
  exists r. split; [done|]. intros l El. destruct (Hok l El) as [Hp Hs]. split; [|done].
  eapply Forall_impl; [exact Hp|]. apply spec_parsed_real.
Qed.

(** C37: printing a parsed list of specifiers and parsing the text again gives
    back the same list, wildcards and versions included. *)
Theorem specifiers_roundtrip s l : Forall is_char s -> specifiers_from_str (S := S) s = Ret (Ok l) ->
  specifiers_from_str (S := S) (specifiers_display l) = Ret (Ok l).
Proof.
  intros Hc E. rewrite specifiers_from_str_text in E |- *.
  destruct (specifiers_from_str_spec s Hc) as (r & Er & Hok & _). rewrite E in Er. injection Er as <-.
  destruct (Hok l eq_refl) as [Hp Hs]. by apply specifiers_text_roundtrip.
Qed.

(** The span of a parse error of a list lies inside the line, so that
    displaying the error does not panic, and covers exactly the bytes of the
    specifier that failed to parse with the reported error. *)
Theorem specifiers_error_span s e : Forall is_char s -> specifiers_from_str (S := S) s = Ret (Err e) ->
  exists before part, error_span e = Ret (before, utf8 part) /\
    specifier_from_str (S := S) part = Ret (Err (spe_err e)).
Proof.
  intros Hc. rewrite specifiers_from_str_text. intros E.
  destruct (specifiers_from_str_spec s Hc) as (r & Er & _ & Herr). rewrite E in Er. injection Er as <-.
  destruct (Herr e eq_refl) as (El & before & part & after & Eu & Es & Een & Ep).
  exists before, part. rewrite specifier_from_str_text. split; [|done].
  unfold error_span. rewrite El, Eu, !length_app, Een, <- Es.
  rewrite (proj2 (Nat.leb_le _ _)), (proj2 (Nat.leb_le _ _)) by lia. cbn [andb assert]. do 2 f_equal.
  - by rewrite take_app_length.
  - rewrite drop_app_length. replace (length before + length (utf8 part) - length before)%nat
      with (length (utf8 part)) by lia. by rewrite take_app_length.
Qed.
End properties.

Lemma specifiers_parse_total_witness :
  exists r, specifiers_from_str (S := list Z) (bs ">= 1.0, != 1.3.*") = Ret r /\
    forall l, r = Ok l -> Forall (fun x => spec_real x = true) l /\ from_unsorted l = l.
Proof. apply specifiers_parse_total. by repeat constructor. Defined.

Lemma specifiers_roundtrip_witness : exists l,
  specifiers_from_str (S := list Z) (bs "<2,>= 1.0 , != 1.3.* ") = Ret (Ok l) /\
  specifiers_from_str (S := list Z) (specifiers_display l) = Ret (Ok l).
Proof.
  eexists. split; [vm_compute; reflexivity|].
  apply (specifiers_roundtrip (bs "<2,>= 1.0 , != 1.3.* ")); [by repeat constructor|vm_compute; reflexivity].
Defined.

Lemma specifiers_error_span_witness : exists e before part,
  specifiers_from_str (S := list Z) (bs ">=1.0, ~=2,<3") = Ret (Err e) /\
  error_span e = Ret (before, utf8 part) /\
  specifier_from_str (S := list Z) part = Ret (Err (spe_err e)).
Proof.
  eexists. destruct (specifiers_error_span (S := list Z) (bs ">=1.0, ~=2,<3") _
    ltac:(by repeat constructor) ltac:(vm_compute; reflexivity)) as (before & part & E1 & E2).
  exists before, part. split; [vm_compute; reflexivity|]. by split.
Defined.
