(* ===== verification/SpecifierErrors.v ===== *)
(** * The texts of version and specifier errors

    Models [Display] of the errors of version.rs and version_specifier.rs
    ([OperatorParseError], [VersionParseError], [VersionPatternParseError],
    [VersionSpecifierBuildError], [VersionOperatorBuildError],
    [VersionSpecifierParseError], [VersionSpecifiersParseError]).

    What the standard library makes of text that is quoted or not UTF-8 is an
    interface ([StdText]).  Displaying an error that a parser returned never
    panics. *)

From Stdlib Require Import ZArith Lia String.
From stdpp Require Import base list.
From S2P Require Import Prelude.
From S2P Require Import VersionRepr.
From S2P Require Import VersionOrder.
From S2P Require Import VersionParser.
From S2P Require Import VersionDisplay.
From S2P Require Import VersionRecord.
From S2P Require Import Specifier.
From S2P Require Import SpecifierParser.
Open Scope Z_scope.

(** [Debug] of [str] and [char], [String::from_utf8_lossy], and the longest prefix
    that [str::from_utf8] accepts. *)
Class StdText := {
  debug_str : list Z -> list Z;
  debug_char : Z -> list Z;
  from_utf8_lossy : list Z -> list Z;
  utf8_valid_prefix : list Z -> list Z;
}.

(** The simplest such functions: text between quotes, and a byte for a character. *)
#[export] Instance plain_text : StdText := {|
  debug_str s := bs "'" ++ s ++ bs "'";
  debug_char c := bs "'" ++ [c] ++ bs "'";
  from_utf8_lossy s := s;
  utf8_valid_prefix s := s;
|}.

Section displays.
Context `{StdText}.

(** [{:02X}] of a byte *)
Definition hex_digit_upper (n : Z) : Z := if n <? 10 then 48 + n else 55 + n.
Definition hex_byte_upper (b : Z) : list Z := [hex_digit_upper (b / 16); hex_digit_upper (b mod 16)].

(** [Display for OperatorParseError] *)
Definition operator_error_display (got : list Z) : list Z :=
  bs "no such comparison operator " ++ debug_str got ++ bs ", must be one of ~= == != <= >= < > ===".

(** [Display for VersionParseError] *)
Definition version_error_display (kind : ErrorKind) : list Z :=
  match kind with
  | Wildcard => bs "wildcards are not allowed in a version"
  | InvalidDigit got =>
      if got <? 128 then bs "expected ASCII digit, but found " ++ debug_char got
      else bs "expected ASCII digit, but found non-ASCII byte \x" ++ hex_byte_upper got
  | NumberTooBig bytes =>
      bs "expected number less than or equal to " ++ show_u64 (u64_max - 1) ++
      bs ", but number found in " ++ debug_str (utf8_valid_prefix bytes) ++ bs " exceeds it"
  | NoLeadingNumber => bs "expected version to start with a number, but no leading ASCII digits were found"
  | NoLeadingReleaseNumber =>
      bs "expected version to have a non-empty release component after an epoch, but no ASCII digits after the epoch were found"
  | LocalEmpty precursor =>
      bs "found a `" ++ [precursor] ++ bs "` indicating the start of a local component in a version, but did not find any alphanumeric ASCII segment following the `"
      ++ [precursor] ++ bs "`"
  | UnexpectedEnd version remaining =>
      bs "after parsing `" ++ from_utf8_lossy version ++ bs "`, found `" ++ from_utf8_lossy remaining ++ bs "`, which is not part of a valid version"
  end.

(** [Display for VersionPatternParseError] *)
Definition pattern_error_display (kind : PatternErrorKind) : list Z :=
  match kind with
  | PVersion err => version_error_display err
  | WildcardNotTrailing => bs "wildcards in versions must be at the end"
  end.

(** [Display for VersionSpecifierBuildError] *)
Definition build_error_display (kind : BuildErrorKind) : list Z :=
  match kind with
  | OperatorLocalCombo op version =>
      bs "Operator " ++ as_str op ++ bs " is incompatible with versions containing non-empty local segments (`+" ++
      display_local (local version) ++ bs "`)"
  | OperatorWithStar op => bs "Operator " ++ as_str op ++ bs " cannot be used with a wildcard version specifier"
  | CompatibleRelease => bs "The ~= operator requires at least two segments in the release version"
  end.

(** [Display for VersionOperatorBuildError]; the [unwrap] of the suggestion. *)
Definition operator_build_error_display (version_pattern : option VersionPattern) : outcome (list Z) :=
  let! hint := match version_pattern with
    | Some vp =>
        match from_pattern Equal vp with
        | Ok version_specifier => Ret (bs ". Did you mean `" ++ specifier_display version_specifier ++ bs "`?")
        | Err _ => Panic
        end
    | None => Ret []
    end in
  Ret (bs "Unexpected end of version specifier, expected operator" ++ hint).

(** [Display for VersionSpecifierParseError] *)
Definition specifier_error_display (kind : ParseErrorKind) : outcome (list Z) :=
  match kind with
  | InvalidOperator got => Ret (operator_error_display got)
  | InvalidVersion err => Ret (pattern_error_display err)
  | InvalidSpecifier err => Ret (build_error_display err)
  | MissingOperator version_pattern => operator_build_error_display version_pattern
  | MissingVersion => Ret (bs "Unexpected end of version specifier, expected version")
  | InvalidTrailing trail => Ret (bs "Trailing `" ++ trail ++ bs "` is not allowed")
  end.

(** The specifier that is suggested when the operator is missing can be built. *)
Lemma operator_build_error_displayed vp : (vp_wildcard vp = true -> plain (make_full (vp_version vp)) = true) ->
  exists text, operator_build_error_display (Some vp) = Ret text.
Proof.
  intros Hw. unfold operator_build_error_display, from_pattern. destruct (vp_wildcard vp).
  - cbn [to_star]. unfold from_version, is_local. assert (local_is_empty (local (vp_version vp)) = true) as ->.
    { rewrite local_view. specialize (Hw eq_refl). unfold plain in Hw. by apply andb_true_iff in Hw as [_ ?]. }
    by eexists.
  - unfold from_version. cbn [is_local_compatible negb]. rewrite andb_false_r. by eexists.
Qed.

(** Displaying an error of [VersionSpecifier::from_str] does not panic. *)
Lemma specifier_error_displayed {Sc : Type} `{ScannerLaws Sc} spec err : Forall is_char spec ->
  specifier_from_str (S := Sc) spec = Ret (Err err) -> exists text, specifier_error_display err = Ret text.
Proof.
  intros Hc. rewrite specifier_from_str_text. unfold specifier_from_str. cbn [eat_while scanner_new scanner_done scanner_after text_scanner].
  set (t1 := drop_while is_whitespace spec). set (o := take_while is_op_char t1).
  set (t2 := drop_while is_whitespace (drop_while is_op_char t1)).
  set (t := take_while (fun c => negb (is_whitespace c)) t2). set (t3 := drop_while is_whitespace _).
  assert (Ht : Forall is_u8 (utf8 t)) by (unfold t, t2, t1; auto 10 with uv).
  destruct (parse_pattern_total (utf8 t) Ht) as [r Er]. rewrite Er. cbn [obind].
  destruct o as [|c o'].
  { intros [= <-]. destruct r as [vp|]; [|by eexists]. apply operator_build_error_displayed. by destruct (parse_pattern_parsed _ _ Ht Er). }
  destruct (operator_from_str (c :: o')) as [op|e]; [|intros [= <-]; by eexists].
  destruct t as [|x t']; [intros [= <-]; by eexists|]. destruct r as [vp|e]; [|intros [= <-]; by eexists].
  destruct (from_pattern op vp) as [s|e]; [|intros [= <-]; by eexists].
  destruct (negb _); [intros [= <-]; by eexists|done].
Qed.
End displays.
