(* ===== verification/Ranges.v ===== *)
(** * Version ranges

    Models the conversions of [crates/uv-pep440/src/version_ranges.rs]:
    specifiers to the [Ranges] the resolver works with, and release-only ranges.

    [version_ranges::Ranges] is a third-party type.  [RangeOps] has the
    operations the conversion calls, [RangeLaws] what the crate documents of
    them: which versions a range contains, as long as the versions it is built
    from are well-formed ([ranges_ok]), that is, in the domain where [Ord] for
    [Version] is a total order.

    The theorems: the conversion agrees with [VersionSpecifier::contains] (and
    where it does not), it never loses a version, [< V] is downward closed, and
    release-only ranges agree with [contains] on release-only versions. *)

From Stdlib Require Import ZArith Lia String.
From stdpp Require Import base list.
From S2P Require Import Prelude.
From S2P Require Import VersionRepr.
From S2P Require Import VersionOrder.
From S2P Require Import VersionParser.
From S2P Require Import VersionDisplay.
From S2P Require Import VersionRecord.
From S2P Require Import Specifier.
Open Scope Z_scope.

(** ** The interface of [Ranges] *)

Class RangeOps (R : Type) := {
  ranges_contains : R -> Version -> bool;
  ranges_full : R;
  ranges_singleton : Version -> R;
  ranges_between : Version -> Version -> R;
  ranges_complement : R -> R;
  ranges_intersection : R -> R -> R;
  ranges_strictly_lower_than : Version -> R;
  ranges_lower_than : Version -> R;
  ranges_strictly_higher_than : Version -> R;
  ranges_higher_than : Version -> R;
  (** [from_range_bounds(low..high)] *)
  ranges_from_range : Version -> Version -> R;
}.

Class RangeLaws (R : Type) `{RangeOps R} := {
  ranges_ok : R -> Prop;
  full_ok : ranges_ok ranges_full;
  singleton_ok : forall v, wf v = true -> ranges_ok (ranges_singleton v);
  between_ok : forall v w, wf v = true -> wf w = true -> cmp v w = Lt -> ranges_ok (ranges_between v w);
  complement_ok : forall r, ranges_ok r -> ranges_ok (ranges_complement r);
  intersection_ok : forall r s, ranges_ok r -> ranges_ok s -> ranges_ok (ranges_intersection r s);
  strictly_lower_ok : forall v, wf v = true -> ranges_ok (ranges_strictly_lower_than v);
  lower_ok : forall v, wf v = true -> ranges_ok (ranges_lower_than v);
  strictly_higher_ok : forall v, wf v = true -> ranges_ok (ranges_strictly_higher_than v);
  higher_ok : forall v, wf v = true -> ranges_ok (ranges_higher_than v);
  from_range_ok : forall v w, wf v = true -> wf w = true -> ranges_ok (ranges_from_range v w);
  contains_full : forall x, wf x = true -> ranges_contains ranges_full x = true;
  contains_singleton : forall v x, wf v = true -> wf x = true ->
    ranges_contains (ranges_singleton v) x = is_eq (cmp x v);
  contains_between : forall v w x, wf v = true -> wf w = true -> cmp v w = Lt -> wf x = true ->
    ranges_contains (ranges_between v w) x = is_ge (cmp x v) && is_lt (cmp x w);
  contains_complement : forall r x, ranges_ok r -> wf x = true ->
    ranges_contains (ranges_complement r) x = negb (ranges_contains r x);
  contains_intersection : forall r s x, ranges_ok r -> ranges_ok s -> wf x = true ->
    ranges_contains (ranges_intersection r s) x = ranges_contains r x && ranges_contains s x;
  contains_strictly_lower : forall v x, wf v = true -> wf x = true ->
    ranges_contains (ranges_strictly_lower_than v) x = is_lt (cmp x v);
  contains_lower : forall v x, wf v = true -> wf x = true ->
    ranges_contains (ranges_lower_than v) x = is_le (cmp x v);
  contains_strictly_higher : forall v x, wf v = true -> wf x = true ->
    ranges_contains (ranges_strictly_higher_than v) x = is_gt (cmp x v);
  contains_higher : forall v x, wf v = true -> wf x = true ->
    ranges_contains (ranges_higher_than v) x = is_ge (cmp x v);
  contains_from_range : forall v w x, wf v = true -> wf w = true -> wf x = true ->
    ranges_contains (ranges_from_range v w) x = is_ge (cmp x v) && is_lt (cmp x w);
}.

(** ** Conversion of specifiers *)

Section conversion.
Context {R : Type} `{RangeOps R}.

Definition equal_range (version : Version) : outcome R :=
  match local version with
  | Segments [] => Ret (ranges_between version (with_local version LMax))
  | Segments _ => Ret (ranges_singleton version)
  | LMax => Panic
  end.

(** [let [rest @ .., last, _] = release]: the upper release of [~=]. *)
Definition tilde_upper_release (release : list Z) : outcome (list Z) :=
  match rev release with
  | _ :: last :: rest => let! next := add64 last 1 in Ret (rev rest ++ [next])
  | _ => Panic
  end.

(** [*release.last_mut().unwrap() += 1] *)
Definition increment_last (release : list Z) : outcome (list Z) :=
  match rev release with
  | last :: rest => let! next := add64 last 1 in Ret (rev rest ++ [next])
  | [] => Panic
  end.

Definition star_range (version : Version) : outcome R :=
  let low := with_dev version (Some 0) in
  let! high :=
    match post low, pre low with
    | Some post, _ => let! next := add64 post 1 in Ret (with_post low (Some next))
    | None, Some pre =>
        let! next := add64 (pre_number pre) 1 in
        Ret (with_pre low (Some (mkPre (pre_kind pre) next)))
    | None, None => let! release := increment_last (release low) in with_release low release
    end in
  Ret (ranges_from_range low high).

(** [impl From<VersionSpecifier> for Ranges<Version>] *)
Definition specifier_to_ranges (s : VersionSpecifier) : outcome R :=
  let version := spec_version s in
  match operator s with
  | Equal => equal_range version
  | ExactEqual => Ret (ranges_singleton version)
  | NotEqual => outcome_map ranges_complement (equal_range version)
  | TildeEqual =>
      let! up := tilde_upper_release (release version) in
      let! upper := version_new up in
      Ret (ranges_from_range version (with_dev (with_epoch upper (epoch version)) (Some 0)))
  | LessThan =>
      if any_prerelease version then Ret (ranges_strictly_lower_than version)
      else if is_post version then Ret (ranges_strictly_lower_than (with_dev version (Some 0)))
      else outcome_map ranges_strictly_lower_than (with_min version (Some 0))
  | LessThanEqual => Ret (ranges_lower_than (with_local version LMax))
  | GreaterThan =>
      match dev version with
      | Some dev => let! next := add64 dev 1 in Ret (ranges_higher_than (with_dev version (Some next)))
      | None =>
          if is_post version then Ret (ranges_strictly_higher_than (with_local version LMax))
          else outcome_map ranges_strictly_higher_than (with_max version (Some 0))
      end
  | GreaterThanEqual => Ret (ranges_higher_than version)
  | EqualStar => star_range version
  | NotEqualStar => outcome_map ranges_complement (star_range version)
  end.

Fixpoint intersect_all (convert : VersionSpecifier -> outcome R) (range : R)
    (specifiers : list VersionSpecifier) : outcome R :=
  match specifiers with
  | [] => Ret range
  | s :: rest =>
      let! r := convert s in
      intersect_all convert (ranges_intersection range r) rest
  end.

(** [impl From<VersionSpecifiers> for Ranges<Version>] *)
Definition specifiers_to_ranges (l : VersionSpecifiers) : outcome R :=
  intersect_all specifier_to_ranges ranges_full l.

(** ** Release-only conversion *)

Definition release_star_range (version : Version) : outcome R :=
  let! low_full := only_release version in
  let! release := increment_last (release low_full) in
  let! high := with_release low_full release in
  Ret (ranges_from_range version high).

Definition release_specifier_to_range (s : VersionSpecifier) (trim : bool) : outcome R :=
  let version := spec_version s in
  let! version_trimmed := if trim then only_release_trimmed version else only_release version in
  match operator s with
  | Equal => Ret (ranges_singleton version_trimmed)
  | ExactEqual => Ret (ranges_singleton version_trimmed)
  | NotEqual => Ret (ranges_complement (ranges_singleton version_trimmed))
  | LessThan => Ret (ranges_strictly_lower_than version_trimmed)
  | LessThanEqual => Ret (ranges_lower_than version_trimmed)
  | GreaterThan => Ret (ranges_strictly_higher_than version_trimmed)
  | GreaterThanEqual => Ret (ranges_higher_than version_trimmed)
  | TildeEqual =>
      let! up := tilde_upper_release (release version) in
      let! upper := version_new up in
      Ret (ranges_from_range version_trimmed upper)
  | EqualStar => release_star_range version
  | NotEqualStar => outcome_map ranges_complement (release_star_range version)
  end.

Definition release_specifiers_to_ranges (l : VersionSpecifiers) : outcome R :=
  intersect_all (fun s => release_specifier_to_range s false) ranges_full l.
End conversion.

(** ** Comparing with the bounds of a range *)

Section bounds.
Context (t v : Version) (Hv : real v = true).

Let B := base_cmp (make_full v) (make_full t).

(** A bound without local version. *)
Lemma cmp_plain_bound : wf t = true -> local t = local_empty ->
  is_ge (cmp v t) = is_ge B /\ is_lt (cmp v t) = is_lt B.
Proof.
  intros Ht El. rewrite cmp_full, full_cmp_base by (done || by apply real_wf). fold B.
  rewrite local_view in El. rewrite El. pose proof (local_cmp_empty (f_local (make_full v))).
  destruct B; [|done|done]. cbn [then_with]. by destruct (local_cmp _ _).
Qed.

(** A bound with the [max] local version. *)
Lemma cmp_max_bound w : wf w = true -> make_full w = set_f_local (make_full t) LMax ->
  is_lt (cmp v w) = is_le B /\ is_le (cmp v w) = is_le B /\ is_gt (cmp v w) = is_gt B.
Proof.
  intros Hw Ew. rewrite cmp_full, full_cmp_base, Ew by (done || by apply real_wf).
  rewrite (proj2 (base_cmp_local _ _ _)). fold B. cbn [f_local set_f_local].
  destruct (real_local _ (real_elim v Hv)) as (l & El & _). rewrite local_view in El. rewrite El.
  by destruct B.
Qed.

(** The candidate, which has no local version. *)
Lemma cmp_candidate : wf t = true -> local t = local_empty -> cmp (candidate t v) t = B.
Proof.
  intros Ht El. destruct (candidate_record t v Hv) as [Rc Ec]. rewrite El in Ec. cbn [local_is_empty local_empty] in Ec.
  rewrite cmp_full, full_cmp_base, Ec by (done || by apply real_wf).
  rewrite (proj1 (base_cmp_local _ _ _)). fold B. rewrite local_view in El. rewrite El. by destruct B.
Qed.
End bounds.

Lemma with_local_max_wf t : wf t = true ->
  wf (with_local t LMax) = true /\ make_full (with_local t LMax) = set_f_local (make_full t) LMax.
Proof.
  intros H. unfold wf in *. apply andb_prop in H as [Ho Hf].
  destruct (with_local_view t LMax Ho) as [V O]. split; [|done]. rewrite O, V. done.
Qed.

Definition dev0_tuple : BaseTuple := (1, (0, (None, 0))).

Lemma base_dev0_least v : real v = true -> base_tuple_cmp (base_tuple (make_full v)) dev0_tuple <> Lt.
Proof.
  intros H. pose proof (real_elim v H) as R. rewrite base_tuple_real by done.
  pose proof (real_dev _ R) as Hd. unfold base_tuple_cmp, pair_cmp, dev0_tuple.
  destruct (pre v) as [[k n]|]; [by destruct k|]. destruct (post v); [done|].
  destruct (dev v) as [n|]; [|done]. specialize (Hd n eq_refl). cbn.
  destruct n; [done|done|lia].
Qed.

(** The earliest version of a release bounds by epoch and release alone. *)
Lemma base_cmp_dev0 v g : real v = true -> base_tuple g = dev0_tuple ->
  let c := then_with (epoch v ?= f_epoch g) (pad_cmp (release v) (f_release g)) in
  is_lt (base_cmp (make_full v) g) = is_lt c /\ is_ge (base_cmp (make_full v) g) = is_ge c.
Proof.
  intros Hv E. cbv zeta. pose proof (base_dev0_least v Hv) as L. unfold base_cmp. rewrite E, <- epoch_view, <- release_view.
  destruct (epoch v ?= f_epoch g); [|done|done]. destruct (pad_cmp _ _); [|done|done]. cbn [then_with].
  by destruct (base_tuple_cmp _ _).
Qed.

(** A bare release with an epoch, at its earliest. *)
Lemma dev0_bound w e rs : make_full w = set_f_dev (bare e rs) (Some 0) -> version_ok w = true ->
  0 <= e <= u64_max -> Forall (fun x => 0 <= x <= u64_max) rs ->
  wf w = true /\ local w = local_empty /\ base_tuple (make_full w) = dev0_tuple.
Proof.
  intros E O He Hr. split; [|rewrite local_view, E; done]. unfold wf. rewrite O, E. unfold full_wf, bare, set_f_dev.
  cbn [f_epoch f_release f_pre f_post f_dev f_min f_max opt_all is_some is_none negb implb andb].
  rewrite (proj2 (u64b_iff e) He). cbn. rewrite !andb_true_r. apply forallb_forall.
  intros x Hx%list_elem_of_In. rewrite Forall_forall in Hr. by apply u64b_iff, Hr.
Qed.

Lemma version_new_dev0 rs e : Forall (fun x => 0 <= x <= u64_max) rs -> rs <> [] -> 0 <= e <= u64_max ->
  exists w, version_new rs = Ret w /\ let u := with_dev (with_epoch w e) (Some 0) in
    wf u = true /\ local u = local_empty /\ base_tuple (make_full u) = dev0_tuple /\
    f_epoch (make_full u) = e /\ f_release (make_full u) = rs.
Proof.
  intros Hr Hne He. destruct (version_new_view rs) as (w & E & V & O); [|done|].
  { eapply Forall_impl; [exact Hr|]. simpl. lia. }
  exists w. split; [done|]. cbv zeta. destruct (with_epoch_view w e O) as [V1 O1].
  destruct (with_dev_view (with_epoch w e) (Some 0) O1) as [V2 O2]; [intros ? [= <-]; lia|].
  rewrite V1, V in V2. destruct (dev0_bound _ e rs V2 O2 He Hr) as (? & ? & ?). by rewrite V2 in *.
Qed.

Lemma rev_snoc2 {A} (l : list A) : (1 < length l)%nat -> exists p m k, l = p ++ [m; k] /\ rev l = k :: m :: rev p.
Proof.
  intros H. destruct (rev l) as [|k [|m q]] eqn:E.
  - apply (f_equal length) in E. rewrite length_rev in E. simpl in E. lia.
  - apply (f_equal length) in E. rewrite length_rev in E. simpl in E. lia.
  - exists (rev q), m, k. rewrite rev_involutive. split; [|done].
    rewrite <- (rev_involutive l), E. cbn [rev]. by rewrite <- app_assoc.
Qed.

Lemma rev_snoc1 {A} (l : list A) : l <> [] -> exists p m, l = p ++ [m] /\ rev l = m :: rev p.
Proof.
  intros H. destruct (rev l) as [|m q] eqn:E.
  - apply (f_equal length) in E. rewrite length_rev in E. by destruct l.
  - exists (rev q), m. rewrite rev_involutive. split; [|done]. by rewrite <- (rev_involutive l), E.
Qed.

(** ** Each operator *)

Lemma no_local_empty v : real v = true -> local_is_empty (local v) = true -> local v = local_empty.
Proof. intros _. by destruct (local v) as [[|]|]. Qed.

Section operators.
Context {R : Type} `{RangeLaws R}.

(** A range whose membership of [v] is [b]. *)
Definition admits (m : outcome R) (v : Version) (b : bool) : Prop :=
  exists r, m = Ret r /\ ranges_ok r /\ ranges_contains r v = b.

Lemma admits_complement m v b : wf v = true -> admits m v b -> admits (outcome_map ranges_complement m) v (negb b).
Proof.
  intros Hv (r & -> & Hr & <-). exists (ranges_complement r). split; [done|].
  split; [by apply complement_ok|by apply contains_complement].
Qed.

Lemma equal_range_admits t v : real t = true -> real v = true ->
  admits (equal_range t) v (version_eq (candidate t v) t).
Proof.
  intros Ht Hv. pose proof (real_wf t Ht) as Wt. pose proof (real_wf v Hv) as Wv. unfold equal_range.
  destruct (real_local _ (real_elim t Ht)) as ([|s l] & El & _); rewrite El.
  - destruct (with_local_max_wf t Wt) as [Wm Vm].
    assert (Hlt : cmp t (with_local t LMax) = Lt).
    { destruct (cmp_max_bound t t Ht _ Wm Vm) as [Hlt _]. rewrite base_cmp_refl in Hlt. by destruct (cmp _ _). }
    eexists. split; [done|]. split; [by apply between_ok|].
    rewrite contains_between by done. unfold version_eq.
    rewrite (cmp_candidate t v Hv Wt El), (proj1 (cmp_plain_bound t v Hv Wt El)),
      (proj1 (cmp_max_bound t v Hv _ Wm Vm)). by destruct (base_cmp _ _).
  - eexists. split; [done|]. split; [by apply singleton_ok|]. rewrite contains_singleton by done.
    unfold candidate. by rewrite El.
Qed.

(** [~=] *)
Lemma tilde_range_admits t v : real t = true -> real v = true -> local t = local_empty ->
  (1 < length (release t))%nat ->
  exists b, contains_tilde_equal t (candidate t v) = Ret b /\
    admits (specifier_to_ranges (mkSpec TildeEqual t)) v b.
Proof.
  intros Ht Hv El Hl. pose proof (real_wf t Ht) as Wt. pose proof (real_wf v Hv) as Wv.
  destruct (candidate_record t v Hv) as [Rc _]. destruct (candidate_same t v Hv) as (E1 & E2 & _).
  rewrite tilde_equal_prefix, E1, E2, (cmp_candidate t v Hv Wt El) by done. eexists. split; [done|].
  destruct (rev_snoc2 (release t) Hl) as (p & m & k & Er & Erev). pose proof (real_release _ (real_elim t Ht)) as Hr.
  rewrite Er in Hr. assert (Hm : 0 <= m < u64_max) by (rewrite Forall_app, !Forall_cons in Hr; tauto).
  unfold specifier_to_ranges, tilde_upper_release. cbn [operator spec_version]. rewrite Erev.
  rewrite add64_below, rev_involutive by done. cbn [obind].
  destruct (version_new_dev0 (p ++ [m + 1]) (epoch t)) as (w & -> & Wu & Lu & Bu & Eu & Ru).
  { apply Forall_app. apply Forall_app in Hr as [Hr _]. split; [|apply Forall_singleton; lia].
    eapply Forall_impl; [exact Hr|]. simpl. lia. }
  { by destruct p. } { pose proof (real_epoch _ (real_elim t Ht)). lia. }
  cbn [obind]. set (u := with_dev _ _) in *. eexists. split; [done|]. split; [by apply from_range_ok|].
  rewrite contains_from_range, (proj1 (cmp_plain_bound t v Hv Wt El)), (proj2 (cmp_plain_bound u v Hv Wu Lu)) by done.
  rewrite (proj1 (base_cmp_dev0 v (make_full u) Hv Bu)), Eu, Ru.
  replace (take (length (release t) - 1) (release t)) with (p ++ [m]).
  2: { rewrite Er, length_app. cbn [length]. replace (length p + 2 - 1)%nat with (length (p ++ [m])).
       - by rewrite (app_assoc p [m] [k] : p ++ [m; k] = (p ++ [m]) ++ [k]), take_app_length.
       - rewrite length_app. simpl. lia. }
  pose proof (real_nonneg v Hv) as Nv. pose proof (real_nonneg t Ht) as Nt. rewrite Er in Nt.
  rewrite prefix_padded_interval by (done || lia).
  pose proof (pad_cmp_drop_last (release v) p m k Nv Nt) as Hd. unfold base_cmp.
  rewrite <- !epoch_view, <- !release_view, Er.
  destruct (Z.compare_spec (epoch v) (epoch t)), (Z.eqb_spec (epoch t) (epoch v)); try lia; cbn [andb then_with is_ge is_lt]; try done.
  destruct (pad_cmp (release v) (p ++ [m])), (pad_cmp (release v) (p ++ [m + 1])),
    (pad_cmp (release v) (p ++ [m; k])), (base_tuple_cmp _ _); cbn; try done; by destruct Hd.
Qed.

(** [== V.*] for a version that is only an epoch and a release. *)
Lemma star_range_admits t v : real t = true -> real v = true -> final t = true -> local t = local_empty ->
  admits (star_range t) v (contains_equal_star t (candidate t v)).
Proof.
  intros Ht Hv Hf El. pose proof (real_wf v Hv) as Wv. destruct (candidate_same t v Hv) as (E1 & E2 & _).
  unfold contains_equal_star. rewrite E1, E2. pose proof (real_elim t Ht) as Rt.
  destruct (with_dev_real t 0 Ht) as [Rl Vl]; [done|]. unfold star_range. set (low := with_dev t (Some 0)) in *.
  assert (Hp : post low = None /\ pre low = None).
  { rewrite post_view, pre_view, Vl. cbn [f_post f_pre set_f_dev]. rewrite <- post_view, <- pre_view.
    unfold final in Hf. by destruct (pre t), (post t). }
  destruct Hp as [-> ->]. pose proof (real_release _ Rt) as Hr.
  assert (Erl : release low = release t) by (by rewrite (release_view low), Vl, (release_view t)).
  destruct (rev_snoc1 (release t) (real_nonempty _ Rt)) as (p & m & Er & Erev). rewrite Er in Hr.
  assert (Hm : 0 <= m < u64_max) by (rewrite Forall_app, !Forall_cons in Hr; tauto).
  assert (Hu : Forall (fun x => 0 <= x <= u64_max) (p ++ [m + 1])).
  { apply Forall_app. apply Forall_app in Hr as [Hr _]. split; [|apply Forall_singleton; lia].
    eapply Forall_impl; [exact Hr|]. simpl. lia. }
  unfold increment_last. rewrite Erl, Erev, add64_below, rev_involutive by done. cbn [obind].
  destruct (with_release_view low (p ++ [m + 1])) as (high & -> & Vh & Oh);
    [apply (real_ok _ (real_elim low Rl))|eapply Forall_impl; [exact Hu|simpl; lia]|by destruct p|].
  cbn [obind].
  assert (Eb : make_full t = bare (epoch t) (release t)).
  { by apply final_bare. }
  assert (Hb : 0 <= epoch t <= u64_max) by (pose proof (real_epoch _ Rt); lia).
  destruct (dev0_bound low (epoch t) (release t)) as (Wl & Ll & Bl);
    [by rewrite Vl, Eb|apply (real_ok _ (real_elim low Rl))|done|rewrite Er; eapply Forall_impl; [exact Hr|simpl; lia]|].
  destruct (dev0_bound high (epoch t) (p ++ [m + 1])) as (Wh & Lh & Bh);
    [by rewrite Vh, Vl, Eb|done|done|done|].
  eexists. split; [done|]. split; [by apply from_range_ok|].
  rewrite contains_from_range, (proj1 (cmp_plain_bound low v Hv Wl Ll)), (proj2 (cmp_plain_bound high v Hv Wh Lh)) by done.
  rewrite (proj2 (base_cmp_dev0 v (make_full low) Hv Bl)), (proj1 (base_cmp_dev0 v (make_full high) Hv Bh)).
  rewrite Vh, Vl, Eb. cbn [f_epoch f_release set_f_release set_f_dev bare]. rewrite Er.
  rewrite prefix_padded_interval by (by apply real_nonneg || lia).
  destruct (Z.compare_spec (epoch v) (epoch t)), (Z.eqb_spec (epoch t) (epoch v)); try lia; done.
Qed.

(** [< V] *)
Lemma less_than_pre t v : real t = true -> real v = true -> local t = local_empty ->
  any_prerelease t = true -> contains_less_than t (candidate t v) = is_lt (base_cmp (make_full v) (make_full t)).
Proof.
  intros Ht Hv El Hp. destruct (candidate_same t v Hv) as (E1 & _). unfold contains_less_than.
  rewrite Hp, E1, (cmp_candidate t v Hv (real_wf t Ht) El). cbn [negb andb].
  destruct (Z.ltb_spec (epoch v) (epoch t)) as [Hlt|]; [|done]. unfold base_cmp.
  rewrite <- !epoch_view. by rewrite (proj2 (Z.compare_lt_iff _ _) Hlt).
Qed.

Lemma less_than_post t v : real t = true -> real v = true -> local t = local_empty ->
  any_prerelease t = false -> is_post t = true ->
  contains_less_than t (candidate t v) = is_lt (base_cmp (make_full v) (set_f_dev (make_full t) (Some 0))).
Proof.
  intros Ht Hv El Hp Ho. destruct (candidate_same t v Hv) as (E1 & _). destruct (candidate_flags t v Hv) as [F1 _].
  destruct (with_dev_real t 0 Ht) as [Rd Vd]; [done|].
  assert (Ld : local (with_dev t (Some 0)) = local_empty).
  { rewrite local_view, Vd. cbn [f_local set_f_dev]. by rewrite <- local_view. }
  assert (Ec : candidate (with_dev t (Some 0)) v = candidate t v) by (unfold candidate; by rewrite Ld, El).
  unfold contains_less_than. rewrite Hp, E1, F1, (cmp_candidate t v Hv (real_wf t Ht) El).
  pose proof (cmp_candidate _ v Hv (real_wf _ Rd) Ld) as C. rewrite Ec, Vd in C. rewrite C. cbn [negb andb].
  unfold base_cmp. cbn [f_epoch f_release set_f_dev]. rewrite <- !epoch_view, <- !release_view.
  destruct (Z.compare_spec (epoch v) (epoch t)) as [He|He|He], (Z.ltb_spec (epoch v) (epoch t)); try lia; cbn [then_with]; try done.
  2: by destruct (any_prerelease v).
  destruct (pad_cmp (release v) (release t)); cbn [then_with]; [|by destruct (any_prerelease v)..].
  rewrite <- Vd, !base_tuple_real by done. rewrite (pre_view (with_dev _ _)), (post_view (with_dev _ _)), (dev_view (with_dev _ _)), Vd.
  cbn [f_pre f_post f_dev set_f_dev]. rewrite <- pre_view, <- post_view.
  unfold any_prerelease, is_pre, is_dev, is_post in *. destruct (pre t); [done|]. destruct (post t) as [n|]; [|done].
  destruct (dev t); [done|]. pose proof (real_dev _ (real_elim v Hv)) as Hd.
  unfold base_tuple_cmp, pair_cmp. destruct (pre v) as [[k x]|]; [by destruct k|].
  destruct (post v) as [y|]; [|by destruct (dev v)]. cbn [fst snd Z.compare Pos.compare Pos.compare_cont option_cmp then_with].
  destruct (y ?= n); cbn [then_with]; try (by destruct (dev v)).
  destruct (dev v) as [z|]; cbn [from_option id is_some is_none negb orb andb]; [|done].
  specialize (Hd z eq_refl). by destruct (Z.compare_spec z 0), (Z.compare_spec z u64_max); try lia.
Qed.

(** The [min] sentinel is below every real version of its release. *)
Lemma min_bound t v : real t = true -> real v = true -> final t = true -> local t = local_empty ->
  exists w, with_min t (Some 0) = Ret w /\ wf w = true /\
    is_lt (cmp v w) = is_lt (then_with (epoch v ?= epoch t) (pad_cmp (release v) (release t))).
Proof.
  intros Ht Hv Hf El. pose proof (final_bare t Ht Hf El) as Eb.
  destruct (with_min_view t (Some 0) (real_ok _ (real_elim t Ht))) as (w & E & Vw & Ow);
    [intros ? [= <-]; lia|by rewrite pre_view, Eb|by rewrite dev_view, Eb|].
  exists w. split; [done|]. assert (Ww : wf w = true).
  { pose proof (real_wf t Ht) as Wt. unfold wf in *. apply andb_prop in Wt as [_ Wt]. rewrite Ow, Vw.
    unfold full_wf in *. rewrite Eb in *. cbn in *. rewrite !andb_true_r in *. done. }
  split; [done|]. rewrite cmp_full, Vw, Eb by (done || by apply real_wf). unfold full_cmp.
  cbn [f_epoch f_release set_f_min bare]. rewrite <- epoch_view, <- release_view, <- sortable_tuple_full.
  destruct (epoch v ?= epoch t); [|done|done]. destruct (pad_cmp _ _); [|done|done]. cbn [then_with].
  rewrite sortable_tuple_real by (by apply real_elim).
  by destruct (pre v) as [[[] ?]|], (post v), (dev v).
Qed.

Lemma less_than_range_admits t v : real t = true -> real v = true -> local t = local_empty ->
  admits (specifier_to_ranges (mkSpec LessThan t)) v (contains_less_than t (candidate t v)).
Proof.
  intros Ht Hv El. pose proof (real_wf t Ht) as Wt. pose proof (real_wf v Hv) as Wv.
  unfold specifier_to_ranges. cbn [operator spec_version]. destruct (any_prerelease t) eqn:Hp.
  - eexists. split; [done|]. split; [by apply strictly_lower_ok|]. rewrite contains_strictly_lower by done.
    rewrite (proj2 (cmp_plain_bound t v Hv Wt El)). by rewrite less_than_pre.
  - destruct (is_post t) eqn:Ho.
    + destruct (with_dev_real t 0 Ht) as [Rd Vd]; [done|].
      assert (Ld : local (with_dev t (Some 0)) = local_empty).
      { rewrite local_view, Vd. cbn [f_local set_f_dev]. by rewrite <- local_view. }
      eexists. split; [done|]. split; [by apply strictly_lower_ok, real_wf|].
      rewrite contains_strictly_lower by (done || by apply real_wf).
      rewrite (proj2 (cmp_plain_bound _ v Hv (real_wf _ Rd) Ld)), Vd. by rewrite less_than_post.
    + assert (Hf : final t = true).
      { unfold any_prerelease, is_pre, is_dev, is_post, final in *. by destruct (pre t), (post t), (dev t). }
      destruct (min_bound t v Ht Hv Hf El) as (w & -> & Ww & Ew). eexists. split; [done|].
      split; [by apply strictly_lower_ok|]. rewrite contains_strictly_lower, Ew by done.
      rewrite (less_than_bare t _ (epoch t) (release t) Wt (final_bare t Ht Hf El)) by (by apply candidate_record).
      by destruct (candidate_same t v Hv) as (-> & -> & _).
Qed.

(** [> V], where the exception for post-releases does not bite. *)
Lemma greater_than_base t v : real t = true -> real v = true -> local t = local_empty ->
  (is_post v = true -> is_post t = true) ->
  contains_greater_than t (candidate t v) = is_gt (base_cmp (make_full v) (make_full t)).
Proof.
  intros Ht Hv El Hpost. destruct (candidate_same t v Hv) as (E1 & _). destruct (candidate_flags t v Hv) as [_ F2].
  unfold contains_greater_than. rewrite F2, (candidate_local t v Hv) by (by rewrite El).
  rewrite E1, (cmp_candidate t v Hv (real_wf t Ht) El), andb_false_r.
  assert (negb (is_post t) && is_post v = false) as -> by (destruct (is_post v); [by rewrite Hpost|apply andb_false_r]).
  rewrite andb_false_r. destruct (Z.ltb_spec (epoch t) (epoch v)) as [Hlt|]; [|done]. unfold base_cmp.
  rewrite <- !epoch_view. by rewrite (proj2 (Z.compare_gt_iff _ _)) by lia.
Qed.

Lemma base_tuple_dev t n : real t = true -> 0 <= n <= u64_max -> is_some (dev t) = true ->
  exists a b c, base_tuple (make_full t) = (a, (b, (c, default 0 (dev t)))) /\
    base_tuple (set_f_dev (make_full t) (Some n)) = (a, (b, (c, n))).
Proof.
  intros Ht Hn Hd. pose proof (real_elim t Ht) as [_ _ _ _ _ _ _ Hmin Hmax _].
  rewrite dev_view, vmin_view, vmax_view in *. unfold base_tuple, full_tuple, sortable_tuple.
  cbn [pre post dev vmin vmax local set_f_dev f_pre f_post f_dev f_local f_min f_max]. rewrite Hmin, Hmax.
  cbn [is_some is_none negb]. destruct (f_pre (make_full t)) as [[[] ?]|], (f_post (make_full t)), (f_dev (make_full t));
    try done; by eexists _, _, _.
Qed.

(** There is nothing between [.devN] and [.dev(N+1)]. *)
Lemma dev_successor t v n : real t = true -> real v = true -> dev t = Some n ->
  is_gt (base_cmp (make_full v) (make_full t)) =
  is_ge (base_cmp (make_full v) (set_f_dev (make_full t) (Some (n + 1)))).
Proof.
  intros Ht Hv Hd. pose proof (real_dev _ (real_elim t Ht) n Hd) as Hn.
  destruct (base_tuple_dev t (n + 1) Ht) as (a & b & c & E1 & E2); [lia|by rewrite Hd|]. rewrite Hd in E1. cbn in E1.
  unfold base_cmp. cbn [f_epoch f_release set_f_dev]. rewrite E1, E2.
  destruct (f_epoch (make_full v) ?= f_epoch (make_full t)); [|done|done].
  destruct (pad_cmp _ _); [|done|done]. cbn [then_with]. destruct (base_tuple (make_full v)) as (a' & b' & c' & d').
  unfold base_tuple_cmp, pair_cmp. cbn [fst snd].
  destruct (a' ?= a); [|done|done]. destruct (b' ?= b); [|done|done]. destruct (option_cmp _ c' c); [|done|done].
  cbn [then_with]. by destruct (Z.compare_spec d' n), (Z.compare_spec d' (n + 1)); try lia.
Qed.

Lemma with_max_wf t : real t = true -> post t = None -> dev t = None ->
  exists w, with_max t (Some 0) = Ret w /\ wf w = true.
Proof.
  intros Ht Hpo Hde. pose proof (real_elim t Ht) as Rt.
  destruct (with_max_view t (Some 0) (real_ok _ Rt)) as (w & E & Vw & Ow);
    [intros ? [= <-]; lia|done|done|]. exists w. split; [done|].
  pose proof (real_wf t Ht) as Wt. unfold wf in *. apply andb_prop in Wt as [_ Wt]. rewrite Ow, Vw.
    unfold full_wf in *. rewrite post_view in Hpo. rewrite dev_view in Hde. cbn [f_epoch f_release f_pre f_post f_dev f_min f_max set_f_max].
    rewrite Hpo, Hde in *. pose proof (real_min _ Rt) as Hm. rewrite vmin_view in Hm. rewrite Hm in *.
    pose proof (real_max _ Rt) as Hx. rewrite vmax_view in Hx. rewrite Hx in *.
    cbn [opt_all is_some is_none negb implb andb Z.eqb] in *. rewrite ?andb_true_r in *. done.
Qed.

(** The [max] sentinel is above every post-release of its version. *)
Lemma max_bound t v : real t = true -> real v = true -> local t = local_empty ->
  post t = None -> dev t = None -> (pre t = None \/ is_post v = false) ->
  exists w, with_max t (Some 0) = Ret w /\ wf w = true /\
    is_gt (cmp v w) = contains_greater_than t (candidate t v).
Proof.
  intros Ht Hv El Hpo Hde Hcase. pose proof (real_elim t Ht) as Rt. pose proof (real_elim v Hv) as Rv.
  destruct (with_max_view t (Some 0) (real_ok _ Rt)) as (w & E & Vw & Ow);
    [intros ? [= <-]; lia|done|done|]. exists w. split; [done|].
  assert (Ww : wf w = true).
  { destruct (with_max_wf t Ht Hpo Hde) as (w' & E' & Ww). rewrite E in E'. by injection E' as <-. }
  split; [done|]. destruct (candidate_same t v Hv) as (C1 & C2 & _). destruct (candidate_flags t v Hv) as [_ C3].
  unfold contains_greater_than. rewrite C1, C2, C3, (candidate_local t v Hv), (cmp_candidate t v Hv (real_wf t Ht) El) by (by rewrite El).
  rewrite andb_false_r, compare_release_pad, (pad_cmp_sym (release t)).
  assert (is_post t = false) as -> by (unfold is_post; by rewrite Hpo). cbn [negb andb].
  rewrite cmp_full, full_cmp_base, Vw by (done || by apply real_wf). unfold base_cmp. cbn [f_epoch f_release set_f_max].
  rewrite <- !epoch_view, <- !release_view.
  destruct (Z.compare_spec (epoch v) (epoch t)) as [He|He|He], (Z.ltb_spec (epoch t) (epoch v)); try lia; cbn [then_with]; try done.
  2: by destruct (is_eq _ && _).
  destruct (pad_cmp (release v) (release t)); cbn [then_with CompOpp is_eq andb]; [|done|done].
  rewrite base_tuple_real, base_tuple_real by done. unfold base_tuple, full_tuple, sortable_tuple, is_post in *.
  pose proof (real_min _ Rt) as Hm. pose proof (real_post _ Rv) as Hvp. pose proof (real_dev _ Rv) as Hvd.
  cbn [pre post dev vmin vmax local set_f_max f_pre f_post f_dev f_local f_min f_max is_some is_none negb].
  rewrite <- vmin_view, <- pre_view, <- dev_view, Hm, Hpo, Hde.
  assert (Hp6 : forall x, post v = Some x -> (x ?= u64_max) = Lt).
  { intros x Ex. apply Z.compare_lt_iff. by apply Hvp. }
  assert (Hd6 : forall x, dev v = Some x -> (x ?= u64_max) = Lt).
  { intros x Ex. apply Z.compare_lt_iff. by apply Hvd. }
  unfold base_tuple_cmp, pair_cmp. destruct (pre t) as [[k x]|].
  - destruct Hcase as [|Hnp]; [done|]. destruct (post v); [done|].
    destruct (pre v) as [[k' x']|], (dev v) as [z|]; destruct k; try destruct k';
      cbn [fst snd kind_discriminant pre_kind pre_number Z.add Z.compare Pos.add Pos.compare Pos.compare_cont then_with option_cmp from_option id is_some is_none negb]; try done;
      destruct (x' ?= x); cbn [then_with]; try done; rewrite ?(Hd6 z eq_refl), ?Z.compare_refl; done.
  - destruct (pre v) as [[k' x']|], (post v) as [y|], (dev v) as [z|]; try destruct k';
      cbn [fst snd kind_discriminant pre_kind pre_number Z.add Z.compare Pos.add Pos.compare Pos.compare_cont then_with option_cmp from_option id is_some is_none negb]; try done;
      rewrite ?(Hp6 y eq_refl); done.
Qed.

Lemma greater_than_range_admits t v : real t = true -> real v = true -> local t = local_empty ->
  (any_prerelease t = false \/ is_post t = true \/ is_post v = false) ->
  admits (specifier_to_ranges (mkSpec GreaterThan t)) v (contains_greater_than t (candidate t v)).
Proof.
  intros Ht Hv El Hc. pose proof (real_wf t Ht) as Wt. pose proof (real_wf v Hv) as Wv.
  unfold specifier_to_ranges. cbn [operator spec_version]. destruct (dev t) as [n|] eqn:Ed.
  - pose proof (real_dev _ (real_elim t Ht) n Ed) as Hn. rewrite add64_below by done. cbn [obind].
    destruct (with_dev_wf t (n + 1) Wt) as [Wd Vd]; [apply (real_min _ (real_elim t Ht))|apply (real_max _ (real_elim t Ht))|lia|].
    assert (Ld : local (with_dev t (Some (n + 1))) = local_empty).
    { rewrite local_view, Vd. cbn [f_local set_f_dev]. by rewrite <- local_view. }
    eexists. split; [done|]. split; [by apply higher_ok|]. rewrite contains_higher by done.
    rewrite (proj1 (cmp_plain_bound _ v Hv Wd Ld)), Vd, <- (dev_successor t v n Ht Hv Ed). symmetry.
    apply greater_than_base; try done. intros Hp. unfold any_prerelease, is_dev in Hc. rewrite Ed in Hc.
    cbn in Hc. rewrite orb_true_r in Hc. destruct Hc as [|[|]]; congruence.
  - destruct (is_post t) eqn:Ep.
    + destruct (with_local_max_wf t Wt) as [Wm Vm]. eexists. split; [done|]. split; [by apply strictly_higher_ok|].
      rewrite contains_strictly_higher by done. destruct (cmp_max_bound t v Hv _ Wm Vm) as (_ & _ & ->).
      symmetry. by apply greater_than_base.
    + assert (Hpo : post t = None) by (unfold is_post in Ep; by destruct (post t)).
      destruct (max_bound t v Ht Hv El Hpo Ed) as (w & -> & Ww & Ew).
      { destruct Hc as [Hc|[|]]; [left|done|by right]. unfold any_prerelease, is_pre in Hc. by destruct (pre t). }
      eexists. split; [done|]. split; [by apply strictly_higher_ok|]. by rewrite contains_strictly_higher, Ew.
Qed.

(** ** The conversion against [contains] *)

(** A specifier as the parser builds it: wildcards only on plain releases. *)
Definition convertible (s : VersionSpecifier) : bool :=
  spec_real s && implb (is_star (operator s)) (plain (make_full (spec_version s))).

(** Where the two agree: not for [===], and not for post-releases against
    [> V] with a pre- or dev-release [V]. *)
Definition agrees (s : VersionSpecifier) (v : Version) : bool :=
  match operator s with
  | ExactEqual => false
  | GreaterThan => negb (any_prerelease (spec_version s)) || is_post (spec_version s) || negb (is_post v)
  | _ => true
  end.

Lemma convertible_elim s : convertible s = true -> spec_real s = true /\ real (spec_version s) = true /\
  (is_local_compatible (operator s) = false -> local (spec_version s) = local_empty) /\
  (operator s = TildeEqual -> (1 < length (release (spec_version s)))%nat) /\
  (is_star (operator s) = true -> final (spec_version s) = true).
Proof.
  unfold convertible. intros [Hs Hst]%andb_prop. destruct (spec_real_elim s Hs) as (Hr & Hl & Ht).
  split; [done|]. split; [done|]. split; [intros E; by apply no_local_empty; auto|]. split; [done|].
  intros E. rewrite E in Hst. cbn in Hst. unfold plain in Hst. unfold final.
  rewrite pre_view, post_view, dev_view. by destruct (f_pre _), (f_post _), (f_dev _).
Qed.

Lemma specifier_range_admits s v : convertible s = true -> agrees s v = true -> real v = true ->
  exists b, contains s v = Ret b /\ admits (specifier_to_ranges s) v b.
Proof.
  intros Hs Ha Hv. destruct (convertible_elim s Hs) as (_ & Ht & Hl & Htil & Hst). pose proof (real_wf v Hv) as Wv.
  destruct s as [o t]. cbn [operator spec_version] in *. pose proof (real_wf t Ht) as Wt.
  unfold contains. cbn [operator spec_version].
  destruct o; try done; try specialize (Hl eq_refl); try specialize (Hst eq_refl); try specialize (Htil eq_refl).
  - eexists. split; [done|]. by apply equal_range_admits.
  - eexists. split; [done|]. by apply star_range_admits.
  - eexists. split; [done|].
    assert (negb (version_eq t (candidate t v)) = negb (version_eq (candidate t v) t)) as ->.
    { unfold version_eq. destruct (candidate_record t v Hv) as [Rc _].
      destruct (cmp_laws_on t (candidate t v) t) as (-> & _); [by apply real_wf..|]. by destruct (cmp _ _). }
    by apply admits_complement, equal_range_admits.
  - eexists. split; [done|]. unfold specifier_to_ranges. cbn [operator spec_version].
    replace (_ || _) with (negb (contains_equal_star t (candidate t v)));
      [by apply admits_complement, star_range_admits|]. unfold contains_equal_star. by rewrite negb_andb.
  - by apply tilde_range_admits.
  - eexists. split; [done|]. by apply less_than_range_admits.
  - eexists. split; [done|]. destruct (with_local_max_wf t Wt) as [Wm Vm].
    exists (ranges_lower_than (with_local t LMax)). split; [done|]. split; [by apply lower_ok|]. rewrite contains_lower by done.
    destruct (cmp_max_bound t v Hv _ Wm Vm) as (_ & -> & _). by rewrite (cmp_candidate t v Hv Wt Hl).
  - eexists. split; [done|]. apply greater_than_range_admits; try done. cbn in Ha.
    apply orb_prop in Ha as [[Ha|Ha]%orb_prop|Ha]; [left|right; left|right; right]; try done; by apply negb_true_iff.
  - eexists. split; [done|]. exists (ranges_higher_than t). split; [done|]. split; [by apply higher_ok|]. rewrite contains_higher by done.
    rewrite (proj1 (cmp_plain_bound t v Hv Wt Hl)). by rewrite (cmp_candidate t v Hv Wt Hl).
Qed.

(** The record of the bound that [> V] gives, up to what does not matter here. *)
Lemma greater_than_bound t : real t = true -> exists w r,
  specifier_to_ranges (mkSpec GreaterThan t) = Ret r /\ ranges_ok r /\ wf w = true /\
  f_epoch (make_full w) = epoch t /\ f_release (make_full w) = release t /\
  forall v, wf v = true -> cmp v w = Gt -> ranges_contains r v = true.
Proof.
  intros Ht. pose proof (real_elim t Ht) as Rt. pose proof (real_wf t Ht) as Wt.
  unfold specifier_to_ranges. cbn [operator spec_version]. destruct (dev t) as [n|] eqn:Ed.
  - pose proof (real_dev _ Rt n Ed) as Hn. rewrite add64_below by done. cbn [obind].
    destruct (with_dev_wf t (n + 1) Wt) as [Wd Vd]; [apply (real_min _ Rt)|apply (real_max _ Rt)|lia|].
    exists (with_dev t (Some (n + 1))). eexists. split; [done|]. split; [by apply higher_ok|]. split; [done|].
    rewrite Vd, epoch_view, release_view. split; [done|]. split; [done|]. intros v Wv E. rewrite contains_higher by done. by rewrite E.
  - destruct (is_post t) eqn:Ep.
    + destruct (with_local_max_wf t Wt) as [Wm Vm]. exists (with_local t LMax). eexists. split; [done|].
      split; [by apply strictly_higher_ok|]. split; [done|]. rewrite Vm, epoch_view, release_view. split; [done|].
      split; [done|]. intros v Wv E. rewrite contains_strictly_higher by done. by rewrite E.
    + assert (Hpo : post t = None) by (unfold is_post in Ep; by destruct (post t)).
      destruct (with_max_view t (Some 0) (real_ok _ Rt)) as (w & E & Vw & Ow); [intros ? [= <-]; lia|done|done|].
      destruct (with_max_wf t Ht Hpo Ed) as (w' & E' & Ww). rewrite E in E'. injection E' as <-.
      rewrite E. exists w. eexists. split; [done|]. split; [by apply strictly_higher_ok|]. split; [done|].
      rewrite Vw, epoch_view, release_view. split; [done|]. split; [done|].
      intros v Wv Eg. rewrite contains_strictly_higher by done. by rewrite Eg.
Qed.

(** Whatever the operator, a contained version is in the range. *)
Lemma specifier_range_complete s v : convertible s = true -> canonical (spec_version s) = true ->
  canonical v = true -> contains s v = Ret true -> admits (specifier_to_ranges s) v true.
Proof.
  intros Hs Hcs Hcv Hc. pose proof (canonical_real v Hcv) as Hv.
  destruct (agrees s v) eqn:Ha; [by destruct (specifier_range_admits s v Hs Ha Hv) as (b & E & Hb); rewrite Hc in E; injection E as <-|].
  destruct (convertible_elim s Hs) as (_ & Ht & Hl & _). destruct s as [o t]. cbn [operator spec_version] in *.
  pose proof (real_wf t Ht) as Wt. pose proof (real_wf v Hv) as Wv. destruct o; try done.
  - exists (ranges_singleton t). split; [done|]. split; [by apply singleton_ok|]. rewrite contains_singleton by done.
    cbn in Hc. injection Hc as Hc. apply bytes_eqb_eq, display_injective in Hc; [|done|done].
    rewrite cmp_full, Hc by done. rewrite full_cmp_base. unfold base_cmp.
    rewrite Z.compare_refl, pad_cmp_refl, (ord_refl base_tuple_cmp), (ord_refl local_cmp). done.
  - specialize (Hl eq_refl). cbn in Ha. apply orb_false_elim in Ha as [[_ Hp]%orb_false_elim Hvp%negb_false_iff].
    destruct (greater_than_bound t Ht) as (w & r & E & Hok & Ww & E1 & E2 & Hr). exists r. split; [done|]. split; [done|].
    apply Hr; [done|]. cbn [contains operator spec_version] in Hc. injection Hc as Hc. unfold contains_greater_than in Hc.
    destruct (candidate_same t v Hv) as (C1 & C2 & _). destruct (candidate_flags t v Hv) as [_ C3].
    rewrite C1, C2, C3, Hp, Hvp, (cmp_candidate t v Hv Wt Hl), compare_release_pad, (pad_cmp_sym (release t)) in Hc.
    cbn [negb andb] in Hc. rewrite andb_true_r in Hc. rewrite cmp_full by done. unfold full_cmp. rewrite E1, E2, <- epoch_view, <- release_view.
    unfold base_cmp in Hc. rewrite <- !epoch_view, <- !release_view in Hc.
    destruct (Z.compare_spec (epoch v) (epoch t)), (Z.ltb_spec (epoch t) (epoch v)); try lia; try done.
    + by destruct (pad_cmp (release v) (release t)).
    + cbn in Hc. destruct (is_eq _); [done|]. by cbn in Hc.
Qed.

(** ** Lists *)

Lemma intersect_all_admits convert l v range b0 :
  ranges_ok range -> ranges_contains range v = b0 -> wf v = true ->
  Forall (fun s => exists b, contains s v = Ret b /\ admits (convert s) v b) l ->
  exists r b, intersect_all convert range l = Ret r /\ ranges_ok r /\ specifiers_contain l v = Ret b /\
    ranges_contains r v = b0 && b.
Proof.
  intros Hok Hb Wv Hl. revert range b0 Hok Hb. induction Hl as [|s l (b & Eb & rs & Ers & Ok & Ebs) Hl IH]; intros range b0 Hok Hb.
  - exists range, true. by rewrite andb_true_r.
  - cbn [intersect_all specifiers_contain]. rewrite Ers, Eb. cbn [obind].
    destruct (IH (ranges_intersection range rs) (b0 && b)) as (r & b' & E1 & E2 & E3 & E4);
      [by apply intersection_ok|by rewrite contains_intersection, Hb, Ebs|].
    exists r, (b && b'). rewrite E1, E3, E4, andb_assoc. split; [done|]. split; [done|]. split; [by destruct b|done].
Qed.

Lemma intersect_all_complete convert l v range :
  ranges_ok range -> ranges_contains range v = true -> wf v = true ->
  Forall (fun s => admits (convert s) v true) l ->
  exists r, intersect_all convert range l = Ret r /\ ranges_contains r v = true.
Proof.
  intros Hok Hb Wv Hl. revert range Hok Hb. induction Hl as [|s l (rs & Ers & Ok & Ebs) Hl IH]; intros range Hok Hb.
  - by exists range.
  - cbn [intersect_all]. rewrite Ers. cbn [obind]. apply IH; [by apply intersection_ok|].
    by rewrite contains_intersection, Hb, Ebs.
Qed.

Lemma specifiers_contain_true l v : specifiers_contain l v = Ret true -> Forall (fun s => contains s v = Ret true) l.
Proof.
  induction l as [|s l IH]; [done|]. cbn [specifiers_contain].
  destruct (contains s v) as [[]|] eqn:E; cbn [obind]; [|done|done]. intros Hl. constructor; auto.
Qed.
End operators.

(** The simplest lawful ranges are predicates. *)
#[export] Instance predicate_ranges : RangeOps (Version -> bool) := {
  ranges_contains r x := r x;
  ranges_full := fun _ => true;
  ranges_singleton v := fun x => is_eq (cmp x v);
  ranges_between v w := fun x => is_ge (cmp x v) && is_lt (cmp x w);
  ranges_complement r := fun x => negb (r x);
  ranges_intersection r s := fun x => r x && s x;
  ranges_strictly_lower_than v := fun x => is_lt (cmp x v);
  ranges_lower_than v := fun x => is_le (cmp x v);
  ranges_strictly_higher_than v := fun x => is_gt (cmp x v);
  ranges_higher_than v := fun x => is_ge (cmp x v);
  ranges_from_range v w := fun x => is_ge (cmp x v) && is_lt (cmp x w);
}.

#[export] Instance predicate_ranges_laws : RangeLaws (Version -> bool).
Proof. by refine {| ranges_ok := fun _ => True |}. Defined.

(** ** Properties of the conversion *)

Section conversion_properties.
Context {R : Type} `{RangeLaws R}.

(** C1: the range the resolver works with is the set [contains] describes: for
    every list of parsed specifiers the conversion succeeds (no overflow, no
    [unreachable!]), and the range contains exactly the versions that satisfy
    all specifiers, [===] and post-releases against a pre-release [> V]
    excepted. *)
Theorem ranges_match_contains l v : forallb convertible l = true ->
  forallb (fun s => agrees s v) l = true -> real v = true ->
  exists (r : R) b, specifiers_to_ranges l = Ret r /\ specifiers_contain l v = Ret b /\
    ranges_contains r v = b.
Proof.
  intros Hl Ha Hv.
  destruct (intersect_all_admits specifier_to_ranges l v ranges_full true) as (r & b & E1 & _ & E3 & E4);
    [apply full_ok|by apply contains_full, real_wf|by apply real_wf| |by exists r, b].
  rewrite forallb_Forall in Hl, Ha. rewrite Forall_forall in *. intros s Hs. apply specifier_range_admits; auto.
Qed.

(** The conversion loses no version: whatever the operators ([===] and the
    [>] exception included), a version that satisfies all specifiers is in the
    range. *)
Theorem ranges_lose_nothing l v : forallb convertible l = true ->
  forallb (fun s => canonical (spec_version s)) l = true -> canonical v = true ->
  specifiers_contain l v = Ret true ->
  exists r : R, specifiers_to_ranges l = Ret r /\ ranges_contains r v = true.
Proof.
  intros Hl Hc Hv Hall. apply specifiers_contain_true in Hall.
  apply intersect_all_complete; [apply full_ok|by apply contains_full, real_wf, canonical_real|by apply real_wf, canonical_real|].
  rewrite forallb_Forall in Hl, Hc. rewrite Forall_forall in *. intros s Hs. apply specifier_range_complete; auto.
Qed.
End conversion_properties.

Lemma ranges_match_contains_witness :
  let v10 := Full (mkFull 0 [1; 0] None None None local_empty None None) in
  let w := Full (mkFull 0 [1; 0] (Some (mkPre Rc 1)) None None (Segments [LNumber 3]) None None) in
  let l := [mkSpec LessThan v10; mkSpec NotEqualStar v10; mkSpec TildeEqual v10] in
  exists (r : Version -> bool) b, specifiers_to_ranges l = Ret r /\ specifiers_contain l w = Ret b /\
    ranges_contains r w = b.
Proof. cbv zeta. apply ranges_match_contains; vm_compute; reflexivity. Defined.

Lemma ranges_lose_nothing_witness :
  let t := Full (mkFull 0 [1; 0] (Some (mkPre Alpha 1)) None None local_empty None None) in
  let w := Full (mkFull 0 [1; 1] None (Some 2) None local_empty None None) in
  exists r : Version -> bool, specifiers_to_ranges [mkSpec GreaterThan t; mkSpec ExactEqual w] = Ret r /\
    ranges_contains r w = true.
Proof. cbv zeta. apply ranges_lose_nothing; vm_compute; reflexivity. Defined.

(** [contains] and the range disagree on [> V] with a pre-release [V]: the
    specifier [>1.0a1] rejects [1.0.post1], and its range accepts it (so does
    [>1.0.dev1]). *)
Theorem greater_than_disagrees :
  let w := Full (mkFull 0 [1; 0] None (Some 1) None local_empty None None) in
  let a := mkSpec GreaterThan (Full (mkFull 0 [1; 0] (Some (mkPre Alpha 1)) None None local_empty None None)) in
  let d := mkSpec GreaterThan (Full (mkFull 0 [1; 0] None None (Some 1) local_empty None None)) in
  exists ra rd : Version -> bool,
    contains a w = Ret false /\ specifier_to_ranges a = Ret ra /\ ranges_contains ra w = true /\
    contains d w = Ret false /\ specifier_to_ranges d = Ret rd /\ ranges_contains rd w = true.
Proof. eexists _, _. repeat split. Qed.

(** ** Release-only ranges *)

Lemma cmp_bare v u rs : release_only v = true -> wf u = true -> make_full u = bare 0 rs ->
  cmp v u = pad_cmp (release v) rs.
Proof.
  intros (Rv & Fv & Ev & Lv)%release_only_elim Wu Vu. rewrite cmp_full, Vu by (done || by apply real_wf).
  unfold full_cmp. rewrite (final_bare v Rv Fv Lv), Ev. cbn [f_epoch f_release bare]. rewrite Z.compare_refl.
  cbn [then_with]. rewrite (ord_refl tuple_cmp). by destruct (pad_cmp _ _).
Qed.

(** A new version, or one past the greatest real one. *)
Lemma version_new_bare rs : Forall (fun x => 0 <= x <= u64_max) rs -> rs <> [] ->
  exists w, version_new rs = Ret w /\ make_full w = bare 0 rs /\ wf w = true.
Proof.
  intros Hr Hne. destruct (version_new_view rs) as (w & E & V & O); [|done|].
  { eapply Forall_impl; [exact Hr|]. simpl. lia. }
  exists w. split; [done|]. split; [done|]. unfold wf. rewrite O, V. unfold full_wf, plain_full. cbn.
  rewrite !andb_true_r. apply forallb_forall. intros x Hx%list_elem_of_In. rewrite Forall_forall in Hr. by apply u64b_iff, Hr.
Qed.

Lemma only_release_trimmed_bare t : release_only t = true ->
  exists w rs, only_release_trimmed t = Ret w /\ make_full w = bare 0 rs /\ wf w = true /\
    (forall r, nonneg r -> pad_cmp r rs = pad_cmp r (release t)).
Proof.
  intros Ht. destruct (only_release_trimmed_real t Ht) as (w & E & Er). exists w, (release w). split; [done|].
  destruct (trimmed_cmp t w [] Ht E ltac:(constructor)) as [_ Hr].
  assert (B : make_full w = bare 0 (release w) /\ wf w = true).
  { destruct (release_only_elim t Ht) as (Rt & Ft & Et & Lt). unfold only_release_trimmed in E.
    assert (New : forall rs, version_new rs = Ret w -> rs <> [] -> Forall (fun x => 0 <= x < u64_max) rs ->
      make_full w = bare 0 (release w) /\ wf w = true).
    { intros rs En Hne Hrs. destruct (version_new_bare rs) as (w' & E' & V' & W'); [|done|].
      { eapply Forall_impl; [exact Hrs|]. simpl. lia. }
      rewrite E' in En. injection En as <-. by rewrite (release_view w'), V'. }
    pose proof (rposition_trim (release t)) as P. destruct (rposition_nonzero (release t)) as [i|].
    - destruct (_ && _); [|eapply New; [exact E|by destruct P as [<- ?]|apply Forall_take, (real_release _ (real_elim t Rt))]].
      injection E as ->. split; [|by apply real_wf]. by rewrite (final_bare w Rt Ft Lt), Et.
    - eapply New; [exact E|done|]. by constructor. }
  destruct B as [B W]. split; [done|]. split; [done|]. intros r Hn. symmetry. by apply trimmed_cmp.
Qed.

Lemma only_release_bare t : release_only t = true ->
  exists w, only_release t = Ret w /\ make_full w = bare 0 (release t) /\ wf w = true.
Proof.
  intros (Rt & _)%release_only_elim. pose proof (real_elim t Rt) as R. apply version_new_bare; [|apply (real_nonempty _ R)].
  eapply Forall_impl; [apply (real_release _ R)|]. simpl. lia.
Qed.

Section release_only.
Context {R : Type} `{RangeLaws R}.

Lemma release_star_admits t v : release_only t = true -> release_only v = true ->
  admits (release_star_range t) v (contains_equal_star t v).
Proof.
  intros Ht Hv. destruct (release_only_elim t Ht) as (Rt & _ & Et & _), (release_only_elim v Hv) as (Rv & _ & Ev & _).
  destruct (only_release_bare t Ht) as (lw & El & Vl & Wl). unfold release_star_range. rewrite El. cbn [obind].
  assert (Erl : release lw = release t) by (by rewrite release_view, Vl). rewrite Erl.
  destruct (rev_snoc1 (release t) (real_nonempty _ (real_elim t Rt))) as (p & m & Er & Erev).
  pose proof (real_release _ (real_elim t Rt)) as Hr. rewrite Er in Hr.
  assert (Hm : 0 <= m < u64_max) by (rewrite Forall_app, !Forall_cons in Hr; tauto).
  assert (Hu : Forall (fun x => 0 <= x <= u64_max) (p ++ [m + 1])).
  { apply Forall_app. apply Forall_app in Hr as [Hr _]. split; [|apply Forall_singleton; lia].
    eapply Forall_impl; [exact Hr|]. simpl. lia. }
  unfold increment_last. rewrite Erev, add64_below, rev_involutive by done. cbn [obind].
  assert (Ol : version_ok lw = true) by (unfold wf in Wl; by apply andb_prop in Wl as [? _]).
  destruct (with_release_view lw (p ++ [m + 1])) as (high & -> & Vh & Oh);
    [done|eapply Forall_impl; [exact Hu|simpl; lia]|by destruct p|]. cbn [obind]. rewrite Vl in Vh.
  assert (Wh : wf high = true).
  { unfold wf. rewrite Oh, Vh. unfold full_wf, bare, set_f_release. cbn. rewrite !andb_true_r. apply forallb_forall.
    intros x Hx%list_elem_of_In. rewrite Forall_forall in Hu. by apply u64b_iff, Hu. }
  eexists. split; [done|]. split; [by apply from_range_ok; [apply real_wf|]|].
  rewrite contains_from_range by (done || by apply real_wf).
  rewrite cmp_release_only, (cmp_bare v high (p ++ [m + 1]) Hv Wh Vh) by done.
  unfold contains_equal_star. rewrite Et, Ev, Er, Z.eqb_refl, prefix_padded_interval; [done|by apply real_nonneg|lia].
Qed.

Lemma release_tilde_admits t v w rs : release_only t = true -> release_only v = true ->
  (1 < length (release t))%nat -> make_full w = bare 0 rs -> wf w = true ->
  (forall r, nonneg r -> pad_cmp r rs = pad_cmp r (release t)) ->
  exists b, contains_tilde_equal t v = Ret b /\
    admits (let! up := tilde_upper_release (release t) in
            let! upper := version_new up in
            Ret (ranges_from_range w upper)) v b.
Proof.
  intros Ht Hv Hl Vw Ww Hrs. destruct (release_only_elim t Ht) as (Rt & _ & Et & _), (release_only_elim v Hv) as (Rv & _ & Ev & _).
  rewrite tilde_equal_prefix by done. eexists. split; [done|].
  destruct (rev_snoc2 (release t) Hl) as (p & m & k & Er & Erev). pose proof (real_release _ (real_elim t Rt)) as Hr.
  rewrite Er in Hr. assert (Hm : 0 <= m < u64_max) by (rewrite Forall_app, !Forall_cons in Hr; tauto).
  unfold tilde_upper_release. rewrite Erev, add64_below, rev_involutive by done. cbn [obind].
  destruct (version_new_bare (p ++ [m + 1])) as (u & -> & Vu & Wu); [|by destruct p|].
  { apply Forall_app. apply Forall_app in Hr as [Hr _]. split; [|apply Forall_singleton; lia].
    eapply Forall_impl; [exact Hr|]. simpl. lia. }
  cbn [obind]. eexists. split; [done|]. split; [by apply from_range_ok|].
  rewrite contains_from_range by (done || by apply real_wf). pose proof (real_nonneg v Rv) as Nv. pose proof (real_nonneg t Rt) as Nt.
  rewrite (cmp_bare v w rs Hv Ww Vw), (cmp_bare v u _ Hv Wu Vu), Hrs, cmp_release_only, Et, Ev, Z.eqb_refl by done.
  replace (take (length (release t) - 1) (release t)) with (p ++ [m]).
  2: { rewrite Er, length_app. cbn [length]. replace (length p + 2 - 1)%nat with (length (p ++ [m])).
       - by rewrite (app_assoc p [m] [k] : p ++ [m; k] = (p ++ [m]) ++ [k]), take_app_length.
       - rewrite length_app. simpl. lia. }
  rewrite prefix_padded_interval by (done || lia). rewrite Er in *.
  pose proof (pad_cmp_drop_last (release v) p m k Nv Nt) as Hd.
  destruct (pad_cmp (release v) (p ++ [m])), (pad_cmp (release v) (p ++ [m + 1])), (pad_cmp (release v) (p ++ [m; k]));
    cbn; try done; by destruct Hd.
Qed.

(** The range of a release-only specifier and its members. *)
Lemma release_range_admits s trim v : spec_real s = true -> release_only (spec_version s) = true ->
  operator s <> ExactEqual -> release_only v = true ->
  exists b, contains s v = Ret b /\ admits (R := R) (release_specifier_to_range s trim) v b.
Proof.
  intros Hs Ht Ho Hv. destruct (spec_real_elim s Hs) as (Rt & _ & Hl). destruct s as [o t]. cbn [operator spec_version] in *.
  destruct (release_only_elim v Hv) as (Rv & Fv & Ev & Lv). destruct (final_flags v Fv) as [F1 F2].
  pose proof (real_wf v Rv) as Wv. pose proof (real_wf t Rt) as Wt.
  assert (F3 : is_local v = false) by (unfold is_local; by rewrite Lv).
  assert (T : exists w rs, (if trim then only_release_trimmed t else only_release t) = Ret w /\ make_full w = bare 0 rs /\
    wf w = true /\ (forall r, nonneg r -> pad_cmp r rs = pad_cmp r (release t))).
  { destruct trim; [by apply only_release_trimmed_bare|]. destruct (only_release_bare t Ht) as (w & E & V & W).
    by exists w, (release t). }
  destruct T as (w & rs & E & Vw & Ww & Hrs). unfold release_specifier_to_range. cbn [operator spec_version].
  rewrite E. cbn [obind]. unfold contains. cbn [operator spec_version]. rewrite candidate_no_local by done.
  assert (C : cmp v w = cmp v t).
  { rewrite (cmp_bare v w rs Hv Ww Vw), cmp_release_only, Hrs by (done || by apply real_nonneg). done. }
  assert (Cs : version_eq t v = version_eq v t).
  { unfold version_eq. destruct (cmp_laws_on t v t) as (-> & _); [done..|]. by destruct (cmp v t). }
  destruct o; try done; rewrite ?greater_than_not_post, ?less_than_stable by done.
  - eexists. split; [done|]. eexists. split; [done|]. split; [by apply singleton_ok|]. by rewrite contains_singleton, C.
  - eexists. split; [done|]. exact (release_star_admits t v Ht Hv).
  - eexists. split; [done|]. eexists. split; [done|]. split; [by apply complement_ok, singleton_ok|].
    rewrite contains_complement, contains_singleton, C, Cs by (done || by apply singleton_ok). done.
  - eexists. split; [done|]. rewrite <- negb_andb. apply (admits_complement _ v _ Wv (release_star_admits t v Ht Hv)).
  - destruct (release_tilde_admits t v w rs Ht Hv (Hl eq_refl) Vw Ww Hrs) as (b & Eb & Ha). by exists b.
  - eexists. split; [done|]. eexists. split; [done|]. split; [by apply strictly_lower_ok|]. by rewrite contains_strictly_lower, C.
  - eexists. split; [done|]. eexists. split; [done|]. split; [by apply lower_ok|]. by rewrite contains_lower, C.
  - eexists. split; [done|]. eexists. split; [done|]. split; [by apply strictly_higher_ok|]. by rewrite contains_strictly_higher, C.
  - eexists. split; [done|]. eexists. split; [done|]. split; [by apply higher_ok|]. by rewrite contains_higher, C.
Qed.

(** On release-only versions, release-only ranges agree with [contains]: for
    every operator but [===], and whether or not trailing zeros are trimmed, the
    range of a specifier contains exactly the versions the specifier contains. *)
Theorem release_ranges_match_contains s trim v : spec_real s = true -> release_only (spec_version s) = true ->
  operator s <> ExactEqual -> release_only v = true ->
  exists (r : R) b, release_specifier_to_range s trim = Ret r /\ contains s v = Ret b /\ ranges_contains r v = b.
Proof.
  intros Hs Ht Ho Hv. destruct (release_range_admits s trim v Hs Ht Ho Hv) as (b & Eb & r & Er & _ & Hr). exists r, b. by split.
Qed.
End release_only.

Lemma release_ranges_match_contains_witness :
  let t := Full (mkFull 0 [3; 10; 0] None None None local_empty None None) in
  let v := Full (mkFull 0 [3; 10; 7] None None None local_empty None None) in
  exists (r : Version -> bool) b, release_specifier_to_range (mkSpec TildeEqual t) true = Ret r /\
    contains (mkSpec TildeEqual t) v = Ret b /\ ranges_contains r v = b.
Proof. cbv zeta. apply release_ranges_match_contains; done. Defined.

(** As a predicate, the range of [< V] is everything below one bound. *)
Lemma less_than_is_lower t (r : Version -> bool) : real t = true ->
  specifier_to_ranges (mkSpec LessThan t) = Ret r -> exists b, wf b = true /\ forall v, ranges_contains r v = is_lt (cmp v b).
Proof.
  intros Ht. unfold specifier_to_ranges. cbn [operator spec_version]. pose proof (real_elim t Ht) as R.
  destruct (any_prerelease t) eqn:Hp; [intros [= <-]; exists t; split; [by apply real_wf|done]|].
  destruct (is_post t) eqn:Ho.
  - intros [= <-]. exists (with_dev t (Some 0)). split; [|done]. by apply real_wf, with_dev_real.
  - assert (Hf : pre t = None /\ dev t = None /\ post t = None).
    { unfold any_prerelease, is_pre, is_dev, is_post in *. by destruct (pre t), (post t), (dev t). }
    destruct Hf as (Hpr & Hd & Hpo).
    destruct (with_min_view t (Some 0) (real_ok _ R)) as (w & E & Vw & Ow); [intros ? [= <-]; lia|done|done|].
    rewrite E. intros [= <-]. exists w. split; [|done]. pose proof (real_wf t Ht) as Wt. unfold wf in *.
    apply andb_prop in Wt as [_ Wt]. rewrite Ow, Vw. pose proof (real_max _ R) as Hx.
    rewrite pre_view in Hpr. rewrite dev_view in Hd. rewrite vmax_view in Hx. unfold full_wf in *.
    cbn [set_f_min f_epoch f_release f_pre f_post f_dev f_min f_max opt_all] in *. rewrite Hpr, Hd, Hx in *.
    rewrite !andb_true_iff in *. cbn [is_some is_none negb implb]. tauto.
Qed.

(** [< V] is downward closed: if it contains a version then it and its range
    contain every smaller one, for all versions [V], pre-, post- and dev-releases
    included. *)
Theorem less_than_downward_closed t v w : spec_real (mkSpec LessThan t) = true -> real v = true -> real w = true ->
  cmp w v = Lt -> contains (mkSpec LessThan t) v = Ret true ->
  contains (mkSpec LessThan t) w = Ret true /\
  exists r : Version -> bool, specifier_to_ranges (mkSpec LessThan t) = Ret r /\ ranges_contains r w = true.
Proof.
  intros Hs Hv Hw Hlt Hc. destruct (spec_real_elim _ Hs) as (Ht & Hl & _). cbn [operator spec_version] in *.
  assert (El : local t = local_empty) by (apply no_local_empty; auto).
  destruct (less_than_range_admits (R := Version -> bool) t v Ht Hv El) as (r & Er & _ & Hr).
  destruct (less_than_range_admits (R := Version -> bool) t w Ht Hw El) as (r' & Er' & _ & Hr').
  rewrite Er in Er'. injection Er' as <-. cbn [contains operator spec_version] in *. injection Hc as Hc. rewrite Hc in Hr.
  assert (Hin : ranges_contains r w = true).
  { destruct (less_than_is_lower t r Ht Er) as (b & Wb & Hb). rewrite Hb in Hr |- *.
    pose proof (real_wf v Hv) as Wv. pose proof (real_wf w Hw) as Ww. rewrite cmp_key in * by done.
    assert (Hvb : key_cmp (key v) (key b) = Lt) by (by destruct (key_cmp (key v) (key b))).
    by rewrite (ord_lt_trans key_cmp _ _ _ Hlt Hvb). }
  split; [by rewrite <- Hr', Hin|by exists r].
Qed.

Lemma less_than_downward_closed_witness :
  let t := Full (mkFull 0 [1; 0] None (Some 1) None local_empty None None) in
  let v := Full (mkFull 0 [1; 0] None (Some 0) None local_empty None None) in
  let w := Full (mkFull 0 [1; 0] (Some (mkPre Alpha 1)) None None local_empty None None) in
  contains (mkSpec LessThan t) w = Ret true /\
  exists r : Version -> bool, specifier_to_ranges (mkSpec LessThan t) = Ret r /\ ranges_contains r w = true.
Proof.
  cbv zeta. apply (less_than_downward_closed _ (Full (mkFull 0 [1; 0] None (Some 0) None local_empty None None))); done.
Defined.
