(* ===== verification/RangeCanonical.v ===== *)
(** * Version ranges: sentinels, canonical form, bounds

    Models the rest of [crates/uv-pep440/src/version_ranges.rs]:
    [sentinel_successor], [canonicalize_version_ranges],
    [strip_local_version_sentinels], [LowerBound] and [UpperBound].

    [SegmentOps] has the two operations of [version_ranges::Ranges] that this
    code uses, iteration over the segments and collecting segments, and
    [SegmentLaws] what the crate documents of them: a range contains what one of
    its segments contains.

    The theorems: the successor of a sentinel is the least real version above
    it, [0.dev0] is the smallest version, the canonical form contains the same
    real versions, and bounds are ordered by inclusion. *)

From Stdlib Require Import ZArith Lia String.
From stdpp Require Import base list.
From S2P Require Import Prelude.
From S2P Require Import VersionRepr.
From S2P Require Import VersionOrder.
From S2P Require Import VersionParser.
From S2P Require Import VersionDisplay.
From S2P Require Import VersionRecord.
From S2P Require Import Specifier.
From S2P Require Import Ranges.
Open Scope Z_scope.

(** ** Segments *)

Class SegmentOps (R : Type) := {
  segments_contain : R -> Version -> bool;
  ranges_iter : R -> list (Bound * Bound);
  ranges_collect : list (Bound * Bound) -> R;
}.

(** Membership in a segment. *)
Definition in_segment (x : Version) (s : Bound * Bound) : bool := above s.1 x && below s.2 x.

Definition bound_wf (b : Bound) : bool := bound_all wf b.
Definition segment_wf (s : Bound * Bound) : bool := bound_wf s.1 && bound_wf s.2.

Class SegmentLaws (R : Type) `{SegmentOps R} := {
  contains_iter : forall r x, forallb segment_wf (ranges_iter r) = true -> wf x = true ->
    segments_contain r x = existsb (in_segment x) (ranges_iter r);
  contains_collect : forall l x, forallb segment_wf l = true -> wf x = true ->
    segments_contain (ranges_collect l) x = existsb (in_segment x) l;
}.

Definition is_local_max (v : Version) : bool := match local v with LMax => true | _ => false end.

(** ** Sentinels *)

(** [PEP440_MIN_VERSION] *)
Definition PEP440_MIN_VERSION : outcome Version :=
  let! v := version_new [0] in Ret (with_dev v (Some 0)).

(** [sentinel_successor]; [?] on a failed [checked_add] returns [None]. *)
Definition sentinel_successor (version : Version) : outcome (option Version) :=
  if is_local_max version then
    let version := without_local version in
    match dev version, post version with
    | Some dev, _ =>
        Ret (match checked_add u64_max dev 1 with
             | Some next => Some (with_dev version (Some next))
             | None => None
             end)
    | None, Some post =>
        Ret (match checked_add u64_max post 1 with
             | Some next => Some (with_dev (with_post version (Some next)) (Some 0))
             | None => None
             end)
    | None, None => Ret (Some (with_dev (with_post version (Some 0)) (Some 0)))
    end
  else if is_some (vmin version) then
    let! w := with_min version None in
    Ret (Some (with_dev w (Some 0)))
  else
    match vmax version, pre version with
    | Some _, Some prerelease =>
        let! w := with_max version None in
        Ret (match checked_add u64_max (pre_number prerelease) 1 with
             | Some next =>
                 Some (with_dev (with_pre w (Some (mkPre (pre_kind prerelease) next))) (Some 0))
             | None => None
             end)
    | _, _ => Ret None
    end.

Definition lower_bound_needs_canonicalization (bound : Bound) : outcome bool :=
  let! floor := PEP440_MIN_VERSION in
  match bound with
  | Included version =>
      if is_le (cmp version floor) then Ret true
      else outcome_map is_some (sentinel_successor version)
  | Excluded version =>
      if is_lt (cmp version floor) then Ret true
      else outcome_map is_some (sentinel_successor version)
  | Unbounded => Ret false
  end.

Definition upper_bound_needs_canonicalization (bound : Bound) : outcome bool :=
  let! floor := PEP440_MIN_VERSION in
  match bound with
  | Included version =>
      if is_lt (cmp version floor) then Ret true
      else outcome_map is_some (sentinel_successor version)
  | Excluded version =>
      if is_le (cmp version floor) then Ret true
      else outcome_map is_some (sentinel_successor version)
  | Unbounded => Ret false
  end.

Definition canonicalize_lower_bound (bound : Bound) : outcome Bound :=
  match bound with
  | Included version =>
      outcome_map (fun o => match o with Some s => Included s | None => Included version end)
        (sentinel_successor version)
  | Excluded version =>
      outcome_map (fun o => match o with Some s => Included s | None => Excluded version end)
        (sentinel_successor version)
  | Unbounded => Ret Unbounded
  end.

Definition canonicalize_upper_bound (bound : Bound) : outcome Bound :=
  match bound with
  | Included version =>
      outcome_map (fun o => match o with Some s => Excluded s | None => Included version end)
        (sentinel_successor version)
  | Excluded version =>
      outcome_map (fun o => match o with Some s => Excluded s | None => Excluded version end)
        (sentinel_successor version)
  | Unbounded => Ret Unbounded
  end.

(** One segment of [canonicalize_version_ranges]: [None] when it lies below the
    smallest version. *)
Definition canonicalize_segment (s : Bound * Bound) : outcome (option (Bound * Bound)) :=
  let! floor := PEP440_MIN_VERSION in
  let! lower := canonicalize_lower_bound s.1 in
  let! upper := canonicalize_upper_bound s.2 in
  let lower :=
    match lower with
    | Included version => if is_le (cmp version floor) then Unbounded else lower
    | Excluded version => if is_lt (cmp version floor) then Unbounded else lower
    | Unbounded => lower
    end in
  let below_floor :=
    match upper with
    | Included version => is_lt (cmp version floor)
    | Excluded version => is_le (cmp version floor)
    | Unbounded => false
    end in
  Ret (if negb below_floor then Some (lower, upper) else None).

(** [iter().any(..)] with a fallible test. *)
Fixpoint any_segment (test : Bound * Bound -> outcome bool) (l : list (Bound * Bound)) : outcome bool :=
  match l with
  | [] => Ret false
  | s :: rest => let! b := test s in if b : bool then Ret true else any_segment test rest
  end.

Fixpoint filter_map_segments (f : Bound * Bound -> outcome (option (Bound * Bound)))
    (l : list (Bound * Bound)) : outcome (list (Bound * Bound)) :=
  match l with
  | [] => Ret []
  | s :: rest =>
      let! o := f s in
      let! rest' := filter_map_segments f rest in
      Ret (option_list o ++ rest')
  end.

Definition segment_needs_canonicalization (s : Bound * Bound) : outcome bool :=
  let! a := lower_bound_needs_canonicalization s.1 in
  if a : bool then Ret true else upper_bound_needs_canonicalization s.2.

(** One segment of [strip_local_version_sentinels]. *)
Definition strip_segment (s : Bound * Bound) : Bound * Bound :=
  let '(lower, upper) := s in
  let lower_is_included := match lower with Included _ => true | _ => false end in
  let lower' :=
    match lower with
    | Included version | Excluded version =>
        if is_local_max version then Excluded (without_local version) else lower
    | Unbounded => lower
    end in
  let upper' :=
    match upper with
    | Included version =>
        if is_local_max version then Included (without_local version) else upper
    | Excluded version =>
        if is_local_max version && lower_is_included then Included (without_local version)
        else if is_local_max version then Excluded (without_local version)
        else upper
    | Unbounded => upper
    end in
  (lower', upper').

Section segments.
Context {R : Type} `{SegmentOps R}.

Definition canonicalize_version_ranges (ranges : R) : outcome (option R) :=
  let! needed := any_segment segment_needs_canonicalization (ranges_iter ranges) in
  if negb needed then Ret None
  else
    let! l := filter_map_segments canonicalize_segment (ranges_iter ranges) in
    Ret (Some (ranges_collect l)).

Definition strip_local_version_sentinels (ranges : R) : R :=
  ranges_collect (map strip_segment (ranges_iter ranges)).
End segments.

(** ** [LowerBound] and [UpperBound] *)

Definition lower_bound_new (bound : Bound) : outcome Bound :=
  match bound with
  | Included version => outcome_map Included (only_release_trimmed version)
  | Excluded version => outcome_map Excluded (only_release_trimmed version)
  | Unbounded => Ret Unbounded
  end.

Definition upper_bound_new (bound : Bound) : outcome Bound :=
  match bound with
  | Included version => outcome_map Included (only_release_trimmed version)
  | Excluded version => outcome_map Excluded (only_release_trimmed version)
  | Unbounded => Ret Unbounded
  end.

Definition lower_major_minor (bound : Bound) : outcome Bound :=
  match bound with
  | Included version => outcome_map Included (version_new (take 2 (release version)))
  | Excluded version => outcome_map Included (version_new (take 2 (release version)))
  | Unbounded => Ret Unbounded
  end.

Definition upper_major_minor (bound : Bound) : outcome Bound :=
  match bound with
  | Included version => outcome_map Included (version_new (take 2 (release version)))
  | Excluded version =>
      if match release version !! 2%nat with Some patch => 0 <? patch | None => false end
      then outcome_map Included (version_new (take 2 (release version)))
      else outcome_map Excluded (version_new (take 2 (release version)))
  | Unbounded => Ret Unbounded
  end.

Definition lower_bound_contains (bound : Bound) (version : Version) : bool :=
  match bound with
  | Included b => is_le (cmp b version)
  | Excluded b => is_lt (cmp b version)
  | Unbounded => true
  end.

Definition upper_bound_contains (bound : Bound) (version : Version) : bool :=
  match bound with
  | Included b => is_ge (cmp b version)
  | Excluded b => is_gt (cmp b version)
  | Unbounded => true
  end.

Definition lower_bound_specifier (bound : Bound) : option VersionSpecifier :=
  match bound with
  | Included version => Some (greater_than_equal_version version)
  | Excluded version => Some (greater_than_version version)
  | Unbounded => None
  end.

Definition upper_bound_specifier (bound : Bound) : option VersionSpecifier :=
  match bound with
  | Included version => Some (less_than_equal_version version)
  | Excluded version => Some (less_than_version version)
  | Unbounded => None
  end.

(** [impl Ord for LowerBound] *)
Definition lower_bound_cmp (left right : Bound) : comparison :=
  match left, right with
  | Unbounded, Unbounded => Eq
  | Included _, Unbounded => Gt
  | Excluded _, Unbounded => Gt
  | Unbounded, Included _ => Lt
  | Included l, Included r => cmp l r
  | Excluded l, Included r => match cmp l r with Lt => Lt | Eq => Gt | Gt => Gt end
  | Unbounded, Excluded _ => Lt
  | Included l, Excluded r => match cmp l r with Lt => Lt | Eq => Lt | Gt => Gt end
  | Excluded l, Excluded r => cmp l r
  end.

(** [impl Ord for UpperBound] *)
Definition upper_bound_cmp (left right : Bound) : comparison :=
  match left, right with
  | Unbounded, Unbounded => Eq
  | Included _, Unbounded => Lt
  | Excluded _, Unbounded => Lt
  | Unbounded, Included _ => Gt
  | Included l, Included r => cmp l r
  | Excluded l, Included r => match cmp l r with Lt => Lt | Eq => Lt | Gt => Gt end
  | Unbounded, Excluded _ => Gt
  | Included l, Excluded r => match cmp l r with Lt => Lt | Eq => Gt | Gt => Gt end
  | Excluded l, Excluded r => cmp l r
  end.


(** ** Sentinels and their successors *)

(** The bounds that the conversion of specifiers produces from a real version. *)
Inductive sentinel (x : Version) : Prop :=
| SentinelLocal t : real t = true -> local t = local_empty -> version_ok x = true ->
    make_full x = set_f_local (make_full t) LMax -> sentinel x
| SentinelMin t n : real t = true -> local t = local_empty -> final t = true -> version_ok x = true ->
    0 <= n <= u64_max -> make_full x = set_f_min (make_full t) (Some n) -> sentinel x
| SentinelMax t p : real t = true -> local t = local_empty -> pre t = Some p -> post t = None ->
    dev t = None -> version_ok x = true -> make_full x = set_f_max (make_full t) (Some 0) -> sentinel x.

(** The range of the numbers in the base tuple of a real version. *)
Lemma base_tuple_range v : real v = true -> exists a b c d, base_tuple (make_full v) = (a, (b, (c, d))) /\
  0 <= d <= u64_max /\ (forall q, c = Some q -> 0 <= q < u64_max).
Proof.
  intros H. pose proof (real_elim v H) as R. pose proof (real_dev _ R) as Hd. pose proof (real_post _ R) as Hp.
  rewrite base_tuple_real by done. unfold u64_max in *.
  destruct (pre v) as [p|], (post v) as [q|], (dev v) as [n|]; eexists _, _, _, _; (split; [reflexivity|]);
    cbn [from_option id]; (split; [try specialize (Hd _ eq_refl); try lia|intros ? [= <-]; auto || intros ? [= ]]).
Qed.

(** [s] is where the real versions above [x] begin. *)
Definition successor_of (x s : Version) : Prop :=
  wf s = true /\ cmp x s = Lt /\ forall v, real v = true ->
    is_gt (cmp v x) = is_ge (cmp v s) /\ is_eq (cmp v x) = false.

(** Enough to know of a successor: its record and where it lies. *)
Lemma successor_intro x s : wf x = true -> wf s = true -> local s = local_empty ->
  cmp x s = Lt -> (forall v, real v = true ->
    is_gt (cmp v x) = is_ge (base_cmp (make_full v) (make_full s)) /\ is_eq (cmp v x) = false) ->
  successor_of x s.
Proof.
  intros Wx Ws Ls Hlt Hv. split; [done|]. split; [done|]. intros v Rv. destruct (Hv v Rv) as [-> ->].
  by rewrite (proj1 (cmp_plain_bound s v Rv Ws Ls)).
Qed.

Lemma local_max_not_eq t x v : real v = true -> wf x = true -> make_full x = set_f_local (make_full t) LMax ->
  is_eq (cmp v x) = false.
Proof.
  intros Hv Wx Vx. destruct (cmp_max_bound t v Hv x Wx Vx) as (E1 & E2 & _). rewrite <- E2 in E1.
  by destruct (cmp v x).
Qed.

Lemma base_lt_cmp x s : wf x = true -> wf s = true ->
  base_cmp (make_full x) (make_full s) = Lt -> cmp x s = Lt.
Proof. intros Hx Hs E. rewrite cmp_full, full_cmp_base, E by done. done. Qed.

(** Two base tuples that agree up to the post-release. *)
Lemma base_cmp_same f g : f_epoch f = f_epoch g -> f_release f = f_release g ->
  base_cmp f g = base_tuple_cmp (base_tuple f) (base_tuple g).
Proof. intros E1 E2. unfold base_cmp. by rewrite E1, E2, Z.compare_refl, pad_cmp_refl. Qed.

(** A version with one post-release more, at its earliest. *)
Lemma post_bound t n : real t = true -> local t = local_empty -> 0 <= n <= u64_max ->
  let s := with_dev (with_post t (Some n)) (Some 0) in
  wf s = true /\ local s = local_empty /\
  make_full s = set_f_dev (set_f_post (make_full t) (Some n)) (Some 0).
Proof.
  intros Ht El Hn. cbv zeta. pose proof (real_elim t Ht) as Rt.
  destruct (with_post_view t (Some n) (real_ok _ Rt)) as [V1 O1]; [intros ? [= <-]; lia|].
  destruct (with_dev_view (with_post t (Some n)) (Some 0) O1) as [V2 O2]; [intros ? [= <-]; lia|]. rewrite V1 in V2.
  split; [|split; [rewrite local_view, V2; cbn; by rewrite <- local_view|done]].
  pose proof (real_wf t Ht) as Wt. unfold wf in *. apply andb_prop in Wt as [_ Wt]. rewrite O2, V2.
  pose proof (real_min _ Rt) as Hm. pose proof (real_max _ Rt) as Hx. rewrite vmin_view in Hm. rewrite vmax_view in Hx.
  apply u64b_iff in Hn. unfold full_wf in *. cbn [set_f_dev set_f_post f_epoch f_release f_pre f_post f_dev f_local f_min f_max opt_all] in *.
  rewrite Hm, Hx in *. rewrite !andb_true_iff in *. cbn [is_some is_none negb implb]. tauto.
Qed.

Lemma base_tuple_post t n : real t = true -> exists a b, 
  base_tuple (set_f_dev (set_f_post (make_full t) (Some n)) (Some 0)) = (a, (b, (Some n, 0))) /\
  (dev t = None -> is_some (pre t) || is_some (post t) = true ->
     base_tuple (make_full t) = (a, (b, (post t, u64_max)))) /\
  (pre t = None -> a = 6 /\ b = 0).
Proof.
  intros Ht. pose proof (real_elim t Ht) as [_ _ _ _ _ _ _ Hmin Hmax _].
  rewrite dev_view, pre_view, post_view, vmin_view, vmax_view in *. unfold base_tuple, full_tuple, sortable_tuple.
  cbn [pre post dev vmin vmax local set_f_dev set_f_post f_pre f_post f_dev f_local f_min f_max]. rewrite Hmin, Hmax.
  cbn [is_some is_none negb]. destruct (f_pre (make_full t)) as [[[] ?]|], (f_post (make_full t)), (f_dev (make_full t));
    eexists _, _; (split; [reflexivity|]); split; intros; try done.
Qed.

(** Nothing real lies between a version with the [max] local version and its
    next post-release. *)
Lemma post_successor t v n : real t = true -> real v = true -> dev t = None ->
  n = match post t with Some p => p + 1 | None => 0 end ->
  is_gt (base_cmp (make_full v) (make_full t)) =
  is_ge (base_cmp (make_full v) (set_f_dev (set_f_post (make_full t) (Some n)) (Some 0))).
Proof.
  intros Ht Hv Hd Hn. destruct (base_tuple_post t n Ht) as (a & b & E & E1 & E2).
  unfold base_cmp. cbn [f_epoch f_release set_f_dev set_f_post]. rewrite E.
  destruct (f_epoch (make_full v) ?= f_epoch (make_full t)); [|done|done].
  destruct (pad_cmp _ _); [|done|done]. cbn [then_with].
  destruct (base_tuple_range v Hv) as (a' & b' & c' & d' & Ev & Hd' & Hc').
  destruct (is_some (pre t) || is_some (post t)) eqn:Es.
  - rewrite (E1 Hd eq_refl), Ev. unfold base_tuple_cmp, pair_cmp. cbn [fst snd].
    destruct (a' ?= a); [|done|done]. destruct (b' ?= b); [|done|done]. cbn [then_with].
    destruct (post t) as [p|], c' as [q|]; cbn [option_cmp then_with]; subst n.
    + specialize (Hc' q eq_refl). by destruct (Z.compare_spec q p), (Z.compare_spec q (p + 1)),
        (Z.compare_spec d' u64_max), (Z.compare_spec d' 0); try lia.
    + done.
    + specialize (Hc' q eq_refl). by destruct (Z.compare_spec q 0), (Z.compare_spec d' 0); try lia.
    + by destruct (Z.compare_spec d' u64_max); try lia.
  - apply orb_false_elim in Es as [Ep Eo]. assert (Hp : pre t = None) by (by destruct (pre t)).
    assert (Hpo : post t = None) by (by destruct (post t)). destruct (E2 Hp) as [-> ->]. rewrite Hpo in Hn. subst n.
    rewrite !base_tuple_real, Hp, Hpo, Hd by done. pose proof (real_post _ (real_elim v Hv)) as Hvp.
    pose proof (real_dev _ (real_elim v Hv)) as Hvd. unfold base_tuple_cmp, pair_cmp.
    destruct (pre v) as [[[] ?]|]; [done..|]. destruct (post v) as [q|], (dev v) as [z|]; try done.
    + specialize (Hvp q eq_refl). specialize (Hvd z eq_refl). cbn [fst snd Z.compare Pos.compare Pos.compare_cont then_with option_cmp from_option id].
      by destruct (Z.compare_spec q 0), (Z.compare_spec z 0); try lia.
    + specialize (Hvp q eq_refl). cbn [fst snd Z.compare Pos.compare Pos.compare_cont then_with option_cmp from_option id].
      by destruct (Z.compare_spec q 0); try lia.
Qed.

Lemma without_local_max t x : real t = true -> local t = local_empty -> version_ok x = true ->
  make_full x = set_f_local (make_full t) LMax ->
  make_full (without_local x) = make_full t /\ real (without_local x) = true.
Proof.
  intros Ht El Ox Vx. destruct (without_local_view x Ox) as [V O]. rewrite Vx in V.
  assert (V' : make_full (without_local x) = make_full t).
  { rewrite V. rewrite local_view in El. destruct (make_full t). cbn in *. by subst. }
  split; [done|]. unfold real. rewrite O, V'. unfold real in Ht. by apply andb_prop in Ht as [_ ->].
Qed.

Lemma sentinel_local_successor x t : real t = true -> local t = local_empty -> version_ok x = true ->
  make_full x = set_f_local (make_full t) LMax ->
  wf x = true /\ exists s, sentinel_successor x = Ret (Some s) /\ successor_of x s.
Proof.
  intros Ht0 El0 Ox Vx0. destruct (without_local_max t x Ht0 El0 Ox Vx0) as [Vt Ht].
  set (u := without_local x) in *. assert (El : local u = local_empty) by (by rewrite local_view, Vt, <- local_view).
  assert (Vx : make_full x = set_f_local (make_full u) LMax) by (by rewrite Vt).
  clear Ht0 El0 Vx0 Vt t. assert (Wx : wf x = true).
  { pose proof (real_wf u Ht) as W. unfold wf in *. apply andb_prop in W as [_ W]. by rewrite Ox, Vx. }
  split; [done|]. unfold sentinel_successor. assert (is_local_max x = true) as ->.
  { unfold is_local_max. by rewrite local_view, Vx. }
  fold u. assert (Hbx : forall g, base_cmp (make_full x) g = base_cmp (make_full u) g).
  { intros g. rewrite Vx. apply base_cmp_local. }
  destruct (dev u) as [d|] eqn:Ed.
  - pose proof (real_dev _ (real_elim u Ht) d Ed) as Hd. unfold checked_add.
    rewrite (proj2 (Z.leb_le _ _)) by lia. eexists. split; [done|].
    destruct (with_dev_wf u (d + 1) (real_wf u Ht)) as [Ws Vs]; [apply (real_min _ (real_elim u Ht))|apply (real_max _ (real_elim u Ht))|lia|].
    assert (Ls : local (with_dev u (Some (d + 1))) = local_empty) by (rewrite local_view, Vs; cbn; by rewrite <- local_view).
    apply successor_intro; try done.
    + apply base_lt_cmp; [done|done|]. rewrite Hbx, Vs, base_cmp_same by done.
      destruct (base_tuple_dev u (d + 1) Ht) as (a & b & c & E1 & E2); [lia|by rewrite Ed|]. rewrite E1, E2, Ed.
      unfold base_tuple_cmp, pair_cmp. cbn [fst snd from_option id]. rewrite !Z.compare_refl, (ord_refl (option_cmp Z.compare)).
      cbn [then_with]. apply Z.compare_lt_iff. lia.
    + intros v Rv. split; [|by apply (local_max_not_eq u)]. destruct (cmp_max_bound u v Rv x Wx Vx) as (_ & _ & ->).
      rewrite Vs. by apply dev_successor.
  - set (n := match post u with Some p => p + 1 | None => 0 end).
    assert (Hn : 0 <= n <= u64_max).
    { unfold n, u64_max. destruct (post u) as [p|] eqn:Ep; [|lia]. pose proof (real_post _ (real_elim u Ht) p Ep).
      unfold u64_max in *. lia. }
    exists (with_dev (with_post u (Some n)) (Some 0)). split.
    { unfold n in *. destruct (post u) as [p|]; [|done]. unfold checked_add. by rewrite (proj2 (Z.leb_le _ _)) by lia. }
    destruct (post_bound u n Ht El Hn) as (Ws & Ls & Vs). apply successor_intro; try done.
    + apply base_lt_cmp; [done|done|]. rewrite Hbx, Vs.
      pose proof (post_successor u u n Ht Ht Ed eq_refl) as P. rewrite base_cmp_same, (ord_refl base_tuple_cmp) in P by done.
      by destruct (base_cmp (make_full u) _).
    + intros v Rv. split; [|by apply (local_max_not_eq u)]. destruct (cmp_max_bound u v Rv x Wx Vx) as (_ & _ & ->).
      rewrite Vs. by apply post_successor.
Qed.

(** Undoing a sentinel gives the version back. *)
Lemma unset_min x t n : real t = true -> version_ok x = true ->
  make_full x = set_f_min (make_full t) (Some n) -> final t = true ->
  exists w, with_min x None = Ret w /\ make_full w = make_full t /\ real w = true.
Proof.
  intros Ht Ox Vx Hf. assert (Hpd : f_pre (make_full t) = None /\ f_dev (make_full t) = None).
  { rewrite <- pre_view, <- dev_view. unfold final in Hf. by destruct (pre t), (post t), (dev t). }
  destruct Hpd as [Hp Hd]. destruct (with_min_view x None Ox) as (w & E & Vw & Ow);
    [done|by rewrite pre_view, Vx|by rewrite dev_view, Vx|].
  exists w. split; [done|]. rewrite Vx in Vw. pose proof (real_min _ (real_elim t Ht)) as Hm. rewrite vmin_view in Hm.
  assert (V : make_full w = make_full t) by (rewrite Vw; destruct (make_full t); cbn in *; by subst).
  split; [done|]. unfold real in *. rewrite Ow, V. by apply andb_prop in Ht as [_ ->].
Qed.

Lemma sentinel_min_successor x t n : real t = true -> local t = local_empty -> final t = true ->
  version_ok x = true -> 0 <= n <= u64_max -> make_full x = set_f_min (make_full t) (Some n) ->
  wf x = true /\ exists s, sentinel_successor x = Ret (Some s) /\ successor_of x s.
Proof.
  intros Ht El Hf Ox Hn Vx. pose proof (final_bare t Ht Hf El) as Eb. assert (Wx : wf x = true).
  { pose proof (real_wf t Ht) as W. unfold wf in *. apply andb_prop in W as [_ W]. rewrite Ox, Vx. rewrite Eb in *.
    apply u64b_iff in Hn. unfold full_wf in *. cbn [bare set_f_min f_epoch f_release f_pre f_post f_dev f_min f_max opt_all is_some is_none negb implb andb] in *.
    rewrite Hn, ?andb_true_r in *. done. }
  split; [done|]. unfold sentinel_successor. assert (is_local_max x = false) as ->.
  { unfold is_local_max. rewrite local_view, Vx. cbn. rewrite <- local_view, El. done. }
  assert (is_some (vmin x) = true) as -> by (by rewrite vmin_view, Vx).
  destruct (unset_min x t n Ht Ox Vx Hf) as (w & -> & Vw & Rw). cbn [obind]. eexists. split; [done|].
  destruct (with_dev_real w 0 Rw) as [Rs Vs]; [done|]. rewrite Vw, Eb in Vs. set (s := with_dev w (Some 0)) in *.
  assert (Bs : base_tuple (make_full s) = dev0_tuple) by (by rewrite Vs).
  assert (Ls : local s = local_empty) by (by rewrite local_view, Vs).
  apply successor_intro; [done|by apply real_wf|done| |].
  - apply base_lt_cmp; [done|by apply real_wf|]. rewrite Vx, Vs, Eb, base_cmp_same by done. reflexivity.
  - intros v Rv. rewrite (proj2 (base_cmp_dev0 v (make_full s) Rv Bs)), Vs. cbn [f_epoch f_release set_f_dev bare].
    rewrite cmp_full, Vx, Eb by (done || by apply real_wf). unfold full_cmp. cbn [f_epoch f_release set_f_min bare].
    rewrite <- epoch_view, <- release_view, <- sortable_tuple_full.
    destruct (epoch v ?= epoch t); [|done|done]. destruct (pad_cmp _ _); [|done|done]. cbn [then_with].
    rewrite sortable_tuple_real by (by apply real_elim). by destruct (pre v) as [[[] ?]|], (post v), (dev v).
Qed.

Lemma unset_max x t : real t = true -> version_ok x = true ->
  make_full x = set_f_max (make_full t) (Some 0) -> post t = None -> dev t = None ->
  exists w, with_max x None = Ret w /\ make_full w = make_full t /\ real w = true.
Proof.
  intros Ht Ox Vx Hpo Hd. rewrite post_view in Hpo. rewrite dev_view in Hd.
  destruct (with_max_view x None Ox) as (w & E & Vw & Ow); [done|by rewrite post_view, Vx|by rewrite dev_view, Vx|].
  exists w. split; [done|]. rewrite Vx in Vw. pose proof (real_max _ (real_elim t Ht)) as Hm. rewrite vmax_view in Hm.
  assert (V : make_full w = make_full t) by (rewrite Vw; destruct (make_full t); cbn in *; by subst).
  split; [done|]. unfold real in *. rewrite Ow, V. by apply andb_prop in Ht as [_ ->].
Qed.

(** The next pre-release of the same kind, at its earliest. *)
Lemma pre_bound w k n m : real w = true -> local w = local_empty -> pre w = Some (mkPre k n) ->
  post w = None -> dev w = None -> 0 <= m <= u64_max ->
  let s := with_dev (with_pre w (Some (mkPre k m))) (Some 0) in
  wf s = true /\ local s = local_empty /\ f_epoch (make_full s) = epoch w /\ f_release (make_full s) = release w /\
  base_tuple (make_full s) = (kind_discriminant k + 2, (m, (None, 0))).
Proof.
  intros Hw El Hp Hpo Hd Hm. cbv zeta. pose proof (real_elim w Hw) as R.
  destruct (with_pre_view w (Some (mkPre k m)) (real_ok _ R)) as [V1 O1]; [intros ? [= <-]; cbn; lia|].
  destruct (with_dev_view (with_pre w (Some (mkPre k m))) (Some 0) O1) as [V2 O2]; [intros ? [= <-]; lia|]. rewrite V1 in V2.
  pose proof (real_min _ R) as Hmi. pose proof (real_max _ R) as Hma.
  rewrite post_view in Hpo. rewrite vmin_view in Hmi. rewrite vmax_view in Hma.
  split; [|split; [rewrite local_view, V2; cbn; by rewrite <- local_view|
    rewrite V2, epoch_view, release_view; split; [done|]; split; [done|]]].
  - pose proof (real_wf w Hw) as Wt. unfold wf in *. apply andb_prop in Wt as [_ Wt]. rewrite O2, V2.
    apply u64b_iff in Hm. unfold full_wf in *.
    cbn [set_f_dev set_f_pre f_epoch f_release f_pre f_post f_dev f_local f_min f_max opt_all pre_number] in *.
    rewrite Hmi, Hma in *. rewrite !andb_true_iff in *. cbn [is_some is_none negb implb]. tauto.
  - unfold base_tuple, full_tuple, sortable_tuple.
    cbn [pre post dev vmin vmax local set_f_dev set_f_pre f_pre f_post f_dev f_local f_min f_max].
    rewrite Hmi, Hma, Hpo. by destruct k.
Qed.

Lemma sentinel_max_successor x t p : real t = true -> local t = local_empty -> pre t = Some p ->
  post t = None -> dev t = None -> version_ok x = true -> make_full x = set_f_max (make_full t) (Some 0) ->
  wf x = true /\ exists s, sentinel_successor x = Ret (Some s) /\ successor_of x s.
Proof.
  intros Ht El Hp Hpo Hd Ox Vx. destruct p as [k n]. pose proof (real_elim t Ht) as Rt.
  pose proof (real_pre _ Rt _ Hp) as Hn. cbn in Hn.
  assert (Wx : wf x = true).
  { destruct (with_max_wf t Ht Hpo Hd) as (w' & E' & Ww').
    destruct (with_max_view t (Some 0) (real_ok _ Rt)) as (w & E & Vw & Ow); [intros ? [= <-]; lia|done|done|].
    rewrite E in E'. injection E' as <-. unfold wf in *. rewrite Vw in Ww'. rewrite Ox, Vx. by apply andb_prop in Ww' as [_ ->]. }
  split; [done|]. unfold sentinel_successor. assert (is_local_max x = false) as ->.
  { unfold is_local_max. rewrite local_view, Vx. cbn. by rewrite <- local_view, El. }
  assert (vmin x = None) as -> by (rewrite vmin_view, Vx; cbn; rewrite <- vmin_view; apply (real_min _ Rt)).
  assert (vmax x = Some 0) as -> by (by rewrite vmax_view, Vx).
  assert (pre x = Some (mkPre k n)) as -> by (rewrite pre_view, Vx; cbn; by rewrite <- pre_view).
  cbn [is_some is_none negb]. destruct (unset_max x t Ht Ox Vx Hpo Hd) as (w & -> & Vw & Rw). cbn [obind pre_number pre_kind].
  unfold checked_add. rewrite (proj2 (Z.leb_le _ _)) by lia. eexists. split; [done|].
  destruct (pre_bound w k n (n + 1) Rw) as (Ws & Ls & Es & Rs & Bs);
    [by rewrite local_view, Vw, <- local_view|by rewrite pre_view, Vw, <- pre_view|by rewrite post_view, Vw, <- post_view
    |by rewrite dev_view, Vw, <- dev_view|lia|]. set (s := with_dev _ _) in *.
  rewrite (epoch_view w), Vw in Es. rewrite (release_view w), Vw in Rs.
  assert (Bx : base_tuple (make_full x) = (kind_discriminant k + 2, (n, (Some u64_max, u64_max)))).
  { rewrite Vx. unfold base_tuple, full_tuple, sortable_tuple.
    cbn [pre post dev vmin vmax local set_f_max f_pre f_post f_dev f_local f_min f_max is_some is_none negb].
    rewrite <- pre_view, <- dev_view, <- vmin_view, Hp, Hd, (real_min _ Rt). by destruct k. }
  apply successor_intro; try done.
  - apply base_lt_cmp; [done|done|]. rewrite base_cmp_same, Bx, Bs by (rewrite Vx; done).
    unfold base_tuple_cmp, pair_cmp. cbn [fst snd]. rewrite Z.compare_refl. cbn [then_with].
    by rewrite (proj2 (Z.compare_lt_iff _ _)) by lia.
  - intros v Rv. destruct (base_tuple_range v Rv) as (a & b & c & d & Ev & Hdr & Hc).
    rewrite cmp_full, full_cmp_base by (done || by apply real_wf). unfold base_cmp.
    rewrite Bx, Bs, Ev, Vx, Es, Rs. cbn [f_epoch f_release set_f_max].
    destruct (f_epoch (make_full v) ?= _); [|done|done]. destruct (pad_cmp _ _); [|done|done]. cbn [then_with].
    unfold base_tuple_cmp, pair_cmp. cbn [fst snd]. destruct (a ?= kind_discriminant k + 2); [|done|done]. cbn [then_with].
    assert (Hcm : then_with (option_cmp Z.compare c (Some u64_max)) (d ?= u64_max) = Lt).
    { destruct c as [q|]; [|done]. specialize (Hc q eq_refl). cbn [option_cmp].
      by rewrite (proj2 (Z.compare_lt_iff _ _)) by lia. }
    assert (Hcs : then_with (option_cmp Z.compare c None) (d ?= 0) <> Lt).
    { destruct c; [done|]. cbn. destruct (Z.compare_spec d 0); try lia; done. }
    rewrite Hcm. destruct (Z.compare_spec b n), (Z.compare_spec b (n + 1)); try lia; cbn [then_with]; try done.
    by destruct (then_with (option_cmp Z.compare c None) (d ?= 0)).
Qed.

Lemma sentinel_has_successor x : sentinel x -> wf x = true /\
  exists s, sentinel_successor x = Ret (Some s) /\ successor_of x s.
Proof.
  intros [t Ht El Ox Vx|t n Ht El Hf Ox Hn Vx|t p Ht El Hp Hpo Hd Ox Vx].
  - by apply (sentinel_local_successor x t).
  - by apply (sentinel_min_successor x t n).
  - by apply (sentinel_max_successor x t p).
Qed.

(** ** The smallest version *)

Lemma min_version : exists m, PEP440_MIN_VERSION = Ret m /\ real m = true /\ local m = local_empty /\
  base_tuple (make_full m) = dev0_tuple /\ f_epoch (make_full m) = 0 /\ f_release (make_full m) = [0].
Proof. eexists. split; [vm_compute; reflexivity|]. repeat split. Qed.

Lemma min_version_least m v : PEP440_MIN_VERSION = Ret m -> real v = true -> cmp v m <> Lt.
Proof.
  intros Em Hv. destruct min_version as (m' & E & Rm & Lm & Bm & Ee & Er). rewrite E in Em. injection Em as ->.
  pose proof (proj2 (cmp_plain_bound m v Hv (real_wf m Rm) Lm)) as H.
  rewrite (proj1 (base_cmp_dev0 v (make_full m) Hv Bm)), Ee, Er in H. intros E'. rewrite E' in H. symmetry in H.
  pose proof (real_epoch _ (real_elim v Hv)) as He. pose proof (real_nonneg v Hv) as Hr.
  destruct (Z.compare_spec (epoch v) 0); [|lia|done]. cbn [then_with] in H.
  destruct Hr as [|x r Hx Hr]; [done|]. cbn [pad_cmp] in H.
  destruct (Z.compare_spec x 0); [|lia|done]. cbn [then_with] in H.
  pose proof (pad_cmp_nil_nonneg r Hr). by destruct (pad_cmp r []).
Qed.

(** ** Canonical segments *)

(** The versions that occur as bounds of ranges: real versions, sentinels, and
    the [max] sentinel of a final version, which has no successor. *)
Inductive bound_version (x : Version) : Prop :=
| BoundReal : real x = true -> bound_version x
| BoundSentinel : sentinel x -> bound_version x
| BoundMax t : real t = true -> local t = local_empty -> final t = true -> version_ok x = true ->
    make_full x = set_f_max (make_full t) (Some 0) -> bound_version x.

Definition bound_ok (b : Bound) : Prop :=
  match b with Included x | Excluded x => bound_version x | Unbounded => True end.

Lemma bound_version_successor x : bound_version x -> wf x = true /\
  exists o, sentinel_successor x = Ret o /\ forall s, o = Some s -> successor_of x s.
Proof.
  intros [Hr|Hs|t Ht El Hf Ox Vx].
  - split; [by apply real_wf|]. exists None. split; [|done]. pose proof (real_elim x Hr) as R. unfold sentinel_successor, is_local_max.
    destruct (real_local _ R) as (l & -> & _). by rewrite (real_min _ R), (real_max _ R).
  - destruct (sentinel_has_successor x Hs) as (W & s & E & Hsuc). split; [done|]. exists (Some s). split; [done|].
    by intros ? [= <-].
  - pose proof (final_bare t Ht Hf El) as Eb. assert (Wx : wf x = true).
    { pose proof (real_wf t Ht) as W. unfold wf in *. apply andb_prop in W as [_ W]. rewrite Ox, Vx. rewrite Eb in *.
      unfold full_wf in *. cbn in *. rewrite ?andb_true_r in *. done. }
    split; [done|]. exists None. split; [|done]. unfold sentinel_successor, is_local_max.
    by rewrite local_view, vmin_view, vmax_view, pre_view, Vx, Eb.
Qed.

Lemma canonical_lower b v : bound_ok b -> real v = true -> exists b',
  canonicalize_lower_bound b = Ret b' /\ bound_wf b' = true /\ above b' v = above b v.
Proof.
  intros Hb Hv. destruct b as [x|x|]; [| |by exists Unbounded];
    destruct (bound_version_successor x Hb) as (W & o & E & Ho); cbn [canonicalize_lower_bound];
    rewrite E; cbn [outcome_map]; (destruct o as [s|]; [|by eexists]);
    destruct (Ho s eq_refl) as (Ws & _ & Hs); destruct (Hs v Hv) as [H1 H2];
    eexists; (split; [done|]); (split; [done|]); cbn [above]; rewrite <- H1; by destruct (cmp v x).
Qed.

Lemma canonical_upper b v : bound_ok b -> real v = true -> exists b',
  canonicalize_upper_bound b = Ret b' /\ bound_wf b' = true /\ below b' v = below b v.
Proof.
  intros Hb Hv. destruct b as [x|x|]; [| |by exists Unbounded];
    destruct (bound_version_successor x Hb) as (W & o & E & Ho); cbn [canonicalize_upper_bound];
    rewrite E; cbn [outcome_map]; (destruct o as [s|]; [|by eexists]);
    destruct (Ho s eq_refl) as (Ws & _ & Hs); destruct (Hs v Hv) as [H1 H2];
    eexists; (split; [done|]); (split; [done|]); cbn [below]; revert H1 H2;
    by destruct (cmp v x), (cmp v s).
Qed.

(** Comparisons with a bound below the smallest version. *)
Lemma floor_above m x v : PEP440_MIN_VERSION = Ret m -> wf x = true -> real v = true ->
  (is_le (cmp x m) = true -> is_ge (cmp v x) = true /\ is_lt (cmp v x) = false) /\
  (is_lt (cmp x m) = true -> is_gt (cmp v x) = true).
Proof.
  intros Em Wx Hv. pose proof (min_version_least m v Em Hv) as L. pose proof (real_wf v Hv) as Wv.
  assert (Wm : wf m = true).
  { destruct min_version as (m' & E & Rm & _). rewrite Em in E. injection E as <-. by apply real_wf. }
  rewrite cmp_key in L by done. apply (ord_le_ge key_cmp) in L. rewrite !cmp_key by done. split; intros Hx.
  - assert (key_cmp (key x) (key v) <> Gt) as Hxv%(ord_le_ge key_cmp)
      by (apply (ord_le_trans key_cmp _ (key m)); [by destruct (key_cmp (key x) (key m))|done]).
    by destruct (key_cmp (key v) (key x)).
  - assert (key_cmp (key x) (key v) = Lt) as Hxv%(ord_gt_lt key_cmp)
      by (apply (ord_lt_le_trans key_cmp _ (key m)); [by destruct (key_cmp (key x) (key m))|done]).
    by rewrite Hxv.
Qed.

Lemma canonical_segment s v : bound_ok s.1 -> bound_ok s.2 -> real v = true -> exists o,
  canonicalize_segment s = Ret o /\ forallb segment_wf (option_list o) = true /\
  existsb (in_segment v) (option_list o) = in_segment v s.
Proof.
  intros H1 H2 Hv. destruct min_version as (m & Em & Rm & _). destruct (canonical_lower s.1 v H1 Hv) as (l & El & Wl & Al).
  destruct (canonical_upper s.2 v H2 Hv) as (u & Eu & Wu & Bu). unfold canonicalize_segment.
  rewrite Em, El, Eu. cbn [obind]. eexists. split; [done|]. unfold in_segment at 2. rewrite <- Al, <- Bu.
  set (l' := match l with Included _ => _ | _ => _ end).
  assert (Hl' : bound_wf l' = true /\ above l' v = above l v).
  { unfold l'. destruct l as [x|x|]; [| |done].
    - destruct (is_le (cmp x m)) eqn:E; [|done]. split; [done|]. cbn. symmetry. by apply (floor_above m x v Em Wl Hv).
    - destruct (is_lt (cmp x m)) eqn:E; [|done]. split; [done|]. cbn. symmetry. by apply (floor_above m x v Em Wl Hv). }
  destruct Hl' as [Wl' <-].
  destruct (match u with Included _ => _ | _ => _ end) eqn:Ef; cbn [negb option_list existsb forallb].
  - split; [done|]. symmetry. apply andb_false_intro2. destruct u as [x|x|]; [| |done]; cbn [below].
    + destruct (floor_above m x v Em Wu Hv) as [_ G]. specialize (G Ef). by destruct (cmp v x).
    + by destruct (floor_above m x v Em Wu Hv) as [G _]; destruct (G Ef).
  - unfold segment_wf. cbn [fst snd]. rewrite Wl', Wu. split; [done|]. by rewrite orb_false_r.
Qed.

Lemma canonical_segments l v : Forall (fun s => bound_ok s.1 /\ bound_ok s.2) l -> real v = true -> exists l',
  filter_map_segments canonicalize_segment l = Ret l' /\ forallb segment_wf l' = true /\
  existsb (in_segment v) l' = existsb (in_segment v) l.
Proof.
  intros Hl Hv. induction Hl as [|s l [H1 H2] Hl (l' & E & W & IH)]; [by exists []|].
  destruct (canonical_segment s v H1 H2 Hv) as (o & Eo & Wo & Ho). cbn [filter_map_segments].
  rewrite Eo, E. cbn [obind]. eexists. split; [done|]. rewrite forallb_app, existsb_app, Wo, W, Ho, IH. done.
Qed.

Lemma bound_ok_wf b : bound_ok b -> bound_wf b = true.
Proof. destruct b as [x|x|]; [| |done]; intros Hb; by apply bound_version_successor. Qed.

Lemma bounds_wf l : Forall (fun s => bound_ok s.1 /\ bound_ok s.2) l -> forallb segment_wf l = true.
Proof.
  induction 1 as [|s l [H1 H2] Hl IH]; [done|]. cbn [forallb]. unfold segment_wf at 1.
  by rewrite (bound_ok_wf _ H1), (bound_ok_wf _ H2), IH.
Qed.

(** Deciding whether a range is canonical does not panic. *)
Lemma needs_total s : bound_ok s.1 -> bound_ok s.2 -> exists b, segment_needs_canonicalization s = Ret b.
Proof.
  intros H1 H2. destruct min_version as (m & Em & _).
  assert (L : exists b, lower_bound_needs_canonicalization s.1 = Ret b).
  { unfold lower_bound_needs_canonicalization. rewrite Em. cbn [obind]. destruct s.1 as [x|x|]; [| |by eexists];
      (destruct (bound_version_successor x H1) as (_ & o & E & _)); rewrite E; [destruct (is_le _)|destruct (is_lt _)]; by eexists. }
  assert (U : exists b, upper_bound_needs_canonicalization s.2 = Ret b).
  { unfold upper_bound_needs_canonicalization. rewrite Em. cbn [obind]. destruct s.2 as [x|x|]; [| |by eexists];
      (destruct (bound_version_successor x H2) as (_ & o & E & _)); rewrite E; [destruct (is_lt _)|destruct (is_le _)]; by eexists. }
  destruct L as [a Ea], U as [b Eb]. unfold segment_needs_canonicalization. rewrite Ea. cbn [obind].
  destruct a; [by eexists|]. rewrite Eb. by eexists.
Qed.

Lemma any_segment_total l : Forall (fun s => bound_ok s.1 /\ bound_ok s.2) l ->
  exists b, any_segment segment_needs_canonicalization l = Ret b.
Proof.
  induction 1 as [|s l [H1 H2] Hl [b IH]]; [by eexists|]. cbn [any_segment].
  destruct (needs_total s H1 H2) as [b' ->]. cbn [obind]. destruct b'; [by eexists|]. rewrite IH. by eexists.
Qed.

(** ** Ordered bounds *)

(** Keys: [None] is the unbounded side. *)
Definition lower_key (b : Bound) : option (Key * Z) :=
  match b with Included v => Some (key v, 0) | Excluded v => Some (key v, 1) | Unbounded => None end.

Definition upper_key (b : Bound) : Z * option (Key * Z) :=
  match b with
  | Excluded v => (0, Some (key v, 0))
  | Included v => (0, Some (key v, 1))
  | Unbounded => (1, None)
  end.

Definition side_cmp : Key * Z -> Key * Z -> comparison := pair_cmp key_cmp Z.compare.

Lemma lower_bound_cmp_key a b : bound_wf a = true -> bound_wf b = true ->
  lower_bound_cmp a b = option_cmp side_cmp (lower_key a) (lower_key b).
Proof.
  intros Ha Hb. unfold side_cmp, pair_cmp. destruct a as [x|x|], b as [y|y|]; cbn; try done; unfold bound_wf in *;
    cbn in Ha, Hb; rewrite cmp_key by done; by destruct (key_cmp _ _).
Qed.

Lemma upper_bound_cmp_key a b : bound_wf a = true -> bound_wf b = true ->
  upper_bound_cmp a b = pair_cmp Z.compare (option_cmp side_cmp) (upper_key a) (upper_key b).
Proof.
  intros Ha Hb. unfold side_cmp, pair_cmp. destruct a as [x|x|], b as [y|y|]; cbn; try done; unfold bound_wf in *;
    cbn in Ha, Hb; rewrite cmp_key by done; by destruct (key_cmp _ _).
Qed.

Lemma lower_bound_contains_key b v : bound_wf b = true -> wf v = true ->
  lower_bound_contains b v = is_le (option_cmp side_cmp (lower_key b) (Some (key v, 0))).
Proof.
  intros Hb Hv. unfold side_cmp, pair_cmp. destruct b as [x|x|]; cbn; try done; cbn in Hb; rewrite cmp_key by done;
    by destruct (key_cmp _ _).
Qed.

Lemma upper_bound_contains_key b v : bound_wf b = true -> wf v = true ->
  upper_bound_contains b v = is_ge (pair_cmp Z.compare (option_cmp side_cmp) (upper_key b) (0, Some (key v, 1))).
Proof.
  intros Hb Hv. unfold side_cmp, pair_cmp. destruct b as [x|x|]; cbn; try done; cbn in Hb; rewrite cmp_key by done;
    by destruct (key_cmp _ _).
Qed.

(** The simplest lawful segments are lists of them. *)
#[export] Instance list_segments : SegmentOps (list (Bound * Bound)) := {
  segments_contain r x := existsb (in_segment x) r;
  ranges_iter r := r;
  ranges_collect l := l;
}.

#[export] Instance list_segments_laws : SegmentLaws (list (Bound * Bound)).
Proof. by split. Qed.

(** ** Properties of sentinels and bounds *)

(** [sentinel_successor] returns the least real version above a sentinel
    bound ([V+max], the [min] of a final release, the [max] of a pre-release):
    it does not panic or overflow, the successor is strictly above the sentinel,
    no real version is equal to the sentinel, and a real version is above the
    sentinel exactly when it is at or above the successor. *)
Theorem sentinel_successor_least x : sentinel x ->
  exists s, sentinel_successor x = Ret (Some s) /\ cmp x s = Lt /\
    forall v, real v = true -> cmp v x <> Eq /\ (cmp v x = Gt <-> cmp v s <> Lt).
Proof.
  intros Hx. destruct (sentinel_has_successor x Hx) as (_ & s & E & Ws & Hlt & Hs). exists s. split; [done|]. split; [done|].
  intros v Hv. destruct (Hs v Hv) as [H1 H2]. by destruct (cmp v x), (cmp v s).
Qed.

Lemma sentinel_successor_least_witness :
  let x := Full (mkFull 0 [1; 0] (Some (mkPre Alpha 1)) None None local_empty None (Some 0)) in
  exists s, sentinel_successor x = Ret (Some s) /\ cmp x s = Lt /\
    forall v, real v = true -> cmp v x <> Eq /\ (cmp v x = Gt <-> cmp v s <> Lt).
Proof.
  cbv zeta. apply sentinel_successor_least.
  apply (SentinelMax _ (Full (mkFull 0 [1; 0] (Some (mkPre Alpha 1)) None None local_empty None None)) (mkPre Alpha 1));
    reflexivity.
Defined.

Section canonical_properties.
Context {R : Type} `{SegmentLaws R}.

(** Canonicalisation keeps the set: it does not panic, and the canonical
    range contains exactly the real versions the range contains (sentinel bounds
    are folded onto their successors, and what lies below [0.dev0], the smallest
    version, is dropped). *)
Theorem canonicalize_keeps_members (ranges : R) v :
  Forall (fun s => bound_ok s.1 /\ bound_ok s.2) (ranges_iter ranges) -> real v = true ->
  exists o, canonicalize_version_ranges ranges = Ret o /\
    forall r, o = Some r -> segments_contain r v = segments_contain ranges v.
Proof.
  intros Hl Hv. unfold canonicalize_version_ranges. destruct (any_segment_total _ Hl) as [b ->]. cbn [obind].
  destruct b; cbn [negb]; [|by exists None]. destruct (canonical_segments _ v Hl Hv) as (l' & -> & W & E). cbn [obind].
  eexists. split; [done|]. intros r [= <-]. rewrite contains_collect, contains_iter, E by
    (done || by apply real_wf || by apply bounds_wf). done.
Qed.
End canonical_properties.

Lemma canonicalize_keeps_members_witness :
  let x := Full (mkFull 0 [1; 0] None None None LMax None None) in
  let t := Full (mkFull 0 [1; 0] None None None local_empty None None) in
  let v := Full (mkFull 0 [1; 0] None (Some 0) (Some 0) local_empty None None) in
  exists o, canonicalize_version_ranges [(Unbounded, Excluded t); (Included x, Unbounded)] = Ret o /\
    forall r, o = Some r -> segments_contain r v =
      segments_contain [(Unbounded, Excluded t); (Included x, Unbounded)] v.
Proof.
  cbv zeta. apply canonicalize_keeps_members; [|reflexivity].
  constructor; [split; [exact I|by apply BoundReal]|]. constructor; [split; [|exact I]|constructor].
  apply BoundSentinel. by apply (SentinelLocal _ (Full (mkFull 0 [1; 0] None None None local_empty None None))).
Defined.

(** [LowerBound] and [UpperBound] are totally ordered, and the order is
    inclusion: a smaller lower bound admits every version a greater one admits,
    a greater upper bound every version a smaller one admits. *)
Theorem bounds_ordered_by_inclusion a b c v : bound_wf a = true -> bound_wf b = true -> bound_wf c = true ->
  wf v = true ->
  lower_bound_cmp a b = CompOpp (lower_bound_cmp b a) /\
  upper_bound_cmp a b = CompOpp (upper_bound_cmp b a) /\
  (lower_bound_cmp a b <> Gt -> lower_bound_cmp b c <> Gt -> lower_bound_cmp a c <> Gt) /\
  (upper_bound_cmp a b <> Gt -> upper_bound_cmp b c <> Gt -> upper_bound_cmp a c <> Gt) /\
  (lower_bound_cmp a b <> Gt -> lower_bound_contains b v = true -> lower_bound_contains a v = true) /\
  (upper_bound_cmp a b <> Gt -> upper_bound_contains a v = true -> upper_bound_contains b v = true).
Proof.
  intros Ha Hb Hc Hv. rewrite !lower_bound_cmp_key, !upper_bound_cmp_key, !lower_bound_contains_key, !upper_bound_contains_key by done.
  assert (L : OrdLaws (option_cmp side_cmp)) by apply _.
  assert (U : OrdLaws (pair_cmp Z.compare (option_cmp side_cmp))) by apply _.
  split; [apply (ord_sym _)|]. split; [apply (ord_sym _)|]. split; [apply (ord_le_trans _)|].
  split; [apply (ord_le_trans _)|]. split; intros Hab Hbv.
  - set (c' := option_cmp side_cmp) in *. set (kv := Some (key v, 0)) in *.
    assert (Hbv' : c' (lower_key b) kv <> Gt) by (by destruct (c' (lower_key b) kv)).
    pose proof (ord_le_trans c' _ _ _ Hab Hbv') as Hav. by destruct (c' (lower_key a) kv).
  - set (c' := pair_cmp Z.compare (option_cmp side_cmp)) in *. set (kv := (0, Some (key v, 1))) in *.
    assert (Hva : c' kv (upper_key a) <> Gt) by (apply (ord_le_ge c'); by destruct (c' (upper_key a) kv)).
    pose proof (ord_le_trans c' _ _ _ Hva Hab) as Hvb. apply (ord_le_ge c') in Hvb. by destruct (c' (upper_key b) kv).
Qed.

Lemma bounds_ordered_by_inclusion_witness :
  let a := Included (Full (mkFull 0 [3; 8] None None None local_empty None None)) in
  let b := Excluded (Full (mkFull 0 [3; 8; 0] None None None local_empty None None)) in
  lower_bound_cmp a b = CompOpp (lower_bound_cmp b a) /\
  upper_bound_cmp a b = CompOpp (upper_bound_cmp b a).
Proof.
  cbv zeta. set (a := Included _). set (b := Excluded _).
  destruct (bounds_ordered_by_inclusion a b Unbounded (Full (mkFull 0 [3; 9] None None None local_empty None None)))
    as (H1 & H2 & _); [reflexivity..|]. by split.
Defined.
