(* ===== verification/Normalize.v ===== *)
(** * Names: validation and normalisation

    Models [crates/uv-normalize]: [normalize], [is_normalized] and
    [validate_and_normalize_ref] of [lib.rs] (behind [PackageName], [ExtraName]
    and [GroupName]), [DistInfoName], [PackageName::as_dist_info_name] and
    [PipGroupName].

    A string is the list of its characters; the code reads its bytes
    ([utf8]).  The theorems: validating is normalising, which is the name
    normalisation of the packaging specification; normalised names are fixed
    points; the escaped form of a name normalises back; [DistInfoName] agrees on
    valid names (and garbles names that are not ASCII); [PipGroupName] round
    trips. *)

From Stdlib Require Import ZArith Lia String.
From stdpp Require Import base list.
From S2P Require Import Prelude.
Open Scope Z_scope.

Definition is_punct (c : Z) : bool := (c =? 45) || (c =? 95) || (c =? 46).

(** ** Validation *)

(** The loop of [normalize]: [None] is an invalid name. *)
Fixpoint normalize_loop (bytes : list Z) (last : option Z) (normalized : list Z) : option (list Z) :=
  match bytes with
  | [] =>
      match last with
      | Some c => if is_punct c then None else Some normalized
      | None => Some normalized
      end
  | char :: rest =>
      if is_ascii_upper char then
        normalize_loop rest (Some char) (normalized ++ [to_ascii_lowercase char])
      else if is_ascii_lower char || is_ascii_digit char then
        normalize_loop rest (Some char) (normalized ++ [char])
      else if is_punct char then
        match last with
        | None => None
        | Some c =>
            if is_punct c then normalize_loop rest (Some char) normalized
            else normalize_loop rest (Some char) (normalized ++ [45])
        end
      else None
  end.

(** [InvalidNameError(name)] is the name. *)
Definition normalize (name : list Z) : result (list Z) (list Z) :=
  match name with
  | [] => Err name
  | _ =>
      match normalize_loop (utf8 name) None [] with
      | Some normalized => Ok normalized
      | None => Err name
      end
  end.

Inductive normalized_answer := AnswerOk (b : bool) | AnswerErr.

Fixpoint is_normalized_loop (bytes : list Z) (last : option Z) : normalized_answer :=
  match bytes with
  | [] =>
      match last with
      | Some c => if is_punct c then AnswerErr else AnswerOk true
      | None => AnswerOk true
      end
  | char :: rest =>
      if is_ascii_upper char then AnswerOk false
      else if is_ascii_lower char || is_ascii_digit char then is_normalized_loop rest (Some char)
      else if (char =? 95) || (char =? 46) then AnswerOk false
      else if char =? 45 then
        match last with
        | None => AnswerErr
        | Some c => if c =? 45 then AnswerOk false else is_normalized_loop rest (Some char)
        end
      else AnswerErr
  end.

Definition is_normalized (name : list Z) : result bool (list Z) :=
  match name with
  | [] => Err name
  | _ => match is_normalized_loop (utf8 name) None with AnswerOk b => Ok b | AnswerErr => Err name end
  end.

Definition validate_and_normalize_ref (name : list Z) : result (list Z) (list Z) :=
  match is_normalized name with
  | Err e => Err e
  | Ok true => Ok name
  | Ok false => normalize name
  end.

(** ** [PackageName::as_dist_info_name] *)

Fixpoint find_char (c : Z) (s : list Z) : option nat :=
  match s with
  | [] => None
  | x :: s' => if x =? c then Some O else option_map S (find_char c s')
  end.

Definition as_dist_info_name (name : list Z) : list Z :=
  match find_char 45 name with
  | Some dash_position =>
      take dash_position name ++ [95]
      ++ map (fun c => if c =? 45 then 95 else c) (drop (dash_position + 1) name)
  | None => name
  end.

(** ** [DistInfoName] *)

(** [char as char] turns a byte into the character of that code. *)
Fixpoint dist_info_normalize_loop (bytes : list Z) (last : option Z) (normalized : list Z) : list Z :=
  match bytes with
  | [] => normalized
  | char :: rest =>
      if is_ascii_upper char then
        dist_info_normalize_loop rest (Some char) (normalized ++ [to_ascii_lowercase char])
      else if is_punct char then
        if match last with Some c => is_punct c | None => false end
        then dist_info_normalize_loop rest last normalized
        else dist_info_normalize_loop rest (Some char) (normalized ++ [45])
      else dist_info_normalize_loop rest (Some char) (normalized ++ [char])
  end.

Definition dist_info_normalize (name : list Z) : list Z := dist_info_normalize_loop (utf8 name) None [].

Fixpoint dist_info_is_normalized_loop (bytes : list Z) (last : option Z) : bool :=
  match bytes with
  | [] => true
  | char :: rest =>
      if is_ascii_upper char then false
      else if (char =? 95) || (char =? 46) then false
      else if char =? 45 then
        if match last with Some c => c =? 45 | None => false end then false
        else dist_info_is_normalized_loop rest (Some char)
      else dist_info_is_normalized_loop rest (Some char)
  end.

Definition dist_info_is_normalized (name : list Z) : bool := dist_info_is_normalized_loop (utf8 name) None.

(** [DistInfoName::new] *)
Definition dist_info_name_new (name : list Z) : list Z :=
  if dist_info_is_normalized name then name else dist_info_normalize name.

(** ** [PipGroupName] *)

Record PipGroupName := mkPipGroup { pip_path : option (list Z); pip_name : list Z }.

Inductive InvalidPipGroupError :=
| PipGroupNameError (name : list Z)
| PipGroupPathError (path : list Z).

(** [str::rsplit_once] *)
Fixpoint rsplit_once (sep : Z) (s : list Z) : option (list Z * list Z) :=
  match s with
  | [] => None
  | c :: s' =>
      match rsplit_once sep s' with
      | Some (a, b) => Some (c :: a, b)
      | None => if c =? sep then Some ([], s') else None
      end
  end.

Definition ends_with (suffix s : list Z) : bool :=
  bytes_eqb (drop (length s - length suffix) s) suffix && Nat.leb (length suffix) (length s).

Definition pip_group_from_str (path_and_name : list Z) : result PipGroupName InvalidPipGroupError :=
  match rsplit_once 58 path_and_name with
  | Some (path, name) =>
      if negb (ends_with (bs "pyproject.toml") path) then Err (PipGroupPathError path)
      else
        match validate_and_normalize_ref name with
        | Err e => Err (PipGroupNameError e)
        | Ok name => Ok (mkPipGroup (Some path) name)
        end
  | None =>
      match validate_and_normalize_ref path_and_name with
      | Err e => Err (PipGroupNameError e)
      | Ok name => Ok (mkPipGroup None name)
      end
  end.

Definition pip_group_display (g : PipGroupName) : list Z :=
  match pip_path g with Some path => path ++ bs ":" ++ pip_name g | None => pip_name g end.

(** ** The specification of name normalisation

    A valid name matches [[A-Z0-9]([A-Z0-9._-]*[A-Z0-9])?] without regard to
    case; its normal form is lower-case, with every run of [-_.] replaced by one
    [-]. *)

Definition name_byte (c : Z) : bool := is_ascii_alphanumeric c || is_punct c.

(** The last element of [c :: l]. *)
Fixpoint last_of (c : Z) (l : list Z) : Z :=
  match l with [] => c | x :: l' => last_of x l' end.

Definition valid_name (l : list Z) : bool :=
  match l with
  | [] => false
  | c :: l' => forallb name_byte l && negb (is_punct c) && negb (is_punct (last_of c l'))
  end.

(** Keep the last byte of every run of punctuation, as a dash. *)
Fixpoint collapse (l : list Z) : list Z :=
  match l with
  | [] => []
  | c :: l' =>
      if is_punct c then
        match l' with
        | d :: _ => if is_punct d then collapse l' else 45 :: collapse l'
        | [] => [45]
        end
      else to_ascii_lowercase c :: collapse l'
  end.

(** ** Lemmas *)

(** [collapse] with the position in a run made explicit. *)
Fixpoint collapse_run (in_run : bool) (l : list Z) : list Z :=
  match l with
  | [] => []
  | c :: l' =>
      if is_punct c then (if in_run then [] else [45]) ++ collapse_run true l'
      else to_ascii_lowercase c :: collapse_run false l'
  end.

Lemma collapse_run_eq l : collapse_run false l = collapse l /\
  forall c, is_punct c = true -> 45 :: collapse_run true l = collapse (c :: l).
Proof.
  induction l as [|x l [IH1 IH2]]; [split; [done|]; intros c Hc; cbn; by rewrite Hc|]. split.
  - cbn [collapse_run]. destruct (is_punct x) eqn:E; [by apply IH2|]. cbn [collapse]. by rewrite E, IH1.
  - intros c Hc. cbn [collapse_run collapse]. rewrite Hc. destruct (is_punct x) eqn:E; cbn [app]; [|by rewrite IH1].
    rewrite (IH2 x E). cbn [collapse]. by rewrite E.
Qed.

Lemma class_split c : name_byte c = is_ascii_upper c || (is_ascii_lower c || is_ascii_digit c) || is_punct c.
Proof.
  unfold name_byte, is_ascii_alphanumeric. by destruct (is_ascii_upper c), (is_ascii_lower c), (is_ascii_digit c).
Qed.

Lemma alnum_not_punct c : is_ascii_upper c || (is_ascii_lower c || is_ascii_digit c) = true -> is_punct c = false.
Proof. unfold is_ascii_upper, is_ascii_lower, is_ascii_digit, is_punct. lia. Qed.

Lemma lower_lower c : is_ascii_lower c || is_ascii_digit c = true -> to_ascii_lowercase c = c.
Proof.
  unfold to_ascii_lowercase, is_ascii_upper, is_ascii_lower, is_ascii_digit.
  destruct ((65 <=? c) && (c <=? 90)) eqn:E; lia.
Qed.

Lemma normalize_loop_spec l c acc :
  normalize_loop l (Some c) acc =
  if forallb name_byte l && negb (is_punct (last_of c l))
  then Some (acc ++ collapse_run (is_punct c) l) else None.
Proof.
  revert c acc. induction l as [|x l IH]; intros c acc; cbn [normalize_loop forallb last_of collapse_run].
  - rewrite app_nil_r. by destruct (is_punct c).
  - rewrite class_split. destruct (is_ascii_upper x) eqn:Eu; cbn [orb andb].
    + rewrite IH, (alnum_not_punct x) by (by rewrite Eu). by rewrite <- app_assoc.
    + destruct (is_ascii_lower x || is_ascii_digit x) eqn:El; cbn [orb andb].
      * rewrite IH, (alnum_not_punct x), (lower_lower x El) by (by rewrite El, orb_true_r). by rewrite <- app_assoc.
      * destruct (is_punct x) eqn:Ep; cbn [andb]; [|done]. destruct (is_punct c); rewrite IH, Ep; [done|].
        by rewrite <- app_assoc.
Qed.

(** Names without a byte outside ASCII are their own encoding. *)
Lemma name_byte_ascii c : name_byte c = true -> 0 <= c < 128.
Proof.
  unfold name_byte, is_ascii_alphanumeric, is_ascii_digit, is_ascii_upper, is_ascii_lower, is_punct. lia.
Qed.

Lemma utf8_head c : exists b r, utf8_char c = b :: r.
Proof. unfold utf8_char. repeat destruct (_ <? _); by eexists _, _. Qed.

Lemma normalize_spec name :
  normalize name = if valid_name (utf8 name) then Ok (collapse (utf8 name)) else Err name.
Proof.
  unfold normalize. destruct name as [|c name]; [done|]. set (full := c :: name).
  assert (Hne : exists b l, utf8 full = b :: l).
  { cbn. destruct (utf8_head c) as (b & r & ->). by eexists _, _. }
  destruct Hne as (b & l & ->). cbn [normalize_loop valid_name forallb]. rewrite class_split.
  destruct (collapse_run_eq l) as [C1 C2].
  destruct (is_ascii_upper b) eqn:Eu; cbn [orb andb].
  - rewrite normalize_loop_spec, (alnum_not_punct b) by (by rewrite Eu). cbn [negb]. rewrite andb_true_r.
    cbn [collapse app]. rewrite (alnum_not_punct b), C1 by (by rewrite Eu). by destruct (_ && _).
  - destruct (is_ascii_lower b || is_ascii_digit b) eqn:El; cbn [orb andb].
    + rewrite normalize_loop_spec, (alnum_not_punct b) by (by rewrite El, orb_true_r). cbn [negb]. rewrite andb_true_r.
      cbn [collapse app]. rewrite (alnum_not_punct b), (lower_lower b El), C1 by (by rewrite El, orb_true_r).
      by destruct (_ && _).
    + destruct (is_punct b); cbn [andb negb]; [by rewrite andb_false_r|done].
Qed.

(** What the answer of [is_normalized] says about [normalize]. *)
Lemma is_normalized_loop_spec l c : is_punct c = (c =? 45) ->
  (is_normalized_loop l (Some c) = AnswerOk true -> forall acc, normalize_loop l (Some c) acc = Some (acc ++ l)) /\
  (is_normalized_loop l (Some c) = AnswerErr -> forall acc, normalize_loop l (Some c) acc = None).
Proof.
  revert c. induction l as [|x l IH]; intros c Hc; cbn [is_normalized_loop normalize_loop].
  - rewrite Hc. destruct (c =? 45); split; intros; try done. by rewrite app_nil_r.
  - destruct (is_ascii_upper x) eqn:Eu; [done|]. destruct (is_ascii_lower x || is_ascii_digit x) eqn:El.
    + destruct (IH x) as [H1 H2]; [unfold is_punct, is_ascii_lower, is_ascii_digit in *; lia|].
      split; intros E acc; [rewrite H1 by done; by rewrite <- app_assoc|by apply H2].
    + destruct ((x =? 95) || (x =? 46)) eqn:Ep; [done|]. destruct (Z.eqb_spec x 45) as [->|Hx].
      * change (is_punct 45) with true. rewrite Hc. destruct (c =? 45); [done|].
        destruct (IH 45) as [H1 H2]; [done|].
        split; intros E acc; [rewrite H1 by done; by rewrite <- app_assoc|by apply H2].
      * assert (is_punct x = false) as -> by (unfold is_punct; lia). done.
Qed.

Lemma valid_name_ascii name : valid_name (utf8 name) = true -> utf8 name = name.
Proof.
  intros H. apply utf8_ascii_inv. destruct (utf8 name) as [|b l]; [done|]. cbn [valid_name] in H.
  apply andb_prop in H as [[H _]%andb_prop _]. apply Forall_forall. intros x Hx%list_elem_of_In.
  rewrite forallb_forall in H. pose proof (name_byte_ascii x (H x Hx)). lia.
Qed.

(** The check is an optimisation only. *)
Lemma validate_is_normalize name : validate_and_normalize_ref name = normalize name.
Proof.
  unfold validate_and_normalize_ref, is_normalized. pose proof (normalize_spec name) as N.
  destruct name as [|c name]; [done|]. unfold normalize in *. set (full := c :: name) in *.
  destruct (utf8 full) as [|b l] eqn:Eu; [cbn in Eu; destruct (utf8_head c) as (b & r & E); by rewrite E in Eu|].
  assert (A : (is_normalized_loop (b :: l) None = AnswerOk true -> normalize_loop (b :: l) None [] = Some (b :: l)) /\
    (is_normalized_loop (b :: l) None = AnswerErr -> normalize_loop (b :: l) None [] = None)).
  { cbn [is_normalized_loop normalize_loop]. destruct (is_ascii_upper b) eqn:E1; [done|].
    destruct (is_ascii_lower b || is_ascii_digit b) eqn:E2.
    - destruct (is_normalized_loop_spec l b) as [H1 H2]; [unfold is_punct, is_ascii_lower, is_ascii_digit in *; lia|].
      split; intros E; [by rewrite H1|by apply H2].
    - destruct ((b =? 95) || (b =? 46)) eqn:E3; [done|]. destruct (Z.eqb_spec b 45) as [->|Hb]; [done|].
      assert (is_punct b = false) as -> by (unfold is_punct; lia). done. }
  destruct A as [A1 A2]. destruct (is_normalized_loop (b :: l) None) as [[]|]; [|done|by rewrite A2].
  rewrite A1 in * by done. destruct (valid_name (b :: l)) eqn:Ev; [|done]. f_equal.
  rewrite <- Eu in *. symmetry. by apply valid_name_ascii.
Qed.

(** ** Normal forms *)

(** Lower-case letters and digits, separated by single dashes: [prev] says that
    a dash may not come next. *)
Fixpoint normal_run (prev : bool) (l : list Z) : bool :=
  match l with
  | [] => negb prev
  | c :: l' =>
      if c =? 45 then negb prev && normal_run true l'
      else (is_ascii_lower c || is_ascii_digit c) && normal_run false l'
  end.

Definition normal_name (l : list Z) : bool := normal_run true l.

Lemma lowercase_class c : name_byte c = true -> is_punct c = false ->
  is_ascii_lower (to_ascii_lowercase c) || is_ascii_digit (to_ascii_lowercase c) = true /\
  (to_ascii_lowercase c =? 45) = false.
Proof.
  unfold name_byte, is_ascii_alphanumeric, to_ascii_lowercase, is_ascii_upper, is_ascii_lower, is_ascii_digit, is_punct.
  destruct ((65 <=? c) && (c <=? 90)) eqn:E; lia.
Qed.

Lemma collapse_run_normal l c : forallb name_byte l = true -> is_punct (last_of c l) = false ->
  normal_run (is_punct c) (collapse_run (is_punct c) l) = true.
Proof.
  revert c. induction l as [|x l IH]; intros c Hl Hlast; cbn [collapse_run forallb last_of] in *.
  - cbn. by rewrite Hlast.
  - apply andb_prop in Hl as [Hx Hl]. specialize (IH x Hl Hlast). destruct (is_punct x) eqn:E.
    + destruct (is_punct c); cbn [app]; [done|]. cbn [normal_run Z.eqb Pos.eqb negb andb]. done.
    + cbn [normal_run]. destruct (lowercase_class x Hx E) as [-> ->]. done.
Qed.

Lemma valid_collapse_normal l : valid_name l = true -> normal_name (collapse l) = true.
Proof.
  destruct l as [|c l]; [done|]. cbn [valid_name forallb].
  intros [[[Hc Hl]%andb_prop Hp%negb_true_iff]%andb_prop Hlast%negb_true_iff]%andb_prop. cbn [collapse]. rewrite Hp.
  unfold normal_name. cbn [normal_run]. destruct (lowercase_class c Hc Hp) as [-> ->]. cbn [andb].
  rewrite <- (proj1 (collapse_run_eq l)). pose proof (collapse_run_normal l c Hl Hlast) as N. by rewrite Hp in N.
Qed.

Lemma normal_class c : is_ascii_lower c || is_ascii_digit c = true ->
  name_byte c = true /\ is_punct c = false /\ to_ascii_lowercase c = c.
Proof.
  intros H. rewrite class_split. split; [by rewrite H, orb_true_r|]. split; [|by apply lower_lower].
  apply alnum_not_punct. by rewrite H, orb_true_r.
Qed.

Lemma normal_run_spec l c : normal_run (is_punct c) l = true ->
  forallb name_byte l = true /\ is_punct (last_of c l) = false /\ collapse_run (is_punct c) l = l.
Proof.
  revert c. induction l as [|x l IH]; intros c H; cbn [normal_run forallb last_of collapse_run] in *.
  - split; [done|]. split; [by destruct (is_punct c)|done].
  - destruct (Z.eqb_spec x 45) as [->|Hx].
    + apply andb_prop in H as [Hc%negb_true_iff H]. destruct (IH 45 H) as (H1 & H2 & H3). rewrite Hc.
      change (is_punct 45) with true in *. by rewrite H1, H2, H3.
    + apply andb_prop in H as [Hx' H]. destruct (normal_class x Hx') as (N1 & N2 & N3). rewrite N1, N2, N3.
      specialize (IH x). rewrite N2 in IH. destruct (IH H) as (H1 & H2 & H3). by rewrite H1, H2, H3.
Qed.

(** A normal name is valid and its own normal form. *)
Lemma normal_valid l : normal_name l = true -> valid_name l = true /\ collapse l = l /\ utf8 l = l.
Proof.
  intros H. assert (G : valid_name l = true /\ collapse l = l).
  { unfold normal_name in H. destruct l as [|c l]; [done|]. cbn [normal_run] in H. destruct (c =? 45); [done|].
    apply andb_prop in H as [Hc H]. destruct (normal_class c Hc) as (N1 & N2 & N3).
    pose proof (normal_run_spec l c) as S. rewrite N2 in S. destruct (S H) as (S1 & S2 & S3).
    cbn [valid_name forallb collapse]. rewrite N1, N2, N3, S1, S2, <- (proj1 (collapse_run_eq l)), S3. done. }
  destruct G as [G1 G2]. split; [done|]. split; [done|]. apply utf8_ascii. destruct l as [|c l]; [done|].
  cbn [valid_name] in G1. apply andb_prop in G1 as [[G1 _]%andb_prop _]. apply Forall_forall.
  intros x Hx%list_elem_of_In. rewrite forallb_forall in G1. by apply name_byte_ascii, G1.
Qed.

Lemma normal_run_chars prev l : normal_run prev l = true ->
  Forall (fun c => is_ascii_lower c || is_ascii_digit c || (c =? 45) = true) l.
Proof.
  revert prev. induction l as [|c l IH]; intros prev; [constructor|]. cbn [normal_run].
  destruct (c =? 45) eqn:E; intros [Hx Hy]%andb_prop; constructor; [by rewrite E, orb_true_r|by eapply IH|by rewrite Hx|by eapply IH].
Qed.

Lemma normal_ascii n : normal_name n = true -> Forall (fun c => 0 <= c < 128) n.
Proof.
  intros H%normal_run_chars. eapply Forall_impl; [exact H|]. intros c. unfold is_ascii_lower, is_ascii_digit. cbn. lia.
Qed.

Lemma validate_normal n : normal_name n = true -> validate_and_normalize_ref n = Ok n.
Proof.
  intros H. destruct (normal_valid n H) as (V & C & U). rewrite validate_is_normalize, normalize_spec, U, V, C. done.
Qed.

Lemma validate_ok name n : validate_and_normalize_ref name = Ok n ->
  valid_name name = true /\ utf8 name = name /\ n = collapse name /\ normal_name n = true.
Proof.
  rewrite validate_is_normalize, normalize_spec. destruct (valid_name (utf8 name)) eqn:V; [|done]. intros [= <-].
  pose proof (valid_name_ascii name V) as U. rewrite U in *. split; [done|]. split; [done|]. split; [done|].
  by apply valid_collapse_normal.
Qed.

(** ** Escaped names *)

Definition swap_dash (c : Z) : Z := if c =? 45 then 95 else c.

Lemma as_dist_info_name_map name : as_dist_info_name name = map swap_dash name.
Proof.
  unfold as_dist_info_name. induction name as [|c name IH]; [done|]. cbn [find_char map]. unfold swap_dash at 1.
  destruct (Z.eqb_spec c 45) as [->|Hc]; [done|]. destruct (find_char 45 name) as [i|]; cbn [option_map];
    [cbn [take app Nat.add drop]; by rewrite <- IH|by rewrite <- IH].
Qed.

(** Characters that are spelled differently but mean the same in a name. *)
Definition respells (f : Z -> Z) : Prop :=
  forall c, is_punct (f c) = is_punct c /\ name_byte (f c) = name_byte c /\
    (is_punct c = false -> to_ascii_lowercase (f c) = to_ascii_lowercase c).

Lemma respell_collapse f l : respells f -> collapse (map f l) = collapse l.
Proof.
  intros Hf. induction l as [|c l IH]; [done|]. cbn [map collapse]. destruct (Hf c) as (E1 & _ & E3). rewrite E1.
  destruct (is_punct c) eqn:Ep; [|by rewrite IH, E3]. destruct l as [|d l]; [done|]. cbn [map].
  destruct (Hf d) as (-> & _). by destruct (is_punct d); rewrite <- IH.
Qed.

Lemma respell_valid f l : respells f -> valid_name (map f l) = valid_name l.
Proof.
  intros Hf. assert (L : forall k c, is_punct (last_of (f c) (map f k)) = is_punct (last_of c k)).
  { intros k. induction k as [|x k IH]; intros c; cbn [map last_of]; [apply Hf|apply IH]. }
  assert (F : forall k, forallb name_byte (map f k) = forallb name_byte k).
  { intros k. induction k as [|x k IH]; cbn [map forallb]; [done|]. by rewrite IH, (proj1 (proj2 (Hf x))). }
  destruct l as [|c l]; [done|]. cbn [map valid_name]. rewrite <- map_cons, F, L. by rewrite (proj1 (Hf c)).
Qed.

Lemma swap_dash_respells : respells swap_dash.
Proof. intros c. unfold swap_dash. destruct (Z.eqb_spec c 45) as [->|Hc]; [|done]. by repeat split. Qed.

Lemma swap_collapse l : collapse (map swap_dash l) = collapse l.
Proof. apply respell_collapse, swap_dash_respells. Qed.

Lemma swap_valid l : valid_name (map swap_dash l) = valid_name l.
Proof. apply respell_valid, swap_dash_respells. Qed.

Lemma validate_dist_info n : normal_name n = true -> validate_and_normalize_ref (as_dist_info_name n) = Ok n.
Proof.
  intros N. destruct (normal_valid _ N) as (V' & C' & U'). rewrite as_dist_info_name_map, validate_is_normalize, normalize_spec.
  assert (Us : utf8 (map swap_dash n) = map swap_dash n).
  { apply utf8_ascii. rewrite <- (swap_valid n) in V'. destruct (map swap_dash n) as [|c l]; [done|].
    cbn [valid_name] in V'. apply andb_prop in V' as [[V' _]%andb_prop _]. apply Forall_forall.
    intros x Hx%list_elem_of_In. rewrite forallb_forall in V'. by apply name_byte_ascii, V'. }
  by rewrite Us, swap_valid, V', swap_collapse, C'.
Qed.

(** ** [DistInfoName] on valid names *)

Lemma dist_info_loop_spec l last acc : forallb name_byte l = true ->
  dist_info_normalize_loop l last acc =
  acc ++ collapse_run (match last with Some c => is_punct c | None => false end) l.
Proof.
  revert last acc. induction l as [|x l IH]; intros last acc Hl; cbn [dist_info_normalize_loop forallb collapse_run] in *.
  - by rewrite app_nil_r.
  - apply andb_prop in Hl as [Hx Hl]. rewrite class_split in Hx. destruct (is_ascii_upper x) eqn:Eu.
    + rewrite IH, (alnum_not_punct x) by (done || by rewrite Eu). by rewrite <- app_assoc.
    + cbn [orb] in Hx. destruct (is_punct x) eqn:Ep.
      * destruct (match last with Some c => is_punct c | None => false end) eqn:El; rewrite IH by done.
        -- by rewrite El.
        -- rewrite Ep. by rewrite <- app_assoc.
      * rewrite orb_false_r in Hx. rewrite IH, Ep, (lower_lower x Hx) by done. by rewrite <- app_assoc.
Qed.

Lemma dist_info_is_normalized_spec l last : forallb name_byte l = true ->
  match last with Some c => is_punct c = (c =? 45) | None => True end ->
  dist_info_is_normalized_loop l last = true ->
  collapse_run (match last with Some c => is_punct c | None => false end) l = l.
Proof.
  revert last. induction l as [|x l IH]; intros last Hl Hlast; cbn [dist_info_is_normalized_loop forallb collapse_run] in *; [done|].
  apply andb_prop in Hl as [Hx Hl]. rewrite class_split in Hx. destruct (is_ascii_upper x) eqn:Eu; [done|]. cbn [orb] in Hx.
  destruct ((x =? 95) || (x =? 46)) eqn:Ep; [done|]. destruct (Z.eqb_spec x 45) as [->|Hx'].
  - change (is_punct 45) with true. destruct last as [c|]; [rewrite Hlast; destruct (c =? 45); [done|]|];
      intros E; cbn [app]; f_equal; by apply (IH (Some 45)).
  - assert (is_punct x = false) as E by (unfold is_punct; lia). rewrite E, orb_false_r in *. intros En.
    rewrite (lower_lower x Hx). f_equal. specialize (IH (Some x) Hl). cbn beta iota in IH. rewrite E in IH.
    apply IH; [symmetry; by apply Z.eqb_neq|done].
Qed.

Lemma dist_info_valid name : valid_name name = true -> utf8 name = name -> dist_info_name_new name = collapse name.
Proof.
  intros V U. assert (Hb : forallb name_byte name = true).
  { destruct name as [|c name]; [done|]. cbn [valid_name] in V. by apply andb_prop in V as [[? _]%andb_prop _]. }
  unfold dist_info_name_new, dist_info_is_normalized, dist_info_normalize. rewrite U, <- (proj1 (collapse_run_eq name)).
  destruct (dist_info_is_normalized_loop name None) eqn:E.
  - symmetry. by apply (dist_info_is_normalized_spec name None).
  - by rewrite dist_info_loop_spec.
Qed.

(** ** [PipGroupName] *)

Lemma rsplit_once_app sep a b : Forall (fun c => c <> sep) b -> rsplit_once sep (a ++ sep :: b) = Some (a, b).
Proof.
  intros Hb. assert (N : rsplit_once sep b = None).
  { induction Hb as [|c b Hc Hb IH]; [done|]. cbn. rewrite IH. by destruct (Z.eqb_spec c sep). }
  induction a as [|c a IH]; cbn [app rsplit_once]; [by rewrite N, Z.eqb_refl|]. by rewrite IH.
Qed.

Lemma rsplit_once_none sep b : Forall (fun c => c <> sep) b -> rsplit_once sep b = None.
Proof. induction 1 as [|c b Hc Hb IH]; [done|]. cbn. rewrite IH. by destruct (Z.eqb_spec c sep). Qed.

Lemma normal_no_colon n : normal_name n = true -> Forall (fun c => c <> 58) n.
Proof.
  intros H. destruct (normal_valid n H) as (V & _ & _). destruct n as [|c n]; [done|]. cbn [valid_name] in V.
  apply andb_prop in V as [[V _]%andb_prop _]. apply Forall_forall. intros x Hx%list_elem_of_In ->.
  rewrite forallb_forall in V. by specialize (V 58 Hx).
Qed.

(** ** Properties of names *)

(** Validating a name is normalising it, and both are the normalisation of
    the packaging specification: a name is accepted exactly when it is not empty,
    consists of ASCII letters, digits, [-], [_] and [.], and starts and ends
    with a letter or digit; the result is its lower-case form with every run of
    punctuation collapsed to one dash; otherwise the error carries the name. *)
Theorem validate_is_pep503 name :
  validate_and_normalize_ref name =
  (if valid_name (utf8 name) then Ok (collapse (utf8 name)) else Err name) /\
  validate_and_normalize_ref name = normalize name.
Proof. split; [by rewrite validate_is_normalize, normalize_spec|apply validate_is_normalize]. Qed.

(** Normalised names are stable: the result of a validation is in normal form,
    validates to itself, and its [.dist-info] spelling (underscores for dashes)
    validates back to it. *)
Theorem normalized_names_stable name n : validate_and_normalize_ref name = Ok n ->
  normal_name n = true /\ validate_and_normalize_ref n = Ok n /\
  validate_and_normalize_ref (as_dist_info_name n) = Ok n.
Proof.
  intros (V & U & -> & N)%validate_ok. split; [done|]. split; [by apply validate_normal|by apply validate_dist_info].
Qed.

Lemma normalized_names_stable_witness :
  normal_name (bs "friendly-bard") = true /\ validate_and_normalize_ref (bs "friendly-bard") = Ok (bs "friendly-bard") /\
  validate_and_normalize_ref (as_dist_info_name (bs "friendly-bard")) = Ok (bs "friendly-bard").
Proof. apply (normalized_names_stable (bs "FrIeNdLy-._.-bArD")). vm_compute. reflexivity. Defined.

(** On valid package names the name of a [.dist-info] directory normalises to
    the package name. *)
Theorem dist_info_name_agrees name n : validate_and_normalize_ref name = Ok n -> dist_info_name_new name = n.
Proof. intros (V & U & -> & _)%validate_ok. by apply dist_info_valid. Qed.

Lemma dist_info_name_agrees_witness : dist_info_name_new (bs "Friendly_.Bard") = bs "friendly-bard".
Proof. apply dist_info_name_agrees. vm_compute. reflexivity. Defined.

(** Outside ASCII, [DistInfoName] pushes every byte as a character of its
    own: the directory name [é_a] (U+00E9) becomes [Ã©-a], while the equivalent
    [é-a] is returned as it is, so the two spellings do not compare equal. *)
Theorem dist_info_name_garbles :
  dist_info_name_new [233; 95; 97] = [195; 169; 45; 97] /\ dist_info_name_new [233; 45; 97] = [233; 45; 97].
Proof. by split. Qed.

(** Printing a parsed [PipGroupName] and parsing it again gives it back, even
    when the path contains colons. *)
Theorem pip_group_roundtrip s g : pip_group_from_str s = Ok g -> pip_group_from_str (pip_group_display g) = Ok g.
Proof.
  unfold pip_group_from_str at 1. destruct (rsplit_once 58 s) as [[path name]|].
  - destruct (ends_with (bs "pyproject.toml") path) eqn:Ee; [|done]. cbn [negb].
    destruct (validate_and_normalize_ref name) as [n|] eqn:E; [|done]. intros [= <-]. apply validate_ok in E as (_ & _ & _ & N).
    unfold pip_group_display, pip_group_from_str. cbn [pip_path pip_name]. change (bs ":" ++ n) with (58 :: n).
    by rewrite rsplit_once_app, Ee, validate_normal by (done || by apply normal_no_colon).
  - destruct (validate_and_normalize_ref s) as [n|] eqn:E; [|done]. intros [= <-]. apply validate_ok in E as (_ & _ & _ & N).
    unfold pip_group_display, pip_group_from_str. cbn [pip_path pip_name].
    by rewrite rsplit_once_none, validate_normal by (done || by apply normal_no_colon).
Qed.

Lemma pip_group_roundtrip_witness :
  pip_group_from_str (pip_group_display (mkPipGroup (Some (bs "c:/x/pyproject.toml")) (bs "dev"))) =
  Ok (mkPipGroup (Some (bs "c:/x/pyproject.toml")) (bs "dev")).
Proof. apply (pip_group_roundtrip (bs "c:/x/pyproject.toml:DEV")). vm_compute. reflexivity. Defined.
