(* ===== verification/Cursor.v ===== *)
(** * The cursor of the PEP 508 parsers

    Models [crates/uv-pep508/src/cursor.rs] and the error type of the crate
    ([Pep508Error] of lib.rs), with the underlining of its [Display].

    A cursor reads the characters of a text and counts bytes; slices of the text
    are taken at byte offsets and panic off a character boundary.  [at_rest c rest]
    says that a cursor stands before [rest]: its offset is the number of bytes
    read.  Every operation keeps it, so no slice panics. *)

From Stdlib Require Import ZArith Lia String.
From stdpp Require Import base list.
From S2P Require Import Prelude.
Open Scope Z_scope.

(** ** [Pep508Error] (lib.rs) *)

(** [Pep508ErrorSource]: an error of the parser, an error of the URL type, by its
    text, or a requirement that is not supported. *)
Inductive Pep508ErrorSource :=
| SourceString (message : list Z)
| UrlError (err : list Z)
| UnsupportedRequirement (message : list Z).

(** All three are displayed as their text. *)
Definition error_source_display (e : Pep508ErrorSource) : list Z :=
  match e with SourceString text | UrlError text | UnsupportedRequirement text => text end.

(** The message, the span in bytes and the input. *)
Record Pep508Error := mkPep508Error {
  pe_message : Pep508ErrorSource;
  pe_start : nat;
  pe_len : nat;
  pe_input : list Z;
}.

(** [unicode_width::UnicodeWidthChar::width] *)
Class CharWidth := char_width : Z -> option nat.

Definition text_width `{CharWidth} (s : list Z) : nat :=
  list_sum (map (fun c => default 0%nat (char_width c)) s).

(** [Display for Pep508Error]: the message, the input and the underlined span. *)
Definition error_display `{CharWidth} (e : Pep508Error) : outcome (list Z) :=
  match pe_input e with
  | [] => Ret (error_source_display (pe_message e))
  | _ =>
      let! before := slice_to (pe_input e) (pe_start e) in
      let start_offset := text_width before in
      let! underline_len :=
        if Nat.eqb (pe_start e) (str_len (pe_input e)) then assert (Nat.leb (pe_len e) 1) (Ret 1%nat)
        else outcome_map text_width (slice (pe_input e) (pe_start e) (pe_start e + pe_len e)) in
      Ret (error_source_display (pe_message e) ++ [10] ++ pe_input e ++ [10] ++ repeat 32 start_offset ++ repeat 94 underline_len)
  end.

(** ** [Cursor] *)

Record Cursor := mkCursor { cursor_input : list Z; cursor_chars : list Z; cursor_pos : nat }.

Definition len_utf8 (c : Z) : nat := length (utf8_char c).

Definition cursor_new (input : list Z) : Cursor := mkCursor input input 0.

Definition cursor_at (c : Cursor) (pos : nat) : outcome Cursor :=
  let! rest := slice_from (cursor_input c) pos in
  Ret (mkCursor (cursor_input c) rest pos).

Definition cursor_slice (c : Cursor) (start len : nat) : outcome (list Z) :=
  slice (cursor_input c) start (start + len).

Definition peek_char (c : Cursor) : option Z := head (cursor_chars c).

Definition peek (c : Cursor) : option (nat * Z) :=
  option_map (fun char => (cursor_pos c, char)) (peek_char c).

Definition cursor_next (c : Cursor) : option (nat * Z) * Cursor :=
  match cursor_chars c with
  | [] => (None, c)
  | char :: rest => (Some (cursor_pos c, char), mkCursor (cursor_input c) rest (cursor_pos c + len_utf8 char))
  end.

Definition eat_char (c : Cursor) (token : Z) : option nat * Cursor :=
  match peek c with
  | None => (None, c)
  | Some (start_pos, char) => if char =? token then (Some start_pos, (cursor_next c).2) else (None, c)
  end.

(** The loops over [peek_char] and [next], as recursion over the characters left. *)
Fixpoint skip_while (condition : Z -> bool) (chars : list Z) (pos : nat) : list Z * nat :=
  match chars with
  | char :: rest => if condition char then skip_while condition rest (pos + len_utf8 char) else (chars, pos)
  | [] => ([], pos)
  end.

Definition eat_whitespace (c : Cursor) : Cursor :=
  let '(chars, pos) := skip_while is_whitespace (cursor_chars c) (cursor_pos c) in
  mkCursor (cursor_input c) chars pos.

Definition peek_while (c : Cursor) (condition : Z -> bool) : nat * nat :=
  (cursor_pos c, list_sum (map len_utf8 (take_while condition (cursor_chars c)))).

Definition cursor_take_while (c : Cursor) (condition : Z -> bool) : (nat * nat) * Cursor :=
  let '(chars, pos) := skip_while condition (cursor_chars c) (cursor_pos c) in
  ((cursor_pos c, pos - cursor_pos c)%nat, mkCursor (cursor_input c) chars pos).

Definition next_expect_char (c : Cursor) (expected : Z) (span_start : nat) : result unit Pep508Error * Cursor :=
  let '(n, c') := cursor_next c in
  match n with
  | None =>
      (Err (mkPep508Error (SourceString (bs "Expected '" ++ [expected] ++ bs "', found end of dependency specification"))
        span_start 1 (cursor_input c')), c')
  | Some (pos, value) =>
      if value =? expected then (Ok tt, c')
      else (Err (mkPep508Error (SourceString (bs "Expected `" ++ [expected] ++ bs "`, found `" ++ [value] ++ bs "`"))
        pos (len_utf8 value) (cursor_input c')), c')
  end.

(** ** What a cursor has read *)

(** The cursor stands before [rest], with [before] read. *)
Definition at_rest (c : Cursor) (before rest : list Z) : Prop :=
  cursor_input c = before ++ rest /\ cursor_chars c = rest /\ cursor_pos c = str_len before.

Definition cursor_ok (c : Cursor) : Prop := exists before, at_rest c before (cursor_chars c).

Lemma str_len_one c : str_len [c] = len_utf8 c.
Proof. unfold str_len, utf8, len_utf8. cbn [flat_map]. by rewrite app_nil_r. Qed.

Lemma str_len_sum l : list_sum (map len_utf8 l) = str_len l.
Proof.
  induction l as [|c l IH]; [done|]. cbn [map list_sum foldr]. change (c :: l) with ([c] ++ l).
  rewrite str_len_app, str_len_one, <- IH. done.
Qed.

Lemma skip_while_spec p chars pos : skip_while p chars pos = (drop_while p chars, pos + str_len (take_while p chars))%nat.
Proof.
  revert pos. induction chars as [|c l IH]; intros pos; [by rewrite Nat.add_0_r|]. cbn [skip_while drop_while take_while].
  destruct (p c); [|by rewrite Nat.add_0_r]. rewrite IH. f_equal. change (c :: take_while p l) with ([c] ++ take_while p l).
  rewrite str_len_app, str_len_one. lia.
Qed.

Section at_rest.
Context {c : Cursor} {before rest : list Z} (Hc : at_rest c before rest).

Lemma at_rest_skip p : at_rest (mkCursor (cursor_input c) (drop_while p rest) (cursor_pos c + str_len (take_while p rest)))
  (before ++ take_while p rest) (drop_while p rest).
Proof. destruct Hc as (Hi & _ & Hp). split; [|split; [done|]]; cbn; [by rewrite <- app_assoc, take_drop_while|by rewrite str_len_app, Hp]. Qed.

Lemma eat_whitespace_at : exists c', eat_whitespace c = c' /\ at_rest c' (before ++ take_while is_whitespace rest) (drop_while is_whitespace rest).
Proof.
  eexists. split; [|apply at_rest_skip]. destruct Hc as (_ & Hr & _). unfold eat_whitespace. by rewrite skip_while_spec, Hr.
Qed.

(** Taking characters, and the slice of what was taken. *)
Lemma take_while_at p : exists c', cursor_take_while c p = ((str_len before, str_len (take_while p rest)), c') /\
  at_rest c' (before ++ take_while p rest) (drop_while p rest) /\
  cursor_slice c' (str_len before) (str_len (take_while p rest)) = Ret (take_while p rest).
Proof.
  eexists. split; [|split; [apply (at_rest_skip p)|]].
  - destruct Hc as (_ & Hr & Hp). unfold cursor_take_while. rewrite skip_while_spec, Hr, Hp. f_equal. f_equal. lia.
  - destruct Hc as (Hi & _ & _). unfold cursor_slice, slice. cbn [cursor_input]. rewrite Hi, <- (take_drop_while p rest) at 1.
    rewrite app_assoc, <- str_len_app, slice_to_app. cbn [obind]. by rewrite slice_from_app.
Qed.

Lemma peek_while_at p : peek_while c p = (str_len before, str_len (take_while p rest)) /\
  cursor_slice c (str_len before) (str_len (take_while p rest)) = Ret (take_while p rest).
Proof.
  destruct Hc as (Hi & Hr & Hp). unfold peek_while. rewrite str_len_sum, Hr, Hp. split; [done|].
  unfold cursor_slice, slice. rewrite Hi, <- (take_drop_while p rest) at 1.
  rewrite app_assoc, <- str_len_app, slice_to_app. cbn [obind]. by rewrite slice_from_app.
Qed.
End at_rest.

Lemma peek_char_at c before rest : at_rest c before rest -> peek_char c = head rest.
Proof. intros (_ & Hr & _). unfold peek_char. by rewrite Hr. Qed.

Lemma next_at c before x rest : at_rest c before (x :: rest) ->
  exists c', cursor_next c = (Some (str_len before, x), c') /\ at_rest c' (before ++ [x]) rest.
Proof.
  intros (Hi & Hr & Hp). unfold cursor_next. rewrite Hr, Hp. eexists. split; [done|]. split; [|split; [done|]]; cbn.
  - by rewrite Hi, <- app_assoc.
  - by rewrite str_len_app, str_len_one.
Qed.

Lemma next_at_end c before : at_rest c before [] -> cursor_next c = (None, c).
Proof. intros (_ & Hr & _). unfold cursor_next. by rewrite Hr. Qed.

Lemma eat_char_at c before rest token : at_rest c before rest ->
  (exists rest' c', rest = token :: rest' /\ eat_char c token = (Some (str_len before), c') /\ at_rest c' (before ++ [token]) rest') \/
  (eat_char c token = (None, c) /\ head rest <> Some token).
Proof.
  intros Hc. unfold eat_char, peek. rewrite (peek_char_at _ _ _ Hc). destruct rest as [|x rest]; [by right|]. cbn [head option_map].
  destruct (Z.eqb_spec x token) as [->|Hne]; [left|right; split; [done|congruence]].
  destruct (next_at _ _ _ _ Hc) as (c' & En & Hc'). exists rest, c'. rewrite En. split; [done|]. split; [|done]. by destruct Hc as (_ & _ & ->).
Qed.

Lemma cursor_new_at input : at_rest (cursor_new input) [] input.
Proof. done. Qed.

(** ** Spans *)

(** The span of an error of a text lies on its character boundaries, or is one byte
    past its end. *)
Definition span_ok (input : list Z) (e : Pep508Error) : Prop :=
  exists before span after, input = before ++ span ++ after /\ pe_input e = input /\ pe_start e = str_len before /\
    (pe_len e = str_len span \/ (span = [] /\ after = [] /\ pe_len e = 1%nat)).

Lemma span_display `{CharWidth} input e : span_ok input e -> exists text, error_display e = Ret text.
Proof.
  intros (before & span & after & Hi & He & Hs & Hl). unfold error_display. rewrite He, Hi, Hs.
  destruct (before ++ span ++ after) as [|x l] eqn:E; [by eexists|]. rewrite <- E, slice_to_app. cbn [obind].
  destruct (Nat.eqb_spec (str_len before) (str_len (before ++ span ++ after))) as [Hend|Hend].
  - rewrite !str_len_app in Hend. destruct Hl as [->|(_ & _ & ->)]; [|by eexists].
    replace (str_len span) with 0%nat by lia. by eexists.
  - destruct Hl as [->|(-> & -> & _)]; [|by rewrite app_nil_r in Hend]. unfold slice. rewrite <- str_len_app, app_assoc, slice_to_app.
    cbn [obind]. rewrite slice_from_app. by eexists.
Qed.

Lemma expect_at c before rest x start : at_rest c before rest ->
  (exists rest' c', rest = x :: rest' /\ next_expect_char c x start = (Ok tt, c') /\ at_rest c' (before ++ [x]) rest') \/
  (exists e c', next_expect_char c x start = (Err e, c') /\
    ((exists y rest', rest = y :: rest' /\ x <> y) -> span_ok (before ++ rest) e) /\
    (rest = [] -> e = mkPep508Error (SourceString (bs "Expected '" ++ [x] ++ bs "', found end of dependency specification")) start 1 before)).
Proof.
  intros Hc. unfold next_expect_char. destruct rest as [|y rest].
  - right. rewrite (next_at_end _ _ Hc). do 2 eexists. split; [done|]. split; [by intros (? & ? & ? & _)|].
    intros _. destruct Hc as (-> & _ & _). by rewrite app_nil_r.
  - destruct (next_at _ _ _ _ Hc) as (c' & -> & Hc'). destruct (Z.eqb_spec y x) as [->|Hne].
    + left. exists rest, c'. done.
    + right. do 2 eexists. split; [done|]. split; [|done]. intros _. exists before, [y], rest. destruct Hc' as (Hi & _).
      cbn [pe_input pe_start pe_len]. split; [done|]. split; [by rewrite Hi, <- app_assoc|]. split; [done|]. left. by rewrite str_len_one.
Qed.
