(* ===== verification/PythonTags.v ===== *)
(** * Language and ABI tags of wheels

    The model of [language_tag.rs] and [abi_tag.rs] of [uv-platform-tags]: the
    tags [cp313] and [abi3] of [cp313-abi3-manylinux_2_28_x86_64], with their
    parsers and printers.  Text is a list of characters; [len] counts the bytes
    of its UTF-8 encoding.  The flag set of [AbiTag::CPython] is generated by the
    third-party macro [bitflags!], which is the interface [Flags] here, with the
    documented meaning of its methods as the laws [FlagsLaws]. *)

From Stdlib Require Import ZArith Lia String.
From stdpp Require Import base list countable.
From S2P Require Import Prelude.

Open Scope Z_scope.

(** ** The bit sets of [bitflags!] *)

Class Flags := {
  flags_contains : Z -> Z -> bool;
  flags_insert : Z -> Z -> Z;
  flags_remove : Z -> Z -> Z;
}.

(** [contains]: all bits of the other set are set; [insert]: the bitwise or;
    [remove]: the bits that are not in the other set. *)
Class FlagsLaws `{Flags} : Prop := {
  flags_contains_spec v f : flags_contains v f = (Z.land v f =? f);
  flags_insert_spec v f : flags_insert v f = Z.lor v f;
  flags_remove_spec v f : flags_remove v f = Z.ldiff v f;
}.

#[export] Instance bit_flags : Flags := {|
  flags_contains v f := Z.land v f =? f;
  flags_insert v f := Z.lor v f;
  flags_remove v f := Z.ldiff v f;
|}.

#[export] Instance bit_flags_laws : FlagsLaws.
Proof. done. Qed.

(** ** [str] helpers of the two parsers *)

(** [char::to_digit(10)] *)
Definition to_digit (c : Z) : option Z := if is_ascii_digit c then Some (c - 48) else None.

(** [s.get(1..)]: [None] when the string is empty or byte 1 is inside a
    character. *)
Definition get_from_1 (s : list Z) : option (list Z) :=
  match s with
  | [] => None
  | c :: s' => if c <? 128 then Some s' else None
  end.

(** ** Language tags *)

Inductive LanguageTag :=
| LangNone
| Python (major : Z) (minor : option Z)
| CPython (python_version : Z * Z)
| PyPy (python_version : Z * Z)
| GraalPy (python_version : Z * Z)
| Pyston (python_version : Z * Z)
| CPythonMajor (major : Z).

Inductive ParseLanguageTagError :=
| LangUnknownFormat (tag : list Z)
| LangMissingMajorVersion (implementation tag : list Z)
| LangInvalidMajorVersion (implementation tag : list Z)
| LangMissingMinorVersion (implementation tag : list Z)
| LangInvalidMinorVersion (implementation tag : list Z).

(** [impl Display for LanguageTag] *)
Definition language_display (t : LanguageTag) : list Z :=
  match t with
  | LangNone => bs "none"
  | Python major (Some minor) => bs "py" ++ show_u64 major ++ show_u64 minor
  | Python major None => bs "py" ++ show_u64 major
  | CPython (major, minor) => bs "cp" ++ show_u64 major ++ show_u64 minor
  | PyPy (major, minor) => bs "pp" ++ show_u64 major ++ show_u64 minor
  | GraalPy (major, minor) => bs "graalpy" ++ show_u64 major ++ show_u64 minor
  | Pyston (major, minor) => bs "pyston" ++ show_u64 major ++ show_u64 minor
  | CPythonMajor major => bs "cp" ++ show_u64 major
  end.

(** [version_str.chars().next()...to_digit(10)...]: the major version. *)
Definition parse_language_major (version_str implementation full_tag : list Z) :
    result Z ParseLanguageTagError :=
  match version_str with
  | [] => Err (LangMissingMajorVersion implementation full_tag)
  | c :: _ =>
      match to_digit c with
      | None => Err (LangInvalidMajorVersion implementation full_tag)
      | Some major => Ok major
      end
  end.

(** [parse_python_version] of [LanguageTag::from_str] *)
Definition parse_language_version (version_str implementation full_tag : list Z) :
    result (Z * Z) ParseLanguageTagError :=
  match parse_language_major version_str implementation full_tag with
  | Err e => Err e
  | Ok major =>
      match get_from_1 version_str with
      | None => Err (LangMissingMinorVersion implementation full_tag)
      | Some rest =>
          match parse_uint u8_max rest with
          | None => Err (LangInvalidMinorVersion implementation full_tag)
          | Some minor => Ok (major, minor)
          end
      end
  end.

Definition result_map {A B E} (f : A -> B) (r : result A E) : result B E :=
  match r with Ok a => Ok (f a) | Err e => Err e end.

(** [impl FromStr for LanguageTag] *)
Definition language_from_str (s : list Z) : result LanguageTag ParseLanguageTagError :=
  if bytes_eqb s (bs "none") then Ok LangNone
  else
    match strip_prefix (bs "py") s with
    | Some py =>
        match str_len py with
        | O => Err (LangMissingMajorVersion (bs "Python") s)
        | 1%nat => result_map (fun major => Python major None) (parse_language_major py (bs "Python") s)
        | 2%nat | 3%nat =>
            result_map (fun v => Python v.1 (Some v.2)) (parse_language_version py (bs "Python") s)
        | _ =>
            match strip_prefix (bs "ston") py with
            | Some pyston => result_map Pyston (parse_language_version pyston (bs "Pyston") s)
            | None => Err (LangUnknownFormat s)
            end
        end
    | None =>
        match strip_prefix (bs "cp") s with
        | Some cp =>
            match str_len cp with
            | O => Err (LangMissingMajorVersion (bs "CPython") s)
            | 1%nat => result_map CPythonMajor (parse_language_major cp (bs "CPython") s)
            | 2%nat | 3%nat => result_map CPython (parse_language_version cp (bs "CPython") s)
            | _ => Err (LangUnknownFormat s)
            end
        | None =>
            match strip_prefix (bs "pp") s with
            | Some pp => result_map PyPy (parse_language_version pp (bs "PyPy") s)
            | None =>
                match strip_prefix (bs "graalpy") s with
                | Some graalpy => result_map GraalPy (parse_language_version graalpy (bs "GraalPy") s)
                | None => Err (LangUnknownFormat s)
                end
            end
        end
    end.

(** ** ABI tags *)

Definition Freethreading : Z := Z.shiftl 1 0.
Definition WideUnicode : Z := Z.shiftl 1 1.
Definition Debug : Z := Z.shiftl 1 2.
Definition Pymalloc : Z := Z.shiftl 1 3.

Inductive AbiTag :=
| AbiNone
| Abi3
| Abi3T
| AbiCPython (python_version : Z * Z) (variant : Z)
| AbiPyPy (python_version : option (Z * Z)) (implementation_version : Z * Z)
| AbiGraalPy (python_version implementation_version : Z * Z)
| AbiPyston (implementation_version : Z * Z).

Inductive ParseAbiTagError :=
| AbiUnknownFormat (tag : list Z)
| AbiMissingMajorVersion (implementation tag : list Z)
| AbiInvalidMajorVersion (implementation tag : list Z)
| AbiMissingMinorVersion (implementation tag : list Z)
| AbiInvalidMinorVersion (implementation tag : list Z)
| AbiInvalidFormat (implementation tag : list Z)
| AbiMissingImplMajorVersion (implementation tag : list Z)
| AbiInvalidImplMajorVersion (implementation tag : list Z)
| AbiMissingImplMinorVersion (implementation tag : list Z)
| AbiInvalidImplMinorVersion (implementation tag : list Z)
| UnknownAbiTagSuffix (suffix : Z) (tag : list Z)
| DuplicateAbiTagSuffix (suffix : Z) (tag : list Z).

(** [AbiTag::is_stable_abi] *)
Definition is_stable_abi (t : AbiTag) : bool :=
  match t with Abi3 | Abi3T => true | _ => false end.

(** [CPythonAbiVariants::from_char] *)
Definition variant_from_char (suffix : Z) : option Z :=
  if suffix =? 116 then Some Freethreading
  else if suffix =? 117 then Some WideUnicode
  else if suffix =? 100 then Some Debug
  else if suffix =? 109 then Some Pymalloc
  else None.

(** [version_str.as_bytes().first()...checked_sub(b'0').filter(|digit| *digit < 10)] *)
Definition first_byte_digit (version_str : list Z) : option (option Z) :=
  match utf8 version_str with
  | [] => None
  | b :: _ =>
      Some (match checked_sub b 48 with
            | Some digit => if digit <? 10 then Some digit else None
            | None => None
            end)
  end.

(** [parse_python_version] and [parse_impl_version] of [AbiTag::from_str], which
    differ in the errors they return. *)
Definition parse_abi_version (missing_major invalid_major missing_minor invalid_minor : ParseAbiTagError)
    (version_str : list Z) : result (Z * Z) ParseAbiTagError :=
  match first_byte_digit version_str with
  | None => Err missing_major
  | Some None => Err invalid_major
  | Some (Some major) =>
      match get_from_1 version_str with
      | None => Err missing_minor
      | Some rest =>
          match parse_uint u8_max rest with
          | None => Err invalid_minor
          | Some minor => Ok (major, minor)
          end
      end
  end.

Definition parse_python_version (version_str implementation full_tag : list Z) :=
  parse_abi_version (AbiMissingMajorVersion implementation full_tag)
    (AbiInvalidMajorVersion implementation full_tag) (AbiMissingMinorVersion implementation full_tag)
    (AbiInvalidMinorVersion implementation full_tag) version_str.

Definition parse_impl_version (version_str implementation full_tag : list Z) :=
  parse_abi_version (AbiMissingImplMajorVersion implementation full_tag)
    (AbiInvalidImplMajorVersion implementation full_tag) (AbiMissingImplMinorVersion implementation full_tag)
    (AbiInvalidImplMinorVersion implementation full_tag) version_str.

Section abi.
Context `{Flags}.

(** [impl Display for CPythonAbiVariants] *)
Definition variants_display (v : Z) : list Z :=
  (if flags_contains v Freethreading then bs "t" else [])
  ++ (if flags_contains v Debug then bs "d" else [])
  ++ (if flags_contains v Pymalloc then bs "m" else [])
  ++ (if flags_contains v WideUnicode then bs "u" else []).

(** [impl Display for AbiTag] *)
Definition abi_display (t : AbiTag) : list Z :=
  match t with
  | AbiNone => bs "none"
  | Abi3 => bs "abi3"
  | Abi3T => bs "abi3t"
  | AbiCPython (major, minor) variant =>
      bs "cp" ++ show_u64 major ++ show_u64 minor ++ variants_display variant
  | AbiPyPy (Some (py_major, py_minor)) (impl_major, impl_minor) =>
      bs "pypy" ++ show_u64 py_major ++ show_u64 py_minor ++ bs "_pp"
      ++ show_u64 impl_major ++ show_u64 impl_minor
  | AbiPyPy None (impl_major, impl_minor) =>
      bs "pypy_" ++ show_u64 impl_major ++ show_u64 impl_minor
  | AbiGraalPy (py_major, py_minor) (impl_major, impl_minor) =>
      bs "graalpy" ++ show_u64 impl_major ++ show_u64 impl_minor ++ bs "_"
      ++ show_u64 py_major ++ show_u64 py_minor ++ bs "_native"
  | AbiPyston (impl_major, impl_minor) =>
      bs "pyston_" ++ show_u64 impl_major ++ show_u64 impl_minor ++ bs "_x86_64_linux_gnu"
  end.

(** The loop over the suffix characters of a CPython tag. *)
Fixpoint parse_suffixes (suffixes : list Z) (variant : Z) (s : list Z) : result Z ParseAbiTagError :=
  match suffixes with
  | [] => Ok variant
  | suffix_char :: rest =>
      match variant_from_char suffix_char with
      | None => Err (UnknownAbiTagSuffix suffix_char s)
      | Some suffix =>
          if flags_contains variant suffix then Err (DuplicateAbiTagSuffix suffix_char s)
          else parse_suffixes rest (flags_insert variant suffix) s
      end
  end.

(** [cp.find(|c| !c.is_ascii_digit())] splits the version from the suffixes. *)
Definition parse_cpython_abi (cp s : list Z) : result AbiTag ParseAbiTagError :=
  match parse_python_version (take_while is_ascii_digit cp) (bs "CPython") s with
  | Err e => Err e
  | Ok version => result_map (AbiCPython version) (parse_suffixes (drop_while is_ascii_digit cp) 0 s)
  end.

Definition parse_pypy_abi (rest s : list Z) : result AbiTag ParseAbiTagError :=
  match strip_prefix (bs "_") rest with
  | Some rest => result_map (AbiPyPy None) (parse_impl_version rest (bs "PyPy") s)
  | None =>
      match split_once 95 rest with
      | None => Err (AbiInvalidFormat (bs "PyPy") s)
      | Some (version_str, rest) =>
          match parse_python_version version_str (bs "PyPy") s with
          | Err e => Err e
          | Ok version =>
              match strip_prefix (bs "pp") rest with
              | None => Err (AbiInvalidFormat (bs "PyPy") s)
              | Some rest => result_map (AbiPyPy (Some version)) (parse_impl_version rest (bs "PyPy") s)
              end
          end
      end
  end.

Definition parse_graalpy_abi (rest s : list Z) : result AbiTag ParseAbiTagError :=
  match split_once 95 rest with
  | None => Err (AbiInvalidFormat (bs "GraalPy") s)
  | Some (impl_ver_str, rest) =>
      match parse_impl_version impl_ver_str (bs "GraalPy") s with
      | Err e => Err e
      | Ok impl_version =>
          match split_once 95 rest with
          | None => Err (AbiInvalidFormat (bs "GraalPy") s)
          | Some (py_ver_str, suffix) =>
              if negb (bytes_eqb suffix (bs "native")) then Err (AbiInvalidFormat (bs "GraalPy") s)
              else result_map (fun v => AbiGraalPy v impl_version)
                     (parse_python_version py_ver_str (bs "GraalPy") s)
          end
      end
  end.

Definition parse_pyston_abi (rest s : list Z) : result AbiTag ParseAbiTagError :=
  match strip_prefix (bs "_") rest with
  | None => Err (AbiInvalidFormat (bs "Pyston") s)
  | Some rest =>
      match strip_suffix (bs "_x86_64_linux_gnu") rest with
      | None => Err (AbiInvalidFormat (bs "Pyston") s)
      | Some rest => result_map AbiPyston (parse_impl_version rest (bs "Pyston") s)
      end
  end.

(** [impl FromStr for AbiTag] *)
Definition abi_from_str (s : list Z) : result AbiTag ParseAbiTagError :=
  if bytes_eqb s (bs "none") then Ok AbiNone
  else if bytes_eqb s (bs "abi3") then Ok Abi3
  else if bytes_eqb s (bs "abi3t") then Ok Abi3T
  else
    match strip_prefix (bs "cp") s with
    | Some cp => parse_cpython_abi cp s
    | None =>
        match strip_prefix (bs "pypy") s with
        | Some rest => parse_pypy_abi rest s
        | None =>
            match strip_prefix (bs "graalpy") s with
            | Some rest => parse_graalpy_abi rest s
            | None =>
                match strip_prefix (bs "pyston") s with
                | Some rest => parse_pyston_abi rest s
                | None => Err (AbiUnknownFormat s)
                end
            end
        end
    end.
End abi.

(** ** Version digits *)

(** What the two version parsers return: a digit and a number of at most 255. *)
Definition digit_pair (v : Z * Z) : Prop := 0 <= v.1 <= 9 /\ 0 <= v.2 <= u8_max.

Definition show_pair (v : Z * Z) : list Z := show_u64 v.1 ++ show_u64 v.2.

Lemma u8_u64 n : 0 <= n <= u8_max -> is_u64 n.
Proof. unfold is_u64, u64_max, u8_max. lia. Qed.

Lemma show_pair_cons v : digit_pair v -> show_pair v = (48 + v.1) :: show_u64 v.2.
Proof. intros [H _]. unfold show_pair. by rewrite show_u64_digit. Qed.

Lemma is_digit_48 n : 0 <= n <= 9 -> is_ascii_digit (48 + n) = true.
Proof. intros H. unfold is_ascii_digit. apply andb_true_intro. split; apply Z.leb_le; lia. Qed.

Lemma show_pair_digits v : digit_pair v -> Forall (fun c => is_ascii_digit c = true) (show_pair v).
Proof.
  intros Hv. rewrite show_pair_cons by done. destruct Hv as [Ha Hb]. constructor; [by apply is_digit_48|].
  by apply show_u64_spec, u8_u64.
Qed.

Lemma digits_ascii s : Forall (fun c => is_ascii_digit c = true) s -> Forall (fun c => 0 <= c < 128) s.
Proof. apply List.Forall_impl. intros c Hc. unfold is_ascii_digit in Hc. bool_norm. lia. Qed.

Lemma digits_not_sep s : Forall (fun c => is_ascii_digit c = true) s -> Forall (fun c => c <> 95) s.
Proof. apply List.Forall_impl. intros c Hc. unfold is_ascii_digit in Hc. bool_norm. lia. Qed.

Lemma show_pair_len v : digit_pair v -> str_len (show_pair v) = S (length (show_u64 v.2)).
Proof.
  intros Hv. unfold str_len. rewrite utf8_ascii by (by apply digits_ascii, show_pair_digits).
  by rewrite show_pair_cons.
Qed.

Lemma to_digit_Some c a : to_digit c = Some a -> 0 <= a <= 9 /\ c = 48 + a.
Proof.
  unfold to_digit. destruct (is_ascii_digit c) eqn:E; [|done]. intros [= <-].
  unfold is_ascii_digit in E. bool_norm. lia.
Qed.

Lemma parse_u8_range s n : parse_uint u8_max s = Some n -> 0 <= n <= u8_max.
Proof. intros [? _]%parse_uint_bound; unfold u8_max in *; lia. Qed.

Lemma parse_u8_show n : 0 <= n <= u8_max -> parse_uint u8_max (show_u64 n) = Some n.
Proof. intros H. apply parse_uint_show; unfold u8_max, u64_max in *; lia. Qed.

(** ** Language tags: lemmas *)

Lemma parse_language_version_show v i t : digit_pair v -> parse_language_version (show_pair v) i t = Ok v.
Proof.
  intros Hv. rewrite show_pair_cons by done. destruct v as [a b], Hv as [Ha Hb]. cbn [fst snd] in *.
  unfold parse_language_version, parse_language_major, to_digit. rewrite is_digit_48 by done.
  cbn [get_from_1]. destruct (Z.ltb_spec (48 + a) 128); [|lia]. rewrite parse_u8_show by done.
  by replace (48 + a - 48) with a by lia.
Qed.

Lemma parse_language_version_Ok s i t v : parse_language_version s i t = Ok v ->
  digit_pair v /\ ((str_len s <= 3)%nat -> v.2 <= 99).
Proof.
  unfold parse_language_version, parse_language_major. destruct s as [|c s]; [done|].
  destruct (to_digit c) as [a|] eqn:Ea; [|done]. apply to_digit_Some in Ea as [Ha ->]. cbn [get_from_1].
  destruct (Z.ltb_spec (48 + a) 128); [|lia].
  destruct (parse_uint u8_max s) as [b|] eqn:Eb; [|done]. intros [= <-].
  pose proof (parse_u8_range _ _ Eb) as Hb. split; [done|]. intros Hl. cbn [snd].
  apply parse_uint_bound in Eb as [_ Hlt]; [|done].
  pose proof (str_len_ge ((48 + a) :: s)) as Hs. cbn [length] in Hs.
  assert (10 ^ Z.of_nat (length s) <= 10 ^ 2) by (apply Z.pow_le_mono_r; lia). lia.
Qed.

(** The text of every tag the parser can return, grouped by how the parser
    reads it. *)
Lemma language_short_py v : digit_pair v -> v.2 <= 99 ->
  language_from_str (bs "py" ++ show_pair v) = Ok (Python v.1 (Some v.2)).
Proof.
  intros Hv H99. unfold language_from_str. change (bytes_eqb (bs "py" ++ _) (bs "none")) with false. cbv iota.
  rewrite strip_prefix_app, show_pair_len by done. destruct (show_u64_two v.2) as [H1 H2]; [destruct Hv; lia|].
  rewrite parse_language_version_show by done.
  by destruct (length (show_u64 v.2)) as [|[|[|n]]] eqn:E; [lia| | |lia].
Qed.

Lemma language_short_cp v : digit_pair v -> v.2 <= 99 ->
  language_from_str (bs "cp" ++ show_pair v) = Ok (CPython v).
Proof.
  intros Hv H99. unfold language_from_str. change (bytes_eqb (bs "cp" ++ _) (bs "none")) with false. cbv iota.
  change (strip_prefix (bs "py") (bs "cp" ++ _)) with (@None (list Z)). cbv iota.
  rewrite strip_prefix_app, show_pair_len by done. destruct (show_u64_two v.2) as [H1 H2]; [destruct Hv; lia|].
  rewrite parse_language_version_show by done.
  by destruct (length (show_u64 v.2)) as [|[|[|n]]] eqn:E; [lia| | |lia].
Qed.

Lemma language_major a : 0 <= a <= 9 ->
  language_from_str (bs "py" ++ show_u64 a) = Ok (Python a None) /\
  language_from_str (bs "cp" ++ show_u64 a) = Ok (CPythonMajor a).
Proof.
  intros Ha. rewrite show_u64_digit by done. unfold language_from_str.
  change (bytes_eqb (bs "py" ++ _) (bs "none")) with false.
  change (bytes_eqb (bs "cp" ++ _) (bs "none")) with false.
  change (strip_prefix (bs "py") (bs "cp" ++ _)) with (@None (list Z)). cbv iota.
  rewrite !strip_prefix_app.
  assert (El : str_len [48 + a] = 1%nat).
  { unfold str_len. rewrite utf8_ascii; [done|]. repeat constructor; lia. }
  rewrite El. cbn [parse_language_major]. unfold to_digit. rewrite is_digit_48 by done.
  by replace (48 + a - 48) with a by lia.
Qed.

Lemma language_long v : digit_pair v ->
  language_from_str (bs "pp" ++ show_pair v) = Ok (PyPy v) /\
  language_from_str (bs "graalpy" ++ show_pair v) = Ok (GraalPy v) /\
  language_from_str (bs "pyston" ++ show_pair v) = Ok (Pyston v).
Proof.
  intros Hv. unfold language_from_str.
  change (bytes_eqb (bs "pp" ++ _) (bs "none")) with false.
  change (bytes_eqb (bs "graalpy" ++ _) (bs "none")) with false.
  change (bytes_eqb (bs "pyston" ++ _) (bs "none")) with false.
  change (bs "pyston" ++ show_pair v) with (bs "py" ++ bs "ston" ++ show_pair v).
  change (strip_prefix (bs "py") (bs "pp" ++ _)) with (@None (list Z)).
  change (strip_prefix (bs "py") (bs "graalpy" ++ _)) with (@None (list Z)).
  change (strip_prefix (bs "cp") (bs "pp" ++ _)) with (@None (list Z)).
  change (strip_prefix (bs "cp") (bs "graalpy" ++ _)) with (@None (list Z)).
  change (strip_prefix (bs "pp") (bs "graalpy" ++ _)) with (@None (list Z)). cbv iota.
  rewrite !strip_prefix_app.
  by rewrite !parse_language_version_show.
Qed.

Lemma result_map_Ok {A B E} (f : A -> B) (r : result A E) b :
  result_map f r = Ok b -> exists a, r = Ok a /\ b = f a.
Proof. destruct r; [|done]. intros [= <-]. by eexists. Qed.

Lemma parse_language_major_Ok s i t a : parse_language_major s i t = Ok a -> 0 <= a <= 9.
Proof.
  destruct s as [|c s]; [done|]. cbn [parse_language_major].
  destruct (to_digit c) eqn:E; [|done]. intros [= <-]. by apply to_digit_Some in E as [? _].
Qed.

(** What the parser returns. *)
Definition language_ok (t : LanguageTag) : Prop :=
  match t with
  | LangNone => True
  | Python major None | CPythonMajor major => 0 <= major <= 9
  | Python major (Some minor) => digit_pair (major, minor) /\ minor <= 99
  | CPython v => digit_pair v /\ v.2 <= 99
  | PyPy v | GraalPy v | Pyston v => digit_pair v
  end.

Lemma language_parsed s t : language_from_str s = Ok t -> language_ok t.
Proof.
  assert (Hmaj : forall f v i, (forall a, 0 <= a <= 9 -> language_ok (f a)) ->
    result_map f (parse_language_major v i s) = Ok t -> language_ok t).
  { intros f v i Hf (a & E & ->)%result_map_Ok. by apply Hf, (parse_language_major_Ok v i s). }
  assert (Hver : forall f v i, (forall x, digit_pair x -> ((str_len v <= 3)%nat -> x.2 <= 99) -> language_ok (f x)) ->
    result_map f (parse_language_version v i s) = Ok t -> language_ok t).
  { intros f v i Hf (x & E & ->)%result_map_Ok. apply parse_language_version_Ok in E as [? ?]. by apply Hf. }
  unfold language_from_str. destruct (bytes_eqb s (bs "none")); [by intros [= <-]|].
  destruct (strip_prefix (bs "py") s) as [py|].
  { destruct (str_len py) as [|[|[|[|n]]]] eqn:El; [done|by apply Hmaj|..].
    1,2: apply Hver; intros [a b] Hx Hl; split; [done|]; apply Hl; lia.
    destruct (strip_prefix (bs "ston") py); [by apply Hver|done]. }
  destruct (strip_prefix (bs "cp") s) as [cp|].
  { destruct (str_len cp) as [|[|[|[|n]]]] eqn:El; [done|by apply Hmaj|..|done].
    all: apply Hver; intros [a b] Hx Hl; split; [done|]; apply Hl; lia. }
  destruct (strip_prefix (bs "pp") s); [by apply Hver|].
  destruct (strip_prefix (bs "graalpy") s); [by apply Hver|done].
Qed.

Lemma language_text t : language_ok t -> language_from_str (language_display t) = Ok t.
Proof.
  destruct t as [|a [b|]|[a b]|[a b]|[a b]|[a b]|a]; cbn [language_ok language_display].
  - done.
  - intros [Hv H]. apply (language_short_py (a, b) Hv H).
  - intros Ha. by apply language_major.
  - intros [Hv H]. apply (language_short_cp (a, b) Hv H).
  - intros Hv. apply (language_long (a, b) Hv).
  - intros Hv. apply (language_long (a, b) Hv).
  - intros Hv. apply (language_long (a, b) Hv).
  - intros Ha. by apply language_major.
Qed.

(** ** ABI tags: lemmas *)

Lemma parse_abi_version_show e1 e2 e3 e4 v : digit_pair v -> parse_abi_version e1 e2 e3 e4 (show_pair v) = Ok v.
Proof.
  intros Hv. unfold parse_abi_version, first_byte_digit.
  rewrite utf8_ascii by (by apply digits_ascii, show_pair_digits).
  rewrite show_pair_cons by done. destruct v as [a b], Hv as [Ha Hb]. cbn [fst snd] in *.
  unfold checked_sub. destruct (Z.leb_spec 48 (48 + a)); [|lia].
  replace (48 + a - 48) with a by lia. destruct (Z.ltb_spec a 10); [|lia].
  cbn [get_from_1]. destruct (Z.ltb_spec (48 + a) 128); [|lia]. by rewrite parse_u8_show.
Qed.

Lemma parse_abi_version_Ok e1 e2 e3 e4 s v : parse_abi_version e1 e2 e3 e4 s = Ok v -> digit_pair v.
Proof.
  unfold parse_abi_version. destruct (first_byte_digit s) as [[a|]|] eqn:Ea; [|done..].
  destruct (get_from_1 s) as [r|]; [|done]. destruct (parse_uint u8_max r) as [b|] eqn:Eb; [|done].
  intros [= <-]. split; cbn; [|by apply parse_u8_range in Eb].
  unfold first_byte_digit in Ea. destruct (utf8 s) as [|c u]; [done|]. injection Ea as Ea.
  unfold checked_sub in Ea. destruct (Z.leb_spec 48 c); [|done].
  destruct (Z.ltb_spec (c - 48) 10); [|done]. injection Ea as <-. lia.
Qed.

(** The sixteen flag sets. *)
Lemma variant_cases v : 0 <= v <= 15 -> In v [0; 1; 2; 3; 4; 5; 6; 7; 8; 9; 10; 11; 12; 13; 14; 15].
Proof. intros H. cbn. lia. Qed.

Lemma parse_suffixes_display v s : 0 <= v <= 15 ->
  parse_suffixes (H := bit_flags) (variants_display (H := bit_flags) v) 0 s = Ok v.
Proof. intros H%variant_cases. repeat destruct H as [<-|H]; try done. Qed.

Lemma variants_display_stops v : 0 <= v <= 15 -> stops is_ascii_digit (variants_display (H := bit_flags) v).
Proof. intros H%variant_cases. repeat destruct H as [<-|H]; try done. Qed.

Lemma variant_insert v c f : 0 <= v <= 15 -> variant_from_char c = Some f -> 0 <= Z.lor v f <= 15.
Proof.
  intros H%variant_cases. unfold variant_from_char.
  destruct (c =? 116), (c =? 117), (c =? 100), (c =? 109); intros [= <-];
    repeat destruct H as [<-|H]; try done; cbn; lia.
Qed.

Lemma parse_suffixes_range suf v s w : 0 <= v <= 15 ->
  parse_suffixes (H := bit_flags) suf v s = Ok w -> 0 <= w <= 15.
Proof.
  revert v. induction suf as [|c suf IH]; intros v Hv; cbn [parse_suffixes]; [by intros [= <-]|].
  destruct (variant_from_char c) as [f|] eqn:E; [|done]. destruct (flags_contains v f); [done|].
  apply IH. cbn [flags_insert bit_flags]. by apply (variant_insert v c).
Qed.

(** Any implementation of the flags gives the same tags. *)
Section flag_independence.
Context `{FlagsLaws}.

Lemma variants_display_bits v : variants_display v = variants_display (H := bit_flags) v.
Proof. unfold variants_display. by rewrite !flags_contains_spec. Qed.

Lemma parse_suffixes_bits suf v s : parse_suffixes suf v s = parse_suffixes (H := bit_flags) suf v s.
Proof.
  revert v. induction suf as [|c suf IH]; intros v; [done|]. cbn [parse_suffixes].
  destruct (variant_from_char c) as [f|]; [|done]. rewrite flags_contains_spec, flags_insert_spec, IH. done.
Qed.

Lemma abi_display_bits t : abi_display t = abi_display (H := bit_flags) t.
Proof. destruct t as [| | |[a b] v|[[a b]|] [c d]|[a b] [c d]|[a b]]; cbn; [..|]; by rewrite ?variants_display_bits. Qed.

Lemma abi_from_str_bits s : abi_from_str s = abi_from_str (H := bit_flags) s.
Proof. unfold abi_from_str, parse_cpython_abi. destruct (strip_prefix (bs "cp") s); by rewrite ?parse_suffixes_bits. Qed.
End flag_independence.

(** What the parser returns. *)
Definition abi_ok (t : AbiTag) : Prop :=
  match t with
  | AbiNone | Abi3 | Abi3T => True
  | AbiCPython v variant => digit_pair v /\ 0 <= variant <= 15
  | AbiPyPy None v | AbiPyston v => digit_pair v
  | AbiPyPy (Some v) w | AbiGraalPy v w => digit_pair v /\ digit_pair w
  end.

Lemma abi_parsed s t : abi_from_str (H := bit_flags) s = Ok t -> abi_ok t.
Proof.
  unfold abi_from_str. destruct (bytes_eqb s (bs "none")); [by intros [= <-]|].
  destruct (bytes_eqb s (bs "abi3")); [by intros [= <-]|].
  destruct (bytes_eqb s (bs "abi3t")); [by intros [= <-]|].
  destruct (strip_prefix (bs "cp") s) as [cp|].
  { unfold parse_cpython_abi. destruct (parse_python_version _ _ s) as [v|] eqn:E; [|done].
    apply parse_abi_version_Ok in E. intros (w & Ew & ->)%result_map_Ok. split; [done|].
    by apply parse_suffixes_range in Ew. }
  destruct (strip_prefix (bs "pypy") s) as [rest|].
  { unfold parse_pypy_abi. destruct (strip_prefix (bs "_") rest) as [r|].
    { intros (v & E & ->)%result_map_Ok. by apply parse_abi_version_Ok in E. }
    destruct (split_once 95 rest) as [[v r]|]; [|done].
    destruct (parse_python_version _ _ s) as [x|] eqn:E; [|done]. apply parse_abi_version_Ok in E.
    destruct (strip_prefix (bs "pp") r); [|done]. intros (w & Ew & ->)%result_map_Ok.
    by apply parse_abi_version_Ok in Ew. }
  destruct (strip_prefix (bs "graalpy") s) as [rest|].
  { unfold parse_graalpy_abi. destruct (split_once 95 rest) as [[i r]|]; [|done].
    destruct (parse_impl_version _ _ s) as [x|] eqn:E; [|done]. apply parse_abi_version_Ok in E.
    destruct (split_once 95 r) as [[p suffix]|]; [|done]. destruct (negb _); [done|].
    intros (w & Ew & ->)%result_map_Ok. by apply parse_abi_version_Ok in Ew. }
  destruct (strip_prefix (bs "pyston") s) as [rest|]; [|done].
  unfold parse_pyston_abi. destruct (strip_prefix (bs "_") rest); [|done].
  destruct (strip_suffix _ _); [|done]. intros (w & Ew & ->)%result_map_Ok. by apply parse_abi_version_Ok in Ew.
Qed.

Lemma cpython_abi_text v w s : digit_pair v -> 0 <= w <= 15 ->
  parse_cpython_abi (H := bit_flags) (show_pair v ++ variants_display (H := bit_flags) w) s = Ok (AbiCPython v w).
Proof.
  intros Hv Hw. unfold parse_cpython_abi, parse_python_version.
  rewrite take_while_app, drop_while_app by (by apply show_pair_digits || by apply variants_display_stops).
  rewrite parse_abi_version_show by done. by rewrite parse_suffixes_display.
Qed.

Lemma strip_sep_pair v r : digit_pair v -> strip_prefix (bs "_") (show_pair v ++ r) = None.
Proof.
  intros Hv. rewrite show_pair_cons by done. destruct Hv as [Ha _].
  change (bs "_") with [95]. cbn [strip_prefix app]. by destruct (Z.eqb_spec 95 (48 + v.1)); [lia|].
Qed.

Lemma pypy_abi_text v s : digit_pair v ->
  parse_pypy_abi (bs "_" ++ show_pair v) s = Ok (AbiPyPy None v) /\
  forall w, digit_pair w -> parse_pypy_abi (show_pair w ++ bs "_pp" ++ show_pair v) s = Ok (AbiPyPy (Some w) v).
Proof.
  intros Hv. unfold parse_pypy_abi, parse_python_version, parse_impl_version. rewrite strip_prefix_app.
  split; [by rewrite parse_abi_version_show|]. intros w Hw. rewrite strip_sep_pair by done.
  change (bs "_pp" ++ show_pair v) with (95 :: bs "pp" ++ show_pair v).
  rewrite split_once_app by (by apply digits_not_sep, show_pair_digits).
  by rewrite strip_prefix_app, !parse_abi_version_show.
Qed.

Lemma graalpy_abi_text v w s : digit_pair v -> digit_pair w ->
  parse_graalpy_abi (show_pair w ++ bs "_" ++ show_pair v ++ bs "_native") s = Ok (AbiGraalPy v w).
Proof.
  intros Hv Hw. unfold parse_graalpy_abi, parse_python_version, parse_impl_version.
  change (bs "_" ++ show_pair v ++ bs "_native") with (95 :: show_pair v ++ 95 :: bs "native").
  rewrite !split_once_app by (by apply digits_not_sep, show_pair_digits).
  by rewrite !parse_abi_version_show.
Qed.

Lemma pyston_abi_text v s : digit_pair v ->
  parse_pyston_abi (bs "_" ++ show_pair v ++ bs "_x86_64_linux_gnu") s = Ok (AbiPyston v).
Proof.
  intros Hv. unfold parse_pyston_abi, parse_impl_version.
  by rewrite strip_prefix_app, strip_suffix_app, parse_abi_version_show.
Qed.

Lemma abi_text t : abi_ok t -> abi_from_str (H := bit_flags) (abi_display (H := bit_flags) t) = Ok t.
Proof.
  destruct t as [| | |[a b] v|[[a b]|] [c d]|[a b] [c d]|[a b]]; cbn [abi_ok abi_display]; try done.
  - intros [Hv Hw]. rewrite <- (cpython_abi_text (a, b) v (bs "cp" ++ show_u64 a ++ show_u64 b ++ variants_display v)) by done.
    unfold show_pair. by rewrite <- app_assoc.
  - intros [Hv Hw].
    rewrite <- (proj2 (pypy_abi_text (c, d) (bs "pypy" ++ show_u64 a ++ show_u64 b ++ bs "_pp" ++ show_u64 c ++ show_u64 d) Hw) (a, b)) by done.
    unfold show_pair. by rewrite <- app_assoc.
  - intros Hv. by rewrite <- (proj1 (pypy_abi_text (c, d) (bs "pypy_" ++ show_u64 c ++ show_u64 d) Hv)).
  - intros [Hv Hw].
    rewrite <- (graalpy_abi_text (a, b) (c, d) (bs "graalpy" ++ show_u64 c ++ show_u64 d ++ bs "_" ++ show_u64 a ++ show_u64 b ++ bs "_native")) by done.
    unfold show_pair. by rewrite <- !app_assoc.
  - intros Hv.
    rewrite <- (pyston_abi_text (a, b) (bs "pyston_" ++ show_u64 a ++ show_u64 b ++ bs "_x86_64_linux_gnu")) by done.
    unfold show_pair. by rewrite <- !app_assoc.
Qed.

(** ** Properties *)

(** Printing a language tag that was parsed and parsing the text again gives
    back the same tag, also when the original text was not the canonical one
    ([cp309], [cp3+9]). *)
Theorem language_tag_roundtrip s t : language_from_str s = Ok t -> language_from_str (language_display t) = Ok t.
Proof. intros H%language_parsed. by apply language_text. Qed.

Lemma language_tag_roundtrip_witness : language_from_str (bs "cp39") = Ok (CPython (3, 9)).
Proof. exact (language_tag_roundtrip (bs "cp3+9") (CPython (3, 9)) eq_refl). Defined.

(** Printing an ABI tag that was parsed and parsing the text again gives back
    the same tag, whatever the order of the flag letters in the original. *)
Theorem abi_tag_roundtrip `{FlagsLaws} s t : abi_from_str s = Ok t -> abi_from_str (abi_display t) = Ok t.
Proof.
  rewrite (abi_from_str_bits s), (abi_from_str_bits (abi_display t)), (abi_display_bits t).
  intros Ht%abi_parsed. by apply abi_text.
Qed.

Lemma abi_tag_roundtrip_witness : abi_from_str (H := bit_flags) (bs "cp37dm") = Ok (AbiCPython (3, 7) 12).
Proof. exact (abi_tag_roundtrip (H := bit_flags) (bs "cp37md") (AbiCPython (3, 7) 12) eq_refl). Defined.
