(* ===== verification/PlatformTags.v ===== *)
(** * Platform tags of wheels

    The model of [platform_tag.rs], of the architectures of [platform.rs] and of
    the macOS, Android and iOS names of [tags.rs] in [uv-platform-tags]: the tag
    [manylinux_2_28_x86_64] of a wheel, its parser and its printer.  Text is a
    list of characters, and the byte offsets the parser slices with are kept: a
    slice that does not fall on a character boundary panics.  The third-party
    function [memchr::memchr] is the interface [Memchr], with its documentation
    ("the index of the first occurrence") as the law [MemchrLaws]. *)

From Stdlib Require Import ZArith Lia String.
From stdpp Require Import base list.
From S2P Require Import Prelude.
From S2P Require Import PythonTags.

Open Scope Z_scope.

(** ** [memchr::memchr] *)

Class Memchr := memchr : Z -> list Z -> option nat.

Class MemchrLaws `{Memchr} : Prop := {
  memchr_found needle a b : Forall (fun c => c <> needle) a -> memchr needle (a ++ needle :: b) = Some (length a);
  memchr_missing needle a : Forall (fun c => c <> needle) a -> memchr needle a = None;
}.

Fixpoint find_index (needle : Z) (l : list Z) : option nat :=
  match l with
  | [] => None
  | c :: l' => if c =? needle then Some O else option_map S (find_index needle l')
  end.

#[export] Instance first_index : Memchr := find_index.

#[export] Instance first_index_laws : MemchrLaws.
Proof.
  split; unfold memchr, first_index; intros needle a.
  - intros b. induction 1 as [|c a Hc _ IH]; cbn; [by rewrite Z.eqb_refl|].
    apply Z.eqb_neq in Hc. by rewrite Hc, IH.
  - induction 1 as [|c a Hc _ IH]; cbn; [done|]. apply Z.eqb_neq in Hc. by rewrite Hc, IH.
Qed.

(** ** Slices *)

(** ** Names *)

(** A [match] of a string against literals. *)
Fixpoint match_str {A} (arms : list (list Z * A)) (s : list Z) : option A :=
  match arms with
  | [] => None
  | (lit, a) :: arms' => if bytes_eqb s lit then Some a else match_str arms' s
  end.

Definition ok_or_msg {A} (msg s : list Z) (o : option A) : result A (list Z) :=
  match o with Some a => Ok a | None => Err (msg ++ s) end.

Inductive Arch :=
| Aarch64 | Armv5TEL | Armv6L | Armv7L | Powerpc64Le | Powerpc64 | Powerpc | X86 | X86_64 | S390X
| LoongArch64 | Riscv64 | Wasm32.

#[export] Instance Arch_eq_dec : EqDecision Arch.
Proof. solve_decision. Defined.

Definition arch_name (a : Arch) : list Z :=
  match a with
  | Aarch64 => bs "aarch64"
  | Armv5TEL => bs "armv5tel"
  | Armv6L => bs "armv6l"
  | Armv7L => bs "armv7l"
  | Powerpc64Le => bs "ppc64le"
  | Powerpc64 => bs "ppc64"
  | Powerpc => bs "ppc"
  | X86 => bs "i686"
  | X86_64 => bs "x86_64"
  | S390X => bs "s390x"
  | LoongArch64 => bs "loongarch64"
  | Riscv64 => bs "riscv64"
  | Wasm32 => bs "wasm32"
  end.

Definition arch_from_str (s : list Z) : result Arch (list Z) :=
  ok_or_msg (bs "Unknown architecture: ") s (match_str
    [(bs "aarch64", Aarch64); (bs "armv5tel", Armv5TEL); (bs "armv6l", Armv6L);
     (bs "armv7l", Armv7L); (bs "armv8l", Armv7L); (bs "ppc64le", Powerpc64Le);
     (bs "ppc64", Powerpc64); (bs "ppc", Powerpc); (bs "i686", X86); (bs "x86_64", X86_64);
     (bs "s390x", S390X); (bs "loongarch64", LoongArch64); (bs "riscv64", Riscv64)] s).

(** [Arch::get_minimum_manylinux_minor] *)
Definition get_minimum_manylinux_minor (a : Arch) : option Z :=
  match a with
  | Aarch64 | Armv7L | Powerpc64 | Powerpc64Le | S390X => Some 17
  | X86 | X86_64 => Some 5
  | Riscv64 => Some 31
  | LoongArch64 => Some 36
  | Powerpc | Armv5TEL | Armv6L | Wasm32 => None
  end.

(** [Arch::machine] *)
Definition machine (a : Arch) : list Z :=
  match a with
  | Aarch64 => bs "arm64"
  | Armv5TEL | Armv6L | Armv7L => bs "arm"
  | Powerpc | Powerpc64Le | Powerpc64 => bs "powerpc"
  | X86 => bs "i386"
  | X86_64 => bs "amd64"
  | Riscv64 => bs "riscv"
  | Wasm32 => bs "wasm32"
  | S390X => bs "s390x"
  | LoongArch64 => bs "loongarch64"
  end.

Inductive BinaryFormat :=
| FArm64 | Fat | Fat32 | Fat64 | I386 | Intel | Ppc | Ppc64 | Universal | Universal2 | FX86_64.

#[export] Instance BinaryFormat_eq_dec : EqDecision BinaryFormat.
Proof. solve_decision. Defined.

Definition format_name (f : BinaryFormat) : list Z :=
  match f with
  | FArm64 => bs "arm64"
  | Fat => bs "fat"
  | Fat32 => bs "fat32"
  | Fat64 => bs "fat64"
  | I386 => bs "i386"
  | Intel => bs "intel"
  | Ppc => bs "ppc"
  | Ppc64 => bs "ppc64"
  | Universal => bs "universal"
  | Universal2 => bs "universal2"
  | FX86_64 => bs "x86_64"
  end.

Definition format_from_str (s : list Z) : result BinaryFormat (list Z) :=
  ok_or_msg (bs "Invalid binary format: ") s (match_str
    [(bs "arm64", FArm64); (bs "fat", Fat); (bs "fat32", Fat32); (bs "fat64", Fat64);
     (bs "i386", I386); (bs "intel", Intel); (bs "ppc", Ppc); (bs "ppc64", Ppc64);
     (bs "universal", Universal); (bs "universal2", Universal2); (bs "x86_64", FX86_64)] s).

(** [BinaryFormat::from_arch]; other architectures are [unreachable!]. *)
Definition format_from_arch (a : Arch) : outcome (list BinaryFormat) :=
  match a with
  | Aarch64 => Ret [FArm64; Universal2]
  | Powerpc64 => Ret [Ppc64; Fat64; Universal]
  | Powerpc => Ret [Ppc; Fat32; Fat; Universal]
  | X86 => Ret [I386; Intel; Fat32; Fat; Universal]
  | X86_64 => Ret [FX86_64; Intel; Fat64; Fat32; Universal2; Universal]
  | _ => Panic
  end.

Inductive AndroidAbi := ArmeabiV7a | Arm64V8a | AX86 | AX86_64.

#[export] Instance AndroidAbi_eq_dec : EqDecision AndroidAbi.
Proof. solve_decision. Defined.

Definition android_name (a : AndroidAbi) : list Z :=
  match a with
  | ArmeabiV7a => bs "armeabi_v7a"
  | Arm64V8a => bs "arm64_v8a"
  | AX86 => bs "x86"
  | AX86_64 => bs "x86_64"
  end.

Definition android_from_str (s : list Z) : result AndroidAbi (list Z) :=
  ok_or_msg (bs "Invalid Android arch format: ") s (match_str
    [(bs "armeabi_v7a", ArmeabiV7a); (bs "arm64_v8a", Arm64V8a); (bs "x86", AX86);
     (bs "x86_64", AX86_64)] s).

Inductive IosMultiarch := Arm64Device | Arm64Simulator | X86_64Simulator.

#[export] Instance IosMultiarch_eq_dec : EqDecision IosMultiarch.
Proof. solve_decision. Defined.

Definition ios_name (m : IosMultiarch) : list Z :=
  match m with
  | Arm64Device => bs "arm64_iphoneos"
  | Arm64Simulator => bs "arm64_iphonesimulator"
  | X86_64Simulator => bs "x86_64_iphonesimulator"
  end.

Definition ios_from_str (s : list Z) : result IosMultiarch (list Z) :=
  ok_or_msg (bs "Invalid multiarch format: ") s (match_str
    [(bs "arm64_iphoneos", Arm64Device); (bs "arm64_iphonesimulator", Arm64Simulator);
     (bs "x86_64_iphonesimulator", X86_64Simulator)] s).

(** [ReleaseArch::from_str] *)
Definition release_arch_from_str (s : list Z) : option (list Z) :=
  if forallb (fun byte => is_ascii_alphanumeric byte || (byte =? 95)) (utf8 s) then Some s else None.

(** ** Platform tags *)

Inductive PlatformTag :=
| Any
| Manylinux (major minor : Z) (arch : Arch)
| Manylinux1 (arch : Arch)
| Manylinux2010 (arch : Arch)
| Manylinux2014 (arch : Arch)
| Linux (arch : Arch)
| Musllinux (major minor : Z) (arch : Arch)
| Macos (major minor : Z) (binary_format : BinaryFormat)
| Win32
| WinAmd64
| WinArm64
| WinIa64
| Android (api_level : Z) (abi : AndroidAbi)
| FreeBsd (release_arch : list Z)
| NetBsd (release_arch : list Z)
| OpenBsd (release_arch : list Z)
| Dragonfly (release_arch : list Z)
| Haiku (release_arch : list Z)
| Illumos (release_arch : list Z)
| Solaris (release_arch : list Z)
| Pyodide (major minor : Z)
| PyEmscripten (major minor : Z)
| Ios (major minor : Z) (multiarch : IosMultiarch).

#[export] Instance PlatformTag_eq_dec : EqDecision PlatformTag.
Proof. solve_decision. Defined.

Inductive ParsePlatformTagError :=
| PlatUnknownFormat (tag : list Z)
| PlatInvalidFormat (platform tag : list Z)
| PlatInvalidMajorVersion (platform tag : list Z)
| PlatInvalidMinorVersion (platform tag : list Z)
| PlatInvalidArch (platform tag : list Z)
| PlatInvalidApiLevel (platform tag : list Z)
| PlatInvalidCharacters (tag : list Z).

(** [PlatformTag::is_manylinux] and the other predicates on tags *)
Definition is_manylinux (t : PlatformTag) : bool :=
  match t with Manylinux _ _ _ | Manylinux1 _ | Manylinux2010 _ | Manylinux2014 _ => true | _ => false end.

Definition is_linux (t : PlatformTag) : bool :=
  match t with
  | Manylinux _ _ _ | Manylinux1 _ | Manylinux2010 _ | Manylinux2014 _ | Musllinux _ _ _ | Linux _ => true
  | _ => false
  end.

Definition is_macos (t : PlatformTag) : bool := match t with Macos _ _ _ => true | _ => false end.
Definition is_android (t : PlatformTag) : bool := match t with Android _ _ => true | _ => false end.
Definition is_windows (t : PlatformTag) : bool :=
  match t with Win32 | WinAmd64 | WinArm64 | WinIa64 => true | _ => false end.

Definition is_arm (t : PlatformTag) : bool :=
  match t with
  | Manylinux _ _ Aarch64 | Manylinux1 Aarch64 | Manylinux2010 Aarch64 | Manylinux2014 Aarch64
  | Linux Aarch64 | Musllinux _ _ Aarch64 | Macos _ _ FArm64
  | Ios _ _ (Arm64Device | Arm64Simulator) | WinArm64 | Android _ Arm64V8a => true
  | _ => false
  end.

Definition is_x86_64 (t : PlatformTag) : bool :=
  match t with
  | Manylinux _ _ X86_64 | Manylinux1 X86_64 | Manylinux2010 X86_64 | Manylinux2014 X86_64
  | Linux X86_64 | Musllinux _ _ X86_64 | Macos _ _ FX86_64 | Ios _ _ X86_64Simulator | WinAmd64 => true
  | _ => false
  end.

Definition is_x86 (t : PlatformTag) : bool :=
  match t with
  | Manylinux _ _ X86 | Manylinux1 X86 | Manylinux2010 X86 | Manylinux2014 X86
  | Linux X86 | Musllinux _ _ X86 | Macos _ _ I386 | Win32 => true
  | _ => false
  end.

Definition is_ppc64le (t : PlatformTag) : bool :=
  match t with
  | Manylinux _ _ Powerpc64Le | Manylinux2014 Powerpc64Le | Linux Powerpc64Le | Musllinux _ _ Powerpc64Le => true
  | _ => false
  end.

Definition is_ppc64 (t : PlatformTag) : bool :=
  match t with
  | Manylinux _ _ Powerpc64 | Manylinux2014 Powerpc64 | Linux Powerpc64 | Musllinux _ _ Powerpc64 => true
  | _ => false
  end.

Definition is_s390x (t : PlatformTag) : bool :=
  match t with
  | Manylinux _ _ S390X | Manylinux2014 S390X | Linux S390X | Musllinux _ _ S390X => true
  | _ => false
  end.

Definition is_riscv64 (t : PlatformTag) : bool :=
  match t with Manylinux _ _ Riscv64 | Linux Riscv64 | Musllinux _ _ Riscv64 => true | _ => false end.

Definition is_loongarch64 (t : PlatformTag) : bool :=
  match t with Manylinux _ _ LoongArch64 | Linux LoongArch64 | Musllinux _ _ LoongArch64 => true | _ => false end.

Definition is_armv7l (t : PlatformTag) : bool :=
  match t with
  | Manylinux _ _ Armv7L | Manylinux2014 Armv7L | Linux Armv7L | Musllinux _ _ Armv7L => true
  | _ => false
  end.

Definition is_armv6l (t : PlatformTag) : bool :=
  match t with
  | Manylinux _ _ Armv6L | Manylinux2014 Armv6L | Linux Armv6L | Musllinux _ _ Armv6L => true
  | _ => false
  end.

(** [impl Display for PlatformTag] *)
Definition platform_display (t : PlatformTag) : list Z :=
  let versioned prefix major minor rest :=
    prefix ++ show_u64 major ++ bs "_" ++ show_u64 minor ++ bs "_" ++ rest in
  match t with
  | Any => bs "any"
  | Manylinux major minor arch => versioned (bs "manylinux_") major minor (arch_name arch)
  | Manylinux1 arch => bs "manylinux1_" ++ arch_name arch
  | Manylinux2010 arch => bs "manylinux2010_" ++ arch_name arch
  | Manylinux2014 arch => bs "manylinux2014_" ++ arch_name arch
  | Linux arch => bs "linux_" ++ arch_name arch
  | Musllinux major minor arch => versioned (bs "musllinux_") major minor (arch_name arch)
  | Macos major minor format => versioned (bs "macosx_") major minor (format_name format)
  | Win32 => bs "win32"
  | WinAmd64 => bs "win_amd64"
  | WinArm64 => bs "win_arm64"
  | WinIa64 => bs "win_ia64"
  | Android api_level abi => bs "android_" ++ show_u64 api_level ++ bs "_" ++ android_name abi
  | FreeBsd release_arch => bs "freebsd_" ++ release_arch
  | NetBsd release_arch => bs "netbsd_" ++ release_arch
  | OpenBsd release_arch => bs "openbsd_" ++ release_arch
  | Dragonfly release_arch => bs "dragonfly_" ++ release_arch
  | Haiku release_arch => bs "haiku_" ++ release_arch
  | Illumos release_arch => bs "illumos_" ++ release_arch
  | Solaris release_arch => bs "solaris_" ++ release_arch ++ bs "_64bit"
  | Pyodide major minor => versioned (bs "pyodide_") major minor (bs "wasm32")
  | PyEmscripten major minor => versioned (bs "pyemscripten_") major minor (bs "wasm32")
  | Ios major minor multiarch => versioned (bs "ios_") major minor (ios_name multiarch)
  end.

(** ** Parsing *)

Definition map_err {A E F} (f : E -> F) (r : result A E) : result A F :=
  match r with Ok a => Ok a | Err e => Err (f e) end.

(** The arms for [freebsd], [netbsd], [openbsd], [dragonfly], [haiku] and
    [illumos]. *)
Definition parse_release_arch (make : list Z -> PlatformTag) (platform rest s : list Z) :
    result PlatformTag ParsePlatformTagError :=
  match rest with
  | [] => Err (PlatInvalidFormat platform s)
  | _ =>
      match release_arch_from_str rest with
      | Some release_arch => Ok (make release_arch)
      | None => Err (PlatInvalidCharacters s)
      end
  end.

Definition parse_solaris (rest s : list Z) : result PlatformTag ParsePlatformTagError :=
  match rest with
  | [] => Err (PlatInvalidFormat (bs "solaris") s)
  | _ =>
      match strip_suffix (bs "_64bit") rest with
      | Some (c :: release_arch) =>
          match release_arch_from_str (c :: release_arch) with
          | Some release_arch => Ok (Solaris release_arch)
          | None => Err (PlatInvalidCharacters s)
          end
      | _ => Err (PlatInvalidArch (bs "solaris") s)
      end
  end.

(** The arms for [manylinux1], [manylinux2010], [manylinux2014] and [linux]. *)
Definition parse_arch (make : Arch -> PlatformTag) (platform rest s : list Z) :
    result PlatformTag ParsePlatformTagError :=
  result_map make (map_err (fun _ => PlatInvalidArch platform s) (arch_from_str rest)).

Section parsing.
Context `{Memchr}.

(** The arms for [manylinux], [musllinux], [macosx] and [ios]: a major and a
    minor version, and the name of an architecture. *)
Definition parse_versioned {A} (parse : list Z -> result A (list Z)) (make : Z -> Z -> A -> PlatformTag)
    (platform rest s : list Z) : outcome (result PlatformTag ParsePlatformTagError) :=
  match memchr 95 (utf8 rest) with
  | None => Ret (Err (PlatInvalidFormat platform s))
  | Some first_underscore =>
      let! tail := bytes_from (utf8 rest) (first_underscore + 1) in
      match memchr 95 tail with
      | None => Ret (Err (PlatInvalidFormat platform s))
      | Some i =>
          let second_underscore := (i + first_underscore + 1)%nat in
          let! major_str := slice_to rest first_underscore in
          match parse_uint u16_max major_str with
          | None => Ret (Err (PlatInvalidMajorVersion platform s))
          | Some major =>
              let! minor_str := slice rest (first_underscore + 1) second_underscore in
              match parse_uint u16_max minor_str with
              | None => Ret (Err (PlatInvalidMinorVersion platform s))
              | Some minor =>
                  let! arch_str := slice_from rest (second_underscore + 1) in
                  match arch_str with
                  | [] => Ret (Err (PlatInvalidFormat platform s))
                  | _ =>
                      Ret (result_map (make major minor)
                             (map_err (fun _ => PlatInvalidArch platform s) (parse arch_str)))
                  end
              end
          end
      end
  end.

Definition parse_manylinux (rest s : list Z) := parse_versioned arch_from_str Manylinux (bs "manylinux") rest s.
Definition parse_musllinux (rest s : list Z) := parse_versioned arch_from_str Musllinux (bs "musllinux") rest s.
Definition parse_macosx (rest s : list Z) := parse_versioned format_from_str Macos (bs "macosx") rest s.
Definition parse_ios (rest s : list Z) := parse_versioned ios_from_str Ios (bs "ios") rest s.

Definition parse_android (rest s : list Z) : outcome (result PlatformTag ParsePlatformTagError) :=
  match memchr 95 (utf8 rest) with
  | None => Ret (Err (PlatInvalidFormat (bs "android") s))
  | Some underscore =>
      let! level_str := slice_to rest underscore in
      match parse_uint u16_max level_str with
      | None => Ret (Err (PlatInvalidApiLevel (bs "android") s))
      | Some api_level =>
          let! abi_str := slice_from rest (underscore + 1) in
          match abi_str with
          | [] => Ret (Err (PlatInvalidFormat (bs "android") s))
          | _ =>
              Ret (result_map (Android api_level)
                     (map_err (fun _ => PlatInvalidArch (bs "android") s) (android_from_str abi_str)))
          end
      end
  end.

(** The arms for [pyodide] and [pyemscripten]. *)
Definition parse_wasm (make : Z -> Z -> PlatformTag) (platform rest s : list Z) :
    outcome (result PlatformTag ParsePlatformTagError) :=
  match strip_suffix (bs "_wasm32") rest with
  | None => Ret (Err (PlatInvalidArch platform s))
  | Some mid =>
      match memchr 95 (utf8 mid) with
      | None => Ret (Err (PlatInvalidFormat platform s))
      | Some underscore =>
          let! major_str := slice_to mid underscore in
          match parse_uint u16_max major_str with
          | None => Ret (Err (PlatInvalidMajorVersion platform s))
          | Some major =>
              let! minor_str := slice_from mid (underscore + 1) in
              match parse_uint u16_max minor_str with
              | None => Ret (Err (PlatInvalidMinorVersion platform s))
              | Some minor => Ret (Ok (make major minor))
              end
          end
      end
  end.

(** A chain of [if let Some(rest) = s.strip_prefix(prefix) { return ... }]. *)
Fixpoint strip_prefixes {A} (arms : list (list Z * (list Z -> A))) (otherwise : A) (s : list Z) : A :=
  match arms with
  | [] => otherwise
  | (prefix, parse) :: arms' =>
      match strip_prefix prefix s with
      | Some rest => parse rest
      | None => strip_prefixes arms' otherwise s
      end
  end.

(** The arms of [PlatformTag::from_str], in order. *)
Definition platform_arms (s : list Z) :
    list (list Z * (list Z -> outcome (result PlatformTag ParsePlatformTagError))) :=
  [(bs "manylinux_", fun rest => parse_manylinux rest s);
   (bs "manylinux1_", fun rest => Ret (parse_arch Manylinux1 (bs "manylinux1") rest s));
   (bs "manylinux2010_", fun rest => Ret (parse_arch Manylinux2010 (bs "manylinux2010") rest s));
   (bs "manylinux2014_", fun rest => Ret (parse_arch Manylinux2014 (bs "manylinux2014") rest s));
   (bs "linux_", fun rest => Ret (parse_arch Linux (bs "linux") rest s));
   (bs "musllinux_", fun rest => parse_musllinux rest s);
   (bs "macosx_", fun rest => parse_macosx rest s);
   (bs "android_", fun rest => parse_android rest s);
   (bs "freebsd_", fun rest => Ret (parse_release_arch FreeBsd (bs "freebsd") rest s));
   (bs "netbsd_", fun rest => Ret (parse_release_arch NetBsd (bs "netbsd") rest s));
   (bs "openbsd_", fun rest => Ret (parse_release_arch OpenBsd (bs "openbsd") rest s));
   (bs "dragonfly_", fun rest => Ret (parse_release_arch Dragonfly (bs "dragonfly") rest s));
   (bs "haiku_", fun rest => Ret (parse_release_arch Haiku (bs "haiku") rest s));
   (bs "illumos_", fun rest => Ret (parse_release_arch Illumos (bs "illumos") rest s));
   (bs "solaris_", fun rest => Ret (parse_solaris rest s));
   (bs "pyodide_", fun rest => parse_wasm Pyodide (bs "pyodide") rest s);
   (bs "pyemscripten_", fun rest => parse_wasm PyEmscripten (bs "pyemscripten") rest s);
   (bs "ios_", fun rest => parse_ios rest s)].

(** [impl FromStr for PlatformTag] *)
Definition platform_from_str (s : list Z) : outcome (result PlatformTag ParsePlatformTagError) :=
  match match_str [(bs "any", Any); (bs "win32", Win32); (bs "win_amd64", WinAmd64);
                   (bs "win_arm64", WinArm64); (bs "win_ia64", WinIa64)] s with
  | Some t => Ret (Ok t)
  | None => strip_prefixes (platform_arms s) (Ret (Err (PlatUnknownFormat s))) s
  end.
End parsing.

(** ** Slices: lemmas *)

Lemma utf8_char_not_sep c : is_char c -> c <> 95 -> Forall (fun b => b <> 95) (utf8_char c).
Proof.
  intros Hc Hne. unfold is_char in Hc. unfold utf8_char.
  destruct (Z.ltb_spec c 128); [by repeat constructor|].
  destruct (Z.ltb_spec c 2048); [repeat constructor; Z.div_mod_to_equations; lia|].
  destruct (Z.ltb_spec c 65536); repeat constructor; Z.div_mod_to_equations; lia.
Qed.

Lemma utf8_not_sep s : Forall is_char s -> Forall (fun c => c <> 95) s -> Forall (fun b => b <> 95) (utf8 s).
Proof.
  induction 1 as [|c s Hc Hs IH]; intros Hn; [constructor|]. inv Hn. cbn [utf8 flat_map]. apply Forall_app.
  split; [by apply utf8_char_not_sep|by apply IH].
Qed.

Lemma split_once_None sep s : split_once sep s = None -> Forall (fun c => c <> sep) s.
Proof.
  induction s as [|c s IH]; [done|]. cbn. destruct (Z.eqb_spec c sep); [done|].
  destruct (split_once sep s); [done|]. intros _. constructor; [done|by apply IH].
Qed.

Section slices.
Context `{MemchrLaws}.

Lemma memchr_split s : Forall is_char s ->
  memchr 95 (utf8 s) = option_map (fun p => str_len p.1) (split_once 95 s).
Proof.
  intros Hs. destruct (split_once 95 s) as [[a b]|] eqn:E; cbn.
  - apply split_once_Some in E as [-> Ha]. apply Forall_app in Hs as [Hs _].
    rewrite utf8_app. change (utf8 (95 :: b)) with (95 :: utf8 b). by apply memchr_found, utf8_not_sep.
  - by apply memchr_missing, utf8_not_sep, split_once_None.
Qed.

(** The slices around the first underscore. *)
Lemma slice_after a b : slice_from (a ++ 95 :: b) (str_len a + 1) = Ret b.
Proof.
  change (95 :: b) with ([95] ++ b). rewrite app_assoc.
  replace (str_len a + 1)%nat with (str_len (a ++ [95])) by (by rewrite str_len_app). apply slice_from_app.
Qed.

Lemma bytes_after a b : bytes_from (utf8 (a ++ 95 :: b)) (str_len a + 1) = Ret (utf8 b).
Proof.
  unfold bytes_from. rewrite utf8_app. change (utf8 (95 :: b)) with ([95] ++ utf8 b).
  replace (str_len a + 1)%nat with (length (utf8 a ++ [95])) by (by rewrite length_app).
  rewrite app_assoc. destruct (Nat.leb_spec (length (utf8 a ++ [95])) (length ((utf8 a ++ [95]) ++ utf8 b))) as [_|Hl].
  - by rewrite drop_app_length.
  - rewrite (length_app (_ ++ _)) in Hl. lia.
Qed.

(** The arms that slice with byte offsets split at underscores. *)
Lemma parse_versioned_split {A} (parse : list Z -> result A (list Z)) make platform rest s :
  Forall is_char rest ->
  parse_versioned parse make platform rest s =
  Ret (match split_once 95 rest with
       | None => Err (PlatInvalidFormat platform s)
       | Some (a, r) =>
           match split_once 95 r with
           | None => Err (PlatInvalidFormat platform s)
           | Some (b, name) =>
               match parse_uint u16_max a, parse_uint u16_max b, name with
               | None, _, _ => Err (PlatInvalidMajorVersion platform s)
               | _, None, _ => Err (PlatInvalidMinorVersion platform s)
               | _, _, [] => Err (PlatInvalidFormat platform s)
               | Some major, Some minor, _ =>
                   result_map (make major minor) (map_err (fun _ => PlatInvalidArch platform s) (parse name))
               end
           end
       end).
Proof.
  intros Hr. unfold parse_versioned. rewrite memchr_split by done.
  destruct (split_once 95 rest) as [[a r]|] eqn:E; [|done]. cbn [option_map fst].
  apply split_once_Some in E as [-> Ha]. apply Forall_app in Hr as [Hca Hcr]. inv Hcr.
  rewrite bytes_after. cbn [obind]. rewrite memchr_split by done.
  destruct (split_once 95 r) as [[b name]|] eqn:E; [|done]. cbn [option_map fst].
  apply split_once_Some in E as [-> Hb]. rewrite slice_to_app. cbn [obind].
  destruct (parse_uint u16_max a) as [major|]; [|done].
  replace (str_len b + str_len a + 1)%nat with (str_len (a ++ 95 :: b))
    by (rewrite str_len_app, str_len_cons_ascii by lia; lia).
  assert (Ea : a ++ 95 :: b ++ 95 :: name = (a ++ 95 :: b) ++ 95 :: name) by (by rewrite <- app_assoc).
  unfold slice. rewrite Ea, slice_to_app. cbn [obind]. rewrite slice_after. cbn [obind].
  destruct (parse_uint u16_max b) as [minor|]; [|done]. rewrite slice_after. cbn [obind]. by destruct name.
Qed.

Lemma parse_android_split rest s : Forall is_char rest ->
  parse_android rest s =
  Ret (match split_once 95 rest with
       | None => Err (PlatInvalidFormat (bs "android") s)
       | Some (a, name) =>
           match parse_uint u16_max a, name with
           | None, _ => Err (PlatInvalidApiLevel (bs "android") s)
           | _, [] => Err (PlatInvalidFormat (bs "android") s)
           | Some level, _ =>
               result_map (Android level) (map_err (fun _ => PlatInvalidArch (bs "android") s) (android_from_str name))
           end
       end).
Proof.
  intros Hr. unfold parse_android. rewrite memchr_split by done.
  destruct (split_once 95 rest) as [[a r]|] eqn:E; [|done]. cbn [option_map fst].
  apply split_once_Some in E as [-> Ha]. rewrite slice_to_app. cbn [obind].
  destruct (parse_uint u16_max a) as [level|]; [|done]. rewrite slice_after. cbn [obind]. by destruct r.
Qed.

Lemma parse_wasm_split make platform rest s : Forall is_char rest ->
  parse_wasm make platform rest s =
  Ret (match strip_suffix (bs "_wasm32") rest with
       | None => Err (PlatInvalidArch platform s)
       | Some mid =>
           match split_once 95 mid with
           | None => Err (PlatInvalidFormat platform s)
           | Some (a, b) =>
               match parse_uint u16_max a, parse_uint u16_max b with
               | None, _ => Err (PlatInvalidMajorVersion platform s)
               | _, None => Err (PlatInvalidMinorVersion platform s)
               | Some major, Some minor => Ok (make major minor)
               end
           end
       end).
Proof.
  intros Hr. unfold parse_wasm. destruct (strip_suffix _ rest) as [mid|] eqn:E; [|done].
  apply strip_suffix_Some in E as ->. apply Forall_app in Hr as [Hm _]. rewrite memchr_split by done.
  destruct (split_once 95 mid) as [[a b]|] eqn:E; [|done]. cbn [option_map fst].
  apply split_once_Some in E as [-> Ha]. rewrite slice_to_app. cbn [obind].
  destruct (parse_uint u16_max a) as [major|]; [|done]. rewrite slice_after. cbn [obind].
  by destruct (parse_uint u16_max b).
Qed.
End slices.

(** ** What the parser returns *)

Definition is_u16 (n : Z) : Prop := 0 <= n <= u16_max.

Definition release_arch_ok (r : list Z) : Prop := r <> [] /\ release_arch_from_str r = Some r.

Definition platform_ok (t : PlatformTag) : Prop :=
  match t with
  | Any | Win32 | WinAmd64 | WinArm64 | WinIa64 => True
  | Manylinux a b arch | Musllinux a b arch => is_u16 a /\ is_u16 b /\ arch <> Wasm32
  | Manylinux1 arch | Manylinux2010 arch | Manylinux2014 arch | Linux arch => arch <> Wasm32
  | Macos a b _ | Ios a b _ | Pyodide a b | PyEmscripten a b => is_u16 a /\ is_u16 b
  | Android a _ => is_u16 a
  | FreeBsd r | NetBsd r | OpenBsd r | Dragonfly r | Haiku r | Illumos r | Solaris r => release_arch_ok r
  end.

(** A parse that does not panic, and returns such tags only. *)
Definition parses_ok (o : outcome (result PlatformTag ParsePlatformTagError)) : Prop :=
  exists r, o = Ret r /\ forall t, r = Ok t -> platform_ok t.

Lemma parses_ok_Ret r : (forall t, r = Ok t -> platform_ok t) -> parses_ok (Ret r).
Proof. intros H. by exists r. Qed.

Lemma parse_u16_range s n : parse_uint u16_max s = Some n -> is_u16 n.
Proof. by intros [? _]%parse_uint_bound. Qed.

Lemma match_str_In {A} (arms : list (list Z * A)) s a : match_str arms s = Some a -> In a (map snd arms).
Proof.
  induction arms as [|[lit x] arms IH]; [done|]. cbn. destruct (bytes_eqb s lit); [intros [= <-]; by left|].
  intros H%IH. by right.
Qed.

Lemma arch_parsed s a : arch_from_str s = Ok a -> a <> Wasm32.
Proof.
  unfold arch_from_str, ok_or_msg. destruct (match_str _ s) as [x|] eqn:E; [|done]. intros [= <-] ->.
  apply match_str_In in E. cbn in E. by repeat destruct E as [E|E].
Qed.

Lemma release_arch_parsed s r : release_arch_from_str s = Some r -> r = s /\ release_arch_from_str r = Some r.
Proof. unfold release_arch_from_str. destruct (forallb _ (utf8 s)) eqn:E; [|done]. intros [= <-]. by rewrite E. Qed.

Lemma parse_release_arch_ok make platform rest s : (forall r, release_arch_ok r -> platform_ok (make r)) ->
  parses_ok (Ret (parse_release_arch make platform rest s)).
Proof.
  intros Hm. apply parses_ok_Ret. intros t. unfold parse_release_arch. destruct rest as [|c rest]; [done|].
  destruct (release_arch_from_str _) as [r|] eqn:E; [|done]. intros [= <-].
  apply release_arch_parsed in E as [-> E]. by apply Hm.
Qed.

Lemma parse_solaris_ok rest s : parses_ok (Ret (parse_solaris rest s)).
Proof.
  apply parses_ok_Ret. intros t. unfold parse_solaris. destruct rest as [|c rest]; [done|].
  destruct (strip_suffix _ _) as [[|x y]|]; [done| |done].
  destruct (release_arch_from_str _) as [r|] eqn:E; [|done]. intros [= <-].
  by apply release_arch_parsed in E as [-> E].
Qed.

Lemma parse_arch_ok make platform rest s : (forall a, a <> Wasm32 -> platform_ok (make a)) ->
  parses_ok (Ret (parse_arch make platform rest s)).
Proof.
  intros Hm. apply parses_ok_Ret. intros t. unfold parse_arch.
  destruct (arch_from_str rest) as [a|] eqn:E; [|done]. intros [= <-]. by apply Hm, (arch_parsed rest).
Qed.

Section parsed.
Context `{MemchrLaws}.

Lemma parse_versioned_ok {A} (parse : list Z -> result A (list Z)) make platform rest s :
  (forall a b x, is_u16 a -> is_u16 b -> (exists name, parse name = Ok x) -> platform_ok (make a b x)) ->
  Forall is_char rest -> parses_ok (parse_versioned parse make platform rest s).
Proof.
  intros Hm Hr. rewrite parse_versioned_split by done. apply parses_ok_Ret. intros t.
  destruct (split_once 95 rest) as [[a r]|]; [|done]. destruct (split_once 95 r) as [[b name]|]; [|done].
  destruct (parse_uint u16_max a) as [major|] eqn:Ea; [|done].
  destruct (parse_uint u16_max b) as [minor|] eqn:Eb; [|done]. destruct name as [|c name]; [done|].
  destruct (parse (c :: name)) as [x|] eqn:E; [|done]. intros [= <-].
  apply Hm; [by apply (parse_u16_range a)|by apply (parse_u16_range b)|by eexists].
Qed.

Lemma parse_android_ok rest s : Forall is_char rest -> parses_ok (parse_android rest s).
Proof.
  intros Hr. rewrite parse_android_split by done. apply parses_ok_Ret. intros t.
  destruct (split_once 95 rest) as [[a r]|]; [|done].
  destruct (parse_uint u16_max a) as [level|] eqn:Ea; [|done]. destruct r as [|c r]; [done|].
  destruct (android_from_str (c :: r)); [|done]. intros [= <-]. by apply (parse_u16_range a).
Qed.

Lemma parse_wasm_ok make platform rest s : (forall a b, is_u16 a -> is_u16 b -> platform_ok (make a b)) ->
  Forall is_char rest -> parses_ok (parse_wasm make platform rest s).
Proof.
  intros Hm Hr. rewrite parse_wasm_split by done. apply parses_ok_Ret. intros t.
  destruct (strip_suffix _ rest) as [mid|]; [|done]. destruct (split_once 95 mid) as [[a b]|]; [|done].
  destruct (parse_uint u16_max a) as [major|] eqn:Ea; [|done].
  destruct (parse_uint u16_max b) as [minor|] eqn:Eb; [|done]. intros [= <-].
  apply Hm; [by apply (parse_u16_range a)|by apply (parse_u16_range b)].
Qed.

(** A property of every arm holds of the chain. *)
Lemma strip_prefixes_ind {A} (P : A -> Prop) arms otherwise s : P otherwise ->
  Forall (fun arm => forall rest, s = arm.1 ++ rest -> P (arm.2 rest)) arms ->
  P (strip_prefixes arms otherwise s).
Proof.
  intros Ho. induction 1 as [|[prefix parse] arms Ha Hs IH]; [done|]. cbn [strip_prefixes fst snd] in *.
  destruct (strip_prefix prefix s) as [rest|] eqn:E; [|done]. by apply Ha, strip_prefix_Some.
Qed.

Lemma platform_parsed s : Forall is_char s -> parses_ok (platform_from_str s).
Proof.
  intros Hs. unfold platform_from_str. destruct (match_str _ s) as [t|] eqn:E.
  { apply match_str_In in E. apply parses_ok_Ret. intros t' [= <-]. cbn in E. by repeat destruct E as [<-|E]. }
  clear E. apply strip_prefixes_ind; [by apply parses_ok_Ret|].
  unfold platform_arms. repeat (apply Forall_cons; split); [..|apply Forall_nil; done].
  all: intros rest E; cbn [fst snd] in *; rewrite E in Hs; apply Forall_app in Hs as [_ Hr].
  all: first [by apply parse_release_arch_ok | by apply parse_solaris_ok | by apply parse_arch_ok
             | by apply parse_android_ok | by apply parse_wasm_ok | apply parse_versioned_ok; [|done]].
  all: intros a b x Ha Hb [name Hx]; repeat split; try apply Ha; try apply Hb; by apply (arch_parsed name).
Qed.
End parsed.

(** ** Parsing what was printed *)

Lemma forallb_is_char s : forallb (fun c => (0 <=? c) && (c <=? 1114111)) s = true -> Forall is_char s.
Proof.
  induction s as [|c s IH]; [constructor|]. cbn. intros H. bool_norm. constructor; [unfold is_char; lia|auto].
Qed.

Lemma show_u16_char n : is_u16 n -> Forall is_char (show_u64 n).
Proof.
  intros H. assert (Hu : is_u64 n) by (unfold is_u16, u16_max in H; unfold is_u64, u64_max; lia).
  generalize (show_u64_ascii n Hu). apply List.Forall_impl. unfold is_char. lia.
Qed.

Lemma show_u16_not_sep n : is_u16 n -> Forall (fun c => c <> 95) (show_u64 n).
Proof.
  intros H. assert (Hu : is_u64 n) by (unfold is_u16, u16_max in H; unfold is_u64, u64_max; lia).
  apply digits_not_sep, (show_u64_spec n Hu).
Qed.

Lemma parse_u16_show n : is_u16 n -> parse_uint u16_max (show_u64 n) = Some n.
Proof. intros H. apply parse_uint_show; unfold is_u16, u16_max, u64_max in *; lia. Qed.

Lemma arch_text a : a <> Wasm32 -> arch_from_str (arch_name a) = Ok a.
Proof. by destruct a. Qed.

Lemma format_text f : format_from_str (format_name f) = Ok f.
Proof. by destruct f. Qed.

Lemma android_text a : android_from_str (android_name a) = Ok a.
Proof. by destruct a. Qed.

Lemma ios_text m : ios_from_str (ios_name m) = Ok m.
Proof. by destruct m. Qed.

Lemma names_are_text : (forall a, Forall is_char (arch_name a) /\ arch_name a <> []) /\
  (forall f, Forall is_char (format_name f) /\ format_name f <> []) /\
  (forall a, Forall is_char (android_name a) /\ android_name a <> []) /\
  (forall m, Forall is_char (ios_name m) /\ ios_name m <> []).
Proof. repeat split; try (apply forallb_is_char); by destruct a || by destruct f || by destruct m. Qed.

Lemma parse_arch_text make platform a s : a <> Wasm32 -> parse_arch make platform (arch_name a) s = Ok (make a).
Proof. intros H. unfold parse_arch. by rewrite arch_text. Qed.

Lemma parse_release_arch_text make platform r s : release_arch_ok r -> parse_release_arch make platform r s = Ok (make r).
Proof. intros [Hne H]. unfold parse_release_arch. destruct r; [done|]. by rewrite H. Qed.

Lemma parse_solaris_text r s : release_arch_ok r -> parse_solaris (r ++ bs "_64bit") s = Ok (Solaris r).
Proof.
  intros [Hne H]. unfold parse_solaris. rewrite strip_suffix_app. destruct r as [|c r]; [done|]. cbn [app].
  by rewrite H.
Qed.

Section printed.
Context `{MemchrLaws}.

Lemma parse_versioned_text {A} (parse : list Z -> result A (list Z)) make platform a b name x s :
  is_u16 a -> is_u16 b -> Forall is_char name /\ name <> [] -> parse name = Ok x ->
  parse_versioned parse make platform (show_u64 a ++ bs "_" ++ show_u64 b ++ bs "_" ++ name) s = Ret (Ok (make a b x)).
Proof.
  intros Ha Hb [Hc Hn] Hx. rewrite parse_versioned_split.
  2: { repeat (apply Forall_app; split); auto using show_u16_char; by apply forallb_is_char. }
  change (bs "_" ++ show_u64 b ++ bs "_" ++ name) with (95 :: show_u64 b ++ 95 :: name).
  rewrite !split_once_app, !parse_u16_show by auto using show_u16_not_sep.
  destruct name as [|c name]; [done|]. by rewrite Hx.
Qed.

Lemma parse_android_text level abi s : is_u16 level ->
  parse_android (show_u64 level ++ bs "_" ++ android_name abi) s = Ret (Ok (Android level abi)).
Proof.
  intros Hl. destruct (proj1 (proj2 (proj2 names_are_text)) abi) as [Hc Hn]. rewrite parse_android_split.
  2: { repeat (apply Forall_app; split); auto using show_u16_char. by apply forallb_is_char. }
  change (bs "_" ++ android_name abi) with (95 :: android_name abi).
  rewrite split_once_app, parse_u16_show, android_text by auto using show_u16_not_sep.
  by destruct (android_name abi).
Qed.

Lemma parse_wasm_text make platform a b s : is_u16 a -> is_u16 b ->
  parse_wasm make platform (show_u64 a ++ bs "_" ++ show_u64 b ++ bs "_" ++ bs "wasm32") s = Ret (Ok (make a b)).
Proof.
  intros Ha Hb. rewrite parse_wasm_split.
  2: { repeat (apply Forall_app; split); auto using show_u16_char; by apply forallb_is_char. }
  assert (E : show_u64 a ++ bs "_" ++ show_u64 b ++ bs "_" ++ bs "wasm32" = (show_u64 a ++ 95 :: show_u64 b) ++ bs "_wasm32")
    by (by rewrite <- app_assoc).
  rewrite E, strip_suffix_app, split_once_app by auto using show_u16_not_sep. by rewrite !parse_u16_show.
Qed.

(** The printed form of a tag selects its arm. *)
Lemma platform_text t : platform_ok t -> platform_from_str (platform_display t) = Ret (Ok t).
Proof.
  destruct names_are_text as (Ha & Hf & _ & Hi).
  destruct t; cbn [platform_ok platform_display]; intros Ht; [done|..].
  - destruct Ht as (H1 & H2 & H3). refine (parse_versioned_text _ _ _ _ _ _ _ _ H1 H2 (Ha arch) (arch_text _ H3)).
  - refine (f_equal Ret (parse_arch_text Manylinux1 _ _ _ Ht)).
  - refine (f_equal Ret (parse_arch_text Manylinux2010 _ _ _ Ht)).
  - refine (f_equal Ret (parse_arch_text Manylinux2014 _ _ _ Ht)).
  - refine (f_equal Ret (parse_arch_text Linux _ _ _ Ht)).
  - destruct Ht as (H1 & H2 & H3). refine (parse_versioned_text _ _ _ _ _ _ _ _ H1 H2 (Ha arch) (arch_text _ H3)).
  - destruct Ht as (H1 & H2). refine (parse_versioned_text _ _ _ _ _ _ _ _ H1 H2 (Hf _) (format_text _)).
  - done.
  - done.
  - done.
  - done.
  - refine (parse_android_text _ _ _ Ht).
  - refine (f_equal Ret (parse_release_arch_text FreeBsd _ _ _ Ht)).
  - refine (f_equal Ret (parse_release_arch_text NetBsd _ _ _ Ht)).
  - refine (f_equal Ret (parse_release_arch_text OpenBsd _ _ _ Ht)).
  - refine (f_equal Ret (parse_release_arch_text Dragonfly _ _ _ Ht)).
  - refine (f_equal Ret (parse_release_arch_text Haiku _ _ _ Ht)).
  - refine (f_equal Ret (parse_release_arch_text Illumos _ _ _ Ht)).
  - refine (f_equal Ret (parse_solaris_text _ _ Ht)).
  - destruct Ht as (H1 & H2). refine (parse_wasm_text Pyodide _ _ _ _ H1 H2).
  - destruct Ht as (H1 & H2). refine (parse_wasm_text PyEmscripten _ _ _ _ H1 H2).
  - destruct Ht as (H1 & H2). refine (parse_versioned_text _ _ _ _ _ _ _ _ H1 H2 (Hi _) (ios_text _)).
Qed.
End printed.

(** The predicates that say for which architecture and system a tag is. *)
Definition arch_predicates : list (PlatformTag -> bool) :=
  [is_arm; is_x86_64; is_x86; is_ppc64le; is_ppc64; is_s390x; is_riscv64; is_loongarch64; is_armv7l; is_armv6l].

Definition os_predicates : list (PlatformTag -> bool) := [is_linux; is_macos; is_android; is_windows].

Definition count_true (preds : list (PlatformTag -> bool)) (t : PlatformTag) : nat :=
  length (List.filter (fun p => p t) preds).

Lemma predicates_exclusive t : (count_true arch_predicates t <= 1)%nat /\ (count_true os_predicates t <= 1)%nat.
Proof.
  destruct t as [|m n a|a|a|a|a|m n a|m n f| | | | |n a| | | | | | | |m n|m n|m n m']; unfold count_true.
  all: try (cbn; lia).
  all: try (destruct a; cbn; lia).
  all: try (destruct f; cbn; lia).
  all: destruct m'; cbn; lia.
Qed.

(** ** Properties *)

(** Parsing a platform tag never panics (every slice falls on a character
    boundary), and printing a parsed tag and parsing the text again gives back
    the same tag ([armv8l] is printed as [armv7l], and read as the same
    architecture). *)
Theorem platform_tag_roundtrip `{MemchrLaws} s : Forall is_char s ->
  exists r, platform_from_str s = Ret r /\
    forall t, r = Ok t -> platform_from_str (platform_display t) = Ret (Ok t).
Proof.
  intros Hs. destruct (platform_parsed s Hs) as (r & E & Hr). exists r. split; [done|].
  intros t Ht. by apply platform_text, Hr.
Qed.

Lemma platform_tag_roundtrip_witness :
  platform_from_str (H := first_index) (bs "manylinux_2_17_armv7l") = Ret (Ok (Manylinux 2 17 Armv7L)).
Proof.
  destruct (platform_tag_roundtrip (H := first_index) (bs "manylinux_2_17_armv8l")
              ltac:(apply forallb_is_char; reflexivity)) as (r & E & Hr).
  refine (Hr (Manylinux 2 17 Armv7L) _). assert (E' := E). vm_compute in E'. by injection E' as <-.
Defined.
