(* ===== verification/Tags.v ===== *)
(** * Compatible tags of an environment

    The model of [Tags] in [tags.rs] of [uv-platform-tags] and of the platform it
    is made for ([platform.rs]): the list of tags an interpreter accepts, from
    the most to the least specific, and the test whether a wheel's tags are among
    them.  The nested hash maps are finite maps.  The texts of
    [PlatformError::OsVersionDetectionError] and the offending string of
    [PlatformError::InvalidReleaseArch] are not kept. *)

From Stdlib Require Import ZArith Lia String.
From stdpp Require Import base list gmap.
From S2P Require Import Prelude.
From S2P Require Import PythonTags.
From S2P Require Import PlatformTags.

Open Scope Z_scope.

(** ** Platforms *)

Inductive Os :=
| OsManylinux (major minor : Z)
| OsMusllinux (major minor : Z)
| OsWindows
| OsPyodide (major minor : Z)
| OsPyEmscripten (major minor : Z)
| OsMacos (major minor : Z)
| OsFreeBsd (release : list Z)
| OsNetBsd (release : list Z)
| OsOpenBsd (release : list Z)
| OsDragonfly (release : list Z)
| OsIllumos (release arch : list Z)
| OsHaiku (release : list Z)
| OsAndroid (api_level : Z)
| OsIos (major minor : Z) (simulator : bool).

Record Platform := mkPlatform { os : Os; arch : Arch }.

Inductive PlatformError :=
| UnsupportedMacosVersion (major : Z)
| IllumosMajorNotANumber
| UnsupportedCombination (o : Os) (a : Arch)
| InvalidReleaseArch
| InvalidAndroidArch (a : Arch)
| InvalidIosSimulatorArch (a : Arch)
| InvalidIosDeviceArch (a : Arch).

(** [AndroidAbi::from_arch] *)
Definition android_from_arch (a : Arch) : result AndroidAbi PlatformError :=
  match a with
  | Aarch64 => Ok Arm64V8a
  | Armv7L => Ok ArmeabiV7a
  | X86 => Ok AX86
  | X86_64 => Ok AX86_64
  | _ => Err (InvalidAndroidArch a)
  end.

(** [IosMultiarch::from_arch] *)
Definition ios_from_arch (a : Arch) (simulator : bool) : result IosMultiarch PlatformError :=
  if simulator then
    match a with
    | Aarch64 => Ok Arm64Simulator
    | X86_64 => Ok X86_64Simulator
    | _ => Err (InvalidIosSimulatorArch a)
    end
  else
    match a with
    | Aarch64 => Ok Arm64Device
    | _ => Err (InvalidIosDeviceArch a)
    end.

(** [(lo..=hi).rev()] and [(lo..hi).rev()] *)
Definition down_from (hi lo : Z) : list Z := rev (seqZ lo (hi - lo + 1)).
Definition down_below (hi lo : Z) : list Z := rev (seqZ lo (hi - lo)).

(** [release.replace(['.', '-'], "_")] *)
Definition underscores (s : list Z) : list Z :=
  map (fun c => if (c =? 46) || (c =? 45) then 95 else c) s.

(** [str::to_lowercase] as far as ASCII results are concerned: the only other
    character with an ASCII lower case is the Kelvin sign. *)
Definition to_lowercase (s : list Z) : list Z :=
  map (fun c => if c =? 8490 then 107 else to_ascii_lowercase c) s.

(** [release_arch.parse::<ReleaseArch>()] and the tag made of it. *)
Definition release_tag (make : list Z -> PlatformTag) (release_arch : list Z) :
    result (list PlatformTag) PlatformError :=
  match release_arch_from_str release_arch with
  | Some r => Ok [make r]
  | None => Err InvalidReleaseArch
  end.

(** The manylinux tags of one glibc version, with the legacy names. *)
Definition manylinux_tags (major : Z) (a : Arch) (minor : Z) : list PlatformTag :=
  [Manylinux major minor a]
  ++ (if minor =? 12 then [Manylinux2010 a] else [])
  ++ (if minor =? 17 then [Manylinux2014 a] else [])
  ++ (if minor =? 5 then [Manylinux1 a] else []).

Definition macos_tags (major minor : Z) (formats : list BinaryFormat) : list PlatformTag :=
  map (Macos major minor) formats.

Definition macos_x86_64_tags (major minor : Z) (a : Arch) : outcome (result (list PlatformTag) PlatformError) :=
  if major =? 10 then
    let! formats := format_from_arch a in
    Ret (Ok (flat_map (fun minor => macos_tags 10 minor formats) (down_from minor 4)))
  else if 11 <=? major then
    let! formats := format_from_arch a in
    Ret (Ok (flat_map (fun major => macos_tags major 0 formats) (down_from major 11)
             ++ flat_map (fun minor => macos_tags 10 minor formats) (down_from 16 4)))
  else Ret (Err (UnsupportedMacosVersion major)).

Definition macos_aarch64_tags (major : Z) (a : Arch) : outcome (result (list PlatformTag) PlatformError) :=
  let! formats := format_from_arch a in
  Ret (Ok (flat_map (fun major => macos_tags major 0 formats) (down_from major 11)
           ++ map (fun minor => Macos 10 minor Universal2) (down_from 16 4))).

Definition illumos_tags (release a : list Z) : result (list PlatformTag) PlatformError :=
  match split_once 95 release with
  | Some (major, other) =>
      match parse_uint u64_max major with
      | None => Err IllumosMajorNotANumber
      | Some major_ver =>
          if 5 <=? major_ver then
            let release := show_u64 (major_ver - 3) ++ bs "_" ++ other in
            let a := a ++ bs "_64bit" in
            release_tag Solaris (release ++ bs "_" ++ a)
          else release_tag Illumos (release ++ bs "_" ++ a)
      end
  | None => release_tag Illumos (release ++ bs "_" ++ a)
  end.

Definition android_tags (api_level : Z) (a : Arch) : result (list PlatformTag) PlatformError :=
  match down_from api_level 16 with
  | [] => Ok []
  | levels => result_map (fun abi => map (fun ver => Android ver abi) levels) (android_from_arch a)
  end.

Definition ios_tags (major minor : Z) (simulator : bool) (a : Arch) : result (list PlatformTag) PlatformError :=
  match ios_from_arch a simulator with
  | Err e => Err e
  | Ok multiarch =>
      if major <? 12 then Ok []
      else
        Ok ([Ios major minor multiarch]
            ++ map (fun min => Ios major min multiarch) (down_below minor 0)
            ++ flat_map (fun maj => map (fun min => Ios maj min multiarch) (down_from 9 0)) (down_below major 12))
  end.

(** [compatible_tags] *)
Definition compatible_tags (platform : Platform) : outcome (result (list PlatformTag) PlatformError) :=
  let arch := arch platform in
  match os platform, arch with
  | OsManylinux major minor, _ =>
      Ret (Ok (match get_minimum_manylinux_minor arch with
               | Some min_minor => flat_map (manylinux_tags major arch) (down_from minor min_minor)
               | None => []
               end ++ [Linux arch]))
  | OsMusllinux major minor, _ =>
      Ret (Ok (map (fun minor => Musllinux major minor arch) (down_from minor 0) ++ [Linux arch]))
  | OsMacos major minor, X86_64 => macos_x86_64_tags major minor arch
  | OsMacos major _, Aarch64 => macos_aarch64_tags major arch
  | OsWindows, X86 => Ret (Ok [Win32])
  | OsWindows, X86_64 => Ret (Ok [WinAmd64])
  | OsWindows, Aarch64 => Ret (Ok [WinArm64])
  | OsFreeBsd release, _ =>
      Ret (release_tag FreeBsd (to_lowercase (underscores release) ++ bs "_" ++ machine arch))
  | OsNetBsd release, _ => Ret (release_tag NetBsd (underscores release ++ bs "_" ++ machine arch))
  | OsOpenBsd release, _ => Ret (release_tag OpenBsd (underscores release ++ bs "_" ++ machine arch))
  | OsDragonfly release, _ => Ret (release_tag Dragonfly (underscores release ++ bs "_" ++ arch_name arch))
  | OsHaiku release, _ => Ret (release_tag Haiku (underscores release ++ bs "_" ++ arch_name arch))
  | OsIllumos release a, _ => Ret (illumos_tags release a)
  | OsAndroid api_level, _ => Ret (android_tags api_level arch)
  | OsPyodide major minor, Wasm32 => Ret (Ok [PyEmscripten major minor; Pyodide major minor])
  | OsPyEmscripten major minor, Wasm32 => Ret (Ok [PyEmscripten major minor; Pyodide major minor])
  | OsIos major minor simulator, _ => Ret (ios_tags major minor simulator arch)
  | o, a => Ret (Err (UnsupportedCombination o a))
  end.

(** ** Compatibility *)

Inductive IncompatibleTag :=
| Invalid | IncompatiblePython | IncompatibleAbi | FreethreadedAbi | AbiPythonVersion | IncompatiblePlatform.

Inductive TagCompatibility :=
| Incompatible (t : IncompatibleTag)
| Compatible (p : Z).

(** The derived order of [IncompatibleTag]. *)
Definition incompatible_rank (t : IncompatibleTag) : Z :=
  match t with
  | Invalid => 0
  | IncompatiblePython => 1
  | IncompatibleAbi => 2
  | FreethreadedAbi => 3
  | AbiPythonVersion => 4
  | IncompatiblePlatform => 5
  end.

(** [impl Ord for TagCompatibility], and [Ord::max] for it. *)
Definition compatibility_cmp (a b : TagCompatibility) : comparison :=
  match a, b with
  | Compatible p, Compatible q => p ?= q
  | Incompatible _, Compatible _ => Lt
  | Compatible _, Incompatible _ => Gt
  | Incompatible t, Incompatible u => incompatible_rank t ?= incompatible_rank u
  end.

Definition compatibility_max (a b : TagCompatibility) : TagCompatibility :=
  if is_gt (compatibility_cmp a b) then a else b.

Definition compatibility_is_compatible (c : TagCompatibility) : bool :=
  match c with Compatible _ => true | Incompatible _ => false end.

(** ** [TagPriority] *)

Definition u32_max : Z := 4294967295.

(** [TagPriority::try_from(index).expect(...)] *)
Definition tag_priority (index : Z) : outcome Z :=
  if index <? u32_max then Ret (1 + index) else Panic.

(** ** Tags as keys of hash maps *)

#[export] Instance LanguageTag_eq_dec : EqDecision LanguageTag.
Proof. solve_decision. Defined.

#[export] Instance AbiTag_eq_dec : EqDecision AbiTag.
Proof. solve_decision. Defined.

Definition LanguageCode : Type := Z * (Z * option Z).

Definition language_code (t : LanguageTag) : LanguageCode :=
  match t with
  | LangNone => (0, (0, None))
  | Python major minor => (1, (major, minor))
  | CPython v => (2, (v.1, Some v.2))
  | PyPy v => (3, (v.1, Some v.2))
  | GraalPy v => (4, (v.1, Some v.2))
  | Pyston v => (5, (v.1, Some v.2))
  | CPythonMajor major => (6, (major, None))
  end.

Definition language_of_code (c : LanguageCode) : LanguageTag :=
  match c with
  | (1, (major, minor)) => Python major minor
  | (2, (a, Some b)) => CPython (a, b)
  | (3, (a, Some b)) => PyPy (a, b)
  | (4, (a, Some b)) => GraalPy (a, b)
  | (5, (a, Some b)) => Pyston (a, b)
  | (6, (major, _)) => CPythonMajor major
  | _ => LangNone
  end.

#[export] Instance LanguageTag_countable : Countable LanguageTag.
Proof. apply (inj_countable' language_code language_of_code). by intros [|? ?|[]|[]|[]|[]|?]. Defined.

Definition AbiCode : Type := Z * (option (Z * Z) * (Z * Z)).

Definition abi_code (t : AbiTag) : AbiCode :=
  match t with
  | AbiNone => (0, (None, (0, 0)))
  | Abi3 => (1, (None, (0, 0)))
  | Abi3T => (2, (None, (0, 0)))
  | AbiCPython v variant => (3, (Some v, (variant, 0)))
  | AbiPyPy v w => (4, (v, w))
  | AbiGraalPy v w => (5, (Some v, w))
  | AbiPyston w => (6, (None, w))
  end.

Definition abi_of_code (c : AbiCode) : AbiTag :=
  match c with
  | (1, _) => Abi3
  | (2, _) => Abi3T
  | (3, (Some v, (variant, _))) => AbiCPython v variant
  | (4, (v, w)) => AbiPyPy v w
  | (5, (Some v, w)) => AbiGraalPy v w
  | (6, (_, w)) => AbiPyston w
  | _ => AbiNone
  end.

#[export] Instance AbiTag_countable : Countable AbiTag.
Proof. by apply (inj_countable' abi_code abi_of_code); intros []. Defined.

(** Names are distinct, so a list of all values decodes them. *)
Definition find_named {A} (name : A -> list Z) (all : list A) (default : A) (s : list Z) : A :=
  match List.find (fun a => bytes_eqb (name a) s) all with Some a => a | None => default end.

Definition all_archs : list Arch :=
  [Aarch64; Armv5TEL; Armv6L; Armv7L; Powerpc64Le; Powerpc64; Powerpc; X86; X86_64; S390X; LoongArch64;
   Riscv64; Wasm32].
Definition all_formats : list BinaryFormat :=
  [FArm64; Fat; Fat32; Fat64; I386; Intel; Ppc; Ppc64; Universal; Universal2; FX86_64].

Definition PlatformCode : Type := Z * ((Z * Z) * list Z).

Definition platform_code (t : PlatformTag) : PlatformCode :=
  match t with
  | Any => (0, ((0, 0), []))
  | Manylinux a b x => (1, ((a, b), arch_name x))
  | Manylinux1 x => (2, ((0, 0), arch_name x))
  | Manylinux2010 x => (3, ((0, 0), arch_name x))
  | Manylinux2014 x => (4, ((0, 0), arch_name x))
  | Linux x => (5, ((0, 0), arch_name x))
  | Musllinux a b x => (6, ((a, b), arch_name x))
  | Macos a b f => (7, ((a, b), format_name f))
  | Win32 => (8, ((0, 0), []))
  | WinAmd64 => (9, ((0, 0), []))
  | WinArm64 => (10, ((0, 0), []))
  | WinIa64 => (11, ((0, 0), []))
  | Android a x => (12, ((a, 0), android_name x))
  | FreeBsd r => (13, ((0, 0), r))
  | NetBsd r => (14, ((0, 0), r))
  | OpenBsd r => (15, ((0, 0), r))
  | Dragonfly r => (16, ((0, 0), r))
  | Haiku r => (17, ((0, 0), r))
  | Illumos r => (18, ((0, 0), r))
  | Solaris r => (19, ((0, 0), r))
  | Pyodide a b => (20, ((a, b), []))
  | PyEmscripten a b => (21, ((a, b), []))
  | Ios a b m => (22, ((a, b), ios_name m))
  end.

Definition platform_of_code (c : PlatformCode) : PlatformTag :=
  let '(k, ((a, b), r)) := c in
  let x := find_named arch_name all_archs Wasm32 r in
  match k with
  | 1 => Manylinux a b x
  | 2 => Manylinux1 x
  | 3 => Manylinux2010 x
  | 4 => Manylinux2014 x
  | 5 => Linux x
  | 6 => Musllinux a b x
  | 7 => Macos a b (find_named format_name all_formats Fat r)
  | 8 => Win32
  | 9 => WinAmd64
  | 10 => WinArm64
  | 11 => WinIa64
  | 12 => Android a (find_named android_name [ArmeabiV7a; Arm64V8a; AX86; AX86_64] AX86 r)
  | 13 => FreeBsd r
  | 14 => NetBsd r
  | 15 => OpenBsd r
  | 16 => Dragonfly r
  | 17 => Haiku r
  | 18 => Illumos r
  | 19 => Solaris r
  | 20 => Pyodide a b
  | 21 => PyEmscripten a b
  | 22 => Ios a b (find_named ios_name [Arm64Device; Arm64Simulator; X86_64Simulator] Arm64Device r)
  | _ => Any
  end.

#[export] Instance PlatformTag_countable : Countable PlatformTag.
Proof.
  apply (inj_countable' platform_code platform_of_code).
  intros [|a b x|x|x|x|x|a b x|a b f| | | | |a x| | | | | | | |a b|a b|a b m]; try done;
    (by destruct x) || (by destruct f) || by destruct m.
Defined.

(** ** [Tags] *)

Definition Tag : Type := LanguageTag * AbiTag * PlatformTag.

Abbreviation TagMap := (gmap LanguageTag (gmap AbiTag (gmap PlatformTag Z))).

Record Tags := mkTags {
  tags_map : TagMap;
  tags_best : option Tag;
  tags_platform : Platform;
  tags_python_version : Z * Z;
  tags_is_cross : bool;
  tags_is_freethreaded : bool;
}.

(** [map.entry(py).or_insert(..).entry(abi).or_insert(..).entry(platform).or_insert(priority)] *)
Definition tags_insert (m : TagMap) (t : Tag) (priority : Z) : TagMap :=
  let '(py, abi, platform) := t in
  let abis := default ∅ (m !! py) in
  let platforms := default ∅ (abis !! abi) in
  let platforms' := match platforms !! platform with
                    | Some _ => platforms
                    | None => <[platform := priority]> platforms
                    end in
  <[py := <[abi := platforms']> abis]> m.

(** The loop of [Tags::new] over the reversed vector. *)
Fixpoint index_tags (tags : list Tag) (index : Z) (m : TagMap) : outcome TagMap :=
  match tags with
  | [] => Ret m
  | t :: tags' =>
      let! priority := tag_priority index in
      index_tags tags' (index + 1) (tags_insert m t priority)
  end.

(** [Tags::new] *)
Definition tags_new (tags : list Tag) (platform : Platform) (python_version : Z * Z)
    (is_cross is_freethreaded : bool) : outcome Tags :=
  let! m := index_tags (rev tags) 0 ∅ in
  Ret (mkTags m (head tags) platform python_version is_cross is_freethreaded).

(** The lookups of a wheel's tag. *)
Definition tags_lookup (m : TagMap) (t : Tag) : option Z :=
  let '(py, abi, platform) := t in
  match m !! py with
  | None => None
  | Some abis => match abis !! abi with None => None | Some platforms => platforms !! platform end
  end.

(** [Tags::is_compatible] *)
Definition is_compatible (t : Tags) (pys : list LanguageTag) (abis : list AbiTag) (platforms : list PlatformTag) : bool :=
  existsb (fun wheel_py =>
    match tags_map t !! wheel_py with
    | None => false
    | Some known_abis =>
        existsb (fun wheel_abi =>
          match known_abis !! wheel_abi with
          | None => false
          | Some known => existsb (fun wheel_platform => bool_decide (is_Some (known !! wheel_platform))) platforms
          end) abis
    end) pys.

(** [Tags::is_compatible_abi] *)
Definition is_compatible_abi (t : Tags) (py : LanguageTag) (abi : AbiTag) : bool :=
  match tags_map t !! py with
  | None => false
  | Some abis => bool_decide (is_Some (abis !! abi))
  end.

Section tags.
Context `{Flags}.

Definition is_freethreaded_compatible_abi (abi : AbiTag) : bool :=
  match abi with
  | AbiNone | Abi3T => true
  | AbiCPython _ variant => flags_contains variant Freethreading
  | _ => false
  end.

(** The three nested loops of [Tags::compatibility]. *)
Definition platform_loop (known : gmap PlatformTag Z) (platforms : list PlatformTag) (best : TagCompatibility) :
    TagCompatibility :=
  fold_left (fun best wheel_platform =>
    compatibility_max best
      (match known !! wheel_platform with
       | Some priority => Compatible priority
       | None => Incompatible IncompatiblePlatform
       end)) platforms best.

Definition abi_loop (known : gmap AbiTag (gmap PlatformTag Z)) (abis : list AbiTag) (platforms : list PlatformTag)
    (best : TagCompatibility) : TagCompatibility :=
  fold_left (fun best wheel_abi =>
    match known !! wheel_abi with
    | None => compatibility_max best (Incompatible IncompatibleAbi)
    | Some known_platforms => platform_loop known_platforms platforms best
    end) abis best.

Definition python_loop (known : TagMap) (pys : list LanguageTag) (abis : list AbiTag) (platforms : list PlatformTag)
    (best : TagCompatibility) : TagCompatibility :=
  fold_left (fun best wheel_py =>
    match known !! wheel_py with
    | None => compatibility_max best (Incompatible IncompatiblePython)
    | Some known_abis => abi_loop known_abis abis platforms best
    end) pys best.

(** [Tags::compatibility] *)
Definition compatibility (t : Tags) (pys : list LanguageTag) (abis : list AbiTag) (platforms : list PlatformTag) :
    TagCompatibility :=
  if tags_is_freethreaded t && negb (existsb is_freethreaded_compatible_abi abis)
  then Incompatible FreethreadedAbi
  else python_loop (tags_map t) pys abis platforms (Incompatible Invalid).

(** [Tags::compatibility_tag] *)
Definition compatibility_tag (t : Tags) (py : LanguageTag) (abi : AbiTag) (platform : PlatformTag) : TagCompatibility :=
  if tags_is_freethreaded t && negb (is_freethreaded_compatible_abi abi) then Incompatible FreethreadedAbi
  else
    match tags_map t !! py with
    | None => Incompatible IncompatiblePython
    | Some abis =>
        match abis !! abi with
        | None => Incompatible IncompatibleAbi
        | Some platforms =>
            match platforms !! platform with
            | None => Incompatible IncompatiblePlatform
            | Some priority => Compatible priority
            end
        end
    end.

(** ** Implementations *)

Inductive Implementation :=
| ImplCPython (variant : Z)
| ImplPyPy
| ImplGraalPy
| ImplPyston.

Definition impl_language_tag (i : Implementation) (python_version : Z * Z) : LanguageTag :=
  match i with
  | ImplCPython _ => CPython python_version
  | ImplPyPy => PyPy python_version
  | ImplGraalPy => GraalPy python_version
  | ImplPyston => Pyston python_version
  end.

Definition impl_abi_tag (i : Implementation) (python_version implementation_version : Z * Z) : AbiTag :=
  match i with
  | ImplCPython variant => AbiCPython python_version variant
  | ImplPyPy => AbiPyPy (Some python_version) implementation_version
  | ImplGraalPy => AbiGraalPy python_version implementation_version
  | ImplPyston => AbiPyston implementation_version
  end.

Inductive TagsError :=
| TagsPlatformError (e : PlatformError)
| UnsupportedImplementation (name : list Z)
| UnknownImplementation (name : list Z)
| GilIsACPythonProblem (name : list Z)
| DebugIsACPythonProblem (name : list Z).

(** [Implementation::parse] *)
Definition impl_parse (name : list Z) (variant : Z) : result Implementation TagsError :=
  if bytes_eqb name (bs "cpython") then Ok (ImplCPython variant)
  else if bytes_eqb name (bs "pypy") then Ok ImplPyPy
  else if bytes_eqb name (bs "graalpy") then Ok ImplGraalPy
  else if bytes_eqb name (bs "pyston") then Ok ImplPyston
  else if bytes_eqb name (bs "python") || bytes_eqb name (bs "ironpython") || bytes_eqb name (bs "jython")
  then Err (UnsupportedImplementation name)
  else Err (UnknownImplementation name).

Record TagsOptions := mkOptions {
  manylinux_compatible : bool;
  gil_disabled : bool;
  debug_enabled : bool;
  opt_is_cross : bool;
}.

(** Pairs of [u8] are ordered lexicographically. *)
Definition version_leb (a b : Z * Z) : bool := (a.1 <? b.1) || ((a.1 =? b.1) && (a.2 <=? b.2)).

(** The interpreter's flags and implementation. *)
Definition env_implementation (python_version : Z * Z) (name : list Z) (options : TagsOptions) :
    result Implementation TagsError :=
  let cpython := bytes_eqb name (bs "cpython") in
  if gil_disabled options && negb cpython then Err (GilIsACPythonProblem name)
  else
    let variant := if gil_disabled options then flags_insert 0 Freethreading else 0 in
    if debug_enabled options && negb cpython then Err (DebugIsACPythonProblem name)
    else
      let variant := if debug_enabled options then flags_insert variant Debug else variant in
      let variant := if version_leb python_version (3, 7) && cpython then flags_insert variant Pymalloc else variant in
      impl_parse name variant.

(** The vector of tags of [Tags::from_env], in the order they are pushed. *)
Definition env_tags (i : Implementation) (python_version implementation_version : Z * Z)
    (platform_tags : list PlatformTag) : list Tag :=
  let each language abi := map (fun platform => (language, abi, platform)) platform_tags in
  let major := python_version.1 in
  (* 1. This exact c api version *)
  each (impl_language_tag i python_version) (impl_abi_tag i python_version implementation_version)
  (* 1a. Debug builds also accept release wheels *)
  ++ (match i with
      | ImplCPython variant =>
          if version_leb (3, 8) python_version && flags_contains variant Debug
          then each (impl_language_tag i python_version) (AbiCPython python_version (flags_remove variant Debug))
          else []
      | _ => []
      end)
  (* 2. abi3/abi3t and no abi *)
  ++ (match i with
      | ImplCPython variant =>
          flat_map (fun minor =>
            (if flags_contains variant Freethreading
             then each (impl_language_tag i (major, minor)) Abi3T
             else each (impl_language_tag i (major, minor)) Abi3)
            ++ (if minor =? python_version.2 then each (impl_language_tag i (major, minor)) AbiNone else []))
            (down_from python_version.2 2)
      | _ => []
      end)
  (* 3. no abi *)
  ++ flat_map (fun minor =>
       each (Python major (Some minor)) AbiNone
       ++ (if minor =? python_version.2 then each (Python major None) AbiNone else []))
       (down_from python_version.2 0)
  (* 4. no binary *)
  ++ (match i with ImplCPython _ => [(impl_language_tag i python_version, AbiNone, Any)] | _ => [] end)
  ++ flat_map (fun minor =>
       [(Python major (Some minor), AbiNone, Any)]
       ++ (if minor =? python_version.2 then [(Python major None, AbiNone, Any)] else []))
       (down_from python_version.2 0).

(** The tags of an environment, before they are indexed. *)
Definition env_tag_list (platform : Platform) (python_version : Z * Z) (name : list Z)
    (implementation_version : Z * Z) (options : TagsOptions) : outcome (result (list Tag) TagsError) :=
  match env_implementation python_version name options with
  | Err e => Ret (Err e)
  | Ok implementation =>
      let! tags := compatible_tags platform in
      Ret (match tags with
           | Err e => Err (TagsPlatformError e)
           | Ok platform_tags =>
               let platform_tags :=
                 match os platform with
                 | OsManylinux _ _ =>
                     if negb (manylinux_compatible options)
                     then List.filter (fun tag => negb (is_manylinux tag)) platform_tags
                     else platform_tags
                 | _ => platform_tags
                 end in
               Ok (env_tags implementation python_version implementation_version platform_tags)
           end)
  end.

(** [Tags::from_env] *)
Definition from_env (platform : Platform) (python_version : Z * Z) (name : list Z)
    (implementation_version : Z * Z) (options : TagsOptions) : outcome (result Tags TagsError) :=
  let! tags := env_tag_list platform python_version name implementation_version options in
  match tags with
  | Err e => Ret (Err e)
  | Ok tags =>
      outcome_map Ok (tags_new tags platform python_version (opt_is_cross options) (gil_disabled options))
  end.
End tags.

(** ** Ranges and duplicates: lemmas *)

Lemma elem_of_rev {A} (x : A) l : x ∈ rev l <-> x ∈ l.
Proof. rewrite !list_elem_of_In. symmetry. apply in_rev. Qed.

Lemma NoDup_rev {A} (l : list A) : NoDup l -> NoDup (rev l).
Proof. rewrite !NoDup_ListNoDup. apply List.NoDup_rev. Qed.

Lemma elem_of_down_from x hi lo : x ∈ down_from hi lo <-> lo <= x <= hi.
Proof. unfold down_from. rewrite elem_of_rev, elem_of_seqZ. lia. Qed.

Lemma elem_of_down_below x hi lo : x ∈ down_below hi lo <-> lo <= x < hi.
Proof. unfold down_below. rewrite elem_of_rev, elem_of_seqZ. lia. Qed.

Lemma NoDup_down_from hi lo : NoDup (down_from hi lo).
Proof. apply NoDup_rev, NoDup_seqZ. Qed.

Lemma NoDup_down_below hi lo : NoDup (down_below hi lo).
Proof. apply NoDup_rev, NoDup_seqZ. Qed.

Lemma length_down_from hi lo : length (down_from hi lo) = Z.to_nat (hi - lo + 1).
Proof. unfold down_from. by rewrite length_rev, length_seqZ. Qed.

Lemma length_down_below hi lo : length (down_below hi lo) = Z.to_nat (hi - lo).
Proof. unfold down_below. by rewrite length_rev, length_seqZ. Qed.

Lemma NoDup_flat_map {A B} (f : A -> list B) l : NoDup l -> (forall x, x ∈ l -> NoDup (f x)) ->
  (forall x y z, x ∈ l -> y ∈ l -> z ∈ f x -> z ∈ f y -> x = y) -> NoDup (flat_map f l).
Proof.
  induction 1 as [|x l Hx Hl IH]; intros Hf Hd; [constructor|]. cbn. apply NoDup_app. split; [|split].
  - apply Hf. by left.
  - intros z Hz (y & Hy & Hzy)%elem_of_flat_map. apply Hx.
    rewrite (Hd x y z); [done|by left|by right|done|done].
  - apply IH; [intros y Hy; apply Hf; by right|]. intros a b z Ha Hb. apply Hd; by right.
Qed.

Lemma NoDup_map {A B} (f : A -> B) l : (forall x y, f x = f y -> x = y) -> NoDup l -> NoDup (map f l).
Proof. intros Hi. assert (Inj eq eq f) by done. apply (NoDup_fmap_2 f). Qed.

Lemma length_flat_map_le {A B} (f : A -> list B) l n : (forall x, x ∈ l -> (length (f x) <= n)%nat) ->
  (length (flat_map f l) <= n * length l)%nat.
Proof.
  induction l as [|x l IH]; intros H; [cbn; lia|]. cbn. rewrite length_app.
  assert (length (f x) <= n)%nat by (apply H; by left).
  assert (length (flat_map f l) <= n * length l)%nat by (apply IH; intros y Hy; apply H; by right). lia.
Qed.

Lemma Ok_inj {A E} (a b : A) : @Ok A E a = Ok b -> a = b.
Proof. by intros [= ->]. Qed.

(** ** The tags of a platform *)

(** The fields of a platform are [u16]s. *)
Definition os_ok (o : Os) : Prop :=
  match o with
  | OsManylinux a b | OsMusllinux a b | OsPyodide a b | OsPyEmscripten a b | OsMacos a b | OsIos a b _ =>
      is_u16 a /\ is_u16 b
  | OsAndroid a => is_u16 a
  | _ => True
  end.

(** A list of at most 800,000 distinct tags, none of them [any].  The longest
    lists are those of iOS: ten tags per major version. *)
Definition platform_list_ok (l : list PlatformTag) : Prop :=
  NoDup l /\ (Any ∉ l) /\ (length l <= Z.to_nat 800000)%nat.

Lemma platform_list_nil : platform_list_ok [].
Proof. split; [constructor|]. split; [apply not_elem_of_nil|cbn; lia]. Qed.

Lemma platform_list_one t : t <> Any -> platform_list_ok [t].
Proof.
  intros Ht. split; [apply NoDup_singleton|]. split; [by rewrite list_elem_of_singleton|]. cbn [length]. lia.
Qed.

Lemma platform_list_app l k : NoDup l -> NoDup k -> (forall t, t ∈ l -> t ∉ k) ->
  (forall t, (t ∈ l) \/ (t ∈ k) -> t <> Any) -> (length l + length k <= Z.to_nat 800000)%nat -> platform_list_ok (l ++ k).
Proof.
  intros Hl Hk Hd Ha Hlen. split; [by apply NoDup_app|]. split; [|by rewrite length_app].
  intros H%elem_of_app. by apply (Ha Any).
Qed.

Lemma manylinux_list_ok major minor a min_minor : is_u16 minor -> 0 <= min_minor ->
  platform_list_ok (flat_map (manylinux_tags major a) (down_from minor min_minor) ++ [Linux a]).
Proof.
  intros Hm Hmin.
  assert (Hin : forall m t, t ∈ manylinux_tags major a m -> t = Manylinux major m a \/
            (t = Manylinux2010 a /\ m = 12) \/ (t = Manylinux2014 a /\ m = 17) \/ (t = Manylinux1 a /\ m = 5)).
  { intros m t. unfold manylinux_tags.
    destruct (Z.eqb_spec m 12), (Z.eqb_spec m 17), (Z.eqb_spec m 5); set_solver. }
  apply platform_list_app.
  - apply NoDup_flat_map; [apply NoDup_down_from| |].
    + intros m _. unfold manylinux_tags. destruct (Z.eqb_spec m 12), (Z.eqb_spec m 17), (Z.eqb_spec m 5); try lia;
        repeat (constructor; [set_solver|]); constructor.
    + intros x y t _ _ Hx%Hin Hy%Hin. destruct Hx as [->|[[-> ->]|[[-> ->]|[-> ->]]]]; naive_solver.
  - apply NoDup_singleton.
  - intros t (m & _ & Ht%Hin)%elem_of_flat_map ->%list_elem_of_singleton. naive_solver.
  - intros t [(m & _ & Ht%Hin)%elem_of_flat_map| ->%list_elem_of_singleton]; naive_solver.
  - assert (Hl : (length (flat_map (manylinux_tags major a) (down_from minor min_minor)) <= 4 * length (down_from minor min_minor))%nat).
    { apply length_flat_map_le. intros m _. unfold manylinux_tags. rewrite !length_app.
      destruct (m =? 12), (m =? 17), (m =? 5); cbn; lia. }
    rewrite length_down_from in Hl. cbn [length]. unfold is_u16, u16_max in Hm. lia.
Qed.

Lemma musllinux_list_ok major minor a : is_u16 minor ->
  platform_list_ok (map (fun minor => Musllinux major minor a) (down_from minor 0) ++ [Linux a]).
Proof.
  intros Hm. apply platform_list_app.
  - apply NoDup_map; [by intros x y [= ->]|apply NoDup_down_from].
  - apply NoDup_singleton.
  - intros t (m & -> & _)%elem_of_map ?%list_elem_of_singleton. done.
  - intros t [(m & -> & _)%elem_of_map| ->%list_elem_of_singleton]; done.
  - rewrite length_map, length_down_from. cbn [length]. unfold is_u16, u16_max in Hm. lia.
Qed.

Lemma macos_row_ok (f : Z -> list PlatformTag) (l : list Z) (formats : list BinaryFormat) : NoDup l ->
  (forall x t, t ∈ f x <-> exists b, b ∈ formats /\ t = Macos x 0 b) \/
  (forall x t, t ∈ f x <-> exists b, b ∈ formats /\ t = Macos 10 x b) ->
  (forall x, NoDup (f x)) -> NoDup (flat_map f l).
Proof.
  intros Hl Hf Hn. apply NoDup_flat_map; [done|by intros x _|]. intros x y t _ _ Hx Hy.
  destruct Hf as [Hf|Hf]; rewrite Hf in Hx, Hy; naive_solver.
Qed.

Lemma elem_of_macos_tags a b formats t : t ∈ macos_tags a b formats <-> exists f, f ∈ formats /\ t = Macos a b f.
Proof. unfold macos_tags. rewrite elem_of_map. naive_solver. Qed.

Lemma NoDup_macos_tags a b formats : NoDup formats -> NoDup (macos_tags a b formats).
Proof. intros H. apply NoDup_map; [by intros x y [= ->]|done]. Qed.

Lemma NoDup_macos_majors l formats : NoDup l -> NoDup formats -> NoDup (flat_map (fun a => macos_tags a 0 formats) l).
Proof.
  intros Hl Hf. apply (macos_row_ok _ _ formats); [done| |intros x; by apply NoDup_macos_tags].
  left. intros x t. apply elem_of_macos_tags.
Qed.

Lemma NoDup_macos_minors l formats : NoDup l -> NoDup formats -> NoDup (flat_map (fun b => macos_tags 10 b formats) l).
Proof.
  intros Hl Hf. apply (macos_row_ok _ _ formats); [done| |intros x; by apply NoDup_macos_tags].
  right. intros x t. apply elem_of_macos_tags.
Qed.

Lemma length_macos (f : Z -> list PlatformTag) (l : list Z) (formats : list BinaryFormat) : (forall x, length (f x) = length formats) ->
  (length formats <= 6)%nat -> (length (flat_map f l) <= 6 * length l)%nat.
Proof. intros Hf Hl. apply length_flat_map_le. intros x _. by rewrite Hf. Qed.

(** The macOS tags of the current versions, followed by those of 10.x. *)
Lemma macos_list_ok major formats tail : is_u16 major -> NoDup formats -> (length formats <= 6)%nat ->
  NoDup tail -> (forall t, t ∈ tail -> exists b f, t = Macos 10 b f) -> (length tail <= 78)%nat ->
  platform_list_ok (flat_map (fun a => macos_tags a 0 formats) (down_from major 11) ++ tail).
Proof.
  intros Hm Hf Hl Ht Htail Hlt. apply platform_list_app.
  - apply NoDup_macos_majors; [apply NoDup_down_from|done].
  - done.
  - intros t (a & Ha%elem_of_down_from & (f & _ & ->)%elem_of_macos_tags)%elem_of_flat_map (b & g & E)%Htail.
    injection E as ?. lia.
  - intros t [(a & _ & (f & _ & ->)%elem_of_macos_tags)%elem_of_flat_map|(b & g & ->)%Htail]; done.
  - pose proof (length_macos (fun a => macos_tags a 0 formats) (down_from major 11) formats) as H.
    rewrite length_down_from in H. unfold is_u16, u16_max in Hm.
    specialize (H ltac:(intros x; apply length_map) Hl). lia.
Qed.

Lemma platform_list_minors l formats : NoDup l -> NoDup formats -> (length formats <= 6)%nat ->
  (length l <= Z.to_nat 66000)%nat -> platform_list_ok (flat_map (fun b => macos_tags 10 b formats) l).
Proof.
  intros Hl Hf H6 Hlen. rewrite <- (app_nil_r (flat_map _ l)). apply platform_list_app.
  - by apply NoDup_macos_minors.
  - constructor.
  - intros t _ ?%elem_of_nil. done.
  - intros t [(a & _ & (f & _ & ->)%elem_of_macos_tags)%elem_of_flat_map|?%elem_of_nil]; done.
  - pose proof (length_macos (fun b => macos_tags 10 b formats) l formats ltac:(intros x; apply length_map) H6). cbn [length]. lia.
Qed.

Lemma release_tag_ok make r l : (forall r, make r <> Any) -> release_tag make r = Ok l -> platform_list_ok l.
Proof.
  intros Hm. unfold release_tag. destruct (release_arch_from_str r) as [x|]; [|done]. intros [= <-].
  by apply platform_list_one.
Qed.

Lemma illumos_tags_ok release a l : illumos_tags release a = Ok l -> platform_list_ok l.
Proof.
  unfold illumos_tags. destruct (split_once 95 release) as [[major other]|]; [|by apply release_tag_ok].
  destruct (parse_uint u64_max major) as [n|]; [|done]. destruct (5 <=? n); by apply release_tag_ok.
Qed.

Lemma android_tags_ok level a l : is_u16 level -> android_tags level a = Ok l -> platform_list_ok l.
Proof.
  intros Hu H. unfold android_tags in H.
  assert (Hl : l = [] \/ exists abi, l = map (fun ver => Android ver abi) (down_from level 16)).
  { destruct (down_from level 16) as [|x xs]; [left; congruence|right].
    destruct (android_from_arch a) as [abi|]; [|done]. exists abi. by injection H as <-. }
  destruct Hl as [->|[abi ->]]; [apply platform_list_nil|]. split; [|split].
  - apply NoDup_map; [by intros x y [= ->]|apply NoDup_down_from].
  - intros (x & ? & _)%elem_of_map. done.
  - rewrite length_map, length_down_from. unfold is_u16, u16_max in Hu. lia.
Qed.

Lemma ios_tags_ok major minor simulator a l : is_u16 major -> is_u16 minor ->
  ios_tags major minor simulator a = Ok l -> platform_list_ok l.
Proof.
  intros Ha Hb. unfold ios_tags. destruct (ios_from_arch a simulator) as [m|]; [|done].
  destruct (Z.ltb_spec major 12); intros <-%Ok_inj; [apply platform_list_nil|]. cbn [app]. rewrite app_comm_cons.
  assert (Hin : forall t, t ∈ flat_map (fun maj => map (fun min => Ios maj min m) (down_from 9 0)) (down_below major 12) ->
            exists x y, x < major /\ t = Ios x y m).
  { intros t (x & Hx%elem_of_down_below & (y & -> & _)%elem_of_map)%elem_of_flat_map. exists x, y. split; [lia|done]. }
  assert (Hhd : forall t, t ∈ Ios major minor m :: map (fun min => Ios major min m) (down_below minor 0) ->
            exists y, t = Ios major y m).
  { intros t [->|(y & -> & _)%elem_of_map]%elem_of_cons; by eexists. }
  apply platform_list_app.
  - constructor.
    + intros (y & [= ->] & ?%elem_of_down_below)%elem_of_map. lia.
    + apply NoDup_map; [by intros x y [= ->]|apply NoDup_down_below].
  - apply NoDup_flat_map; [apply NoDup_down_below| |].
    + intros x _. apply NoDup_map; [by intros y z [= ->]|apply NoDup_down_from].
    + intros x y t _ _ (u & -> & _)%elem_of_map (v & [= -> _] & _)%elem_of_map. done.
  - intros t (y & ->)%Hhd (x & z & Hlt & [= <- _])%Hin. lia.
  - intros t [(y & ->)%Hhd|(x & z & _ & ->)%Hin]; done.
  - assert (Hl : (length (flat_map (fun maj => map (fun min => Ios maj min m) (down_from 9 0)) (down_below major 12))
                  <= 10 * length (down_below major 12))%nat).
    { apply length_flat_map_le. intros x _. by rewrite length_map, length_down_from. }
    rewrite length_down_below in Hl. cbn [length]. rewrite length_map, length_down_below.
    unfold is_u16, u16_max in *. lia.
Qed.

Ltac ok_list := let l := fresh "l" in let E := fresh "E" in
  intros l E; first [discriminate E | apply Ok_inj in E; subst l].

(** A computation of platform tags that does not panic, and lists distinct tags. *)
Definition lists_ok (m : outcome (result (list PlatformTag) PlatformError)) : Prop :=
  exists r, m = Ret r /\ forall l, r = Ok l -> platform_list_ok l.

Lemma lists_ok_Ret r : (forall l, r = Ok l -> platform_list_ok l) -> lists_ok (Ret r).
Proof. intros H. by exists r. Qed.

Lemma macos_aarch64_ok x : is_u16 x -> lists_ok (macos_aarch64_tags x Aarch64).
Proof.
  intros Hx. cbn [macos_aarch64_tags format_from_arch obind]. apply lists_ok_Ret. ok_list.
  apply macos_list_ok; [done|repeat (constructor; [set_solver|]); constructor|cbn; lia| | |].
  - apply NoDup_map; [by intros u v [= ->]|apply NoDup_down_from].
  - intros t (u & -> & _)%elem_of_map. by eexists _, _.
  - rewrite length_map, length_down_from. lia.
Qed.

Lemma macos_x86_64_ok x y : is_u16 x -> is_u16 y -> lists_ok (macos_x86_64_tags x y X86_64).
Proof.
  intros Hx Hy. unfold macos_x86_64_tags. cbn [format_from_arch obind].
  assert (HF : NoDup [FX86_64; Intel; Fat64; Fat32; Universal2; Universal])
    by (repeat (constructor; [set_solver|]); constructor).
  destruct (x =? 10); [|destruct (11 <=? x)]; apply lists_ok_Ret; ok_list.
  - apply platform_list_minors; [apply NoDup_down_from|done|cbn; lia|].
    rewrite length_down_from. unfold is_u16, u16_max in *. lia.
  - apply macos_list_ok; [done|done|cbn; lia| | |].
    + apply NoDup_macos_minors; [apply NoDup_down_from|done].
    + intros t (u & _ & (g & _ & ->)%elem_of_macos_tags)%elem_of_flat_map. by eexists _, _.
    + vm_compute. lia.
Qed.

(** The tags of a platform never panic, and are distinct. *)
Lemma compatible_tags_ok p : os_ok (os p) -> lists_ok (compatible_tags p).
Proof.
  assert (H2 : forall a b, platform_list_ok [PyEmscripten a b; Pyodide a b]).
  { intros a b. split; [|split; [set_solver|cbn; lia]]. constructor; [set_solver|apply NoDup_singleton]. }
  destruct p as [o a]. intros Ho. unfold compatible_tags. cbn [os arch].
  destruct o as [x y|x y| |x y|x y|x y|r|r|r|r|r b|r|x|x y sim]; cbn [os_ok] in Ho.
  - apply lists_ok_Ret. ok_list. destruct (get_minimum_manylinux_minor a) as [n|] eqn:En; [|by apply platform_list_one].
    apply manylinux_list_ok; [apply Ho|]. destruct a; injection En as <- || done; lia.
  - apply lists_ok_Ret. ok_list. apply musllinux_list_ok, Ho.
  - destruct a; apply lists_ok_Ret; ok_list; by apply platform_list_one.
  - destruct a; apply lists_ok_Ret; ok_list; done.
  - destruct a; apply lists_ok_Ret; ok_list; done.
  - destruct a; try (apply lists_ok_Ret; ok_list; done);
      [apply macos_aarch64_ok, Ho|apply macos_x86_64_ok; apply Ho].
  - apply lists_ok_Ret. intros l. by apply release_tag_ok.
  - apply lists_ok_Ret. intros l. by apply release_tag_ok.
  - apply lists_ok_Ret. intros l. by apply release_tag_ok.
  - apply lists_ok_Ret. intros l. by apply release_tag_ok.
  - apply lists_ok_Ret. intros l. apply illumos_tags_ok.
  - apply lists_ok_Ret. intros l. by apply release_tag_ok.
  - apply lists_ok_Ret. intros l. by apply android_tags_ok.
  - apply lists_ok_Ret. intros l. destruct Ho. by apply ios_tags_ok.
Qed.

(** ** The tags of an environment *)

Section environment.
Context `{FlagsLaws}.

(** The language and ABI pairs of [env_tags]: [py3x-none] and [py3-none], the
    stable ABIs of CPython, and all of them in order: those combined with every
    platform tag, and those combined with [any]. *)
Definition generic_keys (v : Z * Z) : list (LanguageTag * AbiTag) :=
  flat_map (fun minor =>
    [(Python v.1 (Some minor), AbiNone)] ++ (if minor =? v.2 then [(Python v.1 None, AbiNone)] else []))
    (down_from v.2 0).

Definition stable_keys (v : Z * Z) (abi : AbiTag) : list (LanguageTag * AbiTag) :=
  flat_map (fun minor =>
    [(CPython (v.1, minor), abi)] ++ (if minor =? v.2 then [(CPython (v.1, minor), AbiNone)] else []))
    (down_from v.2 2).

Definition stable_abi (variant : Z) : AbiTag := if flags_contains variant Freethreading then Abi3T else Abi3.

Definition cpython_keys (v : Z * Z) (variant : Z) : list (LanguageTag * AbiTag) :=
  (if version_leb (3, 8) v && flags_contains variant Debug
   then [(CPython v, AbiCPython v (flags_remove variant Debug))] else [])
  ++ stable_keys v (stable_abi variant).

Definition env_keys (i : Implementation) (v iv : Z * Z) : list (LanguageTag * AbiTag) :=
  [(impl_language_tag i v, impl_abi_tag i v iv)]
  ++ (match i with ImplCPython variant => cpython_keys v variant | _ => [] end)
  ++ generic_keys v.

Definition any_keys (i : Implementation) (v : Z * Z) : list (LanguageTag * AbiTag) :=
  (match i with ImplCPython _ => [(impl_language_tag i v, AbiNone)] | _ => [] end) ++ generic_keys v.

Definition with_platforms (platform_tags : list PlatformTag) (k : LanguageTag * AbiTag) : list Tag :=
  map (fun platform => (k.1, k.2, platform)) platform_tags.

Lemma flat_map_flat_map {A B C} (f : A -> list B) (g : B -> list C) l :
  flat_map g (flat_map f l) = flat_map (fun x => flat_map g (f x)) l.
Proof. induction l as [|x l IH]; [done|]. cbn. by rewrite flat_map_app, IH. Qed.

Lemma flat_map_ext_all {A B} (f g : A -> list B) l : (forall x, f x = g x) -> flat_map f l = flat_map g l.
Proof. intros E. induction l as [|x l IH]; [done|]. cbn. by rewrite E, IH. Qed.

Lemma env_tags_keys i v iv l :
  env_tags i v iv l = flat_map (with_platforms l) (env_keys i v iv)
                      ++ flat_map (with_platforms [Any]) (any_keys i v).
Proof.
  unfold env_tags, env_keys, any_keys. cbv zeta. rewrite !flat_map_app, <- !app_assoc.
  cbn [flat_map]. rewrite app_nil_r. f_equal. rewrite app_assoc. f_equal.
  { destruct i; try done. unfold cpython_keys, stable_keys, stable_abi. rewrite flat_map_app, flat_map_flat_map. f_equal.
    - destruct (_ && _); cbn; by rewrite ?app_nil_r.
    - apply flat_map_ext_all. intros m.
      destruct (flags_contains variant Freethreading), (m =? v.2); cbn [flat_map app]; by rewrite ?app_nil_r. }
  unfold generic_keys. rewrite !flat_map_flat_map. f_equal.
  { apply flat_map_ext_all. intros m. destruct (m =? v.2); cbn [flat_map app]; by rewrite ?app_nil_r. }
  f_equal; [by destruct i|]. apply flat_map_ext_all. intros m. by destruct (m =? v.2).
Qed.

Lemma elem_of_generic_keys v k : k ∈ generic_keys v -> exists m, k = (Python v.1 m, AbiNone).
Proof.
  intros (m & _ & Hk)%elem_of_flat_map. destruct (m =? v.2); [|apply list_elem_of_singleton in Hk; by exists (Some m)].
  apply elem_of_cons in Hk as [->|Hk]; [by exists (Some m)|]. apply list_elem_of_singleton in Hk. by exists None.
Qed.

Lemma elem_of_stable_keys v abi k : k ∈ stable_keys v abi ->
  exists m, k = (CPython (v.1, m), abi) \/ k = (CPython (v.1, m), AbiNone).
Proof.
  intros (m & _ & Hk)%elem_of_flat_map. exists m.
  destruct (m =? v.2); [|apply list_elem_of_singleton in Hk; by left].
  apply elem_of_cons in Hk as [->|Hk]; [by left|]. apply list_elem_of_singleton in Hk. by right.
Qed.

(** Keys made per minor version, with one more for the current one. *)
Lemma NoDup_minor_keys {K} (f g : Z -> K) hi lo : (forall x y, f x = f y -> x = y) -> (forall x y, f x <> g y) ->
  NoDup (flat_map (fun minor => [f minor] ++ (if minor =? hi then [g minor] else [])) (down_from hi lo)).
Proof.
  intros Hi Hd. apply NoDup_flat_map; [apply NoDup_down_from| |].
  - intros m _. destruct (m =? hi); [|apply NoDup_singleton].
    constructor; [|apply NoDup_singleton]. intros E%list_elem_of_singleton. by apply (Hd m m).
  - intros x y k _ _. assert (Hc : forall x, k ∈ [f x] ++ (if x =? hi then [g x] else []) -> k = f x \/ (k = g x /\ x = hi)).
    { intros z. destruct (Z.eqb_spec z hi); [|intros ->%list_elem_of_singleton; by left].
      intros [-> | ->%list_elem_of_singleton]%elem_of_cons; [by left|by right]. }
    intros [-> |[-> ->]]%Hc [E|[E ->]]%Hc; [by apply Hi|by apply Hd in E|by apply symmetry, Hd in E|done].
Qed.

Lemma NoDup_generic_keys v : NoDup (generic_keys v).
Proof.
  apply (NoDup_minor_keys (fun minor => (Python v.1 (Some minor), AbiNone)) (fun _ => (Python v.1 None, AbiNone))); [|done].
  by intros x y [= ->].
Qed.

Lemma NoDup_stable_keys v abi : abi <> AbiNone -> NoDup (stable_keys v abi).
Proof.
  intros Ha. apply (NoDup_minor_keys (fun minor => (CPython (v.1, minor), abi)) (fun minor => (CPython (v.1, minor), AbiNone))).
  - by intros x y [= ->].
  - by intros x y [= _ E].
Qed.

Lemma stable_abi_cases variant : stable_abi variant = Abi3T \/ stable_abi variant = Abi3.
Proof. unfold stable_abi. destruct (flags_contains _ _); auto. Qed.

Lemma remove_debug variant : flags_contains variant Debug = true -> flags_remove variant Debug <> variant.
Proof.
  rewrite flags_contains_spec, flags_remove_spec. intros Hc%Z.eqb_eq E.
  assert (Hb : Z.testbit variant 2 = true).
  { assert (Hd : Z.testbit (Z.land variant Debug) 2 = Z.testbit Debug 2) by (by rewrite Hc).
    rewrite Z.land_spec in Hd. change (Z.testbit Debug 2) with true in Hd. by rewrite andb_true_r in Hd. }
  assert (Hn : Z.testbit (Z.ldiff variant Debug) 2 = false).
  { rewrite Z.ldiff_spec, Hb. done. }
  rewrite E in Hn. congruence.
Qed.

Lemma elem_of_cpython_keys v variant k : k ∈ cpython_keys v variant ->
  (flags_contains variant Debug = true /\ k = (CPython v, AbiCPython v (flags_remove variant Debug))) \/
  exists m, k = (CPython (v.1, m), stable_abi variant) \/ k = (CPython (v.1, m), AbiNone).
Proof.
  intros [Hk|Hk]%elem_of_app; [|right; by apply elem_of_stable_keys]. left.
  destruct (version_leb (3, 8) v && flags_contains variant Debug) eqn:E; [|by apply elem_of_nil in Hk].
  apply andb_prop in E as [_ E]. by apply list_elem_of_singleton in Hk.
Qed.

Lemma NoDup_cpython_keys v variant : NoDup (cpython_keys v variant).
Proof.
  unfold cpython_keys. destruct (stable_abi_cases variant) as [Hs|Hs].
  all: apply NoDup_app; split; [destruct (_ && _); [apply NoDup_singleton|constructor]|].
  all: split; [|apply NoDup_stable_keys; congruence].
  all: intros k Hk (m & Hm)%elem_of_stable_keys; destruct (_ && _); [|by apply elem_of_nil in Hk].
  all: apply list_elem_of_singleton in Hk as ->; destruct Hm; congruence.
Qed.

Lemma NoDup_env_keys i v iv : NoDup (env_keys i v iv).
Proof.
  unfold env_keys. constructor.
  - intros [Hk|(m & Hk)%elem_of_generic_keys]%elem_of_app; [|by destruct i].
    destruct i as [variant| | |]; [|by apply elem_of_nil in Hk..].
    cbn [impl_language_tag impl_abi_tag] in Hk.
    apply elem_of_cpython_keys in Hk as [[Hc E]|(m & [E|E])]; [|destruct (stable_abi_cases variant)|]; [|congruence..].
    apply (remove_debug variant Hc). cbn in E. congruence.
  - apply NoDup_app. split; [destruct i; [apply NoDup_cpython_keys|constructor..]|].
    split; [|apply NoDup_generic_keys]. intros k Hk (m & ->)%elem_of_generic_keys.
    destruct i as [variant| | |]; [|by apply elem_of_nil in Hk..].
    apply elem_of_cpython_keys in Hk as [[_ E]|(n & [E|E])]; congruence.
Qed.

Lemma NoDup_any_keys i v : NoDup (any_keys i v).
Proof.
  unfold any_keys. apply NoDup_app. split; [destruct i; apply NoDup_singleton || constructor|].
  split; [|apply NoDup_generic_keys]. intros k Hk (m & ->)%elem_of_generic_keys.
  destruct i; [by apply list_elem_of_singleton in Hk|by apply elem_of_nil in Hk..].
Qed.

Lemma elem_of_with_platforms l k t : t ∈ with_platforms l k <-> t.1 = k /\ t.2 ∈ l.
Proof.
  unfold with_platforms. rewrite elem_of_map. destruct t as [[a b] p], k as [a' b']; cbn. split.
  - by intros (x & [= -> -> ->] & Hx).
  - intros [[= -> ->] Hp]. by exists p.
Qed.

Lemma NoDup_with_platforms l ks : NoDup l -> NoDup ks -> NoDup (flat_map (with_platforms l) ks).
Proof.
  intros Hl Hk. apply NoDup_flat_map; [done| |].
  - intros k _. apply NoDup_map; [by intros x y [= ->]|done].
  - intros x y t _ _ [Hx _]%elem_of_with_platforms [Hy _]%elem_of_with_platforms. congruence.
Qed.

Lemma NoDup_env_tags i v iv l : platform_list_ok l -> NoDup (env_tags i v iv l).
Proof.
  intros (Hn & Ha & _). rewrite env_tags_keys. apply NoDup_app. split; [|split].
  - apply NoDup_with_platforms; [done|apply NoDup_env_keys].
  - intros t (k & _ & [_ Ht]%elem_of_with_platforms)%elem_of_flat_map
             (k' & _ & [_ Ht']%elem_of_with_platforms)%elem_of_flat_map.
    apply list_elem_of_singleton in Ht'. congruence.
  - apply NoDup_with_platforms; [apply NoDup_singleton|apply NoDup_any_keys].
Qed.

Lemma length_with_platforms l ks : length (flat_map (with_platforms l) ks) = (length ks * length l)%nat.
Proof.
  induction ks as [|k ks IH]; [done|]. cbn. rewrite length_app, IH. unfold with_platforms. by rewrite length_map.
Qed.

Lemma length_minor_keys {K} (f g : Z -> K) hi lo :
  let keys := flat_map (fun minor => [f minor] ++ (if minor =? hi then [g minor] else [])) (down_from hi lo) in
  (length keys <= 2 * Z.to_nat (hi - lo + 1)%Z)%nat.
Proof.
  cbv zeta. etrans; [apply (length_flat_map_le _ _ 2)|by rewrite length_down_from].
  intros m _. rewrite length_app. destruct (m =? hi); cbn; lia.
Qed.

(** At most 1,027 pairs for an interpreter whose minor version is a [u8]. *)
Lemma length_env_keys i v iv : 0 <= v.2 <= u8_max ->
  (length (env_keys i v iv) <= 1027)%nat /\ (length (any_keys i v) <= 513)%nat.
Proof.
  intros Hv. unfold u8_max in Hv.
  pose proof (length_minor_keys (fun minor => (Python v.1 (Some minor), AbiNone)) (fun _ => (Python v.1 None, AbiNone)) v.2 0) as Hg.
  cbv zeta in Hg. assert (Hs : forall abi, (length (stable_keys v abi) <= 512)%nat).
  { intros abi. pose proof (length_minor_keys (fun m => (CPython (v.1, m), abi)) (fun m => (CPython (v.1, m), AbiNone)) v.2 2) as Hs.
    cbv zeta in Hs. unfold stable_keys. lia. }
  unfold env_keys, any_keys, generic_keys in *. rewrite !length_app. split.
  - assert (length (match i with ImplCPython variant => cpython_keys v variant | _ => [] end) <= 513)%nat.
    { destruct i as [variant| | |]; [|cbn; lia..]. unfold cpython_keys. rewrite length_app. specialize (Hs (stable_abi variant)).
      destruct (_ && _); cbn [length]; lia. }
    cbn [length]. lia.
  - destruct i; cbn [length]; lia.
Qed.

Lemma length_env_tags i v iv l : 0 <= v.2 <= u8_max -> platform_list_ok l ->
  Z.of_nat (length (env_tags i v iv l)) <= 821600513.
Proof.
  intros Hv (_ & _ & Hl). destruct (length_env_keys i v iv Hv) as [H1 H2].
  rewrite env_tags_keys, length_app, !length_with_platforms. cbn [length]. nia.
Qed.
End environment.

(** ** Indexing *)

Lemma tags_lookup_empty t : tags_lookup ∅ t = None.
Proof. destruct t as [[a b] p]. unfold tags_lookup. by rewrite lookup_empty. Qed.

Lemma tags_lookup_insert m t u n : tags_lookup (tags_insert m t n) u =
  if decide (t = u) then Some (default n (tags_lookup m u)) else tags_lookup m u.
Proof.
  destruct t as [[a b] p], u as [[a' b'] p']. unfold tags_insert, tags_lookup.
  destruct (decide (a = a')) as [<-|Ha].
  2: { rewrite lookup_insert_ne by done. rewrite decide_False by congruence. done. }
  rewrite lookup_insert_eq. destruct (decide (b = b')) as [<-|Hb].
  2: { rewrite lookup_insert_ne by done. rewrite decide_False by congruence.
       destruct (m !! a); cbn; [done|by rewrite lookup_empty]. }
  rewrite lookup_insert_eq.
  assert (E : forall q, default ∅ (default ∅ (m !! a) !! b) !! q =
            match m !! a with Some abis => match abis !! b with Some ps => ps !! q | None => None end | None => None end).
  { intros q. destruct (m !! a) as [abis|]; cbn; [|by rewrite !lookup_empty].
    destruct (abis !! b); cbn; [done|by rewrite lookup_empty]. }
  destruct (decide (p = p')) as [<-|Hp].
  - rewrite decide_True by done. rewrite <- E. destruct (default ∅ (default ∅ (m !! a) !! b) !! p) as [x|] eqn:Ex.
    + by rewrite Ex.
    + by rewrite lookup_insert_eq.
  - rewrite decide_False by congruence. rewrite <- E.
    destruct (default ∅ (default ∅ (m !! a) !! b) !! p) as [x|]; [done|by rewrite lookup_insert_ne].
Qed.

Lemma index_tags_spec l index m : 0 <= index -> index + Z.of_nat (length l) <= u32_max -> NoDup l ->
  (forall t, t ∈ l -> tags_lookup m t = None) ->
  exists m', index_tags l index m = Ret m' /\
    (forall i t, l !! i = Some t -> tags_lookup m' t = Some (index + Z.of_nat i + 1)) /\
    (forall t, t ∉ l -> tags_lookup m' t = tags_lookup m t).
Proof.
  revert index m. induction l as [|t l IH]; intros index m Hi Hlen Hnd Hm; [by exists m|].
  inversion Hnd as [|? ? Hnt Hnd']; subst. cbn [index_tags length] in *. unfold tag_priority. destruct (Z.ltb_spec index u32_max); [|lia].
  cbn [obind]. destruct (IH (index + 1) (tags_insert m t (1 + index))) as (m' & E & H1 & H2); [lia|lia|done| |].
  { intros u Hu. rewrite tags_lookup_insert. destruct (decide (t = u)) as [<-|]; [done|]. apply Hm. by right. }
  exists m'. split; [done|]. split.
  - intros [|i] u; cbn [lookup list_lookup].
    + intros [= <-]. rewrite H2, tags_lookup_insert, decide_True by done. rewrite Hm by (by left). cbn. f_equal. lia.
    + intros Hu%H1. rewrite Hu. f_equal. lia.
  - intros u [Hne Hu]%not_elem_of_cons. rewrite H2, tags_lookup_insert by done. by rewrite decide_False by congruence.
Qed.

(** The priority of the tag at position [j] of [n] tags is [n - j]. *)
Lemma tags_new_spec l p v cross free : Z.of_nat (length l) <= u32_max -> NoDup l ->
  exists m, tags_new l p v cross free = Ret (mkTags m (head l) p v cross free) /\
    (forall j t, l !! j = Some t -> tags_lookup m t = Some (Z.of_nat (length l) - Z.of_nat j)) /\
    (forall t, t ∉ l -> tags_lookup m t = None).
Proof.
  intros Hlen Hnd. unfold tags_new.
  destruct (index_tags_spec (rev l) 0 ∅) as (m & E & H1 & H2); [lia|by rewrite length_rev|by apply NoDup_rev|..].
  { intros t _. apply tags_lookup_empty. }
  rewrite E. exists m. split; [done|]. split.
  - intros j t Hj. pose proof (lookup_lt_Some _ _ _ Hj) as Hlt.
    assert (Hr : rev l !! (length l - S j)%nat = Some t).
    { rewrite rev_alt. fold (reverse l). apply reverse_lookup_Some. split; [|lia].
      by replace (length l - S (length l - S j))%nat with j by lia. }
    rewrite (H1 _ _ Hr). f_equal. lia.
  - intros t Ht. rewrite H2 by (by rewrite elem_of_rev). apply tags_lookup_empty.
Qed.

(** ** Free-threaded interpreters *)

Section freethreaded.
Context `{FlagsLaws}.

(** Without the GIL the interpreter is CPython with the [t] flag, with or without
    the debug flag. *)
Lemma env_freethreaded v name o i : gil_disabled o = true -> env_implementation v name o = Ok i ->
  exists variant, i = ImplCPython variant /\ flags_contains variant Freethreading = true /\
    flags_contains (flags_remove variant Debug) Freethreading = true.
Proof.
  intros Hg. unfold env_implementation. rewrite Hg. destruct (bytes_eqb name (bs "cpython")) eqn:Ec; [|done].
  cbn [negb andb]. rewrite andb_false_r. unfold impl_parse. rewrite Ec. intros [= <-]. eexists. split; [done|].
  rewrite !flags_contains_spec, !flags_remove_spec, !flags_insert_spec.
  by destruct (debug_enabled o), (version_leb v (3, 7)).
Qed.

Lemma env_tags_freethreaded variant v iv l t : flags_contains variant Freethreading = true ->
  flags_contains (flags_remove variant Debug) Freethreading = true ->
  t ∈ env_tags (ImplCPython variant) v iv l -> is_freethreaded_compatible_abi t.1.2 = true.
Proof.
  intros Hf Hd. rewrite env_tags_keys.
  assert (Hk : forall k, k ∈ env_keys (ImplCPython variant) v iv \/ k ∈ any_keys (ImplCPython variant) v ->
            is_freethreaded_compatible_abi k.2 = true).
  { intros k [[-> |[Hk|(m & ->)%elem_of_generic_keys]%elem_of_app]%elem_of_cons|
              [-> %list_elem_of_singleton|(m & ->)%elem_of_generic_keys]%elem_of_app]; try done.
    apply elem_of_cpython_keys in Hk as [[_ ->]|(m & [-> | ->])]; [done| |done].
    unfold stable_abi. by rewrite Hf. }
  intros [(k & Hin & [E _]%elem_of_with_platforms)%elem_of_flat_map|
          (k & Hin & [E _]%elem_of_with_platforms)%elem_of_flat_map]%elem_of_app; rewrite E; apply Hk; auto.
Qed.

(** What [from_env] builds. *)
Record env_spec (t : Tags) (l : list Tag) : Prop := {
  env_distinct : NoDup l;
  env_found j tag : l !! j = Some tag -> tags_lookup (tags_map t) tag = Some (Z.of_nat (length l) - Z.of_nat j);
  env_missing tag : tag ∉ l -> tags_lookup (tags_map t) tag = None;
  env_free tag : tags_is_freethreaded t = true -> tag ∈ l -> is_freethreaded_compatible_abi tag.1.2 = true;
}.

Lemma env_tag_list_spec p v name iv o : os_ok (os p) -> 0 <= v.2 <= u8_max ->
  exists r, env_tag_list p v name iv o = Ret r /\
    forall l, r = Ok l -> NoDup l /\ Z.of_nat (length l) <= u32_max /\
      (gil_disabled o = true -> forall tag, tag ∈ l -> is_freethreaded_compatible_abi tag.1.2 = true).
Proof.
  intros Ho Hv. unfold env_tag_list. destruct (env_implementation v name o) as [i|e] eqn:Ei; [|by eexists].
  destruct (compatible_tags_ok p Ho) as (r & E & Hr). rewrite E. cbn [obind]. eexists. split; [done|].
  intros l. destruct r as [pl|]; [|done]. intros [= <-]. set (pl' := match os p with OsManylinux _ _ => _ | _ => _ end).
  assert (Hpl : platform_list_ok pl').
  { specialize (Hr pl eq_refl) as (Hn & Ha & Hl). unfold pl'. destruct (os p); try done.
    destruct (negb (manylinux_compatible o)); [|done]. split; [|split].
    - apply NoDup_ListNoDup, List.NoDup_filter. by apply NoDup_ListNoDup.
    - rewrite list_elem_of_In, filter_In. rewrite list_elem_of_In in Ha. tauto.
    - etrans; [apply filter_length_le|done]. }
  split; [by apply NoDup_env_tags|]. split.
  - etrans; [by apply length_env_tags|]. unfold u32_max. lia.
  - intros Hg tag Ht. destruct (env_freethreaded v name o i Hg Ei) as (variant & -> & H1 & H2).
    by apply (env_tags_freethreaded variant v iv pl').
Qed.

Lemma from_env_spec p v name iv o : os_ok (os p) -> 0 <= v.2 <= u8_max ->
  exists r, from_env p v name iv o = Ret r /\
    forall t, r = Ok t -> exists l, env_tag_list p v name iv o = Ret (Ok l) /\ env_spec t l.
Proof.
  intros Ho Hv. destruct (env_tag_list_spec p v name iv o Ho Hv) as (r & E & Hr). unfold from_env. rewrite E.
  cbn [obind]. destruct r as [l|e]; [|by eexists]. destruct (Hr l eq_refl) as (Hn & Hl & Hf).
  destruct (tags_new_spec l p v (opt_is_cross o) (gil_disabled o) Hl Hn) as (m & Em & H1 & H2). rewrite Em.
  eexists. split; [done|]. intros t [= <-]. exists l. split; [done|]. split; try done. intros tag Hg. by apply Hf.
Qed.
End freethreaded.

(** ** Compatibility: lemmas *)

Definition compatibility_key (c : TagCompatibility) : Z * Z :=
  match c with Incompatible t => (0, incompatible_rank t) | Compatible p => (1, p) end.

Lemma compatibility_cmp_key a b : compatibility_cmp a b =
  pair_cmp Z.compare Z.compare (compatibility_key a) (compatibility_key b).
Proof. by destruct a, b. Qed.

#[export] Instance compatibility_cmp_laws : OrdLaws compatibility_cmp.
Proof.
  split; intros *; rewrite !compatibility_cmp_key;
    [apply (ord_sym (pair_cmp Z.compare Z.compare))|apply (ord_le_trans (pair_cmp Z.compare Z.compare))].
Qed.

(** Folding [max] gives the greatest element. *)
Lemma fold_max_spec l b : let r := fold_left compatibility_max l b in
  (r = b \/ r ∈ l) /\ forall x, x = b \/ x ∈ l -> compatibility_cmp x r <> Gt.
Proof.
  revert b. induction l as [|c l IH]; intros b; cbn [fold_left].
  { split; [by left|]. intros x [->|?%elem_of_nil]; [|done]. by rewrite (ord_refl compatibility_cmp). }
  destruct (IH (compatibility_max b c)) as [Hr Hmax]. set (r := fold_left _ l _) in *.
  assert (Hb : compatibility_cmp b (compatibility_max b c) <> Gt /\ compatibility_cmp c (compatibility_max b c) <> Gt).
  { unfold compatibility_max. destruct (compatibility_cmp b c) eqn:E; cbn [is_gt].
    - by rewrite E, (ord_refl compatibility_cmp).
    - by rewrite E, (ord_refl compatibility_cmp).
    - rewrite (ord_refl compatibility_cmp). split; [done|]. apply (ord_gt_lt compatibility_cmp) in E. by rewrite E. }
  assert (Hm : compatibility_cmp (compatibility_max b c) r <> Gt) by (apply Hmax; by left).
  split.
  - destruct Hr as [->|Hr]; [|right; by right]. unfold compatibility_max. destruct (is_gt _); [by left|right; by left].
  - intros x [->|[->|Hx]%elem_of_cons]; [| |apply Hmax; by right].
    + apply (ord_le_trans compatibility_cmp _ _ _ (proj1 Hb) Hm).
    + apply (ord_le_trans compatibility_cmp _ _ _ (proj2 Hb) Hm).
Qed.

(** The verdicts the loops compare, in order. *)
Definition platform_verdict (known : gmap PlatformTag Z) (p : PlatformTag) : TagCompatibility :=
  match known !! p with Some priority => Compatible priority | None => Incompatible IncompatiblePlatform end.

Definition abi_verdicts (known : gmap AbiTag (gmap PlatformTag Z)) (ps : list PlatformTag) (a : AbiTag) :
    list TagCompatibility :=
  match known !! a with None => [Incompatible IncompatibleAbi] | Some k => map (platform_verdict k) ps end.

Definition verdicts (m : TagMap) (ls : list LanguageTag) (abis : list AbiTag) (ps : list PlatformTag) :
    list TagCompatibility :=
  flat_map (fun l => match m !! l with
                     | None => [Incompatible IncompatiblePython]
                     | Some k => flat_map (abi_verdicts k ps) abis
                     end) ls.

Lemma fold_left_map {A B C} (f : C -> B -> C) (g : A -> B) l c :
  fold_left (fun c x => f c (g x)) l c = fold_left f (map g l) c.
Proof. revert c. induction l as [|x l IH]; intros c; [done|]. apply IH. Qed.

Lemma fold_left_flat_map {A B C} (f : C -> B -> C) (g : A -> list B) (h : C -> A -> C) l c :
  (forall c x, h c x = fold_left f (g x) c) -> fold_left h l c = fold_left f (flat_map g l) c.
Proof.
  intros E. revert c. induction l as [|x l IH]; intros c; [done|]. cbn. by rewrite fold_left_app, <- E, IH.
Qed.

Lemma python_loop_verdicts m ls abis ps c :
  python_loop m ls abis ps c = fold_left compatibility_max (verdicts m ls abis ps) c.
Proof.
  unfold python_loop, verdicts. apply fold_left_flat_map. intros c1 l. destruct (m !! l) as [k|]; [|done].
  unfold abi_loop. apply fold_left_flat_map. intros c2 a. unfold abi_verdicts. destruct (k !! a) as [k'|]; [|done].
  unfold platform_loop. apply (fold_left_map compatibility_max (platform_verdict k')).
Qed.

Lemma compatible_verdict m ls abis ps p : Compatible p ∈ verdicts m ls abis ps <->
  exists l a x, l ∈ ls /\ a ∈ abis /\ x ∈ ps /\ tags_lookup m (l, a, x) = Some p.
Proof.
  unfold verdicts. rewrite elem_of_flat_map. split.
  - intros (l & Hl & Hv). unfold tags_lookup. destruct (m !! l) as [k|] eqn:El; [|by apply list_elem_of_singleton in Hv].
    apply elem_of_flat_map in Hv as (a & Ha & Hv). unfold abi_verdicts in Hv.
    destruct (k !! a) as [k'|] eqn:Ea; [|by apply list_elem_of_singleton in Hv].
    apply elem_of_map in Hv as (x & Hv & Hx). unfold platform_verdict in Hv.
    destruct (k' !! x) as [q|] eqn:Ex; [|done]. injection Hv as <-. exists l, a, x. rewrite El, Ea. done.
  - intros (l & a & x & Hl & Ha & Hx & E). exists l. split; [done|]. unfold tags_lookup in E.
    destruct (m !! l) as [k|]; [|done]. apply elem_of_flat_map. exists a. split; [done|]. unfold abi_verdicts.
    destruct (k !! a) as [k'|]; [|done]. apply elem_of_map. exists x. split; [|done]. unfold platform_verdict. by rewrite E.
Qed.

Lemma python_loop_Compatible m ls abis ps p : python_loop m ls abis ps (Incompatible Invalid) = Compatible p <->
  (exists l a x, l ∈ ls /\ a ∈ abis /\ x ∈ ps /\ tags_lookup m (l, a, x) = Some p) /\
  (forall l a x q, l ∈ ls -> a ∈ abis -> x ∈ ps -> tags_lookup m (l, a, x) = Some q -> q <= p).
Proof.
  rewrite python_loop_verdicts. destruct (fold_max_spec (verdicts m ls abis ps) (Incompatible Invalid)) as [Hr Hmax].
  set (r := fold_left _ _ _) in *. split.
  - intros E. rewrite E in *. split.
    + apply compatible_verdict. by destruct Hr.
    + intros l a x q Hl Ha Hx Eq. assert (Hq : Compatible q ∈ verdicts m ls abis ps) by (apply compatible_verdict; by exists l, a, x).
      apply (or_intror (A := Compatible q = Incompatible Invalid)) in Hq. exact (Hmax _ Hq).
  - intros [Hp Hall]. apply compatible_verdict in Hp.
    pose proof (Hmax _ (or_intror Hp)) as Hle. destruct r as [t|q] eqn:Er; [done|].
    destruct Hr as [Hr|Hr]; [done|]. apply compatible_verdict in Hr as (l & a & x & Hl & Ha & Hx & Eq).
    specialize (Hall l a x q Hl Ha Hx Eq). f_equal. apply Z.le_antisymm; [done|exact Hle].
Qed.

Lemma python_loop_some m ls abis ps l a x q : l ∈ ls -> a ∈ abis -> x ∈ ps -> tags_lookup m (l, a, x) = Some q ->
  exists p, python_loop m ls abis ps (Incompatible Invalid) = Compatible p.
Proof.
  intros Hl Ha Hx E. rewrite python_loop_verdicts.
  destruct (fold_max_spec (verdicts m ls abis ps) (Incompatible Invalid)) as [_ Hmax].
  assert (Hq : Compatible q ∈ verdicts m ls abis ps) by (apply compatible_verdict; by exists l, a, x).
  specialize (Hmax _ (or_intror Hq)). destruct (fold_left _ _ _) as [|p]; [done|by exists p].
Qed.

Lemma is_compatible_lookup t ls abis ps : is_compatible t ls abis ps = true <->
  exists l a x, l ∈ ls /\ a ∈ abis /\ x ∈ ps /\ is_Some (tags_lookup (tags_map t) (l, a, x)).
Proof.
  unfold is_compatible. rewrite existsb_exists. setoid_rewrite <- list_elem_of_In. split.
  - intros (l & Hl & E). unfold tags_lookup. destruct (tags_map t !! l) as [k|] eqn:El; [|done].
    apply existsb_exists in E as (a & Ha%list_elem_of_In & E). destruct (k !! a) as [k'|] eqn:Ea; [|done].
    apply existsb_exists in E as (x & Hx%list_elem_of_In & E%bool_decide_eq_true). exists l, a, x. by rewrite El, Ea.
  - intros (l & a & x & Hl & Ha & Hx & E). exists l. split; [done|]. unfold tags_lookup in E.
    destruct (tags_map t !! l) as [k|]; [|by destruct E]. apply existsb_exists. exists a. split; [by apply list_elem_of_In|].
    destruct (k !! a) as [k'|]; [|by destruct E]. apply existsb_exists. exists x. split; [by apply list_elem_of_In|].
    by apply bool_decide_eq_true.
Qed.

Section compatibility.
Context `{FlagsLaws}.

Lemma compatibility_tag_lookup t l a x p : compatibility_tag t l a x = Compatible p ->
  tags_lookup (tags_map t) (l, a, x) = Some p.
Proof.
  unfold compatibility_tag, tags_lookup. destruct (_ && _); [done|]. destruct (tags_map t !! l) as [k|]; [|done].
  destruct (k !! a) as [k'|]; [|done]. destruct (k' !! x); [|done]. by intros [= ->].
Qed.

(** In tags built by [from_env] the free-threading test never hides a tag that is
    in the map. *)
Lemma lookup_compatibility_tag t ts l a x p : env_spec t ts -> tags_lookup (tags_map t) (l, a, x) = Some p ->
  (tags_is_freethreaded t = true -> is_freethreaded_compatible_abi a = true) /\
  compatibility_tag t l a x = Compatible p.
Proof.
  intros Ht E. assert (Hin : (l, a, x) ∈ ts).
  { destruct (decide ((l, a, x) ∈ ts)) as [|Hn]; [done|]. rewrite (env_missing _ _ Ht _ Hn) in E. done. }
  assert (Hf : tags_is_freethreaded t = true -> is_freethreaded_compatible_abi a = true).
  { intros Hf. exact (env_free _ _ Ht _ Hf Hin). }
  split; [done|]. unfold compatibility_tag. unfold tags_lookup in E.
  destruct (tags_is_freethreaded t); cbn [andb]; [rewrite Hf by done; cbn [negb]|].
  all: destruct (tags_map t !! l) as [k|]; [|done]; destruct (k !! a) as [k'|]; [|done]; by rewrite E.
Qed.

Lemma compatibility_guard t ts ls abis ps l a x p : env_spec t ts -> a ∈ abis ->
  tags_lookup (tags_map t) (l, a, x) = Some p ->
  compatibility t ls abis ps = python_loop (tags_map t) ls abis ps (Incompatible Invalid).
Proof.
  intros Ht Ha E. destruct (lookup_compatibility_tag t ts l a x p Ht E) as [Hc _]. unfold compatibility.
  destruct (tags_is_freethreaded t); [|done]. cbn [andb].
  assert (Hex : existsb is_freethreaded_compatible_abi abis = true).
  { apply existsb_exists. exists a. split; [by apply list_elem_of_In|by apply Hc]. }
  by rewrite Hex.
Qed.

Lemma compatibility_Compatible t ts ls abis ps p : env_spec t ts ->
  compatibility t ls abis ps = Compatible p <->
  (exists l a x, l ∈ ls /\ a ∈ abis /\ x ∈ ps /\ tags_lookup (tags_map t) (l, a, x) = Some p) /\
  (forall l a x q, l ∈ ls -> a ∈ abis -> x ∈ ps -> tags_lookup (tags_map t) (l, a, x) = Some q -> q <= p).
Proof.
  intros Ht. rewrite <- python_loop_Compatible. split.
  - unfold compatibility. by destruct (tags_is_freethreaded t && _).
  - intros Hc. apply python_loop_Compatible in Hc as Hc'. destruct Hc' as [(l & a & x & _ & Ha & _ & E) _].
    by rewrite (compatibility_guard t ts ls abis ps l a x p).
Qed.

(** The short-circuiting test agrees with the search for the best tag. *)
Lemma is_compatible_agrees t ts ls abis ps : env_spec t ts ->
  is_compatible t ls abis ps = compatibility_is_compatible (compatibility t ls abis ps).
Proof.
  intros Ht. apply eq_true_iff_eq. rewrite is_compatible_lookup. split.
  - intros (l & a & x & Hl & Ha & Hx & [q Eq]). rewrite (compatibility_guard t ts ls abis ps l a x q) by done.
    by destruct (python_loop_some (tags_map t) ls abis ps l a x q) as [q' ->].
  - destruct (compatibility t ls abis ps) as [|q] eqn:Eq; [done|]. intros _.
    apply (compatibility_Compatible t ts) in Eq as [(l & a & x & Hl & Ha & Hx & El) _]; [|done].
    exists l, a, x. by rewrite El.
Qed.

Lemma compatibility_single t l a x : compatibility t [l] [a] [x] = compatibility_tag t l a x.
Proof.
  unfold compatibility, compatibility_tag. cbn [existsb]. rewrite orb_false_r. destruct (_ && _); [done|].
  unfold python_loop, abi_loop, platform_loop. cbn [fold_left]. destruct (tags_map t !! l) as [k|]; [|done].
  cbn [fold_left]. destruct (k !! a) as [k'|]; [|done]. cbn [fold_left]. by destruct (k' !! x).
Qed.

(** ** Properties *)

(** Building the tags of an interpreter never panics, for any [u8] version and
    [u16] platform versions (the [expect] on the priority and the [unreachable!]
    on the binary format are not reached); no tag is listed twice; and the
    priority of a tag is its position counted from the end, so that an earlier,
    more specific tag wins; other tags are incompatible. *)
Theorem env_tags_prioritised p v name iv o : os_ok (os p) -> 0 <= v.2 <= u8_max ->
  exists r, from_env p v name iv o = Ret r /\
    forall t, r = Ok t -> exists tags, env_tag_list p v name iv o = Ret (Ok tags) /\ NoDup tags /\
      (forall j l a x, tags !! j = Some (l, a, x) ->
         compatibility_tag t l a x = Compatible (Z.of_nat (length tags) - Z.of_nat j)) /\
      (forall l a x, (l, a, x) ∉ tags -> compatibility_is_compatible (compatibility_tag t l a x) = false).
Proof.
  intros Ho Hv. destruct (from_env_spec p v name iv o Ho Hv) as (r & E & Hr). exists r. split; [done|].
  intros t Et. destruct (Hr t Et) as (tags & El & Ht). exists tags. split; [done|]. split; [apply Ht|]. split.
  - intros j l a x Hj. apply (lookup_compatibility_tag t tags); [done|]. by apply (env_found _ _ Ht).
  - intros l a x Hn. destruct (compatibility_tag t l a x) as [|q] eqn:Eq; [done|].
    apply compatibility_tag_lookup in Eq. by rewrite (env_missing _ _ Ht _ Hn) in Eq.
Qed.

(** The compatibility of a wheel with several tags is that of its best tag:
    [compatibility] is the greatest priority among all combinations, it is
    compatible exactly when the short-circuiting [is_compatible] says so (also on
    free-threaded interpreters, which only [compatibility] tests for), and for a
    wheel with one tag it is [compatibility_tag], the reason for an
    incompatibility included. *)
Theorem wheel_compatibility p v name iv o t ls abis ps : os_ok (os p) -> 0 <= v.2 <= u8_max ->
  from_env p v name iv o = Ret (Ok t) ->
  is_compatible t ls abis ps = compatibility_is_compatible (compatibility t ls abis ps) /\
  (forall q, compatibility t ls abis ps = Compatible q <->
     (exists l a x, l ∈ ls /\ a ∈ abis /\ x ∈ ps /\ compatibility_tag t l a x = Compatible q) /\
     (forall l a x q', l ∈ ls -> a ∈ abis -> x ∈ ps -> compatibility_tag t l a x = Compatible q' -> q' <= q)) /\
  (forall l a x, compatibility t [l] [a] [x] = compatibility_tag t l a x).
Proof.
  intros Ho Hv E. destruct (from_env_spec p v name iv o Ho Hv) as (r & E' & Hr). rewrite E in E'. injection E' as <-.
  destruct (Hr t eq_refl) as (tags & _ & Ht).
  assert (Hiff : forall l a x q, compatibility_tag t l a x = Compatible q <-> tags_lookup (tags_map t) (l, a, x) = Some q).
  { intros l a x q. split; [apply compatibility_tag_lookup|]. intros Eq. by apply (lookup_compatibility_tag t tags). }
  split; [by apply (is_compatible_agrees t tags)|split; [|by intros; apply compatibility_single]].
  intros q. rewrite (compatibility_Compatible t tags) by done. by setoid_rewrite Hiff.
Qed.
End compatibility.

Lemma env_tags_prioritised_witness :
  exists r, from_env (H := bit_flags) (mkPlatform OsWindows X86_64) (3, 4) (bs "cpython") (3, 4)
              (mkOptions true false false false) = Ret r /\
    forall t, r = Ok t -> compatibility_tag (H := bit_flags) t (Python 3 None) AbiNone Any = Compatible 5.
Proof.
  destruct (env_tags_prioritised (H := bit_flags) (mkPlatform OsWindows X86_64) (3, 4) (bs "cpython") (3, 4)
              (mkOptions true false false false)) as (r & E & Hr); [done|by vm_compute|].
  exists r. split; [done|]. intros t Et. destruct (Hr t Et) as (tags & El & _ & Hp & _).
  vm_compute in El. injection El as <-. apply (Hp 13%nat). reflexivity.
Defined.

Lemma wheel_compatibility_witness :
  exists t, from_env (H := bit_flags) (mkPlatform OsWindows X86_64) (3, 13) (bs "cpython") (3, 13)
              (mkOptions true true false false) = Ret (Ok t) /\
    is_compatible t [CPython (3, 13)] [Abi3; Abi3T] [WinAmd64] =
    compatibility_is_compatible (compatibility (H := bit_flags) t [CPython (3, 13)] [Abi3; Abi3T] [WinAmd64]).
Proof.
  assert (Hok : (match from_env (H := bit_flags) (mkPlatform OsWindows X86_64) (3, 13) (bs "cpython") (3, 13)
                         (mkOptions true true false false) with Ret (Ok _) => true | _ => false end) = true)
    by (vm_compute; reflexivity).
  destruct (from_env (H := bit_flags) (mkPlatform OsWindows X86_64) (3, 13) (bs "cpython") (3, 13)
              (mkOptions true true false false)) as [[t|e]|] eqn:E; [|discriminate Hok..].
  exists t. split; [done|].
  refine (proj1 (wheel_compatibility (H := bit_flags) (mkPlatform OsWindows X86_64) (3, 13) (bs "cpython") (3, 13)
            (mkOptions true true false false) t _ _ _ _ _ E)); [exact I|by vm_compute].
Defined.

(** On illumos the tag of the platform carries [_64bit] twice: the tag for
    SunOS 5.11 prints as [solaris_2_11_i86pc_64bit_64bit], and it is not the tag
    that the wheel tag [solaris_2_11_i86pc_64bit] is parsed to, so that no such
    wheel is compatible. *)
Theorem illumos_suffix_twice :
  exists tag wheel, compatible_tags (mkPlatform (OsIllumos (bs "5_11") (bs "i86pc")) X86_64) = Ret (Ok [tag]) /\
    platform_display tag = bs "solaris_2_11_i86pc_64bit_64bit" /\
    platform_from_str (H := first_index) (bs "solaris_2_11_i86pc_64bit") = Ret (Ok wheel) /\ wheel <> tag.
Proof. by eexists _, _. Qed.
