(* ===== verification/DistExtension.v ===== *)
(** * Extensions of distribution files

    Models [crates/uv-distribution-filename/src/extension.rs], and what it uses of
    [std::path::Path] on Unix: the last component of a path, its stem and its
    extension.  The theorems say which file names have an extension, that the
    extension is a suffix of the name (so that cutting it off never splits a
    character), and that a stem with the name of an extension has that
    extension. *)

From Stdlib Require Import ZArith Lia String.
From stdpp Require Import base list.
From S2P Require Import Prelude.
From S2P Require Import Normalize.
From S2P Require Import PlatformTags.

Open Scope Z_scope.

(** ** [std::path::Path] (Unix) *)

(** The components of a path that [components().next_back()] can return: the
    parts between slashes, without empty ones and [.]. *)
Definition is_component (part : list Z) : bool :=
  negb (bytes_eqb part []) && negb (bytes_eqb part (bs ".")).

Definition last_component (path : list Z) : option (list Z) :=
  last (List.filter is_component (split_on 47 path)).

(** [Path::file_name] *)
Definition file_name (path : list Z) : option (list Z) :=
  match last_component path with
  | Some part => if bytes_eqb part (bs "..") then None else Some part
  | None => None
  end.

(** [rsplit_file_at_dot]: what is before and after the last dot. *)
Definition rsplit_file_at_dot (file : list Z) : option (list Z) * option (list Z) :=
  if bytes_eqb file (bs "..") then (Some file, None)
  else
    match rsplit_once 46 file with
    | None => (None, Some file)
    | Some ([], _) => (Some file, None)
    | Some (before, after) => (Some before, Some after)
    end.

(** [Path::extension]: [before.and(after)] *)
Definition path_extension (path : list Z) : option (list Z) :=
  match file_name path with
  | None => None
  | Some file => match rsplit_file_at_dot file with (Some _, after) => after | (None, _) => None end
  end.

(** [Path::file_stem]: [before.or(after)] *)
Definition path_stem (path : list Z) : option (list Z) :=
  match file_name path with
  | None => None
  | Some file => match rsplit_file_at_dot file with (Some before, _) => Some before | (None, after) => after end
  end.

(** [OsStr::eq_ignore_ascii_case] *)
Definition str_eq_ignore_ascii_case (a b : list Z) : bool :=
  bytes_eqb (map to_ascii_lowercase a) (map to_ascii_lowercase b).

(** ** extension.rs *)

Inductive LegacySourceDistExtension :=
| Tar | TarBz2 | TarLz | TarLzma | TarXz | TarZst | Tbz | Tgz | Tlz | Txz | Zip.

Inductive SourceDistExtension := TarGz | Legacy (e : LegacySourceDistExtension).

Inductive DistExtension := Wheel | Source (e : SourceDistExtension).

Inductive ExtensionError := ExtDist | ExtSourceDist.

#[export] Instance legacy_eq_dec : EqDecision LegacySourceDistExtension.
Proof. solve_decision. Defined.
#[export] Instance source_extension_eq_dec : EqDecision SourceDistExtension.
Proof. solve_decision. Defined.

(** [SourceDistExtension::name] *)
Definition source_extension_name (e : SourceDistExtension) : list Z :=
  match e with
  | TarGz => bs "tar.gz"
  | Legacy Tar => bs "tar"
  | Legacy TarBz2 => bs "tar.bz2"
  | Legacy TarLz => bs "tar.lz"
  | Legacy TarLzma => bs "tar.lzma"
  | Legacy TarXz => bs "tar.xz"
  | Legacy TarZst => bs "tar.zst"
  | Legacy Tbz => bs "tbz"
  | Legacy Tgz => bs "tgz"
  | Legacy Tlz => bs "tlz"
  | Legacy Txz => bs "txz"
  | Legacy Zip => bs "zip"
  end.

(** [DistExtension::name] *)
Definition dist_extension_name (e : DistExtension) : list Z :=
  match e with Wheel => bs "whl" | Source e => source_extension_name e end.

(** [is_tar] *)
Definition is_tar (path : list Z) : bool :=
  match path_stem path with
  | None => false
  | Some stem =>
      match path_extension stem with
      | None => false
      | Some ext => str_eq_ignore_ascii_case ext (bs "tar")
      end
  end.

(** The arms of the [match] in [SourceDistExtension::from_path]: the extension,
    whether the guard asks for a tar file, and the result. *)
Definition extension_arms : list (list Z * (bool * SourceDistExtension)) :=
  [(bs "gz", (true, TarGz));
   (bs "zip", (false, Legacy Zip));
   (bs "tar", (false, Legacy Tar));
   (bs "tgz", (false, Legacy Tgz));
   (bs "tbz", (false, Legacy Tbz));
   (bs "txz", (false, Legacy Txz));
   (bs "tlz", (false, Legacy Tlz));
   (bs "bz2", (true, Legacy TarBz2));
   (bs "xz", (true, Legacy TarXz));
   (bs "lz", (true, Legacy TarLz));
   (bs "lzma", (true, Legacy TarLzma));
   (bs "zst", (true, Legacy TarZst))].

Fixpoint match_extension (arms : list (list Z * (bool * SourceDistExtension))) (extension : list Z) (tar : bool) :
    option SourceDistExtension :=
  match arms with
  | [] => None
  | (lit, (guard, e)) :: arms' =>
      if bytes_eqb extension lit && (negb guard || tar) then Some e else match_extension arms' extension tar
  end.

(** [SourceDistExtension::from_path] *)
Definition source_extension_from_path (path : list Z) : result SourceDistExtension ExtensionError :=
  match path_extension path with
  | None => Err ExtSourceDist
  | Some extension =>
      match match_extension extension_arms extension (is_tar path) with
      | Some e => Ok e
      | None => Err ExtSourceDist
      end
  end.

(** [DistExtension::from_path] *)
Definition dist_extension_from_path (path : list Z) : result DistExtension ExtensionError :=
  match path_extension path with
  | None => Err ExtDist
  | Some extension =>
      if bytes_eqb extension (bs "whl") then Ok Wheel
      else
        match source_extension_from_path path with
        | Ok e => Ok (Source e)
        | Err _ => Err ExtDist
        end
  end.

(** [SourceDistExtension::is_pep625_compliant] *)
Definition is_pep625_compliant (e : SourceDistExtension) : bool :=
  match e with TarGz | Legacy Zip => true | _ => false end.

Definition all_extensions : list SourceDistExtension :=
  TarGz :: map Legacy [Tar; TarBz2; TarLz; TarLzma; TarXz; TarZst; Tbz; Tgz; Tlz; Txz; Zip].

(** ** Paths: lemmas *)

Lemma split_on_parts sep s : Forall (Forall (fun c => c <> sep)) (split_on sep s).
Proof.
  induction s as [|c s IH]; [by repeat constructor|]. cbn. destruct (Z.eqb_spec c sep); [by repeat constructor|].
  destruct (split_on sep s) as [|part parts]; [by repeat constructor|]. inv IH. by repeat constructor.
Qed.

Lemma rsplit_once_Some sep s a b : rsplit_once sep s = Some (a, b) ->
  s = a ++ sep :: b /\ Forall (fun c => c <> sep) b.
Proof.
  assert (N : forall l, rsplit_once sep l = None -> Forall (fun c => c <> sep) l).
  { induction l as [|c l IH]; [done|]. cbn. destruct (rsplit_once sep l) as [[]|]; [done|].
    destruct (Z.eqb_spec c sep); [done|]. constructor; [done|by apply IH]. }
  revert a b. induction s as [|c s IH]; [done|]. cbn. intros a b.
  destruct (rsplit_once sep s) as [[x y]|] eqn:E.
  - intros [= <- <-]. by destruct (IH x y eq_refl) as [-> H].
  - destruct (Z.eqb_spec c sep); [|done]. intros [= <- <-]. subst. by split; [|apply N].
Qed.

(** A text is free of a separator, or is split at the first one. *)
Lemma split_on_ind sep (P : list Z -> Prop) :
  (forall l, Forall (fun c => c <> sep) l -> P l) ->
  (forall a b, Forall (fun c => c <> sep) a -> P b -> P (a ++ sep :: b)) -> forall l, P l.
Proof.
  intros H0 H1 l. remember (length l) as n eqn:En. revert l En. induction n as [n IH] using lt_wf_ind. intros l ->.
  destruct (split_once sep l) as [[a b]|] eqn:Es; [|by apply H0, split_once_None].
  apply split_once_Some in Es as [-> Ha]. apply H1; [done|]. eapply IH; [|done]. rewrite length_app. cbn. lia.
Qed.

Definition slash_or_dot (c : Z) : Prop := c = 47 \/ c = 46.

Lemma not_component a : is_component a = false -> Forall slash_or_dot a.
Proof.
  unfold is_component. destruct (bytes_eqb a []) eqn:E1; [apply bytes_eqb_eq in E1 as ->; constructor|].
  destruct (bytes_eqb a (bs ".")) eqn:E2; [|done]. apply bytes_eqb_eq in E2 as ->. constructor; [by right|constructor].
Qed.

Lemma no_components l : List.filter is_component (split_on 47 l) = [] -> Forall slash_or_dot l.
Proof.
  induction l as [l Hl|a b Ha IH] using (split_on_ind 47).
  - rewrite split_on_none by done. cbn. destruct (is_component l) eqn:Ec; [done|]. by intros _; apply not_component.
  - rewrite split_on_app by done. cbn. destruct (is_component a) eqn:Ec; [done|]. intros E.
    apply Forall_app. split; [by apply not_component|]. constructor; [by left|by apply IH].
Qed.

(** The last component of a path is followed by slashes and dots only. *)
Lemma last_component_spec path part : last_component path = Some part ->
  exists before after, path = before ++ part ++ after /\ Forall slash_or_dot after /\ is_component part = true.
Proof.
  unfold last_component. revert part. induction path as [l Hl|a b Ha IH] using (split_on_ind 47); intros part.
  - rewrite split_on_none by done. cbn. destruct (is_component l) eqn:Ec; [|done]. intros [= <-].
    exists [], []. split; [by rewrite app_nil_r|]. by split; [constructor|].
  - rewrite split_on_app by done. cbn [List.filter].
    destruct (List.filter is_component (split_on 47 b)) as [|x xs] eqn:Ef.
    + destruct (is_component a) eqn:Ec; [|done]. intros [= <-]. exists [], (47 :: b). split; [done|].
      split; [|done]. constructor; [by left|by apply no_components].
    + intros E. destruct (IH part) as (u & w & -> & Hw); [by destruct (is_component a)|].
      exists (a ++ 47 :: u), w. by rewrite <- app_assoc.
Qed.

Lemma file_name_plain l : Forall (fun c => c <> 47) l -> l <> [] -> l <> bs "." -> l <> bs ".." -> file_name l = Some l.
Proof.
  intros Hl H0 H1 H2. unfold file_name, last_component. rewrite split_on_none by done.
  assert (Ec : is_component l = true).
  { unfold is_component. apply andb_true_intro. split; apply negb_true_iff, not_true_is_false.
    - by intros E%bytes_eqb_eq.
    - by intros E%bytes_eqb_eq. }
  cbn [List.filter]. rewrite Ec. cbn [last]. destruct (bytes_eqb l (bs "..")) eqn:E2; [|done].
  by apply bytes_eqb_eq in E2.
Qed.

Lemma rsplit_file_app before after : before <> [] -> Forall (fun c => c <> 46) after ->
  rsplit_file_at_dot (before ++ 46 :: after) =
    if bytes_eqb (before ++ 46 :: after) (bs "..") then (Some (bs ".."), None) else (Some before, Some after).
Proof.
  intros Hb Ha. unfold rsplit_file_at_dot. rewrite rsplit_once_app by done.
  destruct (bytes_eqb _ _) eqn:E; [by apply bytes_eqb_eq in E as ->|]. by destruct before.
Qed.

(** The extension of a plain file name: what follows its last dot. *)
Lemma plain_extension before after : Forall (fun c => c <> 47) (before ++ after) -> before <> [] -> after <> [] ->
  Forall (fun c => c <> 46) after ->
  path_extension (before ++ 46 :: after) = Some after /\ path_stem (before ++ 46 :: after) = Some before.
Proof.
  intros [Hb Ha]%Forall_app Hn Hn' Hd.
  assert (H3 : before ++ 46 :: after <> bs "..").
  { intros E. destruct before as [|x [|y before]]; [done| |].
    - injection E as _ E. by subst.
    - injection E as _ _ E. by destruct before. }
  assert (En : file_name (before ++ 46 :: after) = Some (before ++ 46 :: after)).
  { apply file_name_plain; [by apply Forall_app; split; [|constructor]|by destruct before| |done].
    intros E. destruct before as [|x before]; [done|]. injection E as _ E. by destruct before. }
  unfold path_extension, path_stem. rewrite En, rsplit_file_app by done.
  destruct (bytes_eqb _ _) eqn:E; [by apply bytes_eqb_eq in E|done].
Qed.

Lemma path_extension_spec path ext : path_extension path = Some ext ->
  exists dir before tail, path = dir ++ before ++ 46 :: ext ++ tail /\ Forall slash_or_dot tail /\
    path_stem path = Some before /\ before <> [].
Proof.
  unfold path_extension, path_stem. destruct (file_name path) as [file|] eqn:En; [|done].
  unfold file_name in En. destruct (last_component path) as [part|] eqn:El; [|done].
  destruct (bytes_eqb part (bs "..")) eqn:E2; [done|]. injection En as ->.
  apply last_component_spec in El as (dir & tail & -> & Ht & _). unfold rsplit_file_at_dot. rewrite E2.
  destruct (rsplit_once 46 file) as [[[|c before] after]|] eqn:Er; [done| |done].
  intros [= ->]. apply rsplit_once_Some in Er as [-> _]. exists dir, (c :: before), tail.
  split; [by rewrite <- !app_assoc|]. by split; [|split].
Qed.

Lemma match_extension_In arms extension tar e : match_extension arms extension tar = Some e ->
  exists guard, In (extension, (guard, e)) arms /\ (guard = true -> tar = true).
Proof.
  induction arms as [|[lit [guard e']] arms IH]; [done|]. cbn.
  destruct (bytes_eqb extension lit && (negb guard || tar)) eqn:E.
  - intros [= <-]. apply andb_prop in E as [E%bytes_eqb_eq E']. subst. exists guard. split; [by left|].
    by intros ->.
  - intros H. destruct (IH H) as (g & Hi & Hg). exists g. split; [by right|done].
Qed.

Lemma lowercase_ascii c : to_ascii_lowercase c < 128 -> c < 128.
Proof. unfold to_ascii_lowercase, is_ascii_upper. destruct (Z.leb_spec 65 c), (Z.leb_spec c 90); cbn; lia. Qed.

Lemma lowercase_text ext lit : str_eq_ignore_ascii_case ext lit = true -> Forall is_char ext ->
  Forall (fun c => c < 128) (map to_ascii_lowercase lit) ->
  Forall (fun c => 0 <= c < 128) ext /\ length ext = length lit.
Proof.
  intros E%bytes_eqb_eq Hc Hl. rewrite <- E in Hl. split.
  - apply List.Forall_map in Hl. apply Forall_forall. intros c Hi. rewrite Forall_forall in Hl, Hc.
    specialize (Hl _ Hi). specialize (Hc _ Hi). apply lowercase_ascii in Hl. unfold is_char in Hc. lia.
  - by rewrite <- (length_map to_ascii_lowercase ext), E, length_map.
Qed.

(** A path with an extension ends in ASCII characters, at least as many as the
    dot and the name of the extension. *)
Lemma extension_tail path e : Forall is_char path -> source_extension_from_path path = Ok e ->
  exists stem tail, path = stem ++ tail /\ Forall (fun c => 0 <= c < 128) tail /\
    (length (source_extension_name e) + 1 <= length tail)%nat /\ stem <> [].
Proof.
  intros Hc. unfold source_extension_from_path. destruct (path_extension path) as [ext|] eqn:Ee; [|done].
  destruct (match_extension extension_arms ext (is_tar path)) as [e'|] eqn:Em; [|done]. intros [= <-].
  apply match_extension_In in Em as (guard & Hi & Hg).
  destruct (path_extension_spec path ext Ee) as (dir & before & after & -> & Ht & Es & Hne).
  assert (Hext : Forall (fun c => 0 <= c < 128) ext).
  { cbn in Hi. repeat destruct Hi as [[= <- _ _]|Hi]; [by repeat constructor..|done]. }
  assert (Hafter : Forall (fun c => 0 <= c < 128) after).
  { eapply Forall_impl; [exact Ht|]. intros c [-> | ->]; lia. }
  destruct guard.
  - assert (Htar := Hg eq_refl). unfold is_tar in Htar. rewrite Es in Htar.
    destruct (path_extension before) as [tar|] eqn:Et; [|done].
    destruct (path_extension_spec before tar Et) as (dir' & before' & after' & -> & Ht' & _ & Hne').
    apply lowercase_text in Htar as [Ha Hl]; [| |by repeat constructor].
    2:{ rewrite !Forall_app in Hc. destruct Hc as (_ & (_ & _ & Hc) & _). apply Forall_cons in Hc as [_ Hc].
        by apply Forall_app in Hc as [? _]. }
    exists (dir ++ dir' ++ before'), ((46 :: tar ++ after') ++ 46 :: ext ++ after). split; [by rewrite <- !app_assoc|].
    split; [|split].
    + apply Forall_app. split; [constructor; [lia|apply Forall_app; split; [done|]]|constructor; [lia|by apply Forall_app]].
      eapply Forall_impl; [exact Ht'|]. intros c [-> | ->]; lia.
    + rewrite !length_app. cbn [length]. rewrite !length_app, Hl. cbn in Hi.
      repeat destruct Hi as [[= <- <-]|Hi]; cbn; lia.
    + destruct dir; [|done]. destruct dir'; [done|done].
  - exists (dir ++ before), (46 :: ext ++ after). split; [by rewrite <- app_assoc|].
    split; [constructor; [lia|by apply Forall_app]|]. split; [|by destruct dir].
    cbn [length]. rewrite length_app. cbn in Hi. repeat destruct Hi as [[= <- <-]|Hi]; cbn; lia.
Qed.

(** A simple extension, and one of a tar file. *)
Lemma simple_extension_of stem ext : stem <> [] -> Forall (fun c => c <> 47) stem ->
  Forall (fun c => c <> 47) ext -> Forall (fun c => c <> 46) ext -> ext <> [] ->
  path_extension (stem ++ 46 :: ext) = Some ext.
Proof. intros Hs Hc He Hd Hn. apply plain_extension; [by apply Forall_app|done..]. Qed.

Lemma tar_extension_of stem ext : stem <> [] -> Forall (fun c => c <> 47) stem ->
  Forall (fun c => c <> 47) ext -> Forall (fun c => c <> 46) ext -> ext <> [] ->
  path_extension (stem ++ bs ".tar." ++ ext) = Some ext /\ is_tar (stem ++ bs ".tar." ++ ext) = true.
Proof.
  intros Hs Hc He Hd Hn. replace (stem ++ bs ".tar." ++ ext) with ((stem ++ bs ".tar") ++ 46 :: ext)
    by (by rewrite <- app_assoc).
  destruct (plain_extension (stem ++ bs ".tar") ext) as [E1 E2]; [|by destruct stem|done|done|].
  { rewrite !Forall_app. split; [split; [done|by repeat constructor]|done]. }
  split; [done|]. unfold is_tar. rewrite E2. change (bs ".tar") with (46 :: bs "tar").
  by rewrite simple_extension_of by (done || by repeat constructor).
Qed.

(** A stem followed by the name of an extension has that extension. *)
Lemma extension_of_name stem e : stem <> [] -> Forall (fun c => c <> 47) stem ->
  source_extension_from_path (stem ++ 46 :: source_extension_name e) = Ok e /\
  dist_extension_from_path (stem ++ 46 :: source_extension_name e) = Ok (Source e).
Proof.
  intros Hs Hc.
  assert (S : forall lit, source_extension_name e = lit -> Forall (fun c => c <> 47) lit ->
    Forall (fun c => c <> 46) lit -> lit <> [] -> bytes_eqb lit (bs "whl") = false ->
    (forall tar, match_extension extension_arms lit tar = Some e) ->
    source_extension_from_path (stem ++ 46 :: source_extension_name e) = Ok e /\
    dist_extension_from_path (stem ++ 46 :: source_extension_name e) = Ok (Source e)).
  { intros lit -> H1 H2 H3 H4 H5. unfold dist_extension_from_path, source_extension_from_path.
    by rewrite simple_extension_of, H4, H5 by done. }
  assert (T : forall lit, source_extension_name e = bs "tar." ++ lit -> Forall (fun c => c <> 47) lit ->
    Forall (fun c => c <> 46) lit -> lit <> [] -> bytes_eqb lit (bs "whl") = false ->
    match_extension extension_arms lit true = Some e ->
    source_extension_from_path (stem ++ 46 :: source_extension_name e) = Ok e /\
    dist_extension_from_path (stem ++ 46 :: source_extension_name e) = Ok (Source e)).
  { intros lit -> H1 H2 H3 H4 H5. unfold dist_extension_from_path, source_extension_from_path.
    destruct (tar_extension_of stem lit Hs Hc H1 H2 H3) as [E1 E2].
    change (46 :: bs "tar." ++ lit) with (bs ".tar." ++ lit). by rewrite E1, E2, H4, H5. }
  destruct e as [|[]]; first
    [by apply (S _ eq_refl); first [done|by repeat constructor|by intros []]
    |by eapply (T _ eq_refl); first [done|by repeat constructor]].
Qed.
