(* ===== verification/WheelTag.v ===== *)
(** * Tags of a wheel file name

    Models [splitter.rs], [build_tag.rs], [wheel_tag.rs] and [expanded_tags.rs] of
    [crates/uv-distribution-filename]: the splitter on top of [memchr::Memchr], the
    build tag, the small and large representations of the tags of a wheel, and the
    expanded tags of a [WHEEL] file.

    A [str] is its list of characters and offsets are in bytes, so a slice that
    does not fall on a character boundary is a [Panic].  The theorems show that
    none does, and that the splitter is [str::split_terminator]. *)

From Stdlib Require Import ZArith Lia String.
From stdpp Require Import base list gmap.
From S2P Require Import Prelude.
From S2P Require Import Normalize.
From S2P Require Import PythonTags.
From S2P Require Import PlatformTags.
From S2P Require Import Tags.
From S2P Require Import DistExtension.

Open Scope Z_scope.

(** ** [memchr::Memchr]

    The iterator yields the offsets of a byte in increasing order.  It is fused: it
    keeps answering [None] after the last one.  It is modelled by the offsets that
    remain. *)

Fixpoint positions_from (i : nat) (needle : Z) (l : list Z) : list nat :=
  match l with
  | [] => []
  | c :: l' => if c =? needle then i :: positions_from (S i) needle l' else positions_from (S i) needle l'
  end.

Class MemchrIter := memchr_iter : Z -> list Z -> list nat.

Class MemchrIterLaws `{MemchrIter} : Prop := {
  memchr_iter_positions needle l : memchr_iter needle l = positions_from 0 needle l;
}.

#[export] Instance all_positions : MemchrIter := positions_from 0.
#[export] Instance all_positions_laws : MemchrIterLaws.
Proof. by split. Qed.

(** ** [MemchrSplitter] (splitter.rs) *)

Record MemchrSplitter := mkSplitter {
  split_memchr : list nat;
  split_haystack : list Z;
  split_offset : nat;
}.

(** [MemchrSplitter::split] *)
Definition splitter_split `{MemchrIter} (haystack : list Z) (delimiter : Z) : MemchrSplitter :=
  mkSplitter (memchr_iter delimiter (utf8 haystack)) haystack 0.

(** [Iterator::next] *)
Definition splitter_next (s : MemchrSplitter) : outcome (option (list Z) * MemchrSplitter) :=
  match split_memchr s with
  | index :: rest =>
      let! part := slice (split_haystack s) (split_offset s) index in
      Ret (Some part, mkSplitter rest (split_haystack s) (index + 1))
  | [] =>
      if Nat.ltb (split_offset s) (str_len (split_haystack s)) then
        let! part := slice_from (split_haystack s) (split_offset s) in
        Ret (Some part, mkSplitter [] (split_haystack s) (str_len (split_haystack s)))
      else Ret (None, s)
  end.

(** [Iterator::size_hint] *)
Definition splitter_size_hint (s : MemchrSplitter) : outcome (nat * option nat) :=
  let min := if Nat.ltb (split_offset s) (str_len (split_haystack s)) then 1%nat else 0%nat in
  match checked_sub (Z.of_nat (str_len (split_haystack s))) (Z.of_nat (split_offset s)) with
  | None => Panic
  | Some rest => Ret (min, Some (Z.to_nat ((rest + 1) / 2) + min)%nat)
  end.

(** A [for] loop over the splitter whose body returns an error, or goes on with a
    new accumulator. *)
Fixpoint splitter_fold {A E} (fuel : nat) (body : list Z -> A -> outcome (result A E)) (s : MemchrSplitter) (acc : A) :
    outcome (result A E) :=
  match fuel with
  | O => Panic
  | S fuel' =>
      let! p := splitter_next s in
      match p with
      | (None, _) => Ret (Ok acc)
      | (Some part, s') =>
          let! r := body part acc in
          match r with
          | Ok acc' => splitter_fold fuel' body s' acc'
          | Err e => Ret (Err e)
          end
      end
  end.

(** One step per delimiter, one for the rest and one for the end. *)
Definition splitter_fuel (s : MemchrSplitter) : nat := length (split_memchr s) + 2.

(** ** Build tags (build_tag.rs) *)

Inductive BuildTagError := BuildEmpty | BuildNoLeadingDigit | BuildInvalidCharacters | BuildParseInt.

Record BuildTag := mkBuildTag { build_number : Z; build_suffix : option (list Z) }.

Definition is_build_tag_byte (byte : Z) : bool := is_ascii_alphanumeric byte || (byte =? 95) || (byte =? 46).

(** The loop over [s.bytes().enumerate()]. *)
Fixpoint build_prefix_loop (bytes : list Z) (index : nat) (prefix_end : option nat) : result (option nat) BuildTagError :=
  match bytes with
  | [] => Ok prefix_end
  | byte :: bytes' =>
      if negb (is_build_tag_byte byte) then Err BuildInvalidCharacters
      else
        let prefix_end' :=
          match prefix_end with
          | None => if negb (is_ascii_digit byte) then Some index else None
          | Some _ => prefix_end
          end in
        build_prefix_loop bytes' (S index) prefix_end'
  end.

(** [prefix.parse::<u64>()?] *)
Definition build_tag_of (prefix : list Z) (suffix : option (list Z)) : result BuildTag BuildTagError :=
  match parse_uint u64_max prefix with
  | Some n => Ok (mkBuildTag n suffix)
  | None => Err BuildParseInt
  end.

(** [impl FromStr for BuildTag] *)
Definition build_tag_from_str (s : list Z) : outcome (result BuildTag BuildTagError) :=
  match s with
  | [] => Ret (Err BuildEmpty)
  | _ =>
      match build_prefix_loop (utf8 s) 0 None with
      | Err e => Ret (Err e)
      | Ok (Some O) => Ret (Err BuildNoLeadingDigit)
      | Ok (Some split) => let! p := str_split_at s split in Ret (build_tag_of p.1 (Some p.2))
      | Ok None => Ret (build_tag_of s None)
      end
  end.

(** [impl Display for BuildTag] *)
Definition build_tag_display (b : BuildTag) : list Z :=
  match build_suffix b with
  | Some suffix => show_u64 (build_number b) ++ suffix
  | None => show_u64 (build_number b)
  end.

(** The derived [Ord]: the number, then the suffix ([None] first). *)
Definition build_tag_cmp (a b : BuildTag) : comparison :=
  then_with (build_number a ?= build_number b) (option_cmp (list_cmp Z.compare) (build_suffix a) (build_suffix b)).

(** ** Wheel tags (wheel_tag.rs) *)

Record WheelTagSmall := mkSmall { small_python : LanguageTag; small_abi : AbiTag; small_platform : PlatformTag }.

Record WheelTagLarge := mkLarge {
  large_build : option BuildTag;
  large_python : list LanguageTag;
  large_abi : list AbiTag;
  large_platform : list PlatformTag;
  large_repr : list Z;
}.

Inductive WheelTag := SmallTag (small : WheelTagSmall) | LargeTag (large : WheelTagLarge).

(** [WheelTag::python_tags], [abi_tags], [platform_tags] and [build_tag] *)
Definition python_tags (t : WheelTag) : list LanguageTag :=
  match t with SmallTag s => [small_python s] | LargeTag l => large_python l end.
Definition abi_tags (t : WheelTag) : list AbiTag :=
  match t with SmallTag s => [small_abi s] | LargeTag l => large_abi l end.
Definition platform_tags (t : WheelTag) : list PlatformTag :=
  match t with SmallTag s => [small_platform s] | LargeTag l => large_platform l end.
Definition wheel_build_tag (t : WheelTag) : option BuildTag :=
  match t with SmallTag _ => None | LargeTag l => large_build l end.

Section wheel_tag.
Context `{Flags}.

(** [impl Display for WheelTagSmall] and [impl Display for WheelTag] *)
Definition small_display (s : WheelTagSmall) : list Z :=
  language_display (small_python s) ++ bs "-" ++ abi_display (small_abi s) ++ bs "-" ++
  platform_display (small_platform s).

Definition wheel_tag_display (t : WheelTag) : list Z :=
  match t with SmallTag s => small_display s | LargeTag l => large_repr l end.

(** [WheelTag::compatibility] *)
Definition wheel_tag_compatibility (t : WheelTag) (compatible_tags : Tags) : TagCompatibility :=
  match t with
  | SmallTag s => compatibility_tag compatible_tags (small_python s) (small_abi s) (small_platform s)
  | LargeTag l => compatibility compatible_tags (large_python l) (large_abi l) (large_platform l)
  end.

(** ** Expanded tags (expanded_tags.rs) *)

Inductive ExpandedTagError :=
| MissingLanguageTag (tag : list Z)
| MissingAbiTag (tag : list Z)
| MissingPlatformTag (tag : list Z)
| ExtraSegment (tag : list Z).

Context `{Memchr} `{MemchrIter}.

(** The closure that tries the small representation: three parsers with [.ok()?]. *)
Definition small_tag_of (python_tag abi_tag platform_tag : list Z) : outcome (option WheelTagSmall) :=
  match language_from_str python_tag with
  | Err _ => Ret None
  | Ok py =>
      match abi_from_str abi_tag with
      | Err _ => Ret None
      | Ok abi =>
          let! r := platform_from_str platform_tag in
          Ret (match r with Ok platform => Some (mkSmall py abi platform) | Err _ => None end)
      end
  end.

(** [MemchrSplitter::split(..).map(T::from_str).filter_map(Result::ok).collect()] *)
Definition collect_tags {T E} (parse : list Z -> outcome (result T E)) (component : list Z) : outcome (list T) :=
  let s := splitter_split component 46 in
  let! r := splitter_fold (E := Empty_set) (splitter_fuel s)
              (fun part acc =>
                 let! r := parse part in
                 Ret (Ok (match r with Ok t => acc ++ [t] | Err _ => acc end))) s [] in
  match r with Ok tags => Ret tags | Err e => match e with end end.

Definition pure_parser {T E} (parse : list Z -> result T E) : list Z -> outcome (result T E) := fun s => Ret (parse s).

(** [parse_expanded_tag] *)
Definition parse_expanded_tag (tag : list Z) : outcome (result WheelTag ExpandedTagError) :=
  let splitter := memchr_iter 45 (utf8 tag) in
  match tag with
  | [] => Ret (Err (MissingLanguageTag tag))
  | _ =>
      match splitter with
      | [] => Ret (Err (MissingAbiTag tag))
      | [_] => Ret (Err (MissingPlatformTag tag))
      | _ :: _ :: _ :: _ => Ret (Err (ExtraSegment tag))
      | [python_tag_index; abi_tag_index] =>
          let! python_tag := slice_to tag python_tag_index in
          let! abi_tag := slice tag (python_tag_index + 1) abi_tag_index in
          let! platform_tag := slice_from tag (abi_tag_index + 1) in
          let is_small := match memchr 46 (utf8 tag) with None => true | Some _ => false end in
          let! small := if is_small then small_tag_of python_tag abi_tag platform_tag else Ret None in
          match small with
          | Some small => Ret (Ok (SmallTag small))
          | None =>
              let! py := collect_tags (pure_parser language_from_str) python_tag in
              let! abi := collect_tags (pure_parser abi_from_str) abi_tag in
              let! platform := collect_tags platform_from_str platform_tag in
              Ret (Ok (LargeTag (mkLarge None py abi platform tag)))
          end
      end
  end.

(** [ExpandedTags::parse]: [map(..).collect::<Result<_, _>>()], which stops at the
    first error. *)
Fixpoint expanded_parse (tags : list (list Z)) : outcome (result (list WheelTag) ExpandedTagError) :=
  match tags with
  | [] => Ret (Ok [])
  | tag :: tags' =>
      let! r := parse_expanded_tag tag in
      match r with
      | Err e => Ret (Err e)
      | Ok t =>
          let! rest := expanded_parse tags' in
          Ret (match rest with Ok ts => Ok (t :: ts) | Err e => Err e end)
      end
  end.

(** [ExpandedTags::is_compatible] *)
Definition expanded_is_compatible (tags : list WheelTag) (compatible_tags : Tags) : bool :=
  existsb (fun tag => is_compatible compatible_tags (python_tags tag) (abi_tags tag) (platform_tags tag)) tags.

(** [ExpandedTags::python_tags], [abi_tags] and [platform_tags] *)
Definition expanded_python_tags (tags : list WheelTag) : list LanguageTag := flat_map python_tags tags.
Definition expanded_abi_tags (tags : list WheelTag) : list AbiTag := flat_map abi_tags tags.
Definition expanded_platform_tags (tags : list WheelTag) : list PlatformTag := flat_map platform_tags tags.

(** [ExpandedTags::compatibility] *)
Definition expanded_compatibility (tags : list WheelTag) (compatible_tags : Tags) : TagCompatibility :=
  match tags with
  | [tag] => wheel_tag_compatibility tag compatible_tags
  | _ => compatibility compatible_tags (expanded_python_tags tags) (expanded_abi_tags tags) (expanded_platform_tags tags)
  end.
End wheel_tag.

(** ** Offsets and slices: lemmas *)

Lemma utf8_char_free sep c : 0 <= sep < 128 -> is_char c -> c <> sep -> Forall (fun b => b <> sep) (utf8_char c).
Proof.
  intros Hs Hc Hne. unfold is_char in Hc. unfold utf8_char.
  destruct (Z.ltb_spec c 128); [by repeat constructor|].
  destruct (Z.ltb_spec c 2048); [repeat constructor; Z.div_mod_to_equations; lia|].
  destruct (Z.ltb_spec c 65536); repeat constructor; Z.div_mod_to_equations; lia.
Qed.

Lemma utf8_free sep s : 0 <= sep < 128 -> Forall is_char s -> Forall (fun c => c <> sep) s ->
  Forall (fun b => b <> sep) (utf8 s).
Proof.
  intros Hs. induction 1 as [|c s Hc _ IH]; intros Hn; [constructor|]. inv Hn. cbn [utf8 flat_map].
  apply Forall_app. split; [by apply utf8_char_free|by apply IH].
Qed.

Lemma utf8_sep sep s : 0 <= sep < 128 -> utf8 (sep :: s) = sep :: utf8 s.
Proof. intros H. cbn [utf8 flat_map]. unfold utf8_char. by destruct (Z.ltb_spec sep 128); [|lia]. Qed.

Lemma positions_free k needle l : Forall (fun c => c <> needle) l -> positions_from k needle l = [].
Proof.
  intros H. revert k. induction H as [|c l Hc _ IH]; intros k; [done|]. cbn. apply Z.eqb_neq in Hc. by rewrite Hc.
Qed.

Lemma positions_app k needle a b : Forall (fun c => c <> needle) a ->
  positions_from k needle (a ++ needle :: b) = (k + length a)%nat :: positions_from (k + length a + 1) needle b.
Proof.
  intros H. revert k. induction H as [|c a Hc _ IH]; intros k; cbn.
  - rewrite Z.eqb_refl. f_equal; [lia|f_equal; lia].
  - apply Z.eqb_neq in Hc. rewrite Hc, IH. f_equal; [lia|f_equal; lia].
Qed.

Lemma positions_text k sep a b : 0 <= sep < 128 -> Forall is_char a -> Forall (fun c => c <> sep) a ->
  positions_from k sep (utf8 (a ++ sep :: b)) = (k + str_len a)%nat :: positions_from (k + str_len a + 1) sep (utf8 b).
Proof. intros Hs Ha Hf. rewrite utf8_app, utf8_sep by done. by apply positions_app, utf8_free. Qed.

Lemma positions_no_text k sep a : 0 <= sep < 128 -> Forall is_char a -> Forall (fun c => c <> sep) a ->
  positions_from k sep (utf8 a) = [].
Proof. intros Hs Ha Hf. by apply positions_free, utf8_free. Qed.

(** The slices of a text between two of its parts. *)
Lemma slice_piece pre x post s i j : s = pre ++ x ++ post -> i = str_len pre -> j = str_len (pre ++ x) ->
  slice s i j = Ret x.
Proof.
  intros -> -> ->. unfold slice. rewrite app_assoc. unfold slice_to. rewrite str_split_at_app. cbn [outcome_map fst obind].
  unfold slice_from. by rewrite str_split_at_app.
Qed.

Lemma slice_from_piece pre x s i : s = pre ++ x -> i = str_len pre -> slice_from s i = Ret x.
Proof. intros -> ->. unfold slice_from. by rewrite str_split_at_app. Qed.

Lemma slice_to_piece x post s i : s = x ++ post -> i = str_len x -> slice_to s i = Ret x.
Proof. intros -> ->. unfold slice_to. by rewrite str_split_at_app. Qed.

Lemma str_len_snoc sep a : 0 <= sep < 128 -> str_len (a ++ [sep]) = (str_len a + 1)%nat.
Proof. intros H. rewrite str_len_app, (str_len_cons_ascii sep []) by done. done. Qed.

Lemma str_len_empty : str_len [] = 0%nat.
Proof. done. Qed.

(** Side conditions of the slices: equal texts up to associativity, and equal
    lengths. *)
Ltac text_pieces :=
  lazymatch goal with
  | |- @eq (list Z) _ _ => by repeat (rewrite <- app_assoc; cbn [app])
  | |- @eq nat _ _ =>
      repeat first [rewrite str_len_app|rewrite str_len_cons_ascii by lia|rewrite str_len_snoc by lia];
      rewrite ?str_len_empty; lia
  end.

Lemma str_len_nil s : str_len s = 0%nat -> s = [].
Proof. destruct s as [|c s]; [done|]. pose proof (str_len_ge (c :: s)). cbn in *. lia. Qed.

(** ** The splitter is [str::split_terminator] *)

(** [split] without the empty part after the last separator. *)
Definition split_terminator (sep : Z) (s : list Z) : list (list Z) :=
  let parts := split_on sep s in
  match last parts with Some [] => removelast parts | _ => parts end.

(** The loop body applied to the parts of a list. *)
Fixpoint fold_parts {A E} (body : list Z -> A -> outcome (result A E)) (parts : list (list Z)) (acc : A) :
    outcome (result A E) :=
  match parts with
  | [] => Ret (Ok acc)
  | part :: parts' =>
      let! r := body part acc in
      match r with
      | Ok acc' => fold_parts body parts' acc'
      | Err e => Ret (Err e)
      end
  end.

Lemma split_terminator_app sep a b : Forall (fun c => c <> sep) a ->
  split_terminator sep (a ++ sep :: b) = a :: split_terminator sep b.
Proof.
  intros Ha. unfold split_terminator. rewrite split_on_app by done.
  assert (Hne : split_on sep b <> []).
  { destruct b as [|c b]; [done|]. cbn. destruct (c =? sep); [done|]. by destruct (split_on sep b). }
  destruct (split_on sep b) as [|x xs]; [done|]. cbn [last removelast]. by destruct (last (x :: xs)) as [[|]|].
Qed.

Lemma split_terminator_none sep a : Forall (fun c => c <> sep) a ->
  split_terminator sep a = match a with [] => [] | _ => [a] end.
Proof. intros Ha. unfold split_terminator. rewrite split_on_none by done. by destruct a. Qed.

(** The state of a splitter that has consumed [before]. *)
Definition splitter_at (sep : Z) (before rest : list Z) : MemchrSplitter :=
  mkSplitter (positions_from (str_len before) sep (utf8 rest)) (before ++ rest) (str_len before).

Lemma splitter_next_part sep before a b : 0 <= sep < 128 -> Forall is_char a -> Forall (fun c => c <> sep) a ->
  splitter_next (splitter_at sep before (a ++ sep :: b)) = Ret (Some a, splitter_at sep (before ++ a ++ [sep]) b).
Proof.
  intros Hs Hc Ha. unfold splitter_next, splitter_at. cbn [split_memchr split_haystack split_offset].
  rewrite positions_text by done. cbv beta iota. rewrite (slice_piece before a (sep :: b)) by (done || by rewrite str_len_app). cbn [obind].
  assert (E : (str_len before + str_len a + 1)%nat = str_len (before ++ a ++ [sep])).
  { rewrite str_len_app, str_len_snoc by done. lia. }
  by rewrite E, <- !app_assoc.
Qed.

Lemma splitter_next_end sep before a : 0 <= sep < 128 -> Forall is_char a -> Forall (fun c => c <> sep) a ->
  splitter_next (splitter_at sep before a) =
  Ret (match a with
       | [] => (None, splitter_at sep before a)
       | _ => (Some a, mkSplitter [] (before ++ a) (str_len (before ++ a)))
       end).
Proof.
  intros Hs Hc Ha. unfold splitter_next, splitter_at. cbn [split_memchr split_haystack split_offset].
  rewrite positions_no_text, str_len_app by done. cbv beta iota. destruct (Nat.ltb_spec (str_len before) (str_len before + str_len a)).
  - rewrite (slice_from_piece before a) by done. cbn [obind]. destruct a; [|done]. unfold str_len in *. cbn in *. lia.
  - destruct a as [|c a]; [done|]. pose proof (str_len_ge (c :: a)). cbn in *. lia.
Qed.

Lemma splitter_fold_at {A E} (body : list Z -> A -> outcome (result A E)) sep before rest fuel acc :
  0 <= sep < 128 -> Forall is_char rest ->
  (length (positions_from (str_len before) sep (utf8 rest)) + 2 <= fuel)%nat ->
  splitter_fold fuel body (splitter_at sep before rest) acc = fold_parts body (split_terminator sep rest) acc.
Proof.
  intros Hs. revert before fuel acc. induction rest as [l Hl|a b Ha IH] using (split_on_ind sep); intros before fuel acc Hc Hf.
  - rewrite split_terminator_none by done. destruct fuel as [|[|fuel]]; [lia..|]. cbn [splitter_fold].
    rewrite splitter_next_end by done. cbn [obind]. destruct l as [|c l]; [done|]. cbn [fold_parts].
    destruct (body (c :: l) acc) as [[acc'|e]|]; [|done|done]. cbn [obind]. unfold splitter_next.
    cbn [split_memchr split_haystack split_offset]. by rewrite Nat.ltb_irrefl.
  - apply Forall_app in Hc as [Hca Hcb]. inv Hcb. rewrite split_terminator_app by done.
    rewrite positions_text in Hf by done. cbn [length] in Hf. destruct fuel as [|fuel]; [lia|].
    cbn [splitter_fold fold_parts]. rewrite splitter_next_part by done. cbn [obind].
    destruct (body a acc) as [[acc'|e]|]; [|done|done]. cbn [obind]. apply IH; [done|].
    rewrite str_len_app, str_len_snoc by done. replace (_ + (_ + 1))%nat with (str_len before + str_len a + 1)%nat by lia. lia.
Qed.

Section splitter.
Context `{MemchrIterLaws}.

Lemma splitter_fold_split {A E} (body : list Z -> A -> outcome (result A E)) sep s acc :
  0 <= sep < 128 -> Forall is_char s ->
  splitter_fold (splitter_fuel (splitter_split s sep)) body (splitter_split s sep) acc =
  fold_parts body (split_terminator sep s) acc.
Proof.
  intros Hs Hc. assert (Es : splitter_split s sep = splitter_at sep [] s).
  { unfold splitter_split, splitter_at. by rewrite memchr_iter_positions. }
  rewrite Es. apply splitter_fold_at; [done|done|]. unfold splitter_fuel, splitter_at. cbn [split_memchr]. lia.
Qed.
End splitter.

(** ** Build tags: lemmas *)

Lemma build_byte_ascii b : is_build_tag_byte b = true -> 0 <= b < 128.
Proof.
  unfold is_build_tag_byte, is_ascii_alphanumeric, is_ascii_digit, is_ascii_upper, is_ascii_lower. lia.
Qed.

Lemma build_prefix_loop_some l i k : build_prefix_loop l i (Some k) =
  if forallb is_build_tag_byte l then Ok (Some k) else Err BuildInvalidCharacters.
Proof. revert i. induction l as [|b l IH]; intros i; [done|]. cbn. by destruct (is_build_tag_byte b); cbn. Qed.

Lemma build_prefix_loop_none l i : build_prefix_loop l i None =
  if forallb is_build_tag_byte l then
    Ok (match drop_while is_ascii_digit l with [] => None | _ => Some (i + length (take_while is_ascii_digit l))%nat end)
  else Err BuildInvalidCharacters.
Proof.
  revert i. induction l as [|b l IH]; intros i; [done|]. cbn. destruct (is_build_tag_byte b); cbn; [|done].
  destruct (is_ascii_digit b); cbn.
  - rewrite IH. destruct (forallb is_build_tag_byte l); [|done]. destruct (drop_while is_ascii_digit l); [done|].
    do 2 f_equal. lia.
  - rewrite build_prefix_loop_some. destruct (forallb is_build_tag_byte l); [|done]. do 2 f_equal. lia.
Qed.

(** The parser without offsets: a number and the rest of the text. *)
Definition build_tag_text (s : list Z) : result BuildTag BuildTagError :=
  match s with
  | [] => Err BuildEmpty
  | _ =>
      if forallb is_build_tag_byte (utf8 s) then
        match take_while is_ascii_digit s with
        | [] => Err BuildNoLeadingDigit
        | digits =>
            build_tag_of digits (match drop_while is_ascii_digit s with [] => None | suffix => Some suffix end)
        end
      else Err BuildInvalidCharacters
  end.

Lemma str_len_ascii s : Forall (fun c => 0 <= c < 128) s -> str_len s = length s.
Proof. intros H. unfold str_len. by rewrite utf8_ascii. Qed.

Lemma build_bytes_ascii s : forallb is_build_tag_byte (utf8 s) = true -> utf8 s = s /\ Forall (fun c => 0 <= c < 128) s.
Proof.
  intros H. apply forallb_Forall in H. assert (E : utf8 s = s).
  { apply utf8_ascii_inv. eapply Forall_impl; [exact H|]. intros b Hb. apply build_byte_ascii in Hb. lia. }
  rewrite E in H. split; [done|]. eapply Forall_impl; [exact H|]. intros b. apply build_byte_ascii.
Qed.

Lemma build_tag_from_str_text s : build_tag_from_str s = Ret (build_tag_text s).
Proof.
  unfold build_tag_from_str, build_tag_text. destruct s as [|c s]; [done|]. rewrite build_prefix_loop_none.
  destruct (forallb is_build_tag_byte (utf8 (c :: s))) eqn:Ef; [|done]. apply build_bytes_ascii in Ef as [E Ha].
  rewrite E. remember (c :: s) as t eqn:Et. pose proof (take_drop_while is_ascii_digit t) as Htd.
  destruct (drop_while is_ascii_digit t) as [|x r] eqn:Ed.
  - rewrite app_nil_r in Htd. rewrite Htd. by subst t.
  - destruct (take_while is_ascii_digit t) as [|d ds] eqn:Etk; [done|]. cbn [Nat.add length].
    rewrite <- Htd in Ha. apply Forall_app in Ha as [Ha _].
    change (S (length ds)) with (length (d :: ds)). rewrite <- (str_len_ascii (d :: ds)) by done.
    rewrite <- Htd at 1. by rewrite str_split_at_app.
Qed.

(** What a parsed build tag looks like. *)
Definition build_tag_ok (b : BuildTag) : Prop :=
  is_u64 (build_number b) /\
  match build_suffix b with
  | None => True
  | Some r => Forall (fun c => is_build_tag_byte c = true) r /\ match r with [] => False | c :: _ => is_ascii_digit c = false end
  end.

Lemma build_tag_parsed s b : build_tag_text s = Ok b -> build_tag_ok b.
Proof.
  unfold build_tag_text. destruct s as [|c s]; [done|]. destruct (forallb _ _) eqn:Ef; [|done].
  destruct (build_bytes_ascii _ Ef) as [E _]. rewrite E in Ef. remember (c :: s) as t eqn:Et.
  destruct (take_while is_ascii_digit t) as [|d ds] eqn:Etk; [done|]. unfold build_tag_of.
  destruct (parse_uint u64_max (d :: ds)) as [n|] eqn:Ep; [|done]. intros [= <-]. split; cbn.
  - unfold u64_max in Ep. apply parse_uint_bound in Ep; [|lia]. unfold is_u64, u64_max. lia.
  - pose proof (drop_while_stops is_ascii_digit t) as Hst. destruct (drop_while is_ascii_digit t) as [|x r] eqn:Ed; [done|].
    split; [|done]. apply forallb_Forall in Ef. rewrite <- (take_drop_while is_ascii_digit t), Ed in Ef.
    by apply Forall_app in Ef as [_ Ef].
Qed.

Lemma digit_build_byte c : is_ascii_digit c = true -> is_build_tag_byte c = true.
Proof. intros H. unfold is_build_tag_byte, is_ascii_alphanumeric. by rewrite H. Qed.

Lemma build_tag_text_display b : build_tag_ok b -> build_tag_text (build_tag_display b) = Ok b.
Proof.
  intros [Hn Hs]. destruct (show_u64_spec _ Hn) as (Hne & Hd & _).
  assert (Hd' : Forall (fun c => is_build_tag_byte c = true) (show_u64 (build_number b))).
  { eapply Forall_impl; [exact Hd|]. intros c. apply digit_build_byte. }
  assert (Hp : parse_uint u64_max (show_u64 (build_number b)) = Some (build_number b)) by (by apply parse_uint_show).
  assert (Ht : exists r, build_tag_display b = show_u64 (build_number b) ++ r /\ stops is_ascii_digit r /\
    Forall (fun c => is_build_tag_byte c = true) r /\ build_suffix b = match r with [] => None | _ => Some r end).
  { unfold build_tag_display. destruct (build_suffix b) as [r|].
    - destruct Hs as [Hs Hr]. exists r. by destruct r.
    - exists []. by rewrite app_nil_r. }
  destruct Ht as (r & -> & Hst & Hr & Esuf). unfold build_tag_text.
  assert (Hall : forallb is_build_tag_byte (utf8 (show_u64 (build_number b) ++ r)) = true).
  { assert (Hf : Forall (fun c => is_build_tag_byte c = true) (show_u64 (build_number b) ++ r)) by (by apply Forall_app).
    rewrite utf8_ascii; [by apply forallb_Forall|]. eapply Forall_impl; [exact Hf|]. intros c. apply build_byte_ascii. }
  rewrite Hall, take_while_app, drop_while_app by done. destruct (show_u64 (build_number b)) as [|d ds]; [done|].
  cbn [app]. unfold build_tag_of. rewrite Hp. destruct b as [n suf]. cbn in *. rewrite Esuf. by destruct r.
Qed.

(** ** Splitting at dashes: lemmas *)

(** The offsets of the separators, from the lengths of the parts. *)
Fixpoint part_offsets (k : nat) (parts : list (list Z)) : list nat :=
  match parts with
  | [] | [_] => []
  | part :: parts' => (k + str_len part)%nat :: part_offsets (k + str_len part + 1) parts'
  end.

Lemma positions_parts k sep s : 0 <= sep < 128 -> Forall is_char s ->
  positions_from k sep (utf8 s) = part_offsets k (split_on sep s).
Proof.
  intros Hs. revert k. induction s as [l Hl|a b Ha IH] using (split_on_ind sep); intros k Hc.
  - by rewrite split_on_none, positions_no_text by done.
  - apply Forall_app in Hc as [Hca Hcb]. inv Hcb. rewrite positions_text, split_on_app, IH by done.
    pose proof (split_on_nonempty sep b). by destruct (split_on sep b).
Qed.

Lemma split_on_char sep s : Forall is_char s -> Forall (Forall is_char) (split_on sep s).
Proof.
  induction s as [l Hl|a b Ha IH] using (split_on_ind sep); intros Hc; [by rewrite split_on_none; repeat constructor|].
  apply Forall_app in Hc as [Hca Hcb]. inv Hcb. rewrite split_on_app by done. constructor; [done|by apply IH].
Qed.

Lemma split_terminator_incl sep s part : part ∈ split_terminator sep s -> part ∈ split_on sep s.
Proof.
  unfold split_terminator. assert (R : forall l : list (list Z), part ∈ removelast l -> part ∈ l).
  { intros [|x l]; [done|]. intros Hx. rewrite (app_removelast_last [] (l := x :: l)) by done.
    apply elem_of_app. by left. }
  destruct (last (split_on sep s)) as [[|]|]; [|done..]. apply R.
Qed.

(** ** Representations of the tags *)

Definition parsed_by {T E} (parse : list Z -> outcome (result T E)) (s : list Z) : option T :=
  match parse s with Ret (Ok t) => Some t | _ => None end.

(** The tags of a component: the parts between dots that parse. *)
Definition component_tags {T E} (parse : list Z -> outcome (result T E)) (component : list Z) : list T :=
  omap (parsed_by parse) (split_terminator 46 component).

Definition total_on_text {T E} (parse : list Z -> outcome (result T E)) : Prop :=
  forall s, Forall is_char s -> exists r, parse s = Ret r.

Lemma pure_total {T E} (parse : list Z -> result T E) : total_on_text (pure_parser parse).
Proof. intros s _. by eexists. Qed.

Lemma single_component {T E} (parse : list Z -> outcome (result T E)) s t : Forall (fun c => c <> 46) s -> s <> [] ->
  parse s = Ret (Ok t) -> component_tags parse s = [t].
Proof.
  intros Hd Hn Ep. unfold component_tags. rewrite split_terminator_none by done. destruct s; [done|]. cbn.
  unfold parsed_by. by rewrite Ep.
Qed.

Section representation.
Context `{FlagsLaws} `{MemchrLaws} `{MemchrIterLaws}.

Lemma platform_total : total_on_text platform_from_str.
Proof. intros s Hs. destruct (platform_parsed s Hs) as (r & E & _). by exists r. Qed.

Lemma collect_tags_spec {T E} (parse : list Z -> outcome (result T E)) component : total_on_text parse ->
  Forall is_char component -> collect_tags parse component = Ret (component_tags parse component).
Proof.
  intros Ht Hc. unfold collect_tags. rewrite splitter_fold_split by done.
  assert (Hp : Forall (Forall is_char) (split_terminator 46 component)).
  { apply Forall_forall. intros part Hp%split_terminator_incl.
    pose proof (split_on_char 46 component Hc) as Hs. rewrite Forall_forall in Hs. by apply Hs. }
  assert (F : forall acc, fold_parts (E := Empty_set)
    (fun part acc => let! r := parse part in Ret (Ok (match r with Ok t => acc ++ [t] | Err _ => acc end)))
    (split_terminator 46 component) acc = Ret (Ok (acc ++ component_tags parse component))).
  { unfold component_tags. induction Hp as [|part parts Hpart _ IH]; intros acc; cbn [fold_parts omap list_omap].
    - by rewrite app_nil_r.
    - destruct (Ht part Hpart) as [r E']. unfold parsed_by at 1. rewrite E'. cbn [obind]. rewrite IH.
      destruct r; [by rewrite <- app_assoc|done]. }
  by rewrite F.
Qed.

Lemma language_empty : exists e, language_from_str [] = Err e.
Proof. by eexists. Qed.
Lemma abi_empty : exists e, abi_from_str [] = Err e.
Proof. by eexists. Qed.
Lemma platform_empty : exists e, platform_from_str [] = Ret (Err e).
Proof. by eexists. Qed.

(** The small representation is tried on text without dots and holds the tags of
    its components. *)
Lemma try_small_spec p a q : Forall is_char q -> exists o, small_tag_of p a q = Ret o /\
  forall s, o = Some s -> language_from_str p = Ok (small_python s) /\ abi_from_str a = Ok (small_abi s) /\
    platform_from_str q = Ret (Ok (small_platform s)).
Proof.
  intros Hq. unfold small_tag_of. destruct (language_from_str p) as [py|]; [|by eexists].
  destruct (abi_from_str a) as [abi|]; [|by eexists]. destruct (platform_total q Hq) as [r ->]. cbn [obind].
  eexists. split; [done|]. by destruct r; intros s; [intros [= <-]|].
Qed.

Lemma small_components p a q s :
  language_from_str p = Ok (small_python s) -> abi_from_str a = Ok (small_abi s) ->
  platform_from_str q = Ret (Ok (small_platform s)) ->
  Forall (fun c => c <> 46) (p ++ a ++ q) ->
  component_tags (pure_parser language_from_str) p = [small_python s] /\
  component_tags (pure_parser abi_from_str) a = [small_abi s] /\
  component_tags platform_from_str q = [small_platform s].
Proof.
  intros E1 E2 E3 [Hp [Ha Hq]%Forall_app]%Forall_app.
  split; [|split]; apply single_component; try done.
  - intros ->. destruct language_empty as [e E]. congruence.
  - unfold pure_parser. by rewrite E1.
  - intros ->. destruct abi_empty as [e E]. congruence.
  - unfold pure_parser. by rewrite E2.
  - intros ->. destruct platform_empty as [e E]. congruence.
Qed.

Lemma memchr_none s : Forall is_char s -> memchr 46 (utf8 s) = None -> Forall (fun c => c <> 46) s.
Proof.
  intros Hc E. destruct (split_once 46 s) as [[a b]|] eqn:Es; [|by apply split_once_None].
  apply split_once_Some in Es as [-> Ha]. apply Forall_app in Hc as [Hc _].
  rewrite utf8_app, utf8_sep, memchr_found in E by (done || by apply utf8_free). done.
Qed.

Lemma memchr_free s : Forall is_char s -> Forall (fun c => c <> 46) s -> memchr 46 (utf8 s) = None.
Proof. intros Hc Hf. by apply memchr_missing, utf8_free. Qed.

(** ** Properties *)

(** A line of a [WHEEL] file is accepted exactly when it has three segments
    between dashes, parsing it never panics, and whichever representation is
    chosen it holds the tags between the dots of each segment that are known, in
    order. *)
Theorem expanded_tag_parsed tag : Forall is_char tag ->
  exists r, parse_expanded_tag tag = Ret r /\
    match split_on 45 tag with
    | [p; a; q] => exists t, r = Ok t /\ wheel_build_tag t = None /\
        python_tags t = component_tags (pure_parser language_from_str) p /\
        abi_tags t = component_tags (pure_parser abi_from_str) a /\
        platform_tags t = component_tags platform_from_str q
    | _ => exists e, r = Err e
    end.
Proof.
  intros Hc. unfold parse_expanded_tag. rewrite memchr_iter_positions, positions_parts by done.
  pose proof (split_on_char 45 tag Hc) as Hparts. pose proof (join_split 45 tag) as Ej.
  destruct tag as [|c tag']; [by eexists; split; [|by eexists]|]. cbv beta iota. remember (c :: tag') as tag eqn:Et. clear Et c tag'.
  destruct (split_on 45 tag) as [|p [|a [|q [|x xs]]]]; cbn [part_offsets]; try by (eexists; split; [|by eexists]).
  cbn [join_on] in Ej. subst tag.
  rewrite (slice_to_piece p (45 :: a ++ 45 :: q)) by text_pieces. cbn [obind].
  rewrite (slice_piece (p ++ [45]) a (45 :: q)) by text_pieces. cbn [obind].
  rewrite (slice_from_piece (p ++ [45] ++ a ++ [45]) q) by text_pieces.
  cbn [obind]. inv Hparts. match goal with H : Forall _ [a; q] |- _ => inv H end.
  match goal with H : Forall _ [q] |- _ => inv H end.
  set (small := if match memchr 46 _ with None => true | Some _ => false end then _ else _).
  assert (Hsm : exists o, small = Ret o /\ forall s, o = Some s ->
    component_tags (pure_parser language_from_str) p = [small_python s] /\
    component_tags (pure_parser abi_from_str) a = [small_abi s] /\
    component_tags platform_from_str q = [small_platform s]).
  { unfold small. destruct (memchr 46 _) as [|] eqn:Em; [by eexists|].
    destruct (try_small_spec p a q) as (o & E & Ho); [done|]. exists o. split; [done|]. intros s Es.
    destruct (Ho s Es) as (E1 & E2 & E3). apply small_components; try done.
    apply memchr_none in Em; [|done]. apply Forall_app in Em as [Hp Em]. inv Em.
    match goal with H : Forall _ (a ++ _) |- _ => apply Forall_app in H as [Ha Hq] end. inv Hq.
    by rewrite !Forall_app. }
  destruct Hsm as (o & -> & Ho). cbn [obind]. destruct o as [s|].
  - destruct (Ho s eq_refl) as (E1 & E2 & E3). eexists. split; [done|]. exists (SmallTag s). by rewrite E1, E2, E3.
  - rewrite !collect_tags_spec by (done || apply pure_total || apply platform_total). cbn [obind].
    eexists. split; [done|]. by eexists.
Qed.

Lemma wheel_tag_compatibility_lists tag t :
  wheel_tag_compatibility tag t = compatibility t (python_tags tag) (abi_tags tag) (platform_tags tag).
Proof. destruct tag as [s|l]; [|done]. cbn. by rewrite compatibility_single. Qed.

(** A wheel one of whose expanded tags is compatible with an environment has a
    compatible priority there; and for a file with one
    [Tag] line the two tests agree. *)
Theorem expanded_compatible_ranked p v name iv o t tags : os_ok (os p) -> 0 <= v.2 <= u8_max ->
  from_env p v name iv o = Ret (Ok t) ->
  (expanded_is_compatible tags t = true -> compatibility_is_compatible (expanded_compatibility tags t) = true) /\
  (forall tag, expanded_is_compatible [tag] t = compatibility_is_compatible (expanded_compatibility [tag] t)).
Proof.
  intros Ho Hv E. destruct (from_env_spec p v name iv o Ho Hv) as (r & E' & Hr). rewrite E in E'. injection E' as <-.
  destruct (Hr t eq_refl) as (ts & _ & Ht).
  assert (S : forall tag, expanded_is_compatible [tag] t = compatibility_is_compatible (expanded_compatibility [tag] t)).
  { intros tag. cbn [expanded_is_compatible existsb expanded_compatibility]. rewrite orb_false_r, wheel_tag_compatibility_lists.
    by apply (is_compatible_agrees t ts). }
  split; [|exact S]. intros Hc. destruct tags as [|tag [|tag' tags]]; [done|by rewrite <- S|].
  unfold expanded_compatibility. rewrite <- (is_compatible_agrees t ts) by done.
  apply existsb_exists in Hc as (x & Hx & Hc). apply is_compatible_lookup in Hc as (l & a & y & Hl & Ha & Hy & Hs).
  apply is_compatible_lookup. exists l, a, y.
  assert (F : forall T (f : WheelTag -> list T) z, z ∈ f x -> z ∈ flat_map f (tag :: tag' :: tags)).
  { intros T f z Hz. apply elem_of_flat_map. exists x. by rewrite list_elem_of_In. }
  split_and!; [by apply F..|done].
Qed.

(** Printing a parsed build tag and parsing the text again gives it back, and
    parsing never panics; a parsed tag has a number below [2^64]. *)
Theorem build_tag_roundtrip s : exists r, build_tag_from_str s = Ret r /\
  forall b, r = Ok b -> is_u64 (build_number b) /\ build_tag_from_str (build_tag_display b) = Ret (Ok b).
Proof.
  rewrite build_tag_from_str_text. eexists. split; [done|]. intros b Eb. apply build_tag_parsed in Eb.
  split; [apply Eb|]. by rewrite build_tag_from_str_text, build_tag_text_display.
Qed.

(** Iterating over the splitter yields, without a panic, exactly what
    [str::split_terminator] yields: the parts between the delimiters, without an
    empty last one. *)
Theorem splitter_is_split_terminator s sep : 0 <= sep < 128 -> Forall is_char s ->
  splitter_fold (E := Empty_set) (splitter_fuel (splitter_split s sep)) (fun part acc => Ret (Ok (acc ++ [part])))
    (splitter_split s sep) [] = Ret (Ok (split_terminator sep s)).
Proof.
  intros Hs Hc. rewrite splitter_fold_split by done.
  assert (F : forall parts acc, fold_parts (E := Empty_set) (fun part acc => Ret (Ok (acc ++ [part]))) parts acc =
    Ret (Ok (acc ++ parts))).
  { induction parts as [|part parts IH]; intros acc; cbn; [by rewrite app_nil_r|]. rewrite IH. by rewrite <- app_assoc. }
  apply F.
Qed.
End representation.

(** The upper bound of [size_hint] is not one: four delimiters in a row give four
    (empty) parts, and the hint says at most three. *)
Lemma splitter_size_hint_too_small :
  splitter_size_hint (splitter_split (bs "....") 46) = Ret (1%nat, Some 3%nat) /\
  splitter_fold (E := Empty_set) 6 (fun part acc => Ret (Ok (acc ++ [part]))) (splitter_split (bs "....") 46) [] =
    Ret (Ok [[]; []; []; []]).
Proof. by split. Qed.

(** With several lines the priority is computed on all combinations of their
    components: a wheel tagged for CPython 3.12 on Windows and for any Python on
    Linux is incompatible with CPython 3.13 on Windows, but has a compatible
    priority there (that of [py3-none-win_amd64], which no line names). *)
Lemma expanded_combines_lines :
  match from_env (H := bit_flags) (mkPlatform OsWindows X86_64) (3, 13) (bs "cpython") (3, 13) (mkOptions true false false false),
        expanded_parse (H := bit_flags) [bs "cp312-cp312-win_amd64"; bs "py3-none-linux_x86_64"] with
  | Ret (Ok t), Ret (Ok tags) =>
      expanded_is_compatible tags t = false /\
      compatibility_is_compatible (expanded_compatibility (H := bit_flags) tags t) = true
  | _, _ => False
  end.
Proof. by vm_compute. Qed.

Lemma expanded_tag_parsed_witness :
  exists r, parse_expanded_tag (H := bit_flags) (bs "py2.py3-none-any") = Ret r /\
    exists t, r = Ok t /\ python_tags t = [Python 2 None; Python 3 None].
Proof.
  destruct (expanded_tag_parsed (H := bit_flags) (bs "py2.py3-none-any")) as (r & E & t & Et & _ & Ep & _);
    [apply forallb_is_char; reflexivity|]. exists r. split; [done|]. exists t. split; [done|]. by rewrite Ep.
Defined.

Lemma expanded_compatible_ranked_witness :
  exists t, from_env (H := bit_flags) (mkPlatform OsWindows X86_64) (3, 13) (bs "cpython") (3, 13)
              (mkOptions true false false false) = Ret (Ok t) /\
    forall tag, expanded_is_compatible [tag] t = compatibility_is_compatible (expanded_compatibility (H := bit_flags) [tag] t).
Proof.
  assert (Hok : (match from_env (H := bit_flags) (mkPlatform OsWindows X86_64) (3, 13) (bs "cpython") (3, 13)
                         (mkOptions true false false false) with Ret (Ok _) => true | _ => false end) = true)
    by (vm_compute; reflexivity).
  destruct (from_env (H := bit_flags) (mkPlatform OsWindows X86_64) (3, 13) (bs "cpython") (3, 13)
              (mkOptions true false false false)) as [[t|e]|] eqn:E; [|discriminate Hok..].
  exists t. split; [done|].
  refine (proj2 (expanded_compatible_ranked (H := bit_flags) (mkPlatform OsWindows X86_64) (3, 13) (bs "cpython") (3, 13)
            (mkOptions true false false false) t [] _ _ E)); [exact I|by vm_compute].
Defined.

Lemma splitter_is_split_terminator_witness :
  splitter_fold (E := Empty_set) (splitter_fuel (splitter_split (bs "py2.py3.") 46)) (fun part acc => Ret (Ok (acc ++ [part])))
    (splitter_split (bs "py2.py3.") 46) [] = Ret (Ok [bs "py2"; bs "py3"]).
Proof.
  rewrite (splitter_is_split_terminator (bs "py2.py3.") 46); [reflexivity|lia|apply forallb_is_char; reflexivity].
Defined.
