(* ===== verification/WheelFilename.v ===== *)
(** * Wheel file names

    Models [crates/uv-distribution-filename/src/wheel.rs] and the matching of
    package names in [lib.rs]: parsing a wheel file name with and without an
    expected package name, printing it, and its cache key.

    A file name is a list of characters; offsets are in bytes.  The parser composes
    the parsers of names ([Normalize]), versions ([VersionParser]), build tags and
    tags ([WheelTag]). *)

From Stdlib Require Import ZArith Lia String.
From stdpp Require Import base list gmap.
From S2P Require Import Prelude.
From S2P Require Import VersionRepr.
From S2P Require Import VersionParser.
From S2P Require Import VersionDisplay.
From S2P Require Import CacheKey.
From S2P Require Import Normalize.
From S2P Require Import PythonTags.
From S2P Require Import PlatformTags.
From S2P Require Import Tags.
From S2P Require Import DistExtension.
From S2P Require Import WheelTag.

Open Scope Z_scope.

(** ** [normalized_package_name_matches] (lib.rs) *)

Definition match_byte (byte : Z) : Z :=
  if is_ascii_upper byte then to_ascii_lowercase byte
  else if (byte =? 95) || (byte =? 46) then 45 else byte.

Definition normalized_package_name_matches (actual expected : list Z) : bool :=
  bytes_eqb (map match_byte (utf8 actual)) (utf8 expected).

(** ** wheel.rs *)

Record WheelFilename := mkWheel { wheel_name : list Z; wheel_version : Version; wheel_tags : WheelTag }.

Inductive WheelFilenameError :=
| InvalidWheelFileName (filename reason : list Z)
| InvalidVersion (filename : list Z) (err : ErrorKind)
| InvalidPackageName (filename err : list Z)
| InvalidBuildTag (filename : list Z) (err : BuildTagError)
| UnexpectedExtension (stem : list Z).

(** [invalid_tag_component] and [is_tag_atom_byte] *)
Definition invalid_tag_component (filename : list Z) : WheelFilenameError :=
  InvalidWheelFileName filename (bs "Tag components must contain only ASCII letters, digits, underscores, and periods").

Definition is_tag_atom_byte (byte : Z) : bool := is_ascii_alphanumeric byte || (byte =? 95).

Section wheel.
Context `{Flags} `{Memchr} `{MemchrIter}.

(** [impl Display for WheelFilename] and [WheelFilename::stem] *)
Definition wheel_stem (w : WheelFilename) : list Z :=
  as_dist_info_name (wheel_name w) ++ bs "-" ++ version_display (wheel_version w) ++ bs "-" ++
  wheel_tag_display (wheel_tags w).

Definition wheel_display (w : WheelFilename) : list Z :=
  as_dist_info_name (wheel_name w) ++ bs "-" ++ version_display (wheel_version w) ++ bs "-" ++
  wheel_tag_display (wheel_tags w) ++ bs ".whl".

(** [WheelFilename::new] *)
Definition wheel_new (name : list Z) (version : Version) (python_tag : LanguageTag) (abi_tag : AbiTag)
    (platform_tag : PlatformTag) : WheelFilename :=
  mkWheel name version (SmallTag (mkSmall python_tag abi_tag platform_tag)).

(** [WheelFilename::is_compatible] and [compatibility] *)
Definition wheel_is_compatible (w : WheelFilename) (compatible_tags : Tags) : bool :=
  is_compatible compatible_tags (python_tags (wheel_tags w)) (abi_tags (wheel_tags w)) (platform_tags (wheel_tags w)).

Definition wheel_compatibility_with (w : WheelFilename) (compatible_tags : Tags) : TagCompatibility :=
  wheel_tag_compatibility (wheel_tags w) compatible_tags.

(** The body of the loop of [parse_large_tag_component]. *)
Definition large_tag_step {T E} (parse : list Z -> outcome (result T E)) (filename tag : list Z) (tags : list T) :
    outcome (result (list T) WheelFilenameError) :=
  if bytes_eqb tag [] || negb (forallb is_tag_atom_byte (utf8 tag)) then Ret (Err (invalid_tag_component filename))
  else
    let! r := parse tag in
    Ret (Ok (match r with Ok t => tags ++ [t] | Err _ => tags end)).

(** [parse_large_tag_component] *)
Definition parse_large_tag_component {T E} (parse : list Z -> outcome (result T E)) (component filename : list Z) :
    outcome (result (list T) WheelFilenameError) :=
  match component with
  | [] => Ret (Err (invalid_tag_component filename))
  | _ =>
      let s := splitter_split component 46 in
      splitter_fold (splitter_fuel s) (large_tag_step parse filename) s []
  end.

(** [?] on a result inside a computation that may panic. *)
Definition try_ {A B E} (m : outcome (result A E)) (k : A -> outcome (result B E)) : outcome (result B E) :=
  let! r := m in match r with Ok a => k a | Err e => Ret (Err e) end.

(** The components of a stem: name, version, build tag, the three tags, whether
    they can be small, and the offset after the version. *)
Record Components := mkComponents {
  c_name : list Z; c_version : list Z; c_build : option (list Z);
  c_python : list Z; c_abi : list Z; c_platform : list Z; c_small : bool; c_tags_at : nat;
}.

(** The first part of [WheelFilename::parse]: the dashes of the stem. *)
Definition split_stem (stem filename : list Z) : outcome (result Components WheelFilenameError) :=
  match memchr_iter 45 (utf8 stem) with
  | [] => Ret (Err (InvalidWheelFileName filename (bs "Must have a version")))
  | [_] => Ret (Err (InvalidWheelFileName filename (bs "Must have a Python tag")))
  | [_; _] => Ret (Err (InvalidWheelFileName filename (bs "Must have an ABI tag")))
  | [_; _; _] => Ret (Err (InvalidWheelFileName filename (bs "Must have a platform tag")))
  | version :: build_tag_or_python_tag :: python_tag_or_abi_tag :: abi_tag_or_platform_tag :: rest =>
      match rest with
      | _ :: _ :: _ => Ret (Err (InvalidWheelFileName filename (bs "Must have 5 or 6 components, but has more")))
      | [platform_tag] =>
          let! name := slice_to stem version in
          let! version_str := slice stem (version + 1) build_tag_or_python_tag in
          let! build := slice stem (build_tag_or_python_tag + 1) python_tag_or_abi_tag in
          let! python := slice stem (python_tag_or_abi_tag + 1) abi_tag_or_platform_tag in
          let! abi := slice stem (abi_tag_or_platform_tag + 1) platform_tag in
          let! platform := slice_from stem (platform_tag + 1) in
          Ret (Ok (mkComponents name version_str (Some build) python abi platform false build_tag_or_python_tag))
      | [] =>
          let! name := slice_to stem version in
          let! version_str := slice stem (version + 1) build_tag_or_python_tag in
          let! python := slice stem (build_tag_or_python_tag + 1) python_tag_or_abi_tag in
          let! abi := slice stem (python_tag_or_abi_tag + 1) abi_tag_or_platform_tag in
          let! platform := slice_from stem (abi_tag_or_platform_tag + 1) in
          let! tags := bytes_from (utf8 stem) build_tag_or_python_tag in
          let is_small := match memchr 46 tags with None => true | Some _ => false end in
          Ret (Ok (mkComponents name version_str None python abi platform is_small build_tag_or_python_tag))
      end
  end.

(** The name: the hint when it matches. *)
Definition parse_name (name : list Z) (hint : option (list Z)) (filename : list Z) : result (list Z) WheelFilenameError :=
  match hint with
  | Some hint =>
      if normalized_package_name_matches name hint then Ok hint
      else map_err (InvalidPackageName filename) (validate_and_normalize_ref name)
  | None => map_err (InvalidPackageName filename) (validate_and_normalize_ref name)
  end.

Definition parse_build (build : option (list Z)) (filename : list Z) : outcome (result (option BuildTag) WheelFilenameError) :=
  match build with
  | None => Ret (Ok None)
  | Some build =>
      let! r := build_tag_from_str build in
      Ret (result_map Some (map_err (InvalidBuildTag filename) r))
  end.

(** [WheelFilename::parse] *)
Definition wheel_parse (stem filename : list Z) (hint : option (list Z)) : outcome (result WheelFilename WheelFilenameError) :=
  try_ (split_stem stem filename) (fun c =>
  try_ (Ret (parse_name (c_name c) hint filename)) (fun name =>
  try_ (outcome_map (map_err (InvalidVersion filename)) (version_from_str (utf8 (c_version c)))) (fun version =>
  try_ (parse_build (c_build c) filename) (fun build_tag =>
  let! small := if c_small c then small_tag_of (c_python c) (c_abi c) (c_platform c) else Ret None in
  match small with
  | Some small => Ret (Ok (mkWheel name version (SmallTag small)))
  | None =>
      let! repr := slice_from stem (c_tags_at c + 1) in
      try_ (parse_large_tag_component (pure_parser language_from_str) (c_python c) filename) (fun py =>
      try_ (parse_large_tag_component (pure_parser abi_from_str) (c_abi c) filename) (fun abi =>
      try_ (parse_large_tag_component platform_from_str (c_platform c) filename) (fun platform =>
      Ret (Ok (mkWheel name version (LargeTag (mkLarge build_tag py abi platform repr)))))))
  end)))).

(** [WheelFilename::parse_filename], [from_str] and [from_hint] *)
Definition wheel_parse_filename (filename : list Z) (hint : option (list Z)) : outcome (result WheelFilename WheelFilenameError) :=
  match strip_suffix (bs ".whl") filename with
  | None => Ret (Err (InvalidWheelFileName filename (bs "Must end with .whl")))
  | Some stem => wheel_parse stem filename hint
  end.

Definition wheel_from_str (filename : list Z) := wheel_parse_filename filename None.
Definition wheel_from_hint (filename hint : list Z) := wheel_parse_filename filename (Some hint).

(** [WheelFilename::from_stem] *)
Definition wheel_from_stem (stem : list Z) : outcome (result WheelFilename WheelFilenameError) :=
  if match path_extension stem with Some ext => str_eq_ignore_ascii_case ext (bs "whl") | None => false end
  then Ret (Err (UnexpectedExtension stem))
  else wheel_parse stem stem None.

(** [String::truncate]: panics inside a character, and does nothing beyond the
    end. *)
Definition str_truncate (s : list Z) (new_len : nat) : outcome (list Z) :=
  if Nat.leb new_len (str_len s) then slice_to s new_len else Ret s.

(** [trim_end_matches(['.', '+'])] *)
Definition trim_end_dots (s : list Z) : list Z := rev (drop_while (fun c => (c =? 46) || (c =? 43)) (rev s)).

Context `{SeaHash}.

(** [WheelFilename::cache_key] *)
Definition CACHE_KEY_MAX_LEN : nat := 64.

Definition wheel_cache_key (w : WheelFilename) : outcome (list Z) :=
  let full := version_display (wheel_version w) ++ bs "-" ++ wheel_tag_display (wheel_tags w) in
  if Nat.leb (str_len full) CACHE_KEY_MAX_LEN then Ret full
  else
    let digest := cache_digest (mkStr (utf8 (wheel_tag_display (wheel_tags w)))) in
    let version_width := (CACHE_KEY_MAX_LEN - 1 - 16)%nat in
    let! version := str_truncate (version_display (wheel_version w)) version_width in
    Ret (trim_end_dots version ++ bs "-" ++ digest).
End wheel.

(** ** Tags are printed with letters, digits and underscores *)

Abbreviation atom := (Forall (fun c => is_tag_atom_byte c = true)).

(** The characters of a printed wheel. *)
Definition safe_byte (c : Z) : bool := is_tag_atom_byte c || (c =? 45) || (c =? 46) || (c =? 33) || (c =? 43).
Abbreviation safe := (Forall (fun c => safe_byte c = true)).

Lemma atom_lit l : forallb is_tag_atom_byte l = true -> atom l.
Proof. apply forallb_Forall. Qed.

Lemma atom_show n : is_u64 n -> atom (show_u64 n).
Proof.
  intros H. destruct (show_u64_spec n H) as (_ & Hd & _). eapply Forall_impl; [exact Hd|].
  intros c Hc. unfold is_tag_atom_byte, is_ascii_alphanumeric. by rewrite Hc.
Qed.

Lemma atom_show_u8 n : 0 <= n <= u8_max -> atom (show_u64 n).
Proof. intros H. apply atom_show. unfold is_u64, u64_max, u8_max in *. lia. Qed.

Lemma atom_show_u16 n : is_u16 n -> atom (show_u64 n).
Proof. intros H. apply atom_show. unfold is_u16, u16_max, is_u64, u64_max in *. lia. Qed.

Lemma atom_show_digit n : 0 <= n <= 9 -> atom (show_u64 n).
Proof. intros H. apply atom_show. unfold is_u64, u64_max in *. lia. Qed.

Lemma atom_names : (forall a, atom (arch_name a)) /\ (forall f, atom (format_name f)) /\
  (forall a, atom (android_name a)) /\ (forall m, atom (ios_name m)).
Proof. by split_and!; intros []; apply atom_lit. Qed.

Lemma atom_release r : release_arch_ok r -> atom r.
Proof.
  intros [_ H]. unfold release_arch_from_str in H. destruct (forallb _ (utf8 r)) eqn:E; [|done].
  apply forallb_Forall in E. rewrite utf8_ascii_inv in E.
  - eapply Forall_impl; [exact E|done].
  - eapply Forall_impl; [exact E|]. intros b. cbn.
    unfold is_ascii_alphanumeric, is_ascii_digit, is_ascii_upper, is_ascii_lower. lia.
Qed.

#[local] Hint Resolve atom_show_u16 atom_show_u8 atom_show_digit atom_release : uv.
#[local] Hint Extern 1 (Forall _ (bs _)) => apply atom_lit; reflexivity : uv.
#[local] Hint Extern 1 (Forall _ (arch_name _)) => apply atom_names : uv.
#[local] Hint Extern 1 (Forall _ (format_name _)) => apply atom_names : uv.
#[local] Hint Extern 1 (Forall _ (android_name _)) => apply atom_names : uv.
#[local] Hint Extern 1 (Forall _ (ios_name _)) => apply atom_names : uv.

Ltac atoms := rewrite ?Forall_app; split_and?; auto with uv.

Lemma platform_atom t : platform_ok t -> atom (platform_display t).
Proof. destruct t; cbn [platform_ok platform_display]; intros H; decompose [and] H; atoms. Qed.

Lemma language_atom t : language_ok t -> atom (language_display t).
Proof.
  destruct t as [|major [minor|]|[a b]|[a b]|[a b]|[a b]|major]; cbn [language_ok language_display];
    unfold digit_pair; cbn [fst snd]; intros H; decompose [and] H; atoms.
Qed.

Lemma variants_atom v : atom (variants_display (H := bit_flags) v).
Proof.
  unfold variants_display. rewrite !Forall_app. split_and!; destruct (flags_contains _ _); auto with uv.
Qed.

Lemma abi_atom t : abi_ok t -> atom (abi_display (H := bit_flags) t).
Proof.
  destruct t as [| | |[a b] v|[[a b]|] [c d]|[a b] [c d]|[a b]]; cbn [abi_ok abi_display];
    unfold digit_pair; cbn [fst snd]; intros H; decompose [and] H; atoms. apply variants_atom.
Qed.

(** ** The parser on the parts between dashes *)

Lemma atom_free sep l : is_tag_atom_byte sep = false -> atom l -> Forall (fun c => c <> sep) l.
Proof. intros Hs H. eapply Forall_impl; [exact H|]. intros c Hc ->. by rewrite Hs in Hc. Qed.

Lemma atom_char c : is_tag_atom_byte c = true -> 0 <= c < 128.
Proof. unfold is_tag_atom_byte, is_ascii_alphanumeric, is_ascii_digit, is_ascii_upper, is_ascii_lower. lia. Qed.

Lemma atom_ascii l : atom l -> Forall (fun c => 0 <= c < 128) l.
Proof. intros H. eapply Forall_impl; [exact H|]. apply atom_char. Qed.

Lemma ascii_is_char l : Forall (fun c => 0 <= c < 128) l -> Forall is_char l.
Proof. intros H. eapply Forall_impl; [exact H|]. unfold is_char. cbn. lia. Qed.

(** The error for a wrong number of dashes. *)
Definition dash_error (parts : list (list Z)) : list Z :=
  match parts with
  | [] | [_] => bs "Must have a version"
  | [_; _] => bs "Must have a Python tag"
  | [_; _; _] => bs "Must have an ABI tag"
  | [_; _; _; _] => bs "Must have a platform tag"
  | _ => bs "Must have 5 or 6 components, but has more"
  end.

Definition no_dots (l : list Z) : bool := forallb (fun c => negb (c =? 46)) l.

Definition stem_components (parts : list (list Z)) : option Components :=
  match parts with
  | [n; v; p; a; q] => Some (mkComponents n v None p a q (no_dots (p ++ a ++ q)) (str_len n + 1 + str_len v))
  | [n; v; b; p; a; q] => Some (mkComponents n v (Some b) p a q false (str_len n + 1 + str_len v))
  | _ => None
  end.

Lemma no_dots_iff l : no_dots l = true <-> Forall (fun c => c <> 46) l.
Proof.
  unfold no_dots. rewrite forallb_Forall. split; intros H; (eapply Forall_impl; [exact H|]); intros c; cbn.
  - by intros Hc%negb_true_iff%Z.eqb_neq.
  - intros Hc. by apply negb_true_iff, Z.eqb_neq.
Qed.

Section parser.
Context `{FlagsLaws} `{MemchrLaws} `{MemchrIterLaws}.

Lemma memchr_dots s : Forall is_char s -> match memchr 46 (utf8 s) with None => true | Some _ => false end = no_dots s.
Proof.
  intros Hc. destruct (no_dots s) eqn:E.
  - apply no_dots_iff in E. by rewrite memchr_free.
  - destruct (memchr 46 (utf8 s)) eqn:Em; [done|]. apply memchr_none in Em; [|done]. apply no_dots_iff in Em. congruence.
Qed.

Lemma bytes_from_piece pre x s i : s = pre ++ x -> i = str_len pre -> bytes_from (utf8 s) i = Ret (utf8 x).
Proof.
  intros -> ->. unfold bytes_from, str_len. rewrite utf8_app, length_app.
  destruct (Nat.leb_spec (length (utf8 pre)) (length (utf8 pre) + length (utf8 x))); [|lia]. by rewrite drop_app_length.
Qed.

Lemma split_stem_parts stem filename : Forall is_char stem ->
  split_stem stem filename = Ret (match stem_components (split_on 45 stem) with
                                  | Some c => Ok c
                                  | None => Err (InvalidWheelFileName filename (dash_error (split_on 45 stem)))
                                  end).
Proof.
  intros Hc. unfold split_stem. rewrite memchr_iter_positions, positions_parts by done.
  pose proof (split_on_char 45 stem Hc) as Hparts. pose proof (join_split 45 stem) as Ej.
  destruct (split_on 45 stem) as [|n [|v [|p [|a [|q [|x [|y ys]]]]]]]; cbn [part_offsets stem_components dash_error]; try done.
  - cbn [join_on] in Ej. subst stem.
    rewrite (slice_to_piece n (45 :: v ++ 45 :: p ++ 45 :: a ++ 45 :: q)) by text_pieces. cbn [obind].
    rewrite (slice_piece (n ++ [45]) v (45 :: p ++ 45 :: a ++ 45 :: q)) by text_pieces. cbn [obind].
    rewrite (slice_piece (n ++ [45] ++ v ++ [45]) p (45 :: a ++ 45 :: q)) by text_pieces. cbn [obind].
    rewrite (slice_piece (n ++ [45] ++ v ++ [45] ++ p ++ [45]) a (45 :: q)) by text_pieces. cbn [obind].
    rewrite (slice_from_piece (n ++ [45] ++ v ++ [45] ++ p ++ [45] ++ a ++ [45]) q) by text_pieces. cbn [obind].
    rewrite (bytes_from_piece (n ++ [45] ++ v) (45 :: p ++ 45 :: a ++ 45 :: q)) by text_pieces. cbn [obind].
    rewrite memchr_dots.
    2:{ rewrite Forall_forall in Hc. apply Forall_forall. intros c Hi. apply Hc. rewrite elem_of_app, elem_of_cons, elem_of_app. tauto. }
    do 3 f_equal. unfold no_dots. by repeat first [rewrite forallb_app|progress cbn [forallb negb Z.eqb Pos.eqb andb]].
  - cbn [join_on] in Ej. subst stem.
    rewrite (slice_to_piece n (45 :: v ++ 45 :: p ++ 45 :: a ++ 45 :: q ++ 45 :: x)) by text_pieces. cbn [obind].
    rewrite (slice_piece (n ++ [45]) v (45 :: p ++ 45 :: a ++ 45 :: q ++ 45 :: x)) by text_pieces. cbn [obind].
    rewrite (slice_piece (n ++ [45] ++ v ++ [45]) p (45 :: a ++ 45 :: q ++ 45 :: x)) by text_pieces. cbn [obind].
    rewrite (slice_piece (n ++ [45] ++ v ++ [45] ++ p ++ [45]) a (45 :: q ++ 45 :: x)) by text_pieces. cbn [obind].
    rewrite (slice_piece (n ++ [45] ++ v ++ [45] ++ p ++ [45] ++ a ++ [45]) q (45 :: x)) by text_pieces. cbn [obind].
    rewrite (slice_from_piece (n ++ [45] ++ v ++ [45] ++ p ++ [45] ++ a ++ [45] ++ q ++ [45]) x) by text_pieces. cbn [obind].
    done.
Qed.

(** The parts of a component: not empty, and letters, digits and underscores. *)
Definition valid_part (part : list Z) : bool := negb (bytes_eqb part []) && forallb is_tag_atom_byte (utf8 part).

Definition valid_component (component : list Z) : bool :=
  negb (bytes_eqb component []) && forallb valid_part (split_terminator 46 component).

Lemma parse_large_spec {T E} (parse : list Z -> outcome (result T E)) component filename : total_on_text parse ->
  Forall is_char component ->
  parse_large_tag_component parse component filename =
  Ret (if valid_component component then Ok (component_tags parse component) else Err (invalid_tag_component filename)).
Proof.
  intros Ht Hc. unfold parse_large_tag_component, valid_component. destruct component as [|c0 comp]; [done|].
  remember (c0 :: comp) as component eqn:Ecomp. rewrite splitter_fold_split by done.
  assert (bytes_eqb component [] = false) as -> by (by subst).
  assert (Hp : Forall (Forall is_char) (split_terminator 46 component)).
  { apply Forall_forall. intros part Hp%split_terminator_incl.
    pose proof (split_on_char 46 component Hc) as Hs. rewrite Forall_forall in Hs. by apply Hs. }
  unfold component_tags. change (omap ?f ?l) with ([] ++ omap f l). cbn [negb andb]. clear Hc Ecomp.
  generalize (@nil T) as acc. induction Hp as [|part parts Hpart _ IH]; intros acc; cbn [fold_parts forallb omap list_omap].
  - by rewrite app_nil_r.
  - unfold large_tag_step at 1, valid_part at 1.
    destruct (bytes_eqb part []); [done|]. cbn [negb orb andb]. destruct (forallb is_tag_atom_byte (utf8 part)); [|done].
    cbn [negb andb]. destruct (Ht part Hpart) as [r Er]. rewrite Er. cbn [obind]. rewrite IH.
    unfold parsed_by. rewrite Er. destruct (forallb valid_part parts); [|done]. destruct r; [|done]. by rewrite <- app_assoc.
Qed.

(** ** What a stem reads as *)

(** The text after the version. *)
Definition tag_text (c : Components) : list Z :=
  match c_build c with
  | None => join_on 45 [c_python c; c_abi c; c_platform c]
  | Some b => join_on 45 [b; c_python c; c_abi c; c_platform c]
  end.

Definition build_read (build : option (list Z)) (b : option BuildTag) : Prop :=
  match build, b with
  | None, None => True
  | Some text, Some b => build_tag_text text = Ok b
  | _, _ => False
  end.

(** The tags that the components of a stem are parsed to. *)
Definition tags_read (c : Components) (t : WheelTag) : Prop :=
  match t with
  | SmallTag s =>
      c_small c = true /\ language_from_str (c_python c) = Ok (small_python s) /\
      abi_from_str (c_abi c) = Ok (small_abi s) /\ platform_from_str (c_platform c) = Ret (Ok (small_platform s))
  | LargeTag l =>
      (c_small c = true -> small_tag_of (c_python c) (c_abi c) (c_platform c) = Ret None) /\
      build_read (c_build c) (large_build l) /\
      Forall (fun x => valid_component x = true) [c_python c; c_abi c; c_platform c] /\
      large_python l = component_tags (pure_parser language_from_str) (c_python c) /\
      large_abi l = component_tags (pure_parser abi_from_str) (c_abi c) /\
      large_platform l = component_tags platform_from_str (c_platform c) /\
      large_repr l = tag_text c
  end.

Definition reads (hint : option (list Z)) (stem : list Z) (w : WheelFilename) : Prop :=
  exists c, stem_components (split_on 45 stem) = Some c /\ parse_name (c_name c) hint [] = Ok (wheel_name w) /\
    version_from_str (utf8 (c_version c)) = Ret (Ok (wheel_version w)) /\ tags_read c (wheel_tags w).

(** The parts of a stem, joined again. *)
Lemma stem_tail stem c : stem_components (split_on 45 stem) = Some c ->
  stem = c_name c ++ 45 :: c_version c ++ 45 :: tag_text c /\ c_tags_at c = (str_len (c_name c) + 1 + str_len (c_version c))%nat /\
  (c_small c = true -> c_build c = None /\ Forall (fun x => x <> 46) (c_python c ++ c_abi c ++ c_platform c)).
Proof.
  intros E. pose proof (join_split 45 stem) as Ej.
  destruct (split_on 45 stem) as [|n [|v [|p [|a [|q [|x [|y ys]]]]]]]; try done; injection E as <-; cbn [c_name c_version c_build tag_text
    c_python c_abi c_platform c_small c_tags_at].
  - split; [by rewrite <- Ej|]. split; [done|]. intros Hd. split; [done|]. by apply no_dots_iff.
  - split; [by rewrite <- Ej|]. by split.
Qed.

Lemma components_char stem c : Forall is_char stem -> stem_components (split_on 45 stem) = Some c ->
  Forall is_char (c_version c) /\ Forall is_char (c_python c) /\ Forall is_char (c_abi c) /\ Forall is_char (c_platform c).
Proof.
  intros Hc E. pose proof (split_on_char 45 stem Hc) as Hp.
  destruct (split_on 45 stem) as [|n [|v [|p [|a [|q [|x [|y ys]]]]]]]; try done; injection E as <-;
    repeat match goal with H : Forall _ (_ :: _) |- _ => apply Forall_cons in H as [? H] end; done.
Qed.

Lemma parse_name_filename name hint f g n : parse_name name hint f = Ok n -> parse_name name hint g = Ok n.
Proof.
  unfold parse_name. destruct hint as [h|]; [destruct (normalized_package_name_matches name h); [done|]|];
    by destruct (validate_and_normalize_ref name).
Qed.

Lemma parse_build_spec build filename : exists rb, parse_build build filename = Ret rb /\
  forall b, rb = Ok b <-> build_read build b.
Proof.
  unfold parse_build, build_read. destruct build as [text|].
  - rewrite build_tag_from_str_text. cbn [obind]. eexists. split; [done|]. intros b.
    destruct (build_tag_text text) as [b'|e]; cbn; [|by destruct b].
    split; [by intros [= <-]|]. destruct b; [by intros [= ->]|done].
  - eexists. split; [done|]. intros b. split; [by intros [= <-]|]. by destruct b.
Qed.

(** The small representation, when the stem allows it. *)
Lemma small_tags_spec c : Forall is_char (c_platform c) ->
  exists o, (if c_small c then small_tag_of (c_python c) (c_abi c) (c_platform c) else Ret None) = Ret o /\
    (forall s, o = Some s <-> tags_read c (SmallTag s)) /\
    (o = None <-> (c_small c = true -> small_tag_of (c_python c) (c_abi c) (c_platform c) = Ret None)).
Proof.
  intros Hq. cbn [tags_read].
  destruct (c_small c); [|by eexists; split_and!; [done|intros s; split; [done|by intros [? _]]|]].
  destruct (try_small_spec (c_python c) (c_abi c) (c_platform c) Hq) as (o & E & Ho). exists o. split; [done|]. split.
  - intros s. split; [intros Eo; by destruct (Ho s Eo) as (? & ? & ?)|]. intros (_ & E1 & E2 & E3).
    unfold small_tag_of in E. rewrite E1, E2, E3 in E. cbn [obind] in E. injection E as <-. by destruct s.
  - rewrite E. split; [by intros ->|]. intros Hx. by injection (Hx eq_refl).
Qed.

(** The large representation. *)
Definition large_of (c : Components) (build : option BuildTag) : WheelTagLarge :=
  mkLarge build (component_tags (pure_parser language_from_str) (c_python c))
    (component_tags (pure_parser abi_from_str) (c_abi c)) (component_tags platform_from_str (c_platform c)) (tag_text c).

Lemma large_tags_spec c filename build (k : WheelTagLarge -> WheelFilename) :
  Forall is_char (c_python c) -> Forall is_char (c_abi c) -> Forall is_char (c_platform c) ->
  try_ (parse_large_tag_component (pure_parser language_from_str) (c_python c) filename) (fun py =>
  try_ (parse_large_tag_component (pure_parser abi_from_str) (c_abi c) filename) (fun abi =>
  try_ (parse_large_tag_component platform_from_str (c_platform c) filename) (fun platform =>
  Ret (Ok (k (mkLarge build py abi platform (tag_text c))))))) =
  Ret (if forallb valid_component [c_python c; c_abi c; c_platform c] then Ok (k (large_of c build))
       else Err (invalid_tag_component filename)).
Proof.
  intros Hp Ha Hq. rewrite !parse_large_spec by (done || apply pure_total || apply platform_total). cbn [forallb].
  destruct (valid_component (c_python c)); [|done]. cbn [try_ obind andb].
  destruct (valid_component (c_abi c)); [|done]. cbn [try_ obind andb].
  by destruct (valid_component (c_platform c)).
Qed.

(** The tags are determined by the components. *)
Lemma tags_read_small c s t : tags_read c (SmallTag s) -> tags_read c t -> t = SmallTag s.
Proof.
  intros (Hs & E1 & E2 & E3). destruct t as [[py abi platform]|l]; cbn [tags_read].
  - cbn [small_python small_abi small_platform]. intros (_ & E1' & E2' & E3'). destruct s. cbn in *. congruence.
  - intros [Hn _]. specialize (Hn Hs). unfold small_tag_of in Hn. by rewrite E1, E2, E3 in Hn.
Qed.

Lemma tags_read_large c build : (c_small c = true -> small_tag_of (c_python c) (c_abi c) (c_platform c) = Ret None) ->
  (forall b, build_read (c_build c) b <-> b = build) ->
  forall t, tags_read c t <-> forallb valid_component [c_python c; c_abi c; c_platform c] = true /\ t = LargeTag (large_of c build).
Proof.
  intros Hn Hb t. destruct t as [s|[lb lp la lq lr]]; cbn [tags_read].
  - split; [|by intros [_ [=]]]. intros (Hs & E1 & E2 & E3). specialize (Hn Hs). unfold small_tag_of in Hn. by rewrite E1, E2, E3 in Hn.
  - cbn [large_build large_python large_abi large_platform large_repr]. rewrite Hb, <- forallb_Forall. unfold large_of. split.
    + intros (_ & -> & Hv & -> & -> & -> & ->). done.
    + intros (Hv & [= -> -> -> -> ->]). done.
Qed.

(** The parser returns, and accepts exactly what the stem reads as. *)
Lemma wheel_parse_spec stem filename hint : Forall is_char stem ->
  exists r, wheel_parse stem filename hint = Ret r /\ forall w, r = Ok w <-> reads hint stem w.
Proof.
  intros Hc. unfold wheel_parse, reads. rewrite split_stem_parts by done. cbn [try_ obind].
  destruct (stem_components (split_on 45 stem)) as [c|] eqn:Ec; [|by eexists; split; [|split; [|by intros (c & [=] & _)]]].
  destruct (components_char stem c Hc Ec) as (Hv & Hp & Ha & Hq). destruct (stem_tail stem c Ec) as (Es & Eat & Hsm).
  assert (Einv : forall P : Components -> Prop, (exists c', Some c = Some c' /\ P c') <-> P c).
  { intros P. split; [by intros (c' & [= <-] & Hx)|by exists c]. }
  setoid_rewrite Einv. destruct (parse_name (c_name c) hint filename) as [name|e] eqn:En; cbn [try_ obind].
  2:{ eexists. split; [done|]. intros w. split; [done|]. intros (Hn & _). apply (parse_name_filename _ _ _ filename) in Hn. congruence. }
  rewrite (parse_name_filename _ _ _ [] _ En).
  destruct (version_total (c_version c) Hv) as [rv ->]. cbn [outcome_map try_ obind].
  destruct rv as [version|e]; cbn [map_err]; [|by eexists; split; [|split; [|by intros (_ & [=] & _)]]].
  destruct (parse_build_spec (c_build c) filename) as (rb & -> & Hb). cbn [try_ obind]. destruct rb as [build|e].
  2:{ eexists. split; [done|]. intros w. split; [done|]. intros (_ & _ & Ht). destruct (wheel_tags w) as [s|l]; cbn [tags_read] in Ht.
      - destruct (Hsm (proj1 Ht)) as [Ebn _]. pose proof (proj2 (Hb None)) as Hn. rewrite Ebn in Hn. by discriminate (Hn I).
      - by discriminate (proj2 (Hb (large_build l)) (proj1 (proj2 Ht))). }
  destruct (small_tags_spec c Hq) as (o & -> & Ho & Hnone). cbn [obind].
  assert (W : forall w t, Ok (mkWheel name version t) = @Ok _ WheelFilenameError w <->
    @Ok _ WheelFilenameError name = Ok (wheel_name w) /\ @Ret (result _ ErrorKind) (Ok version) = Ret (Ok (wheel_version w)) /\ wheel_tags w = t).
  { intros [n v t'] t. cbn. split; [by intros [= -> -> ->]|]. by intros ([= ->] & [= ->] & ->). }
  destruct o as [s|].
  - assert (Hs : tags_read c (SmallTag s)) by (by apply Ho). eexists. split; [done|]. intros w. rewrite W.
    split; intros (E1 & E2 & E3); (split; [done|split; [done|]]); [by rewrite E3|by apply (tags_read_small c)].
  - rewrite (slice_from_piece (c_name c ++ 45 :: c_version c ++ [45]) (tag_text c)) by (rewrite ?Es, ?Eat; text_pieces).
    cbn [obind]. rewrite (large_tags_spec c filename build (fun l => mkWheel name version (LargeTag l))) by done.
    eexists. split; [done|]. intros w. rewrite (tags_read_large c build) by (first [by apply Hnone|intros b; rewrite <- Hb; split; [by intros [= <-]|by intros ->]]).
    destruct (forallb valid_component _); [rewrite W; tauto|]. split; [done|]. by intros (_ & _ & [=] & _).
Qed.

(** ** Names *)

Lemma match_byte_respells : respells match_byte.
Proof.
  intros c. unfold match_byte, to_ascii_lowercase. destruct (is_ascii_upper c) eqn:Eu.
  - unfold is_punct, name_byte, is_ascii_alphanumeric, is_punct, is_ascii_upper, is_ascii_lower, is_ascii_digit in *.
    split_and!; [lia|lia|]. intros _. destruct (Z.leb_spec 65 (c + 32)), (Z.leb_spec (c + 32) 90); cbn; lia.
  - destruct ((c =? 95) || (c =? 46)) eqn:Ep; [|by rewrite ?Eu].
    assert (is_punct c = true) as E by (unfold is_punct; lia). unfold name_byte. rewrite E, !orb_true_r. done.
Qed.

(** A name that matches the hint is a spelling of it. *)
Lemma matching_hint name hint : normal_name hint = true -> normalized_package_name_matches name hint = true ->
  validate_and_normalize_ref name = Ok hint.
Proof.
  intros Hn E%bytes_eqb_eq. destruct (normal_valid hint Hn) as (Vh & Ch & Uh). rewrite Uh in E.
  rewrite validate_is_normalize, normalize_spec, <- (respell_valid match_byte), <- (respell_collapse match_byte)
    by apply match_byte_respells.
  by rewrite E, Vh, Ch.
Qed.

Lemma parse_name_hint name hint filename : normal_name hint = true ->
  parse_name name (Some hint) filename = parse_name name None filename.
Proof.
  intros Hn. unfold parse_name. destruct (normalized_package_name_matches name hint) eqn:E; [|done].
  by rewrite (matching_hint name hint).
Qed.

Lemma wheel_hint_irrelevant filename hint : normal_name hint = true ->
  wheel_from_hint filename hint = wheel_from_str filename.
Proof.
  intros Hn. unfold wheel_from_hint, wheel_from_str, wheel_parse_filename.
  destruct (strip_suffix (bs ".whl") filename) as [stem|]; [|done]. unfold wheel_parse.
  destruct (split_stem stem filename) as [[c|e]|]; [|done..]. cbn [try_ obind]. by rewrite parse_name_hint.
Qed.

Lemma dist_info_atom n : normal_name n = true -> atom (as_dist_info_name n).
Proof.
  intros Hn. rewrite as_dist_info_name_map. apply List.Forall_map. eapply Forall_impl; [by apply normal_run_chars in Hn|].
  intros c. cbn. unfold swap_dash, is_tag_atom_byte, is_ascii_alphanumeric. destruct (Z.eqb_spec c 45); [done|].
  rewrite orb_false_r. intros [-> | ->]%orb_true_iff; by rewrite ?orb_true_r.
Qed.

(** ** Printed wheels *)

Lemma atom_safe l : atom l -> safe l.
Proof. intros Ha. eapply Forall_impl; [exact Ha|]. intros c Hc. unfold safe_byte. by rewrite Hc. Qed.

Lemma safe_ascii l : safe l -> Forall (fun c => 0 <= c < 128) l.
Proof.
  intros Hs. eapply Forall_impl; [exact Hs|]. intros c. unfold safe_byte. cbn. intros Hc.
  destruct (is_tag_atom_byte c) eqn:E; [by apply atom_char|]. lia.
Qed.

(** Parts of a component are atoms, so the component is safe. *)
Lemma valid_part_atom part : valid_part part = true -> atom part.
Proof.
  intros [_ Ha]%andb_prop. apply forallb_Forall in Ha. rewrite utf8_ascii_inv in Ha; [done|].
  eapply Forall_impl; [exact Ha|]. intros c Hc%atom_char. lia.
Qed.

Lemma terminated_safe s : forallb valid_part (split_terminator 46 s) = true -> safe s /\ Forall (fun c => c <> 45) s.
Proof.
  induction s as [l Hl|a b Ha IH] using (split_on_ind 46).
  - rewrite split_terminator_none by done. destruct l as [|c l]; [by split|]. cbn [forallb]. rewrite andb_true_r.
    intros Hv%valid_part_atom. split; [by apply atom_safe|by apply atom_free].
  - rewrite split_terminator_app by done. cbn [forallb]. intros [Hv%valid_part_atom Hb]%andb_prop. destruct (IH Hb) as [Hs Hd].
    rewrite !Forall_app, !Forall_cons. split; [by split; [apply atom_safe|]|by split; [apply atom_free|]].
Qed.

Lemma component_safe s : valid_component s = true -> safe s /\ Forall (fun c => c <> 45) s.
Proof. intros [_ Hv]%andb_prop. by apply terminated_safe. Qed.

Lemma build_text_safe s b : build_tag_text s = Ok b -> safe s /\ Forall (fun c => c <> 45) s.
Proof.
  unfold build_tag_text. destruct s as [|c s]; [done|]. destruct (forallb is_build_tag_byte (utf8 (c :: s))) eqn:E; [|done].
  intros _. destruct (build_bytes_ascii _ E) as [Eu _]. rewrite Eu in E. apply forallb_Forall in E.
  split; (eapply Forall_impl; [exact E|]); intros x; cbn; unfold is_build_tag_byte, safe_byte, is_tag_atom_byte.
  - destruct (is_ascii_alphanumeric x); [done|]. lia.
  - intros Hx ->. by vm_compute in Hx.
Qed.

(** What the parser returns: a normal name, a parsed version, and tags that are
    read from some components. *)
Definition small_allowed (c : Components) : bool :=
  match c_build c with None => no_dots (c_python c ++ c_abi c ++ c_platform c) | Some _ => false end.

Record wheel_ok (w : WheelFilename) : Prop := {
  ok_name : normal_name (wheel_name w) = true;
  ok_version : parsed (wheel_version w);
  ok_tags : exists c, tags_read c (wheel_tags w) /\ c_small c = small_allowed c /\
    Forall is_char (c_python c) /\ Forall is_char (c_abi c) /\ Forall is_char (c_platform c);
}.

Lemma reads_ok stem w : Forall is_char stem -> reads None stem w -> wheel_ok w.
Proof.
  intros Hc (c & Ec & En & Ev & Ht). destruct (components_char stem c Hc Ec) as (Hv & Hp & Ha & Hq).
  split.
  - unfold parse_name in En. destruct (validate_and_normalize_ref (c_name c)) as [n|] eqn:E; [|done]. injection En as <-.
    by apply validate_ok in E as (_ & _ & _ & ?).
  - by apply (from_str_parsed (utf8 (c_version c))); [apply utf8_u8|].
  - exists c. split; [done|]. split; [|done].
    by destruct (split_on 45 stem) as [|n [|v [|p [|a [|q [|x [|y ys]]]]]]]; try done; injection Ec as <-.
Qed.

Lemma version_text_ok v : parsed v -> Forall (fun c => c <> 45) (version_display v) /\ Forall is_char (version_display v) /\
  version_from_str (utf8 (version_display v)) = Ret (Ok v).
Proof.
  intros Hv. pose proof (version_display_bytes v (proj1 Hv)) as Ht.
  assert (Ha : Forall (fun c => 0 <= c < 128) (version_display v)).
  { eapply Forall_impl; [exact Ht|]. unfold text_byte. cbn. lia. }
  split; [eapply Forall_impl; [exact Ht|]; by intros c (_ & _ & ? & _)|]. split; [by apply ascii_is_char|].
  rewrite utf8_ascii by done. unfold version_from_str. by rewrite parse_pattern_display.
Qed.

(** A stem made of dash-free parts is split into them. *)
Lemma components_of_parts n v c : Forall (fun x => x <> 45) n -> Forall (fun x => x <> 45) v ->
  match c_build c with Some b => Forall (fun x => x <> 45) b | None => True end ->
  Forall (fun x => x <> 45) (c_python c) -> Forall (fun x => x <> 45) (c_abi c) -> Forall (fun x => x <> 45) (c_platform c) ->
  stem_components (split_on 45 (n ++ 45 :: v ++ 45 :: tag_text c)) =
  Some (mkComponents n v (c_build c) (c_python c) (c_abi c) (c_platform c) (small_allowed c) (str_len n + 1 + str_len v)).
Proof.
  intros Hn Hv Hb Hp Ha Hq. unfold tag_text, small_allowed. destruct (c_build c) as [b|]; cbn [join_on].
  - by rewrite !split_on_app, split_on_none by done.
  - by rewrite !split_on_app, split_on_none by done.
Qed.

Lemma small_text_ok c s : tags_read c (SmallTag s) -> Forall is_char (c_platform c) ->
  let p := language_display (small_python s) in let a := abi_display (small_abi s) in let q := platform_display (small_platform s) in
  atom p /\ atom a /\ atom q /\
  language_from_str p = Ok (small_python s) /\ abi_from_str a = Ok (small_abi s) /\
  platform_from_str q = Ret (Ok (small_platform s)).
Proof.
  intros (_ & E1 & E2 & E3) Hq p a q. subst p a q. rewrite abi_from_str_bits in E2. apply language_parsed in E1. apply abi_parsed in E2.
  destruct (platform_parsed (c_platform c) Hq) as (r & Er & Hr). rewrite E3 in Er. injection Er as <-. specialize (Hr _ eq_refl).
  rewrite abi_display_bits, abi_from_str_bits.
  split_and!; [by apply language_atom|by apply abi_atom|by apply platform_atom|by apply language_text|by apply abi_text|by apply platform_text].
Qed.

Lemma wheel_stem_reads w : wheel_ok w -> reads None (wheel_stem w) w.
Proof.
  intros [Hn Hv (c & Ht & Esm & Hp & Ha & Hq)]. destruct w as [name version tags]. cbn [wheel_name wheel_version wheel_tags] in *.
  assert (Hd : Forall (fun x => x <> 45) (as_dist_info_name name)) by (apply atom_free; [done|by apply dist_info_atom]).
  destruct (version_text_ok version Hv) as (Hvd & Hvc & Ev).
  assert (En : parse_name (as_dist_info_name name) None [] = Ok name).
  { unfold parse_name. by rewrite validate_dist_info. }
  unfold reads, wheel_stem. cbn [wheel_name wheel_version wheel_tags]. change (bs "-") with [45]. cbn [app].
  destruct tags as [s|l].
  - destruct (small_text_ok c s Ht Hq) as (A1 & A2 & A3 & E1 & E2 & E3).
    set (c' := mkComponents [] [] None (language_display (small_python s)) (abi_display (small_abi s))
                 (platform_display (small_platform s)) true 0).
    eexists. rewrite (components_of_parts _ _ c') by (done || by apply atom_free). split; [done|]. cbn [c_name c_version].
    split; [done|]. split; [done|]. split; [|by split_and!]. cbn. apply no_dots_iff. rewrite !Forall_app. by split_and!; apply atom_free.
  - assert (Ht' := Ht). destruct Ht' as (_ & Hb & Hf & _ & _ & _ & Er). cbn [wheel_tag_display]. rewrite Er.
    apply Forall_cons in Hf as [F1 Hf]. apply Forall_cons in Hf as [F2 Hf]. apply Forall_cons in Hf as [F3 _].
    eexists. rewrite (components_of_parts _ _ c); [split; [done|]|done|done| |by apply component_safe..].
    + cbn [c_name c_version]. rewrite <- Esm. done.
    + unfold build_read in Hb. destruct (c_build c) as [b|]; [|done]. destruct (large_build l) as [bt|]; [|done]. by eapply build_text_safe.
Qed.

Lemma wheel_stem_safe w : wheel_ok w -> safe (wheel_stem w).
Proof.
  intros [Hn Hv (c & Ht & Esm & Hp & Ha & Hq)]. destruct w as [name version tags]. cbn [wheel_name wheel_version wheel_tags] in *.
  unfold wheel_stem. cbn [wheel_name wheel_version wheel_tags]. rewrite !Forall_app.
  assert (D : safe (bs "-")) by (by repeat constructor).
  split_and!; [by apply atom_safe, dist_info_atom|done| |done|].
  - eapply Forall_impl; [apply version_display_chars, Hv|]. intros b. unfold version_byte, safe_byte, is_tag_atom_byte. cbn.
    destruct (is_ascii_alphanumeric b); [done|]. lia.
  - destruct tags as [s|l]; cbn [wheel_tag_display].
    + destruct (small_text_ok c s Ht Hq) as (A1 & A2 & A3 & _). unfold small_display. rewrite !Forall_app.
      split_and!; try done; by apply atom_safe.
    + destruct Ht as (_ & Hb & Hf & _ & _ & _ & ->).
      apply Forall_cons in Hf as [[F1 _]%component_safe Hf]. apply Forall_cons in Hf as [[F2 _]%component_safe Hf].
      apply Forall_cons in Hf as [[F3 _]%component_safe _]. unfold tag_text. unfold build_read in Hb.
      destruct (c_build c) as [b|]; cbn [join_on]; rewrite !Forall_app, !Forall_cons, !Forall_app, !Forall_cons; [|by split_and!].
      destruct (large_build l) as [bt|]; [|done]. apply build_text_safe in Hb as [Hb _].
      by rewrite !Forall_app, !Forall_cons.
Qed.

Lemma wheel_display_stem w : wheel_display w = wheel_stem w ++ bs ".whl".
Proof. unfold wheel_display, wheel_stem. by rewrite <- !app_assoc. Qed.

Lemma wheel_from_str_spec filename : Forall is_char filename ->
  exists r, wheel_from_str filename = Ret r /\
    forall w, r = Ok w <-> exists stem, filename = stem ++ bs ".whl" /\ reads None stem w.
Proof.
  intros Hc. unfold wheel_from_str, wheel_parse_filename.
  destruct (strip_suffix (bs ".whl") filename) as [stem|] eqn:Es.
  - apply strip_suffix_Some in Es as ->. apply Forall_app in Hc as [Hc _].
    destruct (wheel_parse_spec stem (stem ++ bs ".whl") None Hc) as (r & -> & Hr). exists r. split; [done|].
    intros w. rewrite Hr. split; [by exists stem|]. intros (stem' & E & Hs). by apply (inj (.++ bs ".whl")) in E as ->.
  - eexists. split; [done|]. intros w. split; [done|]. intros (stem & -> & _). by rewrite strip_suffix_app in Es.
Qed.

Lemma wheel_from_str_ok filename w : Forall is_char filename -> wheel_from_str filename = Ret (Ok w) -> wheel_ok w.
Proof.
  intros Hc E. destruct (wheel_from_str_spec filename Hc) as (r & Er & Hr). rewrite E in Er. injection Er as <-.
  destruct (proj1 (Hr w) eq_refl) as (stem & -> & Hs). apply Forall_app in Hc as [Hc _]. by apply (reads_ok stem).
Qed.

Lemma wheel_display_parses w : wheel_ok w -> wheel_from_str (wheel_display w) = Ret (Ok w).
Proof.
  intros Hw. assert (Hc : Forall is_char (wheel_display w)).
  { rewrite wheel_display_stem. apply Forall_app. split; [by apply ascii_is_char, safe_ascii, wheel_stem_safe|].
    apply forallb_is_char. reflexivity. }
  destruct (wheel_from_str_spec _ Hc) as (r & -> & Hr). f_equal. apply Hr. exists (wheel_stem w).
  split; [apply wheel_display_stem|by apply wheel_stem_reads].
Qed.

(** ** Properties *)

(** C19: parsing a wheel file name never panics: every slice falls on a character
    boundary.  Printing what was parsed and parsing the text again gives back the
    same wheel, in the same representation, unknown tags included. *)
Theorem wheel_filename_roundtrip filename : Forall is_char filename ->
  exists r, wheel_from_str filename = Ret r /\
    forall w, r = Ok w -> wheel_from_str (wheel_display w) = Ret (Ok w).
Proof.
  intros Hc. destruct (wheel_from_str_spec filename Hc) as (r & E & _). exists r. split; [done|].
  intros w ->. by apply wheel_display_parses, (wheel_from_str_ok filename).
Qed.

(** A file name is a wheel exactly when it is a stem of five or six parts
    between dashes followed by [.whl], whose name, version, build tag and tag
    components are valid; the name is normalised, and the tags are the known ones
    among the parts between dots, whichever representation holds them. *)
Theorem wheel_accepts filename : Forall is_char filename ->
  exists r, wheel_from_str filename = Ret r /\
    forall w, r = Ok w <-> exists stem, filename = stem ++ bs ".whl" /\ reads None stem w.
Proof. apply wheel_from_str_spec. Qed.

(** Parsing with the expected package name changes nothing: the shortcut that
    compares the name with the hint accepts only spellings of the hint. *)
Theorem wheel_from_hint_agrees filename hint : normal_name hint = true ->
  wheel_from_hint filename hint = wheel_from_str filename.
Proof. apply wheel_hint_irrelevant. Qed.

(** An accepted wheel is printed with letters, digits and [_-.!+] only: its
    file name, its stem and what is derived from them hold no path separator, no
    drive colon, no white space and no character outside ASCII. *)
Theorem wheel_text_safe filename w : Forall is_char filename -> wheel_from_str filename = Ret (Ok w) ->
  safe (wheel_stem w) /\ safe (wheel_display w).
Proof.
  intros Hc E. pose proof (wheel_stem_safe w (wheel_from_str_ok filename w Hc E)) as Hs. split; [done|].
  rewrite wheel_display_stem. apply Forall_app. split; [done|by repeat constructor].
Qed.

(** ** Cache keys *)

Lemma slice_to_ascii s n : Forall (fun c => 0 <= c < 128) s -> (n <= length s)%nat -> slice_to s n = Ret (take n s).
Proof.
  intros Ha Hl. rewrite <- (take_drop n s) at 1. rewrite (slice_to_piece (take n s) (drop n s)); [done|done|].
  rewrite str_len_ascii by (by apply Forall_take). rewrite length_take. lia.
Qed.

Lemma str_truncate_ascii s n : Forall (fun c => 0 <= c < 128) s -> str_truncate s n = Ret (take n s).
Proof.
  intros Ha. unfold str_truncate. rewrite str_len_ascii by done.
  destruct (Nat.leb_spec n (length s)); [by apply slice_to_ascii|]. by rewrite take_ge by lia.
Qed.

Lemma trim_end_prefix s : exists t, s = trim_end_dots s ++ t.
Proof.
  unfold trim_end_dots. exists (rev (take_while (fun c => (c =? 46) || (c =? 43)) (rev s))).
  by rewrite <- rev_app_distr, take_drop_while, rev_involutive.
Qed.

Lemma stem_split w : wheel_stem w = as_dist_info_name (wheel_name w) ++ bs "-" ++
  (version_display (wheel_version w) ++ bs "-" ++ wheel_tag_display (wheel_tags w)).
Proof. done. Qed.

Context `{SeaHashLaws}.

Lemma digest_safe {A} `{CacheKey A} (x : A) : safe (cache_digest x) /\ length (cache_digest x) = 16%nat.
Proof.
  destruct (to_hex_text (sea_hash (cache_key x))) as [Hl Ht]. split; [|done]. eapply Forall_impl; [exact Ht|].
  intros c Hc. unfold safe_byte, is_tag_atom_byte, is_ascii_alphanumeric, is_hex_lower, is_ascii_lower in *. cbn in *.
  destruct (is_ascii_digit c); [done|]. cbn in *. lia.
Qed.

(** C39: the cache key of an accepted wheel is computed without a panic (the version
    is cut between characters), has at most 64 characters and only safe ones; and
    the keys of wheels that need no digest determine version and tags. *)
Theorem wheel_cache_key_bounded filename w : Forall is_char filename -> wheel_from_str filename = Ret (Ok w) ->
  (exists key, wheel_cache_key w = Ret key /\ (length key <= 64)%nat /\ safe key) /\
  (forall filename' w', Forall is_char filename' -> wheel_from_str filename' = Ret (Ok w') ->
     (length (version_display (wheel_version w) ++ bs "-" ++ wheel_tag_display (wheel_tags w)) <= 64)%nat ->
     (length (version_display (wheel_version w') ++ bs "-" ++ wheel_tag_display (wheel_tags w')) <= 64)%nat ->
     wheel_cache_key w = wheel_cache_key w' ->
     wheel_version w = wheel_version w' /\ wheel_tag_display (wheel_tags w) = wheel_tag_display (wheel_tags w')).
Proof.
  intros Hc E. pose proof (wheel_from_str_ok filename w Hc E) as Hw.
  assert (L : forall v, wheel_ok v -> safe (version_display (wheel_version v) ++ bs "-" ++ wheel_tag_display (wheel_tags v)) /\
    str_len (version_display (wheel_version v) ++ bs "-" ++ wheel_tag_display (wheel_tags v)) =
    length (version_display (wheel_version v) ++ bs "-" ++ wheel_tag_display (wheel_tags v))).
  { intros v Hv. pose proof (wheel_stem_safe v Hv) as Hs. rewrite stem_split in Hs. apply Forall_app in Hs as [_ Hs].
    apply Forall_app in Hs as [_ Hs]. split; [done|]. by apply str_len_ascii, safe_ascii. }
  split.
  - destruct (L w Hw) as [Hs El]. unfold wheel_cache_key. rewrite El. unfold CACHE_KEY_MAX_LEN.
    destruct (Nat.leb_spec (length (version_display (wheel_version w) ++ bs "-" ++ wheel_tag_display (wheel_tags w))) 64); [by eexists|].
    apply Forall_app in Hs as [Hv _]. rewrite str_truncate_ascii by (by apply safe_ascii). cbn [obind].
    set (v := take _ _). destruct (trim_end_prefix v) as [t Et].
    destruct (digest_safe (mkStr (utf8 (wheel_tag_display (wheel_tags w))))) as [Hd Hl].
    eexists. split; [done|]. assert (Hsv : safe v) by (by apply Forall_take).
    assert (Hlv : (length v <= 47)%nat) by (unfold v; rewrite length_take; lia).
    rewrite Et in Hsv, Hlv. apply Forall_app in Hsv as [Hsv _]. rewrite length_app in Hlv. split.
    + rewrite !length_app, Hl. change (length (bs "-")) with 1%nat. lia.
    + rewrite !Forall_app. split_and!; [done|by repeat constructor|done].
  - intros filename' w' Hc' E' Hl Hl'. pose proof (wheel_from_str_ok filename' w' Hc' E') as Hw'.
    destruct (L w Hw) as [_ El]. destruct (L w' Hw') as [_ El']. unfold wheel_cache_key, CACHE_KEY_MAX_LEN. rewrite El, El'.
    apply Nat.leb_le in Hl as ->. apply Nat.leb_le in Hl' as ->. intros [= Ek].
    destruct (version_text_ok _ (ok_version w Hw)) as (Hd & _ & Ev). destruct (version_text_ok _ (ok_version w' Hw')) as (Hd' & _ & Ev').
    apply (f_equal (split_once 45)) in Ek. change (bs "-") with [45] in Ek. cbn [app] in Ek. rewrite !split_once_app in Ek by done.
    injection Ek as E1 E2. rewrite E1 in Ev. rewrite Ev in Ev'. by injection Ev' as ->.
Qed.
End parser.

(** Versions longer than 47 characters are cut, and the digest covers the tags
    only: two wheels of different versions have the same cache key. *)
Lemma cache_key_collision :
  match wheel_from_str (H := bit_flags) (bs "a-1.2.3.4.5.6.7.8.9.0.1.2.3.4.5.6.7.8.9.0.1.2.1.2.3-cp311-cp311-manylinux_2_17_x86_64.whl"),
        wheel_from_str (H := bit_flags) (bs "a-1.2.3.4.5.6.7.8.9.0.1.2.3.4.5.6.7.8.9.0.1.2.1.2.4-cp311-cp311-manylinux_2_17_x86_64.whl") with
  | Ret (Ok w), Ret (Ok w') =>
      wheel_version w <> wheel_version w' /\ wheel_cache_key (H := bit_flags) w = wheel_cache_key (H := bit_flags) w'
  | _, _ => False
  end.
Proof. vm_compute. split; [by intros [=]|reflexivity]. Qed.

(** A component that ends in a dot is accepted, one that starts with a dot or holds
    two in a row is not. *)
Lemma trailing_dot_accepted :
  (exists w, wheel_from_str (H := bit_flags) (bs "foo-1.0-py3.-none-any.whl") = Ret (Ok w)) /\
  (exists e, wheel_from_str (H := bit_flags) (bs "foo-1.0-.py3-none-any.whl") = Ret (Err e)) /\
  (exists e, wheel_from_str (H := bit_flags) (bs "foo-1.0-py2..py3-none-any.whl") = Ret (Err e)).
Proof. split_and!; eexists; vm_compute; reflexivity. Qed.

Lemma wheel_filename_roundtrip_witness :
  exists w, wheel_from_str (H := bit_flags) (bs "Foo.Bar-1.0.0-0001abc-py2.py3-none-any.whl") = Ret (Ok w) /\
    wheel_from_str (H := bit_flags) (wheel_display (H := bit_flags) w) = Ret (Ok w).
Proof.
  destruct (wheel_filename_roundtrip (H := bit_flags) (bs "Foo.Bar-1.0.0-0001abc-py2.py3-none-any.whl")) as (r & E & Hr);
    [apply forallb_is_char; reflexivity|].
  assert (E' := E). vm_compute in E'. injection E' as <-. eexists. split; [exact E|]. by apply Hr.
Defined.

Lemma wheel_accepts_witness :
  exists r, wheel_from_str (H := bit_flags) (bs "foo-1.0-py3-none-any.whl") = Ret r /\ exists w, r = Ok w.
Proof.
  destruct (wheel_accepts (H := bit_flags) (bs "foo-1.0-py3-none-any.whl")) as (r & E & Hr);
    [apply forallb_is_char; reflexivity|].
  exists r. split; [exact E|]. assert (E' := E). vm_compute in E'. injection E' as <-. by eexists.
Defined.

Lemma wheel_from_hint_agrees_witness :
  wheel_from_hint (H := bit_flags) (bs "Foo_Bar-1.0-py3-none-any.whl") (bs "foo-bar") =
  wheel_from_str (H := bit_flags) (bs "Foo_Bar-1.0-py3-none-any.whl").
Proof. apply wheel_from_hint_agrees. reflexivity. Defined.

Lemma wheel_text_safe_witness :
  exists w, wheel_from_str (H := bit_flags) (bs "foo-1!1.0+abc.1-py3-none-any.whl") = Ret (Ok w) /\
    safe (wheel_stem (H := bit_flags) w).
Proof.
  eexists. split; [vm_compute; reflexivity|].
  refine (proj1 (wheel_text_safe (H := bit_flags) (bs "foo-1!1.0+abc.1-py3-none-any.whl") _ _ _));
    [apply forallb_is_char; reflexivity|vm_compute; reflexivity].
Defined.

Lemma wheel_cache_key_bounded_witness :
  exists w, wheel_from_str (H := bit_flags) (bs "numpy-1.26.2-cp311-cp311-manylinux_2_17_x86_64.manylinux2014_x86_64.musllinux_1_2.whl") = Ret (Ok w) /\
    exists key, wheel_cache_key (H := bit_flags) w = Ret key /\ (length key <= 64)%nat.
Proof.
  eexists. split; [vm_compute; reflexivity|].
  edestruct (proj1 (wheel_cache_key_bounded (H := bit_flags)
    (bs "numpy-1.26.2-cp311-cp311-manylinux_2_17_x86_64.manylinux2014_x86_64.musllinux_1_2.whl") _
    ltac:(apply forallb_is_char; reflexivity) ltac:(vm_compute; reflexivity))) as (key & E & Hl & _).
  by exists key.
Defined.
