(* ===== verification/DistFilename.v ===== *)
(** * Source distributions, eggs and the choice between file kinds

    Models [source_dist.rs], [egg.rs] and [DistFilename] of [lib.rs] in
    [crates/uv-distribution-filename].  [str::get] answers [None] where slicing
    would panic; both are modelled on byte offsets of a list of characters. *)

From Stdlib Require Import ZArith Lia String.
From stdpp Require Import base list gmap.
From S2P Require Import Prelude.
From S2P Require Import VersionRepr.
From S2P Require Import VersionParser.
From S2P Require Import VersionDisplay.
From S2P Require Import CacheKey.
From S2P Require Import Normalize.
From S2P Require Import PythonTags.
From S2P Require Import PlatformTags.
From S2P Require Import Tags.
From S2P Require Import DistExtension.
From S2P Require Import WheelTag.
From S2P Require Import WheelFilename.

Open Scope Z_scope.

(** ** [str::get] *)

(** [s.get(..i)] and [s.get(i..)] *)
Definition get_to (s : list Z) (i : nat) : option (list Z) :=
  match slice_to s i with Ret t => Some t | Panic => None end.
Definition get_from (s : list Z) (i : nat) : option (list Z) :=
  match slice_from s i with Ret t => Some t | Panic => None end.

(** ** source_dist.rs *)

Record SourceDistFilename := mkSource {
  source_name : list Z;
  source_version : Version;
  source_extension : SourceDistExtension;
}.

Inductive SourceDistErrorKind :=
| SdFilename (package_name : list Z)
| SdExtension
| SdVersion (err : ErrorKind)
| SdPackageName (err : list Z)
| SdMinus.

Record SourceDistFilenameError := mkSourceError { sd_filename : list Z; sd_kind : SourceDistErrorKind }.

(** [SourceDistFilename::parse] *)
Definition source_parse (filename : list Z) (extension : SourceDistExtension) (package_name : list Z) :
    outcome (result SourceDistFilename SourceDistFilenameError) :=
  let fail kind := Ret (Err (mkSourceError filename kind)) in
  let ext_len := (str_len (source_extension_name extension) + 1)%nat in
  if Nat.leb (str_len filename) ext_len then fail SdExtension
  else
    match get_to filename (str_len filename - ext_len) with
    | None => fail SdExtension
    | Some stem =>
        let package_name_len := str_len package_name in
        if Nat.leb (str_len stem) (package_name_len + 1) then fail (SdFilename package_name)
        else
          match get_to stem package_name_len,
                match get_from stem package_name_len with Some suffix => strip_prefix [45] suffix | None => None end with
          | Some actual_package_name, Some version =>
              if negb (normalized_package_name_matches actual_package_name package_name) then
                match validate_and_normalize_ref actual_package_name with
                | Err err => fail (SdPackageName err)
                | Ok _ => fail (SdFilename package_name)
                end
              else
                let! r := version_from_str (utf8 version) in
                match r with
                | Err err => fail (SdVersion err)
                | Ok version => Ret (Ok (mkSource package_name version extension))
                end
          | _, _ => fail (SdFilename package_name)
          end
    end.

(** [SourceDistFilename::parsed_normalized_filename] *)
Definition source_parse_normalized (filename : list Z) : outcome (result SourceDistFilename SourceDistFilenameError) :=
  let fail kind := Ret (Err (mkSourceError filename kind)) in
  match source_extension_from_path filename with
  | Err _ => fail SdExtension
  | Ok extension =>
      let ext_len := (str_len (source_extension_name extension) + 1)%nat in
      if Nat.leb (str_len filename) ext_len then fail SdExtension
      else
        let! stem := slice_to filename (str_len filename - ext_len) in
        match rsplit_once 45 stem with
        | None => fail SdMinus
        | Some (package_name, version) =>
            match validate_and_normalize_ref package_name with
            | Err err => fail (SdPackageName err)
            | Ok package_name =>
                let! r := version_from_str (utf8 version) in
                match r with
                | Err err => fail (SdVersion err)
                | Ok version => Ret (Ok (mkSource package_name version extension))
                end
            end
        end
  end.

(** [impl Display for SourceDistFilename] *)
Definition source_display (s : SourceDistFilename) : list Z :=
  as_dist_info_name (source_name s) ++ bs "-" ++ version_display (source_version s) ++ bs "." ++
  source_extension_name (source_extension s).

(** ** egg.rs *)

Record EggInfoFilename := mkEgg { egg_name : list Z; egg_version : option Version }.

Inductive EggInfoFilenameError :=
| EggInvalidExtension (filename : list Z)
| EggMissingPackageName (filename : list Z)
| EggInvalidPackageName (filename err : list Z)
| EggInvalidVersion (filename : list Z) (err : ErrorKind).

(** [EggInfoFilename::parse] *)
Definition egg_parse (stem : list Z) : outcome (result EggInfoFilename EggInfoFilenameError) :=
  let filename := stem ++ bs ".egg-info" in
  match split_on 45 stem with
  | [] => Ret (Err (EggMissingPackageName filename))
  | name :: parts =>
      match validate_and_normalize_ref name with
      | Err e => Ret (Err (EggInvalidPackageName filename e))
      | Ok name =>
          match parts with
          | [] => Ret (Ok (mkEgg name None))
          | s :: _ =>
              let! r := version_from_str (utf8 s) in
              Ret (match r with
                   | Err e => Err (EggInvalidVersion filename e)
                   | Ok version => Ok (mkEgg name (Some version))
                   end)
          end
      end
  end.

(** [impl FromStr for EggInfoFilename] *)
Definition egg_from_str (filename : list Z) : outcome (result EggInfoFilename EggInfoFilenameError) :=
  match strip_suffix (bs ".egg-info") filename with
  | None => Ret (Err (EggInvalidExtension filename))
  | Some stem => egg_parse stem
  end.

(** ** [DistFilename] (lib.rs) *)

Inductive DistFilename := SourceDist (s : SourceDistFilename) | WheelDist (w : WheelFilename).

Inductive DistFilenameError :=
| NoRecognizedExtension (err : ExtensionError)
| InvalidWheel (err : WheelFilenameError)
| InvalidSourceDist (err : SourceDistFilenameError).

(** [DistFilename::name], [version] and [filetype] *)
Definition dist_name (d : DistFilename) : list Z :=
  match d with SourceDist s => source_name s | WheelDist w => wheel_name w end.
Definition dist_version (d : DistFilename) : Version :=
  match d with SourceDist s => source_version s | WheelDist w => wheel_version w end.
Definition dist_filetype (d : DistFilename) : list Z :=
  match d with SourceDist _ => bs "sdist" | WheelDist _ => bs "bdist_wheel" end.

Section dist.
Context `{Flags} `{Memchr} `{MemchrIter}.

(** [impl Display for DistFilename] *)
Definition dist_display (d : DistFilename) : list Z :=
  match d with SourceDist s => source_display s | WheelDist w => wheel_display w end.

(** [DistFilename::try_from_filename_with_reason] *)
Definition try_from_filename_with_reason (filename package_name : list Z) : outcome (result DistFilename DistFilenameError) :=
  match dist_extension_from_path filename with
  | Ok Wheel =>
      let! r := wheel_from_hint filename package_name in
      Ret (match r with Ok w => Ok (WheelDist w) | Err e => Err (InvalidWheel e) end)
  | Ok (Source extension) =>
      let! r := source_parse filename extension package_name in
      Ret (match r with Ok s => Ok (SourceDist s) | Err e => Err (InvalidSourceDist e) end)
  | Err err => Ret (Err (NoRecognizedExtension err))
  end.

(** [DistFilename::try_from_filename] *)
Definition try_from_filename (filename package_name : list Z) : outcome (option DistFilename) :=
  outcome_map (fun r => match r with Ok d => Some d | Err _ => None end) (try_from_filename_with_reason filename package_name).

(** [DistFilename::try_from_normalized_filename] *)
Definition try_from_normalized_filename (filename : list Z) : outcome (option DistFilename) :=
  let! w := wheel_from_str filename in
  match w with
  | Ok w => Ret (Some (WheelDist w))
  | Err _ =>
      let! s := source_parse_normalized filename in
      Ret (match s with Ok s => Some (SourceDist s) | Err _ => None end)
  end.
End dist.

(** ** Source distributions: lemmas *)

Definition source_ok (s : SourceDistFilename) : Prop := normal_name (source_name s) = true /\ parsed (source_version s).

Lemma get_to_piece x post s i : s = x ++ post -> i = str_len x -> get_to s i = Some x.
Proof. intros Es Ei. unfold get_to. by rewrite (slice_to_piece x post). Qed.

Lemma get_from_piece pre x s i : s = pre ++ x -> i = str_len pre -> get_from s i = Some x.
Proof. intros Es Ei. unfold get_from. by rewrite (slice_from_piece pre x). Qed.

Lemma slice_to_Ret s i x : slice_to s i = Ret x -> exists post, s = x ++ post.
Proof.
  unfold slice_to. destruct (str_split_at s i) as [[a b]|] eqn:E; [|done]. cbn. intros [= <-]. exists b.
  by apply str_split_at_Ret in E.
Qed.

Lemma normal_nonempty n : normal_name n = true -> n <> [].
Proof. by intros H ->. Qed.

(** The printed name matches the name it is printed from. *)
Lemma dist_info_matches n : normal_name n = true -> normalized_package_name_matches (as_dist_info_name n) n = true.
Proof.
  intros Hn. unfold normalized_package_name_matches.
  rewrite !utf8_ascii by (first [by apply normal_ascii|by apply atom_ascii, dist_info_atom]).
  apply bytes_eqb_eq. rewrite as_dist_info_name_map, map_map. apply normal_run_chars in Hn.
  induction Hn as [|c n Hc _ IH]; [done|]. cbn [map]. f_equal; [|done]. clear IH.
  unfold swap_dash, match_byte. destruct (Z.eqb_spec c 45); [by subst|].
  unfold is_ascii_lower, is_ascii_digit, is_ascii_upper in *. destruct (Z.leb_spec 65 c), (Z.leb_spec c 90); cbn; try lia.
  all: destruct (Z.eqb_spec c 95), (Z.eqb_spec c 46); cbn; lia.
Qed.

Lemma dist_info_length n : normal_name n = true -> str_len (as_dist_info_name n) = str_len n.
Proof.
  intros Hn. rewrite !str_len_ascii by (first [by apply normal_ascii|by apply atom_ascii, dist_info_atom]).
  by rewrite as_dist_info_name_map, length_map.
Qed.

(** The stem of a printed source distribution. *)
Definition source_stem (s : SourceDistFilename) : list Z :=
  as_dist_info_name (source_name s) ++ 45 :: version_display (source_version s).

Lemma source_display_stem s : source_display s = source_stem s ++ 46 :: source_extension_name (source_extension s).
Proof. unfold source_display, source_stem. change (bs "-") with [45]. change (bs ".") with [46]. by rewrite <- app_assoc. Qed.

Lemma source_stem_safe s : source_ok s -> safe (source_stem s) /\ source_stem s <> [].
Proof.
  intros [Hn Hv]. unfold source_stem. split; [|by destruct (as_dist_info_name (source_name s))]. rewrite Forall_app, Forall_cons. split_and!.
  - by apply atom_safe, dist_info_atom.
  - done.
  - eapply Forall_impl; [apply version_display_chars, Hv|]. intros b. unfold version_byte, safe_byte, is_tag_atom_byte. cbn.
    destruct (is_ascii_alphanumeric b); [done|]. lia.
Qed.

Lemma safe_no_slash l : safe l -> Forall (fun c => c <> 47) l.
Proof. intros H. eapply Forall_impl; [exact H|]. by intros c Hc ->. Qed.

Lemma extension_len e : str_len (source_extension_name e) = length (source_extension_name e).
Proof. by destruct e as [|[]]. Qed.

(** The stem is what is left when the extension and its dot are cut off. *)
Lemma cut_extension s : source_ok s ->
  let ext_len := (str_len (source_extension_name (source_extension s)) + 1)%nat in
  Nat.leb (str_len (source_display s)) ext_len = false /\
  slice_to (source_display s) (str_len (source_display s) - ext_len) = Ret (source_stem s).
Proof.
  intros Hs ext_len. destruct (source_stem_safe s Hs) as [Ha Hne].
  assert (El : str_len (source_display s) = (str_len (source_stem s) + ext_len)%nat).
  { rewrite source_display_stem. unfold ext_len. rewrite str_len_app, str_len_cons_ascii by lia. lia. }
  assert (Hpos : (1 <= str_len (source_stem s))%nat).
  { destruct (source_stem s) as [|c l] eqn:E; [done|]. pose proof (str_len_ge (c :: l)). cbn in *. lia. }
  split; [apply Nat.leb_gt; lia|]. rewrite El.
  apply (slice_to_piece _ (46 :: source_extension_name (source_extension s))); [apply source_display_stem|lia].
Qed.

Lemma source_parse_display s : source_ok s ->
  source_parse (source_display s) (source_extension s) (source_name s) = Ret (Ok s).
Proof.
  intros Hs. assert (Hs' := Hs). destruct Hs' as [Hn Hv]. destruct (cut_extension s Hs) as [El Ec].
  unfold source_parse. cbv zeta. rewrite El. unfold get_to at 1. rewrite Ec.
  destruct (version_text_ok _ Hv) as (Hvd & _ & Ev). pose proof (dist_info_length _ Hn) as Hlen.
  assert (Hvp : (1 <= str_len (version_display (source_version s)))%nat).
  { destruct (version_display (source_version s)) as [|c l] eqn:E.
    - destruct (version_display_head _ (proj1 Hv)) as (? & ? & E' & _). by rewrite E in E'.
    - pose proof (str_len_ge (c :: l)). cbn in *. lia. }
  unfold source_stem at 1. rewrite str_len_app, str_len_cons_ascii, Hlen by lia.
  destruct (Nat.leb_spec (str_len (source_name s) + S (str_len (version_display (source_version s)))) (str_len (source_name s) + 1)); [lia|].
  rewrite (get_to_piece (as_dist_info_name (source_name s)) (45 :: version_display (source_version s))) by done.
  rewrite (get_from_piece (as_dist_info_name (source_name s)) (45 :: version_display (source_version s))) by done.
  cbn [strip_prefix]. rewrite Z.eqb_refl, dist_info_matches by done. cbn [negb]. rewrite Ev. cbn [obind]. by destruct s.
Qed.

Lemma source_normalized_display s : source_ok s -> source_parse_normalized (source_display s) = Ret (Ok s).
Proof.
  intros Hs. assert (Hs' := Hs). destruct Hs' as [Hn Hv]. destruct (cut_extension s Hs) as [El Ec].
  destruct (source_stem_safe s Hs) as [Ha Hne]. unfold source_parse_normalized. rewrite source_display_stem at 1.
  destruct (extension_of_name (source_stem s) (source_extension s) Hne (safe_no_slash _ Ha)) as [-> _].
  cbv zeta. rewrite El, Ec. cbn [obind]. destruct (version_text_ok _ Hv) as (Hvd & _ & Ev).
  unfold source_stem. rewrite rsplit_once_app, validate_dist_info, Ev by done. cbn [obind]. by destruct s.
Qed.

(** Cutting [k] bytes off a text that ends in at least as many ASCII characters. *)
Lemma slice_to_tail stem tail k : Forall (fun c => 0 <= c < 128) tail -> (k <= length tail)%nat ->
  exists t, slice_to (stem ++ tail) (str_len (stem ++ tail) - k) = Ret (stem ++ t).
Proof.
  intros Ha Hk. exists (take (length tail - k) tail).
  assert (E : stem ++ tail = (stem ++ take (length tail - k) tail) ++ drop (length tail - k) tail).
  { by rewrite <- app_assoc, take_drop. }
  apply (slice_to_piece _ (drop (length tail - k) tail)); [done|]. rewrite !str_len_app.
  rewrite (str_len_ascii tail), (str_len_ascii (take _ tail)) by (done || by apply Forall_take). rewrite length_take. lia.
Qed.

Lemma source_normalized_spec filename : Forall is_char filename ->
  exists r, source_parse_normalized filename = Ret r /\ forall s, r = Ok s -> source_ok s.
Proof.
  intros Hc. unfold source_parse_normalized. destruct (source_extension_from_path filename) as [e|] eqn:Ee; [|by eexists].
  destruct (extension_tail filename e Hc Ee) as (stem & tail & -> & Ha & Hl & _). cbv zeta.
  destruct (Nat.leb _ _); [by eexists|]. rewrite extension_len.
  destruct (slice_to_tail stem tail (length (source_extension_name e) + 1) Ha Hl) as [t Et]. rewrite Et. cbn [obind].
  assert (Hct : Forall is_char (stem ++ t)).
  { apply slice_to_Ret in Et as [post E]. rewrite E in Hc. by apply Forall_app in Hc as [? _]. }
  destruct (rsplit_once 45 (stem ++ t)) as [[name version]|] eqn:Er; [|by eexists]. apply rsplit_once_Some in Er as [Er _].
  rewrite Er in Hct. apply Forall_app in Hct as [_ Hcv]. inv Hcv.
  destruct (validate_and_normalize_ref name) as [n|] eqn:En; [|by eexists].
  destruct (version_total version) as [r E]; [done|]. rewrite E. cbn [obind]. destruct r as [v|]; [|by eexists].
  eexists. split; [done|]. intros s [= <-]. split; cbn.
  - by apply validate_ok in En as (_ & _ & _ & ?).
  - by apply (from_str_parsed (utf8 version)); [apply utf8_u8|].
Qed.

Lemma source_parse_spec filename extension package_name : Forall is_char filename -> normal_name package_name = true ->
  exists r, source_parse filename extension package_name = Ret r /\
    forall s, r = Ok s -> source_ok s /\ source_name s = package_name /\ source_extension s = extension /\
      exists actual rest, filename = actual ++ 45 :: rest /\ validate_and_normalize_ref actual = Ok package_name.
Proof.
  intros Hc Hn. unfold source_parse. cbv zeta. destruct (Nat.leb _ _); [by eexists|].
  unfold get_to at 1. destruct (slice_to filename _) as [stem|] eqn:Es; [|by eexists]. apply slice_to_Ret in Es as [post ->].
  apply Forall_app in Hc as [Hc _]. destruct (Nat.leb _ _); [by eexists|]. unfold get_to, get_from, slice_to, slice_from.
  destruct (str_split_at stem (str_len package_name)) as [[a b]|] eqn:Esp; [|by eexists].
  cbn [outcome_map fst snd strip_prefix]. apply str_split_at_Ret in Esp.
  subst stem. destruct b as [|c version]; [by eexists|]. destruct (Z.eqb_spec 45 c) as [<-|]; [|by eexists].
  destruct (normalized_package_name_matches a package_name) eqn:Em; cbn [negb].
  2:{ destruct (validate_and_normalize_ref a); by eexists. }
  apply Forall_app in Hc as [_ Hc]. inv Hc. destruct (version_total version) as [r E]; [done|]. rewrite E. cbn [obind].
  destruct r as [v|]; [|by eexists]. eexists. split; [done|]. intros s [= <-]. cbn. split_and!; try done.
  - split; [done|]. by apply (from_str_parsed (utf8 version)); [apply utf8_u8|].
  - exists a, (version ++ post). rewrite <- app_assoc. split; [done|]. by apply matching_hint.
Qed.

Section dist_names.
Context `{FlagsLaws} `{MemchrLaws} `{MemchrIterLaws}.

Lemma wheel_extension w : wheel_ok w -> dist_extension_from_path (wheel_display w) = Ok Wheel.
Proof.
  intros Hw. unfold dist_extension_from_path. rewrite wheel_display_stem. change (bs ".whl") with (46 :: bs "whl").
  rewrite simple_extension_of; [done| | |by repeat constructor|by repeat constructor|done].
  - unfold wheel_stem. by destruct (as_dist_info_name (wheel_name w)).
  - by apply safe_no_slash, wheel_stem_safe.
Qed.

Definition dist_ok (d : DistFilename) : Prop := match d with SourceDist s => source_ok s | WheelDist w => wheel_ok w end.

Lemma try_from_filename_spec filename package_name : Forall is_char filename -> normal_name package_name = true ->
  exists r, try_from_filename_with_reason filename package_name = Ret r /\ forall d, r = Ok d -> dist_ok d.
Proof.
  intros Hc Hn. unfold try_from_filename_with_reason. destruct (dist_extension_from_path filename) as [[|e]|]; [| |by eexists].
  - rewrite wheel_hint_irrelevant by done. destruct (wheel_from_str_spec filename Hc) as (r & E & _). rewrite E. cbn [obind].
    eexists. split; [done|]. intros d. destruct r as [w|]; [|done]. intros [= <-]. by apply (wheel_from_str_ok filename).
  - destruct (source_parse_spec filename e package_name Hc Hn) as (r & -> & Hr). cbn [obind].
    eexists. split; [done|]. intros d. destruct r as [s|]; [|done]. intros [= <-]. by destruct (Hr s eq_refl).
Qed.

Lemma dist_display_parses d : dist_ok d -> try_from_filename_with_reason (dist_display d) (dist_name d) = Ret (Ok d).
Proof.
  destruct d as [s|w]; cbn [dist_ok dist_display dist_name]; intros Hd; unfold try_from_filename_with_reason.
  - destruct (source_stem_safe s Hd) as [Hs Hne].
    assert (E : dist_extension_from_path (source_display s) = Ok (Source (source_extension s))).
    { rewrite source_display_stem. by apply extension_of_name; [|apply safe_no_slash]. }
    rewrite E. by rewrite source_parse_display.
  - rewrite wheel_extension, wheel_hint_irrelevant, wheel_display_parses by (done || apply Hd). done.
Qed.

(** ** Properties *)

(** Choosing the kind of a file by its extension and parsing it never panics,
    and a distribution that was recognised is recognised again, as the same value,
    when it is printed and looked up under its own name: a round trip over both
    kinds of files. *)
Theorem dist_filename_roundtrip filename package_name : Forall is_char filename -> normal_name package_name = true ->
  exists r, try_from_filename_with_reason filename package_name = Ret r /\
    forall d, r = Ok d -> try_from_filename_with_reason (dist_display d) (dist_name d) = Ret (Ok d).
Proof.
  intros Hc Hn. destruct (try_from_filename_spec filename package_name Hc Hn) as (r & E & Hr). exists r. split; [done|].
  intros d Ed. by apply dist_display_parses, Hr.
Qed.

(** A source distribution recognised without knowing its name is parsed without
    a panic (the slice that removes the extension never splits a character, also
    for paths that end in slashes), and is printed as a file name that both
    parsers read back. *)
Theorem source_dist_roundtrip filename : Forall is_char filename ->
  exists r, source_parse_normalized filename = Ret r /\
    forall s, r = Ok s -> source_parse_normalized (source_display s) = Ret (Ok s) /\
      source_parse (source_display s) (source_extension s) (source_name s) = Ret (Ok s).
Proof.
  intros Hc. destruct (source_normalized_spec filename Hc) as (r & E & Hr). exists r. split; [done|].
  intros s Es. split; [by apply source_normalized_display, Hr|by apply source_parse_display, Hr].
Qed.

(** A source distribution is only accepted for a package when its file name
    starts with a spelling of the package's name followed by a dash, and the name
    and extension asked for are the ones returned. *)
Theorem source_parse_sound filename extension package_name : Forall is_char filename -> normal_name package_name = true ->
  exists r, source_parse filename extension package_name = Ret r /\
    forall s, r = Ok s -> source_name s = package_name /\ source_extension s = extension /\
      exists actual rest, filename = actual ++ 45 :: rest /\ validate_and_normalize_ref actual = Ok package_name.
Proof.
  intros Hc Hn. destruct (source_parse_spec filename extension package_name Hc Hn) as (r & E & Hr). exists r. split; [done|].
  intros s Es. by destruct (Hr s Es) as (_ & ?).
Qed.
End dist_names.

(** An egg of a package with a version is read back from the name that setuptools
    gives it, whatever follows the version. *)
Lemma egg_name_version n v rest : normal_name n = true -> parsed v ->
  egg_from_str (as_dist_info_name n ++ 45 :: version_display v ++ 45 :: rest ++ bs ".egg-info") = Ret (Ok (mkEgg n (Some v))).
Proof.
  intros Hn Hv. destruct (version_text_ok v Hv) as (Hvd & _ & Ev). unfold egg_from_str.
  replace (as_dist_info_name n ++ 45 :: version_display v ++ 45 :: rest ++ bs ".egg-info")
    with ((as_dist_info_name n ++ 45 :: version_display v ++ 45 :: rest) ++ bs ".egg-info")
    by (repeat (rewrite <- app_assoc; cbn [app]); done).
  rewrite strip_suffix_app. unfold egg_parse. rewrite split_on_app by (apply atom_free; [done|by apply dist_info_atom]).
  rewrite validate_dist_info by done. rewrite split_on_app by done. by rewrite Ev.
Qed.

Lemma dist_filename_roundtrip_witness :
  exists d, try_from_filename_with_reason (H := bit_flags) (bs "Foo_Bar-1.0.TAR.gz") (bs "foo-bar") = Ret (Ok d) /\
    try_from_filename_with_reason (H := bit_flags) (dist_display (H := bit_flags) d) (dist_name d) = Ret (Ok d).
Proof.
  destruct (dist_filename_roundtrip (H := bit_flags) (bs "Foo_Bar-1.0.TAR.gz") (bs "foo-bar")) as (r & E & Hr);
    [apply forallb_is_char; reflexivity|reflexivity|].
  assert (E' := E). vm_compute in E'. injection E' as <-. eexists. split; [exact E|]. by apply Hr.
Defined.

Lemma source_dist_roundtrip_witness :
  exists s, source_parse_normalized (bs "a.b-1.0rc1.tar.zst") = Ret (Ok s) /\ source_parse_normalized (source_display s) = Ret (Ok s).
Proof.
  destruct (source_dist_roundtrip (bs "a.b-1.0rc1.tar.zst")) as (r & E & Hr); [apply forallb_is_char; reflexivity|].
  assert (E' := E). vm_compute in E'. injection E' as <-. eexists. split; [exact E|]. exact (proj1 (Hr _ eq_refl)).
Defined.

Lemma source_parse_sound_witness :
  exists r, source_parse (bs "Foo.Bar-2.0.zip") (Legacy Zip) (bs "foo-bar") = Ret r /\
    forall s, r = Ok s -> source_name s = bs "foo-bar".
Proof.
  destruct (source_parse_sound (bs "Foo.Bar-2.0.zip") (Legacy Zip) (bs "foo-bar")) as (r & E & Hr);
    [apply forallb_is_char; reflexivity|reflexivity|].
  exists r. split; [exact E|]. intros s Es. by destruct (Hr s Es).
Defined.
