(* ===== verification/OnceMap.v ===== *)
(** * Run once, share the result: the concurrent [OnceMap]

    Models [crates/uv-once-map/src/lib.rs].  Tasks that need the same result
    register a job under a key; the first one runs it and submits the result with
    [done], the others wait.  The resolver, the workspace cache and the credentials
    cache share their work through it.

    The map is shared by concurrent tasks.  A task is the state of one call
    ([Task]); [task_step] is its next atomic action on the shared state ([Shared]),
    or [None] when it is blocked or has finished.  A schedule is any interleaving
    of such actions and of new calls.  The atomic actions are those of the libraries
    behind the map: operations of [papaya::HashMap] on one key, of
    [tokio::sync::Notify], and of the mutex around a value.  A stored value is a
    cell that readers share: [remove] takes the value out of the cell under a reader
    that has already found it.

    [papaya::HashMap] and [tokio::sync::Notify] are interfaces with the laws their
    documentation states ([PapayaLaws], [NotifyLaws]). *)

From Stdlib Require Import ZArith Lia String.
From stdpp Require Import base list gmap.
From S2P Require Import Prelude.

Open Scope nat_scope.

(** ** [papaya::HashMap] *)

Class Papaya (K : Type) := {
  pmap : Type -> Type;
  pm_empty {V} : pmap V;
  pm_get {V} : pmap V -> K -> option V;
  pm_insert {V} : pmap V -> K -> V -> pmap V;
  pm_remove {V} : pmap V -> K -> pmap V;
}.

Class PapayaLaws (K : Type) `{Papaya K} : Prop := {
  pm_get_empty {V} k : pm_get (@pm_empty K _ V) k = None;
  pm_get_insert {V} (m : pmap V) k v : pm_get (pm_insert m k v) k = Some v;
  pm_get_insert_ne {V} (m : pmap V) k k' v : k <> k' -> pm_get (pm_insert m k v) k' = pm_get m k';
  pm_get_remove {V} (m : pmap V) k : pm_get (pm_remove m k) k = None;
  pm_get_remove_ne {V} (m : pmap V) k k' : k <> k' -> pm_get (pm_remove m k) k' = pm_get m k';
}.

#[export] Instance gmap_papaya `{Countable K} : Papaya K := {
  pmap := gmap K;
  pm_empty V := ∅;
  pm_get V m k := m !! k;
  pm_insert V m k v := <[k := v]> m;
  pm_remove V m k := delete k m;
}.

#[export] Instance gmap_papaya_laws `{Countable K} : PapayaLaws K.
Proof.
  split; intros; cbn.
  - apply lookup_empty.
  - apply lookup_insert_eq.
  - by apply lookup_insert_ne.
  - apply lookup_delete_eq.
  - by apply lookup_delete_ne.
Qed.

(** ** [tokio::sync::Notify]

    [notified] creates a future; [notify_waiters] wakes every future created
    before it, polled or not.  [issued t n] says that the future [t] was created
    from an earlier state of the [Notify] that is now [n]. *)

Class Notify := {
  notify : Type;
  ticket : Type;
  notify_new : notify;
  notified : notify -> ticket;
  notify_waiters : notify -> notify;
  ready : ticket -> notify -> bool;
  issued : ticket -> notify -> Prop;
}.

Class NotifyLaws `{Notify} : Prop := {
  issued_notified n : issued (notified n) n;
  issued_notify t n : issued t n -> issued t (notify_waiters n);
  notify_wakes t n : issued t n -> ready t (notify_waiters n) = true;
  not_ready n : ready (notified n) n = false;
}.

(** The number of calls of [notify_waiters], as the library counts them. *)
#[export] Instance counting_notify : Notify := {
  notify := nat;
  ticket := nat;
  notify_new := 0;
  notified n := n;
  notify_waiters n := S n;
  ready t n := Nat.ltb t n;
  issued t n := t <= n;
}.

#[export] Instance counting_notify_laws : NotifyLaws.
Proof.
  split; unfold issued, ready, notified, notify_waiters, counting_notify; intros; [lia|lia|apply Nat.ltb_lt; lia|apply Nat.ltb_irrefl].
Qed.

Section once_map.
Context {K V : Type} `{EqDecision K} `{Papaya K} `{Notify}.

(** ** State *)

(** [Value]: the identity of an [Arc<Notify>], or of the cell
    [Mutex<Option<V>>]. *)
Inductive Value := Waiting (notify_id : nat) | Filled (cell : nat).

Record Shared := mkShared {
  items : pmap Value;
  notifies : list notify;
  cells : list (option V);
}.

(** The calls. *)
Inductive Call :=
| Register (key : K)
| RegisterOrWait (key : K)
| Done (key : K) (value : V)
| Get (key : K)
| Remove (key : K).

(** What a call returns: [bool] for [register], an [Option] for the others. *)
Inductive Answer := Registered (b : bool) | Answered (o : option V) | Submitted.

(** Where a call is: about to start, between two atomic actions, finished or
    panicked. *)
Inductive Pc :=
| Start
| GotNotify (notify_id : nat)
| Enlisted (notify_id : nat) (t : ticket)
| Rechecked (notify_id : nat) (t : ticket) (cell : nat)
| Sleeping (notify_id : nat) (t : ticket)
| Awake
| Reading (cell : nat)
| Notifying (notify_id : nat)
| Taking (cell : nat)
| Finished (a : Answer)
| Panicked.

Record Task := mkTask { task_call : Call; task_pc : Pc }.

(** [Default::default] *)
Definition once_new : Shared := mkShared pm_empty [] [].

(** [FromIterator::from_iter] *)
Definition once_from_iter (entries : list (K * V)) : Shared :=
  fold_left (fun s e => mkShared (pm_insert (items s) e.1 (Filled (length (cells s)))) (notifies s) (cells s ++ [Some e.2]))
    entries once_new.

(** [Arc::new(Notify::new())] under a key that is not in the map. *)
Definition insert_waiting (s : Shared) (key : K) : Shared :=
  mkShared (pm_insert (items s) key (Waiting (length (notifies s)))) (notifies s ++ [notify_new]) (cells s).

(** [register]: [try_insert(..).is_ok()] *)
Definition register_step (s : Shared) (key : K) (pc : Pc) : option (Shared * Pc) :=
  match pc with
  | Start =>
      match pm_get (items s) key with
      | Some _ => Some (s, Finished (Registered false))
      | None => Some (insert_waiting s key, Finished (Registered true))
      end
  | _ => None
  end.

(** [Value::get] on a cell: the lock and the clone. *)
Definition read_cell (s : Shared) (cell : nat) : option V := mjoin (cells s !! cell).

(** [register_or_wait] *)
Definition register_or_wait_step (s : Shared) (key : K) (pc : Pc) : option (Shared * Pc) :=
  match pc with
  | Start =>
      match pm_get (items s) key with
      | None => Some (insert_waiting s key, Finished (Answered None))
      | Some (Filled cell) => Some (s, Reading cell)
      | Some (Waiting n) => Some (s, GotNotify n)
      end
  | GotNotify n =>
      match notifies s !! n with
      | Some state => Some (s, Enlisted n (notified state))
      | None => None
      end
  | Enlisted n t =>
      match pm_get (items s) key with
      | None => Some (s, Panicked)
      | Some (Filled cell) => Some (s, Rechecked n t cell)
      | Some (Waiting _) => Some (s, Sleeping n t)
      end
  | Rechecked n t cell =>
      match read_cell s cell with
      | Some value => Some (s, Finished (Answered (Some value)))
      | None => Some (s, Sleeping n t)
      end
  | Sleeping n t =>
      match notifies s !! n with
      | Some state => if ready t state then Some (s, Awake) else None
      | None => None
      end
  | Awake =>
      match pm_get (items s) key with
      | None | Some (Waiting _) => Some (s, Panicked)
      | Some (Filled cell) => Some (s, Reading cell)
      end
  | Reading cell => Some (s, Finished (Answered (read_cell s cell)))
  | _ => None
  end.

(** [done] *)
Definition done_step (s : Shared) (key : K) (value : V) (pc : Pc) : option (Shared * Pc) :=
  match pc with
  | Start =>
      let s' := mkShared (pm_insert (items s) key (Filled (length (cells s)))) (notifies s) (cells s ++ [Some value]) in
      match pm_get (items s) key with
      | Some (Waiting n) => Some (s', Notifying n)
      | _ => Some (s', Finished Submitted)
      end
  | Notifying n =>
      Some (mkShared (items s) (alter notify_waiters n (notifies s)) (cells s), Finished Submitted)
  | _ => None
  end.

(** [get] *)
Definition get_step (s : Shared) (key : K) (pc : Pc) : option (Shared * Pc) :=
  match pc with
  | Start =>
      match pm_get (items s) key with
      | Some (Filled cell) => Some (s, Reading cell)
      | _ => Some (s, Finished (Answered None))
      end
  | Reading cell => Some (s, Finished (Answered (read_cell s cell)))
  | _ => None
  end.

(** [remove]: the entry leaves the map, then the value leaves the cell. *)
Definition remove_step (s : Shared) (key : K) (pc : Pc) : option (Shared * Pc) :=
  match pc with
  | Start =>
      let s' := mkShared (pm_remove (items s) key) (notifies s) (cells s) in
      match pm_get (items s) key with
      | None => Some (s', Finished (Answered None))
      | Some (Waiting _) => Some (s', Finished (Answered None))
      | Some (Filled cell) => Some (s', Taking cell)
      end
  | Taking cell =>
      Some (mkShared (items s) (notifies s) (<[cell := None]> (cells s)), Finished (Answered (read_cell s cell)))
  | _ => None
  end.

Definition task_step (s : Shared) (t : Task) : option (Shared * Task) :=
  let next := match task_call t with
              | Register key => register_step s key (task_pc t)
              | RegisterOrWait key => register_or_wait_step s key (task_pc t)
              | Done key value => done_step s key value (task_pc t)
              | Get key => get_step s key (task_pc t)
              | Remove key => remove_step s key (task_pc t)
              end in
  match next with
  | Some (s', pc) => Some (s', mkTask (task_call t) pc)
  | None => None
  end.

(** [wait] and [wait_blocking]: [register_or_wait(..).ok_or_else(..)] on the
    answer. *)
Definition wait_result (key : K) (a : option V) : result V K :=
  match a with Some v => Ok v | None => Err key end.

(** ** Schedules *)

(** A scheduler runs a task (which does nothing when the task is blocked or
    finished), or starts a new call. *)
Inductive Action := Run (i : nat) | Spawn (c : Call).

Record System := mkSystem { shared : Shared; tasks : list Task }.

Definition act (s : System) (a : Action) : System :=
  match a with
  | Spawn c => mkSystem (shared s) (tasks s ++ [mkTask c Start])
  | Run i =>
      match tasks s !! i with
      | None => s
      | Some t =>
          match task_step (shared s) t with
          | None => s
          | Some (sh, t') => mkSystem sh (<[i := t']> (tasks s))
          end
      end
  end.

Definition run (s : System) (schedule : list Action) : System := fold_left act schedule s.

Definition call_key (c : Call) : K :=
  match c with Register k | RegisterOrWait k | Get k | Remove k => k | Done k _ => k end.

(** ** What holds as long as nothing is removed

    The initial entries are those of [from_iter]. *)

Context (entries : list (K * V)).

Definition append_only (schedule : list Action) : Prop :=
  Forall (fun a => match a with Spawn (Remove _) => False | _ => True end) schedule.

Definition reachable (s : System) : Prop :=
  exists schedule, append_only schedule /\ s = run (mkSystem (once_from_iter entries) []) schedule.

(** A result was submitted for a key. *)
Definition submitted (s : System) (k : K) (v : V) : Prop :=
  (k, v) ∈ entries \/ exists j t, tasks s !! j = Some t /\ task_call t = Done k v /\ task_pc t <> Start.

(** A cell holds a result of a key. *)
Definition cell_ok (s : System) (k : K) (c : nat) : Prop :=
  exists v, cells (shared s) !! c = Some (Some v) /\ submitted s k v.

Definition filled (s : System) (k : K) : Prop := exists c, pm_get (items (shared s)) k = Some (Filled c).

(** A waiter's [Notify] is the one in the map, until the result is there. *)
Definition at_notify (s : System) (k : K) (n : nat) : Prop :=
  n < length (notifies (shared s)) /\ (pm_get (items (shared s)) k = Some (Waiting n) \/ filled s k).

(** A waiter's future was issued by its [Notify], and is only woken when the
    result is there. *)
Definition ticket_ok (s : System) (k : K) (n : nat) (t : ticket) : Prop :=
  exists st, notifies (shared s) !! n = Some st /\ issued t st /\ (ready t st = true -> filled s k).

Definition task_ok (s : System) (t : Task) : Prop :=
  match task_call t, task_pc t with
  | Register _, Start | Register _, Finished (Registered _) => True
  | RegisterOrWait _, Start => True
  | RegisterOrWait k, GotNotify n => at_notify s k n
  | RegisterOrWait k, Enlisted n t | RegisterOrWait k, Sleeping n t => at_notify s k n /\ ticket_ok s k n t
  | RegisterOrWait k, Rechecked n t c => at_notify s k n /\ ticket_ok s k n t /\ cell_ok s k c
  | RegisterOrWait k, Awake => filled s k
  | RegisterOrWait k, Reading c | Get k, Reading c => cell_ok s k c
  | RegisterOrWait k, Finished (Answered (Some v)) | Get k, Finished (Answered (Some v)) => submitted s k v
  | RegisterOrWait _, Finished (Answered None) | Get _, Finished (Answered None) => True
  | Done _ _, Start => True
  | Done k _, Finished Submitted => filled s k
  | Done k _, Notifying n => filled s k /\ n < length (notifies (shared s))
  | Get _, Start => True
  | _, _ => False
  end.

Definition pc_notify (pc : Pc) : option nat :=
  match pc with
  | GotNotify n | Enlisted n _ | Rechecked n _ _ | Sleeping n _ | Notifying n => Some n
  | _ => None
  end.

(** Who knows a [Notify]: the entry of a key, or a task for that key. *)
Definition held (s : System) (n : nat) (k : K) : Prop :=
  pm_get (items (shared s)) k = Some (Waiting n) \/
  exists i t, tasks s !! i = Some t /\ pc_notify (task_pc t) = Some n /\ call_key (task_call t) = k.

(** The task was told to run the job. *)
Definition won (t : Task) : Prop :=
  match task_call t, task_pc t with
  | Register _, Finished (Registered true) => True
  | RegisterOrWait _, Finished (Answered None) => True
  | _, _ => False
  end.

Definition notifying (s : System) (n : nat) : Prop :=
  exists j t, tasks s !! j = Some t /\ task_pc t = Notifying n.

Record Inv (s : System) : Prop := {
  inv_waiting : forall k n, pm_get (items (shared s)) k = Some (Waiting n) -> n < length (notifies (shared s));
  inv_filled : forall k c, pm_get (items (shared s)) k = Some (Filled c) -> cell_ok s k c;
  inv_task : forall i t, tasks s !! i = Some t -> task_ok s t;
  inv_held : forall n k k', held s n k -> held s n k' -> k = k';
  inv_sleep : forall i t n x, tasks s !! i = Some t -> task_pc t = Sleeping n x -> filled s (call_key (task_call t)) ->
    (exists st, notifies (shared s) !! n = Some st /\ ready x st = true) \/ notifying s n;
  inv_won : forall i t, tasks s !! i = Some t -> won t -> is_Some (pm_get (items (shared s)) (call_key (task_call t)));
  inv_once : forall i j t u, tasks s !! i = Some t -> tasks s !! j = Some u -> won t -> won u ->
    call_key (task_call t) = call_key (task_call u) -> i = j;
}.

(** ** The invariant holds *)

Context `{!PapayaLaws K} `{!NotifyLaws}.

(** What a step keeps of what the tasks know. *)
Record grows (s s' : System) : Prop := {
  g_submitted : forall k v, submitted s k v -> submitted s' k v;
  g_cells : forall c v, cells (shared s) !! c = Some (Some v) -> cells (shared s') !! c = Some (Some v);
  g_filled : forall k, filled s k -> filled s' k;
  g_waiting : forall k n, pm_get (items (shared s)) k = Some (Waiting n) ->
    pm_get (items (shared s')) k = Some (Waiting n) \/ filled s' k;
  g_notifies : length (notifies (shared s)) <= length (notifies (shared s'));
  g_ticket : forall k n t, held s n k -> ticket_ok s k n t -> ticket_ok s' k n t;
}.

Lemma cell_ok_grows s s' k c : grows s s' -> cell_ok s k c -> cell_ok s' k c.
Proof. intros G (v & Ec & Hs). exists v. split; [by apply G|by apply G]. Qed.

Lemma at_notify_grows s s' k n : grows s s' -> at_notify s k n -> at_notify s' k n.
Proof.
  intros G [Hn Hk]. split; [pose proof (g_notifies _ _ G); lia|]. destruct Hk as [Hk|Hk]; [by apply G|right; by apply G].
Qed.

Lemma task_ok_grows s s' i t : grows s s' -> tasks s !! i = Some t -> task_ok s t -> task_ok s' t.
Proof.
  intros G Hi. assert (Hh : forall n, pc_notify (task_pc t) = Some n -> held s n (call_key (task_call t))).
  { intros n Hn. right. by exists i, t. }
  destruct t as [c pc]. cbn [task_call task_pc] in Hh. unfold task_ok. cbn [task_call task_pc].
  destruct c as [k|k|k v|k|k], pc as [|n|n x|n x c|n x| |c|n|c|[]|]; cbn [call_key pc_notify] in Hh; try done.
  - by apply at_notify_grows.
  - intros [Ha Ht]. split; [by eapply at_notify_grows|]. by apply (g_ticket _ _ G); [apply Hh|].
  - intros (Ha & Ht & Hc). split_and!; [by eapply at_notify_grows| |by eapply cell_ok_grows]. by apply (g_ticket _ _ G); [apply Hh|].
  - intros [Ha Ht]. split; [by eapply at_notify_grows|]. by apply (g_ticket _ _ G); [apply Hh|].
  - apply G.
  - by apply cell_ok_grows.
  - destruct o; [apply G|done].
  - intros [Hf Hn]. split; [by apply G|]. pose proof (g_notifies _ _ G). lia.
  - apply G.
  - by apply cell_ok_grows.
  - destruct o; [apply G|done].
Qed.

(** One task takes a step. *)
Definition update (s : System) (i : nat) (sh : Shared) (t : Task) : System := mkSystem sh (<[i := t]> (tasks s)).

Lemma update_lookup s i sh t j u : tasks s !! i <> None -> tasks (update s i sh t) !! j = Some u ->
  (j = i /\ u = t) \/ (j <> i /\ tasks s !! j = Some u).
Proof.
  intros Hi. unfold update. cbn [tasks]. rewrite list_lookup_insert_Some. intros [(-> & <- & _)|[Hne Hj]]; [by left|].
  right. by split.
Qed.

Lemma update_self s i sh t u : tasks s !! i = Some u -> tasks (update s i sh t) !! i = Some t.
Proof. intros Hi. unfold update. cbn [tasks]. apply list_lookup_insert_eq. by apply lookup_lt_Some in Hi. Qed.

Lemma update_other s i sh t j u : tasks s !! j = Some u -> j <> i -> tasks (update s i sh t) !! j = Some u.
Proof. intros Hj Hne. unfold update. cbn [tasks]. by rewrite list_lookup_insert_ne. Qed.

Lemma submitted_update s i sh t u k v : tasks s !! i = Some u -> task_call t = task_call u -> task_pc t <> Start ->
  submitted s k v -> submitted (update s i sh t) k v.
Proof.
  intros Hi Hc Hp [He|(j & w & Hj & Hw & Hs)]; [by left|]. right. destruct (decide (j = i)) as [-> | Hne].
  - exists i, t. rewrite Hi in Hj. injection Hj as ->. split; [by eapply update_self|]. by rewrite Hc.
  - exists j, w. by split; [apply update_other|].
Qed.

(** The conditions under which a step of a task keeps the invariant. *)
Record good_step (s : System) (i : nat) (u : Task) (s' : System) (t : Task) : Prop := {
  gs_grows : grows s s';
  gs_waiting : forall k n, pm_get (items (shared s')) k = Some (Waiting n) ->
    pm_get (items (shared s)) k = Some (Waiting n) \/ (n = length (notifies (shared s)) /\ k = call_key (task_call u));
  gs_fresh : forall k, pm_get (items (shared s')) k = Some (Waiting (length (notifies (shared s)))) ->
    length (notifies (shared s)) < length (notifies (shared s'));
  gs_filled : forall k c, pm_get (items (shared s')) k = Some (Filled c) -> cell_ok s' k c;
  gs_some : forall k, is_Some (pm_get (items (shared s)) k) -> is_Some (pm_get (items (shared s')) k);
  gs_task : task_ok s' t;
  gs_holds : forall n, pc_notify (task_pc t) = Some n -> held s n (call_key (task_call u));
  gs_wake : forall j w n x, j <> i -> tasks s !! j = Some w -> task_pc w = Sleeping n x -> filled s' (call_key (task_call w)) ->
    (exists st, notifies (shared s') !! n = Some st /\ ready x st = true) \/ notifying s' n;
  gs_sleep : forall n x, task_pc t = Sleeping n x -> ~ filled s' (call_key (task_call u));
  gs_won : won t -> pm_get (items (shared s)) (call_key (task_call u)) = None /\
    is_Some (pm_get (items (shared s')) (call_key (task_call u)));
}.

Lemma held_bound s n k : Inv s -> held s n k -> n < length (notifies (shared s)).
Proof.
  intros I [Hk|(i & t & Hi & Hn & _)]; [by eapply inv_waiting|]. apply (inv_task _ I) in Hi. destruct t as [c pc].
  unfold task_ok in Hi. cbn [task_call task_pc] in *. destruct pc; try done; injection Hn as ->; destruct c; try done; cbn in Hi;
    try apply Hi; by destruct Hi as [[? _] _].
Qed.

Lemma step_keeps_inv s i u sh t : Inv s -> tasks s !! i = Some u -> task_call t = task_call u ->
  good_step s i u (update s i sh t) t -> Inv (update s i sh t).
Proof.
  intros I Hi Hc G. assert (Hne : tasks s !! i <> None) by (by rewrite Hi).
  assert (Hheld : forall n k, held (update s i sh t) n k -> held s n k \/ (n = length (notifies (shared s)) /\ k = call_key (task_call u))).
  { intros n k [Hk|(j & w & Hj & Hn & Hk)].
    - apply (gs_waiting _ _ _ _ _ G) in Hk as [Hk|Hk]; [left; by left|by right].
    - left. apply update_lookup in Hj as [[-> ->]|[Hj1 Hj2]]; [|right; by exists j, w|done].
      rewrite <- Hk, Hc. by apply (gs_holds _ _ _ _ _ G). }
  split.
  - intros k n Hk. destruct (gs_waiting _ _ _ _ _ G k n Hk) as [Hk'|[-> _]]; [|by eapply gs_fresh].
    pose proof (inv_waiting _ I _ _ Hk'). pose proof (g_notifies _ _ (gs_grows _ _ _ _ _ G)). lia.
  - apply G.
  - intros j w Hj. apply update_lookup in Hj as [[-> ->]|[Hj1 Hj2]]; [by apply G| |done].
    eapply task_ok_grows; [apply G|done|by apply (inv_task _ I j)].
  - intros n k k' [Ha|[-> ->]]%Hheld [Hb|[E ->]]%Hheld; [by apply (inv_held _ I n)| | |done].
    + subst n. apply (held_bound _ _ _ I) in Ha. lia.
    + apply (held_bound _ _ _ I) in Hb. lia.
  - intros j w n x Hj Hp Hf. apply update_lookup in Hj as [[-> ->]|[Hj1 Hj2]]; [| |done].
    + rewrite Hc in Hf. by destruct (gs_sleep _ _ _ _ _ G n x Hp).
    + by apply (gs_wake _ _ _ _ _ G j w).
  - intros j w Hj Hw. apply update_lookup in Hj as [[-> ->]|[Hj1 Hj2]]; [| |done].
    + rewrite Hc. apply (gs_won _ _ _ _ _ G Hw).
    + apply (gs_some _ _ _ _ _ G). by apply (inv_won _ I j).
  - intros j j' w w' Hj Hj' Hw Hw' Hk. apply update_lookup in Hj as [[-> ->]|[Hj1 Hj2]]; [| |done];
      apply update_lookup in Hj' as [[-> ->]|[Hj1' Hj2']]; try done.
    + apply (inv_won _ I) in Hj2'; [|done]. rewrite <- Hk, Hc in Hj2'. destruct (gs_won _ _ _ _ _ G Hw) as [E _].
      rewrite E in Hj2'. by destruct Hj2'.
    + apply (inv_won _ I) in Hj2; [|done]. rewrite Hk, Hc in Hj2. destruct (gs_won _ _ _ _ _ G Hw') as [E _].
      rewrite E in Hj2. by destruct Hj2.
    + by apply (inv_once _ I j j' w w').
Qed.

(** *** Steps that only move the task *)

Lemma quiet_grows s i u t : tasks s !! i = Some u -> task_call t = task_call u -> task_pc t <> Start ->
  grows s (update s i (shared s) t).
Proof.
  intros Hi Hc Hp. split; try done; [|by intros k n Hk; left].
  intros k v. by apply (submitted_update _ _ _ _ u).
Qed.

Lemma quiet_step s i u t : Inv s -> tasks s !! i = Some u -> task_call t = task_call u -> task_pc t <> Start ->
  task_ok s t -> (forall n, pc_notify (task_pc t) = Some n -> held s n (call_key (task_call u))) ->
  (forall n, task_pc u <> Notifying n) -> (forall n x, task_pc t = Sleeping n x -> ~ filled s (call_key (task_call u))) -> ~ won t ->
  Inv (update s i (shared s) t).
Proof.
  intros I Hi Hc Hp Ht Hh Hn Hs Hw. pose proof (quiet_grows s i u t Hi Hc Hp) as G.
  apply (step_keeps_inv s i u); [done..|]. split; try done.
  - by intros k n Hk; left.
  - intros k Hk. apply (inv_waiting _ I) in Hk. lia.
  - intros k c Hk. apply (cell_ok_grows s); [done|]. by apply (inv_filled _ I).
  - destruct t as [c pc]. revert Ht. unfold task_ok. cbn [task_call task_pc].
    destruct c as [k|k|k v|k|k], pc as [|n|n x|n x c|n x| |c|n|c|[]|]; try done.
    + intros (Ha & Hx & Hcl). split_and!; [done..|]. by apply (cell_ok_grows s).
    + by apply cell_ok_grows.
    + destruct o; [apply G|done].
    + by apply cell_ok_grows.
    + destruct o; [apply G|done].
  - intros j w n x Hj Hw' Hp' Hf. destruct (inv_sleep _ I j w n x Hw' Hp' Hf) as [Hr|(p & v & Hv & Hpv)]; [by left|]. right.
    exists p, v. split; [|done]. apply update_other; [done|]. intros ->. rewrite Hi in Hv. injection Hv as ->. by apply (Hn n).
Qed.

(** *** A key is registered *)

Lemma insert_waiting_step s i u t : Inv s -> tasks s !! i = Some u -> task_call t = task_call u ->
  pm_get (items (shared s)) (call_key (task_call u)) = None -> task_pc t <> Start -> pc_notify (task_pc t) = None ->
  (forall n, task_pc u <> Notifying n) -> (forall s', task_ok s' t) ->
  Inv (update s i (insert_waiting (shared s) (call_key (task_call u))) t).
Proof.
  intros I Hi Hc Hk Hp Hn Hu Ht. set (key := call_key (task_call u)) in *. set (s' := update _ _ _ _).
  assert (E : forall k, pm_get (items (shared s')) k =
    if decide (k = key) then Some (Waiting (length (notifies (shared s)))) else pm_get (items (shared s)) k).
  { intros k. cbn. destruct (decide (k = key)) as [-> | Hne]; [apply pm_get_insert|by apply pm_get_insert_ne]. }
  assert (Ef : forall k, filled s k -> filled s' k).
  { intros k [c Hc']. exists c. rewrite E. destruct (decide (k = key)) as [-> | Hne]; [congruence|done]. }
  assert (Ef' : forall k, filled s' k -> filled s k).
  { intros k [c Hc']. rewrite E in Hc'. destruct (decide (k = key)); [done|by exists c]. }
  assert (Hlt : length (notifies (shared s')) = S (length (notifies (shared s)))).
  { cbn. rewrite length_app. cbn. lia. }
  assert (Hnl : forall n st, notifies (shared s) !! n = Some st -> notifies (shared s') !! n = Some st).
  { intros n st Hst. cbn. by apply lookup_app_l_Some. }
  assert (G : grows s s').
  { split; try done.
    - intros k v. by apply (submitted_update _ _ _ _ u).
    - intros k n Hw. left. rewrite E. destruct (decide (k = key)) as [-> | Hne]; [congruence|done].
    - lia.
    - intros k n x _ (st & Hst & Hx & Hr). exists st. split; [by apply Hnl|]. split; [done|]. auto. }
  apply (step_keeps_inv s i u); [done..|]. fold s'. split; try done.
  - intros k n. rewrite E. destruct (decide (k = key)) as [-> | Hne]; [|by left]. intros [= <-]. by right.
  - lia.
  - intros k c. rewrite E. destruct (decide (k = key)); [done|]. intros Hf. apply (cell_ok_grows s); [done|by apply (inv_filled _ I)].
  - intros k Hs. rewrite E. by destruct (decide (k = key)).
  - by rewrite Hn.
  - intros j w n x Hj Hw Hpw Hf. apply Ef' in Hf.
    destruct (inv_sleep _ I j w n x Hw Hpw Hf) as [(st & Hst & Hr)|(p & v & Hv & Hpv)].
    + left. exists st. split; [by apply Hnl|done].
    + right. exists p, v. split; [|done]. apply update_other; [done|]. intros ->. rewrite Hi in Hv. injection Hv as ->. by apply (Hu n).
  - intros n x Hx. by rewrite Hx in Hn.
  - intros _. fold key. split; [done|]. rewrite E. by destruct (decide (key = key)).
Qed.

(** *** A result is submitted *)

Lemma done_insert_step s i k v t : Inv s -> tasks s !! i = Some (mkTask (Done k v) Start) ->
  let sh := mkShared (pm_insert (items (shared s)) k (Filled (length (cells (shared s))))) (notifies (shared s))
              (cells (shared s) ++ [Some v]) in
  t = mkTask (Done k v) (match pm_get (items (shared s)) k with Some (Waiting n) => Notifying n | _ => Finished Submitted end) ->
  Inv (update s i sh t).
Proof.
  intros I Hi sh Et. set (s' := update _ _ _ _).
  assert (Hpc : task_pc t <> Start).
  { subst t. cbn. by destruct (pm_get (items (shared s)) k) as [[]|]. }
  assert (E : forall k', pm_get (items (shared s')) k' =
    if decide (k' = k) then Some (Filled (length (cells (shared s)))) else pm_get (items (shared s)) k').
  { intros k'. cbn. destruct (decide (k' = k)) as [-> | Hne]; [apply pm_get_insert|by apply pm_get_insert_ne]. }
  assert (Hk : filled s' k) by (eexists; rewrite E; by destruct (decide (k = k))).
  assert (Ef : forall k', filled s k' -> filled s' k').
  { intros k' [c Hc]. destruct (decide (k' = k)) as [-> | Hne]; [done|]. exists c. rewrite E. by destruct (decide (k' = k)). }
  assert (Hself : tasks s' !! i = Some t) by (by eapply update_self).
  assert (Hcall : task_call t = Done k v) by (by subst t).
  assert (G : grows s s').
  { split; try done.
    - intros k' v'. by apply (submitted_update _ _ _ _ (mkTask (Done k v) Start)).
    - intros c v' Hc. cbn. by apply lookup_app_l_Some.
    - intros k' n Hw. rewrite E. destruct (decide (k' = k)) as [-> | Hne]; [by right|by left].
    - intros k' n x _ (st & Hst & Hx & Hr). exists st. split; [done|]. split; [done|]. auto. }
  apply (step_keeps_inv s i (mkTask (Done k v) Start)); [done..|]. fold s'. split; try done; cbn [task_call call_key].
  - intros k' n. rewrite E. destruct (decide (k' = k)); [done|by left].
  - intros k' Hw. exfalso. rewrite E in Hw. destruct (decide (k' = k)); [done|]. apply (inv_waiting _ I) in Hw. lia.
  - intros k' c. rewrite E. destruct (decide (k' = k)) as [-> | Hne].
    + intros [= <-]. exists v. split; [cbn; by rewrite lookup_app_r, Nat.sub_diag by lia|].
      right. exists i, t. by rewrite Hcall.
    + intros Hf. apply (cell_ok_grows s); [done|by apply (inv_filled _ I)].
  - intros k' Hs. rewrite E. by destruct (decide (k' = k)).
  - subst t. cbn. destruct (pm_get (items (shared s)) k) as [[n|c]|] eqn:Ek; [|done..]. cbn. split; [done|]. by apply (inv_waiting _ I) in Ek.
  - intros n. subst t. cbn. destruct (pm_get (items (shared s)) k) as [[m|c]|] eqn:Ek; [|done..]. intros [= <-]. by left.
  - intros j w n x Hj Hw Hpw Hf. pose proof (inv_task _ I _ _ Hw) as Hok. unfold task_ok in Hok. rewrite Hpw in Hok.
    destruct w as [cw pw]. cbn [task_call task_pc] in *. subst pw. destruct cw as [kw|kw|kw vw|kw|kw]; try done. cbn [call_key] in *.
    destruct Hok as [[_ [Hwait|Hfull]] _].
    + assert (kw = k) as ->.
      { destruct (decide (kw = k)); [done|]. destruct Hf as [c Hf]. rewrite E in Hf. destruct (decide (kw = k)); [done|]. congruence. }
      right. exists i, t. split; [done|]. subst t. cbn. by rewrite Hwait.
    + destruct (inv_sleep _ I j _ n x Hw eq_refl Hfull) as [Hr|(p & v' & Hv & Hpv)]; [by left|]. right.
      exists p, v'. split; [|done]. apply update_other; [done|]. intros ->. rewrite Hi in Hv. by injection Hv as <-.
  - intros n x. subst t. cbn. by destruct (pm_get (items (shared s)) k) as [[]|].
  - subst t. unfold won. cbn. done.
Qed.

(** *** The waiters are notified *)

Lemma notify_step s i k v n : Inv s -> tasks s !! i = Some (mkTask (Done k v) (Notifying n)) ->
  Inv (update s i (mkShared (items (shared s)) (alter notify_waiters n (notifies (shared s))) (cells (shared s)))
         (mkTask (Done k v) (Finished Submitted))).
Proof.
  intros I Hi. set (u := mkTask (Done k v) (Notifying n)) in Hi. set (t := mkTask _ (Finished _)). set (s' := update _ _ _ _).
  pose proof (inv_task _ I i u Hi) as [Hfull Hlt].
  assert (Hheld : held s n k) by (right; by exists i, u).
  assert (Hat : forall m st, notifies (shared s) !! m = Some st ->
    notifies (shared s') !! m = Some (if decide (m = n) then notify_waiters st else st)).
  { intros m st Hst. cbn. destruct (decide (m = n)) as [-> | Hne]; [by rewrite list_lookup_alter_eq, Hst|].
    by rewrite list_lookup_alter_ne by congruence. }
  assert (G : grows s s').
  { split; try done.
    - intros k' v'. by apply (submitted_update _ _ _ _ u).
    - by intros k' m Hw; left.
    - cbn. by rewrite length_alter.
    - intros k' m x Hh (st & Hst & Hx & Hr). exists (if decide (m = n) then notify_waiters st else st).
      split; [by apply Hat|]. destruct (decide (m = n)) as [-> | Hne]; [|done].
      split; [by apply issued_notify|]. intros _. by rewrite (inv_held _ I n k' k Hh Hheld). }
  apply (step_keeps_inv s i u); [done..|]. fold s'. split; try done.
  - by intros k' m Hw; left.
  - intros k' Hw. apply (inv_waiting _ I) in Hw. lia.
  - intros k' c Hf. apply (cell_ok_grows s); [done|by apply (inv_filled _ I)].
  - intros j w m x Hj Hw Hpw Hf. pose proof (inv_task _ I _ _ Hw) as Hok. unfold task_ok in Hok. rewrite Hpw in Hok.
    destruct w as [cw pw]. cbn [task_call task_pc] in *. subst pw. destruct cw as [kw|kw|kw vw|kw|kw]; try done. cbn [call_key] in *.
    destruct Hok as [_ (st & Hst & Hx & _)]. destruct (decide (m = n)) as [-> | Hne].
    + left. exists (notify_waiters st). split; [|by apply notify_wakes]. apply Hat in Hst. by destruct (decide (n = n)).
    + destruct (inv_sleep _ I j _ m x Hw eq_refl Hf) as [(st' & Hst' & Hr)|(p & v' & Hv & Hpv)].
      * left. exists st'. split; [|done]. apply Hat in Hst'. by destruct (decide (m = n)).
      * right. exists p, v'. split; [|done]. apply update_other; [done|]. intros ->. rewrite Hi in Hv. injection Hv as <-.
        cbn in Hpv. congruence.
Qed.

(** *** Every action *)

(** The side conditions of [quiet_step] that the program counters decide. *)
Ltac quiet :=
  eapply quiet_step; [done|eassumption|done|done| | | | |]; cbn [task_call task_pc pc_notify call_key];
  try (by intros); try (intros ? ? [=]; done); try (by unfold won; cbn; intros []).

Lemma task_step_inv s i u sh t : Inv s -> tasks s !! i = Some u -> task_step (shared s) u = Some (sh, t) ->
  Inv (update s i sh t).
Proof.
  intros I Hi. pose proof (inv_task _ I i u Hi) as Hok. destruct u as [c pc]. unfold task_step, task_ok in *.
  cbn [task_call task_pc] in *. destruct c as [k|k|k v|k|k].
  - (* register *)
    destruct pc; try done. cbn [register_step]. destruct (pm_get (items (shared s)) k) as [w|] eqn:Ek; intros [= <- <-].
    + quiet; try done.
    + by apply (insert_waiting_step s i (mkTask (Register k) Start)).
  - (* register_or_wait *)
    destruct pc as [|n|n x|n x c|n x| |c|n|c|a|]; try done; cbn [register_or_wait_step].
    + destruct (pm_get (items (shared s)) k) as [[n|c]|] eqn:Ek; intros [= <- <-].
      * quiet.
        -- split; [by apply (inv_waiting _ I) in Ek|by left].
        -- intros m [= <-]. by left.
      * quiet. by apply (inv_filled _ I).
      * by apply (insert_waiting_step s i (mkTask (RegisterOrWait k) Start)).
    + destruct (notifies (shared s) !! n) as [st|] eqn:En; [|done]. intros [= <- <-].
      quiet.
      * split; [done|]. exists st. split; [done|]. split; [apply issued_notified|]. by rewrite not_ready.
      * intros m [= <-]. right. by eexists i, _.
    + destruct (pm_get (items (shared s)) k) as [[m|c]|] eqn:Ek; intros [= <- <-].
      * quiet; [|by intros ? ? _ [? ?]; congruence].
        intros m' [= <-]. right. by eexists i, _.
      * quiet.
        -- destruct Hok. split_and!; [done..|]. by apply (inv_filled _ I).
        -- intros m' [= <-]. right. by eexists i, _.
      * exfalso. destruct Hok as [[_ [Hw|[c Hf]]] _]; congruence.
    + destruct Hok as (Ha & Ht & v & Hc & Hsub). unfold read_cell. rewrite Hc. cbn [mjoin option_join]. intros [= <- <-].
      quiet; try done.
    + destruct (notifies (shared s) !! n) as [st|] eqn:En; [|done]. destruct (ready x st) eqn:Er; [|done]. intros [= <- <-].
      destruct Hok as [_ (st' & Hst & _ & Hr)]. rewrite En in Hst. injection Hst as <-.
      quiet. by apply Hr.
    + destruct Hok as [c Hf]. rewrite Hf. intros [= <- <-]. quiet.
      by apply (inv_filled _ I).
    + destruct Hok as (v & Hc & Hsub). unfold read_cell. rewrite Hc. cbn [mjoin option_join]. intros [= <- <-].
      quiet; try done.
  - (* done *)
    destruct pc; try done; cbn [done_step].
    + intros E. pose proof (done_insert_step s i k v _ I Hi eq_refl) as D.
      destruct (pm_get (items (shared s)) k) as [[n|c]|]; injection E as <- <-; exact D.
    + intros [= <- <-]. by apply notify_step.
  - (* get *)
    destruct pc as [|n|n x|n x c|n x| |c|n|c|a|]; try done; cbn [get_step].
    + destruct (pm_get (items (shared s)) k) as [[n|c]|] eqn:Ek; intros [= <- <-];
        quiet; try done. by apply (inv_filled _ I).
    + destruct Hok as (v & Hc & Hsub). unfold read_cell. rewrite Hc. cbn [mjoin option_join]. intros [= <- <-].
      quiet; try done.
  - done.
Qed.

Lemma spawn_inv s c : Inv s -> (forall k, c <> Remove k) -> Inv (act s (Spawn c)).
Proof.
  intros I Hc. set (s' := act s (Spawn c)). assert (Hl : forall i t, tasks s !! i = Some t -> tasks s' !! i = Some t).
  { intros i t Hi. cbn. by apply lookup_app_l_Some. }
  assert (Hl' : forall i t, tasks s' !! i = Some t -> tasks s !! i = Some t \/ t = mkTask c Start).
  { intros i t. cbn. rewrite lookup_app_Some. intros [Hi|[_ Hi]]; [by left|]. right. by apply list_lookup_singleton_Some in Hi as [_ <-]. }
  assert (G : grows s s').
  { split; try done; [|by intros k n Hw; left]. intros k v [He|(j & w & Hj & Hw)]; [by left|]. right. exists j, w. split; [by apply Hl|done]. }
  assert (Hh : forall n k, held s' n k -> held s n k).
  { intros n k [Hk|(j & w & Hj & Hn & Hk)]; [by left|]. apply Hl' in Hj as [Hj| ->]; [right; by exists j, w|done]. }
  split; try apply I.
  - intros k c' Hf. apply (cell_ok_grows s); [done|by apply (inv_filled _ I)].
  - intros i t Hi. apply Hl' in Hi as [Hi| ->]; [|unfold task_ok; cbn; destruct c; try done; by destruct (Hc key)].
    eapply task_ok_grows; [done|done|by apply (inv_task _ I i)].
  - intros n k k' Ha%Hh Hb%Hh. by apply (inv_held _ I n).
  - intros i t n x Hi Hp Hf. apply Hl' in Hi as [Hi| ->]; [|done].
    destruct (inv_sleep _ I i t n x Hi Hp Hf) as [Hr|(p & v & Hv & Hpv)]; [by left|]. right. exists p, v. split; [by apply Hl|done].
  - intros i t Hi Hw. apply Hl' in Hi as [Hi| ->]; [by apply (inv_won _ I i)|]. unfold won in Hw. cbn in Hw. by destruct c.
  - intros i j t u Hi Hj Hw Hw' Hk. apply Hl' in Hi as [Hi| ->]; [|unfold won in Hw; cbn in Hw; by destruct c].
    apply Hl' in Hj as [Hj| ->]; [|unfold won in Hw'; cbn in Hw'; by destruct c]. by apply (inv_once _ I i j t u).
Qed.

Lemma act_inv s a : Inv s -> match a with Spawn (Remove _) => False | _ => True end -> Inv (act s a).
Proof.
  intros I Ha. destruct a as [i|c]; [|apply spawn_inv; [done|by intros k ->]]. cbn [act].
  destruct (tasks s !! i) as [u|] eqn:Hi; [|done]. destruct (task_step (shared s) u) as [[sh t]|] eqn:E; [|done].
  by apply (task_step_inv s i u).
Qed.

Lemma from_iter_spec l k c s0 : (forall k c, pm_get (items s0) k = Some (Filled c) -> c < length (cells s0)) ->
  (forall k n, pm_get (items s0) k <> Some (Waiting n)) ->
  let s1 := fold_left (fun s e => mkShared (pm_insert (items s) e.1 (Filled (length (cells s)))) (notifies s) (cells s ++ [Some e.2])) l s0 in
  (forall n, pm_get (items s1) k <> Some (Waiting n)) /\
  (pm_get (items s1) k = Some (Filled c) ->
   (pm_get (items s0) k = Some (Filled c) /\ cells s1 !! c = cells s0 !! c) \/ exists v, (k, v) ∈ l /\ cells s1 !! c = Some (Some v)).
Proof.
  revert s0. induction l as [|[k0 v0] l IH]; intros s0 Hcell Hwait; cbn [fold_left fst snd]; [split; [done|by left]|].
  set (s1 := mkShared _ _ _).
  assert (E : forall k', pm_get (items s1) k' = if decide (k' = k0) then Some (Filled (length (cells s0))) else pm_get (items s0) k').
  { intros k'. cbn. destruct (decide (k' = k0)) as [-> | Hne]; [apply pm_get_insert|by apply pm_get_insert_ne]. }
  destruct (IH s1) as [IH1 IH2].
  - intros k' c'. rewrite E. cbn. rewrite length_app. cbn. destruct (decide (k' = k0)); [intros [= <-]; lia|].
    intros Hf. apply Hcell in Hf. lia.
  - intros k' n. rewrite E. by destruct (decide (k' = k0)).
  - split; [done|]. intros Hf. destruct (IH2 Hf) as [[Hf1 Ec]|(v & Hv & Ec)].
    + rewrite E in Hf1. destruct (decide (k = k0)) as [-> | Hne].
      * injection Hf1 as <-. right. exists v0. split; [left|]. rewrite Ec. cbn. by rewrite lookup_app_r, Nat.sub_diag by lia.
      * left. split; [done|]. rewrite Ec. cbn. apply lookup_app_l. by apply (Hcell k).
    + right. exists v. split; [by right|done].
Qed.

Lemma start_inv : Inv (mkSystem (once_from_iter entries) []).
Proof.
  assert (F : forall k c, (forall n, pm_get (items (once_from_iter entries)) k <> Some (Waiting n)) /\
    (pm_get (items (once_from_iter entries)) k = Some (Filled c) ->
     exists v, (k, v) ∈ entries /\ cells (once_from_iter entries) !! c = Some (Some v))).
  { intros k c. destruct (from_iter_spec entries k c once_new) as [F1 F2].
    - intros k' c'. cbn. by rewrite pm_get_empty.
    - intros k' n. cbn. by rewrite pm_get_empty.
    - split; [done|]. intros Hf. destruct (F2 Hf) as [[E _]|Hv]; [|done]. cbn in E. by rewrite pm_get_empty in E. }
  split; try done.
  - intros k n Hw. by destruct (F k 0) as [Hn _]; destruct (Hn n).
  - intros k c Hf. destruct (proj2 (F k c) Hf) as (v & Hv & Ec). exists v. split; [done|by left].
  - intros n k k' [Hk|(i & t & [=] & _)]. by destruct (F k 0) as [Hn _]; destruct (Hn n).
Qed.

Lemma run_inv s schedule : Inv s -> append_only schedule -> Inv (run s schedule).
Proof.
  intros I Hs. revert s I. induction Hs as [|a l Ha _ IH]; intros s I; [done|]. cbn. apply IH. by apply act_inv.
Qed.

Lemma reachable_inv s : reachable s -> Inv s.
Proof. intros (schedule & Hs & ->). apply run_inv; [apply start_inv|done]. Qed.

(** ** Progress *)

(** How often a scheduler runs a task. *)
Fixpoint runs (i : nat) (schedule : list Action) : nat :=
  match schedule with
  | [] => 0
  | Run j :: l => if Nat.eqb i j then S (runs i l) else runs i l
  | Spawn _ :: l => runs i l
  end.

(** The steps a call still has to take, once its result is there. *)
Definition rank (pc : Pc) : nat :=
  match pc with
  | GotNotify _ | Sleeping _ _ => 3
  | Start | Enlisted _ _ | Awake => 2
  | Rechecked _ _ _ | Reading _ | Notifying _ | Taking _ => 1
  | Finished _ | Panicked => 0
  end.

(** A result is there and nobody is about to announce one. *)
Definition served (s : System) (k : K) : Prop :=
  filled s k /\ forall j t n, tasks s !! j = Some t -> call_key (task_call t) = k -> task_pc t <> Notifying n.

Lemma task_step_call sh t sh' t' : task_step sh t = Some (sh', t') -> task_call t' = task_call t.
Proof.
  destruct t as [c pc]. unfold task_step. cbn [task_call task_pc].
  destruct c; match goal with |- match ?x with _ => _ end = _ -> _ => destruct x as [[]|] end; by try intros [= _ <-].
Qed.

(** An action leaves a task alone, or is its next step. *)
Lemma act_task s a i t : tasks s !! i = Some t -> exists t', tasks (act s a) !! i = Some t' /\ task_call t' = task_call t /\
  (t' = t \/ exists sh, a = Run i /\ task_step (shared s) t = Some (sh, t') /\ act s a = update s i sh t').
Proof.
  intros Hi. destruct a as [j|c]; cbn [act].
  - destruct (tasks s !! j) as [u|] eqn:Hj; [|by exists t; split_and!; [|done|by left]].
    destruct (task_step (shared s) u) as [[sh t']|] eqn:E; [|by exists t; split_and!; [|done|by left]].
    destruct (decide (j = i)) as [-> | Hne].
    + rewrite Hi in Hj. injection Hj as <-. exists t'. split; [cbn; apply list_lookup_insert_eq; by apply lookup_lt_Some in Hi|].
      split; [by apply task_step_call in E|right; by exists sh].
    + exists t. split; [cbn; by rewrite list_lookup_insert_ne|]. split; [done|by left].
  - exists t. split; [cbn; by apply lookup_app_l_Some|]. split; [done|by left].
Qed.

Lemma filled_act s a k : Inv s -> match a with Spawn (Remove _) => False | _ => True end -> filled s k -> filled (act s a) k.
Proof.
  intros I Ha [c Hf]. destruct a as [i|c']; [|by exists c]. cbn [act]. destruct (tasks s !! i) as [u|] eqn:Hi; [|by exists c].
  destruct (task_step (shared s) u) as [[sh t]|] eqn:E; [|by exists c]. pose proof (inv_task _ I i u Hi) as Hok.
  destruct u as [cl pc]. unfold task_step, task_ok in *. cbn [task_call task_pc] in *. unfold filled. cbn [shared].
  destruct cl as [k0|k0|k0 v0|k0|k0]; destruct pc as [|n|n x|n x c1|n x| |c1|n|c1|a|]; try done; cbn in E;
    repeat match type of E with
    | match match pm_get ?m ?k1 with _ => _ end with _ => _ end = _ => destruct (pm_get m k1) as [[]|] eqn:?
    | match match ?l !! ?n1 with _ => _ end with _ => _ end = _ => destruct (l !! n1)
    | match match read_cell ?s1 ?c2 with _ => _ end with _ => _ end = _ => destruct (read_cell s1 c2)
    | match (if ?b then _ else _) with _ => _ end = _ => destruct b
    end; try done; injection E as <- <-; try (by exists c).
  all: cbn; try (exists c; rewrite pm_get_insert_ne; [done|]; congruence).
  all: destruct (decide (k0 = k)) as [-> | Hne]; [rewrite pm_get_insert; by eexists|exists c; by rewrite pm_get_insert_ne].
Qed.

(** A step to [Notifying] starts from a key that is not filled. *)
Lemma step_to_notifying s i u sh t n : Inv s -> tasks s !! i = Some u -> task_step (shared s) u = Some (sh, t) ->
  task_pc t = Notifying n -> pm_get (items (shared s)) (call_key (task_call u)) = Some (Waiting n).
Proof.
  intros I Hi E Hp. pose proof (inv_task _ I i u Hi) as Hok. destruct u as [cl pc]. unfold task_step, task_ok in *.
  cbn [task_call task_pc call_key] in *.
  destruct cl as [k0|k0|k0 v0|k0|k0]; destruct pc as [|m|m x|m x c1|m x| |c1|m|c1|a|]; try done; cbn in E;
    repeat match type of E with
    | match match pm_get ?mp ?k1 with _ => _ end with _ => _ end = _ => destruct (pm_get mp k1) as [[]|] eqn:?
    | match match ?l !! ?n1 with _ => _ end with _ => _ end = _ => destruct (l !! n1)
    | match match read_cell ?s1 ?c2 with _ => _ end with _ => _ end = _ => destruct (read_cell s1 c2)
    | match (if ?b then _ else _) with _ => _ end = _ => destruct b
    end; try done; injection E as <- <-; cbn in Hp; try done. injection Hp as <-. exact Heqo.
Qed.

Lemma act_lookup s a j t : tasks (act s a) !! j = Some t ->
  tasks s !! j = Some t \/ (exists c, a = Spawn c /\ t = mkTask c Start) \/
  exists u sh, a = Run j /\ tasks s !! j = Some u /\ task_step (shared s) u = Some (sh, t).
Proof.
  destruct a as [i|c]; cbn [act].
  - destruct (tasks s !! i) as [u|] eqn:Hi; [|by left]. destruct (task_step (shared s) u) as [[sh t']|] eqn:E; [|by left].
    cbn [tasks]. rewrite list_lookup_insert_Some. intros [(-> & <- & _)|[_ Hj]]; [|by left]. right. right. by exists u, sh.
  - cbn [tasks]. rewrite lookup_app_Some. intros [Hj|[_ Hj]]; [by left|]. right. left. exists c. split; [done|].
    by apply list_lookup_singleton_Some in Hj as [_ <-].
Qed.

Lemma served_act s a k : Inv s -> match a with Spawn (Remove _) => False | _ => True end -> served s k -> served (act s a) k.
Proof.
  intros I Ha [Hf Hn]. split; [by apply filled_act|]. intros j t n Hj Hk Hp.
  apply act_lookup in Hj as [Hj|[(c & -> & ->)|(u & sh & -> & Hu & E)]]; [by apply (Hn j t n)|done|].
  pose proof (step_to_notifying s j u sh t n I Hu E Hp) as Hw. rewrite <- (task_step_call _ _ _ _ E), Hk in Hw.
  destruct Hf as [c Hf]. congruence.
Qed.

(** A waiter of a served key is never blocked, gets nearer to its answer with
    every step, and is not sent off to run the job. *)
Lemma waiter_step s i k pc : Inv s -> served s k -> tasks s !! i = Some (mkTask (RegisterOrWait k) pc) -> rank pc <> 0 ->
  exists sh pc', task_step (shared s) (mkTask (RegisterOrWait k) pc) = Some (sh, mkTask (RegisterOrWait k) pc') /\
    rank pc' < rank pc /\ ~ won (mkTask (RegisterOrWait k) pc').
Proof.
  intros I [[c Hf] Hn] Hi Hr. pose proof (inv_task _ I i _ Hi) as Hok. unfold task_ok, task_step in *. cbn [task_call task_pc] in *.
  destruct pc as [|n|n x|n x c'|n x| |c'|n|c'|a|]; try done; cbn [register_or_wait_step rank]; rewrite ?Hf.
  - eexists _, _. split; [done|]. cbn. split; [lia|by intros []].
  - destruct Hok as [Hl _]. destruct (lookup_lt_is_Some_2 _ _ Hl) as [st ->]. eexists _, _. split; [done|]. cbn. split; [lia|by intros []].
  - eexists _, _. split; [done|]. cbn. split; [lia|by intros []].
  - destruct Hok as (_ & _ & v & Hc & _). unfold read_cell. rewrite Hc. cbn [mjoin option_join]. eexists _, _. split; [done|]. cbn. split; [lia|by intros []].
  - destruct (inv_sleep _ I i _ n x Hi eq_refl) as [(st & Hst & Hrd)|(j & t & Hj & Hp)]; [by exists c| |].
    + rewrite Hst, Hrd. eexists _, _. split; [done|]. cbn. split; [lia|by intros []].
    + exfalso. apply (Hn j t n Hj); [|done]. apply (inv_held _ I n); right; [by exists j, t; rewrite Hp|by eexists i, _].
  - eexists _, _. split; [done|]. cbn. split; [lia|by intros []].
  - destruct Hok as (v & Hc & _). unfold read_cell. rewrite Hc. cbn [mjoin option_join]. eexists _, _. split; [done|]. cbn. split; [lia|by intros []].
Qed.

Lemma waiter_run s i k pc schedule : Inv s -> served s k -> append_only schedule ->
  tasks s !! i = Some (mkTask (RegisterOrWait k) pc) -> ~ won (mkTask (RegisterOrWait k) pc) -> rank pc <= runs i schedule ->
  exists v, tasks (run s schedule) !! i = Some (mkTask (RegisterOrWait k) (Finished (Answered (Some v)))) /\ submitted (run s schedule) k v.
Proof.
  intros I Hs Ha. revert s pc I Hs. induction Ha as [|a l Hal _ IH]; intros s pc I Hs Hi Hw Hr.
  - cbn [runs] in Hr. pose proof (inv_task _ I i _ Hi) as Hok. unfold task_ok in Hok. cbn [task_call task_pc] in Hok.
    destruct pc as [|n|n x|n x c|n x| |c|n|c|[|[v|]|]|]; cbn in Hr; try lia; try done. by exists v.
  - cbn [run fold_left]. change (fold_left act l (act s a)) with (run (act s a) l).
    assert (I' : Inv (act s a)) by (by apply act_inv). assert (Hs' : served (act s a) k) by (by apply served_act).
    destruct (act_task s a i _ Hi) as (t' & Hi' & Hc & [-> | (sh & -> & E & _)]).
    + destruct a as [j|c]; [|by apply (IH _ pc I' Hs' Hi' Hw)]. cbn [runs] in Hr.
      destruct (Nat.eqb_spec i j) as [<- |]; [|by apply (IH _ pc I' Hs' Hi' Hw)].
      destruct (decide (rank pc = 0)) as [Hz|Hz]; [apply (IH _ pc I' Hs' Hi' Hw); lia|].
      destruct (waiter_step s i k pc I Hs Hi Hz) as (sh & pc' & E & Hlt & Hw'). cbn [act] in Hi'. rewrite Hi, E in Hi'. cbn in Hi'.
      rewrite list_lookup_insert_eq in Hi' by (by apply lookup_lt_Some in Hi). injection Hi' as <-. lia.
    + destruct (decide (rank pc = 0)) as [Hz|Hz].
      { exfalso. pose proof (inv_task _ I i _ Hi) as Hok. unfold task_ok, task_step in *. cbn [task_call task_pc] in *. by destruct pc. }
      destruct (waiter_step s i k pc I Hs Hi Hz) as (sh' & pc' & E' & Hlt & Hw'). rewrite E in E'. injection E' as <- ->.
      apply (IH _ pc' I' Hs' Hi' Hw'). cbn [runs] in Hr. rewrite Nat.eqb_refl in Hr. lia.
Qed.

(** A submission is never blocked and takes at most two steps. *)
Lemma done_run s j k v pc schedule : Inv s -> append_only schedule ->
  tasks s !! j = Some (mkTask (Done k v) pc) -> rank pc <= runs j schedule ->
  tasks (run s schedule) !! j = Some (mkTask (Done k v) (Finished Submitted)).
Proof.
  intros I Ha. revert s pc I. induction Ha as [|a l Hal _ IH]; intros s pc I Hj Hr.
  - cbn [runs] in Hr. pose proof (inv_task _ I j _ Hj) as Hok. unfold task_ok in Hok. cbn [task_call task_pc] in Hok.
    by destruct pc as [|n|n x|n x c|n x| |c|n|c|[| |]|]; cbn in Hr; try lia.
  - cbn [run fold_left]. change (fold_left act l (act s a)) with (run (act s a) l).
    assert (I' : Inv (act s a)) by (by apply act_inv).
    assert (Hstep : rank pc <> 0 -> exists sh pc', task_step (shared s) (mkTask (Done k v) pc) = Some (sh, mkTask (Done k v) pc') /\
      rank pc' < rank pc).
    { intros Hz. pose proof (inv_task _ I j _ Hj) as Hok. unfold task_ok, task_step in *. cbn [task_call task_pc] in *.
      destruct pc; try done; cbn [done_step rank]; [|eexists _, _; split; [done|cbn; lia]].
      destruct (pm_get (items (shared s)) k) as [[]|]; eexists _, _; (split; [done|cbn; lia]). }
    destruct (act_task s a j _ Hj) as (t' & Hj' & Hc & [-> | (sh & -> & E & _)]).
    + destruct a as [i|c]; [|by apply (IH _ pc I' Hj')]. cbn [runs] in Hr.
      destruct (Nat.eqb_spec j i) as [<- |]; [|by apply (IH _ pc I' Hj')].
      destruct (decide (rank pc = 0)) as [Hz|Hz]; [apply (IH _ pc I' Hj'); lia|].
      destruct (Hstep Hz) as (sh & pc' & E & Hlt). cbn [act] in Hj'. rewrite Hj, E in Hj'. cbn in Hj'.
      rewrite list_lookup_insert_eq in Hj' by (by apply lookup_lt_Some in Hj). injection Hj' as <-. lia.
    + destruct (decide (rank pc = 0)) as [Hz|Hz].
      { exfalso. pose proof (inv_task _ I j _ Hj) as Hok. unfold task_ok, task_step in *. cbn [task_call task_pc] in *. by destruct pc. }
      destruct (Hstep Hz) as (sh' & pc' & E' & Hlt). rewrite E in E'. injection E' as <- ->.
      apply (IH _ pc' I' Hj'). cbn [runs] in Hr. rewrite Nat.eqb_refl in Hr. lia.
Qed.

(** The tasks of a run: old ones with their calls, and spawned ones. *)
Lemma run_lookup s schedule j t : tasks (run s schedule) !! j = Some t ->
  (exists u, tasks s !! j = Some u /\ task_call u = task_call t) \/ Spawn (task_call t) ∈ schedule.
Proof.
  revert s. induction schedule as [|a l IH]; intros s Hj; [left; by exists t|].
  destruct (IH (act s a) Hj) as [(u & Hu & Hc)|Hs]; [|right; by right].
  apply act_lookup in Hu as [Hu|[(c & -> & ->)|(w & sh & -> & Hw & E)]].
  - left. by exists u.
  - right. cbn in Hc. subst c. by left.
  - left. exists w. split; [done|]. by rewrite <- (task_step_call _ _ _ _ E).
Qed.

(** Once every submission for a key has been run twice, the key is served. *)
Lemma submissions_serve s k schedule : Inv s -> append_only schedule ->
  (forall v, Spawn (Done k v) ∉ schedule) -> (exists j v pc, tasks s !! j = Some (mkTask (Done k v) pc)) ->
  (forall j v pc, tasks s !! j = Some (mkTask (Done k v) pc) -> 2 <= runs j schedule) -> served (run s schedule) k.
Proof.
  intros I Ha Hsp (j0 & v0 & pc0 & Hj0) Hr. pose proof (run_inv s schedule I Ha) as I'.
  assert (Hfin : forall j v pc, tasks s !! j = Some (mkTask (Done k v) pc) ->
    tasks (run s schedule) !! j = Some (mkTask (Done k v) (Finished Submitted))).
  { intros j v pc Hj. apply (done_run s j k v pc); [done..|]. specialize (Hr j v pc Hj).
    pose proof (inv_task _ I j _ Hj) as Hok. unfold task_ok in Hok. cbn in Hok. destruct pc; try done; cbn; lia. }
  split; [exact (inv_task _ I' j0 _ (Hfin j0 v0 pc0 Hj0))|]. intros j t n Hj Hk Hp.
  pose proof (inv_task _ I' j t Hj) as Hok. destruct t as [c pc]. cbn in *. subst pc. unfold task_ok in Hok. cbn in Hok.
  destruct c as [k'|k'|k' v|k'|k']; try done. cbn in Hk. subst k'.
  destruct (run_lookup _ _ _ _ Hj) as [([c pc] & Hu & Hc)|Hs]; [|by destruct (Hsp v)].
  cbn in Hc. subst c. rewrite (Hfin j v pc Hu) in Hj. done.
Qed.

(** ** Properties *)

(** As long as nothing is removed, no interleaving of calls makes a waiter panic
    (neither [expect("map is append-only")] nor [unreachable!("notify was called")]
    is reached), and a value that a call returns was submitted for its key. *)
Theorem once_map_never_panics s i t : reachable s -> tasks s !! i = Some t ->
  task_pc t <> Panicked /\
  forall k v, (task_call t = RegisterOrWait k \/ task_call t = Get k) -> task_pc t = Finished (Answered (Some v)) -> submitted s k v.
Proof.
  intros Hs Hi. pose proof (inv_task _ (reachable_inv s Hs) i t Hi) as Hok. destruct t as [c pc]. unfold task_ok in Hok.
  cbn [task_call task_pc] in *. split; [intros ->; by destruct c|]. by intros k v [-> | ->] ->.
Qed.

(** At most one call per key is told to run the job ([register] answers [true] or
    [register_or_wait] answers [None]), however the calls interleave. *)
Theorem job_started_once s i j t u : reachable s -> tasks s !! i = Some t -> tasks s !! j = Some u ->
  won t -> won u -> call_key (task_call t) = call_key (task_call u) -> i = j.
Proof. intros Hs. by apply (inv_once _ (reachable_inv s Hs)). Qed.

(** C5: no waiter is forgotten as long as nothing is removed ([append_only]; a removal
    makes a waiter panic, [remove_panics_waiter]).  After any schedule that lets every
    submission of a key take its two steps, a waiter for the key that was not itself told to run the
    job is never blocked again: any schedule that runs it three times gives it the
    submitted result, whatever other calls start and run in between. *)
Theorem waiters_are_served s k i pc schedule1 schedule2 : reachable s -> append_only (schedule1 ++ schedule2) ->
  (forall v, Spawn (Done k v) ∉ schedule1) -> (exists j v pc, tasks s !! j = Some (mkTask (Done k v) pc)) ->
  (forall j v pc, tasks s !! j = Some (mkTask (Done k v) pc) -> 2 <= runs j schedule1) ->
  tasks (run s schedule1) !! i = Some (mkTask (RegisterOrWait k) pc) -> ~ won (mkTask (RegisterOrWait k) pc) ->
  3 <= runs i schedule2 ->
  exists v, tasks (run s (schedule1 ++ schedule2)) !! i = Some (mkTask (RegisterOrWait k) (Finished (Answered (Some v)))) /\
    submitted (run s (schedule1 ++ schedule2)) k v.
Proof.
  intros Hs [Ha1 Ha2]%Forall_app Hsp Hex Hr Hi Hw H3. pose proof (reachable_inv s Hs) as I.
  unfold run. rewrite fold_left_app. fold (run s schedule1) (run (run s schedule1) schedule2).
  apply (waiter_run _ i k pc); [by apply run_inv|by apply submissions_serve|done..|].
  destruct pc; cbn; lia.
Qed.
End once_map.

(** ** Concrete schedules *)

(** Three tasks on key 7: one runs the job, two wait, one before and one after the
    result is there. *)
Definition sample_schedule : list (@Action nat nat) :=
  [Spawn (Register 7); Run 0; Spawn (RegisterOrWait 7); Run 1; Run 1; Run 1; Spawn (Done 7 42)].

Definition sample_system : @System nat nat _ _ := run (mkSystem (once_from_iter []) []) sample_schedule.

Lemma sample_reachable : reachable [] sample_system.
Proof. exists sample_schedule. split; [by repeat constructor|done]. Qed.

(** The waiter of [sample_system]: asleep on the first [Notify], with the future it
    made before any call of [notify_waiters]. *)
Definition asleep : @Pc nat counting_notify := @Sleeping nat counting_notify 0 (@notified counting_notify notify_new).

(** [remove] takes away the entry that a waiter has found: the waiter panics. *)
Lemma remove_panics_waiter :
  task_pc <$> tasks (run sample_system [Spawn (Remove 7); Run 3]) !! 1 = Some asleep /\
  task_pc <$> tasks (run (mkSystem (once_from_iter []) [])
    [Spawn (Register 7); Run 0; Spawn (RegisterOrWait 7); Run 1; Run 1; Spawn (Remove 7); Run 2; @Run nat nat 1]) !! 1 = Some Panicked.
Proof. by split. Qed.

(** A failed [wait] registers the key: the next [register] is told that the job is
    already in progress. *)
Lemma wait_registers :
  task_pc <$> tasks (run (mkSystem (once_from_iter []) [])
    [Spawn (RegisterOrWait 7); Run 0; Spawn (Register 7); @Run nat nat 1]) = [Finished (Answered None); Finished (Registered false)].
Proof. done. Qed.

Lemma once_map_never_panics_witness : tasks sample_system !! 1 = Some (mkTask (RegisterOrWait 7) asleep) /\
  asleep <> @Panicked nat _.
Proof.
  split; [reflexivity|].
  exact (proj1 (once_map_never_panics [] sample_system 1 (mkTask (RegisterOrWait 7) asleep) sample_reachable eq_refl)).
Defined.

Lemma job_started_once_witness : 0 = 0.
Proof.
  exact (job_started_once [] sample_system 0 0 (mkTask (Register 7) (Finished (Registered true)))
    (mkTask (Register 7) (Finished (Registered true))) sample_reachable eq_refl eq_refl I I eq_refl).
Defined.

Lemma waiters_are_served_witness :
  exists v, tasks (run sample_system ([Run 2; Run 2] ++ [Run 1; Run 1; Run 1])) !! 1 =
    Some (mkTask (RegisterOrWait 7) (Finished (Answered (Some v)))).
Proof.
  destruct (waiters_are_served [] sample_system 7 1 asleep [Run 2; Run 2] [Run 1; Run 1; Run 1]) as (v & Hv & _).
  - apply sample_reachable.
  - by repeat constructor.
  - intros v Hv. rewrite !elem_of_cons in Hv. destruct Hv as [?|[?|Hv]]; [discriminate..|by apply elem_of_nil in Hv].
  - by exists 2, 42, Start.
  - intros j v pc Hj. destruct j as [|[|[|j]]]; try discriminate Hj. cbn. lia.
  - reflexivity.
  - intros [].
  - cbn. lia.
  - by exists v.
Defined.
