(* ===== verification/RangeSet.v ===== *)
(** * Sets of intervals: the interface of [version_ranges::Ranges<T>]

    The marker algebra works with [Ranges<T>] of the third-party crate
    [version_ranges], at [T = Version] and at [T = ArcStr].  A range is a list of
    segments between two bounds.  The crate never asks which values lie between
    two bounds, so its operations are exact on the _positions_ of the line:
    before or after a value, or at one of its ends ([Cut]).  A segment is a
    half-open interval of positions, and a range is in normal form when its
    segments are non-empty, ascending and do not touch ([gapped]).

    [RangeSet] has the operations the repository calls, [RangeSetLaws] what the
    crate documents of them in terms of positions.  Two normal forms with the same
    positions are equal ([gapped_unique]), so the laws determine the segments of
    every result.  [segment_lists] is an instance: sorted lists of segments. *)

From Stdlib Require Import ZArith Lia.
From stdpp Require Import base list sorting.
From S2P Require Import Prelude.
Open Scope Z_scope.

(** ** Values with a key

    [T] is compared through a key: on the values where its [Ord] is a total order
    ([valid]), comparing values is comparing keys. *)

Class Keyed (T : Type) := {
  key_type : Type;
  key_of : T -> key_type;
  key_order : key_type -> key_type -> comparison;
  value_cmp : T -> T -> comparison;
  valid : T -> bool;
}.

Class KeyedLaws (T : Type) `{Keyed T} : Prop := {
  #[global] keyed_order :: OrdLaws key_order;
  #[global] keyed_eq :: OrdEq key_order;
  value_cmp_key : forall x y, valid x = true -> valid y = true ->
    value_cmp x y = key_order (key_of x) (key_of y);
}.

(** ** Positions *)

Section positions.
Context {T : Type} `{Keyed T}.

Inductive Cut : Type :=
| NegInf
| At (k : key_type) (past : bool)
| PosInf.

Definition before (k : key_type) : Cut := At k false.
Definition after (k : key_type) : Cut := At k true.

Definition cut_rank (c : Cut) : Z * option (key_type * Z) :=
  match c with
  | NegInf => (0, None)
  | At k past => (1, Some (k, if past then 1 else 0))
  | PosInf => (2, None)
  end.

Definition cut_cmp (p q : Cut) : comparison :=
  pair_cmp Z.compare (option_cmp (pair_cmp key_order Z.compare)) (cut_rank p) (cut_rank q).

(** Where a segment starts and where it ends. *)
Definition lower_cut (b : BoundOf T) : Cut :=
  match b with
  | Included v => before (key_of v)
  | Excluded v => after (key_of v)
  | Unbounded => NegInf
  end.

Definition upper_cut (b : BoundOf T) : Cut :=
  match b with
  | Included v => after (key_of v)
  | Excluded v => before (key_of v)
  | Unbounded => PosInf
  end.

Definition seg_cuts (s : BoundOf T * BoundOf T) : Cut * Cut := (lower_cut s.1, upper_cut s.2).

Definition in_cuts (p : Cut) (s : Cut * Cut) : bool := is_le (cut_cmp s.1 p) && is_lt (cut_cmp p s.2).

Definition cut_mem (p : Cut) (l : list (Cut * Cut)) : bool := existsb (in_cuts p) l.

(** The position of a value. *)
Definition at_value (x : T) : Cut := before (key_of x).

Definition cut_lt (p q : Cut) : Prop := cut_cmp p q = Lt.
Definition cut_le (p q : Cut) : Prop := cut_cmp p q <> Gt.

(** Ascending, non-empty segments that start after [low] and do not touch. *)
Fixpoint gapped_from (low : Cut) (l : list (Cut * Cut)) : Prop :=
  match l with
  | [] => True
  | (a, b) :: rest => cut_lt low a /\ cut_lt a b /\ gapped_from b rest
  end.

(** Segments in normal form: the first one may start at the left end. *)
Definition gapped (l : list (Cut * Cut)) : Prop :=
  match l with
  | [] => True
  | (a, b) :: rest => cut_lt a b /\ gapped_from b rest
  end.

Definition bound_valid (b : BoundOf T) : bool :=
  match b with Included v | Excluded v => valid v | Unbounded => true end.
Definition seg_valid (s : BoundOf T * BoundOf T) : bool := bound_valid s.1 && bound_valid s.2.
End positions.

(** ** The interface *)

Class RangeSet (T R : Type) := {
  rs_contains : R -> T -> bool;
  rs_iter : R -> list (BoundOf T * BoundOf T);
  rs_empty : R;
  rs_full : R;
  rs_singleton : T -> R;
  rs_higher_than : T -> R;
  rs_strictly_higher_than : T -> R;
  rs_lower_than : T -> R;
  rs_strictly_lower_than : T -> R;
  rs_between : T -> T -> R;
  rs_from_range_bounds : BoundOf T * BoundOf T -> R;
  (** [FromIterator]: the union of segments. *)
  rs_collect : list (BoundOf T * BoundOf T) -> R;
  rs_complement : R -> R;
  rs_intersection : R -> R -> R;
  rs_union : R -> R -> R;
  rs_is_empty : R -> bool;
  rs_is_disjoint : R -> R -> bool;
  rs_bounding_range : R -> option (BoundOf T * BoundOf T);
  rs_as_singleton : R -> option T;
  rs_eqb : R -> R -> bool;
}.

Section interface.
Context {T R : Type} `{Keyed T} `{!RangeSet T R}.

Definition rs_cuts (r : R) : list (Cut * Cut) := map seg_cuts (rs_iter r).

(** A range in normal form over valid values. *)
Definition rs_ok (r : R) : Prop :=
  forallb seg_valid (rs_iter r) = true /\ gapped (rs_cuts r).

(** [r] is in normal form and covers the positions [f]. *)
Definition covers (r : R) (f : Cut -> bool) : Prop :=
  rs_ok r /\ forall p, p <> PosInf -> cut_mem p (rs_cuts r) = f p.
End interface.

Class RangeSetLaws (T R : Type) `{Keyed T} `{!RangeSet T R} : Prop := {
  rs_contains_law : forall r x, rs_ok r -> valid x = true ->
    rs_contains r x = cut_mem (at_value x) (rs_cuts r);
  rs_empty_law : rs_iter rs_empty = [];
  rs_full_law : rs_iter rs_full = [(Unbounded, Unbounded)];
  rs_singleton_law : forall v, valid v = true ->
    covers (rs_singleton v) (fun p => in_cuts p (before (key_of v), after (key_of v)));
  rs_higher_than_law : forall v, valid v = true ->
    covers (rs_higher_than v) (fun p => in_cuts p (before (key_of v), PosInf));
  rs_strictly_higher_than_law : forall v, valid v = true ->
    covers (rs_strictly_higher_than v) (fun p => in_cuts p (after (key_of v), PosInf));
  rs_lower_than_law : forall v, valid v = true ->
    covers (rs_lower_than v) (fun p => in_cuts p (NegInf, after (key_of v)));
  rs_strictly_lower_than_law : forall v, valid v = true ->
    covers (rs_strictly_lower_than v) (fun p => in_cuts p (NegInf, before (key_of v)));
  rs_between_law : forall v w, valid v = true -> valid w = true -> value_cmp v w = Lt ->
    covers (rs_between v w) (fun p => in_cuts p (before (key_of v), before (key_of w)));
  rs_from_range_bounds_law : forall s, seg_valid s = true ->
    covers (rs_from_range_bounds s) (fun p => in_cuts p (seg_cuts s));
  rs_collect_law : forall l, forallb seg_valid l = true ->
    covers (rs_collect l) (fun p => cut_mem p (map seg_cuts l));
  rs_complement_law : forall r, rs_ok r ->
    covers (rs_complement r) (fun p => negb (cut_mem p (rs_cuts r)));
  rs_intersection_law : forall r s, rs_ok r -> rs_ok s ->
    covers (rs_intersection r s) (fun p => cut_mem p (rs_cuts r) && cut_mem p (rs_cuts s));
  rs_union_law : forall r s, rs_ok r -> rs_ok s ->
    covers (rs_union r s) (fun p => cut_mem p (rs_cuts r) || cut_mem p (rs_cuts s));
  rs_is_empty_law : forall r, rs_is_empty r = match rs_iter r with [] => true | _ => false end;
  rs_is_disjoint_law : forall r s, rs_ok r -> rs_ok s ->
    rs_is_disjoint r s = rs_is_empty (rs_intersection r s);
  rs_bounding_range_law : forall r, rs_bounding_range r =
    match rs_iter r, last (rs_iter r) with
    | (low, _) :: _, Some (_, high) => Some (low, high)
    | _, _ => None
    end;
  rs_eqb_law : forall r s, rs_ok r -> rs_ok s -> rs_eqb r s = true <-> rs_cuts r = rs_cuts s;
}.

(** ** Order of positions *)

Section cut_order.
Context {T : Type} `{KeyedLaws T}.
Implicit Types (p q a b c : Cut).

#[export] Instance cut_cmp_laws : OrdLaws cut_cmp.
Proof. apply (key_laws _ cut_rank). Qed.

#[export] Instance cut_cmp_eq : OrdEq cut_cmp.
Proof.
  constructor. intros p q E. apply (ord_eq (pair_cmp Z.compare (option_cmp (pair_cmp key_order Z.compare)))) in E.
  destruct p as [|k s|], q as [|k' s'|]; cbn in E; try done. injection E as -> E. by destruct s, s'.
Qed.

Lemma cut_lt_irrefl a : ~ cut_lt a a.
Proof. unfold cut_lt. by rewrite (ord_refl cut_cmp). Qed.

Lemma cut_lt_trans a b c : cut_lt a b -> cut_lt b c -> cut_lt a c.
Proof. apply (ord_lt_trans cut_cmp). Qed.

Lemma cut_le_lt_trans a b c : cut_le a b -> cut_lt b c -> cut_lt a c.
Proof. apply (ord_le_lt_trans cut_cmp). Qed.

Lemma cut_lt_le_trans a b c : cut_lt a b -> cut_le b c -> cut_lt a c.
Proof. apply (ord_lt_le_trans cut_cmp). Qed.

Lemma cut_le_trans a b c : cut_le a b -> cut_le b c -> cut_le a c.
Proof. apply (ord_le_trans cut_cmp). Qed.

Lemma cut_le_antisym a b : cut_le a b -> cut_le b a -> a = b.
Proof.
  unfold cut_le. intros Hab Hba. apply (ord_eq cut_cmp). destruct (cut_cmp a b) eqn:E; [done| |done].
  by rewrite (ord_gt_lt cut_cmp b a), E in Hba.
Qed.

Lemma cut_not_lt a b : ~ cut_lt a b <-> cut_le b a.
Proof. unfold cut_lt, cut_le. by rewrite (ord_gt_lt cut_cmp b a). Qed.

Lemma cut_not_le a b : ~ cut_le a b <-> cut_lt b a.
Proof. unfold cut_lt, cut_le. rewrite (ord_gt_lt cut_cmp a b). destruct (cut_cmp b a); naive_solver. Qed.

Lemma cut_lt_le a b : cut_lt a b -> cut_le a b.
Proof. unfold cut_lt, cut_le. congruence. Qed.

Lemma cut_le_refl a : cut_le a a.
Proof. unfold cut_le. by rewrite (ord_refl cut_cmp). Qed.

Lemma cut_le_iff a b : is_le (cut_cmp a b) = true <-> cut_le a b.
Proof. unfold cut_le. by destruct (cut_cmp a b). Qed.

Lemma cut_lt_iff a b : is_lt (cut_cmp a b) = true <-> cut_lt a b.
Proof. unfold cut_lt. by destruct (cut_cmp a b). Qed.

Lemma cut_lt_total a b : cut_lt a b \/ a = b \/ cut_lt b a.
Proof.
  unfold cut_lt. destruct (cut_cmp a b) eqn:E; [|auto|].
  - right; left. by apply (ord_eq cut_cmp).
  - do 2 right. by apply (ord_gt_lt cut_cmp).
Qed.

Lemma neg_inf_least a : cut_le NegInf a.
Proof. by destruct a. Qed.

Lemma pos_inf_greatest a : cut_le a PosInf.
Proof. by destruct a. Qed.
End cut_order.

(** Contradictions and consequences of a few comparisons of positions: close the
    hypotheses under transitivity. *)
Ltac cut_saturate :=
  repeat match goal with
  | H : ~ cut_lt _ _ |- _ => rewrite cut_not_lt in H
  | H : ~ cut_le _ _ |- _ => rewrite cut_not_le in H
  | H : cut_lt ?a ?a |- _ => exfalso; exact (cut_lt_irrefl _ H)
  | H1 : cut_lt ?a ?b, H2 : cut_lt ?b ?a |- _ => exfalso; exact (cut_lt_irrefl _ (cut_lt_trans _ _ _ H1 H2))
  | H1 : cut_lt ?a ?b, H2 : cut_le ?b ?a |- _ => exfalso; exact (cut_lt_irrefl _ (cut_lt_le_trans _ _ _ H1 H2))
  | H1 : cut_lt ?a ?b, H2 : cut_lt ?b ?c |- _ =>
      lazymatch goal with H : cut_lt a c |- _ => fail | _ => pose proof (cut_lt_trans _ _ _ H1 H2) end
  | H1 : cut_le ?a ?b, H2 : cut_lt ?b ?c |- _ =>
      lazymatch goal with H : cut_lt a c |- _ => fail | _ => pose proof (cut_le_lt_trans _ _ _ H1 H2) end
  | H1 : cut_lt ?a ?b, H2 : cut_le ?b ?c |- _ =>
      lazymatch goal with H : cut_lt a c |- _ => fail | _ => pose proof (cut_lt_le_trans _ _ _ H1 H2) end
  | H1 : cut_le ?a ?b, H2 : cut_le ?b ?c |- _ =>
      lazymatch goal with H : cut_le a c |- _ => fail | _ => pose proof (cut_le_trans _ _ _ H1 H2) end
  end.

Ltac cut_order :=
  subst;
  lazymatch goal with
  | |- cut_lt ?a ?b => destruct (cut_lt_total a b) as [?|[?|?]]; [assumption|subst; cut_saturate|cut_saturate]
  | |- cut_le ?a ?b => rewrite <- cut_not_lt; intro; cut_saturate
  | |- ?a = ?b :> Cut => apply cut_le_antisym; rewrite <- cut_not_lt; intro; cut_saturate
  | |- _ => exfalso; cut_saturate
  end; try assumption; try (exfalso; cut_saturate).

(** ** Normal forms *)

Section normal_forms.
Context {T : Type} `{KeyedLaws T}.
Implicit Types (p q a b c d : Cut) (l k : list (Cut * Cut)).

Lemma in_cuts_iff p s : in_cuts p s = true <-> cut_le s.1 p /\ cut_lt p s.2.
Proof. unfold in_cuts. by rewrite andb_true_iff, cut_le_iff, cut_lt_iff. Qed.

Lemma cut_mem_iff p l : cut_mem p l = true <-> exists s, s ∈ l /\ cut_le s.1 p /\ cut_lt p s.2.
Proof.
  unfold cut_mem. rewrite existsb_exists. setoid_rewrite in_cuts_iff. by setoid_rewrite list_elem_of_In.
Qed.

Lemma cut_mem_app p l k : cut_mem p (l ++ k) = cut_mem p l || cut_mem p k.
Proof. apply existsb_app. Qed.

Lemma gapped_from_above low l s : gapped_from low l -> s ∈ l -> cut_lt low s.1 /\ cut_lt s.1 s.2.
Proof.
  revert low. induction l as [|[a b] l IH]; intros low Hl Hs; [by apply elem_of_nil in Hs|].
  destruct Hl as (Ha & Hb & Hl). apply elem_of_cons in Hs as [->|Hs]; [done|].
  destruct (IH b Hl Hs) as [? ?]. split; [cut_order|done].
Qed.

Lemma gapped_from_weaken low low' l : cut_le low low' -> gapped_from low' l -> gapped_from low l.
Proof. destruct l as [|[a b] l]; [done|]. intros ? (? & ? & ?). split; [cut_order|done]. Qed.

Lemma gapped_from_gapped low l : gapped_from low l -> gapped l.
Proof. destruct l as [|[a b] l]; [done|]. by intros (? & ? & ?). Qed.

Lemma gapped_below low p l : gapped_from low l -> cut_le p low -> cut_mem p l = false.
Proof.
  intros Hl Hp. apply not_true_iff_false. rewrite cut_mem_iff. intros (s & Hs & H1 & H2).
  destruct (gapped_from_above _ _ _ Hl Hs). cut_order.
Qed.

Lemma gapped_head a b l : gapped ((a, b) :: l) -> cut_mem a ((a, b) :: l) = true.
Proof. intros [Hab _]. rewrite cut_mem_iff. exists (a, b). split; [by left|]. split; [apply cut_le_refl|done]. Qed.

Lemma gapped_head_le a b l p : gapped ((a, b) :: l) -> cut_mem p ((a, b) :: l) = true -> cut_le a p.
Proof.
  intros [Hab Hl]. rewrite cut_mem_iff. intros (s & Hs & H1 & H2). apply elem_of_cons in Hs as [->|Hs]; [done|].
  destruct (gapped_from_above _ _ _ Hl Hs). cut_order.
Qed.

Lemma gapped_head_end a b l : gapped ((a, b) :: l) -> cut_mem b ((a, b) :: l) = false.
Proof.
  intros [Hab Hl]. cbn [cut_mem existsb]. rewrite orb_false_iff. split.
  - apply not_true_iff_false. rewrite in_cuts_iff. intros [_ ?]. cbn in *. cut_order.
  - apply (gapped_below b); [done|apply cut_le_refl].
Qed.

Lemma gapped_unique l k : gapped l -> gapped k ->
  (forall p, p <> PosInf -> cut_mem p l = cut_mem p k) -> l = k.
Proof.
  assert (starts : forall x y m, gapped ((x, y) :: m) -> x <> PosInf).
  { intros x y m [Hxy _] ->. pose proof (pos_inf_greatest y). cut_order. }
  assert (Hends : forall a b d m n, gapped ((a, b) :: m) -> gapped ((a, d) :: n) ->
    (forall p, p <> PosInf -> cut_mem p ((a, b) :: m) = cut_mem p ((a, d) :: n)) -> ~ cut_lt b d).
  { intros a b d m n Hm Hn E Hbd. assert (Hb : b <> PosInf) by (intros ->; pose proof (pos_inf_greatest d); cut_order).
    specialize (E b Hb). rewrite (gapped_head_end _ _ _ Hm) in E. symmetry in E. apply not_true_iff_false in E.
    apply E. rewrite cut_mem_iff. exists (a, d). split; [by left|]. destruct Hm. cbn. split; [by apply cut_lt_le|done]. }
  revert k. induction l as [|[a b] l IH]; intros [|[c d] k] Hl Hk E.
  - done.
  - specialize (E c (starts _ _ _ Hk)). by rewrite (gapped_head _ _ _ Hk) in E.
  - specialize (E a (starts _ _ _ Hl)). by rewrite (gapped_head _ _ _ Hl) in E.
  - assert (a = c) as ->.
    { apply cut_le_antisym.
      - apply (gapped_head_le a b l); [done|]. rewrite E by eauto. by apply gapped_head.
      - apply (gapped_head_le c d k); [done|]. rewrite <- E by eauto. by apply gapped_head. }
    assert (b = d) as ->.
    { apply cut_le_antisym; rewrite <- cut_not_lt; eapply Hends; eauto. intros p Hp. symmetry. by apply E. }
    f_equal. destruct Hl as [Hab Hl], Hk as [_ Hk]. apply IH; [by eapply gapped_from_gapped..|].
    intros p Hp. destruct (cut_lt_total d p) as [Hdp|Hdp].
    + specialize (E p Hp). cbn [cut_mem existsb] in E. fold (cut_mem p l) (cut_mem p k) in E.
      assert (in_cuts p (c, d) = false) as F.
      { apply not_true_iff_false. rewrite in_cuts_iff. cbn. intros []. cut_order. }
      by rewrite F in E.
    + assert (cut_le p d) by (destruct Hdp; [subst; apply cut_le_refl|by apply cut_lt_le]).
      by rewrite !(gapped_below d).
Qed.
End normal_forms.

(** ** An instance: sorted lists of segments *)

Section segment_lists.
Context {T : Type} `{Keyed T}.

(** The other side of a bound. *)
Definition flip (b : BoundOf T) : BoundOf T :=
  match b with Included v => Excluded v | Excluded v => Included v | Unbounded => Unbounded end.

Definition segment (s : BoundOf T * BoundOf T) : list (BoundOf T * BoundOf T) :=
  if is_lt (cut_cmp (lower_cut s.1) (upper_cut s.2)) then [s] else [].

Fixpoint gaps (low : BoundOf T) (l : list (BoundOf T * BoundOf T)) : list (BoundOf T * BoundOf T) :=
  match l with
  | [] => [(low, Unbounded)]
  | (a, b) :: rest =>
      (if is_lt (cut_cmp (lower_cut low) (lower_cut a)) then [(low, flip a)] else []) ++
      match b with Unbounded => [] | _ => gaps (flip b) rest end
  end.

Definition meet (s t : BoundOf T * BoundOf T) : list (BoundOf T * BoundOf T) :=
  segment
    (if is_le (cut_cmp (lower_cut s.1) (lower_cut t.1)) then t.1 else s.1,
     if is_le (cut_cmp (upper_cut s.2) (upper_cut t.2)) then s.2 else t.2).

Definition list_complement (l : list (BoundOf T * BoundOf T)) := gaps Unbounded l.
Definition list_intersection (l k : list (BoundOf T * BoundOf T)) :=
  flat_map (fun s => flat_map (meet s) k) l.
Definition list_union (l k : list (BoundOf T * BoundOf T)) :=
  list_complement (list_intersection (list_complement l) (list_complement k)).

#[export] Instance segment_lists : RangeSet T (list (BoundOf T * BoundOf T)) := {
  rs_contains r x := cut_mem (at_value x) (map seg_cuts r);
  rs_iter r := r;
  rs_empty := [];
  rs_full := [(Unbounded, Unbounded)];
  rs_singleton v := [(Included v, Included v)];
  rs_higher_than v := [(Included v, Unbounded)];
  rs_strictly_higher_than v := [(Excluded v, Unbounded)];
  rs_lower_than v := [(Unbounded, Included v)];
  rs_strictly_lower_than v := [(Unbounded, Excluded v)];
  rs_between v w := [(Included v, Excluded w)];
  rs_from_range_bounds := segment;
  rs_collect l := foldr (fun s r => list_union (segment s) r) [] l;
  rs_complement := list_complement;
  rs_intersection := list_intersection;
  rs_union := list_union;
  rs_is_empty r := match r with [] => true | _ => false end;
  rs_is_disjoint r s := match list_intersection r s with [] => true | _ => false end;
  rs_bounding_range r :=
    match r, last r with
    | (low, _) :: _, Some (_, high) => Some (low, high)
    | _, _ => None
    end;
  rs_as_singleton r :=
    match r with
    | [(Included v, Included w)] => if is_eq (value_cmp v w) then Some v else None
    | _ => None
    end;
  rs_eqb r s := is_eq (list_cmp (pair_cmp cut_cmp cut_cmp) (map seg_cuts r) (map seg_cuts s));
}.
End segment_lists.

Section segment_lists_laws.
Context {T : Type} `{KeyedLaws T}.
Implicit Types (p : Cut).

Let apart (s t : Cut * Cut) : Prop := cut_lt s.2 t.1.

Lemma gapped_from_sorted low c : gapped_from low c <->
  Forall (fun s => cut_lt low s.1) c /\ Forall (fun s => cut_lt s.1 s.2) c /\ StronglySorted apart c.
Proof.
  revert low. induction c as [|[a b] c IH]; intros low; [by repeat split; constructor|]. cbn [gapped_from]. rewrite IH.
  rewrite !Forall_cons. cbn [fst snd]. split.
  - intros (H1 & H2 & H3 & H4 & H5). repeat split; try done.
    + eapply Forall_impl; [exact H3|]. intros s Hs. cbn in Hs. cut_order.
    + by constructor.
  - intros ([H1 H2] & [H3 H4] & [H5 H6]%StronglySorted_inv). by repeat split.
Qed.

Lemma gapped_sorted c : gapped c <-> Forall (fun s => cut_lt s.1 s.2) c /\ StronglySorted apart c.
Proof.
  destruct c as [|[a b] c]; [by repeat split; constructor|]. cbn [gapped]. rewrite gapped_from_sorted, Forall_cons. split.
  - intros (? & ? & ? & ?). repeat split; try done. by constructor.
  - intros ([? ?] & [? ?]%StronglySorted_inv). by repeat split.
Qed.

Lemma flat_map_sorted {A B} (R : A -> A -> Prop) (S : B -> B -> Prop) (f : A -> list B) l :
  StronglySorted R l -> (forall x, StronglySorted S (f x)) ->
  (forall x y u v, R x y -> u ∈ f x -> v ∈ f y -> S u v) -> StronglySorted S (flat_map f l).
Proof.
  intros Hl Hf HR. induction Hl as [|x l Hl IH Hx]; [constructor|]. cbn. apply StronglySorted_app. split; [|done..].
  intros u v Hu Hv. apply list_elem_of_In, in_flat_map in Hv as (y & Hy & Hv). rewrite <- list_elem_of_In in Hy. rewrite <- list_elem_of_In in Hv.
  rewrite Forall_forall in Hx. eapply HR; eauto.
Qed.

Implicit Types (s t : BoundOf T * BoundOf T) (l k : list (BoundOf T * BoundOf T)).

Lemma segment_cuts s : map seg_cuts (segment s) = if is_lt (cut_cmp (seg_cuts s).1 (seg_cuts s).2) then [seg_cuts s] else [].
Proof. unfold segment. cbn [seg_cuts fst snd]. by destruct (is_lt _). Qed.

Lemma segment_covers s : seg_valid s = true -> covers (segment s) (fun p => in_cuts p (seg_cuts s)).
Proof.
  intros Hs. unfold covers, rs_ok, rs_cuts. cbn [rs_iter segment_lists]. rewrite segment_cuts. unfold segment. cbn [seg_cuts fst snd].
  destruct (is_lt _) eqn:E; cbn.
  - rewrite Hs. repeat split; [by apply cut_lt_iff|]. intros p _. apply orb_false_r.
  - repeat split. intros p _. symmetry. apply not_true_iff_false. rewrite in_cuts_iff. intros [H1 H2]. cbn in *.
    apply not_true_iff_false in E. apply E, cut_lt_iff. cut_order.
Qed.

Lemma max_cut (a c p : Cut) : cut_le (if is_le (cut_cmp a c) then c else a) p <-> cut_le a p /\ cut_le c p.
Proof.
  destruct (is_le _) eqn:E.
  - apply cut_le_iff in E. split; [intros; split; [cut_order|done]|by intros []].
  - apply not_true_iff_false in E. rewrite cut_le_iff, cut_not_le in E. split; [|by intros []].
    intros. split; [done|]. cut_order.
Qed.

Lemma min_cut (b d p : Cut) : cut_lt p (if is_le (cut_cmp b d) then b else d) <-> cut_lt p b /\ cut_lt p d.
Proof.
  destruct (is_le _) eqn:E.
  - apply cut_le_iff in E. split; [intros; split; [done|cut_order]|by intros []].
  - apply not_true_iff_false in E. rewrite cut_le_iff, cut_not_le in E. split; [|by intros []].
    intros. split; [|done]. cut_order.
Qed.

Lemma if_bound {A} (f : BoundOf T -> A) (c : bool) (x y : BoundOf T) : f (if c then x else y) = if c then f x else f y.
Proof. by destruct c. Qed.

Lemma meet_cuts p s t : seg_valid s = true -> seg_valid t = true ->
  cut_mem p (map seg_cuts (meet s t)) = in_cuts p (seg_cuts s) && in_cuts p (seg_cuts t).
Proof.
  intros Hs Ht. unfold meet. destruct s as [a b], t as [c d]. cbn [fst snd].
  rewrite segment_cuts. unfold seg_cuts. cbn [fst snd]. rewrite !(if_bound lower_cut), !(if_bound upper_cut).
  set (lo := if is_le _ then lower_cut c else _). set (hi := if is_le _ then upper_cut b else _).
  apply Bool.eq_iff_eq_true. rewrite andb_true_iff, !in_cuts_iff. cbn [fst snd].
  assert (cut_mem p (if is_lt (cut_cmp lo hi) then [(lo, hi)] else []) = true <-> cut_le lo p /\ cut_lt p hi) as ->.
  { destruct (is_lt _) eqn:E; cbn [cut_mem existsb].
    - by rewrite orb_false_r, in_cuts_iff.
    - split; [done|]. intros [H1 H2]. apply not_true_iff_false in E. exfalso. apply E, cut_lt_iff. cut_order. }
  unfold lo, hi. rewrite max_cut, min_cut. tauto.
Qed.

Lemma meet_within s t x : x ∈ map seg_cuts (meet s t) ->
  cut_lt x.1 x.2 /\ (cut_le (seg_cuts s).1 x.1 /\ cut_le x.2 (seg_cuts s).2) /\
  cut_le (seg_cuts t).1 x.1 /\ cut_le x.2 (seg_cuts t).2.
Proof.
  unfold meet. rewrite segment_cuts. destruct s as [a b], t as [c d]. unfold seg_cuts. cbn [fst snd]. rewrite !(if_bound lower_cut), !(if_bound upper_cut).
  set (lo := if is_le _ then lower_cut c else _). set (hi := if is_le _ then upper_cut b else _).
  destruct (is_lt _) eqn:E; [|by intros ?%elem_of_nil]. intros ->%list_elem_of_singleton. cbn [fst snd].
  apply cut_lt_iff in E. split; [done|].
  destruct (proj1 (max_cut (lower_cut a) (lower_cut c) lo) (cut_le_refl _)) as [? ?].
  split; (split; [done|]); rewrite <- cut_not_lt; intros Hlt.
  all: apply min_cut in Hlt as [? ?]; cut_order.
Qed.

Lemma map_flat_map {A B C} (g : B -> C) (f : A -> list B) (l : list A) : map g (flat_map f l) = flat_map (fun x => map g (f x)) l.
Proof. induction l as [|x l IH]; [done|]. cbn. by rewrite map_app, IH. Qed.

Lemma sorted_map_inv {A B} (R : B -> B -> Prop) (f : A -> B) (l : list A) :
  StronglySorted R (map f l) <-> StronglySorted (fun x y => R (f x) (f y)) l.
Proof.
  induction l as [|x l IH]; [by split; constructor|]. cbn.
  split; intros [H1 H2]%StronglySorted_inv; (constructor; [by apply IH|]); by rewrite Forall_map in *.
Qed.

Lemma short_sorted {A} (R : A -> A -> Prop) (l : list A) : (length l <= 1)%nat -> StronglySorted R l.
Proof. destruct l as [|x [|y l]]; intros; cbn in *; [repeat constructor..|lia]. Qed.

Lemma meet_length s t : (length (meet s t) <= 1)%nat.
Proof. unfold meet, segment. destruct (is_lt _); cbn; lia. Qed.

Lemma meets_within s k x : x ∈ flat_map (fun t => map seg_cuts (meet s t)) k ->
  cut_lt x.1 x.2 /\ cut_le (seg_cuts s).1 x.1 /\ cut_le x.2 (seg_cuts s).2.
Proof. intros (t & _ & Hx)%elem_of_flat_map. apply meet_within in Hx. tauto. Qed.

Lemma intersection_gapped l k : gapped (map seg_cuts l) -> gapped (map seg_cuts k) ->
  gapped (map seg_cuts (list_intersection l k)).
Proof.
  rewrite !gapped_sorted. intros [_ Hl] [_ Hk]. rewrite sorted_map_inv in Hl, Hk. unfold list_intersection.
  rewrite map_flat_map. assert (forall s, map seg_cuts (flat_map (meet s) k) = flat_map (fun t => map seg_cuts (meet s t)) k) as E.
  { intros s. apply map_flat_map. }
  rewrite (flat_map_ext _ _ E). split.
  - apply Forall_forall. intros x (s & _ & Hx)%elem_of_flat_map. by apply meets_within in Hx as [? _].
  - eapply flat_map_sorted; [exact Hl| |].
    + intros s. eapply flat_map_sorted; [exact Hk| |].
      * intros t. apply short_sorted. rewrite length_map. apply meet_length.
      * unfold apart. intros t t' u v Htt Hu%meet_within Hv%meet_within. destruct_and!. cut_order.
    + unfold apart. intros s s' u v Hss Hu%meets_within Hv%meets_within. destruct_and!. cut_order.
Qed.

Lemma forallb_flat_map {A B} (q : B -> bool) (f : A -> list B) (l : list A) :
  forallb q (flat_map f l) = forallb (fun x => forallb q (f x)) l.
Proof. induction l as [|x l IH]; [done|]. cbn. by rewrite forallb_app, IH. Qed.

Lemma meet_valid s t : seg_valid s = true -> seg_valid t = true -> forallb seg_valid (meet s t) = true.
Proof.
  unfold meet, segment, seg_valid. rewrite !andb_true_iff. intros [] []. destruct (is_lt _); [|done]. cbn.
  destruct (is_le _), (is_le _); cbn; by repeat (rewrite andb_true_iff; split).
Qed.

Lemma forallb_true_iff {A} (q : A -> bool) (l : list A) : forallb q l = true <-> forall x, x ∈ l -> q x = true.
Proof. rewrite forallb_forall. by setoid_rewrite list_elem_of_In. Qed.

Lemma intersection_covers l k : rs_ok l -> rs_ok k ->
  covers (list_intersection l k) (fun p => cut_mem p (rs_cuts l) && cut_mem p (rs_cuts k)).
Proof.
  intros [Vl Gl] [Vk Gk]. unfold covers, rs_ok, rs_cuts in *. cbn [rs_iter segment_lists] in *.
  rewrite forallb_true_iff in Vl, Vk. split; [split|].
  - unfold list_intersection. rewrite forallb_flat_map, forallb_true_iff. intros s Hs.
    rewrite forallb_flat_map, forallb_true_iff. intros t Ht. apply meet_valid; auto.
  - by apply intersection_gapped.
  - intros p _. unfold list_intersection. rewrite map_flat_map. apply Bool.eq_iff_eq_true.
    rewrite andb_true_iff, !cut_mem_iff. split.
    + intros (x & (s & Hs & Hx)%elem_of_flat_map & H1 & H2). rewrite map_flat_map in Hx.
      apply elem_of_flat_map in Hx as (t & Ht & Hx). apply meet_within in Hx. destruct_and!.
      split; [exists (seg_cuts s)|exists (seg_cuts t)]; (split; [by apply elem_of_map; eexists|]); split; cut_order.
    + intros [(s' & (s & -> & Hs)%elem_of_map & H1 & H2) (t' & (t & -> & Ht)%elem_of_map & H3 & H4)].
      assert (cut_mem p (map seg_cuts (meet s t)) = true) as M.
      { rewrite meet_cuts by auto. rewrite andb_true_iff, !in_cuts_iff. tauto. }
      apply cut_mem_iff in M as (x & Hx & M). exists x. split; [|done]. apply elem_of_flat_map. exists s. split; [done|].
      rewrite map_flat_map. apply elem_of_flat_map. by exists t.
Qed.

Lemma upper_flip (a : BoundOf T) : a <> Unbounded -> upper_cut (flip a) = lower_cut a.
Proof. by destruct a. Qed.

Lemma lower_flip (b : BoundOf T) : b <> Unbounded -> lower_cut (flip b) = upper_cut b.
Proof. by destruct b. Qed.

Lemma lower_cut_open (low : BoundOf T) : cut_lt (lower_cut low) PosInf.
Proof. by destruct low. Qed.

Lemma flip_valid (a : BoundOf T) : bound_valid (flip a) = bound_valid a.
Proof. by destruct a. Qed.

Definition starts_after (low : Cut) (c : list (Cut * Cut)) : Prop :=
  match c with [] => True | (a, _) :: _ => cut_le low a end.

(** [g] lists, from [low] on, the gaps of [c]. *)
Definition gaps_of (low : Cut) (g : list (BoundOf T * BoundOf T)) (c : list (Cut * Cut)) : Prop :=
  forallb seg_valid g = true /\ gapped (map seg_cuts g) /\
  Forall (fun x => cut_le low x.1) (map seg_cuts g) /\
  forall p, p <> PosInf -> cut_le low p -> cut_mem p (map seg_cuts g) = negb (cut_mem p c).

Lemma cut_mem_before low p (c : list (Cut * Cut)) : Forall (fun x => cut_le low x.1) c -> cut_lt p low -> cut_mem p c = false.
Proof.
  rewrite Forall_forall. intros Hc Hp. apply not_true_iff_false. rewrite cut_mem_iff. intros (x & Hx & H1 & _).
  specialize (Hc x Hx). cbn in Hc. cut_order.
Qed.

Lemma gapped_cons a b (c : list (Cut * Cut)) low : cut_lt a b -> cut_lt b low -> gapped c ->
  Forall (fun x => cut_le low x.1) c -> gapped ((a, b) :: c).
Proof.
  rewrite !gapped_sorted, Forall_cons. intros Hab Hb [H1 H2] Hc. repeat split; try done. constructor; [done|].
  eapply Forall_impl; [exact Hc|]. unfold apart. cbn. intros. cut_order.
Qed.

Lemma gaps_of_cons (low a b : BoundOf T) g (c : list (Cut * Cut)) : bound_valid low = true -> bound_valid a = true ->
  cut_le (lower_cut low) (lower_cut a) -> cut_lt (lower_cut a) (upper_cut b) -> gapped_from (upper_cut b) c ->
  gaps_of (upper_cut b) g c ->
  gaps_of (lower_cut low)
    ((if is_lt (cut_cmp (lower_cut low) (lower_cut a)) then [(low, flip a)] else []) ++ g)
    ((lower_cut a, upper_cut b) :: c).
Proof.
  intros Vlow Va Hla Hab Gc (Vg & Gg & Fg & Mg).
  assert (head : forall p, p <> PosInf -> cut_mem p ((lower_cut a, upper_cut b) :: c) =
    in_cuts p (lower_cut a, upper_cut b) || cut_mem p c) by done.
  assert (Fg' : Forall (fun x => cut_le (lower_cut low) x.1) (map seg_cuts g)).
  { eapply Forall_impl; [exact Fg|]. cbn. intros. cut_order. }
  assert (mem : forall p, p <> PosInf -> cut_le (lower_cut a) p ->
    cut_mem p (map seg_cuts g) = negb (in_cuts p (lower_cut a, upper_cut b) || cut_mem p c)).
  { intros p Hp Hap. destruct (in_cuts p _) eqn:E.
    - apply in_cuts_iff in E as [_ E]. by rewrite (cut_mem_before (upper_cut b)).
    - apply Mg; [done|]. rewrite <- cut_not_lt. intros Hlt. apply not_true_iff_false in E. by apply E, in_cuts_iff. }
  destruct (is_lt _) eqn:E; cbn [app].
  - apply cut_lt_iff in E. assert (Ha : a <> Unbounded) by (intros ->; pose proof (neg_inf_least (lower_cut low)); cbn in E; cut_order).
    unfold gaps_of. cbn [forallb map]. change (seg_cuts (low, flip a)) with (lower_cut low, upper_cut (flip a)).
    rewrite upper_flip by done. unfold seg_valid at 1. cbn [fst snd].
    rewrite flip_valid, Vlow, Va, Vg. split; [done|].
    split; [by apply (gapped_cons _ _ _ (upper_cut b))|]. split; [constructor; [apply cut_le_refl|done]|].
    intros p Hp Hlp. rewrite (head p Hp). cbn [cut_mem existsb]. fold (cut_mem p (map seg_cuts g)).
    destruct (in_cuts p (lower_cut low, lower_cut a)) eqn:I.
    + apply in_cuts_iff in I as [_ I]. cbn in I. symmetry. cbn. apply negb_true_iff, orb_false_iff. split.
      * apply not_true_iff_false. rewrite in_cuts_iff. cbn. intros []. cut_order.
      * apply (gapped_below (upper_cut b)); [done|]. cut_order.
    + apply mem; [done|]. rewrite <- cut_not_lt. intros Hlt. apply not_true_iff_false in I. by apply I, in_cuts_iff.
  - apply not_true_iff_false in E. rewrite cut_lt_iff in E. split; [done|]. split; [done|]. split; [done|].
    intros p Hp Hlp. rewrite (head p Hp). apply mem; [done|]. cut_order.
Qed.

Lemma gaps_spec l (low : BoundOf T) : bound_valid low = true -> forallb seg_valid l = true ->
  gapped (map seg_cuts l) -> starts_after (lower_cut low) (map seg_cuts l) ->
  gaps_of (lower_cut low) (gaps low l) (map seg_cuts l).
Proof.
  revert low. induction l as [|[a b] l IH]; intros low Vlow Vl Gl Sl.
  { unfold gaps_of. cbn. unfold seg_valid. cbn. rewrite Vlow. repeat split; [apply lower_cut_open| |].
    - constructor; [apply cut_le_refl|constructor].
    - intros p Hp Hle. rewrite orb_false_r. apply in_cuts_iff. split; [done|]. by destruct p. }
  cbn [forallb] in Vl. apply andb_true_iff in Vl as [[Va Vb]%andb_true_iff Vl]. cbn [fst snd] in Va, Vb.
  destruct Gl as [Hab Gl]. fold (map seg_cuts l) in Gl. apply gaps_of_cons; try done.
  assert (b = Unbounded \/ b <> Unbounded) as [->|Hb] by (destruct b; auto).
  - destruct l as [|[c d] l]; [|by destruct Gl as [Gl _]; cbn in Gl; pose proof (pos_inf_greatest (lower_cut c)); cut_order].
    repeat split; [constructor|]. intros p Hp Hle. cbn in Hle. exfalso. apply Hp. apply cut_le_antisym; [apply pos_inf_greatest|done].
  - rewrite <- lower_flip by done. replace (match b with Unbounded => [] | _ => _ end) with (gaps (flip b) l) by (by destruct b).
    apply IH; [by rewrite flip_valid|done|by eapply gapped_from_gapped|]. rewrite lower_flip by done.
    destruct l as [|[c d] l]; [done|]. destruct Gl as [Gl _]. by apply cut_lt_le.
Qed.

Lemma complement_covers l : rs_ok l -> covers (list_complement l) (fun p => negb (cut_mem p (rs_cuts l))).
Proof.
  intros [Vl Gl]. destruct (gaps_spec l Unbounded eq_refl Vl Gl) as (V & G & _ & M).
  { unfold starts_after. destruct (map _ _) as [|[] ?]; [done|apply neg_inf_least]. }
  split; [by split|]. intros p Hp. apply M; [done|apply neg_inf_least].
Qed.

Lemma union_covers l k : rs_ok l -> rs_ok k ->
  covers (list_union l k) (fun p => cut_mem p (rs_cuts l) || cut_mem p (rs_cuts k)).
Proof.
  intros Hl Hk. unfold list_union. destruct (complement_covers l Hl) as [Cl Ml], (complement_covers k Hk) as [Ck Mk].
  destruct (intersection_covers _ _ Cl Ck) as [Ci Mi]. destruct (complement_covers _ Ci) as [Cu Mu].
  split; [done|]. intros p Hp. rewrite Mu, Mi, Ml, Mk by done. by destruct (cut_mem _ _), (cut_mem _ _).
Qed.

Lemma collect_covers l : forallb seg_valid l = true ->
  covers (rs_collect l) (fun p => cut_mem p (map seg_cuts l)).
Proof.
  induction l as [|s l IH]; [by repeat split|]. cbn [forallb]. intros [Vs Vl]%andb_true_iff.
  destruct (IH Vl) as [Cl Ml], (segment_covers s Vs) as [Cs Ms]. destruct (union_covers _ _ Cs Cl) as [Cu Mu].
  split; [done|]. intros p Hp. cbn [rs_collect segment_lists foldr]. rewrite Mu, Ms by done. cbn [map cut_mem existsb].
  f_equal. by apply Ml.
Qed.

Lemma one_segment_covers s (c : Cut * Cut) : seg_valid s = true -> seg_cuts s = c -> cut_lt c.1 c.2 ->
  covers [s] (fun p => in_cuts p c).
Proof.
  intros Vs <- Hc. split; [split|]; cbn.
  - by rewrite Vs.
  - by split.
  - intros p _. apply orb_false_r.
Qed.

Lemma before_after (v : key_type) : cut_lt (before v) (after v).
Proof. unfold cut_lt, cut_cmp, pair_cmp. cbn. by rewrite (ord_refl key_order). Qed.

Lemma before_open (v : key_type) :
  cut_lt (before v) PosInf /\ cut_lt (after v) PosInf /\ cut_lt NegInf (before v) /\ cut_lt NegInf (after v).
Proof. done. Qed.

#[export] Instance segment_lists_laws : RangeSetLaws T (list (BoundOf T * BoundOf T)).
Proof.
  constructor; try done.
  1-5: intros v Hv; apply one_segment_covers; [by unfold seg_valid; cbn; rewrite ?Hv|done|].
  1: apply before_after. 1-4: apply before_open.
  - intros v w Hv Hw Hlt. apply one_segment_covers; [by unfold seg_valid; cbn; rewrite Hv, Hw|done|].
    rewrite value_cmp_key in Hlt by done. unfold cut_lt, cut_cmp, pair_cmp. cbn. by rewrite Hlt.
  - apply segment_covers.
  - apply collect_covers.
  - apply complement_covers.
  - apply intersection_covers.
  - apply union_covers.
  - intros r. cbn. by destruct r as [|[] ?].
  - intros r s _ _. unfold rs_cuts. cbn [rs_eqb rs_iter segment_lists]. split; intros E.
    + apply (ord_eq (list_cmp (pair_cmp cut_cmp cut_cmp))). by destruct (list_cmp _ _ _).
    + by rewrite E, (ord_refl (list_cmp (pair_cmp cut_cmp cut_cmp))).
Qed.
End segment_lists_laws.

(** ** Where bounds come from

    A union keeps the bounds of its operands, on their side, and a segment is kept
    as it was given.  The laws above fix bounds up to the order of [T] only; this
    one also fixes which of several equal values is kept. *)

Class RangeSetBounds (T R : Type) `{!RangeSet T R} : Prop := {
  rs_union_bounds : forall (r s : R) seg, seg ∈ rs_iter (rs_union r s) ->
    (seg.1 = Unbounded \/ exists seg', seg' ∈ rs_iter r ++ rs_iter s /\ seg.1 = seg'.1) /\
    (seg.2 = Unbounded \/ exists seg', seg' ∈ rs_iter r ++ rs_iter s /\ seg.2 = seg'.2);
  rs_segment_bounds : forall bounds seg, seg ∈ rs_iter (R := R) (rs_from_range_bounds bounds) -> seg = bounds;
}.

Section segment_lists_bounds.
Context {T : Type} `{Keyed T}.
Implicit Types (l k : list (BoundOf T * BoundOf T)) (seg : BoundOf T * BoundOf T).

Lemma flip_flip (b : BoundOf T) : flip (flip b) = b.
Proof. by destruct b. Qed.

Lemma gaps_bounds low l seg : seg ∈ gaps low l ->
  (seg.1 = low \/ exists s, s ∈ l /\ seg.1 = flip s.2) /\ (seg.2 = Unbounded \/ exists s, s ∈ l /\ seg.2 = flip s.1).
Proof.
  revert low. induction l as [|[a b] l IH]; intros low; cbn [gaps]; [intros ->%list_elem_of_singleton; auto|].
  rewrite elem_of_app. intros [Hin|Hin].
  - destruct (is_lt _); [|by apply elem_of_nil in Hin]. apply list_elem_of_singleton in Hin as ->. cbn.
    split; [by left|]. right. exists (a, b). split; [by left|done].
  - assert (Hin' : seg ∈ gaps (flip b) l) by (destruct b; [done|done|by apply elem_of_nil in Hin]).
    destruct (IH _ Hin') as [H1 H2]. split.
    + right. destruct H1 as [->|(s & Hs & ->)]; [exists (a, b)|exists s]; (split; [|done]); [by left|by right].
    + destruct H2 as [->|(s & Hs & ->)]; [by left|]. right. exists s. split; [by right|done].
Qed.

Lemma intersection_bounds l k seg : seg ∈ list_intersection l k ->
  (exists s, s ∈ l ++ k /\ seg.1 = s.1) /\ (exists s, s ∈ l ++ k /\ seg.2 = s.2).
Proof.
  intros (a & Ha & (b & Hb & Hin)%elem_of_flat_map)%elem_of_flat_map. unfold meet, segment in Hin. cbn [fst snd] in Hin.
  destruct (is_lt _); [|by apply elem_of_nil in Hin]. apply list_elem_of_singleton in Hin as ->. cbn [fst snd].
  split; destruct (is_le _); first [exists a; split; [apply elem_of_app; by left|done] | exists b; split; [apply elem_of_app; by right|done]].
Qed.

#[export] Instance segment_lists_bounds : RangeSetBounds T (list (BoundOf T * BoundOf T)).
Proof.
  split.
  - intros l k seg Hin. cbn [rs_iter rs_union segment_lists] in *. unfold list_union, list_complement in Hin.
    apply gaps_bounds in Hin as [H1 H2].
    assert (Hside : forall s, s ∈ gaps Unbounded l ++ gaps Unbounded k ->
      (s.1 = Unbounded \/ exists s', s' ∈ l ++ k /\ s.1 = flip s'.2) /\ (s.2 = Unbounded \/ exists s', s' ∈ l ++ k /\ s.2 = flip s'.1)).
    { intros s [Hs|Hs]%elem_of_app; destruct (gaps_bounds _ _ _ Hs) as [G1 G2]; split;
        [destruct G1 as [?|(s' & ? & ?)]|destruct G2 as [?|(s' & ? & ?)]|destruct G1 as [?|(s' & ? & ?)]|destruct G2 as [?|(s' & ? & ?)]];
        auto; right; exists s'; (split; [apply elem_of_app; auto|done]). }
    split.
    + destruct H1 as [?|(s & [_ (s' & Hs' & E')]%intersection_bounds & ->)]; [by left|].
      destruct (proj2 (Hside s' Hs')) as [Eu|(s2 & H2' & E2)]; rewrite E', ?Eu, ?E2, ?flip_flip; [by left|right; eauto].
    + destruct H2 as [?|(s & [(s' & Hs' & E') _]%intersection_bounds & ->)]; [by left|].
      destruct (proj1 (Hside s' Hs')) as [Eu|(s2 & H2' & E2)]; rewrite E', ?Eu, ?E2, ?flip_flip; [by left|right; eauto].
  - intros b seg Hin. cbn in Hin. unfold segment in Hin. destruct (is_lt _); [|by apply elem_of_nil in Hin]. by apply list_elem_of_singleton in Hin.
Qed.
End segment_lists_bounds.

(** ** The values of bounds

    No operation makes up values: a property of the values given to the
    constructors is a property of the bounds of every result. *)

Definition bound_value {T} (P : T -> bool) (b : BoundOf T) : bool :=
  match b with Included v | Excluded v => P v | Unbounded => true end.

Definition values_all {T R} `{!RangeSet T R} (P : T -> bool) (r : R) : Prop :=
  forall seg, seg ∈ rs_iter r -> bound_value P seg.1 = true /\ bound_value P seg.2 = true.

Class RangeSetValues (T R : Type) `{!RangeSet T R} : Prop := {
  rs_singleton_values : forall P (v : T), P v = true -> values_all (R := R) P (rs_singleton v);
  rs_higher_than_values : forall P (v : T), P v = true -> values_all (R := R) P (rs_higher_than v);
  rs_strictly_higher_than_values : forall P (v : T), P v = true -> values_all (R := R) P (rs_strictly_higher_than v);
  rs_lower_than_values : forall P (v : T), P v = true -> values_all (R := R) P (rs_lower_than v);
  rs_strictly_lower_than_values : forall P (v : T), P v = true -> values_all (R := R) P (rs_strictly_lower_than v);
  rs_from_range_bounds_values : forall P (bounds : BoundOf T * BoundOf T), bound_value P bounds.1 = true -> bound_value P bounds.2 = true ->
    values_all (R := R) P (rs_from_range_bounds bounds);
  rs_complement_values : forall P (r : R), values_all P r -> values_all P (rs_complement r);
  rs_intersection_values : forall P (r s : R), values_all P r -> values_all P s -> values_all P (rs_intersection r s);
}.

Section segment_lists_values.
Context {T : Type} `{Keyed T}.

Lemma one_segment_values (P : T -> bool) (b : BoundOf T * BoundOf T) : bound_value P b.1 = true -> bound_value P b.2 = true ->
  values_all (R := list (BoundOf T * BoundOf T)) P [b].
Proof. intros H1 H2 seg ->%list_elem_of_singleton. done. Qed.

Lemma flip_value (P : T -> bool) b : bound_value P (flip b) = bound_value P b.
Proof. by destruct b. Qed.

#[export] Instance segment_lists_values : RangeSetValues T (list (BoundOf T * BoundOf T)).
Proof.
  split; try (intros P v Hv; by apply one_segment_values).
  - intros P [a b] Ha Hb seg Hin. cbn in Hin. unfold segment in Hin. destruct (is_lt _); [|by apply elem_of_nil in Hin].
    by apply list_elem_of_singleton in Hin as ->.
  - intros P r Hr seg Hin. apply gaps_bounds in Hin as [H1 H2]. split.
    + destruct H1 as [->|(s & Hs & ->)]; [done|]. rewrite flip_value. by apply Hr.
    + destruct H2 as [->|(s & Hs & ->)]; [done|]. rewrite flip_value. by apply Hr.
  - intros P r s Hr Hs seg Hin. apply intersection_bounds in Hin as [(a & Ha & ->) (b & Hb & ->)].
    split; [apply elem_of_app in Ha as [Ha|Ha]|apply elem_of_app in Hb as [Hb|Hb]]; first [by apply Hr|by apply Hs].
Qed.
End segment_lists_values.
