(* ===== verification/Stateful.v ===== *)
(** * Operations on a shared state that can panic

    The marker algebra runs behind a lock: every operation reads and extends one
    interner.  [M S] threads such a state, and a panic abandons it.

    [runs] is the specification of an operation: started in a state that
    satisfies the invariant it returns, and the new state satisfies the invariant,
    extends the old one, and is related to the result.  The rules follow the
    structure of programs. *)

From Stdlib Require Import ZArith Lia.
From stdpp Require Import base list.
From S2P Require Import Prelude.
Open Scope Z_scope.

Definition M (S A : Type) : Type := S -> outcome (A * S).

Definition mpure {S A} (a : A) : M S A := fun s => Ret (a, s).
Definition mpanic {S A} : M S A := fun _ => Panic.
Definition mseq {S A B} (m : M S A) (k : A -> M S B) : M S B :=
  fun s => match m s with Ret (a, s') => k a s' | Panic => Panic end.
Definition mget {S} : M S S := fun s => Ret (s, s).
Definition mput {S} (s : S) : M S unit := fun _ => Ret (tt, s).
Definition mlift {S A} (o : outcome A) : M S A := fun s => outcome_map (fun a => (a, s)) o.

Notation "'let*' x ':=' e 'in' k" := (mseq e (fun x => k))
  (at level 10, x name, e at level 100, k at level 200) : uv_scope.

(** [iter().map(f).collect()] and [for] loops with an accumulator. *)
Fixpoint map_m {S A B} (f : A -> M S B) (l : list A) : M S (list B) :=
  match l with
  | [] => mpure []
  | a :: l' => let* b := f a in let* rest := map_m f l' in mpure (b :: rest)
  end.

Fixpoint fold_m {S A B} (f : B -> A -> M S B) (acc : B) (l : list A) : M S B :=
  match l with
  | [] => mpure acc
  | a :: l' => let* acc' := f acc a in fold_m f acc' l'
  end.

(** Loops that can panic: the results of all rounds, and their concatenation. *)
Fixpoint map_o {A B} (f : A -> outcome B) (l : list A) : outcome (list B) :=
  match l with
  | [] => Ret []
  | x :: rest => let! y := f x in let! ys := map_o f rest in Ret (y :: ys)
  end.

Definition concat_o {A B} (f : A -> outcome (list B)) (l : list A) : outcome (list B) :=
  outcome_map (@concat B) (map_o f l).

(** A sort whose comparison can panic. *)
Fixpoint insert_by_o {A} (cmp : A -> A -> outcome comparison) (x : A) (l : list A) : outcome (list A) :=
  match l with
  | [] => Ret [x]
  | y :: l' =>
      let! c := cmp x y in
      if is_gt c then outcome_map (cons y) (insert_by_o cmp x l') else Ret (x :: l)
  end.

Fixpoint sort_by_o {A} (cmp : A -> A -> outcome comparison) (l : list A) : outcome (list A) :=
  match l with
  | [] => Ret []
  | x :: l' => let! rest := sort_by_o cmp l' in insert_by_o cmp x rest
  end.

(** The sort of elements whose comparison cannot panic. *)
Lemma insert_by_pure {A} (P : A -> Prop) (cmp : A -> A -> outcome comparison) c x l :
  (forall a b, P a -> P b -> exists d, cmp a b = Ret d /\ is_gt d = is_gt (c a b)) ->
  P x -> Forall P l -> insert_by_o cmp x l = Ret (insert_by c x l).
Proof.
  intros Hc Hx Hl. induction Hl as [|y l Hy Hl IH]; [done|]. cbn [insert_by_o insert_by].
  destruct (Hc x y Hx Hy) as (d & -> & E). cbn [obind]. rewrite E. destruct (is_gt (c x y)); [by rewrite IH|done].
Qed.

Lemma insert_by_Forall {A} (P : A -> Prop) c x (l : list A) : P x -> Forall P l -> Forall P (insert_by c x l).
Proof.
  intros Hx Hl. induction Hl as [|y l Hy Hl IH]; cbn; [by repeat constructor|]. destruct (is_gt _); by repeat constructor.
Qed.

Lemma sort_by_pure {A} (P : A -> Prop) (cmp : A -> A -> outcome comparison) c l :
  (forall a b, P a -> P b -> exists d, cmp a b = Ret d /\ is_gt d = is_gt (c a b)) ->
  Forall P l -> sort_by_o cmp l = Ret (sort_by c l).
Proof.
  intros Hc Hl. assert (sort_by_o cmp l = Ret (sort_by c l) /\ Forall P (sort_by c l)) as [E _]; [|done].
  induction Hl as [|x l Hx Hl [IH1 IH2]]; [done|]. cbn. rewrite IH1. cbn.
  split; [by eapply insert_by_pure|by apply insert_by_Forall].
Qed.

(** ** Specifications *)

Section runs.
Context {S : Type} (Inv : S -> Prop) (ext : S -> S -> Prop) `{!PreOrder ext}.

Definition runs {A} (m : M S A) (s : S) (Q : A -> S -> Prop) : Prop :=
  exists a s', m s = Ret (a, s') /\ Inv s' /\ ext s s' /\ Q a s'.

Lemma runs_pure {A} (a : A) s (Q : A -> S -> Prop) : Inv s -> Q a s -> runs (mpure a) s Q.
Proof. intros. by exists a, s. Qed.

Lemma runs_seq {A B} (m : M S A) (k : A -> M S B) s P Q : runs m s P ->
  (forall a s', Inv s' -> ext s s' -> P a s' -> runs (k a) s' Q) -> runs (mseq m k) s Q.
Proof.
  intros (a & s' & E & Hi & He & Hp) Hk. destruct (Hk a s' Hi He Hp) as (b & s'' & E' & ? & ? & ?).
  exists b, s''. split; [by unfold mseq; rewrite E|]. split; [done|]. split; [by etrans|done].
Qed.

(** A first step with a known result. *)
Lemma runs_step {A B} (m : M S A) (k : A -> M S B) s a s' Q : m s = Ret (a, s') -> ext s s' ->
  runs (k a) s' Q -> runs (mseq m k) s Q.
Proof.
  intros E He (b & s'' & E' & ? & ? & ?). exists b, s''. split; [by unfold mseq; rewrite E|].
  split; [done|]. split; [by etrans|done].
Qed.

Lemma runs_read {A B} (o : outcome A) (k : A -> M S B) s a Q : o = Ret a -> runs (k a) s Q -> runs (mseq (mlift o) k) s Q.
Proof. intros ->. by apply runs_step. Qed.

Lemma runs_weaken {A} (m : M S A) s (P Q : A -> S -> Prop) : runs m s P ->
  (forall a s', Inv s' -> ext s s' -> P a s' -> Q a s') -> runs m s Q.
Proof. intros (a & s' & E & Hi & He & Hp) Hw. exists a, s'. auto 6. Qed.

Lemma runs_lift {A} (o : outcome A) (a : A) s (Q : A -> S -> Prop) : o = Ret a -> Inv s -> Q a s -> runs (mlift o) s Q.
Proof. intros -> ? ?. by exists a, s. Qed.

Lemma runs_get s (Q : S -> S -> Prop) : Inv s -> Q s s -> runs mget s Q.
Proof. intros. by exists s, s. Qed.

(** Mapping over a list: each result is related to its element in the final state. *)
Lemma runs_map {A B} (f : A -> M S B) (l : list A) s (Q : S -> A -> B -> Prop) :
  (forall s s' a b, ext s s' -> Q s a b -> Q s' a b) -> Inv s ->
  (forall a s', a ∈ l -> Inv s' -> ext s s' -> runs (f a) s' (fun b s'' => Q s'' a b)) ->
  runs (map_m f l) s (fun bs s' => Forall2 (Q s') l bs).
Proof.
  intros Hmono. revert s. induction l as [|a l IH]; intros s Hs Hf; [apply runs_pure; [done|constructor]|]. cbn.
  eapply runs_seq; [apply Hf; [by left|done|done]|]. intros b s1 H1 E1 Q1. cbn in Q1.
  eapply runs_seq; [apply IH; [done|]|].
  - intros x s2 Hx H2 E2. apply Hf; [by right|done|by etrans].
  - intros bs s2 H2 E2 Q2. apply runs_pure; [done|]. constructor; [by eapply Hmono|done].
Qed.

(** A loop with an invariant that the extension of the state preserves. *)
Lemma runs_fold {A B} (f : B -> A -> M S B) (l : list A) acc s (J : S -> list A -> B -> Prop) :
  (forall s s' rest b, ext s s' -> J s rest b -> J s' rest b) -> Inv s -> J s l acc ->
  (forall a rest b s', Inv s' -> ext s s' -> J s' (a :: rest) b ->
    runs (f b a) s' (fun b' s'' => J s'' rest b')) ->
  runs (fold_m f acc l) s (fun b s' => J s' [] b).
Proof.
  intros Hmono. revert s acc. induction l as [|a l IH]; intros s acc Hs HJ Hf; [by apply runs_pure|]. cbn.
  eapply runs_seq; [by apply Hf|]. intros b s1 H1 E1 J1. apply IH; [done|done|].
  intros x rest b' s2 H2 E2 J2. apply Hf; [done|by etrans|done].
Qed.
End runs.

Ltac run_pure := refine (runs_pure _ _ _ _ _ _ _).
Ltac run_seq := refine (runs_seq _ _ _ _ _ _ _ _ _).
Ltac run_weaken := refine (runs_weaken _ _ _ _ _ _ _ _).
(** Reading the state; reading a value that is known to be there. *)
Ltac run_get := refine (runs_step _ _ _ _ _ _ _ _ eq_refl _ _); [reflexivity|].
Ltac run_read E := refine (runs_read _ _ _ _ _ _ _ E _).
Ltac run_step E := refine (runs_step _ _ _ _ _ _ _ _ E _ _).
