(* ===== verification/MarkerEdges.v ===== *)
(** * Edges of the marker decision diagrams

    Models the parts of [crates/uv-pep508/src/marker/algebra.rs] that do not touch
    the interner: [NodeId] and the range maps of [Edges::Version] and
    [Edges::String], lists of [(Ranges<T>, NodeId)].

    The invariant of a range map is [tiles]: its ranges are single non-empty
    segments, ascending, that cover the line without overlap.  [from_range] builds
    tiles, and [apply_ranges] combines two range maps into one whose child at every
    position is the combination of the children there. *)

From Stdlib Require Import ZArith Lia.
From stdpp Require Import base list sorting.
From S2P Require Import Prelude.
From S2P Require Import RangeSet.
From S2P Require Import Stateful.
Open Scope Z_scope.

(** ** [NodeId] *)

Definition NodeId : Type := Z.

Definition node_true : NodeId := 0.
Definition node_false : NodeId := 1.

Definition node_id_new (index : Z) (complement : bool) : NodeId :=
  let index := Z.shiftl (index + 1) 1 in
  Z.lor index (if complement then 1 else 0).

Definition node_index (id : NodeId) : Z := Z.shiftr id 1 - 1.

Definition is_complement (id : NodeId) : bool := Z.land id 1 =? 1.

Definition node_not (id : NodeId) : NodeId := Z.lxor id 1.

Definition node_negate (id parent : NodeId) : NodeId :=
  if is_complement parent then node_not id else id.

Definition node_is_false (id : NodeId) : bool := id =? node_false.
Definition node_is_true (id : NodeId) : bool := id =? node_true.

(** ** Range maps *)

Section range_maps.
Context {T R : Type} `{Keyed T} `{!RangeSet T R}.

Definition value_eqb (v w : T) : bool := is_eq (value_cmp v w).

(** Compares the start of two ranges that are known to be disjoint. *)
Definition compare_disjoint_range_start (range1 range2 : R) : outcome comparison :=
  let! b1 := unwrap (rs_bounding_range range1) in
  let! b2 := unwrap (rs_bounding_range range2) in
  Ret match fst b1, fst b2 with
      | Unbounded, _ => Lt
      | _, Unbounded => Gt
      | Included v1, Excluded v2 => if value_eqb v1 v2 then Lt else value_cmp v1 v2
      | Excluded v1, Included v2 => if value_eqb v1 v2 then Gt else value_cmp v1 v2
      | Included v1, Included v2 => value_cmp v1 v2
      | Excluded v1, Excluded v2 => value_cmp v1 v2
      end.

(** Whether two disjoint ranges can be conjoined without introducing a gap. *)
Definition can_conjoin (range1 range2 : R) : bool :=
  match rs_bounding_range range1 with
  | None => false
  | Some (_, fin) =>
      match rs_bounding_range range2 with
      | None => false
      | Some (start, _) =>
          match fin, start with
          | Included v1, Excluded v2 => value_eqb v1 v2
          | Excluded v1, Included v2 => value_eqb v1 v2
          | _, _ => false
          end
      end
  end.

(** [Edges::from_range] *)
Definition from_range (range : R) : outcome (list (R * NodeId)) :=
  let edges :=
    map (fun s => (rs_from_range_bounds s, node_true)) (rs_iter range) ++
    map (fun s => (rs_from_range_bounds s, node_false)) (rs_iter (rs_complement range)) in
  sort_by_o (fun e1 e2 => compare_disjoint_range_start (fst e1) (fst e2)) edges.

(** [combined.push], or the extension of the last range. *)
Definition push_edge (combined : list (R * NodeId)) (intersection : R) (node : NodeId) : list (R * NodeId) :=
  match last combined with
  | Some (range, prev) =>
      if (prev =? node) && can_conjoin range intersection
      then removelast combined ++ [(rs_union range intersection, prev)]
      else combined ++ [(intersection, node)]
  | None => combined ++ [(intersection, node)]
  end.

(** [Edges::apply_ranges] *)
Definition apply_ranges {S} (left_edges : list (R * NodeId)) (left_parent : NodeId)
    (right_edges : list (R * NodeId)) (right_parent : NodeId)
    (apply : NodeId -> NodeId -> M S NodeId) : M S (list (R * NodeId)) :=
  fold_m (fun combined left_edge =>
    fold_m (fun combined right_edge =>
      let intersection := rs_intersection (fst right_edge) (fst left_edge) in
      if rs_is_empty intersection then mpure combined
      else
        let* node := apply (node_negate (snd left_edge) left_parent)
                           (node_negate (snd right_edge) right_parent) in
        mpure (push_edge combined intersection node))
      combined right_edges)
    [] left_edges.

(** [Edges::is_disjoint_ranges]; [disjoint] is [InternerGuard::disjointness]. *)
Fixpoint is_disjoint_row (left_range : R) (left_child : NodeId) (right_edges : list (R * NodeId))
    (right_parent : NodeId) (disjoint : NodeId -> NodeId -> outcome bool) : outcome bool :=
  match right_edges with
  | [] => Ret true
  | (right_range, right_child) :: rest =>
      if rs_is_disjoint right_range left_range
      then is_disjoint_row left_range left_child rest right_parent disjoint
      else
        let! d := disjoint left_child (node_negate right_child right_parent) in
        if d then is_disjoint_row left_range left_child rest right_parent disjoint else Ret false
  end.

Fixpoint is_disjoint_ranges (left_edges : list (R * NodeId)) (left_parent : NodeId)
    (right_edges : list (R * NodeId)) (right_parent : NodeId)
    (disjoint : NodeId -> NodeId -> outcome bool) : outcome bool :=
  match left_edges with
  | [] => Ret true
  | (left_range, left_child) :: rest =>
      let! d := is_disjoint_row left_range (node_negate left_child left_parent) right_edges right_parent disjoint in
      if d then is_disjoint_ranges rest left_parent right_edges right_parent disjoint else Ret false
  end.
End range_maps.

(** ** Facts on node identifiers *)

Lemma even_not k : Z.lxor (2 * k) 1 = 2 * k + 1.
Proof.
  symmetry. apply Z.add_nocarry_lxor. change 1 with (Z.ones 1). rewrite Z.land_ones by lia.
  rewrite Z.mul_comm. apply Z_mod_mult.
Qed.

Lemma node_id_new_eq k c : node_id_new k c = 2 * (k + 1) + (if c then 1 else 0).
Proof.
  unfold node_id_new. rewrite Z.shiftl_mul_pow2 by lia. change (2 ^ 1) with 2. rewrite (Z.mul_comm _ 2). destruct c.
  - rewrite <- Z.lxor_lor, even_not; [done|]. change 1 with (Z.ones 1) at 2. rewrite Z.land_ones by lia.
    rewrite Z.mul_comm. apply Z_mod_mult.
  - rewrite Z.lor_0_r. lia.
Qed.

Lemma node_not_not id : node_not (node_not id) = id.
Proof. unfold node_not. by rewrite Z.lxor_assoc, Z.lxor_nilpotent, Z.lxor_0_r. Qed.

Lemma node_not_new k c : node_not (node_id_new k c) = node_id_new k (negb c).
Proof.
  rewrite !node_id_new_eq. unfold node_not. destruct c; cbn [negb].
  - by rewrite <- even_not, Z.lxor_assoc, Z.lxor_nilpotent, Z.lxor_0_r, Z.add_0_r.
  - by rewrite Z.add_0_r, even_not.
Qed.

Lemma is_complement_odd id : is_complement id = Z.odd id.
Proof.
  unfold is_complement. change 1 with (Z.ones 1) at 1. rewrite Z.land_ones by lia. change (2 ^ 1) with 2.
  rewrite Zmod_odd. by destruct (Z.odd id).
Qed.

Lemma is_complement_new k c : is_complement (node_id_new k c) = c.
Proof. rewrite is_complement_odd, node_id_new_eq, Z.add_comm, Z.odd_add_mul_2. by destruct c. Qed.

Lemma node_index_new k c : node_index (node_id_new k c) = k.
Proof.
  unfold node_index. rewrite node_id_new_eq, Z.shiftr_div_pow2 by lia. change (2 ^ 1) with 2.
  rewrite (Z.mul_comm 2), Z.div_add_l by lia. destruct c; [change (1 / 2) with 0|change (0 / 2) with 0]; lia.
Qed.

Lemma node_not_neq id : node_not id <> id.
Proof.
  intros E. assert (Z.odd (node_not id) = negb (Z.odd id)) as F.
  { unfold node_not. rewrite <- !Z.bit0_odd, Z.lxor_spec. cbn. by destruct (Z.testbit id 0). }
  rewrite E in F. by destruct (Z.odd id).
Qed.

(** Every identifier is a terminal or a possibly complemented reference. *)
Lemma node_id_cases id : 0 <= id ->
  id = node_true \/ id = node_false \/ (0 <= node_index id /\ id = node_id_new (node_index id) (is_complement id)).
Proof.
  intros Hid. unfold node_true, node_false. destruct (Z.eq_dec id 0) as [|H0]; [auto|]. destruct (Z.eq_dec id 1) as [|H1]; [auto|].
  do 2 right. unfold node_index. rewrite Z.shiftr_div_pow2 by lia. change (2 ^ 1) with 2.
  split; [pose proof (Z.div_le_lower_bound id 2 1); lia|]. rewrite node_id_new_eq, is_complement_odd.
  rewrite (Z.div_mod id 2) at 1 by lia. rewrite Zmod_odd. destruct (Z.odd id); lia.
Qed.

Lemma node_index_not id : node_index (node_not id) = node_index id.
Proof.
  unfold node_index, node_not. f_equal. rewrite Z.shiftr_lxor. change (Z.shiftr 1 1) with 0. apply Z.lxor_0_r.
Qed.

Lemma node_index_negate id p : node_index (node_negate id p) = node_index id.
Proof. unfold node_negate. destruct (is_complement p); [apply node_index_not|done]. Qed.

Lemma node_index_bound id : 0 <= id -> -1 <= node_index id.
Proof. intros H. unfold node_index. pose proof (proj2 (Z.shiftr_nonneg id 1) H). lia. Qed.

Lemma is_complement_not id : is_complement (node_not id) = negb (is_complement id).
Proof.
  rewrite !is_complement_odd. unfold node_not. rewrite <- !Z.bit0_odd, Z.lxor_spec. cbn. by destruct (Z.testbit id 0).
Qed.

Lemma node_not_nonneg id : 0 <= node_not id <-> 0 <= id.
Proof. unfold node_not. rewrite Z.lxor_nonneg. lia. Qed.

Lemma node_negate_negate id p : node_negate (node_negate id p) p = id.
Proof. unfold node_negate. destruct (is_complement p); [apply node_not_not|done]. Qed.

Lemma node_negate_not id p : node_negate (node_not id) p = node_not (node_negate id p).
Proof. unfold node_negate. by destruct (is_complement p). Qed.

(** ** Tiles *)

Section tiles.
Context {T R : Type} `{RangeSetLaws T R} `{!KeyedLaws T}.
Implicit Types (p low high : Cut) (edges : list (R * NodeId)).

(** [r] is the one segment from [a] to [b]. *)
Definition range_at (r : R) (a b : Cut) : Prop := rs_ok r /\ rs_cuts r = [(a, b)].

(** The ranges of [edges] are consecutive segments from [low] to [high]. *)
Fixpoint tiles low edges high : Prop :=
  match edges with
  | [] => low = high
  | (r, _) :: rest => exists b, range_at r low b /\ tiles b rest high
  end.

(** The child at a position, and at a value. *)
Definition tile_at p edges : option NodeId :=
  option_map snd (find (fun e => cut_mem p (rs_cuts (fst e))) edges).

Definition child_at (x : T) edges : option NodeId :=
  option_map snd (find (fun e => rs_contains (fst e) x) edges).

Lemma range_at_lt r a b : range_at r a b -> cut_lt a b.
Proof. intros [[_ G] E]. rewrite E in G. by destruct G. Qed.

Lemma range_at_mem r a b p : range_at r a b -> cut_mem p (rs_cuts r) = in_cuts p (a, b).
Proof. intros [_ ->]. apply orb_false_r. Qed.

Lemma range_at_contains r a b x : range_at r a b -> valid x = true ->
  rs_contains r x = in_cuts (at_value x) (a, b).
Proof. intros Hr Hx. rewrite rs_contains_law; [by apply range_at_mem|apply Hr|done]. Qed.

Lemma range_at_unique r a b c d : range_at r a b -> range_at r c d -> a = c /\ b = d.
Proof. intros [_ E] [_ E']. rewrite E in E'. by simplify_eq. Qed.

Lemma tiles_app low x y high : tiles low (x ++ y) high <-> exists b, tiles low x b /\ tiles b y high.
Proof.
  revert low. induction x as [|[r c] x IH]; intros low; cbn.
  - split; [intros; by exists low|]. by intros (? & -> & ?).
  - setoid_rewrite IH. split.
    + intros (b & ? & b' & ? & ?). eauto.
    + intros (b' & (b & ? & ?) & ?). eauto.
Qed.

Lemma tiles_le low edges high : tiles low edges high -> cut_le low high.
Proof.
  revert low. induction edges as [|[r c] edges IH]; intros low; cbn; [intros ->; apply cut_le_refl|].
  intros (b & Hr%range_at_lt & Ht%IH). cut_order.
Qed.

Lemma tile_at_app p x y : tile_at p (x ++ y) = match tile_at p x with Some c => Some c | None => tile_at p y end.
Proof. unfold tile_at. induction x as [|e x IH]; cbn; [done|]. by destruct (cut_mem _ _). Qed.

Lemma tile_at_outside low edges high p : tiles low edges high -> cut_lt p low \/ cut_le high p -> tile_at p edges = None.
Proof.
  revert low. induction edges as [|[r c] edges IH]; intros low; cbn; [done|]. intros (b & Hr & Ht) Hp.
  unfold tile_at. cbn. rewrite (range_at_mem r low b) by done. pose proof (range_at_lt _ _ _ Hr). pose proof (tiles_le _ _ _ Ht).
  destruct (in_cuts p (low, b)) eqn:E.
  - apply in_cuts_iff in E as [? ?]. cbn in *. destruct Hp; cut_order.
  - apply (IH b); [done|]. destruct Hp; [left; cut_order|by right].
Qed.

Lemma tile_at_elem low edges high r c a b p : tiles low edges high -> (r, c) ∈ edges -> range_at r a b ->
  cut_le a p -> cut_lt p b -> tile_at p edges = Some c.
Proof.
  intros Ht (x & y & ->)%list_elem_of_split Hr Ha Hb. apply tiles_app in Ht as (m & Hx & b' & Hr' & Hy).
  destruct (range_at_unique _ _ _ _ _ Hr Hr') as [-> ->]. rewrite tile_at_app, (tile_at_outside low x m) by auto.
  unfold tile_at. cbn. rewrite (range_at_mem r m b') by done.
  by rewrite (proj2 (in_cuts_iff _ (m, b')) (conj Ha Hb)).
Qed.

Lemma tile_at_some low edges high p : tiles low edges high -> cut_le low p -> cut_lt p high ->
  exists r c a b, (r, c) ∈ edges /\ range_at r a b /\ cut_le a p /\ cut_lt p b /\ tile_at p edges = Some c.
Proof.
  intros Ht Hl Hh. assert (exists r c a b, (r, c) ∈ edges /\ range_at r a b /\ cut_le a p /\ cut_lt p b) as (r & c & a & b & Hin & Hr & Ha & Hb).
  { revert low Ht Hl. induction edges as [|[r c] edges IH]; intros low; cbn; [intros ->; intros; cut_order|].
    intros (b & Hr & Ht) Hl. destruct (in_cuts p (low, b)) eqn:E.
    - apply in_cuts_iff in E as [? ?]. exists r, c, low, b. split; [by left|done].
    - destruct (IH b Ht) as (r' & c' & a' & b' & ? & ?).
      + rewrite <- cut_not_lt. intros Hlt. apply not_true_iff_false in E. by apply E, in_cuts_iff.
      + exists r', c', a', b'. split; [by right|done]. }
  exists r, c, a, b. repeat split; try done; [apply Hr..|]. by eapply tile_at_elem.
Qed.

(** Every edge is the tile at some position. *)
Lemma tiles_elem low edges high r c : tiles low edges high -> (r, c) ∈ edges ->
  exists p, cut_le low p /\ cut_lt p high /\ tile_at p edges = Some c.
Proof.
  intros Ht Hin. pose proof Hin as (x & y & ->)%list_elem_of_split. pose proof Ht as (m & Hx & b & Hr & Hy)%tiles_app.
  exists m. pose proof (range_at_lt _ _ _ Hr). apply tiles_le in Hx, Hy. split; [done|]. split; [cut_order|].
  eapply tile_at_elem; [exact Ht|exact Hin|exact Hr|apply cut_le_refl|done].
Qed.

Lemma at_value_inside x : cut_le NegInf (at_value x) /\ cut_lt (at_value x) PosInf /\ at_value x <> PosInf.
Proof. done. Qed.

Lemma child_at_tile low edges high x : tiles low edges high -> valid x = true ->
  child_at x edges = tile_at (at_value x) edges.
Proof.
  intros Ht Hx. unfold child_at, tile_at. f_equal. revert low Ht.
  induction edges as [|[r c] edges IH]; intros low; [done|]. cbn. intros (b & Hr & Ht).
  rewrite (range_at_contains r low b), (range_at_mem r low b) by done. by destruct (in_cuts _ _); [|eapply IH].
Qed.

(** ** Segments of the operations *)

Lemma covers_range_at r a b : covers r (fun p => in_cuts p (a, b)) ->
  if is_lt (cut_cmp a b) then range_at r a b else rs_iter r = [].
Proof.
  intros [Hok Hm]. assert (Hu : forall l, gapped l -> (forall p, p <> PosInf -> in_cuts p (a, b) = cut_mem p l) -> rs_cuts r = l).
  { intros l Hl E. apply gapped_unique; [apply Hok|done|]. intros p Hp. rewrite Hm by done. by apply E. }
  destruct (is_lt _) eqn:E.
  - apply cut_lt_iff in E. split; [done|]. apply Hu; [by split|]. intros. symmetry. apply orb_false_r.
  - assert (rs_cuts r = []) as F.
    { apply Hu; [done|]. intros p _. apply not_true_iff_false. rewrite in_cuts_iff. cbn. intros [? ?].
      apply not_true_iff_false in E. apply E, cut_lt_iff. cut_order. }
    by apply map_eq_nil in F.
Qed.

Definition cut_max (a c : Cut) : Cut := if is_le (cut_cmp a c) then c else a.
Definition cut_min (b d : Cut) : Cut := if is_le (cut_cmp b d) then b else d.

Lemma range_at_intersection r s a b c d : range_at r a b -> range_at s c d ->
  if is_lt (cut_cmp (cut_max a c) (cut_min b d)) then range_at (rs_intersection r s) (cut_max a c) (cut_min b d)
  else rs_iter (rs_intersection r s) = [].
Proof.
  intros Hr Hs. apply covers_range_at. destruct (rs_intersection_law r s) as [Hok Hm]; [apply Hr|apply Hs|].
  split; [done|]. intros p Hp. rewrite Hm by done. rewrite (range_at_mem r a b), (range_at_mem s c d) by done.
  apply Bool.eq_iff_eq_true. rewrite andb_true_iff, !in_cuts_iff. cbn. unfold cut_max, cut_min. rewrite max_cut, min_cut. tauto.
Qed.

Lemma range_at_union r s a b c : range_at r a b -> range_at s b c -> range_at (rs_union r s) a c.
Proof.
  intros Hr Hs. pose proof (range_at_lt _ _ _ Hr) as Hab. pose proof (range_at_lt _ _ _ Hs) as Hbc.
  assert (cut_lt a c) as Hac by cut_order.
  pose proof (covers_range_at (rs_union r s) a c) as Hc. rewrite (proj2 (cut_lt_iff a c) Hac) in Hc. apply Hc.
  destruct (rs_union_law r s) as [Hok Hm]; [apply Hr|apply Hs|].
  split; [done|]. intros p Hp. rewrite Hm by done. rewrite (range_at_mem r a b), (range_at_mem s b c) by done.
  apply Bool.eq_iff_eq_true. rewrite orb_true_iff, !in_cuts_iff. cbn. split.
  - intros [[? ?]|[? ?]]; split; cut_order.
  - intros [? ?]. destruct (cut_lt_total p b) as [?|Hp']; [by left|right]. split; [|done].
    destruct Hp' as [->|?]; [apply cut_le_refl|by apply cut_lt_le].
Qed.

Lemma range_at_empty r a b : range_at r a b -> rs_is_empty r = false.
Proof. intros [_ E]. rewrite rs_is_empty_law. unfold rs_cuts in E. by destruct (rs_iter r). Qed.

(** ** Combining range maps *)

Lemma push_new combined i n g g' : tiles NegInf combined g -> range_at i g g' ->
  tiles NegInf (combined ++ [(i, n)]) g' /\
  (forall p, cut_lt p g -> tile_at p (combined ++ [(i, n)]) = tile_at p combined) /\
  (forall p, cut_le g p -> cut_lt p g' -> tile_at p (combined ++ [(i, n)]) = Some n).
Proof.
  intros Ht Hi. assert (Ht' : tiles NegInf (combined ++ [(i, n)]) g').
  { apply tiles_app. exists g. split; [done|]. by exists g'. }
  split; [done|]. split.
  - intros p Hp. destruct (tile_at_some NegInf combined g p) as (r & c & _ & _ & _ & _ & _ & _ & E); [done|apply neg_inf_least|done|].
    by rewrite tile_at_app, E.
  - intros p Hp Hp'. eapply tile_at_elem; [exact Ht'| |exact Hi|done|done]. apply elem_of_app. right. by left.
Qed.

Lemma push_edge_tiles combined i n g g' : tiles NegInf combined g -> range_at i g g' ->
  tiles NegInf (push_edge combined i n) g' /\
  (forall p, cut_lt p g -> tile_at p (push_edge combined i n) = tile_at p combined) /\
  (forall p, cut_le g p -> cut_lt p g' -> tile_at p (push_edge combined i n) = Some n).
Proof.
  intros Ht Hi. unfold push_edge. destruct (last combined) as [[range prev]|] eqn:E; [|by apply push_new].
  destruct (_ && _) eqn:C; [|by apply push_new]. apply andb_true_iff in C as [->%Z.eqb_eq _].
  apply last_Some in E as [x ->]. rewrite removelast_last. pose proof Ht as (h & Hx & g0 & Hr & Hg)%tiles_app.
  cbn in Hg. subst g0. pose proof (range_at_union _ _ _ _ _ Hr Hi) as Hu.
  destruct (push_new x range n h g Hx Hr) as (_ & B1 & A1), (push_new x _ n h g' Hx Hu) as (Ht' & B2 & A2).
  pose proof (range_at_lt _ _ _ Hr). split; [done|]. split.
  - intros p Hp. destruct (cut_lt_total p h) as [?|Hph]; [by rewrite B1, B2|].
    assert (cut_le h p) by (destruct Hph; [subst; apply cut_le_refl|by apply cut_lt_le]).
    pose proof (range_at_lt _ _ _ Hi). rewrite A1, A2; try done; cut_order.
  - intros p Hp Hp'. apply A2; [cut_order|done].
Qed.

Section apply.
Context {S : Type} (Inv : S -> Prop) (ext : S -> S -> Prop) `{!PreOrder ext}.
Context (left right : list (R * NodeId)) (lp rp : NodeId) (apply : NodeId -> NodeId -> M S NodeId).
Context (Q : S -> NodeId -> NodeId -> NodeId -> Prop).
Hypothesis Q_mono : forall s s' l r n, ext s s' -> Q s l r n -> Q s' l r n.
Hypothesis left_tiles : tiles NegInf left PosInf.
Hypothesis right_tiles : tiles NegInf right PosInf.

(** Below [g], the child of [combined] combines the children of both sides. *)
Definition combined_below (s : S) (combined : list (R * NodeId)) (g : Cut) : Prop :=
  tiles NegInf combined g /\
  forall p, cut_lt p g -> exists l r n, tile_at p left = Some l /\ tile_at p right = Some r /\
    tile_at p combined = Some n /\ Q s (node_negate l lp) (node_negate r rp) n.

Lemma combined_mono s s' combined g : ext s s' -> combined_below s combined g -> combined_below s' combined g.
Proof.
  intros He [Ht Hc]. split; [done|]. intros p Hp. destruct (Hc p Hp) as (l & r & n & ? & ? & ? & ?).
  exists l, r, n. eauto.
Qed.

Lemma combined_push s combined g g' i n l r : combined_below s combined g -> range_at i g g' ->
  (forall p, cut_le g p -> cut_lt p g' -> tile_at p left = Some l /\ tile_at p right = Some r) ->
  Q s (node_negate l lp) (node_negate r rp) n -> combined_below s (push_edge combined i n) g'.
Proof.
  intros [Ht Hc] Hi Hlr Hq. destruct (push_edge_tiles combined i n g g' Ht Hi) as (Ht' & B & A). split; [done|].
  intros p Hp. destruct (cut_lt_total p g) as [Hpg|Hpg].
  - destruct (Hc p Hpg) as (l' & r' & n' & ? & ? & E & ?). exists l', r', n'. by rewrite B, E.
  - assert (Hle : cut_le g p) by (destruct Hpg; [subst; apply cut_le_refl|by apply cut_lt_le]).
    destruct (Hlr p Hle Hp). exists l, r, n. by rewrite A.
Qed.

(** The frontier of a row [a, b) when the column has reached [c]. *)
Definition frontier (a b c : Cut) : Cut := cut_max a (cut_min b c).

Lemma cut_max_cases a c : (cut_le a c /\ cut_max a c = c) \/ (cut_lt c a /\ cut_max a c = a).
Proof.
  unfold cut_max. destruct (is_le _) eqn:E; [left|right]; (split; [|done]).
  - by apply cut_le_iff.
  - apply not_true_iff_false in E. by rewrite cut_le_iff, cut_not_le in E.
Qed.

Lemma cut_min_cases b d : (cut_le b d /\ cut_min b d = b) \/ (cut_lt d b /\ cut_min b d = d).
Proof.
  unfold cut_min. destruct (is_le _) eqn:E; [left|right]; (split; [|done]).
  - by apply cut_le_iff.
  - apply not_true_iff_false in E. by rewrite cut_le_iff, cut_not_le in E.
Qed.

Lemma frontier_step a b c d : cut_lt a b -> cut_lt c d ->
  if is_lt (cut_cmp (cut_max c a) (cut_min d b))
  then frontier a b c = cut_max c a /\ frontier a b d = cut_min d b
  else frontier a b d = frontier a b c.
Proof.
  intros Hab Hcd. unfold frontier. destruct (is_lt _) eqn:E; [apply cut_lt_iff in E|apply not_true_iff_false in E; rewrite cut_lt_iff in E].
  all: destruct (cut_max_cases c a) as [[? ->]|[? ->]] in E |- *; destruct (cut_min_cases d b) as [[? ->]|[? ->]] in E |- *.
  all: repeat match goal with
  | |- context [cut_min ?x ?y] => let F := fresh in destruct (cut_min_cases x y) as [[? F]|[? F]]; rewrite F
  | |- context [cut_max ?x ?y] => let F := fresh in destruct (cut_max_cases x y) as [[? F]|[? F]]; rewrite F
  end; try (split; cut_order); cut_order.
Qed.

Context (base : S).
Hypothesis apply_runs : forall s lr l rr r, Inv s -> ext base s -> (lr, l) ∈ left -> (rr, r) ∈ right ->
  runs Inv ext (apply (node_negate l lp) (node_negate r rp)) s
    (fun n s' => Q s' (node_negate l lp) (node_negate r rp) n).

Lemma apply_row s combined lr l a b : Inv s -> ext base s -> (lr, l) ∈ left -> range_at lr a b -> combined_below s combined a ->
  runs Inv ext (fold_m (fun combined right_edge =>
      let intersection := rs_intersection (fst right_edge) lr in
      if rs_is_empty intersection then mpure combined
      else
        let* node := apply (node_negate l lp) (node_negate (snd right_edge) rp) in
        mpure (push_edge combined intersection node)) combined right) s
    (fun combined' s' => combined_below s' combined' b).
Proof.
  intros Hs Hbase Hl Hlr Hc. pose proof (range_at_lt _ _ _ Hlr) as Hab.
  run_weaken; [apply (runs_fold Inv ext _ _ _ _ (fun s rest combined =>
    (exists seen, right = seen ++ rest) /\
    exists c, tiles c rest PosInf /\ combined_below s combined (frontier a b c)))|].
  - intros s1 s2 rest comb He (Hr & c & Ht & Hb). split; [done|]. exists c. split; [done|]. by eapply combined_mono.
  - done.
  - split; [by exists []|]. exists NegInf. split; [done|]. replace (frontier a b NegInf) with a; [done|].
    unfold frontier. pose proof (neg_inf_least a). pose proof (neg_inf_least b).
    destruct (cut_min_cases b NegInf) as [[? ->]|[? ->]].
    + exfalso. cut_order.
    + destruct (cut_max_cases a NegInf) as [[? ->]|[? ->]]; [cut_order|done].
  - intros [rr r] rest comb s1 H1 E1 ([seen Er] & c & (d & Hrr & Ht) & Hb). cbn [fst snd].
    assert (Hr : (rr, r) ∈ right) by (rewrite Er; apply elem_of_app; right; by left).
    assert (Er' : exists seen', right = seen' ++ rest) by (exists (seen ++ [(rr, r)]); by rewrite Er, <- app_assoc).
    pose proof (range_at_intersection _ _ _ _ _ _ Hrr Hlr) as Hi.
    pose proof (frontier_step a b c d Hab (range_at_lt _ _ _ Hrr)) as Hf.
    destruct (is_lt _).
    + rewrite (range_at_empty _ _ _ Hi). destruct Hf as [Fc Fd]. run_seq; [eapply apply_runs; [done|by etrans|done|done]|].
      intros n s2 H2 E2 Hq. run_pure; [done|]. split; [done|]. exists d. split; [done|]. rewrite Fd.
      eapply (combined_push _ _ (cut_max c a)); [eapply combined_mono; [exact E2|]; rewrite <- Fc; exact Hb|exact Hi| |exact Hq].
      intros p Hp Hp'. destruct (max_cut c a p) as [M _], (min_cut d b p) as [N _].
      destruct (M Hp), (N Hp'). split; by eapply tile_at_elem.
    + rewrite rs_is_empty_law, Hi. run_pure; [done|]. split; [done|]. exists d. split; [done|]. by rewrite Hf.
  - intros comb s1 H1 E1 (_ & c & Ht & Hb). cbn in Ht. subst c. replace (frontier a b PosInf) with b in Hb; [done|].
    unfold frontier. pose proof (pos_inf_greatest b).
    destruct (cut_min_cases b PosInf) as [[? ->]|[? ->]]; [|cut_order].
    destruct (cut_max_cases a b) as [[? ->]|[? ->]]; [done|cut_order].
Qed.

(** The child of the combination at every position combines the children there. *)
Lemma apply_ranges_runs s : Inv s -> ext base s ->
  runs Inv ext (apply_ranges left lp right rp apply) s (fun combined s' => combined_below s' combined PosInf).
Proof.
  intros Hs Hbase. unfold apply_ranges. run_weaken; [apply (runs_fold Inv ext _ _ _ _ (fun s rest combined =>
    (exists seen, left = seen ++ rest) /\
    exists a, tiles a rest PosInf /\ combined_below s combined a))|].
  - intros s1 s2 rest comb He (Hr & c & Ht & Hb). split; [done|]. exists c. split; [done|]. by eapply combined_mono.
  - done.
  - split; [by exists []|]. exists NegInf. split; [done|]. split; [done|]. intros p Hp. pose proof (neg_inf_least p). cut_order.
  - intros [lr l] rest comb s1 H1 E1 ([seen El] & a & (b & Hlr & Ht) & Hb). cbn [fst snd].
    run_weaken; [eapply apply_row; [done|by etrans| |exact Hlr|done]|].
    + rewrite El. apply elem_of_app. right. by left.
    + intros comb' s2 H2 E2 Hc. split; [exists (seen ++ [(lr, l)]); by rewrite El, <- app_assoc|]. by exists b.
  - intros comb s1 H1 E1 (_ & c & Ht & Hb). cbn in Ht. by subst c.
Qed.
End apply.

(** ** Edges of a range *)

Lemma range_at_bounds r a b : range_at r a b ->
  exists lo hi, rs_iter r = [(lo, hi)] /\ rs_bounding_range r = Some (lo, hi) /\ lower_cut lo = a /\ upper_cut hi = b /\
    bound_valid lo = true /\ bound_valid hi = true.
Proof.
  intros [[V _] E]. rewrite rs_bounding_range_law. unfold rs_cuts in E.
  destruct (rs_iter r) as [|[lo hi] [|]]; try done. exists lo, hi. cbn in V. unfold seg_valid in V. rewrite andb_true_r in V.
  apply andb_true_iff in V as [V1 V2]. unfold seg_cuts in E. cbn in E. by simplify_eq.
Qed.

Lemma from_bounds_range_at lo hi : bound_valid lo = true -> bound_valid hi = true ->
  cut_lt (lower_cut lo) (upper_cut hi) -> range_at (rs_from_range_bounds (lo, hi)) (lower_cut lo) (upper_cut hi).
Proof.
  intros Vlo Vhi Hlt. pose proof (covers_range_at (rs_from_range_bounds (lo, hi)) (lower_cut lo) (upper_cut hi)) as Hc.
  rewrite (proj2 (cut_lt_iff _ _) Hlt) in Hc. apply Hc. apply (rs_from_range_bounds_law (lo, hi)).
  unfold seg_valid. cbn. by rewrite Vlo, Vhi.
Qed.

Lemma key_cut_cmp (x y : key_type) sx sy :
  cut_cmp (At x sx) (At y sy) = then_with (key_order x y) ((if sx then 1 else 0) ?= (if sy then 1 else 0)).
Proof. unfold cut_cmp, pair_cmp. cbn. by destruct (key_order x y). Qed.

Lemma compare_start_cut r1 r2 a1 b1 a2 b2 : range_at r1 a1 b1 -> range_at r2 a2 b2 ->
  exists d, compare_disjoint_range_start r1 r2 = Ret d /\ is_gt d = is_gt (cut_cmp a1 a2).
Proof.
  intros (l1 & h1 & _ & E1 & <- & _ & V1 & _)%range_at_bounds (l2 & h2 & _ & E2 & <- & _ & V2 & _)%range_at_bounds.
  unfold compare_disjoint_range_start. rewrite E1, E2. cbn [unwrap obind fst]. eexists. split; [done|].
  destruct l1 as [v1|v1|], l2 as [v2|v2|]; try done; cbn [lower_cut bound_valid] in *; unfold before, after, value_eqb;
    rewrite key_cut_cmp, value_cmp_key by done; by destruct (key_order _ _).
Qed.

Definition simple (e : R * NodeId) : Prop := exists a b, range_at (fst e) a b.
Definition start_of (e : R * NodeId) : Cut := match rs_cuts (fst e) with (a, _) :: _ => a | [] => NegInf end.
Definition hits p edges : list (R * NodeId) := List.filter (fun e => cut_mem p (rs_cuts (fst e))) edges.

Lemma start_of_at r c a b : range_at r a b -> start_of (r, c) = a.
Proof. intros [_ E]. unfold start_of. cbn. by rewrite E. Qed.

Lemma hits_elem p edges e : e ∈ edges -> cut_mem p (rs_cuts (fst e)) = true -> (0 < length (hits p edges))%nat.
Proof.
  intros He Hm. assert (In e (hits p edges)) as Hi by (apply filter_In; split; [by apply list_elem_of_In|done]).
  destruct (hits p edges); [done|cbn; lia].
Qed.

(** Segments that cover every position once, sorted by their starts, are tiles. *)
Lemma partition_tiles low edges : Forall simple edges ->
  StronglySorted (fun e e' => cut_le (start_of e) (start_of e')) edges ->
  Forall (fun e => cut_le low (start_of e)) edges ->
  (forall p, p <> PosInf -> cut_le low p -> length (hits p edges) = 1%nat) -> tiles low edges PosInf.
Proof.
  intros Hs. revert low. induction Hs as [|[r c] edges (a & b & Hr) Hs IH]; intros low So Lo Hu; cbn.
  - destruct (cut_lt_total low PosInf) as [Hl|[Hl|Hl]]; [|done|pose proof (pos_inf_greatest low); cut_order].
    assert (low <> PosInf) as Hne by (intros ->; cut_order). specialize (Hu low Hne (cut_le_refl _)). done.
  - apply StronglySorted_inv in So as [So Hsm]. apply Forall_cons in Lo as [Hla Lo]. cbn [fst] in Hr.
    rewrite (start_of_at r c a b) in * by done. pose proof (range_at_lt _ _ _ Hr) as Hab.
    assert (inner : forall e, e ∈ edges -> exists a' b', range_at (fst e) a' b' /\ start_of e = a' /\ cut_lt a' b' /\ a' <> PosInf).
    { intros [r' c'] He. rewrite Forall_forall in Hs. destruct (Hs _ He) as (a' & b' & Hr'). exists a', b'.
      pose proof (range_at_lt _ _ _ Hr'). split; [done|]. split; [by eapply start_of_at|]. split; [done|].
      intros ->. pose proof (pos_inf_greatest b'). cut_order. }
    assert (low <> PosInf) as Hne by (intros ->; pose proof (pos_inf_greatest a); pose proof (pos_inf_greatest b); cut_order).
    assert (a = low) as ->.
    { specialize (Hu low Hne (cut_le_refl _)). destruct (hits low ((r, c) :: edges)) as [|e l] eqn:E; [done|].
      assert (He : In e (hits low ((r, c) :: edges))) by (rewrite E; by left). apply filter_In in He as [He Hm].
      apply list_elem_of_In, elem_of_cons in He as [->|He].
      - cbn [fst] in Hm. rewrite (range_at_mem r a b) in Hm by done. apply in_cuts_iff in Hm as [? ?]. cbn in *. cut_order.
      - destruct (inner e He) as (a' & b' & Hr' & Es & _). rewrite (range_at_mem _ a' b') in Hm by done.
        apply in_cuts_iff in Hm as [? ?]. rewrite Forall_forall in Hsm. specialize (Hsm e He). cbn in *. rewrite Es in Hsm. cut_order. }
    exists b. split; [done|]. apply IH; [done| |].
    + apply Forall_forall. intros e He. destruct (inner e He) as (a' & b' & Hr' & Es & Hlt & Hne'). rewrite Es.
      rewrite <- cut_not_lt. intros Hlt'. rewrite Forall_forall in Lo. specialize (Lo e He). cbn in Lo. rewrite Es in Lo.
      specialize (Hu a' Hne' Lo). unfold hits in Hu. cbn [List.filter fst] in Hu.
      rewrite (range_at_mem r low b), (proj2 (in_cuts_iff a' (low, b)) (conj Lo Hlt')) in Hu by done. cbn [length] in Hu.
      assert (0 < length (hits a' edges))%nat; [|unfold hits in *; lia]. eapply hits_elem; [exact He|].
      rewrite (range_at_mem _ a' b') by done. apply in_cuts_iff. split; [apply cut_le_refl|done].
    + intros p Hp Hbp. assert (cut_le low p) as Hlp by cut_order. specialize (Hu p Hp Hlp). unfold hits in *. cbn [List.filter fst] in Hu.
      rewrite (range_at_mem r low b) in Hu by done. destruct (in_cuts p (low, b)) eqn:E; [|done].
      apply in_cuts_iff in E as [_ E]. cbn in E. cut_order.
Qed.

Lemma perm_hits p x y : Permutation x y -> length (hits p x) = length (hits p y).
Proof.
  unfold hits. induction 1; cbn; [done|by destruct (cut_mem _ _); cbn; congruence|by destruct (cut_mem _ _), (cut_mem _ _)|congruence].
Qed.

Lemma gapped_hits low p l : gapped_from low l \/ gapped l ->
  length (List.filter (in_cuts p) l) = if cut_mem p l then 1%nat else 0%nat.
Proof.
  intros Hl. assert (gapped l) as Hg by (destruct Hl; [by eapply gapped_from_gapped|done]). clear Hl low.
  induction l as [|[a b] l IH]; [done|]. destruct Hg as [Hab Hl]. cbn.
  specialize (IH (gapped_from_gapped _ _ Hl)). destruct (in_cuts p (a, b)) eqn:E; [|done]. cbn. rewrite IH.
  apply in_cuts_iff in E as [? ?]. by rewrite (gapped_below b) by (done || by apply cut_lt_le).
Qed.

(** The segments of a range, as edges to one node. *)
Lemma segment_edges r c : rs_ok r ->
  let edges := map (fun s => (rs_from_range_bounds s, c)) (rs_iter r) in
  Forall simple edges /\ (forall e, e ∈ edges -> snd e = c) /\
  (forall p, length (hits p edges) = if cut_mem p (rs_cuts r) then 1%nat else 0%nat) /\
  (forall p e, e ∈ edges -> cut_mem p (rs_cuts (fst e)) = true -> cut_mem p (rs_cuts r) = true).
Proof.
  intros [V G]. cbv zeta.
  assert (each : forall s, s ∈ rs_iter r -> range_at (rs_from_range_bounds s) (seg_cuts s).1 (seg_cuts s).2).
  { intros [lo hi] Hs. pose proof (proj1 (forallb_true_iff _ _) V _ Hs) as Vs. unfold seg_valid in Vs. apply andb_true_iff in Vs as [V1 V2].
    apply from_bounds_range_at; [done|done|]. apply gapped_sorted in G as [G _]. rewrite Forall_forall in G.
    apply (G (seg_cuts (lo, hi))). apply elem_of_map. by exists (lo, hi). }
  split; [|split; [|split]].
  - apply Forall_forall. intros e (s & -> & Hs)%elem_of_map. eexists _, _. by apply each.
  - by intros e (s & -> & _)%elem_of_map.
  - intros p. rewrite <- (gapped_hits NegInf p (rs_cuts r)) by auto. unfold hits. change (rs_cuts r) with (map seg_cuts (rs_iter r)). clear V G.
    induction (rs_iter r) as [|s l IH]; [done|]. cbn [map List.filter fst].
    rewrite (range_at_mem _ (seg_cuts s).1 (seg_cuts s).2) by (apply each; by left).
    rewrite <- surjective_pairing. assert (forall x, x ∈ l -> range_at (rs_from_range_bounds x) (seg_cuts x).1 (seg_cuts x).2) as Hl
      by (intros; apply each; by right). specialize (IH Hl). destruct (in_cuts p (seg_cuts s)); cbn [length]; congruence.
  - intros p e (s & -> & Hs)%elem_of_map Hm. cbn [fst] in Hm. rewrite (range_at_mem _ _ _ _ (each s Hs)) in Hm.
    apply in_cuts_iff in Hm. apply cut_mem_iff. exists (seg_cuts s). split; [|done]. apply elem_of_map. by exists s.
Qed.

Lemma from_range_tiles r : rs_ok r -> exists edges, from_range r = Ret edges /\ tiles NegInf edges PosInf /\
  forall p, p <> PosInf -> tile_at p edges = Some (if cut_mem p (rs_cuts r) then node_true else node_false).
Proof.
  intros Hr. destruct (rs_complement_law r Hr) as [Hc Mc].
  destruct (segment_edges r node_true Hr) as (S1 & C1 & H1 & M1), (segment_edges _ node_false Hc) as (S2 & C2 & H2 & M2).
  unfold from_range. set (xs := map _ (rs_iter r)) in *. set (ys := map _ (rs_iter (rs_complement r))) in *.
  pose (c := fun e e' : R * NodeId => cut_cmp (start_of e) (start_of e')).
  assert (OrdLaws c) by apply (key_laws cut_cmp start_of).
  exists (sort_by c (xs ++ ys)). pose proof (sort_by_perm c (xs ++ ys)) as Hperm.
  assert (Hsim : Forall simple (xs ++ ys)) by (by apply Forall_app).
  assert (Ht : tiles NegInf (sort_by c (xs ++ ys)) PosInf).
  { apply partition_tiles.
    - by rewrite <- Hperm.
    - apply Sorted_StronglySorted; [intros x y z; apply cut_le_trans|]. apply (sort_by_sorted c).
    - apply Forall_forall. intros. apply neg_inf_least.
    - intros p Hp _. rewrite <- (perm_hits p _ _ Hperm). unfold hits in *. rewrite List.filter_app, length_app, H1, H2, Mc by done.
      by destruct (cut_mem _ _). }
  split; [|split; [done|]].
  - eapply (sort_by_pure simple); [|done]. intros [r1 c1] [r2 c2] (a1 & b1 & R1) (a2 & b2 & R2). cbn [fst] in *.
    unfold c. rewrite (start_of_at r1 c1 a1 b1), (start_of_at r2 c2 a2 b2) by done. by eapply compare_start_cut.
  - intros p Hp. destruct (tile_at_some NegInf _ PosInf p Ht) as (r' & n & a & b & Hin & Hat & Ha & Hb & ->);
      [apply neg_inf_least|by destruct p|]. f_equal. rewrite <- Hperm in Hin.
    assert (Hm : cut_mem p (rs_cuts r') = true) by (rewrite (range_at_mem _ _ _ _ Hat); by apply in_cuts_iff).
    apply elem_of_app in Hin as [Hin|Hin].
    + rewrite (M1 p (r', n)) by done. exact (C1 _ Hin).
    + specialize (M2 p (r', n) Hin Hm). rewrite Mc in M2 by done. apply negb_true_iff in M2. rewrite M2. exact (C2 _ Hin).
Qed.

(** ** Disjointness of range maps *)

Section disjoint.
Context (left right : list (R * NodeId)) (lp rp : NodeId) (disjoint : NodeId -> NodeId -> outcome bool).
Context (P : NodeId -> NodeId -> Prop).
Hypothesis left_tiles : tiles NegInf left PosInf.
Hypothesis right_tiles : tiles NegInf right PosInf.
Hypothesis disjoint_ret : forall lr l rr r, (lr, l) ∈ left -> (rr, r) ∈ right ->
  exists b, disjoint (node_negate l lp) (node_negate r rp) = Ret b /\
    (b = true -> P (node_negate l lp) (node_negate r rp)).

Lemma is_disjoint_row_spec lr l row : (lr, l) ∈ left -> (forall e, e ∈ row -> e ∈ right) ->
  exists b, is_disjoint_row lr (node_negate l lp) row rp disjoint = Ret b /\
    (b = true -> forall rr r, (rr, r) ∈ row -> rs_is_disjoint rr lr = false -> P (node_negate l lp) (node_negate r rp)).
Proof.
  intros Hl. induction row as [|[rr r] row IH]; intros Hrow; cbn [is_disjoint_row].
  { exists true. split; [done|]. by intros _ ? ? ?%elem_of_nil. }
  destruct IH as (b & E & Hb); [intros e He; apply Hrow; by right|].
  destruct (rs_is_disjoint rr lr) eqn:D.
  - exists b. split; [done|]. intros -> rr' r' Hin Hd. apply elem_of_cons in Hin as [[= -> ->]|Hin]; [congruence|eauto].
  - destruct (disjoint_ret lr l rr r Hl (Hrow _ (list_elem_of_here _ _))) as (d & -> & Hd). cbn [obind]. destruct d.
    + exists b. split; [done|]. intros -> rr' r' Hin Hd'. apply elem_of_cons in Hin as [[= -> ->]|Hin]; eauto.
    + by exists false.
Qed.

Lemma is_disjoint_ranges_spec : exists b, is_disjoint_ranges left lp right rp disjoint = Ret b /\
  (b = true -> forall p l r, p <> PosInf -> tile_at p left = Some l -> tile_at p right = Some r ->
    P (node_negate l lp) (node_negate r rp)).
Proof.
  assert (exists b, is_disjoint_ranges left lp right rp disjoint = Ret b /\
    (b = true -> forall lr l rr r, (lr, l) ∈ left -> (rr, r) ∈ right -> rs_is_disjoint rr lr = false ->
      P (node_negate l lp) (node_negate r rp))) as (b & E & Hb).
  { assert (forall rows, (forall e, e ∈ rows -> e ∈ left) -> exists b, is_disjoint_ranges rows lp right rp disjoint = Ret b /\
      (b = true -> forall lr l rr r, (lr, l) ∈ rows -> (rr, r) ∈ right -> rs_is_disjoint rr lr = false ->
        P (node_negate l lp) (node_negate r rp))) as Hrows; [|by apply Hrows].
    induction rows as [|[lr l] rows IH]; intros Hrows; cbn [is_disjoint_ranges].
    { exists true. split; [done|]. by intros _ ? ? ? ? ?%elem_of_nil. }
    destruct IH as (b & E & Hb); [intros e He; apply Hrows; by right|].
    destruct (is_disjoint_row_spec lr l right (Hrows _ (list_elem_of_here _ _))) as (d & -> & Hd); [done|]. cbn [obind].
    destruct d; [|by exists false]. exists b. split; [done|]. intros -> lr' l' rr r Hin Hr Hdis.
    apply elem_of_cons in Hin as [[= -> ->]|Hin]; eauto. }
  exists b. split; [done|]. intros -> p l r Hp El Er.
  assert (cut_lt p PosInf) as Hlt by by destruct p.
  destruct (tile_at_some _ _ _ p left_tiles (neg_inf_least _) Hlt) as (lr & l' & a & c & Hl & Rl & ? & ? & El').
  destruct (tile_at_some _ _ _ p right_tiles (neg_inf_least _) Hlt) as (rr & r' & a' & c' & Hr & Rr & ? & ? & Er').
  rewrite El in El'. rewrite Er in Er'. injection El' as <-. injection Er' as <-.
  eapply (Hb eq_refl); [exact Hl|exact Hr|]. rewrite rs_is_disjoint_law by (apply Rl || apply Rr).
  pose proof (range_at_intersection _ _ _ _ _ _ Rr Rl) as Hi.
  assert (cut_lt (cut_max a' a) (cut_min c' c)) as Hm.
  { apply (cut_le_lt_trans _ p); [by apply max_cut|by apply min_cut]. }
  rewrite (proj2 (cut_lt_iff _ _) Hm) in Hi. by eapply range_at_empty.
Qed.
End disjoint.
End tiles.

(** Node identifiers: a node of a table with at most [2^63 - 1] entries gets an
    identifier that fits a [usize] of 64 bits, from which its index and its
    complement bit are read back; negation only flips that bit. *)
Theorem node_id_roundtrip index c : 0 <= index < 2 ^ 63 - 1 ->
  0 <= node_id_new index c < 2 ^ 64 /\ node_index (node_id_new index c) = index /\ is_complement (node_id_new index c) = c /\
  node_id_new index c <> node_true /\ node_id_new index c <> node_false /\
  node_not (node_id_new index c) = node_id_new index (negb c).
Proof.
  intros Hi. rewrite node_index_new, is_complement_new, node_not_new, node_id_new_eq. unfold node_true, node_false.
  repeat split; destruct c; lia.
Qed.
