(* ===== verification/MarkerTypes.v ===== *)
(** * Marker values, operators and expressions

    Models the data of [crates/uv-pep508/src/marker/tree.rs] and [lowering.rs]:
    the names of marker values with their deprecated spellings, the comparison
    operators, single marker expressions and how they print, the canonical keys
    of decision variables, and the marker environment ([environment.rs]).

    A [str] is its list of bytes.  Validated extra and group names are their
    text. *)

From Stdlib Require Import ZArith Lia String.
From stdpp Require Import base list.
From S2P Require Import Prelude.
From S2P Require Import VersionRepr.
From S2P Require Import VersionOrder.
From S2P Require Import VersionParser.
From S2P Require Import VersionDisplay.
From S2P Require Import Specifier.
From S2P Require Import SpecifierParser.
Open Scope Z_scope.

Definition Str : Type := list Z.

(** [match s { "name" => value, .. }] *)
Fixpoint match_name {A} (table : list (string * A)) (s : Str) : option A :=
  match table with
  | [] => None
  | (name, value) :: rest => if bytes_eqb s (bs name) then Some value else match_name rest s
  end.

(** ** Marker values *)

Inductive MarkerValueVersion := ImplementationVersion | PythonFullVersion | PythonVersion.

Definition marker_value_version_display (k : MarkerValueVersion) : Str :=
  match k with
  | ImplementationVersion => bs "implementation_version"
  | PythonFullVersion => bs "python_full_version"
  | PythonVersion => bs "python_version"
  end.

Inductive MarkerValueString :=
| ImplementationName
| OsName
| OsNameDeprecated
| PlatformMachine
| PlatformMachineDeprecated
| PlatformPythonImplementation
| PlatformPythonImplementationDeprecated
| PythonImplementationDeprecated
| PlatformRelease
| PlatformSystem
| PlatformVersion
| PlatformVersionDeprecated
| SysPlatform
| SysPlatformDeprecated.

Definition marker_value_string_display (k : MarkerValueString) : Str :=
  match k with
  | ImplementationName => bs "implementation_name"
  | OsName | OsNameDeprecated => bs "os_name"
  | PlatformMachine | PlatformMachineDeprecated => bs "platform_machine"
  | PlatformPythonImplementation | PlatformPythonImplementationDeprecated
  | PythonImplementationDeprecated => bs "platform_python_implementation"
  | PlatformRelease => bs "platform_release"
  | PlatformSystem => bs "platform_system"
  | PlatformVersion | PlatformVersionDeprecated => bs "platform_version"
  | SysPlatform | SysPlatformDeprecated => bs "sys_platform"
  end.

Inductive MarkerValueList := Extras | DependencyGroups.

Definition marker_value_list_display (k : MarkerValueList) : Str :=
  match k with Extras => bs "extras" | DependencyGroups => bs "dependency_groups" end.

Inductive MarkerValue :=
| MarkerEnvVersion (k : MarkerValueVersion)
| MarkerEnvString (k : MarkerValueString)
| MarkerEnvList (k : MarkerValueList)
| Extra
| QuotedString (s : Str).

(** [FromStr for MarkerValue]; the error is the offending text. *)
Definition marker_value_from_str (s : Str) : result MarkerValue Str :=
  match match_name
    [("implementation_name", MarkerEnvString ImplementationName);
     ("implementation_version", MarkerEnvVersion ImplementationVersion);
     ("os_name", MarkerEnvString OsName);
     ("os.name", MarkerEnvString OsNameDeprecated);
     ("platform_machine", MarkerEnvString PlatformMachine);
     ("platform.machine", MarkerEnvString PlatformMachineDeprecated);
     ("platform_python_implementation", MarkerEnvString PlatformPythonImplementation);
     ("platform.python_implementation", MarkerEnvString PlatformPythonImplementationDeprecated);
     ("python_implementation", MarkerEnvString PythonImplementationDeprecated);
     ("platform_release", MarkerEnvString PlatformRelease);
     ("platform_system", MarkerEnvString PlatformSystem);
     ("platform_version", MarkerEnvString PlatformVersion);
     ("platform.version", MarkerEnvString PlatformVersionDeprecated);
     ("python_full_version", MarkerEnvVersion PythonFullVersion);
     ("python_version", MarkerEnvVersion PythonVersion);
     ("sys_platform", MarkerEnvString SysPlatform);
     ("sys.platform", MarkerEnvString SysPlatformDeprecated);
     ("extras", MarkerEnvList Extras);
     ("dependency_groups", MarkerEnvList DependencyGroups);
     ("extra", Extra)]%string s
  with
  | Some value => Ok value
  | None => Err (bs "Invalid key: " ++ s)
  end.

Definition marker_value_display (v : MarkerValue) : Str :=
  match v with
  | MarkerEnvVersion k => marker_value_version_display k
  | MarkerEnvString k => marker_value_string_display k
  | MarkerEnvList k => marker_value_list_display k
  | Extra => bs "extra"
  | QuotedString s => bs "'" ++ s ++ bs "'"
  end.

(** ** Operators *)

Inductive MarkerOperator :=
| MEqual | MNotEqual | MGreaterThan | MGreaterEqual | MLessThan | MLessEqual | MTildeEqual
| MIn | MNotIn | MContains | MNotContains.

#[export] Instance MarkerOperator_eq_dec : EqDecision MarkerOperator.
Proof. solve_decision. Defined.

Definition to_pep440_operator (op : MarkerOperator) : option Operator :=
  match op with
  | MEqual => Some Equal
  | MNotEqual => Some NotEqual
  | MGreaterThan => Some GreaterThan
  | MGreaterEqual => Some GreaterThanEqual
  | MLessThan => Some LessThan
  | MLessEqual => Some LessThanEqual
  | MTildeEqual => Some TildeEqual
  | _ => None
  end.

Definition marker_op_invert (op : MarkerOperator) : MarkerOperator :=
  match op with
  | MLessThan => MGreaterThan
  | MLessEqual => MGreaterEqual
  | MGreaterThan => MLessThan
  | MGreaterEqual => MLessEqual
  | MEqual => MEqual
  | MNotEqual => MNotEqual
  | MTildeEqual => MTildeEqual
  | MIn => MContains
  | MNotIn => MNotContains
  | MContains => MIn
  | MNotContains => MNotIn
  end.

Definition marker_op_negate (op : MarkerOperator) : option MarkerOperator :=
  match op with
  | MEqual => Some MNotEqual
  | MNotEqual => Some MEqual
  | MTildeEqual => None
  | MLessThan => Some MGreaterEqual
  | MLessEqual => Some MGreaterThan
  | MGreaterThan => Some MLessEqual
  | MGreaterEqual => Some MLessThan
  | MIn => Some MNotIn
  | MNotIn => Some MIn
  | MContains => Some MNotContains
  | MNotContains => Some MContains
  end.

Definition marker_op_from_lower_bound (bound : BoundOf Str) : option (MarkerOperator * Str) :=
  match bound with
  | Included value => Some (MGreaterEqual, value)
  | Excluded value => Some (MGreaterThan, value)
  | Unbounded => None
  end.

Definition marker_op_from_upper_bound (bound : BoundOf Str) : option (MarkerOperator * Str) :=
  match bound with
  | Included value => Some (MLessEqual, value)
  | Excluded value => Some (MLessThan, value)
  | Unbounded => None
  end.

Definition marker_op_from_bounds (bounds : BoundOf Str * BoundOf Str) : list (MarkerOperator * Str) :=
  let separate := option_list (marker_op_from_lower_bound bounds.1) ++
                  option_list (marker_op_from_upper_bound bounds.2) in
  match bounds with
  | (Included v1, Included v2) => if bytes_eqb v1 v2 then [(MEqual, v1)] else separate
  | (Excluded v1, Excluded v2) => if bytes_eqb v1 v2 then [(MNotEqual, v1)] else separate
  | _ => separate
  end.

(** [str::trim] of the text between [not] and [in] is empty. *)
Definition is_not_in (s : list Z) : bool :=
  match strip_prefix (bs "not") s with
  | Some space_in =>
      match strip_suffix (bs "in") space_in with
      | Some space => negb (match space with [] => true | _ => false end) && forallb is_whitespace space
      | None => false
      end
  | None => false
  end.

(** [FromStr for MarkerOperator], on the characters of the text. *)
Definition marker_op_from_str (s : list Z) : result MarkerOperator Str :=
  match match_name
    [("==", MEqual); ("!=", MNotEqual); (">", MGreaterThan); (">=", MGreaterEqual);
     ("<", MLessThan); ("<=", MLessEqual); ("~=", MTildeEqual); ("in", MIn)]%string s
  with
  | Some op => Ok op
  | None => if is_not_in s then Ok MNotIn else Err (bs "Invalid comparator: " ++ s)
  end.

Definition marker_op_display (op : MarkerOperator) : Str :=
  match op with
  | MEqual => bs "=="
  | MNotEqual => bs "!="
  | MGreaterThan => bs ">"
  | MGreaterEqual => bs ">="
  | MLessThan => bs "<"
  | MLessEqual => bs "<="
  | MTildeEqual => bs "~="
  | MIn | MContains => bs "in"
  | MNotIn | MNotContains => bs "not in"
  end.

(** ** Expressions *)

Inductive ExtraOperator := ExtraEqual | ExtraNotEqual.

#[export] Instance ExtraOperator_eq_dec : EqDecision ExtraOperator.
Proof. solve_decision. Defined.

Definition extra_op_from_marker_operator (op : MarkerOperator) : option ExtraOperator :=
  match op with MEqual => Some ExtraEqual | MNotEqual => Some ExtraNotEqual | _ => None end.

Definition extra_op_negate (op : ExtraOperator) : ExtraOperator :=
  match op with ExtraEqual => ExtraNotEqual | ExtraNotEqual => ExtraEqual end.

Definition extra_op_display (op : ExtraOperator) : Str :=
  match op with ExtraEqual => bs "==" | ExtraNotEqual => bs "!=" end.

Inductive ContainerOperator := ContainerIn | ContainerNotIn.

#[export] Instance ContainerOperator_eq_dec : EqDecision ContainerOperator.
Proof. solve_decision. Defined.

Definition container_op_from_marker_operator (op : MarkerOperator) : option ContainerOperator :=
  match op with MIn => Some ContainerIn | MNotIn => Some ContainerNotIn | _ => None end.

Definition container_op_display (op : ContainerOperator) : Str :=
  match op with ContainerIn => bs "in" | ContainerNotIn => bs "not in" end.

Inductive MarkerValueExtra := ExtraNameValue (extra : Str) | ArbitraryExtra (s : Str).

Definition as_extra (v : MarkerValueExtra) : option Str :=
  match v with ExtraNameValue extra => Some extra | ArbitraryExtra _ => None end.

Definition marker_value_extra_display (v : MarkerValueExtra) : Str :=
  match v with ExtraNameValue extra => extra | ArbitraryExtra s => s end.

(** [CanonicalMarkerListPair] of lowering.rs. *)
Inductive CanonicalMarkerListPair :=
| PairExtras (extra : Str)
| PairDependencyGroup (group : Str)
| PairArbitrary (key : MarkerValueList) (value : Str).

Definition pair_key (p : CanonicalMarkerListPair) : MarkerValueList :=
  match p with
  | PairExtras _ => Extras
  | PairDependencyGroup _ => DependencyGroups
  | PairArbitrary key _ => key
  end.

Definition pair_value (p : CanonicalMarkerListPair) : Str :=
  match p with PairExtras e => e | PairDependencyGroup g => g | PairArbitrary _ value => value end.

Inductive MarkerExpression :=
| EVersion (key : MarkerValueVersion) (specifier : VersionSpecifier)
| EVersionIn (key : MarkerValueVersion) (versions : list Version) (operator : ContainerOperator)
| EString (key : MarkerValueString) (operator : MarkerOperator) (value : Str)
| EList (pair : CanonicalMarkerListPair) (operator : ContainerOperator)
| EExtra (name : MarkerValueExtra) (operator : ExtraOperator).

Inductive MarkerExpressionKind :=
| KVersion (key : MarkerValueVersion)
| KVersionIn (key : MarkerValueVersion)
| KString (key : MarkerValueString)
| KList (key : MarkerValueList)
| KExtra.

(** [MarkerExpression::kind] *)
Definition expression_kind (e : MarkerExpression) : MarkerExpressionKind :=
  match e with
  | EVersion key _ => KVersion key
  | EVersionIn key _ _ => KVersionIn key
  | EString key _ _ => KString key
  | EList p _ => KList (pair_key p)
  | EExtra _ _ => KExtra
  end.

(** Texts separated by [sep], as [itertools::format]. *)
Fixpoint format_sep (sep : Str) (l : list Str) : Str :=
  match l with
  | [] => []
  | [x] => x
  | x :: rest => x ++ sep ++ format_sep sep rest
  end.

Definition quoted (s : Str) : Str := bs "'" ++ s ++ bs "'".

Definition expression_display (e : MarkerExpression) : Str :=
  match e with
  | EVersion key specifier =>
      let op := operator specifier in
      let version := version_display (spec_version specifier) in
      marker_value_version_display key ++ bs " " ++ as_str op ++ bs " " ++
      match op with
      | EqualStar | NotEqualStar => quoted (version ++ bs ".*")
      | _ => quoted version
      end
  | EVersionIn key versions op =>
      marker_value_version_display key ++ bs " " ++ container_op_display op ++ bs " " ++
      quoted (format_sep (bs " ") (map version_display versions))
  | EString key op value =>
      match op with
      | MContains | MNotContains =>
          quoted value ++ bs " " ++ marker_op_display (marker_op_invert op) ++ bs " " ++
          marker_value_string_display key
      | _ =>
          marker_value_string_display key ++ bs " " ++ marker_op_display op ++ bs " " ++ quoted value
      end
  | EList p op =>
      quoted (pair_value p) ++ bs " " ++ container_op_display op ++ bs " " ++
      marker_value_list_display (pair_key p)
  | EExtra name op =>
      bs "extra " ++ extra_op_display op ++ bs " " ++ quoted (marker_value_extra_display name)
  end.

(** ** Canonical keys (lowering.rs) *)

Inductive CanonicalMarkerValueVersion := CImplementationVersion | CPythonFullVersion.

#[export] Instance CanonicalMarkerValueVersion_eq_dec : EqDecision CanonicalMarkerValueVersion.
Proof. solve_decision. Defined.

Definition version_key_of_canonical (k : CanonicalMarkerValueVersion) : MarkerValueVersion :=
  match k with
  | CImplementationVersion => ImplementationVersion
  | CPythonFullVersion => PythonFullVersion
  end.

Inductive CanonicalMarkerValueString :=
| COsName | CSysPlatform | CPlatformSystem | CPlatformMachine | CPlatformPythonImplementation
| CPlatformRelease | CPlatformVersion | CImplementationName.

#[export] Instance CanonicalMarkerValueString_eq_dec : EqDecision CanonicalMarkerValueString.
Proof. solve_decision. Defined.

(** The derived order is the order of declaration. *)
Definition string_key_rank (k : CanonicalMarkerValueString) : Z :=
  match k with
  | COsName => 0 | CSysPlatform => 1 | CPlatformSystem => 2 | CPlatformMachine => 3
  | CPlatformPythonImplementation => 4 | CPlatformRelease => 5 | CPlatformVersion => 6
  | CImplementationName => 7
  end.

Definition version_key_rank (k : CanonicalMarkerValueVersion) : Z :=
  match k with CImplementationVersion => 0 | CPythonFullVersion => 1 end.

Definition is_conflicting (k : CanonicalMarkerValueString) : bool :=
  string_key_rank k <=? string_key_rank CPlatformSystem.

Definition canonical_string_key (k : MarkerValueString) : CanonicalMarkerValueString :=
  match k with
  | ImplementationName => CImplementationName
  | OsName | OsNameDeprecated => COsName
  | PlatformMachine | PlatformMachineDeprecated => CPlatformMachine
  | PlatformPythonImplementation | PlatformPythonImplementationDeprecated
  | PythonImplementationDeprecated => CPlatformPythonImplementation
  | PlatformRelease => CPlatformRelease
  | PlatformSystem => CPlatformSystem
  | PlatformVersion | PlatformVersionDeprecated => CPlatformVersion
  | SysPlatform | SysPlatformDeprecated => CSysPlatform
  end.

Definition string_key_of_canonical (k : CanonicalMarkerValueString) : MarkerValueString :=
  match k with
  | CImplementationName => ImplementationName
  | COsName => OsName
  | CPlatformMachine => PlatformMachine
  | CPlatformPythonImplementation => PlatformPythonImplementation
  | CPlatformRelease => PlatformRelease
  | CPlatformSystem => PlatformSystem
  | CPlatformVersion => PlatformVersion
  | CSysPlatform => SysPlatform
  end.

(** ** The marker environment (environment.rs) *)

(** A version with its original text. *)
Record StringVersion := mkStringVersion { sv_string : Str; sv_version : Version }.

Record MarkerEnvironment := mkEnvironment {
  implementation_name : Str;
  implementation_version : StringVersion;
  os_name : Str;
  platform_machine : Str;
  platform_python_implementation : Str;
  platform_release : Str;
  platform_system : Str;
  platform_version : Str;
  python_full_version : StringVersion;
  python_version : StringVersion;
  sys_platform : Str;
}.

Definition get_version (env : MarkerEnvironment) (key : CanonicalMarkerValueVersion) : Version :=
  match key with
  | CImplementationVersion => sv_version (implementation_version env)
  | CPythonFullVersion => sv_version (python_full_version env)
  end.

Definition get_string (env : MarkerEnvironment) (key : CanonicalMarkerValueString) : Str :=
  match key with
  | CImplementationName => implementation_name env
  | COsName => os_name env
  | CPlatformMachine => platform_machine env
  | CPlatformPythonImplementation => platform_python_implementation env
  | CPlatformRelease => platform_release env
  | CPlatformSystem => platform_system env
  | CPlatformVersion => platform_version env
  | CSysPlatform => sys_platform env
  end.

Definition string_version_from_str (s : Str) : outcome (result StringVersion ErrorKind) :=
  outcome_map (fun r => match r with Ok v => Ok (mkStringVersion s v) | Err e => Err e end) (version_from_str s).

Definition string_version_from_version (v : Version) : StringVersion := mkStringVersion (version_display v) v.

(** [TryFrom<MarkerEnvironmentBuilder>]: the versions are parsed, in the order of
    the fields. *)
Definition environment_try_from (implementation_name implementation_version os_name platform_machine
    platform_python_implementation platform_release platform_system platform_version
    python_full_version python_version sys_platform : Str) : outcome (result MarkerEnvironment ErrorKind) :=
  let! iv := string_version_from_str implementation_version in
  match iv with
  | Err e => Ret (Err e)
  | Ok iv =>
      let! pf := string_version_from_str python_full_version in
      match pf with
      | Err e => Ret (Err e)
      | Ok pf =>
          let! pv := string_version_from_str python_version in
          match pv with
          | Err e => Ret (Err e)
          | Ok pv =>
              Ret (Ok (mkEnvironment implementation_name iv os_name platform_machine
                platform_python_implementation platform_release platform_system platform_version
                pf pv sys_platform))
          end
      end
  end.

(** [ExtrasEnvironment] *)
Inductive ExtrasEnvironment :=
| EnvExtras (extra : list Str)
| EnvPep751 (extras groups : list Str).

Definition env_extra (e : ExtrasEnvironment) : list Str :=
  match e with EnvExtras extra => extra | EnvPep751 _ _ => [] end.
Definition env_extras (e : ExtrasEnvironment) : list Str :=
  match e with EnvExtras _ => [] | EnvPep751 extras _ => extras end.
Definition env_dependency_groups (e : ExtrasEnvironment) : list Str :=
  match e with EnvExtras _ => [] | EnvPep751 _ groups => groups end.

(** [slice::contains] on names, and [str::contains]. *)
Definition names_contain (l : list Str) (name : Str) : bool := existsb (bytes_eqb name) l.

Fixpoint starts_with (prefix s : Str) : bool :=
  match prefix, s with
  | [], _ => true
  | x :: p, y :: s' => (x =? y) && starts_with p s'
  | _ :: _, [] => false
  end.

Fixpoint str_contains (haystack needle : Str) : bool :=
  starts_with needle haystack ||
  match haystack with [] => false | _ :: rest => str_contains rest needle end.

(** ** Decision variables ([Variable] of algebra.rs) *)

Inductive Var :=
| VString (key : CanonicalMarkerValueString)
| VVersion (key : CanonicalMarkerValueVersion)
| VIn (key : CanonicalMarkerValueString) (value : Str)
| VContains (key : CanonicalMarkerValueString) (value : Str)
| VExtra (name : Str)
| VList (pair : CanonicalMarkerListPair).

Definition is_conflicting_variable (v : Var) : bool :=
  match v with VString marker => is_conflicting marker | _ => false end.

(** The derived [Ord], as the order of tuples: the number of the constructor,
    then its fields. *)
Definition pair_rank (p : CanonicalMarkerListPair) : Z * (Z * Str) :=
  match p with
  | PairExtras e => (0, (0, e))
  | PairDependencyGroup g => (1, (0, g))
  | PairArbitrary key value => (2, (match key with Extras => 0 | DependencyGroups => 1 end, value))
  end.

Definition variable_rank (v : Var) : Z * (Z * (Z * Str)) :=
  match v with
  | VString key => (0, (string_key_rank key, (0, [])))
  | VVersion key => (1, (version_key_rank key, (0, [])))
  | VIn key value => (2, (string_key_rank key, (0, value)))
  | VContains key value => (3, (string_key_rank key, (0, value)))
  | VExtra name => (4, (0, (0, name)))
  | VList p => (5, pair_rank p)
  end.

Definition variable_cmp (v w : Var) : comparison :=
  pair_cmp Z.compare (pair_cmp Z.compare (pair_cmp Z.compare (list_cmp Z.compare)))
    (variable_rank v) (variable_rank w).

#[export] Instance variable_cmp_laws : OrdLaws variable_cmp.
Proof. apply (key_laws _ variable_rank). Qed.

#[export] Instance variable_cmp_eq : OrdEq variable_cmp.
Proof.
  constructor. intros v w E.
  apply (ord_eq (pair_cmp Z.compare (pair_cmp Z.compare (pair_cmp Z.compare (list_cmp Z.compare))))) in E.
  destruct v as [[]|[]|[] ?|[] ?|?|[?|?|[] ?]], w as [[]|[]|[] ?|[] ?|?|[?|?|[] ?]]; cbn in E; try done; by injection E as ->.
Qed.
