(* ===== verification/RangeInstances.v ===== *)
(** * Ranges of versions and of strings

    The two instances of [Ranges<T>] in the marker algebra: versions, compared by
    [Ord for Version] where it is a total order, and strings, compared bytewise.
    Every lawful [RangeSet Version] also satisfies the interface of [Ranges.v], so
    the conversions proved there can be used on it. *)

From Stdlib Require Import ZArith Lia.
From stdpp Require Import base list.
From S2P Require Import Prelude.
From S2P Require Import VersionRepr.
From S2P Require Import VersionOrder.
From S2P Require Import VersionRecord.
From S2P Require Import Specifier.
From S2P Require Import Ranges.
From S2P Require Import RangeSet.
From S2P Require Import MarkerTypes.
Open Scope Z_scope.

#[export] Instance version_keyed : Keyed Version := {
  key_of := key; key_order := key_cmp; value_cmp := cmp; valid := wf;
}.

#[export] Instance version_keyed_laws : KeyedLaws Version.
Proof. split; [exact _|exact _|exact cmp_key]. Qed.

#[export] Instance str_keyed : Keyed Str := {
  key_of s := s; key_order := list_cmp Z.compare; value_cmp := list_cmp Z.compare; valid _ := true;
}.

#[export] Instance str_keyed_laws : KeyedLaws Str.
Proof. split; [exact _|exact _|done]. Qed.

Section versions.
Context {R : Type} `{!RangeSet Version R}.

#[export] Instance range_set_ops : RangeOps R := {
  ranges_contains := rs_contains;
  ranges_full := rs_full;
  ranges_singleton := rs_singleton;
  ranges_between := rs_between;
  ranges_complement := rs_complement;
  ranges_intersection := rs_intersection;
  ranges_strictly_lower_than := rs_strictly_lower_than;
  ranges_lower_than := rs_lower_than;
  ranges_strictly_higher_than := rs_strictly_higher_than;
  ranges_higher_than := rs_higher_than;
  ranges_from_range v w := rs_from_range_bounds (Included v, Excluded w);
}.

Context `{!RangeSetLaws Version R}.

Lemma covers_contains (r : R) f x : covers r f -> wf x = true -> rs_contains r x = f (at_value x).
Proof. intros [Hr Hf] Hx. rewrite rs_contains_law by done. by apply Hf. Qed.

Lemma value_in_cuts (x : Version) (a b : BoundOf Version) :
  bound_valid a = true -> bound_valid b = true -> wf x = true ->
  in_cuts (at_value x) (lower_cut a, upper_cut b) = above a x && below b x.
Proof.
  intros Ha Hb Hx. unfold in_cuts, at_value, cut_cmp, before, after. cbn [fst snd]. f_equal.
  - destruct a as [v|v|]; [| |done]; cbn in Ha |- *; unfold pair_cmp; cbn; rewrite cmp_key by done;
      rewrite (ord_sym key_cmp); by destruct (key_cmp _ _).
  - destruct b as [v|v|]; [| |done]; cbn in Hb |- *; unfold pair_cmp; cbn; rewrite cmp_key by done; by destruct (key_cmp _ _).
Qed.

(** Membership by a law of the range set. *)
Ltac via law := rewrite (covers_contains _ _ _ law) by done.

#[export] Instance range_set_ops_laws : RangeLaws R.
Proof.
  refine {| ranges_ok := rs_ok |}; cbn [ranges_full ranges_singleton ranges_between ranges_complement ranges_intersection
    ranges_strictly_lower_than ranges_lower_than ranges_strictly_higher_than ranges_higher_than ranges_from_range
    ranges_contains range_set_ops].
  - unfold rs_ok, rs_cuts. rewrite rs_full_law. by split; [|split].
  - intros. by apply rs_singleton_law.
  - intros. by apply rs_between_law.
  - intros. by apply rs_complement_law.
  - intros. by apply rs_intersection_law.
  - intros. by apply rs_strictly_lower_than_law.
  - intros. by apply rs_lower_than_law.
  - intros. by apply rs_strictly_higher_than_law.
  - intros. by apply rs_higher_than_law.
  - intros. apply rs_from_range_bounds_law. by unfold seg_valid; cbn; apply andb_true_iff.
  - intros x Hx. rewrite rs_contains_law; [|unfold rs_ok, rs_cuts; rewrite rs_full_law; by split; [|split]|done].
    unfold rs_cuts. by rewrite rs_full_law.
  - intros v x Hv Hx. via (rs_singleton_law (T := Version) (R := R) v Hv).
    etrans; [by apply (value_in_cuts x (Included v) (Included v))|]. unfold above, below. by destruct (cmp x v).
  - intros v w x Hv Hw Hlt Hx. via (rs_between_law (T := Version) (R := R) v w Hv Hw Hlt).
    by apply (value_in_cuts x (Included v) (Excluded w)).
  - intros r x Hr Hx. via (rs_complement_law (T := Version) (R := R) r Hr). by rewrite rs_contains_law.
  - intros r s x Hr Hs Hx. via (rs_intersection_law (T := Version) (R := R) r s Hr Hs). by rewrite !rs_contains_law.
  - intros v x Hv Hx. via (rs_strictly_lower_than_law (T := Version) (R := R) v Hv).
    by apply (value_in_cuts x Unbounded (Excluded v)).
  - intros v x Hv Hx. via (rs_lower_than_law (T := Version) (R := R) v Hv).
    by apply (value_in_cuts x Unbounded (Included v)).
  - intros v x Hv Hx. via (rs_strictly_higher_than_law (T := Version) (R := R) v Hv).
    etrans; [by apply (value_in_cuts x (Excluded v) Unbounded)|]. apply andb_true_r.
  - intros v x Hv Hx. via (rs_higher_than_law (T := Version) (R := R) v Hv).
    etrans; [by apply (value_in_cuts x (Included v) Unbounded)|]. apply andb_true_r.
  - intros v w x Hv Hw Hx. assert (V : seg_valid (Included v, Excluded w) = true) by (unfold seg_valid; cbn; by rewrite Hv, Hw).
    via (rs_from_range_bounds_law (T := Version) (R := R) _ V).
    by apply (value_in_cuts x (Included v) (Excluded w)).
Defined.
End versions.
