(* ===== verification/MarkerAlgebra.v ===== *)
(** * The marker algebra

    Models [crates/uv-pep508/src/marker/algebra.rs]: markers as algebraic decision
    diagrams with complemented edges, interned in one global store.

    The interner is the state of [M Interner]: [nodes] only grows, [unique] maps a
    node to its identifier, [cache] memoises conjunctions and [exclusions] the
    marker of known-incompatible conditions.  [FxHashMap<Node, _>] is an
    association list looked up with [PartialEq for Node].  The mutex is not
    modelled: an operation holds it from start to end, so operations do not
    interleave.  Recursion has fuel; a recursive call moves to a larger decision
    variable, so the number of nodes plus one is enough (running out is a panic,
    and the theorems show that it does not happen). *)

From Stdlib Require Import ZArith Lia String.
From stdpp Require Import base list gmap.
From S2P Require Import Prelude.
From S2P Require Import VersionRepr.
From S2P Require Import VersionOrder.
From S2P Require Import Specifier.
From S2P Require Import Ranges.
From S2P Require Import RangeSet.
From S2P Require Import Stateful.
From S2P Require Import MarkerEdges.
From S2P Require Import MarkerTypes.
From S2P Require Import RangeInstances.
Open Scope Z_scope.

(** ** Nodes and the interner *)

Inductive EdgesOf (RV RS : Type) :=
| EdgesVersion (edges : list (RV * NodeId))
| EdgesString (edges : list (RS * NodeId))
| EdgesBoolean (high low : NodeId).
Arguments EdgesVersion {RV RS} edges.
Arguments EdgesString {RV RS} edges.
Arguments EdgesBoolean {RV RS} high low.

Record NodeOf (RV RS : Type) := mkNode { node_var : Var; children : EdgesOf RV RS }.
Arguments mkNode {RV RS} node_var children.
Arguments node_var {RV RS} n.
Arguments children {RV RS} n.

Definition Cache : Type := gmap (Z * Z) Z.

Record InternerOf (RV RS : Type) := mkInterner {
  nodes : list (NodeOf RV RS);
  unique : list (NodeOf RV RS * NodeId);
  cache : Cache;
  exclusions : option NodeId;
}.
Arguments mkInterner {RV RS} nodes unique cache exclusions.
Arguments nodes {RV RS} i.
Arguments unique {RV RS} i.
Arguments cache {RV RS} i.
Arguments exclusions {RV RS} i.

(** [Interner::default] *)
Definition interner_default {RV RS} : InternerOf RV RS := mkInterner [] [] ∅ None.

Section algebra.
Context {RV RS : Type} `{!RangeSet Version RV} `{!RangeSet Str RS}.

Abbreviation Edges := (EdgesOf RV RS).
Abbreviation Node := (NodeOf RV RS).
Abbreviation Interner := (InternerOf RV RS).

Definition set_cache (s : Interner) (key : NodeId * NodeId) (id : NodeId) : Interner :=
  mkInterner (nodes s) (unique s) (<[key := id]> (cache s)) (exclusions s).
Definition set_exclusions (s : Interner) (tree : NodeId) : Interner :=
  mkInterner (nodes s) (unique s) (cache s) (Some tree).

(** [InternerShared::node]: indexing panics out of bounds. *)
Definition shared_node (s : Interner) (id : NodeId) : outcome Node :=
  if node_index id <? 0 then Panic else unwrap (nodes s !! Z.to_nat (node_index id)).

(** ** Edges *)

(** [Edges::nodes] *)
Definition edge_nodes (e : Edges) : list NodeId :=
  match e with
  | EdgesVersion edges => map snd edges
  | EdgesString edges => map snd edges
  | EdgesBoolean high low => [high; low]
  end.

(** [Edges::not] *)
Definition edges_not (e : Edges) : Edges :=
  match e with
  | EdgesVersion edges => EdgesVersion (map (fun x => (fst x, node_not (snd x))) edges)
  | EdgesString edges => EdgesString (map (fun x => (fst x, node_not (snd x))) edges)
  | EdgesBoolean high low => EdgesBoolean (node_not high) (node_not low)
  end.

(** [Edges::map]: the boolean edges are visited low first. *)
Definition edges_map {S} (e : Edges) (parent : NodeId) (f : NodeId -> M S NodeId) : M S Edges :=
  match e with
  | EdgesVersion edges =>
      let* l := map_m (fun x => let* n := f (node_negate (snd x) parent) in mpure (fst x, n)) edges in
      mpure (EdgesVersion l)
  | EdgesString edges =>
      let* l := map_m (fun x => let* n := f (node_negate (snd x) parent) in mpure (fst x, n)) edges in
      mpure (EdgesString l)
  | EdgesBoolean high low =>
      let* low' := f (node_negate low parent) in
      let* high' := f (node_negate high parent) in
      mpure (EdgesBoolean high' low')
  end.

(** [Edges::apply] *)
Definition edges_apply {S} (left : Edges) (parent : NodeId) (right : Edges) (right_parent : NodeId)
    (apply : NodeId -> NodeId -> M S NodeId) : M S Edges :=
  match left, right with
  | EdgesVersion edges, EdgesVersion right_edges =>
      let* l := apply_ranges edges parent right_edges right_parent apply in mpure (EdgesVersion l)
  | EdgesString edges, EdgesString right_edges =>
      let* l := apply_ranges edges parent right_edges right_parent apply in mpure (EdgesString l)
  | EdgesBoolean high low, EdgesBoolean right_high right_low =>
      let* high' := apply (node_negate high parent) (node_negate right_high right_parent) in
      let* low' := apply (node_negate low parent) (node_negate right_low right_parent) in
      mpure (EdgesBoolean high' low')
  | _, _ => mpanic
  end.

(** [Edges::is_disjoint] *)
Definition edges_is_disjoint (left : Edges) (parent : NodeId) (right : Edges) (right_parent : NodeId)
    (disjoint : NodeId -> NodeId -> outcome bool) : outcome bool :=
  match left, right with
  | EdgesVersion edges, EdgesVersion right_edges =>
      is_disjoint_ranges edges parent right_edges right_parent disjoint
  | EdgesString edges, EdgesString right_edges =>
      is_disjoint_ranges edges parent right_edges right_parent disjoint
  | EdgesBoolean high low, EdgesBoolean right_high right_low =>
      let! d := disjoint (node_negate high parent) (node_negate right_high right_parent) in
      if d then disjoint (node_negate low parent) (node_negate right_low right_parent) else Ret false
  | _, _ => Panic
  end.

(** [Edges::from_bool] *)
Definition from_bool (complemented : bool) : Edges :=
  if complemented then EdgesBoolean node_true node_false else EdgesBoolean node_false node_true.

(** [Edges::from_string] *)
Definition string_range (key : CanonicalMarkerValueString) (op : MarkerOperator) (value : Str) : outcome RS :=
  match key, op with
  | (CPlatformRelease | CPlatformVersion), MGreaterThan => Ret (rs_strictly_higher_than value)
  | (CPlatformRelease | CPlatformVersion), MGreaterEqual => Ret (rs_higher_than value)
  | (CPlatformRelease | CPlatformVersion), MLessThan => Ret (rs_strictly_lower_than value)
  | (CPlatformRelease | CPlatformVersion), MLessEqual => Ret (rs_lower_than value)
  | _, MEqual => Ret (rs_singleton value)
  | _, MNotEqual => Ret (rs_complement (rs_singleton value))
  | _, (MGreaterThan | MLessThan) => Ret rs_empty
  | _, (MGreaterEqual | MLessEqual) => Ret (rs_singleton value)
  | _, MTildeEqual => Panic
  | _, _ => Panic
  end.

Definition from_string (key : CanonicalMarkerValueString) (op : MarkerOperator) (value : Str) : outcome Edges :=
  let! range := string_range key op value in
  outcome_map EdgesString (from_range range).

(** [Edges::from_specifier] *)
Definition from_specifier (specifier : VersionSpecifier) : outcome Edges :=
  let! specifier := spec_only_release specifier in
  let! range := release_specifier_to_range (R := RV) specifier true in
  outcome_map EdgesVersion (from_range range).

(** [Edges::from_versions] *)
Definition from_versions (versions : list Version) (op : ContainerOperator) : outcome Edges :=
  let range := rs_collect (R := RV) (map (fun v => (Included v, Included v)) versions) in
  let range := match op with ContainerNotIn => rs_complement range | ContainerIn => range end in
  outcome_map EdgesVersion (from_range range).

(** ** [python_version] *)

Definition all_zero (l : list Z) : bool := forallb (Z.eqb 0) l.

(** The comparison of [python_version], which has two release segments, as a
    comparison of [python_full_version]; [Err] is a constant node. *)
Definition python_version_to_full_version (specifier : VersionSpecifier) : outcome (result VersionSpecifier NodeId) :=
  let op := operator specifier in
  if is_star op then
    match release (spec_version specifier) with
    | [_] => Ret (Ok specifier)
    | major :: minor :: rest =>
        if all_zero rest then
          let! python_version := version_new [major; minor] in
          match from_version op python_version with
          | Ok s => Ret (Ok s)
          | Err _ => Panic
          end
        else Ret (Err node_false)
    | [] => Ret (Err node_false)
    end
  else if op_eqb op TildeEqual then
    match release (spec_version specifier) with
    | [_; _] => Ret (Ok specifier)
    | major :: minor :: rest =>
        if all_zero rest then
          let! python_version := version_new [major; minor] in
          Ret (Ok (equals_star_version python_version))
        else Ret (Err node_false)
    | _ => Ret (Err node_false)
    end
  else
    let! trimmed := only_release_trimmed (spec_version specifier) in
    let major_minor :=
      match release trimmed with
      | [major] => Some (major, 0)
      | [major; minor] => Some (major, minor)
      | _ => None
      end in
    match major_minor with
    | Some (major, minor) =>
        let! version := version_new [major; minor] in
        match op with
        | Equal | ExactEqual => Ret (Ok (equals_star_version version))
        | NotEqual => Ret (Ok (not_equals_star_version version))
        | GreaterThan =>
            let! next := add64 minor 1 in
            let! v := version_new [major; next] in
            Ret (Ok (greater_than_equal_version v))
        | LessThan => Ret (Ok specifier)
        | GreaterThanEqual => Ret (Ok specifier)
        | LessThanEqual =>
            let! next := add64 minor 1 in
            let! v := version_new [major; next] in
            Ret (Ok (less_than_version v))
        | EqualStar | NotEqualStar | TildeEqual => Panic
        end
    | None =>
        match release (spec_version specifier) with
        | major :: minor :: _ =>
            match op with
            | Equal | ExactEqual => Ret (Err node_false)
            | NotEqual => Ret (Err node_true)
            | LessThan | LessThanEqual =>
                let! next := add64 minor 1 in
                let! v := version_new [major; next] in
                Ret (Ok (less_than_version v))
            | GreaterThan | GreaterThanEqual =>
                let! next := add64 minor 1 in
                let! v := version_new [major; next] in
                Ret (Ok (greater_than_equal_version v))
            | EqualStar | NotEqualStar | TildeEqual => Panic
            end
        | _ => Panic
        end
    end.

(** The segments of the versions of a [python_version in '...'] list. *)
Fixpoint python_versions_segments (versions : list Version)
    : outcome (result (list (BoundOf Version * BoundOf Version)) NodeId) :=
  match versions with
  | [] => Ret (Ok [])
  | version :: rest =>
      let! release_only := only_release version in
      let! specifier := python_version_to_full_version (equals_version release_only) in
      match specifier with
      | Err node => Ret (Err node)
      | Ok specifier =>
          let! range := release_specifier_to_range (R := RV) specifier true in
          let! others := python_versions_segments rest in
          match others with
          | Err node => Ret (Err node)
          | Ok segments => Ret (Ok (rs_iter range ++ segments))
          end
      end
  end.

(** [Edges::from_python_versions] *)
Definition from_python_versions (versions : list Version) (op : ContainerOperator) : outcome (result Edges NodeId) :=
  let! segments := python_versions_segments versions in
  match segments with
  | Err node => Ret (Err node)
  | Ok segments =>
      let range := rs_collect (R := RV) segments in
      let range := match op with ContainerNotIn => rs_complement range | ContainerIn => range end in
      outcome_map (fun edges => Ok (EdgesVersion edges)) (from_range range)
  end.

(** ** Interning *)

Definition edge_eqb {R} (eqb : R -> R -> bool) (a b : R * NodeId) : bool :=
  eqb (fst a) (fst b) && (snd a =? snd b).

Fixpoint list_eqb {A} (eqb : A -> A -> bool) (l k : list A) : bool :=
  match l, k with
  | [], [] => true
  | x :: l', y :: k' => eqb x y && list_eqb eqb l' k'
  | _, _ => false
  end.

(** The derived [PartialEq] of [Node] and [Edges]. *)
Definition edges_eqb (e f : Edges) : bool :=
  match e, f with
  | EdgesVersion l, EdgesVersion k => list_eqb (edge_eqb rs_eqb) l k
  | EdgesString l, EdgesString k => list_eqb (edge_eqb rs_eqb) l k
  | EdgesBoolean h l, EdgesBoolean h' l' => (h =? h') && (l =? l')
  | _, _ => false
  end.

Definition node_eqb (n m : Node) : bool :=
  is_eq (variable_cmp (node_var n) (node_var m)) && edges_eqb (children n) (children m).

Fixpoint unique_get (l : list (Node * NodeId)) (n : Node) : option NodeId :=
  match l with
  | [] => None
  | (m, id) :: rest => if node_eqb m n then Some id else unique_get rest n
  end.

(** [Node::not] *)
Definition node_flip (n : Node) : Node := mkNode (node_var n) (edges_not (children n)).

(** [entry(node).or_insert_with(..)] *)
Definition intern (node : Node) : M Interner NodeId := fun s =>
  match unique_get (unique s) node with
  | Some id => Ret (id, s)
  | None =>
      let id := node_id_new (Z.of_nat (length (nodes s))) false in
      Ret (id, mkInterner (nodes s ++ [node]) (unique s ++ [(node, id)]) (cache s) (exclusions s))
  end.

Definition create_node (var : Var) (edges : Edges) : M Interner NodeId :=
  match edge_nodes edges with
  | [] => mpanic
  | first :: _ =>
      let flipped := is_complement first in
      let node := if flipped then node_flip (mkNode var edges) else mkNode var edges in
      let first := if flipped then node_not first else first in
      if forallb (Z.eqb first) (edge_nodes (children node))
      then mpure (if flipped then node_not first else first)
      else
        let* id := intern node in
        mpure (if flipped then node_not id else id)
  end.

(** The keys and values that name the same platform. *)
Definition normalize_platform (key : MarkerValueString) (value : Str) : CanonicalMarkerValueString * Str :=
  match key with
  | PlatformSystem =>
      match match_name
        [("Windows", bs "win32"); ("Darwin", bs "darwin"); ("Linux", bs "linux"); ("AIX", bs "aix");
         ("Emscripten", bs "emscripten"); ("Android", bs "android")]%string value
      with
      | Some value => (CSysPlatform, value)
      | None => (canonical_string_key key, value)
      end
  | _ => (canonical_string_key key, value)
  end.

(** The variable and edges of an expression, or a constant node. *)
Definition expression_edges (expr : MarkerExpression) : outcome (result (Var * Edges) NodeId) :=
  match expr with
  | EVersion ImplementationVersion specifier =>
      outcome_map (fun e => Ok (VVersion CImplementationVersion, e)) (from_specifier specifier)
  | EVersion PythonFullVersion specifier =>
      outcome_map (fun e => Ok (VVersion CPythonFullVersion, e)) (from_specifier specifier)
  | EVersion PythonVersion specifier =>
      let! release_only := spec_only_release specifier in
      let! full := python_version_to_full_version release_only in
      match full with
      | Ok specifier => outcome_map (fun e => Ok (VVersion CPythonFullVersion, e)) (from_specifier specifier)
      | Err node => Ret (Err node)
      end
  | EVersionIn ImplementationVersion versions op =>
      outcome_map (fun e => Ok (VVersion CImplementationVersion, e)) (from_versions versions op)
  | EVersionIn PythonFullVersion versions op =>
      outcome_map (fun e => Ok (VVersion CPythonFullVersion, e)) (from_versions versions op)
  | EVersionIn PythonVersion versions op =>
      let! edges := from_python_versions versions op in
      match edges with
      | Ok e => Ret (Ok (VVersion CPythonFullVersion, e))
      | Err node => Ret (Err node)
      end
  | EString key MIn value => Ret (Ok (VIn (canonical_string_key key) value, from_bool true))
  | EString key MNotIn value => Ret (Ok (VIn (canonical_string_key key) value, from_bool false))
  | EString key MContains value => Ret (Ok (VContains (canonical_string_key key) value, from_bool true))
  | EString key MNotContains value => Ret (Ok (VContains (canonical_string_key key) value, from_bool false))
  | EString key op value =>
      let '(key, value) := normalize_platform key value in
      outcome_map (fun e => Ok (VString key, e)) (from_string key op value)
  | EList p op =>
      Ret (Ok (VList p, from_bool (match op with ContainerIn => true | ContainerNotIn => false end)))
  | EExtra (ExtraNameValue extra) ExtraEqual => Ret (Ok (VExtra extra, from_bool true))
  | EExtra (ExtraNameValue extra) ExtraNotEqual => Ret (Ok (VExtra extra, from_bool false))
  | EExtra (ArbitraryExtra _) _ => Ret (Err node_false)
  end.

(** [InternerGuard::expression] *)
Definition expression (expr : MarkerExpression) : M Interner NodeId :=
  let* r := mlift (expression_edges expr) in
  match r with
  | Ok (var, edges) => create_node var edges
  | Err node => mpure node
  end.

(** ** Shannon expansion *)

(** The expansion of the variable of higher order, common to [and] and
    [conjunction]; [rec] is the recursive call. *)
Definition shannon {S} (x y : Node) (xi yi : NodeId) (rec : NodeId -> NodeId -> M S NodeId) : M S (Var * Edges) :=
  match variable_cmp (node_var x) (node_var y) with
  | Lt => let* e := edges_map (children x) xi (fun node => rec node yi) in mpure (node_var x, e)
  | Gt => let* e := edges_map (children y) yi (fun node => rec node xi) in mpure (node_var y, e)
  | Eq => let* e := edges_apply (children x) xi (children y) yi rec in mpure (node_var x, e)
  end.

(** The answers that need no expansion. *)
Definition and_shortcut (xi yi : NodeId) : option NodeId :=
  if node_is_true xi then Some yi
  else if node_is_true yi then Some xi
  else if xi =? yi then Some xi
  else if node_is_false xi || node_is_false yi then Some node_false
  else if node_not xi =? yi then Some node_false
  else None.

Definition disjoint_shortcut (xi yi : NodeId) : option bool :=
  if node_is_false xi || node_is_false yi then Some true
  else if node_is_true xi || node_is_true yi then Some false
  else if xi =? yi then Some false
  else if node_not xi =? yi then Some true
  else None.

(** [nodes().all(|n| disjoint(n))] *)
Fixpoint all_o (f : NodeId -> outcome bool) (l : list NodeId) : outcome bool :=
  match l with
  | [] => Ret true
  | n :: rest => let! d := f n in if d then all_o f rest else Ret false
  end.

(** [InternerGuard::disjointness] *)
Fixpoint disjointness (fuel : nat) (s : Interner) (xi yi : NodeId) : outcome bool :=
  match disjoint_shortcut xi yi with
  | Some d => Ret d
  | None =>
      match fuel with
      | O => Panic
      | S fuel =>
          let! x := shared_node s xi in
          let! y := shared_node s yi in
          match variable_cmp (node_var x) (node_var y) with
          | Lt => all_o (fun n => disjointness fuel s (node_negate n xi) yi) (edge_nodes (children x))
          | Gt => all_o (fun n => disjointness fuel s (node_negate n yi) xi) (edge_nodes (children y))
          | Eq => edges_is_disjoint (children x) xi (children y) yi (disjointness fuel s)
          end
      end
  end.

(** Enough fuel for every recursion on the nodes of [s]. *)
Definition enough (s : Interner) : nat := S (length (nodes s)).

(** ** Known-incompatible conditions *)

(** An operation with a cache of its own beside the interner. *)
Definition with_interner {A} (m : M Interner A) : M (Interner * Cache) A := fun s =>
  match m (fst s) with Ret (a, i) => Ret (a, (i, snd s)) | Panic => Panic end.

(** [conjunction] of [exclusions]. *)
Fixpoint conjunction (fuel : nat) (xi yi : NodeId) : M (Interner * Cache) NodeId :=
  match and_shortcut xi yi with
  | Some r => mpure r
  | None =>
      let* s := mget in
      match snd s !! (xi, yi) with
      | Some r => mpure r
      | None =>
          match fuel with
          | O => mpanic
          | S fuel =>
              let* x := mlift (shared_node (fst s) xi) in
              let* y := mlift (shared_node (fst s) yi) in
              let* fc := shannon x y xi yi (conjunction fuel) in
              let* node := with_interner (create_node (fst fc) (snd fc)) in
              let* s' := mget in
              let* _ := mput (fst s', <[(xi, yi) := node]> (snd s')) in
              mpure node
          end
      end
  end.

(** [disjunction] of [exclusions]. *)
Definition disjunction (fuel : nat) (xi yi : NodeId) : M (Interner * Cache) NodeId :=
  let* r := conjunction fuel (node_not xi) (node_not yi) in mpure (node_not r).

Definition string_equals (key : MarkerValueString) (value : string) : MarkerExpression :=
  EString key MEqual (bs value).

(** The nodes created upfront, by name. *)
Definition exclusion_expressions : list MarkerExpression :=
  [string_equals OsName "nt"; string_equals OsName "posix";
   string_equals SysPlatform "linux"; string_equals SysPlatform "darwin"; string_equals SysPlatform "ios";
   string_equals SysPlatform "win32";
   string_equals PlatformSystem "FreeBSD"; string_equals PlatformSystem "NetBSD";
   string_equals PlatformSystem "OpenBSD"; string_equals PlatformSystem "SunOS";
   string_equals PlatformSystem "iOS"; string_equals PlatformSystem "iPadOS";
   string_equals SysPlatform "aix"; string_equals SysPlatform "android"; string_equals SysPlatform "emscripten";
   string_equals SysPlatform "cygwin"; string_equals SysPlatform "wasi"].

(** The known-incompatible pairs among them. *)
Definition exclusion_pairs (ids : list NodeId) : list (NodeId * NodeId) :=
  match ids with
  | [os_name_nt; os_name_posix; linux; darwin; ios; win32; freebsd; netbsd; openbsd; sunos; system_ios; system_ipados;
     aix; android; emscripten; cygwin; wasi] =>
      [(os_name_nt, linux); (os_name_nt, darwin); (os_name_nt, ios); (os_name_posix, win32)] ++
      flat_map (fun platform_system =>
        flat_map (fun sys_platform =>
          if (sys_platform =? ios) && ((platform_system =? system_ios) || (platform_system =? system_ipados))
          then [] else [(platform_system, sys_platform)])
          [aix; android; emscripten; ios; linux; darwin; win32; cygwin; wasi])
        [freebsd; netbsd; openbsd; sunos; system_ios; system_ipados]
  | _ => []
  end.

(** [InternerGuard::exclusions] *)
Definition get_exclusions : M Interner NodeId := fun s =>
  match exclusions s with
  | Some e => Ret (e, s)
  | None =>
      let build : M (Interner * Cache) NodeId :=
        let* ids := map_m (fun e => with_interner (expression e)) exclusion_expressions in
        fold_m (fun tree ab =>
          let* s1 := mget in
          let* a_and_b := conjunction (enough (fst s1)) (fst ab) (snd ab) in
          let* s2 := mget in
          disjunction (enough (fst s2)) tree a_and_b) node_false (exclusion_pairs ids) in
      match build (s, ∅) with
      | Ret (tree, (s', _)) => Ret (tree, set_exclusions s' tree)
      | Panic => Panic
      end
  end.

(** ** Conjunction, disjunction, disjointness *)

(** If the node includes known incompatibilities, map it to [false]. *)
Definition drop_conflicts (conflicts : bool) (node : NodeId) : M Interner NodeId :=
  if conflicts then
    let* e := get_exclusions in
    let* s := mget in
    let* d := mlift (disjointness (enough s) s node (node_not e)) in
    mpure (if d then node_false else node)
  else mpure node.

Fixpoint and_fuel (fuel : nat) (xi yi : NodeId) : M Interner NodeId :=
  match and_shortcut xi yi with
  | Some r => mpure r
  | None =>
      let* s := mget in
      match cache s !! (xi, yi) with
      | Some r => mpure r
      | None =>
          match fuel with
          | O => mpanic
          | S fuel =>
              let* x := mlift (shared_node s xi) in
              let* y := mlift (shared_node s yi) in
              let conflicts := is_conflicting_variable (node_var x) && is_conflicting_variable (node_var y) in
              let* fc := shannon x y xi yi (and_fuel fuel) in
              let* node := create_node (fst fc) (snd fc) in
              let* node := drop_conflicts conflicts node in
              let* s' := mget in
              let* _ := mput (set_cache s' (xi, yi) node) in
              mpure node
          end
      end
  end.

(** [InternerGuard::and] *)
Definition interner_and (xi yi : NodeId) : M Interner NodeId := let* s := mget in and_fuel (enough s) xi yi.

(** [InternerGuard::or] *)
Definition interner_or (xi yi : NodeId) : M Interner NodeId :=
  let* r := interner_and (node_not xi) (node_not yi) in mpure (node_not r).

(** [InternerGuard::is_disjoint] *)
Definition is_disjoint (xi yi : NodeId) : M Interner bool :=
  match disjoint_shortcut xi yi with
  | Some d => mpure d
  | None =>
      let* s := mget in
      let* x := mlift (shared_node s xi) in
      let* y := mlift (shared_node s yi) in
      if is_conflicting_variable (node_var x) && is_conflicting_variable (node_var y) then
        let* r := interner_and xi yi in mpure (node_is_false r)
      else
        mlift match variable_cmp (node_var x) (node_var y) with
              | Lt => all_o (fun n => disjointness (enough s) s (node_negate n xi) yi) (edge_nodes (children x))
              | Gt => all_o (fun n => disjointness (enough s) s (node_negate n yi) xi) (edge_nodes (children y))
              | Eq => edges_is_disjoint (children x) xi (children y) yi (disjointness (enough s) s)
              end
  end.
End algebra.
