(* ===== verification/MarkerStore.v ===== *)
(** * The interner: meaning and invariant

    What a node identifier means ([den]: its value under a valuation of the
    decision variables), which variables it depends on ([support]), and the
    invariant of the interner ([interner_ok]): children come before their parents
    and decide on larger variables, edges tile the line, nodes are reduced and
    distinct, and the unique table is exact.  [create_node] keeps the invariant
    and builds the node it is asked for. *)

From Stdlib Require Import ZArith Lia.
From stdpp Require Import base list gmap.
From S2P Require Import Prelude.
From S2P Require Import VersionRepr.
From S2P Require Import VersionOrder.
From S2P Require Import RangeSet.
From S2P Require Import Stateful.
From S2P Require Import MarkerEdges.
From S2P Require Import MarkerTypes.
From S2P Require Import RangeInstances.
From S2P Require Import MarkerAlgebra.
Open Scope Z_scope.

(** ** Tables computed from the nodes, in order *)

Section tables.
Context {N A : Type} (step : list A -> N -> A).

Definition table (l : list N) : list A := fold_left (fun acc n => acc ++ [step acc n]) l [].

Lemma table_snoc l n : table (l ++ [n]) = table l ++ [step (table l) n].
Proof. unfold table. by rewrite fold_left_app. Qed.

Lemma table_length l : length (table l) = length l.
Proof. induction l as [|n l IH] using rev_ind; [done|]. rewrite table_snoc, !length_app, IH. done. Qed.

Lemma table_app l k : exists m, table (l ++ k) = table l ++ m.
Proof.
  induction k as [|n k [m IH]] using rev_ind; [exists []; by rewrite !app_nil_r|].
  rewrite app_assoc, table_snoc, IH, <- app_assoc. eauto.
Qed.

Lemma table_lookup l k n : l !! k = Some n -> table l !! k = Some (step (table (take k l)) n).
Proof.
  intros E. pose proof (lookup_lt_Some _ _ _ E) as Hk.
  transitivity (table (take k l ++ n :: drop (S k) l) !! k); [by rewrite take_drop_middle|].
  rewrite (app_assoc (take k l) [n] (drop (S k) l) : take k l ++ n :: _ = _).
  destruct (table_app (take k l ++ [n]) (drop (S k) l)) as [m ->]. rewrite table_snoc, <- app_assoc.
  apply list_lookup_middle. by rewrite table_length, length_take, Nat.min_l by lia.
Qed.

Lemma table_take l k : exists m, table l = table (take k l) ++ m.
Proof. destruct (table_app (take k l) (drop k l)) as [m E]. rewrite take_drop in E. eauto. Qed.
End tables.

(** The entry of an identifier; terminals have none. *)
Definition id_entry {A} (default : A) (tbl : list A) (id : NodeId) : A :=
  if node_index id <? 0 then default else nth (Z.to_nat (node_index id)) tbl default.

Lemma id_entry_not {A} (d : A) tbl id : id_entry d tbl (node_not id) = id_entry d tbl id.
Proof. unfold id_entry. by rewrite node_index_not. Qed.

Lemma id_entry_app {A} (d : A) tbl more id : node_index id < Z.of_nat (length tbl) ->
  id_entry d (tbl ++ more) id = id_entry d tbl id.
Proof.
  intros H. unfold id_entry. destruct (Z.ltb_spec (node_index id) 0); [done|]. apply app_nth1. lia.
Qed.

(** ** Valuations *)

(** The values of all decision variables. *)
Record Valuation := mkValuation {
  val_version : CanonicalMarkerValueVersion -> Version;
  val_string : CanonicalMarkerValueString -> Str;
  val_bool : Var -> bool;
}.

Definition valuation_ok (v : Valuation) : Prop := forall k, wf (val_version v k) = true.

(** ** The meaning of nodes *)

Section store.
Context {RV RS : Type} `{!RangeSet Version RV} `{!RangeSetLaws Version RV}.
Context `{!RangeSet Str RS} `{!RangeSetLaws Str RS}.

Abbreviation Edges := (EdgesOf RV RS).
Abbreviation Node := (NodeOf RV RS).
Abbreviation Interner := (InternerOf RV RS).
Implicit Types (v : Valuation) (s : Interner) (n : Node) (id c : NodeId).

(** The child the valuation selects. *)
Definition choose v (var : Var) (e : Edges) : option NodeId :=
  match e, var with
  | EdgesVersion edges, VVersion k => child_at (val_version v k) edges
  | EdgesString edges, VString k => child_at (val_string v k) edges
  | EdgesBoolean high low, _ => Some (if val_bool v var then high else low)
  | _, _ => None
  end.

Definition id_value (tbl : list bool) (id : NodeId) : bool := xorb (is_complement id) (id_entry true tbl id).

Definition node_value v (tbl : list bool) n : bool :=
  match choose v (node_var n) (children n) with Some c => id_value tbl c | None => false end.

Definition den v s id : bool := id_value (table (node_value v) (nodes s)) id.

(** The decision variables below an identifier. *)
Definition node_support (tbl : list (list Var)) n : list Var :=
  node_var n :: flat_map (id_entry [] tbl) (edge_nodes (children n)).

Definition support s id : list Var := id_entry [] (table node_support (nodes s)) id.

Definition valid_id s id : Prop := 0 <= id /\ node_index id < Z.of_nat (length (nodes s)).

Definition ext s s' : Prop := nodes s `prefix_of` nodes s'.

#[export] Instance ext_preorder : PreOrder ext.
Proof. unfold ext. split; [intros s; done|]. intros s1 s2 s3. apply transitivity. Qed.

(** Edges fit their variable, and range maps tile the line. *)
Definition edges_ok (var : Var) (e : Edges) : Prop :=
  match e, var with
  | EdgesVersion edges, VVersion _ => tiles NegInf edges PosInf
  | EdgesString edges, VString _ => tiles NegInf edges PosInf
  | EdgesBoolean _ _, (VIn _ _ | VContains _ _ | VExtra _ | VList _) => True
  | _, _ => False
  end.

Definition var_lt (x y : Var) : Prop := variable_cmp x y = Lt.

(** A node whose children are among the first [k] nodes and decide on larger
    variables. *)
Record node_ok s (k : nat) n : Prop := {
  node_children : forall c, c ∈ edge_nodes (children n) -> 0 <= c /\ node_index c < Z.of_nat k;
  node_edges : edges_ok (node_var n) (children n);
  node_ordered : forall c w, c ∈ edge_nodes (children n) -> w ∈ support s c -> var_lt (node_var n) w;
  node_reduced : match edge_nodes (children n) with
    | [] => False
    | first :: rest => is_complement first = false /\ exists c, c ∈ rest /\ c <> first
    end;
}.

Record store_ok s : Prop := {
  store_nodes : forall k n, nodes s !! k = Some n -> node_ok s k n;
  store_unique : forall n id, (n, id) ∈ unique s <->
    exists k, id = node_id_new (Z.of_nat k) false /\ nodes s !! k = Some n;
  store_distinct : forall j k n m, nodes s !! j = Some n -> nodes s !! k = Some m -> node_eqb n m = true -> j = k;
}.

Lemma den_not v s id : den v s (node_not id) = negb (den v s id).
Proof. unfold den, id_value. rewrite id_entry_not, is_complement_not. by destruct (is_complement id), (id_entry _ _ _). Qed.

Lemma den_negate v s id p : den v s (node_negate id p) = xorb (is_complement p) (den v s id).
Proof. unfold node_negate. destruct (is_complement p); [apply den_not|by destruct (den v s id)]. Qed.

Lemma den_true v s : den v s node_true = true.
Proof. done. Qed.
Lemma den_false v s : den v s node_false = false.
Proof. done. Qed.

Lemma support_not s id : support s (node_not id) = support s id.
Proof. apply id_entry_not. Qed.

Lemma support_negate s id p : support s (node_negate id p) = support s id.
Proof. unfold node_negate. destruct (is_complement p); [apply support_not|done]. Qed.

Lemma valid_not s id : valid_id s (node_not id) <-> valid_id s id.
Proof. unfold valid_id. by rewrite node_not_nonneg, node_index_not. Qed.

Lemma valid_negate s id p : valid_id s (node_negate id p) <-> valid_id s id.
Proof. unfold node_negate. destruct (is_complement p); [apply valid_not|done]. Qed.

Lemma valid_terminal s : valid_id s node_true /\ valid_id s node_false.
Proof.
  unfold valid_id. change (node_index node_true) with (-1). change (node_index node_false) with (-1).
  unfold node_true, node_false. lia.
Qed.

Lemma valid_ext s s' id : ext s s' -> valid_id s id -> valid_id s' id.
Proof. intros [l E] [H1 H2]. split; [done|]. rewrite E, length_app. lia. Qed.

Lemma entry_ext {A} (step : list A -> Node -> A) d s s' id : ext s s' -> valid_id s id ->
  id_entry d (table step (nodes s')) id = id_entry d (table step (nodes s)) id.
Proof.
  intros [l E] [_ H]. rewrite E. destruct (table_app step (nodes s) l) as [m ->]. apply id_entry_app. by rewrite table_length.
Qed.

Lemma den_ext v s s' id : ext s s' -> valid_id s id -> den v s' id = den v s id.
Proof. intros He Hv. unfold den, id_value. f_equal. by apply entry_ext. Qed.

Lemma support_ext s s' id : ext s s' -> valid_id s id -> support s' id = support s id.
Proof. apply entry_ext. Qed.

(** The entry of a valid non-terminal is computed from the nodes before it. *)
Lemma entry_node {A} (step : list A -> Node -> A) d s id : valid_id s id -> 0 <= node_index id ->
  exists n, nodes s !! Z.to_nat (node_index id) = Some n /\
    id_entry d (table step (nodes s)) id = step (table step (take (Z.to_nat (node_index id)) (nodes s))) n.
Proof.
  intros [_ Hlt] H0. destruct (lookup_lt_is_Some_2 (nodes s) (Z.to_nat (node_index id))) as [n En]; [lia|].
  exists n. split; [done|]. unfold id_entry. destruct (Z.ltb_spec (node_index id) 0); [lia|].
  apply nth_lookup_Some. by apply table_lookup.
Qed.

Lemma entry_earlier {A} (step : list A -> Node -> A) d s k c : node_index c < Z.of_nat k -> (k <= length (nodes s))%nat ->
  id_entry d (table step (take k (nodes s))) c = id_entry d (table step (nodes s)) c.
Proof.
  intros Hc Hk. destruct (table_take step (nodes s) k) as [m ->]. symmetry. apply id_entry_app.
  rewrite table_length, length_take. lia.
Qed.

Lemma tiles_choose {T R} `{RangeSetLaws T R} `{!KeyedLaws T} (edges : list (R * NodeId)) x :
  tiles NegInf edges PosInf -> valid x = true -> exists c, child_at x edges = Some c /\ c ∈ map snd edges.
Proof.
  intros Ht Hx. rewrite (child_at_tile NegInf edges PosInf) by done.
  destruct (tile_at_some NegInf edges PosInf (at_value x)) as (r & c & a & b & Hin & _ & _ & _ & E); [done|apply neg_inf_least|done|].
  exists c. split; [done|]. apply elem_of_map. by exists (r, c).
Qed.

Lemma choose_some v var e : valuation_ok v -> edges_ok var e -> exists c, choose v var e = Some c /\ c ∈ edge_nodes e.
Proof.
  intros Hv He. destruct e as [edges|edges|h l]; cbn.
  - destruct var as [|k| | | |]; try done. apply tiles_choose; [done|apply Hv].
  - destruct var as [k| | | | |]; try done. by apply tiles_choose.
  - eexists. split; [done|]. destruct (val_bool v var); [by left|right; by left].
Qed.

(** ** Reading a node *)

Lemma non_terminal id : 0 <= id -> id <> node_true -> id <> node_false -> 0 <= node_index id.
Proof. intros H H1 H2. destruct (node_id_cases id H) as [?|[?|[? _]]]; done. Qed.

Lemma shared_node_ret s id : valid_id s id -> 0 <= node_index id ->
  exists n, shared_node s id = Ret n /\ nodes s !! Z.to_nat (node_index id) = Some n.
Proof.
  intros [_ Hv] H0. destruct (lookup_lt_is_Some_2 (nodes s) (Z.to_nat (node_index id))) as [n En]; [lia|].
  exists n. split; [|done]. unfold shared_node. destruct (Z.ltb_spec (node_index id) 0); [lia|]. by rewrite En.
Qed.

Lemma child_valid s k n c : store_ok s -> nodes s !! k = Some n -> c ∈ edge_nodes (children n) -> valid_id s c.
Proof.
  intros Hs En Hc. destruct (node_children _ _ _ (store_nodes s Hs _ _ En) c Hc). pose proof (lookup_lt_Some _ _ _ En).
  split; [done|lia].
Qed.

Lemma den_at v s id n : store_ok s -> valid_id s id -> 0 <= node_index id ->
  nodes s !! Z.to_nat (node_index id) = Some n -> valuation_ok v ->
  exists c, choose v (node_var n) (children n) = Some c /\ c ∈ edge_nodes (children n) /\
    den v s id = den v s (node_negate c id).
Proof.
  intros Hs Hid H0 En Hv. pose proof (store_nodes s Hs _ _ En) as Hn.
  destruct (choose_some v _ _ Hv (node_edges _ _ _ Hn)) as (c & Ec & Hc). exists c. split; [done|]. split; [done|].
  rewrite den_negate. unfold den at 1, id_value.
  destruct (entry_node (node_value v) true s id Hid H0) as (n' & En' & ->). rewrite En in En'. injection En' as <-.
  f_equal. unfold node_value. rewrite Ec. unfold den, id_value. f_equal. apply entry_earlier.
  - by apply (node_children _ _ _ Hn).
  - apply lookup_lt_Some in En. lia.
Qed.

Lemma support_at s id n : store_ok s -> valid_id s id -> 0 <= node_index id ->
  nodes s !! Z.to_nat (node_index id) = Some n ->
  forall w, w ∈ support s id <-> w = node_var n \/ exists c, c ∈ edge_nodes (children n) /\ w ∈ support s c.
Proof.
  intros Hs Hid H0 En w. pose proof (store_nodes s Hs _ _ En) as Hn. unfold support at 1.
  destruct (entry_node node_support [] s id Hid H0) as (n' & En' & ->). rewrite En in En'. injection En' as <-.
  unfold node_support. rewrite elem_of_cons, elem_of_flat_map. apply or_iff_compat_l.
  split; intros (c & Hc & Hw); exists c; (split; [done|]); unfold support in *;
    [rewrite <- (entry_earlier node_support [] s (Z.to_nat (node_index id)))|
     rewrite (entry_earlier node_support [] s (Z.to_nat (node_index id)))]; try done;
    try (by apply (node_children _ _ _ Hn)); apply lookup_lt_Some in En; lia.
Qed.

Lemma support_terminal s : support s node_true = [] /\ support s node_false = [].
Proof. done. Qed.

(** ** Equality of nodes *)

Section edge_lists.
Context {T R : Type} `{RangeSetLaws T R} `{!KeyedLaws T}.
Implicit Types (l k : list (R * NodeId)).

Lemma tiles_ok low l high : tiles low l high -> forall r c, (r, c) ∈ l -> rs_ok r.
Proof.
  revert low. induction l as [|[r' c'] l IH]; intros low Ht r c Hin; [by apply elem_of_nil in Hin|].
  destruct Ht as (b & Hr & Ht). apply elem_of_cons in Hin as [[= -> ->]|Hin]; [apply Hr|by eapply IH].
Qed.

Lemma tiles_snd low l high (f : NodeId -> NodeId) : tiles low l high -> tiles low (map (fun x => (fst x, f (snd x))) l) high.
Proof. revert low. induction l as [|[r c] l IH]; intros low; [done|]. cbn. intros (b & ? & ?). exists b. auto. Qed.

Lemma child_at_snd x l (f : NodeId -> NodeId) : child_at x (map (fun e => (fst e, f (snd e))) l) = option_map f (child_at x l).
Proof. unfold child_at. induction l as [|[r c] l IH]; [done|]. cbn. by destruct (rs_contains r x). Qed.

Lemma map_snd_snd l (f : NodeId -> NodeId) : map snd (map (fun e => (fst e, f (snd e))) l) = map f (map snd l).
Proof. by rewrite !map_map. Qed.

Lemma edge_lists_equal l k : (forall r c, (r, c) ∈ l -> rs_ok r) -> (forall r c, (r, c) ∈ k -> rs_ok r) ->
  list_eqb (edge_eqb rs_eqb) l k = true ->
  map snd l = map snd k /\ list_eqb (edge_eqb rs_eqb) k l = true /\
  forall x, valid x = true -> child_at x l = child_at x k.
Proof.
  revert k. induction l as [|[r c] l IH]; intros [|[r' c'] k] Hl Hk; cbn; try done.
  intros [[Er Ec]%andb_true_iff El]%andb_true_iff. apply Z.eqb_eq in Ec. cbn in Er, Ec. subst c'.
  assert (rs_ok r /\ rs_ok r') as [Or Or'] by (split; [eapply Hl|eapply Hk]; by left).
  destruct (IH k) as (IH1 & IH2 & IH3); [intros; eapply Hl; by right|intros; eapply Hk; by right|done|].
  pose proof (proj1 (rs_eqb_law r r' Or Or') Er) as Cr. split; [by f_equal|]. split.
  - rewrite IH2, andb_true_r. unfold edge_eqb. cbn. rewrite Z.eqb_refl, andb_true_r. by apply rs_eqb_law.
  - intros x Hx. unfold child_at. cbn. rewrite !rs_contains_law, Cr by done. destruct (cut_mem _ _); [done|]. by apply IH3.
Qed.

Lemma edge_list_refl l : (forall r c, (r, c) ∈ l -> rs_ok r) -> list_eqb (edge_eqb rs_eqb) l l = true.
Proof.
  induction l as [|[r c] l IH]; intros Hl; [done|]. cbn. rewrite IH by (intros; eapply Hl; by right).
  rewrite andb_true_r. unfold edge_eqb. cbn. rewrite Z.eqb_refl, andb_true_r. apply rs_eqb_law; [eapply Hl; by left..|done].
Qed.
End edge_lists.

Lemma node_eqb_equal n m : edges_ok (node_var n) (children n) -> edges_ok (node_var m) (children m) ->
  node_eqb n m = true ->
  node_var n = node_var m /\ edge_nodes (children n) = edge_nodes (children m) /\ node_eqb m n = true /\
  forall v, valuation_ok v -> choose v (node_var n) (children n) = choose v (node_var m) (children m).
Proof.
  unfold node_eqb. destruct n as [vn en], m as [vm em]. cbn [node_var children]. intros Hn Hm [Ev Ee]%andb_true_iff.
  assert (vn = vm) as -> by (apply (ord_eq variable_cmp); by destruct (variable_cmp vn vm)).
  split; [done|]. rewrite (ord_refl variable_cmp).
  destruct en as [l|l|h l], em as [k|k|h' l']; try done; cbn in Ee, Hn, Hm |- *.
  - destruct vm as [|key| | | |]; try done. destruct (edge_lists_equal l k) as (E1 & E2 & E3); [by eapply tiles_ok..|done|].
    repeat split; [done..|]. intros v Hv. apply E3, Hv.
  - destruct vm as [key| | | | |]; try done. destruct (edge_lists_equal l k) as (E1 & E2 & E3); [by eapply tiles_ok..|done|].
    repeat split; [done..|]. intros v Hv. by apply E3.
  - apply andb_true_iff in Ee as [->%Z.eqb_eq ->%Z.eqb_eq]. by rewrite !Z.eqb_refl.
Qed.

Lemma node_eqb_refl n : edges_ok (node_var n) (children n) -> node_eqb n n = true.
Proof.
  unfold node_eqb. rewrite (ord_refl variable_cmp). destruct n as [var [l|l|h l]]; cbn; intros Hn.
  - destruct var; try done. apply edge_list_refl. by eapply tiles_ok.
  - destruct var; try done. apply edge_list_refl. by eapply tiles_ok.
  - by rewrite !Z.eqb_refl.
Qed.

Lemma edges_not_spec var e : edge_nodes (edges_not e) = map node_not (edge_nodes e) /\
  (edges_ok var e -> edges_ok var (edges_not e)) /\
  forall v, choose v var (edges_not e) = option_map node_not (choose v var e).
Proof.
  destruct e as [l|l|h l]; cbn.
  - rewrite map_snd_snd. split; [done|]. split; [destruct var; try done; apply tiles_snd|].
    intros v. destruct var; try done. apply child_at_snd.
  - rewrite map_snd_snd. split; [done|]. split; [destruct var; try done; apply tiles_snd|].
    intros v. destruct var; try done. apply child_at_snd.
  - split; [done|]. split; [done|]. intros v. by destruct (val_bool v var).
Qed.

(** ** Interning *)

Lemma node_ok_ext s s' k n : ext s s' -> (k <= length (nodes s))%nat -> node_ok s k n -> node_ok s' k n.
Proof.
  intros He Hk [H1 H2 H3 H4]. split; [done|done| |done]. intros c w Hc Hw. apply (H3 c w Hc).
  rewrite (support_ext s s') in Hw; [done|done|]. destruct (H1 c Hc). split; [done|lia].
Qed.

Lemma unique_get_some (l : list (Node * NodeId)) n id : unique_get l n = Some id ->
  exists m, (m, id) ∈ l /\ node_eqb m n = true.
Proof.
  induction l as [|[m i] l IH]; [done|]. cbn. destruct (node_eqb m n) eqn:E.
  - intros [= <-]. exists m. split; [by left|done].
  - intros (m' & Hm & ?)%IH. exists m'. split; [by right|done].
Qed.

Lemma unique_get_none (l : list (Node * NodeId)) n : unique_get l n = None ->
  forall m id, (m, id) ∈ l -> node_eqb m n = false.
Proof.
  induction l as [|[m i] l IH]; intros E m' id Hin; [by apply elem_of_nil in Hin|]. cbn in E.
  destruct (node_eqb m n) eqn:Em; [done|]. apply elem_of_cons in Hin as [[= -> ->]|Hin]; [done|by eapply IH].
Qed.

(** The state after adding a node. *)
Definition add_node s n : Interner :=
  mkInterner (nodes s ++ [n]) (unique s ++ [(n, node_id_new (Z.of_nat (length (nodes s))) false)]) (cache s) (exclusions s).

Lemma add_node_ok s n : store_ok s -> node_ok s (length (nodes s)) n -> unique_get (unique s) n = None ->
  store_ok (add_node s n).
Proof.
  intros Hs Hn Eu. assert (He : ext s (add_node s n)) by (by exists [n]).
  assert (Hl : forall k m, nodes (add_node s n) !! k = Some m ->
    nodes s !! k = Some m \/ (k = length (nodes s) /\ m = n)).
  { intros k m. cbn. intros [E|[Hk E]]%lookup_app_Some; [by left|right].
    apply list_lookup_singleton_Some in E as [E <-]. split; [lia|done]. }
  assert (fresh : forall j m, nodes s !! j = Some m -> node_eqb m n = false).
  { intros j m Ej. eapply unique_get_none; [exact Eu|]. apply (store_unique s Hs). by exists j. }
  split.
  - intros k m [E|[-> ->]]%Hl.
    + apply (node_ok_ext s); [done| |by apply store_nodes]. apply lookup_lt_Some in E. lia.
    + by apply (node_ok_ext s).
  - intros m id. cbn. rewrite elem_of_app, (store_unique s Hs), list_elem_of_singleton. split.
    + intros [(k & -> & E)|[= -> ->]].
      * exists k. split; [done|]. by apply lookup_app_l_Some.
      * exists (length (nodes s)). split; [done|]. by apply list_lookup_middle.
    + intros (k & -> & E). destruct (Hl k m E) as [E'|[-> ->]]; [left; by exists k|by right].
  - intros j k a b [Ej|[-> ->]]%Hl [Ek|[-> ->]]%Hl Eq.
    + by eapply (store_distinct s Hs).
    + by rewrite (fresh j a Ej) in Eq.
    + destruct (node_eqb_equal n b) as (_ & _ & Eq' & _); [apply Hn|apply (store_nodes s Hs _ _ Ek)|done|].
      by rewrite (fresh k b Ek) in Eq'.
    + done.
Qed.

(** The invariant of the store reads the nodes and the unique table only. *)
Lemma store_ok_same s s' : nodes s' = nodes s -> unique s' = unique s -> store_ok s -> store_ok s'.
Proof.
  intros En Eu [H1 H2 H3]. split; rewrite ?En, ?Eu; [|done|done]. intros k n Hk. destruct (H1 k n Hk) as [A B C D].
  split; [done|done| |done]. intros c w Hc. unfold support. rewrite En. by apply C.
Qed.

(** An operation that only adds nodes. *)
Definition grows s s' : Prop := store_ok s' /\ ext s s' /\ cache s' = cache s /\ exclusions s' = exclusions s.

Lemma intern_spec s n : store_ok s -> node_ok s (length (nodes s)) n ->
  exists k m s', intern n s = Ret (node_id_new (Z.of_nat k) false, s') /\ grows s s' /\
    nodes s' !! k = Some m /\ node_eqb m n = true.
Proof.
  intros Hs Hn. unfold intern. destruct (unique_get (unique s) n) as [id|] eqn:E.
  - apply unique_get_some in E as (m & Hm & Eq). apply (store_unique s Hs) in Hm as (k & -> & Ek).
    by exists k, m, s.
  - exists (length (nodes s)), n, (add_node s n). split; [done|]. split.
    + split; [by apply add_node_ok|]. split; [by exists [n]|done].
    + split; [by apply list_lookup_middle|apply node_eqb_refl, Hn].
Qed.

(** The meaning of an interned node. *)
Definition means s (var : Var) (e : Edges) id : Prop :=
  valid_id s id /\
  (forall w, w ∈ support s id -> w = var \/ exists c, c ∈ edge_nodes e /\ w ∈ support s c) /\
  forall v, valuation_ok v -> exists c, choose v var e = Some c /\ c ∈ edge_nodes e /\ den v s id = den v s c.

Definition edges_below s (var : Var) (e : Edges) : Prop :=
  edges_ok var e /\ (forall c, c ∈ edge_nodes e -> valid_id s c) /\
  forall c w, c ∈ edge_nodes e -> w ∈ support s c -> var_lt var w.

Lemma means_node s k m n : store_ok s -> nodes s !! k = Some m -> edges_ok (node_var n) (children n) ->
  node_eqb m n = true -> means s (node_var n) (children n) (node_id_new (Z.of_nat k) false).
Proof.
  intros Hs Ek Hn Eq. pose proof (store_nodes s Hs _ _ Ek) as Hm.
  destruct (node_eqb_equal m n) as (Ev & Ec & _ & Ech); [apply Hm|done|done|].
  assert (Hv : valid_id s (node_id_new (Z.of_nat k) false)).
  { split; [rewrite node_id_new_eq; lia|]. rewrite node_index_new. apply lookup_lt_Some in Ek. lia. }
  assert (Hi : 0 <= node_index (node_id_new (Z.of_nat k) false)) by (rewrite node_index_new; lia).
  assert (Ek' : nodes s !! Z.to_nat (node_index (node_id_new (Z.of_nat k) false)) = Some m) by (by rewrite node_index_new, Nat2Z.id).
  split; [done|]. split.
  - intros w Hw. rewrite (support_at s _ m Hs Hv Hi Ek'), Ev, Ec in Hw. done.
  - intros v Hval. destruct (den_at v s _ m Hs Hv Hi Ek' Hval) as (c & E1 & E2 & E3). exists c.
    rewrite <- Ech, <- Ec by done. split; [done|]. split; [done|]. rewrite E3, den_negate, is_complement_new. by destruct (den v s c).
Qed.

Lemma means_flip s var e id : means s var (edges_not e) id -> means s var e (node_not id).
Proof.
  intros (H1 & H2 & H3). destruct (edges_not_spec var e) as (En & _ & Ech). rewrite En in *. split; [by apply valid_not|]. split.
  - intros w. rewrite support_not. intros [->|(c & (c' & -> & Hc)%elem_of_map & Hw)]%H2; [by left|right].
    rewrite support_not in Hw. eauto.
  - intros v Hv. destruct (H3 v Hv) as (c & E & _ & D). rewrite Ech in E. destruct (choose v var e) as [c'|] eqn:Ec; [|done].
    injection E as <-. exists c'. split; [done|]. rewrite den_not, D, den_not, negb_involutive. split; [|done].
    destruct (H3 v Hv) as (c & E & (c'' & -> & Hc)%elem_of_map & _). rewrite Ech, Ec in E. injection E as E.
    apply (f_equal node_not) in E. rewrite !node_not_not in E. by subst.
Qed.

Lemma forallb_first (first : Z) l : forallb (Z.eqb first) l = true <-> forall c, c ∈ l -> c = first.
Proof. rewrite forallb_true_iff. setoid_rewrite Z.eqb_eq. naive_solver. Qed.

(** Creating a node whose first child is not complemented. *)
Lemma create_plain s var e first rest : store_ok s -> edges_below s var e -> edge_nodes e = first :: rest ->
  is_complement first = false ->
  exists id s', (if forallb (Z.eqb first) (edge_nodes e) then mpure first else intern (mkNode var e)) s = Ret (id, s') /\
    grows s s' /\ means s' var e id.
Proof.
  intros Hs (He & Hc & Ho) En Ef. destruct (forallb _ _) eqn:Ea.
  - rewrite forallb_first in Ea. exists first, s. split; [done|]. split; [done|].
    assert (Hf : first ∈ edge_nodes e) by (rewrite En; by left). split; [by apply Hc|]. split; [intros w Hw; right; eauto|].
    intros v Hv. destruct (choose_some v var e Hv He) as (c & E & Hin). exists c. split; [done|]. split; [done|].
    by rewrite (Ea c Hin).
  - assert (Hn : node_ok s (length (nodes s)) (mkNode var e)).
    { split; cbn [node_var children]; [intros c Hin; by apply Hc|done|done|]. rewrite En. split; [done|].
      rewrite En in Ea. cbn in Ea. rewrite Z.eqb_refl in Ea. cbn in Ea.
      destruct (decide (Forall (fun c => c = first) rest)) as [Hall|Hall].
      - exfalso. apply not_true_iff_false in Ea. apply Ea, forallb_first. by apply Forall_forall.
      - apply not_Forall_Exists in Hall; [|intros c; apply Z.eq_dec]. apply Exists_exists in Hall as (c & ? & ?). eauto. }
    destruct (intern_spec s _ Hs Hn) as (k & m & s' & E & Hg & Ek & Eq). exists (node_id_new (Z.of_nat k) false), s'.
    split; [done|]. split; [done|]. apply (means_node s' k m (mkNode var e)); [apply Hg|done|done|done].
Qed.

Lemma create_node_spec s var e : store_ok s -> edges_below s var e -> edge_nodes e <> [] ->
  exists id s', create_node var e s = Ret (id, s') /\ grows s s' /\ means s' var e id.
Proof.
  intros Hs Hb Hne. unfold create_node. destruct (edge_nodes e) as [|first rest] eqn:En; [done|].
  destruct (is_complement first) eqn:Ef.
  - change (node_flip (mkNode var e)) with (mkNode var (edges_not e)). cbn [children].
    destruct (edges_not_spec var e) as (Enn & Hok & _). destruct Hb as (He & Hc & Ho).
    destruct (create_plain s var (edges_not e) (node_not first) (map node_not rest)) as (id & s' & E & Hg & Hm).
    + done.
    + split; [by apply Hok|]. rewrite Enn. split.
      * intros c (c' & -> & Hc')%elem_of_map. by apply valid_not, Hc.
      * intros c w (c' & -> & Hc')%elem_of_map. rewrite support_not. by apply Ho.
    + by rewrite Enn, En.
    + by rewrite is_complement_not, Ef.
    + exists (node_not id), s'. apply means_flip in Hm. split; [|done].
      destruct (forallb _ _); [injection E as <- <-; by unfold mpure|]. unfold mseq. rewrite E. done.
  - cbn [children]. destruct (create_plain s var e first rest Hs Hb En Ef) as (id & s' & E & Hg & Hm). exists id, s'. split; [|done].
    destruct (forallb _ _); [done|]. unfold mseq. by rewrite E.
Qed.
End store.
