(* ===== verification/MarkerOps.v ===== *)
(** * Operations of the marker algebra

    Conjunction, disjunction and disjointness of [MarkerAlgebra.v] against the
    meaning of nodes: they return (the fuel is enough, no index is out of bounds,
    no edges of different kinds meet), keep the interner's invariant with its
    memoised results, and compute what they should.

    [and] also maps markers that only hold in impossible environments to [false]:
    its equation is stated for valuations that avoid the known-incompatible pairs
    ([consistent]). *)

From Stdlib Require Import ZArith Lia String.
From stdpp Require Import base list gmap.
From S2P Require Import Prelude.
From S2P Require Import VersionRepr.
From S2P Require Import VersionOrder.
From S2P Require Import RangeSet.
From S2P Require Import Stateful.
From S2P Require Import MarkerEdges.
From S2P Require Import MarkerTypes.
From S2P Require Import RangeInstances.
From S2P Require Import MarkerAlgebra.
From S2P Require Import MarkerStore.
Open Scope Z_scope.

Section ops.
Context {RV RS : Type} `{!RangeSet Version RV} `{!RangeSetLaws Version RV}.
Context `{!RangeSet Str RS} `{!RangeSetLaws Str RS}.

Abbreviation Edges := (EdgesOf RV RS).
Abbreviation Node := (NodeOf RV RS).
Abbreviation Interner := (InternerOf RV RS).
Implicit Types (v : Valuation) (s : Interner) (n : Node) (id c r : NodeId).

(** ** Traversals *)

Section traversals.
Context {S : Type} (Inv : S -> Prop) (extS : S -> S -> Prop) `{!PreOrder extS}.

Lemma choose_tiles_pairs {T R} `{RangeSetLaws T R} `{!KeyedLaws T} (l k : list (R * NodeId)) (P : NodeId -> NodeId -> Prop) val :
  Forall2 (fun e e' => fst e' = fst e /\ P (snd e) (snd e')) l k -> forall r, child_at val k = Some r ->
  exists c, child_at val l = Some c /\ P c r.
Proof.
  unfold child_at. induction 1 as [|[a c] [b r'] l k [E HP] Hl IH]; intros r; [done|]. cbn in E, HP |- *. subst b.
  destruct (rs_contains a val); [|apply IH]. cbn. intros [= <-]. eauto.
Qed.

Lemma tiles_same {T R} `{RangeSetLaws T R} `{!KeyedLaws T} (l k : list (R * NodeId)) (P : NodeId -> NodeId -> Prop) low high :
  Forall2 (fun e e' => fst e' = fst e /\ P (snd e) (snd e')) l k -> tiles low l high -> tiles low k high.
Proof.
  intros Hl. revert low. induction Hl as [|[a c] [b r'] l k [E HP] Hl IH]; intros low; [done|]. cbn in E. subst b. cbn.
  intros (b & ? & ?). exists b. auto.
Qed.

Lemma pairs_elem {R} (l k : list (R * NodeId)) (P : NodeId -> NodeId -> Prop) r :
  Forall2 (fun e e' => fst e' = fst e /\ P (snd e) (snd e')) l k -> r ∈ map snd k -> exists c, c ∈ map snd l /\ P c r.
Proof.
  induction 1 as [|[a c] [b r'] l k [E HP] Hl IH]; cbn; [by intros ?%elem_of_nil|].
  intros [->|(c' & ? & ?)%IH]%elem_of_cons; [exists c; split; [by left|done]|exists c'; split; [by right|done]].
Qed.

Lemma tiles_nonempty {T R} `{RangeSetLaws T R} `{!KeyedLaws T} (l : list (R * NodeId)) : tiles NegInf l PosInf -> map snd l <> [].
Proof. by destruct l. Qed.

Lemma ranges_map_runs {R} (l : list (R * NodeId)) parent (f : NodeId -> M S NodeId) st (Q : S -> NodeId -> NodeId -> Prop) :
  (forall st st' c r, extS st st' -> Q st c r -> Q st' c r) -> Inv st ->
  (forall c st', c ∈ map snd l -> Inv st' -> extS st st' ->
    runs Inv extS (f (node_negate c parent)) st' (fun r st'' => Q st'' (node_negate c parent) r)) ->
  runs Inv extS (map_m (fun x => let* n := f (node_negate (snd x) parent) in mpure (fst x, n)) l) st
    (fun k st' => Forall2 (fun e e' => fst e' = fst e /\ Q st' (node_negate (snd e) parent) (snd e')) l k).
Proof.
  intros Hmono Hs Hf.
  apply (runs_map Inv extS _ _ _ (fun st' e e' => fst e' = fst e /\ Q st' (node_negate (snd e) parent) (snd e'))); [|done|].
  - intros st1 st2 e e' He [? ?]. split; [done|]. by eapply Hmono.
  - intros [a c] st' Hin Hs' He. cbn [fst snd]. run_seq; [apply Hf; [apply elem_of_map; by exists (a, c)|done|done]|].
    intros r st'' Hs'' He' HQ. by run_pure.
Qed.

(** Mapping the children of a node. *)
Lemma edges_map_runs (e : Edges) var parent (f : NodeId -> M S NodeId) st (Q : S -> NodeId -> NodeId -> Prop) :
  (forall st st' c r, extS st st' -> Q st c r -> Q st' c r) -> Inv st -> edges_ok var e ->
  (forall c st', c ∈ edge_nodes e -> Inv st' -> extS st st' ->
    runs Inv extS (f (node_negate c parent)) st' (fun r st'' => Q st'' (node_negate c parent) r)) ->
  runs Inv extS (edges_map e parent f) st (fun e' st' =>
    edges_ok var e' /\ edge_nodes e' <> [] /\
    (forall r, r ∈ edge_nodes e' -> exists c, c ∈ edge_nodes e /\ Q st' (node_negate c parent) r) /\
    forall v r, valuation_ok v -> choose v var e' = Some r ->
      exists c, choose v var e = Some c /\ Q st' (node_negate c parent) r).
Proof.
  intros Hmono Hs He Hf. destruct e as [l|l|h l]; cbn [edges_map edge_nodes] in *.
  - run_seq; [by apply (ranges_map_runs l parent f st Q)|]. intros k st' Hs' He' Hk. run_pure; [done|].
    destruct var as [|key| | | |]; try done. cbn. cbn in He.
    pose proof (tiles_same l k (fun c r => Q st' (node_negate c parent) r) _ _ Hk He) as Hk'.
    split; [done|]. split; [by apply tiles_nonempty|]. split.
    + intros r Hr. by apply (pairs_elem l k (fun c r => Q st' (node_negate c parent) r)).
    + intros v r _ Hr. by apply (choose_tiles_pairs l k (fun c r => Q st' (node_negate c parent) r)).
  - run_seq; [by apply (ranges_map_runs l parent f st Q)|]. intros k st' Hs' He' Hk. run_pure; [done|].
    destruct var as [key| | | | |]; try done. cbn. cbn in He.
    pose proof (tiles_same l k (fun c r => Q st' (node_negate c parent) r) _ _ Hk He) as Hk'.
    split; [done|]. split; [by apply tiles_nonempty|]. split.
    + intros r Hr. by apply (pairs_elem l k (fun c r => Q st' (node_negate c parent) r)).
    + intros v r _ Hr. by apply (choose_tiles_pairs l k (fun c r => Q st' (node_negate c parent) r)).
  - run_seq; [apply Hf; [right; by left|done|done]|]. intros l' st1 H1 E1 Q1. cbn in Q1.
    run_seq; [apply Hf; [by left|done|done]|]. intros h' st2 H2 E2 Q2. cbn in Q2. run_pure; [done|].
    assert (Q1' : Q st2 (node_negate l parent) l') by (by eapply Hmono). split; [by destruct var|]. split; [done|]. split.
    + intros r. cbn. rewrite !elem_of_cons, elem_of_nil. intros [->|[->|[]]]; eexists; (split; [|done]); [by left|right; by left].
    + intros v r _. cbn. destruct (val_bool v var); intros [= <-]; eauto.
Qed.

Lemma ranges_apply_runs {T R} `{RangeSetLaws T R} `{!KeyedLaws T} (l k : list (R * NodeId)) parent parent'
    (f : NodeId -> NodeId -> M S NodeId) st (Q : S -> NodeId -> NodeId -> NodeId -> Prop) :
  (forall st st' a b r, extS st st' -> Q st a b r -> Q st' a b r) -> Inv st ->
  tiles NegInf l PosInf -> tiles NegInf k PosInf ->
  (forall a b st', a ∈ map snd l -> b ∈ map snd k -> Inv st' -> extS st st' ->
    runs Inv extS (f (node_negate a parent) (node_negate b parent')) st'
      (fun r st'' => Q st'' (node_negate a parent) (node_negate b parent') r)) ->
  runs Inv extS (apply_ranges l parent k parent' f) st (fun m st' =>
    tiles NegInf m PosInf /\
    (forall r, r ∈ map snd m -> exists a b, a ∈ map snd l /\ b ∈ map snd k /\
      Q st' (node_negate a parent) (node_negate b parent') r) /\
    forall x r, valid x = true -> child_at x m = Some r -> exists a b,
      child_at x l = Some a /\ child_at x k = Some b /\ Q st' (node_negate a parent) (node_negate b parent') r).
Proof.
  intros Hmono Hs Hl Hk Hf.
  assert (elems : forall p (j : list (R * NodeId)) c, tile_at p j = Some c -> c ∈ map snd j).
  { intros p j c. unfold tile_at. destruct (find _ j) as [[rg c']|] eqn:E; [|done]. intros [= <-].
    apply find_some in E as [E _]. apply elem_of_map. exists (rg, c'). split; [done|by apply list_elem_of_In]. }
  run_weaken; [apply (apply_ranges_runs Inv extS l k parent parent' f Q) with (base := st); try done|].
  - intros st' lr a rr b Hs' He' Ha Hb. apply Hf; [| |done|done]; apply elem_of_map; [by exists (lr, a)|by exists (rr, b)].
  - intros m st' Hs' He' [Hm Hc]. split; [done|]. split.
    + intros r (e & -> & He)%elem_of_map. destruct e as [rg r]. destruct (tiles_elem _ _ _ _ _ Hm He) as (p & _ & Hp & Er).
      destruct (Hc p Hp) as (a & b & r' & Ea & Eb & Er' & HQ). rewrite Er in Er'. injection Er' as <-.
      exists a, b. split; [by eapply elems|]. split; [by eapply elems|done].
    + intros x r Hx. rewrite !(child_at_tile NegInf _ PosInf) by done. intros Er.
      destruct (Hc (at_value x)) as (a & b & r' & Ea & Eb & Er' & HQ); [done|]. rewrite Er in Er'. injection Er' as <-. eauto.
Qed.

(** Combining the children of two nodes. *)
Lemma edges_apply_runs (e e' : Edges) var parent parent' (f : NodeId -> NodeId -> M S NodeId) st
    (Q : S -> NodeId -> NodeId -> NodeId -> Prop) :
  (forall st st' a b r, extS st st' -> Q st a b r -> Q st' a b r) -> Inv st -> edges_ok var e -> edges_ok var e' ->
  (forall a b st', a ∈ edge_nodes e -> b ∈ edge_nodes e' -> Inv st' -> extS st st' ->
    runs Inv extS (f (node_negate a parent) (node_negate b parent')) st'
      (fun r st'' => Q st'' (node_negate a parent) (node_negate b parent') r)) ->
  runs Inv extS (edges_apply e parent e' parent' f) st (fun e'' st' =>
    edges_ok var e'' /\ edge_nodes e'' <> [] /\
    (forall r, r ∈ edge_nodes e'' -> exists a b, a ∈ edge_nodes e /\ b ∈ edge_nodes e' /\
      Q st' (node_negate a parent) (node_negate b parent') r) /\
    forall v r, valuation_ok v -> choose v var e'' = Some r -> exists a b,
      choose v var e = Some a /\ choose v var e' = Some b /\ Q st' (node_negate a parent) (node_negate b parent') r).
Proof.
  intros Hmono Hs He He' Hf. destruct e as [l|l|h l], e' as [k|k|h' l']; try by destruct var.
  - destruct var as [|key| | | |]; try done. cbn [edges_apply edge_nodes] in *.
    run_seq; [by apply (ranges_apply_runs l k parent parent' f st Q)|]. intros m st' Hs' E' (Hm & H1 & H2). run_pure; [done|].
    split; [done|]. split; [by apply tiles_nonempty|]. split; [done|]. intros v r Hv. apply H2, Hv.
  - destruct var as [key| | | | |]; try done. cbn [edges_apply edge_nodes] in *.
    run_seq; [by apply (ranges_apply_runs l k parent parent' f st Q)|]. intros m st' Hs' E' (Hm & H1 & H2). run_pure; [done|].
    split; [done|]. split; [by apply tiles_nonempty|]. split; [done|]. intros v r Hv. by apply H2.
  - cbn [edges_apply edge_nodes] in *. run_seq; [apply Hf; [by left|by left|done|done]|]. intros a st1 H1 E1 Q1. cbn in Q1.
    run_seq; [apply Hf; [right; by left|right; by left|done|done]|]. intros b st2 H2 E2 Q2. cbn in Q2. run_pure; [done|].
    pose proof (Hmono _ _ _ _ _ E2 Q1) as Q1'. split; [by destruct var|]. split; [done|]. split.
    + intros r. cbn. rewrite !elem_of_cons, elem_of_nil.
      intros [->|[->|[]]]; eexists _, _; (split; [|split; [|done]]); [by left|by left|right; by left|right; by left].
    + intros v r _. cbn. destruct (val_bool v var); intros [= <-]; eauto.
Qed.
End traversals.

(** ** Conjunction *)

(** [r] is the conjunction of [x] and [y] for the valuations in [C]. *)
Definition conj_rel (C : Valuation -> Prop) s (x y r : NodeId) : Prop :=
  (valid_id s x /\ valid_id s y /\ valid_id s r) /\
  (forall w, w ∈ support s r -> w ∈ support s x \/ w ∈ support s y) /\
  forall v, valuation_ok v -> C v -> den v s r = den v s x && den v s y.

Lemma conj_rel_ext C s s' (x y r : NodeId) : ext s s' -> conj_rel C s x y r -> conj_rel C s' x y r.
Proof.
  intros He ((Hx & Hy & Hr) & Hs & Hd). split; [by repeat split; try eapply valid_ext; eauto|]. split.
  - intros w. rewrite !(support_ext s s') by done. apply Hs.
  - intros v Hv HC. rewrite !(den_ext v s s') by done. auto.
Qed.

Lemma conj_rel_comm C s (x y r : NodeId) : conj_rel C s x y r -> conj_rel C s y x r.
Proof.
  intros ((Hx & Hy & Hr) & Hs & Hd). split; [done|]. split; [intros w Hw%Hs; tauto|].
  intros v Hv HC. rewrite andb_comm. auto.
Qed.

Lemma is_true_iff id : node_is_true id = true <-> id = node_true.
Proof. apply Z.eqb_eq. Qed.
Lemma is_false_iff id : node_is_false id = true <-> id = node_false.
Proof. apply Z.eqb_eq. Qed.

Lemma and_shortcut_spec C s (x y : NodeId) : valid_id s x -> valid_id s y ->
  match and_shortcut x y with
  | Some r => conj_rel C s x y r
  | None => 0 <= node_index x /\ 0 <= node_index y
  end.
Proof.
  intros Hx Hy. unfold and_shortcut. destruct (valid_terminal s) as [VT VF].
  destruct (node_is_true x) eqn:Tx; [apply is_true_iff in Tx as ->; split; [done|]; split; [by right|done]|].
  destruct (node_is_true y) eqn:Ty; [apply is_true_iff in Ty as ->; split; [done|]; split; [by left|]; intros; by rewrite den_true, andb_true_r|].
  destruct (Z.eqb_spec x y) as [->|Hxy]; [split; [done|]; split; [by left|]; intros; by rewrite andb_diag|].
  destruct (node_is_false x || node_is_false y) eqn:F.
  { split; [done|]. split; [by intros w ?%elem_of_nil|]. intros v _ _. rewrite den_false.
    apply orb_true_iff in F as [->%is_false_iff| ->%is_false_iff]; rewrite den_false; [done|by rewrite andb_false_r]. }
  destruct (Z.eqb_spec (node_not x) y) as [<-|Hn].
  { split; [done|]. split; [by intros w ?%elem_of_nil|]. intros v _ _. rewrite den_false, den_not. by destruct (den v s x). }
  apply orb_false_iff in F as [Fx Fy]. split; apply non_terminal; try apply Hx; try apply Hy; intros ->; done.
Qed.

Lemma support_head s id n : store_ok s -> valid_id s id -> 0 <= node_index id ->
  nodes s !! Z.to_nat (node_index id) = Some n ->
  node_var n ∈ support s id /\
  (forall w, w ∈ support s id -> w = node_var n \/ var_lt (node_var n) w) /\
  (forall c, c ∈ edge_nodes (children n) -> forall w, w ∈ support s c -> w ∈ support s id /\ var_lt (node_var n) w).
Proof.
  intros Hs Hid H0 En. pose proof (store_nodes s Hs _ _ En) as Hn. pose proof (support_at s id n Hs Hid H0 En) as Hsup.
  split; [apply Hsup; by left|]. split.
  - intros w [->|(c & Hc & Hw)]%Hsup; [by left|right]. by eapply (node_ordered _ _ _ Hn).
  - intros c Hc w Hw. split; [apply Hsup; eauto|]. by eapply (node_ordered _ _ _ Hn).
Qed.

Lemma var_lt_trans x y z : var_lt x y -> var_lt y z -> var_lt x z.
Proof. apply (ord_lt_trans variable_cmp). Qed.

Section shannon.
Context {S : Type} (interner_of : S -> Interner) (Inv : S -> Prop) (extS : S -> S -> Prop) `{!PreOrder extS}.
Context (C : Valuation -> Prop).
Hypothesis Inv_store : forall st, Inv st -> store_ok (interner_of st).
Hypothesis extS_ext : forall st st', extS st st' -> ext (interner_of st) (interner_of st').

Context (st : S) (xi yi : NodeId) (x y : Node) (rec : NodeId -> NodeId -> M S NodeId).
Let s0 := interner_of st.
Hypothesis st_inv : Inv st.
Hypothesis (x_valid : valid_id s0 xi) (y_valid : valid_id s0 yi).
Hypothesis (x_index : 0 <= node_index xi) (y_index : 0 <= node_index yi).
Hypothesis x_node : nodes s0 !! Z.to_nat (node_index xi) = Some x.
Hypothesis y_node : nodes s0 !! Z.to_nat (node_index yi) = Some y.

(** The variable of higher order. *)
Definition top_var : Var := match variable_cmp (node_var x) (node_var y) with Gt => node_var y | _ => node_var x end.

(** Identifiers below the expansion: they depend on larger variables of [xi] and [yi]. *)
Definition below (a : NodeId) : Prop :=
  valid_id s0 a /\ forall w, w ∈ support s0 a -> (w ∈ support s0 xi \/ w ∈ support s0 yi) /\ var_lt top_var w.

Hypothesis rec_runs : forall a b st', Inv st' -> extS st st' -> below a -> below b ->
  runs Inv extS (rec a b) st' (fun r st'' => conj_rel C (interner_of st'') a b r).

Definition expansion (fc : Var * Edges) (st' : S) : Prop :=
  let s' := interner_of st' in
  fc.1 = top_var /\ edges_below s' fc.1 fc.2 /\ edge_nodes fc.2 <> [] /\
  (forall r, r ∈ edge_nodes fc.2 -> forall w, w ∈ support s' r -> w ∈ support s' xi \/ w ∈ support s' yi) /\
  forall v r, valuation_ok v -> C v -> choose v fc.1 fc.2 = Some r -> den v s' r = den v s' xi && den v s' yi.

Lemma top_cases : (variable_cmp (node_var x) (node_var y) = Lt /\ top_var = node_var x /\ var_lt top_var (node_var y)) \/
  (variable_cmp (node_var x) (node_var y) = Gt /\ top_var = node_var y /\ var_lt top_var (node_var x)) \/
  (variable_cmp (node_var x) (node_var y) = Eq /\ top_var = node_var x /\ node_var y = node_var x).
Proof.
  unfold top_var, var_lt. destruct (variable_cmp (node_var x) (node_var y)) eqn:E; [do 2 right| left|right; left]; repeat split; try done.
  - symmetry. by apply (ord_eq variable_cmp).
  - by apply (ord_gt_lt variable_cmp).
Qed.

Lemma child_below (n : Node) id c : valid_id s0 id -> 0 <= node_index id -> nodes s0 !! Z.to_nat (node_index id) = Some n ->
  node_var n = top_var -> (forall w, w ∈ support s0 id -> w ∈ support s0 xi \/ w ∈ support s0 yi) ->
  c ∈ edge_nodes (children n) -> below (node_negate c id).
Proof.
  intros Hid H0 En Ev Hsub Hc. pose proof (Inv_store st st_inv) as Hs. split; [apply valid_negate; by eapply child_valid|].
  intros w. rewrite support_negate. intros Hw. destruct (support_head s0 id n Hs Hid H0 En) as (_ & _ & Hch).
  destruct (Hch c Hc w Hw). rewrite <- Ev. auto.
Qed.

Lemma other_below (n : Node) id : valid_id s0 id -> 0 <= node_index id -> nodes s0 !! Z.to_nat (node_index id) = Some n ->
  var_lt top_var (node_var n) -> (forall w, w ∈ support s0 id -> w ∈ support s0 xi \/ w ∈ support s0 yi) -> below id.
Proof.
  intros Hid H0 En Ev Hsub. split; [done|]. intros w Hw. split; [auto|].
  destruct (support_head s0 id n (Inv_store st st_inv) Hid H0 En) as (_ & Hw' & _).
  destruct (Hw' w Hw) as [->|?]; [done|by eapply var_lt_trans].
Qed.

(** The result of a recursive call on identifiers below. *)
Lemma below_result st' a b r : extS st st' -> below a -> below b -> conj_rel C (interner_of st') a b r ->
  valid_id (interner_of st') r /\
  forall w, w ∈ support (interner_of st') r ->
    (w ∈ support (interner_of st') xi \/ w ∈ support (interner_of st') yi) /\ var_lt top_var w.
Proof.
  intros He [Va Ha] [Vb Hb] ((_ & _ & Vr) & Hs & _). split; [done|]. intros w Hw.
  rewrite !(support_ext s0 (interner_of st')) by (done || by apply extS_ext).
  destruct (Hs w Hw) as [Hw'|Hw']; rewrite (support_ext s0 (interner_of st')) in Hw' by (done || by apply extS_ext); auto.
Qed.

(** The expansion of one side. *)
Lemma expand_one (n : Node) id other : below other -> valid_id s0 id -> 0 <= node_index id ->
  nodes s0 !! Z.to_nat (node_index id) = Some n -> node_var n = top_var ->
  (forall w, w ∈ support s0 id -> w ∈ support s0 xi \/ w ∈ support s0 yi) ->
  (forall v st', extS st st' -> den v (interner_of st') id && den v (interner_of st') other =
    den v (interner_of st') xi && den v (interner_of st') yi) ->
  runs Inv extS (edges_map (children n) id (fun node => rec node other)) st (fun e st' => expansion (node_var n, e) st').
Proof.
  intros Ho Hid H0 En Ev Hsub Hcomb. pose proof (Inv_store st st_inv) as Hs.
  pose proof (node_edges _ _ _ (store_nodes s0 Hs _ _ En)) as Hedges.
  assert (Hch : forall c, c ∈ edge_nodes (children n) -> below (node_negate c id)) by (intros; by eapply child_below).
  run_weaken; [apply (edges_map_runs Inv extS (children n) (node_var n) id _ st
    (fun st' c r => conj_rel C (interner_of st') c other r)); [|done|done|]|].
  - intros st1 st2 c r He. apply conj_rel_ext. by apply extS_ext.
  - intros c st' Hc Hs' He. apply rec_runs; auto.
  - intros e st' Hs' He (H1 & H2 & H3 & H4). unfold expansion. cbn [fst snd].
    assert (Hr : forall r, r ∈ edge_nodes e -> valid_id (interner_of st') r /\ forall w, w ∈ support (interner_of st') r ->
      (w ∈ support (interner_of st') xi \/ w ∈ support (interner_of st') yi) /\ var_lt top_var w).
    { intros r (c & Hc & HQ)%H3. eapply below_result; [exact He|by apply (Hch c)|exact Ho|exact HQ]. }
    split; [done|]. split; [split; [done|split]|].
    + intros c Hc. by apply Hr.
    + intros c w Hc Hw. rewrite Ev. by apply (Hr c Hc).
    + split; [done|]. split; [intros r Hin w Hw; by apply (Hr r Hin)|].
      intros v r Hv HC Er. destruct (H4 v r Hv Er) as (c & Ec & (_ & _ & Hd)). rewrite Hd, <- Hcomb by done. f_equal.
      destruct (den_at v s0 id n Hs Hid H0 En Hv) as (c' & Ec' & Hc' & Dc). rewrite Ec in Ec'. injection Ec' as <-.
      destruct (Hch c Hc') as [Vc _]. by rewrite !(den_ext v s0 (interner_of st')), Dc by (by apply extS_ext || done).
Qed.

(** The expansion of both sides. *)
Lemma expand_both : node_var y = node_var x -> top_var = node_var x ->
  runs Inv extS (edges_apply (children x) xi (children y) yi rec) st (fun e st' => expansion (node_var x, e) st').
Proof.
  intros Exy Ev. pose proof (Inv_store st st_inv) as Hs.
  assert (Hx : forall c, c ∈ edge_nodes (children x) -> below (node_negate c xi)) by (intros; eapply child_below; eauto).
  assert (Hy : forall c, c ∈ edge_nodes (children y) -> below (node_negate c yi))
    by (intros; eapply child_below; eauto; congruence).
  pose proof (node_edges _ _ _ (store_nodes s0 Hs _ _ x_node)) as Ex.
  pose proof (node_edges _ _ _ (store_nodes s0 Hs _ _ y_node)) as Ey. rewrite Exy in Ey.
  run_weaken; [apply (edges_apply_runs Inv extS (children x) (children y) (node_var x) xi yi _ st
    (fun st' a b r => conj_rel C (interner_of st') a b r)); [|done|done|done|]|].
  - intros st1 st2 a b r He. apply conj_rel_ext. by apply extS_ext.
  - intros a b st' Ha Hb Hs' He. apply rec_runs; auto.
  - intros e st' Hs' He (H1 & H2 & H3 & H4). unfold expansion. cbn [fst snd].
    assert (Hr : forall r, r ∈ edge_nodes e -> valid_id (interner_of st') r /\ forall w, w ∈ support (interner_of st') r ->
      (w ∈ support (interner_of st') xi \/ w ∈ support (interner_of st') yi) /\ var_lt top_var w).
    { intros r (a & b & Ha & Hb & HQ)%H3. eapply below_result; [exact He|by apply (Hx a)|by apply (Hy b)|exact HQ]. }
    split; [done|]. split; [split; [done|split]|].
    + intros c Hc. by apply Hr.
    + intros c w Hc Hw. rewrite <- Ev. by apply (Hr c Hc).
    + split; [done|]. split; [intros r Hin w Hw; by apply (Hr r Hin)|].
      intros v r Hv HC Er. destruct (H4 v r Hv Er) as (a & b & Ea & Eb & (_ & _ & Hd)). rewrite Hd by done.
      destruct (den_at v s0 xi x Hs x_valid x_index x_node Hv) as (a' & Ea' & Ha & Da). rewrite Ea in Ea'. injection Ea' as <-.
      destruct (den_at v s0 yi y Hs y_valid y_index y_node Hv) as (b' & Eb' & Hb & Db). rewrite Exy, Eb in Eb'. injection Eb' as <-.
      destruct (Hx a Ha) as [Va _], (Hy b Hb) as [Vb _].
      by rewrite !(den_ext v s0 (interner_of st')), Da, Db by (by apply extS_ext || done).
Qed.

Lemma shannon_runs : runs Inv extS (shannon x y xi yi rec) st expansion.
Proof.
  unfold shannon. destruct top_cases as [(E & Et & Hlt)|[(E & Et & Hlt)|(E & Et & Exy)]]; rewrite E.
  - run_seq; [apply (expand_one x xi yi); [|done|done|done|done|auto|done]|].
    + eapply other_below; eauto.
    + intros e st' Hs' He Hx. by run_pure.
  - run_seq; [apply (expand_one y yi xi); [|done|done|done|done|auto|]|].
    + eapply other_below; eauto.
    + intros. apply andb_comm.
    + intros e st' Hs' He Hx. by run_pure.
  - run_seq; [by apply expand_both|]. intros e st' Hs' He Hx. by run_pure.
Qed.

(** The node of an expansion is the conjunction. *)
Lemma expansion_conj fc st1 s' id : extS st st1 -> expansion fc st1 -> ext (interner_of st1) s' -> means s' fc.1 fc.2 id ->
  conj_rel C s' xi yi id.
Proof.
  intros E1 (Ev & (_ & Hval & _) & _ & Hsup & Hden) E2 (V & Hw & Hd).
  assert (E0 : ext s0 s') by (etrans; [by apply extS_ext|done]).
  split; [split; [by eapply valid_ext|split; [by eapply valid_ext|done]]|]. split.
  - intros w Hin. destruct (Hw w Hin) as [->|(c & Hc & Hcw)].
    + rewrite Ev, !(support_ext s0 s') by done. pose proof (Inv_store st st_inv) as Hs.
      destruct (support_head s0 xi x Hs x_valid x_index x_node) as (Hx & _).
      destruct (support_head s0 yi y Hs y_valid y_index y_node) as (Hy & _).
      destruct top_cases as [(_ & -> & _)|[(_ & -> & _)|(_ & -> & _)]]; auto.
    + rewrite (support_ext (interner_of st1) s') in Hcw by auto. specialize (Hsup c Hc w Hcw).
      assert (ext s0 (interner_of st1)) by (by apply extS_ext).
      rewrite !(support_ext s0 s'), <- !(support_ext s0 (interner_of st1)) by done. done.
  - intros v Hv HC. destruct (Hd v Hv) as (c & Ec & Hc & ->). rewrite (den_ext v (interner_of st1)), (Hden v c Hv HC Ec) by auto.
    assert (ext s0 (interner_of st1)) by (by apply extS_ext).
    by rewrite !(den_ext v s0 s'), !(den_ext v s0 (interner_of st1)) by done.
Qed.
End shannon.

(** ** Fuel

    A recursive call depends on fewer variables: those of the caller that are
    larger than the variable expanded. *)

Definition larger (m : Var) (K : list Var) : list Var := List.filter (fun w => is_lt (variable_cmp m w)) K.

Lemma larger_elem m K w : w ∈ larger m K <-> w ∈ K /\ var_lt m w.
Proof.
  unfold larger, var_lt. rewrite !list_elem_of_In, filter_In. destruct (variable_cmp m w); naive_solver.
Qed.

Lemma larger_length m K : m ∈ K -> (length (larger m K) < length K)%nat.
Proof.
  unfold larger. induction K as [|w K IH]; [by intros ?%elem_of_nil|]. cbn.
  pose proof (List.filter_length_le (fun w => is_lt (variable_cmp m w)) K). intros [->|Hm]%elem_of_cons.
  - rewrite (ord_refl variable_cmp). cbn. lia.
  - specialize (IH Hm). destruct (is_lt _); cbn; lia.
Qed.

(** Every variable of an identifier is the variable of a node. *)
Lemma support_vars s id w : store_ok s -> valid_id s id -> w ∈ support s id -> w ∈ map node_var (nodes s).
Proof.
  intros Hs. remember (Z.to_nat (node_index id)) as k eqn:Hk. revert id Hk w.
  induction (lt_wf k) as [k _ IH]; intros id -> w Hid Hw.
  destruct (Z.ltb_spec (node_index id) 0) as [Hneg|H0].
  { unfold support, id_entry in Hw. destruct (Z.ltb_spec (node_index id) 0); [by apply elem_of_nil in Hw|lia]. }
  destruct (shared_node_ret s id Hid H0) as (n & _ & En).
  apply (support_at s id n Hs Hid H0 En) in Hw as [->|(c & Hc & Hw)].
  - apply elem_of_map. exists n. split; [done|]. by eapply list_elem_of_lookup_2.
  - destruct (node_children _ _ _ (store_nodes s Hs _ _ En) c Hc).
    destruct (Z.ltb_spec (node_index c) 0) as [Hneg|Hpos].
    { unfold support, id_entry in Hw. destruct (Z.ltb_spec (node_index c) 0); [by apply elem_of_nil in Hw|lia]. }
    eapply (IH (Z.to_nat (node_index c))); [lia|done|by eapply child_valid|done].
Qed.

Lemma enough_room s (x y : NodeId) : store_ok s -> valid_id s x -> valid_id s y ->
  exists K, (length K < enough s)%nat /\ forall w, w ∈ support s x \/ w ∈ support s y -> w ∈ K.
Proof.
  intros Hs Hx Hy. exists (map node_var (nodes s)). unfold enough. rewrite length_map. split; [lia|].
  intros w [Hw|Hw]; [exact (support_vars s x w Hs Hx Hw)|exact (support_vars s y w Hs Hy Hw)].
Qed.

(** Calls below an expansion fit in less room. *)
Lemma room_below {S} (interner_of : S -> Interner) (Inv : S -> Prop) (extS : S -> S -> Prop) st xi yi (x y : Node) K fuel :
  (forall st, Inv st -> store_ok (interner_of st)) -> Inv st ->
  valid_id (interner_of st) xi -> valid_id (interner_of st) yi -> 0 <= node_index xi -> 0 <= node_index yi ->
  nodes (interner_of st) !! Z.to_nat (node_index xi) = Some x -> nodes (interner_of st) !! Z.to_nat (node_index yi) = Some y ->
  (forall w, w ∈ support (interner_of st) xi \/ w ∈ support (interner_of st) yi -> w ∈ K) ->
  (length K < Datatypes.S fuel)%nat ->
  exists K', (length K' < fuel)%nat /\
    forall a, below interner_of st xi yi x y a -> forall w, w ∈ support (interner_of st) a -> w ∈ K'.
Proof.
  intros Hinv Hst Hx Hy Hx0 Hy0 Ex Ey HK Hlen. exists (larger (top_var x y) K). split.
  - enough (top_var x y ∈ K) as Ht by (pose proof (larger_length _ _ Ht); lia).
    apply HK. destruct (support_head _ xi x (Hinv _ Hst) Hx Hx0 Ex) as (Sx & _).
    destruct (support_head _ yi y (Hinv _ Hst) Hy Hy0 Ey) as (Sy & _).
    unfold top_var. destruct (variable_cmp _ _); auto.
  - intros a [_ Ha] w Hw. apply larger_elem. destruct (Ha w Hw). auto.
Qed.

(** ** Disjointness *)

Lemma disjoint_shortcut_spec s (x y : NodeId) : valid_id s x -> valid_id s y ->
  match disjoint_shortcut x y with
  | Some d => d = true -> forall v, den v s x && den v s y = false
  | None => 0 <= node_index x /\ 0 <= node_index y
  end.
Proof.
  intros Hx Hy. unfold disjoint_shortcut. destruct (node_is_false x || node_is_false y) eqn:F.
  { intros _ v. apply orb_true_iff in F as [->%is_false_iff| ->%is_false_iff]; rewrite den_false; [done|apply andb_false_r]. }
  destruct (node_is_true x || node_is_true y) eqn:Tr; [done|].
  destruct (x =? y); [done|]. destruct (Z.eqb_spec (node_not x) y) as [<-|Hn].
  { intros _ v. rewrite den_not. by destruct (den v s x). }
  apply orb_false_iff in F as [Fx Fy]. apply orb_false_iff in Tr as [Tx Ty].
  split; apply non_terminal; try apply Hx; try apply Hy; intros ->; done.
Qed.

Lemma all_o_spec f (l : list NodeId) (P : NodeId -> Prop) :
  (forall c, c ∈ l -> exists b, f c = Ret b /\ (b = true -> P c)) ->
  exists b, all_o f l = Ret b /\ (b = true -> forall c, c ∈ l -> P c).
Proof.
  induction l as [|c l IH]; intros Hf; cbn; [exists true; split; [done|]; by intros _ c ?%elem_of_nil|].
  destruct (Hf c) as (b & -> & Hb); [by left|]. cbn. destruct b; [|by exists false].
  destruct IH as (b & -> & Hb'); [intros c' Hc; apply Hf; by right|]. exists b. split; [done|].
  intros -> c' [->|Hc]%elem_of_cons; auto.
Qed.

Definition disjoint_spec s (x y : NodeId) (o : outcome bool) : Prop :=
  exists b, o = Ret b /\ (b = true -> forall v, valuation_ok v -> den v s x && den v s y = false).

(** All children of one side are disjoint with the other. *)
Lemma all_disjoint s id n other f : store_ok s -> valid_id s id -> 0 <= node_index id ->
  nodes s !! Z.to_nat (node_index id) = Some n ->
  (forall c, c ∈ edge_nodes (children n) -> disjoint_spec s (node_negate c id) other (f c)) ->
  disjoint_spec s id other (all_o f (edge_nodes (children n))).
Proof.
  intros Hs Hid H0 En Hf.
  destruct (all_o_spec f (edge_nodes (children n)) (fun c => forall v, valuation_ok v -> den v s (node_negate c id) && den v s other = false))
    as (b & -> & Hb); [done|]. exists b. split; [done|]. intros -> v Hv.
  destruct (den_at v s id n Hs Hid H0 En Hv) as (c & _ & Hc & ->). by apply Hb.
Qed.

Lemma edges_disjoint s xi yi (x y : Node) f : store_ok s -> valid_id s xi -> valid_id s yi ->
  0 <= node_index xi -> 0 <= node_index yi ->
  nodes s !! Z.to_nat (node_index xi) = Some x -> nodes s !! Z.to_nat (node_index yi) = Some y -> node_var y = node_var x ->
  (forall a b, a ∈ edge_nodes (children x) -> b ∈ edge_nodes (children y) ->
    disjoint_spec s (node_negate a xi) (node_negate b yi) (f (node_negate a xi) (node_negate b yi))) ->
  disjoint_spec s xi yi (edges_is_disjoint (children x) xi (children y) yi f).
Proof.
  intros Hs Hx Hy Hx0 Hy0 Ex Ey Ev Hf.
  pose proof (node_edges _ _ _ (store_nodes s Hs _ _ Ex)) as Ox. pose proof (node_edges _ _ _ (store_nodes s Hs _ _ Ey)) as Oy.
  rewrite Ev in Oy.
  assert (Hden : forall v, valuation_ok v -> exists a b, choose v (node_var x) (children x) = Some a /\
    choose v (node_var x) (children y) = Some b /\ a ∈ edge_nodes (children x) /\ b ∈ edge_nodes (children y) /\
    den v s xi = den v s (node_negate a xi) /\ den v s yi = den v s (node_negate b yi)).
  { intros v Hv. destruct (den_at v s xi x Hs Hx Hx0 Ex Hv) as (a & ? & ? & ?), (den_at v s yi y Hs Hy Hy0 Ey Hv) as (b & ? & ? & ?).
    rewrite Ev in *. exists a, b. done. }
  clear Ex Ey Hs. destruct (children x) as [l|l|h l], (children y) as [k|k|h' l']; try by destruct (node_var x).
  - destruct (node_var x) as [|key| | | |]; try done. cbn [edges_is_disjoint edge_nodes edges_ok choose] in *.
    destruct (is_disjoint_ranges_spec l k xi yi f (fun a b => forall v, valuation_ok v -> den v s a && den v s b = false) Ox Oy) as (b & -> & Hb).
    { intros lr a rr b Ha Hb. apply Hf; apply elem_of_map; [by exists (lr, a)|by exists (rr, b)]. }
    exists b. split; [done|]. intros -> v Hv. destruct (Hden v Hv) as (a & c & Ea & Ec & _ & _ & -> & ->).
    rewrite (child_at_tile NegInf _ PosInf) in Ea by (done || apply Hv). rewrite (child_at_tile NegInf _ PosInf) in Ec by (done || apply Hv).
    by eapply (Hb eq_refl (at_value (val_version v key))).
  - destruct (node_var x) as [key| | | | |]; try done. cbn [edges_is_disjoint edge_nodes edges_ok choose] in *.
    destruct (is_disjoint_ranges_spec l k xi yi f (fun a b => forall v, valuation_ok v -> den v s a && den v s b = false) Ox Oy) as (b & -> & Hb).
    { intros lr a rr b Ha Hb. apply Hf; apply elem_of_map; [by exists (lr, a)|by exists (rr, b)]. }
    exists b. split; [done|]. intros -> v Hv. destruct (Hden v Hv) as (a & c & Ea & Ec & _ & _ & -> & ->).
    rewrite (child_at_tile NegInf _ PosInf) in Ea by done. rewrite (child_at_tile NegInf _ PosInf) in Ec by done.
    by eapply (Hb eq_refl (at_value (val_string v key))).
  - cbn [edges_is_disjoint edge_nodes] in *.
    destruct (Hf h h') as (b & -> & Hb); [by left|by left|]. cbn [obind]. destruct b; [|by exists false].
    destruct (Hf l l') as (b & -> & Hb'); [right; by left|right; by left|]. exists b. split; [done|]. intros -> v Hv.
    destruct (Hden v Hv) as (a & c & Ea & Ec & _ & _ & -> & ->). cbn in Ea, Ec.
    destruct (val_bool v (node_var x)); simplify_eq; auto.
Qed.

(** One level of the recursion. *)
Lemma disjoint_level s xi yi (x y : Node) f : store_ok s -> valid_id s xi -> valid_id s yi ->
  0 <= node_index xi -> 0 <= node_index yi ->
  nodes s !! Z.to_nat (node_index xi) = Some x -> nodes s !! Z.to_nat (node_index yi) = Some y ->
  (forall a b, below (fun s => s) s xi yi x y a -> below (fun s => s) s xi yi x y b -> disjoint_spec s a b (f a b)) ->
  disjoint_spec s xi yi
    match variable_cmp (node_var x) (node_var y) with
    | Lt => all_o (fun c => f (node_negate c xi) yi) (edge_nodes (children x))
    | Gt => all_o (fun c => f (node_negate c yi) xi) (edge_nodes (children y))
    | Eq => edges_is_disjoint (children x) xi (children y) yi f
    end.
Proof.
  intros Hs Hx Hy Hx0 Hy0 Ex Ey Hf.
  assert (Hchx : node_var x = top_var x y -> forall c, c ∈ edge_nodes (children x) -> below (fun s => s) s xi yi x y (node_negate c xi))
    by (intros; eapply (child_below (fun s => s) store_ok ); eauto).
  assert (Hchy : node_var y = top_var x y -> forall c, c ∈ edge_nodes (children y) -> below (fun s => s) s xi yi x y (node_negate c yi))
    by (intros; eapply (child_below (fun s => s) store_ok ); eauto).
  destruct (top_cases x y) as [(E & Et & Hlt)|[(E & Et & Hlt)|(E & Et & Exy)]]; rewrite E.
  - apply all_disjoint; [done..|]. intros c Hc. apply Hf; [auto|]. eapply (other_below (fun s => s) store_ok); eauto.
  - assert (disjoint_spec s yi xi (all_o (fun c => f (node_negate c yi) xi) (edge_nodes (children y)))) as (b & -> & Hb).
    { apply all_disjoint; [done..|]. intros c Hc. apply Hf; [auto|]. eapply (other_below (fun s => s) store_ok); eauto. }
    exists b. split; [done|]. intros -> v Hv. rewrite andb_comm. auto.
  - apply edges_disjoint; [done..|]. intros a b Ha Hb. apply Hf; [auto|]. apply Hchy; [congruence|done].
Qed.

Lemma disjointness_spec fuel s (x y : NodeId) K : store_ok s -> valid_id s x -> valid_id s y ->
  (length K < fuel)%nat -> (forall w, w ∈ support s x \/ w ∈ support s y -> w ∈ K) ->
  disjoint_spec s x y (disjointness fuel s x y).
Proof.
  revert x y K. induction fuel as [|fuel IH]; intros xi yi K Hs Hx Hy Hlen HK; [lia|]. cbn [disjointness].
  pose proof (disjoint_shortcut_spec s xi yi Hx Hy) as Hsc. destruct (disjoint_shortcut xi yi) as [d|].
  { exists d. split; [done|]. intros -> v _. by apply Hsc. }
  destruct Hsc as [Hx0 Hy0].
  destruct (shared_node_ret s xi Hx Hx0) as (x & -> & Ex), (shared_node_ret s yi Hy Hy0) as (y & -> & Ey). cbn [obind].
  apply disjoint_level; [done..|].
  destruct (room_below (fun s => s) store_ok ext s xi yi x y K fuel) as (K' & HK' & Hb); [done..|].
  intros a b Ha Hb'. apply (IH a b K'); [done|apply Ha|apply Hb'|done|]. intros w [?|?]; [by apply (Hb a)|by apply (Hb b)].
Qed.
End ops.
