(* ===== verification/MarkerConj.v ===== *)
(** * Conjunction, known incompatibilities and disjointness

    The invariant of the whole interner ([interner_ok]: the store, the memoised
    conjunctions, the memoised exclusions), string expressions, the marker of
    known-incompatible conditions, and [and], [or] and [is_disjoint]. *)

From Stdlib Require Import ZArith Lia String.
From stdpp Require Import base list gmap.
From S2P Require Import Prelude.
From S2P Require Import VersionRepr.
From S2P Require Import VersionOrder.
From S2P Require Import RangeSet.
From S2P Require Import Stateful.
From S2P Require Import MarkerEdges.
From S2P Require Import MarkerTypes.
From S2P Require Import RangeInstances.
From S2P Require Import MarkerAlgebra.
From S2P Require Import MarkerStore.
From S2P Require Import MarkerOps.
Open Scope Z_scope.

(** ** Environments that can exist *)

(** The known-incompatible pairs of [InternerGuard::exclusions], as values. *)
Definition incompatible_values : list ((CanonicalMarkerValueString * Str) * (CanonicalMarkerValueString * Str)) :=
  map (fun p => ((COsName, bs p.1), (CSysPlatform, bs p.2)))
    [("nt", "linux"); ("nt", "darwin"); ("nt", "ios"); ("posix", "win32")]%string ++
  flat_map (fun system =>
    flat_map (fun platform =>
      if (String.eqb platform "ios" && (String.eqb system "iOS" || String.eqb system "iPadOS"))%string then []
      else [((CPlatformSystem, bs system), (CSysPlatform, bs platform))])
      ["aix"; "android"; "emscripten"; "ios"; "linux"; "darwin"; "win32"; "cygwin"; "wasi"]%string)
    ["FreeBSD"; "NetBSD"; "OpenBSD"; "SunOS"; "iOS"; "iPadOS"]%string.

Definition has_value (v : Valuation) (kv : CanonicalMarkerValueString * Str) : bool :=
  bytes_eqb (val_string v kv.1) kv.2.

(** No known-incompatible pair of values. *)
Definition consistent (v : Valuation) : Prop :=
  forallb (fun p => negb (has_value v p.1 && has_value v p.2)) incompatible_values = true.

(** ** The meaning of string comparisons *)

Definition str_cmp : Str -> Str -> comparison := list_cmp Z.compare.

(** [platform_release] and [platform_version] are compared lexicographically, the
    other fields by equality, as the marker specification says. *)
Definition string_holds (key : CanonicalMarkerValueString) (op : MarkerOperator) (value x : Str) : bool :=
  let lexicographic := match key with CPlatformRelease | CPlatformVersion => true | _ => false end in
  match op with
  | MEqual => bytes_eqb x value
  | MNotEqual => negb (bytes_eqb x value)
  | MGreaterThan => lexicographic && is_gt (str_cmp x value)
  | MLessThan => lexicographic && is_lt (str_cmp x value)
  | MGreaterEqual => if lexicographic then is_ge (str_cmp x value) else bytes_eqb x value
  | MLessEqual => if lexicographic then is_le (str_cmp x value) else bytes_eqb x value
  | _ => false
  end.

Definition string_operator (op : MarkerOperator) : bool :=
  match op with
  | MEqual | MNotEqual | MGreaterThan | MGreaterEqual | MLessThan | MLessEqual => true
  | _ => false
  end.

Section conj.
Context {RV RS : Type} `{!RangeSet Version RV} `{!RangeSetLaws Version RV}.
Context `{!RangeSet Str RS} `{!RangeSetLaws Str RS}.

Abbreviation Edges := (EdgesOf RV RS).
Abbreviation Node := (NodeOf RV RS).
Abbreviation Interner := (InternerOf RV RS).
Implicit Types (v : Valuation) (s : Interner) (id c r : NodeId).

(** ** Expressions *)

Lemma covers_str (r : RS) f x : covers r f -> rs_ok r /\ rs_contains r x = f (at_value x).
Proof. intros [Hr Hf]. split; [done|]. rewrite rs_contains_law by done. by apply Hf. Qed.

Lemma str_in_cuts (x : Str) (a b : BoundOf Str) : in_cuts (at_value x) (lower_cut a, upper_cut b) =
  match a with Included v => is_ge (str_cmp x v) | Excluded v => is_gt (str_cmp x v) | Unbounded => true end &&
  match b with Included v => is_le (str_cmp x v) | Excluded v => is_lt (str_cmp x v) | Unbounded => true end.
Proof.
  unfold in_cuts, at_value, cut_cmp, before, after, str_cmp. cbn [fst snd]. f_equal.
  - destruct a as [v|v|]; [| |done]; unfold pair_cmp; cbn; rewrite (ord_sym (list_cmp Z.compare)); by destruct (list_cmp Z.compare x v).
  - destruct b as [v|v|]; [| |done]; unfold pair_cmp; cbn; by destruct (list_cmp Z.compare x v).
Qed.

Lemma str_valid (x : Str) : valid x = true.
Proof. done. Qed.

Lemma singleton_str (value x : Str) : rs_ok (R := RS) (rs_singleton value) /\ rs_contains (R := RS) (rs_singleton value) x = bytes_eqb x value.
Proof.
  destruct (covers_str _ _ x (rs_singleton_law (R := RS) value (str_valid value))) as [H1 ->]. split; [done|].
  etrans; [apply (str_in_cuts x (Included value) (Included value))|]. unfold bytes_eqb, str_cmp. by destruct (list_cmp _ _ _).
Qed.

Lemma string_range_spec key op value : string_operator op = true ->
  exists r : RS, string_range key op value = Ret r /\ rs_ok r /\ forall x : Str, rs_contains r x = string_holds key op value x.
Proof.
  intros Hop.
  assert (Hsing : exists r : RS, Ret (rs_singleton value) = Ret r /\ rs_ok r /\ forall x : Str, rs_contains r x = bytes_eqb x value).
  { eexists. split; [done|]. split; [apply (singleton_str value [])|]. intros x. apply singleton_str. }
  assert (Hne : exists r : RS, Ret (rs_complement (rs_singleton value)) = Ret r /\ rs_ok r /\ forall x : Str, rs_contains r x = negb (bytes_eqb x value)).
  { destruct (singleton_str value []) as [H1 _]. pose proof (rs_complement_law (T := Str) (R := RS) _ H1) as Hc. eexists. split; [done|].
    split; [apply Hc|]. intros x. destruct (covers_str _ _ x Hc) as [_ ->]. rewrite <- rs_contains_law by done. f_equal. apply singleton_str. }
  assert (Hempty : exists r : RS, Ret rs_empty = Ret r /\ rs_ok r /\ forall x : Str, rs_contains r x = false).
  { eexists. split; [done|]. assert (rs_ok (R := RS) rs_empty) as Ho by (unfold rs_ok, rs_cuts; by rewrite rs_empty_law).
    split; [done|]. intros x. rewrite rs_contains_law by done. unfold rs_cuts. by rewrite rs_empty_law. }
  assert (Hlaw : forall (r : RS) (a b : BoundOf Str), covers r (fun p => in_cuts p (lower_cut a, upper_cut b)) ->
    exists r' : RS, Ret r = Ret r' /\ rs_ok r' /\ forall x : Str, rs_contains r' x =
      match a with Included v => is_ge (str_cmp x v) | Excluded v => is_gt (str_cmp x v) | Unbounded => true end &&
      match b with Included v => is_le (str_cmp x v) | Excluded v => is_lt (str_cmp x v) | Unbounded => true end).
  { intros r a b Hc. exists r. split; [done|]. split; [apply Hc|]. intros x. destruct (covers_str _ _ x Hc) as [_ ->]. apply str_in_cuts. }
  destruct op; try done; destruct key; try done; cbn [string_range string_holds andb].
  all: first [exact Hsing|exact Hne|exact Hempty|idtac].
  all: match goal with
  | |- context [rs_strictly_higher_than] =>
      destruct (Hlaw _ (Excluded value) Unbounded (rs_strictly_higher_than_law (R := RS) value (str_valid value))) as (r' & E & Hr & Hc)
  | |- context [rs_higher_than] =>
      destruct (Hlaw _ (Included value) Unbounded (rs_higher_than_law (R := RS) value (str_valid value))) as (r' & E & Hr & Hc)
  | |- context [rs_strictly_lower_than] =>
      destruct (Hlaw _ Unbounded (Excluded value) (rs_strictly_lower_than_law (R := RS) value (str_valid value))) as (r' & E & Hr & Hc)
  | |- context [rs_lower_than] =>
      destruct (Hlaw _ Unbounded (Included value) (rs_lower_than_law (R := RS) value (str_valid value))) as (r' & E & Hr & Hc)
  end; exists r'; split; [done|]; split; [done|]; intros x; rewrite Hc; by rewrite ?andb_true_r.
Qed.

(** Edges that lead to constants only. *)
Definition leaf_edges (e : Edges) : Prop := forall c, c ∈ edge_nodes e -> c = node_true \/ c = node_false.

Lemma leaf_below s var (e : Edges) : edges_ok var e -> leaf_edges e -> edges_below s var e.
Proof.
  intros He Hl. destruct (valid_terminal s). split; [done|]. split.
  - intros c [->| ->]%Hl; done.
  - intros c w [->| ->]%Hl Hw; by apply elem_of_nil in Hw.
Qed.

(** The edges of a range lead to [true] inside and to [false] outside. *)
Lemma from_range_edges {T R} `{RangeSetLaws T R} `{!KeyedLaws T} (rg : R) : rs_ok rg ->
  exists edges, from_range rg = Ret edges /\ tiles NegInf edges PosInf /\
    (forall c, c ∈ map snd edges -> c = node_true \/ c = node_false) /\
    forall x, valid x = true -> child_at x edges = Some (if rs_contains rg x then node_true else node_false).
Proof.
  intros Hr. destruct (from_range_tiles rg Hr) as (edges & E & Ht & Hc). exists edges. split; [done|]. split; [done|]. split.
  - intros c (e & -> & He)%elem_of_map. destruct e as [rg' c]. destruct (tiles_elem _ _ _ _ _ Ht He) as (p & _ & Hp & Ep).
    rewrite Hc in Ep by (intros ->; cut_order). injection Ep as <-. destruct (cut_mem _ _); auto.
  - intros x Hx. rewrite (child_at_tile NegInf _ PosInf), Hc, rs_contains_law by done. done.
Qed.

Lemma edges_nonempty var (e : Edges) : edges_ok var e -> edge_nodes e <> [].
Proof. destruct e as [[|]|[|]|]; by destruct var. Qed.

(** Creating a node with constant children. *)
Lemma create_leaf s var (e : Edges) : store_ok s -> edges_ok var e -> leaf_edges e ->
  exists id s', create_node var e s = Ret (id, s') /\ grows s s' /\ valid_id s' id /\
    (forall w, w ∈ support s' id -> w = var) /\
    forall v, valuation_ok v -> exists c, choose v var e = Some c /\ den v s' id = den v s' c.
Proof.
  intros Hs He Hl. destruct (create_node_spec s var e Hs (leaf_below s var e He Hl) (edges_nonempty var e He))
    as (id & s' & E & Hg & (V & Hw & Hd)). exists id, s'. split; [done|]. split; [done|]. split; [done|]. split.
  - intros w [->|(c & [->| ->]%Hl & Hc)]%Hw; [done|by apply elem_of_nil in Hc..].
  - intros v Hv. destruct (Hd v Hv) as (c & Ec & _ & E'). eauto.
Qed.

(** String comparisons. *)
Lemma string_expression s key op value : store_ok s -> string_operator op = true ->
  let kv := normalize_platform key value in
  exists id s', expression (EString key op value) s = Ret (id, s') /\ grows s s' /\ valid_id s' id /\
    (forall w, w ∈ support s' id -> w = VString kv.1) /\
    forall v, valuation_ok v -> den v s' id = string_holds kv.1 op kv.2 (val_string v kv.1).
Proof.
  intros Hs Hop. cbv zeta. destruct (normalize_platform key value) as [k x] eqn:Ekv. cbn [fst snd].
  destruct (string_range_spec k op x Hop) as (rg & Er & Hr & Hc). destruct (from_range_edges rg Hr) as (edges & Ee & Ht & Hl & Hch).
  destruct (create_leaf s (VString k) (EdgesString edges) Hs Ht Hl) as (id & s' & E & Hg & V & Hw & Hd).
  exists id, s'. split.
  - unfold expression, expression_edges, mseq, mlift, from_string. rewrite Ekv.
    destruct op; try done; rewrite Er; cbn [obind]; rewrite Ee; exact E.
  - split; [done|]. split; [done|]. split; [done|]. intros v Hv. destruct (Hd v Hv) as (c & Ec & ->). cbn in Ec.
    rewrite Hch, Hc in Ec by done. injection Ec as <-. by destruct (string_holds _ _ _ _).
Qed.

(** ** The invariant of the interner *)

Record interner_ok s : Prop := {
  interner_store : store_ok s;
  interner_cache : forall x y r, cache s !! (x, y) = Some r -> conj_rel consistent s x y r;
  interner_exclusions : forall e, exclusions s = Some e ->
    valid_id s e /\ forall v, valuation_ok v -> consistent v -> den v s e = false;
}.

Lemma grows_ok s s' : interner_ok s -> grows s s' -> interner_ok s'.
Proof.
  intros [H1 H2 H3] (G1 & G2 & G3 & G4). split; [done| |].
  - intros x y r. rewrite G3. intros E. eapply conj_rel_ext; [done|by apply H2].
  - intros e. rewrite G4. intros E. destruct (H3 e E) as [V D]. split; [by eapply valid_ext|].
    intros v Hv HC. rewrite (den_ext v s s') by done. auto.
Qed.

Lemma interner_default_ok : interner_ok interner_default.
Proof.
  split; [split|intros x y r E; cbn in E; by apply lookup_empty_Some in E|done]; cbn.
  - intros k m E. by rewrite lookup_nil in E.
  - intros m id. split; [by intros ?%elem_of_nil|]. intros (k & _ & E). by rewrite lookup_nil in E.
  - intros j k a b E. by rewrite lookup_nil in E.
Qed.

(** ** Conjunctions with a cache of their own *)

Definition any (v : Valuation) : Prop := True.

Definition scratch_ok (st : Interner * Cache) : Prop :=
  store_ok st.1 /\ forall x y r, st.2 !! (x, y) = Some r -> conj_rel any st.1 x y r.

Definition scratch_ext (st st' : Interner * Cache) : Prop :=
  ext st.1 st'.1 /\ cache st'.1 = cache st.1 /\ exclusions st'.1 = exclusions st.1.

#[export] Instance scratch_ext_preorder : PreOrder scratch_ext.
Proof.
  split; [intros st; by repeat split|]. intros s1 s2 s3 (A1 & A2 & A3) (B1 & B2 & B3). split; [by etrans|]. by rewrite B2, B3.
Qed.

(** Lifting an operation that only adds nodes. *)
Lemma with_interner_runs {A} (m : M Interner A) (st : Interner * Cache) (Q : A -> Interner -> Prop) : scratch_ok st ->
  (exists a s', m st.1 = Ret (a, s') /\ grows st.1 s' /\ Q a s') ->
  runs scratch_ok scratch_ext (with_interner m) st (fun a st' => Q a st'.1).
Proof.
  intros [Hs Hc] (a & s' & E & (G1 & G2 & G3 & G4) & HQ). exists a, (s', st.2). split; [unfold with_interner; by rewrite E|]. split.
  - split; [done|]. cbn. intros x y r Er. eapply conj_rel_ext; [done|by apply Hc].
  - done.
Qed.

Lemma cache_insert_Some (ch : Cache) (x y id a b r : NodeId) : (<[(x, y) := id]> ch : Cache) !! (a, b) = Some r ->
  a = x /\ b = y /\ r = id \/ ch !! (a, b) = Some r.
Proof.
  intros E. apply (lookup_insert_Some (M := gmap (Z * Z))) in E as [[[= -> ->] ->]|[_ E]]; [by left|by right].
Qed.

Lemma conjunction_runs fuel (xi yi : NodeId) st K : scratch_ok st -> valid_id st.1 xi -> valid_id st.1 yi ->
  (length K < fuel)%nat -> (forall w, w ∈ support st.1 xi \/ w ∈ support st.1 yi -> w ∈ K) ->
  runs scratch_ok scratch_ext (conjunction fuel xi yi) st (fun r st' => conj_rel any st'.1 xi yi r).
Proof.
  revert xi yi st K. induction fuel as [|fuel IH]; intros xi yi st K Hst Hx Hy Hlen HK; [lia|]. cbn [conjunction].
  pose proof (and_shortcut_spec any st.1 xi yi Hx Hy) as Hsc. destruct (and_shortcut xi yi) as [r|]; [by run_pure|].
  destruct Hsc as [Hx0 Hy0]. run_get. destruct (st.2 !! (xi, yi)) as [r|] eqn:Ec; [run_pure; [done|]; by apply Hst|].
  destruct (shared_node_ret st.1 xi Hx Hx0) as (x & Ex & Nx), (shared_node_ret st.1 yi Hy Hy0) as (y & Ey & Ny).
  run_read Ex. run_read Ey.
  destruct (room_below fst scratch_ok scratch_ext st xi yi x y K fuel) as (K' & HK' & Hb); [by intros ? []|done..|].
  run_seq.
  { apply (shannon_runs fst scratch_ok scratch_ext any); try done.
    - by intros ? [].
    - by intros ? ? [].
    - intros a b st' Hs' He Ha Hb'. destruct He as (He & _). apply (IH a b st' K'); [done|..].
      + eapply valid_ext; [exact He|apply Ha].
      + eapply valid_ext; [exact He|apply Hb'].
      + done.
      + destruct Ha as [Va Ha], Hb' as [Vb Hb'].
        intros w [Hw|Hw]; rewrite (support_ext st.1 st'.1) in Hw by done; [apply (Hb a)|apply (Hb b)]; done. }
  intros fc st1 Hs1 E1 Hexp. run_seq.
  { apply (with_interner_runs _ st1 (fun id s' => ext st1.1 s' /\ means s' fc.1 fc.2 id)); [done|].
    destruct Hexp as (_ & Hbel & Hne & _). destruct (create_node_spec st1.1 fc.1 fc.2 (proj1 Hs1) Hbel Hne) as (id & s' & E & Hg & Hm).
    exists id, s'. split; [done|]. split; [done|]. split; [apply Hg|done]. }
  intros id st2 Hs2 E2 (E12 & Hm).
  assert (Hrel : conj_rel any st2.1 xi yi id).
  { refine (expansion_conj fst scratch_ok scratch_ext any _ _ st xi yi x y _ _ _ _ _ _ _ fc st1 st2.1 id _ _ _ _); try done;
      [by intros ? []|by intros ? ? []]. }
  exists id, (st2.1, <[(xi, yi) := id]> st2.2). split; [done|]. split; [|done]. split; [apply Hs2|]. cbn [fst snd].
  intros a b r [(-> & -> & ->)|E]%cache_insert_Some; [done|by apply Hs2].
Qed.

(** Disjunction by De Morgan. *)
Lemma disjunction_runs fuel (xi yi : NodeId) st K : scratch_ok st -> valid_id st.1 xi -> valid_id st.1 yi ->
  (length K < fuel)%nat -> (forall w, w ∈ support st.1 xi \/ w ∈ support st.1 yi -> w ∈ K) ->
  runs scratch_ok scratch_ext (disjunction fuel xi yi) st (fun r st' => valid_id st'.1 r /\
    forall v, valuation_ok v -> den v st'.1 r = den v st'.1 xi || den v st'.1 yi).
Proof.
  intros Hst Hx Hy Hlen HK. unfold disjunction. run_seq.
  { apply (conjunction_runs _ _ _ _ K); [done|by apply valid_not..|done|]. intros w. rewrite !support_not. apply HK. }
  intros r st' Hs' _ ((_ & _ & Vr) & _ & Hd). run_pure; [done|]. split; [by apply valid_not|].
  intros v Hv. by rewrite den_not, Hd, !den_not, negb_andb, !negb_involutive.
Qed.

(** ** Known incompatibilities *)

(** The node of the marker [key == value]. *)
Definition named s (kv : CanonicalMarkerValueString * Str) id : Prop :=
  valid_id s id /\ forall v, valuation_ok v -> den v s id = has_value v kv.

Lemma named_ext s s' kv id : ext s s' -> named s kv id -> named s' kv id.
Proof.
  intros He [V D]. split; [by eapply valid_ext|]. intros v Hv. rewrite (den_ext v s s') by done. auto.
Qed.

Definition expression_value (e : MarkerExpression) : CanonicalMarkerValueString * Str :=
  match e with EString key _ value => normalize_platform key value | _ => (COsName, []) end.

Lemma named_expression e st : e ∈ exclusion_expressions -> scratch_ok st ->
  runs scratch_ok scratch_ext (with_interner (expression e)) st (fun id st' => named st'.1 (expression_value e) id).
Proof.
  intros He Hst. assert (exists key value, e = EString key MEqual value) as (key & value & ->).
  { unfold exclusion_expressions, string_equals in He. repeat (apply elem_of_cons in He as [->|He]; [by eexists _, _|]). by apply elem_of_nil in He. }
  apply (with_interner_runs _ st (fun id s' => named s' (expression_value (EString key MEqual value)) id)); [done|].
  destruct (string_expression st.1 key MEqual value (proj1 Hst) eq_refl) as (id & s' & E & Hg & V & _ & Hd).
  exists id, s'. split; [done|]. split; [done|]. split; [done|]. intros v Hv. by rewrite Hd.
Qed.

Definition never s (ab : NodeId * NodeId) : Prop := valid_id s ab.1 /\ valid_id s ab.2 /\
  forall v, valuation_ok v -> consistent v -> den v s ab.1 && den v s ab.2 = false.

Lemma never_ext s s' ab : ext s s' -> never s ab -> never s' ab.
Proof.
  intros He (V1 & V2 & D). split; [by eapply valid_ext|]. split; [by eapply valid_ext|]. intros v Hv HC.
  rewrite !(den_ext v s s') by done. auto.
Qed.

Lemma named_never s p q a b : bool_decide ((p, q) ∈ incompatible_values) = true -> named s p a -> named s q b -> never s (a, b).
Proof.
  intros Hin%bool_decide_eq_true [Va Da] [Vb Db]. rewrite list_elem_of_In in Hin. split; [done|]. split; [done|].
  intros v Hv HC. cbn. rewrite Da, Db by done. unfold consistent in HC. rewrite forallb_forall in HC.
  specialize (HC _ Hin). cbn in HC. by apply negb_true_iff in HC.
Qed.

Ltac each_elem H := repeat (apply elem_of_cons in H as [->|H]); [..|by apply elem_of_nil in H].

Lemma exclusion_pairs_never s ids : Forall2 (fun e id => named s (expression_value e) id) exclusion_expressions ids ->
  forall ab, ab ∈ exclusion_pairs ids -> never s ab.
Proof.
  unfold exclusion_expressions. intros H.
  repeat (apply Forall2_cons_inv_l in H as (? & ? & ? & H & ->)). apply Forall2_nil_inv_l in H as ->.
  intros ab. unfold exclusion_pairs. rewrite elem_of_app. intros [Hin|(i & Hi & (j & Hj & Hin)%elem_of_flat_map)%elem_of_flat_map].
  - each_elem Hin; (eapply named_never; [|eassumption..]); vm_compute; reflexivity.
  - each_elem Hi. all: each_elem Hj; (destruct (_ && _) eqn:G; [by apply elem_of_nil in Hin|]);
      apply list_elem_of_singleton in Hin as ->;
      first [by rewrite !Z.eqb_refl, ?orb_true_r in G|eapply named_never; [|eassumption..]; vm_compute; reflexivity].
Qed.

(** One step of the loop over the pairs. *)
Lemma exclusion_step (tree : NodeId) ab st : scratch_ok st -> never st.1 ab -> valid_id st.1 tree ->
  (forall v, valuation_ok v -> consistent v -> den v st.1 tree = false) ->
  runs scratch_ok scratch_ext
    (let* s1 := mget in let* a_and_b := conjunction (enough (fst s1)) (fst ab) (snd ab) in
     let* s2 := mget in disjunction (enough (fst s2)) tree a_and_b) st
    (fun r st' => valid_id st'.1 r /\ forall v, valuation_ok v -> consistent v -> den v st'.1 r = false).
Proof.
  intros Hst (V1 & V2 & D) Vt Dt. run_get. destruct (enough_room st.1 ab.1 ab.2 (proj1 Hst) V1 V2) as (K & HK1 & HK2).
  run_seq; [by apply (conjunction_runs _ _ _ _ K)|]. intros c st1 H1 (E1 & _) ((_ & _ & Vc) & _ & Dc).
  run_get.
  assert (Vt' : valid_id st1.1 tree) by (by eapply valid_ext).
  destruct (enough_room st1.1 tree c (proj1 H1) Vt' Vc) as (K' & HK1' & HK2').
  run_weaken; [by apply (disjunction_runs _ _ _ _ K')|]. intros r st2 H2 (E2 & _) [Vr Dr]. split; [done|].
  intros v Hv HC. assert (ext st.1 st2.1) by (by etrans).
  rewrite Dr, (den_ext v st.1 st2.1 tree), Dt, (den_ext v st1.1 st2.1 c), Dc by done. cbn.
  rewrite !(den_ext v st.1 st1.1) by done. auto.
Qed.

(** The marker of known-incompatible conditions: computing it cannot fail, and
    it is false in every environment that can exist. *)
Lemma get_exclusions_runs s : interner_ok s ->
  runs interner_ok ext get_exclusions s
    (fun e s' => valid_id s' e /\ forall v, valuation_ok v -> consistent v -> den v s' e = false).
Proof.
  intros Hs. unfold get_exclusions. destruct (exclusions s) as [e|] eqn:Ee.
  { exists e, s. rewrite Ee. split; [done|]. split; [done|]. split; [done|]. by apply interner_exclusions. }
  set (build := mseq _ _).
  assert (runs scratch_ok scratch_ext build (s, ∅) (fun r st' => valid_id st'.1 r /\
    forall v, valuation_ok v -> consistent v -> den v st'.1 r = false)) as (tree & [s' ch] & E & [H1 _] & (G1 & G2 & G3) & HQ).
  { assert (H0 : scratch_ok (s, ∅)) by (split; [apply Hs|intros x y r E; cbn in E; by apply lookup_empty_Some in E]).
    unfold build. run_seq.
    { apply (runs_map _ _ _ _ _ (fun st e id => named st.1 (expression_value e) id)); [|done|].
      - intros st st' e id (He & _). by apply named_ext.
      - intros e st' He Hst' _. by apply named_expression. }
    intros ids st1 Hst1 _ Hids. pose proof (exclusion_pairs_never _ _ Hids) as Hp.
    run_weaken.
    { apply (runs_fold _ _ _ _ _ _ (fun st rest tree => (forall ab, ab ∈ rest -> never st.1 ab) /\ valid_id st.1 tree /\
        forall v, valuation_ok v -> consistent v -> den v st.1 tree = false)); [|done| |].
      - intros st st' rest t (He & _) (P1 & P2 & P3). split; [intros ab Hin; by eapply never_ext, P1|].
        split; [by eapply valid_ext|]. intros v Hv HC. rewrite (den_ext v st.1 st'.1) by done. auto.
      - split; [done|]. split; [apply valid_terminal|done].
      - intros ab rest t st' Hst' _ (P1 & P2 & P3). run_weaken; [apply exclusion_step; [done|apply P1; by left|done|done]|].
        intros r st2 _ (He & _) HQ. split; [|done]. intros ab' Hin. apply (never_ext st'.1); [done|]. apply P1. by right. }
    intros r st' _ _ (_ & HQ). done. }
  exists tree, (set_exclusions s' tree). rewrite Ee. rewrite E. split; [done|]. cbn in *. split; [|done].
  assert (Hg : grows s s') by done. destruct (grows_ok s s' Hs Hg) as [A B C']. split; [by apply (store_ok_same s')|done|]. cbn. by intros ? [= <-].
Qed.

(** ** Conjunction, disjunction, disjointness *)

(** Mapping a marker that only holds in impossible environments to [false]
    changes nothing for the others. *)
Lemma drop_conflicts_runs s conflicts id : interner_ok s -> valid_id s id ->
  runs interner_ok ext (drop_conflicts conflicts id) s (fun r s' => (r = id \/ r = node_false) /\
    forall v, valuation_ok v -> consistent v -> den v s' r = den v s' id).
Proof.
  intros Hs Hid. unfold drop_conflicts. destruct conflicts; [|run_pure; auto].
  run_seq; [by apply get_exclusions_runs|]. intros e s1 H1 E1 [Ve De]. run_get.
  assert (Vid : valid_id s1 id) by (by eapply valid_ext). assert (Vne : valid_id s1 (node_not e)) by (by apply valid_not).
  destruct (enough_room s1 id (node_not e) (interner_store _ H1) Vid Vne) as (K & HK1 & HK2).
  destruct (disjointness_spec _ s1 id (node_not e) K (interner_store _ H1) Vid Vne HK1 HK2) as (d & Ed & Hd).
  run_read Ed. run_pure; [done|].
  destruct d; [|auto]. split; [by right|]. intros v Hv HC. specialize (Hd eq_refl v Hv).
  rewrite den_not, De, andb_true_r in Hd by done. by rewrite Hd.
Qed.

Lemma set_cache_ok s (x y r : NodeId) : interner_ok s -> conj_rel consistent s x y r -> interner_ok (set_cache s (x, y) r).
Proof.
  intros [H1 H2 H3] Hr. split; [by apply (store_ok_same s)| |done].
  intros a b r' [(-> & -> & ->)|E]%cache_insert_Some; [exact Hr|exact (H2 a b r' E)].
Qed.

Lemma and_fuel_runs fuel (xi yi : NodeId) s K : interner_ok s -> valid_id s xi -> valid_id s yi ->
  (length K < fuel)%nat -> (forall w, w ∈ support s xi \/ w ∈ support s yi -> w ∈ K) ->
  runs interner_ok ext (and_fuel fuel xi yi) s (fun r s' => conj_rel consistent s' xi yi r).
Proof.
  revert xi yi s K. induction fuel as [|fuel IH]; intros xi yi s K Hs Hx Hy Hlen HK; [lia|]. cbn [and_fuel].
  pose proof (and_shortcut_spec consistent s xi yi Hx Hy) as Hsc. destruct (and_shortcut xi yi) as [r|]; [by run_pure|].
  destruct Hsc as [Hx0 Hy0]. run_get.
  destruct (cache s !! (xi, yi)) as [r|] eqn:Ec; [run_pure; [done|]; by apply interner_cache|].
  destruct (shared_node_ret s xi Hx Hx0) as (x & Ex & Nx), (shared_node_ret s yi Hy Hy0) as (y & Ey & Ny).
  run_read Ex. run_read Ey.
  destruct (room_below (fun s => s) interner_ok ext s xi yi x y K fuel) as (K' & HK' & Hb); [apply interner_store|done..|].
  run_seq.
  { apply (shannon_runs (fun s => s) interner_ok ext consistent); try done; [apply interner_store|].
    intros a b s' Hs' He Ha Hb'. apply (IH a b s' K'); [done|by eapply valid_ext, Ha|by eapply valid_ext, Hb'|done|].
    destruct Ha as [Va Ha], Hb' as [Vb Hb'].
    intros w [Hw|Hw]; rewrite (support_ext s s') in Hw by done; [apply (Hb a)|apply (Hb b)]; done. }
  intros fc s1 Hs1 E1 Hexp. pose proof Hexp as (_ & Hbel & Hne & _).
  destruct (create_node_spec s1 fc.1 fc.2 (interner_store _ Hs1) Hbel Hne) as (id & s2 & Ecr & Hg & Hm).
  assert (E12 : ext s1 s2) by apply Hg. pose proof (grows_ok s1 s2 Hs1 Hg) as Hs2.
  assert (Hrel : conj_rel consistent s2 xi yi id).
  { refine (expansion_conj (fun s => s) interner_ok ext consistent _ _ s xi yi x y _ _ _ _ _ _ _ fc s1 s2 id _ _ _ _); try done.
    apply interner_store. }
  run_step Ecr; [done|]. destruct Hrel as ((_ & _ & Vid) & Hsup & Hden).
  run_seq; [by apply drop_conflicts_runs|]. intros r s3 Hs3 E3 [Hr Hd].
  assert (Hrel : conj_rel consistent s3 xi yi r).
  { assert (E03 : ext s s3) by (transitivity s1; [done|]; by transitivity s2).
    split; [split; [by apply (valid_ext s)|split; [by apply (valid_ext s)|]]|split].
    - destruct Hr as [->| ->]; [by apply (valid_ext s2)|apply valid_terminal].
    - intros w Hw. destruct Hr as [->| ->]; [|by apply elem_of_nil in Hw].
      rewrite (support_ext s2 s3) in Hw by done. rewrite !(support_ext s s3) by done.
      assert (ext s s2) by (by transitivity s1). rewrite <- !(support_ext s s2) by done. by apply Hsup.
    - intros v Hv HC. assert (ext s s2) by (by transitivity s1).
      rewrite Hd, (den_ext v s2 s3), Hden, !(den_ext v s s3), !(den_ext v s s2) by done. done. }
  exists r, (set_cache s3 (xi, yi) r). split; [done|]. split; [by apply set_cache_ok|]. split; [exact (reflexivity (nodes s3))|]. exact Hrel.
Qed.

(** [InternerGuard::and] *)
Lemma interner_and_runs (x y : NodeId) s : interner_ok s -> valid_id s x -> valid_id s y ->
  runs interner_ok ext (interner_and x y) s (fun r s' => conj_rel consistent s' x y r).
Proof.
  intros Hs Hx Hy. unfold interner_and. run_get.
  destruct (enough_room s x y (interner_store _ Hs) Hx Hy) as (K & HK1 & HK2). by apply (and_fuel_runs _ x y s K).
Qed.

(** [r] is the disjunction of [x] and [y]. *)
Definition disj_rel s (x y r : NodeId) : Prop :=
  (valid_id s x /\ valid_id s y /\ valid_id s r) /\
  (forall w, w ∈ support s r -> w ∈ support s x \/ w ∈ support s y) /\
  forall v, valuation_ok v -> consistent v -> den v s r = den v s x || den v s y.

(** [InternerGuard::or] *)
Lemma interner_or_runs (x y : NodeId) s : interner_ok s -> valid_id s x -> valid_id s y ->
  runs interner_ok ext (interner_or x y) s (fun r s' => disj_rel s' x y r).
Proof.
  intros Hs Hx Hy. unfold interner_or. run_seq; [apply interner_and_runs; [done|by apply valid_not..]|].
  intros r s' Hs' He ((Vx & Vy & Vr) & Hsup & Hd). run_pure; [done|]. split; [by rewrite !valid_not in *|].
  setoid_rewrite support_not in Hsup. split; [by setoid_rewrite support_not|].
  intros v Hv HC. by rewrite den_not, Hd, !den_not, negb_andb, !negb_involutive.
Qed.

(** [InternerGuard::is_disjoint] *)
Lemma is_disjoint_runs (xi yi : NodeId) s : interner_ok s -> valid_id s xi -> valid_id s yi ->
  runs interner_ok ext (is_disjoint xi yi) s (fun d s' => d = true ->
    forall v, valuation_ok v -> consistent v -> den v s' xi && den v s' yi = false).
Proof.
  intros Hs Hx Hy. unfold is_disjoint. pose proof (disjoint_shortcut_spec s xi yi Hx Hy) as Hsc.
  destruct (disjoint_shortcut xi yi) as [d|]; [run_pure; auto|]. destruct Hsc as [Hx0 Hy0].
  run_get.
  destruct (shared_node_ret s xi Hx Hx0) as (x & Ex & Nx), (shared_node_ret s yi Hy Hy0) as (y & Ey & Ny).
  run_read Ex. run_read Ey.
  destruct (_ && _).
  - run_seq; [by apply interner_and_runs|]. intros r s' Hs' He (_ & _ & Hd). run_pure; [done|].
    intros ->%is_false_iff v Hv HC. by rewrite <- Hd.
  - pose proof (interner_store _ Hs) as Hst.
    destruct (enough_room s xi yi Hst Hx Hy) as (K & HK1 & HK2).
    destruct (disjoint_level s xi yi x y (disjointness (enough s) s) Hst Hx Hy Hx0 Hy0 Nx Ny) as (d & Ed & Hd).
    { intros a b Ha Hb. apply (disjointness_spec _ s a b K); [done|apply Ha|apply Hb|done|].
      intros w [Hw|Hw]; [apply HK2, (proj2 Ha w Hw)|apply HK2, (proj2 Hb w Hw)]. }
    apply (runs_lift _ _ _ d); [done|done|]. auto.
Qed.
End conj.
