(* ===== verification/MarkerTree.v ===== *)
(** * Marker trees: the kind of a node and evaluation (tree.rs)

    [MarkerTree] is an identifier of the interner.  [tree_kind] reads its root
    node with the complement pushed to the children; evaluation follows one path,
    [evaluate_extras] asks whether some path with the given extras leads to [true]
    and [evaluate_only_extras] whether all of them do.

    The theorems tie evaluation to the meaning of nodes ([MarkerStore.den]):
    evaluating never panics and never runs out of fuel, and evaluates the
    diagram. *)

From Stdlib Require Import ZArith Lia.
From stdpp Require Import base list gmap.
From S2P Require Import Prelude.
From S2P Require Import VersionRepr.
From S2P Require Import VersionOrder.
From S2P Require Import RangeSet.
From S2P Require Import Stateful.
From S2P Require Import MarkerEdges.
From S2P Require Import MarkerTypes.
From S2P Require Import RangeInstances.
From S2P Require Import MarkerAlgebra.
From S2P Require Import MarkerStore.
From S2P Require Import MarkerOps.
From S2P Require Import MarkerConj.
Open Scope Z_scope.

(** [MarkerTreeKind], with the fields of the [*MarkerTree] structs. *)
Inductive MarkerTreeKindOf (RV RS : Type) :=
| TreeTrue
| TreeFalse
| TreeVersion (id : NodeId) (key : CanonicalMarkerValueVersion) (map : list (RV * NodeId))
| TreeString (id : NodeId) (key : CanonicalMarkerValueString) (map : list (RS * NodeId))
| TreeIn (key : CanonicalMarkerValueString) (value : Str) (high low : NodeId)
| TreeContains (key : CanonicalMarkerValueString) (value : Str) (high low : NodeId)
| TreeList (pair : CanonicalMarkerListPair) (high low : NodeId)
| TreeExtra (name : Str) (high low : NodeId).
Arguments TreeTrue {RV RS}.
Arguments TreeFalse {RV RS}.
Arguments TreeVersion {RV RS} id key map.
Arguments TreeString {RV RS} id key map.
Arguments TreeIn {RV RS} key value high low.
Arguments TreeContains {RV RS} key value high low.
Arguments TreeList {RV RS} pair high low.
Arguments TreeExtra {RV RS} name high low.

(** [VersionMarkerTree::edges] and [StringMarkerTree::children] *)
Definition tree_edges {R} (id : NodeId) (map : list (R * NodeId)) : list (R * NodeId) :=
  List.map (fun e => (fst e, node_negate (snd e) id)) map.

(** [children] and [edge] of the boolean nodes. *)
Definition tree_children (high low : NodeId) : list (bool * NodeId) := [(true, high); (false, low)].
Definition tree_edge (high low : NodeId) (value : bool) : NodeId := if value then high else low.

(** A reported [LexicographicComparison]: the two strings of its message. *)
Definition Warning : Type := Str * Str.

Definition bound_warning (l_string : Str) (b : BoundOf Str) : list Warning :=
  match b with Included value | Excluded value => [(l_string, value)] | Unbounded => [] end.

Section tree.
Context {RV RS : Type} `{!RangeSet Version RV} `{!RangeSet Str RS}.

Abbreviation Edges := (EdgesOf RV RS).
Abbreviation Node := (NodeOf RV RS).
Abbreviation Interner := (InternerOf RV RS).
Abbreviation MarkerTreeKind := (MarkerTreeKindOf RV RS).

(** [MarkerTree::kind] *)
Definition tree_kind (s : Interner) (t : NodeId) : outcome MarkerTreeKind :=
  if node_is_true t then Ret TreeTrue
  else if node_is_false t then Ret TreeFalse
  else
    let! node := shared_node s t in
    match node_var node, children node with
    | VVersion key, EdgesVersion map => Ret (TreeVersion t key map)
    | VString key, EdgesString map => Ret (TreeString t key map)
    | VIn key value, EdgesBoolean high low => Ret (TreeIn key value (node_negate high t) (node_negate low t))
    | VContains key value, EdgesBoolean high low => Ret (TreeContains key value (node_negate high t) (node_negate low t))
    | VList p, EdgesBoolean high low => Ret (TreeList p (node_negate high t) (node_negate low t))
    | VExtra name, EdgesBoolean high low => Ret (TreeExtra name (node_negate high t) (node_negate low t))
    | _, _ => Panic
    end.

(** The subtree for a version; [None] when no range contains it. *)
Fixpoint version_subtree (version : Version) (edges : list (RV * NodeId)) : option NodeId :=
  match edges with
  | [] => None
  | (range, tree) :: rest => if rs_contains range version then Some tree else version_subtree version rest
  end.

(** The warnings of one range of a string node. *)
Definition range_warnings (key : CanonicalMarkerValueString) (l_string : Str) (range : RS) : list Warning :=
  match key with
  | CPlatformRelease | CPlatformVersion =>
      match rs_as_singleton range with
      | Some _ => []
      | None =>
          match rs_bounding_range range with
          | Some (start, end_) => bound_warning l_string start ++ bound_warning l_string end_
          | None => []
          end
      end
  | _ => []
  end.

(** The subtree for a string, and the warnings up to it. *)
Fixpoint string_subtree (key : CanonicalMarkerValueString) (l_string : Str) (edges : list (RS * NodeId)) :
    list Warning * option NodeId :=
  match edges with
  | [] => ([], None)
  | (range, tree) :: rest =>
      let w := range_warnings key l_string range in
      if rs_contains range l_string then (w, Some tree)
      else let '(w', r) := string_subtree key l_string rest in (w ++ w', r)
  end.

(** [MarkerTree::evaluate_reporter_impl] *)
Fixpoint evaluate_reporter_impl (fuel : nat) (s : Interner) (env : MarkerEnvironment) (extras : ExtrasEnvironment)
    (t : NodeId) : outcome (bool * list Warning) :=
  match fuel with
  | O => Panic
  | S fuel =>
      let! kind := tree_kind s t in
      match kind with
      | TreeTrue => Ret (true, [])
      | TreeFalse => Ret (false, [])
      | TreeVersion id key map =>
          match version_subtree (get_version env key) (tree_edges id map) with
          | Some tree => evaluate_reporter_impl fuel s env extras tree
          | None => Ret (false, [])
          end
      | TreeString id key map =>
          let '(w, r) := string_subtree key (get_string env key) (tree_edges id map) in
          match r with
          | Some tree =>
              let! bw := evaluate_reporter_impl fuel s env extras tree in Ret (fst bw, w ++ snd bw)
          | None => Ret (false, w)
          end
      | TreeIn key value high low =>
          evaluate_reporter_impl fuel s env extras (tree_edge high low (str_contains value (get_string env key)))
      | TreeContains key value high low =>
          evaluate_reporter_impl fuel s env extras (tree_edge high low (str_contains (get_string env key) value))
      | TreeExtra name high low =>
          evaluate_reporter_impl fuel s env extras (tree_edge high low (names_contain (env_extra extras) name))
      | TreeList (PairExtras extra) high low =>
          evaluate_reporter_impl fuel s env extras (tree_edge high low (names_contain (env_extras extras) extra))
      | TreeList (PairDependencyGroup group) high low =>
          evaluate_reporter_impl fuel s env extras (tree_edge high low (names_contain (env_dependency_groups extras) group))
      | TreeList (PairArbitrary _ _) _ _ => Ret (false, [])
      end
  end.

Definition evaluate_reporter (s : Interner) (env : MarkerEnvironment) (extras : ExtrasEnvironment) (t : NodeId) : outcome bool :=
  outcome_map fst (evaluate_reporter_impl (S (enough s)) s env extras t).

(** [MarkerTree::evaluate] *)
Definition evaluate (s : Interner) (t : NodeId) (env : MarkerEnvironment) (extras : list Str) : outcome bool :=
  evaluate_reporter s env (EnvExtras extras) t.

(** [MarkerTree::evaluate_pep751] *)
Definition evaluate_pep751 (s : Interner) (t : NodeId) (env : MarkerEnvironment) (extras groups : list Str) : outcome bool :=
  evaluate_reporter s env (EnvPep751 extras groups) t.

(** [any] and [all] over subtrees, with early exit. *)
Fixpoint any_o (f : NodeId -> outcome bool) (l : list NodeId) : outcome bool :=
  match l with
  | [] => Ret false
  | n :: rest => let! d := f n in if d then Ret true else any_o f rest
  end.

(** The subtrees of a kind other than [Extra]. *)
Definition kind_subtrees (k : MarkerTreeKind) : list NodeId :=
  match k with
  | TreeTrue | TreeFalse => []
  | TreeVersion id _ map => List.map snd (tree_edges id map)
  | TreeString id _ map => List.map snd (tree_edges id map)
  | TreeIn _ _ high low | TreeContains _ _ high low | TreeList _ high low | TreeExtra _ high low =>
      List.map snd (tree_children high low)
  end.

(** [MarkerTree::evaluate_extras] *)
Fixpoint evaluate_extras (fuel : nat) (s : Interner) (extras : list Str) (t : NodeId) : outcome bool :=
  match fuel with
  | O => Panic
  | S fuel =>
      let! kind := tree_kind s t in
      match kind with
      | TreeTrue => Ret true
      | TreeFalse => Ret false
      | TreeExtra name high low => evaluate_extras fuel s extras (tree_edge high low (names_contain extras name))
      | k => any_o (evaluate_extras fuel s extras) (kind_subtrees k)
      end
  end.

(** [MarkerTree::evaluate_only_extras] *)
Fixpoint evaluate_only_extras (fuel : nat) (s : Interner) (extras : list Str) (t : NodeId) : outcome bool :=
  match fuel with
  | O => Panic
  | S fuel =>
      let! kind := tree_kind s t in
      match kind with
      | TreeTrue => Ret true
      | TreeFalse => Ret false
      | TreeExtra name high low => evaluate_only_extras fuel s extras (tree_edge high low (names_contain extras name))
      | k => all_o (evaluate_only_extras fuel s extras) (kind_subtrees k)
      end
  end.

(** [MarkerTree::evaluate_optional_environment] *)
Definition evaluate_optional_environment (s : Interner) (t : NodeId) (env : option MarkerEnvironment) (extras : list Str) : outcome bool :=
  match env with
  | None => evaluate_extras (S (enough s)) s extras t
  | Some env => evaluate_reporter s env (EnvExtras extras) t
  end.

(** [MarkerTree::implies] *)
Definition implies (t consequent : NodeId) : M Interner NodeId := interner_or (node_not t) consequent.
End tree.

(** ** The valuation of an environment *)

Definition env_valuation (env : MarkerEnvironment) (extras : ExtrasEnvironment) : Valuation :=
  mkValuation (get_version env) (get_string env) (fun var =>
    match var with
    | VIn key value => str_contains value (get_string env key)
    | VContains key value => str_contains (get_string env key) value
    | VExtra name => names_contain (env_extra extras) name
    | VList (PairExtras extra) => names_contain (env_extras extras) extra
    | VList (PairDependencyGroup group) => names_contain (env_dependency_groups extras) group
    | _ => false
    end).

(** The versions of the environment are well formed (as [environment_try_from]
    makes them). *)
Definition env_ok (env : MarkerEnvironment) : Prop :=
  wf (sv_version (implementation_version env)) = true /\ wf (sv_version (python_full_version env)) = true.

Lemma env_valuation_ok env extras : env_ok env -> valuation_ok (env_valuation env extras).
Proof. by intros [H1 H2] []. Qed.

(** Variables that are not an invalid [extras] or [dependency_groups] expression. *)
Definition proper_var (w : Var) : bool := match w with VList (PairArbitrary _ _) => false | _ => true end.

Section evaluation.
Context {RV RS : Type} `{!RangeSet Version RV} `{!RangeSetLaws Version RV}.
Context `{!RangeSet Str RS} `{!RangeSetLaws Str RS}.

Abbreviation Edges := (EdgesOf RV RS).
Abbreviation Node := (NodeOf RV RS).
Abbreviation Interner := (InternerOf RV RS).
Implicit Types (v : Valuation) (s : Interner) (n : Node) (id c : NodeId).

Lemma version_subtree_child x (l : list (RV * NodeId)) : version_subtree x l = child_at x l.
Proof. unfold child_at. induction l as [|[r c] l IH]; [done|]. cbn. by destruct (rs_contains r x). Qed.

Lemma string_subtree_child key x (l : list (RS * NodeId)) : snd (string_subtree key x l) = child_at x l.
Proof.
  unfold child_at. induction l as [|[r c] l IH]; [done|]. cbn. destruct (rs_contains r x); [done|].
  by destruct (string_subtree key x l).
Qed.

Lemma child_at_tree_edges {T R} `{RangeSet T R} (x : T) (l : list (R * NodeId)) id :
  child_at x (tree_edges id l) = option_map (fun c => node_negate c id) (child_at x l).
Proof. unfold child_at, tree_edges. induction l as [|[r c] l IH]; [done|]. cbn. by destruct (rs_contains r x). Qed.

Lemma tree_edges_snd {R} (l : list (R * NodeId)) id : map snd (tree_edges id l) = map (fun c => node_negate c id) (map snd l).
Proof. unfold tree_edges. by rewrite !map_map. Qed.

(** What [tree_kind] reads. *)
Definition kind_of (t : NodeId) (n : Node) : MarkerTreeKindOf RV RS :=
  match node_var n, children n with
  | VVersion key, EdgesVersion map => TreeVersion t key map
  | VString key, EdgesString map => TreeString t key map
  | VIn key value, EdgesBoolean high low => TreeIn key value (node_negate high t) (node_negate low t)
  | VContains key value, EdgesBoolean high low => TreeContains key value (node_negate high t) (node_negate low t)
  | VList p, EdgesBoolean high low => TreeList p (node_negate high t) (node_negate low t)
  | VExtra name, EdgesBoolean high low => TreeExtra name (node_negate high t) (node_negate low t)
  | _, _ => TreeFalse
  end.

Lemma tree_kind_spec s t : store_ok s -> valid_id s t ->
  (t = node_true /\ tree_kind s t = Ret TreeTrue) \/ (t = node_false /\ tree_kind s t = Ret TreeFalse) \/
  exists n, 0 <= node_index t /\ nodes s !! Z.to_nat (node_index t) = Some n /\ tree_kind s t = Ret (kind_of t n).
Proof.
  intros Hs Ht. unfold tree_kind. destruct (node_is_true t) eqn:Et; [left; by apply is_true_iff in Et|right].
  destruct (node_is_false t) eqn:Ef; [left; by apply is_false_iff in Ef|right].
  assert (H0 : 0 <= node_index t) by (apply non_terminal; [apply Ht|intros ->; done..]).
  destruct (shared_node_ret s t Ht H0) as (n & -> & En). exists n. split; [done|]. split; [done|]. cbn [obind].
  pose proof (node_edges _ _ _ (store_nodes s Hs _ _ En)) as He. unfold kind_of.
  by destruct (node_var n), (children n).
Qed.

(** The subtrees of a node are its children, complemented as it is. *)
Lemma kind_subtrees_spec t n : edges_ok (node_var n) (children n) ->
  kind_subtrees (kind_of t n) = map (fun c => node_negate c t) (edge_nodes (children n)).
Proof.
  intros He. unfold kind_of. destruct (node_var n), (children n); try done; cbn; apply tree_edges_snd.
Qed.

Section at_node.
Context (s : Interner) (t : NodeId) (n : Node).
Hypothesis (s_ok : store_ok s) (t_valid : valid_id s t) (t_index : 0 <= node_index t).
Hypothesis t_node : nodes s !! Z.to_nat (node_index t) = Some n.

(** A subtree is valid and comes before the node. *)
Lemma subtree_before c : c ∈ edge_nodes (children n) ->
  valid_id s (node_negate c t) /\ node_index (node_negate c t) < node_index t /\
  forall w, w ∈ support s (node_negate c t) -> w ∈ support s t.
Proof.
  intros Hc. destruct (node_children _ _ _ (store_nodes s s_ok _ _ t_node) c Hc) as [_ Hlt].
  split; [apply valid_negate; by eapply child_valid|]. rewrite node_index_negate. split; [lia|].
  intros w. rewrite support_negate. intros Hw. apply (support_at s t n s_ok t_valid t_index t_node). right. eauto.
Qed.

Lemma choose_subtree v : valuation_ok v -> exists c, choose v (node_var n) (children n) = Some c /\
  c ∈ edge_nodes (children n) /\ den v s t = den v s (node_negate c t).
Proof. intros Hv. by apply den_at. Qed.
End at_node.

(** The path of a valuation through the diagram meets an invalid [extras] or
    [dependency_groups] expression. *)
Inductive meets_invalid v s : NodeId -> Prop :=
| meets_here t n : 0 <= node_index t -> nodes s !! Z.to_nat (node_index t) = Some n -> proper_var (node_var n) = false -> meets_invalid v s t
| meets_below t n c : 0 <= node_index t -> nodes s !! Z.to_nat (node_index t) = Some n ->
    choose v (node_var n) (children n) = Some c -> meets_invalid v s (node_negate c t) -> meets_invalid v s t.

Lemma meets_support v s t : store_ok s -> valuation_ok v -> valid_id s t -> meets_invalid v s t -> exists w, w ∈ support s t /\ proper_var w = false.
Proof.
  intros Hs Hv Ht H. induction H as [t n H0 En Hp|t n c H0 En Ec _ IH].
  - exists (node_var n). split; [|done]. apply (support_at s t n Hs Ht H0 En). by left.
  - destruct (choose_subtree s t n Hs Ht H0 En v Hv) as (c' & Ec' & Hc & _). rewrite Ec in Ec'. injection Ec' as <-.
    destruct (subtree_before s t n Hs Ht H0 En c Hc) as (Vc & _ & Sc). destruct (IH Vc) as (w & Hw & Hp). eauto.
Qed.

(** Evaluation follows the path of the environment: it is the meaning of the diagram, or
    [false] from an invalid expression on. *)
Lemma evaluate_walk fuel s env extras t : store_ok s -> valid_id s t -> env_ok env -> node_index t + 1 < Z.of_nat fuel ->
  exists b w, evaluate_reporter_impl fuel s env extras t = Ret (b, w) /\
    (meets_invalid (env_valuation env extras) s t -> b = false) /\
    (~ meets_invalid (env_valuation env extras) s t -> b = den (env_valuation env extras) s t).
Proof.
  intros Hs Ht He. pose proof (env_valuation_ok env extras He) as Hv. revert t Ht.
  induction fuel as [|fuel IH]; intros t Ht Hf; [pose proof (node_index_bound t (proj1 Ht)); lia|].
  cbn [evaluate_reporter_impl].
  destruct (tree_kind_spec s t Hs Ht) as [[-> ->]|[[-> ->]|(n & H0 & En & ->)]]; [exists true, []; split; [done|]; split; [|done]; intros Hm; exfalso; by inversion Hm|by exists false, []|]. cbn [obind].
  destruct (choose_subtree s t n Hs Ht H0 En _ Hv) as (c & Ec & Hc & Hd).
  destruct (subtree_before s t n Hs Ht H0 En c Hc) as (Vc & Ic & Sc).
  destruct (IH (node_negate c t) Vc) as (b & w & Hw & Hb1 & Hb2); [lia|]. rewrite <- Hd in Hb2.
  assert (Hgo : proper_var (node_var n) = true -> (meets_invalid (env_valuation env extras) s t -> b = false) /\
    (~ meets_invalid (env_valuation env extras) s t -> b = den (env_valuation env extras) s t)).
  { intros Hp. split; [|intros Hn; apply Hb2; intros Hm; apply Hn; by eapply meets_below]. intros Hm. inversion Hm as [t' n' H1 En' Hp' Et|t' n' c' H1 En' Ec' Hm' Et]; rewrite En in En'; injection En' as <-; [congruence|].
    rewrite Ec in Ec'. injection Ec' as <-. by apply Hb1. }
  pose proof (node_edges _ _ _ (store_nodes s Hs _ _ En)) as Hedges. pose proof (fun Hp => meets_here (env_valuation env extras) s t n H0 En Hp) as Hbad. unfold kind_of.
  destruct (node_var n) as [key|key|key value|key value|name|[extra|group|lk lv]], (children n) as [l|l|high low]; try done.
  all: cbn in Ec.
  - destruct (string_subtree key _ (tree_edges t l)) as [w0 r] eqn:E.
    assert (r = Some (node_negate c t)) as ->.
    { change r with (snd (w0, r)). rewrite <- E, string_subtree_child, child_at_tree_edges. by rewrite Ec. }
    rewrite Hw. cbn [obind]. eexists _, _. split; [reflexivity|by apply Hgo].
  - rewrite version_subtree_child, child_at_tree_edges, Ec. cbn. eexists _, _. split; [exact Hw|by apply Hgo].
  - exists b, w. split; [|by apply Hgo]. rewrite <- Hw. f_equal. injection Ec as <-. unfold tree_edge. by destruct (str_contains _ _).
  - exists b, w. split; [|by apply Hgo]. rewrite <- Hw. f_equal. injection Ec as <-. unfold tree_edge. by destruct (str_contains _ _).
  - exists b, w. split; [|by apply Hgo]. rewrite <- Hw. f_equal. injection Ec as <-. unfold tree_edge. by destruct (names_contain _ _).
  - exists b, w. split; [|by apply Hgo]. rewrite <- Hw. f_equal. injection Ec as <-. unfold tree_edge. by destruct (names_contain _ _).
  - exists b, w. split; [|by apply Hgo]. rewrite <- Hw. f_equal. injection Ec as <-. unfold tree_edge. by destruct (names_contain _ _).
  - exists false, []. split; [done|]. split; [done|]. intros Hn. exfalso. by apply Hn, Hbad.
Qed.

Lemma evaluate_reporter_walk s env extras t : store_ok s -> valid_id s t -> env_ok env ->
  exists b, evaluate_reporter s env extras t = Ret b /\
    (meets_invalid (env_valuation env extras) s t -> b = false) /\
    (~ meets_invalid (env_valuation env extras) s t -> b = den (env_valuation env extras) s t).
Proof.
  intros Hs Ht He. unfold evaluate_reporter.
  destruct (evaluate_walk (Datatypes.S (enough s)) s env extras t Hs Ht He) as (b & w & -> & Hb); [unfold enough; destruct Ht; lia|by exists b].
Qed.

Lemma evaluate_reporter_den s env extras t : store_ok s -> valid_id s t -> env_ok env ->
  (forall w, w ∈ support s t -> proper_var w = true) ->
  evaluate_reporter s env extras t = Ret (den (env_valuation env extras) s t).
Proof.
  intros Hs Ht He Hp. destruct (evaluate_reporter_walk s env extras t Hs Ht He) as (b & -> & _ & Hb). f_equal. apply Hb. intros Hm.
  destruct (meets_support _ s t Hs (env_valuation_ok env extras He) Ht Hm) as (w & Hw & Hf). rewrite Hp in Hf by done. done.
Qed.

(** ** Extras without the environment *)

(** The valuations in which exactly the given extras are active. *)
Definition with_extras (extras : list Str) v : Prop := forall name, val_bool v (VExtra name) = names_contain extras name.

Lemma any_o_spec f (l : list NodeId) (P : NodeId -> Prop) :
  (forall c, c ∈ l -> exists b, f c = Ret b /\ (P c -> b = true)) ->
  exists b, any_o f l = Ret b /\ forall c, c ∈ l -> P c -> b = true.
Proof.
  induction l as [|c l IH]; intros Hf; cbn; [exists false; split; [done|]; by intros c ?%elem_of_nil|].
  destruct (Hf c) as (b & -> & Hb); [by left|]. cbn. destruct b; [by exists true|].
  destruct IH as (b & -> & Hb'); [intros c' Hc; apply Hf; by right|]. exists b. split; [done|].
  intros c' [->|Hc]%elem_of_cons HP; [by apply Hb in HP|by apply (Hb' c')].
Qed.

(** Reading a kind other than [Extra], or an extra's name. *)
Lemma kind_cases t n : edges_ok (node_var n) (children n) ->
  (exists name high low, node_var n = VExtra name /\ children n = EdgesBoolean high low /\
    kind_of t n = TreeExtra name (node_negate high t) (node_negate low t)) \/
  (forall A (a b c : A) (e : Str -> NodeId -> NodeId -> A),
    match kind_of t n with TreeTrue => a | TreeFalse => b | TreeExtra name high low => e name high low | _ => c end = c).
Proof.
  intros He. unfold kind_of. destruct (node_var n), (children n); try done; first [by right|left; by eexists _, _, _].
Qed.

Section extras.
Context (s : Interner) (extras : list Str).
Hypothesis s_ok : store_ok s.

Lemma extra_edge v t n name high low : with_extras extras v -> valuation_ok v -> valid_id s t -> 0 <= node_index t ->
  nodes s !! Z.to_nat (node_index t) = Some n -> node_var n = VExtra name -> children n = EdgesBoolean high low ->
  den v s t = den v s (tree_edge (node_negate high t) (node_negate low t) (names_contain extras name)).
Proof.
  intros Hx Hv Ht H0 En Ev Ec. destruct (choose_subtree s t n s_ok Ht H0 En v Hv) as (c & E & _ & ->).
  rewrite Ev, Ec in E. cbn in E. injection E as <-. rewrite Hx. unfold tree_edge. by destruct (names_contain _ _).
Qed.

Lemma extra_edge_before t n high low b : valid_id s t -> 0 <= node_index t ->
  nodes s !! Z.to_nat (node_index t) = Some n -> children n = EdgesBoolean high low ->
  let c := tree_edge (node_negate high t) (node_negate low t) b in valid_id s c /\ node_index c < node_index t.
Proof.
  intros Ht H0 En Ec. cbv zeta. pose proof (subtree_before s t n s_ok Ht H0 En) as Hb. rewrite Ec in Hb. cbn in Hb.
  unfold tree_edge. destruct b; [destruct (Hb high) as (? & ? & _); [by left|done]|destruct (Hb low) as (? & ? & _); [right; by left|done]].
Qed.

(** [evaluate_extras] does not miss an environment. *)
Lemma evaluate_extras_spec fuel t : valid_id s t -> node_index t + 1 < Z.of_nat fuel ->
  exists b, evaluate_extras fuel s extras t = Ret b /\
    forall v, valuation_ok v -> with_extras extras v -> den v s t = true -> b = true.
Proof.
  revert t. induction fuel as [|fuel IH]; intros t Ht Hf; [pose proof (node_index_bound t (proj1 Ht)); lia|]. cbn [evaluate_extras].
  destruct (tree_kind_spec s t s_ok Ht) as [[-> ->]|[[-> ->]|(n & H0 & En & ->)]]; [by exists true|by exists false|]. cbn [obind].
  pose proof (node_edges _ _ _ (store_nodes s s_ok _ _ En)) as He.
  destruct (kind_cases t n He) as [(name & high & low & Ev & Ec & ->)|Hk].
  - destruct (extra_edge_before t n high low (names_contain extras name) Ht H0 En Ec) as [Vc Ic].
    destruct (IH _ Vc) as (b & Eb & Hb); [lia|]. exists b. split; [done|]. intros v Hv Hx Hd. apply (Hb v Hv Hx).
    by rewrite <- (extra_edge v t n).
  - rewrite Hk, kind_subtrees_spec by done.
    destruct (any_o_spec (evaluate_extras fuel s extras) (map (fun c => node_negate c t) (edge_nodes (children n)))
      (fun c => exists v, valuation_ok v /\ with_extras extras v /\ den v s c = true)) as (b & -> & Hb).
    { intros c (c' & -> & Hc)%elem_of_map. destruct (subtree_before s t n s_ok Ht H0 En c' Hc) as (Vc & Ic & _).
      destruct (IH _ Vc) as (b & Eb & Hb); [lia|]. exists b. split; [done|]. intros (v & ? & ? & ?). eauto. }
    exists b. split; [done|]. intros v Hv Hx Hd. destruct (choose_subtree s t n s_ok Ht H0 En v Hv) as (c & _ & Hc & E).
    apply (Hb (node_negate c t)); [apply elem_of_map; eauto|]. exists v. by rewrite <- E.
Qed.

(** [evaluate_only_extras] holds in every environment. *)
Lemma evaluate_only_extras_spec fuel t : valid_id s t -> node_index t + 1 < Z.of_nat fuel ->
  exists b, evaluate_only_extras fuel s extras t = Ret b /\
    (b = true -> forall v, valuation_ok v -> with_extras extras v -> den v s t = true).
Proof.
  revert t. induction fuel as [|fuel IH]; intros t Ht Hf; [pose proof (node_index_bound t (proj1 Ht)); lia|]. cbn [evaluate_only_extras].
  destruct (tree_kind_spec s t s_ok Ht) as [[-> ->]|[[-> ->]|(n & H0 & En & ->)]]; [by exists true|by exists false|]. cbn [obind].
  pose proof (node_edges _ _ _ (store_nodes s s_ok _ _ En)) as He.
  destruct (kind_cases t n He) as [(name & high & low & Ev & Ec & ->)|Hk].
  - destruct (extra_edge_before t n high low (names_contain extras name) Ht H0 En Ec) as [Vc Ic].
    destruct (IH _ Vc) as (b & Eb & Hb); [lia|]. exists b. split; [done|]. intros -> v Hv Hx.
    rewrite (extra_edge v t n name high low) by done. by apply Hb.
  - rewrite Hk, kind_subtrees_spec by done.
    destruct (all_o_spec (evaluate_only_extras fuel s extras) (map (fun c => node_negate c t) (edge_nodes (children n)))
      (fun c => forall v, valuation_ok v -> with_extras extras v -> den v s c = true)) as (b & -> & Hb).
    { intros c (c' & -> & Hc)%elem_of_map. destruct (subtree_before s t n s_ok Ht H0 En c' Hc) as (Vc & Ic & _).
      destruct (IH _ Vc) as (b & Eb & Hb); [lia|]. eauto. }
    exists b. split; [done|]. intros -> v Hv Hx. destruct (choose_subtree s t n s_ok Ht H0 En v Hv) as (c & _ & Hc & ->).
    apply Hb; [done|apply elem_of_map; eauto|done|done].
Qed.
End extras.

(** ** Markers *)

(** A marker of the interner without invalid expressions. *)
Definition marker s t : Prop := valid_id s t /\ forall w, w ∈ support s t -> proper_var w = true.

(** An environment without a known-incompatible pair of values. *)
Definition possible_env (env : MarkerEnvironment) : Prop := env_ok env /\ consistent (env_valuation env (EnvExtras [])).

Lemma possible_consistent env extras : possible_env env -> consistent (env_valuation env extras).
Proof. by intros [_ H]. Qed.

Lemma marker_ext s s' t : ext s s' -> marker s t -> marker s' t.
Proof. intros He [V P]. split; [by eapply valid_ext|]. intros w. rewrite (support_ext s s') by done. apply P. Qed.

Lemma marker_not s t : marker s (node_not t) <-> marker s t.
Proof. unfold marker. rewrite valid_not. by setoid_rewrite support_not. Qed.

Lemma evaluate_marker s t env extras : store_ok s -> marker s t -> env_ok env ->
  evaluate_reporter s env extras t = Ret (den (env_valuation env extras) s t).
Proof. intros Hs [V P] He. by apply evaluate_reporter_den. Qed.

(** Later states evaluate earlier markers to the same value. *)
Lemma evaluate_ext s s' t env extras : store_ok s -> store_ok s' -> ext s s' -> marker s t -> env_ok env ->
  evaluate_reporter s' env extras t = evaluate_reporter s env extras t.
Proof.
  intros Hs Hs' He Hm Henv. rewrite !evaluate_marker; try done; [|by eapply marker_ext]. f_equal. apply den_ext; [done|apply Hm].
Qed.

(** The marker [r] evaluates to the combination of [x] and [y] in every environment
    that can exist. *)
Definition combines (op : bool -> bool -> bool) s (x y r : NodeId) : Prop :=
  marker s r /\ forall env extras, possible_env env -> exists b b',
    evaluate_reporter s env extras x = Ret b /\ evaluate_reporter s env extras y = Ret b' /\
    evaluate_reporter s env extras r = Ret (op b b').

Lemma combines_den op s (x y r : NodeId) : store_ok s -> marker s x -> marker s y -> valid_id s r ->
  (forall w, w ∈ support s r -> w ∈ support s x \/ w ∈ support s y) ->
  (forall v, valuation_ok v -> consistent v -> den v s r = op (den v s x) (den v s y)) -> combines op s x y r.
Proof.
  intros Hs [Vx Px] [Vy Py] Vr Hsup Hd.
  assert (marker s r) by (split; [done|]; intros w [Hw|Hw]%Hsup; auto). split; [done|].
  intros env extras Henv. exists (den (env_valuation env extras) s x), (den (env_valuation env extras) s y).
  pose proof (proj1 Henv). rewrite !evaluate_marker, Hd by (done || by apply env_valuation_ok || by apply possible_consistent). done.
Qed.

Lemma and_combines s (x y : NodeId) : interner_ok s -> marker s x -> marker s y ->
  runs interner_ok ext (interner_and x y) s (fun r s' => combines andb s' x y r).
Proof.
  intros Hs Hx Hy. run_weaken; [apply interner_and_runs; [done|apply Hx|apply Hy]|].
  intros r s' Hs' He ((Vx & Vy & Vr) & Hsup & Hd). apply combines_den; try done; [apply interner_store, Hs'|by eapply marker_ext..].
Qed.

Lemma or_combines s (x y : NodeId) : interner_ok s -> marker s x -> marker s y ->
  runs interner_ok ext (interner_or x y) s (fun r s' => combines orb s' x y r).
Proof.
  intros Hs Hx Hy. run_weaken; [apply interner_or_runs; [done|apply Hx|apply Hy]|].
  intros r s' Hs' He ((Vx & Vy & Vr) & Hsup & Hd). apply combines_den; try done; [apply interner_store, Hs'|by eapply marker_ext..].
Qed.

Lemma implies_combines s (x y : NodeId) : interner_ok s -> marker s x -> marker s y ->
  runs interner_ok ext (implies x y) s (fun r s' => combines implb s' x y r).
Proof.
  intros Hs Hx Hy. unfold implies. run_weaken; [apply interner_or_runs; [done|apply valid_not, Hx|apply Hy]|].
  intros r s' Hs' He ((Vx & Vy & Vr) & Hsup & Hd). apply combines_den; try done; [apply interner_store, Hs'|by eapply marker_ext|by eapply marker_ext| |].
  - intros w. rewrite <- (support_not s' x). apply Hsup.
  - intros v Hv HC. rewrite Hd, den_not by done. by destruct (den v s' x).
Qed.
End evaluation.
