(* ===== verification/MarkerRestrict.v ===== *)
(** * Restriction and removal of variables (algebra.rs)

    [restrict_by] fixes boolean variables, [restrict] assumes another marker,
    [without_extras] and [only_extras] quantify variables out.  Each operation is
    specified by its meaning: [restrict_by] evaluates the marker with the fixed
    variables overridden, [restrict] agrees with the marker wherever the
    assumption holds, [without_extras] holds when some choice of extras makes the
    marker hold, [only_extras] holds whenever the marker holds. *)

From Stdlib Require Import ZArith Lia.
From stdpp Require Import base list gmap.
From S2P Require Import Prelude.
From S2P Require Import VersionRepr.
From S2P Require Import VersionOrder.
From S2P Require Import RangeSet.
From S2P Require Import Stateful.
From S2P Require Import MarkerEdges.
From S2P Require Import MarkerTypes.
From S2P Require Import RangeInstances.
From S2P Require Import MarkerAlgebra.
From S2P Require Import MarkerStore.
From S2P Require Import MarkerOps.
From S2P Require Import MarkerConj.
Open Scope Z_scope.

(** An operation on the interner beside a memo table of its own. *)
Definition on_interner {S C A} (m : M S A) : M (S * C) A := fun st =>
  match m (fst st) with Ret (a, i) => Ret (a, (i, snd st)) | Panic => Panic end.

(** A table that memoises results by identifier. *)
Definition Memo : Type := gmap Z Z.

Section restrict.
Context {RV RS : Type} `{!RangeSet Version RV} `{!RangeSet Str RS}.

Abbreviation Edges := (EdgesOf RV RS).
Abbreviation Node := (NodeOf RV RS).
Abbreviation Interner := (InternerOf RV RS).

(** [InternerGuard::restrict_by] *)
Fixpoint restrict_by_fuel (fuel : nat) (f : Var -> option bool) (i : NodeId) : M Interner NodeId :=
  match fuel with
  | O => mpanic
  | S fuel =>
      if node_is_true i || node_is_false i then mpure i
      else
        let* s := mget in
        let* node := mlift (shared_node s i) in
        let recurse :=
          let* e := edges_map (children node) i (restrict_by_fuel fuel f) in
          create_node (node_var node) e in
        match children node with
        | EdgesBoolean high low =>
            match f (node_var node) with
            | Some value => restrict_by_fuel fuel f (node_negate (if value then high else low) i)
            | None => recurse
            end
        | _ => recurse
        end
  end.

Definition restrict_by (i : NodeId) (f : Var -> option bool) : M Interner NodeId :=
  let* s := mget in restrict_by_fuel (S (enough s)) f i.

(** [simplify_extras_with_impl] and [simplify_not_extras_with_impl] of tree.rs. *)
Definition simplify_extras_with (t : NodeId) (is_extra : Str -> bool) : M Interner NodeId :=
  restrict_by t (fun var => match var with VExtra name => if is_extra name then Some true else None | _ => None end).

Definition simplify_not_extras_with (t : NodeId) (is_extra : Str -> bool) : M Interner NodeId :=
  restrict_by t (fun var => match var with VExtra name => if is_extra name then Some false else None | _ => None end).

Definition simplify_extras (t : NodeId) (extras : list Str) : M Interner NodeId :=
  simplify_extras_with t (names_contain extras).

(** The loop [for child in nodes { i = or(i, child.negate(parent)) }]. *)
Definition or_children (node : Node) (parent : NodeId) : M Interner NodeId :=
  fold_m (fun i child => interner_or i (node_negate child parent)) node_false (edge_nodes (children node)).

(** [InternerGuard::without_extras_cached] *)
Fixpoint without_extras_cached (fuel : nat) (i : NodeId) : M (Interner * Memo) NodeId :=
  if node_is_true i || node_is_false i then mpure i
  else
    let* st := mget in
    match snd st !! i with
    | Some cached => mpure cached
    | None =>
        match fuel with
        | O => mpanic
        | S fuel =>
            let* node := mlift (shared_node (fst st) i) in
            let* result :=
              match node_var node with
              | VExtra _ =>
                  let* j := on_interner (or_children node i) in
                  if node_is_true j then mpure node_true else without_extras_cached fuel j
              | _ =>
                  let* e := edges_map (children node) i (without_extras_cached fuel) in
                  on_interner (create_node (node_var node) e)
              end in
            let* st' := mget in
            let* _ := mput (fst st', <[i := result]> (snd st')) in
            mpure result
        end
    end.

(** [InternerGuard::without_extras] *)
Definition without_extras (i : NodeId) : M Interner NodeId := fun s =>
  match without_extras_cached (enough s) i (s, ∅) with
  | Ret (r, (s', _)) => Ret (r, s')
  | Panic => Panic
  end.

(** [InternerGuard::only_extras] *)
Fixpoint only_extras_fuel (fuel : nat) (i : NodeId) : M Interner NodeId :=
  if node_is_true i || node_is_false i then mpure i
  else
    match fuel with
    | O => mpanic
    | S fuel =>
        let* s := mget in
        let* node := mlift (shared_node s i) in
        match node_var node with
        | VExtra _ =>
            let* e := edges_map (children node) i (only_extras_fuel fuel) in
            create_node (node_var node) e
        | _ =>
            let* j := or_children node i in
            if node_is_true j then mpure node_true else only_extras_fuel fuel j
        end
    end.

Definition only_extras (i : NodeId) : M Interner NodeId := let* s := mget in only_extras_fuel (enough s) i.

(** ** Assuming a marker *)

(** The answers of [restrict_cached] that need no expansion. *)
Definition restrict_shortcut (value assumption : NodeId) : option NodeId :=
  if node_is_true assumption || (node_is_true value || node_is_false value) then Some value
  else if node_is_false assumption then Some node_false
  else if value =? assumption then Some node_true
  else if value =? node_not assumption then Some node_false
  else None.

(** The closure of the first pass over matching ranges: it remembers the first
    reachable result ([fallback.get_or_insert(result)]). *)
Definition first_pass {S} (rec : NodeId -> NodeId -> M S NodeId) (value assumption : NodeId) : M (S * option NodeId) NodeId :=
  if node_is_false assumption then mpure node_false
  else
    let* result := on_interner (rec value assumption) in
    let* st := mget in
    let* _ := mput (fst st, match snd st with Some f => Some f | None => Some result end) in
    mpure result.

Definition second_pass {S} (rec : NodeId -> NodeId -> M S NodeId) (fallback value assumption : NodeId) : M S NodeId :=
  if node_is_false assumption then mpure fallback else rec value assumption.

(** Running the first pass with an empty [fallback]. *)
Definition find_fallback {S A} (m : M (S * option NodeId) A) : M S (option NodeId) := fun st =>
  match m (st, None) with
  | Ret (_, (st', fallback)) => Ret (fallback, st')
  | Panic => Panic
  end.

(** [InternerGuard::restrict_cached] *)
Fixpoint restrict_cached (fuel : nat) (value assumption : NodeId) : M (Interner * Cache) NodeId :=
  match restrict_shortcut value assumption with
  | Some r => mpure r
  | None =>
      let* st := mget in
      match snd st !! (value, assumption) with
      | Some r => mpure r
      | None =>
          match fuel with
          | O => mpanic
          | S fuel =>
              let* value_node := mlift (shared_node (fst st) value) in
              let* assumption_node := mlift (shared_node (fst st) assumption) in
              let store result : M (Interner * Cache) NodeId :=
                let* st' := mget in
                let* _ := mput (fst st', <[(value, assumption) := result]> (snd st')) in
                mpure result in
              match variable_cmp (node_var value_node) (node_var assumption_node) with
              | Lt =>
                  let* result :=
                    let* e := edges_map (children value_node) value (fun v => restrict_cached fuel v assumption) in
                    on_interner (create_node (node_var value_node) e) in
                  store result
              | Gt =>
                  let* result :=
                    let* quantified := on_interner (or_children assumption_node assumption) in
                    restrict_cached fuel value quantified in
                  store result
              | Eq =>
                  let* fallback := find_fallback
                    (edges_apply (children value_node) value (children assumption_node) assumption
                      (first_pass (restrict_cached fuel))) in
                  match fallback with
                  | None => mpure node_false
                  | Some fallback =>
                      let* result :=
                        let* e := edges_apply (children value_node) value (children assumption_node) assumption
                          (second_pass (restrict_cached fuel) fallback) in
                        on_interner (create_node (node_var value_node) e) in
                      store result
                  end
              end
          end
      end
  end.

(** [InternerGuard::restrict] *)
Definition restrict (value assumption : NodeId) : M Interner NodeId := fun s =>
  match restrict_cached (enough s) value assumption (s, ∅) with
  | Ret (r, (s', _)) => Ret (r, s')
  | Panic => Panic
  end.
End restrict.

(** ** Valuations that agree *)

(** Equal values of a variable. *)
Definition same_value (v v' : Valuation) (w : Var) : Prop :=
  match w with
  | VVersion k => val_version v k = val_version v' k
  | VString k => val_string v k = val_string v' k
  | _ => val_bool v w = val_bool v' w
  end.

Section facts.
Context {RV RS : Type} `{!RangeSet Version RV} `{!RangeSetLaws Version RV}.
Context `{!RangeSet Str RS} `{!RangeSetLaws Str RS}.

Abbreviation Edges := (EdgesOf RV RS).
Abbreviation Node := (NodeOf RV RS).
Abbreviation Interner := (InternerOf RV RS).
Implicit Types (v : Valuation) (s : Interner) (n : Node) (id c r : NodeId).

Lemma choose_same v v' var (e : Edges) : edges_ok var e -> same_value v v' var -> choose v var e = choose v' var e.
Proof. destruct e, var; cbn; try done; by intros _ ->. Qed.

Lemma terminal_test id : 0 <= id ->
  if node_is_true id || node_is_false id then id = node_true \/ id = node_false else 0 <= node_index id.
Proof.
  intros Hid. destruct (node_is_true id) eqn:Et; [left; by apply is_true_iff|].
  destruct (node_is_false id) eqn:Ef; [right; by apply is_false_iff|]. apply non_terminal; [done|intros ->; done..].
Qed.

(** The value of a marker depends on the variables of its support only. *)
Lemma den_support v v' s id : store_ok s -> valid_id s id -> valuation_ok v -> valuation_ok v' ->
  (forall w, w ∈ support s id -> same_value v v' w) -> den v s id = den v' s id.
Proof.
  intros Hs Hid Hv Hv'. remember (Z.to_nat (node_index id + 1)) as k eqn:Hk. revert id Hk Hid.
  induction (lt_wf k) as [k _ IH]. intros id -> Hid Hw. pose proof (terminal_test id (proj1 Hid)) as Ht.
  destruct (_ || _); [by destruct Ht as [->| ->]|]. destruct (shared_node_ret s id Hid Ht) as (n & _ & En).
  destruct (den_at v s id n Hs Hid Ht En Hv) as (c & Ec & Hc & ->), (den_at v' s id n Hs Hid Ht En Hv') as (c' & Ec' & _ & ->).
  pose proof (support_at s id n Hs Hid Ht En) as Hsup.
  rewrite (choose_same v v'), Ec' in Ec by (apply (node_edges _ _ _ (store_nodes s Hs _ _ En)) || apply Hw, Hsup; by left). injection Ec as ->. rewrite !den_negate. f_equal.
  destruct (node_children _ _ _ (store_nodes s Hs _ _ En) c Hc).
  eapply IH; [|done|by eapply child_valid|]; [pose proof (node_index_bound c); lia|].
  intros w Hwc. apply Hw, Hsup. right. eauto.
Qed.

Lemma create_node_runs s var (e : Edges) : interner_ok s -> edges_below s var e -> edge_nodes e <> [] ->
  runs interner_ok ext (create_node var e) s (fun id s' => means s' var e id).
Proof.
  intros Hs Hb Hne. destruct (create_node_spec s var e (interner_store _ Hs) Hb Hne) as (id & s' & E & Hg & Hm).
  exists id, s'. split; [done|]. split; [by eapply grows_ok|]. split; [apply Hg|done].
Qed.

(** The invariant and the extension with a memo table beside the interner. *)
Section beside.
Context {C : Type} (memo_ok : Interner -> C -> Prop).
Hypothesis memo_ext : forall s s' m, ext s s' -> memo_ok s m -> memo_ok s' m.

Definition beside_ok (st : Interner * C) : Prop := interner_ok st.1 /\ memo_ok st.1 st.2.
Definition beside_ext (st st' : Interner * C) : Prop := ext st.1 st'.1.

#[export] Instance beside_ext_preorder : PreOrder beside_ext.
Proof. unfold beside_ext. split; [by intros st|]. intros s1 s2 s3. apply transitivity. Qed.

Lemma on_interner_runs {A} (m : M Interner A) (st : Interner * C) (Q : A -> Interner -> Prop) : beside_ok st ->
  runs interner_ok ext m st.1 Q -> runs beside_ok beside_ext (on_interner m) st (fun a st' => Q a st'.1).
Proof.
  intros [Hs Hm] (a & s' & E & Hs' & He & HQ). exists a, (s', st.2). split; [unfold on_interner; by rewrite E|].
  split; [split; [done|by eapply memo_ext]|done].
Qed.
End beside.

(** ** Rebuilding a node from its children *)

Section rebuild.
Context {S : Type} (interner_of : S -> Interner) (Inv : S -> Prop) (extS : S -> S -> Prop) `{!PreOrder extS}.
Hypothesis Inv_store : forall st, Inv st -> store_ok (interner_of st).
Hypothesis extS_ext : forall st st', extS st st' -> ext (interner_of st) (interner_of st').
Context (create : Var -> Edges -> M S NodeId).
Hypothesis create_runs : forall st var e, Inv st -> edges_below (interner_of st) var e -> edge_nodes e <> [] ->
  runs Inv extS (create var e) st (fun id st' => means (interner_of st') var e id).

Context (Q : S -> NodeId -> NodeId -> Prop).
Hypothesis Q_ext : forall st st' c r, extS st st' -> Q st c r -> Q st' c r.

(** The new node decides on the variable of the old one and leads where the
    children were mapped to. *)
Definition rebuilt (i : NodeId) n st id : Prop :=
  let s := interner_of st in valid_id s id /\
  (forall w, w ∈ support s id -> w = node_var n \/
    exists c r, c ∈ edge_nodes (children n) /\ Q st (node_negate c i) r /\ w ∈ support s r) /\
  forall v, valuation_ok v -> exists c r, choose v (node_var n) (children n) = Some c /\
    Q st (node_negate c i) r /\ den v s id = den v s r.

Lemma rebuild_runs (i : NodeId) n (f : NodeId -> M S NodeId) st : Inv st -> valid_id (interner_of st) i -> 0 <= node_index i ->
  nodes (interner_of st) !! Z.to_nat (node_index i) = Some n ->
  (forall st' c r, extS st st' -> c ∈ edge_nodes (children n) -> Q st' (node_negate c i) r -> valid_id (interner_of st') r /\
    forall w, w ∈ support (interner_of st') r -> var_lt (node_var n) w) ->
  (forall c st', c ∈ edge_nodes (children n) -> Inv st' -> extS st st' ->
    runs Inv extS (f (node_negate c i)) st' (fun r st'' => Q st'' (node_negate c i) r)) ->
  runs Inv extS (let* e := edges_map (children n) i f in create (node_var n) e) st (fun id st' => rebuilt i n st' id).
Proof.
  intros Hst Hi H0 En Hbelow Hf. pose proof (node_edges _ _ _ (store_nodes _ (Inv_store _ Hst) _ _ En)) as He.
  run_seq; [by apply (edges_map_runs Inv extS (children n) (node_var n) i f st Q)|].
  intros e st1 Hst1 E1 (H1 & H2 & H3 & H4).
  run_weaken; [apply create_runs; [done| |done]|].
  - split; [done|]. split; [intros r (c & Hc & HQ)%H3; by eapply Hbelow|intros r w (c & Hc & HQ)%H3; by eapply Hbelow].
  - intros id st2 Hst2 E2 (V & Hw & Hd). pose proof (extS_ext _ _ E2) as X2.
    assert (Hval : forall r, r ∈ edge_nodes e -> valid_id (interner_of st1) r) by (intros r (c & Hc & HQ)%H3; by eapply Hbelow).
    split; [done|]. split.
    + intros w [->|(r & Hr & Hwr)]%Hw; [by left|right]. destruct (H3 r Hr) as (c & Hc & HQ). exists c, r. split; [done|]. split; [by eapply Q_ext|done].
    + intros v Hv. destruct (Hd v Hv) as (r & Er & Hr & E). destruct (H4 v r Hv Er) as (c & Ec & HQ).
      exists c, r. split; [done|]. split; [by eapply Q_ext|done].
Qed.
End rebuild.

(** ** Fixing variables *)

Section restrict_by.
Context (f : Var -> option bool).

(** The valuation with the fixed variables overridden. *)
Definition override v : Valuation :=
  mkValuation (val_version v) (val_string v) (fun w => match f w with Some b => b | None => val_bool v w end).

Definition fixed (w : Var) : bool :=
  match w with VString _ | VVersion _ => false | _ => match f w with Some _ => true | None => false end end.

(** [r] is [c] with the variables fixed. *)
Definition restricts s (c r : NodeId) : Prop := valid_id s c /\ valid_id s r /\
  (forall w, w ∈ support s r -> w ∈ support s c /\ fixed w = false) /\
  forall v, valuation_ok v -> den v s r = den (override v) s c.

Lemma restricts_ext s s' (c r : NodeId) : ext s s' -> restricts s c r -> restricts s' c r.
Proof.
  intros He (V & V' & Hw & Hd). split; [by eapply valid_ext|]. split; [by eapply valid_ext|].
  rewrite !(support_ext s s') by done. split; [done|]. intros v Hv. rewrite !(den_ext _ s s') by done. auto.
Qed.

(** A node whose variable is not fixed. *)
Lemma restricts_rebuilt s0 s (i id : NodeId) n : store_ok s0 -> ext s0 s -> valid_id s0 i -> 0 <= node_index i ->
  nodes s0 !! Z.to_nat (node_index i) = Some n -> fixed (node_var n) = false ->
  rebuilt (fun s => s) restricts i n s id -> restricts s i id.
Proof.
  intros Hs0 He Hi H0 En Hfix (V & Hw & Hd). split; [by eapply valid_ext|]. split; [done|].
  pose proof (support_at s0 i n Hs0 Hi H0 En) as Hsup. split.
  - intros w [->|(c & r & Hc & (_ & _ & HQ & _) & Hwr)]%Hw.
    + split; [|done]. rewrite (support_ext s0 s) by done. apply Hsup. by left.
    + destruct (HQ w Hwr) as [Hwc Hk]. split; [|done]. rewrite (support_ext s0 s) by done. apply Hsup. right. exists c. split; [done|].
      rewrite support_negate in Hwc. rewrite (support_ext s0 s) in Hwc by (done || by eapply child_valid). done.
  - intros v Hv. destruct (Hd v Hv) as (c & r & Ec & (Vc & _ & _ & HQ) & ->). rewrite HQ by done.
    destruct (den_at (override v) s0 i n Hs0 Hi H0 En Hv) as (c' & Ec' & Hc' & E).
    rewrite (den_ext _ s0 s i), E by done.
    assert (choose (override v) (node_var n) (children n) = choose v (node_var n) (children n)) as Ech.
    { pose proof (node_edges _ _ _ (store_nodes s0 Hs0 _ _ En)) as Hed. apply choose_same; [done|].
      unfold fixed in Hfix. destruct (node_var n); try done; cbn; by destruct (f _). }
    rewrite Ech, Ec in Ec'. injection Ec' as <-. apply den_ext; [done|]. apply valid_negate. by eapply child_valid.
Qed.

Lemma restrict_by_runs fuel (i : NodeId) s : interner_ok s -> valid_id s i -> node_index i + 1 < Z.of_nat fuel ->
  runs interner_ok ext (restrict_by_fuel fuel f i) s (fun r s' => restricts s' i r).
Proof.
  revert i s. induction fuel as [|fuel IH]; intros i s Hs Hi Hf; [pose proof (node_index_bound i (proj1 Hi)); lia|].
  cbn [restrict_by_fuel]. pose proof (terminal_test i (proj1 Hi)) as Ht. destruct (_ || _).
  { run_pure; [done|]. destruct (valid_terminal s). destruct Ht as [->| ->]; (split; [done|]; split; [done|]; split; [by intros w ?%elem_of_nil|done]). }
  run_get. destruct (shared_node_ret s i Hi Ht) as (n & Ei & En). run_read Ei.
  pose proof (interner_store _ Hs) as Hst.
  assert (Hbefore : forall c, c ∈ edge_nodes (children n) -> valid_id s (node_negate c i) /\ node_index (node_negate c i) < node_index i).
  { intros c Hc. rewrite valid_negate, node_index_negate. destruct (node_children _ _ _ (store_nodes s Hst _ _ En) c Hc).
    split; [by eapply child_valid|lia]. }
  assert (Hrec : fixed (node_var n) = false -> runs interner_ok ext
    (let* e := edges_map (children n) i (restrict_by_fuel fuel f) in create_node (node_var n) e) s (fun r s' => restricts s' i r)).
  { intros Hfix. run_weaken; [apply (rebuild_runs (fun s => s) interner_ok ext interner_store (fun _ _ He => He) create_node create_node_runs restricts); try done|].
    - intros s1 s2 c r. apply restricts_ext.
    - intros s' c r He Hc (Vc & V & HQ & _). split; [done|]. intros w Hw. destruct (HQ w Hw) as [Hw' _].
      rewrite support_negate, (support_ext s s' c) in Hw' by (done || by eapply child_valid).
      by eapply (support_head s i n Hst Hi Ht En).
    - intros c s' Hc Hs' He. destruct (Hbefore c Hc). apply IH; [done|by eapply valid_ext|lia].
    - intros id s' Hs' He Hr. by eapply (restricts_rebuilt s). }
  pose proof (node_edges _ _ _ (store_nodes s Hst _ _ En)) as Hed.
  destruct (children n) as [l|l|high low] eqn:Ech; [apply Hrec; by destruct (node_var n)..|].
  destruct (f (node_var n)) as [b|] eqn:Ef; [|apply Hrec; unfold fixed; rewrite Ef; by destruct (node_var n)].
  set (child := if b then high else low). assert (Hchild : child ∈ edge_nodes (children n)).
  { rewrite Ech. unfold child. destruct b; [by left|right; by left]. } rewrite Ech in Hchild.
  destruct (Hbefore child Hchild) as [Vc Ic].
  run_weaken; [apply IH; [done|done|lia]|]. intros r s' Hs' He (_ & V & Hw & Hd). split; [by eapply valid_ext|]. split; [done|]. split.
  - intros w Hwr. destruct (Hw w Hwr) as [Hw' ?]. split; [|done]. rewrite (support_ext s s') in Hw' |- * by done.
    apply (support_at s i n Hst Hi Ht En). right. exists child. rewrite support_negate in Hw'. by rewrite Ech.
  - intros v Hv. rewrite Hd, !(den_ext _ s s') by done. destruct (den_at (override v) s i n Hst Hi Ht En Hv) as (c & Ec & _ & ->).
    rewrite Ech in Ec. cbn in Ec. rewrite Ef in Ec. injection Ec as <-. done.
Qed.
End restrict_by.

(** ** Quantifying a variable out *)

(** [j] is the disjunction of the identifiers [l]. *)
Definition disj_of s (l : list NodeId) (j : NodeId) : Prop := valid_id s j /\
  (forall w, w ∈ support s j -> exists c, c ∈ l /\ w ∈ support s c) /\
  forall v, valuation_ok v -> consistent v -> den v s j = existsb (den v s) l.

Lemma disj_of_ext s s' l (j : NodeId) : ext s s' -> (forall c, c ∈ l -> valid_id s c) -> disj_of s l j -> disj_of s' l j.
Proof.
  intros He Hl (V & Hw & Hd). split; [by eapply valid_ext|]. split.
  - intros w. rewrite (support_ext s s') by done. intros (c & Hc & ?)%Hw. exists c. split; [done|]. by rewrite (support_ext s s') by auto.
  - intros v Hv HC. rewrite (den_ext v s s'), Hd by done. clear Hw Hd. induction l as [|c l IH]; [done|]. cbn.
    rewrite IH by (intros; apply Hl; by right). f_equal. symmetry. apply den_ext; [done|]. apply Hl. by left.
Qed.

Lemma or_fold_runs (p : NodeId) l done i s : interner_ok s -> (forall c, c ∈ done ++ map (fun c => node_negate c p) l -> valid_id s c) ->
  disj_of s done i ->
  runs interner_ok ext (fold_m (fun i child => interner_or i (node_negate child p)) i l) s
    (fun j s' => disj_of s' (done ++ map (fun c => node_negate c p) l) j).
Proof.
  revert done i s. induction l as [|c l IH]; intros done i s Hs Hval Hi; cbn [fold_m map].
  { run_pure; [done|]. by rewrite app_nil_r. }
  assert (Vc : valid_id s (node_negate c p)) by (apply Hval, elem_of_app; right; by left).
  run_seq; [apply interner_or_runs; [done|apply Hi|done]|]. intros j s1 Hs1 E1 ((_ & _ & Vj) & Hw & Hd).
  assert (Hi1 : disj_of s1 done i) by (apply (disj_of_ext s); [done| |done]; intros x Hx; apply Hval, elem_of_app; by left).
  replace (done ++ node_negate c p :: map (fun c => node_negate c p) l)
    with ((done ++ [node_negate c p]) ++ map (fun c => node_negate c p) l) by (by rewrite <- app_assoc).
  apply IH; [done| |].
  - intros x Hx. apply (valid_ext s); [done|]. apply Hval. by rewrite <- app_assoc in Hx.
  - destruct Hi1 as (_ & Hwi & Hdi). split; [done|]. split.
    + intros w [(x & Hx & ?)%Hwi|Hx]%Hw; [exists x; split; [apply elem_of_app; by left|done]|].
      exists (node_negate c p). split; [apply elem_of_app; right; by left|done].
    + intros v Hv HC. rewrite Hd, Hdi, existsb_app by done. cbn. by rewrite orb_false_r.
Qed.

Lemma or_children_runs s (i : NodeId) n : interner_ok s -> valid_id s i -> 0 <= node_index i ->
  nodes s !! Z.to_nat (node_index i) = Some n ->
  runs interner_ok ext (or_children n i) s
    (fun j s' => disj_of s' (map (fun c => node_negate c i) (edge_nodes (children n))) j).
Proof.
  intros Hs Hi H0 En. unfold or_children.
  run_weaken; [apply (or_fold_runs i (edge_nodes (children n)) [] node_false); [done| |]|done].
  - intros c (c' & -> & Hc)%elem_of_map. apply valid_negate. eapply child_valid; [apply interner_store, Hs|done|done].
  - split; [apply valid_terminal|]. split; [by intros w ?%elem_of_nil|done].
Qed.

(** The variables of the disjunction of the children are larger. *)
Lemma disj_support s s' (i j : NodeId) n : store_ok s -> ext s s' -> valid_id s i -> 0 <= node_index i ->
  nodes s !! Z.to_nat (node_index i) = Some n ->
  disj_of s' (map (fun c => node_negate c i) (edge_nodes (children n))) j ->
  forall w, w ∈ support s' j -> w ∈ support s i /\ var_lt (node_var n) w.
Proof.
  intros Hs He Hi H0 En (_ & Hw & _) w (c & (c' & -> & Hc)%elem_of_map & Hwc)%Hw.
  rewrite support_negate, (support_ext s s') in Hwc by (done || by eapply child_valid).
  by eapply (support_head s i n Hs Hi H0 En).
Qed.

(** ** Removing the extras *)

Definition is_extra_var (w : Var) : bool := match w with VExtra _ => true | _ => false end.

(** Valuations that differ in the extras only. *)
Definition but_extras v v' : Prop := forall w, is_extra_var w = false -> same_value v v' w.

Lemma but_extras_consistent v v' : but_extras v v' -> consistent v -> consistent v'.
Proof.
  intros H. unfold consistent. rewrite !forallb_forall. intros HC p Hp. specialize (HC p Hp). unfold has_value in *.
  by rewrite <- !(H (VString _) eq_refl : val_string v _ = val_string v' _).
Qed.

Lemma but_extras_ok v v' : but_extras v v' -> valuation_ok v -> valuation_ok v'.
Proof. intros H Hv k. rewrite <- (H (VVersion k) eq_refl : val_version v k = val_version v' k). apply Hv. Qed.

(** [r] holds when some choice of the extras makes [i] hold. *)
Definition without s (i r : NodeId) : Prop := valid_id s i /\ valid_id s r /\
  (forall w, w ∈ support s r -> w ∈ support s i /\ is_extra_var w = false) /\
  forall v, valuation_ok v -> consistent v -> den v s r = true <-> exists v', but_extras v v' /\ den v' s i = true.

Lemma without_ext s s' (i r : NodeId) : ext s s' -> without s i r -> without s' i r.
Proof.
  intros He (V & V' & Hw & Hd). split; [by eapply valid_ext|]. split; [by eapply valid_ext|].
  rewrite !(support_ext s s') by done. split; [done|]. intros v Hv HC. rewrite (den_ext v s s'), Hd by done.
  by setoid_rewrite (den_ext _ s s' i He V).
Qed.

(** A node that does not decide on an extra. *)
Lemma without_rebuilt s0 (st : Interner * Memo) (i id : NodeId) n : store_ok s0 -> ext s0 st.1 -> valid_id s0 i -> 0 <= node_index i ->
  nodes s0 !! Z.to_nat (node_index i) = Some n -> is_extra_var (node_var n) = false ->
  rebuilt fst (fun st => without st.1) i n st id -> without st.1 i id.
Proof.
  intros Hs0 He Hi H0 En Hx (V & Hw & Hd). split; [by eapply valid_ext|]. split; [done|].
  pose proof (support_at s0 i n Hs0 Hi H0 En) as Hsup. split.
  - intros w [->|(c & r & Hc & (_ & _ & HQ & _) & Hwr)]%Hw.
    + split; [|done]. rewrite (support_ext s0 st.1) by done. apply Hsup. by left.
    + destruct (HQ w Hwr) as [Hwc Hk]. split; [|done]. rewrite (support_ext s0 st.1) by done. apply Hsup. right. exists c. split; [done|].
      rewrite support_negate in Hwc. rewrite (support_ext s0 st.1) in Hwc by (done || by eapply child_valid). done.
  - intros v Hv HC. destruct (Hd v Hv) as (c & r & Ec & (Vc & _ & _ & HQ) & ->). rewrite HQ by done.
    assert (Hsame : forall v', but_extras v v' -> den v' st.1 i = den v' st.1 (node_negate c i)).
    { intros v' Hb. destruct (den_at v' s0 i n Hs0 Hi H0 En (but_extras_ok v v' Hb Hv)) as (c' & Ec' & Hc' & E).
      rewrite <- (choose_same v v'), Ec in Ec' by (apply (node_edges _ _ _ (store_nodes s0 Hs0 _ _ En)) || by apply Hb).
      injection Ec' as <-. rewrite (den_ext _ s0 st.1 i), E by done. symmetry. apply den_ext; [done|]. apply valid_negate. by eapply child_valid. }
    split; intros (v' & Hb & Hv'); exists v'; (split; [done|]); [by rewrite Hsame|by rewrite <- Hsame].
Qed.

(** The valuation with one extra set. *)
Definition set_extra v name (b : bool) : Valuation :=
  mkValuation (val_version v) (val_string v) (fun w => match w with VExtra e => if bytes_eqb e name then b else val_bool v w | _ => val_bool v w end).

Lemma set_extra_but v name b : but_extras v (set_extra v name b).
Proof. by intros [] ?. Qed.

Lemma but_extras_trans v1 v2 v3 : but_extras v1 v2 -> but_extras v2 v3 -> but_extras v1 v3.
Proof. intros H1 H2 w Hw. specialize (H1 w Hw). specialize (H2 w Hw). destruct w; cbn in *; congruence. Qed.

(** Quantifying one extra out. *)
Lemma extra_quantified s s' (i j : NodeId) n name : store_ok s -> store_ok s' -> ext s s' -> valid_id s i -> 0 <= node_index i ->
  nodes s !! Z.to_nat (node_index i) = Some n -> node_var n = VExtra name ->
  disj_of s' (map (fun c => node_negate c i) (edge_nodes (children n))) j ->
  forall v, valuation_ok v -> consistent v ->
    (exists v', but_extras v v' /\ den v' s' j = true) <-> exists v', but_extras v v' /\ den v' s' i = true.
Proof.
  intros Hs Hs' He Hi H0 En Ev Hj v Hv HC. pose proof (node_edges _ _ _ (store_nodes s Hs _ _ En)) as Hed.
  rewrite Ev in Hed. destruct (children n) as [l|l|high low] eqn:Ech; [done..|].
  assert (Hval : forall c, c ∈ edge_nodes (children n) -> valid_id s (node_negate c i)) by (intros; apply valid_negate; by eapply child_valid).
  rewrite Ech in Hval. assert (Hat : forall v', valuation_ok v' ->
    den v' s' i = den v' s' (node_negate (if val_bool v' (VExtra name) then high else low) i)).
  { intros v' Hv'. destruct (den_at v' s i n Hs Hi H0 En Hv') as (c & Ec & _ & E). rewrite Ev, Ech in Ec. injection Ec as <-.
    rewrite (den_ext _ s s' i), E by done. symmetry. apply den_ext; [done|]. apply Hval. cbn.
    destruct (val_bool v' _); [by left|right; by left]. }
  destruct Hj as (Vj & _ & Hd). split; intros (v' & Hb & Hv'); pose proof (but_extras_ok _ _ Hb Hv) as Hok.
  - rewrite Hd in Hv' by (done || by eapply but_extras_consistent). apply existsb_exists in Hv' as (c & Hc & Hdc).
    assert (exists b, c = node_negate (if b : bool then high else low) i) as (b & ->).
    { cbn in Hc. destruct Hc as [<-|[<-|[]]]; [by exists true|by exists false]. }
    exists (set_extra v' name b). split; [by eapply but_extras_trans, set_extra_but|]. rewrite Hat by done. cbn.
    unfold bytes_eqb. rewrite (ord_refl (list_cmp Z.compare)). rewrite <- Hdc. apply den_support; try done.
    + apply (valid_ext s); [done|]. apply Hval. cbn. destruct b; [by left|right; by left].
    + intros w. rewrite support_negate, (support_ext s s') by (done || by rewrite <- (valid_negate _ _ i); apply Hval; cbn; destruct b; [by left|right; by left]).
      intros Hw. destruct (support_head s i n Hs Hi H0 En) as (_ & _ & Hch). rewrite Ech in Hch.
      destruct (Hch (if b then high else low)) with (w := w) as [_ Hlt]; [cbn; destruct b; [by left|right; by left]|done|].
      rewrite Ev in Hlt. destruct w as [| | | |e|]; try done. cbn. destruct (bytes_eqb e name) eqn:Ee; [|done].
      apply bytes_eqb_eq in Ee as ->.
      unfold var_lt in Hlt. by rewrite (ord_refl variable_cmp) in Hlt.
  - exists v'. split; [done|]. rewrite Hd by (done || by eapply but_extras_consistent). apply existsb_exists.
    rewrite Hat in Hv' by done. eexists. split; [|exact Hv']. cbn. destruct (val_bool v' _); auto.
Qed.

Definition memo_without s (m : Memo) : Prop := forall i r, m !! i = Some r -> without s i r.

Lemma memo_without_ext s s' m : ext s s' -> memo_without s m -> memo_without s' m.
Proof. intros He H i r E. eapply without_ext; [done|]. by apply H. Qed.

Lemma memo_insert_Some (m : Memo) (i a r r' : NodeId) : (<[i := r]> m : Memo) !! a = Some r' ->
  a = i /\ r' = r \/ m !! a = Some r'.
Proof. intros E. apply (lookup_insert_Some (M := gmap Z)) in E as [[-> ->]|[_ E]]; [by left|by right]. Qed.

Abbreviation WOk := (beside_ok memo_without).
Abbreviation WExt := (beside_ext (C := Memo)).

Lemma without_terminal s (i : NodeId) : i = node_true \/ i = node_false -> without s i i.
Proof.
  intros Hi. destruct (valid_terminal s) as [VT VF]. split; [by destruct Hi as [->| ->]|]. split; [by destruct Hi as [->| ->]|].
  split; [intros w Hw; destruct Hi as [->| ->]; by apply elem_of_nil in Hw|]. intros v Hv HC. split.
  - intros Hd. exists v. split; [by intros []|done].
  - intros (v' & _ & Hd). by destruct Hi as [->| ->].
Qed.

Lemma without_extras_runs fuel (i : NodeId) (st : Interner * Memo) K : WOk st -> valid_id st.1 i ->
  (length K < fuel)%nat -> (forall w, w ∈ support st.1 i -> w ∈ K) ->
  runs WOk WExt (without_extras_cached fuel i) st (fun r st' => without st'.1 i r).
Proof.
  revert i st K. induction fuel as [|fuel IH]; intros i st K Hst Hi Hlen HK; [lia|]. cbn [without_extras_cached].
  pose proof (terminal_test i (proj1 Hi)) as Ht. destruct (_ || _); [run_pure; [done|by apply without_terminal]|].
  run_get. destruct (st.2 !! i) as [r|] eqn:Ec; [run_pure; [done|]; by apply Hst|].
  destruct (shared_node_ret st.1 i Hi Ht) as (n & Ei & En). run_read Ei.
  pose proof (interner_store _ (proj1 Hst)) as Hs. destruct (support_head st.1 i n Hs Hi Ht En) as (Hroot & _ & Hch).
  set (K' := larger (node_var n) K).
  assert (HK' : (length K' < fuel)%nat) by (pose proof (larger_length _ _ (HK _ Hroot)); unfold K'; lia).
  run_seq; [instantiate (1 := fun r st' => without st'.1 i r)|].
  2: { intros r st1 [H1 H2] _ Hr. exists r, (st1.1, <[i := r]> st1.2). split; [done|]. split; [|split; [exact (reflexivity (nodes st1.1))|done]]. split; [done|].
       intros a r' [(-> & ->)|E]%memo_insert_Some; [done|by apply H2]. }
  assert (Hother : is_extra_var (node_var n) = false -> runs WOk WExt
    (let* e := edges_map (children n) i (without_extras_cached fuel) in on_interner (create_node (node_var n) e)) st
    (fun r st' => without st'.1 i r)).
  { intros Hx. run_weaken; [apply (rebuild_runs fst WOk WExt (fun st H => interner_store _ (proj1 H)) (fun _ _ He => He)
      (fun var e => on_interner (create_node var e))) with (Q := fun st c r => without st.1 c r); try done|].
    - intros st' var e Hst' Hb Hne. apply (on_interner_runs memo_without memo_without_ext _ st' (fun id s' => means s' var e id)); [done|].
      apply create_node_runs; [apply Hst'|done|done].
    - intros st1 st2 c r He. by apply without_ext.
    - intros st' c r He Hc (_ & V & Hw & _). split; [done|]. intros w [Hw' _]%Hw.
      rewrite support_negate, (support_ext st.1 st'.1) in Hw' by (done || by eapply child_valid). by apply (Hch c).
    - intros c st' Hc Hst' He. assert (valid_id st.1 c) by (by eapply child_valid).
      apply (IH _ _ K'); [done|apply valid_negate; by apply (valid_ext st.1)|done|].
      intros w. rewrite support_negate, (support_ext st.1 st'.1) by done. intros Hw. destruct (Hch c Hc w Hw) as [Hin Hlt].
      apply larger_elem. auto.
    - intros id st' Hst' He Hr. by eapply (without_rebuilt st.1). }
  destruct (node_var n) as [| | | |name|] eqn:Ev; try by apply Hother.
  run_seq; [apply (on_interner_runs memo_without memo_without_ext _ st
    (fun j s' => disj_of s' (map (fun c => node_negate c i) (edge_nodes (children n))) j)); [done|]; by apply or_children_runs; [apply Hst|..]|].
  intros j st1 Hst1 E1 Hj. cbn in Hj. pose proof (disj_support st.1 st1.1 i j n Hs E1 Hi Ht En Hj) as Hjs.
  pose proof (extra_quantified st.1 st1.1 i j n name Hs (interner_store _ (proj1 Hst1)) E1 Hi Ht En Ev Hj) as Hq.
  assert (Hfin : forall r (st2 : Interner * Memo), WExt st1 st2 -> without st2.1 j r -> without st2.1 i r).
  { intros r st2 E2 (Vj & Vr & Hw & Hd). assert (E02 : ext st.1 st2.1) by (transitivity st1.1; done).
    split; [by apply (valid_ext st.1)|]. split; [done|]. split.
    - intros w [Hwj Hx]%Hw. split; [|done]. rewrite (support_ext st1.1 st2.1) in Hwj by (done || apply Hj).
      rewrite (support_ext st.1 st2.1) by done. by apply Hjs.
    - intros v Hv HC. rewrite Hd by done. setoid_rewrite (den_ext _ st1.1 st2.1 j E2 (proj1 Hj)). rewrite Hq by done.
      assert (V1 : valid_id st1.1 i) by (by apply (valid_ext st.1)). by setoid_rewrite (den_ext _ st1.1 st2.1 i E2 V1). }
  destruct (node_is_true j) eqn:Ej.
  - apply is_true_iff in Ej as ->. run_pure; [done|]. apply Hfin; [done|]. apply without_terminal. by left.
  - run_weaken; [apply (IH j st1 K'); [done|apply Hj|done|]|].
    + intros w [Hw Hlt]%Hjs. apply larger_elem. rewrite <- Ev. auto.
    + intros r st2 _ E2 Hr. by apply Hfin.
Qed.

Lemma without_extras_spec s (i : NodeId) : interner_ok s -> valid_id s i ->
  runs interner_ok ext (without_extras i) s (fun r s' => without s' i r).
Proof.
  intros Hs Hi. destruct (enough_room s i i (interner_store _ Hs) Hi Hi) as (K & HK1 & HK2).
  destruct (without_extras_runs (enough s) i (s, ∅) K) as (r & [s' m] & E & [H1 _] & H2 & H3); [|done|done|auto|].
  { split; [done|]. intros a b Eb. cbn in Eb. by apply (lookup_empty_Some (M := gmap Z)) in Eb. }
  exists r, s'. split; [unfold without_extras; by rewrite E|done].
Qed.

(** ** Keeping the extras only *)

Definition same_extras v v' : Prop := forall w, is_extra_var w = true -> same_value v v' w.

(** [r] decides on extras only and holds whenever [i] does. *)
Definition only s (i r : NodeId) : Prop := valid_id s i /\ valid_id s r /\
  (forall w, w ∈ support s r -> w ∈ support s i /\ is_extra_var w = true) /\
  forall v v', valuation_ok v -> valuation_ok v' -> consistent v' -> same_extras v v' -> den v' s i = true -> den v s r = true.

Lemma only_ext s s' (i r : NodeId) : ext s s' -> only s i r -> only s' i r.
Proof.
  intros He (V & V' & Hw & Hd). split; [by eapply valid_ext|]. split; [by eapply valid_ext|].
  rewrite !(support_ext s s') by done. split; [done|]. intros v v' Hv Hv' HC Hx. rewrite !(den_ext _ s s') by done. eauto.
Qed.

Lemma only_terminal s (i : NodeId) : i = node_true \/ i = node_false -> only s i i.
Proof.
  intros Hi. destruct (valid_terminal s) as [VT VF]. split; [by destruct Hi as [->| ->]|]. split; [by destruct Hi as [->| ->]|].
  split; [intros w Hw; destruct Hi as [->| ->]; by apply elem_of_nil in Hw|]. by destruct Hi as [->| ->].
Qed.

Lemma only_rebuilt s0 s (i id : NodeId) n : store_ok s0 -> ext s0 s -> valid_id s0 i -> 0 <= node_index i ->
  nodes s0 !! Z.to_nat (node_index i) = Some n -> is_extra_var (node_var n) = true ->
  rebuilt (fun s => s) only i n s id -> only s i id.
Proof.
  intros Hs0 He Hi H0 En Hx (V & Hw & Hd). split; [by eapply valid_ext|]. split; [done|].
  pose proof (support_at s0 i n Hs0 Hi H0 En) as Hsup. split.
  - intros w [->|(c & r & Hc & (_ & _ & HQ & _) & Hwr)]%Hw.
    + split; [|done]. rewrite (support_ext s0 s) by done. apply Hsup. by left.
    + destruct (HQ w Hwr) as [Hwc Hk]. split; [|done]. rewrite (support_ext s0 s) by done. apply Hsup. right. exists c. split; [done|].
      rewrite support_negate in Hwc. rewrite (support_ext s0 s) in Hwc by (done || by eapply child_valid). done.
  - intros v v' Hv Hv' HC Hsame. destruct (Hd v Hv) as (c & r & Ec & (Vc & _ & _ & HQ) & ->).
    destruct (den_at v' s0 i n Hs0 Hi H0 En Hv') as (c' & Ec' & Hc' & E).
    rewrite <- (choose_same v v'), Ec in Ec' by (apply (node_edges _ _ _ (store_nodes s0 Hs0 _ _ En)) || by apply Hsame).
    injection Ec' as <-. rewrite (den_ext _ s0 s i), E by done. intros Hd'. apply (HQ v v' Hv Hv' HC Hsame).
    rewrite <- Hd'. apply den_ext; [done|]. apply valid_negate. by eapply child_valid.
Qed.

Lemma only_extras_runs fuel (i : NodeId) s K : interner_ok s -> valid_id s i ->
  (length K < fuel)%nat -> (forall w, w ∈ support s i -> w ∈ K) ->
  runs interner_ok ext (only_extras_fuel fuel i) s (fun r s' => only s' i r).
Proof.
  revert i s K. induction fuel as [|fuel IH]; intros i s K Hok Hi Hlen HK; [lia|]. cbn [only_extras_fuel].
  pose proof (terminal_test i (proj1 Hi)) as Ht. destruct (_ || _); [run_pure; [done|by apply only_terminal]|].
  run_get. destruct (shared_node_ret s i Hi Ht) as (n & Ei & En). run_read Ei.
  pose proof (interner_store _ Hok) as Hs. destruct (support_head s i n Hs Hi Ht En) as (Hroot & _ & Hch).
  set (K' := larger (node_var n) K).
  assert (HK' : (length K' < fuel)%nat) by (pose proof (larger_length _ _ (HK _ Hroot)); unfold K'; lia).
  assert (Hother : runs interner_ok ext
    (let* j := or_children n i in if node_is_true j then mpure node_true else only_extras_fuel fuel j) s (fun r s' => only s' i r)).
  { run_seq; [by apply or_children_runs|]. intros j s1 Hs1 E1 Hj. pose proof (disj_support s s1 i j n Hs E1 Hi Ht En Hj) as Hjs.
    assert (Hfin : forall r s2, ext s1 s2 -> only s2 j r -> only s2 i r).
    { intros r s2 E2 (Vj & Vr & Hw & Hd). assert (E02 : ext s s2) by (by transitivity s1).
      split; [by apply (valid_ext s)|]. split; [done|]. split.
      - intros w [Hwj Hx]%Hw. split; [|done]. rewrite (support_ext s1 s2) in Hwj by (done || apply Hj).
        rewrite (support_ext s s2) by done. by apply Hjs.
      - intros v v' Hv Hv' HC Hsame Hdi. apply (Hd v v' Hv Hv' HC Hsame). rewrite (den_ext _ s1 s2) by (done || apply Hj).
        destruct Hj as (_ & _ & ->); [|done|done]. apply existsb_exists.
        destruct (den_at v' s i n Hs Hi Ht En Hv') as (c & _ & Hc & E). exists (node_negate c i).
        split; [apply (in_map (fun c => node_negate c i)); by apply list_elem_of_In|]. rewrite (den_ext _ s s2), E in Hdi by done. rewrite <- Hdi.
        apply den_ext; [done|]. apply valid_negate. by eapply child_valid. }
    destruct (node_is_true j) eqn:Ej.
    - apply is_true_iff in Ej as ->. run_pure; [done|]. apply Hfin; [done|]. apply only_terminal. by left.
    - run_weaken; [apply (IH j s1 K'); [done|apply Hj|done|]|].
      + intros w [Hw Hlt]%Hjs. apply larger_elem. auto.
      + intros r s2 _ E2 Hr. by apply Hfin. }
  destruct (node_var n) as [| | | |name|] eqn:Ev; try exact Hother. clear Hother. rewrite <- Ev.
  run_weaken; [apply (rebuild_runs (fun s => s) interner_ok ext interner_store (fun _ _ He => He) create_node create_node_runs only); try done|].
  - apply only_ext.
  - intros s' c r He Hc (_ & V & Hw & _). split; [done|]. intros w [Hw' _]%Hw.
    rewrite support_negate, (support_ext s s') in Hw' by (done || by eapply child_valid). rewrite Ev. by apply (Hch c).
  - intros c s' Hc Hs' He. assert (valid_id s c) by (by eapply child_valid).
    apply (IH _ _ K'); [done|apply valid_negate; by apply (valid_ext s)|done|].
    intros w. rewrite support_negate, (support_ext s s') by done. intros Hw. destruct (Hch c Hc w Hw) as [Hin Hlt].
    apply larger_elem. auto.
  - intros id s' Hs' He Hr. eapply (only_rebuilt s); try done. by rewrite Ev.
Qed.

Lemma only_extras_spec s (i : NodeId) : interner_ok s -> valid_id s i ->
  runs interner_ok ext (only_extras i) s (fun r s' => only s' i r).
Proof.
  intros Hs Hi. unfold only_extras. run_get. destruct (enough_room s i i (interner_store _ Hs) Hi Hi) as (K & HK1 & HK2).
  apply (only_extras_runs _ i s K); auto.
Qed.

(** ** Assuming a marker *)

(** [r] agrees with [x] wherever [y] holds. *)
Definition assumes s (x y r : NodeId) : Prop := (valid_id s x /\ valid_id s y /\ valid_id s r) /\
  (forall w, w ∈ support s r -> w ∈ support s x \/ w ∈ support s y) /\
  forall v, valuation_ok v -> consistent v -> den v s y = true -> den v s r = den v s x.

Lemma assumes_ext s s' (x y r : NodeId) : ext s s' -> assumes s x y r -> assumes s' x y r.
Proof.
  intros He ((Vx & Vy & Vr) & Hw & Hd). split; [by repeat split; try eapply valid_ext; eauto|].
  rewrite !(support_ext s s') by done. split; [done|]. intros v Hv HC. rewrite !(den_ext v s s') by done. auto.
Qed.

Lemma restrict_shortcut_spec s (x y : NodeId) : valid_id s x -> valid_id s y ->
  match restrict_shortcut x y with
  | Some r => assumes s x y r
  | None => 0 <= node_index x /\ 0 <= node_index y
  end.
Proof.
  intros Hx Hy. unfold restrict_shortcut. destruct (valid_terminal s) as [VT VF].
  destruct (node_is_true y || _) eqn:E1; [split; [done|]; split; [by left|done]|].
  apply orb_false_iff in E1 as [Ty [Tx Fx]%orb_false_iff].
  destruct (node_is_false y) eqn:Fy.
  { apply is_false_iff in Fy as ->. split; [done|]. split; [by intros w ?%elem_of_nil|done]. }
  destruct (Z.eqb_spec x y) as [->|Hxy].
  { split; [done|]. split; [by intros w ?%elem_of_nil|]. intros v _ _ ->. done. }
  destruct (Z.eqb_spec x (node_not y)) as [->|Hn].
  { split; [done|]. split; [by intros w ?%elem_of_nil|]. intros v _ _. rewrite den_not. by intros ->. }
  split; apply non_terminal; try apply Hx; try apply Hy; intros ->; done.
Qed.

Definition memo_assumes s (m : Cache) : Prop := forall x y r, m !! (x, y) = Some r -> assumes s x y r.

Lemma memo_assumes_ext s s' m : ext s s' -> memo_assumes s m -> memo_assumes s' m.
Proof. intros He H x y r E. eapply assumes_ext; [done|]. by apply H. Qed.

Abbreviation AOk := (beside_ok memo_assumes).
Abbreviation AExt := (beside_ext (C := Cache)).

(** Storing a result. *)
Lemma assumes_store (x y r : NodeId) st : AOk st -> assumes st.1 x y r ->
  runs AOk AExt (let* st' := mget in let* _ := mput (fst st', <[(x, y) := r]> (snd st')) in mpure r) st
    (fun r' st' => assumes st'.1 x y r').
Proof.
  intros [H1 H2] Hr. exists r, (st.1, <[(x, y) := r]> st.2). split; [done|]. split; [|split; [exact (reflexivity (nodes st.1))|done]].
  split; [done|]. intros a b r' [(-> & -> & ->)|E]%cache_insert_Some; [done|by apply H2].
Qed.

Section expansion.
Context (st : Interner * Cache) (xi yi : NodeId) (x y : Node) (rec : NodeId -> NodeId -> M (Interner * Cache) NodeId).
Hypothesis st_ok : AOk st.
Hypothesis (x_valid : valid_id st.1 xi) (y_valid : valid_id st.1 yi) (x_index : 0 <= node_index xi) (y_index : 0 <= node_index yi).
Hypothesis x_node : nodes st.1 !! Z.to_nat (node_index xi) = Some x.
Hypothesis y_node : nodes st.1 !! Z.to_nat (node_index yi) = Some y.

(** An identifier that depends on larger variables of the two markers. *)
Definition lies (st' : Interner * Cache) r : Prop := valid_id st'.1 r /\
  forall w, w ∈ support st'.1 r -> (w ∈ support st.1 xi \/ w ∈ support st.1 yi) /\ var_lt (top_var x y) w.

Hypothesis rec_runs : forall a b st', AOk st' -> AExt st st' -> lies st' a -> lies st' b ->
  runs AOk AExt (rec a b) st' (fun r st'' => assumes st''.1 a b r).

Lemma lies_ext st1 st2 r : AExt st1 st2 -> lies st1 r -> lies st2 r.
Proof. intros He [V Hw]. split; [by eapply valid_ext|]. rewrite (support_ext st1.1 st2.1) by done. done. Qed.

Lemma lies_below st' a : AExt st st' -> below fst st xi yi x y a -> lies st' a.
Proof. intros He Ha. by apply (lies_ext st). Qed.

Lemma lies_assumes st' a b r : lies st' a -> lies st' b -> assumes st'.1 a b r -> lies st' r.
Proof. intros [Va Ha] [Vb Hb] ((_ & _ & V) & Hs & _). split; [done|]. intros w [Hw|Hw]%Hs; auto. Qed.

Let ok_store (st' : Interner * Cache) : AOk st' -> store_ok st'.1 := fun H => interner_store _ (proj1 H).

Lemma x_child c : node_var x = top_var x y -> c ∈ edge_nodes (children x) -> below fst st xi yi x y (node_negate c xi).
Proof. intros. eapply (child_below fst AOk ok_store); eauto. Qed.

Lemma y_child c : node_var y = top_var x y -> c ∈ edge_nodes (children y) -> below fst st xi yi x y (node_negate c yi).
Proof. intros. eapply (child_below fst AOk ok_store); eauto. Qed.

(** The variable of the expansion is one of the two markers'. *)
Lemma top_support : top_var x y ∈ support st.1 xi \/ top_var x y ∈ support st.1 yi.
Proof.
  destruct (support_head _ xi x (ok_store _ st_ok) x_valid x_index x_node) as (Sx & _).
  destruct (support_head _ yi y (ok_store _ st_ok) y_valid y_index y_node) as (Sy & _).
  unfold top_var. destruct (variable_cmp _ _); auto.
Qed.

Lemma create_beside st' var e : AOk st' -> edges_below st'.1 var e -> edge_nodes e <> [] ->
  runs AOk AExt (on_interner (create_node var e)) st' (fun id st'' => means st''.1 var e id).
Proof.
  intros Hst' Hb Hne. apply (on_interner_runs memo_assumes memo_assumes_ext _ st' (fun id s' => means s' var e id)); [done|].
  apply create_node_runs; [apply Hst'|done|done].
Qed.

(** The value decides first. *)
Lemma restrict_less : variable_cmp (node_var x) (node_var y) = Lt ->
  runs AOk AExt (let* e := edges_map (children x) xi (fun a => rec a yi) in on_interner (create_node (node_var x) e)) st
    (fun r st' => assumes st'.1 xi yi r).
Proof.
  intros Hlt. destruct (top_cases x y) as [(E & Et & Hty)|[(E & _)|(E & _)]]; [|congruence..].
  assert (By : below fst st xi yi x y yi) by (eapply (other_below fst AOk ok_store); eauto).
  assert (Hlies : forall st' c r, AExt st st' -> c ∈ edge_nodes (children x) -> assumes st'.1 (node_negate c xi) yi r -> lies st' r).
  { intros st' c r He Hc Hr. eapply (lies_assumes st' (node_negate c xi) yi); [apply lies_below; [done|by apply x_child]|by apply lies_below|done]. }
  run_weaken; [apply (rebuild_runs fst AOk AExt ok_store (fun _ _ He => He) (fun var e => on_interner (create_node var e)) create_beside
    (fun st' c r => assumes st'.1 c yi r)); try done|].
  - intros st1 st2 c r He. by apply assumes_ext.
  - intros st' c r He Hc Hr. rewrite <- Et. destruct (Hlies st' c r He Hc Hr) as [V Hw]. split; [done|]. intros w ?%Hw. tauto.
  - intros c st' Hc Hst' He. apply rec_runs; [done|done|apply lies_below; [done|by apply x_child]|by apply lies_below].
  - intros id st' Hst' He (V & Hw & Hd). split; [split; [by eapply valid_ext|split; [by eapply valid_ext|done]]|].
    rewrite (support_ext st.1 st'.1 xi), (support_ext st.1 st'.1 yi) by done. split.
    + intros w [->|(c & r & Hc & Hr & Hwr)]%Hw; [rewrite <- Et; apply top_support|]. by apply (Hlies st' c r).
    + intros v Hv HC Hy. destruct (Hd v Hv) as (c & r & Ec & (_ & _ & HQ) & ->). rewrite HQ by done.
      destruct (den_at v st.1 xi x (ok_store _ st_ok) x_valid x_index x_node Hv) as (c' & Ec' & Hc' & E').
      rewrite Ec in Ec'. injection Ec' as <-. destruct (x_child c (eq_sym Et) Hc') as [Vc _].
      by rewrite !(den_ext v st.1 st'.1), E' by done.
Qed.

(** The assumption decides first: its variable is quantified out. *)
Lemma restrict_greater : variable_cmp (node_var x) (node_var y) = Gt ->
  runs AOk AExt (let* q := on_interner (or_children y yi) in rec xi q) st (fun r st' => assumes st'.1 xi yi r).
Proof.
  intros Hgt. destruct (top_cases x y) as [(E & _)|[(E & Et & Htx)|(E & _)]]; [congruence| |congruence].
  assert (Bx : below fst st xi yi x y xi) by (eapply (other_below fst AOk ok_store); eauto).
  run_seq; [apply (on_interner_runs memo_assumes memo_assumes_ext _ st
    (fun j s' => disj_of s' (map (fun c => node_negate c yi) (edge_nodes (children y))) j)); [done|]; by apply or_children_runs; [apply st_ok|..]|].
  intros q st1 Hst1 E1 Hq. cbn in Hq. pose proof (disj_support st.1 st1.1 yi q y (ok_store _ st_ok) E1 y_valid y_index y_node Hq) as Hqs.
  assert (Lq : lies st1 q). { split; [apply Hq|]. intros w [? ?]%Hqs. rewrite Et. auto. }
  run_weaken; [apply rec_runs; [done|done|by apply lies_below|done]|].
  intros r st2 Hst2 E2 ((_ & _ & Vr) & Hw & Hd). assert (E02 : ext st.1 st2.1) by (transitivity st1.1; done).
  split; [split; [by eapply valid_ext|split; [by eapply valid_ext|done]]|]. split.
  - intros w [Hx|Hwq]%Hw; [by left|right]. rewrite (support_ext st1.1 st2.1) in Hwq by (done || apply Hq).
    rewrite (support_ext st.1 st2.1) by done. by apply Hqs.
  - intros v Hv HC Hy. apply Hd; [done|done|]. rewrite (den_ext v st1.1 st2.1) by (done || apply Hq).
    destruct Hq as (_ & _ & ->); [|done|done].
    destruct (den_at v st.1 yi y (ok_store _ st_ok) y_valid y_index y_node Hv) as (c & _ & Hc & E').
    apply existsb_exists. exists (node_negate c yi). split; [apply (in_map (fun c => node_negate c yi)); by apply list_elem_of_In|].
    rewrite (den_ext v st.1 st2.1), E' in Hy by done. rewrite <- Hy. apply den_ext; [done|]. apply valid_negate.
    eapply child_valid; [apply ok_store, st_ok|done|done].
Qed.

(** Both decide on the same variable. *)

Definition pass_ok (st' : (Interner * Cache) * option NodeId) : Prop :=
  AOk st'.1 /\ AExt st st'.1 /\ match st'.2 with Some f => lies st'.1 f | None => True end.

Definition pass_ext (st1 st2 : (Interner * Cache) * option NodeId) : Prop :=
  AExt st1.1 st2.1 /\ (st1.2 <> None -> st2.2 = st1.2).

#[local] Instance pass_ext_preorder : PreOrder pass_ext.
Proof.
  split; [by intros st1|]. intros s1 s2 s3 [A1 A2] [B1 B2]. split; [by transitivity s2.1|].
  intros H. rewrite B2, A2 by (done || by rewrite A2). done.
Qed.

(** The first pass finds a reachable result when there is one. *)
Lemma first_pass_runs a b (st' : (Interner * Cache) * option NodeId) : pass_ok st' -> below fst st xi yi x y a -> below fst st xi yi x y b ->
  runs pass_ok pass_ext (first_pass rec a b) st' (fun _ st'' => node_is_false b = true \/ st''.2 <> None).
Proof.
  intros (H1 & H2 & H3) Ha Hb. unfold first_pass. destruct (node_is_false b) eqn:Fb; [run_pure; [done|by left]|].
  destruct (rec_runs a b st'.1 H1 H2) as (r & st1 & E & Hst1 & E1 & Hr); [by apply lies_below..|].
  assert (E01 : AExt st st1) by (by transitivity st'.1).
  exists r, (st1, match st'.2 with Some f => Some f | None => Some r end). split.
  - unfold mseq, on_interner. by rewrite E.
  - split; [|split; [split; [done|by destruct (st'.2)]|right; by destruct (st'.2)]]. split; [done|]. split; [done|]. cbn.
    destruct (st'.2) as [f|]; [by apply (lies_ext st'.1)|]. apply (lies_assumes _ a b); [by apply lies_below|by apply lies_below|done].
Qed.

Lemma find_fallback_runs : node_var y = node_var x -> top_var x y = node_var x ->
  runs AOk AExt (find_fallback (edges_apply (children x) xi (children y) yi (first_pass rec))) st
    (fun fb st' => match fb with
      | Some f => lies st' f
      | None => forall v, valuation_ok v -> den v st'.1 yi = false
      end).
Proof.
  intros Exy Et. pose proof (node_edges _ _ _ (store_nodes _ (ok_store _ st_ok) _ _ x_node)) as Ox.
  pose proof (node_edges _ _ _ (store_nodes _ (ok_store _ st_ok) _ _ y_node)) as Oy. rewrite Exy in Oy.
  destruct (edges_apply_runs pass_ok pass_ext (children x) (children y) (node_var x) xi yi (first_pass rec) (st, None)
    (fun st' _ b _ => node_is_false b = true \/ st'.2 <> None)) as (e & [st' fb] & E & (H1 & H2 & H3) & _ & (He & _ & _ & Hch)); try done.
  - intros st1 st2 a b r [_ Hx] [?|Hn]; [by left|right]. by rewrite Hx.
  - intros a b st' Ha Hb Hst' _. apply first_pass_runs; [done|by apply x_child|apply y_child; [congruence|done]].
  - exists fb, st'. split; [unfold find_fallback; by rewrite E|]. split; [done|]. split; [done|]. cbn in H3. destruct fb as [f|]; [done|].
    intros v Hv. destruct (choose_some v (node_var x) e Hv He) as (r & Er & _).
    destruct (Hch v r Hv Er) as (a & b & _ & Eb & [Fb|]); [|done]. apply is_false_iff in Fb.
    destruct (den_at v st.1 yi y (ok_store _ st_ok) y_valid y_index y_node Hv) as (b' & Eb' & _ & E').
    rewrite Exy, Eb in Eb'. injection Eb' as <-. by rewrite (den_ext v st.1 st'.1), E', Fb by done.
Qed.

Lemma second_pass_runs f (st' : Interner * Cache) a b : AOk st' -> AExt st st' -> lies st' f ->
  below fst st xi yi x y a -> below fst st xi yi x y b ->
  runs AOk AExt (second_pass rec f a b) st' (fun r st'' => lies st'' r /\ (b = node_false \/ assumes st''.1 a b r)).
Proof.
  intros Hst' He Hf Ha Hb. unfold second_pass. destruct (node_is_false b) eqn:Fb.
  - apply is_false_iff in Fb. run_pure; auto.
  - run_weaken; [apply rec_runs; [done|done|by apply lies_below..]|]. intros r st'' _ E' Hr.
    split; [|by right]. assert (AExt st st'') by (by transitivity st'). apply (lies_assumes _ a b); [by apply lies_below|by apply lies_below|done].
Qed.

Lemma restrict_equal f (st1 : Interner * Cache) : node_var y = node_var x -> top_var x y = node_var x -> AOk st1 -> AExt st st1 -> lies st1 f ->
  runs AOk AExt (let* e := edges_apply (children x) xi (children y) yi (second_pass rec f) in on_interner (create_node (node_var x) e)) st1
    (fun r st' => assumes st'.1 xi yi r).
Proof.
  intros Exy Et Hst1 E1 Hf. pose proof (node_edges _ _ _ (store_nodes _ (ok_store _ st_ok) _ _ x_node)) as Ox.
  pose proof (node_edges _ _ _ (store_nodes _ (ok_store _ st_ok) _ _ y_node)) as Oy. rewrite Exy in Oy.
  run_seq; [apply (edges_apply_runs AOk AExt (children x) (children y) (node_var x) xi yi (second_pass rec f) st1
    (fun st' a b r => lies st' r /\ (b = node_false \/ assumes st'.1 a b r))); try done|].
  - intros st2 st3 a b r He [Hl [?|Hr]]; (split; [by apply (lies_ext st2)|]); [by left|right; by eapply assumes_ext].
  - intros a b st' Ha Hb Hst' He. apply second_pass_runs; [done|by transitivity st1|by apply (lies_ext st1)|by apply x_child|].
    apply y_child; [congruence|done].
  - intros e st2 Hst2 E2 (He & Hne & Hall & Hch). assert (E02 : AExt st st2) by (by transitivity st1).
    assert (Hl : forall r, r ∈ edge_nodes e -> lies st2 r) by (intros r (a & b & _ & _ & ? & _)%Hall; done).
    run_weaken; [apply create_beside; [done| |done]|].
    + split; [done|]. split; [intros r Hr; by apply Hl|]. intros r w Hr Hw. rewrite <- Et. by apply (Hl r Hr).
    + intros id st3 Hst3 E3 (V & Hw & Hd). assert (E03 : AExt st st3) by (by transitivity st2).
      split; [split; [by eapply valid_ext|split; [by eapply valid_ext|done]]|].
      rewrite (support_ext st.1 st3.1 xi), (support_ext st.1 st3.1 yi) by done. split.
      * intros w [->|(r & Hr & Hwr)]%Hw; [rewrite <- Et; apply top_support|]. apply (lies_ext st2 st3 r E3 (Hl r Hr)), Hwr.
      * intros v Hv HC Hy. destruct (Hd v Hv) as (r & Er & Hr & ->). destruct (Hch v r Hv Er) as (a & b & Ea & Eb & _ & Hab).
        destruct (den_at v st.1 xi x (ok_store _ st_ok) x_valid x_index x_node Hv) as (a' & Ea' & Ha & Da).
        destruct (den_at v st.1 yi y (ok_store _ st_ok) y_valid y_index y_node Hv) as (b' & Eb' & Hb & Db).
        rewrite Ea in Ea'. injection Ea' as <-. rewrite Exy, Eb in Eb'. injection Eb' as <-.
        destruct (x_child a (eq_sym Et) Ha) as [Va _]. assert (node_var y = top_var x y) as Ety by congruence.
        destruct (y_child b Ety Hb) as [Vb _]. rewrite (den_ext v st.1 st3.1 yi), Db in Hy by done.
        destruct Hab as [Hn|Hab]; [by rewrite Hn in Hy|]. apply (assumes_ext st2.1 st3.1) in Hab as (_ & _ & Hab); [|done].
        rewrite Hab; [|done|done|by rewrite (den_ext v st.1 st3.1)]. by rewrite !(den_ext v st.1 st3.1), Da by done.
Qed.
End expansion.

Lemma restrict_cached_runs fuel (xi yi : NodeId) st K : AOk st -> valid_id st.1 xi -> valid_id st.1 yi ->
  (length K < fuel)%nat -> (forall w, w ∈ support st.1 xi \/ w ∈ support st.1 yi -> w ∈ K) ->
  runs AOk AExt (restrict_cached fuel xi yi) st (fun r st' => assumes st'.1 xi yi r).
Proof.
  revert xi yi st K. induction fuel as [|fuel IH]; intros xi yi st K Hst Hx Hy Hlen HK; [lia|]. cbn [restrict_cached].
  pose proof (restrict_shortcut_spec st.1 xi yi Hx Hy) as Hsc. destruct (restrict_shortcut xi yi) as [r|]; [by run_pure|].
  destruct Hsc as [Hx0 Hy0]. run_get. destruct (st.2 !! (xi, yi)) as [r|] eqn:Ec; [run_pure; [done|]; by apply Hst|].
  destruct (shared_node_ret st.1 xi Hx Hx0) as (x & Ex & Nx), (shared_node_ret st.1 yi Hy Hy0) as (y & Ey & Ny).
  run_read Ex. run_read Ey. set (K' := larger (top_var x y) K).
  assert (HK' : (length K' < fuel)%nat).
  { pose proof (larger_length (top_var x y) K) as Hl. unfold K'. enough (top_var x y ∈ K) by (specialize (Hl ltac:(done)); lia).
    apply HK. by apply top_support. }
  assert (Hrec : forall a b st', AOk st' -> AExt st st' -> lies st xi yi x y st' a -> lies st xi yi x y st' b ->
    runs AOk AExt (restrict_cached fuel a b) st' (fun r st'' => assumes st''.1 a b r)).
  { intros a b st' Hst' He [Va Ha] [Vb Hb]. apply (IH a b st' K'); [done..|].
    intros w [Hw|Hw]; apply larger_elem; [destruct (Ha w Hw)|destruct (Hb w Hw)]; auto. }
  destruct (variable_cmp (node_var x) (node_var y)) eqn:Ecmp.
  - destruct (top_cases x y) as [(E & _)|[(E & _)|(E & Et & Exy)]]; [congruence..|].
    run_seq; [by apply find_fallback_runs|]. intros [f|] st1 Hst1 E1 Hf.
    + run_seq; [by apply (restrict_equal st)|]. intros r st2 Hst2 E2 Hr. by apply assumes_store.
    + run_pure; [done|]. split; [split; [by eapply valid_ext|split; [by eapply valid_ext|apply valid_terminal]]|].
      split; [by intros w ?%elem_of_nil|]. intros v Hv _ Hd. by rewrite Hf in Hd.
  - run_seq; [by apply (restrict_less st xi yi x y)|]. intros r st2 Hst2 E2 Hr. by apply assumes_store.
  - run_seq; [by apply (restrict_greater st xi yi x y)|]. intros r st2 Hst2 E2 Hr. by apply assumes_store.
Qed.

Lemma restrict_spec s (x y : NodeId) : interner_ok s -> valid_id s x -> valid_id s y ->
  runs interner_ok ext (restrict x y) s (fun r s' => assumes s' x y r).
Proof.
  intros Hs Hx Hy. destruct (enough_room s x y (interner_store _ Hs) Hx Hy) as (K & HK1 & HK2).
  destruct (restrict_cached_runs (enough s) x y (s, ∅) K) as (r & [s' m] & E & [H1 _] & H2 & H3); [|done|done|done|auto|].
  { split; [done|]. intros a b r Eb. cbn in Eb. by apply (lookup_empty_Some (M := gmap (Z * Z))) in Eb. }
  exists r, s'. split; [unfold restrict; by rewrite E|done].
Qed.
End facts.
