(* ===== verification/MarkerPython.v ===== *)
(** * Python version bounds (algebra.rs)

    [simplify_python_versions] drops what a [requires-python] range already says,
    [complexify_python_versions] adds it back.  The first agrees with the marker
    for Python versions in the range; the second is the conjunction of the marker
    with the range.

    A complexified marker is ordered when no variable of the marker comes after
    [python_full_version]; otherwise [python_full_version] is decided below that
    variable ([complexify_misordered]). *)

From Stdlib Require Import ZArith Lia.
From stdpp Require Import base list gmap.
From S2P Require Import Prelude.
From S2P Require Import VersionRepr.
From S2P Require Import VersionOrder.
From S2P Require Import RangeSet.
From S2P Require Import Stateful.
From S2P Require Import MarkerEdges.
From S2P Require Import MarkerTypes.
From S2P Require Import RangeInstances.
From S2P Require Import MarkerAlgebra.
From S2P Require Import MarkerStore.
From S2P Require Import MarkerOps.
From S2P Require Import MarkerConj.
From S2P Require Import MarkerRestrict.
Open Scope Z_scope.

(** ** Range maps clipped to a range *)

Definition is_unbounded {T} (b : BoundOf T) : bool := match b with Unbounded => true | _ => false end.

(** [*v.last_mut().unwrap() = x] *)
Definition set_last {A} (l : list A) (x : A) : list A := removelast l ++ [x].

Section clip.
Context {T R : Type} `{!RangeSet T R}.

(** The first range starts at [low]. *)
Definition clip_first (low : BoundOf T) (edges : list (R * NodeId)) : outcome (list (R * NodeId)) :=
  match edges with
  | [] => Panic
  | (first_range, first_node) :: rest =>
      let! bounds := unwrap (rs_bounding_range first_range) in
      Ret ((rs_from_range_bounds (low, snd bounds), first_node) :: rest)
  end.

(** The last range ends at [high]. *)
Definition clip_last (high : BoundOf T) (edges : list (R * NodeId)) : outcome (list (R * NodeId)) :=
  match last edges with
  | None => Panic
  | Some (last_range, last_node) =>
      let! bounds := unwrap (rs_bounding_range last_range) in
      Ret (set_last edges (rs_from_range_bounds (fst bounds, high), last_node))
  end.

(** The overlaps of the ranges with [py_range]. *)
Definition overlaps (py_range : R) (edges : list (R * NodeId)) : list (R * NodeId) :=
  flat_map (fun e =>
    let overlap := rs_intersection (fst e) py_range in
    if rs_is_empty overlap then [] else [(overlap, snd e)]) edges.

(** The edges of [simplify_python_versions]. *)
Definition simplify_edges (py_range : R) (edges : list (R * NodeId)) : outcome (list (R * NodeId)) :=
  let! new := clip_first Unbounded (overlaps py_range edges) in
  clip_last Unbounded new.

(** The edges of [complexify_python_versions]. *)
Definition complexify_edges (py_lower py_upper : BoundOf T) (py_range : R) (exclude : NodeId) (edges : list (R * NodeId))
    : outcome (list (R * NodeId)) :=
  let new := List.filter (fun e => negb (rs_is_empty (rs_intersection py_range (fst e)))) edges in
  match new with
  | [] => Panic
  | (_, first_node) :: _ =>
      let! new :=
        if is_unbounded py_lower then Ret new
        else if exclude =? first_node then clip_first Unbounded new
        else
          let! new := clip_first py_lower new in
          Ret ((rs_complement (rs_from_range_bounds (py_lower, Unbounded)), exclude) :: new) in
      if is_unbounded py_upper then Ret new
      else
        match last new with
        | None => Panic
        | Some (_, last_node) =>
            if exclude =? last_node then clip_last Unbounded new
            else
              let! new := clip_last py_upper new in
              Ret (new ++ [(rs_complement (rs_from_range_bounds (Unbounded, py_upper)), exclude)])
        end
  end.
End clip.

Section python.
Context {RV RS : Type} `{!RangeSet Version RV} `{!RangeSet Str RS}.

Abbreviation Edges := (EdgesOf RV RS).
Abbreviation Node := (NodeOf RV RS).
Abbreviation Interner := (InternerOf RV RS).

(** The [python_full_version] edges of a node. *)
Definition python_edges (node : Node) : option (list (RV * NodeId)) :=
  match node_var node, children node with
  | VVersion CPythonFullVersion, EdgesVersion edges => Some edges
  | _, _ => None
  end.

(** [InternerGuard::simplify_python_versions] *)
Fixpoint simplify_fuel (fuel : nat) (py_lower py_upper : BoundOf Version) (i : NodeId) : M Interner NodeId :=
  match fuel with
  | O => mpanic
  | S fuel =>
      if (node_is_true i || node_is_false i) || (is_unbounded py_lower && is_unbounded py_upper) then mpure i
      else
        let* s := mget in
        let* node := mlift (shared_node s i) in
        match python_edges node with
        | None =>
            let* e := edges_map (children node) i (simplify_fuel fuel py_lower py_upper) in
            create_node (node_var node) e
        | Some edges =>
            let py_range := rs_from_range_bounds (R := RV) (py_lower, py_upper) in
            if rs_is_empty py_range then mpure node_false
            else
              let* new := mlift (simplify_edges py_range edges) in
              let* id := create_node (node_var node) (EdgesVersion new) in
              mpure (node_negate id i)
        end
  end.

Definition simplify_python_versions (i : NodeId) (py_lower py_upper : BoundOf Version) : M Interner NodeId :=
  let* s := mget in simplify_fuel (S (enough s)) py_lower py_upper i.

(** [InternerGuard::complexify_python_versions] *)
Fixpoint complexify_fuel (fuel : nat) (py_lower py_upper : BoundOf Version) (i : NodeId) : M Interner NodeId :=
  match fuel with
  | O => mpanic
  | S fuel =>
      if node_is_false i || (is_unbounded py_lower && is_unbounded py_upper) then mpure i
      else
        let py_range := rs_from_range_bounds (R := RV) (py_lower, py_upper) in
        if rs_is_empty py_range then mpure node_false
        else if node_is_true i then
          let* edges := mlift (from_range py_range) in
          let* id := create_node (VVersion CPythonFullVersion) (EdgesVersion edges) in
          mpure (node_negate id i)
        else
          let* s := mget in
          let* node := mlift (shared_node s i) in
          match python_edges node with
          | None =>
              let* e := edges_map (children node) i (complexify_fuel fuel py_lower py_upper) in
              create_node (node_var node) e
          | Some edges =>
              let exclude := node_negate node_false i in
              let* new := mlift (complexify_edges py_lower py_upper py_range exclude edges) in
              let* id := create_node (node_var node) (EdgesVersion new) in
              mpure (node_negate id i)
          end
  end.

Definition complexify_python_versions (i : NodeId) (py_lower py_upper : BoundOf Version) : M Interner NodeId :=
  let* s := mget in complexify_fuel (S (enough s)) py_lower py_upper i.
End python.

(** ** Clipped range maps tile the line *)

Section clip_facts.
Context {T R : Type} `{RangeSetLaws T R} `{!KeyedLaws T}.
Implicit Types (p low high L U : Cut) (edges new : list (R * NodeId)) (py : R).

Lemma intersects_iff r s a b c d : range_at r a b -> range_at s c d ->
  rs_is_empty (rs_intersection r s) = false <-> cut_lt a d /\ cut_lt c b.
Proof.
  intros Hr Hs. pose proof (range_at_intersection r s a b c d Hr Hs) as Hi.
  pose proof (range_at_lt _ _ _ Hr) as Hab. pose proof (range_at_lt _ _ _ Hs) as Hcd.
  assert (Hlt : cut_lt (cut_max a c) (cut_min b d) <-> cut_lt a d /\ cut_lt c b).
  { destruct (cut_max_cases a c) as [[? ->]|[? ->]], (cut_min_cases b d) as [[? ->]|[? ->]]; (split; [intros; split; cut_order|intros []; cut_order]). }
  rewrite <- Hlt, <- cut_lt_iff. destruct (is_lt _) eqn:E.
  - split; [done|]. intros _. by eapply range_at_empty.
  - rewrite rs_is_empty_law, Hi. done.
Qed.

(** The edges that meet [py] are consecutive and cover it. *)
Lemma meeting_tiles py L U low edges high : range_at py L U -> tiles low edges high ->
  let new := List.filter (fun e => negb (rs_is_empty (rs_intersection py (fst e)))) edges in
  (new = [] /\ (cut_le high L \/ cut_le U low \/ low = high)) \/
  exists a b, tiles a new b /\ new <> [] /\ cut_le low a /\ cut_le b high /\ (a = low \/ cut_le a L) /\ (b = high \/ cut_le U b) /\
    forall p, cut_le a p -> cut_lt p b -> tile_at p new = tile_at p edges.
Proof.
  intros Hpy Ht. cbv zeta. pose proof (range_at_lt _ _ _ Hpy) as HLU. revert low Ht.
  induction edges as [|[r c] edges IH]; intros low; [intros ->; left; auto|]. intros (m & Hr & Ht). cbn [List.filter fst].
  pose proof (range_at_lt _ _ _ Hr) as Hlm. pose proof (tiles_le _ _ _ Ht) as Hmh.
  pose proof (intersects_iff py r L U low m Hpy Hr) as Hi. specialize (IH m Ht).
  assert (Htail : forall p, cut_le m p -> tile_at p ((r, c) :: edges) = tile_at p edges).
  { intros p Hp. unfold tile_at. cbn. rewrite (range_at_mem r low m) by done.
    destruct (in_cuts p (low, m)) eqn:E; [|done]. apply in_cuts_iff in E as [? ?]. cbn in *. cut_order. }
  destruct (rs_is_empty (rs_intersection py r)) eqn:Ee; cbn [negb].
  - assert (cut_le m L \/ cut_le U low) as Hout.
    { destruct (cut_lt_total L m) as [?|[->|?]]; [|left; cut_order..]. right. rewrite <- cut_not_lt. intros ?. enough (true = false) by done. by apply Hi. }
    destruct IH as [[En Hc]|(a & b & Hn & Hne & Ha & Hb & Ha' & Hb' & Hp)].
    + left. split; [done|]. destruct Hout as [?|?]; [|by right; left]. destruct Hc as [?|[?|<-]]; [by left|cut_order|by left].
    + right. exists a, b. split; [done|]. split; [done|]. split; [cut_order|]. split; [done|].
      destruct Hout as [Hm|HU]; [|exfalso].
      * split; [right; destruct Ha' as [->|?]; cut_order|]. split; [done|]. intros p Hap Hpb. rewrite Htail by cut_order. auto.
      * destruct (List.filter _ edges) as [|[r' c'] rest] eqn:Ef; [done|]. destruct Hn as (b' & Hr' & Hn).
        assert (Hin : (r', c') ∈ (r', c') :: rest) by (by left). rewrite <- Ef in Hin. apply list_elem_of_In, filter_In in Hin as [_ Hneg].
        apply negb_true_iff in Hneg. cbn in Hneg. apply (intersects_iff py r' L U a b' Hpy Hr') in Hneg as [? ?]. cut_order.
  - destruct Hi as [[Hi1 Hi2] _]; [done|]. right.
    assert (Hhead : forall p x y, cut_le low p -> cut_lt p m -> tile_at p ((r, c) :: x) = tile_at p ((r, c) :: y)).
    { intros p x y Hp1 Hp2. unfold tile_at. cbn. rewrite (range_at_mem r low m) by done. by rewrite (proj2 (in_cuts_iff p (low, m))). }
    destruct IH as [[-> Hc]|(a & b & Hn & Hne & Ha & Hb & Ha' & Hb' & Hp)].
    + exists low, m. split; [by exists m|]. split; [done|]. split; [apply cut_le_refl|]. split; [done|]. split; [by left|]. split.
      * destruct Hc as [?|[?|<-]]; [cut_order|by right|by left].
      * intros p Hp1 Hp2. by apply Hhead.
    + assert (a = m) as ->.
      { destruct Ha' as [?|Ha']; [done|]. apply cut_le_antisym; [|done]. cut_order. }
      exists low, b. split; [by exists m|]. split; [done|]. split; [apply cut_le_refl|]. split; [done|]. split; [by left|]. split; [done|].
      intros p Hp1 Hp2. destruct (in_cuts p (low, m)) eqn:E; [apply in_cuts_iff in E as [? ?]; by apply Hhead|].
      assert (cut_le m p) by (rewrite <- cut_not_lt; intros ?; apply not_true_iff_false in E; by apply E, in_cuts_iff).
      rewrite Htail by done. rewrite <- Hp by done. unfold tile_at at 1. cbn. by rewrite (range_at_mem r low m), E by done.
Qed.

Lemma tiles_lt low edges high : tiles low edges high -> edges <> [] -> cut_lt low high.
Proof. destruct edges as [|[r c] edges]; [done|]. intros (m & Hr%range_at_lt & Ht%tiles_le) _. cut_order. Qed.

Lemma cut_max_iff a c : (cut_le a c -> cut_max a c = c) /\ (cut_le c a -> cut_max a c = a).
Proof. destruct (cut_max_cases a c) as [[? ->]|[? ->]]; split; intros; try done; cut_order. Qed.

Lemma cut_min_iff b d : (cut_le b d -> cut_min b d = b) /\ (cut_le d b -> cut_min b d = d).
Proof. destruct (cut_min_cases b d) as [[? ->]|[? ->]]; split; intros; try done; cut_order. Qed.

Lemma tile_at_cons r c edges low m p : range_at r low m ->
  tile_at p ((r, c) :: edges) = if in_cuts p (low, m) then Some c else tile_at p edges.
Proof. intros Hr. unfold tile_at. cbn. rewrite (range_at_mem r low m) by done. by destruct (in_cuts _ _). Qed.

(** The overlaps tile [py]. *)
Lemma overlaps_tiles py L U low edges high : range_at py L U -> tiles low edges high ->
  (overlaps py edges = [] /\ (cut_le high L \/ cut_le U low \/ low = high)) \/
  (tiles (cut_max low L) (overlaps py edges) (cut_min high U) /\ overlaps py edges <> [] /\
    forall p, cut_le low p -> cut_le L p -> cut_lt p U -> cut_lt p high -> tile_at p (overlaps py edges) = tile_at p edges).
Proof.
  intros Hpy Ht. pose proof (range_at_lt _ _ _ Hpy) as HLU. revert low Ht.
  induction edges as [|[r c] edges IH]; intros low; [intros ->; left; auto|]. intros (m & Hr & Ht). cbn [overlaps flat_map fst snd].
  pose proof (range_at_lt _ _ _ Hr) as Hlm. pose proof (tiles_le _ _ _ Ht) as Hmh.
  pose proof (intersects_iff r py low m L U Hr Hpy) as Hi. pose proof (range_at_intersection r py low m L U Hr Hpy) as Hint.
  specialize (IH m Ht). fold (overlaps py edges).
  destruct (rs_is_empty (rs_intersection r py)) eqn:Ee; cbn [app].
  - assert (cut_le m L \/ cut_le U low) as Hout.
    { destruct (cut_lt_total L m) as [?|[->|?]]; [|left; cut_order..]. right. rewrite <- cut_not_lt. intros ?.
      enough (true = false) by done. by apply Hi. }
    destruct IH as [[En Hc]|(Hn & Hne & Hp)].
    + left. split; [done|]. destruct Hout as [?|?]; [|by right; left]. destruct Hc as [?|[?|<-]]; [by left|cut_order|by left].
    + pose proof (tiles_lt _ _ _ Hn Hne) as Hlt. destruct Hout as [Hm|HU]; [right|exfalso].
      * rewrite (proj1 (cut_max_iff m L) Hm) in Hn. rewrite (proj1 (cut_max_iff low L)) by cut_order. split; [done|]. split; [done|].
        intros p Hlp HpL HpU Hph. rewrite Hp by (done || cut_order). rewrite (tile_at_cons r c edges low m) by done.
        destruct (in_cuts p (low, m)) eqn:E; [|done]. apply in_cuts_iff in E as [? ?]. cbn in *. cut_order.
      * destruct (cut_max_cases m L) as [[? E1]|[? E1]], (cut_min_cases high U) as [[? E2]|[? E2]]; rewrite E1, E2 in Hlt; cut_order.
  - destruct Hi as [[Hi1 Hi2] _]; [done|]. right.
    destruct (is_lt (cut_cmp (cut_max low L) (cut_min m U))) eqn:Elt; [|rewrite rs_is_empty_law, Hint in Ee; done].
    assert (Hdone : forall x, tile_at x ((rs_intersection r py, c) :: overlaps py edges) =
      if in_cuts x (cut_max low L, cut_min m U) then Some c else tile_at x (overlaps py edges)) by (intros; by apply tile_at_cons).
    assert (Hin : forall p, cut_le L p -> cut_lt p U -> in_cuts p (cut_max low L, cut_min m U) = in_cuts p (low, m)).
    { intros p HpL HpU. apply Bool.eq_iff_eq_true. rewrite !in_cuts_iff. cbn. unfold cut_max, cut_min. rewrite max_cut, min_cut. tauto. }
    destruct IH as [[Eo Hc]|(Hn & Hne & Hp)].
    + rewrite Eo in *. split; [|split; [done|]].
      * exists (cut_min m U). split; [done|]. cbn. destruct Hc as [?|[HU|<-]]; [cut_order| |done].
        rewrite !(fun b => proj2 (cut_min_iff b U)); [done|cut_order|done].
      * intros p Hlp HpL HpU Hph. rewrite Hdone, Hin by done. rewrite (tile_at_cons r c edges low m) by done.
        destruct (in_cuts p (low, m)) eqn:E; [done|]. exfalso. apply not_true_iff_false in E. apply E, in_cuts_iff. cbn. split; [done|].
        destruct Hc as [?|[HU|<-]]; [cut_order..|done].
    + pose proof (tiles_lt _ _ _ Hn Hne) as Hlt. rewrite (proj2 (cut_max_iff m L)) in Hn, Hlt by cut_order.
      assert (HmU : cut_lt m U) by (destruct (cut_min_cases high U) as [[? E2]|[? E2]]; rewrite E2 in Hlt; cut_order).
      rewrite (proj1 (cut_min_iff m U)) in * by cut_order. split; [by exists m|]. split; [done|].
      intros p Hlp HpL HpU Hph. rewrite Hdone, Hin by done. rewrite (tile_at_cons r c edges low m) by done.
      destruct (in_cuts p (low, m)) eqn:E; [done|]. apply Hp; try done. rewrite <- cut_not_lt. intros ?.
      apply not_true_iff_false in E. by apply E, in_cuts_iff.
Qed.

(** ** Setting the ends *)

Lemma clip_first_tiles (lo : BoundOf T) edges low high : tiles low edges high -> edges <> [] ->
  bound_valid lo = true -> (forall r c b, head edges = Some (r, c) -> range_at r low b -> cut_lt (lower_cut lo) b) ->
  exists new, clip_first lo edges = Ret new /\ tiles (lower_cut lo) new high /\ new <> [] /\ map snd new = map snd edges /\
    forall p, cut_le low p -> cut_le (lower_cut lo) p -> tile_at p new = tile_at p edges.
Proof.
  destruct edges as [|[r c] edges]; [done|]. intros (b & Hr & Ht) _ Hlo Hlt. specialize (Hlt r c b eq_refl Hr).
  destruct (range_at_bounds r low b Hr) as (lo' & hi & _ & Eb & El & <- & _ & Vhi). cbn [clip_first]. rewrite Eb. cbn [unwrap obind snd].
  assert (Hnew : range_at (rs_from_range_bounds (lo, hi)) (lower_cut lo) (upper_cut hi)) by (by apply from_bounds_range_at).
  eexists. split; [done|]. split; [by exists (upper_cut hi)|]. split; [done|]. split; [done|].
  intros p Hp1 Hp2. rewrite (tile_at_cons _ c edges _ _ p Hnew), (tile_at_cons r c edges _ _ p Hr).
  replace (in_cuts p (lower_cut lo, upper_cut hi)) with (in_cuts p (low, upper_cut hi)); [done|].
  apply Bool.eq_iff_eq_true. rewrite !in_cuts_iff. cbn. tauto.
Qed.

Lemma set_last_snoc {A} (l : list A) x y : set_last (l ++ [x]) y = l ++ [y].
Proof. unfold set_last. by rewrite removelast_last. Qed.

Lemma clip_last_tiles (hi : BoundOf T) edges low high : tiles low edges high -> edges <> [] ->
  bound_valid hi = true -> (forall r c a, last edges = Some (r, c) -> range_at r a high -> cut_lt a (upper_cut hi)) ->
  exists new, clip_last hi edges = Ret new /\ tiles low new (upper_cut hi) /\ new <> [] /\ map snd new = map snd edges /\
    forall p, cut_lt p high -> cut_lt p (upper_cut hi) -> tile_at p new = tile_at p edges.
Proof.
  destruct edges as [|[r c] edges _] using rev_ind; [done|]. intros (a & Hf & b & Hr & ->)%tiles_app _ Hhi Hlt.
  specialize (Hlt r c a (last_snoc _ _) Hr). unfold clip_last. rewrite last_snoc.
  destruct (range_at_bounds r a high Hr) as (lo & hi' & _ & Eb & <- & El & Vlo & _). rewrite Eb. cbn [unwrap obind fst]. rewrite set_last_snoc.
  assert (Hnew : range_at (rs_from_range_bounds (lo, hi)) (lower_cut lo) (upper_cut hi)) by (by apply from_bounds_range_at).
  eexists. split; [done|]. split; [apply tiles_app; exists (lower_cut lo); split; [done|]; by exists (upper_cut hi)|].
  split; [by destruct edges|]. split; [by rewrite !map_app|].
  intros p Hp1 Hp2. rewrite !tile_at_app. destruct (tile_at p edges); [done|].
  rewrite (tile_at_cons _ c [] _ _ p Hnew), (tile_at_cons r c [] _ _ p Hr).
  replace (in_cuts p (lower_cut lo, upper_cut hi)) with (in_cuts p (lower_cut lo, high)); [done|].
  apply Bool.eq_iff_eq_true. rewrite !in_cuts_iff. cbn. tauto.
Qed.

(** The edges of [simplify_python_versions]: a range map with the same children
    inside the range. *)
Lemma simplify_edges_spec py L U edges : range_at py L U -> tiles NegInf edges PosInf ->
  exists new, simplify_edges py edges = Ret new /\ tiles NegInf new PosInf /\
    (forall c, c ∈ map snd new -> c ∈ map snd edges) /\
    forall p, cut_le L p -> cut_lt p U -> tile_at p new = tile_at p edges.
Proof.
  intros Hpy Ht. pose proof (range_at_lt _ _ _ Hpy) as HLU. unfold simplify_edges.
  destruct (overlaps_tiles py L U NegInf edges PosInf Hpy Ht) as [[_ Hc]|(Hn & Hne & Hp)].
  { exfalso. pose proof (pos_inf_greatest U). pose proof (neg_inf_least L). destruct Hc as [?|[?|?]]; [cut_order..|done]. }
  rewrite (proj1 (cut_max_iff NegInf L)) in Hn by apply neg_inf_least. rewrite (proj2 (cut_min_iff PosInf U)) in Hn by apply pos_inf_greatest.
  destruct (clip_first_tiles Unbounded _ _ _ Hn Hne) as (n1 & -> & T1 & N1 & M1 & P1); [done| |].
  { intros r c b _ Hr%range_at_lt. cbn. pose proof (neg_inf_least L). cut_order. }
  cbn [obind]. destruct (clip_last_tiles Unbounded _ _ _ T1 N1) as (n2 & -> & T2 & N2 & M2 & P2); [done| |].
  { intros r c a _ Hr%range_at_lt. cbn. pose proof (pos_inf_greatest U). cut_order. }
  exists n2. split; [done|]. split; [done|]. split.
  - intros c. rewrite M2, M1. intros (e & -> & He)%elem_of_map. unfold overlaps in He. apply elem_of_flat_map in He as (x & Hx & He).
    destruct (rs_is_empty _); [by apply elem_of_nil in He|]. apply list_elem_of_singleton in He as ->. apply elem_of_map. by exists x.
  - intros p HpL HpU. rewrite P2, P1, Hp; try done; first [apply neg_inf_least|pose proof (pos_inf_greatest U); cut_order].
Qed.

(** ** The edges of [complexify_python_versions] *)

Lemma complement_lower (lo : BoundOf T) : bound_valid lo = true -> is_unbounded lo = false ->
  range_at (rs_complement (rs_from_range_bounds (R := R) (lo, Unbounded))) NegInf (lower_cut lo).
Proof.
  intros Hv Hb. assert (cut_lt NegInf (lower_cut lo)) as Hlt by (by destruct lo).
  pose proof (covers_range_at (rs_complement (rs_from_range_bounds (R := R) (lo, Unbounded))) NegInf (lower_cut lo)) as Hc.
  rewrite (proj2 (cut_lt_iff _ _) Hlt) in Hc. apply Hc.
  destruct (rs_from_range_bounds_law (R := R) (lo, Unbounded)) as [Hok Hm]; [unfold seg_valid; cbn; by rewrite Hv|].
  destruct (rs_complement_law _ Hok) as [Hok' Hm']. split; [done|]. intros p Hp. rewrite Hm', Hm by done.
  apply Bool.eq_iff_eq_true. rewrite negb_true_iff, <- not_true_iff_false, !in_cuts_iff. cbn. pose proof (neg_inf_least p).
  assert (cut_lt p PosInf) by (by destruct p). split; [intros Hn; split; [done|]|by intros [? ?] [? ?]; cut_order].
  destruct (cut_lt_total p (lower_cut lo)) as [?|[->|?]]; [done|exfalso; apply Hn; split; [apply cut_le_refl|done]|].
  exfalso. apply Hn. split; [cut_order|done].
Qed.

Lemma complement_upper (hi : BoundOf T) : bound_valid hi = true -> is_unbounded hi = false ->
  range_at (rs_complement (rs_from_range_bounds (R := R) (Unbounded, hi))) (upper_cut hi) PosInf.
Proof.
  intros Hv Hb. assert (cut_lt (upper_cut hi) PosInf) as Hlt by (by destruct hi).
  pose proof (covers_range_at (rs_complement (rs_from_range_bounds (R := R) (Unbounded, hi))) (upper_cut hi) PosInf) as Hc.
  rewrite (proj2 (cut_lt_iff _ _) Hlt) in Hc. apply Hc.
  destruct (rs_from_range_bounds_law (R := R) (Unbounded, hi)) as [Hok Hm]; [unfold seg_valid; cbn; by rewrite Hv|].
  destruct (rs_complement_law _ Hok) as [Hok' Hm']. split; [done|]. intros p Hp. rewrite Hm', Hm by done.
  apply Bool.eq_iff_eq_true. rewrite negb_true_iff, <- not_true_iff_false, !in_cuts_iff. cbn. pose proof (neg_inf_least p).
  assert (cut_lt p PosInf) by (by destruct p). split; [intros Hn; split; [|done]|by intros [? ?] [? ?]; cut_order].
  rewrite <- cut_not_lt. intros ?. by apply Hn.
Qed.

(** The child at a position of the result. *)
Definition excluded L U (exclude : NodeId) edges p : option NodeId :=
  if in_cuts p (L, U) then tile_at p edges else Some exclude.

(** Every range map has a child at every position. *)
Lemma tile_before L p : if is_lt (cut_cmp p L) then cut_lt p L else cut_le L p.
Proof. destruct (is_lt _) eqn:E; [by apply cut_lt_iff|]. rewrite <- cut_not_lt, <- cut_lt_iff. by rewrite E. Qed.

(** The lower end. *)
Lemma complexify_lower (lo : BoundOf T) U exclude edges r c rest a b high : bound_valid lo = true ->
  range_at r a b -> tiles b rest high -> cut_le a (lower_cut lo) -> cut_lt (lower_cut lo) b -> cut_lt (lower_cut lo) U ->
  (forall r' c' a', last ((r, c) :: rest) = Some (r', c') -> range_at r' a' high -> cut_lt a' U) ->
  (forall p, cut_le a p -> cut_lt p high -> tile_at p ((r, c) :: rest) = tile_at p edges) ->
  exists new, (if is_unbounded lo then Ret ((r, c) :: rest)
     else if exclude =? c then clip_first Unbounded ((r, c) :: rest)
     else let! new := clip_first lo ((r, c) :: rest) in
       Ret ((rs_complement (rs_from_range_bounds (lo, Unbounded)), exclude) :: new)) = Ret new /\
    tiles NegInf new high /\ new <> [] /\ (forall x, x ∈ map snd new -> x ∈ map snd ((r, c) :: rest) \/ x = exclude) /\
    (forall r' c' a', last new = Some (r', c') -> range_at r' a' high -> cut_lt a' U) /\
    forall p, cut_lt p high -> tile_at p new = if is_lt (cut_cmp p (lower_cut lo)) then Some exclude else tile_at p edges.
Proof.
  intros Hlo Hr Ht Ha Hb HU Hlast Hp. pose proof (tiles_le _ _ _ Ht) as Hbh.
  assert (Hclip : forall lo', bound_valid lo' = true -> cut_lt (lower_cut lo') b -> exists r',
    clip_first lo' ((r, c) :: rest) = Ret ((r', c) :: rest) /\ range_at r' (lower_cut lo') b).
  { intros lo' Hv' Hlt'. destruct (range_at_bounds r a b Hr) as (l' & hi & _ & Eb & _ & <- & _ & Vhi). cbn [clip_first].
    rewrite Eb. cbn [unwrap obind snd]. eexists. split; [done|]. by apply from_bounds_range_at. }
  assert (Hlast' : forall r' x, range_at r' x b -> cut_lt x U ->
    forall r1 c1 a1, last ((r', c) :: rest) = Some (r1, c1) -> range_at r1 a1 high -> cut_lt a1 U).
  { intros r' x Hr' Hx r1 c1 a1. destruct rest as [|e rest']; [|intros E; by apply (Hlast r1 c1)]. cbn in Ht. subst high. cbn.
    intros [= <- <-] Hr1. by destruct (range_at_unique _ _ _ _ _ Hr' Hr1) as [<- _]. }
  assert (Hin : forall p, cut_le b p -> cut_lt p high -> tile_at p rest = tile_at p edges).
  { intros p Hbp Hph. rewrite <- Hp by (done || cut_order). rewrite (tile_at_cons r c rest a b) by done.
    destruct (in_cuts p (a, b)) eqn:E; [|done]. apply in_cuts_iff in E as [? ?]. cbn in *. cut_order. }
  assert (Hhere : forall p, cut_le a p -> cut_lt p b -> tile_at p edges = Some c).
  { intros p Hap Hpb. rewrite <- Hp by (done || cut_order). rewrite (tile_at_cons r c rest a b) by done.
    by rewrite (proj2 (in_cuts_iff p (a, b))). }
  destruct (is_unbounded lo) eqn:Eu.
  - destruct lo; try done. cbn [lower_cut] in *. assert (a = NegInf) as -> by (apply cut_le_antisym; [done|apply neg_inf_least]).
    eexists. split; [done|]. split; [by exists b|]. split; [done|]. split; [by left|]. split; [done|].
    intros p Hph. pose proof (tile_before NegInf p) as Hb'. pose proof (neg_inf_least p). destruct (is_lt _); [cut_order|]. by apply Hp.
  - destruct (Z.eqb_spec exclude c) as [->|Hne].
    + destruct (Hclip Unbounded) as (r' & -> & Hr'); [done|cbn; pose proof (neg_inf_least (lower_cut lo)); cut_order|]. cbn [lower_cut] in Hr'.
      eexists. split; [done|]. split; [by exists b|]. split; [done|]. split; [by left|]. split.
      { apply (Hlast' r' NegInf); [done|]. pose proof (neg_inf_least (lower_cut lo)). cut_order. }
      intros p Hph. rewrite (tile_at_cons r' c rest NegInf b) by done. pose proof (tile_before (lower_cut lo) p) as Hb'. pose proof (neg_inf_least p).
      destruct (in_cuts p (NegInf, b)) eqn:E.
      * destruct (is_lt _); [done|]. apply in_cuts_iff in E as [? ?]. cbn in *. symmetry. apply Hhere; cut_order.
      * assert (cut_le b p) by (rewrite <- cut_not_lt; intros ?; apply not_true_iff_false in E; by apply E, in_cuts_iff).
        destruct (is_lt _); [cut_order|]. auto.
    + destruct (Hclip lo) as (r' & -> & Hr'); [done|done|]. cbn [obind]. pose proof (complement_lower lo Hlo Eu) as Hcomp.
      eexists. split; [done|]. split; [exists (lower_cut lo); split; [done|]; by exists b|]. split; [done|]. split.
      { intros x [->|Hx]%elem_of_cons; [by right|by left]. }
      split; [by apply (Hlast' r' (lower_cut lo))|]. intros p Hph. rewrite (tile_at_cons _ exclude _ NegInf (lower_cut lo)) by done.
      rewrite (tile_at_cons r' c rest (lower_cut lo) b) by done. pose proof (tile_before (lower_cut lo) p) as Hb'. pose proof (neg_inf_least p).
      destruct (is_lt _) eqn:Elt.
      * by rewrite (proj2 (in_cuts_iff p (NegInf, lower_cut lo))).
      * destruct (in_cuts p (NegInf, lower_cut lo)) eqn:E; [apply in_cuts_iff in E as [? ?]; cbn in *; cut_order|].
        destruct (in_cuts p (lower_cut lo, b)) eqn:E2; [apply in_cuts_iff in E2 as [? ?]; cbn in *; symmetry; apply Hhere; cut_order|].
        apply Hin; [|done]. rewrite <- cut_not_lt. intros ?. apply not_true_iff_false in E2. by apply E2, in_cuts_iff.
Qed.

(** The upper end. *)
Lemma complexify_upper (hi : BoundOf T) exclude new high : bound_valid hi = true -> tiles NegInf new high -> new <> [] ->
  cut_le (upper_cut hi) high ->
  (forall r c a, last new = Some (r, c) -> range_at r a high -> cut_lt a (upper_cut hi)) ->
  exists new', (if is_unbounded hi then Ret new
     else match last new with
       | None => Panic
       | Some (_, last_node) =>
           if exclude =? last_node then clip_last Unbounded new
           else let! new := clip_last hi new in
             Ret (new ++ [(rs_complement (rs_from_range_bounds (Unbounded, hi)), exclude)])
       end) = Ret new' /\
    tiles NegInf new' PosInf /\ (forall x, x ∈ map snd new' -> x ∈ map snd new \/ x = exclude) /\
    forall p, cut_lt p PosInf -> tile_at p new' = if is_lt (cut_cmp p (upper_cut hi)) then tile_at p new else Some exclude.
Proof.
  intros Hhi Ht Hne HU Hlast. destruct (is_unbounded hi) eqn:Eu.
  { destruct hi; try done. cbn [upper_cut] in *. assert (high = PosInf) as -> by (apply cut_le_antisym; [apply pos_inf_greatest|done]).
    exists new. split; [done|]. split; [done|]. split; [by left|]. intros p Hp. by rewrite (proj2 (cut_lt_iff _ _) Hp). }
  destruct new as [|[r c] front _] using rev_ind; [done|]. apply tiles_app in Ht as (a & Hf & b & Hr & ->).
  rewrite last_snoc. specialize (Hlast r c a (last_snoc _ _) Hr). pose proof (tiles_le _ _ _ Hf) as Ha.
  pose proof (range_at_lt _ _ _ Hr) as Hah. pose proof (pos_inf_greatest high).
  assert (Hclip : forall hi', bound_valid hi' = true -> cut_lt a (upper_cut hi') -> exists r',
    clip_last hi' (front ++ [(r, c)]) = Ret (front ++ [(r', c)]) /\ range_at r' a (upper_cut hi')).
  { intros hi' Hv' Hlt'. destruct (range_at_bounds r a high Hr) as (lo & h' & _ & Eb & <- & _ & Vlo & _). unfold clip_last. rewrite last_snoc, Eb.
    cbn [unwrap obind fst]. rewrite set_last_snoc. eexists. split; [done|]. by apply from_bounds_range_at. }
  assert (Hold : forall p, tile_at p (front ++ [(r, c)]) = match tile_at p front with Some x => Some x | None => if in_cuts p (a, high) then Some c else None end).
  { intros p. rewrite tile_at_app. destruct (tile_at p front); [done|]. by rewrite (tile_at_cons r c [] a high). }
  assert (Hout : forall p, cut_le a p -> tile_at p front = None) by (intros p Hp; apply (tile_at_outside NegInf front a); auto).
  destruct (Z.eqb_spec exclude c) as [->|Hx].
  - destruct (Hclip Unbounded) as (r' & -> & Hr'); [done|cbn; cut_order|]. cbn [upper_cut] in Hr'.
    eexists. split; [done|]. split; [apply tiles_app; exists a; split; [done|]; by exists PosInf|]. split.
    { intros x. rewrite !map_app. by left. }
    intros p Hp. rewrite Hold, tile_at_app, (tile_at_cons r' c [] a PosInf) by done. pose proof (tile_before (upper_cut hi) p) as Hb.
    pose proof (tile_before a p) as Hb2. destruct (is_lt (cut_cmp p a)) eqn:Epa.
    + destruct (is_lt (cut_cmp p (upper_cut hi))); [|cut_order].
      replace (in_cuts p (a, PosInf)) with (in_cuts p (a, high)); [done|].
      apply Bool.eq_iff_eq_true. rewrite !in_cuts_iff. cbn. split; intros [? ?]; cut_order.
    + rewrite Hout by done. rewrite (proj2 (in_cuts_iff p (a, PosInf))) by done.
      destruct (is_lt _); [|done]. by rewrite (proj2 (in_cuts_iff p (a, high))) by (cbn; split; cut_order).
  - destruct (Hclip hi) as (r' & -> & Hr'); [done|done|]. cbn [obind]. pose proof (complement_upper hi Hhi Eu) as Hcomp.
    eexists. split; [done|]. split.
    { rewrite <- app_assoc. apply tiles_app. exists a. split; [done|]. exists (upper_cut hi). split; [done|]. by exists PosInf. }
    split. { intros x. rewrite !map_app. cbn. rewrite !elem_of_app, !list_elem_of_singleton. tauto. }
    intros p Hp. rewrite Hold, !tile_at_app, (tile_at_cons r' c [] a (upper_cut hi)), (tile_at_cons _ exclude [] (upper_cut hi) PosInf) by done.
    pose proof (tile_before (upper_cut hi) p) as Hb. pose proof (tile_before a p) as Hb2. destruct (is_lt (cut_cmp p a)) eqn:Epa.
    + destruct (is_lt (cut_cmp p (upper_cut hi))); [|cut_order]. destruct (tile_at_some NegInf front a p) as (? & x & _ & _ & _ & _ & _ & _ & ->);
        [done|apply neg_inf_least|done|]. done.
    + rewrite Hout by done. destruct (is_lt _).
      * rewrite (proj2 (in_cuts_iff p (a, upper_cut hi))) by done. by rewrite (proj2 (in_cuts_iff p (a, high))) by (cbn; split; cut_order).
      * destruct (in_cuts p (a, upper_cut hi)) eqn:E; [apply in_cuts_iff in E as [? ?]; cbn in *; cut_order|].
        by rewrite (proj2 (in_cuts_iff p (upper_cut hi, PosInf))).
Qed.

Lemma complexify_edges_spec (lo hi : BoundOf T) py exclude edges : bound_valid lo = true -> bound_valid hi = true ->
  range_at py (lower_cut lo) (upper_cut hi) -> tiles NegInf edges PosInf ->
  exists new, complexify_edges lo hi py exclude edges = Ret new /\ tiles NegInf new PosInf /\
    (forall x, x ∈ map snd new -> x ∈ map snd edges \/ x = exclude) /\
    forall p, cut_lt p PosInf -> tile_at p new = excluded (lower_cut lo) (upper_cut hi) exclude edges p.
Proof.
  intros Vlo Vhi Hpy Ht. pose proof (range_at_lt _ _ _ Hpy) as HLU. unfold complexify_edges. cbv zeta.
  pose proof (meeting_tiles py _ _ _ _ _ Hpy Ht) as Hm. cbv zeta in Hm. set (new0 := List.filter _ edges) in *.
  destruct Hm as [[_ Hc]|(a & b & T0 & N0 & _ & _ & Ha & Hb & P0)].
  { exfalso. pose proof (pos_inf_greatest (upper_cut hi)). pose proof (neg_inf_least (lower_cut lo)). destruct Hc as [?|[?|?]]; [cut_order..|done]. }
  assert (Ha' : cut_le a (lower_cut lo)) by (destruct Ha as [->|?]; [apply neg_inf_least|done]).
  assert (Hb' : cut_le (upper_cut hi) b) by (destruct Hb as [->|?]; [apply pos_inf_greatest|done]).
  assert (Hmeet : forall r c x y, (r, c) ∈ new0 -> range_at r x y -> cut_lt (lower_cut lo) y /\ cut_lt x (upper_cut hi)).
  { intros r c x y Hin Hr. apply list_elem_of_In, filter_In in Hin as [_ Hn]. apply negb_true_iff in Hn. cbn in Hn. by apply (intersects_iff py r (lower_cut lo) (upper_cut hi) x y) in Hn. }
  assert (Hsub : forall x, x ∈ map snd new0 -> x ∈ map snd edges).
  { intros x (e & -> & Hin)%elem_of_map. apply list_elem_of_In, filter_In in Hin as [He _]. apply elem_of_map. exists e. split; [done|]. by apply list_elem_of_In. }
  clearbody new0. destruct new0 as [|[r c] rest]; [done|]. destruct T0 as (m & Hr & T0).
  destruct (complexify_lower lo (upper_cut hi) exclude edges r c rest a m b) as (n1 & E1 & T1 & N1 & S1 & L1 & P1); try done.
  { by apply (Hmeet r c a m); [left|]. }
  { intros r' c' a' El Hr'. apply (Hmeet r' c' a' b); [|done]. apply last_Some in El as [l ->]. apply elem_of_app. right. by left. }
  destruct (complexify_upper hi exclude n1 b) as (n2 & E2 & T2 & S2 & P2); try done.
  exists n2. split; [match goal with |- obind ?o _ = _ => replace o with (Ret n1) by (symmetry; exact E1) end; exact E2|]. split; [done|]. split.
  - intros x [[?%Hsub|?]%S1|?]%S2; auto.
  - intros p Hp. rewrite P2 by done. unfold excluded. pose proof (tile_before (upper_cut hi) p) as HbU. destruct (is_lt _) eqn:EU.
    + rewrite P1 by cut_order. pose proof (tile_before (lower_cut lo) p) as HbL. destruct (is_lt (cut_cmp p (lower_cut lo))).
      * destruct (in_cuts _ _) eqn:E; [apply in_cuts_iff in E as [? ?]; cbn in *; cut_order|done].
      * by rewrite (proj2 (in_cuts_iff p (lower_cut lo, upper_cut hi))).
    + destruct (in_cuts _ _) eqn:E; [apply in_cuts_iff in E as [? ?]; cbn in *; cut_order|done].
Qed.
End clip_facts.

(** ** Simplifying *)

Section operations.
Context {RV RS : Type} `{!RangeSet Version RV} `{!RangeSetLaws Version RV}.
Context `{!RangeSet Str RS} `{!RangeSetLaws Str RS}.

Abbreviation Edges := (EdgesOf RV RS).
Abbreviation Node := (NodeOf RV RS).
Abbreviation Interner := (InternerOf RV RS).
Implicit Types (v : Valuation) (s : Interner) (n : Node) (id c r : NodeId).

Context (lo hi : BoundOf Version).
Hypothesis (lo_valid : bound_valid lo = true) (hi_valid : bound_valid hi = true).

Definition py_range : RV := rs_from_range_bounds (lo, hi).

(** The Python version is in the range. *)
Definition in_range v : bool := rs_contains py_range (val_version v CPythonFullVersion).

Lemma py_range_cases : if is_lt (cut_cmp (lower_cut lo) (upper_cut hi)) then range_at py_range (lower_cut lo) (upper_cut hi)
  else rs_iter py_range = [].
Proof. apply covers_range_at, (rs_from_range_bounds_law (lo, hi)). unfold seg_valid. cbn. by rewrite lo_valid, hi_valid. Qed.

Lemma in_range_cut v : valuation_ok v ->
  in_range v = in_cuts (at_value (val_version v CPythonFullVersion)) (lower_cut lo, upper_cut hi).
Proof.
  intros Hv. destruct (rs_from_range_bounds_law (R := RV) (lo, hi)) as [Hok Hm]; [unfold seg_valid; cbn; by rewrite lo_valid, hi_valid|].
  unfold in_range. rewrite rs_contains_law by (done || apply Hv). by apply Hm.
Qed.

Lemma python_edges_spec n edges : python_edges n = Some edges -> node_var n = VVersion CPythonFullVersion /\ children n = EdgesVersion edges.
Proof. unfold python_edges. destruct (node_var n) as [|[]| | | |], (children n); try done. by intros [= <-]. Qed.

Lemma python_edges_none n : edges_ok (node_var n) (children n) -> python_edges n = None -> node_var n <> VVersion CPythonFullVersion.
Proof. unfold python_edges. intros He E Ev. rewrite Ev in *. by destruct (children n). Qed.

(** [r] agrees with [c] for the Python versions in the range. *)
Definition simplifies s (c r : NodeId) : Prop := valid_id s c /\ valid_id s r /\
  (forall w, w ∈ support s r -> w ∈ support s c) /\
  forall v, valuation_ok v -> in_range v = true -> den v s r = den v s c.

Lemma simplifies_ext s s' (c r : NodeId) : ext s s' -> simplifies s c r -> simplifies s' c r.
Proof.
  intros He (V & V' & Hw & Hd). split; [by eapply valid_ext|]. split; [by eapply valid_ext|].
  rewrite !(support_ext s s') by done. split; [done|]. intros v Hv Hr. rewrite !(den_ext v s s') by done. auto.
Qed.

Lemma simplifies_rebuilt s0 s (i id : NodeId) n : store_ok s0 -> ext s0 s -> valid_id s0 i -> 0 <= node_index i ->
  nodes s0 !! Z.to_nat (node_index i) = Some n -> rebuilt (fun s => s) simplifies i n s id -> simplifies s i id.
Proof.
  intros Hs0 He Hi H0 En (V & Hw & Hd). split; [by eapply valid_ext|]. split; [done|].
  pose proof (support_at s0 i n Hs0 Hi H0 En) as Hsup. split.
  - intros w Hin. rewrite (support_ext s0 s) by done. apply Hsup. destruct (Hw w Hin) as [->|(c & r & Hc & (_ & _ & HQ & _) & Hwr)]; [by left|right].
    exists c. split; [done|]. specialize (HQ w Hwr). rewrite support_negate in HQ. rewrite (support_ext s0 s) in HQ by (done || by eapply child_valid). done.
  - intros v Hv Hr. destruct (Hd v Hv) as (c & r & Ec & (Vc & _ & _ & HQ) & ->). rewrite HQ by done.
    destruct (den_at v s0 i n Hs0 Hi H0 En Hv) as (c' & Ec' & Hc' & E). rewrite Ec in Ec'. injection Ec' as <-.
    rewrite (den_ext _ s0 s i), E by done. apply den_ext; [done|]. apply valid_negate. by eapply child_valid.
Qed.

(** A new range map for the children of a [python_full_version] node. *)
Lemma python_node_runs s (i : NodeId) n edges new : interner_ok s -> valid_id s i -> 0 <= node_index i ->
  nodes s !! Z.to_nat (node_index i) = Some n -> python_edges n = Some edges -> tiles NegInf new PosInf ->
  (forall c, c ∈ map snd new -> c ∈ map snd edges \/ c = node_true \/ c = node_false) ->
  runs interner_ok ext (let* id := create_node (node_var n) (EdgesVersion new) in mpure (node_negate id i)) s
    (fun r s' => valid_id s' r /\ (forall w, w ∈ support s' r -> w ∈ support s i) /\
      forall v, valuation_ok v -> exists c, tile_at (at_value (val_version v CPythonFullVersion)) new = Some c /\
        den v s' r = den v s' (node_negate c i)).
Proof.
  intros Hok Hi H0 En Epy Hnew Hsub. pose proof (interner_store _ Hok) as Hs. destruct (python_edges_spec n edges Epy) as [Ev Ech].
  destruct (support_head s i n Hs Hi H0 En) as (Hroot & _ & Hch). destruct (valid_terminal s) as [VT VF].
  assert (Hc : forall c, c ∈ map snd new -> valid_id s c /\ forall w, w ∈ support s c -> w ∈ support s i /\ var_lt (node_var n) w).
  { intros c [Hc|[->| ->]]%Hsub; [|split; [done|]; by intros w ?%elem_of_nil..].
    assert (c ∈ edge_nodes (children n)) by (by rewrite Ech). split; [by eapply child_valid|]. by apply Hch. }
  run_seq; [apply create_node_runs; [done| |by apply tiles_nonempty]|].
  - split; [by rewrite Ev|]. split; [intros c ?; by apply Hc|]. intros c w Hin Hw. by apply (Hc c Hin).
  - intros id s' Hs' He (V & Hw & Hd). run_pure; [done|]. split; [by apply valid_negate|]. split.
    + intros w. rewrite support_negate. intros [->|(c & Hin & Hwc)]%Hw; [done|]. rewrite (support_ext s s') in Hwc by (done || by apply Hc).
      by apply (Hc c Hin).
    + intros v Hv. destruct (Hd v Hv) as (c & Ec & Hin & E). exists c. rewrite !den_negate, E. split; [|done].
      rewrite Ev in Ec. cbn in Ec. rewrite (child_at_tile NegInf _ PosInf) in Ec by (done || apply Hv). done.
Qed.

(** The child of a [python_full_version] node. *)
Lemma python_den v s (i : NodeId) n edges : store_ok s -> valid_id s i -> 0 <= node_index i ->
  nodes s !! Z.to_nat (node_index i) = Some n -> python_edges n = Some edges -> valuation_ok v ->
  exists c, tile_at (at_value (val_version v CPythonFullVersion)) edges = Some c /\ c ∈ map snd edges /\
    valid_id s (node_negate c i) /\ den v s i = den v s (node_negate c i).
Proof.
  intros Hs Hi H0 En Epy Hv. destruct (python_edges_spec n edges Epy) as [Ev Ech].
  pose proof (node_edges _ _ _ (store_nodes s Hs _ _ En)) as Hed. rewrite Ev, Ech in Hed.
  destruct (den_at v s i n Hs Hi H0 En Hv) as (c & Ec & Hin & E). exists c.
  split; [|split; [by rewrite Ech in Hin|split; [apply valid_negate; by eapply child_valid|done]]].
  rewrite Ev, Ech in Ec. cbn in Ec. by rewrite (child_at_tile NegInf _ PosInf) in Ec by (done || apply Hv).
Qed.

Lemma simplify_runs fuel (i : NodeId) s : interner_ok s -> valid_id s i -> node_index i + 1 < Z.of_nat fuel ->
  runs interner_ok ext (simplify_fuel fuel lo hi i) s (fun r s' => simplifies s' i r).
Proof.
  revert i s. induction fuel as [|fuel IH]; intros i s Hok Hi Hf; [pose proof (node_index_bound i (proj1 Hi)); lia|].
  cbn [simplify_fuel]. pose proof (terminal_test i (proj1 Hi)) as Ht.
  destruct (node_is_true i || node_is_false i); cbn [orb]; [by run_pure|].
  destruct (is_unbounded lo && is_unbounded hi); [by run_pure|].
  run_get. destruct (shared_node_ret s i Hi Ht) as (n & Ei & En). run_read Ei. pose proof (interner_store _ Hok) as Hs.
  destruct (support_head s i n Hs Hi Ht En) as (Hroot & _ & Hch).
  destruct (python_edges n) as [edges|] eqn:Epy.
  - fold py_range. pose proof py_range_cases as Hpr. rewrite rs_is_empty_law. destruct (is_lt _) eqn:Elt.
    2: { rewrite Hpr. run_pure; [done|]. destruct (valid_terminal s). split; [done|]. split; [done|].
         split; [by intros w ?%elem_of_nil|]. intros v Hv. rewrite in_range_cut by done. intros [? ?]%in_cuts_iff. cbn in *.
         assert (cut_lt (lower_cut lo) (upper_cut hi)) as Hlt%cut_lt_iff by cut_order. congruence. }
    pose proof (range_at_empty _ _ _ Hpr) as Hne. rewrite rs_is_empty_law in Hne. rewrite Hne.
    destruct (python_edges_spec n edges Epy) as [Ev Ech].
    pose proof (node_edges _ _ _ (store_nodes s Hs _ _ En)) as Hed. rewrite Ev, Ech in Hed.
    destruct (simplify_edges_spec py_range _ _ edges Hpr Hed) as (new & Enew & Tn & Sn & Pn). run_read Enew.
    run_weaken; [apply (python_node_runs s i n edges new); try done; auto|].
    intros r s' Hs' He (V & Hw & Hd). split; [by eapply valid_ext|]. split; [done|]. rewrite (support_ext s s' i) by done. split; [done|].
    intros v Hv Hr. destruct (Hd v Hv) as (c & Ec & ->). destruct (python_den v s i n edges Hs Hi Ht En Epy Hv) as (c' & Ec' & _ & Vc & E).
    rewrite in_range_cut in Hr by done. apply in_cuts_iff in Hr as [? ?]. rewrite Pn, Ec' in Ec by done. injection Ec as ->.
    rewrite !(den_ext v s s'), E by done. done.
  - run_weaken; [apply (rebuild_runs (fun s => s) interner_ok ext interner_store (fun _ _ He => He) create_node create_node_runs simplifies); try done|].
    + apply simplifies_ext.
    + intros s' c r He Hc (_ & V & Hw & _). split; [done|]. intros w Hw'%Hw.
      rewrite support_negate, (support_ext s s') in Hw' by (done || by eapply child_valid). by apply (Hch c).
    + intros c s' Hc Hs' He. destruct (node_children _ _ _ (store_nodes s Hs _ _ En) c Hc).
      apply IH; [done|apply valid_negate; apply (valid_ext s); [done|by eapply child_valid]|]. rewrite node_index_negate. lia.
    + intros id s' Hs' He Hr. by eapply (simplifies_rebuilt s).
Qed.

Lemma simplify_spec s (i : NodeId) : interner_ok s -> valid_id s i ->
  runs interner_ok ext (simplify_python_versions i lo hi) s (fun r s' => simplifies s' i r).
Proof. intros Hs Hi. unfold simplify_python_versions. run_get. apply simplify_runs; [done|done|]. unfold enough. destruct Hi. lia. Qed.

(** ** Complexifying *)

Definition python_var : Var := VVersion CPythonFullVersion.

(** Variables that do not come after [python_full_version]. *)
Definition before_python (w : Var) : bool := is_le (variable_cmp w python_var).

(** [r] is the conjunction of [c] with the range. *)
Definition complexifies s (c r : NodeId) : Prop := valid_id s c /\ valid_id s r /\
  (forall w, w ∈ support s r -> w ∈ support s c \/ w = python_var) /\
  forall v, valuation_ok v -> den v s r = den v s c && in_range v.

Lemma complexifies_ext s s' (c r : NodeId) : ext s s' -> complexifies s c r -> complexifies s' c r.
Proof.
  intros He (V & V' & Hw & Hd). split; [by eapply valid_ext|]. split; [by eapply valid_ext|].
  rewrite !(support_ext s s') by done. split; [done|]. intros v Hv. rewrite !(den_ext v s s') by done. auto.
Qed.

Lemma complexifies_rebuilt s0 s (i id : NodeId) n : store_ok s0 -> ext s0 s -> valid_id s0 i -> 0 <= node_index i ->
  nodes s0 !! Z.to_nat (node_index i) = Some n -> rebuilt (fun s => s) complexifies i n s id -> complexifies s i id.
Proof.
  intros Hs0 He Hi H0 En (V & Hw & Hd). split; [by eapply valid_ext|]. split; [done|].
  pose proof (support_at s0 i n Hs0 Hi H0 En) as Hsup. split.
  - intros w Hin. rewrite (support_ext s0 s) by done. rewrite Hsup. destruct (Hw w Hin) as [->|(c & r & Hc & (_ & _ & HQ & _) & Hwr)]; [left; by left|].
    specialize (HQ w Hwr). rewrite support_negate in HQ. rewrite (support_ext s0 s) in HQ by (done || by eapply child_valid).
    destruct HQ as [HQ|HQ]; [|by right]. left. right. eauto.
  - intros v Hv. destruct (Hd v Hv) as (c & r & Ec & (Vc & _ & _ & HQ) & ->). rewrite HQ by done. f_equal.
    destruct (den_at v s0 i n Hs0 Hi H0 En Hv) as (c' & Ec' & Hc' & E). rewrite Ec in Ec'. injection Ec' as <-.
    rewrite (den_ext _ s0 s i), E by done. apply den_ext; [done|]. apply valid_negate. by eapply child_valid.
Qed.

Lemma in_range_empty : rs_iter py_range = [] -> forall v, valuation_ok v -> in_range v = false.
Proof.
  intros E v Hv. pose proof py_range_cases as Hc. destruct (is_lt _) eqn:Elt.
  { destruct Hc as [_ Hc]. unfold rs_cuts in Hc. by rewrite E in Hc. }
  rewrite in_range_cut by done. apply not_true_iff_false. intros [? ?]%in_cuts_iff. cbn in *.
  assert (cut_lt (lower_cut lo) (upper_cut hi)) as Hlt%cut_lt_iff by cut_order. congruence.
Qed.

Lemma complexify_true s : interner_ok s -> range_at py_range (lower_cut lo) (upper_cut hi) ->
  runs interner_ok ext (let* edges := mlift (from_range py_range) in
    let* id := create_node python_var (EdgesVersion edges) in mpure (node_negate id node_true)) s
    (fun r s' => complexifies s' node_true r).
Proof.
  intros Hok Hr. destruct (from_range_edges py_range (proj1 Hr)) as (edges & Ee & Ht & Hl & Hch). run_read Ee.
  destruct (create_leaf s python_var (EdgesVersion edges) (interner_store _ Hok) Ht Hl) as (id & s' & E & Hg & V & Hw & Hd).
  run_step E; [apply Hg|]. run_pure; [by eapply grows_ok|]. split; [apply valid_terminal|]. split; [by apply valid_negate|]. split.
  - intros w. rewrite support_negate. intros ->%Hw. by right.
  - intros v Hv. rewrite den_negate. destruct (Hd v Hv) as (c & Ec & ->). cbn in Ec. rewrite Hch in Ec by apply Hv. injection Ec as <-.
    unfold in_range. by destruct (rs_contains _ _).
Qed.

Lemma complexify_runs fuel (i : NodeId) s : interner_ok s -> valid_id s i -> node_index i + 1 < Z.of_nat fuel ->
  (forall w, w ∈ support s i -> before_python w = true) ->
  runs interner_ok ext (complexify_fuel fuel lo hi i) s (fun r s' => complexifies s' i r).
Proof.
  revert i s. induction fuel as [|fuel IH]; intros i s Hok Hi Hf Hbef; [pose proof (node_index_bound i (proj1 Hi)); lia|].
  cbn [complexify_fuel]. pose proof (valid_terminal s) as [VT VF]. destruct (node_is_false i) eqn:Ef; cbn [orb].
  { apply is_false_iff in Ef as ->. run_pure; [done|]. split; [done|]. split; [done|]. split; [by intros w ?%elem_of_nil|done]. }
  destruct (is_unbounded lo && is_unbounded hi) eqn:Eu.
  { run_pure; [done|]. split; [done|]. split; [done|]. split; [by left|]. intros v Hv. rewrite in_range_cut by done.
    destruct lo, hi; try done. by rewrite andb_true_r. }
  fold py_range. pose proof py_range_cases as Hpr. destruct (is_lt _) eqn:Elt.
  2: { rewrite rs_is_empty_law, Hpr. run_pure; [done|]. split; [done|]. split; [done|]. split; [by intros w ?%elem_of_nil|].
       intros v Hv. by rewrite in_range_empty, andb_false_r. }
  rewrite (range_at_empty _ _ _ Hpr). destruct (node_is_true i) eqn:Et.
  { apply is_true_iff in Et as ->. by apply complexify_true. }
  assert (Ht : 0 <= node_index i) by (apply non_terminal; [apply Hi|intros ->; done..]).
  run_get. destruct (shared_node_ret s i Hi Ht) as (n & Ei & En). run_read Ei. pose proof (interner_store _ Hok) as Hs.
  destruct (support_head s i n Hs Hi Ht En) as (Hroot & _ & Hch). pose proof (node_edges _ _ _ (store_nodes s Hs _ _ En)) as Hed.
  destruct (python_edges n) as [edges|] eqn:Epy.
  - destruct (python_edges_spec n edges Epy) as [Ev Ech]. rewrite Ev, Ech in Hed.
    destruct (complexify_edges_spec lo hi py_range (node_negate node_false i) edges lo_valid hi_valid Hpr Hed) as (new & Enew & Tn & Sn & Pn).
    run_read Enew. run_weaken; [apply (python_node_runs s i n edges new); try done|].
    { intros c [?| ->]%Sn; [by left|]. unfold node_negate. destruct (is_complement i); [right; by left|right; by right]. }
    intros r s' Hs' He (V & Hw & Hd). split; [by eapply valid_ext|]. split; [done|]. rewrite (support_ext s s' i) by done. split; [by left; apply Hw|].
    intros v Hv. destruct (Hd v Hv) as (c & Ec & ->). destruct (python_den v s i n edges Hs Hi Ht En Epy Hv) as (c' & Ec' & _ & Vc & E).
    rewrite Pn in Ec by done. unfold excluded in Ec. rewrite in_range_cut by done. destruct (in_cuts _ _).
    + rewrite Ec' in Ec. injection Ec as ->. by rewrite !(den_ext v s s'), E, andb_true_r by done.
    + injection Ec as <-. by rewrite node_negate_negate, andb_false_r.
  - pose proof (python_edges_none n Hed Epy) as Hnp.
    assert (Hlt : var_lt (node_var n) python_var).
    { specialize (Hbef _ Hroot). unfold before_python in Hbef. unfold var_lt. destruct (variable_cmp (node_var n) python_var) eqn:Ec; try done.
      by apply (ord_eq variable_cmp) in Ec. }
    run_weaken; [apply (rebuild_runs (fun s => s) interner_ok ext interner_store (fun _ _ He => He) create_node create_node_runs complexifies); try done|].
    + apply complexifies_ext.
    + intros s' c r He Hc (_ & V & Hw & _). split; [done|]. intros w [Hw'| ->]%Hw; [|done].
      rewrite support_negate, (support_ext s s') in Hw' by (done || by eapply child_valid). by apply (Hch c).
    + intros c s' Hc Hs' He. destruct (node_children _ _ _ (store_nodes s Hs _ _ En) c Hc). assert (valid_id s c) by (by eapply child_valid).
      apply IH; [done|apply valid_negate; by apply (valid_ext s)|rewrite node_index_negate; lia|].
      intros w. rewrite support_negate, (support_ext s s') by done. intros Hw. by apply Hbef, (Hch c).
    + intros id s' Hs' He Hr. by eapply (complexifies_rebuilt s).
Qed.

Lemma complexify_spec s (i : NodeId) : interner_ok s -> valid_id s i -> (forall w, w ∈ support s i -> before_python w = true) ->
  runs interner_ok ext (complexify_python_versions i lo hi) s (fun r s' => complexifies s' i r).
Proof. intros Hs Hi Hb. unfold complexify_python_versions. run_get. apply complexify_runs; [done|done| |done]. unfold enough. destruct Hi. lia. Qed.
End operations.
