(* ===== verification/MarkerVersion.v ===== *)
(** * Version markers

    What [python_full_version], [implementation_version] and [python_version]
    comparisons mean on release versions, and that the nodes built for them mean
    that.  [python_version] has two release segments: [python_version_to_full_version]
    turns its comparisons into comparisons of [python_full_version], and the theorem
    here says the two agree for every full version whose first two segments are the
    Python version. *)

From Stdlib Require Import ZArith Lia.
From stdpp Require Import base list gmap.
From S2P Require Import Prelude.
From S2P Require Import VersionRepr.
From S2P Require Import VersionOrder.
From S2P Require Import VersionRecord.
From S2P Require Import Specifier.
From S2P Require Import Ranges.
From S2P Require Import RangeSet.
From S2P Require Import Stateful.
From S2P Require Import MarkerEdges.
From S2P Require Import MarkerTypes.
From S2P Require Import RangeInstances.
From S2P Require Import MarkerAlgebra.
From S2P Require Import MarkerStore.
From S2P Require Import MarkerOps.
From S2P Require Import MarkerConj.
Open Scope Z_scope.

(** ** Membership of releases *)

(** The release [r] satisfies the comparison with the release [t]. *)
Definition release_holds (op : Operator) (t r : list Z) : bool :=
  match op with
  | Equal | ExactEqual => is_eq (pad_cmp r t)
  | NotEqual => negb (is_eq (pad_cmp r t))
  | EqualStar => prefix_padded t r
  | NotEqualStar => negb (prefix_padded t r)
  | TildeEqual => prefix_padded (take (length t - 1) t) r && is_ge (pad_cmp r t)
  | LessThan => is_lt (pad_cmp r t)
  | LessThanEqual => is_le (pad_cmp r t)
  | GreaterThan => is_gt (pad_cmp r t)
  | GreaterThanEqual => is_ge (pad_cmp r t)
  end.

Lemma contains_release s v : spec_real s = true -> release_only (spec_version s) = true -> operator s <> ExactEqual ->
  release_only v = true -> contains s v = Ret (release_holds (operator s) (release (spec_version s)) (release v)).
Proof.
  intros Hs Ht Ho Hv. destruct (spec_real_elim s Hs) as (Rt & _ & Hl). destruct s as [o t]. cbn [operator spec_version] in *.
  destruct (release_only_elim v Hv) as (Rv & Fv & Ev & Lv). destruct (final_flags v Fv) as [F1 F2].
  destruct (release_only_elim t Ht) as (_ & _ & Et & _).
  pose proof (real_wf v Rv) as Wv. pose proof (real_wf t Rt) as Wt.
  assert (F3 : is_local v = false) by (unfold is_local; by rewrite Lv).
  unfold contains. cbn [operator spec_version]. rewrite candidate_no_local by done.
  destruct o; try done; rewrite ?greater_than_not_post, ?less_than_stable by done; cbn [release_holds]; unfold version_eq, contains_equal_star;
    rewrite ?cmp_release_only, ?Et, ?Ev, ?Z.eqb_refl by done; try done.
  - do 2 f_equal. rewrite pad_cmp_sym. by destruct (pad_cmp _ _).
  - rewrite tilde_equal_prefix by auto. by rewrite Et, Ev, Z.eqb_refl, cmp_release_only.
Qed.

(** ** Two release segments *)

(** The value of [python_version] for a full version: its first two segments. *)
Definition truncate (r : list Z) : list Z := [nth_or_0 r 0; nth_or_0 r 1].

Definition two_segments (r : list Z) : list Z := match r with [] => [0; 0] | [a] => [a; 0] | _ => r end.

Lemma two_segments_pad r k : pad_cmp (two_segments r) k = pad_cmp r k.
Proof. by destruct r as [|a [|b r]], k as [|x [|y k]]. Qed.

Lemma two_segments_prefix k r : prefix_padded k (two_segments r) = prefix_padded k r.
Proof.
  destruct r as [|a [|b r]], k as [|x [|y k]]; cbn; rewrite ?andb_true_r; done.
Qed.

Lemma two_segments_holds op t r : release_holds op t (two_segments r) = release_holds op t r.
Proof. destruct op; cbn; by rewrite ?two_segments_pad, ?two_segments_prefix. Qed.

Lemma two_segments_cons r : nonneg r -> exists a b r', two_segments r = a :: b :: r' /\ truncate r = [a; b] /\ nonneg (a :: b :: r').
Proof.
  intros H. destruct r as [|a [|b r']]; [exists 0, 0, []|exists a, 0, []|exists a, b, r']; (split; [done|]; split; [done|]); [by repeat constructor|by inv H; repeat constructor|done].
Qed.

Lemma nonneg_tail a b r' : nonneg (a :: b :: r') -> nonneg r' /\ nonneg [a; b].
Proof. unfold nonneg. rewrite !Forall_cons. intros (? & ? & ?). by repeat split. Qed.

Lemma all_zero_prefix l : all_zero l = prefix_padded l [].
Proof. induction l as [|x l IH]; [done|]. cbn. rewrite <- IH. by rewrite Z.eqb_sym. Qed.

Lemma pad_nil_cons x l : pad_cmp [] (x :: l) = then_with (0 ?= x) (pad_cmp [] l).
Proof. done. Qed.

Lemma not_all_zero_pad l : nonneg l -> all_zero l = false -> pad_cmp [] l = Lt.
Proof.
  induction 1 as [|x l Hx Hl IH]; [done|]. rewrite pad_nil_cons. unfold all_zero. cbn [forallb].
  destruct (Z.eqb_spec 0 x) as [<-|Hne]; cbn [andb]; [exact IH|]. by rewrite (proj2 (Z.compare_lt_iff 0 x)) by lia.
Qed.

Lemma all_zero_pad l : all_zero l = true -> pad_cmp [] l = Eq.
Proof.
  induction l as [|x l IH]; [done|]. rewrite pad_nil_cons. unfold all_zero. cbn [forallb]. by destruct (Z.eqb_spec 0 x) as [<-|]; [|done].
Qed.

Section two_segments.
Context (M m a b : Z) (r' : list Z).
Hypothesis r'_nonneg : nonneg r'.

(** Comparing with two segments. *)
Lemma pad_two (t : list Z) : pad_cmp [a; b] (M :: m :: t) = then_with (a ?= M) (then_with (b ?= m) (pad_cmp [] t)).
Proof. done. Qed.

Lemma truncated_equal t : all_zero t = true -> is_eq (pad_cmp [a; b] (M :: m :: t)) = prefix_padded [M; m] (a :: b :: r').
Proof.
  intros Ht. rewrite pad_two, all_zero_pad by done. cbn. rewrite andb_true_r.
  destruct (Z.compare_spec a M), (Z.eqb_spec M a); try lia; cbn; [|done..]. destruct (Z.compare_spec b m), (Z.eqb_spec m b); try lia; done.
Qed.

Lemma full_next : is_ge (pad_cmp (a :: b :: r') [M; m + 1]) = is_gt (pad_cmp [a; b] [M; m]) /\
  is_lt (pad_cmp (a :: b :: r') [M; m + 1]) = is_le (pad_cmp [a; b] [M; m]).
Proof.
  pose proof (pad_cmp_nil_nonneg r' r'_nonneg) as Hn. cbn. destruct (Z.compare_spec a M); cbn; try done.
  destruct (Z.compare_spec b m), (Z.compare_spec b (m + 1)); cbn; try lia; try done. by destruct (pad_cmp r' []).
Qed.

Lemma full_same : is_ge (pad_cmp (a :: b :: r') [M; m]) = is_ge (pad_cmp [a; b] [M; m]) /\
  is_lt (pad_cmp (a :: b :: r') [M; m]) = is_lt (pad_cmp [a; b] [M; m]).
Proof.
  pose proof (pad_cmp_nil_nonneg r' r'_nonneg) as Hn. cbn. destruct (Z.compare_spec a M); cbn; try done.
  destruct (Z.compare_spec b m); cbn; try done. by destruct (pad_cmp r' []).
Qed.

(** More segments that are not all zero are never reached. *)
Lemma beyond t : nonneg t -> all_zero t = false ->
  pad_cmp [a; b] (M :: m :: t) = match pad_cmp [a; b] [M; m] with Eq => Lt | c => c end.
Proof.
  intros Ht Hz. rewrite !pad_two, (not_all_zero_pad t) by done. cbn. by destruct (a ?= M), (b ?= m).
Qed.
End two_segments.

(** ** [python_version_to_full_version] *)

(** The translation says the same of every full version as the comparison says of
    its first two segments. *)
Definition translates (op : Operator) (t : list Z) (o : result VersionSpecifier NodeId) : Prop :=
  match o with
  | Ok s => spec_real s = true /\ release_only (spec_version s) = true /\ operator s <> ExactEqual /\
      forall r, nonneg r -> release_holds (operator s) (release (spec_version s)) r = release_holds op t (truncate r)
  | Err c => (c = node_true \/ c = node_false) /\
      forall r, nonneg r -> release_holds op t (truncate r) = node_is_true c
  end.

Lemma version_new_spec rs : Forall (fun x => 0 <= x < u64_max) rs -> rs <> [] ->
  exists w, version_new rs = Ret w /\ release w = rs /\ release_only w = true /\ is_local w = false.
Proof.
  intros Hr Hne. destruct (version_new_real rs Hr Hne) as (w & E & V & Rw). exists w. split; [done|].
  split; [by rewrite release_view, V|]. unfold release_only, is_local, final.
  by rewrite Rw, epoch_view, local_view, pre_view, post_view, dev_view, V.
Qed.

Lemma spec_real_two op w : release_only w = true -> is_local w = false -> (1 < length (release w))%nat -> spec_real (mkSpec op w) = true.
Proof.
  intros (Rw & _)%release_only_elim Lw Hl. unfold spec_real, spec_valid. cbn [spec_version operator]. rewrite Rw, Lw.
  rewrite (proj2 (Nat.ltb_lt _ _) Hl). by destruct (op_eqb op TildeEqual).
Qed.

(** The translated specifier, from what it says of two segments and more. *)
Lemma translates_two op op' t M m : 0 <= M < u64_max -> 0 <= m < u64_max -> op' <> ExactEqual ->
  (forall a b r', nonneg (a :: b :: r') -> release_holds op' [M; m] (a :: b :: r') = release_holds op t [a; b]) ->
  exists w, version_new [M; m] = Ret w /\ translates op t (Ok (mkSpec op' w)).
Proof.
  intros HM Hm Hx Hh. destruct (version_new_spec [M; m]) as (w & E & Er & Ho & Hl); [by rewrite Forall_cons, Forall_singleton|done|].
  exists w. split; [done|]. split; [by apply spec_real_two; rewrite ?Er; cbn; auto|]. split; [done|]. split; [done|].
  intros r Hr. cbn [operator spec_version]. rewrite Er, <- two_segments_holds.
  destruct (two_segments_cons r Hr) as (a & b & r' & -> & -> & Hr'). by apply Hh.
Qed.

(** The specifier itself, when it says the same. *)
Lemma translates_same s : spec_real s = true -> release_only (spec_version s) = true -> operator s <> ExactEqual ->
  (forall a b r', nonneg (a :: b :: r') -> release_holds (operator s) (release (spec_version s)) (a :: b :: r') =
    release_holds (operator s) (release (spec_version s)) [a; b]) ->
  translates (operator s) (release (spec_version s)) (Ok s).
Proof.
  intros Hs Ht Hx Hh. split; [done|]. split; [done|]. split; [done|]. intros r Hr. rewrite <- two_segments_holds.
  destruct (two_segments_cons r Hr) as (a & b & r' & -> & -> & Hr'). by apply Hh.
Qed.

Lemma prefix_two M m t a b : prefix_padded (M :: m :: t) [a; b] = (M =? a) && ((m =? b) && all_zero t).
Proof. cbn. by rewrite all_zero_prefix. Qed.

Lemma translate_star s : spec_real s = true -> release_only (spec_version s) = true -> is_star (operator s) = true ->
  (operator s = NotEqualStar -> all_zero (drop 2 (release (spec_version s))) = true) ->
  exists o, python_version_to_full_version s = Ret o /\ translates (operator s) (release (spec_version s)) o.
Proof.
  intros Hs Ht Hst Hne. destruct (release_only_elim _ Ht) as (Rt & _). pose proof (real_elim _ Rt) as R.
  pose proof (real_release _ R) as Hb. pose proof (real_nonempty _ R) as Hn.
  unfold python_version_to_full_version. rewrite Hst. destruct (release (spec_version s)) as [|M [|m rest]] eqn:Er; [done| |].
  - eexists. split; [done|]. rewrite <- Er. apply translates_same; [done|done|by destruct (operator s)|].
    intros a b r' _. rewrite Er. by destruct (operator s).
  - inv Hb. inv H2. destruct (all_zero rest) eqn:Ez.
    + destruct (translates_two (operator s) (operator s) (M :: m :: rest) M m) as (w & Ew & Htr); [done|done|by destruct (operator s)| |].
      { intros a b r' _. destruct (operator s); try done; cbn [release_holds]; rewrite prefix_two, Ez; cbn; by rewrite !andb_true_r. }
      rewrite Ew. cbn [obind]. exists (Ok (mkSpec (operator s) w)). split; [|done].
      destruct Htr as (_ & Ho & _). apply release_only_elim in Ho as (_ & _ & _ & Hl). unfold from_version, is_local. cbn [spec_version] in Hl.
      rewrite Hl. by destruct (operator s).
    + eexists. split; [done|]. split; [by right|]. intros r Hr. destruct (two_segments_cons r Hr) as (a & b & r' & _ & -> & _).
      destruct (operator s); try done; [cbn [release_holds]; by rewrite prefix_two, Ez, !andb_false_r|]. by rewrite (Hne eq_refl : all_zero rest = true) in Ez.
Qed.

Lemma translate_tilde s : spec_real s = true -> release_only (spec_version s) = true -> operator s = TildeEqual ->
  exists o, python_version_to_full_version s = Ret o /\ translates (operator s) (release (spec_version s)) o.
Proof.
  intros Hs Ht Hop. destruct (release_only_elim _ Ht) as (Rt & _). pose proof (real_elim _ Rt) as R.
  pose proof (real_release _ R) as Hb. destruct (spec_real_elim s Hs) as (_ & _ & Hl). specialize (Hl Hop).
  unfold python_version_to_full_version. rewrite Hop. cbn [is_star op_eqb op_index Z.eqb].
  destruct (release (spec_version s)) as [|M [|m rest]] eqn:Er; [cbn in Hl; lia..|]. inv Hb. inv H2.
  destruct rest as [|x rest].
  - eexists. split; [done|]. rewrite <- Er, <- Hop. apply translates_same; [done|done|by rewrite Hop|].
    intros a b r' [Hr' _]%nonneg_tail. rewrite Hop, Er. cbn [release_holds length Nat.sub take]. destruct (full_same M m a b r' Hr') as [E _]. rewrite E. done.
  - assert (Hz : forall a b, release_holds TildeEqual (M :: m :: x :: rest) [a; b] = (M =? a) && ((m =? b) && all_zero (x :: rest))).
    { intros a b. cbn [release_holds]. replace (take (length (M :: m :: x :: rest) - 1) (M :: m :: x :: rest))
        with (M :: m :: take (length rest) (x :: rest)) by (cbn [length]; replace (S (S (S (length rest))) - 1)%nat with (S (S (length rest))) by lia; done).
      rewrite prefix_two, pad_two. destruct (Z.eqb_spec M a) as [->|]; [|done]. destruct (Z.eqb_spec m b) as [->|]; [|done].
      rewrite !Z.compare_refl. cbn [then_with andb]. destruct (all_zero (x :: rest)) eqn:Ez.
      - rewrite all_zero_pad by done. rewrite andb_true_r. rewrite <- (take_drop (length rest) (x :: rest)) in Ez. unfold all_zero in Ez.
        rewrite forallb_app, andb_true_iff in Ez. exact (proj1 Ez).
      - rewrite not_all_zero_pad; [by rewrite andb_false_r| |done]. eapply Forall_impl; [eassumption|]. simpl. lia. }
    destruct (all_zero (x :: rest)) eqn:Ez.
    + destruct (translates_two TildeEqual EqualStar (M :: m :: x :: rest) M m) as (w & Ew & Htr); [done..| |].
      { intros a b r' _. rewrite Hz. cbn. by rewrite !andb_true_r. }
      rewrite Ew. cbn [obind]. by eexists.
    + eexists. split; [done|]. split; [by right|]. intros r Hr. destruct (two_segments_cons r Hr) as (a & b & r' & _ & -> & _).
      by rewrite Hz, !andb_false_r.
Qed.

(** A release whose trimmed form has more than two segments. *)
Lemma trimmed_long rs : (2 < length (trim_zeros rs))%nat -> exists M m rest, rs = M :: m :: rest /\ all_zero rest = false.
Proof.
  destruct rs as [|M [|m rest]]; rewrite ?trim_zeros_cons; [cbn; lia|cbn; destruct (M =? 0); cbn; lia|]. intros Hl. exists M, m, rest. split; [done|].
  destruct (all_zero rest) eqn:Ez; [|done]. exfalso. assert (trim_zeros rest = []) as E.
  { clear Hl. unfold all_zero in Ez. induction rest as [|x rest IH]; [done|]. cbn [forallb] in Ez. apply andb_true_iff in Ez as [<-%Z.eqb_eq Ez].
    rewrite trim_zeros_cons, IH by done. done. }
  rewrite E in Hl. destruct (m =? 0), (M =? 0); cbn in Hl; lia.
Qed.

(** The release one minor version later. *)
Definition minor_room (t : list Z) : bool := match t with _ :: m :: _ => m + 1 <? u64_max | _ => true end.

Definition ordered_op (op : Operator) : bool := negb (is_star op || op_eqb op TildeEqual).

Lemma translate_next op op' t M m : 0 <= M < u64_max -> 0 <= m -> m + 1 < u64_max -> op' <> ExactEqual ->
  (forall a b r', nonneg (a :: b :: r') -> release_holds op' [M; m + 1] (a :: b :: r') = release_holds op t [a; b]) ->
  exists o, (let! next := add64 m 1 in let! v := version_new [M; next] in Ret (Ok (mkSpec op' v))) = Ret o /\ translates op t o.
Proof.
  intros HM Hm Hm' Hx Hh. rewrite add64_below by lia. cbn [obind].
  destruct (translates_two op op' t M (m + 1)) as (w & -> & Htr); [done|lia|done|done|]. cbn [obind]. by eexists.
Qed.

(** One or two segments. *)
Lemma translate_short s M m : spec_real s = true -> release_only (spec_version s) = true -> ordered_op (operator s) = true ->
  0 <= M < u64_max -> 0 <= m -> m + 1 < u64_max ->
  (forall k, nonneg k -> pad_cmp k (release (spec_version s)) = pad_cmp k [M; m]) ->
  exists o, (let! version := version_new [M; m] in
    match operator s with
    | Equal | ExactEqual => Ret (Ok (equals_star_version version))
    | NotEqual => Ret (Ok (not_equals_star_version version))
    | GreaterThan => let! next := add64 m 1 in let! v := version_new [M; next] in Ret (Ok (greater_than_equal_version v))
    | LessThan => Ret (Ok s)
    | GreaterThanEqual => Ret (Ok s)
    | LessThanEqual => let! next := add64 m 1 in let! v := version_new [M; next] in Ret (Ok (less_than_version v))
    | EqualStar | NotEqualStar | TildeEqual => Panic
    end) = Ret o /\ translates (operator s) (release (spec_version s)) o.
Proof.
  intros Hs Ht Hop HM Hm Hm' Hk. set (t := release (spec_version s)) in *.
  assert (Heq : forall a b r', nonneg (a :: b :: r') -> prefix_padded [M; m] (a :: b :: r') = is_eq (pad_cmp [a; b] t)).
  { intros a b r' [_ Hab]%nonneg_tail. rewrite Hk by done. symmetry. by apply (truncated_equal M m a b r' []). }
  assert (Hself : operator s = LessThan \/ operator s = GreaterThanEqual -> translates (operator s) t (Ok s)).
  { intros Ho. apply translates_same; [done|done|by destruct Ho as [-> | ->]|]. intros a b r' Hr. pose proof (nonneg_tail _ _ _ Hr) as [Hr' Hab].
    destruct (full_same M m a b r' Hr') as [E1 E2]. destruct Ho as [-> | ->]; cbn [release_holds]; by rewrite !Hk. }
  assert (Hnext : forall a b r', nonneg (a :: b :: r') ->
    is_ge (pad_cmp (a :: b :: r') [M; m + 1]) = is_gt (pad_cmp [a; b] t) /\ is_lt (pad_cmp (a :: b :: r') [M; m + 1]) = is_le (pad_cmp [a; b] t)).
  { intros a b r' [Hr' Hab]%nonneg_tail. rewrite Hk by done. by apply full_next. }
  assert (Hnew : forall op', op' <> ExactEqual ->
    (forall a b r', nonneg (a :: b :: r') -> release_holds op' [M; m] (a :: b :: r') = release_holds (operator s) t [a; b]) ->
    exists w, version_new [M; m] = Ret w /\ translates (operator s) t (Ok (mkSpec op' w))) by (intros; apply translates_two; lia || done).
  destruct (version_new_spec [M; m]) as (w0 & Ew & _); [rewrite Forall_cons, Forall_singleton; lia|done|]. rewrite Ew. cbn [obind].
  destruct (operator s) eqn:Eop; try done; [| | | | | |].
  - destruct (Hnew EqualStar) as (w & Ew' & Htr); [done|intros; by apply Heq|]. rewrite Ew in Ew'. injection Ew' as <-. by eexists.
  - destruct (Hnew EqualStar) as (w & Ew' & Htr); [done|intros; by apply Heq|]. rewrite Ew in Ew'. injection Ew' as <-. by eexists.
  - destruct (Hnew NotEqualStar) as (w & Ew' & Htr); [done|intros; cbn [release_holds]; by rewrite Heq|]. rewrite Ew in Ew'. injection Ew' as <-. by eexists.
  - eexists. split; [done|]. apply Hself. by left.
  - apply translate_next; try done. intros a b r' Hr. by apply (Hnext a b r').
  - apply translate_next; try done. intros a b r' Hr. by apply (Hnext a b r').
  - eexists. split; [done|]. apply Hself. by right.
Qed.

(** More segments, not all of them zero. *)
Lemma translate_long s M m rest : release_only (spec_version s) = true -> ordered_op (operator s) = true ->
  release (spec_version s) = M :: m :: rest -> all_zero rest = false -> m + 1 < u64_max ->
  exists o, match operator s with
    | Equal | ExactEqual => Ret (Err node_false)
    | NotEqual => Ret (Err node_true)
    | LessThan | LessThanEqual => let! next := add64 m 1 in let! v := version_new [M; next] in Ret (Ok (less_than_version v))
    | GreaterThan | GreaterThanEqual => let! next := add64 m 1 in let! v := version_new [M; next] in Ret (Ok (greater_than_equal_version v))
    | EqualStar | NotEqualStar | TildeEqual => Panic
    end = Ret o /\ translates (operator s) (release (spec_version s)) o.
Proof.
  intros Ht Hop Er Ez Hm. destruct (release_only_elim _ Ht) as (Rt & _). pose proof (real_release _ (real_elim _ Rt)) as Hb. rewrite Er in *.
  inv Hb. inv H2. assert (Hn : nonneg rest) by (eapply Forall_impl; [eassumption|simpl; lia]).
  assert (Hcmp : forall a b, pad_cmp [a; b] (M :: m :: rest) = match pad_cmp [a; b] [M; m] with Eq => Lt | c => c end) by (intros; by apply beyond).
  assert (Hnext : forall a b r', nonneg (a :: b :: r') ->
    is_ge (pad_cmp (a :: b :: r') [M; m + 1]) = is_gt (pad_cmp [a; b] [M; m]) /\ is_lt (pad_cmp (a :: b :: r') [M; m + 1]) = is_le (pad_cmp [a; b] [M; m]))
    by (intros a b r' [Hr' _]%nonneg_tail; by apply full_next).
  assert (Hconst : forall c, (c = node_true \/ c = node_false) -> (forall a b, release_holds (operator s) (M :: m :: rest) [a; b] = node_is_true c) ->
    translates (operator s) (M :: m :: rest) (Err c)).
  { intros c Hc Hh. split; [done|]. intros r Hr. destruct (two_segments_cons r Hr) as (a & b & r' & _ & -> & _). apply Hh. }
  destruct (operator s) eqn:Eop; try done.
  - eexists. split; [done|]. apply Hconst; [by right|]. intros a b. cbn [release_holds]. rewrite Hcmp. by destruct (pad_cmp [a; b] [M; m]).
  - eexists. split; [done|]. apply Hconst; [by right|]. intros a b. cbn [release_holds]. rewrite Hcmp. by destruct (pad_cmp [a; b] [M; m]).
  - eexists. split; [done|]. apply Hconst; [by left|]. intros a b. cbn [release_holds]. rewrite Hcmp. by destruct (pad_cmp [a; b] [M; m]).
  - apply translate_next; try (done || lia). intros a b r' Hr. cbn [release_holds]. rewrite Hcmp, (proj2 (Hnext a b r' Hr)). by destruct (pad_cmp [a; b] [M; m]).
  - apply translate_next; try (done || lia). intros a b r' Hr. cbn [release_holds]. rewrite Hcmp, (proj2 (Hnext a b r' Hr)). by destruct (pad_cmp [a; b] [M; m]).
  - apply translate_next; try (done || lia). intros a b r' Hr. cbn [release_holds]. rewrite Hcmp, (proj1 (Hnext a b r' Hr)). by destruct (pad_cmp [a; b] [M; m]).
  - apply translate_next; try (done || lia). intros a b r' Hr. cbn [release_holds]. rewrite Hcmp, (proj1 (Hnext a b r' Hr)). by destruct (pad_cmp [a; b] [M; m]).
Qed.

(** Comparisons whose translation is exact: the next minor version exists, and
    [!= V.*] has at most two significant segments. *)
Definition translatable (s : VersionSpecifier) : bool :=
  minor_room (release (spec_version s)) &&
  implb (op_eqb (operator s) NotEqualStar) (all_zero (drop 2 (release (spec_version s)))).

Lemma python_version_translates s : spec_real s = true -> release_only (spec_version s) = true -> translatable s = true ->
  exists o, python_version_to_full_version s = Ret o /\ translates (operator s) (release (spec_version s)) o.
Proof.
  intros Hs Ht [Hm Hne]%andb_true_iff. destruct (is_star (operator s)) eqn:Est.
  { apply translate_star; [done..|]. intros Eop. by rewrite Eop in Hne. }
  destruct (op_eqb (operator s) TildeEqual) eqn:Eti; [apply translate_tilde; [done..|]; by apply op_eqb_eq|].
  assert (Hop : ordered_op (operator s) = true) by (unfold ordered_op; by rewrite Est, Eti).
  unfold python_version_to_full_version. rewrite Est, Eti.
  destruct (only_release_trimmed_real _ Ht) as (w & Ew & Erw). destruct (release_only_elim _ Ht) as (Rt & _).
  destruct (trimmed_cmp _ w [] Ht Ew) as [_ Hb]; [constructor|].
  assert (Hk : forall k, nonneg k -> pad_cmp k (release (spec_version s)) = pad_cmp k (release w)) by (intros; by apply trimmed_cmp).
  rewrite Ew. cbn [obind].
  assert (Hlong : (2 < length (release w))%nat -> exists M m rest, release (spec_version s) = M :: m :: rest /\ all_zero rest = false).
  { intros Hl. apply trimmed_long. rewrite Erw in Hl. destruct (trim_zeros _); [cbn in Hl; lia|done]. }
  assert (Hroom : forall M m, release w = [M; m] -> m + 1 < u64_max).
  { intros M m E. unfold minor_room in Hm. pose proof (rposition_trim (release (spec_version s))) as P. rewrite E in Erw.
    destruct (trim_zeros (release (spec_version s))) as [|a l] eqn:Etz; [done|]. destruct (rposition_nonzero _) as [i|]; [|done]. destruct P as [P _].
    destruct (release (spec_version s)) as [|x [|y rest]]; rewrite <- Erw, ?Nat.add_1_r in P; cbn in P; [done|by destruct i|].
    destruct i as [|i]; [done|]. injection P as _ -> _. by apply Z.ltb_lt in Hm. }
  destruct (release w) as [|M [|m [|x rest]]] eqn:Erl.
  - exfalso. by destruct (trim_zeros (release (spec_version s))).
  - inv Hb. apply translate_short; try (done || lia). intros k Hk'. rewrite Hk by done. apply pad_cmp_snoc_0.
  - inv Hb. inv H2. apply translate_short; try (done || lia). by eapply Hroom.
  - destruct Hlong as (M' & m' & rest' & Er & Ez); [cbn; lia|]. rewrite Er in Hm. cbn in Hm. apply Z.ltb_lt in Hm.
    rewrite Er. rewrite <- Er. apply translate_long with (rest := rest'); done.
Qed.

(** ** Version expressions *)

Section expressions.
Context {RV RS : Type} `{!RangeSet Version RV} `{!RangeSetLaws Version RV}.
Context `{!RangeSet Str RS} `{!RangeSetLaws Str RS}.

Abbreviation Edges := (EdgesOf RV RS).
Abbreviation Interner := (InternerOf RV RS).
Implicit Types (v : Valuation) (s : Interner) (id c : NodeId).

Lemma only_release_spec (sp : VersionSpecifier) : spec_real sp = true ->
  exists w, spec_only_release sp = Ret (mkSpec (operator sp) w) /\ release w = release (spec_version sp) /\
    release_only w = true /\ spec_real (mkSpec (operator sp) w) = true.
Proof.
  intros Hs. destruct (spec_real_elim sp Hs) as (Rt & _ & Hl). pose proof (real_elim _ Rt) as R.
  destruct (version_new_spec (release (spec_version sp))) as (w & E & Er & Ho & Lw); [apply (real_release _ R)|apply (real_nonempty _ R)|].
  exists w. split; [unfold spec_only_release, only_release; by rewrite E|]. split; [done|]. split; [done|].
  unfold spec_real, spec_valid. cbn [spec_version operator]. rewrite (proj1 (release_only_elim _ Ho)), Lw. cbn [implb andb].
  destruct (op_eqb (operator sp) TildeEqual) eqn:Eti; [|done]. apply op_eqb_eq in Eti. cbn [implb]. rewrite Er. by apply Nat.ltb_lt, Hl.
Qed.

(** The edges of a comparison. *)
Lemma from_specifier_edges (sp : VersionSpecifier) : spec_real sp = true -> operator sp <> ExactEqual ->
  exists edges, from_specifier (RV := RV) (RS := RS) sp = Ret (EdgesVersion edges) /\ tiles NegInf edges PosInf /\
    (forall c, c ∈ map snd edges -> c = node_true \/ c = node_false) /\
    forall x, release_only x = true -> child_at x edges =
      Some (if release_holds (operator sp) (release (spec_version sp)) (release x) then node_true else node_false).
Proof.
  intros Hs Hx. destruct (only_release_spec sp Hs) as (w & Ew & Er & Ho & Hs'). unfold from_specifier. rewrite Ew. cbn [obind].
  assert (Hr : forall x, release_only x = true -> exists r : RV, release_specifier_to_range (mkSpec (operator sp) w) true = Ret r /\ rs_ok r /\
    rs_contains r x = release_holds (operator sp) (release (spec_version sp)) (release x)).
  { intros x Hrx. destruct (release_range_admits (R := RV) (mkSpec (operator sp) w) true x Hs' Ho Hx Hrx) as (b & Eb & r & E & Hok & Hc).
    exists r. split; [done|]. split; [done|]. rewrite (contains_release _ x Hs' Ho Hx Hrx) in Eb. injection Eb as <-. cbn in Hc |- *. by rewrite Hc, Er. }
  destruct (Hr _ Ho) as (r & Ereq & Hok & _). rewrite Ereq. cbn [obind].
  destruct (from_range_edges r Hok) as (edges & Ee & Htl & Hleaf & Hch). exists edges. split; [by rewrite Ee|]. split; [done|]. split; [done|].
  intros x Hrx. destruct (Hr x Hrx) as (r' & Er' & _ & Hc). rewrite Ereq in Er'. injection Er' as <-.
  rewrite Hch, Hc; [done|]. apply real_wf. by apply release_only_elim.
Qed.

Definition canonical_version_key (key : MarkerValueVersion) : CanonicalMarkerValueVersion :=
  match key with ImplementationVersion => CImplementationVersion | _ => CPythonFullVersion end.

(** What a comparison of the key says of the version. *)
Definition version_holds (key : MarkerValueVersion) (sp : VersionSpecifier) (x : Version) : bool :=
  release_holds (operator sp) (release (spec_version sp))
    (match key with PythonVersion => truncate (release x) | _ => release x end).

Definition version_key_ok (key : MarkerValueVersion) (sp : VersionSpecifier) : bool :=
  match key with PythonVersion => translatable sp | _ => negb (op_eqb (operator sp) ExactEqual) end.

Lemma version_leaf s k (sp : VersionSpecifier) : store_ok s -> spec_real sp = true -> operator sp <> ExactEqual ->
  exists id s', (let* e := mlift (from_specifier sp) in create_node (VVersion k) e) s = Ret (id, s') /\ grows s s' /\ valid_id s' id /\
    (forall w, w ∈ support s' id -> w = VVersion k) /\
    forall v, valuation_ok v -> release_only (val_version v k) = true ->
      den v s' id = release_holds (operator sp) (release (spec_version sp)) (release (val_version v k)).
Proof.
  intros Hs Hsp Hx. destruct (from_specifier_edges sp Hsp Hx) as (edges & Ee & Htl & Hleaf & Hch).
  destruct (create_leaf s (VVersion k) (EdgesVersion edges) Hs Htl Hleaf) as (id & s' & E & Hg & V & Hw & Hd).
  exists id, s'. split; [unfold mseq, mlift; rewrite Ee; exact E|]. split; [done|]. split; [done|]. split; [done|].
  intros v Hv Hro. destruct (Hd v Hv) as (c & Ec & ->). cbn in Ec. rewrite Hch in Ec by done. injection Ec as <-. by destruct (release_holds _ _ _).
Qed.

Lemma version_expression s key (sp : VersionSpecifier) : store_ok s -> spec_real sp = true ->
  version_key_ok key sp = true ->
  exists id s', expression (EVersion key sp) s = Ret (id, s') /\ grows s s' /\ valid_id s' id /\
    (forall w, w ∈ support s' id -> w = VVersion (canonical_version_key key)) /\
    forall v, valuation_ok v -> release_only (val_version v (canonical_version_key key)) = true ->
      den v s' id = version_holds key sp (val_version v (canonical_version_key key)).
Proof.
  intros Hs Hsp Hk.
  assert (Hlift : forall k, expression_edges (RV := RV) (RS := RS) (EVersion key sp) = outcome_map (fun e => Ok (VVersion k, e)) (from_specifier sp) ->
    expression (EVersion key sp) s = (let* e := mlift (from_specifier sp) in create_node (VVersion k) e) s).
  { intros k E. unfold expression, mseq, mlift. rewrite E. by destruct (from_specifier sp). }
  destruct key.
  - apply negb_true_iff in Hk. rewrite (Hlift CImplementationVersion) by done. apply version_leaf; try done. intros E. by rewrite E in Hk.
  - apply negb_true_iff in Hk. rewrite (Hlift CPythonFullVersion) by done. apply version_leaf; try done. intros E. by rewrite E in Hk.
  - destruct (only_release_spec sp Hsp) as (w & Ew & Er & Ho & Hsp'). cbn [canonical_version_key version_holds version_key_ok] in *.
    destruct (python_version_translates (mkSpec (operator sp) w) Hsp' Ho) as (o & Eo & Htr).
    { unfold translatable in *. cbn [spec_version operator]. by rewrite Er. }
    cbn [spec_version operator] in Htr. rewrite Er in Htr. destruct o as [sp'|c].
    + destruct Htr as (Hs1 & Ho1 & Hx1 & Hh). destruct (version_leaf s CPythonFullVersion sp' Hs Hs1 Hx1) as (id & s' & E & Hg & V & Hw & Hd).
      exists id, s'. split; [|split; [done|split; [done|split; [done|]]]].
      * rewrite <- E. unfold expression, mseq, mlift, expression_edges. rewrite Ew. cbn [obind]. rewrite Eo. cbn [obind]. by destruct (from_specifier sp').
      * intros v Hv Hro. rewrite Hd by done. apply Hh. apply real_nonneg. by apply release_only_elim.
    + destruct Htr as [Hc Hh]. exists c, s. split; [|split; [done|split; [by destruct Hc as [-> | ->]; apply valid_terminal|split]]].
      * unfold expression, mseq, mlift, expression_edges. rewrite Ew. cbn [obind]. rewrite Eo. done.
      * intros x Hx. destruct Hc as [-> | ->]; by apply elem_of_nil in Hx.
      * intros v Hv Hro. unfold version_holds. rewrite Hh by (apply real_nonneg; by apply release_only_elim). by destruct Hc as [-> | ->].
Qed.
End expressions.

(** ** Lists of versions *)

Section lists.
Context {RV RS : Type} `{!RangeSet Version RV} `{!RangeSetLaws Version RV}.
Context `{!RangeSet Str RS} `{!RangeSetLaws Str RS}.

Abbreviation Edges := (EdgesOf RV RS).
Abbreviation Interner := (InternerOf RV RS).
Implicit Types (v : Valuation) (s : Interner) (id c : NodeId).

Definition container_holds (op : ContainerOperator) (b : bool) : bool :=
  match op with ContainerIn => b | ContainerNotIn => negb b end.

(** The range of a list of segments, or its complement. *)
Lemma collect_range (l : list (BoundOf Version * BoundOf Version)) (op : ContainerOperator) : forallb seg_valid l = true ->
  let r := match op with ContainerNotIn => rs_complement (rs_collect (R := RV) l) | ContainerIn => rs_collect l end in
  rs_ok r /\ forall x : Version, wf x = true -> rs_contains r x = container_holds op (cut_mem (at_value x) (map seg_cuts l)).
Proof.
  intros Hl. destruct (rs_collect_law (R := RV) l Hl) as [Hok Hm].
  assert (Hc : forall x : Version, wf x = true -> rs_contains (rs_collect (R := RV) l) x = cut_mem (at_value x) (map seg_cuts l)).
  { intros x Hx. rewrite rs_contains_law by done. by apply Hm. }
  destruct op; cbv zeta; [done|]. destruct (rs_complement_law (T := Version) (R := RV) _ Hok) as [Hok' Hm']. split; [done|].
  intros x Hx. rewrite rs_contains_law, Hm', <- rs_contains_law by done. cbn. by rewrite Hc.
Qed.

(** [in] and [not in] with full versions compare whole versions. *)
Definition listed (versions : list Version) (x : Version) : bool := existsb (fun w => is_eq (cmp x w)) versions.

Lemma from_versions_edges versions op : forallb wf versions = true ->
  exists edges, from_versions (RV := RV) (RS := RS) versions op = Ret (EdgesVersion edges) /\ tiles NegInf edges PosInf /\
    (forall c, c ∈ map snd edges -> c = node_true \/ c = node_false) /\
    forall x, wf x = true -> child_at x edges = Some (if container_holds op (listed versions x) then node_true else node_false).
Proof.
  intros Hw. assert (Hl : forallb seg_valid (map (fun v : Version => (Included v, Included v)) versions) = true).
  { apply forallb_forall. intros sg (w & <- & Hin)%in_map_iff. rewrite forallb_forall in Hw. unfold seg_valid. cbn. by rewrite Hw. }
  destruct (collect_range _ op Hl) as [Hok Hc]. unfold from_versions. cbv zeta.
  replace (match op with ContainerIn => rs_collect _ | ContainerNotIn => _ end) with
    (match op with ContainerNotIn => rs_complement (rs_collect (R := RV) (map (fun v : Version => (Included v, Included v)) versions)) | ContainerIn => rs_collect (map (fun v : Version => (Included v, Included v)) versions) end) by (by destruct op).
  destruct (from_range_edges _ Hok) as (edges & Ee & Htl & Hleaf & Hch).
  exists edges. split; [by rewrite Ee|]. split; [done|]. split; [done|]. intros x Hx. rewrite Hch, Hc by done.
  replace (cut_mem (at_value x) (map seg_cuts (map (fun v : Version => (Included v, Included v)) versions))) with (listed versions x); [done|].
  clear -Hx Hw. induction versions as [|w versions IH]; [done|]. cbn in Hw. apply andb_true_iff in Hw as [Hw Hws].
  unfold listed, cut_mem. cbn [map existsb]. fold (listed versions x). rewrite IH by done. unfold cut_mem. f_equal.
  unfold seg_cuts. cbn [fst snd]. rewrite (value_in_cuts x (Included w) (Included w)) by done. unfold Specifier.above, Specifier.below. by destruct (cmp x w).
Qed.

(** [python_version] lists whose versions have at most two significant segments. *)
Definition two_significant (v : Version) : bool :=
  real v && (minor_room (release v) && all_zero (drop 2 (release v))).

Definition python_listed (versions : list Version) (x : Version) : bool :=
  existsb (fun w => release_holds Equal (release w) (truncate (release x))) versions.

Lemma python_segment w : two_significant w = true ->
  exists w0 sp (r : RV), only_release w = Ret w0 /\ python_version_to_full_version (equals_version w0) = Ret (Ok sp) /\
    release_specifier_to_range sp true = Ret r /\ rs_ok r /\
    forall x, release_only x = true -> rs_contains r x = release_holds Equal (release w) (truncate (release x)).
Proof.
  intros [Rw [Hm Hz]%andb_true_iff]%andb_true_iff. pose proof (real_elim _ Rw) as R.
  destruct (version_new_spec (release w)) as (w0 & E & Er & Ho & Lw); [apply (real_release _ R)|apply (real_nonempty _ R)|].
  exists w0. assert (Hs : spec_real (equals_version w0) = true).
  { unfold spec_real, spec_valid. cbn. rewrite (proj1 (release_only_elim _ Ho)), Lw. done. }
  destruct (python_version_translates (equals_version w0) Hs Ho) as (o & Eo & Htr).
  { unfold translatable. cbn [spec_version equals_version operator]. rewrite Er, Hm. done. }
  cbn [operator spec_version equals_version] in Htr. rewrite Er in Htr. destruct o as [sp|c].
  - destruct Htr as (Hs1 & Ho1 & Hx1 & Hh).
    destruct (release_range_admits (R := RV) sp true w0 Hs1 Ho1 Hx1 Ho) as (_ & _ & r & Erg & Hok & _).
    exists sp, r. split; [done|]. split; [done|]. split; [done|]. split; [done|]. intros x Hx.
    destruct (release_range_admits (R := RV) sp true x Hs1 Ho1 Hx1 Hx) as (b & Eb & r' & Er' & _ & Hc).
    rewrite Erg in Er'. injection Er' as <-. rewrite contains_release in Eb by done. injection Eb as <-.
    etrans; [exact Hc|]. apply Hh. apply real_nonneg. by apply release_only_elim.
  - exfalso. destruct Htr as [Hc Hh]. pose proof (real_nonneg _ Rw) as Hn. pose proof (Hh (release w) Hn) as H1. cbn [release_holds] in H1.
    assert (pad_cmp (truncate (release w)) (release w) = Eq) as E1.
    { destruct (release w) as [|M [|m rest]]; [done|by cbn; rewrite Z.compare_refl|]. unfold truncate. cbn [nth_or_0]. 
      rewrite pad_two, !Z.compare_refl. by apply all_zero_pad. }
    rewrite E1 in H1. destruct Hc as [-> | ->]; [|done].
    destruct (release w) as [|M rest] eqn:Erw; [by apply (real_nonempty _ R)|]. inv Hn.
    specialize (Hh [M + 1] ltac:(repeat constructor; lia)). cbn in Hh. by rewrite (proj2 (Z.compare_gt_iff (M + 1) M)) in Hh by lia.
Qed.

Lemma python_segments_spec versions : forallb two_significant versions = true ->
  exists l, python_versions_segments (RV := RV) versions = Ret (Ok l) /\ forallb seg_valid l = true /\
    forall x, release_only x = true -> cut_mem (at_value x) (map seg_cuts l) = python_listed versions x.
Proof.
  induction versions as [|w versions IH]; cbn [python_versions_segments forallb]; [by exists []|].
  intros [Hw (l & El & Hl & Hc)%IH]%andb_true_iff. destruct (python_segment w Hw) as (w0 & sp & r & -> & E1 & E2 & Hok & Hr).
  cbn [obind]. rewrite E1. cbn [obind]. rewrite E2. cbn [obind]. rewrite El. cbn [obind]. eexists. split; [done|]. split.
  - rewrite forallb_app, Hl. by destruct Hok as [-> _].
  - intros x Hx. rewrite map_app, cut_mem_app, Hc by done. unfold python_listed. cbn [existsb]. f_equal.
    rewrite <- Hr by done. symmetry. apply rs_contains_law; [done|]. apply real_wf. by apply release_only_elim.
Qed.

Lemma from_python_versions_edges versions op : forallb two_significant versions = true ->
  exists edges, from_python_versions (RV := RV) (RS := RS) versions op = Ret (Ok (EdgesVersion edges)) /\ tiles NegInf edges PosInf /\
    (forall c, c ∈ map snd edges -> c = node_true \/ c = node_false) /\
    forall x, release_only x = true -> child_at x edges = Some (if container_holds op (python_listed versions x) then node_true else node_false).
Proof.
  intros Hw. destruct (python_segments_spec versions Hw) as (l & El & Hl & Hc0). destruct (collect_range _ op Hl) as [Hok Hc].
  unfold from_python_versions. rewrite El. cbn [obind]. cbv zeta.
  replace (match op with ContainerIn => rs_collect _ | ContainerNotIn => _ end) with
    (match op with ContainerNotIn => rs_complement (rs_collect (R := RV) l) | ContainerIn => rs_collect l end) by (by destruct op).
  destruct (from_range_edges _ Hok) as (edges & Ee & Htl & Hleaf & Hch).
  exists edges. split; [by rewrite Ee|]. split; [done|]. split; [done|]. intros x Hx.
  assert (wf x = true) by (by apply real_wf, release_only_elim). by rewrite Hch, Hc, Hc0 by done.
Qed.

Definition versions_ok (key : MarkerValueVersion) (versions : list Version) : bool :=
  forallb (match key with PythonVersion => two_significant | _ => wf end) versions.

Definition versions_hold (key : MarkerValueVersion) (versions : list Version) (op : ContainerOperator) (x : Version) : bool :=
  container_holds op (match key with PythonVersion => python_listed | _ => listed end versions x).

Lemma version_in_expression s key versions op : store_ok s -> versions_ok key versions = true ->
  exists id s', expression (EVersionIn key versions op) s = Ret (id, s') /\ grows s s' /\ valid_id s' id /\
    (forall w, w ∈ support s' id -> w = VVersion (canonical_version_key key)) /\
    forall v, valuation_ok v -> release_only (val_version v (canonical_version_key key)) = true ->
      den v s' id = versions_hold key versions op (val_version v (canonical_version_key key)).
Proof.
  intros Hs Hk. set (k := canonical_version_key key).
  assert (exists edges, expression_edges (RV := RV) (RS := RS) (EVersionIn key versions op) = Ret (Ok (VVersion k, EdgesVersion edges)) /\
    tiles NegInf edges PosInf /\ (forall c, c ∈ map snd edges -> c = node_true \/ c = node_false) /\
    forall x, release_only x = true -> child_at x edges = Some (if versions_hold key versions op x then node_true else node_false))
    as (edges & Ee & Htl & Hleaf & Hch).
  { destruct key; cbn [versions_ok] in Hk.
    1,2: destruct (from_versions_edges versions op Hk) as (edges & Ee & Htl & Hleaf & Hch); exists edges; cbn [expression_edges];
      rewrite Ee; (split; [done|]; split; [done|]; split; [done|]); intros x Hx; rewrite Hch by (by apply real_wf, release_only_elim); done.
    destruct (from_python_versions_edges versions op Hk) as (edges & Ee & Htl & Hleaf & Hch). exists edges. cbn [expression_edges]. rewrite Ee. done. }
  destruct (create_leaf s (VVersion k) (EdgesVersion edges) Hs Htl Hleaf) as (id & s' & E & Hg & V & Hw & Hd).
  exists id, s'. split; [unfold expression, mseq, mlift; rewrite Ee; exact E|]. split; [done|]. split; [done|]. split; [done|].
  intros v Hv Hro. destruct (Hd v Hv) as (c & Ec & ->). cbn in Ec. rewrite Hch in Ec by done. injection Ec as <-. by destruct (versions_hold _ _ _ _).
Qed.
End lists.

(** The translation of [python_version] comparisons to [python_full_version]
    is exact: it returns, and it says of every full version what the comparison
    says of its first two segments. *)
Theorem python_version_translation_exact sp : spec_real sp = true -> release_only (spec_version sp) = true -> translatable sp = true ->
  exists o, python_version_to_full_version sp = Ret o /\
    forall r, nonneg r ->
      release_holds (operator sp) (release (spec_version sp)) (truncate r) =
      match o with
      | Ok sp' => release_holds (operator sp') (release (spec_version sp')) r
      | Err c => node_is_true c
      end.
Proof.
  intros H1 H2 H3. destruct (python_version_translates sp H1 H2 H3) as (o & E & H). exists o. split; [done|].
  destruct o as [sp'|c]; [|by apply H]. destruct H as (_ & _ & _ & H). intros r Hr. by rewrite H.
Qed.
