(* ===== verification/MarkerExpr.v ===== *)
(** * Marker expressions mean what they say

    [expr_holds] is the meaning of a single marker expression in an environment,
    stated on the values of the environment: release comparisons for versions
    ([python_version] on the first two segments), equality and lexicographic order
    for strings, substrings for [in], membership for extras and dependency groups.
    The marker built for an expression evaluates to it.

    [reachable] collects the states of the interner that its operations produce:
    all of them satisfy the invariant. *)

From Stdlib Require Import ZArith Lia String.
From stdpp Require Import base list gmap.
From S2P Require Import Prelude.
From S2P Require Import VersionRepr.
From S2P Require Import VersionOrder.
From S2P Require Import VersionRecord.
From S2P Require Import Specifier.
From S2P Require Import Ranges.
From S2P Require Import RangeSet.
From S2P Require Import Stateful.
From S2P Require Import MarkerEdges.
From S2P Require Import MarkerTypes.
From S2P Require Import RangeInstances.
From S2P Require Import MarkerAlgebra.
From S2P Require Import MarkerStore.
From S2P Require Import MarkerOps.
From S2P Require Import MarkerConj.
From S2P Require Import MarkerTree.
From S2P Require Import MarkerRestrict.
From S2P Require Import MarkerPython.
From S2P Require Import MarkerVersion.
Open Scope Z_scope.

(** ** The meaning of an expression *)

Definition string_expr_holds (env : MarkerEnvironment) (key : MarkerValueString) (op : MarkerOperator) (value : Str) : bool :=
  let x := get_string env (canonical_string_key key) in
  match op with
  | MIn => str_contains value x
  | MNotIn => negb (str_contains value x)
  | MContains => str_contains x value
  | MNotContains => negb (str_contains x value)
  | _ => let kv := normalize_platform key value in string_holds kv.1 op kv.2 (get_string env kv.1)
  end.

Definition expr_holds (env : MarkerEnvironment) (extras : ExtrasEnvironment) (e : MarkerExpression) : bool :=
  match e with
  | EVersion key sp => version_holds key sp (get_version env (canonical_version_key key))
  | EVersionIn key versions op => versions_hold key versions op (get_version env (canonical_version_key key))
  | EString key op value => string_expr_holds env key op value
  | EList (PairExtras extra) op => container_holds op (names_contain (env_extras extras) extra)
  | EList (PairDependencyGroup group) op => container_holds op (names_contain (env_dependency_groups extras) group)
  | EList (PairArbitrary _ _) _ => false
  | EExtra (ExtraNameValue extra) ExtraEqual => names_contain (env_extra extras) extra
  | EExtra (ExtraNameValue extra) ExtraNotEqual => negb (names_contain (env_extra extras) extra)
  | EExtra (ArbitraryExtra _) _ => false
  end.

(** Expressions with well-formed versions, an operator that strings have, and a
    valid name. *)
Definition expr_ok (e : MarkerExpression) : bool :=
  match e with
  | EVersion key sp => spec_real sp && version_key_ok key sp
  | EVersionIn key versions _ => versions_ok key versions
  | EString _ op _ => match op with MTildeEqual => false | _ => true end
  | EList p _ => match p with PairArbitrary _ _ => false | _ => true end
  | EExtra _ _ => true
  end.

(** ** The meaning in the terms of the marker specification *)

(** The field of the environment that a marker names, under its current and its older
    names. *)
Definition string_field (env : MarkerEnvironment) (key : MarkerValueString) : Str :=
  match key with
  | ImplementationName => implementation_name env
  | OsName | OsNameDeprecated => os_name env
  | PlatformMachine | PlatformMachineDeprecated => platform_machine env
  | PlatformPythonImplementation | PlatformPythonImplementationDeprecated | PythonImplementationDeprecated => platform_python_implementation env
  | PlatformRelease => platform_release env
  | PlatformSystem => platform_system env
  | PlatformVersion | PlatformVersionDeprecated => platform_version env
  | SysPlatform | SysPlatformDeprecated => sys_platform env
  end.

(** Only [platform_release] and [platform_version] have an order. *)
Definition has_order (key : MarkerValueString) : bool :=
  match key with PlatformRelease | PlatformVersion | PlatformVersionDeprecated => true | _ => false end.

Definition string_meaning (key : MarkerValueString) (op : MarkerOperator) (value x : Str) : bool :=
  match op with
  | MEqual => bytes_eqb x value
  | MNotEqual => negb (bytes_eqb x value)
  | MGreaterThan => has_order key && is_gt (str_cmp x value)
  | MLessThan => has_order key && is_lt (str_cmp x value)
  | MGreaterEqual => if has_order key then is_ge (str_cmp x value) else bytes_eqb x value
  | MLessEqual => if has_order key then is_le (str_cmp x value) else bytes_eqb x value
  | MIn => str_contains value x
  | MNotIn => negb (str_contains value x)
  | MContains => str_contains x value
  | MNotContains => negb (str_contains x value)
  | MTildeEqual => false
  end.

(** The release a version marker compares: the first two segments for [python_version]. *)
Definition version_field (env : MarkerEnvironment) (key : MarkerValueVersion) : Version :=
  match key with ImplementationVersion => sv_version (implementation_version env) | PythonFullVersion | PythonVersion => sv_version (python_full_version env) end.

Definition expr_meaning (env : MarkerEnvironment) (extras : ExtrasEnvironment) (e : MarkerExpression) : bool :=
  match e with
  | EVersion key sp => release_holds (operator sp) (release (spec_version sp))
      (match key with PythonVersion => truncate (release (version_field env key)) | _ => release (version_field env key) end)
  | EVersionIn key versions op =>
      container_holds op (match key with PythonVersion => python_listed versions (version_field env key) | _ => listed versions (version_field env key) end)
  | EString key op value => string_meaning key op value (string_field env key)
  | EList (PairExtras extra) op => container_holds op (names_contain (env_extras extras) extra)
  | EList (PairDependencyGroup group) op => container_holds op (names_contain (env_dependency_groups extras) group)
  | EList (PairArbitrary _ _) _ => false
  | EExtra (ExtraNameValue extra) ExtraEqual => names_contain (env_extra extras) extra
  | EExtra (ExtraNameValue extra) ExtraNotEqual => negb (names_contain (env_extra extras) extra)
  | EExtra (ArbitraryExtra _) _ => false
  end.

(** [platform_system] and [sys_platform] name the same platform.  The values are those of
    [platform.system()] and of [sys.platform] in the documentation of Python. *)
Definition platform_names : list (string * string) :=
  [("Linux", "linux"); ("Darwin", "darwin"); ("Windows", "win32"); ("Android", "android"); ("AIX", "aix"); ("Emscripten", "emscripten")]%string.
Definition platforms_agree (env : MarkerEnvironment) : Prop :=
  Forall (fun p => bytes_eqb (platform_system env) (bs p.1) = bytes_eqb (sys_platform env) (bs p.2)) platform_names.

(** Comparisons of [platform_system] with a known platform are made on [sys_platform]. *)
Lemma platform_system_meaning env op value : platforms_agree env -> op <> MTildeEqual ->
  string_expr_holds env PlatformSystem op value = string_meaning PlatformSystem op value (platform_system env).
Proof.
  intros Ha Ho. unfold platforms_agree, platform_names in Ha. rewrite !Forall_cons in Ha. cbn [fst snd] in Ha. destruct Ha as (H1 & H2 & H3 & H4 & H5 & H6 & _).
  unfold string_expr_holds, normalize_platform. cbn [match_name].
  destruct (bytes_eqb value (bs "Windows")) eqn:E1; [apply bytes_eqb_eq in E1 as ->|
  destruct (bytes_eqb value (bs "Darwin")) eqn:E2; [apply bytes_eqb_eq in E2 as ->|
  destruct (bytes_eqb value (bs "Linux")) eqn:E3; [apply bytes_eqb_eq in E3 as ->|
  destruct (bytes_eqb value (bs "AIX")) eqn:E4; [apply bytes_eqb_eq in E4 as ->|
  destruct (bytes_eqb value (bs "Emscripten")) eqn:E5; [apply bytes_eqb_eq in E5 as ->|
  destruct (bytes_eqb value (bs "Android")) eqn:E6; [apply bytes_eqb_eq in E6 as ->|]]]]]];
  destruct op; try done; cbn [fst snd string_holds string_meaning has_order get_string canonical_string_key]; congruence.
Qed.

Lemma expr_holds_meaning env extras e : platforms_agree env -> expr_ok e = true -> expr_holds env extras e = expr_meaning env extras e.
Proof.
  intros Ha Hok. destruct e as [key sp|key versions op|key op value|p op|name op]; [by destruct key|by destruct key| |done|done]. cbn [expr_holds expr_meaning expr_ok] in *.
  assert (Ho : op <> MTildeEqual) by (by intros ->). destruct key; try (by apply platform_system_meaning); unfold string_expr_holds; by destruct op.
Qed.

(** The interpreter is a release. *)
Definition env_release (env : MarkerEnvironment) : Prop :=
  release_only (sv_version (implementation_version env)) = true /\ release_only (sv_version (python_full_version env)) = true.

Lemma env_release_ok env : env_release env -> env_ok env.
Proof. intros [H1 H2]. split; by apply real_wf, release_only_elim. Qed.

Lemma env_release_version env k : env_release env -> release_only (get_version env k) = true.
Proof. by intros [H1 H2]; destruct k. Qed.

Section expr.
Context {RV RS : Type} `{!RangeSet Version RV} `{!RangeSetLaws Version RV}.
Context `{!RangeSet Str RS} `{!RangeSetLaws Str RS}.

Abbreviation Edges := (EdgesOf RV RS).
Abbreviation Interner := (InternerOf RV RS).
Implicit Types (v : Valuation) (s : Interner) (id c : NodeId).

(** A boolean variable or its negation. *)
Lemma bool_expression s var (b : bool) : store_ok s -> edges_ok (RV := RV) (RS := RS) var (from_bool b) ->
  exists id s', create_node var (from_bool b) s = Ret (id, s') /\ grows s s' /\ valid_id s' id /\
    (forall w, w ∈ support s' id -> w = var) /\
    forall v, valuation_ok v -> den v s' id = xorb (negb b) (val_bool v var).
Proof.
  intros Hs He. destruct (create_leaf s var (from_bool b) Hs He) as (id & s' & E & Hg & V & Hw & Hd).
  { intros c. destruct b; cbn; rewrite !elem_of_cons, elem_of_nil; intuition. }
  exists id, s'. split; [done|]. split; [done|]. split; [done|]. split; [done|].
  intros v Hv. destruct (Hd v Hv) as (c & Ec & ->). destruct b; cbn in Ec; injection Ec as <-; by destruct (val_bool v var).
Qed.

(** The marker of an expression. *)
Definition expression_node s (e : MarkerExpression) id : Prop := marker s id /\
  forall env extras, env_release env -> den (env_valuation env extras) s id = expr_holds env extras e.

Lemma bool_expression_node s e var (b : bool) : store_ok s -> edges_ok (RV := RV) (RS := RS) var (from_bool b) -> proper_var var = true ->
  expression_edges (RV := RV) (RS := RS) e = Ret (Ok (var, from_bool b)) ->
  (forall env extras, expr_holds env extras e = xorb (negb b) (val_bool (env_valuation env extras) var)) ->
  exists id s', expression e s = Ret (id, s') /\ grows s s' /\ expression_node s' e id.
Proof.
  intros Hs He Hp Ee Hh. destruct (bool_expression s var b Hs He) as (id & s' & E & Hg & V & Hw & Hd). exists id, s'.
  split; [unfold expression, mseq, mlift; rewrite Ee; exact E|]. split; [done|]. split; [split; [done|by intros w ->%Hw]|].
  intros env extras Henv. rewrite Hd, Hh by (apply env_valuation_ok; by apply env_release_ok). done.
Qed.

Ltac bool_node := match goal with H : store_ok ?s |- context [expression ?e ?s] =>
  refine (bool_expression_node s e _ _ H _ _ eq_refl _) end.

Lemma expression_spec s e : store_ok s -> expr_ok e = true ->
  exists id s', expression e s = Ret (id, s') /\ grows s s' /\ expression_node s' e id.
Proof.
  intros Hs He. destruct e as [key sp|key versions op|key op value|p op|name op].
  - apply andb_true_iff in He as [H1 H2]. destruct (version_expression s key sp Hs H1 H2) as (id & s' & E & Hg & V & Hw & Hd).
    exists id, s'. split; [done|]. split; [done|]. split; [split; [done|by intros w ->%Hw]|].
    intros env extras Henv. rewrite Hd; [done|apply env_valuation_ok; by apply env_release_ok|by apply env_release_version].
  - destruct (version_in_expression s key versions op Hs He) as (id & s' & E & Hg & V & Hw & Hd).
    exists id, s'. split; [done|]. split; [done|]. split; [split; [done|by intros w ->%Hw]|].
    intros env extras Henv. rewrite Hd; [done|apply env_valuation_ok; by apply env_release_ok|by apply env_release_version].
  - assert (Hstr : string_operator op = true -> exists id s', expression (EString key op value) s = Ret (id, s') /\ grows s s' /\
      expression_node s' (EString key op value) id).
    { intros Hop. destruct (string_expression s key op value Hs Hop) as (id & s' & E & Hg & V & Hw & Hd).
      exists id, s'. split; [done|]. split; [done|]. split; [split; [done|by intros w ->%Hw]|].
      intros env extras Henv. rewrite Hd by (apply env_valuation_ok; by apply env_release_ok). cbn. unfold string_expr_holds. by destruct op. }
    destruct op; try (by apply Hstr); try done;
      (bool_node; [done|done|]; intros env extras; cbn; by destruct (str_contains _ _)).
  - destruct p as [extra|group|]; [| |done]; destruct op;
      (bool_node; [done|done|]; intros env extras; cbn; by destruct (names_contain _ _)).
  - destruct name as [extra|x].
    + destruct op; (bool_node; [done|done|]; intros env extras; cbn; by destruct (names_contain _ _)).
    + exists node_false, s. split; [by destruct op|]. split; [done|]. split; [|done]. split; [apply valid_terminal|by intros w ?%elem_of_nil].
Qed.

Lemma expression_runs s e : interner_ok s -> expr_ok e = true ->
  runs interner_ok ext (expression e) s (fun id s' => expression_node s' e id).
Proof.
  intros Hs He. destruct (expression_spec s e (interner_store _ Hs) He) as (id & s' & E & Hg & Hn).
  exists id, s'. split; [done|]. split; [by eapply grows_ok|]. split; [apply Hg|done].
Qed.
End expr.

(** ** Expressions of any text

    The parser also produces expressions whose lowering departs from their meaning;
    lowering them still returns, and the interner stays well-formed. *)

(** What the parser guarantees of an expression. *)
Definition expr_parsed (e : MarkerExpression) : bool :=
  match e with
  | EVersion _ sp => spec_real sp && negb (op_eqb (operator sp) ExactEqual)
  | EVersionIn _ versions _ => forallb real versions
  | EString _ op _ => match op with MTildeEqual => false | _ => true end
  | EList _ _ | EExtra _ _ => true
  end.

Lemma only_release_trimmed_top M w : release w = [M; u64_max] -> make_full w = bare 0 [M; u64_max] -> only_release_trimmed w = Ret w.
Proof.
  intros Er V. unfold only_release_trimmed. rewrite Er. cbn -[u64_max]. unfold u64_max at 1. cbn.
  by rewrite epoch_view, pre_view, post_view, dev_view, local_view, vmin_view, vmax_view, V.
Qed.

(** The release after the last minor version is a bound, though not a real version. *)
Lemma top_range {RV} `{!RangeSet Version RV} `{!RangeSetLaws Version RV} op M : 0 <= M < u64_max -> op = GreaterThanEqual \/ op = LessThan ->
  exists w (r : RV), version_new [M; u64_max] = Ret w /\ spec_only_release (mkSpec op w) = Ret (mkSpec op w) /\
    release_specifier_to_range (mkSpec op w) true = Ret r /\ rs_ok r.
Proof.
  intros HM Hop. destruct (version_new_bare [M; u64_max]) as (w & E & V & W); [repeat constructor; unfold u64_max in *; lia|done|].
  assert (Er : release w = [M; u64_max]) by (by rewrite release_view, V). exists w.
  assert (Ew : spec_only_release (mkSpec op w) = Ret (mkSpec op w)).
  { unfold spec_only_release, only_release. cbn [spec_version operator]. by rewrite Er, E. }
  unfold release_specifier_to_range. cbn [operator spec_version]. rewrite (only_release_trimmed_top M) by done. cbn [obind].
  destruct Hop as [-> | ->]; eexists; (split; [done|]; split; [done|]; split; [done|]); [exact (higher_ok (R := RV) w W)|exact (strictly_lower_ok (R := RV) w W)].
Qed.

Section total.
Context {RV RS : Type} `{!RangeSet Version RV} `{!RangeSetLaws Version RV}.
Context `{!RangeSet Str RS} `{!RangeSetLaws Str RS}.

Abbreviation Interner := (InternerOf RV RS).
Implicit Types (s : Interner).

(** Edges that decide on one variable. *)
Definition leaf_edges (o : outcome (EdgesOf RV RS)) : Prop :=
  exists edges, o = Ret (EdgesVersion edges) /\ tiles NegInf edges PosInf /\ forall c, c ∈ map snd edges -> c = node_true \/ c = node_false.

Definition lowers (o : outcome (result VersionSpecifier NodeId)) : Prop :=
  exists r, o = Ret r /\ match r with Ok sp => leaf_edges (from_specifier sp) | Err c => c = node_true \/ c = node_false end.

Lemma leaf_specifier sp : spec_real sp = true -> operator sp <> ExactEqual -> leaf_edges (from_specifier sp).
Proof. intros H1 H2. destruct (from_specifier_edges (RV := RV) (RS := RS) sp H1 H2) as (edges & E & Ht & Hl & _). by exists edges. Qed.

Lemma lowers_translates op t o : translates op t o -> lowers (Ret o).
Proof. intros H. exists o. split; [done|]. destruct o; [destruct H as (? & _ & ? & _); by apply leaf_specifier|apply H]. Qed.

Lemma lowers_top op M : 0 <= M < u64_max -> op = GreaterThanEqual \/ op = LessThan ->
  lowers (let! v := version_new [M; u64_max] in Ret (Ok (mkSpec op v))).
Proof.
  intros HM Hop. destruct (top_range (RV := RV) op M HM Hop) as (w & r & E & Ew & Er & Hr). eexists. split; [by rewrite E|].
  destruct (from_range_edges r Hr) as (edges & Ee & Ht & Hl & _). exists edges. split; [|done].
  unfold from_specifier. rewrite Ew. cbn [obind]. rewrite Er. cbn [obind]. by rewrite Ee.
Qed.

Lemma lowers_two op M m : 0 <= M < u64_max -> 0 <= m < u64_max -> op <> ExactEqual ->
  lowers (let! v := version_new [M; m] in Ret (Ok (mkSpec op v))).
Proof.
  intros HM Hm Hx. destruct (version_new_spec [M; m]) as (w & E & Er & Ho & Hl); [by rewrite Forall_cons, Forall_singleton|done|].
  eexists. split; [by rewrite E|]. apply leaf_specifier; [|done]. apply spec_real_two; [done|done|]. rewrite Er. cbn. lia.
Qed.

Lemma lowers_next op M m : 0 <= M < u64_max -> 0 <= m < u64_max -> op = GreaterThanEqual \/ op = LessThan ->
  lowers (let! next := add64 m 1 in let! v := version_new [M; next] in Ret (Ok (mkSpec op v))).
Proof.
  intros HM Hm Hop. rewrite add64_below by lia. cbn [obind]. destruct (Z.eq_dec (m + 1) u64_max) as [->|]; [by apply lowers_top|].
  apply lowers_two; [done|lia|]. by destruct Hop as [-> | ->].
Qed.

Lemma python_version_lowers sp : spec_real sp = true -> release_only (spec_version sp) = true -> operator sp <> ExactEqual ->
  lowers (python_version_to_full_version sp).
Proof.
  intros Hs Ht Hx. destruct (release_only_elim _ Ht) as (Rt & _). pose proof (real_release _ (real_elim _ Rt)) as Hb.
  destruct (is_star (operator sp)) eqn:Est.
  { destruct (decide (operator sp = NotEqualStar /\ all_zero (drop 2 (release (spec_version sp))) = false)) as [[Eo Ez]|Hn].
    - unfold python_version_to_full_version. rewrite Est. destruct (release (spec_version sp)) as [|M [|m rest]] eqn:Er; [done|done|].
      rewrite (Ez : all_zero rest = false). eexists. split; [done|by right].
    - destruct (translate_star sp Hs Ht Est) as (o & -> & Ho); [|by eapply lowers_translates].
      intros Eo. destruct (all_zero _) eqn:E; [done|]. by destruct Hn. }
  destruct (op_eqb (operator sp) TildeEqual) eqn:Eti.
  { destruct (translate_tilde sp Hs Ht) as (o & -> & Ho); [by apply op_eqb_eq|by eapply lowers_translates]. }
  unfold python_version_to_full_version. rewrite Est, Eti. destruct (only_release_trimmed_real _ Ht) as (w & Ew & Erw).
  rewrite Ew. cbn [obind].
  assert (Hshort : forall M m, 0 <= M < u64_max -> 0 <= m < u64_max -> lowers (let! version := version_new [M; m] in
        match operator sp with
        | Equal | ExactEqual => Ret (Ok (equals_star_version version))
        | NotEqual => Ret (Ok (not_equals_star_version version))
        | GreaterThan => let! next := add64 m 1 in let! v := version_new [M; next] in Ret (Ok (greater_than_equal_version v))
        | LessThan => Ret (Ok sp)
        | GreaterThanEqual => Ret (Ok sp)
        | LessThanEqual => let! next := add64 m 1 in let! v := version_new [M; next] in Ret (Ok (less_than_version v))
        | EqualStar | NotEqualStar | TildeEqual => Panic
        end)).
  { intros M m HM Hm. pose proof (fun op => lowers_two op M m HM Hm) as Htwo. pose proof (fun op => lowers_next op M m HM Hm) as Hnext.
    destruct (version_new_spec [M; m]) as (v & Ev & _); [by rewrite Forall_cons, Forall_singleton|done|]. rewrite Ev in *. cbn [obind] in *.
    destruct (operator sp) eqn:Eo; try done; try (by apply Htwo); try (apply Hnext; auto);
      (eexists; split; [done|]; apply leaf_specifier; [done|by rewrite Eo]). }
  destruct (trimmed_cmp _ w [] Ht Ew) as [_ Hw]; [constructor|].
  destruct (release w) as [|M [|m [|x rest]]] eqn:Erl.
  - exfalso. by destruct (trim_zeros (release (spec_version sp))).
  - inv Hw. apply Hshort; [done|unfold u64_max; lia].
  - rewrite !Forall_cons in Hw. apply Hshort; apply Hw.
  - destruct (trimmed_long (release (spec_version sp))) as (M' & m' & rest' & Er & _).
    { destruct (trim_zeros _); [discriminate Erw|]. rewrite <- Erw. cbn. lia. }
    rewrite Er in Hb |- *. rewrite !Forall_cons in Hb. destruct Hb as (HM & Hm & _).
    pose proof (fun op => lowers_next op M' m' HM Hm) as Hnext.
    destruct (operator sp); try done; try (by apply Hnext; auto); (eexists; split; [done|]; cbn; auto).
Qed.

Lemma expression_leaf s k e o : store_ok s -> leaf_edges o ->
  expression_edges (RV := RV) (RS := RS) e = outcome_map (fun edges => Ok (VVersion k, edges)) o ->
  exists id s', expression e s = Ret (id, s') /\ grows s s' /\ valid_id s' id.
Proof.
  intros Hs (edges & -> & Ht & Hl) Ee. destruct (create_leaf s (VVersion k) (EdgesVersion edges) Hs Ht Hl) as (id & s' & E & Hg & V & _).
  exists id, s'. split; [unfold expression, mseq, mlift; rewrite Ee; exact E|done].
Qed.

Lemma expression_constant s e c : store_ok s -> expression_edges (RV := RV) (RS := RS) e = Ret (Err c) -> c = node_true \/ c = node_false ->
  exists id s', expression e s = Ret (id, s') /\ grows s s' /\ valid_id s' id.
Proof.
  intros Hs Ee Hc. exists c, s. split; [unfold expression, mseq, mlift; by rewrite Ee|]. split; [done|]. destruct Hc as [-> | ->]; apply valid_terminal; auto.
Qed.

(** The segments of a list of versions. *)
Lemma python_equal_range w : release_only w = true ->
  exists o, python_version_to_full_version (equals_version w) = Ret o /\
    match o with
    | Ok sp => exists r : RV, release_specifier_to_range sp true = Ret r /\ rs_ok r
    | Err c => c = node_true \/ c = node_false
    end.
Proof.
  intros Ht. unfold python_version_to_full_version. cbn [operator spec_version equals_version is_star op_eqb op_index Z.eqb].
  destruct (only_release_trimmed_real _ Ht) as (t & Et & Ert). rewrite Et. cbn [obind].
  destruct (trimmed_cmp _ t [] Ht Et) as [_ Hb]; [constructor|].
  assert (Htwo : forall M m, 0 <= M < u64_max -> 0 <= m < u64_max -> exists v, version_new [M; m] = Ret v /\
    exists r : RV, release_specifier_to_range (equals_star_version v) true = Ret r /\ rs_ok r).
  { intros M m HM Hm. destruct (version_new_spec [M; m]) as (v & E & Er & Ho & Hl); [by rewrite Forall_cons, Forall_singleton|done|].
    exists v. split; [done|]. destruct (release_range_admits (R := RV) (equals_star_version v) true v) as (_ & _ & r & E' & Hok & _); [|done..|by exists r].
    apply spec_real_two; [done|done|]. rewrite Er. cbn. lia. }
  destruct (release t) as [|M [|m [|x rest]]] eqn:Erl.
  - exfalso. by destruct (trim_zeros (release w)).
  - inv Hb. destruct (Htwo M 0) as (v & -> & Hr); [done|unfold u64_max; lia|]. by eexists.
  - rewrite !Forall_cons in Hb. destruct (Htwo M m) as (v & -> & Hr); [apply Hb..|]. by eexists.
  - destruct (trimmed_long (release w)) as (M' & m' & rest' & Er & _); [|rewrite Er; eexists; split; [done|by right]].
    destruct (trim_zeros _); [discriminate Ert|]. rewrite <- Ert. cbn. lia.
Qed.

Lemma python_segments_total versions : forallb real versions = true ->
  exists r, python_versions_segments (RV := RV) versions = Ret r /\
    match r with Ok l => forallb seg_valid l = true | Err c => c = node_true \/ c = node_false end.
Proof.
  induction versions as [|w versions IH]; cbn [python_versions_segments forallb]; [by exists (Ok [])|].
  intros [Rw (r & Er & Hr)%IH]%andb_true_iff. pose proof (real_elim _ Rw) as R.
  destruct (version_new_spec (release w)) as (w0 & E & Ew & Ho & Lw); [apply (real_release _ R)|apply (real_nonempty _ R)|].
  unfold only_release at 1. rewrite E. cbn [obind]. destruct (python_equal_range w0 Ho) as (o & -> & Hx). cbn [obind].
  destruct o as [sp|c]; [|by exists (Err c)]. destruct Hx as (rg & -> & Hok). cbn [obind]. rewrite Er. cbn [obind].
  destruct r as [l|c]; [exists (Ok (rs_iter rg ++ l))|exists (Err c)]; (split; [done|]); [|done]. rewrite forallb_app, Hr. by destruct Hok as [-> _].
Qed.

Lemma expression_lowered s e : store_ok s -> expr_parsed e = true ->
  exists id s', expression e s = Ret (id, s') /\ grows s s' /\ valid_id s' id.
Proof.
  intros Hs He. destruct (expr_ok e) eqn:Ok'.
  { destruct (expression_spec s e Hs Ok') as (id & s' & E & Hg & [V _] & _). by exists id, s'. }
  destruct e as [key sp|key versions op|key op value|p op|name op]; cbn [expr_ok expr_parsed] in *.
  - apply andb_true_iff in He as [Hsp Hx%negb_true_iff]. rewrite Hsp in Ok'.
    destruct key; cbn [version_key_ok] in Ok'; rewrite ?Hx in Ok'; try done.
    destruct (only_release_spec sp Hsp) as (w & Ew & _ & Ho & Hsp').
    destruct (python_version_lowers (mkSpec (operator sp) w) Hsp' Ho) as ([sp'|c] & Er & Hr);
      [cbn; intros E; by rewrite E in Hx| |].
    + apply (expression_leaf s CPythonFullVersion _ (from_specifier sp') Hs Hr). cbn [expression_edges]. rewrite Ew. cbn [obind]. by rewrite Er.
    + apply (expression_constant s _ c); [done| |done]. cbn [expression_edges]. rewrite Ew. cbn [obind]. by rewrite Er.
  - destruct key; cbn [versions_ok] in Ok'.
    1,2: exfalso; apply (Bool.eq_true_false_abs _ (proj2 (forallb_forall _ _) (fun x Hx => real_wf x (proj1 (forallb_forall _ _) He x Hx))) Ok').
    destruct (python_segments_total versions He) as ([l|c] & El & Hl).
    + apply (expression_leaf s CPythonFullVersion _ (outcome_map EdgesVersion (from_range
        (match op with ContainerNotIn => rs_complement (rs_collect (R := RV) l) | ContainerIn => rs_collect l end))) Hs).
      * destruct (collect_range (RV := RV) _ op Hl) as [Hok _]. destruct (from_range_edges _ Hok) as (edges & Ee & Ht & Hlf & _).
        exists edges. by rewrite Ee.
      * cbn [expression_edges]. unfold from_python_versions. rewrite El. cbn [obind]. destruct op; by destruct (from_range _).
    + apply (expression_constant s _ c); [done| |done]. cbn [expression_edges]. unfold from_python_versions. by rewrite El.
  - by destruct op.
  - destruct p as [| |key value]; [done|done|].
    destruct (bool_expression (RV := RV) (RS := RS) s (VList (PairArbitrary key value)) (match op with ContainerIn => true | ContainerNotIn => false end) Hs)
      as (id & s' & E & Hg & V & _); [by destruct op|]. exists id, s'. split; [|done]. unfold expression, mseq, mlift. cbn [expression_edges outcome_map]. exact E.
  - done.
Qed.

Lemma expression_total s e : interner_ok s -> expr_parsed e = true -> runs interner_ok ext (expression e) s (fun id s' => valid_id s' id).
Proof.
  intros Hs He. destruct (expression_lowered s e (interner_store _ Hs) He) as (id & s' & E & Hg & V).
  exists id, s'. split; [done|]. split; [by eapply grows_ok|]. split; [apply Hg|done].
Qed.
End total.
