(* ===== verification/MarkerDnf.v ===== *)
(** * Disjunctive normal form of markers (simplify.rs)

    Models [crates/uv-pep508/src/marker/simplify.rs]: the walk of a decision diagram
    that collects its paths to [true], the removal of redundant terms and clauses,
    and the order of the output; and the display of marker trees built on it.

    A disjunctive normal form is a list of clauses, a clause a list of expressions;
    it holds when all expressions of some clause hold.  This file proves that
    [simplify] and [sort] keep that meaning for terms whose equality and negation
    tests are exact. *)

From Stdlib Require Import ZArith Lia String.
From Stdlib Require Import Sorting.Sorted Sorting.Permutation.
From stdpp Require Import base list sorting.
From S2P Require Import Prelude.
From S2P Require Import VersionRepr.
From S2P Require Import VersionOrder.
From S2P Require Import Specifier.
From S2P Require Import RangeSet.
From S2P Require Import Stateful.
From S2P Require Import MarkerEdges.
From S2P Require Import MarkerTypes.
From S2P Require Import RangeInstances.
From S2P Require Import MarkerAlgebra.
From S2P Require Import MarkerTree.
Open Scope Z_scope.

(** ** Equality, negation and order of expressions *)

#[export] Instance MarkerValueVersion_eq_dec : EqDecision MarkerValueVersion.
Proof. solve_decision. Defined.
#[export] Instance MarkerValueString_eq_dec : EqDecision MarkerValueString.
Proof. solve_decision. Defined.
#[export] Instance MarkerValueList_eq_dec : EqDecision MarkerValueList.
Proof. solve_decision. Defined.
#[export] Instance MarkerValueExtra_eq_dec : EqDecision MarkerValueExtra.
Proof. solve_decision. Defined.
#[export] Instance CanonicalMarkerListPair_eq_dec : EqDecision CanonicalMarkerListPair.
Proof. solve_decision. Defined.

Fixpoint versions_eqb (l k : list Version) : bool :=
  match l, k with
  | [], [] => true
  | v :: l, w :: k => version_eq v w && versions_eqb l k
  | _, _ => false
  end.

(** The derived [PartialEq] of [MarkerExpression]. *)
Definition expression_eqb (x y : MarkerExpression) : bool :=
  match x, y with
  | EVersion k sp, EVersion k' sp' => bool_decide (k = k') && spec_eq sp sp'
  | EVersionIn k l o, EVersionIn k' l' o' => bool_decide (k = k') && versions_eqb l l' && bool_decide (o = o')
  | EString k o v, EString k' o' v' => bool_decide (k = k') && bool_decide (o = o') && bytes_eqb v v'
  | EList p o, EList p' o' => bool_decide (p = p') && bool_decide (o = o')
  | EExtra n o, EExtra n' o' => bool_decide (n = n') && bool_decide (o = o')
  | _, _ => false
  end.

(** [is_negation] *)
Definition is_negation (left right : MarkerExpression) : bool :=
  match left, right with
  | EVersion key specifier, EVersion key2 specifier2 =>
      bool_decide (key = key2) && version_eq (spec_version specifier) (spec_version specifier2) &&
      match negate (operator specifier) with
      | Some negated => op_eqb negated (operator specifier2)
      | None => false
      end
  | EVersionIn key versions op, EVersionIn key2 versions2 op2 =>
      bool_decide (key = key2) && versions_eqb versions versions2 && negb (bool_decide (op = op2))
  | EString key op value, EString key2 op2 value2 =>
      bool_decide (key = key2) && bytes_eqb value value2 &&
      match marker_op_negate op with
      | Some negated => bool_decide (negated = op2)
      | None => false
      end
  | EExtra name op, EExtra name2 op2 => bool_decide (name = name2) && bool_decide (extra_op_negate op = op2)
  | EList p op, EList p2 op2 => bool_decide (p = p2) && negb (bool_decide (op = op2))
  | _, _ => false
  end.

(** The derived [Ord] of [MarkerExpressionKind]: positions of the declarations. *)
Definition version_value_rank (k : MarkerValueVersion) : Z :=
  match k with ImplementationVersion => 0 | PythonFullVersion => 1 | PythonVersion => 2 end.

Definition string_value_rank (k : MarkerValueString) : Z :=
  match k with
  | ImplementationName => 0 | OsName => 1 | OsNameDeprecated => 2 | PlatformMachine => 3
  | PlatformMachineDeprecated => 4 | PlatformPythonImplementation => 5
  | PlatformPythonImplementationDeprecated => 6 | PythonImplementationDeprecated => 7
  | PlatformRelease => 8 | PlatformSystem => 9 | PlatformVersion => 10 | PlatformVersionDeprecated => 11
  | SysPlatform => 12 | SysPlatformDeprecated => 13
  end.

Definition list_value_rank (k : MarkerValueList) : Z := match k with Extras => 0 | DependencyGroups => 1 end.

Definition kind_rank (k : MarkerExpressionKind) : Z * Z :=
  match k with
  | KVersion key => (0, version_value_rank key)
  | KVersionIn key => (1, version_value_rank key)
  | KString key => (2, string_value_rank key)
  | KList key => (3, list_value_rank key)
  | KExtra => (4, 0)
  end.

Definition kind_cmp (a b : MarkerExpressionKind) : comparison :=
  pair_cmp Z.compare Z.compare (kind_rank a) (kind_rank b).

(** ** Simplification *)

Abbreviation Clause := (list MarkerExpression).
Abbreviation Dnf := (list Clause).

(** [Iterator::position] *)
Fixpoint position {A} (f : A -> bool) (l : list A) : option nat :=
  match l with
  | [] => None
  | x :: rest => if f x then Some 0%nat else option_map S (position f rest)
  end.

Definition contains_index (l : list nat) (i : nat) : bool := existsb (Nat.eqb i) l.

(** Whether [other_clause] makes [skipped_term] redundant in [clause]. *)
Definition covers_negation (clause other_clause : Clause) (redundant_terms : list nat) (skipped_term : MarkerExpression) : bool :=
  forallb (fun term =>
    if expression_eqb term skipped_term then false
    else if is_negation term skipped_term then true
    else match position (fun x => expression_eqb x term) clause with
         | Some i => negb (contains_index redundant_terms i)
         | None => false
         end) other_clause.

(** Some clause of [dnf] other than number [i], the first of [dnf] being number [j],
    passes the test. *)
Fixpoint any_other (i j : nat) (dnf : Dnf) (f : nat -> Clause -> bool) : bool :=
  match dnf with
  | [] => false
  | other_clause :: rest => (negb (Nat.eqb i j) && f j other_clause) || any_other i (S j) rest f
  end.

(** The loop over the terms of clause [i]. *)
Fixpoint redundant_terms_loop (dnf : Dnf) (i : nat) (clause : Clause) (skipped : nat) (terms : Clause) (redundant_terms : list nat) : list nat :=
  match terms with
  | [] => redundant_terms
  | skipped_term :: rest =>
      let found := any_other i 0 dnf (fun _ other_clause => covers_negation clause other_clause redundant_terms skipped_term) in
      redundant_terms_loop dnf i clause (S skipped) rest (if found then redundant_terms ++ [skipped] else redundant_terms)
  end.

(** Removal by position, from the last to the first; the positions ascend. *)
Definition remove_positions {A} (positions : list nat) (l : list A) : list A :=
  fold_left (fun l i => delete i l) (rev positions) l.

Definition simplify_clause (dnf : Dnf) (i : nat) : Dnf :=
  match dnf !! i with
  | Some clause => <[i := remove_positions (redundant_terms_loop dnf i clause 0 clause []) clause]> dnf
  | None => dnf
  end.

(** The loop over the clauses. *)
Fixpoint redundant_clauses_loop (dnf : Dnf) (i : nat) (clauses : Dnf) (redundant_clauses : list nat) : list nat :=
  match clauses with
  | [] => redundant_clauses
  | clause :: rest =>
      let found := any_other i 0 dnf (fun j other_clause =>
        negb (contains_index redundant_clauses j) &&
        forallb (fun term => existsb (fun x => expression_eqb x term) clause) other_clause) in
      redundant_clauses_loop dnf (S i) rest (if found then redundant_clauses ++ [i] else redundant_clauses)
  end.

Definition simplify (dnf : Dnf) : Dnf :=
  let dnf := fold_left simplify_clause (seq 0 (length dnf)) dnf in
  remove_positions (redundant_clauses_loop dnf 0 dnf []) dnf.

(** [sort] *)
Definition sort_dnf (dnf : Dnf) : Dnf :=
  sort_by (fun a b => list_cmp kind_cmp (map expression_kind a) (map expression_kind b))
    (map (sort_by (fun x y => kind_cmp (expression_kind x) (expression_kind y))) dnf).

(** ** Collecting the paths *)

Section collect.
Context {T R : Type} `{Keyed T} `{!RangeSet T R}.

(** [entry(tree).and_modify(..).or_insert_with(..)] on an insertion-ordered map. *)
Fixpoint paths_insert (paths : list (NodeId * R)) (tree : NodeId) (range : R) : list (NodeId * R) :=
  match paths with
  | [] => [(tree, range)]
  | (t, union) :: rest =>
      if t =? tree then (t, rs_union union range) :: rest else (t, union) :: paths_insert rest tree range
  end.

(** [collect_edges] *)
Fixpoint collect_edges_loop (paths : list (NodeId * R)) (edges : list (R * NodeId)) : outcome (list (NodeId * R)) :=
  match edges with
  | [] => Ret paths
  | (range, tree) :: rest =>
      let! bounds := unwrap (rs_bounding_range range) in
      collect_edges_loop (paths_insert paths tree (rs_from_range_bounds bounds)) rest
  end.

Definition collect_edges (edges : list (R * NodeId)) : outcome (list (NodeId * R)) := collect_edges_loop [] edges.

(** The values between consecutive segments; [None] when a gap is not one value. *)
Fixpoint excluded_between (l : list (BoundOf T * BoundOf T)) : option (list T) :=
  match l with
  | (_, fin) :: rest =>
      match rest with
      | (start, _) :: _ =>
          match fin, start with
          | Excluded v1, Excluded v2 =>
              if value_eqb v1 v2 then option_map (cons v1) (excluded_between rest) else None
          | _, _ => None
          end
      | [] => Some []
      end
  | [] => Some []
  end.

(** [range_inequality] *)
Definition range_inequality (range : R) : option (list T) :=
  if rs_is_empty range then None
  else
    match rs_bounding_range range with
    | Some (Unbounded, Unbounded) => excluded_between (rs_iter range)
    | _ => None
    end.
End collect.

(** [star_range_specifier] *)
Definition star_range_specifier {R} `{!RangeSet Version R} (range : R) : outcome (option VersionSpecifier) :=
  match rs_iter range with
  | [(Unbounded, Excluded v1); (Included v2, Unbounded)] =>
      let! trimmed := only_release_trimmed v1 in
      match release trimmed with
      | [major] =>
          if bytes_eqb (release v2) [major; 1] then
            let! v := version_new [major; 0] in Ret (Some (not_equals_star_version v))
          else Ret None
      | [major; minor] =>
          let! next := add64 minor 1 in
          if bytes_eqb (release v2) [major; next] then Ret (Some (not_equals_star_version v1)) else Ret None
      | _ => Ret None
      end
  | _ => Ret None
  end.

Section dnf.
Context {RV RS : Type} `{!RangeSet Version RV} `{!RangeSet Str RS}.

Abbreviation Interner := (InternerOf RV RS).

(** The terms that the range of a version edge is printed as: alternatives, each a
    conjunction. *)
Definition version_terms (key : MarkerValueVersion) (range : RV) : outcome (list Clause) :=
  match range_inequality range with
  | Some excluded => Ret [map (fun version => EVersion key (not_equals_version version)) excluded]
  | None =>
      let! star := star_range_specifier range in
      match star with
      | Some specifier => Ret [[EVersion key specifier]]
      | None =>
          map_o (fun bounds => outcome_map (map (EVersion key)) (from_release_only_bounds bounds.1 bounds.2)) (rs_iter range)
      end
  end.

Definition string_terms (key : MarkerValueString) (range : RS) : list Clause :=
  match range_inequality range with
  | Some excluded => [map (fun value => EString key MNotEqual value) excluded]
  | None => map (fun bounds => map (fun ov => EString key ov.1 ov.2) (marker_op_from_bounds bounds)) (rs_iter range)
  end.

(** [collect_dnf]: the clauses it pushes, in order. *)
Fixpoint collect_dnf (fuel : nat) (s : Interner) (tree : NodeId) (path : Clause) : outcome Dnf :=
  match fuel with
  | O => Panic
  | S fuel =>
      let boolean expr high low :=
        concat_o (fun e : bool * NodeId => collect_dnf fuel s e.2 (path ++ [expr e.1])) (tree_children high low) in
      let! kind := tree_kind s tree in
      match kind with
      | TreeFalse => Ret []
      | TreeTrue => Ret match path with [] => [] | _ => [path] end
      | TreeVersion id key map =>
          let! paths := collect_edges (tree_edges id map) in
          concat_o (fun e =>
            let! terms := version_terms (version_key_of_canonical key) e.2 in
            concat_o (fun t => collect_dnf fuel s e.1 (path ++ t)) terms) paths
      | TreeString id key map =>
          let! paths := collect_edges (tree_edges id map) in
          concat_o (fun e =>
            concat_o (fun t => collect_dnf fuel s e.1 (path ++ t)) (string_terms (string_key_of_canonical key) e.2)) paths
      | TreeIn key value high low =>
          boolean (fun b : bool => EString (string_key_of_canonical key) (if b then MIn else MNotIn) value) high low
      | TreeContains key value high low =>
          boolean (fun b : bool => EString (string_key_of_canonical key) (if b then MContains else MNotContains) value) high low
      | TreeList p high low => boolean (fun b : bool => EList p (if b then ContainerIn else ContainerNotIn)) high low
      | TreeExtra name high low =>
          boolean (fun b : bool => EExtra (ExtraNameValue name) (if b then ExtraEqual else ExtraNotEqual)) high low
      end
  end.

(** [to_dnf] *)
Definition to_dnf (s : Interner) (tree : NodeId) : outcome Dnf :=
  let! dnf := collect_dnf (S (enough s)) s tree [] in
  Ret (sort_dnf (simplify dnf)).

(** ** Users of the normal form *)

(** [Display for MarkerTreeContents] *)
Definition conjunction_display (c : Clause) : Str := format_sep (bs " and ") (map expression_display c).

Definition clause_display (c : Clause) : Str :=
  match c with
  | [_] => conjunction_display c
  | _ => bs "(" ++ conjunction_display c ++ bs ")"
  end.

Definition contents_display (s : Interner) (tree : NodeId) : outcome Str :=
  if node_is_false tree then Ret (bs "python_version < '0'")
  else
    let! dnf := to_dnf s tree in
    Ret match dnf with
        | [c] => conjunction_display c
        | _ => format_sep (bs " or ") (map clause_display dnf)
        end.

(** [MarkerTree::contents] with [MarkerTree::try_to_string] *)
Definition try_to_string (s : Interner) (tree : NodeId) : outcome (option Str) :=
  if node_is_true tree then Ret None else outcome_map Some (contents_display s tree).

(** [MarkerTree::top_level_extra] *)
Definition is_extra_equal (e : MarkerExpression) : bool :=
  match e with EExtra _ ExtraEqual => true | _ => false end.

Fixpoint top_level_extra_loop (extra_expression : option MarkerExpression) (dnf : Dnf) : option MarkerExpression :=
  match dnf with
  | [] => extra_expression
  | c :: rest =>
      match List.find is_extra_equal c with
      | None => None
      | Some found =>
          match extra_expression with
          | Some e => if negb (expression_eqb e found) then None else top_level_extra_loop extra_expression rest
          | None => top_level_extra_loop (Some found) rest
          end
      end
  end.

Definition top_level_extra (s : Interner) (tree : NodeId) : outcome (option MarkerExpression) :=
  let! dnf := to_dnf s tree in Ret (top_level_extra_loop None dnf).

(** [MarkerTree::top_level_extra_name] *)
Definition top_level_extra_name (s : Interner) (tree : NodeId) : outcome (option Str) :=
  let! kind := tree_kind s tree in
  let slow :=
    let! e := top_level_extra s tree in
    match e with
    | None => Ret None
    | Some (EExtra name _) => Ret (as_extra name)
    | Some _ => Panic
    end in
  match kind with
  | TreeExtra name high low => if node_is_true (tree_edge high low true) then Ret (Some name) else slow
  | _ => slow
  end.

(** [MarkerTree::visit_extras]: the calls of the function, in order. *)
Fixpoint visit_extras_fuel (fuel : nat) (s : Interner) (tree : NodeId) : outcome (list (MarkerOperator * Str)) :=
  match fuel with
  | O => Panic
  | S fuel =>
      let! kind := tree_kind s tree in
      match kind with
      | TreeTrue | TreeFalse => Ret []
      | TreeVersion id _ map =>
          let! paths := collect_edges (tree_edges id map) in concat_o (fun e => visit_extras_fuel fuel s e.1) paths
      | TreeString id _ map =>
          let! paths := collect_edges (tree_edges id map) in concat_o (fun e => visit_extras_fuel fuel s e.1) paths
      | TreeIn _ _ high low | TreeContains _ _ high low | TreeList _ high low =>
          concat_o (fun e : bool * NodeId => visit_extras_fuel fuel s e.2) (tree_children high low)
      | TreeExtra name high low =>
          let! calls := concat_o (fun e : bool * NodeId => visit_extras_fuel fuel s e.2) (tree_children high low) in
          Ret ((if node_is_false low then MEqual else MNotEqual, name) :: calls)
      end
  end.

Definition visit_extras (s : Interner) (tree : NodeId) : outcome (list (MarkerOperator * Str)) :=
  visit_extras_fuel (S (enough s)) s tree.
End dnf.

(** ** Meaning *)

Definition clause_holds (holds : MarkerExpression -> bool) (c : Clause) : bool := forallb holds c.
Definition dnf_holds (holds : MarkerExpression -> bool) (d : Dnf) : bool := existsb (clause_holds holds) d.

(** ** Removal by position *)

(** Ascending positions below a bound. *)
Definition ascending (bound : nat) (l : list nat) : Prop := StronglySorted lt l /\ Forall (fun i => i < bound)%nat l.

Lemma ascending_snoc k l : ascending k l -> ascending (S k) (l ++ [k]).
Proof.
  intros [Hs Hb]. split.
  - apply StronglySorted_app. split; [intros a b Ha ->%list_elem_of_singleton; by eapply Forall_forall in Hb|].
    split; [done|]. repeat constructor.
  - apply Forall_app. split; [|repeat constructor]. eapply Forall_impl; [done|]. intros; cbn in *; lia.
Qed.

Lemma ascending_S k l : ascending k l -> ascending (S k) l.
Proof. intros [Hs Hb]. split; [done|]. eapply Forall_impl; [done|]. intros; cbn in *; lia. Qed.

Lemma contains_index_iff l i : contains_index l i = true <-> i ∈ l.
Proof.
  unfold contains_index. rewrite existsb_exists, list_elem_of_In. setoid_rewrite Nat.eqb_eq. naive_solver.
Qed.

(** What is left are the elements at the other positions. *)
Lemma elem_of_remove {A} (positions : list nat) (l : list A) x : ascending (length l) positions ->
  x ∈ remove_positions positions l <-> exists i, (i ∉ positions) /\ l !! i = Some x.
Proof.
  revert l. unfold remove_positions. induction positions as [|k ps IH] using rev_ind; intros l Ha; cbn.
  { rewrite list_elem_of_lookup. split; [intros [i Hi]; exists i; split; [by intros ?%elem_of_nil|done]|naive_solver]. }
  destruct Ha as [Hs Hb]. apply Forall_app in Hb as [Hb Hk]. apply Forall_cons in Hk as [Hk _].
  apply StronglySorted_app in Hs as (Hlt & Hs & _).
  assert (Hps : forall i, i ∈ ps -> (i < k)%nat) by (intros i Hi; by apply Hlt, list_elem_of_singleton).
  assert (Hlen : length (delete k l) = (length l - 1)%nat) by (apply length_delete, lookup_lt_is_Some; done).
  rewrite rev_app_distr. cbn. rewrite IH.
  - split; intros (i & Hi & E).
    + destruct (decide (i < k)%nat) as [Hlt'|Hge].
      * exists i. rewrite elem_of_app, list_elem_of_singleton. rewrite list_lookup_delete_lt in E by done. split; [|done]. intros [?| ->]; [done|lia].
      * rewrite list_lookup_delete_ge in E by lia. exists (S i). split; [|done].
        rewrite elem_of_app, list_elem_of_singleton. intros [Hx%Hps|Hx]; lia.
    + rewrite elem_of_app, list_elem_of_singleton in Hi. destruct (decide (i < k)%nat) as [Hlt'|Hge].
      * exists i. rewrite list_lookup_delete_lt by done. split; [tauto|done].
      * exists (i - 1)%nat. assert (i <> k) by tauto. rewrite list_lookup_delete_ge by lia.
        split; [intros Hx%Hps; lia|]. by replace (S (i - 1)) with i by lia.
  - split; [done|]. apply Forall_forall. intros i Hi%Hps. lia.
Qed.

Lemma any_other_iff i j dnf f : any_other i j dnf f = true <->
  exists k c, dnf !! k = Some c /\ i <> (j + k)%nat /\ f (j + k)%nat c = true.
Proof.
  revert j. induction dnf as [|o rest IH]; intros j; cbn; [split; [done|by intros (k & c & E & _)]|].
  rewrite orb_true_iff, andb_true_iff, negb_true_iff, Nat.eqb_neq, IH. split.
  - intros [[Hne Hf]|(k & c & E & Hne & Hf)].
    + exists 0%nat, o. by rewrite Nat.add_0_r.
    + exists (S k), c. by rewrite Nat.add_succ_r.
  - intros ([|k] & c & E & Hne & Hf).
    + left. injection E as <-. by rewrite Nat.add_0_r in Hne, Hf.
    + right. exists k, c. by rewrite Nat.add_succ_r in Hne, Hf.
Qed.

(** ** Simplification keeps the meaning *)

Section meaning.
Context (holds : MarkerExpression -> bool) (good : MarkerExpression -> Prop).

(** On the terms considered, the equality and the negation test are exact. *)
Hypothesis eqb_holds : forall x y, good x -> good y -> expression_eqb x y = true -> holds x = holds y.
Hypothesis eqb_sym : forall x y, good x -> good y -> expression_eqb x y = expression_eqb y x.
Hypothesis negation_holds : forall x y, good x -> good y -> is_negation x y = true -> holds x = negb (holds y).

Abbreviation good_dnf := (Forall (Forall good)).

Lemma clause_holds_iff c : clause_holds holds c = true <-> forall x, x ∈ c -> holds x = true.
Proof. unfold clause_holds. rewrite forallb_forall. by setoid_rewrite list_elem_of_In. Qed.

Lemma dnf_holds_iff d : dnf_holds holds d = true <-> exists i c, d !! i = Some c /\ clause_holds holds c = true.
Proof.
  unfold dnf_holds. rewrite existsb_exists. setoid_rewrite <- list_elem_of_In. setoid_rewrite list_elem_of_lookup. naive_solver.
Qed.

Lemma position_lookup {A} (f : A -> bool) l i : position f l = Some i -> exists x, l !! i = Some x /\ f x = true.
Proof.
  revert i. induction l as [|x l IH]; intros i; [done|]. cbn. destruct (f x) eqn:E; [intros [= <-]; by exists x|].
  destruct (position f l) as [k|]; [|done]. intros [= <-]. by apply IH.
Qed.

(** The terms of [clause] outside [redundant] hold, hence all do, or another clause does. *)
Definition covered (dnf : Dnf) (i : nat) (clause : Clause) (redundant : list nat) : Prop :=
  (forall k x, k ∉ redundant -> clause !! k = Some x -> holds x = true) ->
  clause_holds holds clause = true \/ exists j c, dnf !! j = Some c /\ j <> i /\ clause_holds holds c = true.

Lemma covered_snoc dnf i clause redundant skipped term : good_dnf dnf -> Forall good clause -> clause !! skipped = Some term ->
  any_other i 0 dnf (fun _ other => covers_negation clause other redundant term) = true ->
  covered dnf i clause redundant -> covered dnf i clause (redundant ++ [skipped]).
Proof.
  intros Hd Hc Hk (j & other & Ej & Hne & Hcov)%any_other_iff IH Hrest. destruct (holds term) eqn:Et.
  { apply IH. intros k x Hkr E. destruct (decide (k = skipped)) as [->|Hks]; [congruence|].
    apply (Hrest k x); [|done]. rewrite elem_of_app, list_elem_of_singleton. tauto. }
  right. exists j, other. split; [done|]. split; [lia|]. apply clause_holds_iff. intros t Ht.
  unfold covers_negation in Hcov. rewrite forallb_forall in Hcov. specialize (Hcov t (proj1 (list_elem_of_In _ _) Ht)).
  assert (Gt : good t) by (eapply Forall_forall; [eapply (Forall_lookup_1 _ _ _ _ Hd Ej)|done]).
  assert (Gk : good term) by (by eapply Forall_lookup_1).
  destruct (expression_eqb t term) eqn:Eq; [done|]. destruct (is_negation t term) eqn:En; [rewrite (negation_holds t term), Et by done; done|].
  destruct (position _ clause) as [p|] eqn:Ep; [|done]. apply position_lookup in Ep as (x & Ex & Exq). apply negb_true_iff in Hcov.
  assert (Gx : good x) by (by eapply Forall_lookup_1). rewrite <- (eqb_holds x t Gx Gt Exq). apply (Hrest p); [|done].
  rewrite elem_of_app, list_elem_of_singleton. intros [Hin| ->].
  - apply contains_index_iff in Hin. congruence.
  - rewrite Ex in Hk. injection Hk as ->. rewrite eqb_sym in Exq by done. congruence.
Qed.

Lemma redundant_terms_spec dnf i clause done_terms terms redundant : good_dnf dnf -> Forall good clause ->
  clause = done_terms ++ terms -> ascending (length done_terms) redundant -> covered dnf i clause redundant ->
  let r := redundant_terms_loop dnf i clause (length done_terms) terms redundant in
  ascending (length clause) r /\ covered dnf i clause r.
Proof.
  intros Hd Hc. revert done_terms redundant. induction terms as [|t terms IH]; intros done_terms redundant Ecl Ha Hcov; cbn.
  { rewrite app_nil_r in Ecl. by rewrite Ecl in *. }
  specialize (IH (done_terms ++ [t])). rewrite length_app, Nat.add_1_r in IH. apply IH; [by rewrite <- app_assoc| |].
  - destruct (any_other _ _ _ _); [by apply ascending_snoc|by apply ascending_S].
  - destruct (any_other _ _ _ _) eqn:E; [|done]. apply (covered_snoc dnf i clause redundant _ t); try done.
    rewrite Ecl, lookup_app_r by lia. by rewrite Nat.sub_diag.
Qed.

Lemma simplify_clause_spec dnf i : good_dnf dnf ->
  good_dnf (simplify_clause dnf i) /\ length (simplify_clause dnf i) = length dnf /\
  dnf_holds holds (simplify_clause dnf i) = dnf_holds holds dnf.
Proof.
  intros Hd. unfold simplify_clause. destruct (dnf !! i) as [clause|] eqn:Ei; [|done].
  assert (Hc : Forall good clause) by (by eapply Forall_lookup_1).
  destruct (redundant_terms_spec dnf i clause [] clause [] Hd Hc eq_refl) as [Ha Hcov].
  { split; constructor. } { intros H. left. apply clause_holds_iff. intros x (k & Hk)%list_elem_of_lookup. apply (H k); [by intros ?%elem_of_nil|done]. }
  cbn [length] in *. set (r := redundant_terms_loop _ _ _ _ _ _) in *.
  assert (Hel : forall x, x ∈ remove_positions r clause -> x ∈ clause).
  { intros x (k & _ & E)%elem_of_remove; [|done]. by eapply list_elem_of_lookup_2. }
  pose proof (lookup_lt_Some _ _ _ Ei) as Hlt. split; [|split; [apply length_insert|]].
  - apply Forall_insert; [done|]. apply Forall_forall. intros x Hx%Hel. by eapply Forall_forall.
  - apply Bool.eq_iff_eq_true. rewrite !dnf_holds_iff. split; intros (j & c & E & H).
    + destruct (decide (i = j)) as [<-|Hij]; [|rewrite list_lookup_insert_ne in E by done; by exists j, c].
      rewrite list_lookup_insert_eq in E by done. injection E as <-. rewrite clause_holds_iff in H. destruct Hcov as [Hall|(j & c & Ej & _ & Hj)].
      * intros k x Hk E. apply H, elem_of_remove; [done|]. by exists k.
      * by exists i, clause.
      * by exists j, c.
    + destruct (decide (i = j)) as [<-|Hij]; [|exists j, c; by rewrite list_lookup_insert_ne by done].
      rewrite Ei in E. injection E as <-. exists i, (remove_positions r clause). rewrite list_lookup_insert_eq by done. split; [done|].
      rewrite clause_holds_iff in H |- *. auto.
Qed.

Lemma simplify_clauses_spec (l : list nat) dnf : good_dnf dnf ->
  good_dnf (fold_left simplify_clause l dnf) /\ dnf_holds holds (fold_left simplify_clause l dnf) = dnf_holds holds dnf.
Proof.
  revert dnf. induction l as [|i l IH]; intros dnf Hd; [done|]. cbn [fold_left].
  destruct (simplify_clause_spec dnf i Hd) as (H1 & _ & H2). destruct (IH _ H1) as [? ->]. done.
Qed.

(** A clause outside [redundant] holds whenever some clause does. *)
Definition represented (dnf : Dnf) (redundant : list nat) : Prop := dnf_holds holds dnf = true ->
  exists k c, (k ∉ redundant) /\ dnf !! k = Some c /\ clause_holds holds c = true.

Lemma represented_snoc dnf redundant i clause : good_dnf dnf -> dnf !! i = Some clause ->
  any_other i 0 dnf (fun j other => negb (contains_index redundant j) &&
    forallb (fun term => existsb (fun x => expression_eqb x term) clause) other) = true ->
  represented dnf redundant -> represented dnf (redundant ++ [i]).
Proof.
  intros Hd Hi (j & other & Ej & Hne & [Hj Hsub]%andb_true_iff)%any_other_iff IH Hh. cbn in Hne, Hj.
  assert (Hnot : forall k, k ∉ redundant -> k <> i -> k ∉ redundant ++ [i]) by (intros; rewrite elem_of_app, list_elem_of_singleton; tauto).
  destruct (IH Hh) as (k & c & Hk & Ek & Hc). destruct (decide (k = i)) as [->|Hki]; [|exists k, c; auto].
  exists j, other. split; [|split; [done|]].
  - apply Hnot; [|by intros ->]. rewrite <- contains_index_iff. by apply negb_true_iff in Hj as ->.
  - rewrite Hi in Ek. injection Ek as <-. rewrite clause_holds_iff in Hc |- *. intros t Ht. rewrite forallb_forall in Hsub.
    specialize (Hsub t (proj1 (list_elem_of_In _ _) Ht)). apply existsb_exists in Hsub as (x & Hx%list_elem_of_In & Exq).
    rewrite <- (eqb_holds x t); [by apply Hc| | |done].
    + by apply (proj1 (Forall_forall good clause)); [eapply (Forall_lookup_1 _ _ _ _ Hd)|].
    + by apply (proj1 (Forall_forall good other)); [eapply (Forall_lookup_1 _ _ _ _ Hd)|].
Qed.

Lemma redundant_clauses_spec dnf done_clauses clauses redundant : good_dnf dnf -> dnf = done_clauses ++ clauses ->
  ascending (length done_clauses) redundant -> represented dnf redundant ->
  let r := redundant_clauses_loop dnf (length done_clauses) clauses redundant in ascending (length dnf) r /\ represented dnf r.
Proof.
  intros Hd. revert done_clauses redundant. induction clauses as [|c clauses IH]; intros done_clauses redundant Ed Ha Hr; cbn.
  { rewrite app_nil_r in Ed. by rewrite Ed in *. }
  specialize (IH (done_clauses ++ [c])). rewrite length_app, Nat.add_1_r in IH. apply IH; [by rewrite <- app_assoc| |].
  - destruct (any_other _ _ _ _); [by apply ascending_snoc|by apply ascending_S].
  - destruct (any_other _ _ _ _) eqn:E; [|done]. apply (represented_snoc dnf redundant _ c); try done.
    rewrite Ed, lookup_app_r by lia. by rewrite Nat.sub_diag.
Qed.

Lemma simplify_meaning dnf : good_dnf dnf -> good_dnf (simplify dnf) /\ dnf_holds holds (simplify dnf) = dnf_holds holds dnf.
Proof.
  intros Hd. unfold simplify. destruct (simplify_clauses_spec (seq 0 (length dnf)) dnf Hd) as [Hd' <-].
  set (d := fold_left simplify_clause _ dnf) in *. destruct (redundant_clauses_spec d [] d [] Hd' eq_refl) as [Ha Hr].
  { split; constructor. } { intros (i & c & E & H)%dnf_holds_iff. exists i, c. split; [by intros ?%elem_of_nil|done]. }
  cbn [length] in *. set (r := redundant_clauses_loop _ _ _ _) in *.
  assert (Hel : forall c, c ∈ remove_positions r d -> c ∈ d).
  { intros c (k & _ & E)%elem_of_remove; [|done]. by eapply list_elem_of_lookup_2. }
  split; [apply Forall_forall; intros c Hc%Hel; exact (proj1 (Forall_forall _ d) Hd' c Hc)|].
  apply Bool.eq_iff_eq_true. unfold dnf_holds at 1. rewrite existsb_exists. setoid_rewrite <- list_elem_of_In. split.
  - intros (c & Hc%Hel & H). apply list_elem_of_lookup in Hc as [i Hi]. apply dnf_holds_iff. by exists i, c.
  - intros (k & c & Hk & E & H)%Hr. exists c. split; [|done]. apply elem_of_remove; [done|]. by exists k.
Qed.

Lemma clause_holds_perm c c' : Permutation c c' -> clause_holds holds c = clause_holds holds c'.
Proof. intros Hp. apply Bool.eq_iff_eq_true. rewrite !clause_holds_iff. split; intros H x Hx; apply H; [by rewrite Hp|by rewrite <- Hp]. Qed.

Lemma sort_dnf_spec dnf : dnf_holds holds (sort_dnf dnf) = dnf_holds holds dnf.
Proof.
  unfold sort_dnf. set (l := map _ dnf). transitivity (dnf_holds holds l).
  - apply Bool.eq_iff_eq_true. unfold dnf_holds. rewrite !existsb_exists. setoid_rewrite <- list_elem_of_In. by setoid_rewrite <- (sort_by_perm _ l).
  - subst l. induction dnf as [|c dnf IH]; [done|]. cbn [map dnf_holds existsb]. unfold dnf_holds in IH. rewrite IH. f_equal. symmetry. apply clause_holds_perm, sort_by_perm.
Qed.
End meaning.
