(* ===== verification/MarkerPaths.v ===== *)
(** * The normal form says what the marker says (simplify.rs)

    The paths that [collect_dnf] collects hold exactly where the diagram is true.
    [collect_edges] merges the edges to each subtree into one range; the terms that
    the range is printed as hold exactly for the values in it.

    The terms are exact for the ranges that markers are made of ([printable]): the
    versions in them are releases and the excluded upper bounds have no trailing
    zeros (the star specifier of [star_range_specifier] keeps the upper bound as it
    is), string keys compared by equality have single values besides one default
    child, and [platform_system] has none of the values that lowering maps to
    [sys_platform]. *)

From Stdlib Require Import ZArith Lia Sorting.Sorted.
From stdpp Require Import base list relations.
From S2P Require Import Prelude.
From S2P Require Import VersionRepr.
From S2P Require Import VersionOrder.
From S2P Require Import VersionRecord.
From S2P Require Import Specifier.
From S2P Require Import RangeSet.
From S2P Require Import Stateful.
From S2P Require Import MarkerEdges.
From S2P Require Import MarkerTypes.
From S2P Require Import RangeInstances.
From S2P Require Import MarkerAlgebra.
From S2P Require Import MarkerStore.
From S2P Require Import MarkerOps.
From S2P Require Import MarkerConj.
From S2P Require Import MarkerTree.
From S2P Require Import MarkerVersion.
From S2P Require Import MarkerExpr.
From S2P Require Import MarkerDnf.
Open Scope Z_scope.

(** ** Merged edges *)

Section merged.
Context {T R : Type} `{RangeSetLaws T R} `{!KeyedLaws T} `{!RangeSetBounds T R}.
Implicit Types (p low high : Cut) (edges : list (R * NodeId)) (paths : list (NodeId * R)) (t : NodeId) (u : R).

(** Some edge to [t] contains the position. *)
Definition leads_to edges t p : bool := existsb (fun e => (snd e =? t) && cut_mem p (rs_cuts (fst e))) edges.

Lemma leads_to_app l k t p : leads_to (l ++ k) t p = leads_to l t p || leads_to k t p.
Proof. apply existsb_app. Qed.

Lemma leads_to_tile edges t p : tiles NegInf edges PosInf -> p <> PosInf ->
  leads_to edges t p = true <-> tile_at p edges = Some t.
Proof.
  intros Ht Hp. unfold leads_to. rewrite existsb_exists. split.
  - intros ([r c] & Hin%list_elem_of_In & [Ec Hm]%andb_true_iff). cbn in *. apply Z.eqb_eq in Ec as ->.
    pose proof Hin as (x & y & Ee)%list_elem_of_split. pose proof Ht as Ht'. rewrite Ee in Ht'. apply tiles_app in Ht' as (m & _ & b & Hr & _).
    rewrite (range_at_mem r m b) in Hm by done. apply in_cuts_iff in Hm as [? ?]. eapply tile_at_elem; eauto.
  - unfold tile_at. intros E. destruct (find _ edges) as [[r c]|] eqn:Ef; [|done]. injection E as <-.
    apply find_some in Ef as [Hin Hm]. exists (r, c). split; [done|]. cbn in *. by rewrite Z.eqb_refl, Hm.
Qed.

(** The bounds of a range satisfy the predicates. *)
Definition bounds_in (P Q : BoundOf T -> Prop) u : Prop := forall seg, seg ∈ rs_iter u -> P seg.1 /\ Q seg.2.

(** [paths] merges [edges]. *)
Record collected (P Q : BoundOf T -> Prop) edges paths : Prop := {
  collected_distinct : NoDup (map fst paths);
  collected_range : forall t u, (t, u) ∈ paths -> covers u (leads_to edges t) /\ bounds_in P Q u;
  collected_all : forall t, t ∈ map snd edges <-> t ∈ map fst paths;
}.

Context (P Q : BoundOf T -> Prop).
Hypothesis (P_unbounded : P Unbounded) (Q_unbounded : Q Unbounded).

Lemma union_bounds_in r u : bounds_in P Q r -> bounds_in P Q u -> bounds_in P Q (rs_union r u).
Proof.
  intros Hr Hu seg Hin. assert (Hall : forall s, s ∈ rs_iter r ++ rs_iter u -> P s.1 /\ Q s.2) by (intros s [?|?]%elem_of_app; auto).
  destruct (rs_union_bounds r u seg Hin) as [[->|(s & Hs & ->)] [->|(s' & Hs' & ->)]]; split; try done;
    first [apply (Hall s)|apply (Hall s')]; done.
Qed.

Lemma paths_insert_fst paths t u : map fst (paths_insert paths t u) = if decide (t ∈ map fst paths) then map fst paths else map fst paths ++ [t].
Proof.
  induction paths as [|[t' u'] paths IH]; [done|]. cbn [paths_insert]. destruct (Z.eqb_spec t' t) as [->|Hne].
  - cbn. rewrite decide_True by (by left). done.
  - cbn [map fst]. rewrite IH. destruct (decide (t ∈ map fst paths)) as [Hin|Hnin].
    + by rewrite decide_True by (by right).
    + rewrite decide_False; [done|]. intros [?|?]%elem_of_cons; [by subst|done].
Qed.

Lemma paths_insert_in paths t r t' u : (t', u) ∈ paths_insert paths t r ->
  (t' <> t /\ (t', u) ∈ paths) \/ (t' = t /\ (((t ∉ map fst paths) /\ u = r) \/ exists u0, (t, u0) ∈ paths /\ u = rs_union u0 r)) \/
  (t' = t /\ (t', u) ∈ paths /\ ~ NoDup (map fst paths)).
Proof.
  induction paths as [|[t0 u0] paths IH]; cbn [paths_insert].
  - intros [= -> ->]%list_elem_of_singleton. right; left. split; [done|]. left. split; [apply not_elem_of_nil|done].
  - destruct (Z.eqb_spec t0 t) as [->|Hne]; intros [E|Hin]%elem_of_cons.
    + injection E as -> ->. right; left. split; [done|]. right. exists u0. split; [by left|done].
    + destruct (Z.eq_dec t' t) as [->|Hne']; [|left; split; [done|by right]].
      right; right. split; [done|]. split; [by right|]. cbn. rewrite NoDup_cons. intros [Hn _]. apply Hn.
      apply elem_of_map. by exists (t, u).
    + injection E as -> ->. left. split; [done|by left].
    + destruct (IH Hin) as [[? ?]|[(-> & [[Hn ->]|(u1 & ? & ->)])|(-> & ? & Hd)]].
      * left. split; [done|by right].
      * right; left. split; [done|]. left. split; [|done]. cbn. rewrite not_elem_of_cons. split; [congruence|done].
      * right; left. split; [done|]. right. exists u1. split; [by right|done].
      * right; right. split; [done|]. split; [by right|]. cbn. rewrite NoDup_cons. tauto.
Qed.

Lemma collected_step edges paths r t a b lo hi : collected P Q edges paths -> range_at r a b -> rs_iter r = [(lo, hi)] -> P lo -> Q hi ->
  collected P Q (edges ++ [(r, t)]) (paths_insert paths t (rs_from_range_bounds (lo, hi))).
Proof.
  intros [Hd Hr Ha] Hat Ei HP HQ. set (r' := rs_from_range_bounds (lo, hi)).
  destruct (range_at_bounds r a b Hat) as (lo' & hi' & Ei' & _ & El & Eu & Vl & Vh). rewrite Ei in Ei'. injection Ei' as <- <-.
  assert (Hat' : range_at r' a b) by (rewrite <- El, <- Eu; apply from_bounds_range_at; [done|done|]; rewrite El, Eu; by eapply range_at_lt).
  assert (Hb' : bounds_in P Q r') by (by intros seg ->%rs_segment_bounds).
  assert (Hnew : forall t' p, leads_to (edges ++ [(r, t)]) t' p = leads_to edges t' p || ((t =? t') && cut_mem p (rs_cuts r'))).
  { intros t' p. rewrite leads_to_app. f_equal. cbn. rewrite orb_false_r. by rewrite (range_at_mem r a b), (range_at_mem r' a b) by done. }
  assert (Hok' : rs_ok r') by apply Hat'. split.
  - rewrite paths_insert_fst. destruct (decide _); [done|]. apply NoDup_app. split; [done|]. split; [|apply NoDup_singleton].
    intros x Hx ->%list_elem_of_singleton. done.
  - intros t' u [[Hne Hin]|[(-> & [[Hn ->]|(u0 & Hin & ->)])|(_ & _ & Hn)]]%paths_insert_in; [| | |done].
    + destruct (Hr _ _ Hin) as [[Hok Hm] Hb]. split; [|done]. split; [done|]. intros p Hp. rewrite Hnew, Hm by done.
      by rewrite (proj2 (Z.eqb_neq t t')), orb_false_r by done.
    + split; [|done]. split; [done|]. intros p Hp. rewrite Hnew, Z.eqb_refl. cbn [andb].
      replace (leads_to edges t p) with false; [done|]. symmetry. apply not_true_iff_false. unfold leads_to. rewrite existsb_exists.
      intros (e & He%list_elem_of_In & [Et%Z.eqb_eq _]%andb_true_iff). apply Hn, Ha, elem_of_map. by exists e.
    + destruct (Hr _ _ Hin) as [[Hok Hm] Hb]. split; [|by apply union_bounds_in]. destruct (rs_union_law u0 r' Hok Hok') as [Hok2 Hm2].
      split; [done|]. intros p Hp. rewrite Hnew, Hm2, Hm, Z.eqb_refl by done. done.
  - intros x. rewrite map_app, elem_of_app, Ha, paths_insert_fst. cbn. rewrite list_elem_of_singleton.
    destruct (decide _); [split; [by intros [?| ->]|auto]|]. by rewrite elem_of_app, list_elem_of_singleton.
Qed.

Lemma collect_edges_loop_spec processed edges paths : tiles NegInf (processed ++ edges) PosInf ->
  (forall e, e ∈ edges -> bounds_in P Q (fst e)) -> collected P Q processed paths ->
  exists paths', collect_edges_loop paths edges = Ret paths' /\ collected P Q (processed ++ edges) paths'.
Proof.
  revert processed paths. induction edges as [|[r t] edges IH]; intros E paths Ht Hb Hc.
  { exists paths. by rewrite app_nil_r. }
  pose proof Ht as (m & _ & b & Hat & _)%tiles_app. destruct (range_at_bounds r m b Hat) as (lo & hi & Ei & Eb & _).
  destruct (Hb (r, t) ltac:(by left) (lo, hi)) as [HP HQ]; [cbn; rewrite Ei; by left|].
  cbn [collect_edges_loop]. rewrite Eb. cbn [unwrap obind].
  change ((r, t) :: edges) with ([(r, t)] ++ edges) in Ht |- *. rewrite app_assoc in Ht |- *. apply IH; [done| |].
  - intros e He. apply Hb. by right.
  - by eapply collected_step.
Qed.

Lemma collect_edges_spec edges : tiles NegInf edges PosInf -> (forall e, e ∈ edges -> bounds_in P Q (fst e)) ->
  exists paths, collect_edges edges = Ret paths /\ collected P Q edges paths.
Proof.
  intros Ht Hb. apply (collect_edges_loop_spec [] edges []); [done|done|].
  split; [constructor|by intros ? ? ?%elem_of_nil|done].
Qed.

(** The range of a subtree is not everything when there is another subtree. *)
Lemma collected_not_full edges paths t u c : tiles NegInf edges PosInf -> collected P Q edges paths -> (t, u) ∈ paths ->
  c ∈ map snd edges -> c <> t -> rs_cuts u <> [(NegInf, PosInf)].
Proof.
  intros Ht Hc Hin ([r c'] & -> & Hr)%elem_of_map Hne Hfull. cbn in *.
  destruct (tiles_elem _ _ _ _ _ Ht Hr) as (p & H1 & H2 & E). assert (Hp : p <> PosInf) by (intros ->; by apply (cut_lt_irrefl PosInf)).
  destruct (collected_range _ _ _ _ Hc t u Hin) as [[_ Hm] _]. specialize (Hm p Hp). rewrite Hfull in Hm.
  assert (cut_mem p [(NegInf, PosInf)] = true) as F by (apply cut_mem_iff; eexists; split; [by left|done]).
  rewrite F in Hm. symmetry in Hm. apply (leads_to_tile edges t p Ht Hp) in Hm. congruence.
Qed.

(** Exactly the path of the chosen child contains the value. *)
Lemma collected_choose edges paths x (g : NodeId -> bool) c : tiles NegInf edges PosInf -> collected P Q edges paths -> valid x = true ->
  child_at x edges = Some c -> existsb (fun e => rs_contains (snd e) x && g (fst e)) paths = g c.
Proof.
  intros Ht Hc Hx E. rewrite (child_at_tile _ _ _ _ Ht Hx) in E. pose proof (at_value_inside x) as (_ & _ & Hp).
  assert (Hcont : forall t u, (t, u) ∈ paths -> rs_contains u x = true <-> t = c).
  { intros t u Hin. destruct (collected_range _ _ _ _ Hc t u Hin) as [[Hok Hm] _]. rewrite rs_contains_law, Hm by done.
    rewrite (leads_to_tile edges t _ Ht Hp). rewrite E. split; [by intros [=]|by intros ->]. }
  apply Bool.eq_iff_eq_true. rewrite existsb_exists. split.
  - intros ([t u] & Hin%list_elem_of_In & [H1%(Hcont _ _ Hin) H2]%andb_true_iff). cbn in *. by subst.
  - intros Hg. assert (Hin : c ∈ map fst paths).
    { apply (collected_all _ _ _ _ Hc). destruct (tile_at_some NegInf edges PosInf (at_value x) Ht) as (r & c' & a & b & Hr & _ & _ & _ & E'); [done|done|].
      rewrite E in E'. injection E' as <-. apply elem_of_map. by exists (r, c). }
    apply elem_of_map in Hin as ([t u] & -> & Hin). exists (t, u). split; [by apply list_elem_of_In|]. cbn.
    apply andb_true_iff. split; [|done]. by apply (Hcont t u Hin).
Qed.
End merged.

(** ** Ranges as inequalities *)

Section inequality.
Context {T R : Type} `{RangeSetLaws T R} `{!KeyedLaws T}.
Implicit Types (p : Cut) (u : R) (l : list (BoundOf T * BoundOf T)).

Definition is_at p (v : T) : bool := is_eq (cut_cmp p (before (key_of v))).

Lemma is_at_iff p v : is_at p v = true <-> p = before (key_of v).
Proof.
  unfold is_at. split; [|intros ->; by rewrite (ord_refl cut_cmp)]. intros E. apply (ord_eq cut_cmp). by destruct (cut_cmp _ _).
Qed.

Lemma after_before (k : key_type) p : cut_lt (before k) p -> cut_le (after k) p.
Proof.
  destruct p as [|k' side|]; [done| |done]. unfold cut_lt, cut_le, cut_cmp, pair_cmp, before, after. cbn.
  destruct (key_order k k') eqn:E; cbn; [by destruct side|done|done].
Qed.

Lemma inside_value v p : cut_le (before (key_of v)) p -> cut_lt p (after (key_of v)) -> p = before (key_of v).
Proof.
  intros H1 H2. destruct (cut_lt_total (before (key_of v)) p) as [Hlt|[<-|Hlt]]; [|done|cut_order]. pose proof (after_before _ p Hlt). cut_order.
Qed.

Lemma value_eqb_key v w : valid v = true -> valid w = true -> value_eqb v w = true -> key_of v = key_of w.
Proof.
  intros Hv Hw E. unfold value_eqb in E. rewrite value_cmp_key in E by done. apply (ord_eq key_order). by destruct (key_order _ _).
Qed.

Lemma excluded_between_cons a b c d l : excluded_between ((a, b) :: (c, d) :: l) =
  match b, c with
  | Excluded v1, Excluded v2 => if value_eqb v1 v2 then option_map (cons v1) (excluded_between ((c, d) :: l)) else None
  | _, _ => None
  end.
Proof. done. Qed.

Lemma excluded_between_spec l ex a b : forallb seg_valid ((a, b) :: l) = true -> gapped (map seg_cuts ((a, b) :: l)) ->
  excluded_between ((a, b) :: l) = Some ex -> option_map snd (last ((a, b) :: l)) = Some Unbounded ->
  (forall v, v ∈ ex -> cut_lt (lower_cut a) (before (key_of v)) /\ exists seg, seg ∈ (a, b) :: l /\ seg.2 = Excluded v) /\
  (forall p, p <> PosInf -> cut_le (lower_cut a) p ->
    cut_mem p (map seg_cuts ((a, b) :: l)) = forallb (fun v => negb (is_at p v)) ex) /\ (ex = [] -> l = []).
Proof.
  revert ex a b. induction l as [|[c d] l IH]; intros ex a b HV HG.
  { intros [= <-] [= ->]. split; [by intros v ?%elem_of_nil|]. split; [|done]. intros p Hp Ha. cbn. rewrite orb_false_r.
    apply in_cuts_iff. split; [done|]. cbn. pose proof (pos_inf_greatest p). destruct (cut_lt_total p PosInf) as [?|[?|?]]; [done|done|cut_order]. }
  rewrite excluded_between_cons. destruct b as [|v1|]; [done| |done]. destruct c as [|v2|]; [done| |done].
  destruct (value_eqb v1 v2) eqn:Ev; [|done]. intros Eex Hlast.
  destruct (excluded_between ((Excluded v2, d) :: l)) as [ex'|] eqn:E'; [|done]. injection Eex as <-.
  cbn [forallb] in HV. apply andb_true_iff in HV as [HV1 HV2]. pose proof HV2 as HV2'. apply andb_true_iff in HV2' as [HV2' _].
  unfold seg_valid in HV1, HV2'. cbn in HV1, HV2'. apply andb_true_iff in HV1 as [_ Hv1]. apply andb_true_iff in HV2' as [Hv2 _].
  pose proof (value_eqb_key v1 v2 Hv1 Hv2 Ev) as Ek.
  cbn [map seg_cuts gapped fst snd] in HG. destruct HG as [Hab HG]. cbn [gapped_from upper_cut lower_cut] in HG, Hab. destruct HG as (_ & Hcd & HG). cbn [fst snd lower_cut] in Hcd, HG.
  destruct (IH ex' (Excluded v2) d HV2) as (I1 & I2 & _); [by split|done|exact Hlast|]. cbn [lower_cut] in I1, I2.
  pose proof (before_after (key_of v1)) as Hba. split; [|split; [|done]].
  - intros v [->|Hv]%elem_of_cons; [split; [done|]; exists (a, Excluded v1); split; [by left|done]|].
    destruct (I1 v Hv) as [I1' (seg & Hs & Es)]. rewrite <- Ek in I1'. split; [cut_order|]. exists seg. split; [by right|done].
  - intros p Hp Ha. change (cut_mem p (map seg_cuts ((a, Excluded v1) :: (Excluded v2, d) :: l)))
      with (in_cuts p (seg_cuts (a, Excluded v1)) || cut_mem p (map seg_cuts ((Excluded v2, d) :: l))). cbn [forallb].
    assert (Hrest : Forall (fun x => cut_le (after (key_of v1)) x.1) (map seg_cuts ((Excluded v2, d) :: l))).
    { rewrite <- Ek in Hcd. cbn [map]. constructor; [unfold seg_cuts; cbn [fst lower_cut]; rewrite <- Ek; apply cut_le_refl|]. apply gapped_from_sorted in HG as [HG _].
      eapply Forall_impl; [exact HG|]. cbn. intros. cut_order. }
    destruct (is_at p v1) eqn:Eat.
    + apply is_at_iff in Eat as ->. cbn [negb andb]. rewrite (cut_mem_before (after (key_of v1))) by done. rewrite orb_false_r.
      apply not_true_iff_false. rewrite in_cuts_iff. cbn. intros [_ ?]. by apply (cut_lt_irrefl (before (key_of v1))).
    + cbn [negb andb]. destruct (in_cuts p (seg_cuts (a, Excluded v1))) eqn:Ein; cbn [orb].
      * symmetry. apply forallb_forall. intros v Hv%list_elem_of_In. destruct (I1 v Hv) as [I1' _]. apply negb_true_iff, not_true_iff_false.
        rewrite is_at_iff. intros ->. apply in_cuts_iff in Ein as [_ Ein]. cbn in Ein. rewrite <- Ek in I1'. cut_order.
      * apply I2; [done|]. rewrite <- Ek. apply after_before. destruct (cut_lt_total (before (key_of v1)) p) as [?|[E|Hlt]]; [done| |].
        -- apply not_true_iff_false in Eat. rewrite is_at_iff in Eat. by rewrite E in Eat.
        -- apply not_true_iff_false in Ein. exfalso. apply Ein, in_cuts_iff. by split.
Qed.

Lemma range_inequality_spec u ex : rs_ok u -> range_inequality u = Some ex ->
  (forall v, v ∈ ex -> exists seg, seg ∈ rs_iter u /\ seg.2 = Excluded v) /\
  (forall p, p <> PosInf -> cut_mem p (rs_cuts u) = forallb (fun v => negb (is_at p v)) ex) /\
  (ex = [] -> rs_cuts u = [(NegInf, PosInf)]).
Proof.
  intros [HV HG] E. unfold range_inequality in E. destruct (rs_is_empty u); [done|]. rewrite rs_bounding_range_law in E.
  unfold rs_cuts in *. destruct (rs_iter u) as [|[a b] l]; [done|]. destruct (last ((a, b) :: l)) as [[c d]|] eqn:El; [|done].
  destruct a as [| |]; [done|done|]. destruct d as [| |]; [done|done|].
  destruct (excluded_between_spec l ex Unbounded b HV HG E) as (H1 & H2 & H3); [by rewrite El|].
  split; [intros v Hv; by apply H1|]. split; [intros p Hp; apply H2; [done|apply neg_inf_least]|].
  intros ->. rewrite (H3 eq_refl) in El |- *. cbn in El. by injection El as _ ->.
Qed.

Lemma full_segment u : rs_ok u -> (Unbounded, Unbounded) ∈ rs_iter u -> rs_cuts u = [(NegInf, PosInf)].
Proof.
  intros [_ HG] Hin. unfold rs_cuts in *. destruct (rs_iter u) as [|[a b] rest]; [by apply elem_of_nil in Hin|].
  assert (rest = [] /\ a = Unbounded /\ b = Unbounded) as (-> & -> & ->); [|done].
  cbn in HG. destruct HG as [Hab HG]. apply elem_of_cons in Hin as [[= <- <-]|Hin].
  - destruct rest as [|[c d] rest]; [done|]. exfalso. cbn in HG. destruct HG as [HG _]. pose proof (pos_inf_greatest (lower_cut c)). cut_order.
  - exfalso. apply gapped_from_sorted in HG as [HG _]. rewrite Forall_forall in HG.
    assert (cut_lt (upper_cut b) NegInf) by (apply (HG (seg_cuts (Unbounded, Unbounded))), elem_of_map; by exists (Unbounded, Unbounded)).
    pose proof (neg_inf_least (upper_cut b)). cut_order.
Qed.
End inequality.

(** ** Terms *)

Definition lexicographic (key : CanonicalMarkerValueString) : bool :=
  match key with CPlatformRelease | CPlatformVersion => true | _ => false end.

(** Specifiers that terms are made of: comparisons with a release, and wildcards of
    two segments. *)
Definition spec_term_ok (sp : VersionSpecifier) : bool :=
  release_only (spec_version sp) &&
  match operator sp with
  | EqualStar | NotEqualStar => Nat.eqb (length (release (spec_version sp))) 2
  | TildeEqual | ExactEqual => false
  | _ => true
  end.

Definition term_ok (e : MarkerExpression) : bool :=
  match e with
  | EVersion PythonVersion _ => false
  | EVersion _ sp => spec_term_ok sp
  | EString key op _ =>
      match op with
      | MTildeEqual => false
      | MGreaterThan | MGreaterEqual | MLessThan | MLessEqual => lexicographic (canonical_string_key key)
      | _ => true
      end
  | EList (PairArbitrary _ _) _ => false
  | EList _ _ => true
  | EExtra (ExtraNameValue _) _ => true
  | _ => false
  end.

Lemma release_cmp_eq v w r : release_only v = true -> release_only w = true -> nonneg r -> version_eq v w = true ->
  pad_cmp r (release v) = pad_cmp r (release w).
Proof.
  intros Hv Hw Hr E. unfold version_eq in E. rewrite cmp_release_only in E by done.
  pose proof (real_nonneg _ (proj1 (release_only_elim v Hv))) as Nv. pose proof (real_nonneg _ (proj1 (release_only_elim w Hw))) as Nw.
  rewrite !pad_cmp_trim by done. f_equal. apply pad_cmp_Eq_trim; [done|done|]. by destruct (pad_cmp _ _).
Qed.

Lemma two_release_eq v w : release_only v = true -> release_only w = true -> version_eq v w = true ->
  length (release v) = 2%nat -> length (release w) = 2%nat -> release v = release w.
Proof.
  intros Hv Hw E. unfold version_eq in E. rewrite cmp_release_only in E by done.
  destruct (release v) as [|a [|b [|]]], (release w) as [|c [|d [|]]]; try done. intros _ _. cbn [pad_cmp] in E.
  destruct (Z.compare_spec a c) as [->| |]; [|done|done]. cbn in E. by destruct (Z.compare_spec b d) as [->| |].
Qed.

Lemma version_eq_sym v w : release_only v = true -> release_only w = true -> version_eq v w = version_eq w v.
Proof. intros Hv Hw. unfold version_eq. rewrite !cmp_release_only, pad_cmp_sym by done. by destruct (pad_cmp _ _). Qed.

(** Terms with the same key, operator and version agree. *)
Lemma spec_terms_eq sp sp' r : spec_term_ok sp = true -> spec_term_ok sp' = true -> nonneg r -> operator sp = operator sp' ->
  version_eq (spec_version sp) (spec_version sp') = true ->
  release_holds (operator sp) (release (spec_version sp)) r = release_holds (operator sp') (release (spec_version sp')) r.
Proof.
  intros [H1 H2]%andb_true_iff [H1' H2']%andb_true_iff Hr Eo Ev. rewrite <- Eo in *. pose proof (release_cmp_eq _ _ r H1 H1' Hr Ev) as E.
  destruct (operator sp); cbn [release_holds]; rewrite ?E; try done;
    (rewrite (two_release_eq (spec_version sp) (spec_version sp')); [done..|by apply Nat.eqb_eq|by apply Nat.eqb_eq]).
Qed.

Lemma release_holds_negate op op' t r : negate op = Some op' -> op <> ExactEqual -> release_holds op' t r = negb (release_holds op t r).
Proof. destruct op; cbn; intros [= <-] ?; cbn; try done; rewrite ?negb_involutive; try done; by destruct (pad_cmp r t). Qed.

Section terms.
Context (env : MarkerEnvironment) (extras : ExtrasEnvironment).
Hypothesis env_is_release : env_release env.

Lemma env_nonneg key : nonneg (release (get_version env key)).
Proof. apply real_nonneg, release_only_elim. by apply env_release_version. Qed.

Lemma version_term_holds key sp : key <> PythonVersion ->
  expr_holds env extras (EVersion key sp) = release_holds (operator sp) (release (spec_version sp)) (release (get_version env (canonical_version_key key))).
Proof. by destruct key. Qed.

Lemma term_eqb_holds x y : term_ok x = true -> term_ok y = true -> expression_eqb x y = true ->
  expr_holds env extras x = expr_holds env extras y.
Proof.
  intros Hx Hy E. destruct x as [k sp|k l o|k o v|p o|n o], y as [k' sp'|k' l' o'|k' o' v'|p' o'|n' o']; try done; cbn [expression_eqb] in E.
  - apply andb_true_iff in E as [->%bool_decide_eq_true Es]. assert (Hk : k' <> PythonVersion) by (by intros ->).
    assert (Hsp : spec_term_ok sp = true) by (by destruct k'). assert (Hsp' : spec_term_ok sp' = true) by (by destruct k').
    rewrite !version_term_holds by done. destruct (spec_eq_elim sp sp' Es) as (Eo & Ec & _).
    apply spec_terms_eq; [done|done|apply env_nonneg|done|]. unfold version_eq. by rewrite Ec.
  - by apply andb_true_iff in E as [[->%bool_decide_eq_true ->%bool_decide_eq_true]%andb_true_iff ->%bytes_eqb_eq].
  - by apply andb_true_iff in E as [->%bool_decide_eq_true ->%bool_decide_eq_true].
  - by apply andb_true_iff in E as [->%bool_decide_eq_true ->%bool_decide_eq_true].
Qed.

Lemma term_eqb_sym x y : term_ok x = true -> term_ok y = true -> expression_eqb x y = expression_eqb y x.
Proof.
  intros Hx Hy. destruct x as [k sp|k l o|k o v|p o|n o], y as [k' sp'|k' l' o'|k' o' v'|p' o'|n' o']; try done; cbn [expression_eqb].
  - destruct (decide (k = k')) as [->|Hne]; [|by rewrite !bool_decide_eq_false_2 by congruence]. rewrite !bool_decide_eq_true_2 by done. cbn [andb].
    assert (Hsp : spec_term_ok sp = true) by (by destruct k'). assert (Hsp' : spec_term_ok sp' = true) by (by destruct k').
    apply andb_true_iff in Hsp as [H1 H2], Hsp' as [H1' H2']. unfold spec_eq.
    destruct (op_eqb (operator sp) (operator sp')) eqn:Eo.
    + apply op_eqb_eq in Eo. rewrite <- Eo in H2' |- *. rewrite (proj2 (op_eqb_eq _ _) eq_refl). cbn [negb].
      destruct (op_eqb (operator sp) TildeEqual) eqn:Et; [apply op_eqb_eq in Et; by rewrite Et in H2|]. cbn [andb]. by apply version_eq_sym.
    + replace (op_eqb (operator sp') (operator sp)) with false; [done|]. symmetry. apply not_true_iff_false. rewrite op_eqb_eq.
      apply not_true_iff_false in Eo. rewrite op_eqb_eq in Eo. congruence.
  - apply Bool.eq_iff_eq_true. rewrite !andb_true_iff, !bool_decide_eq_true, !bytes_eqb_eq. naive_solver.
  - apply Bool.eq_iff_eq_true. rewrite !andb_true_iff, !bool_decide_eq_true. naive_solver.
  - apply Bool.eq_iff_eq_true. rewrite !andb_true_iff, !bool_decide_eq_true. naive_solver.
Qed.

Lemma string_negation_holds key op op' value : marker_op_negate op = Some op' -> term_ok (EString key op value) = true ->
  expr_holds env extras (EString key op value) = negb (expr_holds env extras (EString key op' value)).
Proof.
  intros E Hok. cbn [expr_holds]. unfold string_expr_holds.
  assert (Hn : normalize_platform key value = (canonical_string_key key, value) \/ lexicographic (canonical_string_key key) = false).
  { unfold normalize_platform. destruct key; auto. }
  destruct op; cbn in E; try done; injection E as <-; rewrite ?negb_involutive; try done; unfold string_holds; rewrite ?negb_involutive; try done;
    cbn [term_ok] in Hok; (destruct Hn as [->|Hn]; [|congruence]); cbn [fst snd]; unfold lexicographic in Hok; rewrite Hok;
    by destruct (str_cmp _ _).
Qed.

Lemma term_negation_holds x y : term_ok x = true -> term_ok y = true -> is_negation x y = true ->
  expr_holds env extras x = negb (expr_holds env extras y).
Proof.
  intros Hx Hy E. destruct x as [k sp|k l o|k o v|p o|n o], y as [k' sp'|k' l' o'|k' o' v'|p' o'|n' o']; try done; cbn [is_negation] in E.
  - apply andb_true_iff in E as [[->%bool_decide_eq_true Ev]%andb_true_iff En]. assert (Hk : k' <> PythonVersion) by (by intros ->).
    assert (Hsp : spec_term_ok sp = true) by (by destruct k'). assert (Hsp' : spec_term_ok sp' = true) by (by destruct k').
    rewrite !version_term_holds by done. destruct (negate (operator sp)) as [o|] eqn:Eo; [|done]. apply op_eqb_eq in En as ->.
    apply andb_true_iff in Hsp as [H1 H2]. assert (Hne : operator sp <> ExactEqual) by (intros Eo'; by rewrite Eo' in H2).
    set (sp2 := mkSpec (operator sp) (spec_version sp')).
    assert (Hsp2 : spec_term_ok sp2 = true).
    { apply andb_true_iff in Hsp' as [H1' H2']. unfold spec_term_ok, sp2. cbn [spec_version operator]. rewrite H1'. cbn [andb].
      destruct (operator sp); cbn in Eo; try discriminate Eo; injection Eo as Eo; rewrite <- Eo in H2'; done. }
    rewrite (spec_terms_eq sp sp2); [|by apply andb_true_iff|done|apply env_nonneg|done|done]. cbn [spec_version operator sp2].
    rewrite (release_holds_negate _ _ _ _ Eo Hne). by rewrite negb_involutive.
  - apply andb_true_iff in E as [[->%bool_decide_eq_true ->%bytes_eqb_eq]%andb_true_iff En].
    destruct (marker_op_negate o) as [o2|] eqn:Eo; [|done]. apply bool_decide_eq_true in En as <-. by apply string_negation_holds.
  - apply andb_true_iff in E as [->%bool_decide_eq_true Ho%negb_true_iff%bool_decide_eq_false].
    destruct p' as [e|g|]; [| |done]; destruct o, o'; try done; cbn; by rewrite ?negb_involutive.
  - apply andb_true_iff in E as [->%bool_decide_eq_true <-%bool_decide_eq_true]. destruct n'; [|done]. destruct o; cbn; by rewrite ?negb_involutive.
Qed.
End terms.

(** ** Terms of a version range *)

(** No trailing zeros. *)
Definition trimmed (v : Version) : bool :=
  match only_release_trimmed v with Ret t => bytes_eqb (release t) (release v) | Panic => false end.

Definition plain_lower (b : BoundOf Version) : bool := bound_all release_only b.
Definition plain_upper (b : BoundOf Version) : bool :=
  match b with Included v => release_only v | Excluded v => release_only v && trimmed v | Unbounded => true end.

Lemma plain_upper_release b : plain_upper b = true -> bound_all release_only b = true.
Proof. destruct b; [done| |done]. by intros [? _]%andb_true_iff. Qed.

Lemma spec_term_real sp : spec_term_ok sp = true -> spec_real sp = true /\ release_only (spec_version sp) = true /\ operator sp <> ExactEqual.
Proof.
  intros [H1 H2]%andb_true_iff. destruct (release_only_elim _ H1) as (R & _ & _ & L). split; [|split; [done|intros E; by rewrite E in H2]].
  unfold spec_real, spec_valid, is_local. rewrite R, L. cbn. by destruct (operator sp).
Qed.

Lemma specifiers_term_contain l w : Forall (fun sp => spec_term_ok sp = true) l -> release_only w = true ->
  specifiers_contain l w = Ret (forallb (fun sp => release_holds (operator sp) (release (spec_version sp)) (release w)) l).
Proof.
  intros Hl Hw. induction Hl as [|sp l (H1 & H2 & H3)%spec_term_real Hl IH]; [done|]. cbn [specifiers_contain forallb].
  rewrite contains_release by done. cbn [obind]. by destruct (release_holds _ _ _).
Qed.

Lemma bounds_pair_terms lo hi : bound_all release_only lo = true -> bound_all release_only hi = true ->
  exists l, from_bounds_pair lo hi = Ret l /\ Forall (fun sp => spec_term_ok sp = true) l /\ (l = [] -> lo = Unbounded /\ hi = Unbounded).
Proof.
  intros Hl Hh. assert (OK : forall o v, release_only v = true -> o <> TildeEqual -> from_version o v = Ok (mkSpec o v)).
  { intros o v (_ & _ & _ & El)%release_only_elim Ho. unfold from_version, is_local. rewrite El. by destruct o. }
  assert (HT : forall o v, release_only v = true -> match o with LessThan | LessThanEqual | GreaterThan | GreaterThanEqual => True | _ => False end ->
    spec_term_ok (mkSpec o v) = true) by (intros o v Hv Ho; unfold spec_term_ok; cbn; rewrite Hv; by destruct o).
  unfold from_bounds_pair.
  destruct lo as [a|a|], hi as [b|b|]; cbn [bound_all from_lower_bound from_upper_bound] in *; rewrite ?OK by done;
    cbn [result_unwrap outcome_map obind option_list app]; eexists; (split; [reflexivity|]);
    (split; [repeat constructor; by apply HT|done]).
Qed.

Lemma star_term p m : Forall (fun x => 0 <= x < u64_max) [p; m] ->
  exists v, version_new [p; m] = Ret v /\ release v = [p; m] /\ release_only v = true.
Proof. intros H. destruct (version_new_spec [p; m] H) as (v & E & Er & Ho & _); [done|]. by exists v. Qed.

Lemma release_bounds_terms lo hi : bound_all release_only lo = true -> bound_all release_only hi = true ->
  exists l, from_release_only_bounds lo hi = Ret l /\ Forall (fun sp => spec_term_ok sp = true) l /\ (l = [] -> lo = Unbounded /\ hi = Unbounded).
Proof.
  intros Hl Hh. pose proof (bounds_pair_terms lo hi Hl Hh) as D.
  assert (HS : forall p m, Forall (fun x => 0 <= x < u64_max) [p; m] -> exists l, (let! v := version_new [p; m] in Ret [equals_star_version v]) = Ret l /\
    Forall (fun sp => spec_term_ok sp = true) l /\ (l = [] -> lo = Unbounded /\ hi = Unbounded)).
  { intros p m Hb. destruct (star_term p m Hb) as (v & -> & Er & Ho). eexists. split; [reflexivity|]. split; [|done]. constructor; [|constructor].
    unfold spec_term_ok, equals_star_version. cbn [spec_version operator]. by rewrite Ho, Er. }
  destruct lo as [v1|v1|], hi as [v2|v2|]; try exact D; cbn [bound_all from_release_only_bounds] in *.
  - destruct (version_eq v1 v2); [|exact D]. eexists. split; [reflexivity|]. split; [|done]. constructor; [|constructor].
    unfold spec_term_ok, equals_version. cbn [spec_version operator]. by rewrite Hl.
  - destruct (only_release_trimmed_real v1 Hl) as (t1 & E1 & _), (only_release_trimmed_real v2 Hh) as (t2 & E2 & _).
    destruct (trimmed_cmp v1 t1 [] Hl E1 ltac:(constructor)) as [_ F1].
    rewrite E1. cbn [obind]. destruct (release t1) as [|a [|b [|]]] eqn:Er; try exact D; rewrite E2; cbn [obind]; rewrite !Forall_cons in F1.
    + destruct (bytes_eqb _ _); [|exact D]. apply HS. rewrite !Forall_cons. split; [tauto|]. split; [unfold u64_max; lia|constructor].
    + rewrite add64_below by tauto. cbn [obind]. destruct (bytes_eqb _ _); [|exact D]. apply HS. rewrite !Forall_cons. tauto.
Qed.

Lemma map_o_spec {A B} (f : A -> outcome B) (l : list A) (Q : A -> B -> Prop) :
  (forall x, x ∈ l -> exists y, f x = Ret y /\ Q x y) -> exists ys, map_o f l = Ret ys /\ Forall2 Q l ys.
Proof.
  induction l as [|x l IH]; intros H; [exists []; split; [done|constructor]|].
  destruct (H x) as (y & E & Hy); [by left|]. destruct IH as (ys & E' & Hys); [intros z Hz; apply H; by right|].
  exists (y :: ys). cbn. rewrite E. cbn. rewrite E'. split; [done|by constructor].
Qed.

Section version_terms.
Context {RV : Type} `{!RangeSet Version RV} `{!RangeSetLaws Version RV}.

Definition plain_range (u : RV) : Prop :=
  bounds_in (fun b => plain_lower b = true) (fun b => plain_upper b = true) u.

Lemma contains_segments (u : RV) x : rs_ok u -> wf x = true ->
  rs_contains u x = existsb (fun seg => Specifier.above seg.1 x && Specifier.below seg.2 x) (rs_iter u).
Proof.
  intros Hu Hx. rewrite rs_contains_law by done. destruct Hu as [HV _]. unfold rs_cuts, cut_mem.
  induction (rs_iter u) as [|[a b] l IH]; [done|]. cbn [map existsb forallb] in *. apply andb_true_iff in HV as [H1 H2]. rewrite IH by done.
  apply andb_true_iff in H1 as [Va Vb]. f_equal. by apply value_in_cuts.
Qed.

(** What is claimed of the alternatives of a range. *)
Definition alternatives (key : MarkerValueVersion) (u : RV) (alts : list Clause) : Prop :=
  Forall (fun c => c <> [] /\ Forall (fun e => term_ok e = true) c) alts /\
  forall env extras, env_release env ->
    dnf_holds (expr_holds env extras) alts = rs_contains u (get_version env (canonical_version_key key)).

Lemma inequality_alternatives key (u : RV) ex : key <> PythonVersion -> rs_ok u -> plain_range u -> rs_cuts u <> [(NegInf, PosInf)] ->
  range_inequality u = Some ex -> alternatives key u [map (fun v => EVersion key (not_equals_version v)) ex].
Proof.
  intros Hk Hu Hb Hfull Ei. destruct (range_inequality_spec u ex Hu Ei) as (H1 & H2 & H3).
  assert (Hex : forall v, v ∈ ex -> release_only v = true).
  { intros v (seg & Hs & E)%H1. destruct (Hb seg Hs) as [_ Hp]. rewrite E in Hp. by apply andb_true_iff in Hp as [? _]. }
  split.
  - constructor; [|constructor]. split; [intros E%map_eq_nil; by apply Hfull, H3|]. apply Forall_forall.
    intros e (v & -> & Hv)%elem_of_map. unfold not_equals_version. assert (spec_term_ok (mkSpec NotEqual v) = true) by (unfold spec_term_ok; cbn; by rewrite Hex).
    by destruct key.
  - intros env extras Henv. pose proof (env_release_version env (canonical_version_key key) Henv) as Hx.
    rewrite rs_contains_law by (done || by apply real_wf, release_only_elim). etrans; [|symmetry; by apply H2].
    unfold dnf_holds, clause_holds. cbn [existsb]. rewrite orb_false_r. clear H1 H2 H3 Ei. induction ex as [|v ex IH]; [done|]. cbn [map forallb].
    rewrite IH by (intros w Hw; apply Hex; by right). f_equal. rewrite version_term_holds by done. cbn. f_equal.
    assert (Hv : release_only v = true) by (apply Hex; by left).
    rewrite <- (cmp_release_only (get_version env (canonical_version_key key)) v) by done. rewrite cmp_key by (by apply real_wf, release_only_elim).
    unfold is_at, cut_cmp, at_value, before, pair_cmp. cbn. by destruct (key_cmp _ _).
Qed.

Lemma star_alternatives key (u : RV) sp : key <> PythonVersion -> rs_ok u -> plain_range u ->
  star_range_specifier u = Ret (Some sp) -> alternatives key u [[EVersion key sp]].
Proof.
  intros Hk Hu Hb. unfold star_range_specifier.
  destruct (rs_iter u) as [|[[| |] [|v1|]] [|[[v2| |] [| |]] [|]]] eqn:Ei; try done.
  destruct (Hb (Unbounded, Excluded v1)) as [_ [R1 T1]%andb_true_iff]; [rewrite Ei; by left|].
  destruct (Hb (Included v2, Unbounded)) as [R2 _]; [rewrite Ei; by right; left|]. cbn in R2.
  unfold trimmed in T1. destruct (only_release_trimmed v1) as [t1|] eqn:Et; [|done]. apply bytes_eqb_eq in T1. cbn [obind].
  destruct (trimmed_cmp v1 t1 [] R1 Et ltac:(constructor)) as [_ F1].
  assert (Hgen : forall p m sv, Forall (fun x => 0 <= x < u64_max) [p; m] -> release sv = [p; m] -> release_only sv = true ->
    (forall r, pad_cmp r (release v1) = pad_cmp r [p; m]) -> release v2 = [p; m + 1] ->
    alternatives key u [[EVersion key (not_equals_star_version sv)]]).
  { intros p m sv Hpm Esv Hsv E1 E2. split.
    - constructor; [|constructor]. split; [done|]. constructor; [|constructor].
      assert (spec_term_ok (not_equals_star_version sv) = true) by (unfold spec_term_ok; cbn; by rewrite Hsv, Esv). by destruct key.
    - intros env extras Henv. pose proof (env_release_version env (canonical_version_key key) Henv) as Hx.
      rewrite contains_segments by (done || by apply real_wf, release_only_elim). rewrite Ei. unfold dnf_holds, clause_holds. cbn [existsb forallb].
      rewrite version_term_holds by done. cbn [Specifier.above Specifier.below fst snd operator spec_version not_equals_star_version release_holds].
      set (x := get_version env (canonical_version_key key)) in *. rewrite !cmp_release_only by done. rewrite E1, E2, Esv.
      rewrite !Forall_cons in Hpm. rewrite (prefix_padded_interval [p] m) by (lia || apply real_nonneg, release_only_elim; done). cbn [app].
      rewrite !andb_true_r, !orb_false_r. cbn [andb]. by destruct (pad_cmp (release x) [p; m]), (pad_cmp (release x) [p; m + 1]). }
  destruct (release t1) as [|a [|b [|]]] eqn:Er; try done; rewrite !Forall_cons in F1.
  - destruct (bytes_eqb (release v2) [a; 1]) eqn:Eb; [|done]. apply bytes_eqb_eq in Eb.
    assert (Fa : Forall (fun x => 0 <= x < u64_max) [a; 0]) by (rewrite !Forall_cons; split; [tauto|]; split; [unfold u64_max; lia|constructor]).
    destruct (star_term a 0 Fa) as (sv & -> & Esv & Hsv). cbn [obind]. intros [= <-].
    apply (Hgen a 0); try done. intros r. rewrite <- T1. apply pad_cmp_snoc_0.
  - rewrite add64_below by tauto. cbn [obind]. destruct (bytes_eqb (release v2) [a; b + 1]) eqn:Eb; [|done]. apply bytes_eqb_eq in Eb.
    intros [= <-]. apply (Hgen a b); try done; [rewrite !Forall_cons; tauto|by rewrite T1].
Qed.

Lemma star_range_total (u : RV) : plain_range u -> exists o, star_range_specifier u = Ret o.
Proof.
  intros Hb. unfold star_range_specifier.
  destruct (rs_iter u) as [|[[| |] [|v1|]] [|[[v2| |] [| |]] [|]]] eqn:Ei; try (by eexists).
  destruct (Hb (Unbounded, Excluded v1)) as [_ [R1 _]%andb_true_iff]; [rewrite Ei; by left|].
  destruct (only_release_trimmed_real v1 R1) as (t1 & Et & _). rewrite Et. cbn [obind].
  destruct (trimmed_cmp v1 t1 [] R1 Et ltac:(constructor)) as [_ F1].
  destruct (release t1) as [|a [|b [|]]]; try (by eexists); rewrite !Forall_cons in F1.
  - destruct (bytes_eqb _ _); [|by eexists]. destruct (star_term a 0) as (sv & -> & _); [|by eexists].
    rewrite !Forall_cons. split; [tauto|]. split; [unfold u64_max; lia|constructor].
  - rewrite add64_below by tauto. cbn [obind]. destruct (bytes_eqb _ _); by eexists.
Qed.

Lemma segment_alternatives key (u : RV) alts : key <> PythonVersion -> rs_ok u -> plain_range u -> rs_cuts u <> [(NegInf, PosInf)] ->
  map_o (fun bounds => outcome_map (map (EVersion key)) (from_release_only_bounds bounds.1 bounds.2)) (rs_iter u) = Ret alts ->
  alternatives key u alts.
Proof.
  intros Hk Hu Hb Hfull Ealts.
  destruct (map_o_spec (fun bounds => outcome_map (map (EVersion key)) (from_release_only_bounds bounds.1 bounds.2)) (rs_iter u)
    (fun seg c => c <> [] /\ Forall (fun e => term_ok e = true) c /\ forall env extras, env_release env ->
      clause_holds (expr_holds env extras) c =
      Specifier.above seg.1 (get_version env (canonical_version_key key)) && Specifier.below seg.2 (get_version env (canonical_version_key key))))
    as (ys & E & HF).
  { intros [lo hi] Hin. destruct (Hb _ Hin) as [Hl Hh%plain_upper_release]. unfold plain_lower in Hl. cbn [fst snd] in *.
    destruct (release_bounds_terms lo hi Hl Hh) as (l & El0 & Hok & Hnil). rewrite El0. eexists. split; [reflexivity|]. split; [|split].
    - intros [-> ->]%map_eq_nil%Hnil. by apply Hfull, full_segment.
    - apply Forall_forall. intros e (sp & -> & Hsp)%elem_of_map. rewrite Forall_forall in Hok. specialize (Hok sp Hsp). by destruct key.
    - intros env extras Henv. pose proof (env_release_version env (canonical_version_key key) Henv) as Hx.
      destruct (release_bounds_exact lo hi _ Hl Hh Hx) as (l' & El & Hc).
      rewrite El0 in El. injection El as <-. rewrite specifiers_term_contain in Hc by done. injection Hc as <-.
      unfold clause_holds. clear Hok Hnil El0. induction l as [|sp l IHl]; [done|]. cbn [map forallb]. by rewrite IHl, version_term_holds by done. }
  rewrite E in Ealts. injection Ealts as <-. clear E. split.
  - clear -HF. induction HF as [|seg c segs cs (H1 & H2 & _) HF IH]; by constructor.
  - intros env extras Henv. rewrite contains_segments by (done || by apply real_wf, release_only_elim, env_release_version).
    unfold dnf_holds. clear -HF Henv. induction HF as [|seg c segs cs (_ & _ & H3) HF IH]; [done|]. cbn [existsb]. rewrite IH. f_equal. by apply H3.
Qed.

Lemma version_terms_spec key (u : RV) : key <> PythonVersion -> rs_ok u -> plain_range u -> rs_cuts u <> [(NegInf, PosInf)] ->
  exists alts, version_terms key u = Ret alts /\ alternatives key u alts.
Proof.
  intros Hk Hu Hb Hfull. unfold version_terms. destruct (range_inequality u) as [ex|] eqn:Ei.
  { eexists. split; [reflexivity|]. by apply inequality_alternatives. }
  destruct (star_range_total u Hb) as (star & Es). rewrite Es. cbn [obind]. destruct star as [sp|].
  { eexists. split; [reflexivity|]. by apply star_alternatives. }
  assert (exists alts, map_o (fun bounds => outcome_map (map (EVersion key)) (from_release_only_bounds bounds.1 bounds.2)) (rs_iter u) = Ret alts)
    as [alts E]; [|exists alts; split; [done|by apply segment_alternatives]].
  destruct (map_o_spec (fun bounds => outcome_map (map (EVersion key)) (from_release_only_bounds bounds.1 bounds.2)) (rs_iter u) (fun _ _ => True))
    as (ys & -> & _); [|by eexists].
  intros [lo hi] Hin. destruct (Hb _ Hin) as [Hl Hh%plain_upper_release]. cbn [fst snd] in *.
  destruct (release_bounds_terms lo hi Hl Hh) as (l & -> & _). by eexists.
Qed.
End version_terms.

(** ** Ranges of single values *)

Section points.
Context {T R : Type} `{RangeSetLaws T R} `{!KeyedLaws T}.
Implicit Types (p : Cut) (u : R) (l : list (BoundOf T * BoundOf T)).

(** Only positions of values, and all but positions of values. *)
Definition points u : Prop := forall p, cut_mem p (rs_cuts u) = true -> exists k, p = before k.
Definition copoints u : Prop := forall p, p <> PosInf -> cut_mem p (rs_cuts u) = false -> exists k, p = before k.

(** Two positions with only values in between are around one value. *)
Lemma between_values p q : cut_lt p q -> (forall r, cut_le p r -> cut_lt r q -> exists k, r = before k) ->
  exists k, p = before k /\ q = after k.
Proof.
  intros Hpq Hall. destruct (Hall p) as [k ->]; [apply cut_le_refl|done|]. exists k. split; [done|].
  pose proof (after_before k q Hpq) as Hle. pose proof (before_after k) as Hba.
  destruct (cut_lt_total (after k) q) as [Hlt|[->|Hlt]]; [|done|cut_order].
  destruct (Hall (after k)) as [k' E]; [cut_order|done|done].
Qed.

Lemma points_segment u lo hi : rs_ok u -> points u -> (lo, hi) ∈ rs_iter u ->
  exists v w, lo = Included v /\ hi = Included w /\ key_of v = key_of w.
Proof.
  intros [_ HG] Hp Hin. assert (Hc : seg_cuts (lo, hi) ∈ rs_cuts u) by (apply elem_of_map; by eexists).
  apply gapped_sorted in HG as [HG _]. rewrite Forall_forall in HG. pose proof (HG _ Hc) as Hlt. cbn in Hlt.
  destruct (between_values _ _ Hlt) as (k & E1 & E2).
  { intros r H1 H2. apply Hp, cut_mem_iff. by eexists. }
  destruct lo as [v|v|], hi as [w|w|]; cbn in E1, E2; try done. injection E1 as E1. injection E2 as E2. exists v, w. by rewrite E1, E2.
Qed.

Lemma key_value_eqb v w : valid v = true -> valid w = true -> key_of v = key_of w -> value_eqb v w = true.
Proof. intros Hv Hw E. unfold value_eqb. by rewrite value_cmp_key, E, (ord_refl key_order). Qed.

Lemma copoints_excluded l a b : forallb seg_valid ((a, b) :: l) = true -> gapped (map seg_cuts ((a, b) :: l)) ->
  (forall p, p <> PosInf -> cut_le (lower_cut a) p -> cut_mem p (map seg_cuts ((a, b) :: l)) = false -> exists k, p = before k) ->
  option_map snd (last ((a, b) :: l)) = Some Unbounded /\ exists ex, excluded_between ((a, b) :: l) = Some ex.
Proof.
  revert a b. induction l as [|[c d] l IH]; intros a b HV HG Hco.
  - split; [|by eexists]. destruct HG as [Hab _]. cbn [seg_cuts fst snd map] in Hab. cbn. destruct b as [v|v|]; [| |done]; exfalso; cbn in Hab.
    + destruct (Hco (after (key_of v))) as [k E]; [done|cut_order| |done]. cbn. rewrite orb_false_r. apply not_true_iff_false. rewrite in_cuts_iff.
      cbn. intros [_ ?]. by apply (cut_lt_irrefl (after (key_of v))).
    + pose proof (before_after (key_of v)) as Hba. destruct (Hco (after (key_of v))) as [k E]; [done|cut_order| |done].
      cbn. rewrite orb_false_r. apply not_true_iff_false. rewrite in_cuts_iff. cbn. intros [_ ?]. cut_order.
  - cbn [forallb] in HV. apply andb_true_iff in HV as [HV1 HV2]. pose proof HV2 as HV3. cbn [forallb] in HV3. apply andb_true_iff in HV3 as [HV3 _].
    destruct HG as [Hab HG]. cbn [map] in HG. destruct HG as (Hbc & Hcd & HG). cbn [seg_cuts fst snd] in *.
    assert (Hrest : Forall (fun x => cut_le (lower_cut c) x.1) (map seg_cuts ((c, d) :: l))).
    { cbn [map]. constructor; [apply cut_le_refl|]. apply gapped_from_sorted in HG as [HG _]. eapply Forall_impl; [exact HG|]. cbn. intros. cut_order. }
    destruct (between_values _ _ Hbc) as (k & E1 & E2).
    { intros r H1 H2. pose proof (pos_inf_greatest (lower_cut c)). apply Hco; [intros ->; cut_order|cut_order|].
      change (in_cuts r (seg_cuts (a, b)) || cut_mem r (map seg_cuts ((c, d) :: l)) = false).
      rewrite (cut_mem_before (lower_cut c)), orb_false_r by done. apply not_true_iff_false. rewrite in_cuts_iff. cbn. intros [_ ?]. cut_order. }
    destruct (IH c d HV2) as [I1 [ex Eex]]; [by split| |].
    { intros p Hp Hle Hm. apply Hco; [done|cut_order|].
      change (in_cuts p (seg_cuts (a, b)) || cut_mem p (map seg_cuts ((c, d) :: l)) = false). rewrite Hm, orb_false_r.
      apply not_true_iff_false. rewrite in_cuts_iff. cbn. intros [_ ?]. cut_order. }
    split; [exact I1|]. rewrite excluded_between_cons. destruct b as [v|v|], c as [w|w|]; cbn in E1, E2; try done.
    injection E1 as E1. injection E2 as E2. unfold seg_valid in HV1, HV3. cbn in HV1, HV3.
    apply andb_true_iff in HV1 as [_ Hv]. apply andb_true_iff in HV3 as [Hw _].
    rewrite key_value_eqb by (done || by rewrite E1, E2). rewrite Eex. by eexists.
Qed.

Lemma copoints_inequality u : rs_ok u -> copoints u -> exists ex, range_inequality u = Some ex.
Proof.
  intros [HV HG] Hco. unfold range_inequality. rewrite rs_is_empty_law, rs_bounding_range_law. unfold copoints, rs_cuts in *.
  destruct (rs_iter u) as [|[a b] l]; [by destruct (Hco NegInf)|].
  assert (a = Unbounded) as ->.
  { destruct (cut_mem NegInf (map seg_cuts ((a, b) :: l))) eqn:Em; [|by destruct (Hco NegInf ltac:(done) Em)].
    apply cut_mem_iff in Em as ([x y] & Hin & Hle & _). cbn in Hle.
    apply gapped_sorted in HG as [HF HS]. cbn [map] in HS. apply StronglySorted_inv in HS as [_ HS].
    pose proof (neg_inf_least x). apply elem_of_cons in Hin as [E|Hin].
    - injection E as -> ->. assert (lower_cut a = NegInf) by cut_order. by destruct a.
    - rewrite Forall_forall in HS. specialize (HS _ Hin). cbn in HS. pose proof (neg_inf_least (upper_cut b)). cut_order. }
  destruct (copoints_excluded l Unbounded b HV HG) as [H1 [ex H2]]; [intros p Hp _; by apply Hco|].
  destruct (last ((Unbounded, b) :: l)) as [[x y]|]; [|done]. injection H1 as ->. by exists ex.
Qed.
End points.

(** ** Terms of a string range *)

(** Lowering keeps the key for this value. *)
Definition plain_value (key : CanonicalMarkerValueString) (v : Str) : bool :=
  let kv := normalize_platform (string_key_of_canonical key) v in bool_decide (kv.1 = key) && bytes_eqb kv.2 v.

Definition plain_bound (key : CanonicalMarkerValueString) (b : BoundOf Str) : bool :=
  match b with Included v | Excluded v => plain_value key v | Unbounded => true end.

Lemma canonical_string_roundtrip key : canonical_string_key (string_key_of_canonical key) = key.
Proof. by destruct key. Qed.

Section string_terms.
Context {RS : Type} `{!RangeSet Str RS} `{!RangeSetLaws Str RS}.

Definition string_alternatives (key : CanonicalMarkerValueString) (u : RS) (alts : list Clause) : Prop :=
  Forall (fun c => c <> [] /\ Forall (fun e => term_ok e = true) c) alts /\
  forall env extras, dnf_holds (expr_holds env extras) alts = rs_contains u (get_string env key).

Lemma plain_term env extras key op v : string_operator op = true -> plain_value key v = true ->
  expr_holds env extras (EString (string_key_of_canonical key) op v) = string_holds key op v (get_string env key).
Proof.
  unfold plain_value. intros Hop [E1%bool_decide_eq_true E2%bytes_eqb_eq]%andb_true_iff. cbn [expr_holds]. unfold string_expr_holds.
  rewrite canonical_string_roundtrip, E1, E2. by destruct op.
Qed.

Lemma is_at_str (x v : Str) : is_at (at_value x) v = bytes_eqb x v.
Proof. unfold is_at, at_value, cut_cmp, pair_cmp, before, bytes_eqb. cbn. by destruct (list_cmp Z.compare x v). Qed.

Lemma string_inequality key (u : RS) ex : rs_ok u -> bounds_in (fun b => plain_bound key b = true) (fun b => plain_bound key b = true) u ->
  rs_cuts u <> [(NegInf, PosInf)] -> range_inequality u = Some ex ->
  string_alternatives key u [map (fun v => EString (string_key_of_canonical key) MNotEqual v) ex].
Proof.
  intros Hu Hb Hfull Ei. destruct (range_inequality_spec u ex Hu Ei) as (H1 & H2 & H3).
  assert (Hex : forall v, v ∈ ex -> plain_value key v = true).
  { intros v (seg & Hs & E)%H1. destruct (Hb seg Hs) as [_ Hp]. by rewrite E in Hp. }
  split.
  - constructor; [|constructor]. split; [intros E%map_eq_nil; by apply Hfull, H3|]. apply Forall_forall. by intros e (v & -> & Hv)%elem_of_map.
  - intros env extras. rewrite rs_contains_law by done. etrans; [|symmetry; by apply H2].
    unfold dnf_holds, clause_holds. cbn [existsb]. rewrite orb_false_r. clear H1 H2 H3 Ei. induction ex as [|v ex IH]; [done|]. cbn [map forallb].
    rewrite IH by (intros w Hw; apply Hex; by right). f_equal. rewrite plain_term by (done || apply Hex; by left). cbn. by rewrite is_at_str.
Qed.

(** One segment. *)
Lemma segment_term_holds env extras key lo hi : plain_bound key lo = true -> plain_bound key hi = true ->
  cut_lt (lower_cut lo) (upper_cut hi) -> (lexicographic key = true \/ exists v, lo = Included v /\ hi = Included v) ->
  let c := map (fun ov => EString (string_key_of_canonical key) ov.1 ov.2) (marker_op_from_bounds (lo, hi)) in
  Forall (fun e => term_ok e = true) c /\ (c = [] -> lo = Unbounded /\ hi = Unbounded) /\
  clause_holds (expr_holds env extras) c = in_cuts (at_value (get_string env key)) (lower_cut lo, upper_cut hi).
Proof.
  intros Hl Hh Hlt Hkey. cbv zeta. rewrite str_in_cuts. set (x := get_string env key).
  assert (Heq : forall v, plain_value key v = true -> bytes_eqb x v = is_ge (str_cmp x v) && is_le (str_cmp x v)).
  { intros v _. unfold bytes_eqb, str_cmp. by destruct (list_cmp _ _ _). }
  destruct Hkey as [Hkey|(v & -> & ->)].
  - assert (HT : forall op v, match op with MEqual | MNotEqual | MGreaterThan | MGreaterEqual | MLessThan | MLessEqual => True | _ => False end ->
      term_ok (EString (string_key_of_canonical key) op v) = true).
    { intros op v Ho. cbn. rewrite canonical_string_roundtrip. by destruct op. }
    assert (HH : forall op v, string_operator op = true -> plain_value key v = true ->
      expr_holds env extras (EString (string_key_of_canonical key) op v) = string_holds key op v x) by (intros; by apply plain_term).
    unfold string_holds in HH. unfold lexicographic in Hkey. rewrite Hkey in HH.
    destruct lo as [v|v|], hi as [w|w|]; cbn [marker_op_from_bounds marker_op_from_lower_bound marker_op_from_upper_bound option_list app fst snd plain_bound] in *;
      try (split; [by repeat (constructor; [by apply HT|])|split; [done|]]; unfold clause_holds; cbn [map forallb fst snd]; rewrite ?HH by done; by rewrite ?andb_true_r).
    + destruct (bytes_eqb v w) eqn:E; [apply bytes_eqb_eq in E as <-|];
        (split; [by repeat (constructor; [by apply HT|])|split; [done|]]; unfold clause_holds; cbn [map forallb fst snd]; rewrite ?HH by done; rewrite ?andb_true_r; auto).
    + destruct (bytes_eqb v w) eqn:E; [apply bytes_eqb_eq in E as <-; exfalso|].
      * cbn in Hlt. pose proof (before_after v). cut_order.
      * split; [by repeat (constructor; [by apply HT|])|split; [done|]]; unfold clause_holds; cbn [map forallb fst snd]; rewrite ?HH by done; by rewrite ?andb_true_r.
  - cbn [marker_op_from_bounds plain_bound] in *. rewrite (proj2 (bytes_eqb_eq v v) eq_refl). split; [by repeat constructor|]. split; [done|].
    unfold clause_holds. cbn [map forallb fst snd]. rewrite plain_term by done. cbn [string_holds]. rewrite andb_true_r. by apply Heq.
Qed.

Lemma string_terms_spec key (u : RS) : rs_ok u -> bounds_in (fun b => plain_bound key b = true) (fun b => plain_bound key b = true) u ->
  rs_cuts u <> [(NegInf, PosInf)] -> lexicographic key = true \/ points u \/ copoints u ->
  string_alternatives key u (string_terms (string_key_of_canonical key) u).
Proof.
  intros Hu Hb Hfull Hkey. unfold string_terms. destruct (range_inequality u) as [ex|] eqn:Ei; [by apply string_inequality|].
  assert (Hseg : forall lo hi, (lo, hi) ∈ rs_iter u -> plain_bound key lo = true /\ plain_bound key hi = true /\ cut_lt (lower_cut lo) (upper_cut hi) /\
    (lexicographic key = true \/ exists v, lo = Included v /\ hi = Included v)).
  { intros lo hi Hin. destruct (Hb _ Hin) as [H1 H2]. split; [done|]. split; [done|]. split.
    - destruct Hu as [_ HG]. apply gapped_sorted in HG as [HG _]. rewrite Forall_forall in HG. apply (HG (seg_cuts (lo, hi))), elem_of_map. by eexists.
    - destruct Hkey as [?|[Hp|Hp]]; [by left| |].
      + right. destruct (points_segment u lo hi Hu Hp Hin) as (v & w & -> & -> & E). cbn in E. subst w. by eexists.
      + destruct (copoints_inequality u Hu Hp) as [ex E]. congruence. }
  split.
  - apply Forall_forall. intros c ([lo hi] & -> & Hin)%elem_of_map. destruct (Hseg lo hi Hin) as (H1 & H2 & H3 & H4).
    destruct (segment_term_holds (mkEnvironment [] (mkStringVersion [] (Small small_new)) [] [] [] [] [] [] (mkStringVersion [] (Small small_new)) (mkStringVersion [] (Small small_new)) [])
      (EnvExtras []) key lo hi H1 H2 H3 H4) as (Hok & Hnil & _). split; [|done].
    intros E. destruct (Hnil E) as [-> ->]. by apply Hfull, full_segment.
  - intros env extras. rewrite rs_contains_law by done. unfold rs_cuts, cut_mem. clear Hfull Ei Hb Hkey.
    induction (rs_iter u) as [|[lo hi] l IH]; [done|]. cbn [map]. unfold dnf_holds in *. cbn [existsb]. rewrite IH by (intros; apply Hseg; by right). f_equal.
    destruct (Hseg lo hi) as (H1 & H2 & H3 & H4); [by left|]. by destruct (segment_term_holds env extras key lo hi H1 H2 H3 H4) as (_ & _ & ->).
Qed.
End string_terms.

(** ** Printable nodes *)

Section printable.
Context {RV RS : Type} `{!RangeSet Version RV} `{!RangeSetLaws Version RV} `{!RangeSetBounds Version RV}.
Context `{!RangeSet Str RS} `{!RangeSetLaws Str RS} `{!RangeSetBounds Str RS}.

Abbreviation Node := (NodeOf RV RS).
Abbreviation Interner := (InternerOf RV RS).
Implicit Types (s : Interner) (n : Node) (t : NodeId).

Definition is_point (r : RS) : bool :=
  match rs_iter r with [(Included v, Included w)] => bytes_eqb v w | _ => false end.

(** One child for everything besides single values. *)
Definition settled (edges : list (RS * NodeId)) : bool :=
  match List.filter (fun e => negb (is_point (fst e))) edges with
  | [] => true
  | (_, d) :: rest => forallb (fun e => snd e =? d) rest
  end.

Definition node_printable n : bool :=
  match node_var n, children n with
  | VVersion _, EdgesVersion edges =>
      forallb (fun e => forallb (fun seg => plain_lower seg.1 && plain_upper seg.2) (rs_iter (fst e))) edges
  | VString key, EdgesString edges =>
      forallb (fun e => forallb (fun seg => plain_bound key seg.1 && plain_bound key seg.2) (rs_iter (fst e))) edges &&
      (lexicographic key || settled edges)
  | _, _ => true
  end.

(** [c] is the tree at an edge of the tree [t]. *)
Definition subtree s t c : Prop := node_index c < node_index t /\ 0 <= node_index t /\
  exists n c0, nodes s !! Z.to_nat (node_index t) = Some n /\ c0 ∈ edge_nodes (children n) /\ c = node_negate c0 t.

(** All nodes of the diagram of [t] satisfy [P]. *)
Definition all_nodes (P : Node -> bool) s t : Prop :=
  forall c n, rtc (subtree s) t c -> 0 <= node_index c -> nodes s !! Z.to_nat (node_index c) = Some n -> P n = true.

Lemma all_nodes_here P s t n : all_nodes P s t -> 0 <= node_index t -> nodes s !! Z.to_nat (node_index t) = Some n -> P n = true.
Proof. intros H. by apply H. Qed.

Lemma all_nodes_subtree P s t c : all_nodes P s t -> subtree s t c -> all_nodes P s c.
Proof. intros H Hc d n Hd. apply H. by eapply rtc_l. Qed.

(** A test on the whole interner is enough. *)
Lemma all_nodes_store P s t : forallb P (nodes s) = true -> all_nodes P s t.
Proof. intros H c n _ _ En. rewrite forallb_forall in H. apply H, list_elem_of_In. by eapply list_elem_of_lookup_2. Qed.

Definition printable s t : Prop := all_nodes node_printable s t.

Lemma forallb_elem {A} (f : A -> bool) (l : list A) : forallb f l = true <-> forall x, x ∈ l -> f x = true.
Proof. rewrite forallb_forall. by setoid_rewrite list_elem_of_In. Qed.

Lemma settled_shape edges t (u : RS) : tiles NegInf edges PosInf -> settled edges = true -> covers u (leads_to edges t) -> points u \/ copoints u.
Proof.
  intros Ht Hs [_ Hm].
  assert (Hpt : forall (r : RS) c a b p, (r, c) ∈ edges -> range_at r a b -> cut_le a p -> cut_lt p b -> is_point r = true -> exists k, p = before k).
  { intros r c a b p _ Hr Ha Hb Hpt. unfold is_point in Hpt. destruct Hr as [_ Er]. unfold rs_cuts in Er.
    destruct (rs_iter r) as [|[[v|v|] [w|w|]] [|]]; try done. apply bytes_eqb_eq in Hpt as ->. cbn in Er. injection Er as <- <-. exists w. exact (inside_value (T := Str) w p Ha Hb). }
  assert (Hd : exists d, forall r c, (r, c) ∈ edges -> is_point r = false -> c = d).
  { unfold settled in Hs. destruct (List.filter _ edges) as [|[r0 d] rest] eqn:Ef.
    - exists 0. intros r c Hin Hp. exfalso. assert (Hin' : (r, c) ∈ List.filter (fun e => negb (is_point (fst e))) edges).
      { apply list_elem_of_In, filter_In. split; [by apply list_elem_of_In|]. cbn. by rewrite Hp. } rewrite Ef in Hin'. by apply elem_of_nil in Hin'.
    - exists d. intros r c Hin Hp. assert (Hin' : (r, c) ∈ List.filter (fun e => negb (is_point (fst e))) edges).
      { apply list_elem_of_In, filter_In. split; [by apply list_elem_of_In|]. cbn. by rewrite Hp. }
      rewrite Ef in Hin'. apply elem_of_cons in Hin' as [[= _ ->]|Hin']; [done|]. rewrite forallb_elem in Hs. by apply Z.eqb_eq, (Hs (r, c)). }
  destruct Hd as [d Hd]. destruct (Z.eq_dec t d) as [->|Hne]; [right|left].
  - intros p Hp Hmem. rewrite Hm in Hmem by done. pose proof (pos_inf_greatest p). pose proof (neg_inf_least p).
    destruct (tile_at_some NegInf edges PosInf p) as (r & c & a & b & Hin & Hr & Ha & Hb & E); [done|done| |].
    { destruct (cut_lt_total p PosInf) as [?|[?|?]]; [done|done|cut_order]. }
    destruct (is_point r) eqn:Ep; [by eapply Hpt|]. exfalso. rewrite (Hd r c Hin Ep) in E.
    apply (leads_to_tile edges d p Ht Hp) in E. congruence.
  - intros p Hmem. assert (Hp : p <> PosInf).
    { intros ->. apply cut_mem_iff in Hmem as ([x y] & _ & _ & Hlt). cbn in Hlt. pose proof (pos_inf_greatest y). cut_order. }
    rewrite Hm in Hmem by done. apply (leads_to_tile edges t p Ht Hp) in Hmem. pose proof (neg_inf_least p).
    destruct (tile_at_some NegInf edges PosInf p) as (r & c & a & b & Hin & Hr & Ha & Hb & E); [done|done| |].
    { pose proof (pos_inf_greatest p). destruct (cut_lt_total p PosInf) as [?|[?|?]]; [done|done|cut_order]. }
    destruct (is_point r) eqn:Ep; [by eapply Hpt|]. exfalso. rewrite (Hd r c Hin Ep) in E. congruence.
Qed.

(** ** The collected paths *)

Abbreviation term_list := (Forall (fun e => term_ok e = true)).

(** The clauses hold where the path and [g] do. *)
Definition spells (path : Clause) (g : MarkerEnvironment -> ExtrasEnvironment -> bool) (d : Dnf) : Prop :=
  Forall (fun c => term_list c) d /\
  forall env extras, env_release env -> dnf_holds (expr_holds env extras) d = clause_holds (expr_holds env extras) path && g env extras.

Lemma clause_holds_app holds c c' : clause_holds holds (c ++ c') = clause_holds holds c && clause_holds holds c'.
Proof. apply forallb_app. Qed.

Lemma spells_concat {A} (f : A -> outcome Dnf) (l : list A) path g :
  (forall x, x ∈ l -> exists d, f x = Ret d /\ spells path (g x) d) ->
  exists d, concat_o f l = Ret d /\ spells path (fun env extras => existsb (fun x => g x env extras) l) d.
Proof.
  intros H. destruct (map_o_spec f l (fun x d => spells path (g x) d) H) as (ds & E & HF). unfold concat_o. rewrite E.
  eexists. split; [reflexivity|]. clear E H. split.
  - induction HF as [|x d l ds [Hd _] HF IH]; [constructor|]. cbn [concat]. by apply Forall_app.
  - intros env extras Henv. induction HF as [|x d l ds [_ Hd] HF IH]; [by rewrite andb_false_r|]. cbn [concat existsb].
    unfold dnf_holds in *. rewrite existsb_app, IH, Hd by done. by destruct (clause_holds _ path).
Qed.

Lemma spells_weaken path c g d : spells (path ++ c) g d -> spells path (fun env extras => clause_holds (expr_holds env extras) c && g env extras) d.
Proof. intros [H1 H2]. split; [done|]. intros env extras Henv. rewrite H2, clause_holds_app by done. by rewrite andb_assoc. Qed.

Lemma spells_ext path g g' d : (forall env extras, env_release env -> g env extras = g' env extras) -> spells path g d -> spells path g' d.
Proof. intros E [H1 H2]. split; [done|]. intros env extras Henv. by rewrite <- E, H2. Qed.

Lemma existsb_andb_r {A} (f : A -> bool) b (l : list A) : existsb (fun x => f x && b) l = existsb f l && b.
Proof. induction l as [|x l IH]; [done|]. cbn. rewrite IH. by destruct (f x), b, (existsb f l). Qed.

(** All alternatives for an edge, then its subtree. *)
Lemma spells_alternatives (rec : Clause -> outcome Dnf) path alts f g :
  Forall (fun c => c <> [] /\ term_list c) alts -> (forall env extras, env_release env -> dnf_holds (expr_holds env extras) alts = f env extras) ->
  (forall c, c <> [] -> term_list c -> exists d, rec (path ++ c) = Ret d /\ spells (path ++ c) g d) ->
  exists d, concat_o (fun c => rec (path ++ c)) alts = Ret d /\ spells path (fun env extras => f env extras && g env extras) d.
Proof.
  intros Halts Hf Hrec.
  destruct (spells_concat (fun c => rec (path ++ c)) alts path (fun c env extras => clause_holds (expr_holds env extras) c && g env extras)) as (d & E & Hd).
  { intros c Hc. rewrite Forall_forall in Halts. destruct (Halts c Hc) as [H1 H2]. destruct (Hrec c H1 H2) as (d & E & Hd). exists d. split; [done|by apply spells_weaken]. }
  exists d. split; [done|]. eapply spells_ext; [|exact Hd]. intros env extras Henv. cbn. rewrite <- Hf by done. unfold dnf_holds.
  apply existsb_andb_r.
Qed.

Section at_node.
Context (s : Interner) (t : NodeId) (n : Node).
Hypothesis (s_ok : store_ok s) (t_marker : marker s t) (t_index : 0 <= node_index t).
Hypothesis t_node : nodes s !! Z.to_nat (node_index t) = Some n.
Hypothesis n_printable : node_printable n = true.

Definition spelled (c : NodeId) (d : Dnf) (path : Clause) : Prop :=
  spells path (fun env extras => den (env_valuation env extras) s c) d.

(** What is known of the recursive calls. *)
Context (rec : NodeId -> Clause -> outcome Dnf).
Hypothesis rec_spec : forall c path, marker s c -> subtree s t c -> term_list path -> path <> [] ->
  exists d, rec c path = Ret d /\ spelled c d path.

Lemma subtree_marker c : c ∈ edge_nodes (children n) -> marker s (node_negate c t) /\ subtree s t (node_negate c t).
Proof.
  intros Hc. destruct (subtree_before s t n s_ok (proj1 t_marker) t_index t_node c Hc) as (H1 & H2 & H3).
  split; [split; [done|]; intros w Hw; by apply t_marker, H3|]. split; [done|]. split; [done|]. by exists n, c.
Qed.

Lemma other_subtree c : exists c', c' ∈ map (fun x => node_negate x t) (edge_nodes (children n)) /\ c' <> c.
Proof.
  pose proof (node_reduced _ _ _ (store_nodes s s_ok _ _ t_node)) as Hr. destruct (edge_nodes (children n)) as [|a rest]; [done|].
  destruct Hr as (_ & b & Hb & Hne). destruct (Z.eq_dec (node_negate a t) c) as [<-|Ha].
  - exists (node_negate b t). split; [apply elem_of_map; exists b; split; [done|by right]|]. intros E. apply Hne.
    rewrite <- (node_negate_negate b t), E. apply node_negate_negate.
  - exists (node_negate a t). split; [apply elem_of_map; exists a; split; [done|by left]|done].
Qed.

(** A node that decides on a boolean. *)
Lemma boolean_paths path (expr : bool -> MarkerExpression) high low : children n = EdgesBoolean high low -> term_list path ->
  (forall b, term_ok (expr b) = true) ->
  (forall env extras b, env_release env -> expr_holds env extras (expr b) = Bool.eqb b (val_bool (env_valuation env extras) (node_var n))) ->
  exists d, concat_o (fun e : bool * NodeId => rec e.2 (path ++ [expr e.1])) (tree_children (node_negate high t) (node_negate low t)) = Ret d /\ spelled t d path.
Proof.
  intros Ech Hpath Hok Hh.
  assert (Hc : forall c, c = high \/ c = low -> c ∈ edge_nodes (children n)) by (rewrite Ech; cbn; intros c [->| ->]; [by left|by right; left]).
  destruct (spells_concat (fun e : bool * NodeId => rec e.2 (path ++ [expr e.1])) (tree_children (node_negate high t) (node_negate low t)) path
    (fun e env extras => clause_holds (expr_holds env extras) [expr e.1] && den (env_valuation env extras) s e.2)) as (d & E & Hd).
  { intros [b c] Hin. assert (exists c0, (c0 = high \/ c0 = low) /\ c = node_negate c0 t) as (c0 & Hc0%Hc & ->).
    { unfold tree_children in Hin. rewrite !elem_of_cons, elem_of_nil in Hin. naive_solver. }
    destruct (subtree_marker c0 Hc0) as [Hm Hlt]. cbn [fst snd].
    destruct (rec_spec (node_negate c0 t) (path ++ [expr b]) Hm Hlt) as (d & E & Hd); [apply Forall_app; split; [done|by constructor; [apply Hok|]]|by destruct path|].
    exists d. split; [done|]. by apply spells_weaken. }
  exists d. split; [done|]. eapply spells_ext; [|exact Hd]. intros env extras Henv. unfold tree_children. cbn [existsb fst snd].
  pose proof (env_valuation_ok env extras (env_release_ok env Henv)) as Hv.
  destruct (choose_subtree s t n s_ok (proj1 t_marker) t_index t_node _ Hv) as (c & Ec & _ & ->). rewrite Ech in Ec.
  change (Some (if val_bool (env_valuation env extras) (node_var n) then high else low) = Some c) in Ec. rewrite <- (Some_inj _ _ Ec).
  unfold clause_holds. cbn [forallb]. rewrite !Hh by done. rewrite !andb_true_r, orb_false_r.
  destruct (val_bool (env_valuation env extras) (node_var n)); cbn [Bool.eqb andb orb]; by rewrite ?orb_false_r.
Qed.

(** A node with a range map: [alts] are the alternatives of a range. *)
Lemma range_paths {T R} `{RangeSetLaws T R} `{!KeyedLaws T} `{!RangeSetBounds T R} (P Q : BoundOf T -> Prop) (edges : list (R * NodeId))
    (alts : R -> outcome (list Clause)) (value : MarkerEnvironment -> ExtrasEnvironment -> T) path :
  edge_nodes (children n) = map snd edges -> tiles NegInf edges PosInf -> P Unbounded -> Q Unbounded ->
  (forall e, e ∈ edges -> bounds_in P Q (fst e)) -> term_list path ->
  (forall env extras, env_release env -> valid (value env extras) = true /\
     choose (env_valuation env extras) (node_var n) (children n) = child_at (value env extras) edges) ->
  (forall c u, covers u (leads_to (tree_edges t edges) c) -> bounds_in P Q u -> rs_cuts u <> [(NegInf, PosInf)] ->
    exists l, alts u = Ret l /\ Forall (fun c => c <> [] /\ term_list c) l /\
      forall env extras, env_release env -> dnf_holds (expr_holds env extras) l = rs_contains u (value env extras)) ->
  exists d, (let! paths := collect_edges (tree_edges t edges) in
    concat_o (fun e => let! l := alts e.2 in concat_o (fun c => rec e.1 (path ++ c)) l) paths) = Ret d /\ spelled t d path.
Proof.
  intros Hedges Ht HP HQ Hb Hpath Hval Halts. set (E := tree_edges t edges).
  assert (HtE : tiles NegInf E PosInf) by (apply (tiles_snd NegInf edges PosInf (fun c => node_negate c t)); exact Ht).
  assert (HbE : forall e, e ∈ E -> bounds_in P Q (fst e)) by (intros e (e0 & -> & He0)%elem_of_map; exact (Hb e0 He0)).
  assert (HsE : map snd E = map (fun x => node_negate x t) (edge_nodes (children n))) by (unfold E; by rewrite tree_edges_snd, Hedges).
  destruct (collect_edges_spec P Q HP HQ E HtE HbE) as (paths & -> & Hcol). cbn [obind].
  destruct (spells_concat (fun e => let! l := alts e.2 in concat_o (fun c => rec e.1 (path ++ c)) l) paths path
    (fun e env extras => rs_contains (snd e) (value env extras) && den (env_valuation env extras) s (fst e))) as (d & Ed & Hd).
  { intros [c u] Hin. cbn [fst snd].
    assert (Hc : c ∈ map snd E) by (apply (collected_all _ _ _ _ Hcol), elem_of_map; by exists (c, u)).
    rewrite HsE in Hc. apply elem_of_map in Hc as (c0 & -> & Hc0). destruct (subtree_marker c0 Hc0) as [Hm Hlt].
    destruct (collected_range _ _ _ _ Hcol _ _ Hin) as [Hcov Hbu].
    destruct (other_subtree (node_negate c0 t)) as (c' & Hc' & Hne). rewrite <- HsE in Hc'.
    pose proof (collected_not_full P Q E paths _ u c' HtE Hcol Hin Hc' Hne) as Hfull.
    destruct (Halts _ u Hcov Hbu Hfull) as (l & -> & Hl & Hv). cbn [obind].
    apply spells_alternatives; [done|done|]. intros c Hne' Hc. apply rec_spec; [done|done|by apply Forall_app|by destruct path]. }
  exists d. split; [done|]. eapply spells_ext; [|exact Hd]. intros env extras Henv. destruct (Hval env extras Henv) as [Hvalid Hch].
  pose proof (env_valuation_ok env extras (env_release_ok env Henv)) as Hv.
  destruct (choose_subtree s t n s_ok (proj1 t_marker) t_index t_node _ Hv) as (c & Ec & _ & ->). rewrite Hch in Ec.
  apply (collected_choose P Q E paths _ (fun c => den (env_valuation env extras) s c)); [done|done|done|].
  unfold E. rewrite child_at_tree_edges, Ec. done.
Qed.
End at_node.

Lemma node_bounds {T R} `{RangeSet T R} (f g : BoundOf T -> bool) (edges : list (R * NodeId)) :
  forallb (fun e => forallb (fun seg => f seg.1 && g seg.2) (rs_iter (fst e))) edges = true ->
  forall e, e ∈ edges -> bounds_in (fun b => f b = true) (fun b => g b = true) (fst e).
Proof.
  intros Hb e He seg Hseg. rewrite forallb_elem in Hb. specialize (Hb e He). rewrite forallb_elem in Hb.
  by specialize (Hb seg Hseg) as [? ?]%andb_true_iff.
Qed.

Lemma concat_o_ext {A B} (f g : A -> outcome (list B)) (l : list A) : (forall x, f x = g x) -> concat_o f l = concat_o g l.
Proof. intros E. unfold concat_o. f_equal. induction l as [|x l IH]; [done|]. cbn. by rewrite E, IH. Qed.

Lemma version_key_proper key : version_key_of_canonical key <> PythonVersion /\ canonical_version_key (version_key_of_canonical key) = key.
Proof. by destruct key. Qed.

Lemma settled_tree edges t : settled edges = true -> settled (tree_edges t edges) = true.
Proof.
  assert (Hf : forall l, List.filter (fun e => negb (is_point (fst e))) (tree_edges t l) = tree_edges t (List.filter (fun e => negb (is_point (fst e))) l)).
  { unfold tree_edges. induction l as [|[r c] l IH]; [done|]. cbn. destruct (negb (is_point r)); cbn; by rewrite IH. }
  unfold settled. rewrite Hf. destruct (List.filter _ edges) as [|[r d] rest]; [done|]. cbn [tree_edges map fst snd].
  rewrite !forallb_elem. intros H e ([r0 c0] & -> & He)%elem_of_map. apply H, Z.eqb_eq in He. cbn in He |- *. rewrite He. apply Z.eqb_refl.
Qed.

Lemma version_node_paths s t n key edges (rec : NodeId -> Clause -> outcome Dnf) path :
  store_ok s -> marker s t -> 0 <= node_index t -> nodes s !! Z.to_nat (node_index t) = Some n -> node_printable n = true ->
  (forall c path, marker s c -> subtree s t c -> term_list path -> path <> [] -> exists d, rec c path = Ret d /\ spelled s c d path) ->
  node_var n = VVersion key -> children n = EdgesVersion edges -> term_list path ->
  exists d, (let! paths := collect_edges (tree_edges t edges) in
    concat_o (fun e => let! terms := version_terms (version_key_of_canonical key) (snd e) in
      concat_o (fun c => rec (fst e) (path ++ c)) terms) paths) = Ret d /\ spelled s t d path.
Proof.
  intros Hs Hm H0 En Hp Hrec Ev Ec Hpath. pose proof (node_edges _ _ _ (store_nodes s Hs _ _ En)) as He. rewrite Ev, Ec in He.
  unfold node_printable in Hp. rewrite Ev, Ec in Hp. destruct (version_key_proper key) as [Hk1 Hk2].
  apply (range_paths s t n Hs Hm H0 En rec Hrec (fun b => plain_lower b = true) (fun b => plain_upper b = true) edges
    (version_terms (version_key_of_canonical key)) (fun env _ => get_version env key)); [by rewrite Ec|done|done|done|by apply node_bounds|done| |].
  - intros env extras Henv. rewrite Ev, Ec. split; [|done]. by apply real_wf, release_only_elim, env_release_version.
  - intros c u [Hok _] Hb Hfull. destruct (version_terms_spec _ u Hk1 Hok Hb Hfull) as (l & E & H1 & H2). exists l. split; [done|]. split; [done|].
    intros env extras Henv. by rewrite H2, Hk2.
Qed.

Lemma string_node_paths s t n key edges (rec : NodeId -> Clause -> outcome Dnf) path :
  store_ok s -> marker s t -> 0 <= node_index t -> nodes s !! Z.to_nat (node_index t) = Some n -> node_printable n = true ->
  (forall c path, marker s c -> subtree s t c -> term_list path -> path <> [] -> exists d, rec c path = Ret d /\ spelled s c d path) ->
  node_var n = VString key -> children n = EdgesString edges -> term_list path ->
  exists d, (let! paths := collect_edges (tree_edges t edges) in
    concat_o (fun e => concat_o (fun c => rec (fst e) (path ++ c)) (string_terms (string_key_of_canonical key) (snd e))) paths) = Ret d /\ spelled s t d path.
Proof.
  intros Hs Hm H0 En Hp Hrec Ev Ec Hpath. pose proof (node_edges _ _ _ (store_nodes s Hs _ _ En)) as He. rewrite Ev, Ec in He.
  unfold node_printable in Hp. rewrite Ev, Ec in Hp. apply andb_true_iff in Hp as [Hp Hshape].
  apply (range_paths s t n Hs Hm H0 En rec Hrec (fun b => plain_bound key b = true) (fun b => plain_bound key b = true) edges
    (fun u => Ret (string_terms (string_key_of_canonical key) u)) (fun env _ => get_string env key)); [by rewrite Ec|done|done|done|by apply node_bounds|done| |].
  - intros env extras Henv. by rewrite Ev, Ec.
  - intros c u Hcov Hb Hfull. eexists. split; [reflexivity|]. destruct (string_terms_spec key u) as [H1 H2]; [apply Hcov|done|done| |by split].
    apply orb_true_iff in Hshape as [?|Hset]; [by left|right]. apply (settled_shape (tree_edges t edges) c); [|by apply settled_tree|done].
    by apply (tiles_snd NegInf edges PosInf (fun c => node_negate c t)).
Qed.

Lemma collect_dnf_spec fuel s t path : store_ok s -> printable s t -> marker s t -> node_index t + 1 < Z.of_nat fuel ->
  term_list path -> path <> [] \/ t <> node_true -> exists d, collect_dnf fuel s t path = Ret d /\ spelled s t d path.
Proof.
  intros Hs. revert t path. induction fuel as [|fuel IH]; intros t path Hpr Ht Hf Hpath Hne.
  { pose proof (node_index_bound t (proj1 (proj1 Ht))). lia. }
  cbn [collect_dnf]. destruct (tree_kind_spec s t Hs (proj1 Ht)) as [[-> ->]|[[-> ->]|(n & H0 & En & ->)]]; cbn [obind].
  - eexists. split; [reflexivity|]. destruct path as [|e path]; [by destruct Hne|]. split; [by constructor; [|constructor]|]. intros env extras _.
    rewrite den_true. unfold dnf_holds. cbn [existsb]. by rewrite orb_false_r, andb_true_r.
  - eexists. split; [reflexivity|]. split; [constructor|]. intros env extras _. by rewrite den_false, andb_false_r.
  - assert (Hp : node_printable n = true) by (by eapply all_nodes_here).
    pose proof (node_edges _ _ _ (store_nodes s Hs _ _ En)) as He.
    assert (Hrec : forall c path, marker s c -> subtree s t c -> term_list path -> path <> [] ->
      exists d, collect_dnf fuel s c path = Ret d /\ spelled s c d path).
    { intros c path' Hc Hsub Hpath' Hne'. apply IH; auto; [by eapply all_nodes_subtree|]. destruct Hsub. lia. }
    assert (Hvar : proper_var (node_var n) = true) by (apply Ht, (support_at s t n Hs (proj1 Ht) H0 En); by left).
    pose proof (fun expr high low => boolean_paths s t n Hs Ht H0 En (collect_dnf fuel s) Hrec path expr high low) as Hbool.
    unfold kind_of. destruct (node_var n) as [key|key|key value|key value|name|p] eqn:Ev, (children n) as [l|l|high low] eqn:Ec; try done.
    + by apply (string_node_paths s t n key l (collect_dnf fuel s) path).
    + by apply (version_node_paths s t n key l (collect_dnf fuel s) path).
    + apply (Hbool (fun b : bool => EString (string_key_of_canonical key) (if b then MIn else MNotIn) value)); [done|done|by intros []|].
      intros env extras b _. cbn. unfold string_expr_holds. rewrite canonical_string_roundtrip. by destruct b, (str_contains _ _).
    + apply (Hbool (fun b : bool => EString (string_key_of_canonical key) (if b then MContains else MNotContains) value)); [done|done|by intros []|].
      intros env extras b _. cbn. unfold string_expr_holds. rewrite canonical_string_roundtrip. by destruct b, (str_contains _ _).
    + apply (Hbool (fun b : bool => EExtra (ExtraNameValue name) (if b then ExtraEqual else ExtraNotEqual))); [done|done|by intros []|].
      intros env extras b _. cbn. by destruct b, (names_contain _ _).
    + apply (Hbool (fun b : bool => EList p (if b then ContainerIn else ContainerNotIn))); [done|done|by destruct p|].
      intros env extras b _. destruct p; [| |done]; cbn; by destruct b, (names_contain _ _).
Qed.

(** The normal form holds exactly where the marker does. *)
Lemma to_dnf_spec s t : store_ok s -> printable s t -> marker s t -> t <> node_true ->
  exists d, to_dnf s t = Ret d /\ forall env extras, env_release env -> dnf_holds (expr_holds env extras) d = den (env_valuation env extras) s t.
Proof.
  intros Hs Hp Ht Hne. unfold to_dnf. destruct (collect_dnf_spec (S (enough s)) s t [] Hs Hp Ht) as (d & -> & Hd1 & Hd2);
    [unfold enough; destruct Ht as [[]]; lia|constructor|by right|]. cbn [obind]. eexists. split; [reflexivity|]. intros env extras Henv.
  rewrite sort_dnf_spec. destruct (simplify_meaning (expr_holds env extras) (fun e => term_ok e = true)) with d as [_ ->]; [| | |done|by apply Hd2].
  - intros x y. by apply term_eqb_holds.
  - intros x y. by apply term_eqb_sym.
  - intros x y. by apply term_negation_holds.
Qed.
End printable.
