(* ===== verification/MarkerTheorems.v ===== *)
(** * What the marker algebra promises

    The contract of [MarkerTree] for its callers: every operation returns in every
    reachable state of the interner, keeps the invariant, and has the meaning its
    documentation gives it, stated on the results of [evaluate]. *)

From Stdlib Require Import ZArith Lia String.
From stdpp Require Import base list gmap relations.
From S2P Require Import Prelude.
From S2P Require Import VersionRepr.
From S2P Require Import VersionOrder.
From S2P Require Import VersionRecord.
From S2P Require Import Specifier.
From S2P Require Import RangeSet.
From S2P Require Import Stateful.
From S2P Require Import MarkerEdges.
From S2P Require Import MarkerTypes.
From S2P Require Import RangeInstances.
From S2P Require Import MarkerAlgebra.
From S2P Require Import MarkerStore.
From S2P Require Import MarkerOps.
From S2P Require Import MarkerConj.
From S2P Require Import MarkerTree.
From S2P Require Import MarkerRestrict.
From S2P Require Import MarkerPython.
From S2P Require Import MarkerVersion.
From S2P Require Import MarkerExpr.
From S2P Require Import MarkerDnf.
From S2P Require Import MarkerPaths.
Open Scope Z_scope.

(** ** Reachable states *)

Section theorems.
Context {RV RS : Type} `{!RangeSet Version RV} `{!RangeSetLaws Version RV}.
Context `{!RangeSet Str RS} `{!RangeSetLaws Str RS}.

Abbreviation Node := (NodeOf RV RS).
Abbreviation Interner := (InternerOf RV RS).
Implicit Types (s : Interner) (n : Node) (id x y r : NodeId).

(** One call of an operation of [MarkerTree] on identifiers the interner handed out. *)
Inductive step : Interner -> Interner -> Prop :=
| step_expression e id s s' : expr_ok e = true \/ expr_parsed e = true -> expression e s = Ret (id, s') -> step s s'
| step_and x y r s s' : valid_id s x -> valid_id s y -> interner_and x y s = Ret (r, s') -> step s s'
| step_or x y r s s' : valid_id s x -> valid_id s y -> interner_or x y s = Ret (r, s') -> step s s'
| step_is_disjoint x y b s s' : valid_id s x -> valid_id s y -> is_disjoint x y s = Ret (b, s') -> step s s'
| step_restrict_by x f r s s' : valid_id s x -> restrict_by x f s = Ret (r, s') -> step s s'
| step_restrict x y r s s' : valid_id s x -> valid_id s y -> restrict x y s = Ret (r, s') -> step s s'
| step_without_extras x r s s' : valid_id s x -> without_extras x s = Ret (r, s') -> step s s'
| step_only_extras x r s s' : valid_id s x -> only_extras x s = Ret (r, s') -> step s s'
| step_simplify x lo hi r s s' : valid_id s x -> bound_valid lo = true -> bound_valid hi = true ->
    simplify_python_versions x lo hi s = Ret (r, s') -> step s s'
| step_complexify x lo hi r s s' : valid_id s x -> bound_valid lo = true -> bound_valid hi = true ->
    (forall w, w ∈ support s x -> before_python w = true) ->
    complexify_python_versions x lo hi s = Ret (r, s') -> step s s'.

Definition reachable s : Prop := rtc step interner_default s.

Lemma runs_result {A} (m : M Interner A) s Q a s' : runs interner_ok ext m s Q -> m s = Ret (a, s') -> interner_ok s' /\ ext s s'.
Proof. intros (a' & s'' & E & ? & ? & ?) E'. rewrite E in E'. by injection E' as <- <-. Qed.

Lemma restrict_by_spec s x f : interner_ok s -> valid_id s x -> runs interner_ok ext (restrict_by x f) s (fun r s' => restricts f s' x r).
Proof. intros Hs Hx. unfold restrict_by. run_get. apply restrict_by_runs; [done|done|]. unfold enough. destruct Hx. lia. Qed.

Lemma step_ok s s' : interner_ok s -> step s s' -> interner_ok s' /\ ext s s'.
Proof.
  intros Hs H. destruct H as [e id s s' He E|x y r s s' Hx Hy E|x y r s s' Hx Hy E|x y b s s' Hx Hy E|x f r s s' Hx E|x y r s s' Hx Hy E
    |x r s s' Hx E|x r s s' Hx E|x lo hi r s s' Hx Hlo Hhi E|x lo hi r s s' Hx Hlo Hhi Hb E].
  - destruct He as [He|He]; eapply runs_result; [apply (expression_runs s e Hs He)|exact E|apply (expression_total s e Hs He)|exact E].
  - eapply runs_result; [apply (interner_and_runs x y s Hs Hx Hy)|exact E].
  - eapply runs_result; [apply (interner_or_runs x y s Hs Hx Hy)|exact E].
  - eapply runs_result; [apply (is_disjoint_runs x y s Hs Hx Hy)|exact E].
  - eapply runs_result; [apply (restrict_by_spec s x f Hs Hx)|exact E].
  - eapply runs_result; [apply (restrict_spec s x y Hs Hx Hy)|exact E].
  - eapply runs_result; [apply (without_extras_spec s x Hs Hx)|exact E].
  - eapply runs_result; [apply (only_extras_spec s x Hs Hx)|exact E].
  - eapply runs_result; [apply (simplify_spec lo hi Hlo Hhi s x Hs Hx)|exact E].
  - eapply runs_result; [apply (complexify_spec lo hi Hlo Hhi s x Hs Hx Hb)|exact E].
Qed.

Lemma reachable_ok s : reachable s -> interner_ok s.
Proof.
  intros H. unfold reachable in H. pose proof interner_default_ok as H0. revert H0.
  induction H as [|s1 s2 s3 Hst Hr IH]; [done|]. intros H1. apply IH. by eapply step_ok.
Qed.


(** C40: reading a marker never reaches the code marked unreachable: the edges of
    a stored node always are of the kind of its variable. *)
Theorem tree_kind_total s t : reachable s -> valid_id s t -> exists k, tree_kind s t = Ret k.
Proof.
  intros Hs Ht. destruct (tree_kind_spec s t (interner_store _ (reachable_ok s Hs)) Ht) as [[_ E]|[[_ E]|(n & _ & _ & E)]]; eauto.
Qed.

(** C2: conjunction: [and] returns, and the result evaluates to the conjunction in
    every environment without a known-incompatible pair of values. *)
Theorem and_evaluates s x y : reachable s -> marker s x -> marker s y ->
  exists r s', interner_and x y s = Ret (r, s') /\ ext s s' /\ marker s' r /\
    forall env extras, possible_env env -> exists b c, evaluate_reporter s env extras x = Ret b /\
      evaluate_reporter s env extras y = Ret c /\ evaluate_reporter s' env extras r = Ret (b && c).
Proof.
  intros Hr Hx Hy. pose proof (reachable_ok s Hr) as Hs. destruct (and_combines s x y Hs Hx Hy) as (r & s' & E & Hs' & He & Hm & Hc).
  exists r, s'. split; [done|]. split; [done|]. split; [done|]. intros env extras Henv. destruct (Hc env extras Henv) as (b & c & E1 & E2 & E3).
  exists b, c. rewrite !(evaluate_ext s s') in E1, E2 by (done || by apply interner_store || apply Henv). done.
Qed.

(** Disjunction, implication and negation evaluate to what they say. *)
Theorem or_implies_negate_evaluate s x y : reachable s -> marker s x -> marker s y ->
  exists r s1 i s2, interner_or x y s = Ret (r, s1) /\ implies x y s = Ret (i, s2) /\
    forall env extras, possible_env env -> exists b c, evaluate_reporter s env extras x = Ret b /\ evaluate_reporter s env extras y = Ret c /\
      evaluate_reporter s1 env extras r = Ret (b || c) /\ evaluate_reporter s2 env extras i = Ret (implb b c) /\
      evaluate_reporter s env extras (node_not x) = Ret (negb b).
Proof.
  intros Hr Hx Hy. pose proof (reachable_ok s Hr) as Hs. destruct (or_combines s x y Hs Hx Hy) as (r & s1 & E1 & Hs1 & He1 & _ & Hc1).
  destruct (implies_combines s x y Hs Hx Hy) as (i & s2 & E2 & Hs2 & He2 & _ & Hc2). exists r, s1, i, s2. split; [done|]. split; [done|].
  intros env extras Henv. pose proof (proj1 Henv) as Hok.
  destruct (Hc1 env extras Henv) as (b & c & A1 & A2 & A3), (Hc2 env extras Henv) as (b' & c' & B1 & B2 & B3).
  rewrite (evaluate_ext s s1) in A1, A2 by (done || by apply interner_store).
  rewrite (evaluate_ext s s2) in B1, B2 by (done || by apply interner_store).
  rewrite B1 in A1. rewrite B2 in A2. injection A1 as ->. injection A2 as ->. exists b, c. do 4 (split; [done|]).
  assert (marker s (node_not x)) by (by apply marker_not).
  rewrite evaluate_marker in B1 |- * by (done || by apply interner_store). injection B1 as <-. by rewrite den_not.
Qed.

(** [is_disjoint] is sound: when it answers [true], no environment without a
    known-incompatible pair of values satisfies both markers. *)
Theorem is_disjoint_sound s x y : reachable s -> marker s x -> marker s y ->
  exists d s', is_disjoint x y s = Ret (d, s') /\
    (d = true -> forall env extras, possible_env env -> exists b c, evaluate_reporter s env extras x = Ret b /\
      evaluate_reporter s env extras y = Ret c /\ b && c = false).
Proof.
  intros Hr Hx Hy. pose proof (reachable_ok s Hr) as Hs.
  destruct (is_disjoint_runs x y s Hs (proj1 Hx) (proj1 Hy)) as (d & s' & E & Hs' & He & Hd). exists d, s'. split; [done|].
  intros -> env extras Henv. pose proof (proj1 Henv) as Hok. rewrite !evaluate_marker by (done || by apply interner_store).
  do 2 eexists. split; [done|]. split; [done|]. rewrite <- !(den_ext _ s s') by (done || apply Hx || apply Hy).
  apply Hd; [done|by apply env_valuation_ok|by apply possible_consistent].
Qed.

(** C38: evaluation terminates without a panic on every marker the interner has handed out
    and every environment.  It follows the path of the environment through the decision
    diagram: its result is the value of the diagram at the values of the environment,
    unless the path meets an [extras] or [dependency_groups] expression with an invalid
    name, from where on it is [false]. *)
Theorem evaluate_terminates s t env extras : reachable s -> valid_id s t -> env_ok env ->
  exists b, evaluate s t env extras = Ret b /\
    (meets_invalid (env_valuation env (EnvExtras extras)) s t -> b = false) /\
    (~ meets_invalid (env_valuation env (EnvExtras extras)) s t -> b = den (env_valuation env (EnvExtras extras)) s t).
Proof. intros Hr Ht He. apply evaluate_reporter_walk; [by apply interner_store, reachable_ok|done|done]. Qed.

(** Evaluation without an environment: [evaluate_extras] is [true] whenever the
    marker holds in some environment, and the marker holds in every environment
    when [evaluate_only_extras] is [true]. *)
Theorem extras_bound_evaluation s t extras : reachable s -> marker s t ->
  exists possible certain, evaluate_optional_environment s t None extras = Ret possible /\
    evaluate_only_extras (S (enough s)) s extras t = Ret certain /\
    forall env, env_ok env -> exists b, evaluate s t env extras = Ret b /\ (certain = true -> b = true) /\ (b = true -> possible = true).
Proof.
  intros Hr Ht. pose proof (interner_store _ (reachable_ok s Hr)) as Hs.
  assert (Hf : node_index t + 1 < Z.of_nat (S (enough s))) by (unfold enough; destruct Ht as [[]]; lia).
  destruct (evaluate_extras_spec s extras Hs (S (enough s)) t (proj1 Ht) Hf) as (p & Ep & Hp).
  destruct (evaluate_only_extras_spec s extras Hs (S (enough s)) t (proj1 Ht) Hf) as (c & Ec & Hc).
  exists p, c. split; [done|]. split; [done|]. intros env Henv. eexists. split; [by apply evaluate_marker|].
  pose proof (env_valuation_ok env (EnvExtras extras) Henv) as Hv. split; [intros ->; by apply Hc|by apply Hp].
Qed.


(** ** Restriction *)

Lemma marker_sub s x y r : marker s x -> marker s y -> valid_id s r ->
  (forall w, w ∈ support s r -> w ∈ support s x \/ w ∈ support s y) -> marker s r.
Proof. intros [_ Px] [_ Py] Vr Hs. split; [done|]. intros w [?|?]%Hs; auto. Qed.

(** C9: [restrict] agrees with the marker wherever the assumption holds. *)
Theorem restrict_agrees s x y : reachable s -> marker s x -> marker s y ->
  exists r s', restrict x y s = Ret (r, s') /\ marker s' r /\
    forall env extras, possible_env env -> evaluate_reporter s env extras y = Ret true ->
      evaluate_reporter s' env extras r = evaluate_reporter s env extras x.
Proof.
  intros Hr Hx Hy. pose proof (reachable_ok s Hr) as Hs.
  destruct (restrict_spec s x y Hs (proj1 Hx) (proj1 Hy)) as (r & s' & E & Hs' & He & (Vx & Vy & Vr) & Hsup & Hd).
  assert (Hm : marker s' r) by (apply (marker_sub s' x y); [by eapply marker_ext..|done|done]).
  exists r, s'. split; [done|]. split; [done|]. intros env extras Henv. pose proof (proj1 Henv) as Hok.
  rewrite !evaluate_marker by (done || by apply interner_store). intros [= Ey]. f_equal.
  rewrite Hd; [apply den_ext; [done|apply Hx]|by apply env_valuation_ok|by apply possible_consistent|].
  rewrite (den_ext _ s s') by (done || apply Hy). done.
Qed.

(** The extras that a valuation activates among the variables of a marker. *)
Definition active_extras (v : Valuation) (l : list Var) : list Str :=
  flat_map (fun w => match w with VExtra name => if val_bool v w then [name] else [] | _ => [] end) l.

Lemma active_extras_spec v l name : VExtra name ∈ l -> names_contain (active_extras v l) name = val_bool v (VExtra name).
Proof.
  intros Hin. apply Bool.eq_iff_eq_true. unfold names_contain. rewrite existsb_exists. split.
  - intros (e & He & ->%bytes_eqb_eq). apply in_flat_map in He as (w & _ & He). destruct w as [| | | |e'|]; try done.
    destruct (val_bool v (VExtra e')) eqn:Ev; [|done]. by destruct He as [->|[]].
  - intros Hv. exists name. split; [|by apply bytes_eqb_eq]. apply in_flat_map. exists (VExtra name).
    split; [by apply list_elem_of_In|]. rewrite Hv. by left.
Qed.

(** [without_extras] quantifies the extras out: it holds in an environment
    exactly when some set of extras makes the marker hold there, and no [extra]
    expression is left in it. *)
Theorem without_extras_exact s x : reachable s -> marker s x ->
  exists r s', without_extras x s = Ret (r, s') /\ marker s' r /\ (forall name, VExtra name ∉ support s' r) /\
    forall env extras, possible_env env -> evaluate s' r env extras = Ret true <->
      exists extras', evaluate s x env extras' = Ret true.
Proof.
  intros Hr Hx. pose proof (reachable_ok s Hr) as Hs. pose proof (interner_store _ Hs) as Hst.
  destruct (without_extras_spec s x Hs (proj1 Hx)) as (r & s' & E & Hs' & He & Vx & Vr & Hsup & Hd).
  pose proof (interner_store _ Hs') as Hst'.
  assert (Hm : marker s' r) by (split; [done|]; intros w [Hw _]%Hsup; by apply (marker_ext s s' x He Hx)).
  exists r, s'. split; [done|]. split; [done|]. split; [by intros name [_ ?]%Hsup|]. intros env extras Henv. pose proof (proj1 Henv) as Hok.
  unfold evaluate. rewrite evaluate_marker by done. setoid_rewrite evaluate_marker; [|done..].
  pose proof (env_valuation_ok env (EnvExtras extras) Hok) as Hv.
  setoid_rewrite <- (den_ext _ s s' x He (proj1 Hx)).
  assert (forall b : bool, Ret b = Ret true <-> b = true) as HRet by (intros b; split; [by intros [=]|by intros ->]).
  rewrite HRet. setoid_rewrite HRet. rewrite Hd by (done || by apply possible_consistent). split.
  - intros (v' & Hb & Hv'). exists (active_extras v' (support s' x)). rewrite <- Hv'.
    apply den_support; [done|done|by apply env_valuation_ok|by eapply but_extras_ok|]. intros w Hw.
    destruct (is_extra_var w) eqn:Ew; [destruct w as [| | | |name|]; try done; cbn; by apply active_extras_spec|].
    pose proof (Hb w Ew) as Hsame. by destruct w.
  - intros (extras' & Hd'). exists (env_valuation env (EnvExtras extras')). split; [by intros []|done].
Qed.

Lemma names_contain_app l l' name : names_contain (l ++ l') name = names_contain l name || names_contain l' name.
Proof. apply existsb_app. Qed.

(** [simplify_extras] is the marker with the given extras assumed active: it
    evaluates with any further extras as the marker does with both, and decides on
    none of the given ones. *)
Theorem simplify_extras_exact s x extras : reachable s -> marker s x ->
  exists r s', simplify_extras x extras s = Ret (r, s') /\ marker s' r /\
    (forall name, names_contain extras name = true -> VExtra name ∉ support s' r) /\
    forall env extras', env_ok env -> evaluate s' r env extras' = evaluate s x env (extras ++ extras').
Proof.
  intros Hr Hx. pose proof (reachable_ok s Hr) as Hs. set (f := fun var : Var => match var with VExtra name => if names_contain extras name then Some true else None | _ => None end).
  destruct (restrict_by_spec s x f Hs (proj1 Hx)) as (r & s' & E & Hs' & He & Vx & Vr & Hsup & Hd).
  assert (Hm : marker s' r) by (split; [done|]; intros w [Hw _]%Hsup; by apply (marker_ext s s' x He Hx)).
  pose proof (interner_store _ Hs') as Hst'. exists r, s'. split; [done|]. split; [done|]. split.
  - intros name Hn [_ Hf]%Hsup. unfold fixed, f in Hf. by rewrite Hn in Hf.
  - intros env extras' Hok. unfold evaluate. rewrite !evaluate_marker by (done || by apply interner_store). f_equal.
    pose proof (env_valuation_ok env (EnvExtras extras') Hok) as Hv. rewrite Hd by done.
    rewrite <- (den_ext _ s s' x He (proj1 Hx)). apply den_support; [done..|by apply env_valuation_ok|]. intros w _.
    destruct w as [| | | |name|]; try done. unfold same_value, override, f. cbn -[names_contain]. rewrite names_contain_app. by destruct (names_contain extras name).
Qed.

(** [only_extras] over-approximates: it decides on extras only, and holds for
    every set of extras with which the marker holds in some environment. *)
Theorem only_extras_bounds s x : reachable s -> marker s x ->
  exists r s', only_extras x s = Ret (r, s') /\ marker s' r /\ (forall w, w ∈ support s' r -> exists name, w = VExtra name) /\
    forall env env' extras, env_ok env -> possible_env env' -> evaluate s x env' extras = Ret true -> evaluate s' r env extras = Ret true.
Proof.
  intros Hr Hx. pose proof (reachable_ok s Hr) as Hs.
  destruct (only_extras_spec s x Hs (proj1 Hx)) as (r & s' & E & Hs' & He & Vx & Vr & Hsup & Hd).
  assert (Hm : marker s' r) by (split; [done|]; intros w [Hw _]%Hsup; by apply (marker_ext s s' x He Hx)).
  exists r, s'. split; [done|]. split; [done|]. split; [intros w [_ Hw]%Hsup; destruct w as [| | | |name|]; try done; by exists name|].
  intros env env' extras Hok Henv. pose proof (proj1 Henv) as Hok'. unfold evaluate.
  rewrite !evaluate_marker by (done || by apply interner_store). intros [= Hx1]. f_equal.
  apply (Hd _ (env_valuation env' (EnvExtras extras))); [by apply env_valuation_ok..|by apply possible_consistent|by intros []|].
  by rewrite (den_ext _ s s' x He (proj1 Hx)).
Qed.

(** ** Python version ranges *)

(** The Python version of the environment is between the bounds. *)
Definition python_between (lo hi : BoundOf Version) (env : MarkerEnvironment) : bool :=
  Specifier.above lo (get_version env CPythonFullVersion) && Specifier.below hi (get_version env CPythonFullVersion).

Lemma in_range_between lo hi env extras : bound_valid lo = true -> bound_valid hi = true -> env_ok env ->
  in_range (RV := RV) lo hi (env_valuation env extras) = python_between lo hi env.
Proof.
  intros Hlo Hhi Hok. rewrite in_range_cut by (done || by apply env_valuation_ok). apply value_in_cuts; [done..|apply Hok].
Qed.

(** [simplify_python_versions] agrees with the marker on every Python version
    in the range. *)
Theorem simplify_python_agrees s x lo hi : reachable s -> marker s x -> bound_valid lo = true -> bound_valid hi = true ->
  exists r s', simplify_python_versions x lo hi s = Ret (r, s') /\ marker s' r /\
    forall env extras, env_ok env -> python_between lo hi env = true -> evaluate_reporter s' env extras r = evaluate_reporter s env extras x.
Proof.
  intros Hr Hx Hlo Hhi. pose proof (reachable_ok s Hr) as Hs.
  destruct (simplify_spec lo hi Hlo Hhi s x Hs (proj1 Hx)) as (r & s' & E & Hs' & He & Vx & Vr & Hsup & Hd).
  assert (Hm : marker s' r) by (split; [done|]; intros w Hw%Hsup; by apply (marker_ext s s' x He Hx)).
  exists r, s'. split; [done|]. split; [done|]. intros env extras Hok Hb.
  rewrite !evaluate_marker by (done || by apply interner_store). f_equal.
  rewrite Hd, (den_ext _ s s' x He (proj1 Hx)); [done|by apply env_valuation_ok|]. by rewrite in_range_between.
Qed.

(** Round trip: for a marker on strings and Python versions, complexifying what
    was simplified for a range gives the conjunction of the marker with the range,
    whatever the simplification dropped. *)
Theorem complexify_simplify_roundtrip s x lo hi : reachable s -> marker s x -> bound_valid lo = true -> bound_valid hi = true ->
  (forall w, w ∈ support s x -> before_python w = true) ->
  exists r s1 c s2, simplify_python_versions x lo hi s = Ret (r, s1) /\ complexify_python_versions r lo hi s1 = Ret (c, s2) /\
    forall env extras, env_ok env -> exists b, evaluate_reporter s env extras x = Ret b /\
      evaluate_reporter s2 env extras c = Ret (b && python_between lo hi env).
Proof.
  intros Hr Hx Hlo Hhi Hb. pose proof (reachable_ok s Hr) as Hs.
  destruct (simplify_spec lo hi Hlo Hhi s x Hs (proj1 Hx)) as (r & s1 & E1 & Hs1 & He1 & Vx & Vr & Hsup1 & Hd1).
  assert (Hb1 : forall w, w ∈ support s1 r -> before_python w = true).
  { intros w Hw%Hsup1. apply Hb. by rewrite (support_ext s s1 x) in Hw by (done || apply Hx). }
  destruct (complexify_spec lo hi Hlo Hhi s1 r Hs1 Vr Hb1) as (c & s2 & E2 & Hs2 & He2 & Vr2 & Vc & Hsup2 & Hd2).
  exists r, s1, c, s2. split; [done|]. split; [done|]. intros env extras Hok.
  assert (Hmr : marker s1 r) by (split; [done|]; intros w Hw%Hsup1; by apply (marker_ext s s1 x He1 Hx)).
  assert (Hm : marker s2 c) by (split; [done|]; intros w [Hw| ->]%Hsup2; [by apply (marker_ext s1 s2 r He2 Hmr)|done]).
  rewrite !evaluate_marker by (done || by apply interner_store). eexists. split; [done|]. f_equal.
  pose proof (env_valuation_ok env extras Hok) as Hv. rewrite Hd2 by done. rewrite (in_range_between lo hi env extras Hlo Hhi Hok).
  rewrite (den_ext _ s1 s2 r He2 Vr). destruct (python_between lo hi env) eqn:Eb; [|by rewrite !andb_false_r]. rewrite !andb_true_r.
  rewrite Hd1 by (done || by rewrite in_range_between). apply den_ext; [done|apply Hx].
Qed.

(** ** The normal form *)

Lemma term_expr_ok e : term_ok e = true -> expr_ok e = true.
Proof.
  destruct e as [key sp|key versions op|key op value|p op|extra op]; cbn [term_ok expr_ok]; [|done| |done|done].
  - intros H. assert (key <> PythonVersion /\ spec_term_ok sp = true) as [Hk Hsp] by (by destruct key). destruct (spec_term_real sp Hsp) as (-> & _ & Hne).
    unfold version_key_ok. destruct key; try done; by destruct (operator sp).
  - by destruct op.
Qed.

(** An environment with release versions. *)
Definition zero_version : StringVersion := mkStringVersion (bs "0") match version_new [0] with Ret v => v | Panic => Small small_new end.
Definition zero_env : MarkerEnvironment := {|
  implementation_name := []; implementation_version := zero_version; os_name := []; platform_machine := []; platform_python_implementation := []; platform_release := [];
  platform_system := []; platform_version := []; python_full_version := zero_version; python_version := zero_version; sys_platform := [] |}.

Lemma zero_env_release : env_release zero_env.
Proof. by vm_compute. Qed.

Lemma sort_by_Forall {A} (P : A -> Prop) c (l : list A) : Forall P l -> Forall P (sort_by c l).
Proof. intros Hl. induction Hl; [done|]. by apply insert_by_Forall. Qed.

Lemma sort_dnf_terms (P : MarkerExpression -> Prop) dnf : Forall (Forall P) dnf -> Forall (Forall P) (sort_dnf dnf).
Proof. intros Hd. apply sort_by_Forall. induction Hd; constructor; [by apply sort_by_Forall|done]. Qed.

Lemma dnf_holds_ext f g d : (forall c e, c ∈ d -> e ∈ c -> f e = g e) -> dnf_holds f d = dnf_holds g d.
Proof.
  intros H. unfold dnf_holds. induction d as [|c d IH]; [done|]. cbn [existsb]. rewrite IH by (intros c' e Hc'; apply H; by right). f_equal.
  assert (Hc : forall e, e ∈ c -> f e = g e) by (intros e; apply H; by left). clear -Hc. unfold clause_holds. induction c as [|e c IH]; [done|]. cbn [forallb].
  rewrite IH, Hc; [done|by left|]. intros e' He'. apply Hc. by right.
Qed.

Section normal_form.
Context `{!RangeSetBounds Version RV} `{!RangeSetBounds Str RS}.

(** The terms of a normal form are expressions with a meaning. *)
Lemma to_dnf_terms s t : reachable s -> printable s t -> marker s t -> t <> node_true ->
  exists d, to_dnf s t = Ret d /\ Forall (Forall (fun e => term_ok e = true)) d /\
    forall env extras, env_release env -> evaluate_reporter s env extras t = Ret (dnf_holds (expr_holds env extras) d).
Proof.
  intros Hr Hp Ht Hne. pose proof (interner_store _ (reachable_ok s Hr)) as Hs. destruct (to_dnf_spec s t Hs Hp Ht Hne) as (d & E & Hd). exists d. split; [done|]. split.
  - unfold to_dnf in E. destruct (collect_dnf_spec (S (enough s)) s t [] Hs Hp Ht) as (d0 & E0 & Hd1 & _); [unfold enough; destruct Ht as [[]]; lia|constructor|by right|].
    rewrite E0 in E. cbn [obind] in E. injection E as <-. apply sort_dnf_terms.
    destruct (simplify_meaning (expr_holds zero_env (EnvExtras [])) (fun e => term_ok e = true)) with d0 as [Hgood _]; [| | |done|exact Hgood].
    + intros x y. apply term_eqb_holds, zero_env_release.
    + intros x y. by apply term_eqb_sym.
    + intros x y. apply term_negation_holds, zero_env_release.
  - intros env extras Henv. rewrite evaluate_marker by (done || by apply env_release_ok). by rewrite Hd.
Qed.

(** C10: the disjunctive normal form that a marker other than TRUE is printed as,
    redundant terms and clauses removed, holds in an environment with a release of
    Python exactly when the marker does, by the comparisons that are lowered
    ([expr_holds]) and, where the platforms agree, by the meaning of its expressions
    ([expr_meaning]); building it terminates without a panic.  The
    diagram of the marker is [printable]: its version bounds are trimmed releases
    ([star_bound_untrimmed] shows the need), and its string values are kept by lowering
    and, unless the key has an order, only told apart by equality. *)
Theorem dnf_evaluates s t : reachable s -> marker s t -> printable s t -> t <> node_true ->
  exists d, to_dnf s t = Ret d /\ forall env extras, env_release env ->
    evaluate_reporter s env extras t = Ret (dnf_holds (expr_holds env extras) d) /\
    (platforms_agree env -> evaluate_reporter s env extras t = Ret (dnf_holds (expr_meaning env extras) d)).
Proof.
  intros Hr Ht Hp Hne. destruct (to_dnf_terms s t Hr Hp Ht Hne) as (d & E & Hd & Hev). exists d. split; [done|]. intros env extras Henv. split; [by apply Hev|]. intros Ha.
  rewrite Hev by done. f_equal. apply dnf_holds_ext. intros c e Hc He. apply expr_holds_meaning; [done|]. apply term_expr_ok.
  rewrite Forall_forall in Hd. specialize (Hd c Hc). rewrite Forall_forall in Hd. by apply Hd.
Qed.

(** The clauses that [top_level_extra] accepts all contain the expression. *)
Lemma top_level_extra_loop_spec acc dnf e : top_level_extra_loop acc dnf = Some e ->
  match acc with Some a => e = a | None => True end /\
  forall c, c ∈ dnf -> exists e', e' ∈ c /\ is_extra_equal e' = true /\ (expression_eqb e e' = true \/ e = e').
Proof.
  revert acc. induction dnf as [|c dnf IH]; intros acc E; cbn [top_level_extra_loop] in E.
  { split; [by destruct acc as [a|]; [injection E|]|]. by intros c ?%elem_of_nil. }
  destruct (List.find is_extra_equal c) as [found|] eqn:Ef; [|done]. apply find_some in Ef as [Hin%list_elem_of_In Hf].
  destruct acc as [a|].
  - destruct (expression_eqb a found) eqn:Eq; [|done]. destruct (IH _ E) as (-> & Hall). split; [done|].
    intros c' [->|Hc']%elem_of_cons; [|by apply Hall]. exists found. auto.
  - destruct (IH _ E) as (-> & Hall). split; [done|]. intros c' [->|Hc']%elem_of_cons; [|by apply Hall]. exists found. auto.
Qed.

(** A top-level extra is required: when [top_level_extra] finds an expression, the
    marker only holds where that extra is active. *)
Theorem top_level_extra_required s t e : reachable s -> marker s t -> printable s t -> t <> node_true ->
  top_level_extra s t = Ret (Some e) -> forall env extras, env_release env ->
    evaluate_reporter s env extras t = Ret true -> expr_holds env extras e = true.
Proof.
  intros Hr Ht Hp Hne Htop env extras Henv. pose proof (interner_store _ (reachable_ok s Hr)) as Hs.
  destruct (to_dnf_spec s t Hs Hp Ht Hne) as (d & E & Hd). unfold top_level_extra in Htop. rewrite E in Htop. cbn [obind] in Htop.
  injection Htop as Htop. rewrite evaluate_marker by (done || by apply env_release_ok). rewrite <- Hd by done. intros [= Hh].
  unfold dnf_holds in Hh. apply existsb_exists in Hh as (c & Hc%list_elem_of_In & Hcl). destruct (top_level_extra_loop_spec _ _ _ Htop) as (_ & Hall).
  destruct (Hall c Hc) as (e' & Hx & Hex & Heq). unfold clause_holds in Hcl. rewrite forallb_forall in Hcl.
  specialize (Hcl e' (proj1 (list_elem_of_In _ _) Hx)). destruct Heq as [Heq| ->]; [|done].
  destruct e' as [| | | |n []]; try done. destruct e as [| | | |n' o']; try done. cbn [expression_eqb] in Heq.
  by apply andb_true_iff in Heq as [->%bool_decide_eq_true ->%bool_decide_eq_true].
Qed.
End normal_form.
End theorems.
