(* ===== verification/MarkerTests.v ===== *)
(** * Markers with a known meaning

    [marker_holds] relates a marker to a predicate of the environment and the extras:
    it evaluates to the predicate in every possible release environment.  Expressions
    are such markers, and the connectives combine them.  [marker_test] is the case of
    a predicate of the environment alone. *)

From Stdlib Require Import ZArith Lia.
From stdpp Require Import base list relations.
From S2P Require Import Prelude.
From S2P Require Import VersionRepr.
From S2P Require Import RangeSet.
From S2P Require Import Stateful.
From S2P Require Import MarkerEdges.
From S2P Require Import MarkerTypes.
From S2P Require Import RangeInstances.
From S2P Require Import MarkerAlgebra.
From S2P Require Import MarkerStore.
From S2P Require Import MarkerOps.
From S2P Require Import MarkerConj.
From S2P Require Import MarkerTree.
From S2P Require Import MarkerVersion.
From S2P Require Import MarkerExpr.
From S2P Require Import MarkerPaths.
From S2P Require Import MarkerTheorems.
Open Scope Z_scope.

Section tests.
Context {RV RS : Type} `{!RangeSet Version RV} `{!RangeSetLaws Version RV}.
Context `{!RangeSet Str RS} `{!RangeSetLaws Str RS}.
Abbreviation Interner := (InternerOf RV RS).
Implicit Types (s : Interner) (id x y : NodeId) (p q : MarkerEnvironment -> ExtrasEnvironment -> bool).

Definition marker_holds s id p : Prop := marker s id /\
  forall env extras, env_release env -> possible_env env -> evaluate_reporter s env extras id = Ret (p env extras).

Definition marker_test s id (p : MarkerEnvironment -> bool) : Prop := marker_holds s id (fun env _ => p env).

Lemma holds_ext s s' id p : reachable s -> reachable s' -> ext s s' -> marker_holds s id p -> marker_holds s' id p.
Proof.
  intros Hs Hs' He [Hm Hev]. split; [by eapply marker_ext|]. intros env extras Hr Hp. rewrite <- (Hev env extras Hr Hp).
  apply evaluate_ext; [by apply interner_store, reachable_ok..|done|done|by apply env_release_ok].
Qed.

Lemma holds_same s id p q : (forall env extras, env_release env -> possible_env env -> p env extras = q env extras) -> marker_holds s id p -> marker_holds s id q.
Proof. intros E [Hm Hev]. split; [done|]. intros env extras Hr Hp. by rewrite <- E, Hev. Qed.

Lemma holds_true s : marker_holds s node_true (fun _ _ => true).
Proof. split; [|done]. split; [apply valid_terminal|]. intros w Hw. by apply elem_of_nil in Hw. Qed.

Lemma holds_false s : marker_holds s node_false (fun _ _ => false).
Proof. split; [|done]. split; [apply valid_terminal|]. intros w Hw. by apply elem_of_nil in Hw. Qed.

Lemma holds_not s x p : reachable s -> marker_holds s x p -> marker_holds s (node_not x) (fun env extras => negb (p env extras)).
Proof.
  intros Hs [Hm Hev]. split; [by apply marker_not|]. intros env extras Hr Hp. pose proof (Hev env extras Hr Hp) as E. assert (marker s (node_not x)) by (by apply marker_not).
  rewrite evaluate_marker in E |- * by (done || by apply interner_store, reachable_ok || by apply env_release_ok). injection E as <-. by rewrite den_not.
Qed.

Lemma expression_holds s e : reachable s -> expr_ok e = true ->
  runs reachable ext (expression e) s (fun id s' => marker_holds s' id (fun env extras => expr_holds env extras e)).
Proof.
  intros Hs Hok. destruct (expression_runs s e (reachable_ok s Hs) Hok) as (id & s' & E & Hs' & He & Hm & Hd). exists id, s'. split; [done|].
  split; [eapply rtc_r; [exact Hs|by eapply step_expression; [left|]]|]. split; [done|]. split; [done|]. intros env extras Hr Hpo.
  rewrite evaluate_marker by (done || by apply interner_store || by apply env_release_ok). by rewrite Hd.
Qed.

Lemma combined_holds op (apply : NodeId -> NodeId -> M Interner NodeId) s x y p q :
  (forall s x y, interner_ok s -> marker s x -> marker s y -> runs interner_ok ext (apply x y) s (fun r s' => combines op s' x y r)) ->
  (forall r s', apply x y s = Ret (r, s') -> reachable s') -> reachable s -> marker_holds s x p -> marker_holds s y q ->
  runs reachable ext (apply x y) s (fun r s' => marker_holds s' r (fun env extras => op (p env extras) (q env extras))).
Proof.
  intros Hc Hreach Hs Hx Hy. destruct (Hc s x y (reachable_ok s Hs) (proj1 Hx) (proj1 Hy)) as (r & s' & E & _ & He & Hm & Hev).
  pose proof (Hreach r s' E) as Hs'. exists r, s'. split; [done|]. split; [done|]. split; [done|]. split; [done|]. intros env extras Hr Hp.
  destruct (Hev env extras Hp) as (b & c & E1 & E2 & ->). rewrite (proj2 (holds_ext s s' x p Hs Hs' He Hx) env extras Hr Hp) in E1.
  rewrite (proj2 (holds_ext s s' y q Hs Hs' He Hy) env extras Hr Hp) in E2. by injection E1 as <-; injection E2 as <-.
Qed.

Lemma and_holds s x y p q : reachable s -> marker_holds s x p -> marker_holds s y q ->
  runs reachable ext (interner_and x y) s (fun r s' => marker_holds s' r (fun env extras => p env extras && q env extras)).
Proof.
  intros Hs Hx Hy. apply (combined_holds andb); [intros; by apply and_combines| |done..]. intros r s' E. eapply rtc_r; [exact Hs|]. eapply step_and; [apply Hx|apply Hy|exact E].
Qed.

Lemma or_holds s x y p q : reachable s -> marker_holds s x p -> marker_holds s y q ->
  runs reachable ext (interner_or x y) s (fun r s' => marker_holds s' r (fun env extras => p env extras || q env extras)).
Proof.
  intros Hs Hx Hy. apply (combined_holds orb); [intros; by apply or_combines| |done..]. intros r s' E. eapply rtc_r; [exact Hs|]. eapply step_or; [apply Hx|apply Hy|exact E].
Qed.

(** ** Tests of the environment *)

Implicit Types (f g : MarkerEnvironment -> bool).

Lemma test_ext s s' id f : reachable s -> reachable s' -> ext s s' -> marker_test s id f -> marker_test s' id f.
Proof. apply holds_ext. Qed.

Lemma test_same s id f g : (forall env, env_release env -> f env = g env) -> marker_test s id f -> marker_test s id g.
Proof. intros E. apply holds_same. intros env _ Hr _. by apply E. Qed.

Lemma test_true s : marker_test s node_true (fun _ => true).
Proof. apply holds_true. Qed.

Lemma test_false s : marker_test s node_false (fun _ => false).
Proof. apply holds_false. Qed.

Lemma expression_tests s e f : reachable s -> expr_ok e = true -> (forall env extras, env_release env -> expr_holds env extras e = f env) ->
  runs reachable ext (expression e) s (fun id s' => marker_test s' id f).
Proof. intros Hs Hok Hf. run_weaken; [by apply expression_holds|]. intros id s' _ _. apply holds_same. intros env extras Hr _. by apply Hf. Qed.

Lemma and_tests s x y f g : reachable s -> marker_test s x f -> marker_test s y g ->
  runs reachable ext (interner_and x y) s (fun r s' => marker_test s' r (fun env => f env && g env)).
Proof. apply and_holds. Qed.

Lemma or_tests s x y f g : reachable s -> marker_test s x f -> marker_test s y g ->
  runs reachable ext (interner_or x y) s (fun r s' => marker_test s' r (fun env => f env || g env)).
Proof. apply or_holds. Qed.

(** A fold by disjunction. *)
Lemma fold_or_tests {A} (f : NodeId -> A -> M Interner NodeId) (g : MarkerEnvironment -> A -> bool) l :
  (forall s x (p : MarkerEnvironment -> bool) a, reachable s -> marker_test s x p -> runs reachable ext (f x a) s (fun r s' => marker_test s' r (fun env => p env || g env a))) ->
  forall s x (p : MarkerEnvironment -> bool), reachable s -> marker_test s x p -> runs reachable ext (fold_m f x l) s (fun r s' => marker_test s' r (fun env => p env || existsb (g env) l)).
Proof.
  intros Hf. induction l as [|a l IH]; intros s x p Hs Hx; cbn [fold_m existsb].
  - run_pure; [done|]. eapply test_same; [|exact Hx]. intros env _. by rewrite orb_false_r.
  - refine (runs_seq _ _ _ _ _ _ _ (Hf s x p a Hs Hx) _). intros r s' Hs' He Hr. run_weaken; [by apply IH|]. cbv beta. intros t s2 _ _.
    apply test_same. intros env _. by rewrite orb_assoc.
Qed.
End tests.
