(* ===== verification/MarkerParser.v ===== *)
(** * Parsing of environment markers

    Models [crates/uv-pep508/src/marker/parse.rs], a recursive-descent parser over a
    [Cursor] that reports warnings and builds [MarkerTree]s in the interner, and
    [FromStr] of [MarkerTree] and [MarkerExpression] (tree.rs).

    The lexical part works on the cursor and the warnings ([Scan]); the tree part
    adds the interner.  A comparison that makes no sense is reported and dropped
    ([None]); only malformed text is an error.

    The grammar is stated as a relation between texts and formulas ([or_text]).
    Every text of the grammar is parsed to a marker that evaluates to its formula;
    no text makes the parser panic or loop, and the span of every error can be
    underlined.

    [char::is_alphabetic] is the Unicode property [Alphabetic]; the parser is
    verified for every classification that is right on ASCII ([Alphabetic]). *)

From Stdlib Require Import ZArith Lia String.
From stdpp Require Import base list gmap relations.
From S2P Require Import Prelude.
From S2P Require Import VersionRepr.
From S2P Require Import VersionOrder.
From S2P Require Import VersionParser.
From S2P Require Import VersionDisplay.
From S2P Require Import VersionRecord.
From S2P Require Import Specifier.
From S2P Require Import SpecifierParser.
From S2P Require Import Normalize.
From S2P Require Import Cursor.
From S2P Require Import RangeSet.
From S2P Require Import Stateful.
From S2P Require Import MarkerEdges.
From S2P Require Import MarkerTypes.
From S2P Require Import RangeInstances.
From S2P Require Import MarkerAlgebra.
From S2P Require Import MarkerStore.
From S2P Require Import MarkerOps.
From S2P Require Import MarkerConj.
From S2P Require Import MarkerTree.
From S2P Require Import MarkerVersion.
From S2P Require Import MarkerExpr.
From S2P Require Import MarkerTheorems.
Open Scope Z_scope.

(** ** Characters *)

Class Alphabetic := is_alphabetic : Z -> bool.

Definition is_ascii_alphabetic (c : Z) : bool := is_ascii_upper c || is_ascii_lower c.

Class AlphabeticLaws `{Alphabetic} : Prop := {
  alphabetic_ascii : forall c, 0 <= c < 128 -> is_alphabetic c = is_ascii_alphabetic c;
}.

(** The letters of ASCII alone satisfy the law. *)
#[export] Instance ascii_alphabetic : Alphabetic := is_ascii_alphabetic.
#[export] Instance ascii_alphabetic_laws : AlphabeticLaws.
Proof. done. Qed.

(** ** Warnings and the lexical monad *)

(** [MarkerWarningKind] (tree.rs) *)
Inductive MarkerWarningKind :=
| DeprecatedMarkerName
| ExtraInvalidComparison
| ExtrasInvalidComparison
| DependencyGroupsInvalidComparison
| LexicographicComparison
| MarkerMarkerComparison
| Pep440Error
| StringStringComparison.

Record Scan := mkScan { scan_cursor : Cursor; warnings : list MarkerWarningKind }.

Definition Lex (A : Type) : Type := M Scan (result A Pep508Error).

Definition ok {S A E} (a : A) : M S (result A E) := mpure (Ok a).
Definition fail {S A E} (e : E) : M S (result A E) := mpure (Err e).
Definition try {S A B E} (m : M S (result A E)) (k : A -> M S (result B E)) : M S (result B E) :=
  let* r := m in match r with Ok a => k a | Err e => mpure (Err e) end.

Notation "'let?' x ':=' e 'in' k" := (try e (fun x => k))
  (at level 10, x name, e at level 100, k at level 200) : uv_scope.

(** Operations of the cursor. *)
Definition with_cursor {A} (f : Cursor -> A * Cursor) : M Scan A := fun st =>
  let '(a, c) := f (scan_cursor st) in Ret (a, mkScan c (warnings st)).
Definition read_cursor {A} (f : Cursor -> A) : M Scan A := fun st => Ret (f (scan_cursor st), st).
Definition slice_cursor (start len : nat) : M Scan Str := fun st =>
  outcome_map (fun text => (text, st)) (cursor_slice (scan_cursor st) start len).

Definition report (w : MarkerWarningKind) : M Scan unit := fun st =>
  Ret (tt, mkScan (scan_cursor st) (warnings st ++ [w])).

(** An error at a span, with the input of the cursor. *)
Definition fail_at {A} (message : Str) (start len : nat) : Lex A :=
  let* input := read_cursor cursor_input in fail (mkPep508Error (SourceString message) start len input).

Section lexical.
Context `{Alphabetic}.

Definition is_quote (c : Z) : bool := (c =? 34) || (c =? 39).
Definition is_operator_char (c : Z) : bool := (c =? 60) || (c =? 61) || (c =? 62) || (c =? 126) || (c =? 33).
Definition is_word_char (c : Z) : bool := negb (is_whitespace c) && negb (c =? 39) && negb (c =? 34).
Definition is_key_char (c : Z) : bool :=
  negb (is_whitespace c) && negb ((c =? 62) || (c =? 61) || (c =? 60) || (c =? 33) || (c =? 126) || (c =? 41)).

(** [parse_marker_operator] *)
Definition parse_marker_operator : Lex MarkerOperator :=
  let* first := read_cursor peek_char in
  let* span := with_cursor (fun c => cursor_take_while c
    (match first with
     | Some char => if is_alphabetic char then is_word_char else is_operator_char
     | None => is_operator_char
     end)) in
  let* operator := slice_cursor span.1 span.2 in
  if bytes_eqb operator (bs "not") then
    let* n := with_cursor cursor_next in
    match n with
    | None =>
        let* pos := read_cursor cursor_pos in
        fail_at (bs "Expected whitespace after 'not', found end of input") pos 1
    | Some (pos, other) =>
        if is_whitespace other then
          let* _ := with_cursor (fun c => (tt, eat_whitespace c)) in
          let* pos := read_cursor cursor_pos in
          let? _ := with_cursor (fun c => next_expect_char c 105 pos) in
          let* pos := read_cursor cursor_pos in
          let? _ := with_cursor (fun c => next_expect_char c 110 pos) in
          ok MNotIn
        else fail_at (bs "Expected whitespace after `not`, found `" ++ [other] ++ bs "`") pos (len_utf8 other)
    end
  else
    match marker_op_from_str operator with
    | Ok op => ok op
    | Err _ =>
        fail_at (bs "Expected a valid marker operator (such as `>=` or `not in`), found `" ++ operator ++ bs "`") span.1 span.2
    end.

(** The deprecated names that are reported. *)
Definition is_deprecated (v : MarkerValue) : bool :=
  match v with
  | MarkerEnvString OsNameDeprecated | MarkerEnvString PlatformMachineDeprecated
  | MarkerEnvString PlatformPythonImplementationDeprecated | MarkerEnvString PythonImplementationDeprecated
  | MarkerEnvString PlatformVersionDeprecated | MarkerEnvString SysPlatformDeprecated => true
  | _ => false
  end.

(** [parse_marker_value] *)
Definition parse_marker_value : Lex MarkerValue :=
  let* first := read_cursor peek in
  match first with
  | None =>
      let* pos := read_cursor cursor_pos in
      fail_at (bs "Expected marker value, found end of dependency specification") pos 1
  | Some (start_pos, char) =>
      if is_quote char then
        let* _ := with_cursor cursor_next in
        let* span := with_cursor (fun c => cursor_take_while c (fun c => negb (c =? char))) in
        let* value := slice_cursor span.1 span.2 in
        let? _ := with_cursor (fun c => next_expect_char c char start_pos) in
        ok (QuotedString value)
      else
        let* span := with_cursor (fun c => cursor_take_while c is_key_char) in
        let* key := slice_cursor span.1 span.2 in
        match marker_value_from_str key with
        | Err _ => fail_at (bs "Expected a quoted string or a valid marker name, found `" ++ key ++ bs "`") span.1 span.2
        | Ok value =>
            let* _ := if is_deprecated value then report DeprecatedMarkerName else mpure tt in
            ok value
        end
  end.
End lexical.

(** ** Expressions *)

(** [parse_version_in_expr]: the versions of the list, or [None] when one is
    invalid; the loop reads a version per step. *)
Fixpoint version_list (fuel : nat) (c : Cursor) (versions : list Version) : outcome (option (list Version)) :=
  match fuel with
  | O => Panic
  | S fuel' =>
      let '(span, c) := cursor_take_while (eat_whitespace c) (fun c => negb (is_whitespace c)) in
      if Nat.eqb span.2 0 then Ret (Some versions)
      else
        let! text := cursor_slice c span.1 span.2 in
        let! version := version_from_str (utf8 text) in
        match version with
        | Ok version => version_list fuel' c (versions ++ [version])
        | Err _ => Ret None
        end
  end.

Definition parse_version_in_expr (key : MarkerValueVersion) (operator : MarkerOperator) (value : Str) : M Scan (option MarkerExpression) :=
  match container_op_from_marker_operator operator with
  | None => mpure None
  | Some operator =>
      let* versions := mlift (version_list (S (length value)) (cursor_new value) []) in
      match versions with
      | Some versions => mpure (Some (EVersionIn key versions operator))
      | None => let* _ := report Pep440Error in mpure None
      end
  end.

(** [parse_version_expr] *)
Definition parse_version_expr (key : MarkerValueVersion) (marker_operator : MarkerOperator) (value : Str) : M Scan (option MarkerExpression) :=
  let* pattern := mlift (parse_pattern (utf8 value)) in
  match pattern with
  | Err _ => let* _ := report Pep440Error in mpure None
  | Ok pattern =>
      match to_pep440_operator marker_operator with
      | None => let* _ := report Pep440Error in mpure None
      | Some operator =>
          match from_pattern operator pattern with
          | Err _ => let* _ := report Pep440Error in mpure None
          | Ok specifier => mpure (Some (EVersion key specifier))
          end
      end
  end.

(** [parse_inverted_version_expr] *)
Definition parse_inverted_version_expr (value : Str) (marker_operator : MarkerOperator) (key : MarkerValueVersion) : M Scan (option MarkerExpression) :=
  let marker_operator := marker_op_invert marker_operator in
  let* version := mlift (version_from_str (utf8 value)) in
  match version with
  | Err _ => let* _ := report Pep440Error in mpure None
  | Ok version =>
      match to_pep440_operator marker_operator with
      | None => let* _ := report Pep440Error in mpure None
      | Some operator =>
          match from_version operator version with
          | Err _ => let* _ := report Pep440Error in mpure None
          | Ok specifier => mpure (Some (EVersion key specifier))
          end
      end
  end.

(** [parse_extra_expr] *)
Definition parse_extra_expr (operator : MarkerOperator) (value : Str) : M Scan (option MarkerExpression) :=
  let* name := match validate_and_normalize_ref value with
               | Ok name => mpure (ExtraNameValue name)
               | Err _ => let* _ := report ExtraInvalidComparison in mpure (ArbitraryExtra value)
               end in
  match extra_op_from_marker_operator operator with
  | Some operator => mpure (Some (EExtra name operator))
  | None => let* _ := report ExtraInvalidComparison in mpure None
  end.

(** The pair of [parse_marker_key_op_value] for [extras] and [dependency_groups]. *)
Definition parse_list_pair (key : MarkerValueList) (l_string : Str) : M Scan CanonicalMarkerListPair :=
  match validate_and_normalize_ref l_string with
  | Ok name => mpure (match key with Extras => PairExtras name | DependencyGroups => PairDependencyGroup name end)
  | Err _ => let* _ := report ExtrasInvalidComparison in mpure (PairArbitrary key l_string)
  end.

Definition dropped (w : MarkerWarningKind) : M Scan (option MarkerExpression) := let* _ := report w in mpure None.

(** The conversion of [l operator r] into an expression; [start] and [len] are the
    span of the comparison. *)
Definition convert_comparison (l_value : MarkerValue) (operator : MarkerOperator) (r_value : MarkerValue) (start len : nat) : Lex (option MarkerExpression) :=
  match l_value with
  | MarkerEnvVersion key =>
      match r_value with
      | QuotedString value =>
          let* expr := parse_version_in_expr key operator value in
          match expr with
          | Some expr => ok (Some expr)
          | None => let* expr := parse_version_expr key operator value in ok expr
          end
      | _ => let* e := dropped Pep440Error in ok e
      end
  | MarkerEnvString key =>
      match r_value with
      | QuotedString value =>
          match operator with
          | MTildeEqual => let* e := dropped LexicographicComparison in ok e
          | _ => ok (Some (EString key operator value))
          end
      | _ => let* e := dropped MarkerMarkerComparison in ok e
      end
  | MarkerEnvList key =>
      fail_at (bs "The marker " ++ marker_value_list_display key ++ bs " must be on the right hand side of the expression") start len
  | Extra =>
      match r_value with
      | QuotedString value => let* e := parse_extra_expr operator value in ok e
      | _ => let* e := dropped ExtraInvalidComparison in ok e
      end
  | QuotedString l_string =>
      match r_value with
      | MarkerEnvVersion key => let* e := parse_inverted_version_expr l_string operator key in ok e
      | MarkerEnvString key =>
          match operator with
          | MTildeEqual => let* e := dropped LexicographicComparison in ok e
          | _ => ok (Some (EString key (marker_op_invert operator) l_string))
          end
      | MarkerEnvList key =>
          match container_op_from_marker_operator operator with
          | None =>
              fail_at (bs "The operator " ++ marker_op_display operator ++ bs " is not supported with the marker " ++
                marker_value_list_display key ++ bs ", only the `in` and `not in` operators are supported") start len
          | Some operator => let* pair := parse_list_pair key l_string in ok (Some (EList pair operator))
          end
      | Extra => let* e := parse_extra_expr operator l_string in ok e
      | QuotedString _ => let* e := dropped StringStringComparison in ok e
      end
  end.

Definition skip_space : M Scan unit := with_cursor (fun c => (tt, eat_whitespace c)).

(** [parse_marker_key_op_value] *)
Definition parse_marker_key_op_value `{Alphabetic} : Lex (option MarkerExpression) :=
  let* _ := skip_space in
  let* start := read_cursor cursor_pos in
  let? l_value := parse_marker_value in
  let* _ := skip_space in
  let? operator := parse_marker_operator in
  let* _ := skip_space in
  let? r_value := parse_marker_value in
  let* pos := read_cursor cursor_pos in
  convert_comparison l_value operator r_value start (pos - start).

(** ** Trees *)

Section trees.
Context {RV RS : Type} `{!RangeSet Version RV} `{!RangeSet Str RS} `{Alphabetic}.

Abbreviation Interner := (InternerOf RV RS).

Definition Parse (A : Type) : Type := M (Scan * Interner) (result A Pep508Error).

(** Lexical steps leave the interner alone, steps of the interner the text. *)
Definition scanning {A} (m : M Scan A) : M (Scan * Interner) A := fun st =>
  match m st.1 with Ret (a, scan) => Ret (a, (scan, st.2)) | Panic => Panic end.
Definition interning {A} (m : M Interner A) : M (Scan * Interner) A := fun st =>
  match m st.2 with Ret (a, s) => Ret (a, (st.1, s)) | Panic => Panic end.

(** The tree so far, with one more operand. *)
Definition apply_operand (apply : NodeId -> NodeId -> M Interner NodeId) (tree operand : option NodeId) : M (Scan * Interner) (option NodeId) :=
  match operand with
  | None => mpure tree
  | Some expression =>
      match tree with
      | Some tree => let* t := interning (apply tree expression) in mpure (Some t)
      | None => mpure (Some expression)
      end
  end.

(** The loop of [parse_marker_op]. *)
Fixpoint marker_op_loop (fuel : nat) (op : Str) (apply : NodeId -> NodeId -> M Interner NodeId)
    (parse_inner : Parse (option NodeId)) (tree : option NodeId) : Parse (option NodeId) :=
  match fuel with
  | O => mpanic
  | S fuel' =>
      let* _ := scanning skip_space in
      let* span := scanning (read_cursor (fun c => peek_while c (fun c => negb (is_whitespace c)))) in
      let* value := scanning (slice_cursor span.1 span.2) in
      if bytes_eqb value op then
        let* _ := scanning (with_cursor (fun c => cursor_take_while c (fun c => negb (is_whitespace c)))) in
        let? operand := parse_inner in
        let* tree := apply_operand apply tree operand in
        marker_op_loop fuel' op apply parse_inner tree
      else ok tree
  end.

(** [parse_marker_op] *)
Definition parse_marker_op (fuel : nat) (op : Str) (apply : NodeId -> NodeId -> M Interner NodeId)
    (parse_inner : Parse (option NodeId)) : Parse (option NodeId) :=
  let? first_element := parse_inner in
  let* tree := apply_operand apply None first_element in
  marker_op_loop fuel op apply parse_inner tree.

(** [parse_marker_expr], with the parser of what is between parentheses. *)
Definition parse_marker_expr (parse_marker_or : Parse (option NodeId)) : Parse (option NodeId) :=
  let* _ := scanning skip_space in
  let* paren := scanning (with_cursor (fun c => eat_char c 40)) in
  match paren with
  | Some start_pos =>
      let? marker := parse_marker_or in
      let? _ := scanning (with_cursor (fun c => next_expect_char c 41 start_pos)) in
      ok marker
  | None =>
      let? expr := scanning parse_marker_key_op_value in
      match expr with
      | None => ok None
      | Some expr => let* t := interning (expression expr) in ok (Some t)
      end
  end.

(** [parse_marker_and] *)
Definition parse_marker_and (fuel : nat) (parse_marker_or : Parse (option NodeId)) : Parse (option NodeId) :=
  parse_marker_op fuel (bs "and") interner_and (parse_marker_expr parse_marker_or).

(** [parse_marker_or]: the fuel bounds the nesting and the length of the loops. *)
Fixpoint parse_marker_or (fuel : nat) : Parse (option NodeId) :=
  match fuel with
  | O => mpanic
  | S fuel' => parse_marker_op fuel' (bs "or") interner_or (parse_marker_and fuel' (parse_marker_or fuel'))
  end.

(** A parenthesis and an operator each take a character. *)
Definition parser_fuel (rest : Str) : nat := S (S (length rest)).

(** [parse_markers_cursor] *)
Definition parse_markers_cursor : Parse (option NodeId) :=
  let* rest := scanning (read_cursor cursor_chars) in
  let? marker := parse_marker_or (parser_fuel rest) in
  let* _ := scanning skip_space in
  let* n := scanning (with_cursor cursor_next) in
  match n with
  | None => ok marker
  | Some (pos, unexpected) =>
      let* input := scanning (read_cursor cursor_input) in
      fail (mkPep508Error (SourceString (bs "Unexpected character '" ++ [unexpected] ++ bs "', expected 'and', 'or' or end of input"))
        pos (str_len input - pos) input)
  end.

(** [parse_markers], which is [FromStr for MarkerTree]: a text whose comparisons were
    all dropped is [TRUE]. *)
Definition parse_markers (markers : Str) : M Interner (result NodeId Pep508Error * list MarkerWarningKind) := fun s =>
  match parse_markers_cursor (mkScan (cursor_new markers) [], s) with
  | Ret (Ok marker, (scan, s')) => Ret ((Ok (default node_true marker), warnings scan), s')
  | Ret (Err e, (scan, s')) => Ret ((Err e, warnings scan), s')
  | Panic => Panic
  end.
End trees.

(** ** Running the lexical monad *)

Section steps.
Context {A B : Type} (c c' : Cursor) (w : list MarkerWarningKind).

Lemma seq_with (f : Cursor -> A * Cursor) (k : A -> M Scan B) a : f c = (a, c') ->
  mseq (with_cursor f) k (mkScan c w) = k a (mkScan c' w).
Proof. intros E. unfold mseq, with_cursor. cbn. by rewrite E. Qed.

Lemma try_with (f : Cursor -> result A Pep508Error * Cursor) (k : A -> Lex B) r : f c = (r, c') ->
  try (with_cursor f) k (mkScan c w) = match r with Ok a => k a (mkScan c' w) | Err e => Ret (Err e, mkScan c' w) end.
Proof. intros E. unfold try, mseq, with_cursor. cbn. rewrite E. by destruct r. Qed.

Lemma seq_read (f : Cursor -> A) (k : A -> M Scan B) : mseq (read_cursor f) k (mkScan c w) = k (f c) (mkScan c w).
Proof. done. Qed.

Lemma seq_slice start len (k : Str -> M Scan B) text : cursor_slice c start len = Ret text ->
  mseq (slice_cursor start len) k (mkScan c w) = k text (mkScan c w).
Proof. intros E. unfold mseq, slice_cursor. cbn. by rewrite E. Qed.

Lemma seq_report x (k : unit -> M Scan B) : mseq (report x) k (mkScan c w) = k tt (mkScan c (w ++ [x])).
Proof. done. Qed.
End steps.

(** ** No text makes the lexer panic *)

(** Started before [rest], a reader returns; when it succeeds it has read a prefix
    of [rest], and the span of an error can be underlined. *)
Definition reads {A} (m : Lex A) (c : Cursor) (w : list MarkerWarningKind) (before rest : Str) (Q : A -> Str -> Str -> Prop) : Prop :=
  exists r c' w', m (mkScan c w) = Ret (r, mkScan c' w') /\
    match r with
    | Ok a => exists text rest', rest = text ++ rest' /\ at_rest c' (before ++ text) rest' /\ Q a text rest'
    | Err e => span_ok (before ++ rest) e
    end.

Lemma reads_try {A B} (m : Lex A) (k : A -> Lex B) c w before rest P Q : reads m c w before rest P ->
  (forall a c' w' text rest', rest = text ++ rest' -> at_rest c' (before ++ text) rest' -> P a text rest' ->
    reads (k a) c' w' (before ++ text) rest' (fun b text' rest'' => Q b (text ++ text') rest'')) ->
  reads (try m k) c w before rest Q.
Proof.
  intros (r & c' & w' & E & Hr) Hk. unfold try, mseq. destruct r as [a|e].
  - destruct Hr as (text & rest' & Er & Hc' & Hp). destruct (Hk a c' w' text rest' Er Hc' Hp) as (r2 & c2 & w2 & E2 & H2).
    exists r2, c2, w2. rewrite E. split; [done|]. destruct r2 as [b|e]; [|by rewrite Er, app_assoc].
    destruct H2 as (text2 & rest2 & -> & Hc2 & Hq). exists (text ++ text2), rest2. rewrite Er, <- !app_assoc. by rewrite <- app_assoc in Hc2.
  - exists (Err e), c', w'. by rewrite E.
Qed.

Lemma reads_returns {A} (a : A) c w before rest (Q : A -> Str -> Str -> Prop) : at_rest c before rest -> Q a [] rest -> reads (ok a) c w before rest Q.
Proof. intros Hc Hq. exists (Ok a), c, w. split; [done|]. exists [], rest. by rewrite app_nil_r. Qed.

(** An error whose span is what was just read. *)
Lemma reads_fail {A} message c w before text rest (Q : A -> Str -> Str -> Prop) : at_rest c (before ++ text) rest ->
  reads (fail_at message (str_len before) (str_len text)) c w (before ++ text) rest Q.
Proof.
  intros (Hi & _ & _). eexists (Err _), c, w. split; [done|]. exists before, text, rest. cbn [pe_input pe_start pe_len scan_cursor].
  rewrite <- app_assoc in *. auto.
Qed.

(** An error one past the end. *)
Lemma reads_fail_end {A} message c w before (Q : A -> Str -> Str -> Prop) : at_rest c before [] ->
  reads (fail_at message (cursor_pos c) 1) c w before [] Q.
Proof.
  intros (Hi & _ & Hp). eexists (Err _), c, w. split; [done|]. exists before, [], []. cbn [pe_input pe_start pe_len scan_cursor].
  rewrite Hi, Hp. do 3 (split; [done|]). by right.
Qed.

(** Reading more text first. *)
Lemma reads_after {A} (m : Lex A) c w c' w' before text rest rest' (Q : A -> Str -> Str -> Prop) (m' : Lex A) :
  m (mkScan c w) = m' (mkScan c' w') -> rest = text ++ rest' ->
  reads m' c' w' (before ++ text) rest' (fun a text' rest'' => Q a (text ++ text') rest'') -> reads m c w before rest Q.
Proof.
  intros Em -> (r & c2 & w2 & E & Hr). exists r, c2, w2. split; [by rewrite Em|]. destruct r as [a|e]; [|by rewrite app_assoc].
  destruct Hr as (text2 & rest2 & -> & Hc2 & Hq). exists (text ++ text2), rest2. rewrite <- !app_assoc in *. done.
Qed.

(** [next_expect_char] on a character, with the position of an earlier character as
    the span of a missing one. *)
Lemma reads_expect c w before rest x start : at_rest c before rest ->
  (rest = [] -> exists b0 y b1, before = b0 ++ y ++ b1 /\ start = str_len b0 /\ (str_len y = 1%nat \/ (y = [] /\ b1 = []))) ->
  reads (with_cursor (fun c => next_expect_char c x start)) c w before rest (fun _ text rest' => text = [x]).
Proof.
  intros Hc Hs. destruct (expect_at c before rest x start Hc) as [(rest' & c' & -> & E & Hc')|(e & c' & E & H1 & H2)].
  - exists (Ok tt), c', w. split; [by unfold with_cursor; cbn; rewrite E|]. by exists [x], rest'.
  - exists (Err e), c', w. split; [by unfold with_cursor; cbn; rewrite E|]. destruct rest as [|y rest].
    + rewrite (H2 eq_refl). destruct (Hs eq_refl) as (b0 & y & b1 & -> & -> & Hy). exists b0, y, b1. cbn [pe_input pe_start pe_len].
      rewrite <- !app_assoc, app_nil_r. split; [done|]. split; [done|]. split; [done|]. destruct Hy as [->|[-> ->]]; auto.
    + apply H1. exists y, rest. split; [done|]. intros <-.
      unfold next_expect_char in E. destruct (next_at _ _ _ _ Hc) as (c2 & En & _). rewrite En, Z.eqb_refl in E. done.
Qed.

Lemma head_some (rest : Str) x : head rest = Some x -> exists rest', rest = x :: rest'.
Proof. destruct rest as [|y rest]; [done|]. intros [= ->]. by exists rest. Qed.

Lemma match_name_value {A} (table : list (string * A)) key v : match_name table key = Some v -> v ∈ map snd table.
Proof.
  induction table as [|[name x] table IH]; [done|]. cbn [match_name map snd]. destruct (bytes_eqb _ _).
  - intros [= ->]. by left.
  - intros E. right. by apply IH.
Qed.

Lemma value_name_not_quoted key v : marker_value_from_str key = Ok v -> match v with QuotedString _ => False | _ => True end.
Proof.
  unfold marker_value_from_str. destruct (match_name _ key) as [v'|] eqn:E; [|done]. intros [= <-].
  apply match_name_value, list_elem_of_In in E.
  cbn in E. by repeat (destruct E as [<-|E]; [done|]).
Qed.

Section lexer.
Context `{Alphabetic}.

Lemma parse_marker_operator_reads c w before rest : at_rest c before rest ->
  reads parse_marker_operator c w before rest (fun _ _ _ => True).
Proof.
  intros Hc. unfold parse_marker_operator.
  set (p := match peek_char c with Some char => if is_alphabetic char then is_word_char else is_operator_char | None => is_operator_char end).
  destruct (take_while_at Hc p) as (c1 & E1 & Hc1 & Es).
  eapply reads_after; [rewrite seq_read; fold p; rewrite (seq_with c c1 w _ _ _ E1); cbn [fst snd]; rewrite (seq_slice c1 w _ _ _ _ Es); reflexivity|symmetry; apply (take_drop_while p)|].
  destruct (bytes_eqb (take_while p rest) (bs "not")).
  - destruct (drop_while p rest) as [|x rest'].
    + pose proof (next_at_end _ _ Hc1) as En. eapply reads_after with (text := []); [rewrite (seq_with c1 c1 w _ _ _ En), seq_read; reflexivity|reflexivity|].
      rewrite app_nil_r. by apply reads_fail_end.
    + destruct (next_at _ _ _ _ Hc1) as (c2 & En & Hc2).
      eapply reads_after with (text := [x]); [rewrite (seq_with c1 c2 w _ _ _ En); reflexivity|reflexivity|]. cbn [fst snd].
      destruct (is_whitespace x).
      * destruct (eat_whitespace_at Hc2) as (c3 & E3 & Hc3).
        eapply reads_after; [rewrite (seq_with c2 c3 w _ _ tt) by (by rewrite E3); rewrite seq_read; reflexivity|symmetry; apply (take_drop_while is_whitespace)|].
        eapply reads_try; [apply reads_expect; [done|]|].
        { intros _. eexists _, [], []. rewrite !app_nil_r. split; [done|]. split; [apply Hc3|auto]. }
        intros _ c4 w4 text rest4 _ Hc4 _. eapply reads_after with (text := []); [rewrite seq_read; reflexivity|reflexivity|]. rewrite app_nil_r.
        eapply reads_try; [apply reads_expect; [done|]|].
        { intros _. eexists _, [], []. rewrite !app_nil_r. split; [done|]. split; [apply Hc4|auto]. }
        intros _ c5 w5 text5 rest5 _ Hc5 _. by apply reads_returns.
      * rewrite <- str_len_one. by eapply reads_fail.
  - destruct (marker_op_from_str _) as [op|]; [by apply reads_returns|by eapply reads_fail].
Qed.

Lemma parse_marker_value_reads c w before rest : at_rest c before rest -> Forall is_char rest ->
  reads parse_marker_value c w before rest (fun v _ _ => match v with QuotedString s => Forall is_char s | _ => True end).
Proof.
  intros Hc Hch. unfold parse_marker_value. unfold peek. eapply reads_after with (text := []); [rewrite seq_read; reflexivity|reflexivity|].
  rewrite app_nil_r, (peek_char_at _ _ _ Hc). destruct rest as [|x rest]; cbn [head option_map].
  - eapply reads_after with (text := []); [rewrite seq_read; reflexivity|reflexivity|]. rewrite app_nil_r. by eapply reads_fail_end.
  - destruct (is_quote x) eqn:Eq.
    + destruct (next_at _ _ _ _ Hc) as (c1 & E1 & Hc1). destruct (take_while_at Hc1 (fun c => negb (c =? x))) as (c2 & E2 & Hc2 & Es).
      eapply reads_after with (text := [x]); [rewrite (seq_with c c1 w _ _ _ E1); reflexivity|reflexivity|].
      eapply reads_after; [rewrite (seq_with c1 c2 w _ _ _ E2); cbn [fst snd]; rewrite (seq_slice c2 w _ _ _ _ Es); reflexivity|symmetry; apply (take_drop_while (fun c => negb (c =? x)))|].
      eapply reads_try; [apply reads_expect; [done|]|].
      { intros _. exists before, [x], (take_while (fun c => negb (c =? x)) rest). rewrite <- app_assoc. split; [done|].
        split; [apply Hc|]. left. apply str_len_cons_ascii. unfold is_quote in Eq. lia. }
      intros _ c3 w3 text rest3 _ Hc3 _. apply reads_returns; [done|]. inv Hch. by apply Forall_take_while.
    + destruct (take_while_at Hc is_key_char) as (c1 & E1 & Hc1 & Es).
      eapply reads_after; [rewrite (seq_with c c1 w _ _ _ E1); cbn [fst snd]; rewrite (seq_slice c1 w _ _ _ _ Es); reflexivity|symmetry; apply (take_drop_while is_key_char)|].
      destruct (marker_value_from_str _) as [v|] eqn:Ev; [|by eapply reads_fail].
      pose proof (value_name_not_quoted _ _ Ev) as Hv.
      destruct (is_deprecated v); [eapply reads_after with (text := []); [rewrite seq_report; reflexivity|reflexivity|]; rewrite app_nil_r|]; apply reads_returns; try done; by destruct v.
Qed.
End lexer.

(** ** Conversion of a comparison *)

(** A reporter leaves the cursor alone, and what it returns can be lowered. *)
Definition reports (m : M Scan (option MarkerExpression)) : Prop := forall c w,
  exists r w', m (mkScan c w) = Ret (r, mkScan c w') /\ forall e, r = Some e -> expr_parsed e = true.

Lemma reports_pure r : (forall e, r = Some e -> expr_parsed e = true) -> reports (mpure r).
Proof. intros Hr c w. by exists r, w. Qed.

Lemma reports_dropped x : reports (dropped x).
Proof. intros c w. by eexists None, _. Qed.

Lemma reports_lift {A} (o : outcome A) (k : A -> M Scan (option MarkerExpression)) a : o = Ret a -> reports (k a) -> reports (mseq (mlift o) k).
Proof. intros -> H. exact H. Qed.

Lemma version_list_total fuel c versions before rest : at_rest c before rest -> Forall is_char rest -> (length rest < fuel)%nat ->
  forallb real versions = true ->
  exists r, version_list fuel c versions = Ret r /\ forall l, r = Some l -> forallb real l = true.
Proof.
  revert c versions before rest. induction fuel as [|fuel IH]; intros c versions before rest Hc Hch Hf Hv; [lia|]. cbn [version_list].
  destruct (eat_whitespace_at Hc) as (c1 & -> & Hc1). destruct (take_while_at Hc1 (fun c => negb (is_whitespace c))) as (c2 & -> & Hc2 & Es).
  cbn [fst snd]. set (rest1 := drop_while is_whitespace rest) in *.
  destruct (Nat.eqb_spec (str_len (take_while (fun c => negb (is_whitespace c)) rest1)) 0) as [E0|E0]; [by eexists; split; [done|]; intros l [= <-]|].
  rewrite Es. cbn [obind]. assert (Hch1 : Forall is_char rest1) by (by apply Forall_drop_while).
  destruct (version_total (take_while (fun c => negb (is_whitespace c)) rest1)) as (r & E); [by apply Forall_take_while|].
  rewrite E. cbn [obind]. destruct r as [v|]; [|by eexists].
  apply (IH c2 _ _ _ Hc2); [by apply Forall_drop_while| |].
  - assert (length rest1 <= length rest)%nat by (unfold rest1; rewrite <- (take_drop_while is_whitespace rest) at 2; rewrite length_app; lia).
    assert (length (take_while (fun c => negb (is_whitespace c)) rest1) <> 0%nat) by (intros El%nil_length_inv; by rewrite El in E0).
    rewrite <- (take_drop_while (fun c => negb (is_whitespace c)) rest1), length_app in H. lia.
  - rewrite forallb_app, Hv. cbn. rewrite canonical_real; [done|]. apply (from_str_parsed _ _ (utf8_u8 _ ltac:(by apply Forall_take_while)) E).
Qed.

Lemma parse_version_in_expr_reports key op value : Forall is_char value -> reports (parse_version_in_expr key op value).
Proof.
  intros Hv. unfold parse_version_in_expr. destruct (container_op_from_marker_operator op) as [o|]; [|by apply reports_pure].
  destruct (version_list_total (S (length value)) (cursor_new value) [] [] value) as (r & E & Hr); [apply cursor_new_at|done|lia|done|].
  apply (reports_lift _ _ r E). destruct r as [l|]; [apply reports_pure; intros e [= <-]; by apply Hr|apply reports_dropped].
Qed.

Lemma to_pep440_base op o : to_pep440_operator op = Some o -> is_star o = false /\ o <> ExactEqual.
Proof. by destruct op; intros [= <-]. Qed.

Lemma from_version_operator o v sp : from_version o v = Ok sp -> operator sp = o.
Proof. unfold from_version. destruct (_ && _); [done|]. destruct (_ && _); [done|]. by intros [= <-]. Qed.

Lemma from_pattern_operator o p sp : from_pattern o p = Ok sp -> o <> ExactEqual -> operator sp <> ExactEqual.
Proof.
  unfold from_pattern. destruct (vp_wildcard p); [|by intros ->%from_version_operator].
  destruct (to_star o) as [o'|] eqn:E; [|done]. intros ->%from_version_operator _. destruct o; try done; by injection E as <-.
Qed.

Lemma parsed_specifier key sp : spec_parsed sp -> operator sp <> ExactEqual -> expr_parsed (EVersion key sp) = true.
Proof. intros Hp Hx. cbn [expr_parsed]. rewrite (spec_parsed_real _ Hp). by destruct (operator sp). Qed.

Lemma parse_version_expr_reports key op value : Forall is_char value -> reports (parse_version_expr key op value).
Proof.
  intros Hv%utf8_u8. unfold parse_version_expr. destruct (general_pattern_total (utf8 value)) as (r & E & _).
  rewrite <- parse_pattern_is_general in E by done. apply (reports_lift _ _ r E). destruct r as [p|]; [|apply reports_dropped].
  destruct (to_pep440_operator op) as [o|] eqn:Eo; [|apply reports_dropped]. destruct (to_pep440_base _ _ Eo) as [Hs Hx].
  destruct (from_pattern o p) as [sp|] eqn:Ep; [|apply reports_dropped]. apply reports_pure. intros e [= <-].
  destruct (parse_pattern_parsed _ _ Hv E) as [Hp Hw].
  apply parsed_specifier; [by eapply from_pattern_parsed|by eapply from_pattern_operator].
Qed.

Lemma parse_inverted_version_expr_reports value op key : Forall is_char value -> reports (parse_inverted_version_expr value op key).
Proof.
  intros Hc. unfold parse_inverted_version_expr. destruct (version_total value Hc) as (r & E). apply (reports_lift _ _ r E).
  destruct r as [v|]; [|apply reports_dropped].
  destruct (to_pep440_operator _) as [o|] eqn:Eo; [|apply reports_dropped]. destruct (to_pep440_base _ _ Eo) as [Hs Hx].
  destruct (from_version o v) as [sp|] eqn:Ep; [|apply reports_dropped]. apply reports_pure. intros e [= <-].
  pose proof (from_str_parsed _ _ (utf8_u8 _ Hc) E) as Hp.
  apply parsed_specifier; [by apply (from_pattern_parsed o (mkPattern v false))|by rewrite (from_version_operator _ _ _ Ep)].
Qed.

Lemma parse_extra_expr_reports op value : reports (parse_extra_expr op value).
Proof.
  intros c w. unfold parse_extra_expr. destruct (validate_and_normalize_ref value), (extra_op_from_marker_operator op); eexists _, _; (split; [reflexivity|]);
    by intros e' [= <-].
Qed.

Lemma reads_reports m (k : option MarkerExpression -> Lex (option MarkerExpression)) c w before rest Q : reports m -> at_rest c before rest ->
  (forall r w', (forall e, r = Some e -> expr_parsed e = true) -> reads (k r) c w' before rest Q) -> reads (mseq m k) c w before rest Q.
Proof.
  intros Hm Hc Hk. destruct (Hm c w) as (r & w' & E & Hr). destruct (Hk r w' Hr) as (r2 & c2 & w2 & E2 & H2).
  exists r2, c2, w2. split; [by unfold mseq; rewrite E|done].
Qed.

Definition parsed_result (r : option MarkerExpression) : Prop := forall e, r = Some e -> expr_parsed e = true.

Definition quoted_chars (v : MarkerValue) : Prop := match v with QuotedString s => Forall is_char s | _ => True end.

Lemma convert_comparison_reads l op r before text rest c w rest0 : at_rest c (before ++ text) rest0 -> rest = rest0 ->
  quoted_chars l -> quoted_chars r ->
  reads (convert_comparison l op r (str_len before) (str_len text)) c w (before ++ text) rest (fun e _ _ => parsed_result e).
Proof.
  intros Hc -> Hl Hr.
  assert (Hrep : forall m, reports m -> reads (mseq m (fun e => ok e)) c w (before ++ text) rest0 (fun e _ _ => parsed_result e)).
  { intros m Hm. apply reads_reports; [done|done|]. intros r' w' Hr'. by apply reads_returns. }
  assert (Hstr : forall key o s, o <> MTildeEqual -> reads (ok (Some (EString key o s))) c w (before ++ text) rest0 (fun e _ _ => parsed_result e)).
  { intros key o s Ho. apply reads_returns; [done|]. intros e [= <-]. by destruct o. }
  destruct l as [key|key|key| |l]; cbn [convert_comparison].
  - destruct r as [| | | |value]; try (apply Hrep, reports_dropped).
    apply reads_reports; [by apply parse_version_in_expr_reports|done|]. intros [e|] w' He; [by apply reads_returns|].
    apply reads_reports; [by apply parse_version_expr_reports|done|]. intros e w'' He'. by apply reads_returns.
  - destruct r as [| | | |value]; try (apply Hrep, reports_dropped). destruct op; try (by apply Hstr). apply Hrep, reports_dropped.
  - by eapply reads_fail.
  - destruct r as [| | | |value]; try (apply Hrep, reports_dropped). apply Hrep, parse_extra_expr_reports.
  - destruct r as [key|key|key| |value].
    + by apply Hrep, parse_inverted_version_expr_reports.
    + destruct op; try (by apply Hstr). apply Hrep, reports_dropped.
    + destruct (container_op_from_marker_operator op) as [o|]; [|by eapply reads_fail].
      unfold parse_list_pair. destruct (validate_and_normalize_ref l); [|].
      * apply reads_returns; [done|]. by intros e [= <-].
      * eexists _, c, _. split; [reflexivity|]. exists [], rest0. rewrite app_nil_r. split; [done|]. split; [done|]. by intros e' [= <-].
    + apply Hrep, parse_extra_expr_reports.
    + apply Hrep, reports_dropped.
Qed.

Section key_op_value.
Context `{Alphabetic}.

(** Skipping white space, then reading. *)
Lemma reads_space {A} (k : unit -> Lex A) c w before rest Q : at_rest c before rest ->
  (forall c' ws rest', rest = ws ++ rest' -> at_rest c' (before ++ ws) rest' -> reads (k tt) c' w (before ++ ws) rest' (fun a text r => Q a (ws ++ text) r)) ->
  reads (mseq skip_space k) c w before rest Q.
Proof.
  intros Hc Hk. destruct (eat_whitespace_at Hc) as (c' & Ec & Hc').
  eapply reads_after; [unfold skip_space; rewrite (seq_with c c' w _ _ tt) by (by rewrite Ec); reflexivity|symmetry; apply (take_drop_while is_whitespace)|].
  apply Hk; [symmetry; apply take_drop_while|done].
Qed.

Lemma reads_chars (text rest : Str) : Forall is_char (text ++ rest) -> Forall is_char rest.
Proof. by intros [_ ?]%Forall_app. Qed.

Lemma parse_marker_key_op_value_reads c w before rest : at_rest c before rest -> Forall is_char rest ->
  reads parse_marker_key_op_value c w before rest (fun e _ _ => parsed_result e).
Proof.
  intros Hc Hch. unfold parse_marker_key_op_value. apply reads_space; [done|]. intros c1 ws rest1 -> Hc1. apply reads_chars in Hch.
  eapply reads_after with (text := []); [rewrite seq_read; reflexivity|reflexivity|]. rewrite app_nil_r.
  eapply reads_try; [by apply parse_marker_value_reads|]. intros l c2 w2 t2 rest2 -> Hc2 Hl. apply reads_chars in Hch.
  apply reads_space; [done|]. intros c3 ws3 rest3 -> Hc3. apply reads_chars in Hch.
  eapply reads_try; [by apply parse_marker_operator_reads|]. intros op c4 w4 t4 rest4 -> Hc4 _. apply reads_chars in Hch.
  apply reads_space; [done|]. intros c5 ws5 rest5 -> Hc5. apply reads_chars in Hch.
  eapply reads_try; [by apply parse_marker_value_reads|]. intros r c6 w6 t6 rest6 -> Hc6 Hr.
  eapply reads_after with (text := []); [rewrite seq_read; reflexivity|reflexivity|]. rewrite app_nil_r.
  assert (Ep : cursor_pos c1 = str_len (before ++ ws)) by apply Hc1.
  assert (El : (cursor_pos c6 - cursor_pos c1)%nat = str_len (t2 ++ ws3 ++ t4 ++ ws5 ++ t6)).
  { destruct Hc6 as (_ & _ & ->). rewrite Ep, <- !app_assoc, !str_len_app. lia. }
  rewrite El, Ep. rewrite <- !(app_assoc (before ++ ws)) in Hc6 |- *. rewrite <- !app_assoc in Hc6 |- *.
  replace (before ++ ws ++ t2 ++ ws3 ++ t4 ++ ws5 ++ t6) with ((before ++ ws) ++ t2 ++ ws3 ++ t4 ++ ws5 ++ t6) in * by (by rewrite <- !app_assoc).
  by apply (convert_comparison_reads _ _ _ _ _ _ _ _ rest6).
Qed.
End key_op_value.

(** ** No text makes the parser panic or loop *)

Section parser.
Context {RV RS : Type} `{!RangeSet Version RV} `{!RangeSetLaws Version RV}.
Context `{!RangeSet Str RS} `{!RangeSetLaws Str RS} `{Alphabetic}.

Abbreviation Interner := (InternerOf RV RS).
Abbreviation Parse := (M (Scan * Interner)).
Implicit Types (s : Interner) (t x y : NodeId) (c : Cursor) (w : list MarkerWarningKind).

(** The operations of the interner, on the states they reach. *)
Definition binary (apply : NodeId -> NodeId -> M Interner NodeId) : Prop := forall s x y, reachable s -> valid_id s x -> valid_id s y ->
  exists r s', apply x y s = Ret (r, s') /\ reachable s' /\ ext s s' /\ valid_id s' r.

Lemma reach_expression s e : reachable s -> expr_parsed e = true ->
  exists t s', expression e s = Ret (t, s') /\ reachable s' /\ ext s s' /\ valid_id s' t.
Proof.
  intros Hs He. destruct (expression_total s e (reachable_ok s Hs) He) as (t & s' & E & _ & Hx & Ht).
  exists t, s'. split; [done|]. split; [|done]. eapply rtc_r; [exact Hs|]. eapply step_expression; [by right|done].
Qed.

Lemma and_binary : binary interner_and.
Proof.
  intros s x y Hs Hx Hy. destruct (interner_and_runs x y s (reachable_ok s Hs) Hx Hy) as (r & s' & E & _ & He & Hr).
  exists r, s'. split; [done|]. split; [|split; [done|apply Hr]]. eapply rtc_r; [exact Hs|]. by apply (step_and x y r).
Qed.

Lemma or_binary : binary interner_or.
Proof.
  intros s x y Hs Hx Hy. destruct (interner_or_runs x y s (reachable_ok s Hs) Hx Hy) as (r & s' & E & _ & He & Hr).
  exists r, s'. split; [done|]. split; [|split; [done|apply Hr]]. eapply rtc_r; [exact Hs|]. by apply (step_or x y r).
Qed.

(** What a parser of trees does, started before [rest]. *)
Definition parses {A} (m : Parse (result A Pep508Error)) c w s (before rest : Str) (Q : A -> Interner -> Str -> Str -> Prop) : Prop :=
  exists r c' w' s', m (mkScan c w, s) = Ret (r, (mkScan c' w', s')) /\ reachable s' /\ ext s s' /\
    match r with
    | Ok a => exists text rest', rest = text ++ rest' /\ at_rest c' (before ++ text) rest' /\ Q a s' text rest'
    | Err e => span_ok (before ++ rest) e
    end.

Lemma seq_scanning {A B} (m : M Scan A) (k : A -> Parse B) st st' s a : m st = Ret (a, st') ->
  mseq (scanning m) k (st, s) = k a (st', s).
Proof. intros E. unfold mseq, scanning. cbn. by rewrite E. Qed.

Lemma parses_after {A} (m m' : Parse (result A Pep508Error)) c w s c' w' s' before text rest rest' Q :
  m (mkScan c w, s) = m' (mkScan c' w', s') -> ext s s' -> rest = text ++ rest' ->
  parses m' c' w' s' (before ++ text) rest' (fun a s'' text' rest'' => Q a s'' (text ++ text') rest'') -> parses m c w s before rest Q.
Proof.
  intros Em He Er (r & c2 & w2 & s2 & E & Hs & He2 & Hr). exists r, c2, w2, s2. split; [by rewrite Em|]. split; [done|]. split; [by etrans|].
  destruct r as [a|e]; [|by rewrite Er, app_assoc]. destruct Hr as (text2 & rest2 & -> & Hc2 & Hq). exists (text ++ text2), rest2. rewrite Er, <- !app_assoc in *. done.
Qed.

Lemma parses_try {A B} (m : Parse (result A Pep508Error)) (k : A -> Parse (result B Pep508Error)) c w s before rest P Q :
  parses m c w s before rest P ->
  (forall a c' w' s' text rest', rest = text ++ rest' -> at_rest c' (before ++ text) rest' -> reachable s' -> ext s s' -> P a s' text rest' ->
    parses (k a) c' w' s' (before ++ text) rest' (fun b s'' text' rest'' => Q b s'' (text ++ text') rest'')) ->
  parses (try m k) c w s before rest Q.
Proof.
  intros (r & c' & w' & s' & E & Hs & He & Hr) Hk. destruct r as [a|e].
  - destruct Hr as (text & rest' & Er & Hc' & Hp). eapply parses_after; [unfold try; unfold mseq at 1; rewrite E; reflexivity|done|done|]. by apply Hk.
  - exists (Err e), c', w', s'. split; [unfold try, mseq; by rewrite E|done].
Qed.

Lemma parses_lex {A} (m : Lex A) c w s before rest (P : A -> Str -> Str -> Prop) : reachable s -> reads m c w before rest P ->
  parses (scanning m) c w s before rest (fun a s' text rest' => P a text rest').
Proof. intros Hs (r & c' & w' & E & Hr). exists r, c', w', s. split; [unfold scanning; cbn; by rewrite E|]. done. Qed.

Lemma parses_ok {A} (a : A) c w s before rest (Q : A -> Interner -> Str -> Str -> Prop) : reachable s -> at_rest c before rest -> Q a s [] rest ->
  parses (ok a) c w s before rest Q.
Proof. intros Hs Hc Hq. exists (Ok a), c, w, s. split; [done|]. split; [done|]. split; [done|]. exists [], rest. by rewrite app_nil_r. Qed.

(** Skipping white space. *)
Lemma parses_space {A} (k : unit -> Parse (result A Pep508Error)) c w s before rest Q : at_rest c before rest ->
  (forall c', at_rest c' (before ++ take_while is_whitespace rest) (drop_while is_whitespace rest) ->
    parses (k tt) c' w s (before ++ take_while is_whitespace rest) (drop_while is_whitespace rest)
      (fun a s' text r => Q a s' (take_while is_whitespace rest ++ text) r)) ->
  parses (mseq (scanning skip_space) k) c w s before rest Q.
Proof.
  intros Hc Hk. destruct (eat_whitespace_at Hc) as (c' & Ec & Hc').
  eapply parses_after; [apply seq_scanning; unfold skip_space, with_cursor; cbn; by rewrite Ec|done|symmetry; apply (take_drop_while is_whitespace)|].
  by apply Hk.
Qed.

(** The operand of an operator. *)
Definition valid_operand s (o : option NodeId) : Prop := forall t, o = Some t -> valid_id s t.

Lemma apply_operand_spec apply tree operand st s : binary apply -> reachable s -> valid_operand s tree -> valid_operand s operand ->
  exists r s', apply_operand apply tree operand (st, s) = Ret (r, (st, s')) /\ reachable s' /\ ext s s' /\ valid_operand s' r.
Proof.
  intros Ha Hs Ht Ho. destruct operand as [o|]; [|by exists tree, s]. cbn [apply_operand].
  destruct tree as [t|]; [|by exists (Some o), s]. destruct (Ha s t o Hs (Ht t eq_refl) (Ho o eq_refl)) as (r & s' & E & Hs' & He & Hr).
  exists (Some r), s'. split; [unfold mseq, interning; cbn; by rewrite E|]. split; [done|]. split; [done|]. by intros ? [= <-].
Qed.

Lemma valid_operand_ext s s' o : ext s s' -> valid_operand s o -> valid_operand s' o.
Proof. intros He Ho t E. eapply valid_ext; [done|by apply Ho]. Qed.

(** A parser of operands that works on texts of bounded length. *)
Definition total (n : nat) (m : Parse (result (option NodeId) Pep508Error)) : Prop := forall c w s before rest,
  at_rest c before rest -> Forall is_char rest -> reachable s -> (length rest <= n)%nat ->
  parses m c w s before rest (fun o s' _ _ => valid_operand s' o).

Lemma marker_op_loop_total n op apply inner : binary apply -> total n inner -> op <> [] ->
  forall fuel tree c w s before rest, at_rest c before rest -> Forall is_char rest -> reachable s -> (length rest <= n)%nat -> (length rest < fuel)%nat ->
    valid_operand s tree -> parses (marker_op_loop fuel op apply inner tree) c w s before rest (fun o s' _ _ => valid_operand s' o).
Proof.
  intros Ha Hi Hop. induction fuel as [|fuel IH]; intros tree c w s before rest Hc Hch Hs Hn Hf Ht; [lia|]. cbn [marker_op_loop].
  apply parses_space; [done|]. intros c1 Hc1. set (rest1 := drop_while is_whitespace rest) in *.
  assert (Hl1 : (length rest1 <= length rest)%nat).
  { unfold rest1. rewrite <- (take_drop_while is_whitespace rest) at 2. rewrite length_app. lia. }
  assert (Hch1 : Forall is_char rest1) by (by apply Forall_drop_while). generalize dependent (before ++ take_while is_whitespace rest). intros b1 Hc1. clearbody rest1.
  set (p := fun c : Z => negb (is_whitespace c)). destruct (peek_while_at Hc1 p) as [Ep Es].
  eapply parses_after with (text := []); [rewrite (seq_scanning _ _ (mkScan c1 w) (mkScan c1 w) s (str_len b1, str_len (take_while p rest1)))
    by (unfold read_cursor; cbn; by rewrite Ep); cbn [fst snd];
    rewrite (seq_scanning _ _ (mkScan c1 w) (mkScan c1 w) s (take_while p rest1)) by (unfold slice_cursor; cbn; by rewrite Es); reflexivity|done|reflexivity|].
  rewrite app_nil_r. destruct (bytes_eqb (take_while p rest1) op) eqn:Eop; [|by apply parses_ok].
  apply bytes_eqb_eq in Eop. destruct (take_while_at Hc1 p) as (c2 & E2 & Hc2 & _).
  eapply parses_after; [rewrite (seq_scanning _ _ (mkScan c1 w) (mkScan c2 w) s (str_len b1, str_len (take_while p rest1)))
    by (unfold with_cursor; cbn; by rewrite E2); reflexivity|done|symmetry; apply (take_drop_while p)|].
  assert (Hl2 : (length (drop_while p rest1) < length rest1)%nat).
  { rewrite <- (take_drop_while p rest1) at 2. rewrite length_app, Eop. destruct op; [done|cbn; lia]. }
  eapply parses_try; [apply Hi; [done|by apply Forall_drop_while|done|lia]|].
  intros o c3 w3 s3 text rest3 Er3 Hc3 Hs3 He3 Ho.
  destruct (apply_operand_spec apply tree o (mkScan c3 w3) s3 Ha Hs3) as (r & s4 & E4 & Hs4 & He4 & Hr); [by eapply valid_operand_ext|done|].
  eapply parses_after with (text := []); [unfold mseq; rewrite E4; reflexivity|done|reflexivity|]. rewrite app_nil_r.
  assert (Hl3 : (length rest3 <= length (drop_while p rest1))%nat) by (rewrite Er3, length_app; lia).
  apply IH; [done| |done|lia|lia|done]. apply (Forall_drop_while _ p) in Hch1. rewrite Er3 in Hch1. by apply Forall_app in Hch1 as [_ ?].
Qed.

Lemma parse_marker_op_total n fuel op apply inner : binary apply -> total n inner -> op <> [] -> (n < fuel)%nat ->
  total n (parse_marker_op fuel op apply inner).
Proof.
  intros Ha Hi Hop Hf c w s before rest Hc Hch Hs Hn. eapply parses_try; [by apply Hi|].
  intros o c1 w1 s1 text rest1 Er Hc1 Hs1 He1 Ho. destruct (apply_operand_spec apply None o (mkScan c1 w1) s1 Ha Hs1) as (r & s2 & E2 & Hs2 & He2 & Hr); [done|done|].
  eapply parses_after with (text := []); [unfold mseq; rewrite E2; reflexivity|done|reflexivity|]. rewrite app_nil_r.
  rewrite Er in Hch, Hn. rewrite length_app in Hn. apply Forall_app in Hch as [_ Hch].
  apply (marker_op_loop_total n); try done; lia.
Qed.

Lemma parse_marker_expr_total n parse_or : (forall k, n = S k -> total k parse_or) -> total n (parse_marker_expr parse_or).
Proof.
  intros Hor c w s before rest Hc Hch Hs Hn. unfold parse_marker_expr. apply parses_space; [done|]. intros c1 Hc1.
  set (rest1 := drop_while is_whitespace rest) in *.
  assert (Hl1 : (length rest1 <= length rest)%nat).
  { unfold rest1. rewrite <- (take_drop_while is_whitespace rest) at 2. rewrite length_app. lia. }
  assert (Hch1 : Forall is_char rest1) by (by apply Forall_drop_while). generalize dependent (before ++ take_while is_whitespace rest). intros b1 Hc1. clearbody rest1.
  destruct (eat_char_at c1 b1 rest1 40 Hc1) as [(rest2 & c2 & -> & Ec & Hc2)|[Ec _]].
  - eapply parses_after with (text := [40]); [rewrite (seq_scanning _ _ (mkScan c1 w) (mkScan c2 w) s (Some (str_len b1)))
      by (unfold with_cursor; cbn; by rewrite Ec); reflexivity|done|reflexivity|].
    inv Hch1. cbn [length] in Hl1. destruct n as [|n]; [lia|].
    eapply parses_try; [apply (Hor n eq_refl); [done|done|done|lia]|]. intros o c3 w3 s3 text rest3 Er3 Hc3 Hs3 _ Ho.
    eapply parses_try; [apply parses_lex; [done|]; apply reads_expect; [done|]|].
    { intros _. exists b1, [40], text. by rewrite <- app_assoc; auto. }
    intros _ c4 w4 s4 text4 rest4 _ Hc4 Hs4 He4 _. apply parses_ok; [done|done|]. by eapply valid_operand_ext.
  - eapply parses_after with (text := []); [rewrite (seq_scanning _ _ (mkScan c1 w) (mkScan c1 w) s None)
      by (unfold with_cursor; cbn; by rewrite Ec); reflexivity|done|reflexivity|]. rewrite app_nil_r.
    eapply parses_try; [apply parses_lex; [done|by apply parse_marker_key_op_value_reads]|].
    intros e c2 w2 s2 text rest2 _ Hc2 Hs2 _ He. destruct e as [e|]; [|by apply parses_ok].
    destruct (reach_expression s2 e Hs2 (He e eq_refl)) as (t & s3 & E3 & Hs3 & He3 & Ht).
    eapply parses_after with (text := []); [unfold mseq, interning; cbn; rewrite E3; reflexivity|done|reflexivity|]. rewrite app_nil_r.
    apply parses_ok; [done|done|]. by intros ? [= <-].
Qed.

Lemma total_less n k m : (k <= n)%nat -> total n m -> total k m.
Proof. intros Hk Hm c w s before rest Hc Hch Hs Hn. apply Hm; [done..|lia]. Qed.

Lemma parse_marker_or_total n fuel : (S n < fuel)%nat -> total n (parse_marker_or fuel).
Proof.
  revert n. induction fuel as [|fuel IH]; intros n Hf; [lia|]. cbn [parse_marker_or].
  apply parse_marker_op_total; [apply or_binary| |done|lia]. apply parse_marker_op_total; [apply and_binary| |done|lia].
  apply parse_marker_expr_total. intros k ->. apply IH. lia.
Qed.

(** The whole text. *)
Lemma parse_markers_cursor_total c w s before rest : at_rest c before rest -> Forall is_char rest -> reachable s ->
  parses parse_markers_cursor c w s before rest (fun o s' _ rest' => valid_operand s' o /\ rest' = []).
Proof.
  intros Hc Hch Hs. unfold parse_markers_cursor.
  eapply parses_after with (text := []); [rewrite (seq_scanning _ _ (mkScan c w) (mkScan c w) s rest)
      by (unfold read_cursor; cbn; by destruct Hc as (_ & -> & _)); reflexivity|done|reflexivity|]. rewrite app_nil_r.
  eapply parses_try; [apply (parse_marker_or_total (length rest)); [unfold parser_fuel; lia|done..]|].
  intros o c1 w1 s1 text rest1 _ Hc1 Hs1 _ Ho. apply parses_space; [done|]. intros c2 Hc2.
  generalize dependent (drop_while is_whitespace rest1). intros rest2 Hc2.
  generalize dependent ((before ++ text) ++ take_while is_whitespace rest1). intros b2 Hc2.
  destruct rest2 as [|x rest2].
  - pose proof (next_at_end _ _ Hc2) as En.
    eapply parses_after with (text := []); [rewrite (seq_scanning _ _ (mkScan c2 w1) (mkScan c2 w1) s1 None)
      by (unfold with_cursor; cbn; by rewrite En); reflexivity|done|reflexivity|]. rewrite app_nil_r. by apply parses_ok.
  - destruct (next_at _ _ _ _ Hc2) as (c3 & En & Hc3).
    eexists (Err _), c3, w1, s1. split; [rewrite (seq_scanning _ _ (mkScan c2 w1) (mkScan c3 w1) s1 (Some (str_len b2, x)))
      by (unfold with_cursor; cbn; by rewrite En); reflexivity|]. split; [done|]. split; [done|].
    exists b2, (x :: rest2), []. destruct Hc3 as (Hi & _). cbn [pe_input pe_start pe_len scan_cursor fst].
    rewrite Hi, <- app_assoc, app_nil_r. split; [done|]. split; [done|]. split; [done|]. left. rewrite str_len_app. cbn. lia.
Qed.

End parser.
