(* ===== verification/MarkerComparison.v ===== *)
(** * Comparisons of markers, as texts

    [comparison_text e text]: the text compares a marker name with a quoted value, in
    either order, and the comparison means the expression [e].  The names are those of
    PEP 508 with their older spellings, a value is between single or double quotes,
    and white space is optional where the two sides and the operator are told apart
    without it.  The parser reads every such text as its expression
    ([gets_comparison]), and the printed form of an expression is such a text
    ([display_comparison]).

    [parse_marker_key_op_value] also reads comparisons that have no meaning, which it
    reports and drops; they are not texts of this relation. *)

From Stdlib Require Import ZArith Lia String.
From stdpp Require Import base list gmap relations.
From S2P Require Import Prelude.
From S2P Require Import VersionRepr.
From S2P Require Import VersionOrder.
From S2P Require Import VersionParser.
From S2P Require Import VersionDisplay.
From S2P Require Import VersionRecord.
From S2P Require Import Specifier.
From S2P Require Import SpecifierParser.
From S2P Require Import Normalize.
From S2P Require Import Cursor.
From S2P Require Import RangeSet.
From S2P Require Import Stateful.
From S2P Require Import MarkerEdges.
From S2P Require Import MarkerTypes.
From S2P Require Import RangeInstances.
From S2P Require Import MarkerAlgebra.
From S2P Require Import MarkerStore.
From S2P Require Import MarkerOps.
From S2P Require Import MarkerConj.
From S2P Require Import MarkerTree.
From S2P Require Import MarkerVersion.
From S2P Require Import MarkerExpr.
From S2P Require Import MarkerTheorems.
From S2P Require Import MarkerParser.
Open Scope Z_scope.

(** ** Names, values and operators *)

Definition space (ws : Str) : Prop := Forall (fun c => is_whitespace c = true) ws.

(** The names of the values of an environment, with the spellings of older versions of
    the specification. *)
Definition key_names : list (string * MarkerValue) :=
  [("implementation_name", MarkerEnvString ImplementationName); ("implementation_version", MarkerEnvVersion ImplementationVersion);
   ("os_name", MarkerEnvString OsName); ("platform_machine", MarkerEnvString PlatformMachine);
   ("platform_python_implementation", MarkerEnvString PlatformPythonImplementation); ("platform_release", MarkerEnvString PlatformRelease);
   ("platform_system", MarkerEnvString PlatformSystem); ("platform_version", MarkerEnvString PlatformVersion);
   ("python_full_version", MarkerEnvVersion PythonFullVersion); ("python_version", MarkerEnvVersion PythonVersion);
   ("sys_platform", MarkerEnvString SysPlatform); ("extra", Extra); ("extras", MarkerEnvList Extras); ("dependency_groups", MarkerEnvList DependencyGroups);
   ("os.name", MarkerEnvString OsNameDeprecated); ("platform.machine", MarkerEnvString PlatformMachineDeprecated);
   ("platform.python_implementation", MarkerEnvString PlatformPythonImplementationDeprecated);
   ("python_implementation", MarkerEnvString PythonImplementationDeprecated); ("platform.version", MarkerEnvString PlatformVersionDeprecated);
   ("sys.platform", MarkerEnvString SysPlatformDeprecated)]%string.

Inductive value_text : MarkerValue -> Str -> Prop :=
| value_quoted q s : q = 39 \/ q = 34 -> Forall (fun c => c <> q) s -> value_text (QuotedString s) (q :: s ++ [q])
| value_key name v : In (name, v) key_names -> value_text v (bs name).

Definition symbols : list (string * MarkerOperator) :=
  [("==", MEqual); ("!=", MNotEqual); ("<", MLessThan); ("<=", MLessEqual); (">", MGreaterThan); (">=", MGreaterEqual); ("~=", MTildeEqual)]%string.

Inductive op_text : MarkerOperator -> Str -> Prop :=
| op_symbol name op : In (name, op) symbols -> op_text op (bs name)
| op_in : op_text MIn (bs "in")
| op_not_in ws : space ws -> ws <> [] -> op_text MNotIn (bs "not" ++ ws ++ bs "in").

(** A value and an operator side by side: [ws] is between them. *)
Definition separated (ws value op : Str) : Prop := ws <> [] \/ is_operator_char (hd 0 op) = true \/ is_quote (hd 0 value) = true.

(** ** What a comparison means *)

(** The operator seen from the other side. *)
Definition mirrored (op : MarkerOperator) : MarkerOperator :=
  match op with
  | MLessThan => MGreaterThan
  | MLessEqual => MGreaterEqual
  | MGreaterThan => MLessThan
  | MGreaterEqual => MLessEqual
  | MIn => MContains
  | MNotIn => MNotContains
  | op => op
  end.

Definition version_operators : list (MarkerOperator * Operator) :=
  [(MEqual, Equal); (MNotEqual, NotEqual); (MLessThan, LessThan); (MLessEqual, LessThanEqual); (MGreaterThan, GreaterThan);
   (MGreaterEqual, GreaterThanEqual); (MTildeEqual, TildeEqual)].
Definition containers : list (MarkerOperator * ContainerOperator) := [(MIn, ContainerIn); (MNotIn, ContainerNotIn)].
Definition extra_operators : list (MarkerOperator * ExtraOperator) := [(MEqual, ExtraEqual); (MNotEqual, ExtraNotEqual)].

Definition nonspace (c : Z) : bool := negb (is_whitespace c).

(** Versions between white space. *)
Inductive version_words : list Version -> Str -> Prop :=
| words_done ws : space ws -> version_words [] ws
| words_more ws t v vs rest : space ws -> t <> [] -> Forall (fun c => nonspace c = true) t -> version_from_str (utf8 t) = Ret (Ok v) ->
    stops nonspace rest -> version_words vs rest -> version_words (v :: vs) (ws ++ t ++ rest).

Inductive names_extra : Str -> MarkerValueExtra -> Prop :=
| names_valid text name : validate_and_normalize_ref text = Ok name -> names_extra text (ExtraNameValue name)
| names_invalid text e : validate_and_normalize_ref text = Err e -> names_extra text (ArbitraryExtra text).

Inductive names_pair : MarkerValueList -> Str -> CanonicalMarkerListPair -> Prop :=
| names_extras text name : validate_and_normalize_ref text = Ok name -> names_pair Extras text (PairExtras name)
| names_group text name : validate_and_normalize_ref text = Ok name -> names_pair DependencyGroups text (PairDependencyGroup name)
| names_arbitrary key text e : validate_and_normalize_ref text = Err e -> names_pair key text (PairArbitrary key text).

Inductive compares : MarkerValue -> MarkerOperator -> MarkerValue -> MarkerExpression -> Prop :=
| compares_version key op o text p sp : In (op, o) version_operators -> parse_pattern (utf8 text) = Ret (Ok p) -> from_pattern o p = Ok sp ->
    compares (MarkerEnvVersion key) op (QuotedString text) (EVersion key sp)
| compares_versions key op o text versions : In (op, o) containers -> version_words versions text ->
    compares (MarkerEnvVersion key) op (QuotedString text) (EVersionIn key versions o)
| compares_version_left key op o text v sp : In (mirrored op, o) version_operators -> version_from_str (utf8 text) = Ret (Ok v) -> from_version o v = Ok sp ->
    compares (QuotedString text) op (MarkerEnvVersion key) (EVersion key sp)
| compares_string key op text : op <> MTildeEqual -> compares (MarkerEnvString key) op (QuotedString text) (EString key op text)
| compares_string_left key op text : op <> MTildeEqual -> compares (QuotedString text) op (MarkerEnvString key) (EString key (mirrored op) text)
| compares_list key op o text p : In (op, o) containers -> names_pair key text p -> compares (QuotedString text) op (MarkerEnvList key) (EList p o)
| compares_extra op o text name : In (op, o) extra_operators -> names_extra text name -> compares Extra op (QuotedString text) (EExtra name o)
| compares_extra_left op o text name : In (op, o) extra_operators -> names_extra text name -> compares (QuotedString text) op Extra (EExtra name o).

Definition comparison_text (e : MarkerExpression) (text : Str) : Prop := exists l op r lt ot rt ws ws',
  value_text l lt /\ op_text op ot /\ value_text r rt /\ space ws /\ space ws' /\ separated ws lt ot /\ separated ws' rt ot /\
  compares l op r e /\ text = lt ++ ws ++ ot ++ ws' ++ rt.

(** ** Reading a known text *)

(** Before [text], followed by a text that [follow] admits, the reader returns [a]
    and stops behind [text]. *)
Definition gets {A} (m : Lex A) (text : Str) (a : A) (follow : Str -> Prop) : Prop := forall c w before rest,
  at_rest c before (text ++ rest) -> follow rest ->
  exists c' w', m (mkScan c w) = Ret (Ok a, mkScan c' w') /\ at_rest c' (before ++ text) rest.

Lemma gets_try {A B} (m : Lex A) (k : A -> Lex B) text text' a b (F G : Str -> Prop) : gets m text a F -> gets (k a) text' b G ->
  (forall rest, G rest -> F (text' ++ rest)) -> gets (try m k) (text ++ text') b G.
Proof.
  intros Hm Hk HF c w before rest Hc HG. rewrite <- app_assoc in Hc. destruct (Hm c w before _ Hc (HF _ HG)) as (c1 & w1 & E1 & Hc1).
  destruct (Hk c1 w1 _ _ Hc1 HG) as (c2 & w2 & E2 & Hc2). exists c2, w2. rewrite app_assoc. split; [|done].
  unfold try, mseq. by rewrite E1.
Qed.

(** A text that does not start with white space. *)
Definition solid (text : Str) : Prop := match text with c :: _ => is_whitespace c = false | [] => False end.

Lemma solid_app text rest : solid text -> solid (text ++ rest).
Proof. by destruct text. Qed.

Lemma solid_stops text rest : solid text -> stops is_whitespace (text ++ rest).
Proof. by destruct text. Qed.

Lemma eat_space c before ws rest : at_rest c before (ws ++ rest) -> space ws -> stops is_whitespace rest ->
  exists c', eat_whitespace c = c' /\ at_rest c' (before ++ ws) rest.
Proof.
  intros Hc Hw Hs. destruct (eat_whitespace_at Hc) as (c' & E & Hc'). exists c'. split; [done|].
  by rewrite take_while_app, drop_while_app in Hc' by done.
Qed.

Lemma gets_space {A} (k : unit -> Lex A) ws text a F : space ws -> solid text -> gets (k tt) text a F ->
  gets (mseq skip_space k) (ws ++ text) a F.
Proof.
  intros Hw Ht Hk c w before rest Hc HF. rewrite <- app_assoc in Hc.
  destruct (eat_space c before ws (text ++ rest) Hc Hw (solid_stops _ _ Ht)) as (c1 & E1 & Hc1).
  destruct (Hk c1 w _ _ Hc1 HF) as (c2 & w2 & E2 & Hc2). exists c2, w2. rewrite app_assoc. split; [|done].
  unfold skip_space. by rewrite (seq_with c c1 w _ _ tt) by (by rewrite E1).
Qed.

Lemma gets_read {A B} (f : Cursor -> B) (k : B -> Lex A) text a F : (forall b, gets (k b) text a F) -> gets (mseq (read_cursor f) k) text a F.
Proof. intros Hk c w before rest Hc HF. rewrite seq_read. by apply Hk with (before := before). Qed.

Lemma gets_weaken {A} (m : Lex A) text a (F G : Str -> Prop) : gets m text a F -> (forall rest, G rest -> F rest) -> gets m text a G.
Proof. intros Hm HF c w before rest Hc HG. apply Hm; [done|by apply HF]. Qed.

Section known_text.
Context `{AlphabeticLaws}.

(** *** Values *)

Lemma gets_quoted q s : q = 39 \/ q = 34 -> Forall (fun c => c <> q) s -> gets parse_marker_value (q :: s ++ [q]) (QuotedString s) (fun _ => True).
Proof.
  intros Hq Hs c w before rest Hc _. cbn [app] in Hc. rewrite <- !app_assoc in Hc. cbn [app] in Hc.
  destruct (next_at _ _ _ _ Hc) as (c1 & E1 & Hc1). destruct (take_while_at Hc1 (fun c => negb (c =? q))) as (c2 & E2 & Hc2 & Es).
  assert (Et : take_while (fun c => negb (c =? q)) (s ++ q :: rest) = s /\ drop_while (fun c => negb (c =? q)) (s ++ q :: rest) = q :: rest).
  { assert (Forall (fun c => negb (c =? q) = true) s) by (eapply Forall_impl; [exact Hs|]; cbn; lia).
    assert (stops (fun c => negb (c =? q)) (q :: rest)) by (cbn; by rewrite Z.eqb_refl). by rewrite take_while_app, drop_while_app. }
  destruct Et as [Et Ed]. rewrite Et in *. rewrite Ed in Hc2.
  destruct (expect_at c2 _ _ q (str_len before) Hc2) as [(rest' & c3 & [= <-] & E3 & Hc3)|(e & c3 & E3 & _)].
  - exists c3, w. split; [|rewrite <- !app_assoc in Hc3; exact Hc3].
    unfold parse_marker_value, peek. rewrite seq_read, (peek_char_at _ _ _ Hc). cbn [head option_map].
    assert (Ep : cursor_pos c = str_len before) by apply Hc. rewrite Ep.
    assert (is_quote q = true) as -> by (by destruct Hq as [-> | ->]). cbn iota. rewrite (seq_with c c1 w _ _ _ E1). rewrite (seq_with c1 c2 w _ _ _ E2).
    cbn [fst snd]. rewrite (seq_slice c2 w _ _ _ _ Es). by rewrite (try_with c2 c3 w _ _ _ E3).
  - exfalso. unfold next_expect_char in E3. destruct (next_at _ _ _ _ Hc2) as (c4 & En & _). rewrite En, Z.eqb_refl in E3. done.
Qed.

Definition key_text (key : Str) (v : MarkerValue) : Prop :=
  marker_value_from_str key = Ok v /\ Forall (fun c => is_key_char c = true) key /\ is_quote (hd 34 key) = false /\ solid key.

Lemma key_names_text name v : In (name, v) key_names -> key_text (bs name) v.
Proof.
  assert (Hall : Forall (fun p => key_text (bs p.1) p.2) key_names).
  { unfold key_names. repeat constructor. }
  intros Hn. exact (proj1 (List.Forall_forall _ _) Hall _ Hn).
Qed.

Lemma gets_key key v : key_text key v -> gets parse_marker_value key v (stops is_key_char).
Proof.
  intros (Ev & Hk & Hq & Hs) c w before rest Hc Hr. destruct (take_while_at Hc is_key_char) as (c1 & E1 & Hc1 & Es).
  rewrite take_while_app in * by done. rewrite drop_while_app in Hc1 by done. exists c1, (if is_deprecated v then w ++ [DeprecatedMarkerName] else w). split; [|done].
  unfold parse_marker_value, peek. rewrite seq_read, (peek_char_at _ _ _ Hc). destruct key as [|x key]; [done|]. cbn [head option_map app].
  cbn [hd] in Hq. rewrite Hq. rewrite (seq_with c c1 w _ _ _ E1). cbn [fst snd]. rewrite (seq_slice c1 w _ _ _ _ Es), Ev.
  by destruct (is_deprecated v).
Qed.

(** A value is read up to its closing quote, a name up to the end of its characters. *)
Definition ends_value (text rest : Str) : Prop := is_quote (hd 0 text) = true \/ stops is_key_char rest.

Lemma gets_value v text : value_text v text -> gets parse_marker_value text v (ends_value text).
Proof.
  intros [q s Hq Hs|name k Hn].
  - eapply gets_weaken; [by apply gets_quoted|done].
  - pose proof (key_names_text _ _ Hn) as Hk. eapply gets_weaken; [by apply gets_key|]. intros rest [Hq|]; [|done].
    destruct Hk as (_ & _ & Hf & Hs). destruct (bs name); [done|]. cbn in Hq, Hf. congruence.
Qed.

Lemma value_head v text : value_text v text -> solid text /\ hd 40 text <> 40 /\ (is_quote (hd 0 text) = false -> stops is_operator_char text).
Proof.
  intros [q s Hq _|name k Hn].
  - by destruct Hq as [-> | ->].
  - assert (Hall : Forall (fun p => solid (bs p.1) /\ hd 40 (bs p.1) <> 40 /\ (is_quote (hd 0 (bs p.1)) = false -> stops is_operator_char (bs p.1))) key_names)
      by (unfold key_names; repeat constructor; done).
    exact (proj1 (List.Forall_forall _ _) Hall _ Hn).
Qed.

(** *** Operators *)

Definition operator_class (c : Z) : Z -> bool := if is_alphabetic c then is_word_char else is_operator_char.

Lemma symbol_class x : is_operator_char x = true -> operator_class x = is_operator_char.
Proof.
  intros Hx. unfold operator_class. rewrite alphabetic_ascii; unfold is_operator_char, is_ascii_alphabetic, is_ascii_upper, is_ascii_lower in *; [|lia].
  by destruct ((65 <=? x) && (x <=? 90) || (97 <=? x) && (x <=? 122)) eqn:E; [lia|].
Qed.

Lemma word_class x : is_ascii_lower x = true -> operator_class x = is_word_char.
Proof. intros Hx. unfold operator_class. rewrite alphabetic_ascii by (unfold is_ascii_lower in Hx; lia). unfold is_ascii_alphabetic. by rewrite Hx, orb_true_r. Qed.

(** The word of an operator, and what the parser does with it. *)
Lemma operator_word c w before x word rest : at_rest c before (x :: word ++ rest) -> Forall (fun y => operator_class x y = true) (x :: word) ->
  stops (operator_class x) rest -> exists c', at_rest c' (before ++ x :: word) rest /\
    forall op, bytes_eqb (x :: word) (bs "not") = false -> marker_op_from_str (x :: word) = Ok op ->
      parse_marker_operator (mkScan c w) = Ret (Ok op, mkScan c' w).
Proof.
  intros Hc Hw Hs. destruct (take_while_at Hc (operator_class x)) as (c1 & E1 & Hc1 & Es).
  change (x :: word ++ rest) with ((x :: word) ++ rest) in *. rewrite take_while_app in * by done. rewrite drop_while_app in Hc1 by done.
  exists c1. split; [done|]. intros op Hn Ho. unfold parse_marker_operator. rewrite seq_read, (peek_char_at _ _ _ Hc). cbn [head app].
  fold (operator_class x). rewrite (seq_with c c1 w _ _ _ E1). cbn [fst snd]. rewrite (seq_slice c1 w _ _ _ _ Es). by rewrite Hn, Ho.
Qed.

Lemma gets_word x word op : Forall (fun y => operator_class x y = true) (x :: word) -> bytes_eqb (x :: word) (bs "not") = false ->
  marker_op_from_str (x :: word) = Ok op -> gets parse_marker_operator (x :: word) op (stops (operator_class x)).
Proof.
  intros Hw Hn Ho c w before rest Hc Hr. destruct (operator_word c w before x word rest Hc Hw Hr) as (c' & Hc' & E).
  exists c', w. split; [by apply E|done].
Qed.

Lemma gets_not_in ws : space ws -> ws <> [] -> gets parse_marker_operator (bs "not" ++ ws ++ bs "in") MNotIn (fun _ => True).
Proof.
  intros Hws Hne c w before rest Hc _. destruct Hws as [|x ws Hx Hws]; [done|]. rewrite <- !app_assoc in Hc. change (bs "in") with [105; 110] in *. cbn [app] in Hc.
  destruct (take_while_at Hc is_word_char) as (c1 & E1 & Hc1 & Es).
  assert (Hst : stops is_word_char (x :: ws ++ 105 :: 110 :: rest)) by (cbn; unfold is_word_char; by rewrite Hx).
  change (bs "not" ++ x :: ?r) with ([110; 111; 116] ++ x :: r) in *. rewrite take_while_app in * by (done || by repeat constructor).
  rewrite drop_while_app in Hc1 by (done || by repeat constructor).
  destruct (next_at _ _ _ _ Hc1) as (c2 & E2 & Hc2). destruct (eat_space c2 _ ws _ Hc2) as (c3 & E3 & Hc3); [done..|].
  destruct (next_at _ _ _ _ Hc3) as (c4 & E4 & Hc4). destruct (next_at _ _ _ _ Hc4) as (c5 & E5 & Hc5).
  exists c5, w. split; [|by rewrite <- !app_assoc in Hc5].
  unfold parse_marker_operator. rewrite seq_read, (peek_char_at _ _ _ Hc). cbn [head app]. fold (operator_class 110). rewrite word_class by done.
  rewrite (seq_with c c1 w _ _ _ E1). cbn [fst snd]. rewrite (seq_slice c1 w _ _ _ _ Es). change (bytes_eqb [110; 111; 116] (bs "not")) with true. cbn iota.
  rewrite (seq_with c1 c2 w _ _ _ E2). rewrite Hx. rewrite (seq_with c2 c3 w _ _ tt) by (by rewrite E3).
  rewrite seq_read. rewrite (try_with c3 c4 w _ _ (Ok tt)) by (unfold next_expect_char; by rewrite E4). rewrite seq_read.
  by rewrite (try_with c4 c5 w _ _ (Ok tt)) by (unfold next_expect_char; by rewrite E5).
Qed.

(** An operator is read as long as its kind of characters goes on. *)
Definition ends_operator (text rest : Str) : Prop := if is_operator_char (hd 0 text) then stops is_operator_char rest else stops is_word_char rest.

Lemma gets_operator op text : op_text op text -> gets parse_marker_operator text op (ends_operator text).
Proof.
  intros [name op' Hn| |ws Hws Hne].
  - assert (Hall : Forall (fun p => exists x word, bs p.1 = x :: word /\ Forall (fun y => is_operator_char y = true) (x :: word) /\
      bytes_eqb (x :: word) (bs "not") = false /\ marker_op_from_str (x :: word) = Ok p.2) symbols).
    { unfold symbols. repeat constructor; (eexists _, _; split; [reflexivity|]; by split; [repeat constructor|]). }
    destruct (proj1 (List.Forall_forall _ _) Hall _ Hn) as (x & word & Ex & Hw & Hnot & Ho). cbn [fst snd] in *. rewrite Ex.
    pose proof (Forall_inv Hw) as Hx. unfold ends_operator. cbn [hd]. rewrite Hx, <- (symbol_class x Hx). apply gets_word; [by rewrite symbol_class|done..].
  - unfold ends_operator. change (is_operator_char (hd 0 (bs "in"))) with false. cbn iota. rewrite <- (word_class 105) by done.
    apply (gets_word 105 [110]); [rewrite word_class by done; by repeat constructor|done|done].
  - eapply gets_weaken; [by apply gets_not_in|done].
Qed.

Lemma op_head op text : op_text op text -> solid text /\ (is_operator_char (hd 0 text) = true -> stops is_key_char text).
Proof.
  intros [name op' Hn| |ws Hws Hne]; [|done|done].
  assert (Hall : Forall (fun p => solid (bs p.1) /\ (is_operator_char (hd 0 (bs p.1)) = true -> stops is_key_char (bs p.1))) symbols)
    by (unfold symbols; repeat constructor; done).
  exact (proj1 (List.Forall_forall _ _) Hall _ Hn).
Qed.

(** *** The two sides of a comparison are told apart *)

Lemma space_key ws rest : space ws -> ws <> [] -> stops is_key_char (ws ++ rest) /\ stops is_operator_char (ws ++ rest) /\ stops is_word_char (ws ++ rest).
Proof.
  intros Hw Hne. destruct Hw as [|x ws Hx]; [done|]. cbn. unfold is_key_char, is_word_char. rewrite Hx. split; [done|]. split; [|done].
  unfold is_whitespace, is_operator_char in *. lia.
Qed.

Lemma stops_app {A} (p : A -> bool) l l' : l <> [] -> stops p l -> stops p (l ++ l').
Proof. by destruct l. Qed.

Lemma separated_value ws lt ot rest op : space ws -> op_text op ot -> separated ws lt ot -> ends_value lt (ws ++ ot ++ rest).
Proof.
  intros Hws Ho Hs. destruct (decide (ws = [])) as [->|Hne]; [|right; by apply space_key]. destruct (op_head _ _ Ho) as [Hsolid Hk].
  destruct Hs as [|[Hs|Hs]]; [done| |by left]. right. cbn [app]. apply stops_app; [by destruct ot|by apply Hk].
Qed.

Lemma separated_operator ws ot rt v rest : space ws -> value_text v rt -> separated ws rt ot -> ends_operator ot (ws ++ rt ++ rest).
Proof.
  intros Hws Hv Hs. unfold ends_operator. destruct (decide (ws = [])) as [->|Hne].
  2: { destruct (space_key ws (rt ++ rest) Hws Hne) as (_ & ? & ?). by destruct (is_operator_char _). }
  destruct (value_head _ _ Hv) as (Hsolid & _ & Hk). assert (Hrt : rt <> []) by (by destruct rt).
  assert (Hq : is_quote (hd 0 rt) = true -> stops is_operator_char rt /\ stops is_word_char rt).
  { destruct rt as [|x rt]; [done|]. cbn. unfold is_quote, is_operator_char, is_word_char. lia. }
  cbn [app]. destruct Hs as [|[Hs|Hs]]; [done| |destruct (Hq Hs); destruct (is_operator_char _); by apply stops_app].
  rewrite Hs. apply stops_app; [done|]. destruct (is_quote (hd 0 rt)) eqn:E; [by apply Hq|by apply Hk].
Qed.

(** *** Comparisons *)

Lemma version_words_read vs rest : version_words vs rest -> forall fuel c before acc, at_rest c before rest -> (length rest < fuel)%nat ->
  version_list fuel c acc = Ret (Some (acc ++ vs)).
Proof.
  induction 1 as [ws Hws|ws t v vs rest Hws Hne Ht Hv Hst Hrest IH]; intros fuel c before acc Hc Hf; (destruct fuel as [|fuel]; [lia|]); cbn [version_list];
    change (fun c : Z => negb (is_whitespace c)) with nonspace.
  - rewrite <- (app_nil_r ws) in Hc. destruct (eat_space c before ws [] Hc Hws) as (c1 & -> & Hc1); [done|]. destruct (take_while_at Hc1 nonspace) as (c2 & -> & _).
    cbn. by rewrite app_nil_r.
  - destruct t as [|x t]; [done|]. pose proof (Forall_inv Ht) as Hx. assert (Hsp : solid (x :: t)) by (by apply negb_true_iff).
    destruct (eat_space c before ws _ Hc Hws (solid_stops _ _ Hsp)) as (c1 & -> & Hc1).
    destruct (take_while_at Hc1 nonspace) as (c2 & -> & Hc2 & Es). cbn [fst snd].
    rewrite take_while_app in Es, Hc2 |- * by done. rewrite drop_while_app in Hc2 by done.
    assert (Hl : Nat.eqb (str_len (x :: t)) 0 = false).
    { apply Nat.eqb_neq. pose proof (str_len_ge (x :: t)) as Hl. cbn [length] in Hl. lia. }
    rewrite Hl, Es. cbn [obind]. rewrite Hv. cbn [obind].
    rewrite (IH fuel c2 _ (acc ++ [v]) Hc2) by (rewrite !length_app in Hf; cbn [length] in Hf; lia). by rewrite <- app_assoc.
Qed.

Lemma in_versions op o : In (op, o) version_operators -> to_pep440_operator op = Some o /\ container_op_from_marker_operator op = None.
Proof. intros Hin. unfold version_operators in Hin. cbn in Hin. repeat (destruct Hin as [[= <- <-]|Hin]; [done|]). done. Qed.

Lemma in_containers op o : In (op, o) containers -> container_op_from_marker_operator op = Some o.
Proof. intros Hin. unfold containers in Hin. cbn in Hin. repeat (destruct Hin as [[= <- <-]|Hin]; [done|]). done. Qed.

Lemma in_extras op o : In (op, o) extra_operators -> extra_op_from_marker_operator op = Some o.
Proof. intros Hin. unfold extra_operators in Hin. cbn in Hin. repeat (destruct Hin as [[= <- <-]|Hin]; [done|]). done. Qed.

Lemma parse_extra op o text name : In (op, o) extra_operators -> names_extra text name ->
  forall st, exists w', parse_extra_expr op text st = Ret (Some (EExtra name o), mkScan (scan_cursor st) w').
Proof.
  intros Ho%in_extras Hn [c w]. unfold parse_extra_expr. destruct Hn as [text name Ev|text err Ev]; rewrite Ev, Ho; by eexists.
Qed.

(** The parser converts a comparison to its meaning. *)
Lemma compares_converts l op r e ot : op_text op ot -> compares l op r e ->
  forall start len c w, exists w', convert_comparison l op r start len (mkScan c w) = Ret (Ok (Some e), mkScan c w').
Proof.
  intros Hop Hc start len c w.
  assert (Hnc : op <> MContains /\ op <> MNotContains).
  { destruct Hop as [name op' Hn| |]; [|done|done]. unfold symbols in Hn. cbn in Hn. repeat (destruct Hn as [[= <- <-]|Hn]; [done|]). done. }
  destruct Hc as [key op o text p sp Ho Ep Es|key op o text versions Ho Hv|key op o text v sp Ho Ev Es|key op text Ho|key op text Ho
    |key op o text p Ho Hp|op o text name Ho Hn|op o text name Ho Hn]; unfold convert_comparison.
  - destruct (in_versions _ _ Ho) as [Eo Ec]. exists w. unfold parse_version_in_expr, parse_version_expr. rewrite Ec.
    unfold mseq, mpure, mlift. rewrite Ep. cbn [outcome_map]. by rewrite Eo, Es.
  - pose proof (in_containers _ _ Ho) as Ec. exists w. unfold parse_version_in_expr. rewrite Ec. unfold mseq, mlift.
    by rewrite (version_words_read versions text Hv _ _ [] [] (cursor_new_at _)) by lia.
  - destruct (in_versions _ _ Ho) as [Eo _]. exists w. unfold parse_inverted_version_expr. unfold mseq, mlift. rewrite Ev. cbn [outcome_map].
    assert (marker_op_invert op = mirrored op) as -> by (by destruct op; destruct Hnc). by rewrite Eo, Es.
  - exists w. by destruct op.
  - exists w. by destruct op; destruct Hnc.
  - rewrite (in_containers _ _ Ho). unfold parse_list_pair. destruct Hp as [text name Ev|text name Ev|key text err Ev]; rewrite Ev; by eexists.
  - destruct (parse_extra _ _ _ _ Ho Hn (mkScan c w)) as (w' & E). exists w'. unfold mseq. by rewrite E.
  - destruct (parse_extra _ _ _ _ Ho Hn (mkScan c w)) as (w' & E). exists w'. unfold mseq. by rewrite E.
Qed.

(** What follows a comparison: the end, white space or a closing parenthesis. *)
Definition boundary (rest : Str) : Prop := match rest with [] => True | c :: _ => is_whitespace c = true \/ c = 41 end.

Lemma boundary_key rest : boundary rest -> stops is_key_char rest.
Proof. destruct rest as [|c rest]; [done|]. intros [Hc| ->]; [|done]. cbn. unfold is_key_char. by rewrite Hc. Qed.

(** Every comparison is read as what it means. *)
Lemma gets_comparison e text ws : space ws -> comparison_text e text -> gets parse_marker_key_op_value (ws ++ text) (Some e) boundary.
Proof.
  intros Hws (l & op & r & lt & ot & rt & ws1 & ws2 & Hl & Ho & Hr & Hw1 & Hw2 & Hs1 & Hs2 & Hc & ->). unfold parse_marker_key_op_value.
  destruct (value_head _ _ Hl) as (Sl & _ & _). destruct (value_head _ _ Hr) as (Sr & _ & _). destruct (op_head _ _ Ho) as (So & _).
  apply gets_space; [done|by apply solid_app|]. apply gets_read. intros start.
  eapply gets_try; [by apply gets_value| |intros rest _; rewrite <- !app_assoc; by eapply separated_value].
  apply gets_space; [done|by apply solid_app|].
  eapply gets_try; [by apply gets_operator| |intros rest _; rewrite <- !app_assoc; by eapply separated_operator].
  apply gets_space; [done|done|]. rewrite <- (app_nil_r rt).
  eapply gets_try; [by apply gets_value| |intros rest Hb; right; by apply boundary_key].
  apply gets_read. intros pos c w before rest Hc' _.
  destruct (compares_converts _ _ _ _ _ Ho Hc start (pos - start)%nat c w) as (w' & E). exists c, w'. rewrite app_nil_r. by split.
Qed.

(** A comparison starts neither with white space nor with a parenthesis. *)
Lemma comparison_head e text : comparison_text e text -> exists x rest, text = x :: rest /\ is_whitespace x = false /\ x <> 40.
Proof.
  intros (l & op & r & lt & ot & rt & ws1 & ws2 & Hl & _ & _ & _ & _ & _ & _ & _ & ->). destruct (value_head _ _ Hl) as (Hs & H40 & _).
  destruct lt as [|x lt]; [done|]. by exists x, (lt ++ ws1 ++ ot ++ ws2 ++ rt).
Qed.
End known_text.

(** ** The printed form of an expression *)

Definition unquoted (s : Str) : Prop := Forall (fun c => c <> 39) s.

Definition deprecated_key (k : MarkerValueString) : bool := is_deprecated (MarkerEnvString k).

(** Expressions that their printed form determines: versions as the parser returns
    them, texts without the quote they are printed in, normalised names, and keys
    by their current names. *)
Definition expr_text_ok (e : MarkerExpression) : Prop :=
  match e with
  | EVersion _ sp => spec_parsed sp /\ operator sp <> ExactEqual
  | EVersionIn _ versions _ => Forall parsed versions
  | EString key op value => op <> MTildeEqual /\ unquoted value /\ deprecated_key key = false
  | EList (PairExtras name) _ | EList (PairDependencyGroup name) _ | EExtra (ExtraNameValue name) _ => normal_name name = true
  | EList (PairArbitrary _ value) _ | EExtra (ArbitraryExtra value) _ => unquoted value /\ exists e, validate_and_normalize_ref value = Err e
  end.

Lemma unquoted_version v : parsed v -> unquoted (version_display v) /\ Forall (fun c => nonspace c = true) (version_display v).
Proof.
  intros [Hv _]. pose proof (version_display_chars v Hv) as Hb. split; (eapply Forall_impl; [exact Hb|]); intros c;
    unfold version_byte, is_ascii_alphanumeric, is_ascii_digit, is_ascii_upper, is_ascii_lower, nonspace, is_whitespace; cbn; lia.
Qed.

Lemma unquoted_name n : normal_name n = true -> unquoted n.
Proof.
  intros Hn%normal_run_chars. eapply Forall_impl; [exact Hn|]. intros c. unfold is_ascii_lower, is_ascii_digit. cbn. lia.
Qed.

Lemma unquoted_version_text sp : spec_parsed sp -> unquoted (version_text sp).
Proof.
  intros [Hp _]. unfold version_text, unquoted. apply Forall_app. split; [apply unquoted_version, Hp|]. destruct (is_star _); by repeat constructor.
Qed.

Lemma unquoted_versions versions : Forall parsed versions -> unquoted (format_sep (bs " ") (map version_display versions)).
Proof.
  induction 1 as [|v versions Hv Hvs IH]; [constructor|]. pose proof (proj1 (unquoted_version v Hv)) as Hu. destruct versions as [|v' versions]; [done|].
  apply Forall_app. split; [done|]. apply Forall_app. split; [by repeat constructor|done].
Qed.

Lemma display_words versions : Forall parsed versions -> forall ws, space ws -> version_words versions (ws ++ format_sep (bs " ") (map version_display versions)).
Proof.
  induction 1 as [|v versions Hv Hvs IH]; intros ws Hws; [cbn; rewrite app_nil_r; by constructor|].
  assert (exists ws', space ws' /\ stops nonspace (ws' ++ format_sep (bs " ") (map version_display versions)) /\
    format_sep (bs " ") (map version_display (v :: versions)) = version_display v ++ ws' ++ format_sep (bs " ") (map version_display versions))
    as (ws' & Hws' & Hst & ->).
  { destruct versions as [|v' versions]; [exists []; split; [constructor|]; split; [done|]; cbn; by rewrite app_nil_r|]. exists [32]. split; [by repeat constructor|done]. }
  constructor; [done| |by apply unquoted_version| |done|by apply IH].
  - destruct (version_display_head v (proj1 Hv)) as (d & r & -> & _). done.
  - unfold version_from_str. rewrite utf8_text by (by apply version_display_bytes, Hv). by rewrite parse_pattern_display.
Qed.

(** The text of an operator, between the spaces it is printed with. *)
Lemma display_sides l op r e lt rt : value_text l lt -> value_text r rt -> op <> MContains -> op <> MNotContains -> compares l op r e ->
  comparison_text e (lt ++ bs " " ++ marker_op_display op ++ bs " " ++ rt).
Proof.
  intros Hl Hr H1 H2 Hc. exists l, op, r, lt, (marker_op_display op), rt, (bs " "), (bs " ").
  assert (Hsp : space (bs " ")) by (by repeat constructor). repeat (split; [done|]). split; [|by repeat (split; [done || by left|])].
  destruct op; try done; try (match goal with |- op_text ?o _ => apply (op_symbol _ o); unfold symbols; cbn; tauto end).
  - apply op_in.
  - by apply (op_not_in (bs " ")).
Qed.

Lemma quoted_text s : unquoted s -> value_text (QuotedString s) (quoted s).
Proof. intros Hs. apply (value_quoted 39); auto. Qed.

Lemma version_key_text key : value_text (MarkerEnvVersion key) (marker_value_version_display key).
Proof. destruct key; (apply value_key; unfold key_names; cbn; tauto). Qed.

Lemma string_key_text key : deprecated_key key = false -> value_text (MarkerEnvString key) (marker_value_string_display key).
Proof. destruct key; try done; intros _; (apply value_key; unfold key_names; cbn; tauto). Qed.

Lemma list_key_text key : value_text (MarkerEnvList key) (marker_value_list_display key).
Proof. destruct key; (apply value_key; unfold key_names; cbn; tauto). Qed.

Lemma extra_key_text : value_text Extra (bs "extra").
Proof. apply value_key. unfold key_names. cbn. tauto. Qed.

Definition marker_operator_of (o : Operator) : MarkerOperator :=
  match o with
  | Equal | EqualStar | ExactEqual => MEqual
  | NotEqual | NotEqualStar => MNotEqual
  | TildeEqual => MTildeEqual
  | LessThan => MLessThan
  | LessThanEqual => MLessEqual
  | GreaterThan => MGreaterThan
  | GreaterThanEqual => MGreaterEqual
  end.

Lemma marker_operator_of_spec o : o <> ExactEqual ->
  as_str o = marker_op_display (marker_operator_of o) /\ In (marker_operator_of o, base_operator o) version_operators /\
  marker_operator_of o <> MContains /\ marker_operator_of o <> MNotContains.
Proof. intros Ho. unfold version_operators. destruct o; try done; (split; [done|]; split; [cbn; tauto|done]). Qed.

Lemma container_display op : exists m, container_op_display op = marker_op_display m /\ In (m, op) containers /\ m <> MContains /\ m <> MNotContains.
Proof. unfold containers. destruct op; [exists MIn|exists MNotIn]; (split; [done|]; split; [cbn; tauto|done]). Qed.

Lemma display_version key sp : spec_parsed sp -> operator sp <> ExactEqual -> comparison_text (EVersion key sp) (expression_display (EVersion key sp)).
Proof.
  intros Hp Hx. destruct (marker_operator_of_spec (operator sp) Hx) as (Es & Ho & H1 & H2).
  assert (Ed : expression_display (EVersion key sp) = marker_value_version_display key ++ bs " " ++ marker_op_display (marker_operator_of (operator sp)) ++ bs " " ++ quoted (version_text sp)).
  { cbn [expression_display]. rewrite Es. do 4 f_equal. unfold version_text. destruct (operator sp); cbn [is_star]; by rewrite ?app_nil_r. }
  rewrite Ed. eapply display_sides; [apply version_key_text|by apply quoted_text, unquoted_version_text|done|done|].
  eapply compares_version; [done|by apply version_text_pattern|by apply from_pattern_base].
Qed.

Lemma display_string key op value : op <> MTildeEqual -> unquoted value -> deprecated_key key = false ->
  comparison_text (EString key op value) (expression_display (EString key op value)).
Proof.
  intros Ho Hq Hk. pose proof (quoted_text _ Hq) as Hv. pose proof (string_key_text _ Hk) as Ht.
  assert (Hleft : op <> MContains -> op <> MNotContains ->
    comparison_text (EString key op value) (marker_value_string_display key ++ bs " " ++ marker_op_display op ++ bs " " ++ quoted value)).
  { intros H1 H2. eapply display_sides; [done..|by constructor]. }
  assert (Hright : forall o, mirrored o = op -> o = MIn \/ o = MNotIn ->
    comparison_text (EString key op value) (quoted value ++ bs " " ++ marker_op_display o ++ bs " " ++ marker_value_string_display key)).
  { intros o <- Ho'. eapply display_sides; [done|done|by destruct Ho' as [-> | ->]..|]. constructor. by destruct Ho' as [-> | ->]. }
  destruct op; try (by apply Hleft); [apply (Hright MIn)|apply (Hright MNotIn)]; auto.
Qed.

Lemma display_list p op : expr_text_ok (EList p op) -> comparison_text (EList p op) (expression_display (EList p op)).
Proof.
  intros Hp. destruct (container_display op) as (m & Ed & Ho & H1 & H2). cbn [expression_display]. rewrite Ed.
  assert (Hq : unquoted (pair_value p)) by (destruct p; cbn in *; [by apply unquoted_name|by apply unquoted_name|apply Hp]).
  eapply display_sides; [by apply quoted_text|apply list_key_text|done|done|]. apply compares_list; [done|].
  destruct p as [name|name|key value]; cbn [pair_value pair_key expr_text_ok] in *.
  - constructor. by apply validate_normal.
  - constructor. by apply validate_normal.
  - destruct Hp as (_ & err & E). by econstructor.
Qed.

Lemma display_extra name op : expr_text_ok (EExtra name op) -> comparison_text (EExtra name op) (expression_display (EExtra name op)).
Proof.
  intros Hn. assert (exists m, extra_op_display op = marker_op_display m /\ In (m, op) extra_operators /\ m <> MContains /\ m <> MNotContains)
    as (m & Ed & Ho & H1 & H2) by (unfold extra_operators; destruct op; [exists MEqual|exists MNotEqual]; (split; [done|]; split; [cbn; tauto|done])).
  assert (Hq : unquoted (marker_value_extra_display name)) by (destruct name; cbn in *; [by apply unquoted_name|apply Hn]).
  change (expression_display (EExtra name op)) with (bs "extra" ++ bs " " ++ extra_op_display op ++ bs " " ++ quoted (marker_value_extra_display name)).
  rewrite Ed. eapply display_sides; [apply extra_key_text|by apply quoted_text|done|done|]. apply compares_extra; [done|].
  destruct name as [name|value]; cbn [marker_value_extra_display expr_text_ok] in *; [constructor; by apply validate_normal|].
  destruct Hn as (_ & err & E). by econstructor.
Qed.

(** Every comparison is what its printed form says. *)
Lemma display_comparison e : expr_text_ok e -> comparison_text e (expression_display e).
Proof.
  destruct e as [key sp|key versions op|key op value|p op|name op]; intros He.
  - destruct He. by apply display_version.
  - destruct (container_display op) as (m & Ed & Ho & H1 & H2). cbn [expression_display]. rewrite Ed.
    eapply display_sides; [apply version_key_text|by apply quoted_text, unquoted_versions|done|done|]. apply compares_versions; [done|].
    by apply (display_words versions He []); constructor.
  - destruct He as (? & ? & ?). by apply display_string.
  - by apply display_list.
  - by apply display_extra.
Qed.
