(* ===== verification/MarkerText.v ===== *)
(** * The grammar of markers, and their round trip through text

    [or_text] is the grammar of markers: the comparisons of [MarkerComparison]
    connected by [and] and [or] between white space, [and] binding tighter than
    [or], and parentheses nested to any depth.  The parser maps every text of
    the grammar to a marker that evaluates to the formula of the text
    ([grammar_evaluates]).  The text that a marker is printed as is a text of the
    grammar, so that printing a marker and parsing the text gives a marker that
    evaluates alike ([marker_roundtrip]). *)

From Stdlib Require Import ZArith Lia String.
From stdpp Require Import base list gmap relations.
From S2P Require Import Prelude.
From S2P Require Import VersionRepr.
From S2P Require Import VersionOrder.
From S2P Require Import VersionParser.
From S2P Require Import VersionDisplay.
From S2P Require Import VersionRecord.
From S2P Require Import Specifier.
From S2P Require Import SpecifierParser.
From S2P Require Import Normalize.
From S2P Require Import Cursor.
From S2P Require Import RangeSet.
From S2P Require Import Stateful.
From S2P Require Import MarkerEdges.
From S2P Require Import MarkerTypes.
From S2P Require Import RangeInstances.
From S2P Require Import MarkerAlgebra.
From S2P Require Import MarkerStore.
From S2P Require Import MarkerOps.
From S2P Require Import MarkerConj.
From S2P Require Import MarkerTree.
From S2P Require Import MarkerVersion.
From S2P Require Import MarkerExpr.
From S2P Require Import MarkerDnf.
From S2P Require Import MarkerPaths.
From S2P Require Import MarkerTheorems.
From S2P Require Import MarkerParser.
From S2P Require Import MarkerComparison.
Open Scope Z_scope.

(** ** Formulas and their texts *)

Inductive Formula :=
| FExpr (e : MarkerExpression)
| FAnd (f g : Formula)
| FOr (f g : Formula).

(** What the formula says of an environment. *)
Fixpoint formula_meaning (env : MarkerEnvironment) (extras : ExtrasEnvironment) (f : Formula) : bool :=
  match f with
  | FExpr e => expr_meaning env extras e
  | FAnd f g => formula_meaning env extras f && formula_meaning env extras g
  | FOr f g => formula_meaning env extras f || formula_meaning env extras g
  end.

(** Comparisons of platforms are made on [sys_platform] ([expr_holds_meaning]). *)
Fixpoint formula_holds (env : MarkerEnvironment) (extras : ExtrasEnvironment) (f : Formula) : bool :=
  match f with
  | FExpr e => expr_holds env extras e
  | FAnd f g => formula_holds env extras f && formula_holds env extras g
  | FOr f g => formula_holds env extras f || formula_holds env extras g
  end.

(** [text] continues a formula with operators: [acc op f1 op f2 ..]. *)
Inductive chain (op : Str) (connect : Formula -> Formula -> Formula) (inner : Formula -> Str -> Prop) : Formula -> Formula -> Str -> Prop :=
| chain_done acc : chain op connect inner acc acc []
| chain_more acc f g ws ws' text rest : space ws -> ws <> [] -> space ws' -> ws' <> [] -> inner g text ->
    chain op connect inner (connect acc g) f rest ->
    chain op connect inner acc f (ws ++ op ++ ws' ++ text ++ rest).

Definition chained (op : Str) (connect : Formula -> Formula -> Formula) (inner : Formula -> Str -> Prop) (f : Formula) (text : Str) : Prop :=
  exists first t rest, inner first t /\ chain op connect inner first f rest /\ text = t ++ rest.

(** A comparison, or a formula in parentheses. *)
Definition atom_text (parens : Formula -> Str -> Prop) (f : Formula) (text : Str) : Prop :=
  (exists ws e t, space ws /\ expr_ok e = true /\ comparison_text e t /\ f = FExpr e /\ text = ws ++ t) \/
  (exists ws ws' t, space ws /\ space ws' /\ parens f t /\ text = ws ++ bs "(" ++ t ++ ws' ++ bs ")").

Definition and_text (parens : Formula -> Str -> Prop) : Formula -> Str -> Prop := chained (bs "and") FAnd (atom_text parens).

(** Markers with parentheses nested less than [depth] deep. *)
Fixpoint or_text (depth : nat) : Formula -> Str -> Prop :=
  match depth with
  | O => fun _ _ => False
  | S depth => chained (bs "or") FOr (and_text (or_text depth))
  end.

(** The comparisons of a text have a meaning. *)
Fixpoint formula_ok (f : Formula) : Prop :=
  match f with
  | FExpr e => expr_ok e = true
  | FAnd f g | FOr f g => formula_ok f /\ formula_ok g
  end.

Lemma formula_holds_meaning env extras f : platforms_agree env -> formula_ok f -> formula_holds env extras f = formula_meaning env extras f.
Proof.
  intros Hp. induction f as [e|f IHf g IHg|f IHf g IHg]; cbn [formula_ok formula_holds formula_meaning]; [by apply expr_holds_meaning|..];
    intros [Hf Hg]; by rewrite IHf, IHg.
Qed.

Lemma chained_ok op connect (inner : Formula -> Str -> Prop) f text : (forall f g, formula_ok f -> formula_ok g -> formula_ok (connect f g)) ->
  (forall f text, inner f text -> formula_ok f) -> chained op connect inner f text -> formula_ok f.
Proof.
  intros Hc Hi (first & t & rest & Hf%Hi & Hch & _). induction Hch as [|acc f g ws ws' text' rest _ _ _ _ Hg%Hi _ IH]; [done|]. apply IH. by apply Hc.
Qed.

Lemma or_text_ok depth f text : or_text depth f text -> formula_ok f.
Proof.
  revert f text. induction depth as [|depth IH]; intros f text; [done|]. apply chained_ok; [done|]. intros g u. apply chained_ok; [done|].
  intros h v [(ws & e & t & _ & He & _ & -> & _)|(ws & ws' & t & _ & _ & Hh & _)]; [done|by apply (IH h t)].
Qed.

(** ** Formulas are parsed to markers that mean them *)

Lemma try_step {S A B E} (m : M S (result A E)) (k : A -> M S (result B E)) st a st' : m st = Ret (Ok a, st') -> try m k st = k a st'.
Proof. intros Em. unfold try, mseq. by rewrite Em. Qed.

Lemma seq_step {S A B} (m : M S A) (k : A -> M S B) st a st' : m st = Ret (a, st') -> mseq m k st = k a st'.
Proof. intros Em. unfold mseq. by rewrite Em. Qed.

Lemma take_space_app u v : space u -> take_while is_whitespace (u ++ v) = u ++ take_while is_whitespace v /\
  drop_while is_whitespace (u ++ v) = drop_while is_whitespace v.
Proof. induction 1 as [|c u Hc _ [IH1 IH2]]; [done|]. cbn. rewrite Hc, IH1, IH2. done. Qed.

(** The word after white space. *)
Definition next_word (rest : Str) : Str := take_while (fun c => negb (is_whitespace c)) (drop_while is_whitespace rest).

Lemma next_word_app u v : space u -> next_word (u ++ v) = next_word v.
Proof. intros Hu. unfold next_word. by rewrite (proj2 (take_space_app u v Hu)). Qed.

(** An operator between white space. *)
Definition operator_word_text (op : Str) : Prop := op <> [] /\ Forall (fun c => negb (is_whitespace c) = true) op.

Lemma next_word_operator op ws ws' rest : operator_word_text op -> space ws -> space ws' -> ws' <> [] -> next_word (ws ++ op ++ ws' ++ rest) = op.
Proof.
  intros [Hne Ho] Hw Hw' Hn. rewrite next_word_app by done. unfold next_word. destruct op as [|x op]; [done|]. inv Ho.
  assert (Hx : is_whitespace x = false) by (by apply negb_true_iff). rewrite drop_while_id by done.
  rewrite take_while_app; [done|by constructor|]. destruct Hw' as [|y ws' Hy]; [done|]. cbn. by rewrite Hy.
Qed.

Section completeness.
Context {RV RS : Type} `{!RangeSet Version RV} `{!RangeSetLaws Version RV}.
Context `{!RangeSet Str RS} `{!RangeSetLaws Str RS} `{AlphabeticLaws}.

Abbreviation Interner := (InternerOf RV RS).
Implicit Types (s : Interner) (t x y : NodeId) (c : Cursor) (w : list MarkerWarningKind).

(** The marker evaluates as the formula. *)
Definition means s (f : Formula) t : Prop := marker s t /\ forall env extras, env_release env -> possible_env env ->
  evaluate_reporter s env extras t = Ret (formula_holds env extras f).

Lemma means_ext s s' f t : reachable s -> reachable s' -> ext s s' -> means s f t -> means s' f t.
Proof.
  intros Hs Hs' He [Hm Hv]. split; [by eapply marker_ext|]. intros env extras Hr Hp.
  rewrite (evaluate_ext s s') by (done || by apply interner_store, reachable_ok || apply Hp). by apply Hv.
Qed.

Definition connects (apply : NodeId -> NodeId -> M Interner NodeId) (connect : Formula -> Formula -> Formula) : Prop :=
  forall s x y f g, reachable s -> means s f x -> means s g y ->
    exists r s', apply x y s = Ret (r, s') /\ reachable s' /\ ext s s' /\ means s' (connect f g) r.

Lemma combines_means op (apply : NodeId -> NodeId -> M Interner NodeId) connect :
  (forall env extras f g, formula_holds env extras (connect f g) = op (formula_holds env extras f) (formula_holds env extras g)) ->
  (forall s x y, interner_ok s -> marker s x -> marker s y -> runs interner_ok ext (apply x y) s (fun r s' => combines op s' x y r)) ->
  binary apply -> connects apply connect.
Proof.
  intros Hop Hc Hb s x y f g Hs [Mx Hx] [My Hy]. destruct (Hb s x y Hs (proj1 Mx) (proj1 My)) as (r & s' & E & Hs' & He & _).
  destruct (Hc s x y (reachable_ok s Hs) Mx My) as (r' & s'' & E' & _ & _ & Hm & Hv). rewrite E in E'. injection E' as <- <-.
  exists r, s'. split; [done|]. split; [done|]. split; [done|]. split; [done|]. intros env extras Hr Hp.
  destruct (Hv env extras Hp) as (b & b' & E1 & E2 & ->). rewrite Hop. f_equal.
  rewrite (evaluate_ext s s') in E1, E2 by (done || by apply interner_store, reachable_ok || apply Hp).
  rewrite Hx in E1 by done. rewrite Hy in E2 by done. congruence.
Qed.

Lemma and_connects : connects interner_and FAnd.
Proof. apply (combines_means andb); [done|intros; by apply and_combines|apply and_binary]. Qed.

Lemma or_connects : connects interner_or FOr.
Proof. apply (combines_means orb); [done|intros; by apply or_combines|apply or_binary]. Qed.

(** Before [text], the parser returns a marker that means [f], and stops behind
    [text] and some of the white space after it, before a text that [stop] admits;
    [n] bounds the length of what is left to read. *)
Definition understands (n : nat) (m : M (Scan * Interner) (result (option NodeId) Pep508Error)) (text : Str) (f : Formula) (follow stop : Str -> Prop) : Prop :=
  forall c w s before rest, at_rest c before (text ++ rest) -> (length (text ++ rest) <= n)%nat -> follow rest -> reachable s ->
    exists t c' w' s' u v, m (mkScan c w, s) = Ret (Ok (Some t), (mkScan c' w', s')) /\ rest = u ++ v /\ space u /\ stop v /\
      at_rest c' (before ++ text ++ u) v /\ reachable s' /\ ext s s' /\ means s' f t.

(** What may follow a formula of an operator: no further operand. *)
Definition follows (op : Str) (inner : Str -> Prop) (rest : Str) : Prop := inner rest /\ next_word rest <> op.

(** Skipping white space and looking at the next word. *)
Lemma loop_word {A} (k : nat * nat -> Str -> M (Scan * Interner) A) c w s before (u v all : Str) : u ++ v = all -> space u -> at_rest c (before ++ u) v ->
  exists c', at_rest c' (before ++ take_while is_whitespace all) (drop_while is_whitespace all) /\
    mseq (scanning skip_space) (fun _ =>
      let* span := scanning (read_cursor (fun c => peek_while c (fun a : Z => negb (is_whitespace a)))) in
      let* value := scanning (slice_cursor span.1 span.2) in k span value) (mkScan c w, s) =
    k (str_len (before ++ take_while is_whitespace all), str_len (next_word all)) (next_word all) (mkScan c' w, s).
Proof.
  intros <- Hu Hc. destruct (take_space_app u v Hu) as [Et Ed]. rewrite Et, Ed, app_assoc.
  destruct (eat_whitespace_at Hc) as (c' & Ec & Hc'). exists c'. split; [done|].
  rewrite (seq_scanning _ _ (mkScan c w) (mkScan c' w) s tt) by (unfold skip_space, with_cursor; cbn; by rewrite Ec).
  unfold next_word. rewrite Ed. destruct (peek_while_at Hc' (fun a : Z => negb (is_whitespace a))) as [Ep Es].
  rewrite (seq_scanning _ _ (mkScan c' w) (mkScan c' w) s _) by (unfold read_cursor; cbn; by rewrite Ep). cbn [fst snd].
  by rewrite (seq_scanning _ _ (mkScan c' w) (mkScan c' w) s _) by (unfold slice_cursor; cbn; by rewrite Es).
Qed.

Section chains.
Context (n : nat) (op : Str) (apply : NodeId -> NodeId -> M Interner NodeId) (connect : Formula -> Formula -> Formula).
Context (inner_text : Formula -> Str -> Prop) (inner : M (Scan * Interner) (result (option NodeId) Pep508Error)) (F stop : Str -> Prop).
Context (op_word : operator_word_text op) (apply_connects : connects apply connect).
Context (inner_understood : forall g text, inner_text g text -> understands n inner text g F stop).
Context (F_operator : forall ws ws' rest, space ws -> ws <> [] -> space ws' -> ws' <> [] -> F (ws ++ op ++ ws' ++ rest)).
Context (inner_space : forall g text ws, inner_text g text -> space ws -> inner_text g (ws ++ text)).

Lemma chain_follows acc f text rest : chain op connect inner_text acc f text -> F rest -> F (text ++ rest).
Proof. intros [acc'|acc' f' g ws ws' text' rest' H1 H2 H3 H4 _ _] Hr; [done|]. rewrite <- !app_assoc. by apply F_operator. Qed.

Lemma chain_understood acc f text : chain op connect inner_text acc f text ->
  forall fuel c w s before t rest u v, u ++ v = text ++ rest -> space u -> at_rest c (before ++ u) v -> follows op F rest ->
    (length v <= n)%nat -> (length v < fuel)%nat -> reachable s -> means s acc t ->
    exists t' c' w' s', marker_op_loop fuel op apply inner (Some t) (mkScan c w, s) = Ret (Ok (Some t'), (mkScan c' w', s')) /\
      at_rest c' (before ++ text ++ take_while is_whitespace rest) (drop_while is_whitespace rest) /\ reachable s' /\ ext s s' /\ means s' f t'.
Proof.
  intros Hchain. induction Hchain as [acc|acc f g ws ws' text rest0 Hws Hnw Hws' Hnw' Hg Hchain IH];
    intros fuel c w s before t rest u v Euv Hu Hc Hfol Hn Hf Hs Ht; (destruct fuel as [|fuel]; [lia|]); cbn [marker_op_loop].
  - destruct (loop_word (fun span value => if bytes_eqb value op then
        let* _ := scanning (with_cursor (fun c => cursor_take_while c (fun a : Z => negb (is_whitespace a)))) in
        let? operand := inner in let* tree := apply_operand apply (Some t) operand in marker_op_loop fuel op apply inner tree
      else ok (Some t)) c w s before u v rest Euv Hu Hc) as (c1 & Hc1 & ->).
    destruct (bytes_eqb (next_word rest) op) eqn:E; [apply bytes_eqb_eq in E; by destruct Hfol|]. by exists t, c1, w, s.
  - rewrite <- !app_assoc in Euv.
    destruct (loop_word (fun span value => if bytes_eqb value op then
        let* _ := scanning (with_cursor (fun c => cursor_take_while c (fun a : Z => negb (is_whitespace a)))) in
        let? operand := inner in let* tree := apply_operand apply (Some t) operand in marker_op_loop fuel op apply inner tree
      else ok (Some t)) c w s before u v _ Euv Hu Hc) as (c1 & Hc1 & ->).
    rewrite next_word_operator by done. rewrite (proj2 (bytes_eqb_eq op op) eq_refl).
    destruct (take_space_app ws (op ++ ws' ++ text ++ rest0 ++ rest) Hws) as [Et Ed]. rewrite Et, Ed in Hc1.
    destruct op_word as [Hne Ho]. assert (Hst : stops is_whitespace (op ++ ws' ++ text ++ rest0 ++ rest)).
    { destruct op as [|x o]; [done|]. inv Ho. by apply negb_true_iff. }
    rewrite take_while_stops, drop_while_id, app_nil_r in Hc1 by done.
    destruct (take_while_at Hc1 (fun a : Z => negb (is_whitespace a))) as (c2 & E2 & Hc2 & _).
    assert (Hst' : stops (fun a : Z => negb (is_whitespace a)) (ws' ++ text ++ rest0 ++ rest)).
    { destruct Hws' as [|y l Hy]; [done|]. cbn. by rewrite Hy. }
    rewrite take_while_app, drop_while_app in Hc2 by done.
    rewrite (seq_scanning _ _ (mkScan c1 w) (mkScan c2 w) s _) by (unfold with_cursor; cbn; by rewrite E2).
    assert (Hlen : (length (op ++ ws' ++ text ++ rest0 ++ rest) <= length v)%nat).
    { rewrite <- (drop_while_id is_whitespace (op ++ _)) by done. rewrite <- Ed, <- Euv, (proj2 (take_space_app u v Hu)).
      rewrite <- (take_drop_while is_whitespace v) at 2. rewrite length_app. lia. }
    assert (Hop : (1 <= length op)%nat) by (destruct op; [done|cbn; lia]). rewrite !length_app in Hlen.
    rewrite (app_assoc ws' text) in Hc2.
    destruct (inner_understood g (ws' ++ text) (inner_space _ _ _ Hg Hws') c2 w s _ (rest0 ++ rest) Hc2)
      as (t2 & c3 & w3 & s3 & u3 & v3 & E3 & Euv3 & Hu3 & _ & Hc3 & Hs3 & He3 & Ht2);
      [rewrite !length_app; lia|eapply chain_follows; [exact Hchain|apply Hfol]|done|].
    destruct (apply_connects s3 t t2 acc g Hs3) as (r & s4 & E4 & Hs4 & He4 & Hr); [by apply (means_ext s s3)|done|].
    pose proof (f_equal length Euv3) as Hl3. rewrite !length_app in Hl3.
    destruct (IH fuel c3 w3 s4 (((before ++ ws) ++ op) ++ ws' ++ text) r rest u3 v3) as (t' & c' & w' & s' & E & Hc' & Hs' & He' & Ht');
      [by rewrite Euv3|done|by rewrite <- (app_assoc _ _ u3)|done|lia|lia|done|done|].
    exists t', c', w', s'. rewrite <- !app_assoc in Hc' |- *. split; [|split; [done|split; [done|split; [by etrans; [|etrans]|done]]]].
    rewrite (try_step _ _ _ _ _ E3). rewrite (seq_step _ _ _ (Some r) (mkScan c3 w3, s4)); [exact E|].
    cbn [apply_operand]. rewrite (seq_step _ _ _ r (mkScan c3 w3, s4)); [done|]. unfold interning. cbn [fst snd]. by rewrite E4.
Qed.

Lemma parse_marker_op_understood fuel f text : chained op connect inner_text f text -> (n < fuel)%nat ->
  understands n (parse_marker_op fuel op apply inner) text f (follows op F) (stops is_whitespace).
Proof.
  intros (first & t0 & more & Hfirst & Hchain & ->) Hf c w s before rest Hc Hn Hfol Hs. rewrite <- app_assoc in Hc, Hn.
  destruct (inner_understood first t0 Hfirst c w s before (more ++ rest) Hc) as (t & c1 & w1 & s1 & u & v & E1 & Euv & Hu & _ & Hc1 & Hs1 & He1 & Ht);
    [done|eapply chain_follows; [exact Hchain|apply Hfol]|done|].
  pose proof (f_equal length Euv) as Hl. rewrite !length_app in Hl, Hn.
  destruct (chain_understood _ _ _ Hchain fuel c1 w1 s1 (before ++ t0) t rest u v) as (t' & c' & w' & s' & E & Hc' & Hs' & He' & Ht');
    [done|done|by rewrite <- app_assoc|done|lia|lia|done|done|].
  exists t', c', w', s', (take_while is_whitespace rest), (drop_while is_whitespace rest).
  split; [|split; [symmetry; apply take_drop_while|split; [apply take_while_all|split; [apply drop_while_stops|split; [by rewrite <- !app_assoc in Hc' |- *|split; [done|split; [by etrans|done]]]]]]].
  unfold parse_marker_op. rewrite (try_step _ _ _ _ _ E1). by rewrite (seq_step _ _ _ (Some t) (mkScan c1 w1, s1)).
Qed.
End chains.

Lemma chained_space op connect (inner : Formula -> Str -> Prop) f text ws : (forall g text ws, inner g text -> space ws -> inner g (ws ++ text)) ->
  chained op connect inner f text -> space ws -> chained op connect inner f (ws ++ text).
Proof.
  intros Hin (first & t & rest & Hf & Hc & ->) Hw. exists first, (ws ++ t), rest. split; [by apply Hin|]. split; [done|]. by rewrite app_assoc.
Qed.

Lemma atom_space parens f text ws : atom_text parens f text -> space ws -> atom_text parens f (ws ++ text).
Proof.
  intros [(w1 & e & t & H1 & H2 & H3 & H4 & ->)|(w1 & w2 & t & H1 & H2 & H3 & ->)] Hw; [left|right].
  - exists (ws ++ w1), e, t. rewrite <- app_assoc. split; [by apply Forall_app|done].
  - exists (ws ++ w1), w2, t. rewrite <- app_assoc. split; [by apply Forall_app|done].
Qed.

Lemma expression_means s e : reachable s -> expr_ok e = true ->
  exists t s', expression e s = Ret (t, s') /\ reachable s' /\ ext s s' /\ means s' (FExpr e) t.
Proof.
  intros Hs He. destruct (expression_runs s e (reachable_ok s Hs) He) as (t & s' & E & Hs' & Hx & Hm & Hd).
  exists t, s'. split; [done|]. split; [eapply rtc_r; [exact Hs|]; eapply step_expression; [by left|done]|]. split; [done|]. split; [done|].
  intros env extras Hr Hp. rewrite evaluate_marker by (done || by apply interner_store || by apply env_release_ok). by rewrite Hd.
Qed.

Section atoms.
Context (n : nat) (parens : Formula -> Str -> Prop) (parse_or : M (Scan * Interner) (result (option NodeId) Pep508Error)).
Context (parens_understood : forall k, n = S k -> forall f text, parens f text ->
  understands k parse_or text f (follows (bs "or") (follows (bs "and") boundary)) (stops is_whitespace)).

Lemma paren_follows ws rest : space ws -> follows (bs "or") (follows (bs "and") boundary) (ws ++ 41 :: rest).
Proof.
  intros Hw. assert (E : exists l, next_word (ws ++ 41 :: rest) = 41 :: l) by (rewrite next_word_app by done; by eexists).
  destruct E as [l E]. unfold follows. rewrite E. split; [split; [|done]|done]. destruct Hw as [|x l' Hx]; [by right|by left].
Qed.

Lemma atom_understood f text : atom_text parens f text -> understands n (parse_marker_expr parse_or) text f boundary (fun _ => True).
Proof.
  intros [(ws & e & te & Hws & Hok & He & -> & ->)|(ws & ws' & t & Hws & Hws' & Hp & ->)] c w s before rest Hc Hn Hfol Hs; unfold parse_marker_expr.
  - destruct (comparison_head e te He) as (x & l & Ed & Hx & H40). rewrite <- app_assoc in Hc.
    destruct (eat_space c before ws _ Hc Hws) as (c1 & Ec1 & Hc1); [by rewrite Ed|].
    rewrite (seq_scanning _ _ (mkScan c w) (mkScan c1 w) s tt) by (unfold skip_space, with_cursor; cbn; by rewrite Ec1).
    destruct (eat_char_at c1 _ _ 40 Hc1) as [(l' & _ & E & _)|[E40 _]]; [rewrite Ed in E; by injection E|].
    rewrite (seq_scanning _ _ (mkScan c1 w) (mkScan c1 w) s None) by (unfold with_cursor; cbn; by rewrite E40).
    destruct (gets_comparison e te [] ltac:(constructor) He c1 w (before ++ ws) rest Hc1 Hfol) as (c2 & w2 & E2 & Hc2).
    destruct (expression_means s e Hs Hok) as (t & s' & E & Hs' & Hx' & Ht).
    exists t, c2, w2, s', [], rest. rewrite app_nil_r, <- app_assoc in *. split; [|split; [done|split; [constructor|done]]].
    rewrite (try_step _ _ _ (Some e) (mkScan c2 w2, s)) by (unfold scanning; cbn [fst snd]; by rewrite E2).
    by rewrite (seq_step _ _ _ t (mkScan c2 w2, s')) by (unfold interning; cbn [fst snd]; by rewrite E).
  - change (bs "(") with [40] in *. change (bs ")") with [41] in *. rewrite <- !app_assoc in Hc, Hn. cbn [app] in Hc, Hn.
    destruct (eat_space c before ws _ Hc Hws) as (c1 & Ec1 & Hc1); [done|].
    rewrite (seq_scanning _ _ (mkScan c w) (mkScan c1 w) s tt) by (unfold skip_space, with_cursor; cbn; by rewrite Ec1).
    destruct (eat_char_at c1 _ _ 40 Hc1) as [(l & c2 & [= <-] & E40 & Hc2)|[_ []]]; [|done].
    rewrite (seq_scanning _ _ (mkScan c1 w) (mkScan c2 w) s _) by (unfold with_cursor; cbn; by rewrite E40).
    rewrite length_app in Hn. cbn [length] in Hn. destruct n as [|k] eqn:En; [lia|].
    destruct (parens_understood k eq_refl f t Hp c2 w s _ (ws' ++ 41 :: rest) Hc2)
      as (r & c3 & w3 & s3 & u & v & E3 & Euv & Hu & Hv & Hc3 & Hs3 & He3 & Hr); [lia|by apply paren_follows|done|].
    assert (v = 41 :: rest) as ->.
    { rewrite <- (drop_while_id is_whitespace v) by done. rewrite <- (proj2 (take_space_app u v Hu)), <- Euv, (proj2 (take_space_app ws' _ Hws')). done. }
    assert (u = ws') as -> by (by apply app_inv_tail in Euv).
    destruct (next_at _ _ _ _ Hc3) as (c4 & E4 & Hc4).
    exists r, c4, w3, s3, [], rest. split; [|split; [done|split; [constructor|split; [done|split; [|done]]]]].
    + rewrite (try_step _ _ _ _ _ E3). rewrite (try_step _ _ _ tt (mkScan c4 w3, s3)); [done|].
      unfold scanning, with_cursor, next_expect_char. cbn [fst snd scan_cursor warnings]. by rewrite E4.
    + rewrite app_nil_r. by rewrite <- !app_assoc in Hc4.
Qed.
End atoms.

Lemma boundary_space ws rest : space ws -> ws <> [] -> boundary (ws ++ rest).
Proof. intros Hw Hne. destruct Hw as [|x l Hx]; [done|by left]. Qed.

Lemma and_word : operator_word_text (bs "and").
Proof. by split; [|repeat constructor]. Qed.

Lemma or_word : operator_word_text (bs "or").
Proof. by split; [|repeat constructor]. Qed.

Lemma or_understood depth n fuel f text : or_text depth f text -> (S n < fuel)%nat ->
  understands n (parse_marker_or fuel) text f (follows (bs "or") (follows (bs "and") boundary)) (stops is_whitespace).
Proof.
  revert n fuel f text. induction depth as [|depth IH]; intros n fuel f text Ht Hf; [done|]. destruct fuel as [|fuel]; [lia|].
  assert (Hatom : forall g text, atom_text (or_text depth) g text -> understands n (parse_marker_expr (parse_marker_or fuel)) text g boundary (fun _ => True)).
  { intros g u Hg. apply (atom_understood n (or_text depth)); [|done]. intros k -> f' u' Hu'. apply IH; [done|lia]. }
  assert (Hand : forall g text, and_text (or_text depth) g text ->
    understands n (parse_marker_and fuel (parse_marker_or fuel)) text g (follows (bs "and") boundary) (stops is_whitespace)).
  { intros g u Hg. apply (parse_marker_op_understood n (bs "and") interner_and FAnd (atom_text (or_text depth)) _ boundary (fun _ => True));
      [apply and_word|apply and_connects|done|intros; by apply boundary_space|intros; by apply atom_space|done|lia]. }
  apply (parse_marker_op_understood n (bs "or") interner_or FOr (and_text (or_text depth)) _ (follows (bs "and") boundary) (stops is_whitespace));
    [apply or_word|apply or_connects|done| | |done|lia].
  - intros ws ws' rest H1 H2 H3 H4. split; [by apply boundary_space|]. by rewrite next_word_operator by (done || apply or_word).
  - intros g u ws Hg Hw. apply chained_space; [|done|done]. intros. by apply atom_space.
Qed.

Lemma or_space depth f text ws : or_text depth f text -> space ws -> or_text depth f (ws ++ text).
Proof. destruct depth as [|depth]; [done|]. intros Hf Hw. do 2 (apply chained_space; [intros|done|done]). by apply atom_space. Qed.

(** The text of a marker up to the end of the input, for a cursor anywhere in it. *)
Lemma parse_markers_cursor_understood c w s before depth f text ws : at_rest c before (text ++ ws) -> reachable s -> or_text depth f text -> space ws ->
  exists t c' w' s', parse_markers_cursor (mkScan c w, s) = Ret (Ok (Some t), (mkScan c' w', s')) /\ at_rest c' (before ++ text ++ ws) [] /\
    reachable s' /\ ext s s' /\ means s' f t.
Proof.
  intros Hc0 Hs Hf Hw. destruct (or_understood depth (length (text ++ ws)) (parser_fuel (text ++ ws)) f text Hf) with (c := c)
    (w := w) (s := s) (before := before) (rest := ws) as (t & c1 & w1 & s' & u & v & E & Euv & Hu & Hv & Hc & Hs' & He & Ht);
    [unfold parser_fuel; lia|done|lia| |done|].
  { assert (Hn : next_word ws = []) by (rewrite <- (app_nil_r ws) at 1; by rewrite next_word_app).
    unfold follows. rewrite Hn. split; [split; [|done]|done]. destruct Hw as [|x l Hx]; [done|by left]. }
  assert (v = []) as ->.
  { rewrite <- (drop_while_id is_whitespace v) by done. rewrite <- (proj2 (take_space_app u v Hu)), <- Euv. rewrite <- (app_nil_r ws).
    by rewrite (proj2 (take_space_app ws [] Hw)). }
  rewrite app_nil_r in Euv. subst u. destruct (eat_space c1 _ [] [] Hc) as (c2 & E2 & Hc2); [constructor|done|]. rewrite app_nil_r in Hc2.
  exists t, c2, w1, s'. split; [|done]. unfold parse_markers_cursor. pose proof Hc0 as (_ & Er & _).
  rewrite (seq_scanning _ _ (mkScan c w) (mkScan c w) s (text ++ ws)) by (unfold read_cursor; cbn; by rewrite Er).
  rewrite (try_step _ _ _ _ _ E). rewrite (seq_scanning _ _ (mkScan c1 w1) (mkScan c2 w1) s' tt) by (unfold skip_space, with_cursor; cbn; by rewrite E2).
  rewrite (seq_scanning _ _ (mkScan c2 w1) (mkScan c2 w1) s' None) by (unfold with_cursor; cbn; by rewrite (next_at_end _ _ Hc2)). done.
Qed.

Lemma parse_markers_understood s depth f text ws : reachable s -> or_text depth f text -> space ws ->
  exists t w s', parse_markers (text ++ ws) s = Ret ((Ok t, w), s') /\ reachable s' /\ ext s s' /\ means s' f t.
Proof.
  intros Hs Hf Hw. destruct (parse_markers_cursor_understood (cursor_new (text ++ ws)) [] s [] depth f text ws (cursor_new_at _) Hs Hf Hw)
    as (t & c & w & s' & E & _ & Hs' & He & Ht). exists t, w, s'. split; [|done]. unfold parse_markers. by rewrite E.
Qed.

(** C11: every text of the grammar [or_text] is parsed, without an error or a panic,
    to a marker that evaluates to the formula of the text in every possible release
    environment whose platforms agree: [and] binds tighter than [or], parentheses
    group, and white space around operators, comparisons and parentheses does not
    matter.  The comparisons are those of [comparison_text]: a name, current or
    deprecated, and a value in single or double quotes, on either side of the
    operator, where the operator is mirrored when the value is on the left.
    Comparisons that the parser reports and drops, and those whose lowering departs
    from their meaning ([expr_ok]), are not in the grammar. *)
Theorem grammar_evaluates s depth f text ws : reachable s -> or_text depth f text -> space ws ->
  exists t w s', parse_markers (text ++ ws) s = Ret ((Ok t, w), s') /\ reachable s' /\ ext s s' /\ marker s' t /\
    forall env extras, env_release env -> possible_env env -> platforms_agree env ->
      evaluate_reporter s' env extras t = Ret (formula_meaning env extras f).
Proof.
  intros Hs Hf Hw. destruct (parse_markers_understood s depth f text ws Hs Hf Hw) as (t & w & s' & E & Hs' & He & Hm & Ht). exists t, w, s'.
  split; [done|]. split; [done|]. split; [done|]. split; [done|]. intros env extras Hr Hp Ha.
  rewrite Ht by done. by rewrite formula_holds_meaning by (done || by eapply or_text_ok).
Qed.
End completeness.
