(* ===== verification/MarkerRoundtrip.v ===== *)
(** * Printing a marker and parsing its text

    The text of a marker is its simplified disjunctive normal form; it is a text of
    the grammar of [MarkerText], so that parsing it gives a marker again, and one
    that evaluates alike ([marker_text_roundtrip]).

    The display writes values between single quotes and does not escape them, hence
    the markers considered have no such quote in their values ([quotable]). *)

From Stdlib Require Import ZArith Lia String Permutation.
From stdpp Require Import base list gmap relations.
From S2P Require Import Prelude.
From S2P Require Import VersionRepr.
From S2P Require Import VersionOrder.
From S2P Require Import VersionParser.
From S2P Require Import VersionDisplay.
From S2P Require Import VersionRecord.
From S2P Require Import Specifier.
From S2P Require Import SpecifierParser.
From S2P Require Import Normalize.
From S2P Require Import Cursor.
From S2P Require Import RangeSet.
From S2P Require Import Stateful.
From S2P Require Import MarkerEdges.
From S2P Require Import MarkerTypes.
From S2P Require Import RangeInstances.
From S2P Require Import MarkerAlgebra.
From S2P Require Import MarkerStore.
From S2P Require Import MarkerOps.
From S2P Require Import MarkerConj.
From S2P Require Import MarkerTree.
From S2P Require Import MarkerVersion.
From S2P Require Import MarkerExpr.
From S2P Require Import MarkerDnf.
From S2P Require Import MarkerPaths.
From S2P Require Import MarkerTheorems.
From S2P Require Import MarkerParser.
From S2P Require Import MarkerComparison.
From S2P Require Import MarkerText.
Open Scope Z_scope.

(** ** Terms are read back *)

Definition unquotedb (s : Str) : bool := forallb (fun c => negb (c =? 39)) s.

Lemma unquotedb_spec s : unquotedb s = true -> unquoted s.
Proof. unfold unquotedb. intros H%forallb_Forall. eapply Forall_impl; [exact H|]. cbn. lia. Qed.

(** Terms whose text determines them. *)
Definition quotable_term (e : MarkerExpression) : bool :=
  match e with
  | EVersion _ _ => true
  | EString key _ value => unquotedb value && negb (deprecated_key key)
  | EList (PairExtras name) _ | EList (PairDependencyGroup name) _ | EExtra (ExtraNameValue name) _ => normal_name name
  | _ => false
  end.

(** The parser represents the version of a printed specifier in its own way. *)
Lemma release_canonical v : release_only v = true -> canonical v = true /\ plain (make_full v) = true.
Proof.
  intros (R & F & _ & L)%release_only_elim. unfold final in F. apply andb_true_iff in F as [[F1 F2]%andb_true_iff F3].
  rewrite pre_view in F1. rewrite post_view in F2. rewrite dev_view in F3. rewrite local_view in L.
  unfold real in R. apply andb_true_iff in R as [R1 R2]. unfold canonical, full_canonical, plain. by rewrite R1, R2, L, F1, F2, F3.
Qed.

Lemma reparsed_version v : release_only v = true -> exists w, parsed w /\ make_full w = make_full v /\ version_ok w = true.
Proof.
  intros [Hc _]%release_canonical. destruct (general_pattern_display v Hc) as (w & E & Ef & Ho). exists w. split; [|done].
  assert (Hu : Forall is_u8 (version_display v)) by (by apply version_display_u8).
  rewrite <- parse_pattern_is_general in E by done. by destruct (parse_pattern_parsed _ _ Hu E).
Qed.

Lemma reparsed_spec sp : spec_term_ok sp = true -> exists sp', spec_parsed sp' /\ operator sp' = operator sp /\
  make_full (spec_version sp') = make_full (spec_version sp) /\ spec_term_ok sp' = true.
Proof.
  intros Hsp. pose proof Hsp as [Hr Ho]%andb_true_iff. destruct (reparsed_version _ Hr) as (w & Hw & Ef & Hok).
  assert (Hrw : release_only w = true).
  { unfold release_only, real, final in *. rewrite Hok, pre_view, post_view, dev_view, epoch_view, local_view, Ef.
    rewrite pre_view, post_view, dev_view, epoch_view, local_view in Hr. unfold full_real in *. apply andb_true_iff in Hr as [[[[_ H1]%andb_true_iff H2]%andb_true_iff H3]%andb_true_iff H4].
    by rewrite H1, H2, H3, H4. }
  assert (Hsp' : spec_term_ok (mkSpec (operator sp) w) = true).
  { unfold spec_term_ok. cbn [spec_version operator]. rewrite Hrw. rewrite release_view, Ef, <- release_view. done. }
  exists (mkSpec (operator sp) w). split; [|done]. destruct (spec_term_real _ Hsp') as (Hreal & _).
  split; [done|]. split; [unfold spec_real in Hreal; by apply andb_true_iff in Hreal as [_ ?]|]. intros _. by apply release_canonical.
Qed.

(** A term is printed as an expression that is read back and holds where the term does. *)
Lemma term_readable e : term_ok e = true -> quotable_term e = true ->
  exists e', expr_ok e' = true /\ expr_text_ok e' /\ expression_display e' = expression_display e /\
    forall env extras, expr_holds env extras e' = expr_holds env extras e.
Proof.
  intros Ht Hq. destruct e as [key sp|key l op|key op v|p op|name op]; [|done|exists (EString key op v)|exists (EList p op)|exists (EExtra name op)].
  - assert (Hk : key <> PythonVersion) by (by intros ->). assert (Hsp : spec_term_ok sp = true) by (by destruct key).
    destruct (reparsed_spec sp Hsp) as (sp' & Hp & Eo & Ef & Hsp'). destruct (spec_term_real _ Hsp') as (Hreal & _ & Hx).
    exists (EVersion key sp'). split; [|split; [done|split]].
    + cbn [expr_ok]. rewrite Hreal. cbn [andb]. assert (op_eqb (operator sp') ExactEqual = false) by (apply not_true_iff_false; by rewrite op_eqb_eq).
      destruct key; cbn [version_key_ok]; [by apply negb_true_iff..|done].
    + cbn [expression_display]. rewrite Eo. by rewrite (display_full _ (spec_version sp)).
    + intros env extras. rewrite !version_term_holds by done. by rewrite Eo, !release_view, Ef.
  - cbn in Hq. apply andb_true_iff in Hq as [Hv Hk%negb_true_iff]. assert (op <> MTildeEqual) by (by intros ->).
    split; [by destruct op|]. split; [split; [done|split; [by apply unquotedb_spec|done]]|done].
  - by destruct p.
  - by destruct name.
Qed.

(** ** The text of a normal form *)

Fixpoint connected (connect : Formula -> Formula -> Formula) (f : Formula) (l : list Formula) : Formula :=
  match l with [] => f | g :: l => connected connect (connect f g) l end.

Lemma chained_sep op connect (inner : Formula -> Str -> Prop) f text l texts : inner f text -> Forall2 inner l texts ->
  chained op connect inner (connected connect f l) (format_sep (bs " " ++ op ++ bs " ") (text :: texts)).
Proof.
  intros Hf Hl. exists f, text. assert (Hsp : space (bs " ") /\ bs " " <> []) by (split; [by repeat constructor|done]).
  cut (forall f, exists rest, chain op connect inner f (connected connect f l) rest /\
    format_sep (bs " " ++ op ++ bs " ") (text :: texts) = text ++ rest).
  { intros H. destruct (H f) as (rest & ? & ?). by exists rest. }
  clear f Hf. revert text. induction Hl as [|g t l texts Hg Hl IH]; intros text f.
  { exists []. split; [constructor|]. by rewrite app_nil_r. }
  destruct (IH t (connect f g)) as (rest & Hc & E). exists (bs " " ++ op ++ bs " " ++ t ++ rest).
  split; [by apply (chain_more op connect inner f _ g); destruct Hsp|].
  change (format_sep ?s (text :: t :: texts)) with (text ++ s ++ format_sep s (t :: texts)). rewrite E. by rewrite <- !app_assoc.
Qed.

Lemma connected_and env extras f l : formula_holds env extras (connected FAnd f l) = formula_holds env extras f && forallb (formula_holds env extras) l.
Proof. revert f. induction l as [|g l IH]; intros f; cbn [connected forallb]; [by rewrite andb_true_r|]. rewrite IH. cbn [formula_holds]. by rewrite andb_assoc. Qed.

Lemma connected_or env extras f l : formula_holds env extras (connected FOr f l) = formula_holds env extras f || existsb (formula_holds env extras) l.
Proof. revert f. induction l as [|g l IH]; intros f; cbn [connected existsb]; [by rewrite orb_false_r|]. rewrite IH. cbn [formula_holds]. by rewrite orb_assoc. Qed.

Definition readable_term (e : MarkerExpression) : Prop := term_ok e = true /\ quotable_term e = true.

Definition says {A} (holds : MarkerEnvironment -> ExtrasEnvironment -> A -> bool) (f : Formula) (x : A) : Prop :=
  forall env extras, formula_holds env extras f = holds env extras x.

Lemma term_atom parens e : readable_term e ->
  exists f, atom_text parens f (expression_display e) /\ says expr_holds f e.
Proof.
  intros [Ht Hq]. destruct (term_readable e Ht Hq) as (e' & Hok & Htx & Ed & Hh). exists (FExpr e'). split; [|intros env extras; apply Hh].
  left. exists [], e', (expression_display e'). split; [constructor|]. split; [done|]. split; [by apply display_comparison|by rewrite Ed].
Qed.

Lemma conjunction_text parens c : Forall readable_term c -> c <> [] ->
  exists f, and_text parens f (conjunction_display c) /\ says (fun env extras => clause_holds (expr_holds env extras)) f c.
Proof.
  intros Hc Hne. destruct c as [|e c]; [done|]. inversion Hc as [|? ? He Hc']; subst. destruct (term_atom parens e He) as (f & Hf & Ef).
  assert (exists l, Forall2 (atom_text parens) l (map expression_display c) /\
    forall env extras, forallb (formula_holds env extras) l = forallb (expr_holds env extras) c) as (l & Hl & El).
  { clear -Hc'. induction Hc' as [|e c He Hc IH]; [by exists []|]. destruct IH as (l & Hl & El). destruct (term_atom parens e He) as (f & Hf & Ef).
    exists (f :: l). split; [by constructor|]. intros env extras. cbn. by rewrite Ef, El. }
  exists (connected FAnd f l). split; [exact (chained_sep (bs "and") FAnd _ f _ l _ Hf Hl)|].
  intros env extras. rewrite connected_and, El, Ef. done.
Qed.

Lemma chained_one op connect (inner : Formula -> Str -> Prop) f text : inner f text -> chained op connect inner f text.
Proof. intros Hf. exists f, text, []. rewrite app_nil_r. split; [done|]. split; [constructor|done]. Qed.

(** A clause among others, in parentheses when it has several terms. *)
Lemma clause_text c : Forall readable_term c -> c <> [] ->
  exists f, and_text (or_text 1) f (clause_display c) /\ says (fun env extras => clause_holds (expr_holds env extras)) f c.
Proof.
  intros Hc Hne. destruct (conjunction_text (or_text 0) c Hc Hne) as (f & Hf & Ef).
  destruct c as [|e [|e' c]]; [done|by apply conjunction_text|].
  exists f. split; [|done]. apply chained_one. right. exists [], [], (conjunction_display (e :: e' :: c)).
  split; [constructor|]. split; [constructor|]. split; [by apply chained_one|done].
Qed.

Definition dnf_display (d : Dnf) : Str :=
  match d with
  | [c] => conjunction_display c
  | _ => format_sep (bs " or ") (map clause_display d)
  end.

Lemma dnf_text d : Forall (Forall readable_term) d -> Forall (fun c => c <> []) d -> d <> [] ->
  exists f, or_text 2 f (dnf_display d) /\ says (fun env extras => dnf_holds (expr_holds env extras)) f d.
Proof.
  intros Hd Hn Hne. destruct d as [|c d]; [done|]. inversion Hd as [|? ? Hc Hd']; subst. inversion Hn as [|? ? Hcn Hn']; subst.
  assert (exists l, Forall2 (and_text (or_text 1)) l (map clause_display d) /\
    forall env extras, existsb (formula_holds env extras) l = dnf_holds (expr_holds env extras) d) as (l & Hl & El).
  { clear -Hd' Hn'. induction Hd' as [|c d Hc Hd IH]; [by exists []|]. inversion Hn' as [|? ? Hcn Hn2]; subst. destruct (IH Hn2) as (l & Hl & El).
    destruct (clause_text c Hc Hcn) as (f & Hf & Ef). exists (f :: l). split; [by constructor|]. intros env extras. cbn. by rewrite Ef, El. }
  destruct d as [|c' d].
  - destruct (conjunction_text (or_text 1) c Hc Hcn) as (f & Hf & Ef). exists f. split; [by apply chained_one|].
    intros env extras. rewrite Ef. unfold dnf_holds. cbn. by rewrite orb_false_r.
  - destruct (clause_text c Hc Hcn) as (f & Hf & Ef). exists (connected FOr f l).
    split; [exact (chained_sep (bs "or") FOr _ f _ l _ Hf Hl)|]. intros env extras. by rewrite connected_or, El, Ef.
Qed.

(** ** The terms of a collected normal form *)

Lemma concat_terms {A} (f : A -> outcome Dnf) (P : Clause -> Prop) l d : concat_o f l = Ret d ->
  (forall x d', x ∈ l -> f x = Ret d' -> Forall P d') -> Forall P d.
Proof.
  unfold concat_o. revert d. induction l as [|x l IH]; intros d; cbn [map_o]; [intros [= <-] _; constructor|].
  destruct (f x) as [d1|] eqn:Ex; [|done]. cbn [obind]. destruct (map_o f l) as [ds|]; [|done]. intros [= <-] H. cbn.
  apply Forall_app. split; [apply (H x); [by left|done]|]. apply IH; [done|]. intros y d' Hy. apply H. by right.
Qed.

Lemma concat_nonempty {A} (f : A -> outcome Dnf) l d x : concat_o f l = Ret d -> x ∈ l ->
  (forall d', f x = Ret d' -> d' <> []) -> d <> [].
Proof.
  unfold concat_o. intros E Hx H. revert d E. induction l as [|y l IH]; intros d; [by apply elem_of_nil in Hx|]. cbn [map_o].
  destruct (f y) as [d1|] eqn:Ey; [|done]. cbn [obind]. destruct (map_o f l) as [ds|] eqn:El; [|done]. intros [= <-]. cbn.
  apply elem_of_cons in Hx as [->|Hx]; [specialize (H d1 Ey); by destruct d1|].
  specialize (IH Hx (concat ds) eq_refl). intros [_ E]%app_eq_nil. done.
Qed.

Lemma map_o_nonempty {A B} (f : A -> outcome B) l ys : map_o f l = Ret ys -> l <> [] -> ys <> [].
Proof. destruct l as [|x l]; [done|]. cbn. destruct (f x); [|done]. cbn. destruct (map_o f l); [|done]. by intros [= <-]. Qed.

Lemma map_o_Forall {A B} (f : A -> outcome B) (P : B -> Prop) l ys : map_o f l = Ret ys ->
  (forall x y, x ∈ l -> f x = Ret y -> P y) -> Forall P ys.
Proof.
  revert ys. induction l as [|x l IH]; intros ys; cbn; [by intros [= <-]|]. destruct (f x) as [y|] eqn:Ex; [|done]. cbn.
  destruct (map_o f l) as [zs|]; [|done]. intros [= <-] H. constructor; [apply (H x); [by left|done]|].
  apply IH; [done|]. intros z y' Hz. apply H. by right.
Qed.

Section collected_terms.
Context {RV RS : Type} `{!RangeSet Version RV} `{!RangeSetLaws Version RV} `{!RangeSetBounds Version RV}.
Context `{!RangeSet Str RS} `{!RangeSetLaws Str RS} `{!RangeSetBounds Str RS}.

Abbreviation Node := (NodeOf RV RS).
Abbreviation Interner := (InternerOf RV RS).
Implicit Types (s : Interner) (n : Node) (t : NodeId).

Abbreviation quotable_list := (Forall (fun e => quotable_term e = true)).

Definition bound_unquoted (b : BoundOf Str) : bool :=
  match b with Included v | Excluded v => unquotedb v | Unbounded => true end.

Definition quotable_bounds (r : RS) : bool := forallb (fun seg : BoundOf Str * BoundOf Str => bound_unquoted seg.1 && bound_unquoted seg.2) (rs_iter r).

(** Values without a quote, and normalised names. *)
Definition node_quotable n : bool :=
  match node_var n, children n with
  | VString _, EdgesString edges => forallb (fun e => quotable_bounds (fst e)) edges
  | VIn _ value, _ | VContains _ value, _ => unquotedb value
  | VExtra name, _ | VList (PairExtras name), _ | VList (PairDependencyGroup name), _ => normal_name name
  | _, _ => true
  end.

Definition quotable s t : Prop := all_nodes node_quotable s t.

Lemma version_terms_shape key (u : RV) l : version_terms key u = Ret l ->
  Forall quotable_list l /\ (rs_iter u <> [] -> l <> []).
Proof.
  unfold version_terms. assert (Hm : forall (A : Type) (f : A -> VersionSpecifier) vs, quotable_list (map (fun v => EVersion key (f v)) vs)).
  { intros A f vs. apply Forall_forall. by intros e (v & -> & _)%elem_of_map. }
  destruct (range_inequality u) as [ex|]; [intros [= <-]; split; [constructor; [apply Hm|constructor]|done]|].
  destruct (star_range_specifier u) as [[sp|]|]; [| |done]; cbn [obind]; [intros [= <-]; split; [by repeat constructor|done]|].
  intros E. split; [|by eapply map_o_nonempty]. eapply map_o_Forall; [exact E|]. intros [lo hi] c _. cbn [fst snd].
  destruct (from_release_only_bounds lo hi) as [sps|]; [|done]. intros [= <-]. exact (Hm VersionSpecifier id sps).
Qed.

Lemma bound_terms_quotable key lo hi : bound_unquoted lo = true -> bound_unquoted hi = true ->
  quotable_list (map (fun ov => EString (string_key_of_canonical key) ov.1 ov.2) (marker_op_from_bounds (lo, hi))).
Proof.
  intros Hl Hh. assert (Hk : deprecated_key (string_key_of_canonical key) = false) by (by destruct key).
  assert (HT : forall op v, unquotedb v = true -> quotable_term (EString (string_key_of_canonical key) op v) = true)
    by (intros op v Hv; cbn [quotable_term]; by rewrite Hv, Hk).
  destruct lo as [v|v|], hi as [w|w|]; cbn [marker_op_from_bounds marker_op_from_lower_bound marker_op_from_upper_bound option_list app fst snd bound_unquoted] in *;
    try (destruct (bytes_eqb v w)); by repeat (constructor; [by apply HT|]).
Qed.

Lemma string_terms_shape key (u : RS) : rs_ok u -> quotable_bounds u = true ->
  Forall quotable_list (string_terms (string_key_of_canonical key) u) /\ (rs_iter u <> [] -> string_terms (string_key_of_canonical key) u <> []).
Proof.
  intros Hu Hb. unfold quotable_bounds in Hb. rewrite forallb_elem in Hb. unfold string_terms. destruct (range_inequality u) as [ex|] eqn:Ei.
  - split; [|done]. constructor; [|constructor]. apply Forall_forall. intros e (v & -> & Hv)%elem_of_map.
    destruct (range_inequality_spec u ex Hu Ei) as (H1 & _). destruct (H1 v Hv) as (seg & Hs & Es).
    specialize (Hb seg Hs). apply andb_true_iff in Hb as [_ Hb]. rewrite Es in Hb. cbn in Hb |- *. rewrite Hb. by destruct key.
  - split; [|intros Hne E%map_eq_nil; done]. apply Forall_forall. intros c ([lo hi] & -> & Hin)%elem_of_map.
    specialize (Hb _ Hin). apply andb_true_iff in Hb as [? ?]. by apply bound_terms_quotable.
Qed.

(** The range to a subtree is not empty. *)
Lemma collected_inhabited {T R} `{RangeSetLaws T R} `{!KeyedLaws T} (P Q : BoundOf T -> Prop) (edges : list (R * NodeId)) paths t u :
  tiles NegInf edges PosInf -> collected P Q edges paths -> (t, u) ∈ paths -> rs_iter u <> [].
Proof.
  intros Ht Hc Hin Hnil.
  assert (Hs : t ∈ map snd edges) by (apply (collected_all _ _ _ _ Hc), elem_of_map; by exists (t, u)).
  apply elem_of_map in Hs as ([r c'] & -> & Hr). cbn in *.
  destruct (tiles_elem _ _ _ _ _ Ht Hr) as (p & H1 & H2 & E). assert (Hp : p <> PosInf) by (intros ->; by apply (cut_lt_irrefl PosInf)).
  destruct (collected_range _ _ _ _ Hc c' u Hin) as [[_ Hm] _]. specialize (Hm p Hp). unfold rs_cuts in Hm. rewrite Hnil in Hm. cbn in Hm.
  symmetry in Hm. apply not_true_iff_false in Hm. apply Hm. by apply leads_to_tile.
Qed.

(** All terms of the clauses are quotable, and there is a clause unless the marker
    is [FALSE]. *)
Definition collects t (path : Clause) (d : Dnf) : Prop := Forall quotable_list d /\
  (t <> node_false -> path <> [] \/ t <> node_true -> d <> []).

Section at_node.
Context (s : Interner) (t : NodeId) (n : Node).
Hypothesis (s_ok : store_ok s) (t_marker : marker s t) (t_index : 0 <= node_index t).
Hypothesis t_node : nodes s !! Z.to_nat (node_index t) = Some n.
Context (rec : NodeId -> Clause -> outcome Dnf).
Hypothesis rec_collects : forall c path d, marker s c -> subtree s t c -> quotable_list path -> path <> [] ->
  rec c path = Ret d -> collects c path d.

Lemma boolean_collects path (expr : bool -> MarkerExpression) high low d : children n = EdgesBoolean high low -> quotable_list path ->
  (forall b, quotable_term (expr b) = true) ->
  concat_o (fun e : bool * NodeId => rec e.2 (path ++ [expr e.1])) (tree_children (node_negate high t) (node_negate low t)) = Ret d ->
  collects t path d.
Proof.
  intros Ech Hpath Hok E.
  assert (Hc : forall b c, (b, c) ∈ tree_children (node_negate high t) (node_negate low t) -> marker s c /\ subtree s t c).
  { intros b c Hin. assert (exists c0, c0 ∈ edge_nodes (children n) /\ c = node_negate c0 t) as (c0 & H0 & ->); [|by eapply subtree_marker].
    rewrite Ech. cbn. unfold tree_children in Hin. rewrite !elem_of_cons, elem_of_nil in Hin.
    destruct Hin as [[= _ ->]|[[= _ ->]|[]]]; [exists high|exists low]; (split; [|done]); [by left|by right; left]. }
  assert (Hq : forall b, quotable_list (path ++ [expr b]) /\ path ++ [expr b] <> []).
  { intros b. split; [apply Forall_app; split; [done|by constructor]|by destruct path]. }
  split.
  - eapply concat_terms; [exact E|]. intros [b c] d' [Hm Hlt]%Hc Er. cbn [fst snd] in Er. destruct (Hq b). by eapply rec_collects.
  - intros _ _. destruct (other_subtree s t n s_ok t_node node_false) as (c & Hc0 & Hne).
    assert (exists b, (b, c) ∈ tree_children (node_negate high t) (node_negate low t)) as [b Hin].
    { rewrite Ech in Hc0. cbn in Hc0. unfold tree_children. rewrite !elem_of_cons, elem_of_nil in Hc0. setoid_rewrite elem_of_cons. setoid_rewrite elem_of_cons.
      destruct Hc0 as [->|[->|[]]]; [exists true|exists false]; auto. }
    eapply concat_nonempty; [exact E|exact Hin|]. intros d' Er. cbn [fst snd] in Er. destruct (Hc _ _ Hin), (Hq b).
    eapply rec_collects; [..|exact Er|done|by left]; done.
Qed.

Lemma range_collects {T R} `{RangeSetLaws T R} `{!KeyedLaws T} `{!RangeSetBounds T R} (P Q : BoundOf T -> Prop) (edges : list (R * NodeId))
    (alts : R -> outcome (list Clause)) path d :
  edge_nodes (children n) = map snd edges -> tiles NegInf edges PosInf -> P Unbounded -> Q Unbounded ->
  (forall e, e ∈ edges -> bounds_in P Q (fst e)) -> quotable_list path ->
  (forall c u l, covers u (leads_to (tree_edges t edges) c) -> bounds_in P Q u -> rs_cuts u <> [(NegInf, PosInf)] -> rs_iter u <> [] ->
    alts u = Ret l -> Forall (fun c => c <> [] /\ quotable_list c) l /\ l <> []) ->
  (let! paths := collect_edges (tree_edges t edges) in
    concat_o (fun e => let! l := alts e.2 in concat_o (fun c => rec e.1 (path ++ c)) l) paths) = Ret d -> collects t path d.
Proof.
  intros Hedges Ht HP HQ Hb Hpath Halts. set (E := tree_edges t edges).
  assert (HtE : tiles NegInf E PosInf) by (apply (tiles_snd NegInf edges PosInf (fun c => node_negate c t)); exact Ht).
  assert (HbE : forall e, e ∈ E -> bounds_in P Q (fst e)) by (intros e (e0 & -> & He0)%elem_of_map; exact (Hb e0 He0)).
  assert (HsE : map snd E = map (fun x => node_negate x t) (edge_nodes (children n))) by (unfold E; by rewrite tree_edges_snd, Hedges).
  destruct (collect_edges_spec P Q HP HQ E HtE HbE) as (paths & -> & Hcol). cbn [obind]. intros Ed.
  assert (Hpth : forall c u l, (c, u) ∈ paths -> alts u = Ret l ->
    marker s c /\ subtree s t c /\ Forall (fun c => c <> [] /\ quotable_list c) l /\ l <> []).
  { intros c u l Hin El. assert (Hc : c ∈ map snd E) by (apply (collected_all _ _ _ _ Hcol), elem_of_map; by exists (c, u)).
    rewrite HsE in Hc. apply elem_of_map in Hc as (c0 & -> & Hc0). destruct (subtree_marker s t n s_ok t_marker t_index t_node c0 Hc0) as [Hm Hlt].
    destruct (collected_range _ _ _ _ Hcol _ _ Hin) as [Hcov Hbu].
    destruct (other_subtree s t n s_ok t_node (node_negate c0 t)) as (c' & Hc' & Hne). rewrite <- HsE in Hc'.
    pose proof (collected_not_full P Q E paths _ u c' HtE Hcol Hin Hc' Hne) as Hfull.
    pose proof (collected_inhabited P Q E paths _ u HtE Hcol Hin) as Hinh. split; [done|]. split; [done|]. by eapply Halts. }
  assert (Hrec : forall c u l cl d', (c, u) ∈ paths -> alts u = Ret l -> cl ∈ l -> rec c (path ++ cl) = Ret d' -> collects c (path ++ cl) d' /\ path ++ cl <> []).
  { intros c u l cl d' Hin El Hcl Er. destruct (Hpth c u l Hin El) as (Hm & Hlt & Hl & _). rewrite Forall_forall in Hl. destruct (Hl cl Hcl) as [Hne Hcl'].
    assert (path ++ cl <> []) by (by destruct path). split; [|done]. eapply rec_collects; [done|done|by apply Forall_app|done|done]. }
  split.
  - eapply concat_terms; [exact Ed|]. intros [c u] d' Hin Er. cbn [fst snd] in Er. destruct (alts u) as [l|] eqn:El; [|done]. cbn [obind] in Er.
    eapply concat_terms; [exact Er|]. intros cl d2 Hcl Er'. by destruct (Hrec c u l cl d2 Hin El Hcl Er') as [[? _] _].
  - intros _ _. destruct (other_subtree s t n s_ok t_node node_false) as (c & Hc & Hne). rewrite <- HsE in Hc.
    apply (collected_all _ _ _ _ Hcol), elem_of_map in Hc as ([c' u] & -> & Hin). cbn [fst] in Hne.
    eapply concat_nonempty; [exact Ed|exact Hin|]. intros d' Er. cbn [fst snd] in Er. destruct (alts u) as [l|] eqn:El; [|done]. cbn [obind] in Er.
    destruct (Hpth c' u l Hin El) as (_ & _ & _ & Hl). destruct l as [|cl l]; [done|]. eapply concat_nonempty; [exact Er|by left|]. intros d2 Er'.
    destruct (Hrec c' u _ cl d2 Hin El ltac:(by left) Er') as [[_ Hn] Hp]. by apply Hn; [|left].
Qed.
End at_node.

Lemma collect_dnf_collects fuel s t path d : store_ok s -> printable s t -> quotable s t -> marker s t -> quotable_list path ->
  collect_dnf fuel s t path = Ret d -> collects t path d.
Proof.
  intros Hs. revert t path d. induction fuel as [|fuel IH]; intros t path d Hpr Hqu Ht Hpath; [done|].
  cbn [collect_dnf]. destruct (tree_kind_spec s t Hs (proj1 Ht)) as [[-> ->]|[[-> ->]|(n & H0 & En & ->)]]; cbn [obind].
  - intros [= <-]. destruct path as [|e path]; [by split; [|intros _ []]|]. split; [by constructor; [|constructor]|done].
  - intros [= <-]. by split.
  - assert (Hin : n ∈ nodes s) by (by eapply list_elem_of_lookup_2).
    assert (Hp : node_printable n = true) by (by eapply (all_nodes_here _ s t)).
    assert (Hq : node_quotable n = true) by (by eapply (all_nodes_here _ s t)).
    pose proof (node_edges _ _ _ (store_nodes s Hs _ _ En)) as He.
    assert (Hrec : forall c path d, marker s c -> subtree s t c -> quotable_list path -> path <> [] ->
      collect_dnf fuel s c path = Ret d -> collects c path d) by (intros; eapply IH; [by eapply all_nodes_subtree|by eapply all_nodes_subtree|done..]).
    assert (Hvar : proper_var (node_var n) = true) by (apply Ht, (support_at s t n Hs (proj1 Ht) H0 En); by left).
    pose proof (fun expr high low => boolean_collects s t n Hs Ht H0 En (collect_dnf fuel s) Hrec path expr high low d) as Hbool.
    unfold node_printable in Hp. unfold node_quotable in Hq. unfold kind_of.
    destruct (node_var n) as [key|key|key value|key value|name|p] eqn:Ev, (children n) as [l|l|high low] eqn:Ec; try done.
    + apply andb_true_iff in Hp as [Hp Hshape]. rewrite forallb_elem in Hq.
      apply (range_collects s t n Hs Ht H0 En (collect_dnf fuel s) Hrec (fun b => plain_bound key b = true /\ bound_unquoted b = true)
        (fun b => plain_bound key b = true /\ bound_unquoted b = true) l (fun u => Ret (string_terms (string_key_of_canonical key) u)));
        [by rewrite Ec|done|done|done| |done|].
      { intros e Hel seg Hseg. destruct (node_bounds _ _ _ Hp e Hel seg Hseg). specialize (Hq e Hel). unfold quotable_bounds in Hq.
        rewrite forallb_elem in Hq. by specialize (Hq seg Hseg) as [? ?]%andb_true_iff. }
      intros c u l' Hcov Hb Hfull Hinh [= <-]. destruct (string_terms_shape key u) as [H1 H2]; [apply Hcov| |].
      { unfold quotable_bounds. rewrite forallb_elem. intros seg Hseg. destruct (Hb seg Hseg) as [[_ ->] [_ ->]]. done. }
      split; [|by apply H2]. destruct (string_terms_spec key u) as [H3 _]; [apply Hcov|intros seg Hseg; by destruct (Hb seg Hseg) as [[? _] [? _]]|done| |].
      { apply orb_true_iff in Hshape as [?|Hset]; [by left|right]. apply (settled_shape (tree_edges t l) c); [|by apply settled_tree|done].
        by apply (tiles_snd NegInf l PosInf (fun c => node_negate c t)). }
      rewrite Forall_forall in H1, H3 |- *. intros c' Hc'. by destruct (H3 c' Hc'); split; [|apply H1].
    + destruct (version_key_proper key) as [Hk1 Hk2].
      apply (range_collects s t n Hs Ht H0 En (collect_dnf fuel s) Hrec (fun b => plain_lower b = true) (fun b => plain_upper b = true) l
        (version_terms (version_key_of_canonical key))); [by rewrite Ec|done|done|done|by apply node_bounds|done|].
      intros c u l' [Hok _] Hb Hfull Hinh E. destruct (version_terms_shape _ u l' E) as [H1 H2]. split; [|by apply H2].
      destruct (version_terms_spec _ u Hk1 Hok Hb Hfull) as (l2 & E' & H3 & _). rewrite E in E'. injection E' as <-.
      rewrite Forall_forall in H1, H3 |- *. intros c' Hc'. by destruct (H3 c' Hc'); split; [|apply H1].
    + apply (Hbool (fun b : bool => EString (string_key_of_canonical key) (if b then MIn else MNotIn) value)); [done|done|].
      intros b. cbn. rewrite Hq. by destruct key.
    + apply (Hbool (fun b : bool => EString (string_key_of_canonical key) (if b then MContains else MNotContains) value)); [done|done|].
      intros b. cbn. rewrite Hq. by destruct key.
    + by apply (Hbool (fun b : bool => EExtra (ExtraNameValue name) (if b then ExtraEqual else ExtraNotEqual))).
    + apply (Hbool (fun b : bool => EList p (if b then ContainerIn else ContainerNotIn))); [done|done|]. intros b. by destruct p.
Qed.
End collected_terms.

(** ** Simplification leaves a clause *)

Lemma simplify_clauses_length l dnf : length (fold_left simplify_clause l dnf) = length dnf.
Proof.
  revert dnf. induction l as [|i l IH]; intros dnf; [done|]. cbn [fold_left]. rewrite IH. unfold simplify_clause.
  destruct (dnf !! i); [apply length_insert|done].
Qed.

Lemma simplify_nonempty dnf : dnf <> [] -> simplify dnf <> [].
Proof.
  intros Hne. unfold simplify. pose proof (simplify_clauses_length (seq 0 (length dnf)) dnf) as Hl. set (d := fold_left simplify_clause _ dnf) in *.
  assert (Hd : d <> []) by (intros E; rewrite E in Hl; by destruct dnf). clear Hl Hne.
  set (holds := fun _ : MarkerExpression => true). assert (Hall : forall c, clause_holds holds c = true) by (intros c; by apply clause_holds_iff).
  destruct (redundant_clauses_spec holds (fun _ => True) ltac:(done) d [] d []) as [Ha Hr]; [by repeat (apply Forall_forall; intros ? _)|done|by split; constructor| |].
  { intros _. destruct d as [|c d]; [done|]. exists 0%nat, c. split; [apply not_elem_of_nil|by split; [|apply Hall]]. }
  destruct Hr as (k & c & Hk & Ec & _); [destruct d as [|c d]; [done|]; unfold dnf_holds; cbn; by rewrite Hall|].
  intros E. assert (Hin : c ∈ remove_positions (redundant_clauses_loop d 0 d []) d) by (apply elem_of_remove; [done|by exists k]).
  rewrite E in Hin. by apply elem_of_nil in Hin.
Qed.

Lemma sort_dnf_Forall (P : Clause -> Prop) d : (forall c c', Permutation c c' -> P c -> P c') -> Forall P d -> Forall P (sort_dnf d).
Proof.
  intros Hperm Hd. unfold sort_dnf. rewrite <- (sort_by_perm _ (map _ d)). apply Forall_forall. intros c (c0 & -> & Hc)%elem_of_map.
  eapply Hperm; [apply sort_by_perm|]. rewrite Forall_forall in Hd. by apply Hd.
Qed.

Lemma sort_dnf_nonempty d : d <> [] -> sort_dnf d <> [].
Proof.
  intros Hne E. unfold sort_dnf in E. set (l := map _ d) in E. pose proof (sort_by_perm (fun a b => list_cmp kind_cmp (map expression_kind a) (map expression_kind b)) l) as Hp.
  rewrite E in Hp. apply Permutation_sym, Permutation_nil in Hp. by destruct d.
Qed.

(** ** The round trip *)

(** The text of [FALSE] is a comparison that no release satisfies. *)
Definition never : MarkerExpression :=
  EVersion PythonVersion (mkSpec LessThan (match version_new [0] with Ret v => v | Panic => Small small_new end)).

Lemma never_readable : expression_display never = bs "python_version < '0'" /\ expr_ok never = true /\ expr_text_ok never.
Proof.
  split; [reflexivity|]. split; [reflexivity|]. split; [|done]. split; [by split|]. by split.
Qed.

Lemma never_false env extras : env_release env -> expr_holds env extras never = false.
Proof.
  intros Henv. cbn [never expr_holds]. unfold version_holds. cbn [operator release_holds]. set (x := release _).
  assert (Hx : 0 <= nth_or_0 x 0).
  { assert (nonneg x) as Hn by apply (env_nonneg env Henv). destruct Hn as [|a l Ha _]; [done|exact Ha]. }
  unfold truncate. change (release _) with [0]. cbn [pad_cmp]. destruct (Z.compare_spec (nth_or_0 x 0) 0); [|lia|done].
  cbn. destruct (Z.compare_spec (nth_or_0 x 1) 0); try done. exfalso.
  assert (nonneg x) as Hn by apply (env_nonneg env Henv). destruct Hn as [|a [|b l] _ Hb]; [done..|]. inversion Hb; subst. unfold nth_or_0 in *. cbn in *. lia.
Qed.

Section roundtrip.
Context {RV RS : Type} `{!RangeSet Version RV} `{!RangeSetLaws Version RV} `{!RangeSetBounds Version RV}.
Context `{!RangeSet Str RS} `{!RangeSetLaws Str RS} `{!RangeSetBounds Str RS} `{AlphabeticLaws}.

Abbreviation Interner := (InternerOf RV RS).
Implicit Types (s : Interner) (t : NodeId).

(** The text of a marker is a text of the grammar, whose formula is the marker. *)
Lemma display_in_grammar s t env0 extras0 : store_ok s -> marker s t -> printable s t -> quotable s t ->
  env_release env0 -> evaluate_reporter s env0 extras0 t = Ret false ->
  exists text f, try_to_string s t = Ret (Some text) /\ or_text 2 f text /\
    forall env extras, env_release env -> evaluate_reporter s env extras t = Ret (formula_holds env extras f).
Proof.
  intros Hs Ht Hp Hq Henv0 Hf. rewrite evaluate_marker in Hf by (done || by apply env_release_ok). injection Hf as Hf.
  assert (Hne : t <> node_true) by (intros ->; by rewrite den_true in Hf).
  unfold try_to_string, contents_display. replace (node_is_true t) with false by (symmetry; by apply Z.eqb_neq).
  destruct (node_is_false t) eqn:EF.
  { apply is_false_iff in EF as ->. destruct never_readable as (Ed & Hok & Htx). exists (bs "python_version < '0'"), (FExpr never).
    split; [done|]. split.
    - do 2 apply chained_one. left. exists [], never, (expression_display never). split; [constructor|]. split; [done|]. split; [by apply display_comparison|by rewrite Ed].
    - intros env extras Henv. rewrite evaluate_marker, den_false by (done || by apply env_release_ok). cbn [formula_holds]. by rewrite never_false. }
  assert (Hnf : t <> node_false) by (by apply Z.eqb_neq).
  destruct (to_dnf_spec s t Hs Hp Ht Hne) as (d & E & Hd). rewrite E. cbn [obind].
  unfold to_dnf in E. destruct (collect_dnf (S (enough s)) s t []) as [d0|] eqn:Ec; [|done]. cbn [obind] in E. injection E as <-.
  destruct (collect_dnf_collects _ s t [] d0 Hs Hp Hq Ht ltac:(constructor) Ec) as [Hq0 Hn0].
  destruct (collect_dnf_spec (S (enough s)) s t [] Hs Hp Ht) as (d1 & Ec' & Ht0 & _);
    [unfold enough; destruct Ht as [[]]; lia|constructor|by right|]. rewrite Ec in Ec'. injection Ec' as <-.
  assert (Hr0 : Forall (Forall readable_term) d0).
  { rewrite Forall_forall in Hq0, Ht0 |- *. intros c Hc. apply Forall_and. split; [by apply Ht0|by apply Hq0]. }
  destruct (simplify_meaning (expr_holds env0 extras0) readable_term) with d0 as [Hr _]; [| | |done|].
  { intros x y [Hx _] [Hy _]. by apply term_eqb_holds. } { intros x y [Hx _] [Hy _]. by apply term_eqb_sym. }
  { intros x y [Hx _] [Hy _]. by apply term_negation_holds. }
  destruct (dnf_text (sort_dnf (simplify d0))) as (f & Hf' & Ef).
  - apply sort_dnf_Forall; [|done]. intros c c' Hperm Hc. by rewrite <- Hperm.
  - apply Forall_forall. intros c Hc ->. specialize (Hd env0 extras0 Henv0). rewrite Hf in Hd. apply not_true_iff_false in Hd. apply Hd.
    unfold dnf_holds. apply existsb_exists. exists []. split; [by apply list_elem_of_In|done].
  - by apply sort_dnf_nonempty, simplify_nonempty, Hn0; [|right].
  - exists (dnf_display (sort_dnf (simplify d0))), f. split; [done|]. split; [done|]. intros env extras Henv.
    rewrite evaluate_marker by (done || by apply env_release_ok). by rewrite Ef, Hd.
Qed.

(** C12: printing and parsing: the text of a marker whose diagram is [printable] and has
    normal names and no single quote in its values ([quotable]), and that is false in some release
    environment, is parsed without an error to a marker that evaluates as the marker
    does in every possible release environment. *)
Theorem marker_text_roundtrip s t env0 extras0 : reachable s -> marker s t -> printable s t -> quotable s t ->
  env_release env0 -> evaluate_reporter s env0 extras0 t = Ret false ->
  exists text t' w s', try_to_string s t = Ret (Some text) /\ parse_markers text s = Ret ((Ok t', w), s') /\
    reachable s' /\ ext s s' /\ marker s' t' /\
    forall env extras, env_release env -> possible_env env -> evaluate_reporter s' env extras t' = evaluate_reporter s env extras t.
Proof.
  intros Hs Ht Hp Hq Henv0 Hf. destruct (display_in_grammar s t env0 extras0) as (text & f & Et & Hg & Hv); [by apply interner_store, reachable_ok|done..|].
  destruct (parse_markers_understood s 2 f text [] Hs Hg ltac:(constructor)) as (t' & w & s' & E & Hs' & He & Hm & Ht'). rewrite app_nil_r in E.
  exists text, t', w, s'. split; [done|]. split; [done|]. split; [done|]. split; [done|]. split; [done|].
  intros env extras Hr Hpos. by rewrite Ht', Hv.
Qed.
End roundtrip.
