(* ===== verification/MarkerWitness.v ===== *)
(** * The marker algebra on a sample state

    An interner that holds five expressions, built from the empty one with ranges
    represented as lists of segments, and a Linux environment.  The theorems of
    [MarkerTheorems] are applied to it, and the markers whose lowering departs from
    their meaning are computed on it. *)

From Stdlib Require Import ZArith Lia String.
From stdpp Require Import base list gmap relations.
From S2P Require Import Prelude.
From S2P Require Import VersionRepr.
From S2P Require Import VersionOrder.
From S2P Require Import VersionRecord.
From S2P Require Import Specifier.
From S2P Require Import RangeSet.
From S2P Require Import Stateful.
From S2P Require Import MarkerEdges.
From S2P Require Import MarkerTypes.
From S2P Require Import RangeInstances.
From S2P Require Import MarkerAlgebra.
From S2P Require Import MarkerStore.
From S2P Require Import MarkerOps.
From S2P Require Import MarkerConj.
From S2P Require Import MarkerTree.
From S2P Require Import MarkerRestrict.
From S2P Require Import MarkerPython.
From S2P Require Import MarkerVersion.
From S2P Require Import MarkerExpr.
From S2P Require Import MarkerDnf.
From S2P Require Import MarkerPaths.
From S2P Require Import MarkerTheorems.
Open Scope Z_scope.

(** ** The sample *)

Definition Interner : Type := InternerOf (list (BoundOf Version * BoundOf Version)) (list (BoundOf Str * BoundOf Str)).
Implicit Types (s : Interner) (id : NodeId).

Definition release_of (r : list Z) : Version := match version_new r with Ret v => v | Panic => Small small_new end.

Definition linux_expr : MarkerExpression := EString SysPlatform MEqual (bs "linux").
Definition windows_expr : MarkerExpression := EString OsName MEqual (bs "nt").
Definition python_expr : MarkerExpression := EVersion PythonVersion (mkSpec GreaterThanEqual (release_of [3; 8])).
Definition dev_expr : MarkerExpression := EExtra (ExtraNameValue (bs "dev")) ExtraEqual.

Definition build (l : list MarkerExpression) : M Interner (list NodeId) := map_m expression l.

Definition sample : Interner :=
  match build [linux_expr; windows_expr; python_expr; dev_expr] interner_default with Ret (_, s) => s | Panic => interner_default end.

Definition sv (text : string) (r : list Z) : StringVersion := mkStringVersion (bs text) (release_of r).

Definition linux_env : MarkerEnvironment := {|
  implementation_name := bs "cpython"; implementation_version := sv "3.12.4" [3; 12; 4]; os_name := bs "posix";
  platform_machine := bs "x86_64"; platform_python_implementation := bs "CPython"; platform_release := bs "6.1.0";
  platform_system := bs "Linux"; platform_version := bs "1"; python_full_version := sv "3.12.4" [3; 12; 4];
  python_version := sv "3.12" [3; 12]; sys_platform := bs "linux" |}.

Lemma linux_env_possible : possible_env linux_env.
Proof. by vm_compute. Qed.

Lemma linux_env_release : env_release linux_env.
Proof. by vm_compute. Qed.

Lemma linux_env_platforms : platforms_agree linux_env.
Proof. repeat constructor. Qed.

(** The states that [build] goes through are reachable, and it returns markers. *)
Lemma build_spec l s : reachable s -> Forall (fun e => expr_ok e = true) l ->
  exists ids s', build l s = Ret (ids, s') /\ reachable s' /\ ext s s' /\ Forall (marker s') ids.
Proof.
  intros Hs Hl. revert s Hs. induction Hl as [|e l He Hl IH]; intros s Hs.
  - exists [], s. done.
  - destruct (expression_runs s e (reachable_ok s Hs) He) as (id & s1 & E & _ & He1 & Hm & _).
    assert (Hs1 : reachable s1) by (eapply rtc_r; [exact Hs|by eapply step_expression; [left|]]).
    destruct (IH s1 Hs1) as (ids & s2 & E2 & Hs2 & He2 & Hids). exists (id :: ids), s2.
    split; [unfold build in *; cbn; unfold mseq; rewrite E; cbn; rewrite E2; done|]. split; [done|]. split; [by transitivity s1|].
    constructor; [by eapply marker_ext|done].
Qed.

Definition linux : NodeId := 3.
Definition windows : NodeId := 5.
Definition python38 : NodeId := 7.
Definition dev_extra : NodeId := 8.

Lemma sample_built : build [linux_expr; windows_expr; python_expr; dev_expr] interner_default = Ret ([linux; windows; python38; dev_extra], sample).
Proof. by vm_compute. Qed.

Lemma sample_spec : reachable sample /\ marker sample linux /\ marker sample windows /\ marker sample python38 /\ marker sample dev_extra.
Proof.
  destruct (build_spec [linux_expr; windows_expr; python_expr; dev_expr] interner_default) as (ids & s' & E & Hr & _ & Hm);
    [by apply rtc_refl|by repeat constructor|].
  rewrite sample_built in E. injection E as <- <-. rewrite !Forall_cons in Hm. by destruct Hm as (? & ? & ? & ? & _).
Qed.

Lemma sample_printable t : printable sample t.
Proof. apply all_nodes_store. vm_compute. reflexivity. Qed.

(** ** The theorems on the sample *)


Lemma tree_kind_total_witness : exists k, tree_kind sample linux = Ret k.
Proof. destruct sample_spec as (Hr & Hl & _). apply (tree_kind_total sample linux Hr (proj1 Hl)). Defined.

Lemma and_evaluates_witness : exists r s', interner_and linux python38 sample = Ret (r, s') /\
  evaluate_reporter s' linux_env (EnvExtras []) r = Ret true.
Proof.
  destruct sample_spec as (Hr & Hl & _ & Hp & _). destruct (and_evaluates sample linux python38 Hr Hl Hp) as (r & s' & E & _ & _ & H).
  exists r, s'. split; [done|]. destruct (H linux_env (EnvExtras []) linux_env_possible) as (b & c & E1 & E2 & E3).
  rewrite E3. assert (Ret b = Ret true) as [= ->] by (rewrite <- E1; by vm_compute).
  assert (Ret c = Ret true) as [= ->] by (rewrite <- E2; by vm_compute). done.
Defined.

Lemma or_implies_negate_evaluate_witness : exists r s1, interner_or linux windows sample = Ret (r, s1) /\
  evaluate_reporter s1 linux_env (EnvExtras []) r = Ret true.
Proof.
  destruct sample_spec as (Hr & Hl & Hw & _). destruct (or_implies_negate_evaluate sample linux windows Hr Hl Hw) as (r & s1 & i & s2 & E & _ & H).
  exists r, s1. split; [done|]. destruct (H linux_env (EnvExtras []) linux_env_possible) as (b & c & E1 & E2 & E3 & _).
  rewrite E3. assert (Ret b = Ret true) as [= ->] by (rewrite <- E1; by vm_compute). done.
Defined.

Lemma is_disjoint_sound_witness : exists s', is_disjoint linux windows sample = Ret (true, s') /\
  exists b c, evaluate_reporter sample linux_env (EnvExtras []) linux = Ret b /\
    evaluate_reporter sample linux_env (EnvExtras []) windows = Ret c /\ b && c = false.
Proof.
  destruct sample_spec as (Hr & Hl & Hw & _). destruct (is_disjoint_sound sample linux windows Hr Hl Hw) as (d & s' & E & H).
  assert (outcome_map fst (Ret (d, s')) = Ret true) as [= ->] by (rewrite <- E; by vm_compute).
  exists s'. split; [done|]. apply (H eq_refl linux_env (EnvExtras []) linux_env_possible).
Defined.

Lemma evaluate_terminates_witness : evaluate sample dev_extra linux_env [bs "dev"] = Ret true.
Proof.
  destruct sample_spec as (Hr & _ & _ & _ & Hd).
  destruct (evaluate_terminates sample dev_extra linux_env [bs "dev"] Hr (proj1 Hd) (proj1 linux_env_possible)) as (b & E & _). rewrite E.
  assert (Ret b = Ret true) as ->; [|reflexivity]. rewrite <- E. vm_compute. reflexivity.
Defined.

Lemma extras_bound_evaluation_witness : exists possible certain, evaluate_optional_environment sample dev_extra None [bs "dev"] = Ret possible /\
  evaluate_only_extras (S (enough sample)) sample [bs "dev"] dev_extra = Ret certain /\
  exists b, evaluate sample dev_extra linux_env [bs "dev"] = Ret b /\ (certain = true -> b = true) /\ (b = true -> possible = true).
Proof.
  destruct sample_spec as (Hr & _ & _ & _ & Hd). destruct (extras_bound_evaluation sample dev_extra [bs "dev"] Hr Hd) as (p & c & E1 & E2 & H).
  exists p, c. split; [done|]. split; [done|]. apply H. apply linux_env_possible.
Defined.


Lemma restrict_agrees_witness : exists r s', restrict linux python38 sample = Ret (r, s') /\
  evaluate_reporter s' linux_env (EnvExtras []) r = evaluate_reporter sample linux_env (EnvExtras []) linux.
Proof.
  destruct sample_spec as (Hr & Hl & _ & Hp & _). destruct (restrict_agrees sample linux python38 Hr Hl Hp) as (r & s' & E & _ & H).
  exists r, s'. split; [done|]. apply H; [apply linux_env_possible|by vm_compute].
Defined.

Lemma without_extras_exact_witness : exists r s', without_extras dev_extra sample = Ret (r, s') /\ evaluate s' r linux_env [] = Ret true.
Proof.
  destruct sample_spec as (Hr & _ & _ & _ & Hd). destruct (without_extras_exact sample dev_extra Hr Hd) as (r & s' & E & _ & _ & H).
  exists r, s'. split; [done|]. apply H; [apply linux_env_possible|]. exists [bs "dev"]. by vm_compute.
Defined.

Lemma simplify_extras_exact_witness : exists r s', simplify_extras dev_extra [bs "dev"] sample = Ret (r, s') /\ evaluate s' r linux_env [] = Ret true.
Proof.
  destruct sample_spec as (Hr & _ & _ & _ & Hd). destruct (simplify_extras_exact sample dev_extra [bs "dev"] Hr Hd) as (r & s' & E & _ & _ & H).
  exists r, s'. split; [done|]. rewrite (H linux_env [] (proj1 linux_env_possible)). by vm_compute.
Defined.

Lemma only_extras_bounds_witness : exists r s', only_extras dev_extra sample = Ret (r, s') /\ evaluate s' r linux_env [bs "dev"] = Ret true.
Proof.
  destruct sample_spec as (Hr & _ & _ & _ & Hd). destruct (only_extras_bounds sample dev_extra Hr Hd) as (r & s' & E & _ & _ & H).
  exists r, s'. split; [done|]. apply (H linux_env linux_env); [apply linux_env_possible..|by vm_compute].
Defined.

(** [requires-python = '>=3.8'] *)
Definition py38_lower : BoundOf Version := Included (release_of [3; 8]).

Lemma simplify_python_agrees_witness : exists r s', simplify_python_versions python38 py38_lower Unbounded sample = Ret (r, s') /\
  evaluate_reporter s' linux_env (EnvExtras []) r = Ret true.
Proof.
  destruct sample_spec as (Hr & _ & _ & Hp & _).
  destruct (simplify_python_agrees sample python38 py38_lower Unbounded Hr Hp eq_refl eq_refl) as (r & s' & E & _ & H).
  exists r, s'. split; [done|]. rewrite (H linux_env (EnvExtras []) (proj1 linux_env_possible)) by (by vm_compute). by vm_compute.
Defined.

Lemma complexify_simplify_roundtrip_witness : exists r s1 c s2, simplify_python_versions python38 py38_lower Unbounded sample = Ret (r, s1) /\
  complexify_python_versions r py38_lower Unbounded s1 = Ret (c, s2) /\
  exists b, evaluate_reporter sample linux_env (EnvExtras []) python38 = Ret b /\
    evaluate_reporter s2 linux_env (EnvExtras []) c = Ret (b && python_between py38_lower Unbounded linux_env).
Proof.
  destruct sample_spec as (Hr & _ & _ & Hp & _).
  destruct (complexify_simplify_roundtrip sample python38 py38_lower Unbounded Hr Hp eq_refl eq_refl) as (r & s1 & c & s2 & E1 & E2 & H).
  { apply Forall_forall. by vm_compute; repeat constructor. }
  exists r, s1, c, s2. split; [done|]. split; [done|]. apply H, linux_env_possible.
Defined.

Lemma python_version_translation_exact_witness :
  exists o, python_version_to_full_version (mkSpec GreaterThan (release_of [3; 8])) = Ret o /\
    match o with Ok sp' => release_holds (operator sp') (release (spec_version sp')) [3; 8; 5] | Err c => node_is_true c end = false.
Proof.
  destruct (python_version_translation_exact (mkSpec GreaterThan (release_of [3; 8])) eq_refl eq_refl eq_refl) as (o & E & H).
  exists o. split; [done|]. rewrite <- H by (by repeat constructor). done.
Defined.

Lemma node_id_roundtrip_witness : 0 <= 5 < 2 ^ 63 - 1 /\ node_index (node_id_new 5 true) = 5.
Proof. split; [lia|]. apply (node_id_roundtrip 5 true). lia. Defined.

Lemma dnf_evaluates_witness : exists d, to_dnf sample python38 = Ret d /\ dnf_holds (expr_meaning linux_env (EnvExtras [])) d = true.
Proof.
  destruct sample_spec as (Hr & _ & _ & Hp & _).
  destruct (dnf_evaluates sample python38 Hr Hp (sample_printable _) ltac:(done)) as (d & E & H). exists d. split; [done|].
  pose proof (proj2 (H linux_env (EnvExtras []) linux_env_release) linux_env_platforms) as Hm. assert (Ret true = Ret (dnf_holds (expr_meaning linux_env (EnvExtras [])) d)) as [= <-]; [|done].
  rewrite <- Hm. by vm_compute.
Defined.

Lemma top_level_extra_required_witness : top_level_extra sample dev_extra = Ret (Some dev_expr) /\ expr_holds linux_env (EnvExtras [bs "dev"]) dev_expr = true.
Proof.
  destruct sample_spec as (Hr & _ & _ & _ & Hd). assert (E : top_level_extra sample dev_extra = Ret (Some dev_expr)) by (by vm_compute).
  split; [done|]. apply (top_level_extra_required sample dev_extra dev_expr Hr Hd (sample_printable _) ltac:(done) E linux_env (EnvExtras [bs "dev"]) linux_env_release).
  by vm_compute.
Defined.

(** ** Where the code departs from its description *)

(** [extra == 'dev'] complexified with [>=3.8], and the conjunction of the same two
    markers: the same function of the environment, as two different nodes, since
    the first decides on [python_full_version] below the extra.  The comparison of
    identifiers then tells equivalent markers apart. *)
Lemma complexify_misordered :
  outcome_map fst ((let* c := complexify_python_versions dev_extra py38_lower Unbounded in
    let* a := interner_and dev_extra python38 in
    let* s := mget in
    mpure (c =? a, map (fun id => support s id) [c; a])) sample) =
  Ret (false, [[VExtra (bs "dev"); VVersion CPythonFullVersion]; [VVersion CPythonFullVersion; VExtra (bs "dev")]]).
Proof. by vm_compute. Qed.

(** [python_version != '3.9.1.*'] and [python_version not in '3.9.1'] hold of every
    [python_version] of two segments, and are lowered to the marker that never
    holds; so is [python_version in '3.9.1 3.12'], which holds of Python 3.12. *)
Lemma python_version_never :
  map (fun e => outcome_map fst (expression e sample))
    [EVersion PythonVersion (mkSpec NotEqualStar (release_of [3; 9; 1]));
     EVersionIn PythonVersion [release_of [3; 9; 1]] ContainerNotIn;
     EVersionIn PythonVersion [release_of [3; 9; 1]; release_of [3; 12]] ContainerIn] =
    [Ret node_false; Ret node_false; Ret node_false] /\
  release_holds NotEqualStar [3; 9; 1] [3; 12] = true /\ release_holds Equal [3; 12] [3; 12] = true.
Proof. by vm_compute. Qed.

Definition full_expr (op : Operator) (r : list Z) : MarkerExpression := EVersion PythonFullVersion (mkSpec op (release_of r)).

(** [(python_full_version <= '3.8' and python_full_version not in '3.8.0') or
    python_full_version >= '3.9'] does not hold of Python 3.8.1 and is printed as
    [python_full_version != '3.8.0.*'], which does; with [python_version >= '3.8']
    interned before, the same marker is printed as [python_full_version != '3.8.*']. *)
Lemma star_bound_untrimmed :
  let m := let* a := expression (full_expr LessThanEqual [3; 8]) in
    let* b := expression (EVersionIn PythonFullVersion [release_of [3; 8; 0]] ContainerNotIn) in
    let* c := expression (full_expr GreaterThanEqual [3; 9]) in
    let* ab := interner_and a b in
    let* id := interner_or ab c in
    let* s := mget in
    mlift (try_to_string s id) in
  let fresh : Interner := interner_default in
  outcome_map fst (m fresh) = Ret (Some (bs "python_full_version != '3.8.0.*'")) /\
  outcome_map fst (m sample) = Ret (Some (bs "python_full_version != '3.8.*'")) /\
  release_holds NotEqualStar [3; 8; 0] [3; 8; 1] = true /\ release_holds NotEqualStar [3; 8] [3; 8; 1] = false.
Proof. by vm_compute. Qed.

(** [top_level_extra_name] names [dev] for [extra == 'dev' or extra == 'test'], which
    does not require it; [top_level_extra] finds nothing. *)
Lemma top_level_extra_name_of_disjunction :
  outcome_map fst ((let* test := expression (EExtra (ExtraNameValue (bs "test")) ExtraEqual) in
    let* id := interner_or dev_extra test in
    let* s := mget in
    let* name := mlift (top_level_extra_name s id) in
    let* e := mlift (top_level_extra s id) in
    let* held := mlift (evaluate s id linux_env [bs "test"]) in
    mpure (name, e, held)) sample) = Ret (Some (bs "dev"), None, true).
Proof. by vm_compute. Qed.
