(* ===== verification/MarkerTextWitness.v ===== *)
(** * The parser of markers on a sample state

    The theorems on reading and printing markers, applied to the interner of
    [MarkerWitness]; and two texts on which reading and printing depart from their
    description. *)

From Stdlib Require Import ZArith Lia String.
From stdpp Require Import base list gmap relations.
From S2P Require Import Prelude.
From S2P Require Import VersionRepr.
From S2P Require Import Specifier.
From S2P Require Import Cursor.
From S2P Require Import RangeSet.
From S2P Require Import Stateful.
From S2P Require Import MarkerEdges.
From S2P Require Import MarkerTypes.
From S2P Require Import RangeInstances.
From S2P Require Import MarkerAlgebra.
From S2P Require Import MarkerTree.
From S2P Require Import MarkerExpr.
From S2P Require Import MarkerDnf.
From S2P Require Import MarkerPaths.
From S2P Require Import MarkerTheorems.
From S2P Require Import MarkerParser.
From S2P Require Import MarkerComparison.
From S2P Require Import MarkerText.
From S2P Require Import MarkerRoundtrip.
From S2P Require Import MarkerWitness.
Open Scope Z_scope.

#[local] Instance one_column : CharWidth := fun _ => Some 1%nat.


(** ['linux'==sys_platform and extra == 'dev'] *)
Definition linux_dev : Formula := FAnd (FExpr linux_expr) (FExpr dev_expr).

Lemma linux_dev_text : or_text 1 linux_dev (bs "'linux'==sys_platform and extra == 'dev'").
Proof.
  apply chained_one. exists (FExpr linux_expr), (bs "'linux'==sys_platform"), (bs " and extra == 'dev'"). split; [|split; [|done]].
  - left. exists [], linux_expr, (bs "'linux'==sys_platform"). split; [constructor|]. split; [done|]. split; [|done].
    exists (QuotedString (bs "linux")), MEqual, (MarkerEnvString SysPlatform), (quoted (bs "linux")), (bs "=="), (bs "sys_platform"), [], [].
    split; [by apply quoted_text; repeat constructor|]. split; [apply (op_symbol "==" MEqual); unfold symbols; cbn; tauto|].
    split; [by apply string_key_text|]. split; [constructor|]. split; [constructor|]. split; [by right; left|]. split; [by right; left|].
    split; [by apply compares_string_left|done].
  - eapply (chain_more (bs "and") FAnd (atom_text (or_text 0)) (FExpr linux_expr) linux_dev (FExpr dev_expr) (bs " ") (bs " ") (bs "extra == 'dev'") []); [by repeat constructor|done|by repeat constructor|done| |constructor].
    left. exists [], dev_expr, (bs "extra == 'dev'"). split; [constructor|]. split; [done|]. split; [by apply (display_comparison dev_expr)|done].
Qed.

Lemma grammar_evaluates_witness : exists t w s', parse_markers (bs "'linux'==sys_platform and extra == 'dev' ") sample = Ret ((Ok t, w), s') /\
  evaluate_reporter s' linux_env (EnvExtras [bs "dev"]) t = Ret true.
Proof.
  destruct (grammar_evaluates sample 1 linux_dev (bs "'linux'==sys_platform and extra == 'dev'") (bs " ")) as (t & w & s' & E & _ & _ & _ & H);
    [apply sample_spec|apply linux_dev_text|by repeat constructor|].
  exists t, w, s'. split; [exact E|]. rewrite H by (apply linux_env_release || apply linux_env_possible || apply linux_env_platforms). by vm_compute.
Defined.

Lemma sample_quotable t : quotable sample t.
Proof. apply all_nodes_store. vm_compute. reflexivity. Qed.

Lemma marker_text_roundtrip_witness : exists t' w s', parse_markers (bs "os_name == 'nt'") sample = Ret ((Ok t', w), s') /\
  evaluate_reporter s' linux_env (EnvExtras []) t' = Ret false.
Proof.
  destruct sample_spec as (Hr & _ & Hw & _).
  destruct (marker_text_roundtrip sample windows linux_env (EnvExtras []) Hr Hw) as (text & t' & w & s' & Et & E & _ & _ & _ & H);
    [apply sample_printable|apply sample_quotable|apply linux_env_release|by vm_compute|].
  assert (Ret (Some text) = Ret (Some (bs "os_name == 'nt'"))) as [= ->] by (rewrite <- Et; by vm_compute).
  exists t', w, s'. split; [exact E|]. rewrite H by (apply linux_env_release || apply linux_env_possible). by vm_compute.
Defined.

(** ** Where the code departs from its description *)

(** The grammar in the comments of the parser has optional white space between an
    operator and a parenthesis; the parser takes [and(os_name] as one word. *)
Lemma operator_before_parenthesis :
  match parse_markers (bs "extra == 'dev' and(os_name == 'nt')") sample, parse_markers (bs "extra == 'dev' and (os_name == 'nt')") sample with
  | Ret ((Err _, _), _), Ret ((Ok _, _), _) => true
  | _, _ => false
  end = true.
Proof. by vm_compute. Qed.

(** A value in double quotes may have a single quote; it is printed between single
    quotes, which is not the text of a marker. *)
Lemma quote_not_escaped :
  outcome_map fst ((let* r := parse_markers [111; 115; 95; 110; 97; 109; 101; 32; 61; 61; 32; 34; 97; 39; 98; 34] in
    let* s := mget in
    match r.1 with
    | Ok t =>
        let* text := mlift (try_to_string s t) in
        match text with
        | Some text => let* again := parse_markers text in mpure (Some (text, match again.1 with Ok _ => true | Err _ => false end))
        | None => mpure None
        end
    | Err _ => mpure None
    end) sample) = Ret (Some (bs "os_name == 'a'b'", false)).
Proof. by vm_compute. Qed.
