(* ===== verification/Requirement.v ===== *)
(** * Requirements (PEP 508)

    Models [crates/uv-pep508/src/lib.rs]: the type [Requirement], its parser
    ([parse_pep508_requirement] and the parsers of names, extras, URLs and version
    specifiers), its [Display] and its [CacheKey]; with [expand_env_vars] and
    [split_scheme] of verbatim_url.rs and [RequirementOrigin] of origin.rs.

    The parser runs on the cursor and the interner as the parser of markers does.
    The URL type is an interface ([Pep508Url]), and so are the variables and the
    working directory of the process ([ProcessEnv]). *)

From Stdlib Require Import ZArith Lia String.
From stdpp Require Import base list.
From S2P Require Import Prelude.
From S2P Require Import VersionRepr.
From S2P Require Import VersionOrder.
From S2P Require Import CacheKey.
From S2P Require Import VersionParser.
From S2P Require Import VersionDisplay.
From S2P Require Import Specifier.
From S2P Require Import SpecifierParser.
From S2P Require Import SpecifierErrors.
From S2P Require Import Normalize.
From S2P Require Import DistExtension.
From S2P Require Import Cursor.
From S2P Require Import RangeSet.
From S2P Require Import Stateful.
From S2P Require Import MarkerEdges.
From S2P Require Import MarkerTypes.
From S2P Require Import RangeInstances.
From S2P Require Import MarkerAlgebra.
From S2P Require Import MarkerTree.
From S2P Require Import MarkerDnf.
From S2P Require Import MarkerParser.
Open Scope Z_scope.

(** ** Interfaces *)

(** [Pep508Url]: parsing with the working directory fixed, an error being its text;
    the two displays, and the cache key. *)
Class Pep508Url (U : Type) := {
  url_parse : Str -> result U Str;
  url_display : U -> Str;
  url_displayable_with_credentials : U -> Str;
  url_cache_key : U -> list write;
}.

(** [std::env::var] and [std::env::current_dir] *)
Class ProcessEnv := { env_var : Str -> option Str; current_dir : option Str }.

(** ** verbatim_url.rs *)

Definition is_var_char (c : Z) : bool := is_ascii_upper c || is_ascii_digit c || (c =? 95).

(** A match of the regular expression [\$\{[A-Z0-9_]+\}] at the start: the name and
    what follows. *)
Definition match_var (s : Str) : option (Str * Str) :=
  match s with
  | c :: d :: rest =>
      if (c =? 36) && (d =? 123) then
        match take_while is_var_char rest, drop_while is_var_char rest with
        | (_ :: _) as name, e :: after => if e =? 125 then Some (name, after) else None
        | _, _ => None
        end
      else None
  | _ => None
  end.

(** The replacement of a match. *)
Definition substitute_var `{ProcessEnv} (name : Str) : outcome Str :=
  match env_var name with
  | Some value => Ret value
  | None =>
      if bytes_eqb name (bs "PROJECT_ROOT") then unwrap current_dir
      else Ret (bs "${" ++ name ++ bs "}")
  end.

(** [replace_all]: the leftmost matches, from left to right. *)
Fixpoint expand_loop `{ProcessEnv} (fuel : nat) (s : Str) : outcome Str :=
  match fuel with
  | O => Panic
  | S fuel' =>
      match s with
      | [] => Ret []
      | c :: rest =>
          match match_var s with
          | Some (name, after) =>
              let! value := substitute_var name in
              let! tail := expand_loop fuel' after in
              Ret (value ++ tail)
          | None => let! tail := expand_loop fuel' rest in Ret (c :: tail)
          end
      end
  end.

(** [expand_env_vars] *)
Definition expand_env_vars `{ProcessEnv} (s : Str) : outcome Str := expand_loop (S (length s)) s.

(** [str::trim_matches] *)
Definition trim_matches (p : Z -> bool) (s : Str) : Str := rev (drop_while p (rev (drop_while p s))).

Definition is_scheme_char (c : Z) : bool := is_ascii_alphanumeric c || (c =? 43) || (c =? 45) || (c =? 46).

Fixpoint split_scheme_loop (scheme s : Str) : option (Str * Str) :=
  match s with
  | c :: rest =>
      if is_scheme_char c then split_scheme_loop (scheme ++ [c]) rest
      else if c =? 58 then Some (scheme, rest)
      else None
  | [] => None
  end.

(** [split_scheme] *)
Definition split_scheme (s : Str) : option (Str * Str) :=
  let s := trim_matches (fun c => c <=? 32) s in
  match s with
  | c :: _ => if is_ascii_alphabetic c then split_scheme_loop [] s else None
  | [] => None
  end.

(** ** Helpers of lib.rs *)

(** [split_extras]: from the end back to the bracket that opens the last group. *)
Definition split_extras (given : Str) : option (Str * Str) :=
  match rev given with
  | 93 :: chars =>
      let inside := take_while (fun c => negb (c =? 93)) chars in
      let name := take_while (fun c => negb (c =? 91)) inside in
      if Nat.ltb (length name) (length inside) then
        let index := (length given - (2 + length name))%nat in
        Some (take index given, drop index given)
      else None
  | _ => None
  end.

(** [looks_like_archive] *)
Definition looks_like_archive (file : Str) : bool :=
  match path_extension file with
  | None => false
  | Some extension =>
      let pre_extension := match path_stem file with Some stem => path_extension stem | None => None end in
      bytes_eqb extension (bs "whl") || bytes_eqb extension (bs "zip") || bytes_eqb extension (bs "tgz") || bytes_eqb extension (bs "tar")
      || (match pre_extension with Some pre => bytes_eqb pre (bs "tar") | None => false end && bytes_eqb extension (bs "gz"))
  end.

(** [looks_like_unnamed_requirement], on the text read from the cursor. *)
Definition looks_like_path `{ProcessEnv} (url : Str) : outcome bool :=
  let! expanded := expand_env_vars url in
  let url := match split_extras expanded with Some (url, _) => url | None => expanded end in
  Ret match url with
      | [] => false
      | first_char :: _ =>
          ((first_char =? 92) || (first_char =? 47) || (first_char =? 46))
          || is_some (split_scheme url)
          || existsb (fun c => (c =? 47) || (c =? 92)) url
          || looks_like_archive url
      end.

Definition looks_like_unnamed_requirement `{ProcessEnv} (c : Cursor) : outcome (bool * Cursor) :=
  let '(span, c) := cursor_take_while c (fun c => negb (is_whitespace c)) in
  let! url := cursor_slice c span.1 span.2 in
  let! r := looks_like_path url in
  Ret (r, c).

(** ** Names and extras *)

Definition is_name_char (c : Z) : bool := is_ascii_alphanumeric c || (c =? 46) || (c =? 45) || (c =? 95).

Section lexical.
Context `{ProcessEnv} `{StdText} {Sc : Type} `{Scanner Sc}.

(** The error for a path or URL without a name, when the text from [start] looks
    like one; else [k]. *)
Definition unnamed_or {A} (start : nat) (message : Str) (k : Lex A) : Lex A :=
  let* cursor := read_cursor id in
  let* clone := mlift (cursor_at cursor start) in
  let* r := mlift (looks_like_unnamed_requirement clone) in
  if fst r then fail (mkPep508Error (UnsupportedRequirement message) start (cursor_pos (snd r) - start) (cursor_input (snd r))) else k.

(** [parse_name] *)
Definition parse_requirement_name : Lex Str :=
  let* start := read_cursor cursor_pos in
  let* n := with_cursor cursor_next in
  match n with
  | None => fail_at (bs "Empty field is not allowed for PEP508") 0 1
  | Some (index, char) =>
      if negb (is_ascii_alphanumeric char) then
        unnamed_or start
          (bs "URL requirement must be preceded by a package name. Add the name of the package before the URL (e.g., `package_name @ /path/to/file`).")
          (fail_at (bs "Expected package name starting with an alphanumeric character, found `" ++ [char] ++ bs "`") index (len_utf8 char))
      else
        let* _ := with_cursor (fun c => cursor_take_while c is_name_char) in
        let* pos := read_cursor cursor_pos in
        let* text := slice_cursor start (pos - start) in
        let* l := mlift (unwrap (last text)) in
        if negb (is_ascii_alphanumeric l) then
          fail_at (bs "Package name must end with an alphanumeric character, not `" ++ [l] ++ bs "`") (pos - len_utf8 l) (len_utf8 l)
        else
          match validate_and_normalize_ref text with
          | Ok name => ok name
          | Err _ => mpanic
          end
  end.

(** What precedes an extra: a comma, but not before the first. *)
Definition extras_separator (is_first_iteration : bool) : Lex unit :=
  let* p := read_cursor peek in
  match p with
  | Some (pos, char) =>
      if char =? 44 then
        if is_first_iteration then
          fail_at (bs "Expected either alphanumerical character (starting the extra name) or `]` (ending the extras section), found `,`") pos 1
        else let* _ := with_cursor cursor_next in ok tt
      else if is_first_iteration then ok tt
      else fail_at (bs "Expected either `,` (separating extras) or `]` (ending the extras section), found `" ++ [char] ++ bs "`") pos (len_utf8 char)
  | None => ok tt
  end.

(** What follows an extra. *)
Definition extras_terminator : Lex unit :=
  let* p := read_cursor peek in
  match p with
  | Some (pos, char) =>
      if negb (char =? 44) && negb (char =? 93) && negb (is_whitespace char) then
        fail_at (bs "Invalid character in extras name, expected an alphanumeric character, `-`, `_`, `.`, `,` or `]`, found `" ++ [char] ++ bs "`")
          pos (len_utf8 char)
      else ok tt
  | None => ok tt
  end.

(** An identifier of the list of extras. *)
Definition parse_extra (bracket_pos : nat) : Lex Str :=
  let* n := with_cursor cursor_next in
  match n with
  | None => fail_at (bs "Missing closing bracket (expected ']', found end of dependency specification)") bracket_pos 1
  | Some (pos, char) =>
      if negb (is_ascii_alphanumeric char) then
        fail_at (bs "Expected an alphanumeric character starting the extra name, found `" ++ [char] ++ bs "`") pos (len_utf8 char)
      else
        let* span := with_cursor (fun c => cursor_take_while c is_name_char) in
        let* rest := slice_cursor span.1 span.2 in
        let buffer := char :: rest in
        let? _ := extras_terminator in
        let* pos := read_cursor cursor_pos in
        match last buffer with
        | Some l =>
            if (l =? 45) || (l =? 95) || (l =? 46) then
              fail_at (bs "Extra name must end with an alphanumeric character, not `" ++ [l] ++ bs "`") (pos - len_utf8 l) (len_utf8 l)
            else
              let* _ := skip_space in
              match validate_and_normalize_ref buffer with Ok name => ok name | Err _ => mpanic end
        | None => mpanic
        end
  end.

Fixpoint extras_loop (fuel : nat) (bracket_pos : nat) (extras : list Str) (is_first_iteration : bool) : Lex (list Str) :=
  match fuel with
  | O => mpanic
  | S fuel' =>
      let* c := read_cursor peek_char in
      if match c with Some c => c =? 93 | None => false end then
        let* _ := with_cursor cursor_next in ok extras
      else
        let? _ := extras_separator is_first_iteration in
        let* _ := skip_space in
        let? extra := parse_extra bracket_pos in
        extras_loop fuel' bracket_pos (extras ++ [extra]) false
  end.

(** [parse_extras_cursor]: an extra takes a character. *)
Definition parse_extras_cursor : Lex (list Str) :=
  let* bracket := with_cursor (fun c => eat_char c 91) in
  match bracket with
  | None => ok []
  | Some bracket_pos =>
      let* _ := skip_space in
      let* rest := read_cursor cursor_chars in
      extras_loop (S (length rest)) bracket_pos [] true
  end.

(** ** URLs *)

Definition is_url_end (o : option Z) : bool := match o with Some c => (c =? 59) || (c =? 35) | None => false end.

(** White space ends a URL before a marker, a comment or the end. *)
Definition space_ends_url (c : Cursor) : bool :=
  match peek_char (eat_whitespace c) with None => true | o => is_url_end o end.

(** A semicolon or hash before white space ends a URL. *)
Definition mark_ends_url (c : Cursor) : bool :=
  is_url_end (peek_char c) && match peek_char (cursor_next c).2 with Some c => is_whitespace c | None => false end.

Fixpoint url_loop (fuel : nat) (len : nat) : M Scan nat :=
  match fuel with
  | O => mpanic
  | S fuel' =>
      let* n := with_cursor cursor_next in
      match n with
      | None => mpure len
      | Some (_, c) =>
          if (c =? 13) || (c =? 10) then mpure len
          else
            let* stop := read_cursor space_ends_url in
            if is_whitespace c && stop then mpure len
            else
              let len := (len + len_utf8 c)%nat in
              let* stop := read_cursor mark_ends_url in
              if stop then mpure len else url_loop fuel' len
      end
  end.

(** [parse_url] *)
Definition parse_url {U} `{Pep508Url U} : Lex U :=
  let* _ := skip_space in
  let* start := read_cursor cursor_pos in
  let* rest := read_cursor cursor_chars in
  let* len := url_loop (S (length rest)) 0 in
  let* url := slice_cursor start len in
  match url with
  | [] => fail_at (bs "Expected URL") start len
  | _ =>
      match url_parse url with
      | Ok url => ok url
      | Err err => let* input := read_cursor cursor_input in fail (mkPep508Error (UrlError err) start len input)
      end
  end.

(** ** Version specifiers *)

(** [parse_specifier] *)
Definition parse_specifier (buffer : Str) (start fin : nat) : Lex VersionSpecifier :=
  let* r := mlift (specifier_from_str (S := Sc) buffer) in
  match r with
  | Ok specifier => ok specifier
  | Err err => let* message := mlift (specifier_error_display err) in fail_at message start (fin - start)
  end.

Definition blank (buffer : Str) : bool := forallb is_whitespace buffer.

Definition is_nil {A} (l : list A) : bool := match l with [] => true | _ => false end.

(** The loop of [parse_version_specifier]. *)
Fixpoint specifier_loop (fuel : nat) (start : nat) (specifiers : list VersionSpecifier) (buffer : Str) : Lex (list VersionSpecifier) :=
  match fuel with
  | O => mpanic
  | S fuel' =>
      let* p := read_cursor peek in
      let finish :=
        if blank buffer && negb (is_nil specifiers) then ok (from_unsorted specifiers)
        else
          let* fin := read_cursor cursor_pos in
          let? specifier := parse_specifier buffer start fin in
          ok (from_unsorted (specifiers ++ [specifier])) in
      match p with
      | None => finish
      | Some (fin, char) =>
          if char =? 44 then
            let? specifier := parse_specifier buffer start fin in
            let* _ := with_cursor cursor_next in
            specifier_loop fuel' (fin + 1) (specifiers ++ [specifier]) []
          else if char =? 59 then finish
          else
            let* _ := with_cursor cursor_next in
            specifier_loop fuel' start specifiers (buffer ++ [char])
      end
  end.

(** [parse_version_specifier] *)
Definition parse_version_specifier : Lex (list VersionSpecifier) :=
  let* start := read_cursor cursor_pos in
  let* rest := read_cursor cursor_chars in
  specifier_loop (S (length rest)) start [] [].

(** The loop of [parse_version_specifier_parentheses]. *)
Fixpoint parentheses_loop (fuel : nat) (brace_pos start : nat) (specifiers : list VersionSpecifier) (buffer : Str) : Lex (list VersionSpecifier) :=
  match fuel with
  | O => mpanic
  | S fuel' =>
      let* n := with_cursor cursor_next in
      match n with
      | None => fail_at (bs "Missing closing parenthesis (expected ')', found end of dependency specification)") brace_pos 1
      | Some (fin, char) =>
          if char =? 44 then
            let? specifier := parse_specifier buffer start fin in
            parentheses_loop fuel' brace_pos (fin + 1) (specifiers ++ [specifier]) []
          else if char =? 41 then
            if blank buffer && negb (is_nil specifiers) then ok (from_unsorted specifiers)
            else
              let? specifier := parse_specifier buffer start fin in
              ok (from_unsorted (specifiers ++ [specifier]))
          else parentheses_loop fuel' brace_pos start specifiers (buffer ++ [char])
      end
  end.

(** [parse_version_specifier_parentheses] *)
Definition parse_version_specifier_parentheses : Lex (list VersionSpecifier) :=
  let* brace_pos := read_cursor cursor_pos in
  let* _ := with_cursor cursor_next in
  let* _ := skip_space in
  let* start := read_cursor cursor_pos in
  let* rest := read_cursor cursor_chars in
  parentheses_loop (S (length rest)) brace_pos start [] [].
End lexical.

(** ** [Requirement] *)

(** [RequirementOrigin] (origin.rs), a path being its text. *)
Inductive RequirementOrigin :=
| OriginFile (path : Str)
| OriginProject (path name : Str)
| OriginGroup (path : Str) (name : option Str) (group : Str)
| OriginWorkspace.

Definition origin_path (o : RequirementOrigin) : Str :=
  match o with
  | OriginFile path | OriginProject path _ | OriginGroup path _ _ => path
  | OriginWorkspace => bs "(workspace)"
  end.

Inductive VersionOrUrl (U : Type) :=
| VersionSpecifiersOf (specifiers : list VersionSpecifier)
| UrlOf (url : U).
Arguments VersionSpecifiersOf {U} specifiers.
Arguments UrlOf {U} url.

Record Requirement (U : Type) := mkRequirement {
  requirement_name : Str;
  requirement_extras : list Str;
  version_or_url : option (VersionOrUrl U);
  requirement_marker : NodeId;
  requirement_origin : option RequirementOrigin;
}.
Arguments mkRequirement {U} requirement_name requirement_extras version_or_url requirement_marker requirement_origin.
Arguments requirement_name {U} r.
Arguments requirement_extras {U} r.
Arguments version_or_url {U} r.
Arguments requirement_marker {U} r.
Arguments requirement_origin {U} r.

(** [clear_url] *)
Definition clear_url {U} (r : Requirement U) : Requirement U :=
  match version_or_url r with
  | Some (UrlOf _) => mkRequirement (requirement_name r) (requirement_extras r) None (requirement_marker r) (requirement_origin r)
  | _ => r
  end.

(** [with_origin] *)
Definition with_origin {U} (r : Requirement U) (origin : RequirementOrigin) : Requirement U :=
  mkRequirement (requirement_name r) (requirement_extras r) (version_or_url r) (requirement_marker r) (Some origin).

Section requirement.
Context {RV RS : Type} `{!RangeSet Version RV} `{!RangeSet Str RS} `{Alphabetic}.
Context {U : Type} `{Pep508Url U} `{ProcessEnv} `{StdText} {Sc : Type} `{Scanner Sc}.

Abbreviation Interner := (InternerOf RV RS).
Abbreviation Parse := (fun A => M (Scan * Interner) (result A Pep508Error)).

(** What may follow the name and extras. *)
Definition is_specifier_start (c : Z) : bool := (c =? 60) || (c =? 61) || (c =? 62) || (c =? 126) || (c =? 33).

Definition parse_requirement_kind (start : nat) : Lex (option (VersionOrUrl U)) :=
  let* c := read_cursor peek_char in
  match c with
  | None => ok None
  | Some char =>
      if char =? 64 then
        let* _ := with_cursor cursor_next in
        let? url := parse_url in ok (Some (UrlOf url))
      else if char =? 40 then
        let? specifiers := parse_version_specifier_parentheses (Sc := Sc) in ok (Some (VersionSpecifiersOf specifiers))
      else if is_specifier_start char then
        let? specifiers := parse_version_specifier (Sc := Sc) in ok (Some (VersionSpecifiersOf specifiers))
      else if char =? 59 then ok None
      else
        unnamed_or start
          (bs "URL requirement must be preceded by a package name. Add the name of the package before the URL (e.g., `package_name @ https://...`).")
          (let* pos := read_cursor cursor_pos in
           fail_at (bs "Expected one of `@`, `(`, `<`, `=`, `>`, `~`, `!`, `;`, found `" ++ [char] ++ bs "`") pos (len_utf8 char))
  end.

(** A name alone that looks like an archive. *)
Definition reject_archive (start name_start name_end : nat) : Lex unit :=
  let* text := slice_cursor name_start (name_end - name_start) in
  if looks_like_archive text then
    let* cursor := read_cursor id in
    let* clone := mlift (cursor_at cursor start) in
    fail (mkPep508Error (UnsupportedRequirement
      (bs "URL requirement must be preceded by a package name. Add the name of the package before the URL (e.g., `package_name @ https://...`)."))
      start (cursor_pos clone - start) (cursor_input clone))
  else ok tt.

(** What is left must be a comment. *)
Definition requirement_end (marker : option NodeId) : Lex unit :=
  let* n := with_cursor cursor_next in
  match n with
  | None => ok tt
  | Some (pos, char) =>
      if char =? 35 then ok tt
      else
        let message :=
          if char =? 35 then
            bs "Expected end of input or `;`, found `" ++ [char] ++ bs "`; comments must be preceded by a leading space"
          else if is_none marker then bs "Expected end of input or `;`, found `" ++ [char] ++ bs "`"
          else bs "Expected end of input, found `" ++ [char] ++ bs "`" in
        fail_at message pos (len_utf8 char)
  end.

(** The marker after a semicolon. *)
Definition parse_quoted_marker : Parse (option NodeId) :=
  let* c := scanning (read_cursor peek_char) in
  if match c with Some c => c =? 59 | None => false end then
    let* _ := scanning (with_cursor cursor_next) in parse_markers_cursor
  else ok None.

(** [parse_pep508_requirement] *)
Definition parse_pep508_requirement : Parse (Requirement U) :=
  let* start := scanning (read_cursor cursor_pos) in
  let* _ := scanning skip_space in
  let* name_start := scanning (read_cursor cursor_pos) in
  let? name := scanning parse_requirement_name in
  let* name_end := scanning (read_cursor cursor_pos) in
  let* _ := scanning skip_space in
  let? extras := scanning parse_extras_cursor in
  let* _ := scanning skip_space in
  let? kind := scanning (parse_requirement_kind start) in
  let? _ := match kind with None => scanning (reject_archive start name_start name_end) | Some _ => ok tt end in
  let* _ := scanning skip_space in
  let? marker := parse_quoted_marker in
  let* _ := scanning skip_space in
  let? _ := scanning (requirement_end marker) in
  ok (mkRequirement name extras kind (default node_true marker) None).

(** [FromStr for Requirement] and [Requirement::parse] *)
Definition requirement_from_str (input : Str) : M Interner (result (Requirement U) Pep508Error * list MarkerWarningKind) := fun s =>
  match parse_pep508_requirement (mkScan (cursor_new input) [], s) with
  | Ret (r, (scan, s')) => Ret ((r, warnings scan), s')
  | Panic => Panic
  end.

(** ** Display and cache key *)

Definition version_or_url_display (display_credentials : bool) (v : VersionOrUrl U) : Str :=
  match v with
  | VersionSpecifiersOf specifiers => format_sep (bs ",") (map specifier_display specifiers)
  | UrlOf url => bs " @ " ++ (if display_credentials then url_displayable_with_credentials url else url_display url)
  end.

(** [fmt_requirement] *)
Definition fmt_requirement (s : Interner) (r : Requirement U) (display_credentials : bool) : outcome Str :=
  let! marker := try_to_string s (requirement_marker r) in
  Ret (requirement_name r ++
    (if is_nil (requirement_extras r) then [] else bs "[" ++ format_sep (bs ",") (requirement_extras r) ++ bs "]") ++
    match version_or_url r with Some v => version_or_url_display display_credentials v | None => [] end ++
    match marker with Some marker => bs " ; " ++ marker | None => [] end).

Definition requirement_display (s : Interner) (r : Requirement U) : outcome Str := fmt_requirement s r false.

(** [CacheKey for Requirement]; the lengths and texts are written one after the
    other. *)
Definition text_key (s : Str) : list write := cache_key (mkStr (utf8 s)).

Definition specifier_key (sp : VersionSpecifier) : list write := text_key (as_str (operator sp)) ++ version_cache_key (spec_version sp).

Definition requirement_cache_key (s : Interner) (r : Requirement U) : outcome (list write) :=
  let! marker := try_to_string s (requirement_marker r) in
  Ret (text_key (requirement_name r) ++
    cache_key (length (requirement_extras r)) ++ flat_map text_key (requirement_extras r) ++
    match version_or_url r with
    | Some (VersionSpecifiersOf specifiers) =>
        [WriteU8 1; WriteU8 0] ++ cache_key (length specifiers) ++ flat_map specifier_key specifiers
    | Some (UrlOf url) => [WriteU8 1; WriteU8 1] ++ url_cache_key url
    | None => [WriteU8 0]
    end ++
    match marker with
    | Some marker => WriteU8 1 :: text_key marker
    | None => [WriteU8 0]
    end).

(** [with_extra_marker] *)
Definition with_extra_marker (r : Requirement U) (extra : Str) : M Interner (Requirement U) :=
  let* e := expression (EExtra (ExtraNameValue extra) ExtraEqual) in
  let* marker := interner_and (requirement_marker r) e in
  mpure (mkRequirement (requirement_name r) (requirement_extras r) (version_or_url r) marker (requirement_origin r)).

(** [evaluate_markers] *)
Definition evaluate_markers (s : Interner) (r : Requirement U) (env : MarkerEnvironment) (extras : list Str) : outcome bool :=
  evaluate s (requirement_marker r) env extras.
End requirement.
