(* ===== verification/RequirementParse.v ===== *)
(** * No text makes the parser of requirements panic

    Every parser of [Requirement] returns, with errors whose spans can be
    underlined, and with values in their normal form.  The one exception is the
    error for an empty requirement, whose span is the first byte of the text. *)

From Stdlib Require Import ZArith Lia String.
From stdpp Require Import base list relations.
From S2P Require Import Prelude.
From S2P Require Import VersionRepr.
From S2P Require Import VersionOrder.
From S2P Require Import CacheKey.
From S2P Require Import VersionParser.
From S2P Require Import VersionDisplay.
From S2P Require Import Specifier.
From S2P Require Import SpecifierParser.
From S2P Require Import SpecifierErrors.
From S2P Require Import Normalize.
From S2P Require Import DistExtension.
From S2P Require Import Cursor.
From S2P Require Import RangeSet.
From S2P Require Import Stateful.
From S2P Require Import MarkerEdges.
From S2P Require Import MarkerTypes.
From S2P Require Import RangeInstances.
From S2P Require Import MarkerAlgebra.
From S2P Require Import MarkerStore.
From S2P Require Import MarkerTree.
From S2P Require Import MarkerExpr.
From S2P Require Import MarkerDnf.
From S2P Require Import MarkerTheorems.
From S2P Require Import MarkerParser.
From S2P Require Import Requirement.
Open Scope Z_scope.

(** ** Reading, continued *)

Section reading.
Context {A : Type}.
Implicit Types (Q : A -> Str -> Str -> Prop).

(** An error at an earlier part of the text. *)
Lemma reads_fail_span message c w before rest b0 y b1 Q : at_rest c before rest -> before = b0 ++ y ++ b1 ->
  reads (fail_at message (str_len b0) (str_len y)) c w before rest Q.
Proof.
  intros (Hi & _ & _) ->. eexists (Err _), c, w. split; [done|]. exists b0, y, (b1 ++ rest). cbn [pe_input pe_start pe_len scan_cursor].
  rewrite <- !app_assoc in *. auto.
Qed.

(** An error at the next character. *)
Lemma reads_fail_next message c w before x rest Q : at_rest c before (x :: rest) ->
  reads (fail_at message (str_len before) (len_utf8 x)) c w before (x :: rest) Q.
Proof.
  intros (Hi & _ & _). eexists (Err _), c, w. split; [done|]. exists before, [x], rest. cbn [pe_input pe_start pe_len scan_cursor].
  rewrite str_len_one. auto.
Qed.

Lemma reads_next (k : option (nat * Z) -> Lex A) c w before rest Q : at_rest c before rest ->
  (rest = [] -> reads (k None) c w before [] Q) ->
  (forall x rest' c', rest = x :: rest' -> at_rest c' (before ++ [x]) rest' ->
    reads (k (Some (str_len before, x))) c' w (before ++ [x]) rest' (fun a text r => Q a (x :: text) r)) ->
  reads (mseq (with_cursor cursor_next) k) c w before rest Q.
Proof.
  intros Hc Hn Hk. destruct rest as [|x rest].
  - pose proof (next_at_end _ _ Hc) as En. eapply reads_after with (text := []); [rewrite (seq_with c c w _ _ _ En); reflexivity|reflexivity|].
    rewrite app_nil_r. by apply Hn.
  - destruct (next_at _ _ _ _ Hc) as (c' & En & Hc'). eapply reads_after with (text := [x]); [rewrite (seq_with c c' w _ _ _ En); reflexivity|reflexivity|].
    by apply Hk.
Qed.

Lemma reads_read {B} (f : Cursor -> B) (k : B -> Lex A) c w before rest Q :
  reads (k (f c)) c w before rest Q -> reads (mseq (read_cursor f) k) c w before rest Q.
Proof. done. Qed.

(** The part of the text between two positions. *)
Lemma slice_at c before rest b0 y b1 : at_rest c before rest -> before ++ rest = b0 ++ y ++ b1 -> cursor_slice c (str_len b0) (str_len y) = Ret y.
Proof.
  intros (Hi & _ & _) E. unfold cursor_slice, slice. rewrite Hi, E, <- str_len_app, app_assoc, slice_to_app. cbn [obind]. by rewrite slice_from_app.
Qed.

Lemma reads_slice (k : Str -> Lex A) c w before rest b0 y b1 Q : at_rest c before rest -> before ++ rest = b0 ++ y ++ b1 ->
  reads (k y) c w before rest Q -> reads (mseq (slice_cursor (str_len b0) (str_len y)) k) c w before rest Q.
Proof.
  intros Hc E H. unfold reads. rewrite (seq_slice c w _ _ _ y) by (by eapply slice_at). exact H.
Qed.

Lemma reads_take p (k : nat * nat -> Lex A) c w before rest Q : at_rest c before rest ->
  (forall text rest' c', rest = text ++ rest' -> Forall (fun x => p x = true) text -> stops p rest' -> at_rest c' (before ++ text) rest' ->
    reads (k (str_len before, str_len text)) c' w (before ++ text) rest' (fun a t r => Q a (text ++ t) r)) ->
  reads (mseq (with_cursor (fun c => cursor_take_while c p)) k) c w before rest Q.
Proof.
  intros Hc Hk. destruct (take_while_at Hc p) as (c' & E & Hc' & _).
  eapply reads_after; [rewrite (seq_with c c' w _ _ _ E); reflexivity|symmetry; apply (take_drop_while p)|].
  apply Hk; [symmetry; apply take_drop_while|apply take_while_all|apply drop_while_stops|done].
Qed.

Lemma reads_lift {B} (o : outcome B) (k : B -> Lex A) b c w before rest Q : o = Ret b -> reads (k b) c w before rest Q ->
  reads (mseq (mlift o) k) c w before rest Q.
Proof. intros -> H. exact H. Qed.

Lemma reads_weaken (m : Lex A) c w before rest Q Q' : reads m c w before rest Q -> (forall a t r, Q a t r -> Q' a t r) -> reads m c w before rest Q'.
Proof.
  intros (r & c' & w' & E & Hr) HQ. exists r, c', w'. split; [done|]. destruct r as [a|]; [|done].
  destruct Hr as (t & r & H1 & H2 & H3). exists t, r. auto.
Qed.

(** Going back to an earlier position. *)
Lemma cursor_at_rest c before rest b0 b1 : at_rest c before rest -> before = b0 ++ b1 ->
  exists c', cursor_at c (str_len b0) = Ret c' /\ at_rest c' b0 (b1 ++ rest).
Proof.
  intros (Hi & _ & _) ->. unfold cursor_at. rewrite Hi, <- app_assoc, slice_from_app. cbn [obind]. eexists. split; [done|]. done.
Qed.
End reading.

Lemma peek_at c before rest : at_rest c before rest -> peek c = option_map (fun x => (str_len before, x)) (head rest).
Proof. intros Hc. unfold peek. rewrite (peek_char_at _ _ _ Hc). by destruct Hc as (_ & _ & ->). Qed.

Lemma Forall_snoc_2 {A} (P : A -> Prop) l x : Forall P l -> P x -> Forall P (l ++ [x]).
Proof. intros Hl Hx. apply Forall_app. split; [done|by constructor]. Qed.

(** ** Environment variables *)

Section environment.
Context `{ProcessEnv}.
Hypothesis has_current_dir : current_dir <> None.

Lemma match_var_shorter s name after : match_var s = Some (name, after) -> (length after < length s)%nat.
Proof.
  unfold match_var. destruct s as [|c [|d rest]]; [done..|]. destruct (_ && _); [|done].
  destruct (take_while is_var_char rest); [done|]. destruct (drop_while is_var_char rest) as [|e tail] eqn:Ed; [done|].
  destruct (e =? 125); [|done]. intros [= <- <-]. cbn.
  assert (length (drop_while is_var_char rest) <= length rest)%nat by (rewrite <- (take_drop_while is_var_char rest) at 2; rewrite length_app; lia).
  rewrite Ed in *. cbn in *. lia.
Qed.

Lemma substitute_total name : exists v, substitute_var name = Ret v.
Proof.
  unfold substitute_var. destruct (env_var name); [by eexists|]. destruct (bytes_eqb _ _); [|by eexists].
  destruct current_dir; [by eexists|done].
Qed.

Lemma expand_loop_total fuel s : (length s < fuel)%nat -> exists t, expand_loop fuel s = Ret t.
Proof.
  revert s. induction fuel as [|fuel IH]; intros s Hf; [lia|]. cbn [expand_loop]. destruct s as [|c rest]; [by eexists|].
  destruct (match_var (c :: rest)) as [[name after]|] eqn:Em.
  - destruct (substitute_total name) as [v ->]. apply match_var_shorter in Em. destruct (IH after) as [t ->]; [lia|]. by eexists.
  - cbn [length] in Hf. destruct (IH rest) as [t ->]; [lia|]. by eexists.
Qed.

Lemma looks_like_path_total url : exists b, looks_like_path url = Ret b.
Proof. unfold looks_like_path, expand_env_vars. destruct (expand_loop_total (S (length url)) url) as [t ->]; [lia|]. by eexists. Qed.

Lemma unnamed_or_reads {A} message (k : Lex A) c w before rest b0 b1 Q : at_rest c before rest -> before = b0 ++ b1 ->
  reads k c w before rest Q -> reads (unnamed_or (str_len b0) message k) c w before rest Q.
Proof.
  intros Hc E Hk. unfold unnamed_or. apply reads_read. destruct (cursor_at_rest c before rest b0 b1 Hc E) as (c1 & Ec & Hc1).
  eapply reads_lift; [exact Ec|]. set (p := fun c : Z => negb (is_whitespace c)).
  destruct (take_while_at Hc1 p) as (c2 & E2 & Hc2 & Es). destruct (looks_like_path_total (take_while p (b1 ++ rest))) as [b Eb].
  eapply reads_lift with (b := (b, c2)).
  { unfold looks_like_unnamed_requirement. fold p. rewrite E2. cbn [fst snd]. rewrite Es. cbn [obind]. by rewrite Eb. }
  cbn [fst snd]. destruct b; [|done]. eexists (Err _), c, w. split; [reflexivity|].
  exists b0, (take_while p (b1 ++ rest)), (drop_while p (b1 ++ rest)). destruct Hc2 as (Hi & _ & Hp). cbn [pe_input pe_start pe_len].
  rewrite take_drop_while. rewrite <- app_assoc, take_drop_while in Hi. rewrite E, <- app_assoc. split; [done|]. split; [done|]. split; [done|].
  left. rewrite Hp, str_len_app. lia.
Qed.
End environment.

(** ** Names and extras *)

Lemma name_chars_ascii text : Forall (fun c => is_name_char c = true) text -> utf8 text = text.
Proof.
  induction 1 as [|c l Hc Hl IH]; [done|]. cbn [utf8 flat_map]. fold (utf8 l). rewrite IH. unfold utf8_char.
  destruct (Z.ltb_spec c 128); [done|]. unfold is_name_char, is_ascii_alphanumeric, is_ascii_upper, is_ascii_lower, is_ascii_digit in Hc. lia.
Qed.

Lemma last_of_last x l : last (x :: l) = Some (last_of x l).
Proof. revert x. induction l as [|y l IH]; intros x; [done|]. cbn [last_of]. by rewrite <- IH. Qed.

Lemma not_punct c : is_ascii_alphanumeric c = true -> is_punct c = false.
Proof. unfold is_ascii_alphanumeric, is_ascii_upper, is_ascii_lower, is_ascii_digit, is_punct. lia. Qed.

(** What the parsers of names and extras read is a valid name. *)
Lemma read_name_valid x text l : is_ascii_alphanumeric x = true -> Forall (fun c => is_name_char c = true) text ->
  last (x :: text) = Some l -> is_punct l = false -> exists name, validate_and_normalize_ref (x :: text) = Ok name /\ normal_name name = true.
Proof.
  intros Hx Ht El Hl. assert (Hn : Forall (fun c => is_name_char c = true) (x :: text)) by (constructor; [unfold is_name_char; by rewrite Hx|done]).
  assert (exists name, validate_and_normalize_ref (x :: text) = Ok name) as [name E].
  { rewrite validate_is_normalize, normalize_spec, name_chars_ascii by done. rewrite last_of_last in El. injection El as El.
    assert (valid_name (x :: text) = true) as ->; [|by eexists]. cbn [valid_name]. rewrite El, Hl, not_punct by done. rewrite !andb_true_r.
    apply forallb_Forall. eapply Forall_impl; [exact Hn|]. intros c. unfold is_name_char, name_byte, is_punct.
    destruct (is_ascii_alphanumeric c); [done|]. cbn. lia. }
  exists name. split; [done|]. by destruct (validate_ok _ _ E) as (_ & _ & _ & ?).
Qed.

(** The span of the last character that was read. *)
Lemma reads_fail_last {A} message c w before text l rest (Q : A -> Str -> Str -> Prop) : at_rest c (before ++ text) rest -> last text = Some l ->
  reads (fail_at message (str_len (before ++ text) - len_utf8 l) (len_utf8 l)) c w (before ++ text) rest Q.
Proof.
  intros Hc El. destruct text as [|x text] using rev_ind; [done|]. rewrite last_snoc in El. injection El as ->.
  rewrite <- str_len_one. replace (str_len (before ++ text ++ [l]) - str_len [l])%nat with (str_len (before ++ text)) by (rewrite !str_len_app; lia).
  eapply reads_fail_span with (b1 := []); [done|]. by rewrite app_nil_r, <- app_assoc.
Qed.

Section lexical.
Context `{ProcessEnv} (has_current_dir : current_dir <> None) `{StdText} {Sc : Type} `{ScannerLaws Sc}.

Lemma parse_requirement_name_reads c w before rest : at_rest c before rest -> (rest = [] -> forall x, head before = Some x -> x < 128 /\ 0 <= x) ->
  reads parse_requirement_name c w before rest (fun name _ _ => normal_name name = true).
Proof.
  intros Hc Hlead. unfold parse_requirement_name. apply reads_read. apply reads_next; [done| |].
  - intros ->. destruct before as [|x before]; [pose proof (reads_fail_end (bs "Empty field is not allowed for PEP508") c w [] (fun name _ _ => normal_name name = true) Hc) as Hf;
      destruct Hc as (_ & _ & Ep); by rewrite Ep in Hf|].
    destruct (Hlead eq_refl x eq_refl). pose proof (reads_fail_span (bs "Empty field is not allowed for PEP508") c w (x :: before) [] [] [x] before
      (fun name _ _ => normal_name name = true) Hc eq_refl) as Hf.
    assert (E1 : str_len [x] = 1%nat) by (rewrite str_len_one; unfold len_utf8, utf8_char; destruct (Z.ltb_spec x 128); [done|lia]). by rewrite E1 in Hf.
  - intros x rest' c1 -> Hc1. assert (Ep : cursor_pos c = str_len before) by apply Hc. rewrite Ep.
    destruct (is_ascii_alphanumeric x) eqn:Ex; cbn [negb].
    + apply reads_take; [done|]. intros text rest2 c2 -> Ht _ Hc2. apply reads_read.
      assert (Ep2 : cursor_pos c2 = str_len (before ++ x :: text)) by (destruct Hc2 as (_ & _ & ->); by rewrite <- app_assoc).
      rewrite <- app_assoc in Hc2 |- *. cbn [app] in Hc2 |- *. rewrite Ep2.
      replace (str_len (before ++ x :: text) - str_len before)%nat with (str_len (x :: text)) by (rewrite str_len_app; lia).
      apply reads_slice with (b1 := rest2); [done|by rewrite <- app_assoc|]. destruct (last (x :: text)) as [l|] eqn:El; [|by rewrite last_of_last in El].
      eapply reads_lift; [reflexivity|]. destruct (is_ascii_alphanumeric l) eqn:Hl; cbn [negb]; [|by apply reads_fail_last].
      destruct (read_name_valid x text l Ex Ht El (not_punct l Hl)) as (name & -> & Hn). by apply reads_returns.
    + eapply unnamed_or_reads; [done|done|reflexivity|]. rewrite <- str_len_one. by eapply reads_fail.
Qed.

Lemma extras_separator_reads first c w before rest : at_rest c before rest -> reads (extras_separator first) c w before rest (fun _ _ _ => True).
Proof.
  intros Hc. unfold extras_separator. apply reads_read. rewrite (peek_at _ _ _ Hc). destruct rest as [|x rest]; cbn [head option_map]; [by apply reads_returns|].
  destruct (Z.eqb_spec x 44) as [->|Hne]; destruct first.
  - by apply (reads_fail_next _ c w before 44 rest).
  - apply reads_next; [done|done|]. intros y rest' c' _ Hc'. by apply reads_returns.
  - by apply reads_returns.
  - by apply reads_fail_next.
Qed.

Lemma extras_terminator_reads c w before rest : at_rest c before rest -> reads extras_terminator c w before rest (fun _ text _ => text = []).
Proof.
  intros Hc. unfold extras_terminator. apply reads_read. rewrite (peek_at _ _ _ Hc). destruct rest as [|x rest]; cbn [head option_map]; [by apply reads_returns|].
  destruct (negb (x =? 44) && _ && _); [by apply reads_fail_next|by apply reads_returns].
Qed.

Lemma parse_extra_reads c w before rest b0 b1 : at_rest c before rest -> before = b0 ++ [91] ++ b1 ->
  reads (parse_extra (str_len b0)) c w before rest (fun name text _ => normal_name name = true /\ text <> []).
Proof.
  intros Hc Eb. unfold parse_extra. apply reads_next; [done| |].
  - intros ->. change 1%nat with (str_len [91]). by eapply reads_fail_span.
  - intros x rest' c1 -> Hc1. destruct (is_ascii_alphanumeric x) eqn:Ex; cbn [negb]; [|rewrite <- str_len_one; by eapply reads_fail].
    apply reads_take; [done|]. intros text rest2 c2 -> Ht _ Hc2. cbn [fst snd].
    apply reads_slice with (b1 := rest2); [done|by rewrite <- !app_assoc|].
    eapply reads_try; [by apply extras_terminator_reads|]. intros _ c3 w3 t3 rest3 -> Hc3 ->. rewrite app_nil_r in *. cbn [app] in *.
    apply reads_read. rewrite <- app_assoc in Hc3 |- *. cbn [app] in Hc3 |- *. assert (Ep : cursor_pos c3 = str_len (before ++ x :: text)) by apply Hc3. rewrite Ep.
    destruct (last (x :: text)) as [l|] eqn:El; [|by rewrite last_of_last in El].
    destruct ((l =? 45) || (l =? 95) || (l =? 46)) eqn:Hl; [by apply reads_fail_last|].
    apply reads_space; [done|]. intros c4 ws rest4 -> Hc4.
    destruct (read_name_valid x text l Ex Ht El) as (name & -> & Hn); [unfold is_punct; lia|]. by apply reads_returns.
Qed.

Lemma extras_loop_reads fuel c w before rest b0 b1 extras first : at_rest c before rest -> before = b0 ++ [91] ++ b1 -> (length rest < fuel)%nat ->
  Forall (fun n => normal_name n = true) extras ->
  reads (extras_loop fuel (str_len b0) extras first) c w before rest (fun names _ _ => Forall (fun n => normal_name n = true) names).
Proof.
  revert c w before rest b1 extras first. induction fuel as [|fuel IH]; intros c w before rest b1 extras first Hc Eb Hf He; [lia|]. cbn [extras_loop].
  apply reads_read. destruct (match peek_char c with Some c => c =? 93 | None => false end) eqn:E.
  - apply reads_next; [done| |].
    + intros ->. by rewrite (peek_char_at _ _ _ Hc) in E.
    + intros x rest' c' -> Hc'. by apply reads_returns.
  - eapply reads_try; [by apply extras_separator_reads|]. intros _ c1 w1 t1 rest1 -> Hc1 _.
    apply reads_space; [done|]. intros c2 ws rest2 -> Hc2.
    eapply reads_try; [eapply parse_extra_reads; [done|by rewrite Eb, <- !app_assoc]|]. intros name c3 w3 t3 rest3 -> Hc3 [Hn Ht].
    eapply reads_weaken; [eapply IH; [done|by rewrite Eb, <- !app_assoc| |]|done].
    + rewrite !length_app in Hf. destruct t3; [done|]. cbn in Hf. lia.
    + by apply Forall_snoc_2.
Qed.

Lemma reads_eat {A} token (k : option nat -> Lex A) c w before rest (Q : A -> Str -> Str -> Prop) : at_rest c before rest ->
  (forall rest' c', rest = token :: rest' -> at_rest c' (before ++ [token]) rest' ->
    reads (k (Some (str_len before))) c' w (before ++ [token]) rest' (fun a t r => Q a (token :: t) r)) ->
  (head rest <> Some token -> reads (k None) c w before rest Q) ->
  reads (mseq (with_cursor (fun c => eat_char c token)) k) c w before rest Q.
Proof.
  intros Hc Hyes Hno. destruct (eat_char_at c before rest token Hc) as [(rest' & c' & -> & E & Hc')|[E Hne]].
  - eapply reads_after with (text := [token]); [rewrite (seq_with c c' w _ _ _ E); reflexivity|reflexivity|]. by apply Hyes.
  - eapply reads_after with (text := []); [rewrite (seq_with c c w _ _ _ E); reflexivity|reflexivity|]. rewrite app_nil_r. by apply Hno.
Qed.

Lemma parse_extras_reads c w before rest : at_rest c before rest ->
  reads parse_extras_cursor c w before rest (fun names _ _ => Forall (fun n => normal_name n = true) names).
Proof.
  intros Hc. unfold parse_extras_cursor. apply reads_eat; [done| |intros _; by apply reads_returns].
  intros rest' c1 -> Hc1. apply reads_space; [done|]. intros c2 ws rest2 -> Hc2. apply reads_read.
  assert (Er : cursor_chars c2 = rest2) by apply Hc2. rewrite Er. eapply extras_loop_reads; [done|by rewrite <- app_assoc|lia|constructor].
Qed.

(** ** URLs *)

Lemma url_loop_spec fuel c w before t rest : at_rest c (before ++ t) rest -> (length rest < fuel)%nat ->
  exists c' t' extra rest', url_loop fuel (str_len t) (mkScan c w) = Ret (str_len (t ++ t'), mkScan c' w) /\
    rest = t' ++ extra ++ rest' /\ at_rest c' (before ++ t ++ t' ++ extra) rest'.
Proof.
  revert c t rest. induction fuel as [|fuel IH]; intros c t rest Hc Hf; [lia|]. cbn [url_loop]. destruct rest as [|x rest].
  - pose proof (next_at_end _ _ Hc) as En. rewrite (seq_with c c w _ _ _ En). exists c, [], [], []. by rewrite !app_nil_r.
  - destruct (next_at _ _ _ _ Hc) as (c1 & En & Hc1). rewrite (seq_with c c1 w _ _ _ En).
    assert (Hstop : exists c' t' extra rest', mpure (str_len t) (mkScan c1 w) = Ret (str_len (t ++ t'), mkScan c' w) /\
      x :: rest = t' ++ extra ++ rest' /\ at_rest c' (before ++ t ++ t' ++ extra) rest').
    { exists c1, [], [x], rest. rewrite app_nil_r. by rewrite <- app_assoc in Hc1. }
    destruct (_ || _); [done|]. rewrite seq_read. destruct (_ && _); [done|]. clear Hstop.
    replace (str_len t + len_utf8 x)%nat with (str_len (t ++ [x])) by (by rewrite str_len_app, str_len_one). rewrite seq_read.
    destruct (mark_ends_url c1).
    + exists c1, [x], [], rest. rewrite app_nil_r. by rewrite <- app_assoc in Hc1.
    + destruct (IH c1 (t ++ [x]) rest) as (c' & t' & extra & rest' & E & -> & Hc'); [by rewrite app_assoc|cbn in Hf; lia|].
      exists c', (x :: t'), extra, rest'. rewrite <- !app_assoc in *. done.
Qed.

Lemma parse_url_reads {U} `{Pep508Url U} c w before rest : at_rest c before rest ->
  reads parse_url c w before rest (fun u _ _ => exists text, url_parse text = Ok u).
Proof.
  intros Hc. unfold parse_url. apply reads_space; [done|]. intros c1 ws rest1 -> Hc1. apply reads_read. apply reads_read.
  assert (Ep : cursor_pos c1 = str_len (before ++ ws)) by apply Hc1. assert (Er : cursor_chars c1 = rest1) by apply Hc1. rewrite Ep, Er.
  destruct (url_loop_spec (S (length rest1)) c1 w (before ++ ws) [] rest1) as (c2 & t & extra & rest2 & E & -> & Hc2); [by rewrite app_nil_r|lia|].
  cbn [app] in E, Hc2. change (str_len []) with 0%nat in E.
  eapply reads_after with (text := t ++ extra); [unfold mseq at 1; rewrite E; reflexivity|by rewrite <- app_assoc|].
  apply reads_slice with (b1 := extra ++ rest2); [done|by rewrite <- !app_assoc|].
  destruct t as [|x t]; [by eapply reads_fail_span with (y := [])|]. destruct (url_parse (x :: t)) as [u|err] eqn:Eu.
  - apply reads_returns; [done|by eexists].
  - apply reads_read. eexists (Err _), c2, w. split; [reflexivity|]. exists (before ++ ws), (x :: t), (extra ++ rest2). cbn [pe_input pe_start pe_len].
    split; [by rewrite <- !app_assoc|]. split; [destruct Hc2 as (-> & _); by rewrite <- !app_assoc|]. auto.
Qed.
(** ** Version specifiers *)

(** The lists that the parsers of specifiers return. *)
Definition specifiers_read (l : list VersionSpecifier) : Prop := Forall spec_parsed l /\ l <> [] /\ from_unsorted l = l.

Lemma spec_parsed_wf s : spec_parsed s -> wf (spec_version s) = true.
Proof. intros Hs. apply spec_parsed_real in Hs. unfold spec_real in Hs. apply andb_true_iff in Hs as [Hr _]. by apply real_wf. Qed.

Lemma from_unsorted_read l : Forall spec_parsed l -> l <> [] -> specifiers_read (from_unsorted l).
Proof.
  intros Hl Hn. assert (P : Permutation l (from_unsorted l)) by (unfold from_unsorted; apply sort_by_perm). split; [by rewrite <- P|]. split.
  - intros E. rewrite E in P. by apply Permutation_sym, Permutation_nil in P.
  - apply from_unsorted_idem. eapply Forall_impl; [exact Hl|]. apply spec_parsed_wf.
Qed.

Lemma parse_specifier_reads buffer c w before rest b0 b1 : at_rest c before rest -> before = b0 ++ buffer ++ b1 -> Forall is_char buffer ->
  reads (parse_specifier (Sc := Sc) buffer (str_len b0) (str_len (b0 ++ buffer))) c w before rest (fun sp text _ => spec_parsed sp /\ text = []).
Proof.
  intros Hc Eb Hch. unfold parse_specifier. destruct (specifier_from_str_total buffer Hch) as (r & E & Hr).
  rewrite <- (specifier_from_str_text (S := Sc)) in E. eapply reads_lift; [exact E|]. destruct r as [sp|err].
  - apply reads_returns; [done|]. split; [by apply Hr|done].
  - destruct (specifier_error_displayed (Sc := Sc) _ _ Hch E) as [message Em]. eapply reads_lift; [exact Em|].
    replace (str_len (b0 ++ buffer) - str_len b0)%nat with (str_len buffer) by (rewrite str_len_app; lia). by eapply reads_fail_span.
Qed.

Lemma str_len_comma (before : Str) : (str_len before + 1)%nat = str_len (before ++ [44]).
Proof. by rewrite str_len_app, str_len_one. Qed.

(** The last specifier, between the last comma and the end. *)
Lemma last_specifier_reads buffer specifiers c w before rest b0 b1 : at_rest c before rest -> before = b0 ++ buffer ++ b1 -> Forall is_char buffer ->
  Forall spec_parsed specifiers ->
  reads (if blank buffer && negb (is_nil specifiers) then ok (from_unsorted specifiers)
         else let? specifier := parse_specifier (Sc := Sc) buffer (str_len b0) (str_len (b0 ++ buffer)) in ok (from_unsorted (specifiers ++ [specifier])))
    c w before rest (fun l _ _ => specifiers_read l).
Proof.
  intros Hc Eb Hch Hs. destruct (blank buffer && negb (is_nil specifiers)) eqn:Eblank.
  - apply reads_returns; [done|]. apply from_unsorted_read; [done|]. intros ->. by rewrite andb_false_r in Eblank.
  - eapply reads_try; [by eapply parse_specifier_reads|]. intros sp c1 w1 text rest1 -> Hc1 [Hsp ->]. apply reads_returns; [done|].
    apply from_unsorted_read; [by apply Forall_snoc_2|by destruct specifiers].
Qed.

Lemma specifier_loop_reads fuel specifiers buffer c w before rest b0 : at_rest c before rest -> before = b0 ++ buffer ->
  Forall is_char buffer -> Forall is_char rest -> Forall spec_parsed specifiers -> (length rest < fuel)%nat ->
  reads (specifier_loop (Sc := Sc) fuel (str_len b0) specifiers buffer) c w before rest (fun l _ _ => specifiers_read l).
Proof.
  revert specifiers buffer c w before rest b0. induction fuel as [|fuel IH]; intros specifiers buffer c w before rest b0 Hc Eb Hb Hch Hs Hf; [lia|].
  assert (Ep : cursor_pos c = str_len (b0 ++ buffer)) by (destruct Hc as (_ & _ & ->); by rewrite Eb).
  assert (Hfin : reads (if blank buffer && negb (is_nil specifiers) then ok (from_unsorted specifiers)
        else let* fin := read_cursor cursor_pos in
          let? specifier := parse_specifier (Sc := Sc) buffer (str_len b0) fin in ok (from_unsorted (specifiers ++ [specifier])))
      c w before rest (fun l _ _ => specifiers_read l)).
  { pose proof (last_specifier_reads buffer specifiers c w before rest b0 [] Hc ltac:(by rewrite app_nil_r) Hb Hs) as Hl.
    destruct (_ && _); [exact Hl|]. apply reads_read. by rewrite Ep. }
  cbn [specifier_loop]. apply reads_read. rewrite (peek_at _ _ _ Hc). destruct rest as [|x rest]; cbn [head option_map]; [exact Hfin|].
  destruct (Z.eqb_spec x 44) as [->|_].
  - rewrite Eb at 1. eapply reads_try; [eapply (parse_specifier_reads _ _ _ _ _ _ []); [done|by rewrite app_nil_r|done]|].
    intros sp c1 w1 text rest1 Er Hc1 [Hsp ->]. rewrite app_nil_r in Hc1 |- *. cbn [app] in Er. subst rest1.
    apply reads_next; [done|done|]. intros y rest' c2 [= <- <-] Hc2. rewrite str_len_comma.
    eapply reads_weaken; [apply IH; [done|by rewrite app_nil_r|constructor|by inv Hch|by apply Forall_snoc_2|cbn in Hf; lia]|done].
  - destruct (Z.eqb_spec x 59) as [->|_]; [exact Hfin|]. apply reads_next; [done|done|]. intros y rest' c2 [= <- <-] Hc2. apply Forall_cons in Hch as [Hx Hch].
    eapply reads_weaken; [apply IH; [done|by rewrite Eb, <- app_assoc|by apply Forall_snoc_2|done|done|cbn in Hf; lia]|done].
Qed.

Lemma parse_version_specifier_reads c w before rest : at_rest c before rest -> Forall is_char rest ->
  reads (parse_version_specifier (Sc := Sc)) c w before rest (fun l _ _ => specifiers_read l).
Proof.
  intros Hc Hch. unfold parse_version_specifier. do 2 apply reads_read. pose proof Hc as (_ & -> & ->).
  apply specifier_loop_reads; [done|by rewrite app_nil_r|constructor|done|constructor|lia].
Qed.

Lemma parentheses_loop_reads fuel specifiers buffer c w before rest b0 bb mid : at_rest c before rest -> before = b0 ++ buffer -> b0 = bb ++ [40] ++ mid ->
  Forall is_char buffer -> Forall is_char rest -> Forall spec_parsed specifiers -> (length rest < fuel)%nat ->
  reads (parentheses_loop (Sc := Sc) fuel (str_len bb) (str_len b0) specifiers buffer) c w before rest (fun l _ _ => specifiers_read l).
Proof.
  revert specifiers buffer c w before rest b0 mid. induction fuel as [|fuel IH]; intros specifiers buffer c w before rest b0 mid Hc Eb Em Hb Hch Hs Hf; [lia|].
  cbn [parentheses_loop]. apply reads_next; [done| |].
  - intros ->. change 1%nat with (str_len [40]). eapply reads_fail_span; [done|]. by rewrite Eb, Em, <- !app_assoc.
  - intros x rest' c1 -> Hc1. apply Forall_cons in Hch as [Hx Hch]. subst before. destruct (Z.eqb_spec x 44) as [->|_]; [|destruct (Z.eqb_spec x 41) as [->|_]].
    + eapply reads_try; [eapply parse_specifier_reads; [done|by rewrite <- app_assoc|done]|].
      intros sp c2 w2 text rest2 -> Hc2 [Hsp ->]. rewrite app_nil_r in *. rewrite str_len_comma.
      eapply reads_weaken; [eapply IH; [done|by rewrite app_nil_r|rewrite Em, <- !app_assoc; reflexivity|constructor|done|by apply Forall_snoc_2|cbn in Hf; lia]|done].
    + eapply reads_weaken; [eapply last_specifier_reads; [done|by rewrite <- app_assoc|done|done]|done].
    + eapply reads_weaken; [eapply IH; [done|by rewrite <- app_assoc|done|by apply Forall_snoc_2|done|done|cbn in Hf; lia]|done].
Qed.

Lemma parse_parentheses_reads c w before rest : at_rest c before (40 :: rest) -> Forall is_char rest ->
  reads (parse_version_specifier_parentheses (Sc := Sc)) c w before (40 :: rest) (fun l _ _ => specifiers_read l).
Proof.
  intros Hc Hch. unfold parse_version_specifier_parentheses. apply reads_read. pose proof Hc as (_ & _ & ->). apply reads_next; [done|done|].
  intros x rest' c1 [= <- <-] Hc1. apply reads_space; [done|]. intros c2 ws rest2 -> Hc2. do 2 apply reads_read. pose proof Hc2 as (_ & -> & ->).
  eapply parentheses_loop_reads; [done|by rewrite app_nil_r|by rewrite <- app_assoc|constructor|by eapply reads_chars|constructor|lia].
Qed.
End lexical.

(** ** Requirements *)

Section requirement.
Context `{ProcessEnv} (has_current_dir : current_dir <> None) `{StdText} {Sc : Type} `{ScannerLaws Sc}.
Context {U : Type} `{Pep508Url U}.

(** What follows the name and the extras. *)
Definition kind_read (k : option (VersionOrUrl U)) : Prop :=
  match k with
  | Some (VersionSpecifiersOf l) => specifiers_read l
  | Some (UrlOf url) => exists text, url_parse text = Ok url
  | None => True
  end.

Lemma parse_requirement_kind_reads c w before rest b0 b1 : at_rest c before rest -> before = b0 ++ b1 -> Forall is_char rest ->
  reads (parse_requirement_kind (Sc := Sc) (str_len b0)) c w before rest (fun k _ _ => kind_read k).
Proof.
  intros Hc Eb Hch. unfold parse_requirement_kind. apply reads_read. rewrite (peek_char_at _ _ _ Hc).
  destruct rest as [|x rest]; cbn [head]; [by apply reads_returns|]. pose proof Hch as Hch'. apply Forall_cons in Hch' as [Hx Hch'].
  destruct (Z.eqb_spec x 64) as [->|_]; [|destruct (Z.eqb_spec x 40) as [->|_]; [|destruct (is_specifier_start x); [|destruct (x =? 59)]]].
  - apply reads_next; [done|done|]. intros y rest' c1 [= <- <-] Hc1. eapply reads_try; [by apply parse_url_reads|].
    intros u c2 w2 text rest2 -> Hc2 Hu. by apply reads_returns.
  - eapply reads_try; [by apply parse_parentheses_reads|]. intros l c1 w1 text rest1 _ Hc1 Hl. by apply reads_returns.
  - eapply reads_try; [by apply parse_version_specifier_reads|]. intros l c1 w1 text rest1 _ Hc1 Hl. by apply reads_returns.
  - by apply reads_returns.
  - eapply unnamed_or_reads; [done|done|exact Eb|]. apply reads_read. pose proof Hc as (_ & _ & ->). by apply reads_fail_next.
Qed.

Lemma reject_archive_reads c w before rest b0 b1 n0 name n1 : at_rest c before rest -> before = b0 ++ b1 -> before = n0 ++ name ++ n1 ->
  reads (reject_archive (str_len b0) (str_len n0) (str_len (n0 ++ name))) c w before rest (fun _ text _ => text = []).
Proof.
  intros Hc Eb En. unfold reject_archive. rewrite str_len_app, Nat.add_comm, Nat.add_sub.
  eapply reads_slice; [done|rewrite En, <- !app_assoc; reflexivity|]. destruct (looks_like_archive name); [|by apply reads_returns].
  apply reads_read. destruct (cursor_at_rest c before rest b0 b1 Hc Eb) as (c1 & Ec & Hc1). eapply reads_lift; [exact Ec|].
  eexists (Err _), c, w. split; [reflexivity|]. destruct Hc1 as (Hi & _ & Hp). exists b0, [], (b1 ++ rest). cbn [pe_input pe_start pe_len].
  split; [by rewrite Eb, <- app_assoc|]. split; [by rewrite Hi, Eb, <- app_assoc|]. split; [done|]. left. rewrite Hp. cbn. lia.
Qed.

Lemma requirement_end_reads marker c w before rest : at_rest c before rest -> reads (requirement_end marker) c w before rest (fun _ _ _ => True).
Proof.
  intros Hc. unfold requirement_end. apply reads_next; [done| |].
  - intros ->. by apply reads_returns.
  - intros x rest' c1 -> Hc1. destruct (x =? 35); [by apply reads_returns|]. rewrite <- str_len_one. by apply reads_fail.
Qed.
End requirement.

Section parser.
Context {RV RS : Type} `{!RangeSet Version RV} `{!RangeSetLaws Version RV}.
Context `{!RangeSet Str RS} `{!RangeSetLaws Str RS} `{Alphabetic}.
Context `{ProcessEnv} (has_current_dir : current_dir <> None) `{StdText} {Sc : Type} `{ScannerLaws Sc}.
Context {U : Type} `{Pep508Url U}.

Abbreviation Interner := (InternerOf RV RS).
Implicit Types (s : Interner) (w : list MarkerWarningKind).

Lemma parses_read {A B} (f : Cursor -> B) (k : B -> M (Scan * Interner) (result A Pep508Error)) c w s before rest Q :
  parses (k (f c)) c w s before rest Q -> parses (mseq (scanning (read_cursor f)) k) c w s before rest Q.
Proof. done. Qed.

Lemma parses_skip {A} (k : unit -> M (Scan * Interner) (result A Pep508Error)) c w s before rest Q : at_rest c before rest ->
  (forall c' ws rest', rest = ws ++ rest' -> ws = take_while is_whitespace rest -> at_rest c' (before ++ ws) rest' ->
    parses (k tt) c' w s (before ++ ws) rest' (fun a s' text r => Q a s' (ws ++ text) r)) ->
  parses (mseq (scanning skip_space) k) c w s before rest Q.
Proof. intros Hc Hk. apply parses_space; [done|]. intros c' Hc'. apply Hk; [symmetry; apply take_drop_while|done..]. Qed.

Lemma parse_quoted_marker_parses c w s before rest : at_rest c before rest -> Forall is_char rest -> reachable s ->
  parses parse_quoted_marker c w s before rest (fun o s' _ _ => valid_operand s' o).
Proof.
  intros Hc Hch Hs. unfold parse_quoted_marker. apply parses_read. rewrite (peek_char_at _ _ _ Hc).
  destruct rest as [|x rest]; cbn [head]; [by apply parses_ok|]. destruct (x =? 59); [|by apply parses_ok].
  destruct (next_at _ _ _ _ Hc) as (c1 & En & Hc1). apply Forall_cons in Hch as [_ Hch].
  eapply parses_after with (text := [x]); [rewrite (seq_scanning _ _ (mkScan c w) (mkScan c1 w) s (Some (str_len before, x)))
    by (unfold with_cursor; cbn; by rewrite En); reflexivity|done|done|].
  destruct (parse_markers_cursor_total c1 w s (before ++ [x]) rest Hc1 Hch Hs) as (r & c2 & w2 & s2 & E & Hs2 & He & Hr).
  exists r, c2, w2, s2. do 3 (split; [done|]). destruct r as [o|e]; [|done]. destruct Hr as (t & r & H1' & H2' & H3' & _). by exists t, r.
Qed.

Definition requirement_read s (r : Requirement U) : Prop :=
  normal_name (requirement_name r) = true /\ Forall (fun n => normal_name n = true) (requirement_extras r) /\
  kind_read (version_or_url r) /\ valid_id s (requirement_marker r) /\ requirement_origin r = None.

Lemma parse_pep508_requirement_parses text s : Forall is_char text -> (blank text = true -> forall x, head text = Some x -> x < 128) -> reachable s ->
  parses (parse_pep508_requirement (Sc := Sc) (U := U)) (cursor_new text) [] s [] text (fun r s' _ _ => requirement_read s' r).
Proof.
  intros Hch Hlead Hs. pose proof (cursor_new_at text) as Hc. unfold parse_pep508_requirement. apply parses_read. cbn [cursor_new cursor_pos].
  apply parses_skip; [done|]. intros c1 ws rest -> Ews Hc1. apply parses_read. pose proof Hc1 as (_ & _ & ->). pose proof (reads_chars _ _ Hch) as Hch1.
  eapply parses_try; [apply parses_lex; [done|]; apply (parse_requirement_name_reads has_current_dir); [done|]|].
  { intros -> x Hx. rewrite app_nil_r in *. cbn [app] in Hx. split.
    - apply Hlead; [|done]. unfold blank. apply forallb_Forall. rewrite Ews. eapply Forall_impl; [apply take_while_all|]. by intros ? ->.
    - destruct ws; [done|]. injection Hx as ->. inv Hch. unfold is_char in *. lia. }
  intros name c2 w2 s2 tn rest2 -> Hc2 Hs2 He2 Hname. apply reads_chars in Hch1. apply parses_read. pose proof Hc2 as (_ & _ & ->).
  apply parses_skip; [done|]. intros c3 ws3 rest3 -> _ Hc3. apply reads_chars in Hch1.
  eapply parses_try; [apply parses_lex; [done|]; by apply parse_extras_reads|]. intros extras c4 w4 s4 t4 rest4 -> Hc4 Hs4 He4 Hextras. apply reads_chars in Hch1.
  apply parses_skip; [done|]. intros c5 ws5 rest5 -> _ Hc5. apply reads_chars in Hch1.
  eapply parses_try; [apply parses_lex; [done|]; eapply (parse_requirement_kind_reads has_current_dir _ _ _ _ []); [done|reflexivity|done]|].
  intros kind c6 w6 s6 t6 rest6 -> Hc6 Hs6 He6 Hkind. apply reads_chars in Hch1.
  eapply (parses_try _ _ _ _ _ _ _ (fun _ _ text _ => text = [])).
  { destruct kind; [by apply parses_ok|]. apply parses_lex; [done|]. eapply (reject_archive_reads _ _ _ _ [] _ (([] ++ ws)) tn); [done|reflexivity|by rewrite <- !app_assoc]. }
  intros _ c7 w7 s7 t7 rest7 -> Hc7 Hs7 He7 ->. rewrite app_nil_r in Hc7 |- *. cbn [app] in Hch1.
  apply parses_skip; [done|]. intros c8 ws8 rest8 -> _ Hc8. apply reads_chars in Hch1.
  eapply parses_try; [by apply parse_quoted_marker_parses|]. intros marker c9 w9 s9 t9 rest9 -> Hc9 Hs9 He9 Hmarker. apply reads_chars in Hch1.
  apply parses_skip; [done|]. intros c10 ws10 rest10 -> _ Hc10.
  eapply parses_try; [apply parses_lex; [done|]; by apply requirement_end_reads|]. intros _ c11 w11 s11 t11 rest11 -> Hc11 Hs11 He11 _.
  apply parses_ok; [done..|]. do 3 (split; [done|]). split; [|done]. cbn. destruct marker as [t|]; [|apply valid_terminal].
  eapply valid_ext; [exact He11|]. by apply Hmarker.
Qed.

(** C14: no text makes the parser of requirements panic, overrun its fuel or leave a
    bad interner.  What it returns is in its normal form: normalised name and extras,
    a sorted and non-empty list of valid specifiers or a URL that the URL type has
    parsed, and a tree of the interner.  The span of an error lies on character
    boundaries, and the error can be displayed.  The text must not consist of white
    space that starts outside ASCII, and the working directory must exist. *)
Theorem requirement_parse_total `{CharWidth} text s : Forall is_char text -> (blank text = true -> forall x, head text = Some x -> x < 128) ->
  reachable s -> exists r w s', requirement_from_str (Sc := Sc) (U := U) text s = Ret ((r, w), s') /\ reachable s' /\ ext s s' /\
    match r with
    | Ok r => requirement_read s' r
    | Err e => exists before span after, text = before ++ span ++ after /\ pe_input e = text /\ pe_start e = str_len before /\
        (pe_len e = str_len span \/ span = [] /\ after = [] /\ pe_len e = 1%nat) /\ exists shown, error_display e = Ret shown
    end.
Proof.
  intros Hch Hlead Hs. destruct (parse_pep508_requirement_parses text s Hch Hlead Hs) as (r & c & w & s' & E & Hs' & He & Hr).
  unfold requirement_from_str. rewrite E. do 3 eexists. split; [reflexivity|]. do 2 (split; [done|]). destruct r as [r|e].
  - by destruct Hr as (_ & _ & _ & _ & ?).
  - destruct (span_display _ e Hr) as [shown Es]. destruct Hr as (before & span & after & E1 & E2 & E3 & E4).
    exists before, span, after. do 4 (split; [done|]). by exists shown.
Qed.
End parser.
