(* ===== verification/RequirementRoundtrip.v ===== *)
(** * Printing and parsing requirements

    The text of a requirement is parsed to the same name, extras and version
    specifiers or URL, and to a marker that evaluates alike. *)

From Stdlib Require Import ZArith Lia String.
From stdpp Require Import base list relations.
From S2P Require Import Prelude.
From S2P Require Import VersionRepr.
From S2P Require Import VersionOrder.
From S2P Require Import CacheKey.
From S2P Require Import VersionParser.
From S2P Require Import VersionDisplay.
From S2P Require Import Specifier.
From S2P Require Import SpecifierParser.
From S2P Require Import SpecifierErrors.
From S2P Require Import Normalize.
From S2P Require Import DistExtension.
From S2P Require Import Cursor.
From S2P Require Import RangeSet.
From S2P Require Import Stateful.
From S2P Require Import MarkerEdges.
From S2P Require Import MarkerTypes.
From S2P Require Import RangeInstances.
From S2P Require Import MarkerAlgebra.
From S2P Require Import MarkerStore.
From S2P Require Import MarkerTree.
From S2P Require Import MarkerExpr.
From S2P Require Import MarkerDnf.
From S2P Require Import MarkerConj.
From S2P Require Import MarkerPaths.
From S2P Require Import MarkerTheorems.
From S2P Require Import MarkerParser.
From S2P Require Import MarkerComparison.
From S2P Require Import MarkerText.
From S2P Require Import MarkerRoundtrip.
From S2P Require Import Requirement.
From S2P Require Import RequirementParse.
Open Scope Z_scope.

(** ** Names and extras *)

Lemma lower_digit_alphanumeric c : is_ascii_lower c || is_ascii_digit c = true -> is_ascii_alphanumeric c = true.
Proof. unfold is_ascii_alphanumeric, is_ascii_lower, is_ascii_digit. lia. Qed.

(** A normal name starts and ends with a letter or digit, and has only characters
    of names. *)
Lemma normal_run_last prev l y : normal_run prev l = true -> last l = Some y -> is_ascii_alphanumeric y = true.
Proof.
  revert prev. induction l as [|c l IH]; intros prev Hn Hl; [done|]. cbn [normal_run] in Hn. destruct l as [|d l].
  - injection Hl as ->. destruct (y =? 45); [by rewrite andb_false_r in Hn|]. apply andb_prop in Hn as [Hn _]. by apply lower_digit_alphanumeric.
  - rewrite last_cons_cons in Hl. destruct (c =? 45); apply andb_prop in Hn as [_ Hn]; by eapply IH.
Qed.

Lemma normal_shape n : normal_name n = true -> exists x l y, n = x :: l /\ is_ascii_alphanumeric x = true /\
  Forall (fun c => is_name_char c = true) l /\ last (x :: l) = Some y /\ is_ascii_alphanumeric y = true.
Proof.
  intros Hn. destruct n as [|x l]; [done|]. pose proof (normal_run_chars _ _ Hn) as Hc. apply Forall_cons in Hc as [Hx Hc].
  destruct (last (x :: l)) as [y|] eqn:Ey; [|by rewrite last_of_last in Ey]. exists x, l, y. split; [done|]. split.
  { unfold normal_name in Hn. cbn [normal_run] in Hn. destruct (x =? 45); [done|]. apply andb_prop in Hn as [Hn _]. by apply lower_digit_alphanumeric. }
  split; [|split; [done|by eapply normal_run_last]]. eapply Forall_impl; [exact Hc|]. intros c Hy. unfold is_name_char, is_ascii_alphanumeric, is_ascii_alphabetic, is_ascii_lower, is_ascii_digit in *. lia.
Qed.

Section lexical.
Context `{ProcessEnv} `{StdText} {Sc : Type} `{ScannerLaws Sc}.

Lemma gets_name name : normal_name name = true -> gets parse_requirement_name name name (stops is_name_char).
Proof.
  intros Hn c w before rest Hc Hf. destruct (normal_shape name Hn) as (x & l & y & -> & Hx & Hl & Hy & Hal).
  change ((x :: l) ++ rest) with (x :: l ++ rest) in Hc. unfold parse_requirement_name. rewrite seq_read. destruct (next_at _ _ _ _ Hc) as (c1 & E1 & Hc1). rewrite (seq_with c c1 w _ _ _ E1), Hx.
  cbn [negb]. destruct (take_while_at Hc1 is_name_char) as (c2 & E2 & Hc2 & _). rewrite (take_while_app _ _ _ Hl Hf), (drop_while_app _ _ _ Hl Hf), <- app_assoc in Hc2.
  cbn [app] in Hc2. rewrite (seq_with c1 c2 w _ _ _ E2), seq_read. pose proof Hc2 as (_ & _ & Ep). pose proof Hc as (_ & _ & Ep0). rewrite Ep, Ep0.
  replace (str_len (before ++ x :: l) - str_len before)%nat with (str_len (x :: l)) by (rewrite str_len_app; lia).
  rewrite (seq_slice c2 w _ _ _ (x :: l)) by (eapply slice_at; [exact Hc2|by rewrite <- app_assoc]).
  rewrite Hy, (seq_step (mlift (unwrap (Some y))) _ _ y (mkScan c2 w)) by done. rewrite Hal, (validate_normal _ Hn). exists c2, w. done.
Qed.

Lemma gets_extra_name bracket_pos name : normal_name name = true -> gets (parse_extra bracket_pos) name name (fun rest => exists x r, rest = x :: r /\ (x = 44 \/ x = 93)).
Proof.
  intros Hn c w before rest Hc (z & r & -> & Hz). destruct (normal_shape name Hn) as (x & l & y & -> & Hx & Hl & Hy & Hal).
  assert (Hf : stops is_name_char (z :: r)) by (by destruct Hz as [-> | ->]). assert (Hw : is_whitespace z = false) by (by destruct Hz as [-> | ->]).
  change ((x :: l) ++ z :: r) with (x :: l ++ z :: r) in Hc. unfold parse_extra. destruct (next_at _ _ _ _ Hc) as (c1 & E1 & Hc1).
  rewrite (seq_with c c1 w _ _ _ E1), Hx. cbn [negb]. destruct (take_while_at Hc1 is_name_char) as (c2 & E2 & Hc2 & Es).
  rewrite (take_while_app _ _ _ Hl Hf) in E2, Hc2, Es. rewrite (drop_while_app _ _ _ Hl Hf), <- app_assoc in Hc2. cbn [app] in Hc2.
  rewrite (seq_with c1 c2 w _ _ _ E2). cbn [fst snd]. rewrite (seq_slice c2 w _ _ _ l Es).
  assert (Et : extras_terminator (mkScan c2 w) = Ret (Ok tt, mkScan c2 w)).
  { unfold extras_terminator. rewrite seq_read, (peek_at _ _ _ Hc2). cbn [head option_map]. by destruct Hz as [-> | ->]. }
  rewrite (try_step _ _ _ _ _ Et), seq_read, Hy. assert (((y =? 45) || (y =? 95) || (y =? 46)) = false) as ->.
  { unfold is_ascii_alphanumeric, is_ascii_upper, is_ascii_lower, is_ascii_digit in Hal. lia. }
  destruct (eat_space c2 _ [] _ Hc2) as (c3 & E3 & Hc3); [constructor|done|]. rewrite app_nil_r in Hc3.
  unfold skip_space. rewrite (seq_with c2 c3 w _ _ tt) by (by rewrite E3). rewrite (validate_normal _ Hn). by exists c3, w.
Qed.

(** The extras after the first. *)
Definition more_extras (l : list Str) : Str := flat_map (fun e => 44 :: e) l.

Lemma format_sep_comma x l : format_sep (bs ",") (x :: l) = x ++ more_extras l.
Proof. revert x. induction l as [|y l IH]; intros x; [by rewrite app_nil_r|]. change (format_sep (bs ",") (x :: y :: l)) with (x ++ bs "," ++ format_sep (bs ",") (y :: l)). by rewrite IH. Qed.

Lemma more_extras_follow l rest : exists x r, more_extras l ++ 93 :: rest = x :: r /\ (x = 44 \/ x = 93).
Proof. destruct l as [|e l]; eauto 10. Qed.

Lemma more_extras_length l : (length l <= length (more_extras l))%nat.
Proof. induction l as [|e l IH]; [done|]. cbn [more_extras flat_map length app]. fold (more_extras l). rewrite length_app. lia. Qed.

Lemma gets_extras_loop l : Forall (fun n => normal_name n = true) l -> forall fuel bracket_pos extras, (length l < fuel)%nat ->
  gets (extras_loop fuel bracket_pos extras false) (more_extras l ++ bs "]") (extras ++ l) (fun _ => True).
Proof.
  induction 1 as [|e l He Hl IH]; intros fuel bp extras Hf c w before rest Hc _; (destruct fuel as [|fuel]; [lia|]); cbn [extras_loop].
  - cbn [more_extras flat_map app] in Hc |- *. change (bs "]" ++ rest) with (93 :: rest) in Hc. rewrite seq_read, (peek_char_at _ _ _ Hc). cbn [head Z.eqb Pos.eqb].
    destruct (next_at _ _ _ _ Hc) as (c1 & E1 & Hc1). rewrite (seq_with c c1 w _ _ _ E1), app_nil_r. by exists c1, w.
  - cbn [more_extras flat_map] in Hc. fold (more_extras l) in Hc. rewrite <- !app_assoc in Hc. cbn [app] in Hc.
    rewrite seq_read, (peek_char_at _ _ _ Hc). cbn [head Z.eqb Pos.eqb].
    destruct (next_at _ _ _ _ Hc) as (c1 & E1 & Hc1).
    assert (Es : extras_separator false (mkScan c w) = Ret (Ok tt, mkScan c1 w)).
    { unfold extras_separator. rewrite seq_read, (peek_at _ _ _ Hc). cbn [head option_map Z.eqb Pos.eqb]. by rewrite (seq_with c c1 w _ _ _ E1). }
    rewrite (try_step _ _ _ _ _ Es). destruct (normal_shape e He) as (x & e' & _ & Ee & Hx & _).
    assert (stops is_whitespace (e ++ more_extras l ++ bs "]" ++ rest)).
    { rewrite Ee. cbn. unfold is_ascii_alphanumeric, is_ascii_upper, is_ascii_lower, is_ascii_digit in Hx. unfold is_whitespace. lia. }
    destruct (eat_space c1 _ [] _ Hc1) as (c2 & E2 & Hc2); [constructor|done|]. rewrite app_nil_r in Hc2.
    unfold skip_space. rewrite (seq_with c1 c2 w _ _ tt) by (by rewrite E2).
    destruct (gets_extra_name bp e He c2 w _ _ Hc2) as (c3 & w3 & E3 & Hc3); [apply more_extras_follow|]. rewrite (try_step _ _ _ _ _ E3).
    rewrite app_assoc in Hc3. destruct (IH fuel bp (extras ++ [e]) ltac:(cbn in Hf; lia) c3 w3 _ rest Hc3 I) as (c4 & w4 & E4 & Hc4).
    exists c4, w4. split; [rewrite <- app_assoc in E4; exact E4|]. cbn [more_extras flat_map]. fold (more_extras l). by rewrite <- !app_assoc in *.
Qed.

Definition extras_text (extras : list Str) : Str := if is_nil extras then [] else bs "[" ++ format_sep (bs ",") extras ++ bs "]".

Lemma alphanumeric_solid x : is_ascii_alphanumeric x = true -> is_whitespace x = false.
Proof. unfold is_ascii_alphanumeric, is_ascii_upper, is_ascii_lower, is_ascii_digit, is_whitespace. lia. Qed.

Lemma gets_extras extras : Forall (fun n => normal_name n = true) extras ->
  gets parse_extras_cursor (extras_text extras) extras (fun rest => extras = [] -> head rest <> Some 91).
Proof.
  intros He c w before rest Hc Hf. unfold parse_extras_cursor. destruct He as [|e l He Hl].
  - cbn [extras_text is_nil app] in Hc |- *. destruct (eat_char_at c before rest 91 Hc) as [(r & c' & -> & _)|[E _]]; [by specialize (Hf eq_refl)|].
    rewrite (seq_with c c w _ _ _ E). exists c, w. by rewrite app_nil_r.
  - cbn [extras_text is_nil] in Hc |- *. rewrite format_sep_comma in Hc |- *. change (bs "[") with [91] in Hc |- *. change (bs "]") with [93] in Hc |- *. rewrite <- !app_assoc in Hc. cbn [app] in Hc.
    destruct (eat_char_at _ _ _ 91 Hc) as [(r & c1 & Er & E1 & Hc1)|[_ Hne]]; [|done]. injection Er as <-. rewrite (seq_with c c1 w _ _ _ E1).
    destruct (normal_shape e He) as (x & e' & _ & Ee & Hx & _).
    destruct (eat_space c1 _ [] _ Hc1) as (c2 & E2 & Hc2); [constructor|rewrite Ee; cbn; by apply alphanumeric_solid|]. rewrite app_nil_r in Hc2.
    unfold skip_space. rewrite (seq_with c1 c2 w _ _ tt) by (by rewrite E2). rewrite seq_read. cbn [extras_loop]. rewrite seq_read, (peek_char_at _ _ _ Hc2).
    assert (Hh : head (e ++ more_extras l ++ 93 :: rest) = Some x) by (by rewrite Ee). rewrite Hh.
    assert (Hx1 : (x =? 93) = false /\ (x =? 44) = false) by (unfold is_ascii_alphanumeric, is_ascii_upper, is_ascii_lower, is_ascii_digit in Hx; lia).
    destruct Hx1 as [-> Hx1]. assert (Es : extras_separator true (mkScan c2 w) = Ret (Ok tt, mkScan c2 w)).
    { unfold extras_separator. rewrite seq_read, (peek_at _ _ _ Hc2), Hh. cbn [option_map]. by rewrite Hx1. }
    rewrite (try_step _ _ _ _ _ Es). destruct (eat_space c2 _ [] _ Hc2) as (c3 & E3 & Hc3); [constructor|rewrite Ee; cbn; by apply alphanumeric_solid|].
    rewrite app_nil_r in Hc3. unfold skip_space. rewrite (seq_with c2 c3 w _ _ tt) by (by rewrite E3).
    destruct (gets_extra_name (str_len before) e He c3 w _ _ Hc3) as (c4 & w4 & E4 & Hc4); [apply more_extras_follow|]. rewrite (try_step _ _ _ _ _ E4).
    pose proof Hc2 as (_ & -> & _).
    destruct (gets_extras_loop l Hl (length (e ++ more_extras l ++ 93 :: rest)) (str_len before) [e]) with (c := c4) (w := w4) (before := (before ++ [91]) ++ e) (rest := rest) as (c5 & w5 & E5 & Hc5); [|by rewrite <- !app_assoc in *|done|].
    { rewrite !length_app. cbn [length]. eapply Nat.le_lt_trans; [apply more_extras_length|lia]. }
    exists c5, w5. split; [exact E5|]. by rewrite <- !app_assoc in *.
Qed.

(** ** Version specifiers *)

Definition no_separator (t : Str) : Prop := Forall (fun c => c <> 44 /\ c <> 59) t.

(** The characters up to a separator go to the buffer. *)
Lemma specifier_loop_chars t : no_separator t -> forall fuel start specifiers buffer c w before rest, at_rest c before (t ++ rest) ->
  exists c', specifier_loop (Sc := Sc) (length t + fuel) start specifiers buffer (mkScan c w) =
    specifier_loop (Sc := Sc) fuel start specifiers (buffer ++ t) (mkScan c' w) /\ at_rest c' (before ++ t) rest.
Proof.
  induction 1 as [|x t [Hx Hy] Ht IH]; intros fuel start specifiers buffer c w before rest Hc.
  - exists c. by rewrite !app_nil_r.
  - cbn [length Nat.add specifier_loop]. cbn [app] in Hc. rewrite seq_read, (peek_at _ _ _ Hc). cbn [head option_map].
    destruct (Z.eqb_spec x 44); [done|]. destruct (Z.eqb_spec x 59); [done|]. destruct (next_at _ _ _ _ Hc) as (c1 & E1 & Hc1).
    rewrite (seq_with c c1 w _ _ _ E1). destruct (IH fuel start specifiers (buffer ++ [x]) c1 w _ _ Hc1) as (c2 & E2 & Hc2).
    exists c2. rewrite E2. by rewrite <- !app_assoc in *.
Qed.

Lemma parse_specifier_text sp ws start fin st : spec_parsed sp -> space ws ->
  parse_specifier (Sc := Sc) (specifier_display sp ++ ws) start fin st = Ret (Ok sp, st).
Proof.
  intros Hsp Hws. unfold parse_specifier. rewrite specifier_from_str_text. pose proof (specifier_text_spaced [] sp ws Hsp ltac:(constructor) Hws) as E.
  cbn [app] in E. by rewrite E.
Qed.

Lemma specifier_no_separator sp : spec_parsed sp -> no_separator (specifier_display sp).
Proof. intros Hsp. eapply Forall_impl; [by apply specifier_display_bytes|]. by intros c (_ & ? & _ & ?). Qed.

Lemma space_no_separator ws : space ws -> no_separator ws.
Proof. intros Hw. eapply Forall_impl; [exact Hw|]. cbn. intros c Hc. split; intros ->; discriminate. Qed.

Lemma specifier_not_blank sp ws : spec_parsed sp -> blank (specifier_display sp ++ ws) = false.
Proof. intros _. rewrite specifier_display_text. by destruct (operator sp). Qed.

(** What ends a list of specifiers. *)
Definition ends_specifiers (rest : Str) : Prop := head rest = None \/ head rest = Some 59.

Lemma specifier_loop_text sp l : spec_parsed sp -> Forall spec_parsed l -> forall fuel start specifiers c w before rest ws,
  at_rest c before (specifier_display sp ++ more_extras (map specifier_display l) ++ ws ++ rest) -> space ws -> ends_specifiers rest ->
  (length (specifier_display sp ++ more_extras (map specifier_display l) ++ ws) < fuel)%nat ->
  exists c', specifier_loop (Sc := Sc) fuel start specifiers [] (mkScan c w) = Ret (Ok (from_unsorted (specifiers ++ sp :: l)), mkScan c' w) /\
    at_rest c' (before ++ specifier_display sp ++ more_extras (map specifier_display l) ++ ws) rest.
Proof.
  intros Hsp Hl. revert sp Hsp. induction Hl as [|sp2 l Hsp2 Hl IH]; intros sp Hsp fuel start specifiers c w before rest ws Hc Hw He Hf.
  - cbn [map more_extras flat_map app] in Hc, Hf |- *. rewrite app_assoc in Hc. rewrite length_app in Hf.
    destruct fuel as [|fuel]; [lia|]. replace (S fuel) with (length (specifier_display sp ++ ws) + S (fuel - length (specifier_display sp ++ ws)))%nat by (rewrite length_app; lia).
    destruct (specifier_loop_chars (specifier_display sp ++ ws)) with (fuel := S (fuel - length (specifier_display sp ++ ws))) (start := start)
      (specifiers := specifiers) (buffer := @nil Z) (c := c) (w := w) (before := before) (rest := rest) as (c1 & E1 & Hc1);
      [apply Forall_app; split; [by apply specifier_no_separator|by apply space_no_separator]|done|].
    exists c1. split; [|done]. rewrite E1. cbn [specifier_loop app]. rewrite seq_read, (peek_at _ _ _ Hc1).
    rewrite (specifier_not_blank sp ws Hsp). cbn [andb].
    assert (Hfin : (let* fin := read_cursor cursor_pos in let? specifier := parse_specifier (Sc := Sc) (specifier_display sp ++ ws) start fin in
        ok (from_unsorted (specifiers ++ [specifier]))) (mkScan c1 w) = Ret (Ok (from_unsorted (specifiers ++ [sp])), mkScan c1 w)).
    { rewrite seq_read. by rewrite (try_step _ _ _ _ _ (parse_specifier_text sp ws start _ _ Hsp Hw)). }
    destruct rest as [|x rest]; cbn [head option_map]; [exact Hfin|]. destruct He as [|[= ->]]; [done|]. exact Hfin.
  - cbn [map more_extras flat_map] in Hc, Hf |- *. fold (more_extras (map specifier_display l)) in Hc, Hf |- *. cbn [app] in Hc, Hf |- *.
    rewrite length_app in Hf. cbn [length] in Hf. rewrite <- !app_assoc in Hc, Hf |- *.
    replace fuel with (length (specifier_display sp) + S (fuel - S (length (specifier_display sp))))%nat by lia.
    destruct (specifier_loop_chars (specifier_display sp)) with (fuel := S (fuel - S (length (specifier_display sp)))) (start := start)
      (specifiers := specifiers) (buffer := @nil Z) (c := c) (w := w) (before := before) (rest := 44 :: specifier_display sp2 ++ more_extras (map specifier_display l) ++ ws ++ rest)
      as (c1 & E1 & Hc1); [by apply specifier_no_separator|done|]. rewrite E1. cbn [specifier_loop app]. rewrite seq_read, (peek_at _ _ _ Hc1). cbn [head option_map Z.eqb Pos.eqb].
    pose proof (parse_specifier_text sp [] start (str_len (before ++ specifier_display sp)) (mkScan c1 w) Hsp ltac:(constructor)) as Es. rewrite app_nil_r in Es.
    rewrite (try_step _ _ _ _ _ Es). destruct (next_at _ _ _ _ Hc1) as (c2 & E2 & Hc2). rewrite (seq_with c1 c2 w _ _ _ E2).
    destruct (IH sp2 Hsp2 (fuel - S (length (specifier_display sp)))%nat (str_len (before ++ specifier_display sp) + 1)%nat (specifiers ++ [sp]) c2 w _ rest ws Hc2 Hw He)
      as (c3 & E3 & Hc3); [lia|]. exists c3. rewrite E3. by rewrite <- !app_assoc in *.
Qed.

Lemma gets_specifiers l ws : specifiers_read l -> space ws ->
  gets (parse_version_specifier (Sc := Sc)) (format_sep (bs ",") (map specifier_display l) ++ ws) l ends_specifiers.
Proof.
  intros (Hl & Hne & Hs) Hw c w before rest Hc He. destruct l as [|sp l]; [done|]. apply Forall_cons in Hl as [Hsp Hl]. cbn [map] in Hc |- *.
  rewrite format_sep_comma, <- (app_assoc _ _ ws) in Hc |- *. rewrite <- (app_assoc (specifier_display sp)), <- (app_assoc _ ws) in Hc. unfold parse_version_specifier. rewrite !seq_read. pose proof Hc as (_ & Er & _). rewrite Er.
  destruct (specifier_loop_text sp l Hsp Hl) with (fuel := S (length (specifier_display sp ++ more_extras (map specifier_display l) ++ ws ++ rest)))
    (start := cursor_pos c) (specifiers := @nil VersionSpecifier) (c := c) (w := w) (before := before) (rest := rest) (ws := ws) as (c1 & E1 & Hc1);
    [done|done|done|rewrite !length_app; lia|]. exists c1, w. rewrite E1. cbn [app]. by rewrite Hs.
Qed.

(** ** URLs *)

(** A text that is read as a URL to its end: it is not empty, has no white space,
    and does not end in a semicolon or hash. *)
Definition url_text_ok (t : Str) : bool :=
  negb (is_nil t) && forallb (fun c => negb (is_whitespace c)) t && negb (is_url_end (last t)).

Lemma mark_inside c before t tail : at_rest c before (t ++ tail) -> forallb (fun c => negb (is_whitespace c)) t = true -> is_url_end (last t) = false ->
  is_url_end (head tail) = false -> mark_ends_url c = false.
Proof.
  intros Hc Hw Hl Ht. unfold mark_ends_url. rewrite (peek_char_at _ _ _ Hc). destruct t as [|x [|y t]]; cbn [app head] in *.
  - by rewrite Ht.
  - cbn [last] in Hl. by rewrite Hl.
  - destruct (next_at _ _ _ _ Hc) as (c1 & -> & Hc1). cbn [snd]. rewrite (peek_char_at _ _ _ Hc1). cbn [head forallb] in *.
    destruct (is_whitespace y); [by rewrite andb_comm in Hw|]. by rewrite andb_false_r.
Qed.

Lemma url_loop_chars t : forall fuel len c w before tail, at_rest c before (t ++ tail) -> forallb (fun c => negb (is_whitespace c)) t = true ->
  is_url_end (last t) = false -> is_url_end (head tail) = false ->
  exists c', url_loop (length t + fuel) len (mkScan c w) = url_loop fuel (len + str_len t) (mkScan c' w) /\ at_rest c' (before ++ t) tail.
Proof.
  induction t as [|x t IH]; intros fuel len c w before tail Hc Hw Hl Ht.
  - exists c. rewrite app_nil_r. change (str_len []) with 0%nat. by rewrite Nat.add_0_r.
  - cbn [app length Nat.add url_loop] in *. destruct (next_at _ _ _ _ Hc) as (c1 & E1 & Hc1). rewrite (seq_with c c1 w _ _ _ E1).
    cbn [forallb] in Hw. apply andb_prop in Hw as [Hx%negb_true_iff Hw].
    assert ((x =? 13) || (x =? 10) = false) as ->.
    { destruct (Z.eqb_spec x 13) as [->|_]; [done|]. by destruct (Z.eqb_spec x 10) as [->|_]. }
    rewrite seq_read, Hx. cbn [andb]. rewrite seq_read.
    assert (Hl' : is_url_end (last t) = false) by (destruct t; [done|by rewrite last_cons_cons in Hl]).
    rewrite (mark_inside c1 (before ++ [x]) t tail Hc1 Hw Hl' Ht).
    destruct (IH fuel (len + len_utf8 x)%nat c1 w _ tail Hc1 Hw Hl' Ht) as (c2 & E2 & Hc2). exists c2. rewrite E2. rewrite <- !app_assoc in Hc2. split; [|done].
    f_equal. change (x :: t) with ([x] ++ t). rewrite str_len_app, str_len_one. lia.
Qed.

(** The white space between a URL and a marker: one space, or nothing at the end. *)
Definition url_space (ws rest : Str) : Prop := (ws = [] /\ rest = []) \/ (ws = [32] /\ head rest = Some 59).

Lemma gets_url {U} `{Pep508Url U} (t : Str) (u : U) ws0 ws : space ws0 -> url_text_ok t = true -> url_parse t = Ok u ->
  gets parse_url (ws0 ++ t ++ ws) u (url_space ws).
Proof.
  intros Hw0 Ht Hu c w before rest Hc Hr. unfold url_text_ok in Ht. apply andb_prop in Ht as [[Hne Hw]%andb_prop Hl%negb_true_iff].
  rewrite <- !app_assoc in Hc. assert (Hst : stops is_whitespace (t ++ ws ++ rest)).
  { destruct t as [|x t]; [done|]. cbn in Hw |- *. apply andb_prop in Hw as [Hx _]. by apply negb_true_iff. }
  destruct (eat_space c before ws0 _ Hc Hw0 Hst) as (c1 & E1 & Hc1).
  unfold parse_url. unfold skip_space. rewrite (seq_with c c1 w _ _ tt) by (by rewrite E1). rewrite !seq_read. pose proof Hc1 as (_ & Er & Ep). rewrite Er, Ep.
  assert (Hend : is_url_end (head (ws ++ rest)) = false) by (by destruct Hr as [[-> ->]|[-> _]]).
  replace (S (length (t ++ ws ++ rest))) with (length t + S (length (ws ++ rest)))%nat by (rewrite (length_app t (ws ++ rest)); apply Nat.add_succ_r).
  destruct (url_loop_chars t (S (length (ws ++ rest))) 0 c1 w _ _ Hc1 Hw Hl Hend) as (c2 & E2 & Hc2).
  assert (exists c3, url_loop (S (length (ws ++ rest))) (0 + str_len t) (mkScan c2 w) = Ret (str_len t, mkScan c3 w) /\
    at_rest c3 ((before ++ ws0) ++ t ++ ws) rest) as (c3 & E3 & Hc3).
  { cbn [url_loop Nat.add]. destruct Hr as [[-> ->]|[-> Hr]].
    - rewrite (seq_with c2 c2 w _ _ _ (next_at_end _ _ Hc2)). exists c2. split; [done|]. by rewrite app_nil_r.
    - cbn [app] in Hc2. destruct (next_at _ _ _ _ Hc2) as (c3 & E3 & Hc3). rewrite (seq_with c2 c3 w _ _ _ E3). cbn [Z.eqb Pos.eqb orb]. rewrite seq_read.
      assert (space_ends_url c3 = true) as ->.
      { destruct rest as [|x rest]; [done|]. injection Hr as ->. destruct (eat_space c3 _ [] _ Hc3) as (c4 & E4 & Hc4); [constructor|done|].
        unfold space_ends_url. rewrite E4. by rewrite (peek_char_at _ _ _ Hc4). }
      exists c3. split; [done|]. by rewrite <- !app_assoc in *. }
  rewrite (seq_step _ _ _ _ _ (eq_trans E2 E3)).
  rewrite (seq_slice c3 w _ _ _ t) by (eapply slice_at; [exact Hc3|by rewrite <- !app_assoc]).
  destruct t as [|x t]; [done|]. rewrite Hu. exists c3, w. split; [done|]. by rewrite <- !app_assoc in *.
Qed.
End lexical.

(** ** Requirements *)

Lemma normal_not_archive name : normal_name name = true -> looks_like_archive name = false.
Proof.
  intros Hn. unfold looks_like_archive. destruct (path_extension name) as [ext|] eqn:E; [|done]. exfalso.
  apply path_extension_spec in E as (dir & before & tail & -> & _). apply normal_run_chars in Hn.
  apply Forall_app in Hn as [_ Hn]. apply Forall_app in Hn as [_ Hn]. by apply Forall_cons in Hn as [Hn _].
Qed.

Section kinds.
Context `{ProcessEnv} `{StdText} {Sc : Type} `{ScannerLaws Sc} {U : Type} `{Pep508Url U}.

Definition shown_url (credentials : bool) (u : U) : Str := if credentials then url_displayable_with_credentials u else url_display u.

(** Specifiers and URLs whose text can be read again. *)
Definition kind_shown (credentials : bool) (k : option (VersionOrUrl U)) : Prop :=
  match k with
  | Some (VersionSpecifiersOf l) => specifiers_read l
  | Some (UrlOf u) => url_text_ok (shown_url credentials u) = true /\ url_parse (shown_url credentials u) = Ok u
  | None => True
  end.

(** The white space before what follows the extras, and the rest of it up to the
    marker. *)
Definition kind_lead (k : option (VersionOrUrl U)) (ws : Str) : Str :=
  match k with None => ws | Some (VersionSpecifiersOf _) => [] | Some (UrlOf _) => [32] end.

Definition kind_body (credentials : bool) (k : option (VersionOrUrl U)) (ws : Str) : Str :=
  match k with
  | None => []
  | Some (VersionSpecifiersOf l) => format_sep (bs ",") (map specifier_display l) ++ ws
  | Some (UrlOf u) => 64 :: [32] ++ shown_url credentials u ++ ws
  end.

Lemma kind_text credentials k ws : match k with Some v => version_or_url_display credentials v | None => [] end ++ ws = kind_lead k ws ++ kind_body credentials k ws.
Proof. destruct k as [[l|u]|]; [done| |by rewrite app_nil_r]. cbn [version_or_url_display kind_lead kind_body]. by rewrite <- app_assoc. Qed.

Lemma url_space_space ws rest : url_space ws rest -> space ws /\ ends_specifiers rest.
Proof. intros [[-> ->]|[-> Hr]]; (split; [|by constructor]); [constructor|by apply Forall_singleton]. Qed.

Lemma specifiers_head l : specifiers_read l -> exists x t, format_sep (bs ",") (map specifier_display l) = x :: t /\ is_specifier_start x = true.
Proof.
  intros (_ & Hne & _). destruct l as [|sp l]; [done|]. cbn [map]. rewrite format_sep_comma, specifier_display_text. destruct (operator sp); by do 2 eexists.
Qed.

Lemma gets_kind credentials start k ws : kind_shown credentials k ->
  gets (parse_requirement_kind (Sc := Sc) start) (kind_body credentials k ws) k (url_space ws).
Proof.
  intros Hk c w before rest Hc Hr. destruct (url_space_space _ _ Hr) as [Hw He]. unfold parse_requirement_kind. rewrite seq_read, (peek_char_at _ _ _ Hc).
  destruct k as [[l|u]|]; cbn [kind_body kind_shown] in *.
  - destruct (specifiers_head l Hk) as (x & t & E & Hx). assert (Hh : head ((format_sep (bs ",") (map specifier_display l) ++ ws) ++ rest) = Some x) by (by rewrite E).
    rewrite Hh. assert ((x =? 64) = false /\ (x =? 40) = false) as [-> ->] by (unfold is_specifier_start in Hx; lia). rewrite Hx.
    destruct (gets_specifiers (Sc := Sc) l ws Hk Hw c w before rest Hc He) as (c1 & w1 & E1 & Hc1). rewrite (try_step _ _ _ _ _ E1). by exists c1, w1.
  - cbn [app head Z.eqb Pos.eqb] in Hc |- *. destruct (next_at _ _ _ _ Hc) as (c1 & E1 & Hc1). rewrite (seq_with c c1 w _ _ _ E1). destruct Hk as [Ht Hu].
    destruct (gets_url (shown_url credentials u) u [32] ws ltac:(by repeat constructor) Ht Hu c1 w _ rest Hc1 Hr) as (c2 & w2 & E2 & Hc2).
    rewrite (try_step _ _ _ _ _ E2). exists c2, w2. split; [done|]. by rewrite <- app_assoc in Hc2.
  - cbn [app] in Hc |- *. exists c, w. rewrite app_nil_r. destruct rest as [|x rest]; [done|]. destruct He as [|[= ->]]; [done|]. done.
Qed.

(** The white space that is skipped before and after the extras. *)
Definition lead_before (extras : list Str) (k : option (VersionOrUrl U)) (ws : Str) : Str := if is_nil extras then kind_lead k ws else [].
Definition lead_after (extras : list Str) (k : option (VersionOrUrl U)) (ws : Str) : Str := if is_nil extras then [] else kind_lead k ws.

Lemma lead_space extras k ws : space ws -> space (lead_before extras k ws) /\ space (lead_after extras k ws).
Proof.
  intros Hw. assert (space (kind_lead k ws)) by (destruct k as [[|]|]; [constructor|by apply Forall_singleton|done]).
  unfold lead_before, lead_after. destruct (is_nil extras); split; done || constructor.
Qed.

Lemma lead_text extras k ws rest : extras_text extras ++ kind_lead k ws ++ rest = lead_before extras k ws ++ extras_text extras ++ lead_after extras k ws ++ rest.
Proof. unfold lead_before, lead_after, extras_text. by destruct extras. Qed.

(** What starts the rest after that white space. *)
Lemma body_head credentials k ws rest : kind_shown credentials k -> url_space ws rest ->
  kind_body credentials k ws ++ rest = [] \/ exists x t, kind_body credentials k ws ++ rest = x :: t /\ (x = 64 \/ x = 59 \/ is_specifier_start x = true).
Proof.
  intros Hk Hr. destruct k as [[l|u]|]; cbn [kind_body kind_shown] in *.
  - destruct (specifiers_head l Hk) as (x & t & -> & Hx). right. cbn [app]. do 2 eexists. split; [reflexivity|]. auto.
  - right. cbn [app]. do 2 eexists. split; [reflexivity|]. auto.
  - cbn [app]. destruct (url_space_space _ _ Hr) as [_ [He|He]]; (destruct rest as [|x rest]; [by left|]); [done|]. injection He as ->. right. do 2 eexists. split; [reflexivity|]. auto.
Qed.

Lemma body_start x : x = 64 \/ x = 59 \/ is_specifier_start x = true -> is_whitespace x = false /\ is_name_char x = false /\ x <> 91.
Proof.
  unfold is_specifier_start, is_whitespace, is_name_char, is_ascii_alphanumeric, is_ascii_upper, is_ascii_lower, is_ascii_digit. lia.
Qed.

Lemma body_stops credentials k ws rest : kind_shown credentials k -> url_space ws rest ->
  stops is_whitespace (kind_body credentials k ws ++ rest) /\ stops is_name_char (kind_body credentials k ws ++ rest) /\
  head (kind_body credentials k ws ++ rest) <> Some 91.
Proof.
  intros Hk Hr. destruct (body_head credentials k ws rest Hk Hr) as [->|(x & t & -> & Hx)]; [done|]. destruct (body_start x Hx) as (H1' & H2' & H3').
  cbn. split; [done|]. split; [done|]. congruence.
Qed.

Lemma space_not_name ws rest : space ws -> stops is_name_char rest -> stops is_name_char (ws ++ rest).
Proof.
  intros Hw Hr. destruct Hw as [|x l Hx]; [done|]. cbn. revert Hx. unfold is_whitespace, is_name_char, is_ascii_alphanumeric, is_ascii_upper, is_ascii_lower, is_ascii_digit. lia.
Qed.

Lemma extras_stops extras rest : (extras = [] -> stops is_whitespace rest /\ stops is_name_char rest) ->
  stops is_whitespace (extras_text extras ++ rest) /\ stops is_name_char (extras_text extras ++ rest).
Proof. intros Hr. unfold extras_text. destruct extras; [by apply Hr|done]. Qed.
End kinds.

Section roundtrip.
Context {RV RS : Type} `{!RangeSet Version RV} `{!RangeSetLaws Version RV} `{!RangeSetBounds Version RV}.
Context `{!RangeSet Str RS} `{!RangeSetLaws Str RS} `{!RangeSetBounds Str RS} `{AlphabeticLaws}.
Context `{ProcessEnv} `{StdText} {Sc : Type} `{ScannerLaws Sc} {U : Type} `{Pep508Url U}.

Abbreviation Interner := (InternerOf RV RS).
Implicit Types (s : Interner) (w : list MarkerWarningKind).

Lemma try_scanning {A B} (m : Lex A) (k : A -> M (Scan * Interner) (result B Pep508Error)) st st' s a : m st = Ret (Ok a, st') ->
  try (scanning m) k (st, s) = k a (st', s).
Proof. intros E. unfold try, mseq, scanning. cbn. by rewrite E. Qed.

Lemma skip_scanning c w s before ws rest : at_rest c before (ws ++ rest) -> space ws -> stops is_whitespace rest ->
  exists c', (forall A (k : unit -> M (Scan * Interner) A), mseq (scanning skip_space) k (mkScan c w, s) = k tt (mkScan c' w, s)) /\ at_rest c' (before ++ ws) rest.
Proof.
  intros Hc Hw Hs. destruct (eat_space c before ws rest Hc Hw Hs) as (c' & E & Hc'). exists c'. split; [|done]. intros A k.
  by rewrite (seq_scanning _ _ (mkScan c w) (mkScan c' w) s tt) by (unfold skip_space, with_cursor; cbn; by rewrite E).
Qed.

Lemma read_scanning {A B} (f : Cursor -> A) (k : A -> M (Scan * Interner) B) c w s :
  mseq (scanning (read_cursor f)) k (mkScan c w, s) = k (f c) (mkScan c w, s).
Proof. done. Qed.

(** The name, the extras and what follows them, up to the marker. *)
Lemma requirement_prefix credentials name extras kind ws rest s :
  normal_name name = true -> Forall (fun n => normal_name n = true) extras -> kind_shown credentials kind -> url_space ws rest ->
  let text := name ++ extras_text extras ++ match kind with Some v => version_or_url_display credentials v | None => [] end ++ ws ++ rest in
  exists c w, at_rest c (name ++ extras_text extras ++ match kind with Some v => version_or_url_display credentials v | None => [] end ++ ws) rest /\
    parse_pep508_requirement (Sc := Sc) (U := U) (mkScan (cursor_new text) [], s) =
    (let? marker := parse_quoted_marker in
     let* _ := scanning skip_space in
     let? _ := scanning (requirement_end marker) in
     ok (mkRequirement name extras kind (default node_true marker) None)) (mkScan c w, s).
Proof.
  intros Hn He Hk Hr text. destruct (url_space_space _ _ Hr) as [Hw Hend]. destruct (lead_space extras kind ws Hw) as [Hb Ha].
  destruct (body_stops credentials kind ws rest Hk Hr) as (Bw & Bn & Bb). set (body := kind_body credentials kind ws) in *.
  assert (Et : text = name ++ lead_before extras kind ws ++ extras_text extras ++ lead_after extras kind ws ++ body ++ rest).
  { unfold text. rewrite (app_assoc _ ws), kind_text, <- app_assoc. by rewrite lead_text. }
  assert (Er : name ++ extras_text extras ++ match kind with Some v => version_or_url_display credentials v | None => [] end ++ ws =
    name ++ lead_before extras kind ws ++ extras_text extras ++ lead_after extras kind ws ++ body) by (rewrite kind_text; by rewrite lead_text).
  rewrite Er. clear Er. pose proof (cursor_new_at text) as Hc. rewrite Et in Hc |- *. clear text Et.
  destruct (extras_stops extras (lead_after extras kind ws ++ body ++ rest)) as [Ew En]; [by intros ->|].
  unfold parse_pep508_requirement. rewrite read_scanning.
  destruct (normal_shape name Hn) as (x & l & _ & Ename & Hx & _).
  destruct (skip_scanning (cursor_new _) [] s [] [] _ Hc ltac:(constructor)) as (c1 & Esc1 & Hc1); [rewrite Ename; cbn; by apply alphanumeric_solid|].
  rewrite Esc1. cbn [app] in Hc1. rewrite read_scanning. pose proof Hc1 as (_ & _ & Ep1). rewrite Ep1.
  destruct (gets_name name Hn c1 [] [] _ Hc1 (space_not_name _ _ Hb En)) as (c2 & w2 & E2 & Hc2). rewrite (try_scanning _ _ _ _ s _ E2). cbn [app] in Hc2.
  rewrite read_scanning. pose proof Hc2 as (_ & _ & Ep2). rewrite Ep2.
  destruct (skip_scanning c2 w2 s _ _ _ Hc2 Hb Ew) as (c3 & Esc3 & Hc3).
  rewrite Esc3. destruct (gets_extras extras He c3 w2 _ _ Hc3) as (c4 & w4 & E4 & Hc4); [by intros ->|]. rewrite (try_scanning _ _ _ _ s _ E4).
  destruct (skip_scanning c4 w4 s _ _ _ Hc4 Ha Bw) as (c5 & Esc5 & Hc5).
  rewrite Esc5. destruct (gets_kind (Sc := Sc) credentials (cursor_pos (cursor_new (name ++ lead_before extras kind ws ++ extras_text extras ++ lead_after extras kind ws ++ body ++ rest)))
    kind ws Hk c5 w4 _ rest Hc5 Hr) as (c6 & w6 & E6 & Hc6).
  rewrite (try_scanning _ _ _ _ s _ E6). fold body in Hc6.
  assert (exists c7 w7, (forall B (k : unit -> M (Scan * Interner) (result B Pep508Error)), try (match kind with
      | None => scanning (reject_archive (cursor_pos (cursor_new (name ++ lead_before extras kind ws ++ extras_text extras ++ lead_after extras kind ws ++ body ++ rest))) (str_len []) (str_len name))
      | Some _ => ok tt end) k (mkScan c6 w6, s) = k tt (mkScan c7 w7, s)) /\ at_rest c7 ((((name ++ lead_before extras kind ws) ++ extras_text extras) ++ lead_after extras kind ws) ++ body) rest) as (c7 & w7 & E7 & Hc7).
  { exists c6, w6. split; [|done]. intros B k. destruct kind as [v|]; [done|]. apply try_scanning. unfold reject_archive.
    rewrite Nat.sub_0_r. rewrite (seq_slice c6 w6 _ _ _ name) by (eapply slice_at; [exact Hc6|by rewrite <- !app_assoc]). by rewrite normal_not_archive. }
  rewrite E7. assert (Hst : stops is_whitespace rest) by (destruct Hend as [He'|He']; (destruct rest as [|y rest]; [done|]); [done|by injection He' as ->]).
  destruct (skip_scanning c7 w7 s _ [] rest Hc7 ltac:(constructor) Hst) as (c8 & Esc8 & Hc8).
  rewrite Esc8. exists c8, w7. split; [|reflexivity]. by rewrite app_nil_r, <- !app_assoc in Hc8.
Qed.

(** The end of the text, without and with a marker. *)
Lemma requirement_ends {B} (k : NodeId -> B) marker c w s before : at_rest c before [] ->
  exists c', (let* _ := scanning skip_space in
    let? _ := scanning (requirement_end marker) in
    ok (k (default node_true marker))) (mkScan c w, s) = Ret (Ok (k (default node_true marker)), (mkScan c' w, s)).
Proof.
  intros Hc. destruct (skip_scanning c w s before [] [] Hc ltac:(constructor) I) as (c1 & E1 & Hc1). exists c1. rewrite E1.
  rewrite (try_scanning _ _ (mkScan c1 w) (mkScan c1 w) s tt); [done|]. unfold requirement_end. by rewrite (seq_with c1 c1 w _ _ _ (next_at_end _ _ Hc1)).
Qed.

Lemma quoted_marker_none c w s before : at_rest c before [] -> parse_quoted_marker (mkScan c w, s) = Ret (Ok None, (mkScan c w, s)).
Proof. intros Hc. unfold parse_quoted_marker. rewrite read_scanning, (peek_char_at _ _ _ Hc). done. Qed.

Lemma quoted_marker_some c w s before depth f text : at_rest c before (59 :: text) -> reachable s -> or_text depth f text ->
  exists t c' w' s', parse_quoted_marker (mkScan c w, s) = Ret (Ok (Some t), (mkScan c' w', s')) /\ at_rest c' (before ++ 59 :: text) [] /\
    reachable s' /\ ext s s' /\ means s' f t.
Proof.
  intros Hc Hs Hf. destruct (next_at _ _ _ _ Hc) as (c1 & E1 & Hc1). unfold parse_quoted_marker. rewrite read_scanning, (peek_char_at _ _ _ Hc).
  cbn [head Z.eqb Pos.eqb]. rewrite (seq_scanning _ _ (mkScan c w) (mkScan c1 w) s (Some (str_len before, 59))) by (unfold with_cursor; cbn; by rewrite E1).
  rewrite <- (app_nil_r text) in Hc1. destruct (parse_markers_cursor_understood c1 w s _ depth f text [] Hc1 Hs Hf ltac:(constructor)) as (t & c2 & w2 & s2 & E2 & Hc2 & Hr).
  exists t, c2, w2, s2. split; [exact E2|]. split; [|done]. by rewrite app_nil_r, <- app_assoc in Hc2.
Qed.

(** The markers whose text can be read again: those that are always true have none. *)
Definition marker_shown s t : Prop := t = node_true \/
  (marker s t /\ printable s t /\ quotable s t /\
   exists env extras, env_release env /\ evaluate_reporter s env extras t = Ret false).

Definition requirement_shown credentials s (r : Requirement U) : Prop :=
  normal_name (requirement_name r) = true /\ Forall (fun n => normal_name n = true) (requirement_extras r) /\
  kind_shown credentials (version_or_url r) /\ marker_shown s (requirement_marker r).

(** C13: a requirement is printed without a panic, with or without the credentials of
    its URL, and its text is parsed, without an error, to the same name, extras and
    version specifiers or URL and to a marker that evaluates as its marker does in
    every possible release environment.  The names are normal, the specifiers are
    parsed ones, the text of the URL is parsed to the URL and has no white space, and
    the marker is TRUE, or its diagram is [printable], it has normal names and no single
    quote in its values ([quotable]) and it is false in some release environment. *)
Theorem requirement_roundtrip credentials s r : reachable s -> requirement_shown credentials s r ->
  exists text r' w s', fmt_requirement s r credentials = Ret text /\ requirement_from_str (Sc := Sc) text s = Ret ((Ok r', w), s') /\
    reachable s' /\ ext s s' /\ requirement_name r' = requirement_name r /\ requirement_extras r' = requirement_extras r /\
    version_or_url r' = version_or_url r /\ requirement_origin r' = None /\
    forall env extras, env_release env -> possible_env env ->
      evaluate_reporter s' env extras (requirement_marker r') = evaluate_reporter s env extras (requirement_marker r).
Proof.
  intros Hs (Hn & He & Hk & Hm). unfold fmt_requirement. fold (extras_text (requirement_extras r)). destruct Hm as [Ht|(Hm & Hp & Hq & env0 & extras0 & Henv & Hf)].
  - destruct (requirement_prefix credentials (requirement_name r) (requirement_extras r) (version_or_url r) [] [] s Hn He Hk ltac:(by left)) as (c & w & Hc & E).
    destruct (requirement_ends (fun m => mkRequirement (requirement_name r) (requirement_extras r) (version_or_url r) m None) None c w s _ Hc) as (c' & E').
    rewrite Ht. unfold try_to_string. cbn [app] in E. eexists (requirement_name r ++ extras_text (requirement_extras r) ++ match version_or_url r with Some v => version_or_url_display credentials v | None => [] end ++ []), _, w, s.
    split; [reflexivity|].
    split; [unfold requirement_from_str; rewrite E, (try_step _ _ _ _ _ (quoted_marker_none c w s _ Hc)), E'; reflexivity|].
    do 6 (split; [done|]). done.
  - destruct (display_in_grammar s (requirement_marker r) env0 extras0) as (text & f & Et & Hg & Hv); [by apply interner_store, reachable_ok|done..|].
    destruct (requirement_prefix credentials (requirement_name r) (requirement_extras r) (version_or_url r) [32] (59 :: [32] ++ text) s Hn He Hk ltac:(by right)) as (c & w & Hc & E).
    destruct (quoted_marker_some c w s _ 2 f ([32] ++ text) Hc Hs) as (t & c1 & w1 & s1 & E1 & Hc1 & Hs1 & He1 & Hm1 & Hv1); [apply or_space; [done|by apply Forall_singleton]|].
    destruct (requirement_ends (fun m => mkRequirement (requirement_name r) (requirement_extras r) (version_or_url r) m None) (Some t) c1 w1 s1 _ Hc1) as (c' & E').
    rewrite Et. cbn [obind]. eexists (requirement_name r ++ extras_text (requirement_extras r) ++ match version_or_url r with Some v => version_or_url_display credentials v | None => [] end ++
      [32] ++ 59 :: [32] ++ text), _, w1, s1. split; [reflexivity|].
    split; [unfold requirement_from_str; rewrite E, (try_step _ _ _ _ _ E1), E'; reflexivity|].
    do 6 (split; [done|]). intros env extras Hr Hpos. cbn [requirement_marker default]. by rewrite Hv1, Hv.
Qed.
End roundtrip.
