(* ===== verification/RequirementWitness.v ===== *)
(** * The parser of requirements on a sample state

    The theorems on requirements, applied to the interner of [MarkerWitness] with
    texts as URLs; and texts on which the parser departs from its description. *)

From Stdlib Require Import ZArith Lia String.
From stdpp Require Import base list gmap relations.
From S2P Require Import Prelude.
From S2P Require Import VersionRepr.
From S2P Require Import VersionDisplay.
From S2P Require Import Specifier.
From S2P Require Import SpecifierParser.
From S2P Require Import SpecifierErrors.
From S2P Require Import Normalize.
From S2P Require Import Cursor.
From S2P Require Import RangeSet.
From S2P Require Import Stateful.
From S2P Require Import MarkerEdges.
From S2P Require Import MarkerTypes.
From S2P Require Import RangeInstances.
From S2P Require Import MarkerAlgebra.
From S2P Require Import MarkerTree.
From S2P Require Import MarkerExpr.
From S2P Require Import MarkerDnf.
From S2P Require Import MarkerPaths.
From S2P Require Import MarkerTheorems.
From S2P Require Import MarkerParser.
From S2P Require Import MarkerText.
From S2P Require Import MarkerRoundtrip.
From S2P Require Import MarkerWitness.
From S2P Require Import MarkerTextWitness.
From S2P Require Import Requirement.
From S2P Require Import RequirementParse.
From S2P Require Import RequirementRoundtrip.
Open Scope Z_scope.

#[local] Instance one_column : CharWidth := fun _ => Some 1%nat.

(** URLs that are their text. *)
#[local] Instance text_urls : Pep508Url Str := {|
  url_parse text := Ok text;
  url_display text := text;
  url_displayable_with_credentials text := text;
  url_cache_key _ := [];
|}.

#[local] Instance empty_env : ProcessEnv := {| env_var _ := None; current_dir := Some (bs "/") |}.

Lemma has_root : current_dir <> None.
Proof. done. Qed.

Abbreviation from_text := (requirement_from_str (U := Str) (Sc := list Z)).

(** A list of extras that is not closed. *)
Lemma requirement_parse_total_witness : exists e w s' shown, from_text (bs "flask[dotenv") sample = Ret ((Err e, w), s') /\ error_display e = Ret shown.
Proof.
  destruct (requirement_parse_total (U := Str) (Sc := list Z) has_root (bs "flask[dotenv") sample) as (r & w & s' & E & _ & _ & Hr);
    [by apply Forall_forall; intros c Hc; repeat (apply elem_of_cons in Hc as [->|Hc]; [by vm_compute|]); apply elem_of_nil in Hc
    |done|apply sample_spec|].
  assert (match r with Err _ => True | Ok _ => False end) as Hk.
  { assert (H2 : outcome_map fst (from_text (bs "flask[dotenv") sample) = Ret (r, w)) by (by rewrite E). vm_compute in H2. by injection H2 as <- <-. }
  destruct r as [|e]; [destruct Hk|]. destruct Hr as (_ & _ & _ & _ & _ & _ & _ & shown & Es). exists e, w, s', shown. split; [exact E|exact Es].
Defined.

(** [flask[dotenv] @ https://example.org/flask ; os_name == 'nt'] *)
Definition flask : Requirement Str := mkRequirement (bs "flask") [bs "dotenv"] (Some (UrlOf (bs "https://example.org/flask"))) windows None.

Lemma requirement_roundtrip_witness : exists r' w s',
  from_text (bs "flask[dotenv] @ https://example.org/flask ; os_name == 'nt'") sample = Ret ((Ok r', w), s') /\
  version_or_url r' = Some (UrlOf (bs "https://example.org/flask")) /\ evaluate_reporter s' linux_env (EnvExtras []) (requirement_marker r') = Ret false.
Proof.
  destruct sample_spec as (Hr & _ & Hw & _).
  destruct (requirement_roundtrip (Sc := list Z) true sample flask Hr) as (text & r' & w & s' & Et & E & _ & _ & _ & _ & Hk & _ & H).
  { split; [by vm_compute|]. split; [by apply Forall_singleton; vm_compute|]. split; [by vm_compute|]. right. split; [exact Hw|].
    split; [apply sample_printable|]. split; [apply sample_quotable|]. exists linux_env, (EnvExtras []). split; [apply linux_env_release|by vm_compute]. }
  assert (Ret text = Ret (bs "flask[dotenv] @ https://example.org/flask ; os_name == 'nt'")) as [= ->] by (rewrite <- Et; by vm_compute).
  exists r', w, s'. split; [exact E|]. split; [exact Hk|]. rewrite H by (apply linux_env_release || apply linux_env_possible). by vm_compute.
Defined.

(** ** Where the code departs from its description *)

(** The span of the error for an empty requirement is the first byte of the text,
    which need not be a character: for an ideographic space, displaying the error
    panics. *)
Lemma empty_error_panics : match from_text [12288] sample with
  | Ret ((Err e, _), _) => Some (error_display e)
  | _ => None
  end = Some Panic.
Proof. by vm_compute. Qed.

(** The error for a name that looks like an archive has an empty span: the cursor
    whose position is its end has not moved. *)
Lemma archive_span_empty : match from_text (bs "requests-2.26.0.tar.gz") sample with
  | Ret ((Err e, _), _) => Some (pe_start e, pe_len e)
  | _ => None
  end = Some (0%nat, 0%nat).
Proof. by vm_compute. Qed.

(** A semicolon followed by a space ends a URL without an error. *)
Lemma semicolon_after_url_accepted : match from_text (bs "flask @ https://example.org/flask; os_name == 'nt'") sample with
  | Ret ((Ok r, _), _) => Some (version_or_url r, node_is_true (requirement_marker r))
  | _ => None
  end = Some (Some (UrlOf (bs "https://example.org/flask")), false).
Proof. by vm_compute. Qed.

(** A comment needs no space before it: the error that would ask for one is
    unreachable, since the hash has been filtered out before. *)
Lemma comment_without_space : match from_text (bs "flask (>=1)# comment") sample with
  | Ret ((Ok r, _), _) => Some (requirement_name r)
  | _ => None
  end = Some (bs "flask").
Proof. by vm_compute. Qed.
