(* ===== verification/RequiresPython.v ===== *)
(** * [Requires-Python]

    Models [crates/uv-distribution-types/src/requires_python.rs]: the supported
    Python versions of a project, as version specifiers and as their lower and upper
    bounds, with the operations of the resolver on them (intersection, splitting,
    narrowing), their marker, the simplification of markers under them and the test
    of wheel tags against them.

    [Ranges<Version>] is the interface [RangeSet]; a [LowerBound] or [UpperBound] is
    its bound, as in [RangeCanonical]. *)

From Stdlib Require Import ZArith Lia String.
From stdpp Require Import base list.
From S2P Require Import Prelude.
From S2P Require Import VersionRepr.
From S2P Require Import VersionOrder.
From S2P Require Import Specifier.
From S2P Require Import SpecifierParser.
From S2P Require Import Ranges.
From S2P Require Import RangeCanonical.
From S2P Require Import PythonTags.
From S2P Require Import WheelTag.
From S2P Require Import WheelFilename.
From S2P Require Import RangeSet.
From S2P Require Import Stateful.
From S2P Require Import MarkerEdges.
From S2P Require Import MarkerTypes.
From S2P Require Import RangeInstances.
From S2P Require Import MarkerAlgebra.
From S2P Require Import MarkerPython.
From S2P Require Import MarkerDnf.
Open Scope Z_scope.

(** [RequiresPythonRange]: the lower and the upper bound. *)
Record RequiresPythonRange := mkPythonRange { range_lower : Bound; range_upper : Bound }.

Record RequiresPython := mkRequiresPython { rp_specifiers : VersionSpecifiers; rp_range : RequiresPythonRange }.

(** Derived [PartialEq] of the bounds. *)
Definition bound_eq (a b : Bound) : bool :=
  match a, b with
  | Included v, Included w | Excluded v, Excluded w => version_eq v w
  | Unbounded, Unbounded => true
  | _, _ => false
  end.

Definition python_range_eq (a b : RequiresPythonRange) : bool :=
  bound_eq (range_lower a) (range_lower b) && bound_eq (range_upper a) (range_upper b).

(** [RequiresPythonRange::default] *)
Definition python_range_default : RequiresPythonRange := mkPythonRange Unbounded Unbounded.

(** [RequiresPythonRange::specifiers] *)
Definition python_range_specifiers (range : RequiresPythonRange) : VersionSpecifiers :=
  from_unsorted (option_list (lower_bound_specifier (range_lower range)) ++ option_list (upper_bound_specifier (range_upper range))).

Section requires_python.
Context {R : Type} `{!RangeSet Version R}.

(** [bounding_range], without bounds for an empty range. *)
Definition bounding_or_unbounded (range : R) : Bound * Bound := default (Unbounded, Unbounded) (rs_bounding_range range).

(** [RequiresPythonRange::from_range] *)
Definition python_range_from_range (range : R) : RequiresPythonRange :=
  let '(lower, upper) := bounding_or_unbounded range in mkPythonRange lower upper.

(** [From<RequiresPythonRange> for Ranges<Version>] *)
Definition python_range_ranges (range : RequiresPythonRange) : R := rs_from_range_bounds (range_lower range, range_upper range).

(** [RequiresPython::greater_than_equal_version] *)
Definition rp_greater_than_equal_version (version : Version) : outcome RequiresPython :=
  let! version := only_release version in
  let! lower := lower_bound_new (Included version) in
  let! upper := upper_bound_new Unbounded in
  Ret (mkRequiresPython [greater_than_equal_version version] (mkPythonRange lower upper)).

(** [RequiresPython::from_specifiers] *)
Definition rp_from_specifiers (specifiers : VersionSpecifiers) : outcome RequiresPython :=
  let! ranges := release_specifiers_to_ranges (R := R) specifiers in
  let '(lower_bound, upper_bound) := bounding_or_unbounded ranges in
  let! lower := lower_bound_new lower_bound in
  let! upper := upper_bound_new upper_bound in
  Ret (mkRequiresPython specifiers (mkPythonRange lower upper)).

(** [Deserialize for RequiresPython], from the specifiers read. *)
Definition rp_deserialize (specifiers : VersionSpecifiers) : outcome RequiresPython :=
  let! range := release_specifiers_to_ranges (R := R) specifiers in
  Ret (mkRequiresPython specifiers (python_range_from_range range)).

(** A [RequiresPython] for the segments of a range. *)
Definition rp_of_ranges (range : R) : outcome RequiresPython :=
  let! specifiers := specifiers_from_release_only_bounds (rs_iter range) in
  Ret (mkRequiresPython specifiers (python_range_from_range range)).

Fixpoint map_ranges (l : list VersionSpecifiers) : outcome (list R) :=
  match l with
  | [] => Ret []
  | specs :: l' =>
      let! range := release_specifiers_to_ranges (R := R) specs in
      let! rest := map_ranges l' in
      Ret (range :: rest)
  end.

(** [RequiresPython::intersection] *)
Definition rp_intersection (specifiers : list VersionSpecifiers) : outcome (option RequiresPython) :=
  let! ranges := map_ranges specifiers in
  match ranges with
  | [] => Ret None
  | range :: rest =>
      let range := fold_left rs_intersection rest range in
      if rs_is_empty range then Ret None else outcome_map Some (rp_of_ranges range)
  end.

(** [RequiresPython::split] *)
Definition rp_split (rp : RequiresPython) (bound : Bound) : outcome (option (RequiresPython * RequiresPython)) :=
  let upper : R := rs_from_range_bounds (bound, range_upper (rp_range rp)) in
  let lower := rs_complement upper in
  let lower := rs_intersection lower (python_range_ranges (rp_range rp)) in
  let upper := rs_intersection upper (python_range_ranges (rp_range rp)) in
  if rs_is_empty lower || rs_is_empty upper then Ret None
  else
    let! l := rp_of_ranges lower in
    let! u := rp_of_ranges upper in
    Ret (Some (l, u)).

(** [RequiresPython::narrow] *)
Definition rp_narrow (rp : RequiresPython) (range : RequiresPythonRange) : option RequiresPython :=
  if python_range_eq range (rp_range rp) then None
  else
    let lower := if is_ge (lower_bound_cmp (range_lower range) (range_lower (rp_range rp))) then Some (range_lower range) else None in
    let upper := if is_le (upper_bound_cmp (range_upper range) (range_upper (rp_range rp))) then Some (range_upper range) else None in
    let range :=
      match lower, upper with
      | Some lower, Some upper => Some (mkPythonRange lower upper)
      | Some lower, None => Some (mkPythonRange lower (range_upper (rp_range rp)))
      | None, Some upper => Some (mkPythonRange (range_lower (rp_range rp)) upper)
      | None, None => None
      end in
    option_map (fun range => mkRequiresPython (python_range_specifiers range) range) range.

(** [RequiresPython::contains] *)
Definition rp_contains (rp : RequiresPython) (version : Version) : outcome bool :=
  let! version := only_release version in
  specifiers_contain (rp_specifiers rp) version.

(** [RequiresPython::is_contained_by] *)
Definition rp_is_contained_by (rp : RequiresPython) (target : VersionSpecifiers) : outcome bool :=
  let! ranges := release_specifiers_to_ranges (R := R) target in
  let target := (bounding_or_unbounded ranges).1 in
  Ret (is_ge (lower_bound_cmp (range_lower (rp_range rp)) target)).
End requires_python.

(** [RequiresPython::is_unbounded] *)
Definition rp_is_unbounded (rp : RequiresPython) : bool := bound_eq (range_lower (rp_range rp)) Unbounded.

(** [RequiresPython::is_exact_without_patch] *)
Definition rp_is_exact_without_patch (rp : RequiresPython) : bool :=
  match range_lower (rp_range rp) with
  | Included version => Nat.eqb (length (release version)) 2 && bound_eq (range_upper (rp_range rp)) (Included version)
  | _ => false
  end.

(** [u8::try_from(..).ok()] *)
Definition u8_try_from (n : Z) : option Z := if n <=? 255 then Some n else None.

(** [RequiresPython::abi_tag] *)
Definition rp_abi_tag (rp : RequiresPython) : option AbiTag :=
  match range_lower (rp_range rp) with
  | Included version | Excluded version =>
      match release version with
      | major :: minor :: _ =>
          match u8_try_from major, u8_try_from minor with
          | Some major, Some minor => Some (AbiCPython (major, minor) 0)
          | _, _ => None
          end
      | _ => None
      end
  | Unbounded => None
  end.

(** [Display for RequiresPython] *)
Definition rp_display (rp : RequiresPython) : list Z := specifiers_display (rp_specifiers rp).

(** ** Markers *)

Section markers.
Context {RV RS : Type} `{!RangeSet Version RV} `{!RangeSet Str RS}.
Abbreviation Interner := (InternerOf RV RS).

Definition python_marker (specifier : VersionSpecifier) : M Interner NodeId := expression (EVersion PythonFullVersion specifier).

(** [RequiresPython::to_marker_tree] *)
Definition rp_to_marker_tree (rp : RequiresPython) : M Interner NodeId :=
  let between lower upper :=
    let* lower := python_marker lower in
    let* upper := python_marker upper in
    interner_and lower upper in
  match range_lower (rp_range rp), range_upper (rp_range rp) with
  | Included lower, Included upper => between (greater_than_equal_version lower) (less_than_equal_version upper)
  | Included lower, Excluded upper => between (greater_than_equal_version lower) (less_than_version upper)
  | Excluded lower, Included upper => between (greater_than_version lower) (less_than_equal_version upper)
  | Excluded lower, Excluded upper => between (greater_than_version lower) (less_than_version upper)
  | Unbounded, Unbounded => mpure node_true
  | Unbounded, Included upper => python_marker (less_than_equal_version upper)
  | Unbounded, Excluded upper => python_marker (less_than_version upper)
  | Included lower, Unbounded => python_marker (greater_than_equal_version lower)
  | Excluded lower, Unbounded => python_marker (greater_than_version lower)
  end.

(** [RequiresPython::simplify_markers] *)
Definition rp_simplify_markers (rp : RequiresPython) (marker : NodeId) : M Interner NodeId :=
  simplify_python_versions marker (range_lower (rp_range rp)) (range_upper (rp_range rp)).

(** [RequiresPython::complexify_markers] *)
Definition rp_complexify_markers (rp : RequiresPython) (marker : NodeId) : M Interner NodeId :=
  complexify_python_versions marker (range_lower (rp_range rp)) (range_upper (rp_range rp)).

(** [SimplifiedMarkerTree] *)
Record SimplifiedMarkerTree := mkSimplified { as_simplified_marker_tree : NodeId }.

Definition simplified_new (rp : RequiresPython) (marker : NodeId) : M Interner SimplifiedMarkerTree :=
  let* marker := rp_simplify_markers rp marker in mpure (mkSimplified marker).

Definition simplified_into_marker (m : SimplifiedMarkerTree) (rp : RequiresPython) : M Interner NodeId :=
  rp_complexify_markers rp (as_simplified_marker_tree m).

Definition simplified_try_to_string (s : Interner) (m : SimplifiedMarkerTree) : outcome (option Str) :=
  try_to_string s (as_simplified_marker_tree m).

Definition simplified_and (m n : SimplifiedMarkerTree) : M Interner SimplifiedMarkerTree :=
  let* r := interner_and (as_simplified_marker_tree m) (as_simplified_marker_tree n) in mpure (mkSimplified r).
End markers.

(** ** Wheel tags *)

(** [3.minor] against the bounds at the precision of minor versions. *)
Definition wheel_below_upper (rp : RequiresPython) (minor : Z) : outcome bool :=
  let! version := version_new [3; minor] in
  let! upper := upper_major_minor (range_upper (rp_range rp)) in
  Ret (negb (is_gt (upper_bound_cmp (Included version) upper))).

Definition wheel_above_lower (rp : RequiresPython) (minor : Z) : outcome bool :=
  let! version := version_new [3; minor] in
  let! lower := lower_major_minor (range_lower (rp_range rp)) in
  Ret (negb (is_lt (lower_bound_cmp (Included version) lower))).

Definition wheel_in_range (rp : RequiresPython) (minor : Z) : outcome bool :=
  let! above := wheel_above_lower rp minor in
  if above : bool then wheel_below_upper rp minor else Ret false.

Definition is_python_2 (t : LanguageTag) : bool :=
  match t with
  | Python major _ => major =? 2
  | CPython v | PyPy v | GraalPy v | Pyston v => v.1 =? 2
  | _ => false
  end.

(** The tags of Python implementations, without an ABI tag. *)
Definition matches_python_tag (rp : RequiresPython) (python_tag : LanguageTag) : outcome bool :=
  if is_python_2 python_tag then Ret false
  else
    match python_tag with
    | Python major (Some minor) => if major =? 3 then wheel_below_upper rp minor else Ret true
    | CPython v | PyPy v | GraalPy v | Pyston v => if v.1 =? 3 then wheel_in_range rp v.2 else Ret true
    | _ => Ret true
    end.

(** [Iterator::any] *)
Fixpoint iter_any {A} (test : A -> outcome bool) (l : list A) : outcome bool :=
  match l with
  | [] => Ret false
  | a :: l' => let! b := test a in if b : bool then Ret true else iter_any test l'
  end.

Definition matches_abi_tag (rp : RequiresPython) (python_tags : list LanguageTag) (abi_tag : AbiTag) : outcome bool :=
  if is_stable_abi abi_tag then Ret true
  else
    match abi_tag with
    | AbiNone => iter_any (matches_python_tag rp) python_tags
    | AbiCPython v _ | AbiGraalPy v _ =>
        if v.1 =? 2 then Ret false else if v.1 =? 3 then wheel_in_range rp v.2 else Ret true
    | AbiPyPy None _ => Ret false
    | AbiPyPy (Some v) _ => if v.1 =? 2 then Ret false else if v.1 =? 3 then wheel_in_range rp v.2 else Ret true
    | _ => Ret true
    end.

(** [RequiresPython::matches_wheel_tag] *)
Definition matches_wheel_tag (rp : RequiresPython) (wheel : WheelFilename) : outcome bool :=
  iter_any (matches_abi_tag rp (python_tags (wheel_tags wheel))) (abi_tags (wheel_tags wheel)).
