(* ===== verification/RequiresPythonTheorems.v ===== *)
(** * [Requires-Python]: what its operations do to the supported versions

    The operations of [RequiresPython] against the set of Python versions that a
    project supports: intersection and splitting, narrowing, the marker of the
    bounds, and the wheels that are kept. *)

From Stdlib Require Import ZArith Lia String.
From stdpp Require Import base list.
From S2P Require Import Prelude.
From S2P Require Import VersionRepr.
From S2P Require Import VersionOrder.
From S2P Require Import VersionRecord.
From S2P Require Import Specifier.
From S2P Require Import Ranges.
From S2P Require Import RangeCanonical.
From S2P Require Import RangeSet.
From S2P Require Import RangeInstances.
From S2P Require Import MarkerEdges.
From S2P Require Import MarkerVersion.
From S2P Require Import MarkerPaths.
From S2P Require Import RequiresPython.
Open Scope Z_scope.

(** ** Specifiers of releases *)

(** A specifier on releases: no [===], no pre-release, post-release, local version
    or epoch, and room for the next release. *)
Definition release_spec (s : VersionSpecifier) : bool :=
  spec_real s && release_only (spec_version s) && negb (op_eqb (operator s) ExactEqual) &&
  forallb (fun n => n <? u64_max - 1) (release (spec_version s)).

Lemma release_spec_elim s : release_spec s = true -> spec_real s = true /\ release_only (spec_version s) = true /\ operator s <> ExactEqual /\
  Forall (fun n => 0 <= n < u64_max - 1) (release (spec_version s)).
Proof.
  unfold release_spec. intros [[[Hs Ht]%andb_prop Ho]%andb_prop Hr]%andb_prop. split; [done|]. split; [done|]. split.
  - intros E. by rewrite E in Ho.
  - pose proof (real_release _ (real_elim _ (proj1 (release_only_elim _ Ht)))) as Hn. apply Forall_forall. intros x Hx.
    pose proof (proj1 (Forall_forall _ _) Hn x Hx) as H0. rewrite forallb_forall in Hr. apply list_elem_of_In in Hx. specialize (Hr x Hx). cbn in H0. lia.
Qed.

(** Being a release, on the full form. *)
Lemma release_only_full v : release_only v = version_ok v && full_real (make_full v) && is_none (f_pre (make_full v)) && is_none (f_post (make_full v)) &&
  is_none (f_dev (make_full v)) && (f_epoch (make_full v) =? 0) && local_is_empty (f_local (make_full v)).
Proof. unfold release_only, real, final. rewrite pre_view, post_view, dev_view, epoch_view, local_view. by rewrite !andb_assoc. Qed.

Lemma release_only_set v w rs : release_only v = true -> version_ok w = true -> make_full w = set_f_release (make_full v) rs ->
  Forall (fun x => 0 <= x < u64_max) rs -> rs <> [] -> release_only w = true.
Proof.
  rewrite !release_only_full. intros [[[[[[_ Hr]%andb_prop H1]%andb_prop H2]%andb_prop H3]%andb_prop H4]%andb_prop H5]%andb_prop Hw -> Hrs Hne.
  unfold set_f_release. cbn [f_pre f_post f_dev f_epoch f_local]. rewrite Hw, H1, H2, H3, H4, H5, !andb_true_r. cbn [andb].
  unfold full_real in *. cbn [f_pre f_post f_dev f_epoch f_local f_release f_min f_max] in *.
  repeat (apply andb_prop in Hr as [Hr ?]). repeat (apply andb_true_intro; split); try done.
  - apply forallb_forall. intros x Hx%list_elem_of_In. pose proof (proj1 (Forall_forall _ _) Hrs x Hx). unfold below_max. cbn in *. lia.
  - by destruct rs.
Qed.

Section ranges.
Context {R : Type} `{!RangeSet Version R} `{!RangeSetLaws Version R} `{!RangeSetValues Version R}.

(** A range over releases, in normal form. *)
Definition release_range (r : R) : Prop := rs_ok r /\ values_all release_only r.

Lemma next_release rs : Forall (fun n => 0 <= n < u64_max - 1) rs -> rs <> [] ->
  exists up, increment_last rs = Ret up /\ Forall (fun n => 0 <= n < u64_max) up /\ up <> [].
Proof.
  intros Hr Hne. destruct (rev_snoc1 rs Hne) as (p & m & -> & Erev). unfold increment_last. rewrite Erev.
  apply Forall_app in Hr as [Hp Hm]. rewrite Forall_singleton in Hm. rewrite add64_below by lia. cbn [obind]. rewrite rev_involutive.
  exists (p ++ [m + 1]). split; [done|]. split; [|by destruct p].
  apply Forall_app. split; [eapply Forall_impl; [exact Hp|cbv beta; lia]|apply Forall_singleton; lia].
Qed.

Lemma tilde_next_release rs : Forall (fun n => 0 <= n < u64_max - 1) rs -> (1 < length rs)%nat ->
  exists up, tilde_upper_release rs = Ret up /\ Forall (fun n => 0 <= n < u64_max) up /\ up <> [].
Proof.
  intros Hr Hl. destruct (rev_snoc1 rs) as (p & m & -> & Erev); [intros ->; cbn in Hl; lia|]. rewrite length_app in Hl. cbn in Hl.
  destruct (rev_snoc1 p) as (q & n & -> & Erev'); [intros ->; cbn in Hl; lia|]. unfold tilde_upper_release. rewrite Erev, Erev'.
  apply Forall_app in Hr as [Hp _]. destruct (next_release (q ++ [n]) Hp) as (up & E & Hup); [by destruct q|]. unfold increment_last in E. rewrite Erev' in E. by exists up.
Qed.

Lemma only_release_release t : release_only t = true -> exists w, only_release t = Ret w /\ release_only w = true /\ release w = release t.
Proof.
  intros Ht. destruct (release_only_elim t Ht) as (Rt & _). pose proof (real_elim t Rt) as Hr.
  destruct (version_new_spec (release t) (real_release _ Hr) (real_nonempty _ Hr)) as (w & E & Er & Hw & _). by exists w.
Qed.

Lemma release_star_values t : release_only t = true -> Forall (fun n => 0 <= n < u64_max - 1) (release t) ->
  forall r : R, release_star_range t = Ret r -> values_all release_only r.
Proof.
  intros Ht Hr r. destruct (only_release_release t Ht) as (w & E & Hw & Er). unfold release_star_range. rewrite E. cbn [obind]. rewrite Er.
  destruct (next_release (release t) Hr) as (up & -> & Hup & Hne); [apply real_nonempty, real_elim, release_only_elim, Ht|]. cbn [obind].
  assert (Hok : version_ok w = true) by (pose proof (proj1 (release_only_elim _ Hw)) as Hreal; unfold real in Hreal; by apply andb_prop in Hreal as [? _]).
  destruct (with_release_view w up Hok) as (high & -> & Eh & Hh); [eapply Forall_impl; [exact Hup|cbv beta; lia]|done|]. cbn [obind].
  intros [= <-]. apply rs_from_range_bounds_values; [exact Ht|]. exact (release_only_set w high up Hw Hh Eh Hup Hne).
Qed.

Lemma release_range_values s : release_spec s = true -> forall r : R, release_specifier_to_range s false = Ret r -> values_all release_only r.
Proof.
  intros Hs r. destruct (release_spec_elim s Hs) as (Hreal & Ht & Ho & Hr). unfold release_specifier_to_range.
  destruct (only_release_release _ Ht) as (w & E & Hw & Er). rewrite E. cbn [obind]. destruct (operator s) eqn:Eo; try done; cbn [outcome_map].
  - intros [= <-]. by apply rs_singleton_values.
  - by apply release_star_values.
  - intros [= <-]. by apply rs_complement_values, rs_singleton_values.
  - destruct (release_star_range (spec_version s)) as [r'|] eqn:Es; [|done]. intros [= <-]. apply rs_complement_values. exact (release_star_values _ Ht Hr r' Es).
  - destruct (spec_real_elim s Hreal) as (_ & _ & Hl). destruct (tilde_next_release _ Hr (Hl Eo)) as (up & -> & Hup & Hne). cbn [obind].
    destruct (version_new_spec up Hup Hne) as (u & -> & _ & Hu & _). cbn [obind]. intros [= <-]. by apply rs_from_range_bounds_values.
  - intros [= <-]. by apply rs_strictly_lower_than_values.
  - intros [= <-]. by apply rs_lower_than_values.
  - intros [= <-]. by apply rs_strictly_higher_than_values.
  - intros [= <-]. by apply rs_higher_than_values.
Qed.

(** The range of a list of such specifiers: release bounds, and the releases that
    the list contains. *)
Lemma release_specifiers_range l : Forall (fun s => release_spec s = true) l ->
  exists r : R, release_specifiers_to_ranges l = Ret r /\ release_range r /\
    forall v, release_only v = true -> specifiers_contain l v = Ret (rs_contains r v).
Proof.
  intros Hl. assert (G : forall (r0 : R), release_range r0 -> exists r : R, intersect_all (fun s => release_specifier_to_range s false) r0 l = Ret r /\ release_range r /\
    forall v, release_only v = true -> exists b, specifiers_contain l v = Ret b /\ rs_contains r v = rs_contains r0 v && b).
  { induction Hl as [|s l Hs Hl IH]; intros r0 H0.
    - exists r0. split; [done|]. split; [done|]. intros v _. exists true. by rewrite andb_true_r.
    - destruct (release_spec_elim s Hs) as (Hreal & Ht & Ho & _). cbn [intersect_all specifiers_contain].
      destruct (release_range_admits (R := R) s false (spec_version s) Hreal Ht Ho Ht) as (_ & _ & r1 & E1 & Ok1 & _). rewrite E1. cbn [obind].
      pose proof (release_range_values s Hs r1 E1) as V1. destruct H0 as [Ok0 V0].
      destruct (IH (rs_intersection r0 r1)) as (r & E & Hr & Hv); [split; [by apply rs_intersection_law|by apply rs_intersection_values]|].
      exists r. split; [done|]. split; [done|]. intros v Hrel. destruct (Hv v Hrel) as (b & Eb & Er).
      destruct (release_range_admits (R := R) s false v Hreal Ht Ho Hrel) as (b1 & Eb1 & r1' & E1' & _ & Er1). rewrite E1 in E1'. injection E1' as <-.
      rewrite Eb1. cbn [obind]. exists (b1 && b). split; [by destruct b1|]. rewrite Er.
      pose proof (contains_intersection (R := R) r0 r1 v Ok0 Ok1 (real_wf v (proj1 (release_only_elim v Hrel)))) as Ei.
      change (ranges_contains (ranges_intersection r0 r1) v) with (rs_contains (rs_intersection r0 r1) v) in Ei. rewrite Ei.
      change (ranges_contains r1 v) with (rs_contains r1 v) in Er1 |- *. rewrite Er1. by rewrite andb_assoc. }
  destruct (G rs_full) as (r & E & Hr & Hv).
  { split; [unfold rs_ok, rs_cuts; rewrite rs_full_law; by split; [|split]|]. intros seg Hin. rewrite rs_full_law in Hin. apply list_elem_of_singleton in Hin as ->. done. }
  exists r. split; [done|]. split; [done|]. intros v Hrel. destruct (Hv v Hrel) as (b & -> & ->). f_equal.
  pose proof (contains_full (R := R) v (real_wf v (proj1 (release_only_elim v Hrel)))) as Ef. cbn in Ef. by rewrite Ef.
Qed.
End ranges.

(** ** Gaps between segments *)

Lemma release_wf v : release_only v = true -> wf v = true.
Proof. intros Hv. by apply real_wf, release_only_elim. Qed.

Lemma pad_ge_trans r a b : nonneg r -> nonneg a -> nonneg b -> pad_cmp a b <> Gt -> is_ge (pad_cmp r b) = true -> is_ge (pad_cmp r a) = true.
Proof.
  intros Hr Ha Hb Hab Hge. assert (H : pad_cmp b r <> Gt) by (rewrite pad_cmp_sym; by destruct (pad_cmp r b)).
  pose proof (pad_cmp_le_trans a b r Ha Hb Hr Hab H) as H'. rewrite pad_cmp_sym in H'. by destruct (pad_cmp r a).
Qed.

(** The specifiers for the minor versions from [minor] on. *)
Lemma star_gaps_exact major minor count v : 0 <= major < u64_max -> 0 <= minor -> minor + Z.of_nat count <= u64_max -> release_only v = true ->
  exists l, star_gaps major minor count = Ret l /\ Forall (fun sp => spec_term_ok sp = true) l /\ (l = [] -> count = 0%nat) /\
    specifiers_contain l v = Ret (is_lt (pad_cmp (release v) [major; minor]) || is_ge (pad_cmp (release v) [major; minor + Z.of_nat count])).
Proof.
  intros Hmaj. revert minor. induction count as [|count IH]; intros minor Hmin Hmax Hv.
  - exists []. split; [done|]. split; [constructor|]. split; [done|]. cbn. rewrite Z.add_0_r. f_equal. by destruct (pad_cmp _ _).
  - cbn [star_gaps]. destruct (star_term major minor) as (w & Ew & Er & Hw); [by repeat constructor; lia|]. rewrite Ew. cbn [obind].
    destruct (IH (minor + 1)) as (l & El & Hl & _ & Ec); [lia|lia|done|]. rewrite El. cbn [obind]. eexists. split; [reflexivity|].
    assert (Hterm : spec_term_ok (not_equals_star_version w) = true) by (unfold spec_term_ok; cbn; by rewrite Hw, Er).
    split; [by constructor|]. split; [done|]. cbn [specifiers_contain]. destruct (spec_term_real _ Hterm) as (H1 & H2 & H3).
    rewrite contains_release by done. cbn [obind operator spec_version not_equals_star_version release_holds]. rewrite Er.
    rewrite (prefix_padded_interval [major] minor) by (lia || apply real_nonneg, release_only_elim; done). cbn [app].
    rewrite Ec. replace (minor + 1 + Z.of_nat count) with (minor + Z.of_nat (S count)) by lia.
    assert (Nv : nonneg (release v)) by (apply real_nonneg, release_only_elim, Hv).
    assert (N : forall k, 0 <= k -> nonneg [major; k]) by (intros k Hk; apply Forall_cons_2; [lia|]; apply Forall_cons_2; [lia|constructor]).
    assert (P : forall j k, j <= k -> pad_cmp [major; j] [major; k] <> Gt) by (intros j k Hjk; cbn; rewrite Z.compare_refl; cbn; destruct (Z.compare_spec j k); done || lia).
    pose proof (pad_ge_trans (release v) [major; minor] [major; minor + 1] Nv (N minor Hmin) (N (minor + 1) ltac:(lia)) (P minor (minor + 1) ltac:(lia))) as G1.
    pose proof (pad_ge_trans (release v) [major; minor + 1] [major; minor + Z.of_nat (S count)] Nv (N (minor + 1) ltac:(lia)) (N (minor + Z.of_nat (S count)) ltac:(lia)) (P (minor + 1) (minor + Z.of_nat (S count)) ltac:(lia))) as G2.
    destruct (pad_cmp (release v) [major; minor]), (pad_cmp (release v) [major; minor + 1]), (pad_cmp (release v) [major; minor + Z.of_nat (S count)]); cbn in *;
      done || (by discriminate G1) || (by discriminate G2) || (specialize (G1 eq_refl); discriminate) || (specialize (G2 eq_refl); discriminate).
Qed.

(** A gap that is written down excludes the gap, and nothing else. *)
Lemma gap_exact next lower : bound_all release_only next = true -> bound_all release_only lower = true ->
  exists g, gap_specifiers next lower = Ret g /\ Forall (fun sp => spec_term_ok sp = true) g /\
    forall v, release_only v = true -> g = [] \/ specifiers_contain g v = Ret (below next v || above lower v).
Proof.
  intros Hn Hl. assert (E0 : exists g, Ret [] = Ret g /\ Forall (fun sp => spec_term_ok sp = true) g /\
    forall v, release_only v = true -> g = [] \/ specifiers_contain g v = Ret (below next v || above lower v)).
  { exists []. split; [done|]. split; [constructor|]. intros v _. by left. }
  assert (Gap : forall prev low p l major minor lminor, next = Excluded prev -> lower = Included low ->
    only_release_trimmed prev = Ret p -> only_release_trimmed low = Ret l -> (forall r, pad_cmp r (release p) = pad_cmp r [major; minor]) ->
    release l = [major; lminor] -> 0 <= minor <= lminor -> exists g, star_gaps major minor (Z.to_nat (lminor - minor)) = Ret g /\
    Forall (fun sp => spec_term_ok sp = true) g /\ forall v, release_only v = true -> g = [] \/ specifiers_contain g v = Ret (below next v || above lower v)).
  { intros prev low p l major minor lminor -> -> Ep El Erp Erl Hm. cbn [bound_all] in *.
    destruct (trimmed_cmp low l [] Hl El ltac:(constructor)) as [_ Fl]. rewrite Erl, !Forall_cons in Fl. destruct Fl as (F1 & F2 & _).
    assert (Ex : forall v, release_only v = true -> _) by (intros v; apply (star_gaps_exact major minor (Z.to_nat (lminor - minor)) v); lia).
    destruct (Ex prev Hn) as (g & Eg & Hg & _). exists g. split; [done|]. split; [done|]. intros v Hv. right.
    destruct (Ex v Hv) as (g' & Eg' & _ & _ & Ec). rewrite Eg in Eg'. injection Eg' as <-. rewrite Ec. cbn [below above].
    pose proof (real_nonneg v (proj1 (release_only_elim v Hv))) as Nv. rewrite !cmp_release_only by done.
    rewrite (proj1 (trimmed_cmp prev p _ Hn Ep Nv)), (proj1 (trimmed_cmp low l _ Hl El Nv)), Erp, Erl. by rewrite Z2Nat.id, Zplus_minus by lia. }
  destruct next as [?|prev|], lower as [low|low|]; try exact E0; cbn [gap_specifiers bound_all] in *.
  - destruct (only_release_trimmed_real prev Hn) as (p & Ep & _), (only_release_trimmed_real low Hl) as (l & El & _). rewrite Ep, El. cbn [obind].
    destruct (trimmed_cmp prev p [] Hn Ep ltac:(constructor)) as [_ Fp]. destruct (trimmed_cmp low l [] Hl El ltac:(constructor)) as [_ Fl].
    destruct (release p) as [|major [|minor [|]]] eqn:Erp; try exact E0; destruct (release l) as [|lmajor [|lminor [|]]] eqn:Erl; try exact E0.
    + destruct (major =? lmajor) eqn:Em; [|exact E0]. apply Z.eqb_eq in Em as <-. rewrite !Forall_cons in Fl.
      replace (Z.to_nat lminor) with (Z.to_nat (lminor - 0)) by lia. apply (Gap prev low p l major 0 lminor eq_refl eq_refl Ep El); [|done|lia].
      intros r. rewrite Erp. apply pad_cmp_snoc_0.
    + destruct ((major =? lmajor) && (minor <? lminor)) eqn:Em; [|exact E0]. apply andb_prop in Em as [->%Z.eqb_eq Em]. rewrite !Forall_cons in Fp.
      apply (Gap prev low p l lmajor minor lminor eq_refl eq_refl Ep El); [|done|lia]. intros r. by rewrite Erp.
  - destruct (version_eq prev low) eqn:E; [|exact E0]. eexists. split; [reflexivity|].
    assert (Hterm : spec_term_ok (not_equals_version prev) = true) by (unfold spec_term_ok; cbn; by rewrite Hn).
    split; [by constructor|]. intros v Hv. right. destruct (spec_term_real _ Hterm) as (H1 & H2 & H3).
    cbn [specifiers_contain]. rewrite contains_release by done. cbn [obind operator spec_version not_equals_version release_holds below above].
    unfold version_eq in E. destruct (cmp_laws_on prev low v) as (_ & _ & C); [by apply release_wf..|].
    destruct (C ltac:(by destruct (cmp prev low))) as [_ <-]. rewrite (cmp_release_only v prev) by done. by destruct (pad_cmp _ _).
Qed.

(** ** Specifiers of segments *)

(** The hole between two segments is one that the specifiers can express. *)
Definition gap_kept (next lower : Bound) : bool :=
  match gap_specifiers next lower with Ret (_ :: _) => true | _ => false end.

(** The holes after a segment that ends at [next]: all of them, or those that [kept] selects. *)
Fixpoint outside_gaps (kept : Bound -> Bound -> bool) (next : Bound) (rest : list (Bound * Bound)) (v : Version) : bool :=
  match rest with
  | [] => true
  | (lower, upper) :: rest' => (negb (kept next lower) || below next v || above lower v) && outside_gaps kept upper rest' v
  end.

Fixpoint gaps_kept_from (next : Bound) (rest : list (Bound * Bound)) : bool :=
  match rest with [] => true | (lower, upper) :: rest' => gap_kept next lower && gaps_kept_from upper rest' end.

(** Every hole between the segments can be expressed. *)
Definition gaps_kept (segments : list (Bound * Bound)) : bool :=
  match segments with [] => true | (_, next) :: rest => gaps_kept_from next rest end.

Fixpoint last_upper (next : Bound) (rest : list (Bound * Bound)) : Bound :=
  match rest with [] => next | (_, upper) :: rest' => last_upper upper rest' end.

Lemma last_upper_last lower next rest : last ((lower, next) :: rest) = Some (match rest with [] => lower | _ => default lower (fst <$> last rest) end, last_upper next rest).
Proof.
  revert lower next. induction rest as [|[lo hi] rest IH]; intros lower next; [done|].
  change (last ((lower, next) :: (lo, hi) :: rest)) with (last ((lo, hi) :: rest)). rewrite IH. cbn. by destruct rest.
Qed.

Lemma outside_all_kept next rest v : gaps_kept_from next rest = true -> outside_gaps gap_kept next rest v = outside_gaps (fun _ _ => true) next rest v.
Proof.
  revert next. induction rest as [|[lo hi] rest IH]; intros next; [done|]. cbn [gaps_kept_from]. intros [Hk Hr]%andb_prop. cbn [outside_gaps]. by rewrite Hk, IH.
Qed.

Lemma outside_some_kept kept next rest v : outside_gaps (fun _ _ => true) next rest v = true -> outside_gaps kept next rest v = true.
Proof.
  revert next. induction rest as [|[lo hi] rest IH]; intros next; [done|]. cbn [outside_gaps negb]. intros [H1 H2]%andb_prop.
  rewrite (IH _ H2), andb_true_r. rewrite <- orb_assoc. cbn in H1. by rewrite H1, orb_true_r.
Qed.

Lemma specifiers_contain_terms_app l k v b c : specifiers_contain l v = Ret b -> specifiers_contain k v = Ret c -> specifiers_contain (l ++ k) v = Ret (b && c).
Proof.
  revert b. induction l as [|s l IH]; intros b; cbn [specifiers_contain app]; [by intros [= <-]|].
  destruct (contains s v) as [[]|]; cbn [obind]; [|by intros [= <-]|done]. by apply IH.
Qed.

Lemma forallb_perm {A} (f : A -> bool) l k : l ≡ₚ k -> forallb f l = forallb f k.
Proof. induction 1 as [|x l k _ IH|x y l|l k m _ IH1 _ IH2]; cbn [forallb]; [done|by rewrite IH| |by rewrite IH1]. by rewrite !andb_assoc, (andb_comm (f x)). Qed.

Definition release_segment (s : Bound * Bound) : Prop := bound_all release_only s.1 = true /\ bound_all release_only s.2 = true.

Lemma gaps_loop_exact next specs rest : bound_all release_only next = true -> Forall release_segment rest ->
  exists g, gaps_loop next specs rest = Ret (last_upper next rest, specs ++ g) /\ Forall (fun sp => spec_term_ok sp = true) g /\
    bound_all release_only (last_upper next rest) = true /\
    forall v, release_only v = true -> specifiers_contain g v = Ret (outside_gaps gap_kept next rest v).
Proof.
  intros Hn Hr. revert next specs Hn. induction Hr as [|[lo hi] rest [Hlo Hhi] Hr IH]; intros next specs Hn.
  - exists []. rewrite app_nil_r. by repeat split; [constructor|..].
  - cbn [gaps_loop last_upper outside_gaps]. destruct (gap_exact next lo Hn Hlo) as (g & Eg & Hg & Hc). rewrite Eg. cbn [obind].
    destruct (IH hi (specs ++ g) Hhi) as (g' & Eg' & Hg' & Hb & Hc'). rewrite Eg'. exists (g ++ g'). rewrite app_assoc. split; [done|].
    split; [by apply Forall_app|]. split; [done|]. intros v Hv. apply specifiers_contain_terms_app; [|by apply Hc'].
    unfold gap_kept. rewrite Eg. destruct (Hc v Hv) as [->|E]; [done|]. destruct g; [done|]. exact E.
Qed.

(** [from_release_only_bounds] keeps the outer bounds and every hole it can express. *)
Lemma release_segments_exact start next rest : Forall release_segment ((start, next) :: rest) ->
  exists l, specifiers_from_release_only_bounds ((start, next) :: rest) = Ret l /\ Forall (fun sp => spec_term_ok sp = true) l /\
    forall v, release_only v = true -> specifiers_contain l v = Ret (above start v && below (last_upper next rest) v && outside_gaps gap_kept next rest v).
Proof.
  intros [[Hs Hn] Hr]%Forall_cons. cbn [specifiers_from_release_only_bounds]. cbn [fst snd] in *.
  destruct (gaps_loop_exact next [] rest Hn Hr) as (g & -> & Hg & Hlast & Hc). cbn [obind fst snd app].
  destruct (release_bounds_terms start (last_upper next rest) Hs Hlast) as (e & Ee & He & _). rewrite Ee. cbn [obind].
  eexists. split; [reflexivity|]. assert (Hall : Forall (fun sp => spec_term_ok sp = true) (g ++ e)) by by apply Forall_app.
  assert (Hperm : from_unsorted (g ++ e) ≡ₚ g ++ e) by (symmetry; apply sort_by_perm).
  split; [by rewrite Hperm|]. intros v Hv. rewrite specifiers_term_contain by (by rewrite ?Hperm).
  rewrite (forallb_perm _ _ _ Hperm). rewrite <- specifiers_term_contain by done.
  destruct (release_bounds_exact start (last_upper next rest) v Hs Hlast Hv) as (e' & Ee' & Ec). rewrite Ee in Ee'. injection Ee' as <-.
  rewrite (specifiers_contain_terms_app g e v _ _ (Hc v Hv) Ec). by rewrite andb_comm.
Qed.

(** ** Segments in normal form *)

Lemma above_cut a v : bound_valid a = true -> wf v = true -> above a v = true <-> cut_le (lower_cut a) (at_value v).
Proof.
  intros Ha Hv. pose proof (value_in_cuts v a Unbounded Ha eq_refl Hv) as E. cbn [below] in E. rewrite andb_true_r in E. rewrite <- E, in_cuts_iff. cbn [fst snd upper_cut].
  split; [tauto|]. intros Hle. split; [done|]. done.
Qed.

Lemma below_cut b v : bound_valid b = true -> wf v = true -> below b v = true <-> cut_lt (at_value v) (upper_cut b).
Proof.
  intros Hb Hv. pose proof (value_in_cuts v Unbounded b eq_refl Hb Hv) as E. cbn [above andb] in E. rewrite <- E, in_cuts_iff. cbn [fst snd lower_cut].
  split; [tauto|]. intros Hlt. split; [apply neg_inf_least|done].
Qed.

Lemma release_bound_valid b : bound_all release_only b = true -> bound_valid b = true.
Proof. destruct b; cbn; try done; by apply release_wf. Qed.

(** A version below the end of a segment is below the later ends and in no later hole. *)
Lemma below_next next rest v : wf v = true -> bound_valid next = true -> Forall release_segment rest -> gapped_from (upper_cut next) (map seg_cuts rest) ->
  below next v = true -> below (last_upper next rest) v = true /\ outside_gaps (fun _ _ => true) next rest v = true.
Proof.
  intros Hv Hn Hr. revert next Hn. induction Hr as [|[lo hi] rest [Hlo Hhi] Hr IH]; intros next Hn; [done|]. cbn [map gapped_from last_upper outside_gaps seg_cuts fst snd negb orb].
  intros (G1 & G2 & G3) Hb. rewrite Hb. cbn [orb andb]. apply release_bound_valid in Hhi. apply IH; [done|done|].
  apply below_cut; [done|done|]. apply below_cut in Hb; [|done|done]. eapply cut_lt_trans; [exact Hb|]. by eapply cut_lt_trans.
Qed.

(** Membership in segments in normal form: between the outer bounds and in no hole. *)
Lemma segments_hull start next rest v : wf v = true -> Forall release_segment ((start, next) :: rest) -> gapped (map seg_cuts ((start, next) :: rest)) ->
  existsb (in_segment v) ((start, next) :: rest) = above start v && below (last_upper next rest) v && outside_gaps (fun _ _ => true) next rest v.
Proof.
  intros Hv. revert start next. induction rest as [|[lo hi] rest IH]; intros start next [[Hs Hn] Hr]%Forall_cons [G1 G2].
  - cbn. unfold in_segment. cbn. by rewrite orb_false_r, andb_true_r.
  - pose proof Hr as [[Hlo Hhi] _]%Forall_cons. destruct G2 as (G2 & G3 & G4). cbn [fst snd] in *.
    change (existsb (in_segment v) ((start, next) :: (lo, hi) :: rest)) with (in_segment v (start, next) || existsb (in_segment v) ((lo, hi) :: rest)).
    rewrite (IH lo hi Hr) by done. unfold in_segment. cbn [fst snd last_upper outside_gaps negb orb].
    apply release_bound_valid in Hs, Hn, Hlo, Hhi.
    pose proof (above_cut start v Hs Hv) as As. pose proof (above_cut lo v Hlo Hv) as Al. pose proof (below_cut next v Hn Hv) as Bn.
    assert (F1 : above lo v = true -> above start v = true).
    { rewrite Al, As. intros Hle. eapply cut_le_trans; [|exact Hle]. apply cut_lt_le. by eapply cut_lt_trans. }
    assert (F2 : below next v = true -> below (last_upper hi rest) v = true /\ outside_gaps (fun _ _ => true) hi rest v = true).
    { intros Hb. assert (Hb' : below next v && true = true) by by rewrite Hb. apply Forall_cons in Hr as [_ Hr]. apply below_next; [done|done|done|exact G4|].
      apply below_cut; [done|done|]. apply Bn in Hb. eapply cut_lt_trans; [exact Hb|]. by eapply cut_lt_trans. }
    assert (F3 : below next v = true -> above lo v = false).
    { intros Hb. apply not_true_iff_false. rewrite Al. intros Hle. apply Bn in Hb. apply (cut_lt_irrefl (at_value v)). eapply cut_lt_trans; [exact Hb|]. eapply cut_lt_le_trans; [exact G2|exact Hle]. }
    destruct (below next v).
    + destruct (F2 eq_refl) as [-> ->]. rewrite (F3 eq_refl). cbn. by rewrite ?andb_true_r, ?orb_false_r.
    + cbn [orb]. rewrite andb_false_r. cbn [orb]. destruct (above lo v); [rewrite (F1 eq_refl); done|]. cbn. by rewrite andb_false_r.
Qed.

Section ranges2.
Context {R : Type} `{!RangeSet Version R} `{!RangeSetLaws Version R} `{!RangeSetValues Version R}.

Lemma release_range_segments (r : R) : release_range r -> Forall release_segment (rs_iter r).
Proof. intros [_ Hv]. apply Forall_forall. intros seg Hin. by apply Hv. Qed.

(** A [RequiresPython] of a range of releases: its bounds are the outer bounds, it
    contains every version of the range, and nothing outside the bounds or in a hole
    that it can express. *)
Lemma rp_of_ranges_exact (r : R) : release_range r -> rs_is_empty r = false ->
  exists rp, rp_of_ranges r = Ret rp /\ Forall (fun sp => spec_term_ok sp = true) (rp_specifiers rp) /\
    bound_all release_only (range_lower (rp_range rp)) = true /\ bound_all release_only (range_upper (rp_range rp)) = true /\
    forall v, release_only v = true -> exists c, specifiers_contain (rp_specifiers rp) v = Ret c /\ (rs_contains r v = true -> c = true) /\
      (c = true -> above (range_lower (rp_range rp)) v && below (range_upper (rp_range rp)) v = true) /\ (gaps_kept (rs_iter r) = true -> c = rs_contains r v).
Proof.
  intros Hr He. pose proof (release_range_segments r Hr) as Hseg. destruct Hr as [Hok _]. unfold rp_of_ranges, python_range_from_range, bounding_or_unbounded.
  rewrite rs_bounding_range_law. rewrite rs_is_empty_law in He. pose proof (contains_segments r) as Hc. pose proof Hok as [_ HG]. unfold rs_cuts in HG. revert Hseg HG Hc He.
  destruct (rs_iter r) as [|[start next] rest]; [done|]. intros Hseg HG Hc _.
  rewrite last_upper_last. cbn [default]. destruct (release_segments_exact start next rest Hseg) as (l & -> & Hl & Hlc). cbn [obind]. eexists. split; [reflexivity|].
  cbn [rp_specifiers rp_range range_lower range_upper]. split; [done|].
  assert (Hlast : bound_all release_only (last_upper next rest) = true).
  { apply Forall_cons in Hseg as [[_ Hn] Hr]. by destruct (gaps_loop_exact next [] rest Hn Hr) as (_ & _ & _ & ? & _). }
  split; [by apply Forall_cons in Hseg as [[? _] _]|]. split; [done|]. intros v Hv. eexists. split; [by apply Hlc|].
  pose proof (release_wf v Hv) as Hw. specialize (Hc v Hok Hw). unfold in_segment in *. pose proof (segments_hull start next rest v Hw Hseg HG) as Hh. unfold in_segment in Hh. rewrite Hc, Hh.
  split; [|split].
  - intros [H1 H2]%andb_prop. by rewrite H1, (outside_some_kept _ _ _ _ H2).
  - by intros [H1 H2]%andb_prop.
  - intros Hk. by rewrite (outside_all_kept next rest v Hk).
Qed.

Lemma rp_contains_terms rp v : Forall (fun sp => spec_term_ok sp = true) (rp_specifiers rp) -> release_only v = true ->
  rp_contains rp v = specifiers_contain (rp_specifiers rp) v.
Proof.
  intros Hs Hv. unfold rp_contains. destruct (only_release_release v Hv) as (w & -> & Hw & Er). cbn [obind]. by rewrite !specifiers_term_contain, Er by done.
Qed.

Lemma release_contains_intersection (r s : R) v : release_range r -> release_range s -> release_only v = true ->
  rs_contains (rs_intersection r s) v = rs_contains r v && rs_contains s v.
Proof.
  intros [Hr _] [Hs _] Hv. exact (contains_intersection (R := R) r s v Hr Hs (release_wf v Hv)).
Qed.

Lemma release_intersection (r s : R) : release_range r -> release_range s -> release_range (rs_intersection r s).
Proof. intros [Hr Vr] [Hs Vs]. split; [by apply rs_intersection_law|by apply rs_intersection_values]. Qed.

Lemma map_ranges_exact specs : Forall (Forall (fun s => release_spec s = true)) specs ->
  exists rs : list R, map_ranges specs = Ret rs /\ Forall release_range rs /\ (rs = [] -> specs = []) /\
    forall v, release_only v = true -> specifiers_contain (concat specs) v = Ret (forallb (fun r => rs_contains r v) rs).
Proof.
  induction 1 as [|l specs Hl Hs (rs & E & Hr & _ & Hc)]; [exists []; by repeat split; [constructor|..]|]. cbn [map_ranges concat].
  destruct (release_specifiers_range (R := R) l Hl) as (r & -> & Hr0 & Hc0). cbn [obind]. rewrite E. cbn [obind]. exists (r :: rs). split; [done|].
  split; [by constructor|]. split; [done|]. intros v Hv. cbn [forallb]. by apply specifiers_contain_terms_app; [apply Hc0|apply Hc].
Qed.

Lemma fold_intersection_exact (rs : list R) (r : R) : release_range r -> Forall release_range rs ->
  release_range (fold_left rs_intersection rs r) /\
  forall v, release_only v = true -> rs_contains (fold_left rs_intersection rs r) v = rs_contains r v && forallb (fun r => rs_contains r v) rs.
Proof.
  intros Hr Hrs. revert r Hr. induction Hrs as [|s rs Hs Hrs IH]; intros r Hr; cbn [fold_left forallb]; [split; [done|]; intros v _; by rewrite andb_true_r|].
  destruct (IH (rs_intersection r s)) as [H1 H2]; [by apply release_intersection|]. split; [done|]. intros v Hv.
  by rewrite (H2 v Hv), release_contains_intersection, andb_assoc by done.
Qed.

Lemma empty_contains (r : R) v : rs_ok r -> wf v = true -> rs_is_empty r = true -> rs_contains r v = false.
Proof. intros Hr Hv. rewrite rs_is_empty_law, (contains_segments r v Hr Hv). by destruct (rs_iter r). Qed.

(** The intersection of version specifiers on releases never panics.  It is
    [None] for no specifiers, or when no release meets all of them.  Otherwise every
    release that meets all of them is still supported, every release that the new
    specifiers support lies between the new bounds, and the new specifiers support
    exactly the releases that meet all the given ones, provided that each hole
    between the segments of the intersection can be expressed. *)
Theorem intersection_supports specs : Forall (Forall (fun s => release_spec s = true)) specs ->
  exists o, rp_intersection (R := R) specs = Ret o /\
  match o with
  | None => specs = [] \/ forall v, release_only v = true -> specifiers_contain (concat specs) v = Ret false
  | Some rp => forall v, release_only v = true -> exists wanted supported,
      specifiers_contain (concat specs) v = Ret wanted /\ rp_contains rp v = Ret supported /\
      (wanted = true -> supported = true) /\
      (supported = true -> above (range_lower (rp_range rp)) v && below (range_upper (rp_range rp)) v = true) /\
      (forall (r : R) rs, map_ranges specs = Ret (r :: rs) -> gaps_kept (rs_iter (fold_left rs_intersection rs r)) = true -> supported = wanted)
  end.
Proof.
  intros Hs. destruct (map_ranges_exact specs Hs) as (rs & E & Hr & Hnil & Hc). unfold rp_intersection. rewrite E. cbn [obind].
  destruct rs as [|r rs]; [exists None; split; [done|]; left; by apply Hnil|]. apply Forall_cons in Hr as [Hr Hrs].
  destruct (fold_intersection_exact rs r Hr Hrs) as [Hf Hfc]. destruct (rs_is_empty _) eqn:He.
  - exists None. split; [done|]. right. intros v Hv. rewrite (Hc v Hv). cbn [forallb]. rewrite <- (Hfc v Hv). f_equal.
    apply empty_contains; [apply Hf|by apply release_wf|done].
  - destruct (rp_of_ranges_exact _ Hf He) as (rp & -> & Hterm & _ & _ & Hrp). cbn [outcome_map]. eexists. split; [reflexivity|].
    intros v Hv. destruct (Hrp v Hv) as (c & Ec & H1 & H2 & H3). exists (rs_contains (fold_left rs_intersection rs r) v), c.
    rewrite (Hc v Hv), (Hfc v Hv). split; [done|]. rewrite rp_contains_terms by done. split; [done|]. rewrite <- (Hfc v Hv). split; [done|]. split; [done|].
    intros r' rs' [= <- <-]. exact H3.
Qed.

(** ** Splitting *)

(** The versions between the bounds. *)
Definition between_bounds (range : RequiresPythonRange) (v : Version) : bool := above (range_lower range) v && below (range_upper range) v.

Definition release_bounds (range : RequiresPythonRange) : Prop :=
  bound_all release_only (range_lower range) = true /\ bound_all release_only (range_upper range) = true.

(** One segment is kept as it is. *)
Lemma rp_of_segment_exact (r : R) a b : release_range r -> covers r (fun p => in_cuts p (a, b)) -> rs_is_empty r = false ->
  exists rp, rp_of_ranges r = Ret rp /\ release_bounds (rp_range rp) /\
    forall v, release_only v = true -> rp_contains rp v = Ret (rs_contains r v) /\ between_bounds (rp_range rp) v = rs_contains r v.
Proof.
  intros Hr Hcov He. destruct (rp_of_ranges_exact r Hr He) as (rp & E & Hterm & Hlo & Hhi & Hrp). exists rp. split; [done|]. split; [done|].
  pose proof (covers_range_at r a b Hcov) as Hat. destruct (is_lt _); [|rewrite rs_is_empty_law, Hat in He; done].
  destruct (range_at_bounds r a b Hat) as (lo & hi & Ei & Eb & _). intros v Hv. destruct (Hrp v Hv) as (c & Ec & _ & _ & H3). rewrite Ei in H3. specialize (H3 eq_refl). subst c.
  rewrite rp_contains_terms by done. split; [done|].
  assert (Er : rp_range rp = mkPythonRange lo hi).
  { unfold rp_of_ranges, python_range_from_range, bounding_or_unbounded in E. rewrite Eb in E. destruct (specifiers_from_release_only_bounds _); [|done]. by injection E as <-. }
  rewrite (contains_segments r v (proj1 Hr) (release_wf v Hv)), Ei, Er. cbn. by rewrite orb_false_r.
Qed.

Lemma release_segment_range lo hi : bound_all release_only lo = true -> bound_all release_only hi = true ->
  release_range (rs_from_range_bounds (R := R) (lo, hi)) /\ covers (rs_from_range_bounds (R := R) (lo, hi)) (fun p => in_cuts p (lower_cut lo, upper_cut hi)).
Proof.
  intros Hl Hh. assert (Hc : covers (rs_from_range_bounds (R := R) (lo, hi)) (fun p => in_cuts p (lower_cut lo, upper_cut hi))).
  { apply (rs_from_range_bounds_law (lo, hi)). unfold seg_valid. cbn. by rewrite !release_bound_valid. }
  split; [|done]. split; [apply Hc|]. by apply rs_from_range_bounds_values.
Qed.

Lemma segment_contains (r : R) lo hi v : covers r (fun p => in_cuts p (lower_cut lo, upper_cut hi)) -> bound_all release_only lo = true -> bound_all release_only hi = true ->
  release_only v = true -> rs_contains r v = above lo v && below hi v.
Proof.
  intros Hc Hl Hh Hv. rewrite (covers_contains r _ v Hc (release_wf v Hv)). by apply value_in_cuts; [apply release_bound_valid..|apply release_wf].
Qed.

Lemma rp_split_exact rp bound : bound_all release_only bound = true -> release_bounds (rp_range rp) ->
  exists o, rp_split (R := R) rp bound = Ret o /\
  match o with
  | None => (forall v, release_only v = true -> between_bounds (rp_range rp) v = true -> above bound v = true) \/
            (forall v, release_only v = true -> between_bounds (rp_range rp) v = true -> above bound v = false)
  | Some (low, high) => release_bounds (rp_range low) /\ release_bounds (rp_range high) /\ forall v, release_only v = true ->
      rp_contains low v = Ret (between_bounds (rp_range rp) v && negb (above bound v)) /\
      rp_contains high v = Ret (between_bounds (rp_range rp) v && above bound v) /\
      between_bounds (rp_range low) v = between_bounds (rp_range rp) v && negb (above bound v) /\
      between_bounds (rp_range high) v = between_bounds (rp_range rp) v && above bound v
  end.
Proof.
  intros Hb [Hlo Hhi]. unfold rp_split, python_range_ranges. set (lo := range_lower (rp_range rp)) in *. set (hi := range_upper (rp_range rp)) in *.
  destruct (release_segment_range bound hi Hb Hhi) as [Hu Cu]. destruct (release_segment_range lo hi Hlo Hhi) as [Hf Cf].
  set (u := rs_from_range_bounds (R := R) (bound, hi)) in *. set (f := rs_from_range_bounds (R := R) (lo, hi)) in *.
  pose proof (rs_complement_law u (proj1 Hu)) as Cc. assert (Hc : release_range (rs_complement u)) by (split; [apply Cc|apply rs_complement_values, Hu]).
  assert (Hl : release_range (rs_intersection (rs_complement u) f)) by by apply release_intersection. assert (Hh : release_range (rs_intersection u f)) by by apply release_intersection.
  assert (Cl : covers (rs_intersection (rs_complement u) f) (fun p => in_cuts p (lower_cut lo, if is_le (cut_cmp (lower_cut bound) (upper_cut hi)) then lower_cut bound else upper_cut hi))).
  { split; [apply Hl|]. intros p Hp. rewrite (proj2 (rs_intersection_law _ f (proj1 Hc) (proj1 Hf)) p Hp), (proj2 Cc p Hp), (proj2 Cu p Hp), (proj2 Cf p Hp).
    apply Bool.eq_iff_eq_true. rewrite andb_true_iff, negb_true_iff, <- not_true_iff_false, !in_cuts_iff. cbn [fst snd]. rewrite min_cut, <- (cut_not_le (lower_cut bound) p). tauto. }
  assert (Ch : covers (rs_intersection u f) (fun p => in_cuts p (if is_le (cut_cmp (lower_cut lo) (lower_cut bound)) then lower_cut bound else lower_cut lo, upper_cut hi))).
  { split; [apply Hh|]. intros p Hp. rewrite (proj2 (rs_intersection_law u f (proj1 Hu) (proj1 Hf)) p Hp), (proj2 Cu p Hp), (proj2 Cf p Hp).
    apply Bool.eq_iff_eq_true. rewrite andb_true_iff, !in_cuts_iff. cbn [fst snd]. rewrite max_cut. tauto. }
  assert (Vl : forall v, release_only v = true -> rs_contains (rs_intersection (rs_complement u) f) v = between_bounds (rp_range rp) v && negb (above bound v)).
  { intros v Hv. rewrite release_contains_intersection by done. rewrite (covers_contains _ _ v Cc (release_wf v Hv)), (proj2 Cu) by done.
    rewrite value_in_cuts by (by apply release_bound_valid || by apply release_wf). rewrite (segment_contains f lo hi v) by done.
    unfold between_bounds. fold lo hi. by destruct (above lo v), (below hi v), (above bound v). }
  assert (Vh : forall v, release_only v = true -> rs_contains (rs_intersection u f) v = between_bounds (rp_range rp) v && above bound v).
  { intros v Hv. rewrite release_contains_intersection by done. rewrite (segment_contains u bound hi v), (segment_contains f lo hi v) by done.
    unfold between_bounds. fold lo hi. by destruct (above lo v), (below hi v), (above bound v). }
  destruct (rs_is_empty (rs_intersection (rs_complement u) f)) eqn:El; cbn [orb].
  { exists None. split; [done|]. left. intros v Hv Hin. pose proof (Vl v Hv) as E. rewrite (empty_contains _ v (proj1 Hl) (release_wf v Hv) El), Hin in E. by destruct (above bound v). }
  destruct (rs_is_empty (rs_intersection u f)) eqn:Eh.
  { exists None. split; [done|]. right. intros v Hv Hin. pose proof (Vh v Hv) as E. rewrite (empty_contains _ v (proj1 Hh) (release_wf v Hv) Eh), Hin in E. by destruct (above bound v). }
  destruct (rp_of_segment_exact _ _ _ Hl Cl El) as (low & -> & Rlow & Hlow). destruct (rp_of_segment_exact _ _ _ Hh Ch Eh) as (high & -> & Rhigh & Hhigh). cbn [obind].
  eexists. split; [reflexivity|]. split; [done|]. split; [done|]. intros v Hv. destruct (Hlow v Hv) as [-> ->]. destruct (Hhigh v Hv) as [-> ->]. by rewrite (Vl v Hv), (Vh v Hv).
Qed.

(** Splitting a [Requires-Python] at a bound never panics.  It is [None] when all
    the releases between the bounds are on one side of the split point.  Otherwise
    the two parts support, by their specifiers and by their bounds, exactly the
    releases between the bounds that are below the split point and those that are not:
    every release between the bounds is supported by exactly one part. *)
Theorem split_partitions rp bound : bound_all release_only bound = true -> release_bounds (rp_range rp) ->
  exists o, rp_split (R := R) rp bound = Ret o /\
  match o with
  | None => (forall v, release_only v = true -> between_bounds (rp_range rp) v = true -> above bound v = true) \/
            (forall v, release_only v = true -> between_bounds (rp_range rp) v = true -> above bound v = false)
  | Some (low, high) => release_bounds (rp_range low) /\ release_bounds (rp_range high) /\ forall v, release_only v = true ->
      rp_contains low v = Ret (between_bounds (rp_range rp) v && negb (above bound v)) /\
      rp_contains high v = Ret (between_bounds (rp_range rp) v && above bound v) /\
      between_bounds (rp_range low) v = between_bounds (rp_range rp) v && negb (above bound v) /\
      between_bounds (rp_range high) v = between_bounds (rp_range rp) v && above bound v
  end.
Proof. apply rp_split_exact. Qed.
End ranges2.

(** ** Narrowing *)

Lemma above_contains b v : wf v = true -> bound_wf b = true -> lower_bound_contains b v = above b v.
Proof.
  intros Hv Hb. destruct b as [w|w|]; [| |done]; cbn in *; destruct (cmp_laws_on w v v) as (E & _); try done; rewrite E; by destruct (cmp v w).
Qed.

Lemma below_contains b v : wf v = true -> bound_wf b = true -> upper_bound_contains b v = below b v.
Proof.
  intros Hv Hb. destruct b as [w|w|]; [| |done]; cbn in *; destruct (cmp_laws_on w v v) as (E & _); try done; rewrite E; by destruct (cmp v w).
Qed.

(** The greater of two lower bounds admits what both admit. *)
Lemma lower_bound_max a b v : bound_wf a = true -> bound_wf b = true -> wf v = true ->
  if is_ge (lower_bound_cmp a b) then above a v = above a v && above b v else above b v = above b v && above a v.
Proof.
  intros Ha Hb Hv. destruct (bounds_ordered_by_inclusion a b a v Ha Hb Ha Hv) as (_ & _ & _ & _ & Hab & _).
  destruct (bounds_ordered_by_inclusion b a b v Hb Ha Hb Hv) as (Hsym & _ & _ & _ & Hba & _). rewrite !above_contains in * by done.
  destruct (lower_bound_cmp a b) eqn:E; cbn [is_ge].
  2: destruct (above b v); [rewrite Hab; done|done].
  all: destruct (above a v); [rewrite Hba; [done| |done]|done]; rewrite Hsym; done.
Qed.

(** The smaller of two upper bounds admits what both admit. *)
Lemma upper_bound_min a b v : bound_wf a = true -> bound_wf b = true -> wf v = true ->
  if is_le (upper_bound_cmp a b) then below a v = below a v && below b v else below b v = below b v && below a v.
Proof.
  intros Ha Hb Hv. destruct (bounds_ordered_by_inclusion a b a v Ha Hb Ha Hv) as (_ & _ & _ & _ & _ & Hab).
  destruct (bounds_ordered_by_inclusion b a b v Hb Ha Hb Hv) as (_ & Hsym & _ & _ & _ & Hba). rewrite !below_contains in * by done.
  destruct (upper_bound_cmp a b) eqn:E; cbn [is_le].
  3: destruct (below b v); [rewrite Hba; [done| |done]|done]; rewrite Hsym; done.
  all: destruct (below a v); [rewrite Hab; done|done].
Qed.

Lemma release_bound_wf b : bound_all release_only b = true -> bound_wf b = true.
Proof. destruct b; cbn; try done; by apply release_wf. Qed.

(** Equal bounds admit the same versions. *)
Lemma bound_eq_admits a b v : bound_wf a = true -> bound_wf b = true -> wf v = true -> bound_eq a b = true -> above a v = above b v /\ below a v = below b v.
Proof.
  intros Ha Hb Hv. destruct a as [x|x|], b as [y|y|]; try done; cbn [bound_eq above below]; unfold version_eq; intros E;
    destruct (cmp_laws_on x y v) as (_ & _ & C); try done; destruct (C ltac:(by destruct (cmp x y))) as [_ ->]; done.
Qed.

(** The specifiers of bounds. *)
Lemma range_specifiers_exact range v : release_bounds range -> release_only v = true ->
  Forall (fun sp => spec_term_ok sp = true) (python_range_specifiers range) /\ specifiers_contain (python_range_specifiers range) v = Ret (between_bounds range v).
Proof.
  intros [Hl Hu] Hv. unfold python_range_specifiers, between_bounds.
  assert (E : from_bounds_pair (range_lower range) (range_upper range) = Ret (option_list (lower_bound_specifier (range_lower range)) ++ option_list (upper_bound_specifier (range_upper range)))).
  { assert (OK : forall o v, release_only v = true -> o <> TildeEqual -> from_version o v = Ok (mkSpec o v)).
    { intros o w (_ & _ & _ & El)%release_only_elim Ho. unfold from_version, is_local. rewrite El. by destruct o. }
    unfold from_bounds_pair. destruct (range_lower range), (range_upper range); cbn [bound_all from_lower_bound from_upper_bound] in *; rewrite ?OK by done; done. }
  destruct (bounds_pair_terms _ _ Hl Hu) as (l & El & Hterm & _). destruct (from_bounds_pair_exact _ _ v Hl Hu Hv) as (l' & El' & Hc).
  rewrite E in El, El'. injection El as <-. injection El' as <-. set (l := option_list _ ++ option_list _) in *.
  assert (Hperm : from_unsorted l ≡ₚ l) by (symmetry; apply sort_by_perm). split; [by rewrite Hperm|].
  rewrite specifiers_term_contain in Hc |- * by (rewrite ?Hperm; done). by rewrite (forallb_perm _ _ _ Hperm).
Qed.

Lemma rp_narrow_exact rp range : release_bounds (rp_range rp) -> release_bounds range ->
  match rp_narrow rp range with
  | Some rp' => release_bounds (rp_range rp') /\ forall v, release_only v = true ->
      between_bounds (rp_range rp') v = between_bounds (rp_range rp) v && between_bounds range v /\
      rp_contains rp' v = Ret (between_bounds (rp_range rp) v && between_bounds range v)
  | None => forall v, release_only v = true -> between_bounds (rp_range rp) v = true -> between_bounds range v = true
  end.
Proof.
  destruct rp as [specs [lo hi]], range as [rlo rhi]. unfold release_bounds, rp_narrow, between_bounds, python_range_eq. cbn [rp_range range_lower range_upper].
  intros [Hlo Hhi] [Hrlo Hrhi]. pose proof (release_bound_wf _ Hlo) as Wlo. pose proof (release_bound_wf _ Hhi) as Whi.
  pose proof (release_bound_wf _ Hrlo) as Wrlo. pose proof (release_bound_wf _ Hrhi) as Wrhi.
  destruct (bound_eq rlo lo && bound_eq rhi hi) eqn:E.
  { apply andb_prop in E as [E1 E2]. intros v Hv. pose proof (release_wf v Hv) as Hw.
    rewrite (proj1 (bound_eq_admits rlo lo v Wrlo Wlo Hw E1)), (proj2 (bound_eq_admits rhi hi v Wrhi Whi Hw E2)). done. }
  pose proof (fun v => lower_bound_max rlo lo v Wrlo Wlo) as Lm. pose proof (fun v => upper_bound_min rhi hi v Wrhi Whi) as Um.
  assert (Fin : forall a b, release_bounds (mkPythonRange a b) -> (forall v, wf v = true -> above a v && below b v = (above lo v && below hi v) && (above rlo v && below rhi v)) ->
    release_bounds (mkPythonRange a b) /\ forall v, release_only v = true -> above a v && below b v = (above lo v && below hi v) && (above rlo v && below rhi v) /\
      rp_contains (mkRequiresPython (python_range_specifiers (mkPythonRange a b)) (mkPythonRange a b)) v = Ret ((above lo v && below hi v) && (above rlo v && below rhi v))).
  { intros a b Hab Hv. split; [done|]. intros v Hr. rewrite <- (Hv v (release_wf v Hr)). split; [done|].
    destruct (range_specifiers_exact (mkPythonRange a b) v Hab Hr) as [Ht Hc]. rewrite rp_contains_terms by done. exact Hc. }
  destruct (is_ge (lower_bound_cmp rlo lo)), (is_le (upper_bound_cmp rhi hi)); cbn [option_map rp_range range_lower range_upper]; try (apply Fin; [done|]); intros v Hv;
    [specialize (Lm v Hv); specialize (Um v Hv)..|specialize (Lm v (release_wf v Hv)); specialize (Um v (release_wf v Hv))];
    revert Lm Um; by destruct (above lo v), (above rlo v), (below hi v), (below rhi v).
Qed.

(** Narrowing computes an intersection.  When [narrow] gives a new
    [Requires-Python], its bounds are release bounds, and by its bounds and by its
    specifiers it supports exactly the releases between both pairs of bounds; when it
    gives [None], the range is not narrower: every release between the current bounds
    is in it. *)
Theorem narrow_intersects rp range : release_bounds (rp_range rp) -> release_bounds range ->
  match rp_narrow rp range with
  | Some rp' => release_bounds (rp_range rp') /\ forall v, release_only v = true ->
      between_bounds (rp_range rp') v = between_bounds (rp_range rp) v && between_bounds range v /\
      rp_contains rp' v = Ret (between_bounds (rp_range rp) v && between_bounds range v)
  | None => forall v, release_only v = true -> between_bounds (rp_range rp) v = true -> between_bounds range v = true
  end.
Proof. apply rp_narrow_exact. Qed.
