(* ===== verification/RequiresPythonMarkers.v ===== *)
(** * [Requires-Python]: markers

    The marker of a [Requires-Python], and the markers that are simplified for it. *)

From Stdlib Require Import ZArith Lia String.
From stdpp Require Import base list relations.
From S2P Require Import Prelude.
From S2P Require Import VersionRepr.
From S2P Require Import VersionOrder.
From S2P Require Import VersionRecord.
From S2P Require Import Specifier.
From S2P Require Import RangeSet.
From S2P Require Import Stateful.
From S2P Require Import MarkerEdges.
From S2P Require Import MarkerTypes.
From S2P Require Import RangeInstances.
From S2P Require Import MarkerAlgebra.
From S2P Require Import MarkerStore.
From S2P Require Import MarkerOps.
From S2P Require Import MarkerConj.
From S2P Require Import MarkerTree.
From S2P Require Import MarkerPython.
From S2P Require Import MarkerVersion.
From S2P Require Import MarkerExpr.
From S2P Require Import MarkerPaths.
From S2P Require Import MarkerTheorems.
From S2P Require Import MarkerTests.
From S2P Require Import RequiresPython.
From S2P Require Import RequiresPythonTheorems.
Open Scope Z_scope.

Section markers.
Context {RV RS : Type} `{!RangeSet Version RV} `{!RangeSetLaws Version RV}.
Context `{!RangeSet Str RS} `{!RangeSetLaws Str RS}.
Abbreviation Interner := (InternerOf RV RS).
Implicit Types (s : Interner) (id x : NodeId).

(** [id] is a marker that holds in a release environment exactly when its Python
    version is in [p]. *)
Definition python_test s id (p : Version -> bool) : Prop := marker_test s id (fun env => p (get_version env CPythonFullVersion)).

Lemma python_test_same s id p q : (forall v, p v = q v) -> python_test s id p -> python_test s id q.
Proof. intros E. apply test_same. intros env _. apply E. Qed.

Lemma python_marker_runs s sp : reachable s -> spec_term_ok sp = true ->
  runs reachable ext (python_marker sp) s (fun id s' => python_test s' id (fun v => release_holds (operator sp) (release (spec_version sp)) (release v))).
Proof.
  intros Hs Hsp. destruct (spec_term_real sp Hsp) as (H1 & H2 & H3). apply expression_tests; [done| |done].
  cbn [expr_ok version_key_ok]. rewrite H1. by destruct (operator sp).
Qed.

Lemma lower_marker_runs s lo sp : reachable s -> bound_all release_only lo = true -> RangeCanonical.lower_bound_specifier lo = Some sp ->
  runs reachable ext (python_marker sp) s (fun id s' => python_test s' id (Specifier.above lo)).
Proof.
  intros Hs Hlo E. assert (Ht : spec_term_ok sp = true) by (destruct lo; cbn in E; simplify_eq; unfold spec_term_ok; cbn in *; by rewrite Hlo).
  run_weaken; [by apply python_marker_runs|]. intros id s' Hs' He [Hm Hev]. split; [done|]. intros env extras Hr Hp. rewrite (Hev env extras Hr Hp). f_equal.
  pose proof (env_release_version env CPythonFullVersion Hr) as Hv. destruct lo; cbn in E; simplify_eq; cbn in *; by rewrite cmp_release_only.
Qed.

Lemma upper_marker_runs s hi sp : reachable s -> bound_all release_only hi = true -> RangeCanonical.upper_bound_specifier hi = Some sp ->
  runs reachable ext (python_marker sp) s (fun id s' => python_test s' id (Specifier.below hi)).
Proof.
  intros Hs Hhi E. assert (Ht : spec_term_ok sp = true) by (destruct hi; cbn in E; simplify_eq; unfold spec_term_ok; cbn in *; by rewrite Hhi).
  run_weaken; [by apply python_marker_runs|]. intros id s' Hs' He [Hm Hev]. split; [done|]. intros env extras Hr Hp. rewrite (Hev env extras Hr Hp). f_equal.
  pose proof (env_release_version env CPythonFullVersion Hr) as Hv. destruct hi; cbn in E; simplify_eq; cbn in *; by rewrite cmp_release_only.
Qed.

Lemma between_marker_runs s lo hi l u : reachable s -> bound_all release_only lo = true -> bound_all release_only hi = true ->
  RangeCanonical.lower_bound_specifier lo = Some l -> RangeCanonical.upper_bound_specifier hi = Some u ->
  runs reachable ext (mseq (python_marker l) (fun a => mseq (python_marker u) (fun b => interner_and a b))) s
    (fun id s' => python_test s' id (fun v => Specifier.above lo v && Specifier.below hi v)).
Proof.
  intros Hs Hlo Hhi El Eu. refine (runs_seq _ _ _ _ _ _ _ (lower_marker_runs s lo l Hs Hlo El) _). intros a s1 Hs1 He1 Ha.
  refine (runs_seq _ _ _ _ _ _ _ (upper_marker_runs s1 hi u Hs1 Hhi Eu) _). intros b s2 Hs2 He2 Hb.
  apply and_tests; [done|by apply (test_ext s1)|done].
Qed.

Lemma to_marker_tree_runs s rp : reachable s -> release_bounds (rp_range rp) ->
  runs reachable ext (rp_to_marker_tree rp) s (fun id s' => python_test s' id (between_bounds (rp_range rp))).
Proof.
  intros Hs [Hlo Hhi]. unfold rp_to_marker_tree, between_bounds.
  destruct (range_lower (rp_range rp)) as [l|l|] eqn:El, (range_upper (rp_range rp)) as [u|u|] eqn:Eu;
    try (by eapply between_marker_runs);
    try (run_weaken; [eapply (lower_marker_runs s _ _ Hs Hlo); done|]; intros id s' _ _; apply python_test_same; intros v; cbn [Specifier.below]; by rewrite andb_true_r);
    try (run_weaken; [eapply (upper_marker_runs s _ _ Hs Hhi); done|]; intros id s' _ _; by apply python_test_same).
  run_pure; [done|]. apply test_true.
Qed.

(** Between the bounds, a simplified marker evaluates as the marker. *)
Definition agrees_between rp s x s' r : Prop := forall env extras, env_release env -> between_bounds (rp_range rp) (get_version env CPythonFullVersion) = true ->
  evaluate_reporter s' env extras r = evaluate_reporter s env extras x.

(** The conjunction of a marker with the marker of the [Requires-Python]. *)
Definition conjunction_between rp s x s' c : Prop := forall env extras, env_release env -> exists b,
  evaluate_reporter s env extras x = Ret b /\ evaluate_reporter s' env extras c = Ret (b && between_bounds (rp_range rp) (get_version env CPythonFullVersion)).

(** C21: The marker of a [Requires-Python] whose bounds are releases holds exactly for
    the Python releases between its bounds.  Any marker is simplified for it to a
    marker that evaluates alike wherever the Python release is between the bounds.
    If none of its variables comes after the full Python version, expanding the
    simplified marker again gives a marker that evaluates to the conjunction of the
    two, whatever the simplification dropped; for other markers, those with extras
    or substring tests, the expansion is not ordered ([complexify_misordered]) and
    nothing is said of it. *)
Theorem requires_python_markers s rp x : reachable s -> release_bounds (rp_range rp) -> marker s x ->
  exists t s1 m s2, rp_to_marker_tree rp s = Ret (t, s1) /\ simplified_new rp x s1 = Ret (m, s2) /\
    python_test s1 t (between_bounds (rp_range rp)) /\
    agrees_between rp s x s2 (as_simplified_marker_tree m) /\
    ((forall w, w ∈ support s x -> before_python w = true) ->
      exists c s3, simplified_into_marker m rp s2 = Ret (c, s3) /\ conjunction_between rp s x s3 c).
Proof.
  intros Hr Hb Hx. pose proof (reachable_ok s Hr) as Hs. destruct (to_marker_tree_runs s rp Hr Hb) as (t & s1 & E1 & Hr1 & He1 & Ht).
  pose proof (release_bound_valid _ (proj1 Hb)) as Hlo. pose proof (release_bound_valid _ (proj2 Hb)) as Hhi.
  pose proof (marker_ext s s1 x He1 Hx) as Hx1.
  assert (Hev : forall env extras, env_release env -> evaluate_reporter s1 env extras x = evaluate_reporter s env extras x).
  { intros env extras Henv. apply evaluate_ext; [by apply interner_store|by apply interner_store, reachable_ok|done|apply Hx|by apply env_release_ok]. }
  destruct (simplify_python_agrees s1 x _ _ Hr1 Hx1 Hlo Hhi) as (r & s2 & E2 & _ & Ha).
  exists t, s1, (mkSimplified r), s2. split; [done|]. split; [unfold simplified_new, rp_simplify_markers, mseq; by rewrite E2|]. split; [done|]. split.
  - intros env extras Henv Hin. rewrite Ha by (done || by apply env_release_ok). by apply Hev.
  - intros Hbefore. destruct (complexify_simplify_roundtrip s1 x _ _ Hr1 Hx1 Hlo Hhi) as (r' & s2' & c & s3 & E2' & E3 & Hc).
    { intros w Hw. apply Hbefore. by rewrite (support_ext s s1 x) in Hw by (done || apply Hx). }
    rewrite E2 in E2'. injection E2' as <- <-. exists c, s3. split; [exact E3|]. intros env extras Henv.
    destruct (Hc env extras (env_release_ok env Henv)) as (b & Eb & Ec). exists b. split; [by rewrite <- Hev|exact Ec].
Qed.
End markers.
