(* ===== verification/RequiresPythonWheels.v ===== *)
(** * [Requires-Python]: wheels

    The test of wheel tags against a [Requires-Python] never drops a wheel that an
    interpreter in its range can install. *)

From Stdlib Require Import ZArith Lia String.
From stdpp Require Import base list.
From S2P Require Import Prelude.
From S2P Require Import VersionRepr.
From S2P Require Import VersionOrder.
From S2P Require Import VersionRecord.
From S2P Require Import Specifier.
From S2P Require Import RangeCanonical.
From S2P Require Import PythonTags.
From S2P Require Import PlatformTags.
From S2P Require Import Tags.
From S2P Require Import DistExtension.
From S2P Require Import WheelTag.
From S2P Require Import WheelFilename.
From S2P Require Import MarkerVersion.
From S2P Require Import RequiresPython.
From S2P Require Import RequiresPythonTheorems.
Open Scope Z_scope.

(** ** Minor versions between bounds *)

(** A prefix of at most as many segments does not reverse the order. *)
Lemma prefix_not_lt a b rest l : nonneg rest -> pad_cmp (a :: b :: rest) l <> Lt -> pad_cmp [a; b] (take 2 l) <> Lt.
Proof.
  intros _. destruct l as [|x [|y l]]; cbn [take pad_cmp then_with].
  - destruct (a ?= 0), (b ?= 0); done.
  - destruct (a ?= x), (b ?= 0); done.
  - destruct (a ?= x), (b ?= y); cbn [then_with]; try done.
Qed.

Lemma prefix_not_gt a b rest l : nonneg rest -> pad_cmp (a :: b :: rest) l <> Gt -> pad_cmp [a; b] (take 2 l) <> Gt.
Proof.
  intros _. destruct l as [|x [|y l]]; cbn [take pad_cmp then_with].
  - destruct (a ?= 0), (b ?= 0); done.
  - destruct (a ?= x), (b ?= 0); done.
  - destruct (a ?= x), (b ?= y); cbn [then_with]; try done.
Qed.

Lemma nonneg_not_lt_zeros rest l : nonneg rest -> Forall (fun x => x = 0) l -> pad_cmp rest l <> Lt.
Proof.
  intros Hr. revert l. induction Hr as [|x rest Hx Hr IH]; intros l Hl.
  - induction Hl as [|y l -> Hl IHl]; [done|]. cbn in *. done.
  - destruct Hl as [|y l -> Hl]; cbn [pad_cmp].
    + destruct (Z.compare_spec x 0); cbn [then_with]; [by apply IH|lia|done].
    + destruct (Z.compare_spec x 0); cbn [then_with]; [by apply IH|lia|done].
Qed.

Lemma prefix_lt a b rest l : nonneg rest -> Forall (fun x => x = 0) (drop 2 l) -> pad_cmp (a :: b :: rest) l = Lt -> pad_cmp [a; b] (take 2 l) = Lt.
Proof.
  intros Hr Hz. destruct l as [|x [|y l]]; cbn [take drop pad_cmp then_with] in *.
  - destruct (a ?= 0), (b ?= 0); cbn [then_with]; try done. intros E. by destruct (nonneg_not_lt_zeros rest [] Hr ltac:(constructor)).
  - destruct (a ?= x), (b ?= 0); cbn [then_with]; try done. intros E. by destruct (nonneg_not_lt_zeros rest [] Hr ltac:(constructor)).
  - destruct (a ?= x), (b ?= y); cbn [then_with]; try done. intros E. by destruct (nonneg_not_lt_zeros rest l Hr Hz).
Qed.

(** An earlier minor version is below what a later one is below. *)
Lemma minor_mono a n m l : n <= m -> (pad_cmp [a; m] (take 2 l) <> Gt -> pad_cmp [a; n] (take 2 l) <> Gt) /\ (pad_cmp [a; m] (take 2 l) = Lt -> pad_cmp [a; n] (take 2 l) = Lt).
Proof.
  intros Hn. destruct l as [|x [|y l]]; cbn [take pad_cmp]; [destruct (a ?= 0)|destruct (a ?= x)|destruct (a ?= x)]; cbn [then_with]; try done.
  - destruct (Z.compare_spec m 0), (Z.compare_spec n 0); cbn [then_with]; done || lia.
  - destruct (Z.compare_spec m 0), (Z.compare_spec n 0); cbn [then_with]; done || lia.
  - rewrite take_0. destruct (Z.compare_spec m y), (Z.compare_spec n y); cbn [then_with]; done || lia.
Qed.

(** No segment after the third one. *)
Definition three_segments (b : Bound) : bool :=
  match b with Included v | Excluded v => forallb (Z.eqb 0) (drop 3 (release v)) | Unbounded => true end.

Lemma minor_version (minor : Z) : 0 <= minor < u64_max -> exists w, version_new [3; minor] = Ret w /\ release w = [3; minor] /\ release_only w = true.
Proof.
  intros Hm. destruct (version_new_spec [3; minor]) as (w & E & Er & Hw & _); [apply Forall_cons_2; [unfold u64_max; lia|]; apply Forall_cons_2; [lia|constructor]|done|]. by exists w.
Qed.

Lemma major_minor_version v : release_only v = true -> exists w, version_new (take 2 (release v)) = Ret w /\ release w = take 2 (release v) /\ release_only w = true.
Proof.
  intros Hv. pose proof (real_elim v (proj1 (release_only_elim v Hv))) as Hr. destruct (version_new_spec (take 2 (release v))) as (w & E & Er & Hw & _).
  - apply Forall_take, real_release, Hr.
  - pose proof (real_nonempty _ Hr) as Hne. by destruct (release v).
  - by exists w.
Qed.

Section bounds.
Context (rp : RequiresPython) (bounds_release : release_bounds (rp_range rp)).

(** The tests return. *)
Lemma below_upper_total minor : 0 <= minor < u64_max -> exists b, wheel_below_upper rp minor = Ret b.
Proof.
  intros Hm. unfold wheel_below_upper. destruct (minor_version minor Hm) as (w & -> & _). cbn [obind]. pose proof (proj2 bounds_release) as Hu.
  destruct (range_upper (rp_range rp)) as [u|u|]; cbn [upper_major_minor bound_all] in *; [| |by eexists];
    destruct (major_minor_version u Hu) as (w' & -> & _); cbn [outcome_map obind]; [by eexists|]. destruct (match _ with Some _ => _ | None => _ end); by eexists.
Qed.

Lemma in_range_total minor : 0 <= minor < u64_max -> exists b, wheel_in_range rp minor = Ret b.
Proof.
  intros Hm. unfold wheel_in_range, wheel_above_lower. destruct (minor_version minor Hm) as (w & -> & _). cbn [obind]. pose proof (proj1 bounds_release) as Hl.
  destruct (below_upper_total minor Hm) as (b & ->).
  destruct (range_lower (rp_range rp)) as [u|u|]; cbn [lower_major_minor bound_all] in *; [| |cbn [obind]; destruct (negb _); by eexists];
    destruct (major_minor_version u Hl) as (w' & -> & _); cbn [outcome_map obind]; destruct (negb _); by eexists.
Qed.

Lemma iter_any_found {A} (test : A -> outcome bool) l x : (forall y, y ∈ l -> exists b, test y = Ret b) -> x ∈ l -> test x = Ret true -> iter_any test l = Ret true.
Proof.
  intros Ht Hx Ex. induction l as [|y l IH]; [by apply elem_of_nil in Hx|]. cbn [iter_any]. destruct (Ht y) as [b Eb]; [by left|]. rewrite Eb. cbn [obind].
  destruct b; [done|]. apply elem_of_cons in Hx as [<-|Hx]; [congruence|]. apply IH; [|done]. intros z Hz. apply Ht. by right.
Qed.

Lemma iter_any_total {A} (test : A -> outcome bool) l : (forall y, y ∈ l -> exists b, test y = Ret b) -> exists b, iter_any test l = Ret b.
Proof.
  intros Ht. induction l as [|y l IH]; [by exists false|]. cbn [iter_any]. destruct (Ht y) as [b ->]; [by left|]. cbn [obind].
  destruct b; [by exists true|]. apply IH. intros z Hz. apply Ht. by right.
Qed.

Lemma python_tag_total tag : language_ok tag -> exists b, matches_python_tag rp tag = Ret b.
Proof.
  assert (U : u8_max < u64_max) by done. intros Hok. unfold matches_python_tag. destruct (is_python_2 tag); [by eexists|].
  destruct tag as [|a [b|]|[a b]|[a b]|[a b]|[a b]|a]; try (by eexists); cbn [language_ok] in Hok; unfold digit_pair in Hok; cbn [fst snd] in *; (destruct (a =? 3); [|by eexists]);
    first [apply below_upper_total; lia|apply in_range_total; lia].
Qed.

Lemma abi_tag_total tags tag : Forall language_ok tags -> abi_ok tag -> exists b, matches_abi_tag rp tags tag = Ret b.
Proof.
  assert (U : u8_max < u64_max) by done. intros Htags Hok. unfold matches_abi_tag. destruct (is_stable_abi tag); [by eexists|].
  destruct tag as [| | |[a b] fl|[[a b]|] [c d]|[a b] [c d]|[a b]]; try (by eexists); cbn [abi_ok] in Hok; unfold digit_pair in Hok; cbn [fst snd] in *.
  - apply iter_any_total. intros y Hy. apply python_tag_total. by apply (proj1 (Forall_forall _ _) Htags).
  - destruct (a =? 2); [by eexists|]. destruct (a =? 3); [|by eexists]. apply in_range_total. lia.
  - destruct (a =? 2); [by eexists|]. destruct (a =? 3); [|by eexists]. apply in_range_total. lia.
  - destruct (a =? 2); [by eexists|]. destruct (a =? 3); [|by eexists]. apply in_range_total. lia.
Qed.

(** A Python version 3.minor between the bounds. *)
Context (short : three_segments (range_upper (rp_range rp)) = true).
Context (minor : Z) (rest : list Z) (v : Version) (minor_ok : 0 <= minor < u64_max).
Context (v_release : release_only v = true) (v_minor : release v = 3 :: minor :: rest) (v_between : between_bounds (rp_range rp) v = true).

Lemma rest_nonneg : nonneg rest.
Proof. pose proof (real_nonneg v (proj1 (release_only_elim v v_release))) as H. unfold nonneg in *. rewrite v_minor, !Forall_cons in H. tauto. Qed.

Lemma below_upper_minor n : 0 <= n <= minor -> wheel_below_upper rp n = Ret true.
Proof.
  intros Hn. apply andb_prop in v_between as [_ Hb]. destruct (minor_version n) as (w & Ew & Er & Hw); [lia|]. unfold wheel_below_upper. rewrite Ew. cbn [obind].
  pose proof (proj2 bounds_release) as Hu. pose proof rest_nonneg as Hr. revert Hb Hu short. destruct (range_upper (rp_range rp)) as [u|u|]; intros Hb Hu Hs; cbn [below bound_all three_segments upper_major_minor] in *; [| |done].
  all: rewrite cmp_release_only, v_minor in Hb by done; destruct (major_minor_version u Hu) as (w' & -> & Er' & Hw'); cbn [outcome_map obind].
  - f_equal. cbn [upper_bound_cmp]. rewrite cmp_release_only, Er, Er' by done. destruct (minor_mono 3 n minor (release u)) as [Hm _]; [lia|].
    specialize (Hm (prefix_not_gt 3 minor rest _ Hr ltac:(by intros E; rewrite E in Hb))). destruct (pad_cmp [3; n] _); [done|done|congruence].
  - destruct (minor_mono 3 n minor (release u)) as [Hm Hm']; [lia|]. destruct (release u !! 2%nat) as [third|] eqn:E3; [destruct (0 <? third) eqn:E0|]; cbn [outcome_map obind]; f_equal; cbn [upper_bound_cmp].
    + rewrite cmp_release_only, Er, Er' by done. specialize (Hm (prefix_not_gt 3 minor rest _ Hr ltac:(by intros E; rewrite E in Hb))). destruct (pad_cmp [3; n] _); [done|done|congruence].
    + rewrite cmp_release_only, Er, Er' by done. rewrite Hm'; [done|]. apply (prefix_lt 3 minor rest); [done| |by destruct (pad_cmp _ _)].
      rewrite (drop_S _ _ _ E3). apply Forall_cons_2; [|apply forallb_Forall in Hs; eapply Forall_impl; [exact Hs|]; by intros x ->%Z.eqb_eq].
      pose proof (real_nonneg u (proj1 (release_only_elim u Hu))) as Nu. pose proof (Forall_lookup_1 _ _ _ _ Nu E3) as H3. cbn in H3. lia.
    + rewrite cmp_release_only, Er, Er' by done. rewrite Hm'; [done|]. apply (prefix_lt 3 minor rest); [done| |by destruct (pad_cmp _ _)].
      apply lookup_ge_None in E3. rewrite drop_ge by lia. constructor.
Qed.

Lemma in_range_minor : wheel_in_range rp minor = Ret true.
Proof.
  unfold wheel_in_range, wheel_above_lower. pose proof v_between as [Ha _]%andb_prop. destruct (minor_version minor minor_ok) as (w & -> & Er & Hw). cbn [obind].
  rewrite below_upper_minor by lia. pose proof (proj1 bounds_release) as Hl. pose proof rest_nonneg as Hr. revert Ha Hl.
  destruct (range_lower (rp_range rp)) as [l|l|]; intros Ha Hl; cbn [above bound_all lower_major_minor] in *; [| |done].
  all: rewrite cmp_release_only, v_minor in Ha by done; destruct (major_minor_version l Hl) as (w' & -> & Er' & Hw'); cbn [outcome_map obind lower_bound_cmp].
  all: rewrite cmp_release_only, Er, Er' by done; pose proof (prefix_not_lt 3 minor rest (release l) Hr) as Hp;
    destruct (pad_cmp [3; minor] _); try done; destruct Hp; [by destruct (pad_cmp _ _)|done].
Qed.

(** ** Tags of the interpreter *)

(** The tags without an ABI of the interpreter. *)
Lemma none_tag_matches tag tags : Forall language_ok tags -> tag ∈ tags ->
  tag = CPython (3, minor) \/ tag = Python 3 None \/ (exists n, 0 <= n <= minor /\ tag = Python 3 (Some n)) -> matches_abi_tag rp tags AbiNone = Ret true.
Proof.
  intros Htags Hin Htag. cbn [matches_abi_tag is_stable_abi]. apply (iter_any_found _ _ tag); [|done|].
  - intros y Hy. apply python_tag_total. by apply (proj1 (Forall_forall _ _) Htags).
  - destruct Htag as [->|[->|(n & Hn & ->)]]; cbn; [apply in_range_minor|done|by apply below_upper_minor].
Qed.

Lemma generic_key_minor k : k ∈ generic_keys (3, minor) -> k = (Python 3 None, AbiNone) \/ exists n, 0 <= n <= minor /\ k = (Python 3 (Some n), AbiNone).
Proof.
  intros (n & Hn%elem_of_down_from & Hk)%elem_of_flat_map. cbn [fst snd] in *. apply elem_of_cons in Hk as [->|Hk]; [right; by exists n|].
  destruct (n =? minor); [|by apply elem_of_nil in Hk]. apply list_elem_of_singleton in Hk. by left.
Qed.

Lemma stable_key_minor abi k : k ∈ stable_keys (3, minor) abi -> k.2 = abi \/ k = (CPython (3, minor), AbiNone).
Proof.
  intros (n & _ & Hk)%elem_of_flat_map. cbn [fst snd] in *. apply elem_of_cons in Hk as [->|Hk]; [by left|].
  destruct (n =? minor) eqn:E; [|by apply elem_of_nil in Hk]. apply Z.eqb_eq in E as ->. apply list_elem_of_singleton in Hk. by right.
Qed.

Lemma env_key_matches `{FlagsLaws} i iv tags k : Forall language_ok tags -> k.1 ∈ tags ->
  k ∈ env_keys i (3, minor) iv \/ k ∈ any_keys i (3, minor) -> matches_abi_tag rp tags k.2 = Ret true.
Proof.
  intros Htags Hin Hk.
  assert (Gen : k ∈ generic_keys (3, minor) -> matches_abi_tag rp tags k.2 = Ret true).
  { intros [->|(n & Hn & ->)]%generic_key_minor; eapply none_tag_matches; [done|exact Hin|auto|done|exact Hin|]. right. right. by exists n. }
  assert (Exact : forall fl, matches_abi_tag rp tags (AbiCPython (3, minor) fl) = Ret true) by (intros fl; cbn; apply in_range_minor).
  destruct Hk as [[Hk|[Hk|Hk]%elem_of_app]%elem_of_app|[Hk|Hk]%elem_of_app]; [| |by apply Gen| |by apply Gen].
  - apply list_elem_of_singleton in Hk as ->. destruct i; cbn [impl_abi_tag snd]; [apply Exact|cbn; apply in_range_minor..|done].
  - destruct i as [fl| | |]; try (by apply elem_of_nil in Hk). apply elem_of_app in Hk as [Hk|Hk].
    + destruct (_ && _); [|by apply elem_of_nil in Hk]. apply list_elem_of_singleton in Hk as ->. apply Exact.
    + apply stable_key_minor in Hk as [->| ->]; [by destruct (stable_abi_cases fl) as [-> | ->]|]. eapply none_tag_matches; [done|exact Hin|by left].
  - destruct i as [fl| | |]; try (by apply elem_of_nil in Hk). apply list_elem_of_singleton in Hk as ->. eapply none_tag_matches; [done|exact Hin|by left].
Qed.
End bounds.

Section wheels.
Context `{FlagsLaws} `{MemchrLaws} `{MemchrIterLaws}.

Lemma component_language s : Forall language_ok (component_tags (pure_parser language_from_str) s).
Proof.
  apply Forall_forall. intros x (y & _ & E)%list_elem_of_omap. unfold parsed_by, pure_parser in E. destruct (language_from_str y) eqn:Ey; [|done].
  injection E as <-. by eapply language_parsed.
Qed.

Lemma component_abi s : Forall abi_ok (component_tags (pure_parser abi_from_str) s).
Proof.
  apply Forall_forall. intros x (y & _ & E)%list_elem_of_omap. unfold parsed_by, pure_parser in E. destruct (abi_from_str y) eqn:Ey; [|done].
  injection E as <-. rewrite abi_from_str_bits in Ey. by eapply abi_parsed.
Qed.

(** The tags of an accepted wheel are tags that the parsers return. *)
Lemma wheel_tags_ok w : wheel_ok w -> Forall language_ok (python_tags (wheel_tags w)) /\ Forall abi_ok (abi_tags (wheel_tags w)).
Proof.
  intros [_ _ (c & Ht & _)]. destruct (wheel_tags w) as [s|l]; cbn [tags_read python_tags abi_tags] in *.
  - destruct Ht as (_ & E1 & E2 & _). split; (apply Forall_cons_2; [|constructor]); [by eapply language_parsed|].
    rewrite abi_from_str_bits in E2. by eapply abi_parsed.
  - destruct Ht as (_ & _ & _ & -> & -> & _). split; [apply component_language|apply component_abi].
Qed.

Lemma env_list_tag p v name iv o l tag : env_tag_list p v name iv o = Ret (Ok l) -> tag ∈ l ->
  exists i, tag.1 ∈ env_keys i v iv \/ tag.1 ∈ any_keys i v.
Proof.
  unfold env_tag_list. destruct (env_implementation v name o) as [i|]; [|done]. destruct (compatible_tags p) as [[pl|]|]; [|done|done]. cbn [obind]. intros [= <-] Hin.
  rewrite env_tags_keys in Hin. apply elem_of_app in Hin. exists i. destruct Hin as [(k & Hk & [-> _]%elem_of_with_platforms)%elem_of_flat_map|(k & Hk & [-> _]%elem_of_with_platforms)%elem_of_flat_map]; auto.
Qed.

(** C20: The wheels that are left out by a [Requires-Python] are unusable: for an
    interpreter of a release Python 3.m on any platform and of any supported
    implementation, whose version is between the bounds, every wheel that is compatible
    with the tags of the interpreter is kept.  The bounds are releases and the upper one
    has at most three segments ([fourth_segment_drops_wheel] otherwise).  The test does
    not panic. *)
Theorem compatible_wheels_kept filename w p minor name iv o t rp v rest :
  Forall is_char filename -> wheel_from_str filename = Ret (Ok w) ->
  os_ok (os p) -> 0 <= minor <= u8_max -> from_env p (3, minor) name iv o = Ret (Ok t) -> wheel_is_compatible w t = true ->
  release_bounds (rp_range rp) -> three_segments (range_upper (rp_range rp)) = true ->
  release_only v = true -> release v = 3 :: minor :: rest -> between_bounds (rp_range rp) v = true ->
  matches_wheel_tag rp w = Ret true.
Proof.
  intros Hc Ew Ho Hm Et Hcomp Hb Hs Hv Er Hbet. destruct (wheel_tags_ok w (wheel_from_str_ok filename w Hc Ew)) as [Hl Ha].
  apply is_compatible_lookup in Hcomp as (l & a & x & Hil & Hia & Hix & Hfound).
  destruct (from_env_spec p (3, minor) name iv o Ho Hm) as (r & Er' & Hr). rewrite Et in Er'. injection Er' as <-. destruct (Hr t eq_refl) as (ts & Ets & Hspec).
  assert (Hin : (l, a, x) ∈ ts).
  { destruct (decide ((l, a, x) ∈ ts)) as [|Hn]; [done|]. rewrite (env_missing _ _ Hspec _ Hn) in Hfound. by destruct Hfound. }
  assert (U : u8_max < u64_max) by done. assert (Hm' : 0 <= minor < u64_max) by lia.
  destruct (env_list_tag p (3, minor) name iv o ts _ Ets Hin) as (i & Hk). cbn [fst] in Hk. unfold matches_wheel_tag. apply (iter_any_found _ _ a); [|done|].
  - intros y Hy. apply (abi_tag_total rp Hb); [done|]. by apply (proj1 (Forall_forall _ _) Ha).
  - exact (env_key_matches rp Hb Hs minor rest v Hm' Hv Er Hbet i iv _ (l, a) Hl Hil Hk).
Qed.
End wheels.
