(* ===== verification/RequiresPythonWitness.v ===== *)
(** * [Requires-Python] on concrete versions

    The theorems on [RequiresPython], applied to the marker sample of [MarkerWitness],
    a Windows interpreter and small version ranges; and the inputs on which the code
    departs from its description. *)

From Stdlib Require Import ZArith Lia String.
From stdpp Require Import base list gmap relations.
From S2P Require Import Prelude.
From S2P Require Import VersionRepr.
From S2P Require Import VersionOrder.
From S2P Require Import Specifier.
From S2P Require Import Ranges.
From S2P Require Import RangeCanonical.
From S2P Require Import PythonTags.
From S2P Require Import PlatformTags.
From S2P Require Import Tags.
From S2P Require Import DistExtension.
From S2P Require Import WheelTag.
From S2P Require Import WheelFilename.
From S2P Require Import RangeSet.
From S2P Require Import Stateful.
From S2P Require Import MarkerEdges.
From S2P Require Import MarkerTypes.
From S2P Require Import RangeInstances.
From S2P Require Import MarkerAlgebra.
From S2P Require Import MarkerTree.
From S2P Require Import MarkerPython.
From S2P Require Import MarkerTheorems.
From S2P Require Import MarkerWitness.
From S2P Require Import RequiresPython.
From S2P Require Import RequiresPythonTheorems.
From S2P Require Import RequiresPythonMarkers.
From S2P Require Import RequiresPythonWheels.
Open Scope Z_scope.

Abbreviation Segments := (list (Bound * Bound)).

Definition at_least (r : list Z) : VersionSpecifier := mkSpec GreaterThanEqual (release_of r).
Definition not_minor (r : list Z) : VersionSpecifier := mkSpec NotEqualStar (release_of r).

(** [>=3.8, <3.13] *)
Definition py38_to_13 : RequiresPython :=
  mkRequiresPython [at_least [3; 8]; mkSpec LessThan (release_of [3; 13])] (mkPythonRange (Included (release_of [3; 8])) (Excluded (release_of [3; 13]))).

Lemma py38_bounds : release_bounds (rp_range py38_to_13).
Proof. split; reflexivity. Qed.

(** ** The theorems *)

Definition not_39 : list VersionSpecifiers := [[at_least [3; 8]]; [not_minor [3; 9]]].
Definition not_39_ranges : list Segments := match map_ranges not_39 with Ret l => l | Panic => [] end.

Lemma intersection_supports_witness : exists rp, rp_intersection (R := Segments) not_39 = Ret (Some rp) /\
  rp_contains rp (release_of [3; 9; 4]) = Ret false /\ rp_contains rp (release_of [3; 10]) = Ret true.
Proof.
  destruct (intersection_supports (R := Segments) not_39) as (o & E & H); [by repeat constructor|].
  assert (E' := E). vm_compute in E'. injection E' as <-. eexists. split; [exact E|].
  assert (K : map_ranges (R := Segments) not_39 = Ret (hd [] not_39_ranges :: tl not_39_ranges)) by (by vm_compute). split.
  - destruct (H (release_of [3; 9; 4]) ltac:(by vm_compute)) as (wanted & supported & Ew & Es & _ & _ & Hk). rewrite Es, (Hk _ _ K ltac:(by vm_compute)), <- Ew. vm_compute. reflexivity.
  - destruct (H (release_of [3; 10]) ltac:(by vm_compute)) as (wanted & supported & Ew & Es & _ & _ & Hk). rewrite Es, (Hk _ _ K ltac:(by vm_compute)), <- Ew. vm_compute. reflexivity.
Defined.

Lemma split_partitions_witness : exists low high, rp_split (R := Segments) py38_to_13 (Included (release_of [3; 11])) = Ret (Some (low, high)) /\
  rp_contains low (release_of [3; 10; 2]) = Ret true /\ rp_contains high (release_of [3; 10; 2]) = Ret false.
Proof.
  destruct (split_partitions (R := Segments) py38_to_13 (Included (release_of [3; 11])) eq_refl py38_bounds) as (o & E & H).
  assert (E' := E). vm_compute in E'. injection E' as <-. eexists _, _. split; [exact E|].
  destruct H as (_ & _ & H). destruct (H (release_of [3; 10; 2])) as (-> & -> & _); [reflexivity|]. split; vm_compute; reflexivity.
Defined.

Lemma narrow_intersects_witness : exists rp, rp_narrow py38_to_13 (mkPythonRange (Included (release_of [3; 10])) Unbounded) = Some rp /\
  rp_contains rp (release_of [3; 9]) = Ret false /\ rp_contains rp (release_of [3; 12; 1]) = Ret true.
Proof.
  pose proof (narrow_intersects py38_to_13 (mkPythonRange (Included (release_of [3; 10])) Unbounded)) as H. eexists. split; [reflexivity|].
  destruct (H ltac:(by vm_compute) ltac:(by vm_compute)) as [_ Hv].
  split; [rewrite (proj2 (Hv (release_of [3; 9]) ltac:(by vm_compute)))|rewrite (proj2 (Hv (release_of [3; 12; 1]) ltac:(by vm_compute)))]; by vm_compute.
Defined.

Lemma requires_python_markers_witness : exists t s1 m s2 c s3, rp_to_marker_tree py38_to_13 sample = Ret (t, s1) /\ simplified_new py38_to_13 python38 s1 = Ret (m, s2) /\
  simplified_into_marker m py38_to_13 s2 = Ret (c, s3) /\ evaluate_reporter s1 linux_env (EnvExtras []) t = Ret true /\
  evaluate_reporter s2 linux_env (EnvExtras []) (as_simplified_marker_tree m) = Ret true /\ evaluate_reporter s3 linux_env (EnvExtras []) c = Ret true.
Proof.
  destruct sample_spec as (Hr & _ & _ & Hp & _).
  destruct (requires_python_markers sample py38_to_13 python38 Hr py38_bounds Hp) as (t & s1 & m & s2 & E1 & E2 & Ht & Ha & H).
  destruct H as (c & s3 & E3 & H); [apply Forall_forall; by vm_compute; repeat constructor|].
  exists t, s1, m, s2, c, s3. split; [done|]. split; [done|]. split; [done|].
  rewrite (proj2 Ht linux_env (EnvExtras []) linux_env_release linux_env_possible).
  destruct (H linux_env (EnvExtras []) linux_env_release) as (b & Eb & ->).
  rewrite (Ha linux_env (EnvExtras []) linux_env_release) by (vm_compute; reflexivity).
  assert (Ret b = Ret true) as [= ->] by (rewrite <- Eb; by vm_compute). split; [|split]; vm_compute; reflexivity.
Defined.

Definition windows_311 : Platform := mkPlatform OsWindows X86_64.
Definition release_build : TagsOptions := mkOptions true false false false.
Definition windows_tags : Tags :=
  match from_env (H := bit_flags) windows_311 (3, 11) (bs "cpython") (3, 11) release_build with Ret (Ok t) => t | _ => mkTags ∅ None windows_311 (3, 11) false false end.

Lemma windows_tags_spec : from_env (H := bit_flags) windows_311 (3, 11) (bs "cpython") (3, 11) release_build = Ret (Ok windows_tags).
Proof.
  assert (Hok : match from_env (H := bit_flags) windows_311 (3, 11) (bs "cpython") (3, 11) release_build with Ret (Ok _) => true | _ => false end = true) by (vm_compute; reflexivity).
  unfold windows_tags. by destruct (from_env _ _ _ _ _) as [[t|e]|]; [|discriminate Hok..].
Qed.

Definition py37_wheel : WheelFilename :=
  match wheel_from_str (H := bit_flags) (bs "foo-1.0-py37-none-win_amd64.whl") with Ret (Ok w) => w | _ => mkWheel [] (release_of [0]) (SmallTag (mkSmall LangNone AbiNone Any)) end.

Lemma compatible_wheels_kept_witness : matches_wheel_tag py38_to_13 py37_wheel = Ret true.
Proof.
  apply (compatible_wheels_kept (H := bit_flags) (bs "foo-1.0-py37-none-win_amd64.whl") py37_wheel windows_311 11 (bs "cpython") (3, 11)
    release_build windows_tags py38_to_13 (release_of [3; 11; 4]) [4]).
  - apply forallb_is_char. reflexivity.
  - vm_compute. reflexivity.
  - exact I.
  - split; discriminate.
  - apply windows_tags_spec.
  - vm_compute. reflexivity.
  - apply py38_bounds.
  - reflexivity.
  - reflexivity.
  - reflexivity.
  - vm_compute. reflexivity.
Defined.

(** ** Where the code departs from its description *)

(** [narrow] with a range that is wider on one side gives the same range again, not [None]. *)
Lemma narrow_wider_range : option_map rp_range (rp_narrow py38_to_13 (mkPythonRange (Included (release_of [3; 8])) Unbounded)) = Some (rp_range py38_to_13).
Proof. by vm_compute. Qed.

(** With [<3.10.0.1], which 3.10.0 meets, the wheels for Python 3.10 are dropped. *)
Lemma fourth_segment_drops_wheel :
  let rp := mkRequiresPython [mkSpec LessThan (release_of [3; 10; 0; 1])] (mkPythonRange Unbounded (Excluded (release_of [3; 10; 0; 1]))) in
  rp_contains rp (release_of [3; 10]) = Ret true /\
  match wheel_from_str (H := bit_flags) (bs "foo-1.0-cp310-cp310-win_amd64.whl") with Ret (Ok w) => matches_wheel_tag rp w | _ => Panic end = Ret false.
Proof. by vm_compute. Qed.

(** [>3.8b1] contains 3.8, which its bounds exclude. *)
Lemma prerelease_bound_excludes_release : exists rp, rp_from_specifiers (R := Segments)
    [mkSpec GreaterThan (Full (mkFull 0 [3; 8] (Some (mkPre Beta 1)) None None local_empty None None))] = Ret rp /\
  rp_contains rp (release_of [3; 8]) = Ret true /\ between_bounds (rp_range rp) (release_of [3; 8]) = false.
Proof. eexists. split; [vm_compute; reflexivity|]. by vm_compute. Qed.
