(* ===== verification/PythonRequirement.v ===== *)
(** * The Python requirement of a resolution

    Models [crates/uv-resolver/src/python_requirement.rs]: the installed and the
    target Python of a resolution, with the marker of the target, as the resolver
    narrows and splits them at its forks.

    The versions of an [Interpreter] and of a [PythonVersion] are arguments. *)

From Stdlib Require Import ZArith Lia String.
From stdpp Require Import base list relations.
From S2P Require Import Prelude.
From S2P Require Import VersionRepr.
From S2P Require Import VersionOrder.
From S2P Require Import VersionRecord.
From S2P Require Import Specifier.
From S2P Require Import RangeCanonical.
From S2P Require Import RangeSet.
From S2P Require Import Stateful.
From S2P Require Import MarkerEdges.
From S2P Require Import MarkerTypes.
From S2P Require Import RangeInstances.
From S2P Require Import MarkerAlgebra.
From S2P Require Import MarkerStore.
From S2P Require Import MarkerOps.
From S2P Require Import MarkerConj.
From S2P Require Import MarkerTree.
From S2P Require Import MarkerVersion.
From S2P Require Import MarkerExpr.
From S2P Require Import MarkerTheorems.
From S2P Require Import MarkerTests.
From S2P Require Import MarkerWitness.
From S2P Require Import RequiresPython.
From S2P Require Import RequiresPythonTheorems.
From S2P Require Import RequiresPythonMarkers.
From S2P Require Import RequiresPythonWitness.
Open Scope Z_scope.

Inductive PythonRequirementSource := SourcePythonVersion | SourceRequiresPython | SourceInterpreter.

Record PythonRequirement := mkPythonRequirement {
  pr_source : PythonRequirementSource;
  pr_exact : Version;
  pr_installed : RequiresPython;
  pr_target : RequiresPython;
  pr_target_marker : NodeId;
}.

(** [only_release().without_trailing_zeros()] *)
Definition plain_release (version : Version) : outcome Version :=
  let! version := only_release version in without_trailing_zeros version.

Section python_requirement.
Context {RV RS : Type} `{!RangeSet Version RV} `{!RangeSet Str RS}.
Abbreviation Interner := (InternerOf RV RS).

Definition pr_new (source : PythonRequirementSource) (exact : Version) (installed target : RequiresPython) : M Interner PythonRequirement :=
  let* target_marker := rp_to_marker_tree target in
  mpure (mkPythonRequirement source exact installed target target_marker).

(** [from_python_version], with the full versions of the interpreter and of the request. *)
Definition pr_from_python_version (interpreter python_version : Version) : M Interner PythonRequirement :=
  let* installed := mlift (plain_release interpreter) in
  let* target := mlift (plain_release python_version) in
  let* installed := mlift (rp_greater_than_equal_version installed) in
  let* target := mlift (rp_greater_than_equal_version target) in
  pr_new SourcePythonVersion interpreter installed target.

(** [from_interpreter], with the full version of the interpreter. *)
Definition pr_from_interpreter (interpreter : Version) : M Interner PythonRequirement :=
  let* exact := mlift (without_trailing_zeros interpreter) in
  let* installed := mlift (plain_release interpreter) in
  let* installed := mlift (rp_greater_than_equal_version installed) in
  pr_new SourceInterpreter exact installed installed.

(** [from_marker_environment], and [from_requires_python] with the markers of the interpreter. *)
Definition pr_from_marker_environment (marker_env : MarkerEnvironment) (requires_python : RequiresPython) : M Interner PythonRequirement :=
  let* exact := mlift (without_trailing_zeros (sv_version (python_full_version marker_env))) in
  let* installed := mlift (plain_release (sv_version (python_full_version marker_env))) in
  let* installed := mlift (rp_greater_than_equal_version installed) in
  pr_new SourceRequiresPython exact installed requires_python.

Definition pr_narrow (pr : PythonRequirement) (target : RequiresPythonRange) : M Interner (option PythonRequirement) :=
  match rp_narrow (pr_target pr) target with
  | None => mpure None
  | Some target =>
      let* pr := pr_new (pr_source pr) (pr_exact pr) (pr_installed pr) target in
      mpure (Some pr)
  end.

Definition pr_split (pr : PythonRequirement) (at_ : Bound) : M Interner (option (PythonRequirement * PythonRequirement)) :=
  let* parts := mlift (rp_split (R := RV) (pr_target pr) at_) in
  match parts with
  | None => mpure None
  | Some (lower, upper) =>
      let* lower := pr_new (pr_source pr) (pr_exact pr) (pr_installed pr) lower in
      let* upper := pr_new (pr_source pr) (pr_exact pr) (pr_installed pr) upper in
      mpure (Some (lower, upper))
  end.

Definition pr_raises (pr : PythonRequirement) (target : RequiresPythonRange) : bool :=
  is_gt (lower_bound_cmp (range_lower target) (range_lower (rp_range (pr_target pr)))).

Definition pr_simplify_markers (pr : PythonRequirement) (marker : NodeId) : M Interner NodeId := rp_simplify_markers (pr_target pr) marker.

(** ** The invariant *)

Context `{!RangeSetLaws Version RV} `{!RangeSetValues Version RV} `{!RangeSetLaws Str RS}.
Implicit Types (s : Interner).

(** The bounds of the target are releases, and its marker holds between them. *)
Definition pr_ok s (pr : PythonRequirement) : Prop :=
  release_bounds (rp_range (pr_target pr)) /\ python_test s (pr_target_marker pr) (between_bounds (rp_range (pr_target pr))).

(** What [narrow] and [split] do not change. *)
Definition same_python (pr pr' : PythonRequirement) : Prop :=
  pr_source pr' = pr_source pr /\ pr_exact pr' = pr_exact pr /\ pr_installed pr' = pr_installed pr.

Lemma pr_new_runs s source exact installed target : reachable s -> release_bounds (rp_range target) ->
  runs reachable ext (pr_new source exact installed target) s (fun pr s' =>
    pr_ok s' pr /\ pr_target pr = target /\ pr_source pr = source /\ pr_exact pr = exact /\ pr_installed pr = installed).
Proof.
  intros Hs Hb. unfold pr_new. refine (runs_seq _ _ _ _ _ _ _ (to_marker_tree_runs s target Hs Hb) _). intros id s' Hs' He Ht. run_pure; [done|]. done.
Qed.

(** A release with a segment that is not zero, as all Python versions are. *)
Definition python_release (v : Version) : Prop := real v = true /\ trim_zeros (release v) <> [].

Lemma trimmed_segments v : real v = true -> Forall (fun x => 0 <= x < u64_max) (trim_zeros (release v)).
Proof.
  intros Hv. pose proof (real_release _ (real_elim v Hv)) as Hr. pose proof (rposition_trim (release v)) as P.
  destruct (rposition_nonzero (release v)); [|by rewrite P]. destruct P as [-> _]. by apply Forall_take.
Qed.

Lemma plain_release_total v : python_release v -> exists w, plain_release v = Ret w /\ release_only w = true /\ release w = trim_zeros (release v).
Proof.
  intros [Hv Hne]. pose proof (real_elim v Hv) as Hr. unfold plain_release, only_release, without_trailing_zeros.
  destruct (version_new_spec (release v) (real_release _ Hr) (real_nonempty _ Hr)) as (w & -> & Er & Hw & _). cbn [obind]. rewrite Er.
  assert (Hok : version_ok w = true) by (pose proof (proj1 (release_only_elim _ Hw)) as Hreal; unfold real in Hreal; by apply andb_prop in Hreal as [? _]).
  pose proof (trimmed_segments v Hv) as Ht. destruct (with_release_view w (trim_zeros (release v)) Hok) as (u & -> & Eu & Hu); [eapply Forall_impl; [exact Ht|cbv beta; lia]|done|].
  exists u. split; [done|]. split; [by apply (release_only_set w u _ Hw Hu Eu)|]. by rewrite release_view, Eu.
Qed.

Lemma exact_total v : python_release v -> exists w, without_trailing_zeros v = Ret w.
Proof.
  intros [Hv Hne]. unfold without_trailing_zeros. destruct (with_release_view v (trim_zeros (release v))) as (u & -> & _); [|eapply Forall_impl; [exact (trimmed_segments v Hv)|cbv beta; lia]|done|by eexists].
  unfold real in Hv. by apply andb_prop in Hv as [? _].
Qed.

Lemma at_least_total v : release_only v = true -> exists rp, rp_greater_than_equal_version v = Ret rp /\ release_bounds (rp_range rp) /\
  forall w, release_only w = true -> between_bounds (rp_range rp) w = is_ge (cmp w v).
Proof.
  intros Hv. unfold rp_greater_than_equal_version. destruct (only_release_release v Hv) as (w & -> & Hw & Er). cbn [obind lower_bound_new upper_bound_new].
  destruct (only_release_trimmed_real w Hw) as (t & Et & Ert). destruct (trimmed_cmp w t [] Hw Et ltac:(constructor)) as [_ Ft].
  assert (Ht : release_only t = true).
  { unfold only_release_trimmed in Et. destruct (rposition_nonzero (release w)) as [i|].
    - destruct (_ && _); [by injection Et as <-|]. destruct (version_new_spec (take (i + 1) (release w))) as (u & Eu & _ & Hu & _).
      + apply Forall_take, real_release, real_elim, release_only_elim, Hw.
      + pose proof (real_nonempty _ (real_elim w (proj1 (release_only_elim w Hw)))). rewrite Nat.add_1_r. by destruct (release w).
      + rewrite Eu in Et. by injection Et as <-.
    - destruct (version_new_spec [0]) as (u & Eu & _ & Hu & _); [apply Forall_cons_2; [unfold u64_max; lia|constructor]|done|]. rewrite Eu in Et. by injection Et as <-. }
  rewrite Et. cbn [outcome_map obind]. eexists. split; [reflexivity|]. split; [done|]. intros x Hx. unfold between_bounds. cbn [rp_range range_lower range_upper Specifier.above Specifier.below].
  rewrite andb_true_r, !cmp_release_only by done. rewrite <- Er. pose proof (real_nonneg x (proj1 (release_only_elim x Hx))) as Nx. by rewrite (proj1 (trimmed_cmp w t _ Hw Et Nx)).
Qed.

(** The three constructors return a requirement with the invariant; a target that
    is a version is the lower bound. *)
Lemma constructors_run s env (interpreter target : Version) rp : reachable s -> python_release interpreter -> python_release target ->
  sv_version (python_full_version env) = interpreter -> release_bounds (rp_range rp) ->
  runs reachable ext (pr_from_interpreter interpreter) s (fun pr s' => pr_ok s' pr /\ pr_target pr = pr_installed pr) /\
  runs reachable ext (pr_from_python_version interpreter target) s (fun pr s' => pr_ok s' pr) /\
  runs reachable ext (pr_from_marker_environment env rp) s (fun pr s' => pr_ok s' pr /\ pr_target pr = rp).
Proof.
  intros Hs Hi Ht Ee Hb. destruct (plain_release_total interpreter Hi) as (w & Ew & Hw & _). destruct (plain_release_total target Ht) as (u & Eu & Hu & _).
  destruct (exact_total interpreter Hi) as (e & Eex). destruct (at_least_total w Hw) as (ri & Eri & Hri & _). destruct (at_least_total u Hu) as (rt & Ert & Hrt & _).
  unfold pr_from_interpreter, pr_from_python_version, pr_from_marker_environment, runs, mseq, mlift. rewrite Ee.
  rewrite Eex, Ew, Eu. cbn [outcome_map]. rewrite Eri, Ert. cbn [outcome_map]. split; [|split].
  - destruct (pr_new_runs s SourceInterpreter e ri ri Hs Hri) as (pr & s' & E & Hs' & He & Hok & E1 & _ & _ & E4). exists pr, s'. by rewrite E1, E4.
  - destruct (pr_new_runs s SourcePythonVersion interpreter ri rt Hs Hrt) as (pr & s' & E & Hs' & He & Hok & _). by exists pr, s'.
  - destruct (pr_new_runs s SourceRequiresPython e ri rp Hs Hb) as (pr & s' & E & Hs' & He & Hok & E1 & _). by exists pr, s'.
Qed.

End python_requirement.

Definition py38_requirement : M Interner PythonRequirement := pr_new SourceRequiresPython (release_of [3; 12; 4]) py38_to_13 py38_to_13.

