(* ===== verification/CacheControl.v ===== *)
(** * The [Cache-Control] header

    Models [crates/uv-client/src/httpcache/control.rs]: the parser of the values of
    [Cache-Control] headers, an iterator over directives, and [CacheControl], what
    the HTTP cache keeps of them.

    Header values are byte strings.  The names of directives are made of token bytes,
    which are ASCII, so that a name as a [String] is its bytes. *)

From Stdlib Require Import ZArith Lia String.
From stdpp Require Import base list gmap.
From S2P Require Import Prelude.
Open Scope Z_scope.

Record CacheControl := mkCacheControl {
  cc_max_age_seconds : option Z;
  cc_no_cache : bool;
  cc_no_store : bool;
  cc_no_transform : bool;
  cc_max_stale_seconds : option Z;
  cc_min_fresh_seconds : option Z;
  cc_only_if_cached : bool;
  cc_must_revalidate : bool;
  cc_must_understand : bool;
  cc_private : bool;
  cc_proxy_revalidate : bool;
  cc_public : bool;
  cc_s_maxage_seconds : option Z;
  cc_immutable : bool;
}.

Definition cache_control_default : CacheControl :=
  mkCacheControl None false false false None None false false false false false false None false.

(** ** Updates of single fields *)

Definition set_max_age (cc : CacheControl) (n : Z) : CacheControl :=
  let 'mkCacheControl _ b c d e f g h i j k l m n' := cc in mkCacheControl (Some n) b c d e f g h i j k l m n'.
Definition set_no_cache (cc : CacheControl) : CacheControl :=
  let 'mkCacheControl a _ c d e f g h i j k l m n := cc in mkCacheControl a true c d e f g h i j k l m n.
Definition set_no_store (cc : CacheControl) : CacheControl :=
  let 'mkCacheControl a b _ d e f g h i j k l m n := cc in mkCacheControl a b true d e f g h i j k l m n.
Definition set_no_transform (cc : CacheControl) : CacheControl :=
  let 'mkCacheControl a b c _ e f g h i j k l m n := cc in mkCacheControl a b c true e f g h i j k l m n.
Definition set_max_stale (cc : CacheControl) (s : Z) : CacheControl :=
  let 'mkCacheControl a b c d _ f g h i j k l m n := cc in mkCacheControl a b c d (Some s) f g h i j k l m n.
Definition set_min_fresh (cc : CacheControl) (s : Z) : CacheControl :=
  let 'mkCacheControl a b c d e _ g h i j k l m n := cc in mkCacheControl a b c d e (Some s) g h i j k l m n.
Definition set_only_if_cached (cc : CacheControl) : CacheControl :=
  let 'mkCacheControl a b c d e f _ h i j k l m n := cc in mkCacheControl a b c d e f true h i j k l m n.
Definition set_must_revalidate (cc : CacheControl) : CacheControl :=
  let 'mkCacheControl a b c d e f g _ i j k l m n := cc in mkCacheControl a b c d e f g true i j k l m n.
Definition set_must_understand (cc : CacheControl) : CacheControl :=
  let 'mkCacheControl a b c d e f g h _ j k l m n := cc in mkCacheControl a b c d e f g h true j k l m n.
Definition set_private (cc : CacheControl) : CacheControl :=
  let 'mkCacheControl a b c d e f g h i _ k l m n := cc in mkCacheControl a b c d e f g h i true k l m n.
Definition set_proxy_revalidate (cc : CacheControl) : CacheControl :=
  let 'mkCacheControl a b c d e f g h i j _ l m n := cc in mkCacheControl a b c d e f g h i j true l m n.
Definition set_public (cc : CacheControl) : CacheControl :=
  let 'mkCacheControl a b c d e f g h i j k _ m n := cc in mkCacheControl a b c d e f g h i j k true m n.
Definition set_s_maxage (cc : CacheControl) (s : Z) : CacheControl :=
  let 'mkCacheControl a b c d e f g h i j k l _ n := cc in mkCacheControl a b c d e f g h i j k l (Some s) n.
Definition set_immutable (cc : CacheControl) : CacheControl :=
  let 'mkCacheControl a b c d e f g h i j k l m _ := cc in mkCacheControl a b c d e f g h i j k l m true.

(** ** From directives *)

Record CacheControlDirective := mkDirective { directive_name : list Z; directive_value : list Z }.

(** [CacheControlDirective::must_revalidate] *)
Definition must_revalidate_directive : CacheControlDirective := mkDirective (bs "must-revalidate") [].

(** The digits of a value as a [u64]. *)
Definition cc_parse_int (value : list Z) : option Z :=
  if negb (forallb is_ascii_digit value) then None else parse_uint u64_max value.

(** One step of the loop over the directives. *)
Definition apply_directive (cc : CacheControl) (ccd : CacheControlDirective) : CacheControl :=
  let named (text : string) := bytes_eqb (directive_name ccd) (bs text) in
  let seconds set := match cc_parse_int (directive_value ccd) with None => set_must_revalidate cc | Some n => set cc n end in
  if named "max-age"%string then seconds set_max_age
  else if named "no-cache"%string then set_no_cache cc
  else if named "no-store"%string then set_no_store cc
  else if named "no-transform"%string then set_no_transform cc
  else if named "max-stale"%string then
    match directive_value ccd with [] => set_max_stale cc u64_max | _ => seconds set_max_stale end
  else if named "min-fresh"%string then seconds set_min_fresh
  else if named "only-if-cached"%string then set_only_if_cached cc
  else if named "must-revalidate"%string then set_must_revalidate cc
  else if named "must-understand"%string then set_must_understand cc
  else if named "private"%string then set_private cc
  else if named "proxy-revalidate"%string then set_proxy_revalidate cc
  else if named "public"%string then set_public cc
  else if named "s-maxage"%string then seconds set_s_maxage
  else if named "immutable"%string then set_immutable cc
  else cc.

(** [FromIterator<CacheControlDirective> for CacheControl] *)
Definition from_directives (l : list CacheControlDirective) : CacheControl := fold_left apply_directive l cache_control_default.

(** ** The parser *)

Record CacheControlParser := mkCacheParser { p_cur : list Z; p_directives : list (list Z); p_seen : gset (list Z) }.

Definition set_cur (p : CacheControlParser) (cur : list Z) : CacheControlParser := mkCacheParser cur (p_directives p) (p_seen p).

Definition cache_parser_new (headers : list (list Z)) : CacheControlParser :=
  match headers with
  | [] => mkCacheParser [] [] ∅
  | cur :: directives => mkCacheParser cur directives ∅
  end.

Definition is_token_byte (byte : Z) : bool :=
  existsb (Z.eqb byte) (bs "!#$%&'*+-.^_`|~") || is_ascii_alphanumeric byte.

Definition parse_token (p : CacheControlParser) : option (list Z) * CacheControlParser :=
  match take_while is_token_byte (p_cur p) with
  | [] => (None, p)
  | token => (Some token, set_cur p (drop_while is_token_byte (p_cur p)))
  end.

Definition maybe_parse_byte (wanted : Z) (p : CacheControlParser) : bool * CacheControlParser :=
  match p_cur p with
  | byte :: rest => if byte =? wanted then (true, set_cur p rest) else (false, p)
  | [] => (false, p)
  end.

Definition maybe_parse_equals : CacheControlParser -> bool * CacheControlParser := maybe_parse_byte 61.
Definition maybe_parse_directive_delimiter : CacheControlParser -> bool * CacheControlParser := maybe_parse_byte 44.

Definition is_qdtext_byte (byte : Z) : bool :=
  (byte =? 9) || (byte =? 32) || (byte =? 33) || ((35 <=? byte) && (byte <=? 91)) || ((93 <=? byte) && (byte <=? 126)) || ((128 <=? byte) && (byte <=? 255)).

Definition is_quoted_pair_byte (byte : Z) : bool :=
  (byte =? 9) || (byte =? 32) || ((33 <=? byte) && (byte <=? 126)) || ((128 <=? byte) && (byte <=? 255)).

(** The loop of [parse_quoted_string]: the value and what is left. *)
Fixpoint quoted_loop (cur value : list Z) : option (list Z) * list Z :=
  match cur with
  | [] => (None, [])
  | byte :: cur =>
      if byte =? 34 then (Some value, cur)
      else if byte =? 92 then
        match cur with
        | [] => (None, [])
        | byte :: cur => if negb (is_quoted_pair_byte byte) then (None, cur) else quoted_loop cur (value ++ [byte])
        end
      else if is_qdtext_byte byte then quoted_loop cur (value ++ [byte])
      else (None, cur)
  end.

Definition parse_quoted_string (p : CacheControlParser) : option (list Z) * CacheControlParser :=
  let '(value, cur) := quoted_loop (p_cur p) [] in (value, set_cur p cur).

Definition parse_value (p : CacheControlParser) : option (list Z) * CacheControlParser :=
  match p_cur p with
  | [] => (None, p)
  | byte :: rest => if byte =? 34 then parse_quoted_string (set_cur p rest) else parse_token p
  end.

Definition skip_whitespace (p : CacheControlParser) : CacheControlParser := set_cur p (drop_while is_ascii_whitespace (p_cur p)).

Definition see (p : CacheControlParser) (name : list Z) : CacheControlParser := mkCacheParser (p_cur p) (p_directives p) ({[name]} ∪ p_seen p).

Definition emit_revalidation (p : CacheControlParser) : option CacheControlDirective * CacheControlParser :=
  if decide (bs "must-revalidate" ∈ p_seen p) then (None, p)
  else (Some must_revalidate_directive, see p (bs "must-revalidate")).

Definition emit_directive (p : CacheControlParser) (directive : CacheControlDirective) : option CacheControlDirective * CacheControlParser :=
  if decide (directive_name directive ∈ p_seen p) then emit_revalidation p
  else (Some directive, see p (directive_name directive)).

(** The inner loop of [next]: over the current header value, until a directive is
    returned or the value is used up. *)
Fixpoint header_loop (fuel : nat) (p : CacheControlParser) : outcome (option CacheControlDirective * CacheControlParser) :=
  match p_cur p with
  | [] => Ret (None, p)
  | _ =>
      match fuel with
      | O => Panic
      | S fuel =>
          let p := skip_whitespace p in
          match parse_token p with
          | (None, p) =>
              let invalid := match p_cur p with [] => false | _ => true end in
              let p := set_cur p [] in
              if invalid then Ret (emit_revalidation p) else Ret (None, p)
          | (Some name, p) =>
              let name := map to_ascii_lowercase name in
              match maybe_parse_equals p with
              | (false, p) =>
                  let p := (maybe_parse_directive_delimiter (skip_whitespace p)).2 in
                  match emit_directive p (mkDirective name []) with
                  | (None, p) => header_loop fuel p
                  | (Some d, p) => Ret (Some d, p)
                  end
              | (true, p) =>
                  match parse_value p with
                  | (None, p) => Ret (emit_revalidation (set_cur p []))
                  | (Some value, p) =>
                      let p := (maybe_parse_directive_delimiter (skip_whitespace p)).2 in
                      match emit_directive p (mkDirective name value) with
                      | (None, p) => header_loop fuel p
                      | (Some d, p) => Ret (Some d, p)
                      end
                  end
              end
          end
      end
  end.

(** [Iterator::next]: the outer loop takes the next header value. *)
Fixpoint next_loop (directives : list (list Z)) (cur : list Z) (seen : gset (list Z)) : outcome (option CacheControlDirective * CacheControlParser) :=
  let! r := header_loop (length cur) (mkCacheParser cur directives seen) in
  match r with
  | (Some d, p) => Ret (Some d, p)
  | (None, p) =>
      match directives with
      | [] => Ret (None, p)
      | cur :: directives => next_loop directives cur (p_seen p)
      end
  end.

Definition cache_parser_next (p : CacheControlParser) : outcome (option CacheControlDirective * CacheControlParser) :=
  next_loop (p_directives p) (p_cur p) (p_seen p).

(** [collect] *)
Fixpoint collect_directives (fuel : nat) (p : CacheControlParser) : outcome (list CacheControlDirective) :=
  let! r := cache_parser_next p in
  match r, fuel with
  | (None, _), _ => Ret []
  | (Some d, p), S fuel => let! rest := collect_directives fuel p in Ret (d :: rest)
  | (Some _, _), O => Panic
  end.

(** The bytes that are left. *)
Definition bytes_left (p : CacheControlParser) : nat := (length (p_cur p) + sum_list_with length (p_directives p))%nat.

(** [FromIterator<&[u8]> for CacheControl] *)
Definition cache_control_from_headers (headers : list (list Z)) : outcome CacheControl :=
  let p := cache_parser_new headers in
  outcome_map from_directives (collect_directives (bytes_left p) p).

(** ** Examples *)

Example cache_control_two_headers :
  cache_control_from_headers [bs "Max-Age=60, no-cache"; bs "max-age=61, private"] =
  Ret (set_private (set_must_revalidate (set_no_cache (set_max_age cache_control_default 60)))).
Proof. by vm_compute. Qed.

(** ** Termination *)

(** [p'] has the same header values to come and seen names, and no more bytes of the current one. *)
Definition shrinks (p p' : CacheControlParser) : Prop :=
  p_directives p' = p_directives p /\ (length (p_cur p') <= length (p_cur p))%nat.

#[export] Instance shrinks_preorder : PreOrder shrinks.
Proof. split; [by intros p|]. intros p q r [E1 H1] [E2 H2]. split; [congruence|lia]. Qed.

Lemma drop_while_length {A} (f : A -> bool) l : (length (drop_while f l) <= length l)%nat.
Proof. induction l as [|x l IH]; cbn; [done|]. destruct (f x); cbn; lia. Qed.

Lemma skip_whitespace_shrinks p : shrinks p (skip_whitespace p).
Proof. split; [done|]. apply drop_while_length. Qed.

Lemma parse_token_shrinks p : let '(o, p') := parse_token p in shrinks p p' /\ (o <> None -> (length (p_cur p') < length (p_cur p))%nat).
Proof.
  unfold parse_token. pose proof (take_drop_while is_token_byte (p_cur p)) as E. destruct (take_while is_token_byte (p_cur p)) as [|x l]; [by split|].
  assert (Hl : length (p_cur p) = (S (length l) + length (drop_while is_token_byte (p_cur p)))%nat) by (rewrite <- E at 1; by rewrite length_app).
  split; [split; [done|]|intros _]; cbn; lia.
Qed.

Lemma maybe_byte_shrinks b p : shrinks p (maybe_parse_byte b p).2.
Proof. unfold maybe_parse_byte. destruct (p_cur p) as [|x l] eqn:E; [done|]. destruct (x =? b); [|done]. split; [done|]. rewrite E. cbn. lia. Qed.

Lemma quoted_loop_length cur value : (length (quoted_loop cur value).2 <= length cur)%nat.
Proof.
  remember (length cur) as n eqn:En. assert (Hn : (length cur <= n)%nat) by lia. clear En. revert cur value Hn.
  induction n as [|n IH]; intros [|x cur] value Hn; cbn [length] in *; try (cbn; lia). cbn [quoted_loop].
  destruct (x =? 34); [cbn; lia|]. destruct (x =? 92).
  - destruct cur as [|y cur]; [cbn; lia|]. destruct (negb _); [cbn in *; lia|]. etrans; [apply IH; cbn in Hn; lia|lia].
  - destruct (is_qdtext_byte x); [|cbn; lia]. etrans; [apply IH; lia|lia].
Qed.

Lemma parse_value_shrinks p : shrinks p (parse_value p).2.
Proof.
  unfold parse_value. destruct (p_cur p) as [|x l] eqn:E; [done|]. destruct (x =? 34).
  - unfold parse_quoted_string. cbn [p_cur set_cur]. pose proof (quoted_loop_length l []) as Hq. destruct (quoted_loop l []) as [v c]. cbn in *. split; [done|]. rewrite E. cbn. lia.
  - pose proof (parse_token_shrinks p) as Ht. destruct (parse_token p). by destruct Ht.
Qed.

Lemma emit_shrinks p d : shrinks p (emit_directive p d).2 /\ shrinks p (emit_revalidation p).2.
Proof. unfold emit_directive, emit_revalidation. repeat destruct (decide _); by repeat split. Qed.

Lemma emit_revalidation_cur p : p_cur (emit_revalidation p).2 = p_cur p.
Proof. unfold emit_revalidation. by destruct (decide _). Qed.

(** The inner loop returns, having used up the value or returned a directive of at least one byte. *)
Lemma header_loop_total fuel p : (length (p_cur p) <= fuel)%nat ->
  exists o p', header_loop fuel p = Ret (o, p') /\ shrinks p p' /\
    match o with None => p_cur p' = [] | Some _ => (length (p_cur p') < length (p_cur p))%nat end.
Proof.
  revert p. induction fuel as [|fuel IH]; intros p Hf; cbn [header_loop]; (destruct (p_cur p) as [|x l] eqn:Ep; [by exists None, p|]); [cbn in Hf; lia|].
  rewrite <- Ep in *. assert (Hpos : (0 < length (p_cur p))%nat) by (rewrite Ep; cbn; lia).
  pose proof (skip_whitespace_shrinks p) as H1. pose proof (parse_token_shrinks (skip_whitespace p)) as H2. destruct (parse_token (skip_whitespace p)) as [[name|] p2]; destruct H2 as [H2 H2'].
  2:{ assert (H3 : shrinks p (set_cur p2 [])) by (split; [apply (transitivity H1 H2)|cbn; lia]).
      destruct (p_cur p2); [exists None; by eexists|]. pose proof (proj2 (emit_shrinks (set_cur p2 []) must_revalidate_directive)) as H4. pose proof (emit_revalidation_cur (set_cur p2 [])) as E4.
      destruct (emit_revalidation (set_cur p2 [])) as [o p4]. cbn [fst snd] in *. exists o, p4. split; [done|]. split; [by transitivity (set_cur p2 [])|]. rewrite E4. destruct o; [cbn; lia|done]. }
  assert (Hlt : (length (p_cur p2) < length (p_cur p))%nat) by (destruct H1; specialize (H2' ltac:(done)); lia).
  assert (Hs2 : shrinks p p2) by (by transitivity (skip_whitespace p)).
  assert (Fin : forall q d, shrinks p2 q -> exists o p', match emit_directive ((maybe_parse_directive_delimiter (skip_whitespace q)).2) d with
      | (None, p) => header_loop fuel p | (Some d, p) => Ret (Some d, p) end = Ret (o, p') /\ shrinks p p' /\
      match o with None => p_cur p' = [] | Some _ => (length (p_cur p') < length (p_cur p))%nat end).
  { intros q d Hq. pose proof (maybe_byte_shrinks 44 (skip_whitespace q)) as H3. set (q' := (maybe_parse_directive_delimiter (skip_whitespace q)).2) in *.
    assert (Hq' : shrinks p2 q') by (etrans; [exact Hq|]; etrans; [apply skip_whitespace_shrinks|exact H3]).
    pose proof (proj1 (emit_shrinks q' d)) as H4. destruct (emit_directive q' d) as [[d'|] p4]; cbn [snd] in H4.
    - exists (Some d'), p4. split; [done|]. split; [by transitivity p2; [|transitivity q']|]. destruct H4, Hq'. lia.
    - destruct (IH p4) as (o & p' & E & Hs & Hc); [destruct H4, Hq'; lia|]. exists o, p'. split; [done|]. split; [transitivity p2; [done|]; transitivity q'; [done|]; by transitivity p4|].
      destruct o; [|done]. destruct H4, Hq'. lia. }
  pose proof (maybe_byte_shrinks 61 p2) as H3. unfold maybe_parse_equals. destruct (maybe_parse_byte 61 p2) as [[] p3]; cbn [snd] in H3.
  - pose proof (parse_value_shrinks p3) as H4. destruct (parse_value p3) as [[value|] p4]; cbn [snd] in H4.
    + apply Fin. by transitivity p3.
    + pose proof (proj2 (emit_shrinks (set_cur p4 []) must_revalidate_directive)) as H5. pose proof (emit_revalidation_cur (set_cur p4 [])) as E5.
      destruct (emit_revalidation (set_cur p4 [])) as [o p5]. cbn [fst snd] in *. exists o, p5. split; [done|].
      assert (H6 : shrinks p (set_cur p4 [])) by (split; [|cbn; lia]; cbn; destruct Hs2, H3, H4; congruence).
      split; [by transitivity (set_cur p4 [])|]. rewrite E5. destruct o; [cbn; lia|done].
  - by apply Fin.
Qed.

Lemma next_loop_total directives cur seen : exists o p', next_loop directives cur seen = Ret (o, p') /\
  (bytes_left p' <= length cur + sum_list_with length directives)%nat /\ (o <> None -> (bytes_left p' < length cur + sum_list_with length directives)%nat).
Proof.
  revert cur seen. induction directives as [|h directives IH]; intros cur seen; cbn [next_loop].
  - destruct (header_loop_total (length cur) (mkCacheParser cur [] seen) (le_n _)) as (o & p & -> & [Ed Hl] & Ho). cbn [obind p_cur p_directives] in *.
    destruct o as [d|]; [|by exists None, p; unfold bytes_left; rewrite Ho, Ed; cbn; split; [done|split; [lia|]]].
    exists (Some d), p. split; [done|]. unfold bytes_left. rewrite Ed. cbn. split; [lia|intros _; lia].
  - destruct (header_loop_total (length cur) (mkCacheParser cur (h :: directives) seen) (le_n _)) as (o & p & -> & [Ed Hl] & Ho). cbn [obind p_cur p_directives] in *.
    destruct o as [d|].
    + exists (Some d), p. split; [done|]. unfold bytes_left. rewrite Ed. cbn in *. split; [lia|intros _; lia].
    + destruct (IH h (p_seen p)) as (o' & p' & E' & H1 & H2). exists o', p'. split; [done|]. cbn. split; [lia|intros Hn; specialize (H2 Hn); lia].
Qed.

Lemma collect_total fuel p : (bytes_left p <= fuel)%nat -> exists l, collect_directives fuel p = Ret l.
Proof.
  revert p. induction fuel as [|fuel IH]; intros p Hf; cbn [collect_directives];
    destruct (next_loop_total (p_directives p) (p_cur p) (p_seen p)) as (o & p' & E & H1 & H2); unfold cache_parser_next; rewrite E; cbn [obind];
    (destruct o as [d|]; [|by eexists]); specialize (H2 ltac:(done)); fold (bytes_left p) in H2; [lia|].
  destruct (IH p') as (l & ->); [lia|]. by eexists.
Qed.

(** ** The grammar

    A header value is a list of directives between commas, each with white space
    around it, and possibly a rest that cannot be read. *)

Inductive ValueText := NoValue | TokenValue (token : list Z) | QuotedValue (bytes : list (bool * Z)).

Record DirectiveText := mkText { text_before : list Z; text_name : list Z; text_value : ValueText; text_after : list Z }.

Definition value_bytes (v : ValueText) : list Z :=
  match v with NoValue => [] | TokenValue token => token | QuotedValue bytes => map snd bytes end.

Definition quoted_text (bytes : list (bool * Z)) : list Z := flat_map (fun b : bool * Z => if b.1 then [92; b.2] else [b.2]) bytes.

Definition value_text (v : ValueText) : list Z :=
  match v with NoValue => [] | TokenValue token => 61 :: token | QuotedValue bytes => 61 :: 34 :: quoted_text bytes ++ [34] end.

Definition directive_text (t : DirectiveText) : list Z := text_before t ++ text_name t ++ value_text (text_value t) ++ text_after t.

Definition value_text_ok (v : ValueText) : Prop :=
  match v with
  | NoValue => True
  | TokenValue token => token <> [] /\ Forall (fun b => is_token_byte b = true) token
  | QuotedValue bytes => Forall (fun b : bool * Z => if b.1 then is_quoted_pair_byte b.2 = true else is_qdtext_byte b.2 = true) bytes
  end.

Record text_ok (t : DirectiveText) : Prop := {
  before_ok : Forall (fun b => is_ascii_whitespace b = true) (text_before t);
  name_ok : Forall (fun b => is_token_byte b = true) (text_name t);
  name_nonempty : text_name t <> [];
  value_ok : value_text_ok (text_value t);
  after_ok : Forall (fun b => is_ascii_whitespace b = true) (text_after t);
}.

(** A rest without a directive: it does not start with a name, or has no value after [=]. *)
Inductive unreadable : list Z -> Prop :=
| no_name spaces byte rest : Forall (fun b => is_ascii_whitespace b = true) spaces -> is_ascii_whitespace byte = false -> is_token_byte byte = false ->
    unreadable (spaces ++ byte :: rest)
| no_value spaces name rest : Forall (fun b => is_ascii_whitespace b = true) spaces -> Forall (fun b => is_token_byte b = true) name -> name <> [] ->
    (rest = [] \/ (exists byte rest', rest = byte :: rest' /\ byte <> 34 /\ is_token_byte byte = false) \/ (exists rest', rest = 34 :: rest' /\ (quoted_loop rest' []).1 = None)) ->
    unreadable (spaces ++ name ++ 61 :: rest).

(** A header value: its directives and its unreadable rest. *)
Record HeaderText := mkHeader { header_directives : list DirectiveText; header_rest : option (list Z) }.

Definition header_text (h : HeaderText) : list Z := join_on 44 (map directive_text (header_directives h) ++ match header_rest h with Some rest => [rest] | None => [] end).

Definition header_ok (h : HeaderText) : Prop :=
  Forall text_ok (header_directives h) /\ match header_rest h with Some rest => unreadable rest | None => True end.

(** What is read: the directives, and [None] for an unreadable rest. *)
Definition directive_of (t : DirectiveText) : CacheControlDirective := mkDirective (map to_ascii_lowercase (text_name t)) (value_bytes (text_value t)).
Definition header_items (h : HeaderText) : list (option CacheControlDirective) :=
  map (fun t => Some (directive_of t)) (header_directives h) ++ match header_rest h with Some _ => [None] | None => [] end.

(** ** Meaning

    The first occurrence of every directive counts; a second one, and a rest that
    cannot be read, demand revalidation. *)

Fixpoint first_directives (seen : gset (list Z)) (items : list (option CacheControlDirective)) : list CacheControlDirective :=
  match items with
  | [] => []
  | None :: items => first_directives seen items
  | Some d :: items => if decide (directive_name d ∈ seen) then first_directives seen items else d :: first_directives ({[directive_name d]} ∪ seen) items
  end.

Fixpoint irregular (seen : gset (list Z)) (items : list (option CacheControlDirective)) : bool :=
  match items with
  | [] => false
  | None :: _ => true
  | Some d :: items => bool_decide (directive_name d ∈ seen) || irregular ({[directive_name d]} ∪ seen) items
  end.

Definition cache_control_meaning (items : list (option CacheControlDirective)) : CacheControl :=
  let cc := from_directives (first_directives ∅ items) in
  if irregular ∅ items then set_must_revalidate cc else cc.

(** ** The parser on the grammar *)

(** The directives that the parser returns for the items of header values. *)
Fixpoint emitted (seen : gset (list Z)) (items : list (option CacheControlDirective)) : list CacheControlDirective :=
  match items with
  | [] => []
  | item :: items =>
      match item with
      | Some d =>
          if decide (directive_name d ∈ seen) then
            if decide (bs "must-revalidate" ∈ seen) then emitted seen items
            else must_revalidate_directive :: emitted ({[bs "must-revalidate"]} ∪ seen) items
          else d :: emitted ({[directive_name d]} ∪ seen) items
      | None =>
          if decide (bs "must-revalidate" ∈ seen) then emitted seen items
          else must_revalidate_directive :: emitted ({[bs "must-revalidate"]} ∪ seen) items
      end
  end.

(** One call of [next]: the directive, the names seen then, and the items left. *)
Fixpoint scan (seen : gset (list Z)) (items : list (option CacheControlDirective)) :
    option CacheControlDirective * gset (list Z) * list (option CacheControlDirective) :=
  match items with
  | [] => (None, seen, [])
  | item :: items =>
      match item with
      | Some d =>
          if decide (directive_name d ∈ seen) then
            if decide (bs "must-revalidate" ∈ seen) then scan seen items
            else (Some must_revalidate_directive, {[bs "must-revalidate"]} ∪ seen, items)
          else (Some d, {[directive_name d]} ∪ seen, items)
      | None =>
          if decide (bs "must-revalidate" ∈ seen) then scan seen items
          else (Some must_revalidate_directive, {[bs "must-revalidate"]} ∪ seen, items)
      end
  end.

Lemma emitted_scan seen items : emitted seen items = match scan seen items with (Some d, seen', rest) => d :: emitted seen' rest | (None, _, _) => [] end.
Proof.
  revert seen. induction items as [|[d|] items IH]; intros seen; [done| |]; cbn [emitted scan]; repeat destruct (decide _); try done; apply IH.
Qed.

Lemma scan_app seen items more : scan seen (items ++ more) =
  match scan seen items with (Some d, seen', rest) => (Some d, seen', rest ++ more) | (None, seen', _) => scan seen' more end.
Proof.
  revert seen. induction items as [|[d|] items IH]; intros seen; [done| |]; cbn [app scan]; repeat destruct (decide _); try done; apply IH.
Qed.

Lemma token_not_space b : is_token_byte b = true -> is_ascii_whitespace b = false.
Proof.
  intros H. destruct (is_ascii_whitespace b) eqn:E; [|done]. unfold is_ascii_whitespace in E. rewrite !orb_true_iff, !Z.eqb_eq in E.
  destruct E as [[[[-> | ->] | ->] | ->] | ->]; discriminate H.
Qed.

Lemma space_not_token b : is_ascii_whitespace b = true -> is_token_byte b = false.
Proof. intros H. destruct (is_token_byte b) eqn:E; [|done]. apply token_not_space in E. congruence. Qed.

Lemma quoted_loop_text bytes rest value : value_text_ok (QuotedValue bytes) ->
  quoted_loop (quoted_text bytes ++ 34 :: rest) value = (Some (value ++ map snd bytes), rest).
Proof.
  cbn [value_text_ok]. intros H. revert value. induction H as [|[e b] bytes Hb H IH]; intros value; [by rewrite app_nil_r|].
  cbn [quoted_text flat_map fst snd map]. destruct e; cbn [fst snd app] in *.
  - cbn [quoted_loop Z.eqb Pos.eqb]. rewrite Hb. cbn [negb]. fold (quoted_text bytes). rewrite IH. by rewrite <- app_assoc.
  - cbn [quoted_loop]. assert (E1 : (b =? 34) = false) by (apply Z.eqb_neq; intros ->; discriminate Hb). assert (E2 : (b =? 92) = false) by (apply Z.eqb_neq; intros ->; discriminate Hb).
    rewrite E1, E2, Hb. fold (quoted_text bytes). rewrite IH. by rewrite <- app_assoc.
Qed.

(** What follows a directive: nothing, or a comma and the rest. *)
Definition follows (tail rest : list Z) : Prop := (tail = [] /\ rest = []) \/ tail = 44 :: rest.

Lemma follows_stops f tail rest : f 44 = false -> follows tail rest -> stops f tail.
Proof. intros Hf [[-> _]| ->]; done. Qed.

(** After the value: white space and the delimiter. *)
Lemma directive_end after tail rest directives seen : Forall (fun b => is_ascii_whitespace b = true) after -> follows tail rest ->
  (maybe_parse_directive_delimiter (skip_whitespace (mkCacheParser (after ++ tail) directives seen))).2 = mkCacheParser rest directives seen.
Proof.
  intros Ha Ht. unfold skip_whitespace. cbn [p_cur set_cur p_directives p_seen]. rewrite drop_while_app by (done || by eapply follows_stops).
  destruct Ht as [[-> ->]| ->]; done.
Qed.

Lemma space_tail_stops after tail rest : Forall (fun b => is_ascii_whitespace b = true) after -> follows tail rest ->
  stops is_token_byte (after ++ tail) /\ (forall b l, after ++ tail = b :: l -> b <> 61).
Proof.
  intros Ha Ht. destruct Ha as [|b after Hb Ha]; cbn [app].
  - destruct Ht as [[-> _]| ->]; [by split|]. split; [done|]. by intros b l [= <- <-].
  - split; [by apply space_not_token|]. intros b' l [= <- <-] ->. discriminate Hb.
Qed.

Lemma skip_to_name spaces text directives seen : Forall (fun b => is_ascii_whitespace b = true) spaces -> stops is_ascii_whitespace text ->
  skip_whitespace (mkCacheParser (spaces ++ text) directives seen) = mkCacheParser text directives seen.
Proof. intros Hs Ht. unfold skip_whitespace. cbn [p_cur set_cur p_directives p_seen]. by rewrite drop_while_app. Qed.

Lemma read_token name text directives seen : Forall (fun b => is_token_byte b = true) name -> name <> [] -> stops is_token_byte text ->
  parse_token (mkCacheParser (name ++ text) directives seen) = (Some name, mkCacheParser text directives seen).
Proof.
  intros Hn Hne Ht. unfold parse_token. cbn [p_cur set_cur p_directives p_seen]. rewrite take_while_app, drop_while_app by done. by destruct name.
Qed.

Lemma name_stops name text : Forall (fun b => is_token_byte b = true) name -> name <> [] -> stops is_ascii_whitespace (name ++ text).
Proof. intros Hn Hne. destruct Hn as [|b name Hb Hn]; [done|]. cbn. by apply token_not_space. Qed.

(** The value of a directive. *)
Lemma read_value v text directives seen : value_text_ok v -> v <> NoValue -> stops is_token_byte text ->
  exists body, value_text v = 61 :: body /\ parse_value (mkCacheParser (body ++ text) directives seen) = (Some (value_bytes v), mkCacheParser text directives seen).
Proof.
  intros Hv Hne Ht. destruct v as [|token|bytes]; [done| |]; cbn [value_text value_bytes].
  - destruct Hv as [Htne Hv]. exists token. split; [done|]. pose proof (read_token token text directives seen Hv Htne Ht) as E. unfold parse_value. cbn [p_cur].
    destruct token as [|b token]; [done|]. cbn [app]. apply Forall_cons in Hv as [Hb _]. assert (E1 : (b =? 34) = false) by (apply Z.eqb_neq; intros ->; discriminate Hb). rewrite E1. exact E.
  - exists (34 :: quoted_text bytes ++ [34]). split; [done|]. unfold parse_value. cbn [p_cur app Z.eqb Pos.eqb]. unfold parse_quoted_string. cbn [p_cur set_cur p_directives p_seen].
    rewrite <- app_assoc. cbn [app]. rewrite quoted_loop_text by done. done.
Qed.

(** One directive of a header value. *)
Lemma directive_step fuel t tail rest directives seen : text_ok t -> follows tail rest ->
  header_loop (S fuel) (mkCacheParser (directive_text t ++ tail) directives seen) =
  match emit_directive (mkCacheParser rest directives seen) (directive_of t) with (None, p) => header_loop fuel p | (Some d, p) => Ret (Some d, p) end.
Proof.
  intros [Hb Hn Hne Hv Ha] Ht. cbn [header_loop p_cur]. unfold directive_text. rewrite <- !app_assoc.
  destruct (space_tail_stops (text_after t) tail rest Ha Ht) as [Hst Hne61].
  assert (Hne' : text_before t ++ text_name t ++ value_text (text_value t) ++ text_after t ++ tail <> []) by (destruct (text_before t), (text_name t); done).
  destruct (text_before t ++ text_name t ++ value_text (text_value t) ++ text_after t ++ tail) as [|x l] eqn:El; [done|]. rewrite <- El. clear x l El Hne'.
  rewrite skip_to_name by (done || by apply name_stops). rewrite read_token; [|done|done|by destruct (text_value t)].
  unfold maybe_parse_equals, maybe_parse_byte, directive_of. cbn [p_cur].
  destruct (text_value t) as [|token|bytes] eqn:Ev.
  - cbn [value_text app value_bytes]. destruct (text_after t ++ tail) as [|b l] eqn:Et.
    + rewrite <- Et, directive_end with (rest := rest) by done. done.
    + assert (E : (b =? 61) = false) by (apply Z.eqb_neq; by eapply Hne61). rewrite E, <- Et, directive_end with (rest := rest) by done. done.
  - destruct (read_value (TokenValue token) (text_after t ++ tail) directives seen Hv ltac:(done) Hst) as (body & -> & E). cbn [app Z.eqb Pos.eqb set_cur p_directives p_seen].
    unfold set_cur. cbn [p_directives p_seen]. rewrite E, directive_end with (rest := rest) by done. done.
  - destruct (read_value (QuotedValue bytes) (text_after t ++ tail) directives seen Hv ltac:(done) Hst) as (body & -> & E). cbn [app Z.eqb Pos.eqb set_cur p_directives p_seen].
    unfold set_cur. cbn [p_directives p_seen]. rewrite E, directive_end with (rest := rest) by done. done.
Qed.

(** A rest that cannot be read. *)
Lemma unreadable_step fuel text directives seen : unreadable text ->
  header_loop (S fuel) (mkCacheParser text directives seen) = Ret (emit_revalidation (mkCacheParser [] directives seen)).
Proof.
  intros Hu. cbn [header_loop p_cur]. destruct text as [|x l] eqn:El; [by inversion Hu as [[] ? ? ? ? ? E|[] [] ? ? ? ? ? E]|]. rewrite <- El in *. clear x l El.
  destruct Hu as [spaces byte rest Hs Hb Ht|spaces name rest Hs Hn Hne Hrest].
  - rewrite skip_to_name by done. unfold parse_token. cbn [p_cur take_while]. by rewrite Ht.
  - rewrite skip_to_name by (done || by apply name_stops). rewrite read_token by done. unfold maybe_parse_equals, maybe_parse_byte. cbn [p_cur Z.eqb Pos.eqb].
    unfold set_cur at 1. cbn [p_directives p_seen]. unfold parse_value. cbn [p_cur]. destruct Hrest as [->|[(byte & rest' & -> & Hb & Ht)|(rest' & -> & Hq)]]; [done| |].
    + apply Z.eqb_neq in Hb. rewrite Hb. unfold parse_token. cbn [p_cur take_while]. by rewrite Ht.
    + cbn [Z.eqb Pos.eqb]. unfold parse_quoted_string. cbn [set_cur p_cur p_directives p_seen]. destruct (quoted_loop rest' []) as [o c]. cbn [fst] in Hq. by subst o.
Qed.

Lemma unreadable_nonempty text : unreadable text -> text <> [].
Proof. intros [[] ? ? ? ? ?|[] [] ? ? ? ? ?]; done. Qed.

Lemma header_text_cons t ts r : exists tail, header_text (mkHeader (t :: ts) r) = directive_text t ++ tail /\ follows tail (header_text (mkHeader ts r)).
Proof.
  unfold header_text. cbn [header_directives header_rest map app]. destruct (map directive_text ts ++ match r with Some rest => [rest] | None => [] end) as [|p ps] eqn:E.
  - exists []. cbn [join_on]. rewrite app_nil_r. split; [done|]. by left.
  - eexists. split; [reflexivity|]. by right.
Qed.

Lemma directive_text_length t : text_ok t -> (0 < length (directive_text t))%nat.
Proof. intros [_ _ Hne _ _]. unfold directive_text. rewrite !length_app. destruct (text_name t); [done|]. cbn. lia. Qed.

(** The inner loop on a header value of the grammar. *)
Lemma header_loop_scan fuel h directives seen : header_ok h -> (length (header_text h) <= fuel)%nat ->
  exists o seen' h', header_ok h' /\ scan seen (header_items h) = (o, seen', header_items h') /\
    header_loop fuel (mkCacheParser (header_text h) directives seen) = Ret (o, mkCacheParser (header_text h') directives seen').
Proof.
  destruct h as [ts r]. revert fuel seen. induction ts as [|t ts IH]; intros fuel seen [Hts Hr] Hf; cbn [header_directives header_rest] in *.
  - destruct r as [rest|].
    + change (header_text (mkHeader [] (Some rest))) with rest in *. pose proof (unreadable_nonempty rest Hr) as Hne. destruct fuel as [|fuel]; [destruct rest; [done|cbn in Hf; lia]|].
      rewrite unreadable_step by done. unfold emit_revalidation, see. cbn [p_seen p_cur p_directives]. cbn [header_items map app header_directives header_rest scan].
      destruct (decide _); [exists None, seen|exists (Some must_revalidate_directive), ({[bs "must-revalidate"]} ∪ seen)]; exists (mkHeader [] None); by repeat split.
    + exists None, seen, (mkHeader [] None). split; [done|]. split; [done|]. by destruct fuel.
  - apply Forall_cons in Hts as [Ht Hts]. destruct (header_text_cons t ts r) as (tail & E & Hfol). rewrite E in *. rewrite length_app in Hf.
    pose proof (directive_text_length t Ht) as Hl. destruct fuel as [|fuel]; [lia|]. rewrite (directive_step fuel t tail (header_text (mkHeader ts r))) by done.
    assert (Hf' : (length (header_text (mkHeader ts r)) <= fuel)%nat) by (destruct Hfol as [[-> E']| ->]; [rewrite E'; cbn; lia|cbn [length] in Hf; lia]).
    change (header_items (mkHeader (t :: ts) r)) with (Some (directive_of t) :: header_items (mkHeader ts r)). cbn [scan].
    unfold emit_directive, emit_revalidation, see. cbn [p_seen p_cur p_directives]. repeat destruct (decide _).
    + apply IH; [by split|done].
    + exists (Some must_revalidate_directive), ({[bs "must-revalidate"]} ∪ seen), (mkHeader ts r). by repeat split.
    + exists (Some (directive_of t)), ({[directive_name (directive_of t)]} ∪ seen), (mkHeader ts r). by repeat split.
Qed.

Definition headers_items (hs : list HeaderText) : list (option CacheControlDirective) := concat (map header_items hs).

Lemma next_loop_scan hs h seen : header_ok h -> Forall header_ok hs ->
  exists o p, next_loop (map header_text hs) (header_text h) seen = Ret (o, p) /\
  match o with
  | Some d => exists seen' h' hs', header_ok h' /\ Forall header_ok hs' /\ p = mkCacheParser (header_text h') (map header_text hs') seen' /\
      scan seen (header_items h ++ headers_items hs) = (Some d, seen', header_items h' ++ headers_items hs')
  | None => exists seen' rest, scan seen (header_items h ++ headers_items hs) = (None, seen', rest)
  end.
Proof.
  intros Hh Hhs. revert h seen Hh. induction Hhs as [|h2 hs Hh2 Hhs IH]; intros h seen Hh; cbn [map next_loop].
  - destruct (header_loop_scan (length (header_text h)) h [] seen Hh (le_n _)) as (o & seen' & h' & Hh' & Es & ->). cbn [obind]. rewrite scan_app, Es.
    destruct o as [d|]; eexists _, _; (split; [reflexivity|]); [|by eexists _, _]. by exists seen', h', [].
  - destruct (header_loop_scan (length (header_text h)) h (map header_text (h2 :: hs)) seen Hh (le_n _)) as (o & seen' & h' & Hh' & Es & E). cbn [map] in E. rewrite E. cbn [obind]. rewrite scan_app, Es.
    destruct o as [d|].
    + eexists _, _. split; [reflexivity|]. exists seen', h', (h2 :: hs). split; [done|]. split; [by constructor|]. done.
    + cbn [p_seen]. destruct (IH h2 seen' Hh2) as (o & p & En & Ho). exists o, p. split; [done|]. exact Ho.
Qed.

Lemma collect_emitted fuel h hs seen : header_ok h -> Forall header_ok hs ->
  (bytes_left (mkCacheParser (header_text h) (map header_text hs) seen) <= fuel)%nat ->
  collect_directives fuel (mkCacheParser (header_text h) (map header_text hs) seen) = Ret (emitted seen (header_items h ++ headers_items hs)).
Proof.
  intros Hh Hhs. revert h hs seen Hh Hhs. induction fuel as [|fuel IH]; intros h hs seen Hh Hhs Hf; cbn [collect_directives]; unfold cache_parser_next; cbn [p_directives p_cur p_seen];
    destruct (next_loop_scan hs h seen Hh Hhs) as (o & p & E & Ho); destruct (next_loop_total (map header_text hs) (header_text h) seen) as (o' & p' & E' & _ & H2);
    rewrite E in E'; injection E' as <- <-; rewrite E; cbn [obind]; rewrite emitted_scan; unfold bytes_left in Hf; cbn [p_cur p_directives] in Hf.
  - destruct o as [d|]; [specialize (H2 ltac:(done)); lia|]. by destruct Ho as (? & ? & ->).
  - destruct o as [d|]; [|by destruct Ho as (? & ? & ->)]. specialize (H2 ltac:(done)). destruct Ho as (seen' & h' & hs' & Hh' & Hhs' & -> & ->). rewrite IH; [done|done|done|lia].
Qed.

(** ** The meaning of what is emitted *)

Lemma apply_must_revalidate cc d : apply_directive (set_must_revalidate cc) d = set_must_revalidate (apply_directive cc d).
Proof.
  destruct cc. unfold apply_directive. repeat match goal with |- context [if ?b then _ else _] => destruct b end; try done;
    try (destruct (directive_value d)); try done; by destruct (cc_parse_int _).
Qed.

Lemma fold_must_revalidate l cc : fold_left apply_directive l (set_must_revalidate cc) = set_must_revalidate (fold_left apply_directive l cc).
Proof. revert cc. induction l as [|d l IH]; intros cc; cbn [fold_left]; [done|]. by rewrite apply_must_revalidate, IH. Qed.

Lemma must_revalidate_set cc : cc_must_revalidate cc = true <-> exists cc', cc = set_must_revalidate cc'.
Proof. split; [|by intros [[] ->]]. intros H. exists cc. destruct cc. cbn in *. by subst. Qed.

Lemma set_must_revalidate_idem cc : set_must_revalidate (set_must_revalidate cc) = set_must_revalidate cc.
Proof. by destruct cc. Qed.

Lemma apply_revalidation cc value : apply_directive cc (mkDirective (bs "must-revalidate") value) = set_must_revalidate cc.
Proof. done. Qed.

(** With revalidation demanded already, only the first occurrences matter. *)
Lemma emitted_revalidating seen seen' items cc : (forall n, n ∈ seen' <-> n = bs "must-revalidate" \/ n ∈ seen) ->
  fold_left apply_directive (emitted seen' items) (set_must_revalidate cc) = set_must_revalidate (fold_left apply_directive (first_directives seen items) cc).
Proof.
  revert seen seen' cc. induction items as [|[d|] items IH]; intros seen seen' cc Hs; cbn [emitted first_directives]; [done| |].
  - assert (Hmr : bs "must-revalidate" ∈ seen') by (apply Hs; by left). destruct (decide (bs "must-revalidate" ∈ seen')) as [_|]; [|done].
    destruct (decide (directive_name d ∈ seen')) as [Hin|Hout], (decide (directive_name d ∈ seen)) as [Hin'|Hout']; try (by apply IH); [|exfalso; apply Hout, Hs; by right|].
    + destruct (proj1 (Hs _) Hin) as [E|?]; [|done]. cbn [fold_left]. destruct d as [n v]. cbn in E. subst n. rewrite apply_revalidation.
      rewrite (IH ({[bs "must-revalidate"]} ∪ seen)) by (cbn; set_solver). rewrite fold_must_revalidate. by rewrite set_must_revalidate_idem.
    + cbn [fold_left]. rewrite apply_must_revalidate. apply IH. set_solver.
  - destruct (decide (bs "must-revalidate" ∈ seen')) as [_|Hn]; [by apply IH|]. destruct Hn. apply Hs. by left.
Qed.

Lemma irregular_weaken seen seen' items : seen ⊆ seen' -> irregular seen items = true -> irregular seen' items = true.
Proof.
  revert seen seen'. induction items as [|[d|] items IH]; intros seen seen' Hs; cbn [irregular]; [done| |done].
  rewrite !orb_true_iff, !bool_decide_eq_true. intros [H|H]; [left; set_solver|right]. eapply IH; [|exact H]. set_solver.
Qed.

Lemma emitted_meaning seen items cc : (bs "must-revalidate" ∈ seen -> cc_must_revalidate cc = true) ->
  fold_left apply_directive (emitted seen items) cc =
  let cc' := fold_left apply_directive (first_directives seen items) cc in if irregular seen items then set_must_revalidate cc' else cc'.
Proof.
  cbv zeta. revert seen cc. induction items as [|[d|] items IH]; intros seen cc Hmr; cbn [emitted first_directives irregular]; [done| |].
  - destruct (decide (directive_name d ∈ seen)) as [Hin|Hout].
    + rewrite bool_decide_eq_true_2 by done. cbn [orb]. destruct (decide (bs "must-revalidate" ∈ seen)) as [Hm|Hm].
      * rewrite IH by done. destruct (proj1 (must_revalidate_set cc) (Hmr Hm)) as [cc0 ->]. rewrite fold_must_revalidate, set_must_revalidate_idem. by destruct (irregular _ _).
      * cbn [fold_left]. unfold must_revalidate_directive. rewrite apply_revalidation. apply emitted_revalidating. set_solver.
    + rewrite bool_decide_eq_false_2 by done. cbn [orb fold_left]. apply IH. intros [E|Hm]%elem_of_union.
      * apply elem_of_singleton in E. destruct d as [n v]. cbn in E. subst n. rewrite apply_revalidation. by destruct cc.
      * destruct (proj1 (must_revalidate_set cc) (Hmr Hm)) as [cc0 ->]. rewrite apply_must_revalidate. apply must_revalidate_set. by eexists.
  - destruct (decide (bs "must-revalidate" ∈ seen)) as [Hm|Hm].
    + rewrite IH by done. destruct (proj1 (must_revalidate_set cc) (Hmr Hm)) as [cc0 ->]. rewrite fold_must_revalidate, set_must_revalidate_idem. by destruct (irregular _ _).
    + cbn [fold_left]. unfold must_revalidate_directive. rewrite apply_revalidation. apply emitted_revalidating. set_solver.
Qed.

Lemma headers_meaning hs : Forall header_ok hs -> cache_control_from_headers (map header_text hs) = Ret (cache_control_meaning (headers_items hs)).
Proof.
  intros Hhs. unfold cache_control_from_headers, cache_control_meaning, from_directives. destruct Hhs as [|h hs Hh Hhs]; [done|]. cbn [map cache_parser_new].
  rewrite collect_emitted by done. cbn [outcome_map]. f_equal. change (headers_items (h :: hs)) with (header_items h ++ headers_items hs). rewrite emitted_meaning; [done|]. set_solver.
Qed.

(** C36: The parser of [Cache-Control] values returns for any bytes in any number of
    header values.  On values of the grammar, with any white space around directives,
    quoted or plain values and an unreadable rest, the result says what the values
    mean: the first occurrence of each directive counts, whatever the case of its name
    and over all values, and a repeated directive or an unreadable rest demands
    revalidation. *)
Theorem cache_control_parsed headers hs : Forall header_ok hs ->
  (exists cc, cache_control_from_headers headers = Ret cc) /\
  cache_control_from_headers (map header_text hs) = Ret (cache_control_meaning (headers_items hs)).
Proof.
  intros Hhs. split; [|by apply headers_meaning]. unfold cache_control_from_headers. destruct (collect_total (bytes_left (cache_parser_new headers)) (cache_parser_new headers) (le_n _)) as (l & ->). by eexists.
Qed.

(** ["Max-Age=60 ,no-cache, max-age=\"6\\1\""], as parts. *)
Definition sample_header : HeaderText :=
  mkHeader [mkText [] (bs "Max-Age") (TokenValue (bs "60")) [32]; mkText [] (bs "no-cache") NoValue []; mkText [32] (bs "max-age") (QuotedValue [(false, 54); (true, 49)]) []] None.

Lemma cache_control_parsed_witness : cache_control_from_headers (map header_text [sample_header]) =
  Ret (set_must_revalidate (set_no_cache (set_max_age cache_control_default 60))).
Proof.
  rewrite (proj2 (cache_control_parsed [] [sample_header] ltac:(
    apply Forall_cons_2; [|constructor]; split; [|exact I]; repeat (apply Forall_cons_2; [split; first [done|by repeat constructor]|]); constructor))).
  vm_compute. reflexivity.
Defined.
