(* ===== verification/CachePolicy.v ===== *)
(** * The HTTP cache

    Models [crates/uv-client/src/httpcache/mod.rs]: what the cache of the HTTP client
    stores with a response, whether a stored response may be used for a request, must
    be validated or does not belong to it, and what a validating response says of it.

    Interfaces: [HeaderMap], the multimap of [http::HeaderMap]; [HeaderValues], the
    conversions of [http::HeaderValue]; [HttpDates], the dates of [jiff].  The clock is
    an argument of every function that reads it: a [SystemTime] is its distance from
    the epoch in nanoseconds.  The archived types of [rkyv] are the types themselves. *)

From Stdlib Require Import ZArith Lia String.
From stdpp Require Import base list gmap.
From S2P Require Import Prelude.
From S2P Require Import CacheControl.
Open Scope Z_scope.

(** ** Interfaces *)

(** [http::HeaderMap]: values of a name in the order of insertion. *)
Class HeaderMap (H : Type) := {
  hm_get : H -> list Z -> option (list Z);
  hm_get_all : H -> list Z -> list (list Z);
  hm_contains_key : H -> list Z -> bool;
  hm_append : H -> list Z -> list Z -> H;
  hm_insert : H -> list Z -> list Z -> H;
}.

(** Header names in lower case. *)
Definition header_name_ok (name : list Z) : bool :=
  negb (bytes_eqb name []) && forallb (fun b => is_token_byte b && negb (is_ascii_upper b)) name.

Class HeaderMapLaws (H : Type) `{!HeaderMap H} : Prop := {
  hm_get_law : forall m k, header_name_ok k = true -> hm_get m k = head (hm_get_all m k);
  hm_contains_key_law : forall m k, header_name_ok k = true -> hm_contains_key m k = match hm_get_all m k with [] => false | _ => true end;
  hm_append_law : forall m k v k', header_name_ok k = true -> header_name_ok k' = true ->
    hm_get_all (hm_append m k v) k' = if bytes_eqb k k' then hm_get_all m k' ++ [v] else hm_get_all m k';
  hm_insert_law : forall m k v k', header_name_ok k = true -> header_name_ok k' = true ->
    hm_get_all (hm_insert m k v) k' = if bytes_eqb k k' then [v] else hm_get_all m k';
}.

(** [HeaderValue::to_str], [HeaderValue::from_bytes] and [HeaderValue::from_str], on bytes. *)
Class HeaderValues := {
  header_to_str : list Z -> option (list Z);
  header_from_bytes : list Z -> option (list Z);
  header_from_str : list Z -> option (list Z);
}.

(** [jiff::Timestamp] with its parser and printer of dates. *)
Class HttpDates (T : Type) := {
  dt_parse_rfc2822 : list Z -> option T;
  dt_as_second : T -> Z;
  dt_from_second : Z -> option T;
  dt_rfc9110_string : T -> option (list Z);
}.

(** ** Arithmetic *)

Definition saturating_add (a b : Z) : Z := Z.min u64_max (a + b).
Definition saturating_sub (a b : Z) : Z := Z.max 0 (a - b).

(** [SystemTime] *)
Definition SystemTime : Type := Z.

Definition unix_timestamp (time : SystemTime) : outcome Z := if time <? 0 then Panic else Ret (time / 1000000000).

Definition parse_seconds (value : list Z) : option Z :=
  if negb (forallb is_ascii_digit value) then None else parse_uint u64_max value.

(** ** Data *)

Record CacheConfig := mkConfig { shared : bool }.
Definition config_default : CacheConfig := mkConfig false.

Inductive Method := Get | Head | Unrecognized.

(** [http::Method], by its name. *)
Definition method_from (method : list Z) : Method :=
  if bytes_eqb method (bs "GET") then Get else if bytes_eqb method (bs "HEAD") then Head else Unrecognized.

Record RequestHeaders := mkRequestHeaders { rqh_cc : CacheControl; rqh_authorization : bool }.
Record Request := mkRequest { rq_uri : list Z; rq_method : Method; rq_headers : RequestHeaders; rq_unix_timestamp : Z }.

Record ETag := mkETag { etag_value : list Z; etag_weak : bool }.

Definition etag_parse (header_value : list Z) : ETag :=
  match strip_prefix (bs "W/") header_value with
  | Some value => mkETag value true
  | None => mkETag header_value false
  end.

Record ResponseHeaders := mkResponseHeaders {
  rsh_cc : CacheControl;
  rsh_age_seconds : option Z;
  rsh_date : option Z;
  rsh_expires : option Z;
  rsh_last_modified : option Z;
  rsh_etag : option ETag;
}.

Record Response := mkResponse { rs_status : Z; rs_headers : ResponseHeaders; rs_unix_timestamp : Z }.

Record VaryField := mkVaryField { vary_name : list Z; vary_value : list Z }.
Definition Vary : Type := list VaryField.

Record CachePolicy := mkPolicy { policy_config : CacheConfig; policy_request : Request; policy_response : Response; policy_vary : Vary }.

Section cache.
Context {H T : Type} `{!HeaderMap H} `{!HeaderValues} `{!HttpDates T}.

(** [reqwest::Request] and [reqwest::Response] *)
Record HttpRequest := mkHttpRequest { req_url : list Z; req_method : list Z; req_headers : H }.
Record HttpResponse := mkHttpResponse { resp_status : Z; resp_headers : H }.

Record CachePolicyBuilder := mkBuilder { builder_config : CacheConfig; builder_request : Request; builder_request_headers : H }.

(** ** Dates *)

Definition rfc2822_to_unix_timestamp (s : list Z) : option Z :=
  match dt_parse_rfc2822 s with
  | Some timestamp => let seconds := dt_as_second timestamp in if (0 <=? seconds) && (seconds <=? u64_max) then Some seconds else None
  | None => None
  end.

Definition i64_max : Z := 9223372036854775807.

Definition unix_timestamp_to_datetime (seconds : Z) : option T := if seconds <=? i64_max then dt_from_second seconds else None.

Definition unix_timestamp_to_rfc2822 (seconds : Z) : option (list Z) :=
  match unix_timestamp_to_datetime seconds with Some timestamp => dt_rfc9110_string timestamp | None => None end.

Definition unix_timestamp_to_header (seconds : Z) : option (list Z) :=
  match unix_timestamp_to_rfc2822 seconds with Some string => header_from_str string | None => None end.

(** ** From requests and responses *)

Definition cache_control_of (headers : H) : outcome CacheControl := cache_control_from_headers (hm_get_all headers (bs "cache-control")).

Definition request_headers_from (from : H) : outcome RequestHeaders :=
  let! cc := cache_control_of from in
  Ret (mkRequestHeaders cc (hm_contains_key from (bs "authorization"))).

Definition request_from (now : SystemTime) (from : HttpRequest) : outcome Request :=
  let! headers := request_headers_from (req_headers from) in
  let! time := unix_timestamp now in
  Ret (mkRequest (req_url from) (method_from (req_method from)) headers time).

Definition date_header (from : H) (name : list Z) : option Z :=
  match hm_get from name with
  | Some header => match header_to_str header with Some s => rfc2822_to_unix_timestamp s | None => None end
  | None => None
  end.

Definition response_headers_from (from : H) : outcome ResponseHeaders :=
  let! cc := cache_control_of from in
  Ret (mkResponseHeaders cc
    (match hm_get from (bs "age") with Some header => parse_seconds header | None => None end)
    (date_header from (bs "date")) (date_header from (bs "expires")) (date_header from (bs "last-modified"))
    (option_map etag_parse (hm_get from (bs "etag")))).

Definition response_from (now : SystemTime) (from : HttpResponse) : outcome Response :=
  let! headers := response_headers_from (resp_headers from) in
  let! time := unix_timestamp now in
  Ret (mkResponse (resp_status from) headers time).

(** ** [Vary] *)

Definition always_fails_to_match : Vary := [mkVaryField (bs "*") []].

Definition trim (s : list Z) : list Z := rev (drop_while is_whitespace (rev (drop_while is_whitespace s))).

(** The fields of one [Vary] value; [None] for a star. *)
Fixpoint vary_fields (request : H) (names : list (list Z)) : option (list VaryField) :=
  match names with
  | [] => Some []
  | name :: names =>
      let header_name := map to_ascii_lowercase (trim name) in
      if bytes_eqb header_name (bs "*") then None
      else option_map (cons (mkVaryField header_name (default [] (hm_get request header_name)))) (vary_fields request names)
  end.

Fixpoint vary_headers (request : H) (headers : list (list Z)) : option (list VaryField) :=
  match headers with
  | [] => Some []
  | header :: headers =>
      match header_to_str header with
      | None => vary_headers request headers
      | Some csv =>
          match vary_fields request (split_on 44 csv) with
          | None => None
          | Some fields => option_map (app fields) (vary_headers request headers)
          end
      end
  end.

Definition vary_from_request_response_headers (request response : H) : Vary :=
  default always_fails_to_match (vary_headers request (hm_get_all response (bs "vary"))).

Fixpoint vary_matches (fields : Vary) (request_headers : H) : bool :=
  match fields with
  | [] => true
  | field :: fields =>
      if bytes_eqb (vary_name field) (bs "*") then false
      else if negb (bytes_eqb (vary_value field) (default [] (hm_get request_headers (vary_name field)))) then false
      else vary_matches fields request_headers
  end.

(** ** [CachePolicyBuilder] *)

Definition builder_new (now : SystemTime) (request : HttpRequest) : outcome CachePolicyBuilder :=
  let! r := request_from now request in
  Ret (mkBuilder config_default r (req_headers request)).

Definition builder_build (now : SystemTime) (b : CachePolicyBuilder) (response : HttpResponse) : outcome CachePolicy :=
  let vary := vary_from_request_response_headers (builder_request_headers b) (resp_headers response) in
  let! r := response_from now response in
  Ret (mkPolicy (builder_config b) (builder_request b) r vary).

(** ** [CachePolicy] *)

Definition header_age (r : Response) : Z := default 0 (rsh_age_seconds (rs_headers r)).
Definition header_date (r : Response) : Z := default (rs_unix_timestamp r) (rsh_date (rs_headers r)).
Definition has_final_status (r : Response) : bool := 200 <=? rs_status r.

Definition policy_age (p : CachePolicy) (now : SystemTime) : outcome Z :=
  let response := policy_response p in
  let apparent_age := saturating_sub (rs_unix_timestamp response) (header_date response) in
  let response_delay := saturating_sub (rs_unix_timestamp response) (rq_unix_timestamp (policy_request p)) in
  let corrected_age_value := saturating_add (header_age response) response_delay in
  let corrected_initial_age := Z.max apparent_age corrected_age_value in
  let! now := unix_timestamp now in
  let resident_age := saturating_sub now (rs_unix_timestamp response) in
  Ret (saturating_add corrected_initial_age resident_age).

Definition heuristic_lifetime : Z := 600.

Definition freshness_lifetime (p : CachePolicy) : Z :=
  let headers := rs_headers (policy_response p) in
  match (if shared (policy_config p) then cc_s_maxage_seconds (rsh_cc headers) else None) with
  | Some s_maxage => s_maxage
  | None =>
      match cc_max_age_seconds (rsh_cc headers) with
      | Some max_age => max_age
      | None =>
          match rsh_expires headers with
          | Some expires => saturating_sub expires (header_date (policy_response p))
          | None => match rsh_last_modified headers with Some _ => heuristic_lifetime | None => 0 end
          end
      end
  end.

Definition allows_stale (p : CachePolicy) (now : SystemTime) : outcome bool :=
  if cc_must_revalidate (rsh_cc (rs_headers (policy_response p))) then Ret false
  else
    match cc_max_stale_seconds (rqh_cc (rq_headers (policy_request p))) with
    | Some max_stale =>
        let! age := policy_age p now in
        Ret (saturating_sub age (freshness_lifetime p) <=? max_stale)
    | None => Ret false
    end.

(** The directives of the request, unless the response is immutable. *)
Definition request_allows (p : CachePolicy) (age : Z) (now : SystemTime) (request : HttpRequest) : outcome bool :=
  if cc_immutable (rsh_cc (rs_headers (policy_response p))) then Ret true
  else
    let! reqcc := cache_control_of (req_headers request) in
    if cc_no_cache reqcc then Ret false
    else if match cc_max_age_seconds reqcc with Some max_age => max_age <? age | None => false end then Ret false
    else
      match cc_min_fresh_seconds reqcc with
      | Some min_fresh =>
          let! now := unix_timestamp now in
          Ret (negb (saturating_sub (freshness_lifetime p) now <? min_fresh))
      | None => Ret true
      end.

Definition is_fresh (p : CachePolicy) (now : SystemTime) (request : HttpRequest) : outcome bool :=
  let! age := policy_age p now in
  let! allowed := request_allows p age now request in
  if negb allowed then Ret false
  else if freshness_lifetime p <=? age then allows_stale p now
  else Ret true.

Definition allows_authorization_storage (p : CachePolicy) : bool :=
  let cc := rsh_cc (rs_headers (policy_response p)) in
  cc_must_revalidate cc || cc_public cc || is_some (cc_s_maxage_seconds cc).

Definition HEURISTICALLY_CACHEABLE_STATUS_CODES : list Z := [200; 203; 204; 206; 300; 301; 308; 404; 405; 410; 414; 501].

Definition is_storable (p : CachePolicy) : bool :=
  let response := policy_response p in
  let headers := rs_headers response in
  let cc := rsh_cc headers in
  if match rq_method (policy_request p) with Get | Head => false | Unrecognized => true end then false
  else if negb (has_final_status response) then false
  else if (rs_status response =? 206) || (rs_status response =? 304) then false
  else if cc_no_store (rqh_cc (rq_headers (policy_request p))) then false
  else if cc_no_store cc then false
  else if shared (policy_config p) && cc_private cc then false
  else if shared (policy_config p) && rqh_authorization (rq_headers (policy_request p)) && negb (allows_authorization_storage p) then false
  else if cc_public cc then true
  else if negb (shared (policy_config p)) && cc_private cc then true
  else if is_some (rsh_expires headers) then true
  else if is_some (cc_max_age_seconds cc) then true
  else if shared (policy_config p) && is_some (cc_s_maxage_seconds cc) then true
  else existsb (Z.eqb (rs_status response)) HEURISTICALLY_CACHEABLE_STATUS_CODES.

Definition is_get_or_head (request : HttpRequest) : bool :=
  bytes_eqb (req_method request) (bs "GET") || bytes_eqb (req_method request) (bs "HEAD").

Definition matches_stale_request (p : CachePolicy) (request : HttpRequest) : bool :=
  is_storable p && bytes_eqb (rq_uri (policy_request p)) (req_url request) && is_get_or_head request.

(** [set_revalidation_headers]: the request with the validators of the stored response. *)
Definition set_revalidation_headers (p : CachePolicy) (request : HttpRequest) : HttpRequest :=
  let stored := rs_headers (policy_response p) in
  let headers := req_headers request in
  let headers :=
    match rsh_etag stored with
    | Some etag =>
        if etag_weak etag then headers
        else match header_from_bytes (etag_value etag) with Some header => hm_append headers (bs "if-none-match") header | None => headers end
    | None => headers
    end in
  let headers :=
    if hm_contains_key headers (bs "if-modified-since") then headers
    else
      match rsh_last_modified stored with
      | Some last_modified =>
          match unix_timestamp_to_header last_modified with Some header => hm_insert headers (bs "if-modified-since") header | None => headers end
      | None => headers
      end in
  mkHttpRequest (req_url request) (req_method request) headers.

Definition new_cache_policy_builder (p : CachePolicy) (now : SystemTime) (request : HttpRequest) : outcome CachePolicyBuilder :=
  let! r := request_from now request in
  Ret (mkBuilder (policy_config p) r (req_headers request)).

Inductive BeforeRequest := Fresh | Stale (builder : CachePolicyBuilder) | NoMatch.

(** [before_request]: the answer, and the request as it is then.  The clock is read
    at the start, and again by the builder. *)
Definition before_request (p : CachePolicy) (now later : SystemTime) (request : HttpRequest) : outcome (BeforeRequest * HttpRequest) :=
  let stale :=
    let request := set_revalidation_headers p request in
    let! builder := new_cache_policy_builder p later request in
    Ret (Stale builder, request) in
  if negb (is_storable p) then Ret (NoMatch, request)
  else if negb (bytes_eqb (rq_uri (policy_request p)) (req_url request)) then Ret (NoMatch, request)
  else if negb (is_get_or_head request) then Ret (NoMatch, request)
  else if negb (vary_matches (policy_vary p) (req_headers request)) then stale
  else if cc_no_cache (rsh_cc (rs_headers (policy_response p))) then stale
  else
    let! fresh := is_fresh p now request in
    if fresh : bool then Ret (Fresh, request) else stale.

Definition is_modified (p new_policy : CachePolicy) : bool :=
  let old := rs_headers (policy_response p) in
  let new := rs_headers (policy_response new_policy) in
  if negb (rs_status (policy_response new_policy) =? 304) then true
  else if match rsh_etag old, rsh_etag new with
          | Some old_etag, Some new_etag => negb (etag_weak old_etag) && negb (etag_weak new_etag) && bytes_eqb (etag_value old_etag) (etag_value new_etag)
          | _, _ => false
          end then false
  else if match rsh_last_modified old, rsh_last_modified new with
          | Some old_last_modified, Some new_last_modified => old_last_modified =? new_last_modified
          | _, _ => false
          end then false
  else if is_none (rsh_etag old) && is_none (rsh_etag new) && is_none (rsh_last_modified old) && is_none (rsh_last_modified new) then false
  else true.

Inductive AfterResponse := NotModified (policy : CachePolicy) | Modified (policy : CachePolicy).

Definition with_status (p : CachePolicy) (status : Z) : CachePolicy :=
  let r := policy_response p in
  mkPolicy (policy_config p) (policy_request p) (mkResponse status (rs_headers r) (rs_unix_timestamp r)) (policy_vary p).

Definition after_response (p : CachePolicy) (now : SystemTime) (builder : CachePolicyBuilder) (response : HttpResponse) : outcome AfterResponse :=
  let! new_policy := builder_build now builder response in
  if is_modified p new_policy then Ret (Modified new_policy)
  else Ret (NotModified (with_status new_policy (rs_status (policy_response p)))).
End cache.
Arguments BeforeRequest : clear implicits.
Arguments HttpRequest : clear implicits.
Arguments HttpResponse : clear implicits.
Arguments CachePolicyBuilder : clear implicits.
