(* ===== verification/CachePolicyTheorems.v ===== *)
(** * What the HTTP cache promises

    The age of a stored response is that of RFC 9111, freshness only expires, a
    response is served for exactly its lifetime, and a validating exchange changes
    nothing but the validators of the request. *)

From Stdlib Require Import ZArith Lia String.
From stdpp Require Import base list gmap.
From S2P Require Import Prelude.
From S2P Require Import CacheControl.
From S2P Require Import CachePolicy.
Open Scope Z_scope.

(** ** Numbers *)

Definition u64_option (o : option Z) : Prop := match o with Some n => is_u64 n | None => True end.

Lemma parse_uint_u64 s m : parse_uint u64_max s = Some m -> is_u64 m.
Proof. intros [E _]%parse_uint_bound; [exact E|unfold u64_max; lia]. Qed.

Lemma parse_int_bound s m : cc_parse_int s = Some m -> is_u64 m.
Proof. unfold cc_parse_int. destruct (negb _); [done|]. apply parse_uint_u64. Qed.

(** The numbers of parsed directives are [u64]. *)
Definition cc_ok (cc : CacheControl) : Prop :=
  u64_option (cc_max_age_seconds cc) /\ u64_option (cc_max_stale_seconds cc) /\ u64_option (cc_min_fresh_seconds cc) /\ u64_option (cc_s_maxage_seconds cc).

Lemma apply_directive_ok cc d : cc_ok cc -> cc_ok (apply_directive cc d).
Proof.
  assert (U : is_u64 u64_max) by (unfold is_u64, u64_max; lia). pose proof (parse_int_bound (directive_value d)) as Hp. destruct cc. unfold cc_ok. cbn. intros (? & ? & ? & ?).
  unfold apply_directive. repeat match goal with |- context [if ?b then _ else _] => destruct b end; try (by cbn); try (destruct (directive_value d) eqn:Ev; [by cbn|rewrite <- Ev in *]);
    destruct (cc_parse_int _) eqn:E; cbn; by repeat split; try apply Hp.
Qed.

Lemma from_headers_ok headers : exists cc, cache_control_from_headers headers = Ret cc /\ cc_ok cc.
Proof.
  unfold cache_control_from_headers. destruct (collect_total (bytes_left (cache_parser_new headers)) (cache_parser_new headers) (le_n _)) as (l & ->). eexists. split; [reflexivity|].
  unfold from_directives. assert (G : forall cc, cc_ok cc -> cc_ok (fold_left apply_directive l cc)) by (induction l as [|d l IH]; intros cc Hcc; cbn; [done|]; by apply IH, apply_directive_ok).
  apply G. done.
Qed.

(** ** Policies *)

Record policy_ok (p : CachePolicy) : Prop := {
  ok_request_time : is_u64 (rq_unix_timestamp (policy_request p));
  ok_response_time : is_u64 (rs_unix_timestamp (policy_response p));
  ok_request_cc : cc_ok (rqh_cc (rq_headers (policy_request p)));
  ok_response_cc : cc_ok (rsh_cc (rs_headers (policy_response p)));
  ok_age : u64_option (rsh_age_seconds (rs_headers (policy_response p)));
  ok_date : u64_option (rsh_date (rs_headers (policy_response p)));
  ok_expires : u64_option (rsh_expires (rs_headers (policy_response p)));
}.

Section policies.
Context {H T : Type} `{!HeaderMap H} `{!HeaderValues} `{!HttpDates T}.
Implicit Types (p : CachePolicy) (q : HttpRequest H) (r : HttpResponse H).

(** Times of a clock after the epoch and before the year 584 billion. *)
Definition time_ok (t : SystemTime) : Prop := 0 <= t /\ t / 1000000000 <= u64_max.

Lemma unix_timestamp_ok t : time_ok t -> unix_timestamp t = Ret (t / 1000000000) /\ is_u64 (t / 1000000000).
Proof.
  intros [H1 H2]. unfold unix_timestamp. destruct (t <? 0) eqn:E; [lia|]. split; [done|]. unfold is_u64. pose proof (Z.div_pos t 1000000000 H1 ltac:(lia)). lia.
Qed.

Lemma request_from_ok t q : time_ok t -> exists rq, request_from t q = Ret rq /\ rq_uri rq = req_url q /\ rq_method rq = method_from (req_method q) /\
  cache_control_of (req_headers q) = Ret (rqh_cc (rq_headers rq)) /\ cc_ok (rqh_cc (rq_headers rq)) /\ rq_unix_timestamp rq = t / 1000000000.
Proof.
  intros Ht. destruct (unix_timestamp_ok t Ht) as [Et _]. unfold request_from, request_headers_from. destruct (from_headers_ok (hm_get_all (req_headers q) (bs "cache-control"))) as (cc & E & Hcc).
  unfold cache_control_of. rewrite E. cbn [obind]. rewrite Et. cbn [obind]. eexists. split; [reflexivity|]. done.
Qed.

Lemma date_header_ok m name : u64_option (date_header (T := T) m name).
Proof.
  unfold date_header, rfc2822_to_unix_timestamp. destruct (hm_get m name); [|done]. destruct (header_to_str _); [|done]. destruct (dt_parse_rfc2822 _); [|done].
  destruct (_ && _) eqn:E; [|done]. cbn. unfold is_u64. lia.
Qed.

Lemma response_from_ok t r : time_ok t -> exists rs, response_from (T := T) t r = Ret rs /\ rs_status rs = resp_status r /\ rs_unix_timestamp rs = t / 1000000000 /\
  response_headers_from (T := T) (resp_headers r) = Ret (rs_headers rs) /\ cache_control_of (resp_headers r) = Ret (rsh_cc (rs_headers rs)) /\ cc_ok (rsh_cc (rs_headers rs)) /\
  u64_option (rsh_age_seconds (rs_headers rs)) /\ u64_option (rsh_date (rs_headers rs)) /\ u64_option (rsh_expires (rs_headers rs)).
Proof.
  intros Ht. destruct (unix_timestamp_ok t Ht) as [Et _]. unfold response_from, response_headers_from. destruct (from_headers_ok (hm_get_all (resp_headers r) (bs "cache-control"))) as (cc & E & Hcc).
  unfold cache_control_of. rewrite E. cbn [obind]. rewrite Et. cbn [obind]. eexists. split; [reflexivity|]. cbn. repeat split; try done; try apply Hcc; try apply date_header_ok.
  destruct (hm_get _ _) as [v|]; [|done]. unfold parse_seconds. destruct (negb _); [done|]. destruct (parse_uint _ _) eqn:Ep; [|done]. by apply parse_uint_u64 in Ep.
Qed.

Lemma build_ok t b r : time_ok t -> exists p, builder_build (T := T) t b r = Ret p /\ policy_config p = builder_config b /\ policy_request p = builder_request b /\
  rs_status (policy_response p) = resp_status r /\ rs_unix_timestamp (policy_response p) = t / 1000000000 /\
  response_headers_from (T := T) (resp_headers r) = Ret (rs_headers (policy_response p)) /\
  policy_vary p = vary_from_request_response_headers (builder_request_headers b) (resp_headers r) /\
  (is_u64 (rq_unix_timestamp (builder_request b)) -> cc_ok (rqh_cc (rq_headers (builder_request b))) -> policy_ok p).
Proof.
  intros Ht. destruct (response_from_ok t r Ht) as (rs & F0 & F1 & F2 & F8 & F3 & F4 & F5 & F6 & F7). unfold builder_build. rewrite F0. cbn [obind]. eexists. split; [reflexivity|].
  cbn. repeat (split; [done|]). intros Hq Hc. split; cbn; try done. rewrite F2. by apply unix_timestamp_ok.
Qed.

(** ** Age *)

(** The age of RFC 9111, section 4.2.3, in seconds and without bounds: of a response
    received at [received] to a request sent at [requested], with the [Date] and [Age]
    of its headers, at [now]. *)
Definition rfc9111_age (requested received now : Z) (date age : option Z) : Z :=
  let apparent_age := Z.max 0 (received - default received date) in
  let response_delay := received - requested in
  let corrected_age_value := default 0 age + response_delay in
  Z.max apparent_age corrected_age_value + (now - received).

Definition rfc_age p (now : Z) : Z :=
  rfc9111_age (rq_unix_timestamp (policy_request p)) (rs_unix_timestamp (policy_response p)) now
    (rsh_date (rs_headers (policy_response p))) (rsh_age_seconds (rs_headers (policy_response p))).

Lemma header_date_ok p : policy_ok p -> is_u64 (header_date (policy_response p)).
Proof. intros []. unfold header_date. destruct (rsh_date _); [done|]. done. Qed.

Lemma header_age_ok p : policy_ok p -> is_u64 (header_age (policy_response p)).
Proof. intros []. unfold header_age. destruct (rsh_age_seconds _); [done|]. cbn. unfold is_u64, u64_max. lia. Qed.

Lemma policy_age_rfc p now : policy_ok p -> time_ok now ->
  rq_unix_timestamp (policy_request p) <= rs_unix_timestamp (policy_response p) <= now / 1000000000 ->
  policy_age p now = Ret (Z.min u64_max (rfc_age p (now / 1000000000))).
Proof.
  intros Hp Hn Ht. pose proof (header_date_ok p Hp) as Hd. pose proof (header_age_ok p Hp) as Ha. destruct Hp as [Hq Hs _ _ _ _ _]. destruct (unix_timestamp_ok now Hn) as [E Hu].
  unfold policy_age, rfc_age, rfc9111_age, saturating_add, saturating_sub. rewrite E. cbn [obind]. f_equal.
  unfold header_date, header_age in *. unfold is_u64 in *. lia.
Qed.

(** The age of any policy at any time is a number, and no less at a later time. *)
Lemma policy_age_mono p now now' : 0 <= now <= now' -> exists a a', policy_age p now = Ret a /\ policy_age p now' = Ret a' /\ a <= a'.
Proof.
  intros Hn. unfold policy_age, unix_timestamp. destruct (now <? 0) eqn:E1; [lia|]. destruct (now' <? 0) eqn:E2; [lia|]. cbn [obind]. eexists _, _. split; [reflexivity|]. split; [reflexivity|].
  pose proof (Z.div_le_mono now now' 1000000000 ltac:(lia) ltac:(lia)). unfold saturating_add, saturating_sub. lia.
Qed.

Lemma freshness_lifetime_ok p : policy_ok p -> is_u64 (freshness_lifetime p).
Proof.
  intros Hp. pose proof (header_date_ok p Hp) as Hd. destruct Hp as [_ _ _ (Hm & _ & _ & Hs) _ _ He]. unfold freshness_lifetime.
  destruct (if shared _ then _ else _) eqn:E; [destruct (shared _); [by rewrite E in Hs|done]|]. destruct (cc_max_age_seconds _); [done|].
  destruct (rsh_expires _); [|destruct (rsh_last_modified _); unfold is_u64, heuristic_lifetime, u64_max; lia]. cbn in He. unfold is_u64, saturating_sub in *. lia.
Qed.

(** ** Freshness *)

Lemma cache_control_of_total (m : H) : exists cc, cache_control_of m = Ret cc /\ cc_ok cc.
Proof. apply from_headers_ok. Qed.

Lemma allows_stale_mono p now now' : 0 <= now <= now' -> exists b b', allows_stale p now = Ret b /\ allows_stale p now' = Ret b' /\ (b' = true -> b = true).
Proof.
  intros Hn. destruct (policy_age_mono p now now' Hn) as (a & a' & E & E' & Ha). unfold allows_stale. destruct (cc_must_revalidate _); [by exists false, false|].
  destruct (cc_max_stale_seconds _); [|by exists false, false]. rewrite E, E'. cbn [obind]. eexists _, _. split; [reflexivity|]. split; [reflexivity|]. unfold saturating_sub. lia.
Qed.

Lemma request_allows_mono p a a' now now' q : 0 <= now <= now' -> a <= a' ->
  exists b b', request_allows p a now q = Ret b /\ request_allows p a' now' q = Ret b' /\ (b' = true -> b = true).
Proof.
  intros Hn Ha. unfold request_allows, unix_timestamp. destruct (cc_immutable _); [by exists true, true|]. destruct (cache_control_of_total (req_headers q)) as (cc & -> & _). cbn [obind].
  destruct (cc_no_cache cc); [by exists false, false|]. pose proof (Z.div_le_mono now now' 1000000000 ltac:(lia) ltac:(lia)).
  destruct (now <? 0) eqn:E1; [lia|]. destruct (now' <? 0) eqn:E2; [lia|]. unfold saturating_sub.
  destruct (cc_max_age_seconds cc) as [m|], (cc_min_fresh_seconds cc) as [f|]; cbn [obind];
    try destruct (m <? a) eqn:Em; try destruct (m <? a') eqn:Em'; eexists _, _; (split; [reflexivity|]); (split; [reflexivity|]); lia.
Qed.

Lemma is_fresh_mono p now now' q : 0 <= now <= now' -> exists b b', is_fresh p now q = Ret b /\ is_fresh p now' q = Ret b' /\ (b' = true -> b = true).
Proof.
  intros Hn. destruct (policy_age_mono p now now' Hn) as (a & a' & E & E' & Ha). destruct (request_allows_mono p a a' now now' q Hn Ha) as (c & c' & F & F' & Hc).
  destruct (allows_stale_mono p now now' Hn) as (d & d' & G & G' & Hd). unfold is_fresh. rewrite E, E'. cbn [obind]. rewrite F, F'. cbn [obind]. rewrite G, G'.
  destruct c'; cbn [negb]; [|destruct c; cbn [negb]; [destruct (_ <=? a); by eexists _, _|by eexists _, _]]. rewrite (Hc eq_refl). cbn [negb].
  destruct (freshness_lifetime p <=? a) eqn:L, (freshness_lifetime p <=? a') eqn:L'; try lia; by eexists _, _.
Qed.

(** ** Before a request *)

Lemma builder_total p t q : time_ok t -> exists b, new_cache_policy_builder p t q = Ret b /\ builder_config b = policy_config p /\ builder_request_headers b = req_headers q /\
  request_from t q = Ret (builder_request b).
Proof. intros Ht. destruct (request_from_ok t q Ht) as (rq & E & _). unfold new_cache_policy_builder. rewrite E. cbn [obind]. by eexists. Qed.

(** What a cache answers, by the conditions it tests. *)
Lemma before_request_cases p now later q : time_ok now -> time_ok later ->
  exists b f, new_cache_policy_builder p later (set_revalidation_headers (T := T) p q) = Ret b /\ is_fresh p now q = Ret f /\
  before_request (T := T) p now later q =
    Ret (if negb (matches_stale_request p q) then (NoMatch, q)
         else if vary_matches (policy_vary p) (req_headers q) && negb (cc_no_cache (rsh_cc (rs_headers (policy_response p)))) && f then (Fresh, q)
         else (Stale b, set_revalidation_headers (T := T) p q)).
Proof.
  intros Hn Hl. destruct (builder_total p later (set_revalidation_headers (T := T) p q) Hl) as (b & E & _). destruct (is_fresh_mono p now now q) as (f & _ & F & _); [destruct Hn; lia|].
  exists b, f. split; [done|]. split; [done|]. unfold before_request, matches_stale_request. rewrite E, F. cbn [obind]. destruct (is_storable p); [|done]. destruct (bytes_eqb _ (req_url q)); [|done].
  destruct (is_get_or_head q); [|done]. cbn [andb negb]. destruct (vary_matches _ _); [|done]. destruct (cc_no_cache _); [done|]. by destruct f.
Qed.

(** A cache answers every request at every time, and freshness only expires: a
    stored response that is used at some time is used for the same request at every
    earlier time, and whether it belongs to a request does not depend on the time. *)
Theorem freshness_only_expires p now now' later later' q : time_ok now -> time_ok now' -> now <= now' -> time_ok later -> time_ok later' ->
  exists a q1 a' q2, before_request (T := T) p now later q = Ret (a, q1) /\ before_request (T := T) p now' later' q = Ret (a', q2) /\
  (a' = Fresh -> a = Fresh) /\ (a = NoMatch <-> matches_stale_request p q = false) /\ (a' = NoMatch <-> matches_stale_request p q = false).
Proof.
  intros Hn Hn' Hle Hl Hl'. destruct (before_request_cases p now later q Hn Hl) as (b & f & _ & F & E). destruct (before_request_cases p now' later' q Hn' Hl') as (b' & f' & _ & F' & E').
  destruct (is_fresh_mono p now now' q) as (g & g' & G & G' & Hg); [destruct Hn; lia|]. rewrite F in G. rewrite F' in G'. injection G as <-. injection G' as <-. rewrite E, E'.
  destruct (matches_stale_request p q); cbn [negb]; [|by repeat eexists].
  destruct (_ && negb _); cbn [andb]; [|by repeat eexists]. destruct f'; [rewrite (Hg eq_refl)|destruct f]; by repeat eexists.
Qed.

(** ** Served responses *)

(** The freshness lifetime of RFC 9111, section 4.2.1, from what a policy keeps of the
    response: [s-maxage] in a shared cache, [max-age], [Expires] from the [Date] on (or
    from the time of the response), and ten minutes for a response with a
    [Last-Modified], which is heuristic.  An [Expires] that is not a date is not kept,
    so that it counts as none. *)
Definition no_shared_age p : Prop := shared (policy_config p) = false \/ cc_s_maxage_seconds (rsh_cc (rs_headers (policy_response p))) = None.

Inductive lifetime p : Z -> Prop :=
| lifetime_shared n : shared (policy_config p) = true -> cc_s_maxage_seconds (rsh_cc (rs_headers (policy_response p))) = Some n -> lifetime p n
| lifetime_max_age n : no_shared_age p -> cc_max_age_seconds (rsh_cc (rs_headers (policy_response p))) = Some n -> lifetime p n
| lifetime_expires e : no_shared_age p -> cc_max_age_seconds (rsh_cc (rs_headers (policy_response p))) = None ->
    rsh_expires (rs_headers (policy_response p)) = Some e ->
    lifetime p (Z.max 0 (e - default (rs_unix_timestamp (policy_response p)) (rsh_date (rs_headers (policy_response p)))))
| lifetime_heuristic m : no_shared_age p -> cc_max_age_seconds (rsh_cc (rs_headers (policy_response p))) = None ->
    rsh_expires (rs_headers (policy_response p)) = None -> rsh_last_modified (rs_headers (policy_response p)) = Some m -> lifetime p 600
| lifetime_none : no_shared_age p -> cc_max_age_seconds (rsh_cc (rs_headers (policy_response p))) = None ->
    rsh_expires (rs_headers (policy_response p)) = None -> rsh_last_modified (rs_headers (policy_response p)) = None -> lifetime p 0.

Lemma freshness_lifetime_is p : lifetime p (freshness_lifetime p).
Proof.
  assert (Hs : (if shared (policy_config p) then cc_s_maxage_seconds (rsh_cc (rs_headers (policy_response p))) else None) = None -> no_shared_age p).
  { unfold no_shared_age. by destruct (shared _); [right|left]. }
  unfold freshness_lifetime. destruct (if shared _ then _ else _) as [n|] eqn:E; [destruct (shared (policy_config p)) eqn:S; [by apply lifetime_shared|done]|]. specialize (Hs eq_refl).
  destruct (cc_max_age_seconds _) as [n|] eqn:A; [by apply lifetime_max_age|]. destruct (rsh_expires _) as [e|] eqn:X; [by apply lifetime_expires|].
  destruct (rsh_last_modified _) as [m|] eqn:M; [by eapply lifetime_heuristic|by apply lifetime_none].
Qed.

(** The directives of a request: its [no-cache] and [max-age], and the freshness it asks for. *)
Record request_satisfied (reqcc : CacheControl) (now age n : Z) : Prop := {
  satisfied_no_cache : cc_no_cache reqcc = false;
  satisfied_max_age : forall max_age, cc_max_age_seconds reqcc = Some max_age -> age <= max_age;
  satisfied_min_fresh : forall min_fresh, cc_min_fresh_seconds reqcc = Some min_fresh -> age <= now -> min_fresh <= n - age;
}.

(** Status codes that RFC 9110, section 15.1, lets a cache keep without an explicit lifetime. *)
Definition heuristic_status : list Z := [200; 203; 204; 206; 300; 301; 308; 404; 405; 410; 414; 501].

(** What makes a stored response usable for a request without asking the server. *)
Record may_be_served p (now : SystemTime) q : Prop := {
  served_uri : rq_uri (policy_request p) = req_url q;
  served_method : is_get_or_head q = true /\ rq_method (policy_request p) <> Unrecognized;
  served_status : 200 <= rs_status (policy_response p) /\ rs_status (policy_response p) <> 206 /\ rs_status (policy_response p) <> 304;
  served_stored : cc_no_store (rqh_cc (rq_headers (policy_request p))) = false /\ cc_no_store (rsh_cc (rs_headers (policy_response p))) = false;
  served_shared : shared (policy_config p) = true -> cc_private (rsh_cc (rs_headers (policy_response p))) = false /\
    (rqh_authorization (rq_headers (policy_request p)) = true -> cc_must_revalidate (rsh_cc (rs_headers (policy_response p))) = true \/
      cc_public (rsh_cc (rs_headers (policy_response p))) = true \/ cc_s_maxage_seconds (rsh_cc (rs_headers (policy_response p))) <> None);
  served_cacheable : cc_public (rsh_cc (rs_headers (policy_response p))) = true \/ cc_private (rsh_cc (rs_headers (policy_response p))) = true \/
    rsh_expires (rs_headers (policy_response p)) <> None \/ cc_max_age_seconds (rsh_cc (rs_headers (policy_response p))) <> None \/
    cc_s_maxage_seconds (rsh_cc (rs_headers (policy_response p))) <> None \/ In (rs_status (policy_response p)) heuristic_status;
  served_selected : Forall (fun f => vary_name f <> bs "*" /\ vary_value f = default [] (hm_get (req_headers q) (vary_name f))) (policy_vary p);
  served_validated : cc_no_cache (rsh_cc (rs_headers (policy_response p))) = false;
  served_fresh : exists n, lifetime p n /\ rfc_age p (now / 1000000000) < n /\
    (cc_immutable (rsh_cc (rs_headers (policy_response p))) = true \/
     exists reqcc, cache_control_of (req_headers q) = Ret reqcc /\ request_satisfied reqcc (now / 1000000000) (rfc_age p (now / 1000000000)) n);
}.

Lemma vary_matches_spec fields (m : H) : vary_matches fields m = true <->
  Forall (fun f => vary_name f <> bs "*" /\ vary_value f = default [] (hm_get m (vary_name f))) fields.
Proof.
  induction fields as [|f fields IH]; cbn [vary_matches]; [by split|]. rewrite Forall_cons, <- IH. destruct (bytes_eqb (vary_name f) _) eqn:E1; [apply bytes_eqb_eq in E1; naive_solver|].
  destruct (bytes_eqb (vary_value f) _) eqn:E2; cbn [negb]; [apply bytes_eqb_eq in E2|].
  - split; [|naive_solver]. intros Hv. split; [|done]. split; [|done]. intros Hs. apply bytes_eqb_eq in Hs. congruence.
  - split; [done|]. intros [[_ Hs] _]. apply bytes_eqb_eq in Hs. congruence.
Qed.

Lemma storable_conditions p : is_storable p = true -> rq_method (policy_request p) <> Unrecognized /\
  (200 <= rs_status (policy_response p) /\ rs_status (policy_response p) <> 206 /\ rs_status (policy_response p) <> 304) /\
  cc_no_store (rqh_cc (rq_headers (policy_request p))) = false /\ cc_no_store (rsh_cc (rs_headers (policy_response p))) = false.
Proof.
  unfold is_storable, has_final_status. destruct (rq_method _); [..|done]; (destruct (200 <=? rs_status _) eqn:E; [|done]); cbn [negb];
    (destruct (_ || _) eqn:E2; [done|]); (destruct (cc_no_store (rqh_cc _)); [done|]); (destruct (cc_no_store _); [done|]); try done; intros _; (split; [done|]); (split; [lia|done]).
Qed.

Lemma storable_cacheable p : is_storable p = true ->
  (shared (policy_config p) = true -> cc_private (rsh_cc (rs_headers (policy_response p))) = false /\
    (rqh_authorization (rq_headers (policy_request p)) = true -> cc_must_revalidate (rsh_cc (rs_headers (policy_response p))) = true \/
      cc_public (rsh_cc (rs_headers (policy_response p))) = true \/ cc_s_maxage_seconds (rsh_cc (rs_headers (policy_response p))) <> None)) /\
  (cc_public (rsh_cc (rs_headers (policy_response p))) = true \/ cc_private (rsh_cc (rs_headers (policy_response p))) = true \/
    rsh_expires (rs_headers (policy_response p)) <> None \/ cc_max_age_seconds (rsh_cc (rs_headers (policy_response p))) <> None \/
    cc_s_maxage_seconds (rsh_cc (rs_headers (policy_response p))) <> None \/ In (rs_status (policy_response p)) heuristic_status).
Proof.
  unfold is_storable, allows_authorization_storage. set (cc := rsh_cc (rs_headers (policy_response p))).
  destruct (match rq_method _ with Unrecognized => true | _ => false end); [done|]. destruct (negb (has_final_status _)); [done|]. destruct (_ || (_ =? 304)); [done|].
  destruct (cc_no_store (rqh_cc _)); [done|]. destruct (cc_no_store cc); [done|]. intros Hst.
  destruct (shared (policy_config p) && cc_private cc) eqn:E1; [done|]. destruct (shared _ && rqh_authorization _ && negb _) eqn:E2; [done|]. split.
  - intros S. rewrite S in E1, E2. cbn [andb] in E1, E2. split; [done|]. intros A. rewrite A in E2. cbn [andb] in E2. apply negb_false_iff, orb_true_iff in E2 as [E2|E2].
    + apply orb_true_iff in E2 as [E2|E2]; auto.
    + right; right. by destruct (cc_s_maxage_seconds cc).
  - destruct (cc_public cc); [by left|right]. destruct (cc_private cc); [by left|right]. rewrite andb_false_r in Hst. destruct (rsh_expires _); [by left|right]. cbn [is_some] in Hst.
    destruct (cc_max_age_seconds cc); [by left|right]. cbn [is_some] in Hst. destruct (cc_s_maxage_seconds cc); [by left|right]. cbn [is_some] in Hst. rewrite andb_false_r in Hst.
    apply existsb_exists in Hst as (x & Hx & ->%Z.eqb_eq). exact Hx.
Qed.

(** What the directives of the request ask for, when they are not ignored. *)
Lemma request_allows_satisfied p age now q : request_allows p age now q = Ret true -> 0 <= now -> age < freshness_lifetime p -> is_u64 (freshness_lifetime p) ->
  cc_immutable (rsh_cc (rs_headers (policy_response p))) = true \/
  exists reqcc, cache_control_of (req_headers q) = Ret reqcc /\ request_satisfied reqcc (now / 1000000000) age (freshness_lifetime p).
Proof.
  unfold request_allows. intros R Hn Ha Hl. destruct (cc_immutable _); [by left|right]. destruct (cache_control_of_total (req_headers q)) as (reqcc & E & Hcc). rewrite E in R. cbn [obind] in R.
  exists reqcc. split; [done|]. destruct (cc_no_cache reqcc) eqn:Nc; [done|]. split; [done| |].
  - intros m Em. rewrite Em in R. destruct (m <? age) eqn:Lt; [done|]. lia.
  - intros f Ef Hle. rewrite Ef in R. destruct (match cc_max_age_seconds reqcc with Some _ => _ | None => _ end); [done|].
    unfold unix_timestamp in R. destruct (now <? 0) eqn:Neg; [lia|]. cbn [obind] in R. injection R as R%negb_true_iff. unfold saturating_sub in R. lia.
Qed.


(** ** Selected responses *)

(** The names in the values of the [Vary] headers of a response. *)
Definition vary_names (response : H) : list (list Z) :=
  flat_map (fun header => match header_to_str header with Some csv => map (fun name => map to_ascii_lowercase (trim name)) (split_on 44 csv) | None => [] end)
    (hm_get_all response (bs "vary")).

Definition same_values (request request' : H) (names : list (list Z)) : Prop :=
  Forall (fun n => n <> bs "*" /\ default [] (hm_get request n) = default [] (hm_get request' n)) names.

Lemma vary_fields_selects (request request' : H) names :
  match vary_fields request names with
  | Some fields => vary_matches fields request' = true <-> same_values request request' (map (fun name => map to_ascii_lowercase (trim name)) names)
  | None => bs "*" ∈ map (fun name => map to_ascii_lowercase (trim name)) names
  end.
Proof.
  induction names as [|n names IH]; cbn [vary_fields map]; [by split; [constructor|]|]. destruct (bytes_eqb _ (bs "*")) eqn:E; [apply bytes_eqb_eq in E; rewrite E; by left|].
  destruct (vary_fields request names) as [fields|]; cbn [option_map]; [|by right]. unfold same_values in *. rewrite Forall_cons, <- IH. rewrite !vary_matches_spec, Forall_cons. done.
Qed.

Lemma vary_headers_selects (request request' : H) headers :
  let names := flat_map (fun header => match header_to_str header with Some csv => map (fun name => map to_ascii_lowercase (trim name)) (split_on 44 csv) | None => [] end) headers in
  match vary_headers request headers with
  | Some fields => vary_matches fields request' = true <-> same_values request request' names
  | None => bs "*" ∈ names
  end.
Proof.
  cbv zeta. induction headers as [|h headers IH]; cbn [vary_headers flat_map]; [by split; [constructor|]|]. destruct (header_to_str h) as [csv|]; [|exact IH].
  pose proof (vary_fields_selects request request' (split_on 44 csv)) as Hf. destruct (vary_fields request _) as [fields|]; [|apply elem_of_app; by left].
  destruct (vary_headers request headers) as [rest|]; cbn [option_map]; [|apply elem_of_app; by right]. unfold same_values in *. rewrite Forall_app, <- Hf, <- IH, !vary_matches_spec. apply Forall_app.
Qed.

(** A response is selected for the requests that have, for each header it varies on,
    the value that the request it answered had.  The headers are those of all its [Vary]
    values, without regard to case and to white space, an absent header counts as an
    empty one, and a response that varies on [*] is selected for no request. *)
Theorem vary_selects (request response request' : H) :
  vary_matches (vary_from_request_response_headers request response) request' = true <->
  (bs "*" ∉ vary_names response) /\ forall n, n ∈ vary_names response -> default [] (hm_get request n) = default [] (hm_get request' n).
Proof.
  assert (E : vary_matches (vary_from_request_response_headers request response) request' = true <-> same_values request request' (vary_names response)).
  { unfold vary_from_request_response_headers. pose proof (vary_headers_selects request request' (hm_get_all response (bs "vary"))) as Hv. cbv zeta in Hv. destruct (vary_headers _ _) as [fields|]; cbn [default]; [exact Hv|].
    split; [done|]. intros Hs. unfold same_values in Hs. rewrite Forall_forall in Hs. by destruct (Hs _ Hv). }
  rewrite E. unfold same_values. rewrite Forall_forall. split; [|naive_solver]. intros Hs. split; [|intros n Hn; by apply Hs]. intros Hin. by destruct (Hs _ Hin).
Qed.

(** ** Explicit lifetimes *)

(** A request that lets the cache decide. *)
Record plain_request q (url : list Z) : Prop := {
  plain_url : req_url q = url;
  plain_method : is_get_or_head q = true;
  plain_cc : hm_get_all (req_headers q) (bs "cache-control") = [];
}.

(** Directives that are all read, each once, with their seconds as numbers. *)
Definition seconds_readable (d : CacheControlDirective) : bool :=
  if existsb (fun name => bytes_eqb (directive_name d) (bs name)) ["max-age"; "s-maxage"; "max-stale"; "min-fresh"]%string then is_some (cc_parse_int (directive_value d)) else true.
Definition all_readable (items : list (option CacheControlDirective)) : bool :=
  negb (irregular ∅ items) && forallb (fun item => match item with Some d => seconds_readable d | None => false end) items.

(** A response that says how long it is valid, and for every request: its [Cache-Control]
    values are those of the grammar, with each directive once. *)
Record explicit_response r (max_age : Z) : Prop := {
  explicit_cc : exists hs, Forall header_ok hs /\ hm_get_all (resp_headers r) (bs "cache-control") = map header_text hs /\ all_readable (headers_items hs) = true /\
    let cc := cache_control_meaning (headers_items hs) in cc_max_age_seconds cc = Some max_age /\ cc_no_store cc = false /\ cc_no_cache cc = false;
  explicit_vary : hm_get_all (resp_headers r) (bs "vary") = [];
}.

Definition cacheable_status (status : Z) : Prop := 200 <= status /\ status <> 206 /\ status <> 304.

(** The [Age] of a response. *)
Definition age_header r : option Z := match hm_get (resp_headers r) (bs "age") with Some header => parse_seconds header | None => None end.

Lemma plain_no_cc q url : plain_request q url -> cache_control_of (req_headers q) = Ret cache_control_default.
Proof. intros [_ _ E]. unfold cache_control_of. by rewrite E. Qed.

Lemma storable_explicit p n : shared (policy_config p) = false -> rq_method (policy_request p) <> Unrecognized -> cacheable_status (rs_status (policy_response p)) ->
  cc_no_store (rqh_cc (rq_headers (policy_request p))) = false -> cc_no_store (rsh_cc (rs_headers (policy_response p))) = false ->
  cc_max_age_seconds (rsh_cc (rs_headers (policy_response p))) = Some n -> is_storable p = true.
Proof.
  intros Hs Hm (S1 & S2 & S3) N1 N2 Ha. unfold is_storable, has_final_status. rewrite Hs, N1, N2, Ha. apply Z.leb_le in S1. apply Z.eqb_neq in S2, S3. rewrite S1, S2, S3. cbn [andb orb negb is_some].
  destruct (rq_method _); [..|done]; (destruct (cc_public _); [done|]); (destruct (cc_private _); [done|]); by destruct (is_some (rsh_expires _)).
Qed.

(** A policy with an explicit lifetime is fresh for exactly that long. *)
Lemma fresh_for p n url now later q : policy_ok p -> time_ok now -> time_ok later ->
  rq_unix_timestamp (policy_request p) <= rs_unix_timestamp (policy_response p) <= now / 1000000000 -> shared (policy_config p) = false ->
  cc_max_age_seconds (rsh_cc (rs_headers (policy_response p))) = Some n -> cc_no_store (rsh_cc (rs_headers (policy_response p))) = false ->
  cc_no_cache (rsh_cc (rs_headers (policy_response p))) = false -> rqh_cc (rq_headers (policy_request p)) = cache_control_default ->
  rq_method (policy_request p) <> Unrecognized -> cacheable_status (rs_status (policy_response p)) -> policy_vary p = [] -> rq_uri (policy_request p) = url -> plain_request q url ->
  exists b, before_request (T := T) p now later q =
    Ret (if rfc_age p (now / 1000000000) <? n then (Fresh, q) else (Stale b, set_revalidation_headers (T := T) p q)).
Proof.
  intros Hp Hn Hl Ht Hs Ha N1 N2 C1 Hm St V U Q. destruct (before_request_cases p now later q Hn Hl) as (b & f & _ & F & ->). exists b.
  assert (M : matches_stale_request p q = true).
  { unfold matches_stale_request. rewrite (storable_explicit p n) by (done || by rewrite C1). destruct Q as [Q1 Q2 _]. rewrite Q2, U, Q1. cbn [andb]. rewrite andb_true_r. by apply bytes_eqb_eq. }
  rewrite M, V, N2. cbn [negb vary_matches andb]. do 2 f_equal. enough (f = (rfc_age p (now / 1000000000) <? n)) as -> by done.
  assert (L : freshness_lifetime p = n) by (unfold freshness_lifetime; by rewrite Hs, Ha). pose proof (freshness_lifetime_ok p Hp) as Lu. rewrite L in Lu.
  unfold is_fresh, allows_stale, request_allows in F. rewrite (policy_age_rfc p now Hp Hn Ht), (plain_no_cc q url Q), C1, L in F. cbn in F. unfold is_u64 in Lu.
  destruct (cc_immutable _), (cc_must_revalidate _); cbn [obind negb] in F; destruct (n <=? Z.min _ _) eqn:E; injection F as <-; symmetry; first [apply Z.ltb_ge; lia|apply Z.ltb_lt; lia].
Qed.

Lemma method_known q : is_get_or_head q = true -> method_from (req_method q) <> Unrecognized.
Proof. unfold is_get_or_head, method_from. destruct (bytes_eqb _ (bs "GET")); [done|]. by destruct (bytes_eqb _ (bs "HEAD")). Qed.

(** What a policy keeps of the headers of a response. *)
Lemma response_headers_fields r h n : response_headers_from (T := T) (resp_headers r) = Ret h -> explicit_response r n ->
  cc_max_age_seconds (rsh_cc h) = Some n /\ cc_no_store (rsh_cc h) = false /\ cc_no_cache (rsh_cc h) = false /\
  rsh_date h = date_header (T := T) (resp_headers r) (bs "date") /\ rsh_age_seconds h = age_header r /\ rsh_etag h = option_map etag_parse (hm_get (resp_headers r) (bs "etag")).
Proof.
  intros E [(hs & Hhs & C & _ & Hcc) _]. unfold response_headers_from, cache_control_of in E. rewrite C, headers_meaning in E by done. cbn [obind] in E.
  injection E as <-. destruct Hcc as (? & ? & ?). by cbn.
Qed.

Lemma seconds_mono t t' : t <= t' -> t / 1000000000 <= t' / 1000000000.
Proof. intros. apply Z.div_le_mono; lia. Qed.

(** C33: A response with a [max-age] is served for exactly that long.  A [GET] or [HEAD]
    without [Cache-Control] was sent at [t0] and answered at [t1] with a final status
    other than 206 and 304, without [Vary], and with [Cache-Control] values that are
    readable, with no directive twice, with a [max-age] and without [no-cache] and
    [no-store].  Then a later [GET] or [HEAD] for the same URL without [Cache-Control] is
    answered from the cache while the age of RFC 9111, from the times of the exchange and
    the [Date] and [Age] of the response, is less than [max-age], and goes to the server
    from then on.  The clock does not go back from [t0] to [t1] to the request. *)
Theorem response_served_for_max_age t0 t1 now later q0 r q url n : time_ok t0 -> time_ok t1 -> time_ok now -> time_ok later -> t0 <= t1 <= now ->
  plain_request q0 url -> plain_request q url -> explicit_response r n -> cacheable_status (resp_status r) ->
  exists b p stale, builder_new t0 q0 = Ret b /\ builder_build (T := T) t1 b r = Ret p /\
  before_request (T := T) p now later q =
    Ret (if rfc9111_age (t0 / 1000000000) (t1 / 1000000000) (now / 1000000000) (date_header (T := T) (resp_headers r) (bs "date")) (age_header r) <? n
         then (Fresh, q) else (Stale stale, set_revalidation_headers (T := T) p q)).
Proof.
  intros Ht0 Ht1 Hn Hl Hle Q0 Q R St. destruct (request_from_ok t0 q0 Ht0) as (rq & E0 & E1 & E2 & E3 & E4 & E5). unfold builder_new. rewrite E0. cbn [obind].
  destruct (build_ok t1 (mkBuilder config_default rq (req_headers q0)) r Ht1) as (p & B & B1 & B2 & B3 & B4 & B5 & B6 & B7). cbn [builder_config builder_request builder_request_headers] in *.
  destruct (response_headers_fields r _ n B5 R) as (R1 & R2 & R3 & R4 & R5 & _).
  rewrite (plain_no_cc q0 url Q0) in E3. injection E3 as E3.
  destruct (fresh_for p n url now later q) as (stale & F); rewrite ?B1, ?B2, ?B3, ?B4, ?E5; try done.
  - apply B7; [|done]. rewrite E5. by apply unix_timestamp_ok.
  - split; apply seconds_mono; lia.
  - rewrite E2. apply method_known, Q0.
  - rewrite B6. unfold vary_from_request_response_headers. by rewrite (explicit_vary _ _ R).
  - rewrite E1. apply Q0.
  - eexists _, p, stale. split; [reflexivity|]. split; [done|]. rewrite F. unfold rfc_age. by rewrite B2, B4, E5, R4, R5.
Qed.

(** ** Validation *)

(** The validators a request gets. *)
Definition entity_validator p : list (list Z) :=
  match rsh_etag (rs_headers (policy_response p)) with
  | Some etag => if etag_weak etag then [] else match header_from_bytes (etag_value etag) with Some v => [v] | None => [] end
  | None => []
  end.
Definition date_validator p : list (list Z) :=
  match rsh_last_modified (rs_headers (policy_response p)) with
  | Some seconds => match unix_timestamp_to_header (T := T) seconds with Some v => [v] | None => [] end
  | None => []
  end.

Context `{!HeaderMapLaws H}.

Lemma revalidation_headers p q k : header_name_ok k = true ->
  hm_get_all (req_headers (set_revalidation_headers (T := T) p q)) k =
  if bytes_eqb (bs "if-none-match") k then hm_get_all (req_headers q) k ++ entity_validator p
  else if bytes_eqb (bs "if-modified-since") k then match hm_get_all (req_headers q) k with [] => date_validator p | values => values end
  else hm_get_all (req_headers q) k.
Proof.
  intros Hk. unfold set_revalidation_headers, entity_validator, date_validator. set (tagged := match rsh_etag _ with Some _ => _ | None => req_headers q end). cbn [req_headers].
  assert (E : forall k, header_name_ok k = true -> hm_get_all tagged k = if bytes_eqb (bs "if-none-match") k then hm_get_all (req_headers q) k ++ entity_validator p else hm_get_all (req_headers q) k).
  { intros k' Hk'. unfold tagged, entity_validator. destruct (rsh_etag _) as [etag|]; [destruct (etag_weak etag)|]; [|destruct (header_from_bytes _)|]; rewrite ?app_nil_r; try (by destruct (bytes_eqb _ _)). by rewrite hm_append_law. }
  fold (entity_validator p). rewrite hm_contains_key_law, E by done. change (bytes_eqb (bs "if-none-match") (bs "if-modified-since")) with false. cbv iota.
  destruct (bytes_eqb (bs "if-modified-since") k) eqn:Ek; [apply bytes_eqb_eq in Ek; subst k; change (bytes_eqb (bs "if-none-match") (bs "if-modified-since")) with false; cbv iota|].
  - destruct (hm_get_all (req_headers q) _) eqn:Eq; [|by rewrite E, Eq by done]. destruct (rsh_last_modified _); [|by rewrite E, Eq by done].
    destruct (unix_timestamp_to_header _); [|by rewrite E, Eq by done]. by rewrite hm_insert_law by done.
  - destruct (hm_get_all (req_headers q) (bs "if-modified-since")); [|by rewrite E by done]. destruct (rsh_last_modified _); [|by rewrite E by done].
    destruct (unix_timestamp_to_header _); [|by rewrite E by done]. rewrite hm_insert_law, Ek by done. by rewrite E by done.
Qed.

Lemma revalidation_plain p q url : plain_request q url -> plain_request (set_revalidation_headers (T := T) p q) url.
Proof. intros [U M C]. split; [done|done|]. by rewrite revalidation_headers, C by done. Qed.

Lemma stale_builder p now later q b q' : time_ok now -> time_ok later -> before_request (T := T) p now later q = Ret (Stale b, q') ->
  matches_stale_request p q = true /\ q' = set_revalidation_headers (T := T) p q /\ new_cache_policy_builder p later q' = Ret b.
Proof.
  intros Hn Hl. destruct (before_request_cases p now later q Hn Hl) as (b' & f & B & _ & ->). destruct (matches_stale_request p q); cbn [negb]; [|done].
  destruct (_ && f); [done|]. by intros [= <- <-].
Qed.

Lemma with_status_ok p status : policy_ok p -> policy_ok (with_status p status).
Proof. by intros []. Qed.

(** C35: A validated response is fresh again.  When a response stored in a private cache is
    stale for a request without [Cache-Control], the request that goes out carries the
    entity tag of the response and its date, and is the same otherwise.  When the server
    answers [304 Not Modified] with the same strong entity tag, without [Vary], and with
    readable [Cache-Control] values with no directive twice, a new [max-age] and no
    [no-cache] or [no-store], the stored response is kept, with its status, and the next
    [GET] or [HEAD] for the URL without [Cache-Control] is served from the cache for the
    new [max-age], by the age of the validating exchange, and goes to the server from
    then on.  The clock does not go back during the exchange and to the next request. *)
Theorem validated_response_fresh_again p now later q url b q' t r tag n now' later' q2 :
  time_ok now -> time_ok later -> time_ok t -> time_ok now' -> time_ok later' -> later <= t <= now' ->
  shared (policy_config p) = false -> plain_request q url -> plain_request q2 url -> explicit_response r n -> resp_status r = 304 ->
  rsh_etag (rs_headers (policy_response p)) = Some (etag_parse tag) -> etag_weak (etag_parse tag) = false -> hm_get (resp_headers r) (bs "etag") = Some tag ->
  before_request (T := T) p now later q = Ret (Stale b, q') ->
  (req_url q' = url /\ req_method q' = req_method q /\
   forall k, header_name_ok k = true -> hm_get_all (req_headers q') k =
     if bytes_eqb (bs "if-none-match") k then hm_get_all (req_headers q) k ++ entity_validator p
     else if bytes_eqb (bs "if-modified-since") k then match hm_get_all (req_headers q) k with [] => date_validator p | values => values end
     else hm_get_all (req_headers q) k) /\
  exists p' stale, after_response (T := T) p t b r = Ret (NotModified p') /\ rs_status (policy_response p') = rs_status (policy_response p) /\
  before_request (T := T) p' now' later' q2 =
    Ret (if rfc9111_age (later / 1000000000) (t / 1000000000) (now' / 1000000000) (date_header (T := T) (resp_headers r) (bs "date")) (age_header r) <? n
         then (Fresh, q2) else (Stale stale, set_revalidation_headers (T := T) p' q2)).
Proof.
  intros Hn Hl Ht Hn' Hl' Hle Hs Q Q2 R St Et Ew Er E. destruct (stale_builder _ _ _ _ _ _ Hn Hl E) as (M & -> & B). pose proof (revalidation_plain p q url Q) as Q'.
  split; [split; [apply Q'|]; split; [done|]; intros k Hk; by apply revalidation_headers|].
  apply andb_true_iff in M as [[M _]%andb_true_iff _]. destruct (storable_conditions p M) as (_ & S2 & _).
  destruct (request_from_ok later (set_revalidation_headers p q) Hl) as (rq & E0 & E1 & E2 & E3 & E4 & E5). unfold new_cache_policy_builder in B. rewrite E0 in B. cbn [obind] in B. injection B as <-.
  destruct (build_ok t (mkBuilder (policy_config p) rq (req_headers (set_revalidation_headers p q))) r Ht) as (p' & B & B1 & B2 & B3 & B4 & B5 & B6 & B7).
  cbn [builder_config builder_request builder_request_headers] in *. destruct (response_headers_fields r _ n B5 R) as (R1 & R2 & R3 & R4 & R5 & R6). rewrite Er in R6. cbn [option_map] in R6.
  rewrite (plain_no_cc _ url Q') in E3. injection E3 as E3. set (kept := with_status p' (rs_status (policy_response p))).
  assert (A : after_response (T := T) p t (mkBuilder (policy_config p) rq (req_headers (set_revalidation_headers p q))) r = Ret (NotModified kept)).
  { unfold after_response. rewrite B. cbn [obind]. unfold is_modified. rewrite B3, St, Et, R6, Ew. cbn [negb andb Z.eqb Pos.eqb]. by rewrite (proj2 (bytes_eqb_eq _ _) eq_refl). }
  assert (K : policy_ok kept) by (apply with_status_ok, B7; [rewrite E5; by apply unix_timestamp_ok|done]).
  destruct (fresh_for kept n url now' later' q2) as (stale & F); try exact K; clear K; unfold kept, with_status in *;
    cbn [policy_request policy_response policy_config policy_vary rs_status rs_headers rs_unix_timestamp] in *; rewrite ?B1, ?B2, ?B4, ?E5; try done.
  - split; apply seconds_mono; lia.
  - rewrite E2. apply method_known, Q'.
  - rewrite B6. unfold vary_from_request_response_headers. by rewrite (explicit_vary _ _ R).
  - rewrite E1. apply Q'.
  - eexists _, stale. split; [exact A|]. split; [done|]. rewrite F. unfold rfc_age. cbn [policy_request policy_response rs_unix_timestamp rs_headers]. by rewrite B2, B4, E5, R4, R5.
Qed.
End policies.
