(* ===== verification/CachePolicyWitness.v ===== *)
(** * The HTTP cache on concrete exchanges

    Header maps as lists of names and values, which obey the laws of [HeaderMap], with
    header values of visible ASCII and dates written as their seconds; and the theorems
    of the cache at the page of a package that is asked for, served, validated and
    served again. *)

From Stdlib Require Import ZArith Lia String.
From stdpp Require Import base list gmap.
From S2P Require Import Prelude.
From S2P Require Import CacheControl.
From S2P Require Import CachePolicy.
From S2P Require Import CachePolicyTheorems.
Open Scope Z_scope.

(** ** Header maps as lists *)

Definition Headers : Type := list (list Z * list Z).

Definition values_of (m : Headers) (k : list Z) : list (list Z) := map snd (List.filter (fun kv => bytes_eqb kv.1 k) m).

#[export] Instance list_headers : HeaderMap Headers := {
  hm_get m k := head (values_of m k);
  hm_get_all := values_of;
  hm_contains_key m k := match values_of m k with [] => false | _ => true end;
  hm_append m k v := m ++ [(k, v)];
  hm_insert m k v := List.filter (fun kv => negb (bytes_eqb kv.1 k)) m ++ [(k, v)];
}.

Lemma values_of_app m m' k : values_of (m ++ m') k = values_of m k ++ values_of m' k.
Proof. unfold values_of. by rewrite List.filter_app, map_app. Qed.

Lemma values_of_removed m k k' :
  values_of (List.filter (fun kv => negb (bytes_eqb kv.1 k)) m) k' = if bytes_eqb k k' then [] else values_of m k'.
Proof.
  unfold values_of. induction m as [|[n v] m IH]; cbn [List.filter fst]; [by destruct (bytes_eqb k k')|].
  destruct (bytes_eqb n k) eqn:E; cbn [negb List.filter fst].
  - rewrite IH. apply bytes_eqb_eq in E as ->. by destruct (bytes_eqb k k').
  - destruct (bytes_eqb n k') eqn:E'; cbn [map snd]; rewrite IH; destruct (bytes_eqb k k') eqn:Ek; try done. apply bytes_eqb_eq in E', Ek. subst. by rewrite (proj2 (bytes_eqb_eq _ _) eq_refl) in E.
Qed.

#[export] Instance list_headers_laws : HeaderMapLaws Headers.
Proof.
  split; cbn [hm_get hm_get_all hm_contains_key hm_append hm_insert list_headers]; [done|done|..]; intros m k v k' _ _; rewrite values_of_app, ?values_of_removed;
    unfold values_of at 2; cbn [List.filter fst]; destruct (bytes_eqb k k'); cbn [map snd]; by rewrite ?app_nil_r.
Qed.

Definition visible (s : list Z) : option (list Z) := if forallb (fun b => (b =? 9) || ((32 <=? b) && (b <=? 126))) s then Some s else None.

#[export] Instance ascii_values : HeaderValues := { header_to_str := visible; header_from_bytes := visible; header_from_str := visible }.

(** Dates as their seconds. *)
#[export] Instance second_dates : HttpDates Z := {
  dt_parse_rfc2822 := parse_seconds;
  dt_as_second := id;
  dt_from_second := Some;
  dt_rfc9110_string n := Some (show_u64 n);
}.

(** ** An exchange *)

Definition at_second (n : Z) : SystemTime := n * 1000000000 + 250000000.

Definition page_request : HttpRequest Headers := mkHttpRequest (bs "https://pypi.org/simple/anyio/") (bs "GET") [(bs "accept", bs "application/json")].
Definition page_response : HttpResponse Headers :=
  mkHttpResponse 200 [(bs "cache-control", bs "max-age=600, public"); (bs "etag", bs "33a64df5"); (bs "age", bs "5"); (bs "date", bs "1000")].

(** The policy of the page, asked for at second 1000 and received at second 1002. *)
Definition page_policy : CachePolicy :=
  match obind (builder_new (at_second 1000) page_request) (fun b => builder_build (T := Z) (at_second 1002) b page_response) with
  | Ret p => p
  | Panic => mkPolicy config_default (mkRequest [] Get (mkRequestHeaders cache_control_default false) 0) (mkResponse 0 (mkResponseHeaders cache_control_default None None None None None) 0) []
  end.

Definition not_modified : HttpResponse Headers := mkHttpResponse 304 [(bs "cache-control", bs "max-age=600, public"); (bs "etag", bs "33a64df5")].

Ltac seconds := unfold time_ok, at_second, u64_max; split; vm_compute; discriminate.

Lemma page_policy_ok : policy_ok page_policy.
Proof. split; vm_compute; repeat split; discriminate. Qed.

Lemma page_plain : plain_request page_request (bs "https://pypi.org/simple/anyio/").
Proof. split; vm_compute; reflexivity. Qed.

(** [max-age=600, public] *)
Definition ten_minutes : HeaderText := mkHeader [mkText [] (bs "max-age") (TokenValue (bs "600")) []; mkText [32] (bs "public") NoValue []] None.

Lemma ten_minutes_ok : Forall header_ok [ten_minutes].
Proof. apply Forall_cons_2; [|constructor]. split; [|exact I]. repeat (apply Forall_cons_2; [split; first [done|by repeat constructor]|]). constructor. Qed.

Lemma ten_minutes_explicit r : hm_get_all (resp_headers r) (bs "cache-control") = map header_text [ten_minutes] -> hm_get_all (resp_headers r) (bs "vary") = [] -> explicit_response r 600.
Proof. intros Hc Hv. split; [|exact Hv]. exists [ten_minutes]. split; [exact ten_minutes_ok|]. split; [exact Hc|]. split; [vm_compute; reflexivity|]. vm_compute. repeat split. Qed.

Lemma explicit_page : explicit_response page_response 600.
Proof. by apply ten_minutes_explicit; vm_compute. Qed.

Lemma explicit_not_modified : explicit_response not_modified 600.
Proof. by apply ten_minutes_explicit; vm_compute. Qed.

(** At second 1594 the page is 599 seconds old. *)
Lemma response_served_for_max_age_witness : exists b p, builder_new (at_second 1000) page_request = Ret b /\ builder_build (T := Z) (at_second 1002) b page_response = Ret p /\
  before_request (T := Z) p (at_second 1594) (at_second 1594) page_request = Ret (Fresh, page_request).
Proof.
  destruct (response_served_for_max_age (T := Z) (at_second 1000) (at_second 1002) (at_second 1594) (at_second 1594) page_request page_response page_request _ 600
    ltac:(seconds) ltac:(seconds) ltac:(seconds) ltac:(seconds) ltac:(split; vm_compute; discriminate) page_plain page_plain explicit_page ltac:(repeat split; vm_compute; discriminate)) as (b & p & stale & Hb & Hp & Hr).
  exists b, p. split; [exact Hb|]. split; [exact Hp|]. rewrite Hr. vm_compute. reflexivity.
Defined.

Lemma freshness_only_expires_witness : exists a q1 a' q2, before_request (T := Z) page_policy (at_second 1100) (at_second 1100) page_request = Ret (a, q1) /\
  before_request (T := Z) page_policy (at_second 1594) (at_second 1594) page_request = Ret (a', q2) /\ (a' = Fresh -> a = Fresh) /\
  (a = NoMatch <-> matches_stale_request page_policy page_request = false) /\ (a' = NoMatch <-> matches_stale_request page_policy page_request = false).
Proof.
  apply (freshness_only_expires (T := Z) page_policy (at_second 1100) (at_second 1594) (at_second 1100) (at_second 1594) page_request); [seconds|seconds|vm_compute; discriminate|seconds|seconds].
Defined.


(** The page is validated at second 2000 and served at second 2590. *)
Lemma validated_response_fresh_again_witness : exists b q' p', before_request (T := Z) page_policy (at_second 2000) (at_second 2000) page_request = Ret (Stale b, q') /\
  after_response (T := Z) page_policy (at_second 2001) b not_modified = Ret (NotModified p') /\
  before_request (T := Z) p' (at_second 2590) (at_second 2590) page_request = Ret (Fresh, page_request).
Proof.
  destruct (before_request (T := Z) page_policy (at_second 2000) (at_second 2000) page_request) as [[[|b|] q']|] eqn:E; try (exfalso; vm_compute in E; discriminate).
  destruct (proj2 (validated_response_fresh_again (T := Z) page_policy (at_second 2000) (at_second 2000) page_request _ b q' (at_second 2001) not_modified (bs "33a64df5") 600 (at_second 2590) (at_second 2590) page_request
    ltac:(seconds) ltac:(seconds) ltac:(seconds) ltac:(seconds) ltac:(seconds) ltac:(split; vm_compute; discriminate) eq_refl page_plain page_plain explicit_not_modified eq_refl
    ltac:(vm_compute; reflexivity) ltac:(vm_compute; reflexivity) ltac:(vm_compute; reflexivity) E)) as (p' & stale & A & _ & F).
  exists b, q', p'. split; [reflexivity|]. split; [exact A|]. rewrite F. vm_compute. reflexivity.
Defined.

(** ** Where the code and its comments differ *)

(** The answer to [q] at second [now], from the cache of [r] received at second 1000. *)
Definition answer_at (now : Z) (r : HttpResponse Headers) (q : HttpRequest Headers) : outcome bool :=
  let! b := builder_new (at_second 1000) page_request in
  let! p := builder_build (T := Z) (at_second 1000) b r in
  let! a := before_request (T := Z) p (at_second now) (at_second now) q in
  Ret (match a.1 with Fresh => true | _ => false end).

(** A repeated directive only forbids staleness: the response is served within its lifetime. *)
Example repeated_directive_served : answer_at 1300 (mkHttpResponse 200 [(bs "cache-control", bs "max-age=600, max-age=600")]) page_request = Ret true.
Proof. vm_compute. reflexivity. Qed.

(** An unreadable [Expires] counts as none, so that the heuristic lifetime applies. *)
Example unreadable_expires_served :
  (answer_at 1300 (mkHttpResponse 200 [(bs "expires", bs "never"); (bs "last-modified", bs "900")]) page_request,
   answer_at 1300 (mkHttpResponse 200 [(bs "expires", bs "0"); (bs "last-modified", bs "900")]) page_request) = (Ret true, Ret false).
Proof. vm_compute. reflexivity. Qed.

(** With 300 of 600 seconds left, a request for one second of freshness is not served. *)
Example min_fresh_not_served :
  answer_at 1300 (mkHttpResponse 200 [(bs "cache-control", bs "max-age=600")])
    (mkHttpRequest (bs "https://pypi.org/simple/anyio/") (bs "GET") [(bs "cache-control", bs "min-fresh=1")]) = Ret false.
Proof. vm_compute. reflexivity. Qed.

(** [max-stale] is the word of a request for its own answer (RFC 9111, section 5.2.1.2).  The
    cache reads that of the request that stored the response: after one with
    [max-stale=3600] a plain request gets a response that is 300 seconds too old, and a
    request with [max-stale=3600] does not get the one that a plain request stored. *)
Definition patient_request : HttpRequest Headers := mkHttpRequest (req_url page_request) (bs "GET") [(bs "cache-control", bs "max-stale=3600")].

Definition answer_after (stored : HttpRequest Headers) (now : Z) (q : HttpRequest Headers) : outcome bool :=
  let! b := builder_new (at_second 1000) stored in
  let! p := builder_build (T := Z) (at_second 1000) b (mkHttpResponse 200 [(bs "cache-control", bs "max-age=600")]) in
  let! a := before_request (T := Z) p (at_second now) (at_second now) q in
  Ret (match a.1 with Fresh => true | _ => false end).

Example stored_max_stale_used : (answer_after patient_request 1900 page_request, answer_after page_request 1900 patient_request) = (Ret true, Ret false).
Proof. vm_compute. reflexivity. Qed.
