(* ===== verification/PrioritizedDist.v ===== *)
(** * The distributions of a package version

    Models [crates/uv-distribution-types/src/prioritized_distribution.rs]: the wheels
    and the source distribution of one version of a package, as an index lists them,
    with the one the resolver uses and the markers of the environments they support.

    [VerbatimUrl], the URL of an index, and [InstalledDist] are parameters: nothing
    here looks at them. *)

From Stdlib Require Import ZArith Lia String.
From stdpp Require Import base list.
From S2P Require Import Prelude.
From S2P Require Import VersionRepr.
From S2P Require Import Specifier.
From S2P Require Import PythonTags.
From S2P Require Import PlatformTags.
From S2P Require Import Tags.
From S2P Require Import DistExtension.
From S2P Require Import WheelTag.
From S2P Require Import WheelFilename.
From S2P Require Import RangeSet.
From S2P Require Import Stateful.
From S2P Require Import MarkerEdges.
From S2P Require Import MarkerTypes.
From S2P Require Import RangeInstances.
From S2P Require Import MarkerAlgebra.
Open Scope Z_scope.

(** ** Files of an index *)

(** [Yanked], [HashAlgorithm], [HashDigest] and [HashDigests] of uv-pypi-types *)
Inductive Yanked := YankedBool (is_yanked : bool) | YankedReason (reason : Str).
Inductive HashAlgorithm := Md5 | Sha256 | Sha384 | Sha512 | Blake2b.
Record HashDigest := mkDigest { hash_algorithm : HashAlgorithm; hash_digest : Str }.
Definition HashDigests : Type := list HashDigest.

(** [File] with [FileLocation] and [Zstd] *)
Inductive FileLocation := RelativeUrl (base path : Str) | AbsoluteUrl (url : Str).
Record Zstd := mkZstd { zstd_hashes : HashDigests; zstd_size : option Z }.
Record File := mkFile {
  dist_info_metadata : bool;
  file_filename : Str;
  file_hashes : HashDigests;
  file_requires_python : option VersionSpecifiers;
  file_size : option Z;
  upload_time_utc_ms : option Z;
  file_url : FileLocation;
  file_yanked : option Yanked;
  file_zstd : option Zstd;
}.

(** ** Compatibility *)

Inductive PythonRequirementKind := KindInstalled | KindTarget.

Inductive HashComparison := Mismatched | Missing | Matched.

Definition hash_rank (h : HashComparison) : Z := match h with Mismatched => 0 | Missing => 1 | Matched => 2 end.

Inductive IncompatibleWheel :=
| WheelExcludeNewer (timestamp : option Z)
| WheelTagIncompatible (tag : IncompatibleTag)
| WheelRequiresPython (specifiers : VersionSpecifiers) (kind : PythonRequirementKind)
| WheelYanked (yanked : Yanked)
| NoBinary
| MissingPlatform (marker : NodeId).

Inductive WheelCompatibility :=
| WheelIncompatible (incompatibility : IncompatibleWheel)
| WheelCompatible (hash : HashComparison) (priority : option Z) (build_tag : option BuildTag).

Inductive IncompatibleSource :=
| SourceExcludeNewer (timestamp : option Z)
| SourceRequiresPython (specifiers : VersionSpecifiers) (kind : PythonRequirementKind)
| SourceYanked (yanked : Yanked)
| NoBuild
| NotPep625Filename.

Inductive SourceDistCompatibility :=
| SourceIncompatible (incompatibility : IncompatibleSource)
| SourceCompatible (hash : HashComparison).

Definition has_reason (y : Yanked) : bool := match y with YankedReason _ => true | YankedBool _ => false end.

(** [<] on [Option<i64>] *)
Definition timestamp_lt (a b : option Z) : bool := is_lt (option_cmp Z.compare a b).

(** [IncompatibleSource::is_more_compatible] *)
Definition incompatible_source_more (self other : IncompatibleSource) : bool :=
  match self, other with
  | SourceExcludeNewer timestamp_self, SourceExcludeNewer timestamp_other => timestamp_lt timestamp_other timestamp_self
  | SourceExcludeNewer _, _ => true
  | SourceRequiresPython _ _, (SourceExcludeNewer _ | SourceRequiresPython _ _) => false
  | SourceRequiresPython _ _, _ => true
  | SourceYanked _, (SourceExcludeNewer _ | SourceRequiresPython _ _ | NotPep625Filename) => false
  | SourceYanked _, SourceYanked yanked_other => has_reason yanked_other
  | SourceYanked _, NoBuild => true
  | (NoBuild | NotPep625Filename), _ => false
  end.

(** [IncompatibleWheel::is_more_compatible] *)
Definition incompatible_wheel_more (self other : IncompatibleWheel) : bool :=
  match self, other with
  | WheelExcludeNewer timestamp_self, WheelExcludeNewer timestamp_other =>
      match timestamp_self, timestamp_other with
      | None, _ => true
      | _, None => false
      | Some timestamp_self, Some timestamp_other => timestamp_other <? timestamp_self
      end
  | WheelExcludeNewer _, _ => true
  | WheelTagIncompatible _, WheelExcludeNewer _ => false
  | WheelTagIncompatible tag_self, WheelTagIncompatible tag_other => incompatible_rank tag_other <? incompatible_rank tag_self
  | WheelTagIncompatible _, _ => true
  | WheelRequiresPython _ _, (WheelExcludeNewer _ | WheelTagIncompatible _ | WheelRequiresPython _ _) => false
  | WheelRequiresPython _ _, _ => true
  | WheelYanked _, (WheelExcludeNewer _ | WheelTagIncompatible _ | WheelRequiresPython _ _) => false
  | WheelYanked _, WheelYanked yanked_other => has_reason yanked_other
  | WheelYanked _, _ => true
  | NoBinary, MissingPlatform _ => true
  | NoBinary, _ => false
  | MissingPlatform _, _ => false
  end.

(** The order of the tuples of a hash, a priority and a build tag. *)
Definition wheel_key_cmp (a b : HashComparison * option Z * option BuildTag) : comparison :=
  let '(h, p, t) := a in
  let '(h', p', t') := b in
  then_with (hash_rank h ?= hash_rank h') (then_with (option_cmp Z.compare p p') (option_cmp build_tag_cmp t t')).

Definition is_compatible_wheel (c : WheelCompatibility) : bool := match c with WheelCompatible _ _ _ => true | _ => false end.
Definition is_excluded_wheel (c : WheelCompatibility) : bool := match c with WheelIncompatible (WheelExcludeNewer _) => true | _ => false end.

(** [WheelCompatibility::is_more_compatible] *)
Definition wheel_more_compatible (self other : WheelCompatibility) : bool :=
  match self, other with
  | WheelCompatible _ _ _, WheelIncompatible _ => true
  | WheelCompatible hash tag_priority build_tag, WheelCompatible other_hash other_tag_priority other_build_tag =>
      is_gt (wheel_key_cmp (hash, tag_priority, build_tag) (other_hash, other_tag_priority, other_build_tag))
  | WheelIncompatible _, WheelCompatible _ _ _ => false
  | WheelIncompatible incompatibility, WheelIncompatible other_incompatibility => incompatible_wheel_more incompatibility other_incompatibility
  end.

Definition is_compatible_source (c : SourceDistCompatibility) : bool := match c with SourceCompatible _ => true | _ => false end.
Definition is_excluded_source (c : SourceDistCompatibility) : bool := match c with SourceIncompatible (SourceExcludeNewer _) => true | _ => false end.

(** [SourceDistCompatibility::is_more_compatible] *)
Definition source_more_compatible (self other : SourceDistCompatibility) : bool :=
  match self, other with
  | SourceCompatible _, SourceIncompatible _ => true
  | SourceCompatible compatibility, SourceCompatible other_compatibility => hash_rank other_compatibility <? hash_rank compatibility
  | SourceIncompatible _, SourceCompatible _ => false
  | SourceIncompatible incompatibility, SourceIncompatible other_incompatibility => incompatible_source_more incompatibility other_incompatibility
  end.

(** ** The markers a wheel implies *)

(** [BinaryFormat::platform_machine] *)
Definition format_platform_machine (f : BinaryFormat) : list BinaryFormat :=
  match f with
  | FArm64 => [FArm64]
  | Fat => [FX86_64; Ppc]
  | Fat32 => [FX86_64; I386; Ppc; Ppc64]
  | Fat64 => [FX86_64; Ppc64]
  | I386 => [I386]
  | Intel => [FX86_64; I386]
  | Ppc => [Ppc]
  | Ppc64 => [Ppc64]
  | Universal => [FX86_64; I386; Ppc64; Ppc; Intel]
  | Universal2 => [FX86_64; FArm64]
  | FX86_64 => [FX86_64]
  end.

Section implied.
Context {RV RS : Type} `{!RangeSet Version RV} `{!RangeSet Str RS}.
Abbreviation Interner := (InternerOf RV RS).

(** [MarkerTree::expression] of a comparison with a literal. *)
Definition string_marker (key : MarkerValueString) (value : Str) : M Interner NodeId := expression (EString key MEqual value).

Definition machine_marker (platform machine : Str) : M Interner NodeId :=
  let* tag_marker := string_marker SysPlatform platform in
  let* machine_marker := string_marker PlatformMachine machine in
  interner_and tag_marker machine_marker.

(** One round of the loop over the architectures of a macOS binary. *)
Definition add_arch (arch_marker : NodeId) (arch : BinaryFormat) : M Interner NodeId :=
  let* m := string_marker PlatformMachine (format_name arch) in
  interner_or arch_marker m.

(** The marker of a platform tag that is neither [Any] nor unknown. *)
Definition platform_tag_marker (tag : PlatformTag) : option (M Interner NodeId) :=
  match tag with
  | Win32 => Some (machine_marker (bs "win32") (bs "x86"))
  | WinAmd64 => Some (machine_marker (bs "win32") (bs "AMD64"))
  | WinArm64 => Some (machine_marker (bs "win32") (bs "ARM64"))
  | Macos _ _ binary_format =>
      Some (let* tag_marker := string_marker SysPlatform (bs "darwin") in
            let* arch_marker := fold_m add_arch node_false (format_platform_machine binary_format) in
            interner_and tag_marker arch_marker)
  | Manylinux _ _ arch | Manylinux1 arch | Manylinux2010 arch | Manylinux2014 arch | Musllinux _ _ arch | Linux arch =>
      Some (machine_marker (bs "linux") (arch_name arch))
  | _ => None
  end.

Fixpoint platform_marker_loop (marker : NodeId) (tags : list PlatformTag) : M Interner NodeId :=
  match tags with
  | [] => mpure marker
  | Any :: _ => mpure node_true
  | tag :: tags =>
      match platform_tag_marker tag with
      | Some m => let* tag_marker := m in let* marker := interner_or marker tag_marker in platform_marker_loop marker tags
      | None => platform_marker_loop marker tags
      end
  end.

Definition implied_platform_markers (filename : WheelFilename) : M Interner NodeId :=
  platform_marker_loop node_false (platform_tags (wheel_tags filename)).

(** The version that a Python tag is about; [None] is [LanguageTag::None]. *)
Definition language_release (tag : LanguageTag) : option (list Z) :=
  match tag with
  | LangNone => None
  | Python major None | CPythonMajor major => Some [major]
  | Python major (Some minor) | CPython (major, minor) | PyPy (major, minor) | GraalPy (major, minor) | Pyston (major, minor) => Some [major; minor]
  end.

(** The implementation that a Python tag is about. *)
Definition language_implementation (tag : LanguageTag) : option Str :=
  match tag with
  | LangNone | Python _ _ => None
  | CPython _ | CPythonMajor _ => Some (bs "CPython")
  | PyPy _ => Some (bs "PyPy")
  | GraalPy _ => Some (bs "GraalPy")
  | Pyston _ => Some (bs "Pyston")
  end.

Definition python_version_marker (is_abi3 : bool) (release_numbers : list Z) : M Interner NodeId :=
  let* version := mlift (version_new release_numbers) in
  expression (EVersion PythonVersion (if is_abi3 then greater_than_equal_version version else equals_star_version version)).

Definition python_tag_marker (is_abi3 : bool) (tag : LanguageTag) (release_numbers : list Z) : M Interner NodeId :=
  let* tree := python_version_marker is_abi3 release_numbers in
  match language_implementation tag with
  | Some implementation => let* m := string_marker PlatformPythonImplementation implementation in interner_and tree m
  | None => mpure tree
  end.

Fixpoint python_marker_loop (is_abi3 : bool) (marker : NodeId) (tags : list LanguageTag) : M Interner NodeId :=
  match tags with
  | [] => mpure marker
  | tag :: tags =>
      match language_release tag with
      | None => mpure node_true
      | Some release_numbers =>
          let* tree := python_tag_marker is_abi3 tag release_numbers in
          let* marker := interner_or marker tree in
          python_marker_loop is_abi3 marker tags
      end
  end.

Definition implied_python_markers (filename : WheelFilename) : M Interner NodeId :=
  python_marker_loop (existsb is_stable_abi (abi_tags (wheel_tags filename))) node_false (python_tags (wheel_tags filename)).

Definition implied_markers (filename : WheelFilename) : M Interner NodeId :=
  let* platform := implied_platform_markers filename in
  let* python := implied_python_markers filename in
  interner_and platform python.
End implied.

(** ** Distributions *)

Section prioritized.
Context {RV RS U I : Type} `{!RangeSet Version RV} `{!RangeSet Str RS}.
Abbreviation Interner := (InternerOf RV RS).

(** [IndexUrl] *)
Inductive IndexUrl := IndexPypi (url : U) | IndexLocation (url : U) | IndexPath (url : U).

Record RegistryBuiltWheel := mkBuiltWheel {
  built_filename : WheelFilename;
  built_file : File;
  built_index : IndexUrl;
  built_size_is_authoritative : bool;
}.

Record RegistrySourceDist := mkSource {
  sdist_name : Str;
  sdist_version : Version;
  sdist_file : File;
  sdist_ext : SourceDistExtension;
  sdist_index : IndexUrl;
  sdist_wheels : list RegistryBuiltWheel;
  sdist_size_is_authoritative : bool;
}.

Record RegistryBuiltDist := mkBuiltDist {
  registry_wheels : list RegistryBuiltWheel;
  registry_best_wheel_index : nat;
  registry_sdist : option RegistrySourceDist;
}.

(** [PrioritizedDist], with its contents [PrioritizedDistInner] *)
Record PrioritizedDist := mkPrioritized {
  pd_source : option (RegistrySourceDist * SourceDistCompatibility);
  pd_best_wheel_index : option nat;
  pd_wheels : list (RegistryBuiltWheel * WheelCompatibility);
  pd_hashes : list HashDigest;
  pd_markers : NodeId;
}.

Definition pd_default : PrioritizedDist := mkPrioritized None None [] [] node_false.

Inductive CompatibleDist :=
| CompatibleInstalled (dist : I)
| CompatibleSource (sdist : RegistrySourceDist) (prioritized : PrioritizedDist)
| CompatibleWheel (wheel : RegistryBuiltWheel) (priority : option Z) (prioritized : PrioritizedDist)
| CompatibleIncompatibleWheel (sdist : RegistrySourceDist) (wheel : RegistryBuiltWheel) (prioritized : PrioritizedDist).

Inductive ResolvedDistRef :=
| ResolvedInstalled (dist : I)
| ResolvedSource (sdist : RegistrySourceDist) (prioritized : PrioritizedDist)
| ResolvedBuilt (wheel : RegistryBuiltWheel) (prioritized : PrioritizedDist).

(** [CompatibleDist::requires_python], [prioritized] and [implied_markers] *)
Definition compatible_requires_python (d : CompatibleDist) : option VersionSpecifiers :=
  match d with
  | CompatibleInstalled _ => None
  | CompatibleSource sdist _ | CompatibleIncompatibleWheel sdist _ _ => file_requires_python (sdist_file sdist)
  | CompatibleWheel wheel _ _ => file_requires_python (built_file wheel)
  end.

Definition compatible_prioritized (d : CompatibleDist) : option PrioritizedDist :=
  match d with
  | CompatibleInstalled _ => None
  | CompatibleSource _ prioritized | CompatibleWheel _ _ prioritized | CompatibleIncompatibleWheel _ _ prioritized => Some prioritized
  end.

Definition compatible_implied_markers (d : CompatibleDist) : NodeId :=
  match compatible_prioritized d with Some prioritized => pd_markers prioritized | None => node_true end.

(** [CompatibleDist::for_resolution], [for_installation] and [wheel] *)
Definition for_resolution (d : CompatibleDist) : ResolvedDistRef :=
  match d with
  | CompatibleInstalled dist => ResolvedInstalled dist
  | CompatibleSource sdist prioritized => ResolvedSource sdist prioritized
  | CompatibleWheel wheel _ prioritized => ResolvedBuilt wheel prioritized
  | CompatibleIncompatibleWheel _ wheel prioritized => ResolvedBuilt wheel prioritized
  end.

Definition for_installation (d : CompatibleDist) : ResolvedDistRef :=
  match d with
  | CompatibleInstalled dist => ResolvedInstalled dist
  | CompatibleSource sdist prioritized => ResolvedSource sdist prioritized
  | CompatibleWheel wheel _ prioritized => ResolvedBuilt wheel prioritized
  | CompatibleIncompatibleWheel sdist _ prioritized => ResolvedSource sdist prioritized
  end.

Definition compatible_wheel (d : CompatibleDist) : option RegistryBuiltWheel :=
  match d with
  | CompatibleInstalled _ | CompatibleSource _ _ => None
  | CompatibleWheel wheel _ _ | CompatibleIncompatibleWheel _ wheel _ => Some wheel
  end.

(** [PrioritizedDist::best_wheel]: the element at the index, a panic behind the end. *)
Definition best_wheel (d : PrioritizedDist) : outcome (option (RegistryBuiltWheel * WheelCompatibility)) :=
  match pd_best_wheel_index d with
  | None => Ret None
  | Some i => match pd_wheels d !! i with Some w => Ret (Some w) | None => Panic end
  end.

Definition from_built (dist : RegistryBuiltWheel) (hashes : list HashDigest) (compatibility : WheelCompatibility) : M Interner PrioritizedDist :=
  let* markers := implied_markers (built_filename dist) in
  mpure (mkPrioritized None (Some 0%nat) [(dist, compatibility)] hashes markers).

Definition from_source (dist : RegistrySourceDist) (hashes : list HashDigest) (compatibility : SourceDistCompatibility) : PrioritizedDist :=
  mkPrioritized (Some (dist, compatibility)) None [] hashes node_true.

Definition insert_built (d : PrioritizedDist) (dist : RegistryBuiltWheel) (hashes : list HashDigest) (compatibility : WheelCompatibility) :
    M Interner PrioritizedDist :=
  let* markers :=
    if is_compatible_wheel compatibility && negb (pd_markers d =? node_true)
    then let* m := implied_markers (built_filename dist) in interner_or (pd_markers d) m
    else mpure (pd_markers d) in
  let hashes := if is_excluded_wheel compatibility then pd_hashes d else pd_hashes d ++ hashes in
  let* best := mlift (best_wheel d) in
  let index :=
    match best with
    | Some (_, existing_compatibility) =>
        if wheel_more_compatible compatibility existing_compatibility then Some (length (pd_wheels d)) else pd_best_wheel_index d
    | None => Some (length (pd_wheels d))
    end in
  mpure (mkPrioritized (pd_source d) index (pd_wheels d ++ [(dist, compatibility)]) hashes markers).

Definition insert_source (d : PrioritizedDist) (dist : RegistrySourceDist) (hashes : list HashDigest) (compatibility : SourceDistCompatibility) : PrioritizedDist :=
  let markers := if is_compatible_source compatibility then node_true else pd_markers d in
  let hashes := if is_excluded_source compatibility then pd_hashes d else pd_hashes d ++ hashes in
  let source :=
    match pd_source d with
    | Some (_, existing_compatibility) =>
        if source_more_compatible compatibility existing_compatibility then Some (dist, compatibility) else pd_source d
    | None => Some (dist, compatibility)
    end in
  mkPrioritized source (pd_best_wheel_index d) (pd_wheels d) hashes markers.

(** [PrioritizedDist::get] *)
Definition pd_get (d : PrioritizedDist) : outcome (option CompatibleDist) :=
  let! best_wheel := best_wheel d in
  Ret match best_wheel, pd_source d with
      | Some (wheel, WheelCompatible wheel_hash tag_priority _), Some (sdist, SourceCompatible sdist_hash) =>
          if hash_rank wheel_hash <? hash_rank sdist_hash then Some (CompatibleSource sdist d) else Some (CompatibleWheel wheel tag_priority d)
      | Some (wheel, WheelCompatible _ tag_priority _), _ => Some (CompatibleWheel wheel tag_priority d)
      | Some (wheel, WheelIncompatible i), Some (sdist, SourceCompatible _) =>
          if negb (is_excluded_wheel (WheelIncompatible i)) then Some (CompatibleIncompatibleWheel sdist wheel d) else Some (CompatibleSource sdist d)
      | None, Some (sdist, SourceCompatible _) => Some (CompatibleSource sdist d)
      | _, _ => None
      end.

Definition incompatible_source (d : PrioritizedDist) : option IncompatibleSource :=
  match pd_source d with Some (_, SourceIncompatible incompatibility) => Some incompatibility | _ => None end.

Definition incompatible_wheel (d : PrioritizedDist) : outcome (option IncompatibleWheel) :=
  outcome_map (fun best => match best with Some (_, WheelIncompatible incompatibility) => Some incompatibility | _ => None end) (best_wheel d).

Definition pd_is_empty (d : PrioritizedDist) : bool := is_none (pd_source d) && match pd_wheels d with [] => true | _ => false end.

(** The loop of [built_dist]: the wheels that are not excluded, and the index of the
    best one among them. *)
Fixpoint adjust_wheels (best_wheel_index i : nat) (wheels : list (RegistryBuiltWheel * WheelCompatibility)) (adjusted_wheels : list RegistryBuiltWheel)
    (adjusted_best_index : nat) : list RegistryBuiltWheel * nat :=
  match wheels with
  | [] => (adjusted_wheels, adjusted_best_index)
  | (wheel, compatibility) :: wheels =>
      if is_excluded_wheel compatibility then adjust_wheels best_wheel_index (S i) wheels adjusted_wheels adjusted_best_index
      else
        adjust_wheels best_wheel_index (S i) wheels (adjusted_wheels ++ [wheel])
          (if Nat.eqb i best_wheel_index then length adjusted_wheels else adjusted_best_index)
  end.

Definition built_dist (d : PrioritizedDist) : option RegistryBuiltDist :=
  match pd_best_wheel_index d with
  | None => None
  | Some best_wheel_index =>
      let '(adjusted_wheels, adjusted_best_index) := adjust_wheels best_wheel_index 0 (pd_wheels d) [] 0 in
      Some (mkBuiltDist adjusted_wheels adjusted_best_index (option_map fst (pd_source d)))
  end.

Definition with_sdist_wheels (sdist : RegistrySourceDist) (wheels : list RegistryBuiltWheel) : RegistrySourceDist :=
  mkSource (sdist_name sdist) (sdist_version sdist) (sdist_file sdist) (sdist_ext sdist) (sdist_index sdist) wheels (sdist_size_is_authoritative sdist).

(** [PrioritizedDist::source_dist]; the [assert!] is a panic. *)
Definition source_dist (d : PrioritizedDist) : outcome (option RegistrySourceDist) :=
  match pd_source d with
  | Some (sdist, compatibility) =>
      if is_excluded_source compatibility then Ret None
      else match sdist_wheels sdist with
           | [] => Ret (Some (with_sdist_wheels sdist (map fst (pd_wheels d))))
           | _ => Panic
           end
  | None => Ret None
  end.

Definition pd_files (d : PrioritizedDist) : list File :=
  map (fun w => built_file w.1) (pd_wheels d) ++ match pd_source d with Some (sdist, _) => [sdist_file sdist] | None => [] end.

Definition pd_python_tags (d : PrioritizedDist) : list LanguageTag := flat_map (fun w => python_tags (wheel_tags (built_filename w.1))) (pd_wheels d).
Definition pd_abi_tags (d : PrioritizedDist) : list AbiTag := flat_map (fun w => abi_tags (wheel_tags (built_filename w.1))) (pd_wheels d).

Definition pd_platform_tags (d : PrioritizedDist) (tags : Tags) : list PlatformTag :=
  flat_map (fun w =>
    let t := wheel_tags (built_filename w.1) in
    if existsb (fun wheel_py => existsb (fun wheel_abi => is_compatible_abi tags wheel_py wheel_abi) (abi_tags t)) (python_tags t)
    then platform_tags t else []) (pd_wheels d).
End prioritized.
Arguments IndexUrl : clear implicits.
Arguments RegistryBuiltWheel : clear implicits.
Arguments RegistrySourceDist : clear implicits.
Arguments RegistryBuiltDist : clear implicits.
Arguments PrioritizedDist : clear implicits.
Arguments CompatibleDist : clear implicits.
Arguments ResolvedDistRef : clear implicits.
