(* ===== verification/PrioritizedMarkers.v ===== *)
(** * The markers that wheels imply

    The marker computed from the tags of a wheel file name holds in exactly the
    environments that the tags name. *)

From Stdlib Require Import ZArith Lia String.
From stdpp Require Import base list relations.
From S2P Require Import Prelude.
From S2P Require Import VersionRepr.
From S2P Require Import VersionOrder.
From S2P Require Import VersionRecord.
From S2P Require Import Specifier.
From S2P Require Import PythonTags.
From S2P Require Import PlatformTags.
From S2P Require Import WheelTag.
From S2P Require Import WheelFilename.
From S2P Require Import RangeSet.
From S2P Require Import Stateful.
From S2P Require Import MarkerEdges.
From S2P Require Import MarkerTypes.
From S2P Require Import RangeInstances.
From S2P Require Import MarkerAlgebra.
From S2P Require Import MarkerStore.
From S2P Require Import MarkerConj.
From S2P Require Import MarkerTree.
From S2P Require Import MarkerVersion.
From S2P Require Import MarkerExpr.
From S2P Require Import MarkerTheorems.
From S2P Require Import MarkerTests.
From S2P Require Import RequiresPythonWheels.
From S2P Require Import PrioritizedDist.
Open Scope Z_scope.

(** ** What tags say of an environment *)

(** [platform.machine()] on Linux. *)
Definition linux_machine (a : Arch) : string :=
  match a with
  | Aarch64 => "aarch64" | Armv5TEL => "armv5tel" | Armv6L => "armv6l" | Armv7L => "armv7l"
  | Powerpc64Le => "ppc64le" | Powerpc64 => "ppc64" | Powerpc => "ppc" | X86 => "i686" | X86_64 => "x86_64"
  | S390X => "s390x" | LoongArch64 => "loongarch64" | Riscv64 => "riscv64" | Wasm32 => "wasm32"
  end%string.

(** [platform.machine()] on macOS, for the binaries of a format.  The lists of [fat] and
    [fat32] are not those of the tags that a platform accepts ([fat_machines]). *)
Definition macos_machines (f : BinaryFormat) : list string :=
  match f with
  | FArm64 => ["arm64"]
  | FX86_64 => ["x86_64"]
  | I386 => ["i386"]
  | Ppc => ["ppc"]
  | Ppc64 => ["ppc64"]
  | Intel => ["x86_64"; "i386"]
  | Universal2 => ["x86_64"; "arm64"]
  | Universal => ["x86_64"; "i386"; "ppc64"; "ppc"; "intel"]
  | Fat => ["x86_64"; "ppc"]
  | Fat32 => ["x86_64"; "i386"; "ppc"; "ppc64"]
  | Fat64 => ["x86_64"; "ppc64"]
  end%string.

Definition on_platform (env : MarkerEnvironment) (platform : string) (machines : list string) : bool :=
  bytes_eqb (sys_platform env) (bs platform) && existsb (fun m => bytes_eqb (platform_machine env) (bs m)) machines.

(** Tags of other platforms than Windows, macOS and Linux name no environment. *)
Definition platform_supported (env : MarkerEnvironment) (tag : PlatformTag) : bool :=
  match tag with
  | Any => true
  | Win32 => on_platform env "win32" ["x86"]
  | WinAmd64 => on_platform env "win32" ["AMD64"]
  | WinArm64 => on_platform env "win32" ["ARM64"]
  | Macos _ _ f => on_platform env "darwin" (macos_machines f)
  | Manylinux _ _ a | Manylinux1 a | Manylinux2010 a | Manylinux2014 a | Musllinux _ _ a | Linux a => on_platform env "linux" [linux_machine a]
  | _ => false
  end%string.

(** The Python version of an environment is at least (with a stable ABI) or exactly the
    one of a tag, in the segments that the tag has. *)
Definition version_supported (stable : bool) (env : MarkerEnvironment) (wanted : list Z) : bool :=
  let r := release (get_version env CPythonFullVersion) in
  let major := nth_or_0 r 0 in
  let minor := nth_or_0 r 1 in
  match wanted with
  | [m] => if stable then m <=? major else major =? m
  | [m; n] => if stable then (m <? major) || (major =? m) && (n <=? minor) else (major =? m) && (minor =? n)
  | _ => false
  end.

Definition implemented_by (env : MarkerEnvironment) (name : string) : bool := bytes_eqb (platform_python_implementation env) (bs name).

Definition python_supported (stable : bool) (env : MarkerEnvironment) (tag : LanguageTag) : bool :=
  match tag with
  | LangNone => true
  | Python m None => version_supported stable env [m]
  | Python m (Some n) => version_supported stable env [m; n]
  | CPythonMajor m => version_supported stable env [m] && implemented_by env "CPython"
  | CPython (m, n) => version_supported stable env [m; n] && implemented_by env "CPython"
  | PyPy (m, n) => version_supported stable env [m; n] && implemented_by env "PyPy"
  | GraalPy (m, n) => version_supported stable env [m; n] && implemented_by env "GraalPy"
  | Pyston (m, n) => version_supported stable env [m; n] && implemented_by env "Pyston"
  end.

Definition wheel_supports (w : WheelFilename) (env : MarkerEnvironment) : bool :=
  existsb (platform_supported env) (platform_tags (wheel_tags w)) &&
  existsb (python_supported (existsb is_stable_abi (abi_tags (wheel_tags w))) env) (python_tags (wheel_tags w)).

Lemma on_machine env platform m : on_platform env platform [m] = bytes_eqb (sys_platform env) (bs platform) && bytes_eqb (platform_machine env) (bs m).
Proof. unfold on_platform. cbn [existsb]. by rewrite orb_false_r. Qed.

Lemma linux_machine_name a : arch_name a = bs (linux_machine a).
Proof. by destruct a. Qed.

Lemma macos_machines_names f env :
  existsb (fun b => bytes_eqb (platform_machine env) (format_name b)) (format_platform_machine f) = existsb (fun m => bytes_eqb (platform_machine env) (bs m)) (macos_machines f).
Proof. by destruct f. Qed.

Lemma python_supported_code stable env tag : python_supported stable env tag =
  match language_release tag with
  | None => true
  | Some wanted => version_supported stable env wanted &&
      match language_implementation tag with Some i => bytes_eqb (platform_python_implementation env) i | None => true end
  end.
Proof. destruct tag as [|m [n|]|[m n]|[m n]|[m n]|[m n]|m]; cbn [python_supported language_release language_implementation]; by rewrite ?andb_true_r. Qed.

Section implied.
Context {RV RS : Type} `{!RangeSet Version RV} `{!RangeSetLaws Version RV}.
Context `{!RangeSet Str RS} `{!RangeSetLaws Str RS}.
Abbreviation Interner := (InternerOf RV RS).
Implicit Types (s : Interner) (id x : NodeId) (p : MarkerEnvironment -> bool).

Lemma string_marker_tests s key value : reachable s -> match key with PlatformSystem => false | _ => true end = true ->
  runs reachable ext (string_marker key value) s (fun id s' => marker_test s' id (fun env => bytes_eqb (get_string env (canonical_string_key key)) value)).
Proof. intros Hs Hk. apply expression_tests; [done|done|]. intros env extras _. cbn [expr_holds]. unfold string_expr_holds. by destruct key. Qed.

Lemma machine_marker_tests s os machine : reachable s ->
  runs reachable ext (machine_marker os machine) s (fun id s' => marker_test s' id (fun env => bytes_eqb (sys_platform env) os && bytes_eqb (platform_machine env) machine)).
Proof.
  intros Hs. refine (runs_seq _ _ _ _ _ _ _ (string_marker_tests s SysPlatform os Hs eq_refl) _). intros a s1 Hs1 He1 Ha.
  refine (runs_seq _ _ _ _ _ _ _ (string_marker_tests s1 PlatformMachine machine Hs1 eq_refl) _). intros b s2 Hs2 He2 Hb.
  apply and_tests; [done|by apply (test_ext s1)|done].
Qed.

Lemma add_arch_tests s x p a : reachable s -> marker_test s x p ->
  runs reachable ext (add_arch x a) s (fun r s' => marker_test s' r (fun env => p env || bytes_eqb (platform_machine env) (format_name a))).
Proof.
  intros Hs Hx. refine (runs_seq _ _ _ _ _ _ _ (string_marker_tests s PlatformMachine (format_name a) Hs eq_refl) _). intros b s1 Hs1 He1 Hb.
  apply or_tests; [done|by apply (test_ext s)|done].
Qed.

Lemma platform_tag_tests s tag : reachable s -> tag <> Any ->
  match platform_tag_marker tag with
  | Some m => runs reachable ext m s (fun id s' => marker_test s' id (fun env => platform_supported env tag))
  | None => forall env, platform_supported env tag = false
  end.
Proof.
  intros Hs Ha. destruct tag as [| | | | | | |major minor f| | | | | | | | | | | | | | |]; cbn [platform_tag_marker platform_supported]; try done;
    try (rewrite ?linux_machine_name; run_weaken; [by apply machine_marker_tests|]; intros id s' _ _; apply test_same; intros env _; by rewrite on_machine).
  refine (runs_seq _ _ _ _ _ _ _ (string_marker_tests s SysPlatform (bs "darwin") Hs eq_refl) _). intros a s1 Hs1 He1 Hd.
  refine (runs_seq _ _ _ _ _ _ _ (fold_or_tests add_arch (fun env b => bytes_eqb (platform_machine env) (format_name b)) _ _ s1 node_false _ Hs1 (test_false s1)) _);
    [intros; by apply add_arch_tests|]. intros b s2 Hs2 He2 Hb.
  run_weaken; [apply and_tests; [done|by apply (test_ext s1)|exact Hb]|]. intros id s' _ _. apply test_same. intros env _. by rewrite macos_machines_names.
Qed.

Lemma platform_loop_tests s x p tags : reachable s -> marker_test s x p ->
  runs reachable ext (platform_marker_loop x tags) s (fun id s' => marker_test s' id (fun env => p env || existsb (platform_supported env) tags)).
Proof.
  revert s x p. induction tags as [|tag tags IH]; intros s x p Hs Hx; cbn [platform_marker_loop existsb].
  { run_pure; [done|]. eapply test_same; [|exact Hx]. intros env _. by rewrite orb_false_r. }
  destruct (decide (tag = Any)) as [->|Ha].
  { run_pure; [done|]. eapply test_same; [|apply test_true]. intros env _. by rewrite orb_true_r. }
  pose proof (platform_tag_tests s tag Hs Ha) as Ht.
  assert (E : forall (A : Type) (t e : A), match tag with Any => t | _ => e end = e) by (by destruct tag). rewrite E.
  destruct (platform_tag_marker tag) as [m|].
  - refine (runs_seq _ _ _ _ _ _ _ Ht _). intros a s1 Hs1 He1 Hm.
    refine (runs_seq _ _ _ _ _ _ _ (or_tests s1 x a _ _ Hs1 (test_ext s s1 x p Hs Hs1 He1 Hx) Hm) _). intros b s2 Hs2 He2 Hb.
    run_weaken; [by apply IH|]. cbv beta. intros r s3 _ _. apply test_same. intros env _. by rewrite orb_assoc.
  - run_weaken; [by apply IH|]. cbv beta. intros r s3 _ _. apply test_same. intros env _. by rewrite Ht.
Qed.

(** ** Python tags *)

Lemma truncate_holds (stable : bool) env wanted : env_release env -> (length wanted = 1 \/ length wanted = 2)%nat ->
  release_holds (if stable then GreaterThanEqual else EqualStar) wanted (truncate (release (get_version env CPythonFullVersion))) = version_supported stable env wanted.
Proof.
  intros Hr Hl. pose proof (env_release_version env CPythonFullVersion Hr) as Hv. destruct (release_only_elim _ Hv) as (Rv & _). unfold truncate, version_supported.
  set (r := release _). set (major := nth_or_0 r 0). set (minor := nth_or_0 r 1).
  assert (Hm : 0 <= minor).
  { unfold minor, nth_or_0. destruct (r !! 1%nat) as [x|] eqn:E; [|done]. pose proof (real_nonneg _ (proj1 (release_only_elim _ Hv))) as Hn. cbn [default]. by eapply Forall_lookup_1 in E. }
  destruct wanted as [|m [|n [|? ?]]]; cbn [length] in Hl; try lia; destruct stable; cbn [release_holds prefix_padded pad_cmp]; unfold is_ge, then_with;
    repeat match goal with |- context [?a ?= ?b] => destruct (Z.compare_spec a b) end; lia.
Qed.

Lemma language_release_ok tag wanted : language_ok tag -> language_release tag = Some wanted ->
  (length wanted = 1 \/ length wanted = 2)%nat /\ Forall (fun x => 0 <= x <= 255) wanted.
Proof.
  destruct tag as [|a [b|]|[a b]|[a b]|[a b]|[a b]|a]; cbn [language_ok language_release]; unfold digit_pair, u8_max; cbn [fst snd]; intros Hok [= <-]; cbn [fst snd] in Hok; (split; [cbn; lia|]);
    repeat (apply Forall_cons_2; [lia|]); apply Forall_nil_2.
Qed.

Lemma python_version_tests s stable wanted : reachable s -> (length wanted = 1 \/ length wanted = 2)%nat -> Forall (fun x => 0 <= x <= 255) wanted ->
  runs reachable ext (python_version_marker stable wanted) s (fun id s' => marker_test s' id (fun env => version_supported stable env wanted)).
Proof.
  intros Hs Hl Hw. assert (U : 255 + 1 < u64_max) by done. destruct (version_new_spec wanted) as (v & E & Er & Hro & Hloc).
  { eapply Forall_impl; [exact Hw|]. cbv beta. lia. }
  { by destruct wanted; [cbn in Hl; lia|]. }
  unfold python_version_marker. run_read E. apply expression_tests; [done| |].
  - cbn [expr_ok version_key_ok]. unfold spec_real, spec_valid, translatable, minor_room. rewrite andb_true_iff. split.
    + destruct stable; cbn [spec_version operator greater_than_equal_version equals_star_version]; rewrite (proj1 (release_only_elim v Hro)), Hloc; done.
    + destruct stable; cbn [spec_version operator greater_than_equal_version equals_star_version]; rewrite Er; destruct wanted as [|m [|n l]]; try done; (rewrite !Forall_cons in Hw; assert ((n + 1 <? u64_max) = true) as -> by lia; done).
  - intros env extras Hr. cbn [expr_holds]. unfold version_holds. rewrite <- truncate_holds by done.
    destruct stable; cbn [spec_version operator greater_than_equal_version equals_star_version]; by rewrite Er.
Qed.

Lemma python_tag_tests s stable tag wanted : reachable s -> language_ok tag -> language_release tag = Some wanted ->
  runs reachable ext (python_tag_marker stable tag wanted) s (fun id s' => marker_test s' id (fun env => python_supported stable env tag)).
Proof.
  intros Hs Hok Ew. destruct (language_release_ok tag wanted Hok Ew) as [Hl Hw]. unfold python_tag_marker.
  assert (Hsame : forall id s', marker_test s' id (fun env => version_supported stable env wanted &&
      match language_implementation tag with Some i => bytes_eqb (platform_python_implementation env) i | None => true end) ->
    marker_test s' id (fun env => python_supported stable env tag)).
  { intros id s'. apply test_same. intros env _. by rewrite python_supported_code, Ew. }
  run_weaken; [|intros id s' _ _; apply Hsame]. clear Hsame.
  refine (runs_seq _ _ _ _ _ _ _ (python_version_tests s stable wanted Hs Hl Hw) _). intros a s1 Hs1 He1 Ha. destruct (language_implementation tag) as [i|].
  - refine (runs_seq _ _ _ _ _ _ _ (string_marker_tests s1 PlatformPythonImplementation i Hs1 eq_refl) _). intros b s2 Hs2 He2 Hb.
    apply and_tests; [done|by apply (test_ext s1)|done].
  - run_pure; [done|]. eapply test_same; [|exact Ha]. intros env _. by rewrite andb_true_r.
Qed.

Lemma python_loop_tests s stable x p tags : reachable s -> Forall language_ok tags -> marker_test s x p ->
  runs reachable ext (python_marker_loop stable x tags) s (fun id s' => marker_test s' id (fun env => p env || existsb (python_supported stable env) tags)).
Proof.
  intros Hs Hl. revert s x p Hs. induction Hl as [|tag tags Ht Hl IH]; intros s x p Hs Hx; cbn [python_marker_loop existsb].
  { run_pure; [done|]. eapply test_same; [|exact Hx]. intros env _. by rewrite orb_false_r. }
  destruct (language_release tag) as [wanted|] eqn:Ew.
  - refine (runs_seq _ _ _ _ _ _ _ (python_tag_tests s stable tag wanted Hs Ht Ew) _). intros a s1 Hs1 He1 Ha.
    refine (runs_seq _ _ _ _ _ _ _ (or_tests s1 x a _ _ Hs1 (test_ext s s1 x p Hs Hs1 He1 Hx) Ha) _). intros b s2 Hs2 He2 Hb.
    run_weaken; [by apply IH|]. cbv beta. intros r s3 _ _. apply test_same. intros env _. by rewrite orb_assoc.
  - run_pure; [done|]. eapply test_same; [|apply test_true]. intros env _. rewrite python_supported_code, Ew. by rewrite orb_true_r.
Qed.

Lemma implied_markers_test s w : reachable s -> Forall language_ok (python_tags (wheel_tags w)) ->
  runs reachable ext (implied_markers w) s (fun id s' => marker_test s' id (wheel_supports w)).
Proof.
  intros Hs Hl. refine (runs_seq _ _ _ _ _ _ _ (platform_loop_tests s node_false _ _ Hs (test_false s)) _). intros a s1 Hs1 He1 Ha.
  refine (runs_seq _ _ _ _ _ _ _ (python_loop_tests s1 _ node_false _ _ Hs1 Hl (test_false s1)) _). intros b s2 Hs2 He2 Hb.
  apply and_tests; [done|by apply (test_ext s1)|done].
Qed.

End implied.
