(* ===== verification/PrioritizedTheorems.v ===== *)
(** * What is chosen among the distributions of a version

    After any sequence of insertions the best wheel is the first of the most
    compatible ones, the markers are those of the compatible distributions, and the
    distribution that is returned is the best that can be installed. *)

From Stdlib Require Import ZArith Lia.
From stdpp Require Import base list relations.
From S2P Require Import Prelude.
From S2P Require Import VersionRepr.
From S2P Require Import PythonTags.
From S2P Require Import WheelTag.
From S2P Require Import WheelFilename.
From S2P Require Import RangeSet.
From S2P Require Import Stateful.
From S2P Require Import MarkerEdges.
From S2P Require Import MarkerTypes.
From S2P Require Import RangeInstances.
From S2P Require Import MarkerAlgebra.
From S2P Require Import MarkerStore.
From S2P Require Import MarkerTree.
From S2P Require Import MarkerExpr.
From S2P Require Import MarkerTheorems.
From S2P Require Import MarkerTests.
From S2P Require Import PrioritizedDist.
From S2P Require Import PrioritizedMarkers.
Open Scope Z_scope.

(** ** The order of wheels *)

#[export] Instance build_tag_cmp_laws : OrdLaws build_tag_cmp.
Proof. apply (key_laws (pair_cmp Z.compare (option_cmp (list_cmp Z.compare))) (fun b => (build_number b, build_suffix b))). Qed.

#[export] Instance wheel_key_cmp_laws : OrdLaws wheel_key_cmp.
Proof.
  pose proof (key_laws (pair_cmp Z.compare (pair_cmp (option_cmp Z.compare) (option_cmp build_tag_cmp)))
    (fun k : HashComparison * option Z * option BuildTag => (hash_rank k.1.1, (k.1.2, k.2)))) as [S T].
  split; [intros [[h p] t] [[h' p'] t']; apply (S (h, p, t) (h', p', t'))|].
  intros [[h p] t] [[h' p'] t'] [[h'' p''] t'']. apply (T (h, p, t) (h', p', t') (h'', p'', t'')).
Qed.

(** What a wheel is compared by; incompatible wheels are alike. *)
Definition wheel_rank (c : WheelCompatibility) : option (HashComparison * option Z * option BuildTag) :=
  match c with WheelCompatible h p t => Some (h, p, t) | WheelIncompatible _ => None end.

Definition source_rank (c : SourceDistCompatibility) : option Z := match c with SourceCompatible h => Some (hash_rank h) | SourceIncompatible _ => None end.

Lemma wheel_more_spec c c' : wheel_rank c' <> None -> wheel_more_compatible c c' = is_gt (option_cmp wheel_key_cmp (wheel_rank c) (wheel_rank c')).
Proof. by destruct c, c'. Qed.

Lemma wheel_more_compatible_spec c c' : wheel_rank c <> None -> wheel_more_compatible c c' = is_gt (option_cmp wheel_key_cmp (wheel_rank c) (wheel_rank c')).
Proof. by destruct c, c'. Qed.

(** [i] is the index of the first of the best among [ranks], of which all below are worse
    unless nothing has a rank. *)
Definition best_at {K} (cmp : K -> K -> comparison) (ranks : list (option K)) (i : nat) : Prop :=
  exists r, ranks !! i = Some r /\ forall j r', ranks !! j = Some r' ->
    option_cmp cmp r' r <> Gt /\ (r <> None -> (j < i)%nat -> option_cmp cmp r' r = Lt).

Section best.
Context {K : Type} (cmp : K -> K -> comparison) `{!OrdLaws cmp}.
Implicit Types (ranks : list (option K)) (r : option K).

Lemma best_at_first r : best_at cmp [r] 0.
Proof. exists r. split; [done|]. intros [|j] r' E; [|done]. injection E as <-. split; [by rewrite ord_refl by apply _|lia]. Qed.

Lemma best_at_keeps ranks i r r0 : best_at cmp ranks i -> ranks !! i = Some r -> option_cmp cmp r0 r <> Gt -> best_at cmp (ranks ++ [r0]) i.
Proof.
  intros (r1 & E1 & Hb) E Hle. rewrite E in E1. injection E1 as <-. exists r. pose proof (lookup_lt_Some _ _ _ E) as Hi. split; [by apply lookup_app_l_Some|].
  intros j r' Ej. apply lookup_app_Some in Ej as [Ej|[Hj Ej]]; [by apply Hb|]. apply list_lookup_singleton_Some in Ej as [_ <-]. split; [done|lia].
Qed.

Lemma best_at_replaces ranks i r r0 : best_at cmp ranks i -> ranks !! i = Some r -> (r0 = None -> r = None) -> (r0 <> None -> option_cmp cmp r0 r = Gt) ->
  best_at cmp (ranks ++ [r0]) (length ranks).
Proof.
  intros (r1 & E1 & Hb) E Hn Hgt. rewrite E in E1. injection E1 as <-. exists r0. split; [by rewrite lookup_app_r, Nat.sub_diag by lia|].
  assert (L : forall r', option_cmp cmp r' r <> Gt -> option_cmp cmp r' r0 <> Gt /\ (r0 <> None -> option_cmp cmp r' r0 = Lt)).
  { intros r' Hle. destruct r0 as [k|]; [|rewrite Hn in Hle by done; by split]. assert (Hlt : option_cmp cmp r (Some k) = Lt) by (rewrite (ord_sym (option_cmp cmp)), Hgt by done; done).
    assert (Hne : option_cmp cmp r' (Some k) = Lt); [|by rewrite Hne]. destruct (option_cmp cmp r' (Some k)) eqn:Ec; [|done|].
    - exfalso. pose proof (ord_le_trans (option_cmp cmp) (Some k) r' r) as Ht. rewrite Hgt in Ht by done. apply Ht; [|done|done]. by rewrite (ord_sym (option_cmp cmp)), Ec.
    - exfalso. pose proof (ord_le_trans (option_cmp cmp) r' r (Some k)) as Ht. rewrite Ec, Hlt in Ht. by apply Ht. }
  intros j r' Ej. apply lookup_app_Some in Ej as [Ej|[Hj Ej]].
  - destruct (Hb j r' Ej) as [Hle _]. destruct (L r' Hle) as [L1 L2]. split; [done|]. intros; by apply L2.
  - apply list_lookup_singleton_Some in Ej as [Hj' <-]. split; [by rewrite ord_refl by apply _|lia].
Qed.
End best.

(** ** Insertions *)

Section dist.
Context {RV RS U I : Type} `{!RangeSet Version RV} `{!RangeSetLaws Version RV}.
Context `{!RangeSet Str RS} `{!RangeSetLaws Str RS}.
Abbreviation Interner := (InternerOf RV RS).
Abbreviation Dist := (PrioritizedDist U).
Implicit Types (s : Interner) (d : Dist).

(** A file that an index lists. *)
Inductive Listed :=
| ListedWheel (dist : RegistryBuiltWheel U) (hashes : list HashDigest) (c : WheelCompatibility)
| ListedSource (dist : RegistrySourceDist U) (hashes : list HashDigest) (c : SourceDistCompatibility).

Definition insert_listed d (l : Listed) : M Interner Dist :=
  match l with
  | ListedWheel dist hashes c => insert_built d dist hashes c
  | ListedSource dist hashes c => mpure (insert_source d dist hashes c)
  end.

Definition wheels_of (ls : list Listed) : list (RegistryBuiltWheel U * WheelCompatibility) :=
  omap (fun l => match l with ListedWheel dist _ c => Some (dist, c) | _ => None end) ls.
Definition sources_of (ls : list Listed) : list (RegistrySourceDist U * SourceDistCompatibility) :=
  omap (fun l => match l with ListedSource dist _ c => Some (dist, c) | _ => None end) ls.

(** The hashes of the files that are not excluded. *)
Definition hashes_of (ls : list Listed) : list HashDigest :=
  flat_map (fun l =>
    match l with
    | ListedWheel _ hashes c => if is_excluded_wheel c then [] else hashes
    | ListedSource _ hashes c => if is_excluded_source c then [] else hashes
    end) ls.

(** The environments that a compatible file supports. *)
Definition supported_by (ls : list Listed) (env : MarkerEnvironment) : bool :=
  existsb (fun l =>
    match l with
    | ListedWheel dist _ c => is_compatible_wheel c && wheel_supports (built_filename dist) env
    | ListedSource _ _ c => is_compatible_source c
    end) ls.

Definition listed_ok (l : Listed) : Prop :=
  match l with ListedWheel dist _ _ => Forall language_ok (python_tags (wheel_tags (built_filename dist))) | ListedSource _ _ _ => True end.

(** What a collection is after the insertion of [ls]. *)
Record collection_of (ls : list Listed) d s : Prop := {
  col_wheels : pd_wheels d = wheels_of ls;
  col_hashes : pd_hashes d = hashes_of ls;
  col_best : match pd_best_wheel_index d with None => wheels_of ls = [] | Some i => best_at wheel_key_cmp (map (fun w => wheel_rank w.2) (wheels_of ls)) i end;
  col_source : match pd_source d with
               | None => sources_of ls = []
               | Some sc => exists i, sources_of ls !! i = Some sc /\ best_at Z.compare (map (fun w => source_rank w.2) (sources_of ls)) i
               end;
  col_markers : marker_test s (pd_markers d) (supported_by ls);
}.

Lemma col_best_wheel ls d s : collection_of ls d s ->
  match pd_best_wheel_index d with
  | None => best_wheel d = Ret None /\ wheels_of ls = []
  | Some i => exists w, wheels_of ls !! i = Some w /\ best_wheel d = Ret (Some w) /\ best_at wheel_key_cmp (map (fun w => wheel_rank w.2) (wheels_of ls)) i
  end.
Proof.
  intros [Hw _ Hb _ _]. unfold best_wheel. destruct (pd_best_wheel_index d) as [i|]; [|done]. destruct Hb as (r & E & Hb').
  pose proof E as E'. rewrite list_lookup_fmap in E'. apply fmap_Some in E' as (w & Ew & _). exists w. rewrite Hw, Ew. split; [done|]. split; [done|]. by exists r.
Qed.

Lemma marker_true_test s x p : marker_test s x p -> (x =? node_true) = true -> marker_test s x (fun _ => true).
Proof. intros [Hm _] E%Z.eqb_eq. split; [done|]. intros env extras _ _. by subst x. Qed.

(** The markers after the insertion of a wheel. *)
Lemma insert_markers s x p w c : reachable s -> marker_test s x p -> Forall language_ok (python_tags (wheel_tags w)) ->
  runs reachable ext (if is_compatible_wheel c && negb (x =? node_true) then let* m := implied_markers w in interner_or x m else mpure x) s
    (fun r s' => marker_test s' r (fun env => p env || is_compatible_wheel c && wheel_supports w env)).
Proof.
  intros Hs Hx Hw. destruct (is_compatible_wheel c); cbn [andb]; [|run_pure; [done|]; eapply test_same; [|exact Hx]; intros env _; by rewrite orb_false_r].
  destruct (x =? node_true) eqn:E; cbn [negb].
  - run_pure; [done|]. split; [apply Hx|]. intros env extras Hr Hp. pose proof (proj2 Hx env extras Hr Hp) as E1. rewrite (proj2 (marker_true_test s x p Hx E) env extras Hr Hp) in E1 |- *.
    injection E1 as <-. done.
  - refine (runs_seq _ _ _ _ _ _ _ (implied_markers_test s w Hs Hw) _). intros m s1 Hs1 He1 Hm. apply or_tests; [done|by apply (test_ext s)|done].
Qed.

Lemma supported_snoc ls l env : supported_by (ls ++ [l]) env = supported_by ls env ||
  match l with ListedWheel dist _ c => is_compatible_wheel c && wheel_supports (built_filename dist) env | ListedSource _ _ c => is_compatible_source c end.
Proof. unfold supported_by. rewrite existsb_app. cbn [existsb]. by rewrite orb_false_r. Qed.

Lemma hashes_snoc ls l : hashes_of (ls ++ [l]) = hashes_of ls ++
  match l with ListedWheel _ hashes c => if is_excluded_wheel c then [] else hashes | ListedSource _ hashes c => if is_excluded_source c then [] else hashes end.
Proof. unfold hashes_of. rewrite flat_map_app. cbn [flat_map]. by rewrite app_nil_r. Qed.

Lemma wheels_snoc ls l : wheels_of (ls ++ [l]) = wheels_of ls ++ match l with ListedWheel dist _ c => [(dist, c)] | _ => [] end.
Proof. unfold wheels_of. rewrite omap_app. by destruct l. Qed.

Lemma sources_snoc ls l : sources_of (ls ++ [l]) = sources_of ls ++ match l with ListedSource dist _ c => [(dist, c)] | _ => [] end.
Proof. unfold sources_of. rewrite omap_app. by destruct l. Qed.

Lemma insert_built_collects ls d s dist hashes c : reachable s -> collection_of ls d s -> listed_ok (ListedWheel dist hashes c) ->
  runs reachable ext (insert_built d dist hashes c) s (fun d' s' => collection_of (ls ++ [ListedWheel dist hashes c]) d' s').
Proof.
  intros Hs Hc Hok. pose proof (col_best_wheel ls d s Hc) as Hb. destruct Hc as [Hw Hh _ Hsrc Hm].
  refine (runs_seq _ _ _ _ _ _ _ (insert_markers s _ _ (built_filename dist) c Hs Hm Hok) _). intros m s1 Hs1 He1 Htest.
  assert (R : forall best index, best_wheel d = Ret best ->
    match index with None => wheels_of (ls ++ [ListedWheel dist hashes c]) = [] | Some i => best_at wheel_key_cmp (map (fun w => wheel_rank w.2) (wheels_of (ls ++ [ListedWheel dist hashes c]))) i end ->
    collection_of (ls ++ [ListedWheel dist hashes c]) (mkPrioritized (pd_source d) index (pd_wheels d ++ [(dist, c)]) (if is_excluded_wheel c then pd_hashes d else pd_hashes d ++ hashes) m) s1).
  { intros best index _ Hi. split; cbn [pd_wheels pd_hashes pd_best_wheel_index pd_source pd_markers].
    - by rewrite wheels_snoc, Hw.
    - rewrite hashes_snoc, Hh. destruct (is_excluded_wheel c); by rewrite ?app_nil_r.
    - done.
    - by rewrite sources_snoc, app_nil_r.
    - eapply test_same; [|exact Htest]. intros env _. by rewrite supported_snoc. }
  rewrite wheels_snoc, map_app in R. cbn [map] in R. cbn [snd] in R. destruct (pd_best_wheel_index d) as [i|] eqn:Ei.
  - destruct Hb as ([w0 c0] & Ew & Eb & Hbest). run_read Eb. run_pure; [done|]. cbn [snd].
    assert (Er : map (fun w => wheel_rank w.2) (wheels_of ls) !! i = Some (wheel_rank c0)) by (by rewrite list_lookup_fmap, Ew).
    destruct (wheel_more_compatible c c0) eqn:Emore; apply (R _ _ Eb).
    + rewrite Hw. rewrite <- (length_map (fun w => wheel_rank w.2) (wheels_of ls)). apply (best_at_replaces wheel_key_cmp _ i (wheel_rank c0)); [done|done| |].
      * intros Hn. destruct c, c0; cbn in *; done.
      * intros Hn. rewrite wheel_more_compatible_spec in Emore by done. by destruct (option_cmp _ _ _).
    + apply (best_at_keeps wheel_key_cmp _ i (wheel_rank c0)); [done|done|]. destruct (wheel_rank c) eqn:Ec; [|by destruct (wheel_rank c0)].
      rewrite wheel_more_compatible_spec in Emore by (by rewrite Ec). rewrite Ec in Emore. by destruct (option_cmp _ _ _).
  - destruct Hb as [Eb Ew]. run_read Eb. run_pure; [done|]. apply (R _ _ Eb). rewrite Hw, Ew. apply best_at_first; apply _.
Qed.

Lemma source_more_spec c c' : source_rank c <> None -> source_more_compatible c c' = is_gt (option_cmp Z.compare (source_rank c) (source_rank c')).
Proof. destruct c as [|h], c' as [|h']; try done. intros _. cbn. by destruct h, h'. Qed.

Lemma insert_source_collects ls d s dist hashes c : collection_of ls d s ->
  collection_of (ls ++ [ListedSource dist hashes c]) (insert_source d dist hashes c) s.
Proof.
  intros [Hw Hh Hb Hsrc Hm]. unfold insert_source. split; cbn [pd_wheels pd_hashes pd_best_wheel_index pd_source pd_markers].
  - by rewrite wheels_snoc, app_nil_r, Hw.
  - rewrite hashes_snoc, Hh. destruct (is_excluded_source c); by rewrite ?app_nil_r.
  - by rewrite wheels_snoc, app_nil_r.
  - rewrite sources_snoc, map_app. cbn [map]. cbn [snd]. destruct (pd_source d) as [[d0 c0]|].
    + destruct Hsrc as (i & Ei & Hbest). assert (Er : map (fun w => source_rank w.2) (sources_of ls) !! i = Some (source_rank c0)) by (by rewrite list_lookup_fmap, Ei).
      destruct (source_more_compatible c c0) eqn:Emore.
      * exists (length (sources_of ls)). split; [by rewrite lookup_app_r, Nat.sub_diag by lia|]. rewrite <- (length_map (fun w => source_rank w.2) (sources_of ls)).
        apply (best_at_replaces Z.compare _ i (source_rank c0)); [done|done| |].
        -- intros Hn. by destruct c, c0.
        -- intros Hn. rewrite source_more_spec in Emore by done. by destruct (option_cmp _ _ _).
      * exists i. split; [by apply lookup_app_l_Some|]. apply (best_at_keeps Z.compare _ i (source_rank c0)); [done|done|]. destruct (source_rank c) eqn:Ec; [|by destruct (source_rank c0)].
        rewrite source_more_spec in Emore by (by rewrite Ec). rewrite Ec in Emore. by destruct (option_cmp _ _ _).
    + rewrite Hsrc. exists 0%nat. split; [done|]. apply best_at_first. apply _.
  - destruct (is_compatible_source c) eqn:E.
    + eapply test_same; [|apply test_true]. intros env _. by rewrite supported_snoc, E, orb_true_r.
    + eapply test_same; [|exact Hm]. intros env _. by rewrite supported_snoc, E, orb_false_r.
Qed.

Lemma default_collected s : collection_of [] pd_default s.
Proof. split; try done. apply test_false. Qed.

Lemma insertions_collect ls0 ls d s : reachable s -> collection_of ls0 d s -> Forall listed_ok ls ->
  runs reachable ext (fold_m insert_listed d ls) s (fun d' s' => collection_of (ls0 ++ ls) d' s').
Proof.
  intros Hs Hc Hok. revert ls0 d s Hs Hc. induction Hok as [|l ls Hl Hok IH]; intros ls0 d s Hs Hc; cbn [fold_m]; [run_pure; [done|]; by rewrite app_nil_r|].
  assert (Hstep : runs reachable ext (insert_listed d l) s (fun d' s' => collection_of (ls0 ++ [l]) d' s')).
  { destruct l; [by apply insert_built_collects|]. run_pure; [done|]. by apply insert_source_collects. }
  refine (runs_seq _ _ _ _ _ _ _ Hstep _). intros d' s' Hs' He Hc'. rewrite (app_assoc ls0 [l] ls : ls0 ++ l :: ls = _). by apply IH.
Qed.


(** ** What is returned *)

Definition kept (ws : list (RegistryBuiltWheel U * WheelCompatibility)) : list (RegistryBuiltWheel U) :=
  map fst (List.filter (fun w => negb (is_excluded_wheel w.2)) ws).

(** The loop of [built_dist]: wheels before the best one, then it, then the others. *)
Lemma adjust_others best i ws acc idx : (forall k, (k < length ws)%nat -> (i + k <> best)%nat) -> adjust_wheels best i ws acc idx = (acc ++ kept ws, idx).
Proof.
  revert i acc idx. induction ws as [|[w c] ws IH]; intros i acc idx Hne; cbn [adjust_wheels]; unfold kept; cbn [List.filter snd]; [by rewrite app_nil_r|].
  assert (Hne' : forall k, (k < length ws)%nat -> (S i + k <> best)%nat) by (intros k Hk; specialize (Hne (S k)); cbn in Hne; lia).
  destruct (is_excluded_wheel c); cbn [negb map fst]; [by apply IH|]. rewrite IH by done. rewrite <- app_assoc.
  specialize (Hne 0%nat). cbn in Hne. destruct (Nat.eqb_spec i best); [lia|done].
Qed.

Lemma adjust_best best i ws acc idx w c : ws !! (best - i)%nat = Some (w, c) -> (i <= best)%nat -> is_excluded_wheel c = false ->
  exists idx', adjust_wheels best i ws acc idx = (acc ++ kept ws, idx') /\ (acc ++ kept ws) !! idx' = Some w.
Proof.
  revert i acc idx. induction ws as [|[w0 c0] ws IH]; intros i acc idx E Hi Hx; [done|]. cbn [adjust_wheels]. unfold kept. cbn [List.filter snd].
  destruct (Nat.eq_dec i best) as [->|Hne].
  - rewrite Nat.sub_diag in E. injection E as -> ->. rewrite Hx. cbn [negb map fst]. rewrite Nat.eqb_refl. exists (length acc).
    rewrite adjust_others by lia. rewrite <- app_assoc. split; [done|]. by rewrite lookup_app_r, Nat.sub_diag by lia.
  - assert (E' : ws !! (best - S i)%nat = Some (w, c)) by (replace (best - i)%nat with (S (best - S i)) in E by lia; done).
    destruct (is_excluded_wheel c0); cbn [negb map fst]; [apply IH; [done|lia|done]|]. destruct (Nat.eqb_spec i best); [lia|].
    destruct (IH (S i) (acc ++ [w0]) idx E' ltac:(lia) Hx) as (idx' & -> & Hl). exists idx'. rewrite <- app_assoc in Hl |- *. done.
Qed.

(** The best wheel of [built_dist] is [w]. *)
Definition built_best d (w : RegistryBuiltWheel U) : Prop :=
  exists b, built_dist d = Some b /\ registry_wheels b !! registry_best_wheel_index b = Some w.

Lemma built_best_spec ls d s i w c : collection_of ls d s -> pd_best_wheel_index d = Some i -> wheels_of ls !! i = Some (w, c) -> is_excluded_wheel c = false -> built_best d w.
Proof.
  intros [Hw _ _ _ _] Ei Ew Hx. unfold built_best, built_dist. rewrite Ei, Hw. destruct (adjust_best i 0 (wheels_of ls) [] 0 w c) as (idx & -> & Hl); [by rewrite Nat.sub_0_r|lia|done|]. by eexists.
Qed.

(** The hash result of a compatible file. *)
Definition file_hash (l : Listed) : option HashComparison :=
  match l with
  | ListedWheel _ _ (WheelCompatible h _ _) => Some h
  | ListedSource _ _ (SourceCompatible h) => Some h
  | _ => None
  end.

(** No compatible file has a better hash result. *)
Definition best_hash (ls : list Listed) (h : HashComparison) : Prop := forall l h', l ∈ ls -> file_hash l = Some h' -> hash_rank h' <= hash_rank h.

(** What may be returned for the files [ls]. *)
Definition chosen (ls : list Listed) d (c : CompatibleDist U I) : Prop :=
  match c with
  | CompatibleInstalled _ => False
  | CompatibleWheel w prio d' => d' = d /\ built_best d w /\ exists h t, (w, WheelCompatible h prio t) ∈ wheels_of ls /\ best_hash ls h /\
      forall w' h' p' t', (w', WheelCompatible h' p' t') ∈ wheels_of ls -> wheel_key_cmp (h', p', t') (h, prio, t) <> Gt
  | CompatibleSource sd d' => d' = d /\ exists h, (sd, SourceCompatible h) ∈ sources_of ls /\ best_hash ls h /\
      forall w' h' p' t', (w', WheelCompatible h' p' t') ∈ wheels_of ls -> hash_rank h' < hash_rank h
  | CompatibleIncompatibleWheel sd w d' => d' = d /\ built_best d w /\ (exists h, (sd, SourceCompatible h) ∈ sources_of ls /\ best_hash ls h) /\
      (exists i, (w, WheelIncompatible i) ∈ wheels_of ls) /\ forall w' h' p' t', (w', WheelCompatible h' p' t') ∉ wheels_of ls
  end.

Lemma listed_wheel ls dist hashes c : ListedWheel dist hashes c ∈ ls -> (dist, c) ∈ wheels_of ls.
Proof. intros Hin. apply list_elem_of_omap. by exists (ListedWheel dist hashes c). Qed.

Lemma listed_source ls dist hashes c : ListedSource dist hashes c ∈ ls -> (dist, c) ∈ sources_of ls.
Proof. intros Hin. apply list_elem_of_omap. by exists (ListedSource dist hashes c). Qed.

Lemma wheel_listed ls w : w ∈ wheels_of ls -> exists hashes, ListedWheel w.1 hashes w.2 ∈ ls.
Proof. intros ([dist hashes c|] & Hin & E)%list_elem_of_omap; [|done]. injection E as <-. by exists hashes. Qed.

Lemma source_listed ls w : w ∈ sources_of ls -> exists hashes, ListedSource w.1 hashes w.2 ∈ ls.
Proof. intros ([|dist hashes c] & Hin & E)%list_elem_of_omap; [done|]. injection E as <-. by exists hashes. Qed.

Lemma best_at_max {A K} (cmp : K -> K -> comparison) (f : A -> option K) (l : list A) i a a' : best_at cmp (map f l) i -> l !! i = Some a -> a' ∈ l ->
  option_cmp cmp (f a') (f a) <> Gt.
Proof.
  intros (r & E & Hb) Ea (j & Ej)%list_elem_of_lookup. rewrite list_lookup_fmap, Ea in E. injection E as <-. apply (Hb j). by rewrite list_lookup_fmap, Ej.
Qed.

Lemma key_hash h p t h' p' t' : wheel_key_cmp (h', p', t') (h, p, t) <> Gt -> hash_rank h' <= hash_rank h.
Proof. cbn. destruct (Z.compare_spec (hash_rank h') (hash_rank h)); cbn; [lia|lia|done]. Qed.

(** The wheels, bounded by the best one. *)
Lemma wheels_bounded ls i w c : best_at wheel_key_cmp (map (fun w => wheel_rank w.2) (wheels_of ls)) i -> wheels_of ls !! i = Some (w, c) ->
  forall w' h' p' t', (w', WheelCompatible h' p' t') ∈ wheels_of ls ->
    match c with WheelCompatible h p t => wheel_key_cmp (h', p', t') (h, p, t) <> Gt | WheelIncompatible _ => False end.
Proof.
  intros Hb Ew w' h' p' t' Hin. pose proof (best_at_max _ _ _ _ _ _ Hb Ew Hin) as Hle. cbn [snd wheel_rank] in Hle. destruct c; cbn [wheel_rank option_cmp] in Hle; [by apply Hle|exact Hle].
Qed.

Lemma sources_bounded ls i sd c : best_at Z.compare (map (fun w => source_rank w.2) (sources_of ls)) i -> sources_of ls !! i = Some (sd, c) ->
  forall sd' h', (sd', SourceCompatible h') ∈ sources_of ls ->
    match c with SourceCompatible h => hash_rank h' <= hash_rank h | SourceIncompatible _ => False end.
Proof.
  intros Hb Es sd' h' Hin. pose proof (best_at_max _ _ _ _ _ _ Hb Es Hin) as Hle. cbn [snd source_rank] in Hle. destruct c; cbn [source_rank option_cmp] in Hle; [by apply Hle|].
  by apply Z.compare_le_iff.
Qed.

Lemma best_hash_spec ls h : (forall w' h' p' t', (w', WheelCompatible h' p' t') ∈ wheels_of ls -> hash_rank h' <= hash_rank h) ->
  (forall sd' h', (sd', SourceCompatible h') ∈ sources_of ls -> hash_rank h' <= hash_rank h) -> best_hash ls h.
Proof.
  intros H1 H2 [dist hashes [|h0 p t]|dist hashes [|h0]] h' Hin E; try done; injection E as <-; [by eapply H1, listed_wheel|by eapply H2, listed_source].
Qed.

Lemma no_hash_spec ls : (forall w' h' p' t', (w', WheelCompatible h' p' t') ∉ wheels_of ls) -> (forall sd' h', (sd', SourceCompatible h') ∉ sources_of ls) ->
  Forall (fun l => file_hash l = None) ls.
Proof.
  intros H1 H2. apply Forall_forall. intros [dist hashes [|h0 p t]|dist hashes [|h0]] Hin; try done; exfalso; [by eapply H1, listed_wheel|by eapply H2, listed_source].
Qed.

(** The source distribution that is kept, and the sources that were inserted. *)
Lemma kept_source ls d s : collection_of ls d s ->
  match pd_source d with
  | Some (sd, SourceCompatible h) => (sd, SourceCompatible h) ∈ sources_of ls /\ forall sd' h', (sd', SourceCompatible h') ∈ sources_of ls -> hash_rank h' <= hash_rank h
  | _ => forall sd' h', (sd', SourceCompatible h') ∉ sources_of ls
  end.
Proof.
  intros Hc. pose proof (col_source ls d s Hc) as Hsrc. destruct (pd_source d) as [[sd c]|]; [|intros sd' h'; rewrite Hsrc; apply not_elem_of_nil].
  destruct Hsrc as (j & Ej & Hbest). pose proof (sources_bounded ls j sd c Hbest Ej) as B. destruct c; [exact B|]. split; [by eapply list_elem_of_lookup_2|exact B].
Qed.

(** The best wheel, and the wheels that were inserted. *)
Lemma kept_wheel ls d s : collection_of ls d s ->
  match pd_best_wheel_index d with
  | None => best_wheel d = Ret None /\ forall w' h' p' t', (w', WheelCompatible h' p' t') ∉ wheels_of ls
  | Some i => exists w c, best_wheel d = Ret (Some (w, c)) /\ (w, c) ∈ wheels_of ls /\ (is_excluded_wheel c = false -> built_best d w) /\
      match c with
      | WheelCompatible h p t => forall w' h' p' t', (w', WheelCompatible h' p' t') ∈ wheels_of ls -> wheel_key_cmp (h', p', t') (h, p, t) <> Gt
      | WheelIncompatible _ => forall w' h' p' t', (w', WheelCompatible h' p' t') ∉ wheels_of ls
      end
  end.
Proof.
  intros Hc. pose proof (col_best_wheel ls d s Hc) as Hb. destruct (pd_best_wheel_index d) as [i|] eqn:Ei; [|destruct Hb as [-> Ew]; split; [done|]; intros; rewrite Ew; apply not_elem_of_nil].
  destruct Hb as ([w c] & Ew & Eb & Hbest). exists w, c. split; [done|]. split; [by eapply list_elem_of_lookup_2|]. split; [by apply (built_best_spec ls d s i w c)|].
  pose proof (wheels_bounded ls i w c Hbest Ew) as B. by destruct c.
Qed.

Lemma get_chosen ls d s : collection_of ls d s ->
  exists o, pd_get d = Ret o /\ match o with None => Forall (fun l => file_hash l = None) ls | Some c => chosen ls d c end.
Proof.
  intros Hc. pose proof (kept_source ls d s Hc) as S. pose proof (kept_wheel ls d s Hc) as W. unfold pd_get.
  clear Hc. destruct (pd_best_wheel_index d) as [i|].
  - destruct W as (w & c & -> & Hin & Hbb & B). cbn [obind]. eexists. split; [reflexivity|]. destruct c as [inc|h p t].
    + destruct (pd_source d) as [[sd [|hs]]|]; [by apply no_hash_spec| |by apply no_hash_spec]. destruct S as [Sin Smax].
      assert (Hbh : best_hash ls hs) by (apply best_hash_spec; [intros w' h' p' t' Hw; by destruct (B w' h' p' t')|done]).
      destruct (is_excluded_wheel (WheelIncompatible inc)) eqn:Ex; cbn [negb chosen].
      * split; [done|]. exists hs. split; [done|]. split; [done|]. intros w' h' p' t' Hw. by destruct (B w' h' p' t').
      * split; [done|]. split; [by apply Hbb|]. split; [by exists hs|]. split; [by exists inc|done].
    + assert (K : forall w' h' p' t', (w', WheelCompatible h' p' t') ∈ wheels_of ls -> hash_rank h' <= hash_rank h) by (intros w' h' p' t' Hw; by eapply key_hash, B).
      assert (G : best_hash ls h -> chosen ls d (CompatibleWheel w p d)) by (intros Hbh; split; [done|]; split; [by apply Hbb|]; exists h, t; done).
      destruct (pd_source d) as [[sd [|hs]]|]; [apply G, best_hash_spec; [done|intros sd' h' Hs; by destruct (S sd' h')]| |apply G, best_hash_spec; [done|intros sd' h' Hs; by destruct (S sd' h')]].
      destruct S as [Sin Smax]. destruct (hash_rank h <? hash_rank hs) eqn:E.
      * split; [done|]. exists hs. split; [done|]. split; [apply best_hash_spec; [intros w' h' p' t' Hw; specialize (K w' h' p' t' Hw); lia|done]|].
        intros w' h' p' t' Hw. specialize (K w' h' p' t' Hw). lia.
      * apply G, best_hash_spec; [done|]. intros sd' h' Hs. specialize (Smax sd' h' Hs). lia.
  - destruct W as [-> B]. cbn [obind]. eexists. split; [reflexivity|]. destruct (pd_source d) as [[sd [|hs]]|]; [by apply no_hash_spec| |by apply no_hash_spec].
    destruct S as [Sin Smax]. split; [done|]. exists hs. split; [done|]. split; [apply best_hash_spec; [intros w' h' p' t' Hw; by destruct (B w' h' p' t')|done]|].
    intros w' h' p' t' Hw. by destruct (B w' h' p' t').
Qed.

(** C23: The distribution that is returned for a version, after any insertions, is the
    best that can be installed.  Nothing is returned only when no compatible file was
    inserted.  A wheel is returned with the highest hash result of all files and the
    highest priority of all wheels; the source distribution only when its hash result is
    higher than that of every compatible wheel.  An incompatible wheel stands in for a
    compatible source distribution when there is no compatible wheel.  When a wheel is
    returned, the index of the best wheel in the list of all wheels that are not
    excluded is within the list and points to it. *)
Theorem get_returns_best s ls : reachable s -> Forall listed_ok ls ->
  exists d s' o, fold_m insert_listed pd_default ls s = Ret (d, s') /\ pd_get d = Ret o /\
  match o with None => Forall (fun l => file_hash l = None) ls | Some c => chosen ls d c end.
Proof.
  intros Hs Hok. destruct (insertions_collect [] ls pd_default s Hs (default_collected s) Hok) as (d & s' & E & _ & _ & Hc).
  destruct (get_chosen ls d s' Hc) as (o & Eo & Ho). by exists d, s', o.
Qed.
End dist.
