(* ===== verification/PrioritizedWitness.v ===== *)
(** * Distributions of a concrete version

    The wheels and the source distribution of one version on the sample interner of
    [MarkerWitness], and the inputs on which the code departs from its comments. *)

From Stdlib Require Import ZArith Lia String.
From stdpp Require Import base list gmap relations.
From S2P Require Import Prelude.
From S2P Require Import VersionRepr.
From S2P Require Import PythonTags.
From S2P Require Import PlatformTags.
From S2P Require Import Tags.
From S2P Require Import DistExtension.
From S2P Require Import WheelTag.
From S2P Require Import WheelFilename.
From S2P Require Import RangeSet.
From S2P Require Import Stateful.
From S2P Require Import MarkerEdges.
From S2P Require Import MarkerTypes.
From S2P Require Import RangeInstances.
From S2P Require Import MarkerAlgebra.
From S2P Require Import MarkerTree.
From S2P Require Import MarkerTheorems.
From S2P Require Import MarkerTests.
From S2P Require Import MarkerWitness.
From S2P Require Import RequiresPythonWitness.
From S2P Require Import PrioritizedDist.
From S2P Require Import PrioritizedMarkers.
From S2P Require Import PrioritizedTheorems.
Open Scope Z_scope.

Definition wheel_named (text : string) : WheelFilename :=
  match wheel_from_str (H := bit_flags) (bs text) with Ret (Ok w) => w | _ => mkWheel [] (release_of [0]) (SmallTag (mkSmall LangNone AbiNone Any)) end.

Definition linux_name : string := "numpy-2.2.1-cp312-cp312-manylinux_2_17_x86_64.whl".
Definition linux_wheel : WheelFilename := wheel_named linux_name.


(** ** A version with two wheels and a source distribution *)

Definition plain_file (text : string) : File := mkFile false (bs text) [] None None None (AbsoluteUrl (bs "https://example.org")) None None.
Definition on_index (w : WheelFilename) : RegistryBuiltWheel unit := mkBuiltWheel w (plain_file linux_name) (IndexPypi tt) false.
Definition numpy_source : RegistrySourceDist unit := mkSource (bs "numpy") (release_of [2; 2; 1]) (plain_file "numpy-2.2.1.tar.gz") TarGz (IndexPypi tt) [] false.

Definition windows_wheel : WheelFilename := wheel_named "numpy-2.2.1-cp312-cp312-win_amd64.whl".

Definition numpy_files : list (Listed (U := unit)) := [
  ListedWheel (on_index windows_wheel) [] (WheelIncompatible (WheelTagIncompatible IncompatiblePlatform));
  ListedSource numpy_source [] (SourceCompatible Missing);
  ListedWheel (on_index linux_wheel) [] (WheelCompatible Missing (Some 10) None)].

Lemma numpy_files_ok : Forall listed_ok numpy_files.
Proof. repeat (apply Forall_cons_2; [vm_compute; repeat constructor; discriminate|]). constructor. Qed.


Lemma get_returns_best_witness : exists d s' c, fold_m insert_listed pd_default numpy_files sample = Ret (d, s') /\ pd_get (I := unit) d = Ret (Some c) /\ chosen numpy_files d c.
Proof.
  destruct (get_returns_best (I := unit) sample numpy_files (proj1 sample_spec) numpy_files_ok) as (d & s' & o & E & Eg & Ho). exists d, s'.
  destruct o as [c|]; [exists c; split; [exact E|]; split; [exact Eg|exact Ho]|]. exfalso. unfold numpy_files in Ho. rewrite !Forall_cons in Ho. destruct Ho as (_ & Hs & _). discriminate Hs.
Defined.

(** ** Where the code and its comments differ *)

(** A yank without a reason replaces one with a reason, and not the other way round. *)
Example yank_reason_lost :
  (incompatible_wheel_more (WheelYanked (YankedBool true)) (WheelYanked (YankedReason (bs "broken"))),
   incompatible_wheel_more (WheelYanked (YankedReason (bs "broken"))) (WheelYanked (YankedBool true))) = (true, false).
Proof. reflexivity. Qed.

(** Of two wheels after the cut-off time, the later one is kept. *)
Example later_excluded_preferred : incompatible_wheel_more (WheelExcludeNewer (Some 2000)) (WheelExcludeNewer (Some 1000)) = true.
Proof. reflexivity. Qed.

(** A collection that starts with an incompatible source distribution supports every
    environment; inserting the same into an empty one supports none. *)
Example from_source_ignores_compatibility :
  (pd_markers (from_source numpy_source [] (SourceIncompatible NoBuild)), pd_markers (insert_source pd_default numpy_source [] (SourceIncompatible NoBuild))) = (node_true, node_false).
Proof. reflexivity. Qed.

(** A [py37] wheel can be installed for Python 3.11, which its marker excludes. *)
Definition windows_env : MarkerEnvironment := {|
  implementation_name := bs "cpython"; implementation_version := sv "3.11.4" [3; 11; 4]; os_name := bs "nt";
  platform_machine := bs "AMD64"; platform_python_implementation := bs "CPython"; platform_release := bs "10";
  platform_system := bs "Windows"; platform_version := bs "1"; python_full_version := sv "3.11.4" [3; 11; 4];
  python_version := sv "3.11" [3; 11]; sys_platform := bs "win32" |}.

Example py37_marker_too_narrow : (wheel_is_compatible py37_wheel windows_tags, wheel_supports py37_wheel windows_env) = (true, false).
Proof. vm_compute. reflexivity. Qed.

(** The machines of a [fat] wheel for macOS: the tags of a 32-bit Intel machine accept it
    and those of a 64-bit one do not, its marker says the opposite. *)
Definition accepts_fat (a : Arch) : outcome bool := outcome_map (existsb (fun f => bytes_eqb (format_name f) (bs "fat"))) (format_from_arch a).
Definition fat_machine (f : BinaryFormat) : bool := existsb (fun g => bytes_eqb (format_name g) (format_name f)) (format_platform_machine Fat).

Example fat_machines : (accepts_fat X86, accepts_fat X86_64) = (Ret true, Ret false) /\ (fat_machine I386, fat_machine FX86_64) = (false, true).
Proof. vm_compute. split; reflexivity. Qed.
