(* ===== verification/UniversalMarker.v ===== *)
(** * Universal markers

    Models [crates/uv-resolver/src/universal_marker.rs], with the conflict items of
    [crates/uv-pypi-types/src/conflicts.rs]: the markers on the edges of a universal
    resolution, which combine environment markers with the extras, groups and projects
    that are declared to conflict.  An item is encoded as the name of an extra.

    A [BTreeSet] is the list of its elements in order, and a hash map the list of its
    entries in the order of its iteration, which is arbitrary. *)

From Stdlib Require Import ZArith Lia String.
From stdpp Require Import base list.
From S2P Require Import Prelude.
From S2P Require Import VersionRepr.
From S2P Require Import Normalize.
From S2P Require Import RangeSet.
From S2P Require Import Stateful.
From S2P Require Import MarkerEdges.
From S2P Require Import MarkerTypes.
From S2P Require Import RangeInstances.
From S2P Require Import MarkerAlgebra.
From S2P Require Import MarkerTree.
From S2P Require Import MarkerRestrict.
From S2P Require Import MarkerDnf.
Open Scope Z_scope.

(** ** Conflicts *)

Inductive ConflictKind := ConflictExtra (extra : Str) | ConflictGroup (group : Str) | ConflictProject.
Record ConflictItem := mkItem { item_package : Str; item_kind : ConflictKind }.

#[export] Instance ConflictKind_eq_dec : EqDecision ConflictKind.
Proof. solve_decision. Defined.
#[export] Instance ConflictItem_eq_dec : EqDecision ConflictItem.
Proof. solve_decision. Defined.

(** [ConflictItem::extra] and [ConflictItem::group] *)
Definition item_extra (i : ConflictItem) : option Str := match item_kind i with ConflictExtra extra => Some extra | _ => None end.
Definition item_group (i : ConflictItem) : option Str := match item_kind i with ConflictGroup group => Some group | _ => None end.

Definition ConflictSet : Type := list ConflictItem.
Definition Conflicts : Type := list ConflictSet.

Record Inference := mkInference { included : bool; inferred_item : ConflictItem }.

(** ** Encoding *)

(** [ExtraName::from_owned(...).unwrap()] *)
Definition extra_name_unwrap (name : Str) : outcome Str :=
  match validate_and_normalize_ref name with Ok name => Ret name | Err _ => Panic end.

Definition encoded (kind package : Str) (rest : Str) : Str :=
  kind ++ bs "-" ++ show_u64 (Z.of_nat (length package)) ++ bs "-" ++ package ++ rest.

Definition encode_package_extra (package extra : Str) : outcome Str := extra_name_unwrap (encoded (bs "extra") package (bs "-" ++ extra)).
Definition encode_package_group (package group : Str) : outcome Str := extra_name_unwrap (encoded (bs "group") package (bs "-" ++ group)).
Definition encode_project (package : Str) : outcome Str := extra_name_unwrap (encoded (bs "project") package []).

Definition encode_conflict_item (conflict : ConflictItem) : outcome Str :=
  match item_kind conflict with
  | ConflictExtra extra => encode_package_extra (item_package conflict) extra
  | ConflictGroup group => encode_package_group (item_package conflict) group
  | ConflictProject => encode_project (item_package conflict)
  end.

(** [ResolveError::InvalidExtraInConflictMarker] and [InvalidValueInConflictMarker] *)
Inductive ConflictMarkerError :=
| InvalidExtraInConflictMarker (reason raw_extra : Str)
| InvalidValueInConflictMarker (kind name_error : Str).

Inductive ParsedRawExtra := RawProject (package : Str) | RawExtra (package extra : Str) | RawGroup (package group : Str).

(** [ParsedRawExtra::parse] *)
Definition parse_raw_extra (raw_extra : Str) : result ParsedRawExtra ConflictMarkerError :=
  let mkerr reason := Err (InvalidExtraInConflictMarker reason raw_extra) in
  match split_once 45 raw_extra with
  | None => mkerr (bs "expected to find leading `package`, `extra-` or `group-`")
  | Some (kind, tail) =>
      match split_once 45 tail with
      | None => mkerr (bs "expected to find `{number}-` after leading `package-`, `extra-` or `group-`")
      | Some (len, tail) =>
          match parse_uint u64_max len with
          | None => mkerr (bs "found package length number `" ++ len ++ bs "`, but could not parse into integer")
          | Some len =>
              if Z.of_nat (length tail) <? len
              then mkerr (bs "expected at least " ++ show_u64 len ++ bs " bytes for package name, but found " ++ show_u64 (Z.of_nat (length tail)))
              else
                let package := take (Z.to_nat len) tail in
                let tail := drop (Z.to_nat len) tail in
                if bytes_eqb kind (bs "project") then Ok (RawProject package)
                else if bytes_eqb kind (bs "extra") || bytes_eqb kind (bs "group") then
                  match strip_prefix (bs "-") tail with
                  | None => mkerr (bs "expected `-` after package name `" ++ package ++ bs "`")
                  | Some tail => if bytes_eqb kind (bs "extra") then Ok (RawExtra package tail) else Ok (RawGroup package tail)
                  end
                else mkerr (bs "unrecognized kind `" ++ kind ++ bs "` (must be `extra` or `group`)")
          end
      end
  end.

Definition raw_package (raw : ParsedRawExtra) : Str := match raw with RawProject package | RawExtra package _ | RawGroup package _ => package end.

Definition parse_name_as (kind : string) (name : Str) : result Str ConflictMarkerError :=
  match validate_and_normalize_ref name with Ok name => Ok name | Err e => Err (InvalidValueInConflictMarker (bs kind) e) end.

(** [ParsedRawExtra::to_conflict_item] *)
Definition to_conflict_item (raw : ParsedRawExtra) : result ConflictItem ConflictMarkerError :=
  match parse_name_as "package" (raw_package raw) with
  | Err e => Err e
  | Ok package =>
      match raw with
      | RawProject _ => Ok (mkItem package ConflictProject)
      | RawExtra _ extra => match parse_name_as "extra" extra with Ok extra => Ok (mkItem package (ConflictExtra extra)) | Err e => Err e end
      | RawGroup _ group => match parse_name_as "group" group with Ok group => Ok (mkItem package (ConflictGroup group)) | Err e => Err e end
      end
  end.

Definition decode_conflict_item (raw_extra : Str) : result ConflictItem ConflictMarkerError :=
  match parse_raw_extra raw_extra with Ok parsed => to_conflict_item parsed | Err e => Err e end.

(** [ActivatedConflictItems::new] *)
Definition activated_conflict_items (projects : list Str) (extras groups : list (Str * Str)) : outcome (list Str) :=
  let! projects := map_o encode_project projects in
  let! extras := map_o (fun pe => encode_package_extra pe.1 pe.2) extras in
  let! groups := map_o (fun pg => encode_package_group pg.1 pg.2) groups in
  Ret (projects ++ extras ++ groups).

(** ** Markers *)

Record UniversalMarker := mkUniversal { um_marker : NodeId; um_pep508 : NodeId }.
Record ConflictMarker := mkConflictMarker { cm_marker : NodeId }.

Definition um_TRUE : UniversalMarker := mkUniversal node_true node_true.
Definition um_FALSE : UniversalMarker := mkUniversal node_false node_false.
Definition cm_TRUE : ConflictMarker := mkConflictMarker node_true.

(** [Itertools::tuple_combinations] for pairs *)
Fixpoint tuple_combinations {A} (l : list A) : list (A * A) :=
  match l with [] => [] | x :: l => map (pair x) l ++ tuple_combinations l end.

Section universal.
Context {RV RS : Type} `{!RangeSet Version RV} `{!RangeSet Str RS}.
Abbreviation Interner := (InternerOf RV RS).

(** *** [ConflictMarker] *)

Definition extra_marker (encoded : outcome Str) : M Interner ConflictMarker :=
  let* name := mlift encoded in
  let* marker := expression (EExtra (ExtraNameValue name) ExtraEqual) in
  mpure (mkConflictMarker marker).

Definition cm_project (package : Str) : M Interner ConflictMarker := extra_marker (encode_project package).
Definition cm_extra (package extra : Str) : M Interner ConflictMarker := extra_marker (encode_package_extra package extra).
Definition cm_group (package group : Str) : M Interner ConflictMarker := extra_marker (encode_package_group package group).

Definition from_conflict_item (item : ConflictItem) : M Interner ConflictMarker :=
  match item_kind item with
  | ConflictExtra extra => cm_extra (item_package item) extra
  | ConflictGroup group => cm_group (item_package item) group
  | ConflictProject => cm_project (item_package item)
  end.

Definition cm_negate (m : ConflictMarker) : ConflictMarker := mkConflictMarker (node_not (cm_marker m)).
Definition cm_or (m n : ConflictMarker) : M Interner ConflictMarker := let* r := interner_or (cm_marker m) (cm_marker n) in mpure (mkConflictMarker r).
Definition cm_and (m n : ConflictMarker) : M Interner ConflictMarker := let* r := interner_and (cm_marker m) (cm_marker n) in mpure (mkConflictMarker r).
Definition cm_is_true (m : ConflictMarker) : bool := cm_marker m =? node_true.
Definition cm_is_constant (m : ConflictMarker) : bool := (cm_marker m =? node_true) || (cm_marker m =? node_false).

(** One pair of a set: not both. *)
Definition exclude_pair (marker : ConflictMarker) (items : ConflictItem * ConflictItem) : M Interner ConflictMarker :=
  let* item1 := from_conflict_item items.1 in
  let* item2 := from_conflict_item items.2 in
  let* pair := cm_or (cm_negate item1) (cm_negate item2) in
  cm_and marker pair.

Definition from_conflicts (conflicts : Conflicts) : M Interner ConflictMarker :=
  match conflicts with
  | [] => mpure cm_TRUE
  | _ => fold_m (fun marker set => fold_m exclude_pair marker (tuple_combinations set)) cm_TRUE conflicts
  end.

Fixpoint decode_all (raw : list Str) : result (list ConflictItem) ConflictMarkerError :=
  match raw with
  | [] => Ok []
  | extra :: raw =>
      match decode_conflict_item extra with
      | Err e => Err e
      | Ok item => match decode_all raw with Ok items => Ok (item :: items) | Err e => Err e end
      end
  end.

Definition is_op (wanted : MarkerOperator) (call : MarkerOperator * Str) : bool := bool_decide (call.1 = wanted).

(** [ConflictMarker::filter_rules] *)
Definition filter_rules (s : Interner) (m : ConflictMarker) : outcome (result (list ConflictItem * list ConflictItem) ConflictMarkerError) :=
  let! calls := visit_extras s (cm_marker m) in
  if negb (forallb (fun call => is_op MEqual call || is_op MNotEqual call) calls) then Panic
  else
    Ret match decode_all (map snd (List.filter (is_op MEqual) calls)) with
        | Err e => Err e
        | Ok include =>
            match decode_all (map snd (List.filter (is_op MNotEqual) calls)) with
            | Err e => Err e
            | Ok exclude => Ok (include, exclude)
            end
        end.

(** *** [UniversalMarker] *)

Definition um_from_combined (marker : NodeId) : M Interner UniversalMarker :=
  let* pep508 := without_extras marker in
  mpure (mkUniversal marker pep508).

Definition um_new (pep508_marker : NodeId) (conflict_marker : ConflictMarker) : M Interner UniversalMarker :=
  let* marker := interner_and pep508_marker (cm_marker conflict_marker) in
  um_from_combined marker.

Definition um_or (u other : UniversalMarker) : M Interner UniversalMarker :=
  let* marker := interner_or (um_marker u) (um_marker other) in
  let* pep508 := interner_or (um_pep508 u) (um_pep508 other) in
  mpure (mkUniversal marker pep508).

Definition um_and (u other : UniversalMarker) : M Interner UniversalMarker :=
  let* marker := interner_and (um_marker u) (um_marker other) in
  let* pep508 := interner_and (um_pep508 u) (um_pep508 other) in
  mpure (mkUniversal marker pep508).

Definition um_imbibe (u : UniversalMarker) (conflicts : ConflictMarker) : M Interner UniversalMarker :=
  if cm_marker conflicts =? node_true then mpure u
  else
    let* marker := implies (cm_marker conflicts) (um_marker u) in
    um_from_combined marker.

(** One inference of a set. *)
Definition infer (marker : NodeId) (inference : Inference) : M Interner NodeId :=
  let* extra := mlift (encode_conflict_item (inferred_item inference)) in
  if included inference then simplify_extras_with marker (fun candidate => bytes_eqb candidate extra)
  else simplify_not_extras_with marker (fun candidate => bytes_eqb candidate extra).

(** The loop of [unify_inference_sets]: the marker that all sets give, [None] when two
    sets give different ones. *)
Fixpoint unify_loop (self : NodeId) (previous : option NodeId) (conflict_sets : list (list Inference)) : M Interner (option (option NodeId)) :=
  match conflict_sets with
  | [] => mpure (Some previous)
  | set :: conflict_sets =>
      let* marker := fold_m infer self set in
      match previous with
      | Some previous_marker => if negb (previous_marker =? marker) then mpure None else unify_loop self previous conflict_sets
      | None => unify_loop self (Some marker) conflict_sets
      end
  end.

Definition unify_inference_sets (u : UniversalMarker) (conflict_sets : list (list Inference)) : M Interner UniversalMarker :=
  let* all := unify_loop (um_marker u) None conflict_sets in
  match all with
  | Some (Some all_branches_marker) => um_from_combined all_branches_marker
  | _ => mpure u
  end.

Definition assume (u : UniversalMarker) (encoded : outcome Str) : M Interner UniversalMarker :=
  let* extra := mlift encoded in
  let* marker := simplify_extras_with (um_marker u) (fun candidate => bytes_eqb candidate extra) in
  um_from_combined marker.

Definition assume_not (u : UniversalMarker) (encoded : outcome Str) : M Interner UniversalMarker :=
  let* extra := mlift encoded in
  let* marker := simplify_not_extras_with (um_marker u) (fun candidate => bytes_eqb candidate extra) in
  um_from_combined marker.

Definition assume_project (u : UniversalMarker) (package : Str) := assume u (encode_project package).
Definition assume_not_project (u : UniversalMarker) (package : Str) := assume_not u (encode_project package).
Definition assume_extra (u : UniversalMarker) (package extra : Str) := assume u (encode_package_extra package extra).
Definition assume_not_extra (u : UniversalMarker) (package extra : Str) := assume_not u (encode_package_extra package extra).
Definition assume_group (u : UniversalMarker) (package group : Str) := assume u (encode_package_group package group).
Definition assume_not_group (u : UniversalMarker) (package group : Str) := assume_not u (encode_package_group package group).

Definition assume_conflict_item (u : UniversalMarker) (item : ConflictItem) : M Interner UniversalMarker :=
  match item_kind item with
  | ConflictExtra extra => assume_extra u (item_package item) extra
  | ConflictGroup group => assume_group u (item_package item) group
  | ConflictProject => assume_project u (item_package item)
  end.

Definition assume_not_conflict_item (u : UniversalMarker) (item : ConflictItem) : M Interner UniversalMarker :=
  match item_kind item with
  | ConflictExtra extra => assume_not_extra u (item_package item) extra
  | ConflictGroup group => assume_not_group u (item_package item) group
  | ConflictProject => assume_not_project u (item_package item)
  end.

Definition um_is_true (u : UniversalMarker) : bool := um_marker u =? node_true.
Definition um_is_false (u : UniversalMarker) : bool := um_marker u =? node_false.
Definition has_conflict_marker (u : UniversalMarker) : bool := negb (um_marker u =? um_pep508 u).
Definition um_is_disjoint (u other : UniversalMarker) : M Interner bool := is_disjoint (um_marker u) (um_marker other).
Definition evaluate_no_extras (s : Interner) (u : UniversalMarker) (env : MarkerEnvironment) : outcome bool := evaluate s (um_marker u) env [].

Definition evaluate_activated (s : Interner) (u : UniversalMarker) (env : MarkerEnvironment) (activated : list Str) : outcome bool :=
  evaluate s (um_marker u) env activated.

Definition um_evaluate (s : Interner) (u : UniversalMarker) (env : MarkerEnvironment) (projects : list Str) (extras groups : list (Str * Str)) : outcome bool :=
  let! activated := activated_conflict_items projects extras groups in
  evaluate_activated s u env activated.

Definition um_evaluate_only_extras (s : Interner) (u : UniversalMarker) (extras groups : list (Str * Str)) : outcome bool :=
  let! extras := map_o (fun pe => encode_package_extra pe.1 pe.2) extras in
  let! groups := map_o (fun pg => encode_package_group pg.1 pg.2) groups in
  evaluate_only_extras (S (enough s)) s (extras ++ groups) (um_marker u).

Definition um_conflict (u : UniversalMarker) : M Interner ConflictMarker :=
  let* marker := only_extras (um_marker u) in mpure (mkConflictMarker marker).

(** A clause of the normal form in an environment: the conjunction of its extras, or
    [None] when another expression is false. *)
Fixpoint conflict_clause (env : MarkerEnvironment) (conflict : NodeId) (conjunction : Clause) : M Interner (option NodeId) :=
  match conjunction with
  | [] => mpure (Some conflict)
  | e :: conjunction =>
      let* m := expression e in
      match e with
      | EExtra _ _ => let* conflict := interner_and conflict m in conflict_clause env conflict conjunction
      | _ =>
          let* s := mget in
          let* holds := mlift (evaluate s m env []) in
          if holds : bool then conflict_clause env conflict conjunction else mpure None
      end
  end.

Definition conflict_round (env : MarkerEnvironment) (remaining : NodeId) (conjunction : Clause) : M Interner NodeId :=
  let* conflict := conflict_clause env node_true conjunction in
  match conflict with Some conflict => interner_or remaining conflict | None => mpure remaining end.

(** [UniversalMarker::conflict_for_environment] *)
Definition conflict_for_environment (u : UniversalMarker) (env : MarkerEnvironment) : M Interner ConflictMarker :=
  let* s := mget in
  let* dnf := mlift (to_dnf s (um_marker u)) in
  let* remaining := fold_m (conflict_round env) node_false dnf in
  mpure (mkConflictMarker remaining).

(** *** [resolve_activated_extras] *)

(** The loop over the known conflicts: the marker of the item that is encoded as [name]. *)
Fixpoint find_known (name : Str) (known_conflicts : list (ConflictItem * NodeId)) : outcome (option NodeId) :=
  match known_conflicts with
  | [] => Ret None
  | (item, marker) :: known_conflicts =>
      let! encoded := encode_conflict_item item in
      if bytes_eqb encoded name then Ret (Some marker) else find_known name known_conflicts
  end.

(** [HashMap::get] *)
Definition get_known (item : ConflictItem) (known_conflicts : list (ConflictItem * NodeId)) : option NodeId :=
  option_map snd (List.find (fun known => bool_decide (known.1 = item)) known_conflicts).

Definition known_marker (scope_package : option Str) (known_conflicts : list (ConflictItem * NodeId)) (name : Str) : outcome (option NodeId) :=
  let! found := find_known name known_conflicts in
  Ret match found, scope_package with
      | Some marker, _ => Some marker
      | None, Some package => get_known (mkItem package (ConflictExtra name)) known_conflicts
      | None, None => None
      end.

Definition resolve_term (scope_package : option Str) (known_conflicts : list (ConflictItem * NodeId)) (conj : NodeId) (e : MarkerExpression) : M Interner NodeId :=
  let keep := let* m := expression e in interner_and conj m in
  match e with
  | EExtra name operator =>
      match as_extra name with
      | None => keep
      | Some name =>
          let* found := mlift (known_marker scope_package known_conflicts name) in
          match found, operator with
          | Some marker, ExtraEqual => interner_and conj marker
          | Some marker, ExtraNotEqual => interner_and conj (node_not marker)
          | None, ExtraEqual => interner_and conj node_false
          | None, ExtraNotEqual => interner_and conj node_true
          end
      end
  | _ => keep
  end.

Definition resolve_round (scope_package : option Str) (known_conflicts : list (ConflictItem * NodeId)) (transformed : NodeId) (conjunction : Clause) : M Interner NodeId :=
  let* conj := fold_m (resolve_term scope_package known_conflicts) node_true conjunction in
  interner_or transformed conj.

Definition resolve_activated_extras (marker : NodeId) (scope_package : option Str) (known_conflicts : list (ConflictItem * NodeId)) : M Interner NodeId :=
  if (marker =? node_true) || (marker =? node_false) then mpure marker
  else
    let* s := mget in
    let* dnf := mlift (to_dnf s marker) in
    fold_m (resolve_round scope_package known_conflicts) node_false dnf.
End universal.
