(* ===== verification/UniversalTheorems.v ===== *)
(** * What universal markers mean

    The encoding of conflict items is unambiguous; the marker of the declared conflicts
    holds when no two conflicting items are active; the operations on universal markers
    evaluate to what they say; and the conflicts of a marker can be resolved in an
    environment. *)

From Stdlib Require Import ZArith Lia String.
From stdpp Require Import base list relations.
From S2P Require Import Prelude.
From S2P Require Import VersionRepr.
From S2P Require Import Normalize.
From S2P Require Import RangeSet.
From S2P Require Import Stateful.
From S2P Require Import MarkerEdges.
From S2P Require Import MarkerTypes.
From S2P Require Import RangeInstances.
From S2P Require Import MarkerAlgebra.
From S2P Require Import MarkerStore.
From S2P Require Import MarkerOps.
From S2P Require Import MarkerConj.
From S2P Require Import MarkerTree.
From S2P Require Import MarkerRestrict.
From S2P Require Import MarkerVersion.
From S2P Require Import MarkerExpr.
From S2P Require Import MarkerDnf.
From S2P Require Import MarkerPaths.
From S2P Require Import MarkerTheorems.
From S2P Require Import MarkerTests.
From S2P Require Import UniversalMarker.
Open Scope Z_scope.

(** ** Encoding *)

(** Names in normal form, of a length that fits a [usize]. *)
Definition item_ok (i : ConflictItem) : Prop :=
  normal_name (item_package i) = true /\ Z.of_nat (length (item_package i)) <= u64_max /\
  match item_kind i with ConflictExtra n | ConflictGroup n => normal_name n = true | ConflictProject => True end.

(** The name that an item is encoded as. *)
Definition encoding (i : ConflictItem) : Str :=
  match item_kind i with
  | ConflictExtra extra => encoded (bs "extra") (item_package i) (bs "-" ++ extra)
  | ConflictGroup group => encoded (bs "group") (item_package i) (bs "-" ++ group)
  | ConflictProject => encoded (bs "project") (item_package i) []
  end.

Lemma normal_run_join prev l k : normal_run prev l = true -> normal_run true k = true -> normal_run prev (l ++ 45 :: k) = true.
Proof.
  revert prev. induction l as [|c l IH]; intros prev Hl Hk; cbn [normal_run app] in *; [by rewrite Hl|].
  destruct (c =? 45); apply andb_true_iff in Hl as [-> Hl]; by rewrite IH.
Qed.

Lemma digits_run prev l : Forall (fun b => is_ascii_digit b = true) l -> l <> [] -> normal_run prev l = true.
Proof.
  intros Hl. revert prev. induction Hl as [|c l Hc Hl IH]; intros prev Hne; [done|]. cbn [normal_run]. assert ((c =? 45) = false) as -> by (unfold is_ascii_digit in Hc; lia).
  rewrite Hc, orb_true_r. destruct l; [done|]. by apply IH.
Qed.

Lemma encoded_normal kind package rest : normal_name kind = true -> normal_name package = true -> Z.of_nat (length package) <= u64_max ->
  rest = [] \/ (exists n, rest = bs "-" ++ n /\ normal_name n = true) -> normal_name (encoded kind package rest) = true.
Proof.
  intros Hk Hp Hl Hr. destruct (show_u64_spec (Z.of_nat (length package))) as (Hne & Hd & _); [unfold is_u64; lia|]. unfold encoded, normal_name in *.
  apply normal_run_join; [done|]. apply normal_run_join; [by apply digits_run|]. destruct Hr as [->|(n & -> & Hn)]; [by rewrite app_nil_r|]. by apply normal_run_join.
Qed.

Lemma encoding_normal i : item_ok i -> normal_name (encoding i) = true.
Proof. intros (Hp & Hl & Hk). unfold encoding. destruct (item_kind i); apply encoded_normal; try done; [right|right|by left]; by eexists. Qed.

Lemma encode_item i : item_ok i -> encode_conflict_item i = Ret (encoding i).
Proof.
  intros Hi. pose proof (validate_normal _ (encoding_normal i Hi)) as E. unfold encode_conflict_item, encoding, encode_package_extra, encode_package_group, encode_project, extra_name_unwrap in *.
  destruct (item_kind i); by rewrite E.
Qed.

Lemma digits_no_dash l : Forall (fun b => is_ascii_digit b = true) l -> Forall (fun c => c <> 45) l.
Proof. intros H. eapply Forall_impl; [exact H|]. intros c Hc. unfold is_ascii_digit in Hc. lia. Qed.

(** The parts of an encoded name. *)
Lemma parse_encoded (kind : string) package rest : (kind = "extra" \/ kind = "group" \/ kind = "project")%string -> Z.of_nat (length package) <= u64_max ->
  parse_raw_extra (encoded (bs kind) package rest) =
  if bytes_eqb (bs kind) (bs "project") then Ok (RawProject package)
  else match strip_prefix (bs "-") rest with
       | None => Err (InvalidExtraInConflictMarker (bs "expected `-` after package name `" ++ package ++ bs "`") (encoded (bs kind) package rest))
       | Some tail => if bytes_eqb (bs kind) (bs "extra") then Ok (RawExtra package tail) else Ok (RawGroup package tail)
       end.
Proof.
  intros Hk Hl. destruct (show_u64_spec (Z.of_nat (length package))) as (Hne & Hd & _); [unfold is_u64; lia|]. unfold parse_raw_extra, encoded.
  assert (Hkind : Forall (fun c => c <> 45) (bs kind)) by (destruct Hk as [->|[->| ->]]; by repeat constructor).
  change (bs "-") with [45] in *. cbn [app]. rewrite split_once_app by done. rewrite split_once_app by (by apply digits_no_dash).
  rewrite parse_uint_show by (unfold u64_max in *; lia). destruct (Z.ltb_spec (Z.of_nat (length (package ++ rest))) (Z.of_nat (length package))); [rewrite length_app in *; lia|].
  rewrite Nat2Z.id, take_app_length, drop_app_length. destruct Hk as [->|[->| ->]]; reflexivity.
Qed.

Lemma parse_encoding i : item_ok i -> parse_raw_extra (encoding i) =
  Ok match item_kind i with ConflictExtra extra => RawExtra (item_package i) extra | ConflictGroup group => RawGroup (item_package i) group | ConflictProject => RawProject (item_package i) end.
Proof. intros (_ & Hl & _). unfold encoding. destruct (item_kind i); rewrite parse_encoded by (auto || done); reflexivity. Qed.

Lemma decode_encoding i : item_ok i -> decode_conflict_item (encoding i) = Ok i.
Proof.
  intros Hi. unfold decode_conflict_item. rewrite parse_encoding by done. destruct Hi as (Hp & _ & Hk). unfold to_conflict_item, parse_name_as.
  destruct i as [package [extra|group|]]; cbn [item_package item_kind raw_package] in *; by rewrite !validate_normal by done.
Qed.

Lemma encoding_inj i j : item_ok i -> item_ok j -> encoding i = encoding j -> i = j.
Proof. intros Hi Hj E. pose proof (decode_encoding i Hi) as Ei. rewrite E, (decode_encoding j Hj) in Ei. congruence. Qed.

(** C32: The encoding of the items of conflicts (extras, groups and projects of packages) as
    names of extras is unambiguous: it never panics, the result is a normalised name, and
    it is parsed back to the item, so that different items have different names. *)
Theorem conflict_item_roundtrip i : item_ok i ->
  exists name, encode_conflict_item i = Ret name /\ validate_and_normalize_ref name = Ok name /\ decode_conflict_item name = Ok i /\
  forall j, item_ok j -> encode_conflict_item j = Ret name -> j = i.
Proof.
  intros Hi. exists (encoding i). split; [by apply encode_item|]. split; [by apply validate_normal, encoding_normal|]. split; [by apply decode_encoding|].
  intros j Hj E. rewrite encode_item in E by done. injection E as E. by apply encoding_inj.
Qed.

(** ** The marker of the declared conflicts *)

Section universal.
Context {RV RS : Type} `{!RangeSet Version RV} `{!RangeSetLaws Version RV}.
Context `{!RangeSet Str RS} `{!RangeSetLaws Str RS}.
Abbreviation Interner := (InternerOf RV RS).
Implicit Types (s : Interner) (id : NodeId) (u : UniversalMarker) (i : ConflictItem).

(** An item is among the active extras. *)
Definition item_active (extras : ExtrasEnvironment) i : bool := names_contain (env_extra extras) (encoding i).

Lemma item_runs s i : reachable s -> item_ok i ->
  runs reachable ext (from_conflict_item i) s (fun m s' => marker_holds s' (cm_marker m) (fun _ extras => item_active extras i)).
Proof.
  intros Hs Hi. pose proof (encode_item i Hi) as E. unfold from_conflict_item, encode_conflict_item, cm_extra, cm_group, cm_project, extra_marker in *.
  destruct (item_kind i); run_read E; (refine (runs_seq _ _ _ _ _ _ _ (expression_holds s (EExtra (ExtraNameValue (encoding i)) ExtraEqual) Hs eq_refl) _));
    intros m s' Hs' He Hm; (run_pure; [done|exact Hm]).
Qed.

Lemma cm_or_runs s m n p q : reachable s -> marker_holds s (cm_marker m) p -> marker_holds s (cm_marker n) q ->
  runs reachable ext (cm_or m n) s (fun r s' => marker_holds s' (cm_marker r) (fun env extras => p env extras || q env extras)).
Proof. intros Hs Hm Hn. refine (runs_seq _ _ _ _ _ _ _ (or_holds s _ _ _ _ Hs Hm Hn) _). intros r s' Hs' He Hr. by run_pure. Qed.

Lemma cm_and_runs s m n p q : reachable s -> marker_holds s (cm_marker m) p -> marker_holds s (cm_marker n) q ->
  runs reachable ext (cm_and m n) s (fun r s' => marker_holds s' (cm_marker r) (fun env extras => p env extras && q env extras)).
Proof. intros Hs Hm Hn. refine (runs_seq _ _ _ _ _ _ _ (and_holds s _ _ _ _ Hs Hm Hn) _). intros r s' Hs' He Hr. by run_pure. Qed.

(** No pair of a list is active. *)
Definition no_pair (active : ConflictItem -> bool) (items : list ConflictItem) : bool :=
  forallb (fun p => negb (active p.1 && active p.2)) (tuple_combinations items).

Lemma exclude_runs s m p items : reachable s -> marker_holds s (cm_marker m) p -> item_ok items.1 -> item_ok items.2 ->
  runs reachable ext (exclude_pair m items) s (fun m' s' => marker_holds s' (cm_marker m')
    (fun env extras => p env extras && negb (item_active extras items.1 && item_active extras items.2))).
Proof.
  intros Hs Hm H1 H2. unfold exclude_pair. refine (runs_seq _ _ _ _ _ _ _ (item_runs s _ Hs H1) _). intros m1 s1 Hs1 He1 Hm1.
  refine (runs_seq _ _ _ _ _ _ _ (item_runs s1 _ Hs1 H2) _). intros m2 s2 Hs2 He2 Hm2. pose proof (holds_ext s1 s2 _ _ Hs1 Hs2 He2 Hm1) as Hm1'.
  refine (runs_seq _ _ _ _ _ _ _ (cm_or_runs s2 (cm_negate m1) (cm_negate m2) _ _ Hs2 (holds_not s2 _ _ Hs2 Hm1') (holds_not s2 _ _ Hs2 Hm2)) _).
  intros m3 s3 Hs3 He3 Hm3. assert (ext s s3) as He by (etrans; [exact He1|etrans; [exact He2|exact He3]]).
  run_weaken; [exact (cm_and_runs s3 _ _ _ _ Hs3 (holds_ext s s3 _ _ Hs Hs3 He Hm) Hm3)|]. intros r s4 _ _.
  apply holds_same. intros env extras _ _. by rewrite negb_andb.
Qed.

(** Folds whose rounds each add a condition. *)
Lemma fold_and_holds {A B} (mk : B -> NodeId) (f : B -> A -> M Interner B) (g : ExtrasEnvironment -> A -> bool) l :
  (forall s b (p : MarkerEnvironment -> ExtrasEnvironment -> bool) a, a ∈ l -> reachable s -> marker_holds s (mk b) p ->
    runs reachable ext (f b a) s (fun r s' => marker_holds s' (mk r) (fun env extras => p env extras && g extras a))) ->
  forall s b (p : MarkerEnvironment -> ExtrasEnvironment -> bool), reachable s -> marker_holds s (mk b) p ->
    runs reachable ext (fold_m f b l) s (fun r s' => marker_holds s' (mk r) (fun env extras => p env extras && forallb (g extras) l)).
Proof.
  induction l as [|a l IH]; intros Hf s b p Hs Hb; cbn [fold_m forallb].
  - run_pure; [done|]. eapply holds_same; [|exact Hb]. intros env extras _ _. by rewrite andb_true_r.
  - refine (runs_seq _ _ _ _ _ _ _ (Hf s b p a (list_elem_of_here _ _) Hs Hb) _). intros r s' Hs' He Hr. run_weaken; [apply IH; [|exact Hs'|exact Hr]|].
    + intros s2 b2 p2 a2 Ha. apply Hf. by right.
    + cbv beta. intros t s2 _ _. apply holds_same. intros env extras _ _. by rewrite andb_assoc.
Qed.

Lemma tuple_combinations_elem {A} (l : list A) x y : (x, y) ∈ tuple_combinations l -> x ∈ l /\ y ∈ l.
Proof.
  induction l as [|a l IH]; cbn [tuple_combinations]; [by intros ?%elem_of_nil|]. intros [H|H]%elem_of_app.
  - apply elem_of_map in H as (b & [= -> ->] & Hb). split; [by left|by right].
  - destruct (IH H). split; by right.
Qed.

Lemma from_conflicts_runs s conflicts : reachable s -> Forall (Forall item_ok) conflicts ->
  runs reachable ext (from_conflicts conflicts) s (fun m s' => marker_holds s' (cm_marker m) (fun _ extras => forallb (no_pair (item_active extras)) conflicts)).
Proof.
  intros Hs Hc. unfold from_conflicts. assert (Ht : marker_holds s (cm_marker cm_TRUE) (fun _ _ => true)) by apply holds_true.
  assert (runs reachable ext (fold_m (fun marker set => fold_m exclude_pair marker (tuple_combinations set)) cm_TRUE conflicts) s
    (fun m s' => marker_holds s' (cm_marker m) (fun _ extras => forallb (no_pair (item_active extras)) conflicts))) as H'.
  - apply (fold_and_holds cm_marker _ (fun extras => no_pair (item_active extras)) conflicts) with (p := fun _ _ => true); [|done|done].
    intros s1 m p set Hset Hs1 Hm. apply (fold_and_holds cm_marker exclude_pair (fun extras q => negb (item_active extras q.1 && item_active extras q.2))); [|done|done].
    intros s2 m2 p2 [i j] Hij Hs2 Hm2. apply tuple_combinations_elem in Hij as [Hi Hj]. rewrite Forall_forall in Hc. pose proof (Hc set Hset) as Hset'.
    rewrite Forall_forall in Hset'. apply exclude_runs; auto.
  - destruct conflicts; [by run_pure|exact H'].
Qed.

(** The items that are activated. *)
Definition activated_items (projects : list Str) (extras groups : list (Str * Str)) : list ConflictItem :=
  map (fun package => mkItem package ConflictProject) projects ++
  map (fun pe => mkItem pe.1 (ConflictExtra pe.2)) extras ++
  map (fun pg => mkItem pg.1 (ConflictGroup pg.2)) groups.

Lemma map_o_items {A} (f : A -> outcome Str) (g : A -> ConflictItem) l :
  (forall a, encode_conflict_item (g a) = f a) -> Forall item_ok (map g l) -> map_o f l = Ret (map encoding (map g l)).
Proof.
  intros Hf. induction l as [|a l IH]; intros Hl; [done|]. apply Forall_cons in Hl as [Ha Hl]. cbn [map_o map]. rewrite <- Hf, encode_item by done. cbn [obind].
  by rewrite IH.
Qed.

Lemma activated_names projects extras groups : Forall item_ok (activated_items projects extras groups) ->
  activated_conflict_items projects extras groups = Ret (map encoding (activated_items projects extras groups)).
Proof.
  intros (H1 & H2 & H3)%(fun H => conj (proj1 (proj1 (Forall_app _ _ _) H)) (proj1 (Forall_app _ _ _) (proj2 (proj1 (Forall_app _ _ _) H)))).
  unfold activated_conflict_items. rewrite (map_o_items _ (fun package => mkItem package ConflictProject)) by done. cbn [obind].
  rewrite (map_o_items _ (fun pe => mkItem pe.1 (ConflictExtra pe.2))) by done. cbn [obind].
  rewrite (map_o_items _ (fun pg => mkItem pg.1 (ConflictGroup pg.2))) by done. cbn [obind]. unfold activated_items. by rewrite !map_app.
Qed.

Lemma item_active_iff items i : Forall item_ok items -> item_ok i -> item_active (EnvExtras (map encoding items)) i = true <-> i ∈ items.
Proof.
  intros Hl Hi. unfold item_active, names_contain. cbn [env_extra]. rewrite existsb_exists. setoid_rewrite bytes_eqb_eq. rewrite Forall_forall in Hl. split.
  - intros (name & Hin & <-). apply in_map_iff in Hin as (j & E & Hj%list_elem_of_In). by rewrite <- (encoding_inj j i) by auto.
  - intros Hin. exists (encoding i). split; [|done]. by apply in_map, list_elem_of_In.
Qed.

Lemma no_pair_iff active l : NoDup l -> no_pair active l = true <-> forall i j, i ∈ l -> j ∈ l -> i <> j -> active i && active j = false.
Proof.
  intros Hl. unfold no_pair. induction Hl as [|i l Hi Hl IH]; [split; [intros _ i j ?%elem_of_nil|]; done|]. cbn [tuple_combinations]. rewrite forallb_app, andb_true_iff, IH, forallb_forall. split.
  - intros [H1 H2] j k Hj Hk Hne. assert (Hx : forall j, j ∈ l -> active i && active j = false).
    { intros x Hx. apply negb_true_iff, (H1 (i, x)), in_map, list_elem_of_In, Hx. }
    apply elem_of_cons in Hj as [->|Hj], Hk as [->|Hk]; [done|by apply Hx|rewrite andb_comm; by apply Hx|by apply H2].
  - intros H. split; [|intros j k Hj Hk Hne; apply H; [by right|by right|done]]. intros x (j & <- & Hj%list_elem_of_In)%in_map_iff. cbn [fst snd]. apply negb_true_iff, H; [by left|by right|]. by intros ->.
Qed.

(** C28: The marker that is built for the declared conflicts evaluates, for the projects,
    extras and groups that are activated, to whether no two different items of a declared
    set are active together. *)
Theorem conflicts_exclude_pairs s conflicts : reachable s -> Forall (fun set => NoDup set /\ Forall item_ok set) conflicts ->
  exists m s', from_conflicts conflicts s = Ret (m, s') /\ marker s' (cm_marker m) /\
  forall pep508 env projects extras groups, env_release env -> possible_env env -> Forall item_ok (activated_items projects extras groups) ->
    exists b, um_evaluate s' (mkUniversal (cm_marker m) pep508) env projects extras groups = Ret b /\
    (b = true <-> forall set i j, set ∈ conflicts -> i ∈ set -> j ∈ set -> i <> j ->
      ~ (i ∈ activated_items projects extras groups /\ j ∈ activated_items projects extras groups)).
Proof.
  intros Hs Hc. destruct (from_conflicts_runs s conflicts Hs) as (m & s' & E & Hs' & _ & Hm & Hev); [eapply Forall_impl; [exact Hc|by intros set []]|].
  exists m, s'. split; [done|]. split; [done|]. intros pep508 env projects extras groups Hr Hp Hi. unfold um_evaluate. rewrite activated_names by done. cbn [obind].
  unfold evaluate_activated, evaluate. cbn [um_marker]. rewrite Hev by done. eexists. split; [done|]. rewrite forallb_forall.
  set (items := activated_items projects extras groups) in *. rewrite Forall_forall in Hc. split.
  - intros H set i j Hset Hin Hjn Hne [Hi1 Hj1]. destruct (Hc set Hset) as [Hnd Hok]. rewrite Forall_forall in Hok.
    pose proof (proj1 (no_pair_iff _ set Hnd) (H set (proj1 (list_elem_of_In _ _) Hset)) i j Hin Hjn Hne) as Hf.
    by rewrite (proj2 (item_active_iff items i Hi (Hok i Hin)) Hi1), (proj2 (item_active_iff items j Hi (Hok j Hjn)) Hj1) in Hf.
  - intros H set Hset%list_elem_of_In. destruct (Hc set Hset) as [Hnd Hok]. rewrite Forall_forall in Hok. apply no_pair_iff; [done|]. intros i j Hin Hjn Hne.
    apply not_true_iff_false. intros [Hi1 Hj1]%andb_true_iff. apply (H set i j Hset Hin Hjn Hne). split; apply (item_active_iff items); auto.
Qed.

(** ** Assumptions about items *)

(** The active extras with one of them fixed. *)
Definition fix_extra (b : bool) (name : Str) (active : list Str) : list Str :=
  if b then name :: active else List.filter (fun candidate => negb (bytes_eqb candidate name)) active.

Lemma fix_extra_spec b name active candidate :
  names_contain (fix_extra b name active) candidate = if bytes_eqb candidate name then b else names_contain active candidate.
Proof.
  unfold fix_extra, names_contain. destruct b; [cbn [existsb]; by destruct (bytes_eqb candidate name)|]. induction active as [|a active IH]; cbn [List.filter existsb]; [by destruct (bytes_eqb _ _)|].
  destruct (bytes_eqb a name) eqn:Ea; cbn [negb existsb]; rewrite IH; [apply bytes_eqb_eq in Ea as ->; by destruct (bytes_eqb candidate name)|].
  destruct (bytes_eqb candidate name) eqn:Ec; [|done]. apply bytes_eqb_eq in Ec as ->. destruct (bytes_eqb name a) eqn:En; [|done].
  apply bytes_eqb_eq in En as ->. by rewrite (proj2 (bytes_eqb_eq a a) eq_refl) in Ea.
Qed.

Lemma fixed_runs s x name (b : bool) : reachable s -> marker s x ->
  runs reachable ext (restrict_by x (fun var => match var with VExtra n => if bytes_eqb n name then Some b else None | _ => None end)) s
    (fun r s' => marker s' r /\ (VExtra name ∉ support s' r) /\
      forall env active, env_ok env -> evaluate s' r env active = evaluate s x env (fix_extra b name active)).
Proof.
  intros Hr Hx. pose proof (reachable_ok s Hr) as Hs. set (f := fun var : Var => match var with VExtra n => if bytes_eqb n name then Some b else None | _ => None end).
  destruct (restrict_by_spec s x f Hs (proj1 Hx)) as (r & s' & E & Hs' & He & Vx & Vr & Hsup & Hd).
  assert (Hm : marker s' r) by (split; [done|]; intros w [Hw _]%Hsup; by apply (marker_ext s s' x He Hx)).
  pose proof (interner_store _ Hs') as Hst'. exists r, s'. split; [done|]. split; [eapply rtc_r; [exact Hr|]; eapply step_restrict_by; [apply Hx|exact E]|]. split; [done|]. split; [done|]. split.
  - intros [_ Hf]%Hsup. unfold fixed, f in Hf. by rewrite (proj2 (bytes_eqb_eq name name) eq_refl) in Hf.
  - intros env active Hok. unfold evaluate. rewrite !evaluate_marker by (done || by apply interner_store). f_equal.
    pose proof (env_valuation_ok env (EnvExtras active) Hok) as Hv. rewrite Hd by done.
    rewrite <- (den_ext _ s s' x He (proj1 Hx)). apply den_support; [done..|by apply env_valuation_ok|]. intros w _.
    destruct w as [| | | |n|]; try done. unfold same_value, override, f. cbn -[names_contain fix_extra]. rewrite fix_extra_spec. by destruct (bytes_eqb n name).
Qed.

(** The projection of a universal marker: its PEP 508 part does not depend on extras, and
    holds in an environment exactly when some extras make the marker hold there. *)
Definition projected s u : Prop := marker s (um_marker u) /\ marker s (um_pep508 u) /\
  forall env active, possible_env env -> (evaluate s (um_pep508 u) env active = Ret true <-> exists active', evaluate s (um_marker u) env active' = Ret true).

Lemma evaluate_later s s' x env active : reachable s -> reachable s' -> ext s s' -> marker s x -> env_ok env -> evaluate s' x env active = evaluate s x env active.
Proof. intros Hs Hs' He Hx Hok. apply evaluate_ext; [by apply interner_store, reachable_ok..|done|done|done]. Qed.

Lemma from_combined_runs s x : reachable s -> marker s x ->
  runs reachable ext (um_from_combined x) s (fun r s' => um_marker r = x /\ projected s' r).
Proof.
  intros Hs Hx. destruct (without_extras_exact s x Hs Hx) as (r & s' & E & Hm & _ & Hev). unfold um_from_combined.
  assert (Hst : step s s') by (eapply step_without_extras; [apply Hx|exact E]). assert (Hs' : reachable s') by (by eapply rtc_r).
  assert (He : ext s s') by (by eapply step_ok; [apply reachable_ok|]). run_step E; [done|]. run_pure; [done|]. split; [done|]. split; [by eapply marker_ext|]. split; [done|]. cbn [um_marker um_pep508].
  intros env active Hp. rewrite Hev by done. setoid_rewrite (evaluate_later s s' x env); [done..|apply Hp].
Qed.

(** The items of which one is fixed. *)
Definition fix_item (b : bool) i (items : list ConflictItem) : list ConflictItem :=
  if b then i :: items else List.filter (fun j => negb (bool_decide (j = i))) items.

Lemma fix_item_names b i items : item_ok i -> Forall item_ok items -> fix_extra b (encoding i) (map encoding items) = map encoding (fix_item b i items).
Proof.
  intros Hi Hl. destruct b; [done|]. induction Hl as [|j items Hj Hl IH]; [done|]. cbn [fix_extra fix_item List.filter map] in *. rewrite IH.
  destruct (decide (j = i)) as [->|Hne]; [by rewrite bool_decide_true, (proj2 (bytes_eqb_eq _ _) eq_refl)|]. rewrite bool_decide_false by done.
  destruct (bytes_eqb (encoding j) (encoding i)) eqn:E; [|done]. apply bytes_eqb_eq in E. by apply encoding_inj in E.
Qed.

Definition assume_item (b : bool) u i : M Interner UniversalMarker := if b then assume_conflict_item u i else assume_not_conflict_item u i.

Lemma assume_item_runs s u i b : reachable s -> marker s (um_marker u) -> item_ok i ->
  runs reachable ext (assume_item b u i) s (fun r s' => projected s' r /\ (VExtra (encoding i) ∉ support s' (um_marker r)) /\
    forall env active, env_ok env -> evaluate s' (um_marker r) env active = evaluate s (um_marker u) env (fix_extra b (encoding i) active)).
Proof.
  intros Hs Hu Hi. pose proof (encode_item i Hi) as E. set (f := fun var : Var => match var with VExtra n => if bytes_eqb n (encoding i) then Some b else None | _ => None end).
  assert (runs reachable ext (let* extra := mlift (encode_conflict_item i) in let* marker := restrict_by (um_marker u) f in um_from_combined marker) s
    (fun r s' => projected s' r /\ (VExtra (encoding i) ∉ support s' (um_marker r)) /\
    forall env active, env_ok env -> evaluate s' (um_marker r) env active = evaluate s (um_marker u) env (fix_extra b (encoding i) active))) as H'.
  - run_read E. refine (runs_seq _ _ _ _ _ _ _ (fixed_runs s (um_marker u) (encoding i) b Hs Hu) _). intros x s1 Hs1 He1 (Hx & Hsup & Hev).
    run_weaken; [exact (from_combined_runs s1 x Hs1 Hx)|]. intros r s2 Hs2 He2 [-> Hr]. split; [done|]. split; [by rewrite (support_ext s1 s2) by (done || apply Hx)|].
    intros env active Hok. by rewrite (evaluate_later s1 s2 x env active Hs1 Hs2 He2 Hx Hok), Hev.
  - unfold assume_item, assume_conflict_item, assume_not_conflict_item, assume_extra, assume_not_extra, assume_group, assume_not_group, assume_project, assume_not_project, assume, assume_not,
      encode_conflict_item, mseq in *. rewrite E in H'. destruct b, (item_kind i); unfold mlift in *; rewrite E; exact H'.
Qed.

(** C29: Assuming that an item is active, or that it is not, is exact: the resulting universal
    marker no longer depends on the item, evaluates for the activated items as the marker
    does with the item added to, or removed from them, and its PEP 508 part holds
    exactly where some extras make it hold. *)
Theorem assume_item_exact s u i b : reachable s -> marker s (um_marker u) -> item_ok i ->
  exists r s', assume_item b u i s = Ret (r, s') /\ projected s' r /\ (VExtra (encoding i) ∉ support s' (um_marker r)) /\
  forall env projects extras groups, env_ok env -> Forall item_ok (activated_items projects extras groups) ->
    um_evaluate s' r env projects extras groups = evaluate_activated s u env (map encoding (fix_item b i (activated_items projects extras groups))).
Proof.
  intros Hs Hu Hi. destruct (assume_item_runs s u i b Hs Hu Hi) as (r & s' & E & _ & _ & Hpr & Hsup & Hev). exists r, s'. split; [done|]. split; [done|]. split; [done|].
  intros env projects extras groups Hok Hl. unfold um_evaluate. rewrite activated_names by done. cbn [obind]. unfold evaluate_activated. by rewrite Hev, fix_item_names.
Qed.

(** ** Connectives *)

(** The PEP 508 part holds wherever the marker does, with any extras. *)
Definition covered s u : Prop := forall env active active', possible_env env ->
  evaluate s (um_marker u) env active = Ret true -> evaluate s (um_pep508 u) env active' = Ret true.

(** The values of [UniversalMarker]: the PEP 508 part does not depend on extras and covers
    the marker. *)
Definition universal s u : Prop := marker s (um_marker u) /\ marker s (um_pep508 u) /\
  (forall env active active', possible_env env -> evaluate s (um_pep508 u) env active = evaluate s (um_pep508 u) env active') /\ covered s u.

Lemma or_runs s x y : reachable s -> marker s x -> marker s y -> runs reachable ext (interner_or x y) s (fun r s' => combines orb s' x y r).
Proof.
  intros Hs Hx Hy. destruct (or_combines s x y (reachable_ok s Hs) Hx Hy) as (r & s' & E & _ & He & Hr). exists r, s'. split; [done|]. split; [|done].
  eapply rtc_r; [exact Hs|]. eapply step_or; [apply Hx|apply Hy|exact E].
Qed.

Lemma and_runs s x y : reachable s -> marker s x -> marker s y -> runs reachable ext (interner_and x y) s (fun r s' => combines andb s' x y r).
Proof.
  intros Hs Hx Hy. destruct (and_combines s x y (reachable_ok s Hs) Hx Hy) as (r & s' & E & _ & He & Hr). exists r, s'. split; [done|]. split; [|done].
  eapply rtc_r; [exact Hs|]. eapply step_and; [apply Hx|apply Hy|exact E].
Qed.

Lemma implies_runs s x y : reachable s -> marker s x -> marker s y -> runs reachable ext (implies x y) s (fun r s' => combines implb s' x y r).
Proof.
  intros Hs Hx Hy. destruct (implies_combines s x y (reachable_ok s Hs) Hx Hy) as (r & s' & E & _ & He & Hr). exists r, s'. split; [done|]. split; [|done].
  eapply rtc_r; [exact Hs|]. eapply step_or; [apply marker_not, Hx|apply Hy|exact E].
Qed.

Lemma combines_later op s s' x y r : reachable s -> reachable s' -> ext s s' -> marker s x -> marker s y -> combines op s x y r -> combines op s' x y r.
Proof.
  intros Hs Hs' He Hx Hy [Hr Hev]. split; [by eapply marker_ext|]. intros env extras Hp. destruct (Hev env extras Hp) as (b & c & E1 & E2 & E3). exists b, c.
  rewrite <- E1, <- E2, <- E3. split; [|split]; (apply evaluate_ext; [by apply interner_store, reachable_ok..|done|done|apply Hp]).
Qed.

Lemma projected_later s s' u : reachable s -> reachable s' -> ext s s' -> projected s u -> projected s' u.
Proof.
  intros Hs Hs' He (Hm & Hq & Hev). split; [by eapply marker_ext|]. split; [by eapply marker_ext|]. intros env active Hp.
  rewrite (evaluate_later s s') by (done || apply Hp). setoid_rewrite (evaluate_later s s'); [by apply Hev|done..|apply Hp].
Qed.

Lemma combines_eval op s x y r env active : combines op s x y r -> possible_env env ->
  exists b c, evaluate s x env active = Ret b /\ evaluate s y env active = Ret c /\ evaluate s r env active = Ret (op b c).
Proof. intros [_ H] Hp. by apply H. Qed.

Lemma ret_true (b : bool) : Ret b = Ret true <-> b = true.
Proof. split; [by intros [=]|by intros ->]. Qed.

Lemma or_true s x y r env active : combines orb s x y r -> possible_env env ->
  evaluate s r env active = Ret true <-> evaluate s x env active = Ret true \/ evaluate s y env active = Ret true.
Proof. intros Hc Hp. destruct (combines_eval orb s x y r env active Hc Hp) as (b & c & -> & -> & ->). by rewrite !ret_true, orb_true_iff. Qed.

Lemma and_true s x y r env active : combines andb s x y r -> possible_env env ->
  evaluate s r env active = Ret true <-> evaluate s x env active = Ret true /\ evaluate s y env active = Ret true.
Proof. intros Hc Hp. destruct (combines_eval andb s x y r env active Hc Hp) as (b & c & -> & -> & ->). by rewrite !ret_true, andb_true_iff. Qed.

(** A marker combined from two and then projected. *)
Lemma combined_projected_runs op (apply : NodeId -> NodeId -> M Interner NodeId) s x y :
  runs reachable ext (apply x y) s (fun r s' => combines op s' x y r) -> reachable s -> marker s x -> marker s y ->
  runs reachable ext (let* marker := apply x y in um_from_combined marker) s (fun r s' => combines op s' x y (um_marker r) /\ projected s' r).
Proof.
  intros Ha Hs Hx Hy. refine (runs_seq _ _ _ _ _ _ _ Ha _). intros m s1 Hs1 He1 Hm. run_weaken; [exact (from_combined_runs s1 m Hs1 (proj1 Hm))|].
  intros r s2 Hs2 He2 [-> Hr]. split; [|done]. apply (combines_later op s1 s2); [done..|by eapply marker_ext|by eapply marker_ext|done].
Qed.

Lemma universal_later s s' u : reachable s -> reachable s' -> ext s s' -> universal s u -> universal s' u.
Proof.
  intros Hs Hs' He (Hm & Hq & Hi & Hc). split; [by eapply marker_ext|]. split; [by eapply marker_ext|]. split.
  - intros env active active' Hp. rewrite !(evaluate_later s s') by (done || apply Hp). by apply Hi.
  - intros env active active' Hp. rewrite !(evaluate_later s s') by (done || apply Hp). by apply Hc.
Qed.

Lemma evaluates s x env active : reachable s -> marker s x -> env_ok env -> exists b, evaluate s x env active = Ret b.
Proof. intros Hs Hx Hok. unfold evaluate. rewrite evaluate_marker by (done || by apply interner_store, reachable_ok). by eexists. Qed.

(** A projection is a universal marker. *)
Lemma projected_universal s u : reachable s -> projected s u -> universal s u.
Proof.
  intros Hs (Hm & Hq & Hev). split; [done|]. split; [done|]. split; intros env active active' Hp.
  - destruct (evaluates s (um_pep508 u) env active Hs Hq (proj1 Hp)) as (b & Eb), (evaluates s (um_pep508 u) env active' Hs Hq (proj1 Hp)) as (b' & Eb').
    pose proof (Hev env active Hp) as H1. rewrite <- (Hev env active' Hp), Eb, Eb', !ret_true in H1. rewrite Eb, Eb'. f_equal. by apply eq_true_iff_eq.
  - intros Ht. apply Hev; [done|]. by exists active.
Qed.

(** Both parts of the result combine those of the operands. *)
Definition combined_parts op s u v r : Prop := combines op s (um_marker u) (um_marker v) (um_marker r) /\ combines op s (um_pep508 u) (um_pep508 v) (um_pep508 r).

(** An operation that combines the markers and the PEP 508 parts. *)
Lemma parts_runs op (apply : NodeId -> NodeId -> M Interner NodeId) s u v :
  (forall s x y, reachable s -> marker s x -> marker s y -> runs reachable ext (apply x y) s (fun r s' => combines op s' x y r)) ->
  reachable s -> universal s u -> universal s v ->
  runs reachable ext (let* m := apply (um_marker u) (um_marker v) in let* q := apply (um_pep508 u) (um_pep508 v) in mpure (mkUniversal m q)) s
    (fun r s' => combined_parts op s' u v r).
Proof.
  intros Ha Hs Hu Hv. refine (runs_seq _ _ _ _ _ _ _ (Ha s _ _ Hs (proj1 Hu) (proj1 Hv)) _). intros m s1 Hs1 He1 Hm.
  pose proof (universal_later s s1 u Hs Hs1 He1 Hu) as Hu1. pose proof (universal_later s s1 v Hs Hs1 He1 Hv) as Hv1.
  refine (runs_seq _ _ _ _ _ _ _ (Ha s1 _ _ Hs1 (proj1 (proj2 Hu1)) (proj1 (proj2 Hv1))) _). intros q s2 Hs2 He2 Hq. run_pure; [done|].
  split; [|done]. apply (combines_later op s1 s2); [done..|apply Hu1|apply Hv1|done].
Qed.

(** Disjunction and conjunction of universal markers give universal markers. *)
Lemma parts_universal op s u v r : (forall b c b' c', implb b b' = true -> implb c c' = true -> implb (op b c) (op b' c') = true) ->
  universal s u -> universal s v -> combined_parts op s u v r -> universal s r.
Proof.
  intros Hop (_ & _ & Hiu & Hcu) (_ & _ & Hiv & Hcv) [Hm Hq]. split; [apply Hm|]. split; [apply Hq|]. split; intros env active active' Hp.
  - destruct (combines_eval _ _ _ _ _ env active Hq Hp) as (b & c & Eb & Ec & ->), (combines_eval _ _ _ _ _ env active' Hq Hp) as (b' & c' & Eb' & Ec' & ->).
    rewrite (Hiu env active active') in Eb by done. rewrite (Hiv env active active') in Ec by done. congruence.
  - specialize (Hcu env active active' Hp). specialize (Hcv env active active' Hp).
    destruct (combines_eval _ _ _ _ _ env active Hm Hp) as (b & c & Eb & Ec & ->), (combines_eval _ _ _ _ _ env active' Hq Hp) as (b' & c' & Eb' & Ec' & ->).
    rewrite Eb, Eb', !ret_true in Hcu. rewrite Ec, Ec', !ret_true in Hcv. rewrite !ret_true. specialize (Hop b c b' c').
    intros Ht. rewrite Ht in Hop. apply Hop; [destruct b; [by apply Hcu|done]|destruct c; [by apply Hcv|done]].
Qed.

(** A disjunction of projections is a projection. *)
Lemma or_projected s u v r : projected s u -> projected s v -> combined_parts orb s u v r -> projected s r.
Proof.
  intros Hu Hv [Hm Hq]. split; [apply Hm|]. split; [apply Hq|]. intros env active Hp. rewrite (or_true s _ _ _ env active Hq Hp).
  setoid_rewrite (or_true s _ _ (um_marker r)); [|done..]. rewrite (proj2 (proj2 Hu) env active Hp), (proj2 (proj2 Hv) env active Hp).
  clear. split; [intros [[a H]|[a H]]; eauto|intros [a [H|H]]; eauto].
Qed.

Lemma um_or_runs s u v : reachable s -> universal s u -> universal s v ->
  runs reachable ext (um_or u v) s (fun r s' => combined_parts orb s' u v r /\ universal s' r /\ (projected s u -> projected s v -> projected s' r)).
Proof.
  intros Hs Hu Hv. run_weaken; [exact (parts_runs orb interner_or s u v or_runs Hs Hu Hv)|]. intros r s' Hs' He Hr. split; [done|]. split.
  - apply (parts_universal orb s' u v); [by intros [] [] [] []|by apply (universal_later s)..|done].
  - intros Pu Pv. apply (or_projected s' u v); [by apply (projected_later s)..|done].
Qed.

Lemma um_and_runs s u v : reachable s -> universal s u -> universal s v ->
  runs reachable ext (um_and u v) s (fun r s' => combined_parts andb s' u v r /\ universal s' r).
Proof.
  intros Hs Hu Hv. run_weaken; [exact (parts_runs andb interner_and s u v and_runs Hs Hu Hv)|]. intros r s' Hs' He Hr. split; [done|].
  apply (parts_universal andb s' u v); [by intros [] [] [] []|by apply (universal_later s)..|done].
Qed.

Lemma um_imbibe_runs s u c : reachable s -> universal s u -> marker s (cm_marker c) ->
  runs reachable ext (um_imbibe u c) s (fun r s' => combines implb s' (cm_marker c) (um_marker u) (um_marker r) /\ universal s' r /\
    (cm_marker c <> node_true -> projected s' r)).
Proof.
  intros Hs Hu Hc. unfold um_imbibe. destruct (Z.eqb_spec (cm_marker c) node_true) as [Et|Hne].
  - run_pure; [done|]. split; [|by split]. split; [apply Hu|]. intros env extras Hp. rewrite Et.
    rewrite !evaluate_marker by (apply Hu || by apply interner_store, reachable_ok || apply Hp || apply holds_true). exists true. rewrite den_true. by eexists.
  - run_weaken; [apply combined_projected_runs; [by apply implies_runs, Hu|done|done|apply Hu]|]. intros r s' Hs' He [Hr Hp].
    split; [done|]. split; [by apply projected_universal|done].
Qed.

(** C31: The operations on universal markers.  The invariant is [universal]: the PEP 508
    part is a marker without extras that holds wherever the marker does, with any
    extras.  [new], and [imbibe] of a conflict marker other than TRUE, combine the
    markers and give a PEP 508 part that is exact: it holds in an environment exactly
    when some extras make the marker hold there.  [or] and [and] of two universal
    markers combine both parts and keep the invariant, [or] keeps exactness too
    ([and] does not, [and_keeps_pep508]); [imbibe] keeps the invariant. *)
Theorem universal_operations s u v c pep508 : reachable s -> universal s u -> universal s v -> marker s (cm_marker c) -> marker s pep508 ->
  runs reachable ext (um_new pep508 c) s (fun r s' => combines andb s' pep508 (cm_marker c) (um_marker r) /\ universal s' r /\ projected s' r) /\
  runs reachable ext (um_or u v) s (fun r s' => combined_parts orb s' u v r /\ universal s' r /\ (projected s u -> projected s v -> projected s' r)) /\
  runs reachable ext (um_and u v) s (fun r s' => combined_parts andb s' u v r /\ universal s' r) /\
  runs reachable ext (um_imbibe u c) s (fun r s' => combines implb s' (cm_marker c) (um_marker u) (um_marker r) /\ universal s' r /\
    (cm_marker c <> node_true -> projected s' r)).
Proof.
  intros Hs Hu Hv Hc Hp. split; [|split; [by apply um_or_runs|split; [by apply um_and_runs|by apply um_imbibe_runs]]].
  run_weaken; [apply combined_projected_runs; [by apply and_runs|done..]|]. intros r s' Hs' He [Hr Hr']. split; [done|]. split; [by apply projected_universal|done].
Qed.

(** ** Inferences *)

Definition fix_inference (inference : Inference) (active : list Str) : list Str :=
  fix_extra (included inference) (encoding (inferred_item inference)) active.

(** A marker is another one with the inferences of a set applied. *)
Definition agrees s x (set : list Inference) y : Prop :=
  forall env active, env_ok env -> evaluate s y env active = evaluate s x env (foldr fix_inference active set).

Lemma agrees_later s s' x set y : reachable s -> reachable s' -> ext s s' -> marker s x -> marker s y -> agrees s x set y -> agrees s' x set y.
Proof. intros Hs Hs' He Hx Hy H env active Hok. rewrite !(evaluate_later s s') by done. by apply H. Qed.

Abbreviation inferences_ok := (Forall (fun inference => item_ok (inferred_item inference))).

Lemma infer_runs s x inference : reachable s -> marker s x -> item_ok (inferred_item inference) ->
  runs reachable ext (infer x inference) s (fun r s' => marker s' r /\ agrees s' x [inference] r).
Proof.
  intros Hs Hx Hi. unfold infer, simplify_extras_with, simplify_not_extras_with. run_read (encode_item _ Hi).
  destruct (fixed_runs s x (encoding (inferred_item inference)) (included inference) Hs Hx) as (r & s' & E & Hs' & He & Hr & _ & Hev).
  exists r, s'. split; [by destruct (included inference)|]. split; [done|]. split; [done|]. split; [done|]. intros env active Hok. rewrite Hev by done.
  by rewrite (evaluate_later s s' x).
Qed.

Lemma infer_all_runs s x set : reachable s -> marker s x -> inferences_ok set ->
  runs reachable ext (fold_m infer x set) s (fun r s' => marker s' r /\ agrees s' x set r).
Proof.
  intros Hs Hx Hset. revert s x Hs Hx. induction Hset as [|inference set Hi Hset IH]; intros s x Hs Hx; cbn [fold_m]; [run_pure; [done|]; by split|].
  refine (runs_seq _ _ _ _ _ _ _ (infer_runs s x inference Hs Hx Hi) _). intros y s1 Hs1 He1 [Hy Ha]. run_weaken; [by apply IH|]. intros r s2 Hs2 He2 [Hr Hb].
  split; [done|]. intros env active Hok. rewrite (Hb env active Hok), (evaluate_later s1 s2 y), (Ha env _ Hok), <- (evaluate_later s1 s2 x) by (done || by eapply marker_ext). done.
Qed.

Lemma unify_loop_runs x sets : Forall (fun set => inferences_ok set) sets -> forall s previous, reachable s -> marker s x ->
  match previous with Some m => marker s m | None => True end ->
  runs reachable ext (unify_loop x previous sets) s (fun r s' => match r with
    | Some (Some m) => marker s' m /\ Forall (fun set => agrees s' x set m) sets /\ match previous with Some p => p = m | None => True end
    | Some None => sets = [] /\ previous = None
    | None => True end).
Proof.
  intros Hsets. induction Hsets as [|set sets Hset Hsets IH]; intros s previous Hs Hx Hp; cbn [unify_loop].
  { run_pure; [done|]. by destruct previous as [m|]. }
  refine (runs_seq _ _ _ _ _ _ _ (infer_all_runs s x set Hs Hx Hset) _). intros y s1 Hs1 He1 [Hy Ha]. assert (Hx1 : marker s1 x) by (by eapply marker_ext).
  assert (Hcont : runs reachable ext (unify_loop x (Some y) sets) s1 (fun r s' => match r with
    | Some (Some m) => marker s' m /\ Forall (fun set => agrees s' x set m) (set :: sets) /\ y = m
    | Some None => False | None => True end)).
  { run_weaken; [by apply (IH s1 (Some y))|]. intros [[m|]|] s2 Hs2 He2; [|by intros []|done]. intros (Hm & Hall & ->). split; [done|]. split; [|done].
    constructor; [|done]. by apply (agrees_later s1 s2). }
  destruct previous as [p|]; [destruct (Z.eqb_spec p y) as [->|_]; cbn [negb]|].
  - run_weaken; [exact Hcont|]. intros [[m|]|] s2 _ _; [|by intros []|done]. by intros (? & ? & ->).
  - by run_pure.
  - run_weaken; [exact Hcont|]. intros [[m|]|] s2 _ _; [|by intros []|done]. by intros (? & ? & _).
Qed.

Lemma evaluate_names s x env active active' : reachable s -> marker s x -> env_ok env ->
  (forall name, names_contain active name = names_contain active' name) -> evaluate s x env active = evaluate s x env active'.
Proof.
  intros Hs Hx Hok H. pose proof (interner_store _ (reachable_ok s Hs)) as Hst. unfold evaluate. rewrite !evaluate_marker by done. f_equal.
  apply den_support; [done|apply Hx|by apply env_valuation_ok..|]. intros w _. destruct w as [| | | |name|]; try done. unfold same_value. cbn -[names_contain]. by rewrite H.
Qed.

(** The activated items satisfy a set of inferences. *)
Definition satisfies (items : list ConflictItem) (set : list Inference) : bool :=
  forallb (fun inference => Bool.eqb (bool_decide (inferred_item inference ∈ items)) (included inference)) set.

Lemma satisfied_fix items set name : Forall item_ok items -> inferences_ok set -> satisfies items set = true ->
  names_contain (foldr fix_inference (map encoding items) set) name = names_contain (map encoding items) name.
Proof.
  intros Hl Hset. induction Hset as [|inference set Hi Hset IH]; [done|]. cbn [satisfies forallb foldr]. intros [Hb Hall]%andb_true_iff. apply eqb_prop in Hb.
  unfold fix_inference at 1. rewrite fix_extra_spec, (IH Hall). destruct (bytes_eqb name _) eqn:E; [|done]. apply bytes_eqb_eq in E as ->. rewrite <- Hb.
  apply Bool.eq_iff_eq_true. rewrite bool_decide_eq_true. symmetry. by apply (item_active_iff items).
Qed.

(** C30: Unifying the inferences about an edge is sound: the operation returns, and for
    activated items that satisfy one of the sets of inferences the result evaluates as
    the marker did before. *)
Theorem unify_inferences_sound s u sets : reachable s -> projected s u -> Forall (Forall (fun inference => item_ok (inferred_item inference))) sets ->
  exists r s', unify_inference_sets u sets s = Ret (r, s') /\ projected s' r /\
  forall env projects extras groups set, env_ok env -> Forall item_ok (activated_items projects extras groups) -> set ∈ sets ->
    satisfies (activated_items projects extras groups) set = true ->
    um_evaluate s' r env projects extras groups = um_evaluate s u env projects extras groups.
Proof.
  intros Hs Hu Hsets. enough (runs reachable ext (unify_inference_sets u sets) s (fun r s' => projected s' r /\ forall env items set, env_ok env -> Forall item_ok items -> set ∈ sets ->
    satisfies items set = true -> evaluate s' (um_marker r) env (map encoding items) = evaluate s (um_marker u) env (map encoding items))) as (r & s' & E & _ & _ & Hr & Hev).
  { exists r, s'. split; [done|]. split; [done|]. intros env projects extras groups set Hok Hi Hset Hsat. unfold um_evaluate. rewrite activated_names by done. by eapply Hev. }
  refine (runs_seq _ _ _ _ _ _ _ (unify_loop_runs (um_marker u) sets Hsets s None Hs (proj1 Hu) I) _). intros o s1 Hs1 He1 Ho.
  assert (Hsame : runs reachable ext (mpure u) s1 (fun r s' => projected s' r /\ forall env items set, env_ok env -> Forall item_ok items -> set ∈ sets ->
    satisfies items set = true -> evaluate s' (um_marker r) env (map encoding items) = evaluate s (um_marker u) env (map encoding items))).
  { run_pure; [done|]. split; [by apply (projected_later s s1)|]. intros. by apply evaluate_later; [..|apply Hu|]. }
  destruct o as [[m|]|]; [|exact Hsame|exact Hsame]. destruct Ho as (Hm & Hall & _).
  run_weaken; [exact (from_combined_runs s1 m Hs1 Hm)|]. intros r s2 Hs2 He2 [-> Hr]. split; [done|]. intros env items set Hok Hi Hset Hsat.
  rewrite Forall_forall in Hall. rewrite Forall_forall in Hsets. rewrite (evaluate_later s1 s2), (Hall set Hset env _ Hok), (evaluate_later s s1) by (done || apply Hu).
  apply evaluate_names; [done|apply Hu|done|]. intros name. apply satisfied_fix; auto.
Qed.
End universal.
