(* ===== verification/UniversalNormal.v ===== *)
(** * Universal markers in an environment

    The functions on universal markers that go through the disjunctive normal form: the
    conflict marker that remains in an environment, and the resolution of the extras of
    a marker by the conditions under which they are active. *)


From Stdlib Require Import ZArith Lia String.
From stdpp Require Import base list relations.
From S2P Require Import Prelude.
From S2P Require Import VersionRepr.
From S2P Require Import Specifier.
From S2P Require Import Normalize.
From S2P Require Import RangeSet.
From S2P Require Import Stateful.
From S2P Require Import MarkerEdges.
From S2P Require Import MarkerTypes.
From S2P Require Import RangeInstances.
From S2P Require Import MarkerAlgebra.
From S2P Require Import MarkerStore.
From S2P Require Import MarkerOps.
From S2P Require Import MarkerConj.
From S2P Require Import MarkerTree.
From S2P Require Import MarkerRestrict.
From S2P Require Import MarkerVersion.
From S2P Require Import MarkerExpr.
From S2P Require Import MarkerDnf.
From S2P Require Import MarkerPaths.
From S2P Require Import MarkerTheorems.
From S2P Require Import MarkerTests.
From S2P Require Import UniversalMarker.
From S2P Require Import UniversalTheorems.
Open Scope Z_scope.

(** ** Normal forms *)

Section normal.
Context {RV RS : Type} `{!RangeSet Version RV} `{!RangeSetLaws Version RV} `{!RangeSetBounds Version RV}.
Context `{!RangeSet Str RS} `{!RangeSetLaws Str RS} `{!RangeSetBounds Str RS}.
Abbreviation Interner := (InternerOf RV RS).
Implicit Types (s : Interner) (id : NodeId) (u : UniversalMarker) (i : ConflictItem).

(** Folds whose rounds each add an alternative. *)
Lemma fold_or_holds {A} (f : NodeId -> A -> M Interner NodeId) (g : MarkerEnvironment -> ExtrasEnvironment -> A -> bool) s0 l :
  (forall s x (p : MarkerEnvironment -> ExtrasEnvironment -> bool) a, a ∈ l -> ext s0 s -> reachable s -> marker_holds s x p ->
    runs reachable ext (f x a) s (fun r s' => marker_holds s' r (fun env extras => p env extras || g env extras a))) ->
  forall s x (p : MarkerEnvironment -> ExtrasEnvironment -> bool), ext s0 s -> reachable s -> marker_holds s x p ->
    runs reachable ext (fold_m f x l) s (fun r s' => marker_holds s' r (fun env extras => p env extras || existsb (g env extras) l)).
Proof.
  induction l as [|a l IH]; intros Hf s x p H0 Hs Hx; cbn [fold_m existsb].
  - run_pure; [done|]. eapply holds_same; [|exact Hx]. intros env extras _ _. by rewrite orb_false_r.
  - refine (runs_seq _ _ _ _ _ _ _ (Hf s x p a (list_elem_of_here _ _) H0 Hs Hx) _). intros r s' Hs' He Hr. run_weaken; [apply IH; [|by etrans|exact Hs'|exact Hr]|].
    + intros s2 b2 p2 a2 Ha. apply Hf. by right.
    + cbv beta. intros t s2 _ _. apply holds_same. intros env extras _ _. by rewrite orb_assoc.
Qed.

(** ** Conflicts in an environment *)

(** A term with the environment known: the other terms are evaluated without extras. *)
Definition known_term (env : MarkerEnvironment) (extras : ExtrasEnvironment) (e : MarkerExpression) : bool :=
  match e with EExtra _ _ => expr_holds env extras e | _ => expr_holds env (EnvExtras []) e end.

Lemma known_term_extras env active e : known_term env (EnvExtras active) e = expr_holds env (EnvExtras active) e.
Proof. by destruct e as [| | |[]|]. Qed.

Lemma conflict_clause_runs env c : env_release env -> possible_env env -> Forall (fun e => term_ok e = true) c ->
  forall s x (p : ExtrasEnvironment -> bool), reachable s -> marker_holds s x (fun _ extras => p extras) ->
  runs reachable ext (conflict_clause env x c) s (fun r s' => match r with
    | Some y => marker_holds s' y (fun _ extras => p extras && forallb (known_term env extras) c)
    | None => forall extras, forallb (known_term env extras) c = false end).
Proof.
  intros Hrel Hpos Hc. induction Hc as [|e c He Hc IH]; intros s x p Hs Hx; cbn [conflict_clause forallb].
  { run_pure; [done|]. eapply holds_same; [|exact Hx]. intros. by rewrite andb_true_r. }
  refine (runs_seq _ _ _ _ _ _ _ (expression_holds s e Hs (term_expr_ok e He)) _). intros m s1 Hs1 He1 Hm. pose proof (holds_ext s s1 x _ Hs Hs1 He1 Hx) as Hx1.
  assert (Hother : (forall extras, known_term env extras e = expr_holds env (EnvExtras []) e) ->
    runs reachable ext (let* s := mget in let* holds := mlift (evaluate s m env []) in if holds : bool then conflict_clause env x c else mpure None) s1
    (fun r s' => match r with
      | Some y => marker_holds s' y (fun _ extras => p extras && (known_term env extras e && forallb (known_term env extras) c))
      | None => forall extras, known_term env extras e && forallb (known_term env extras) c = false end)).
  { intros Hk. run_get. run_read (proj2 Hm env (EnvExtras []) Hrel Hpos). destruct (expr_holds env (EnvExtras []) e).
    - run_weaken; [by apply (IH s1 x p)|]. intros [y|] s2 _ _; [apply holds_same; intros env' extras _ _; by rewrite Hk|]. intros H extras. by rewrite Hk, H.
    - run_pure; [done|]. intros extras. by rewrite Hk. }
  destruct e as [key sp|key versions op|key op value|q op|name op]; try (by apply Hother).
  refine (runs_seq _ _ _ _ _ _ _ (and_holds s1 _ _ _ _ Hs1 Hx1 Hm) _). intros y s2 Hs2 He2 Hy.
  run_weaken; [apply (IH s2 y (fun extras => p extras && known_term env extras (EExtra name op))); [done|exact Hy]|]. intros [z|] s3 _ _.
  - apply holds_same. intros env' extras _ _. by rewrite andb_assoc.
  - intros H extras. by rewrite H, andb_false_r.
Qed.

(** A conflict marker evaluates, in any environment, as a universal marker does in [env]. *)
Definition remains_in s u env s' (c : ConflictMarker) : Prop := marker s' (cm_marker c) /\
  forall env' active, env_release env' -> possible_env env' -> evaluate s' (cm_marker c) env' active = evaluate_activated s u env active.

(** C27: The conflict marker that remains in an environment is exact, for a universal marker
    other than TRUE with a [printable] diagram: with the extras that are active it evaluates, in any environment, as
    the universal marker does in the given one. *)
Theorem conflict_for_environment_exact s u env : reachable s -> marker s (um_marker u) -> printable s (um_marker u) -> um_marker u <> node_true ->
  env_release env -> possible_env env ->
  exists c s', conflict_for_environment u env s = Ret (c, s') /\ remains_in s u env s' c.
Proof.
  intros Hs Hu Hp Hne Hrel Hpos. destruct (to_dnf_terms s (um_marker u) Hs Hp Hu Hne) as (d & E & Hd & Hev). rewrite Forall_forall in Hd.
  assert (runs reachable ext (conflict_for_environment u env) s (fun c s' => marker_holds s' (cm_marker c) (fun _ extras => dnf_holds (known_term env extras) d))) as (c & s' & Ec & _ & _ & Hm & Hc).
  - unfold conflict_for_environment. run_get. run_read E. refine (runs_seq _ _ _ _ _ _ _ (fold_or_holds _ (fun _ extras => clause_holds (known_term env extras)) s d _ s node_false _ _ Hs (holds_false s)) _).
    + intros s1 x p clause Hin _ Hs1 Hx. refine (runs_seq _ _ _ _ _ _ _ (conflict_clause_runs env clause Hrel Hpos (Hd _ Hin) s1 node_true (fun _ => true) Hs1 (holds_true s1)) _).
      intros [y|] s2 Hs2 He2 Hy; [by apply or_holds; [|by apply (holds_ext s1 s2)|]|]. run_pure; [done|]. eapply holds_same; [|apply (holds_ext s1 s2); [done..|exact Hx]].
      intros env' extras _ _. unfold clause_holds. by rewrite Hy, orb_false_r.
    + done.
    + intros r s1 Hs1 _ Hr. by run_pure.
  - exists c, s'. split; [done|]. split; [done|]. intros env' active Hr' Hp'. unfold evaluate_activated, evaluate. rewrite Hc, Hev by done. f_equal.
    apply dnf_holds_ext. intros clause e _ _. apply known_term_extras.
Qed.

(** The marker TRUE has the empty normal form, so the conflict marker that remains of it is
    FALSE, in every environment. *)
Lemma conflict_of_true s env : conflict_for_environment um_TRUE env s = Ret (mkConflictMarker node_false, s).
Proof. reflexivity. Qed.

(** ** Resolving extras *)

(** The marker that a name of an extra stands for: that of the item it encodes, or else that
    of the extra of the package in scope. *)
Definition stands_for (scope_package : option Str) (known : list (ConflictItem * NodeId)) (name : Str) (m : NodeId) : Prop :=
  (exists i, (i, m) ∈ known /\ encoding i = name) \/
  ((forall i m', (i, m') ∈ known -> encoding i <> name) /\
   exists package, scope_package = Some package /\ (mkItem package (ConflictExtra name), m) ∈ known).

Lemma find_known_spec name known : Forall (fun k => item_ok k.1) known ->
  exists o, find_known name known = Ret o /\ match o with
    | Some m => exists i, (i, m) ∈ known /\ encoding i = name
    | None => forall i m', (i, m') ∈ known -> encoding i <> name end.
Proof.
  intros Hk. induction Hk as [|[i m] known Hi Hk (o & E & Ho)]; cbn [find_known]; [exists None; split; [done|]; by intros i m' ?%elem_of_nil|].
  rewrite encode_item by done. cbn [obind]. destruct (bytes_eqb (encoding i) name) eqn:En.
  - exists (Some m). split; [done|]. exists i. split; [by left|by apply bytes_eqb_eq].
  - exists o. split; [done|]. destruct o as [m'|].
    + destruct Ho as (j & Hj & Ej). exists j. split; [by right|done].
    + intros j m' [[= -> ->]|Hj]%elem_of_cons; [|by eapply Ho]. intros Ej%bytes_eqb_eq. congruence.
Qed.

Lemma get_known_spec i known : match get_known i known with Some m => (i, m) ∈ known | None => forall m, (i, m) ∉ known end.
Proof.
  unfold get_known. destruct (List.find _ known) as [[j m]|] eqn:E; cbn.
  - apply find_some in E as [Hin%list_elem_of_In Hj]. by apply bool_decide_eq_true in Hj as <-.
  - intros m Hin%list_elem_of_In. pose proof (find_none _ _ E _ Hin) as Hf. by apply bool_decide_eq_false in Hf.
Qed.

Lemma known_marker_spec scope known name : Forall (fun k => item_ok k.1) known ->
  exists o, known_marker scope known name = Ret o /\ match o with Some m => stands_for scope known name m | None => forall m, ~ stands_for scope known name m end.
Proof.
  intros Hk. unfold known_marker. destruct (find_known_spec name known Hk) as (o & -> & Ho). cbn [obind]. eexists. split; [reflexivity|].
  destruct o as [m|]; [by left|]. assert (Hno : forall m, ~ exists i, (i, m) ∈ known /\ encoding i = name) by (intros m (i & Hi & Ei); by eapply Ho).
  destruct scope as [package|]; [|by intros m [?%Hno|(_ & q & [=] & _)]]. pose proof (get_known_spec (mkItem package (ConflictExtra name)) known) as Hg.
  destruct (get_known _ known) as [m|].
  - right. split; [done|]. by exists package.
  - intros m [?|(_ & q & [= <-] & Hin)]; [by eapply Hno|by eapply Hg].
Qed.

(** Different keys, as in a map: a name stands for one marker. *)
Lemma stands_for_unique scope known name m m' : NoDup (map fst known) -> Forall (fun k => item_ok k.1) known ->
  stands_for scope known name m -> stands_for scope known name m' -> m = m'.
Proof.
  intros Hnd Hok. rewrite Forall_forall in Hok. assert (Hkey : forall i x y, (i, x) ∈ known -> (i, y) ∈ known -> x = y).
  { clear -Hnd. induction known as [|[j z] known IH]; [by intros i x y ?%elem_of_nil|]. cbn in Hnd. apply NoDup_cons in Hnd as [Hj Hnd]. specialize (IH Hnd).
    assert (Habs : forall x, (j, x) ∈ known -> False) by (intros x Hx; apply Hj; apply elem_of_map; by exists (j, x)).
    intros i x y [Ex|Hx]%elem_of_cons [Ey|Hy]%elem_of_cons; simplify_eq; [done|by apply Habs in Hy|by apply Habs in Hx|by eapply IH]. }
  intros [(i & Hi & Ei)|[Hno (q & Eq & Hq)]] [(j & Hj & Ej)|[Hno' (q' & Eq' & Hq')]].
  - assert (i = j) as <- by (apply encoding_inj; [exact (Hok _ Hi)|exact (Hok _ Hj)|congruence]). by eapply Hkey.
  - by apply Hno' in Hi.
  - by apply Hno in Hj.
  - rewrite Eq in Eq'. injection Eq' as <-. by eapply Hkey.
Qed.

Section resolve.
Context (s0 : Interner) (scope_package : option Str) (known : list (ConflictItem * NodeId)).
Hypothesis s0_reachable : reachable s0.
Hypothesis known_ok : Forall (fun k => item_ok k.1) known.
Hypothesis known_markers : Forall (fun k => marker s0 k.2) known.

Lemma stands_for_marker name m : stands_for scope_package known name m -> marker s0 m.
Proof. rewrite Forall_forall in known_markers. intros [(i & Hi & _)|(_ & q & _ & Hi)]; exact (known_markers _ Hi). Qed.

(** The meaning of the name of an extra, and of a term. *)
Definition resolved_name (env : MarkerEnvironment) (extras : ExtrasEnvironment) (name : Str) : bool :=
  match known_marker scope_package known name with Ret (Some m) => den (env_valuation env extras) s0 m | _ => false end.

Definition resolved_term (env : MarkerEnvironment) (extras : ExtrasEnvironment) (e : MarkerExpression) : bool :=
  match e with
  | EExtra (ExtraNameValue name) ExtraEqual => resolved_name env extras name
  | EExtra (ExtraNameValue name) ExtraNotEqual => negb (resolved_name env extras name)
  | _ => expr_holds env extras e
  end.

Lemma marker_den s x : reachable s -> marker s x -> marker_holds s x (fun env extras => den (env_valuation env extras) s x).
Proof. intros Hs Hx. split; [done|]. intros env extras Hr _. apply evaluate_marker; [by apply interner_store, reachable_ok|done|by apply env_release_ok]. Qed.

Lemma resolve_term_runs s x p e : ext s0 s -> reachable s -> marker_holds s x p -> term_ok e = true ->
  runs reachable ext (resolve_term scope_package known x e) s (fun r s' => marker_holds s' r (fun env extras => p env extras && resolved_term env extras e)).
Proof.
  intros H0 Hs Hx He. assert (Hkeep : runs reachable ext (let* m := expression e in interner_and x m) s (fun r s' => marker_holds s' r (fun env extras => p env extras && expr_holds env extras e))).
  { refine (runs_seq _ _ _ _ _ _ _ (expression_holds s e Hs (term_expr_ok e He)) _). intros m s1 Hs1 He1 Hm. apply and_holds; [done|by apply (holds_ext s s1)|done]. }
  destruct e as [key sp|key versions op|key op value|q op|[name|text] op]; [exact Hkeep..| |done]. clear Hkeep. cbn [resolve_term as_extra].
  destruct (known_marker_spec scope_package known name known_ok) as (o & E & Ho). run_read E. unfold resolved_term, resolved_name. rewrite E. destruct o as [m|].
  - assert (Hm : marker_holds s m (fun env extras => den (env_valuation env extras) s0 m)).
    { apply (holds_ext s0 s); [done..|]. by apply marker_den, stands_for_marker with name. }
    destruct op; [by apply and_holds|]. apply and_holds; [done|done|by apply holds_not].
  - destruct op; [apply and_holds; [done|done|apply holds_false]|apply and_holds; [done|done|apply holds_true]].
Qed.

Lemma resolve_clause_runs c : Forall (fun e => term_ok e = true) c -> forall s x p, ext s0 s -> reachable s -> marker_holds s x p ->
  runs reachable ext (fold_m (resolve_term scope_package known) x c) s (fun r s' => marker_holds s' r (fun env extras => p env extras && forallb (resolved_term env extras) c)).
Proof.
  intros Hc. induction Hc as [|e c He Hc IH]; intros s x p H0 Hs Hx; cbn [fold_m forallb].
  - run_pure; [done|]. eapply holds_same; [|exact Hx]. intros. by rewrite andb_true_r.
  - refine (runs_seq _ _ _ _ _ _ _ (resolve_term_runs s x p e H0 Hs Hx He) _). intros y s1 Hs1 He1 Hy. run_weaken; [apply IH; [by etrans|exact Hs1|exact Hy]|].
    cbv beta. intros z s2 _ _. apply holds_same. intros env extras _ _. by rewrite andb_assoc.
Qed.

Lemma resolve_runs x : marker s0 x -> printable s0 x -> x <> node_true -> x <> node_false ->
  exists d, Forall (Forall (fun e => term_ok e = true)) d /\
  (forall env extras, env_release env -> evaluate_reporter s0 env extras x = Ret (dnf_holds (expr_holds env extras) d)) /\
  runs reachable ext (resolve_activated_extras x scope_package known) s0 (fun r s' => marker_holds s' r (fun env extras => dnf_holds (resolved_term env extras) d)).
Proof.
  intros Hx Hp Ht Hf. destruct (to_dnf_terms s0 x s0_reachable Hp Hx Ht) as (d & E & Hd & Hev). exists d. split; [done|]. split; [done|]. rewrite Forall_forall in Hd.
  unfold resolve_activated_extras. rewrite (proj2 (Z.eqb_neq _ _) Ht), (proj2 (Z.eqb_neq _ _) Hf). cbn [orb]. run_get. run_read E.
  refine (fold_or_holds _ (fun env extras => clause_holds (resolved_term env extras)) s0 d _ s0 node_false _ _ s0_reachable (holds_false s0)); [|done].
  intros s y p clause Hin H0 Hs Hy. refine (runs_seq _ _ _ _ _ _ _ (resolve_clause_runs clause (Hd _ Hin) s node_true _ H0 Hs (holds_true s)) _).
  intros z s1 Hs1 He1 Hz. apply or_holds; [done|by apply (holds_ext s s1)|done].
Qed.
End resolve.

(** C26: For a marker with a [printable] diagram and known items without repetition,
    resolving the extras substitutes for every extra the condition under
    which it is active: with extras [active] the result evaluates as the marker does with
    exactly those extras active whose condition holds with [active], a name standing for
    the known item it encodes, or for the extra of the package in scope. *)
Theorem resolve_extras_substitutes s x scope_package known : reachable s -> marker s x -> printable s x ->
  NoDup (map fst known) -> Forall (fun k => item_ok k.1 /\ marker s k.2) known ->
  exists r s', resolve_activated_extras x scope_package known s = Ret (r, s') /\ marker s' r /\
  forall env active active', env_release env -> possible_env env ->
    (forall name, names_contain active' name = true <-> exists m, stands_for scope_package known name m /\ evaluate s m env active = Ret true) ->
    evaluate s' r env active = evaluate s x env active'.
Proof.
  intros Hs Hx Hp Hnd Hk. assert (Hok : Forall (fun k => item_ok k.1) known) by (eapply Forall_impl; [exact Hk|by intros k []]).
  assert (Hm : Forall (fun k => marker s k.2) known) by (eapply Forall_impl; [exact Hk|by intros k []]). pose proof (interner_store _ (reachable_ok s Hs)) as Hst.
  destruct (decide (x = node_true)) as [->|Ht]; [by exists node_true, s|]. destruct (decide (x = node_false)) as [->|Hf]; [by exists node_false, s|].
  destruct (resolve_runs s scope_package known Hs Hok Hm x Hx Hp Ht Hf) as (d & Hd & Hev & r & s' & E & _ & _ & Hr & Hres). exists r, s'. split; [done|]. split; [done|].
  intros env active active' Hrel Hpos Hact. unfold evaluate at 1 2. rewrite Hres, Hev by done. f_equal. apply dnf_holds_ext. intros c e Hc He.
  assert (Hname : forall name, resolved_name s scope_package known env (EnvExtras active) name = names_contain active' name).
  { intros name. apply Bool.eq_iff_eq_true. rewrite Hact. unfold resolved_name. destruct (known_marker_spec scope_package known name Hok) as (o & -> & Ho). destruct o as [m|].
    - pose proof (stands_for_marker s scope_package known Hm name m Ho) as Hmm. assert (Ev : evaluate s m env active = Ret (den (env_valuation env (EnvExtras active)) s m)).
      { apply evaluate_marker; [done|done|by apply env_release_ok]. }
      rewrite <- ret_true, <- Ev. split; [by exists m|]. intros (m' & Ho' & Hev'). by rewrite (stands_for_unique scope_package known name m m') by done.
    - split; [done|]. intros (m & Hsf & _). by apply Ho in Hsf. }
  destruct e as [key sp|key versions op|key op value|[]|[name|text] []]; try done; cbn [resolved_term expr_holds env_extra]; by rewrite Hname.
Qed.
End normal.
