(* ===== verification/UniversalWitness.v ===== *)
(** * Universal markers: concrete cases

    The theorems at two conflicting extras of a project, on the sample interner, and the
    inputs on which the code departs from its description. *)

From Stdlib Require Import ZArith Lia String.
From stdpp Require Import base list relations.
From S2P Require Import Prelude.
From S2P Require Import VersionRepr.
From S2P Require Import Specifier.
From S2P Require Import Normalize.
From S2P Require Import RangeSet.
From S2P Require Import Stateful.
From S2P Require Import MarkerEdges.
From S2P Require Import MarkerTypes.
From S2P Require Import RangeInstances.
From S2P Require Import MarkerAlgebra.
From S2P Require Import MarkerStore.
From S2P Require Import MarkerOps.
From S2P Require Import MarkerConj.
From S2P Require Import MarkerTree.
From S2P Require Import MarkerRestrict.
From S2P Require Import MarkerVersion.
From S2P Require Import MarkerExpr.
From S2P Require Import MarkerDnf.
From S2P Require Import MarkerPaths.
From S2P Require Import MarkerTheorems.
From S2P Require Import MarkerTests.
From S2P Require Import MarkerWitness.
From S2P Require Import UniversalMarker.
From S2P Require Import UniversalTheorems.
From S2P Require Import UniversalNormal.
Open Scope Z_scope.

(** ** The sample *)

Definition cpu : ConflictItem := mkItem (bs "app") (ConflictExtra (bs "cpu")).
Definition gpu : ConflictItem := mkItem (bs "app") (ConflictExtra (bs "gpu")).
Definition app_extra (name : string) : Str * Str := (bs "app", bs name).

Lemma cpu_ok : item_ok cpu.
Proof. repeat split; vm_compute; (reflexivity || discriminate). Qed.

Lemma gpu_ok : item_ok gpu.
Proof. repeat split; vm_compute; (reflexivity || discriminate). Qed.

Lemma conflict_item_roundtrip_witness : encode_conflict_item cpu = Ret (bs "extra-3-app-cpu") /\ decode_conflict_item (bs "extra-3-app-cpu") = Ok cpu.
Proof. destruct (conflict_item_roundtrip cpu cpu_ok) as (name & E & _ & D & _). assert (Ret name = Ret (bs "extra-3-app-cpu")) as [= ->] by (rewrite <- E; reflexivity). split; assumption. Defined.

Lemma conflicts_exclude_pairs_witness : exists m s', from_conflicts [[cpu; gpu]] sample = Ret (m, s') /\
  um_evaluate s' (mkUniversal (cm_marker m) node_true) linux_env [] [app_extra "cpu"; app_extra "gpu"] [] = Ret false.
Proof.
  destruct (conflicts_exclude_pairs sample [[cpu; gpu]] (proj1 sample_spec)) as (m & s' & E & _ & H).
  { apply Forall_cons_2; [|constructor]. split; [apply (bool_decide_unpack _); vm_compute; exact I|]. constructor; [apply cpu_ok|constructor; [apply gpu_ok|constructor]]. }
  exists m, s'. split; [exact E|]. destruct (H node_true linux_env [] [app_extra "cpu"; app_extra "gpu"] [] linux_env_release linux_env_possible) as (b & Eb & Hb); [constructor; [apply cpu_ok|constructor; [apply gpu_ok|constructor]]|].
  rewrite Eb. destruct b; [|reflexivity]. exfalso. apply (proj1 Hb eq_refl [cpu; gpu] cpu gpu); [by left|by left|by right; left|done|]. split; [by left|by right; left].
Defined.

(** A universal marker on the platform alone. *)
Definition on_linux : UniversalMarker := mkUniversal linux linux.

Lemma on_linux_projected : projected sample on_linux.
Proof.
  destruct sample_spec as (Hr & Hl & _). split; [done|]. split; [done|]. intros env active [Hok _]. cbn [um_marker um_pep508 on_linux]. pose proof (interner_store _ (reachable_ok _ Hr)) as Hst.
  enough (Hs : forall a a', evaluate sample linux env a = evaluate sample linux env a').
  { split; [intros Ha; by exists active|intros [a Ha]]. by rewrite (Hs active a). }
  intros a a'. unfold evaluate. by rewrite !evaluate_marker by done.
Qed.

Lemma assume_item_exact_witness : exists r s', assume_item true on_linux cpu sample = Ret (r, s') /\ um_evaluate s' r linux_env [] [app_extra "gpu"] [] = Ret true.
Proof.
  destruct sample_spec as (Hr & Hl & _). destruct (assume_item_exact sample on_linux cpu true Hr Hl cpu_ok) as (r & s' & E & _ & _ & H). exists r, s'. split; [exact E|].
  rewrite H; [vm_compute; reflexivity|apply linux_env_possible|]. constructor; [apply gpu_ok|constructor].
Defined.

Lemma universal_operations_witness : exists r s', um_and on_linux on_linux sample = Ret (r, s') /\ universal s' r.
Proof.
  destruct sample_spec as (Hr & Hl & _). assert (Hu : universal sample on_linux) by (apply projected_universal; [exact Hr|exact on_linux_projected]).
  destruct (universal_operations sample on_linux on_linux cm_TRUE linux Hr Hu Hu) as (_ & _ & (r & s' & E & _ & _ & _ & Hx) & _);
    [apply (holds_true sample)|exact Hl|]. exists r, s'. split; [exact E|exact Hx].
Defined.

Lemma unify_inferences_sound_witness : exists r s', unify_inference_sets on_linux [[mkInference true cpu; mkInference false gpu]] sample = Ret (r, s') /\
  um_evaluate s' r linux_env [] [app_extra "cpu"] [] = Ret true.
Proof.
  destruct (unify_inferences_sound sample on_linux [[mkInference true cpu; mkInference false gpu]] (proj1 sample_spec) on_linux_projected) as (r & s' & E & _ & H).
  { repeat constructor; apply cpu_ok || apply gpu_ok. }
  exists r, s'. split; [exact E|]. rewrite (H linux_env [] [app_extra "cpu"] [] [mkInference true cpu; mkInference false gpu]); [vm_compute; reflexivity|apply linux_env_possible| |by left|vm_compute; reflexivity].
  constructor; [apply cpu_ok|constructor].
Defined.

Lemma conflict_for_environment_exact_witness : exists c s', conflict_for_environment (mkUniversal dev_extra node_true) linux_env sample = Ret (c, s') /\
  evaluate s' (cm_marker c) linux_env [bs "dev"] = Ret true.
Proof.
  destruct sample_spec as (Hr & _ & _ & _ & Hd). destruct (conflict_for_environment_exact sample (mkUniversal dev_extra node_true) linux_env Hr) as (c & s' & E & _ & H);
    [exact Hd|apply sample_printable|discriminate|exact linux_env_release|exact linux_env_possible|]. exists c, s'. split; [exact E|].
  rewrite H by (exact linux_env_release || exact linux_env_possible). vm_compute. reflexivity.
Defined.

(** The extra [dev] of the package in scope is active on Linux. *)
Definition dev_known : list (ConflictItem * NodeId) := [(mkItem (bs "app") (ConflictExtra (bs "dev")), linux)].

Lemma dev_stands_for name m : stands_for (Some (bs "app")) dev_known name m -> m = linux.
Proof. intros [(i & Hi & _)|(_ & q & _ & Hi)]; apply list_elem_of_singleton in Hi; congruence. Qed.

Lemma resolve_extras_substitutes_witness : exists r s', resolve_activated_extras dev_extra (Some (bs "app")) dev_known sample = Ret (r, s') /\
  evaluate s' r linux_env [] = evaluate sample dev_extra linux_env [bs "extra-3-app-dev"; bs "dev"].
Proof.
  destruct sample_spec as (Hr & Hl & _ & _ & Hd). destruct (resolve_extras_substitutes sample dev_extra (Some (bs "app")) dev_known Hr) as (r & s' & E & _ & H).
  { exact Hd. } { apply sample_printable. } { by apply NoDup_singleton. } { constructor; [|constructor]. split; [|exact Hl]. repeat split; vm_compute; (reflexivity || discriminate). }
  exists r, s'. split; [exact E|]. apply H; [exact linux_env_release|exact linux_env_possible|]. intros name. unfold names_contain. cbn [existsb]. rewrite !orb_true_iff, !bytes_eqb_eq. split.
  - intros Hn. exists linux. split; [|vm_compute; reflexivity]. destruct Hn as [->|[->|?]]; [left| |done].
    + exists (mkItem (bs "app") (ConflictExtra (bs "dev"))). split; [by left|reflexivity].
    + right. split; [|exists (bs "app"); split; [reflexivity|by left]]. intros i m' Hi. apply list_elem_of_singleton in Hi as [= -> _]. vm_compute. discriminate.
  - intros (m & [(i & Hi & <-)|(_ & q & _ & Hi)] & _); apply list_elem_of_singleton in Hi; injection Hi; intros; subst; [by left|]. right. by left.
Defined.

(** ** Where the code and its description differ *)

(** The conjunction of [extra == 'dev'] and [extra != 'dev'] is FALSE, its PEP 508 part is
    TRUE, and it counts as having a conflict marker. *)
Example and_keeps_pep508 :
  outcome_map (fun r => (r.1, has_conflict_marker r.1)) (um_and (mkUniversal dev_extra node_true) (mkUniversal (node_not dev_extra) node_true) sample) = Ret (mkUniversal node_false node_true, true).
Proof. vm_compute. reflexivity. Qed.
